(* ===== verification/_CoqProject ===== *)
-Q . S2P
Prelude.v
BTree.v
Curves.v
Tfa.v
Cqf.v
NetGraph.v
Vocabulary.v
SyntaxKind.v
Text.v
Cursor.v
Lexer.v
LexerSpec.v
TokenSet.v
Diagnostics.v
Categories.v
CategoryRules.v
Names.v
PropertyExpr.v
ItemTree.v
CategoryCheck.v
PropertyMap.v
Instance.v
Soms.v
Semantic.v
ModeReachability.v
PropertyTypes.v
F64.v
StandardProperties.v
Quantities.v
Resolver.v
FeatureGroups.v
Containment.v
Builder.v
BuilderSpec.v
Instantiate.v
PropertyAccessors.v
Parser.v
Grammar.v
GrammarProperties.v
GrammarSections.v
GrammarComponents.v
ParserSpec.v
GrammarTactics.v
GrammarSpec.v
GrammarSectionsSpec.v
GrammarComponentsSpec.v
TreeBuilder.v
TreeLossless.v
Parsing.v
AnnexLexer.v
Emv2Kind.v
BaKind.v
AnnexLexerSpec.v
AnnexParser.v
AnnexGrammarTactics.v
Stalls.v
AnnexParsing.v
Emv2Grammar.v
Emv2GrammarSpec.v
Emv2Parsing.v
BaGrammar.v
BaGrammarSpec.v
BaParsing.v
SysmlKind.v
SysmlLexerSpec.v
SysmlGrammar.v
SysmlGrammarSpec.v
SysmlParsing.v
SchedulingVerified.v
Overlay.v
Sorting.v
Constraints.v
Allocate.v
Rta.v
ArincSupply.v
Emv2Propagation.v
Variants.v
Passes.v
Legality.v
FaultTree.v
