(* ===== verification/Prelude.v ===== *)
(** * spar: a verification library beside the Rust sources

    spar is a toolchain for the architecture language AADL: parsers with
    lossless syntax trees, a model layer that instantiates a system, and
    analyses over the instance.  This library models the parts whose results
    the rest relies on and proves what makes them correct.  Names are those
    of the Rust code; the doc comment before a definition gives its file and
    lines below [src/].

    ** Conventions

    A Rust function that can panic returns in [Exec] ([Done], [Panic] or
    [Stuck]); a [Result] is [Result].  A loop or a recursion that is not
    structural runs on fuel, and [Stuck] is what is left when the fuel runs
    out: a theorem that a function "returns" says that its outcome is [Done],
    for the fuel the definition itself computes (the number of bytes left
    for a scanner, of tokens for a grammar loop, of servers and hops for an
    iteration, and so on), so fuel is never an assumption.  [u32], [u64] and
    [u128] values are [N] with the operations of this file ([sat_add],
    [div_checked], [as_u32], [clamp_u64], ...) where the code has them;
    [usize] indices are [nat].  Vectors are lists, hash maps finite maps, ordered maps
    the sorted association lists of [BTree], strings lists of bytes ([Text])
    in the front end and [string] in the model layer.  Plain arithmetic that
    would leave its width panics, as it does in a build with overflow checks.
    [f64] is IEEE binary64 ([F64]).  A diagnostic whose message is a
    formatted text is kept as the data the text is formatted from.

    ** The front end ([crates/spar-parser], [spar-syntax], [spar-annex],
    [spar-sysml2])

    The repository has one parser design used several times: a lexer, an
    event parser with markers, a recursive-descent grammar and a tree builder
    that feeds the events to the third-party crate rowan.

    - [Vocabulary] is the interface between them: an enum with an injective
      discriminant, trivia, and the kinds the parser itself names.
      [SyntaxKind], [Emv2Kind], [BaKind], [SysmlKind] are its instances.
    - [Text], [Cursor], [Lexer]: strings, the cursor with its scanning loops,
      and the AADL scanner; [Cursor] proves the loops lossless over any
      scanner that consumes and stays on character boundaries, [LexerSpec]
      discharges that for AADL.  [AnnexLexer], [Emv2Kind], [BaKind] and
      [AnnexLexerSpec] do the same for the annexes, which advance bytewise,
      [SysmlKind] and [SysmlLexerSpec] for SysML v2.
    - [TokenSet], [Parser], [AnnexParser]: the parser state
      ([Parser], [Marker], [CompletedMarker], the events).  A marker is its
      position; the drop bomb it carries, which panics when a marker is neither
      completed nor abandoned, is not modelled.  That the events are balanced
      ([ParserSpec]) implies that it never goes off: a start event that was
      left open keeps the kind [tombstone], which no balanced list has.
    - [Grammar], [GrammarProperties], [GrammarSections],
      [GrammarComponents]: every function of
      [crates/spar-parser/src/grammar/], in a state monad over [Exec].
      [Emv2Grammar] and [BaGrammar] are the grammars of the annexes,
      [SysmlGrammar] the parser and grammar of SysML v2, whose token sets have
      256 bits.
    - [ParserSpec] is a program logic for them ([run], a weakest-precondition
      style judgement, with the invariant that the events form a nest of
      balanced segments and record exactly the consumed tokens), and
      [GrammarTactics] its automation; the [...Spec] file of each grammar
      file gives each function its specification ([Adds] at most so many
      events, or [Eats] at least a token).
    - [TreeBuilder], [TreeLossless]: forward parents are
      resolved, the events meet the raw tokens, and the leaves of the tree
      built are the tokens of the source.  rowan is a class,
      [GreenNodeBuilder], of what its builder does; [StackBuilder] is an
      instance.  A lexer and a grammar that never stalls are composed at the
      end of [TreeLossless]; [Parsing] is that for AADL, [SysmlParsing] for
      SysML v2.
    - Two loops of the annex grammars do not advance at a token their body
      does not handle.  [TokenStream] therefore says whether a grammar may
      stall ([may_stall]); it is [False] for AADL.  [Stalls] is the logic of
      what a function does from a given token, which shows that the loops do
      run forever; [AnnexParsing], [Emv2Parsing] and [BaParsing] state what
      is lossless where they do not.

    ** The model layer ([crates/spar-hir-def], parts of [spar-analysis])

    Where a component is one file, its definitions come first and the
    theorems about them after.

    - [ItemTree]: the declarations of a file, the data everything below is
      made of.  [StandardProperties]: the predeclared property sets and the
      inherited properties.  [Resolver]: the scope of a set of item trees,
      the resolution of names in it, and the shapes of data types, which are
      those a relation on the trees alone describes ([shaped]).
      [FeatureGroups]: the features a feature group stands for, against a
      relation on the trees in the same way ([stands_for]), and the actuals
      of prototypes.
    - [Names], [PropertyExpr], [PropertyMap]: names, property expressions
      with the [value()] references in them (resolution returns exactly when
      there is no cycle), and the layered property maps (each holds what its
      history says, values and sources alike).
    - [PropertyTypes]: the two checkers of property
      values, each against a typing relation, and compared.
    - [Instance], [Soms], [Semantic]: the
      instance, its paths and references, the system operation modes and the
      semantic connections, against declarative specifications.
    - [Containment]: the search for implementations that contain themselves,
      exact where it looks.  [Builder]: the builder of the instance, each
      method a program of a state monad over [Exec].  [BuilderSpec] is a logic
      of total correctness for them ([wp], and [keeps] for those that leave
      the arenas alone), with the invariant of the builder ([sane], and
      [settled]: each component lists what it owns).  [Instantiate] composes
      it with the passes that follow.  [instantiate_component] recurses on
      [levels], what is left of the depth bound of 100; the walks along
      extended classifiers run on fuel, one more than the different keys that
      their lists of visited classifiers can hold, so that no chain exhausts
      it.  That instantiation returns is proved for trees that are
      [well_indexed]: indices in range, sizes that do not overflow when they
      are read, brackets of names in order; a size that overflows does panic.
    - [F64], [Quantities], [PropertyAccessors]: how texts and typed expressions are read as
      durations, sizes, rates and references.  A float made from an integer
      is finite and comparison of numbers a total preorder, which is what
      the clients below use.
    - [Overlay]: migration overlays with their
      validation, the effective processor binding, and the grouping of
      threads by it.
    - [Diagnostics], [Categories], [CategoryRules], [CategoryCheck]: the
      legality tables and the pass over them; [ModeReachability]: the
      reachability analysis of modes; [Emv2Propagation]: how errors travel
      over the connections of an instance, exact against paths in the graph (of
      components: the code looks at no port).
    - [Passes]: what an analysis is (a record of its runs), the runner, and
      the passes that check the structure of an instance.  [Lawful] is what a
      pass promises: on an instance whose indices are in range it returns
      diagnostics of its own, placed in the instance.  Each pass is shown to
      keep the law, and the runner is proved against it.
    - [Legality]: the naming and extension rules over item trees, three more
      passes, and the engine that gives diagnostics their rule.  The rules
      over item trees are silent exactly on the legal ones, and the fifteen
      structural passes run on every instance that [Instantiate] makes of
      well-indexed trees: what
      the passes need, that references are resolved from a component of the
      instance, is an invariant of the builder ([Instantiate.inside]).
    - [FaultTree]: fault trees, whose minimal cut sets are exactly the least
      sets of events that make the top event happen, and the pass that builds
      one from the hierarchy of an instance.
    - [Variants]: which components of an instance a product-line variant
      keeps; an item is the class [HasBindingIdentity].  What a symbol covers
      is what the code says, which is not what the contract with rivet says.

    ** Timing analyses ([crates/spar-network], parts of [spar-analysis])

    - [Curves]: arrival and service curves and the closed-form bounds, each
      against the readouts of the curves; [Tfa]: the burst fixed
      point, against the least solution of its equations (a server without a
      rate counts as one without delay).
    - [Cqf]: schedule synthesis, sound and complete.
    - [NetGraph]: the network graph and reachability.
    - [SchedulingVerified]: response-time analysis, exact against the least
      fixed point of the recurrence.
    - [Rta]: the pass that applies it to an instance, by default
      and per system operation mode; the components are read one by one, and
      the verdicts are those of the recurrence over the readings of a group.
    - [ArincSupply]: response times inside an ARINC 653
      partition, against the supply of a periodic resource.
    - [Sorting]: stable sorting, over any comparison that is a total
      preorder; [Constraints], [Allocate]: the deployment
      solver's input and its two bin-packing heuristics, which bind
      each thread at most once and no processor beyond a utilization of one.

    ** Not modelled

    Third-party code (rowan, salsa, serde, LP and MILP solvers) and code that is
    glue around it: typed wrappers of syntax nodes, lowering from syntax nodes
    to item trees, databases, the LSP and RPC servers.  Code generators,
    importers and renderers, which assemble text.  Of modelled parts: the
    text of messages that are kept as data, the impact report of the
    allocator ([powf]), the summary of an instance, the [f64] evaluators of
    property expressions, the text exports of the reachability analysis, and
    the flattening of rowan trees for the annex registry. *)

From stdpp Require Export base tactics list numbers option strings.
From Stdlib Require Export Lia.

(** ** Outcomes of Rust code

    A Rust function either returns, or panics (a failed assertion, an
    [unwrap] on [None], an index out of range, a division by zero).  A loop
    or a recursion that the model runs on fuel may also exhaust it; the
    theorems show that [Stuck] never happens. *)
Inductive Exec (A : Type) : Type :=
  | Done (a : A)
  | Panic
  | Stuck.
Arguments Done {A} a.
Arguments Panic {A}.
Arguments Stuck {A}.

#[global] Instance Exec_ret : MRet Exec := fun A a => Done a.
#[global] Instance Exec_bind : MBind Exec := fun A B k m =>
  match m with Done a => k a | Panic => Panic | Stuck => Stuck end.

#[global] Instance Exec_fmap : FMap Exec := fun A B f m =>
  match m with Done a => Done (f a) | Panic => Panic | Stuck => Stuck end.

(** Rust's [Result]. *)
Inductive Result (A E : Type) : Type :=
  | Ok (a : A)
  | Err (e : E).
Arguments Ok {A E} a.
Arguments Err {A E} e.

#[global] Instance Result_ret {E} : MRet (fun A => Result A E) := fun A a => Ok a.
#[global] Instance Result_bind {E} : MBind (fun A => Result A E) := fun A B k m =>
  match m with Ok a => k a | Err e => Err e end.

(** [m?] in a function that may also panic: bind on [Exec (Result A E)]. *)
Definition try_bind {A B E} (m : Exec (Result A E)) (k : A → Exec (Result B E)) : Exec (Result B E) :=
  r ← m; match r with Ok a => k a | Err e => Done (Err e) end.
Notation "x ←? m ; k" := (try_bind m (λ x, k))
  (at level 20, m at level 100, k at level 200, only parsing) : stdpp_scope.
Notation "' x ←? m ; k" := (try_bind m (λ x : _, match x with x => k end))
  (at level 20, x pattern, m at level 100, k at level 200, only parsing) : stdpp_scope.

Lemma Exec_bind_Done {A B} (m : Exec A) (k : A → Exec B) b :
  m ≫= k = Done b ↔ ∃ a, m = Done a ∧ k a = Done b.
Proof. split; [destruct m; [by eauto|done|done] | by intros (a & -> & ?)]. Qed.

(** [mapM] in [Exec] runs every step, in order. *)
Lemma mapM_Done {A B} (f : A → Exec B) xs ys :
  mapM f xs = Done ys ↔ Forall2 (λ x y, f x = Done y) xs ys.
Proof.
  split.
  - revert ys. induction xs as [|x xs IH]; intros ys; simpl; [intros [= <-]; constructor|].
    intros (y & Hy & (zs & Hz & [= <-])%Exec_bind_Done)%Exec_bind_Done. constructor; auto.
  - induction 1 as [|x y xs ys Hxy _ IH]; [done|]. simpl. by rewrite Hxy; simpl; rewrite IH.
Qed.

(** ** Machine integers

    An unsigned [w]-bit integer is an [N]; [fits w] says that a value is in
    range, and the operations write the width out. *)
#[local] Open Scope N_scope.

Definition max_of (w : N) : N := 2 ^ w - 1.
Definition fits (w : N) (x : N) : Prop := x ≤ max_of w.

Definition U32_MAX : N := 4294967295.
Definition U64_MAX : N := 18446744073709551615.
Abbreviation u64 := N (only parsing).
Abbreviation u128 := N (only parsing).
Abbreviation u32 := N (only parsing).
Abbreviation usize := nat (only parsing).

(** [u64::saturating_add], [saturating_mul], [saturating_sub]. *)
Definition sat_add (a b : u64) : u64 := N.min (a + b) U64_MAX.
Definition sat_mul (a b : u64) : u64 := N.min (a * b) U64_MAX.
Definition sat_sub (a b : u64) : u64 := a - b.

(** [u64::div_ceil] and [/]: both panic on a zero divisor. *)
Definition ceil_quot (a b : N) : N := (a + b - 1) / b.
Definition div_ceil (a b : N) : Exec N :=
  if b =? 0 then Panic else Done (ceil_quot a b).
Definition div_checked (a b : N) : Exec N :=
  if b =? 0 then Panic else Done (a / b).

(** [as u32] / [as u64]: the low bits. *)
Definition as_u32 (x : N) : N := x mod (U32_MAX + 1).
Definition as_u64 (x : N) : N := x mod (U64_MAX + 1).
(** A narrowing that saturates, [if x > u64::MAX as u128 { u64::MAX } else { x as u64 }]. *)
Definition clamp_u64 (x : u128) : u64 := if U64_MAX <? x then U64_MAX else as_u64 x.

Lemma clamp_u64_min x : clamp_u64 x = N.min x U64_MAX.
Proof.
  unfold clamp_u64, as_u64. destruct (N.ltb_spec U64_MAX x); [lia|].
  rewrite N.mod_small; lia.
Qed.

Lemma as_u32_small x : x ≤ U32_MAX → as_u32 x = x.
Proof. intros. unfold as_u32. apply N.mod_small. lia. Qed.

Lemma sat_add_le a b : sat_add a b ≤ a + b.
Proof. unfold sat_add. lia. Qed.
Lemma sat_add_max a b : sat_add a b ≤ U64_MAX.
Proof. unfold sat_add. lia. Qed.
Lemma sat_add_exact a b : a + b ≤ U64_MAX → sat_add a b = a + b.
Proof. unfold sat_add. lia. Qed.
Lemma sat_add_mono a b c d : a ≤ c → b ≤ d → sat_add a b ≤ sat_add c d.
Proof. unfold sat_add. lia. Qed.
Lemma sat_add_assoc a b c : sat_add (sat_add a b) c = sat_add a (sat_add b c).
Proof. unfold sat_add. lia. Qed.
Lemma sat_mul_mono a b c d : a ≤ c → b ≤ d → sat_mul a b ≤ sat_mul c d.
Proof. unfold sat_mul. intros. assert (a * b ≤ c * d) by (apply N.mul_le_mono; lia). lia. Qed.
Lemma sat_mul_max a b : sat_mul a b ≤ U64_MAX.
Proof. unfold sat_mul. lia. Qed.

(** ** Division *)
Lemma div_mono a b c : a ≤ b → a / c ≤ b / c.
Proof.
  intros. destruct (decide (c = 0)) as [->|]; [by rewrite !N.div_0_r|].
  by apply N.Div0.div_le_mono.
Qed.

Lemma ceil_quot_spec a b x : 0 < b → ceil_quot a b ≤ x ↔ a ≤ x * b.
Proof.
  intros Hb. unfold ceil_quot. split.
  - intros H. pose proof (N.div_mod (a + b - 1) b ltac:(lia)).
    pose proof (N.mod_lt (a + b - 1) b ltac:(lia)). nia.
  - intros H. apply N.lt_succ_r. apply N.Div0.div_lt_upper_bound. nia.
Qed.

Lemma ceil_quot_mono a b c : a ≤ b → ceil_quot a c ≤ ceil_quot b c.
Proof. intros. unfold ceil_quot. apply div_mono. lia. Qed.

Lemma ceil_quot_ge a b : 0 < b → a ≤ ceil_quot a b * b.
Proof. intros. by apply ceil_quot_spec. Qed.

Lemma ceil_quot_0 b : ceil_quot 0 b = 0.
Proof.
  unfold ceil_quot. destruct (decide (b = 0)) as [->|]; [done|]. apply N.div_small. lia.
Qed.

Lemma div_le_spec a b x : 0 < b → x ≤ a / b ↔ x * b ≤ a.
Proof.
  intros Hb. split; intros H.
  - pose proof (N.Div0.mul_div_le a b). nia.
  - apply N.div_le_lower_bound; nia.
Qed.

Lemma div_add_le a b c : 0 < c → a / c + b / c ≤ (a + b) / c.
Proof.
  intros. apply div_le_spec; [done|].
  pose proof (N.Div0.mul_div_le a c). pose proof (N.Div0.mul_div_le b c). nia.
Qed.

Lemma div_add_lt a b c : 0 < c → (a + b) / c ≤ a / c + b / c + 1.
Proof.
  intros. apply N.lt_succ_r. apply N.Div0.div_lt_upper_bound.
  pose proof (N.div_mod a c ltac:(lia)). pose proof (N.mod_lt a c ltac:(lia)).
  pose proof (N.div_mod b c ltac:(lia)). pose proof (N.mod_lt b c ltac:(lia)). nia.
Qed.

(** Turn the quotients of the goal and the context into variables, for [lia]. *)
Ltac gen_div :=
  repeat match goal with
  | H : context [?a / ?b] |- _ =>
      let q := fresh "q" in set (q := a / b) in *; clearbody q
  | |- context [?a / ?b] =>
      let q := fresh "q" in set (q := a / b) in *; clearbody q
  end.

Create HintDb spar.
#[export] Hint Resolve sat_add_max sat_mul_max sat_add_mono sat_mul_mono
  div_mono ceil_quot_mono : spar.

(** [Option::is_some]. *)
Definition is_some {A} (o : option A) : bool := match o with Some _ => true | None => false end.

(** ** Loops over a list

    [for x in xs { state = f(state, x) }]. *)
Fixpoint foldM {A B} (f : A → B → Exec A) (a : A) (bs : list B) : Exec A :=
  match bs with [] => Done a | b :: bs => a ← f a b; foldM f a bs end.

Lemma foldM_app {A B} (f : A → B → Exec A) a l1 l2 :
  foldM f a (l1 ++ l2) = (a' ← foldM f a l1; foldM f a' l2).
Proof.
  revert a. induction l1 as [|x l1 IH]; intros a; [done|]. simpl.
  destruct (f a x); simpl; try done.
Qed.

(** ** Bounded loops

    [for _ in 0..n { body }] with an early [return]: [body] maps the loop
    state to the next one ([inl]) or to the value returned ([inr]).  The
    count is binary, so that a loop whose bound is a deadline in picoseconds
    still evaluates when it returns early; [loop_upto_nat] is the same loop
    on a unary count, for induction. *)
Section loops.
Context {S R : Type} (body : S → Exec (S + R)).

Definition then_loop (k : S → Exec (S + R)) (m : Exec (S + R)) : Exec (S + R) :=
  o ← m; match o with inl s => k s | inr r => Done (inr r) end.

Fixpoint loop_pos (n : positive) (s : S) : Exec (S + R) :=
  match n with
  | xH => body s
  | xO n' => then_loop (loop_pos n') (loop_pos n' s)
  | xI n' => then_loop (λ s', then_loop (loop_pos n') (loop_pos n' s')) (body s)
  end.

Definition loop_upto (n : N) (s : S) : Exec (S + R) :=
  match n with N0 => Done (inl s) | Npos p => loop_pos p s end.

Fixpoint loop_upto_nat (n : nat) (s : S) : Exec (S + R) :=
  match n with
  | O => Done (inl s)
  | Datatypes.S n' => then_loop (loop_upto_nat n') (body s)
  end.

Lemma loop_upto_nat_add n m s :
  loop_upto_nat (n + m) s = then_loop (loop_upto_nat m) (loop_upto_nat n s).
Proof.
  revert s. induction n as [|n IH]; intros s; [done|]. simpl.
  destruct (body s) as [[s'|r]| |]; try done. apply IH.
Qed.

Lemma then_loop_inl m : then_loop (λ s, Done (inl s)) m = m.
Proof. by destruct m as [[]| |]. Qed.

Lemma then_loop_ext (k1 k2 : S → Exec (S + R)) m :
  (∀ s, k1 s = k2 s) → then_loop k1 m = then_loop k2 m.
Proof. intros H. destruct m as [[s|r]| |]; simpl; try done. Qed.

Lemma loop_pos_nat p s : loop_pos p s = loop_upto_nat (Pos.to_nat p) s.
Proof.
  revert s. induction p as [p IH|p IH|]; intros s.
  - rewrite Pos2Nat.inj_xI. simpl. apply then_loop_ext. intros s'.
    rewrite !Nat.add_0_r, loop_upto_nat_add, IH. by apply then_loop_ext.
  - rewrite Pos2Nat.inj_xO. simpl.
    rewrite !Nat.add_0_r, loop_upto_nat_add, IH. by apply then_loop_ext.
  - rewrite Pos2Nat.inj_1. simpl. by rewrite then_loop_inl.
Qed.

Lemma loop_upto_eq n s : loop_upto n s = loop_upto_nat (N.to_nat n) s.
Proof. destruct n as [|p]; [done|]. simpl. apply loop_pos_nat. Qed.
End loops.
