(* ===== verification/BTree.v ===== *)
(** * Ordered maps

    Rust's [BTreeMap] as an association list with strictly increasing keys,
    in iteration order: [insert], [entry(k).or_insert(v)] and lookup, on any
    type of keys with a total order. *)
From S2P Require Import Prelude.
From stdpp Require Export sorting.

Class KeyOrder (K : Type) := {
  key_cmp : K → K → comparison;
  key_cmp_eq a b : key_cmp a b = Eq ↔ a = b;
  key_cmp_antisym a b : key_cmp b a = CompOpp (key_cmp a b);
  key_cmp_trans a b c : key_cmp a b = Lt → key_cmp b c = Lt → key_cmp a c = Lt;
}.

#[export] Instance N_key : KeyOrder N.
Proof.
  refine {| key_cmp := N.compare |}.
  - apply N.compare_eq_iff.
  - intros a b. apply N.compare_antisym.
  - intros a b c. rewrite !N.compare_lt_iff. apply N.lt_trans.
Defined.

#[export] Instance nat_key : KeyOrder nat.
Proof.
  refine {| key_cmp := Nat.compare |}.
  - apply Nat.compare_eq_iff.
  - intros a b. apply Nat.compare_antisym.
  - intros a b c. rewrite !Nat.compare_lt_iff. apply Nat.lt_trans.
Defined.

Section btree.
Context {K V : Type} `{KeyOrder K}.

Definition key_lt (a b : K) : Prop := key_cmp a b = Lt.

Lemma key_cmp_refl a : key_cmp a a = Eq.
Proof. by apply key_cmp_eq. Qed.

Fixpoint bt_get (k : K) (m : list (K * V)) : option V :=
  match m with
  | [] => None
  | (k', v) :: m => match key_cmp k k' with Eq => Some v | Lt => None | Gt => bt_get k m end
  end.

(** [*m.entry(k).or_insert(d) = f(..)]: the value at [k] becomes [f] of the
    present one, [f None] when there is none. *)
Fixpoint bt_alter (f : option V → V) (k : K) (m : list (K * V)) : list (K * V) :=
  match m with
  | [] => [(k, f None)]
  | (k', v) :: m' =>
      match key_cmp k k' with
      | Eq => (k', f (Some v)) :: m'
      | Lt => (k, f None) :: m
      | Gt => (k', v) :: bt_alter f k m'
      end
  end.

(** [m.insert(k, v)]. *)
Definition bt_insert (k : K) (v : V) : list (K * V) → list (K * V) := bt_alter (λ _, v) k.

(** Strictly increasing keys. *)
Fixpoint bt_sorted (m : list (K * V)) : Prop :=
  match m with
  | [] => True
  | (k, _) :: m => Forall (λ kv, key_lt k (fst kv)) m ∧ bt_sorted m
  end.

Lemma bt_get_below k m : Forall (λ kv, key_lt k (fst kv)) m → bt_get k m = None.
Proof. destruct 1 as [|[k' v] m Hk _]; [done|]. simpl in *. by rewrite Hk. Qed.

Lemma bt_alter_below f a k m :
  key_lt a k → Forall (λ kv, key_lt a (fst kv)) m → Forall (λ kv, key_lt a (fst kv)) (bt_alter f k m).
Proof.
  intros Ha. induction 1 as [|[k' v] m Hk Hm IH]; simpl; [by constructor|].
  destruct (key_cmp k k'); by repeat constructor.
Qed.

Lemma key_cmp_gt a b : key_cmp a b = Gt → key_lt b a.
Proof. intros E. unfold key_lt. by rewrite key_cmp_antisym, E. Qed.

Lemma bt_sorted_alter f k m : bt_sorted m → bt_sorted (bt_alter f k m).
Proof.
  induction m as [|[k' v] m IH]; simpl; [by repeat constructor|]. intros [Hk Hm].
  destruct (key_cmp k k') eqn:E; simpl; [done| |].
  - split; [|done]. constructor; [done|]. eapply Forall_impl; [exact Hk|].
    intros [k2 v2] Hk2. by eapply key_cmp_trans.
  - split; [|by apply IH]. apply bt_alter_below; [by apply key_cmp_gt|done].
Qed.

Lemma bt_get_alter f k m : bt_sorted m → bt_get k (bt_alter f k m) = Some (f (bt_get k m)).
Proof.
  induction m as [|[k' v] m IH]; simpl; [by rewrite key_cmp_refl|]. intros [Hk Hm].
  destruct (key_cmp k k') eqn:E; simpl; rewrite ?E, ?key_cmp_refl; [done..|by apply IH].
Qed.

Lemma bt_get_alter_ne f k k' m :
  k ≠ k' → bt_sorted m → bt_get k (bt_alter f k' m) = bt_get k m.
Proof.
  intros Hne. induction m as [|[k2 v] m IH]; simpl.
  - intros _. destruct (key_cmp k k') eqn:E; [by apply key_cmp_eq in E|done..].
  - intros [Hk Hm]. destruct (key_cmp k' k2) eqn:E; simpl; [|clear IH|by rewrite IH].
    + apply key_cmp_eq in E as ->. destruct (key_cmp k k2) eqn:E2; [by apply key_cmp_eq in E2|done..].
    + destruct (key_cmp k k') eqn:E2; simpl; [by apply key_cmp_eq in E2| |done].
      by rewrite (key_cmp_trans _ _ _ E2 E).
Qed.

Lemma bt_keys_alter f k m k' : k' ∈ (bt_alter f k m).*1 ↔ k' = k ∨ k' ∈ m.*1.
Proof.
  induction m as [|[k2 v] m IH]; simpl; [rewrite elem_of_cons; naive_solver|].
  destruct (key_cmp k k2) eqn:E; simpl; rewrite !elem_of_cons; [|naive_solver|rewrite IH; naive_solver].
  apply key_cmp_eq in E as ->. naive_solver.
Qed.

(** Iteration visits exactly the entries. *)
Lemma bt_elem k v m : bt_sorted m → (k, v) ∈ m ↔ bt_get k m = Some v.
Proof.
  induction m as [|[k' v'] m IH]; simpl; intros Hs.
  - split; [by intros ?%not_elem_of_nil|done].
  - destruct Hs as [Hk Hm]. rewrite elem_of_cons, (IH Hm). destruct (key_cmp k k') eqn:E.
    + apply key_cmp_eq in E as ->. split; [|intros [= ->]; by left].
      intros [[= ->]|Hg]; [done|]. by rewrite bt_get_below in Hg.
    + split; [|done]. intros [[= -> _]|Hg]; [by rewrite key_cmp_refl in E|].
      apply IH in Hg; [|done]. rewrite Forall_forall in Hk. specialize (Hk _ Hg). simpl in Hk.
      pose proof (key_cmp_trans _ _ _ E Hk) as Hc. by rewrite key_cmp_refl in Hc.
    + split; [|by right]. intros [[= -> _]|Hg]; [by rewrite key_cmp_refl in E|done].
Qed.
End btree.

#[export] Hint Resolve bt_sorted_alter : spar.
