(* ===== verification/Curves.v ===== *)
(** * Network Calculus curves

    The operators of [crates/spar-network/src/curves.rs]: leaky-bucket
    arrival curves, rate-latency service curves and the closed-form backlog,
    delay, residual and output bounds, in [u64] arithmetic with a [u128]
    intermediate. *)
From S2P Require Import Prelude.
#[local] Open Scope N_scope.

(** crates/spar-network/src/curves.rs:76 [PS_PER_SECOND] *)
Definition PS_PER_SECOND : u64 := 1000000000000.
(** crates/spar-network/src/curves.rs:79 [BITS_PER_BYTE] *)
Definition BITS_PER_BYTE : u64 := 8.

(** crates/spar-network/src/curves.rs:87-96 [bits_to_bytes_in_window] *)
Definition bits_to_bytes_in_window (rate_bps t_ps : u64) : u64 :=
  let product := rate_bps * t_ps in
  let denom := BITS_PER_BYTE * PS_PER_SECOND in
  clamp_u64 (product / denom).

(** crates/spar-network/src/curves.rs:105-118 [time_to_send_ps] *)
Definition time_to_send_ps (bytes rate_bps : u64) : u64 :=
  if rate_bps =? 0 then U64_MAX
  else
    let numer := bytes * BITS_PER_BYTE * PS_PER_SECOND in
    let denom := rate_bps in
    clamp_u64 (ceil_quot numer denom).

(** crates/spar-network/src/curves.rs:151-159 [ArrivalCurve] *)
Record ArrivalCurve := {
  burst_bytes : u64;
  sustained_rate_bps : u64;
  peak_rate_bps : option u64;
}.

(** crates/spar-network/src/curves.rs:163-169 [ArrivalCurve::affine] *)
Definition affine (burst_bytes sustained_rate_bps : u64) : ArrivalCurve :=
  {| burst_bytes := burst_bytes;
     sustained_rate_bps := sustained_rate_bps;
     peak_rate_bps := None |}.

(** crates/spar-network/src/curves.rs:173-179 [ArrivalCurve::with_peak] *)
Definition with_peak (burst_bytes sustained_rate_bps peak_rate_bps : u64) : ArrivalCurve :=
  {| burst_bytes := burst_bytes;
     sustained_rate_bps := sustained_rate_bps;
     peak_rate_bps := Some peak_rate_bps |}.

(** crates/spar-network/src/curves.rs:194-211 [ArrivalCurve::at] *)
Definition arrival_at (a : ArrivalCurve) (t_ps : u64) : u64 :=
  if t_ps =? 0 then 0
  else
    let sustained :=
      sat_add (burst_bytes a) (bits_to_bytes_in_window (sustained_rate_bps a) t_ps) in
    match peak_rate_bps a with
    | Some peak =>
        let peak_term := bits_to_bytes_in_window peak t_ps in
        N.min sustained peak_term
    | None => sustained
    end.

(** crates/spar-network/src/curves.rs:227-232 [ServiceCurve] *)
Record ServiceCurve := {
  rate_bps : u64;
  latency_ps : u64;
}.

(** crates/spar-network/src/curves.rs:236-241 [ServiceCurve::rate_latency] *)
Definition rate_latency (rate_bps latency_ps : u64) : ServiceCurve :=
  {| rate_bps := rate_bps; latency_ps := latency_ps |}.

(** crates/spar-network/src/curves.rs:247-253 [ServiceCurve::at] *)
Definition service_at (b : ServiceCurve) (t_ps : u64) : u64 :=
  if t_ps <=? latency_ps b then 0
  else
    let delta := t_ps - latency_ps b in
    bits_to_bytes_in_window (rate_bps b) delta.

(** crates/spar-network/src/curves.rs:261-268 [NcError] *)
Inductive NcError := UnstableServer | UnservableFlow.

(** crates/spar-network/src/curves.rs:300-306 [backlog_bound] *)
Definition backlog_bound (alpha : ArrivalCurve) (beta : ServiceCurve) : Result u64 NcError :=
  if rate_bps beta <? sustained_rate_bps alpha then Err UnstableServer
  else
    let inflation := bits_to_bytes_in_window (sustained_rate_bps alpha) (latency_ps beta) in
    Ok (sat_add (burst_bytes alpha) inflation).

(** crates/spar-network/src/curves.rs:324-333 [delay_bound] *)
Definition delay_bound (alpha : ArrivalCurve) (beta : ServiceCurve) : Result u64 NcError :=
  if rate_bps beta <? sustained_rate_bps alpha then Err UnstableServer
  else if rate_bps beta =? 0 then Err UnstableServer
  else
    let burst_drain_ps := time_to_send_ps (burst_bytes alpha) (rate_bps beta) in
    Ok (sat_add (latency_ps beta) burst_drain_ps).

(** crates/spar-network/src/curves.rs:350-363 [residual_service] *)
Definition residual_service (beta : ServiceCurve) (alpha_competing : ArrivalCurve)
    : Result ServiceCurve NcError :=
  if rate_bps beta <=? sustained_rate_bps alpha_competing then Err UnservableFlow
  else
    let residual_rate := rate_bps beta - sustained_rate_bps alpha_competing in
    let extra_latency := time_to_send_ps (burst_bytes alpha_competing) residual_rate in
    Ok {| rate_bps := residual_rate;
          latency_ps := sat_add (latency_ps beta) extra_latency |}.

(** crates/spar-network/src/curves.rs:379-389 [output_bound] *)
Definition output_bound (alpha : ArrivalCurve) (beta : ServiceCurve) : Result ArrivalCurve NcError :=
  if rate_bps beta <? sustained_rate_bps alpha then Err UnstableServer
  else
    let inflation := bits_to_bytes_in_window (sustained_rate_bps alpha) (latency_ps beta) in
    Ok {| burst_bytes := sat_add (burst_bytes alpha) inflation;
          sustained_rate_bps := sustained_rate_bps alpha;
          peak_rate_bps := peak_rate_bps alpha |}.

(** ** Lemmas on the conversions *)

(** Picosecond-bits per byte, the denominator of both conversions. *)
Definition DENOM : N := 8000000000000.

Lemma bytes_in_window_eq r t :
  bits_to_bytes_in_window r t = N.min (r * t / DENOM) U64_MAX.
Proof. unfold bits_to_bytes_in_window. rewrite clamp_u64_min. done. Qed.

Lemma time_to_send_eq b r :
  0 < r → time_to_send_ps b r = N.min (ceil_quot (b * DENOM) r) U64_MAX.
Proof.
  intros. unfold time_to_send_ps. destruct (N.eqb_spec r 0); [lia|].
  rewrite clamp_u64_min. do 2 f_equal. unfold DENOM, BITS_PER_BYTE, PS_PER_SECOND. lia.
Qed.

Lemma bytes_in_window_mono r r' t t' :
  r ≤ r' → t ≤ t' → bits_to_bytes_in_window r t ≤ bits_to_bytes_in_window r' t'.
Proof.
  intros. rewrite !bytes_in_window_eq.
  assert (r * t / DENOM ≤ r' * t' / DENOM) by (apply div_mono; by apply N.mul_le_mono). lia.
Qed.

Lemma bytes_in_window_max r t : bits_to_bytes_in_window r t ≤ U64_MAX.
Proof. rewrite bytes_in_window_eq. lia. Qed.

#[export] Hint Resolve bytes_in_window_mono bytes_in_window_max : spar.

(** The uncapped affine curve dominates the readout. *)
Lemma arrival_at_le a t :
  0 < t → arrival_at a t ≤ N.min (burst_bytes a + sustained_rate_bps a * t / DENOM) U64_MAX.
Proof.
  intros. unfold arrival_at. destruct (N.eqb_spec t 0); [lia|].
  rewrite bytes_in_window_eq. unfold sat_add. destruct (peak_rate_bps a); lia.
Qed.

Lemma arrival_at_affine a t :
  0 < t → peak_rate_bps a = None →
  arrival_at a t = N.min (burst_bytes a + sustained_rate_bps a * t / DENOM) U64_MAX.
Proof.
  intros ? Hp. unfold arrival_at. destruct (N.eqb_spec t 0); [lia|].
  rewrite Hp, bytes_in_window_eq. unfold sat_add. gen_div. lia.
Qed.

Lemma service_at_eq b t :
  service_at b t = N.min (rate_bps b * (t - latency_ps b) / DENOM) U64_MAX.
Proof.
  unfold service_at. destruct (N.leb_spec t (latency_ps b)).
  - replace (t - latency_ps b) with 0 by lia. rewrite N.mul_0_r. done.
  - by rewrite bytes_in_window_eq.
Qed.

(** ** Theorems *)

(** C15: [delay_bound] is sound for every window: by the time [t + D] the
    server has drained everything the flow may have sent by [t], in the
    integer readouts [ArrivalCurve::at] and [ServiceCurve::at] themselves,
    rounding and saturation included. *)
Theorem delay_bound_sound alpha beta d t :
  delay_bound alpha beta = Ok d →
  t + d ≤ U64_MAX →
  arrival_at alpha t ≤ service_at beta (t + d).
Proof.
  unfold delay_bound. intros Hd Ht.
  destruct (N.ltb_spec (rate_bps beta) (sustained_rate_bps alpha)); [done|].
  destruct (N.eqb_spec (rate_bps beta) 0); [done|]. injection Hd as Hd.
  destruct (N.eq_dec t 0) as [->|]; [apply N.le_0_l|].
  rewrite arrival_at_le, service_at_eq by lia. apply N.min_le_compat_r.
  rewrite time_to_send_eq in Hd by lia. unfold sat_add in Hd.
  set (c := ceil_quot (burst_bytes alpha * DENOM) (rate_bps beta)) in *.
  assert (burst_bytes alpha * DENOM ≤ c * rate_bps beta) by (apply ceil_quot_ge; lia).
  replace (burst_bytes alpha) with (burst_bytes alpha * DENOM / DENOM)
    by (apply N.div_mul; done).
  etrans; [by apply div_add_le|]. apply div_mono.
  assert (t + c ≤ t + d - latency_ps beta) by lia. nia.
Qed.

(** [delay_bound] is tight for the burst: unless it saturates, [D] is
    the first instant by which the service curve has drained the burst. *)
Theorem delay_bound_least alpha beta d :
  delay_bound alpha beta = Ok d → d < U64_MAX → 0 < burst_bytes alpha ≤ U64_MAX →
  ∀ x, burst_bytes alpha ≤ service_at beta x ↔ d ≤ x.
Proof.
  unfold delay_bound. intros Hd Hmax Hb x.
  destruct (N.ltb_spec (rate_bps beta) (sustained_rate_bps alpha)); [done|].
  destruct (N.eqb_spec (rate_bps beta) 0); [done|]. injection Hd as Hd.
  rewrite time_to_send_eq in Hd by lia. unfold sat_add in Hd.
  pose proof (ceil_quot_spec (burst_bytes alpha * DENOM) (rate_bps beta) (x - latency_ps beta)
    ltac:(lia)) as Hc.
  pose proof (div_le_spec (rate_bps beta * (x - latency_ps beta)) DENOM (burst_bytes alpha)
    ltac:(done)) as Hq.
  assert (0 < ceil_quot (burst_bytes alpha * DENOM) (rate_bps beta)).
  { pose proof (ceil_quot_ge (burst_bytes alpha * DENOM) (rate_bps beta) ltac:(lia)).
    unfold DENOM in *. nia. }
  rewrite service_at_eq. rewrite (N.mul_comm (x - _)) in Hc. lia.
Qed.

(** [backlog_bound] covers the backlog of every window up to one byte:
    the bound rounds the burst inflation down, and the two roundings down of
    [at] can add one byte on top of it. *)
Theorem backlog_bound_sound alpha beta b t :
  backlog_bound alpha beta = Ok b →
  arrival_at alpha t ≤ service_at beta t + b + 1.
Proof.
  unfold backlog_bound. intros Hb.
  destruct (N.ltb_spec (rate_bps beta) (sustained_rate_bps alpha)); [done|]. injection Hb as Hb.
  destruct (N.eq_dec t 0) as [->|]; [apply N.le_0_l|].
  rewrite arrival_at_le, service_at_eq by lia.
  rewrite bytes_in_window_eq in Hb. unfold sat_add in Hb.
  set (rho := sustained_rate_bps alpha) in *. set (R := rate_bps beta) in *.
  set (T := latency_ps beta) in *.
  assert (rho * t / DENOM ≤ (R * (t - T) + rho * T) / DENOM).
  { apply div_mono. transitivity (rho * (t - T + T)).
    - apply N.mul_le_mono_l. lia.
    - rewrite N.mul_add_distr_l. apply N.add_le_mono_r, N.mul_le_mono_r. done. }
  pose proof (div_add_lt (R * (t - T)) (rho * T) DENOM ltac:(done)). gen_div. lia.
Qed.

(** The extra byte is needed: the closed form [B = σ + ρ·T] with [ρ·T]
    rounded down is below an actual backlog of its own curves. *)
Lemma backlog_bound_one_short :
  let alpha := affine 100 1000000000 in
  let beta := rate_latency 1000000000 12000 in
  backlog_bound alpha beta = Ok 101 ∧
  arrival_at alpha 16000 = 102 ∧ service_at beta 16000 = 0.
Proof. by vm_compute. Qed.

(** The residual curve is a sound left-over service under FIFO (the
    member [θ = T] of the FIFO family): what it promises by [t], together
    with the competing arrivals up to [t - T], fits in the full service. *)
Theorem residual_service_sound beta ac r t :
  residual_service beta ac = Ok r →
  t ≤ U64_MAX →
  0 < service_at r t →
  service_at beta t < U64_MAX →
  service_at r t + arrival_at ac (t - latency_ps beta) ≤ service_at beta t.
Proof.
  unfold residual_service. intros Hr Ht Hpos Hsat.
  destruct (N.leb_spec (rate_bps beta) (sustained_rate_bps ac)); [done|]. injection Hr as <-.
  rewrite service_at_eq in Hpos, Hsat. rewrite !service_at_eq. simpl in *.
  rewrite time_to_send_eq in * by lia.
  set (rho := sustained_rate_bps ac) in *. set (R := rate_bps beta) in *.
  set (T := latency_ps beta) in *. set (s := burst_bytes ac) in *.
  set (c := ceil_quot (s * DENOM) (R - rho)) in *.
  set (T' := sat_add T (N.min c U64_MAX)) in *.
  assert (Hc : s * DENOM ≤ c * (R - rho)) by (apply ceil_quot_ge; lia).
  destruct (N.le_gt_cases t T') as [Hle|Hgt].
  { replace (t - T') with 0 in Hpos by lia. rewrite N.mul_0_r in Hpos. by vm_compute in Hpos. }
  assert (HT' : T' = T + c) by (unfold T', sat_add in *; lia).
  assert (Ha : arrival_at ac (t - T) ≤ s + rho * (t - T) / DENOM).
  { destruct (N.eq_dec (t - T) 0) as [->|]; [apply N.le_0_l|].
    pose proof (arrival_at_le ac (t - T) ltac:(lia)) as Hle.
    fold s rho in Hle. gen_div. lia. }
  assert (Hs : s = s * DENOM / DENOM) by (symmetry; apply N.div_mul; done).
  assert ((R - rho) * (t - T') / DENOM + s + rho * (t - T) / DENOM ≤ R * (t - T) / DENOM).
  { rewrite Hs at 1. etrans; [apply N.add_le_mono_r, div_add_le; done|].
    etrans; [apply div_add_le; done|]. apply div_mono. rewrite HT'.
    assert ((R - rho) * (t - (T + c)) + c * (R - rho) = (R - rho) * (t - T)).
    { replace (t - T) with (t - (T + c) + c) by lia. ring. }
    assert ((R - rho) * (t - T) + rho * (t - T) = R * (t - T)).
    { rewrite <- N.mul_add_distr_r. f_equal. lia. }
    lia. }
  gen_div. lia.
Qed.

(** [output_bound] bounds the departures: any window of the output is
    within one byte of the promised curve (the min-plus deconvolution is
    [α(t + T)]), and rate and peak are preserved. *)
Theorem output_bound_sound alpha beta out t :
  output_bound alpha beta = Ok out →
  0 < t →
  sustained_rate_bps out = sustained_rate_bps alpha ∧
  peak_rate_bps out = peak_rate_bps alpha ∧
  (peak_rate_bps alpha = None →
   arrival_at alpha (t + latency_ps beta) ≤ arrival_at out t + 1).
Proof.
  unfold output_bound. intros Ho Ht.
  destruct (N.ltb_spec (rate_bps beta) (sustained_rate_bps alpha)); [done|]. injection Ho as <-.
  split_and!; [done..|]. intros Hp. simpl.
  rewrite (arrival_at_affine alpha) by (done || lia).
  rewrite arrival_at_affine by done. simpl. rewrite bytes_in_window_eq.
  set (rho := sustained_rate_bps alpha). set (T := latency_ps beta).
  replace (rho * (t + T)) with (rho * T + rho * t) by lia.
  pose proof (div_add_lt (rho * T) (rho * t) DENOM ltac:(done)). unfold sat_add. gen_div. lia.
Qed.

(** ** Witnesses *)
Lemma delay_bound_sound_witness :
  delay_bound (affine 1000 1000000) (rate_latency 8000000 5000) = Ok 1000005000 ∧
  arrival_at (affine 1000 1000000) 8000000 ≤
    service_at (rate_latency 8000000 5000) (8000000 + 1000005000).
Proof. split; [by vm_compute | by apply delay_bound_sound; vm_compute]. Defined.

(** A 1500-byte burst at 100 Mbit/s through a gigabit server. *)
Definition a_ex : ArrivalCurve := affine 1500 100000000.
Definition b_ex : ServiceCurve := rate_latency 1000000000 12000.

Lemma delay_bound_least_witness :
  delay_bound a_ex b_ex = Ok 12012000 ∧
  ∀ x, burst_bytes a_ex ≤ service_at b_ex x ↔ 12012000 ≤ x.
Proof.
  split; [by vm_compute|]. apply delay_bound_least; [by vm_compute|by vm_compute|].
  split; vm_compute; [done|discriminate].
Defined.

Lemma backlog_bound_sound_witness :
  backlog_bound a_ex b_ex = Ok 1500 ∧
  arrival_at a_ex 16000 ≤ service_at b_ex 16000 + 1500 + 1.
Proof. split; [by vm_compute|]. apply backlog_bound_sound. by vm_compute. Defined.

Lemma residual_service_sound_witness :
  residual_service b_ex a_ex = Ok (rate_latency 900000000 13345334) ∧
  service_at (rate_latency 900000000 13345334) 20000000 +
    arrival_at a_ex (20000000 - latency_ps b_ex) ≤ service_at b_ex 20000000.
Proof.
  split; [by vm_compute|]. apply residual_service_sound; vm_compute; [done|discriminate|done|done].
Defined.

Lemma output_bound_sound_witness :
  let out := affine 1500 100000000 in
  output_bound a_ex b_ex = Ok out ∧
  sustained_rate_bps out = sustained_rate_bps a_ex ∧ peak_rate_bps out = peak_rate_bps a_ex ∧
  (peak_rate_bps a_ex = None → arrival_at a_ex (16000 + latency_ps b_ex) ≤ arrival_at out 16000 + 1).
Proof. split; [by vm_compute|]. apply output_bound_sound; vm_compute; done. Defined.
