(* ===== verification/Tfa.v ===== *)
(** * Total flow analysis

    [crates/spar-network/src/tfa.rs]: the burst fixed point of FP-TFA on the
    curves of [Curves].  The burst vector, one row per flow and one entry per
    hop, is a list of lists; the code builds it from the flows, so its rows
    have the lengths of the paths.  Vectors indexed by server are lists, and
    an index out of range panics. *)
From S2P Require Import Prelude.
From S2P Require Import Curves.
#[local] Open Scope N_scope.

(** crates/spar-network/src/tfa.rs:65-65 [TFA_MAX_ITER] *)
Definition TFA_MAX_ITER : u32 := 1000.
(** crates/spar-network/src/tfa.rs:70-70 [TFA_BURST_CEILING_BYTES] *)
Definition TFA_BURST_CEILING_BYTES : u64 := N.shiftl 1 50.

(** crates/spar-network/src/tfa.rs:76-81 [TfaFlow] *)
Record TfaFlow := { alpha : ArrivalCurve; path : list usize }.

(** crates/spar-network/src/tfa.rs:85-94 [TfaResult] *)
Record TfaResult := {
  server_delay_ps : list u64;
  flow_delay_ps : list u64;
  iterations : u32;
}.

(** crates/spar-network/src/tfa.rs:98-122 [TfaError] *)
Inductive TfaError :=
  | EmptyNetwork
  | OutOfRange
  | Unstable (server : usize) (agg_rate_bps service_rate_bps : u64)
  | NonConvergent (iterations : u32).

(** crates/spar-network/src/tfa.rs:157-165 [aggregate] *)
Definition aggregate (flows : list ArrivalCurve) : ArrivalCurve :=
  let '(burst, rate) :=
    foldl (λ '(burst, rate) a, (sat_add burst (burst_bytes a), sat_add rate (sustained_rate_bps a)))
      (0, 0) flows in
  affine burst rate.

(** crates/spar-network/src/tfa.rs:172-176 [inflate_burst] *)
Definition inflate_burst (alpha : ArrivalCurve) (delay_ps : u64) : Exec ArrivalCurve :=
  let probe := rate_latency (sat_add (sustained_rate_bps alpha) 1) delay_ps in
  match output_bound alpha probe with Ok out => Done out | Err _ => Panic end.

(** [v[h] = v[h].saturating_add(x)]. *)
Definition add_at (v : list u64) (hx : usize * u64) : Exec (list u64) :=
  match v !! fst hx with
  | Some y => Done (<[fst hx := sat_add y (snd hx)]> v)
  | None => Panic
  end.

(** crates/spar-network/src/tfa.rs:206-211 [tfa_bound]: what the nested loop
    adds, in order. *)
Definition rate_contributions (flows : list TfaFlow) : list (usize * u64) :=
  flow ← flows; (λ h, (h, sustained_rate_bps (alpha flow))) <$> path flow.

(** crates/spar-network/src/tfa.rs:243-248 [tfa_bound]: the same for the bursts. *)
Definition burst_contributions (flows : list TfaFlow) (bursts : list (list u64)) : list (usize * u64) :=
  fr ← zip flows bursts; zip (path (fst fr)) (snd fr).

(** crates/spar-network/src/tfa.rs:212-224 [tfa_bound]: the stability check. *)
Fixpoint check_stable (services : list ServiceCurve) (h : usize) (agg_rate : list u64)
    : Exec (unit + TfaError) :=
  match agg_rate with
  | [] => Done (inl tt)
  | rate :: agg_rate =>
      if rate =? 0 then check_stable services (S h) agg_rate
      else match services !! h with
           | None => Panic
           | Some s =>
               if rate_bps s <=? rate then Done (inr (Unstable h rate (rate_bps s)))
               else check_stable services (S h) agg_rate
           end
  end.

(** crates/spar-network/src/tfa.rs:249-267 [tfa_bound]: the delay of every
    server, from the aggregate bursts and rates. *)
Fixpoint server_delays (services : list ServiceCurve) (agg_burst agg_rate : list u64)
    (hs : list usize) : Exec (list u64 + TfaError) :=
  match hs with
  | [] => Done (inl [])
  | h :: hs =>
      match agg_rate !! h, agg_burst !! h, services !! h with
      | Some rate, Some burst, Some s =>
          if rate =? 0 then
            ds ← server_delays services agg_burst agg_rate hs;
            Done (match ds with inl ds => inl (0 :: ds) | inr e => inr e end)
          else
            match delay_bound (affine burst rate) s with
            | Ok d =>
                ds ← server_delays services agg_burst agg_rate hs;
                Done (match ds with inl ds => inl (d :: ds) | inr e => inr e end)
            | Err _ => Done (inr (Unstable h rate (rate_bps s)))
            end
      | _, _, _ => Panic
      end
  end.

(** crates/spar-network/src/tfa.rs:275-284 [tfa_bound]: the bursts of one
    flow at the positions after the first. *)
Fixpoint propagate_from (delays : list u64) (rho : u64) (path : list usize) (row : list u64)
    : Exec (list u64) :=
  match path, row with
  | prev_server :: ((_ :: _) as path), b :: row =>
      match delays !! prev_server with
      | None => Panic
      | Some d =>
          out ← inflate_burst (affine b rho) d;
          rest ← propagate_from delays rho path row;
          Done (burst_bytes out :: rest)
      end
  | _, _ => Done []
  end.

(** crates/spar-network/src/tfa.rs:272-285 [tfa_bound]: the next burst vector,
    and whether a burst passed the ceiling. *)
Fixpoint propagate (delays : list u64) (flows : list TfaFlow) (bursts : list (list u64))
    : Exec (list (list u64) * bool) :=
  match flows, bursts with
  | flow :: flows, row :: bursts =>
      outs ← propagate_from delays (sustained_rate_bps (alpha flow)) (path flow) row;
      '(next, diverged) ← propagate delays flows bursts;
      Done ((take 1 row ++ outs) :: next,
            existsb (λ b, TFA_BURST_CEILING_BYTES <? b) outs || diverged)
  | _, _ => Done ([], false)
  end.

(** crates/spar-network/src/tfa.rs:299-307 [tfa_bound]: the sums along the paths. *)
Fixpoint path_delay (delays : list u64) (path : list usize) (acc : u64) : Exec u64 :=
  match path with
  | [] => Done acc
  | h :: path => match delays !! h with
                 | Some d => path_delay delays path (sat_add acc d)
                 | None => Panic
                 end
  end.
Fixpoint flow_delays (delays : list u64) (flows : list TfaFlow) : Exec (list u64) :=
  match flows with
  | [] => Done []
  | f :: flows => d ← path_delay delays (path f) 0; ds ← flow_delays delays flows; Done (d :: ds)
  end.

(** crates/spar-network/src/tfa.rs:236-297 [tfa_bound]: one iteration of the
    loop; [inl] is the next state, [inr] leaves the loop with the delays. *)
Definition tfa_body (flows : list TfaFlow) (services : list ServiceCurve) (agg_rate : list u64)
    (st : list (list u64) * u32)
    : Exec (list (list u64) * u32 + Result (list u64 * u32) TfaError) :=
  let '(bursts, iterations) := st in
  let iterations := iterations + 1 in
  agg_burst ← foldM add_at (replicate (length services) 0) (burst_contributions flows bursts);
  ds ← server_delays services agg_burst agg_rate (seq 0 (length services));
  match ds with
  | inr e => Done (inr (Err e))
  | inl delays =>
      '(next, diverged) ← propagate delays flows bursts;
      Done (if (diverged : bool) then inr (Err (NonConvergent iterations))
            else if bool_decide (next = bursts) then inr (Ok (delays, iterations))
            else if TFA_MAX_ITER <=? iterations then inr (Err (NonConvergent iterations))
            else inl (next, iterations))
  end.

(** crates/spar-network/src/tfa.rs:191-314 [tfa_bound] *)
Definition tfa_bound (flows : list TfaFlow) (services : list ServiceCurve)
    : Exec (Result TfaResult TfaError) :=
  if bool_decide (flows = []) || bool_decide (services = []) then Done (Err EmptyNetwork)
  else
    let n_servers := length services in
    if existsb (λ flow, existsb (λ h, (n_servers <=? h)%nat) (path flow)) flows then
      Done (Err OutOfRange)
    else
      agg_rate ← foldM add_at (replicate n_servers 0) (rate_contributions flows);
      stable ← check_stable services 0 agg_rate;
      match stable with
      | inr e => Done (Err e)
      | inl _ =>
          let bursts := map (λ f, replicate (length (path f)) (burst_bytes (alpha f))) flows in
          out ← loop_upto (tfa_body flows services agg_rate) TFA_MAX_ITER (bursts, 0);
          match out with
          | inl _ => Stuck
          | inr (Err e) => Done (Err e)
          | inr (Ok (delays, iterations)) =>
              fd ← flow_delays delays flows;
              Done (Ok {| server_delay_ps := delays; flow_delay_ps := fd; iterations := iterations |})
          end
      end.

(** ** Total flow analysis: the least fixed point

    [tfa_bound] never panics, its errors say exactly what is wrong, and a
    bound it returns comes from the least solution of the burst equations. *)
(** ** Accumulating by server *)

(** The vector of a function on servers, cut off at [u64::MAX]. *)
Definition vec (n : nat) (a : nat → N) : list u64 := map (λ h, N.min (a h) U64_MAX) (seq 0 n).

Lemma vec_lookup n a h : (h < n)%nat → vec n a !! h = Some (N.min (a h) U64_MAX).
Proof.
  intros. unfold vec. rewrite list_lookup_fmap, lookup_seq_lt by done. done.
Qed.
Lemma vec_ext n a a' : (∀ h, (h < n)%nat → a h = a' h) → vec n a = vec n a'.
Proof.
  intros H. unfold vec. apply map_ext_in. intros h [_ Hh]%in_seq. by rewrite H.
Qed.

Definition total (h : nat) (l : list (usize * u64)) : N :=
  foldr (λ hx, N.add (if Nat.eqb (fst hx) h then snd hx else 0)) 0 l.

Lemma total_app h l1 l2 : total h (l1 ++ l2) = total h l1 + total h l2.
Proof. induction l1 as [|x l1 IH]; simpl; [done|]. rewrite IH. lia. Qed.

Lemma add_all n a l :
  Forall (λ hx, (fst hx < n)%nat) l →
  foldM add_at (vec n a) l = Done (vec n (λ h, a h + total h l)).
Proof.
  intros H. revert a. induction H as [|[h x] l Hh _ IH]; intros a; simpl.
  - f_equal. apply vec_ext. intros. lia.
  - simpl in Hh. unfold add_at. simpl. rewrite vec_lookup by done. cbn [mbind Exec_bind].
    replace (<[h:=_]> (vec n a)) with (vec n (λ h', a h' + if Nat.eqb h h' then x else 0)).
    + rewrite IH. f_equal. apply vec_ext. intros. lia.
    + apply list_eq. intros i. destruct (Nat.lt_ge_cases i n) as [Hi|Hi].
      * rewrite vec_lookup by done. destruct (Nat.eqb_spec h i) as [->|Hn].
        -- rewrite list_lookup_insert_eq; [|unfold vec; by rewrite length_map, length_seq].
           f_equal. unfold sat_add. lia.
        -- rewrite list_lookup_insert_ne, vec_lookup by done. f_equal. lia.
      * rewrite !lookup_ge_None_2; [done| |]; rewrite ?length_insert; unfold vec;
          by rewrite length_map, length_seq.
Qed.

Lemma vec_0 n : replicate n 0 = vec n (λ _, 0).
Proof.
  apply list_eq. intros i. destruct (Nat.lt_ge_cases i n) as [Hi|Hi].
  - by rewrite vec_lookup, lookup_replicate_2 by done.
  - rewrite !lookup_ge_None_2; [done| |]; rewrite ?length_replicate; unfold vec;
      by rewrite ?length_map, ?length_seq.
Qed.

(** ** The network *)
Section network.
Context (flows : list TfaFlow) (services : list ServiceCurve).
#[local] Abbreviation n := (length services).

Definition in_range : Prop := Forall (λ f, Forall (λ h, (h < n)%nat) (path f)) flows.

(** The aggregate rate and burst at a server, unbounded. *)
Definition rate_at (h : nat) : N := total h (rate_contributions flows).
Definition burst_at (bursts : list (list u64)) (h : nat) : N :=
  total h (burst_contributions flows bursts).

(** Below the service rate wherever a flow has a rate. *)
Definition stable : Prop :=
  ∀ h s, services !! h = Some s → rate_at h = 0 ∨ N.min (rate_at h) U64_MAX < rate_bps s.

(** The delay the analysis gives a server for an aggregate burst [x]: at a
    stable server with a rate it is the bound of [delay_bound] for the
    aggregate curve ([delay_at_bound]); a server whose flows have a total
    rate of 0 is given the delay 0 even if they have a burst, for which 0 is
    no bound ([tfa_zero_rate_burst]). *)
Definition delay_at (x : N) (h : nat) : N :=
  if rate_at h =? 0 then 0
  else match services !! h with
       | Some s => sat_add (latency_ps s) (time_to_send_ps (N.min x U64_MAX) (rate_bps s))
       | None => 0
       end.
Definition delays (bursts : list (list u64)) : list u64 :=
  map (λ h, delay_at (burst_at bursts h) h) (seq 0 n).

Hypothesis Hrange : in_range.

Lemma contributions_in_range bursts :
  Forall (λ hx, (fst hx < n)%nat) (rate_contributions flows) ∧
  Forall (λ hx, (fst hx < n)%nat) (burst_contributions flows bursts).
Proof.
  unfold in_range in Hrange. split; apply Forall_forall; intros [h x] Hin.
  - apply list_elem_of_bind in Hin as (f & Hx & Hf). apply list_elem_of_fmap in Hx as (h' & [= -> ->] & Hh).
    rewrite Forall_forall in Hrange. specialize (Hrange f Hf). rewrite Forall_forall in Hrange. by apply Hrange.
  - apply list_elem_of_bind in Hin as ([f row] & Hx & Hf). simpl in Hx.
    apply elem_of_zip_l in Hx. apply elem_of_zip_l in Hf.
    rewrite Forall_forall in Hrange. specialize (Hrange f Hf). rewrite Forall_forall in Hrange. by apply Hrange.
Qed.

Lemma agg_rate_eq : foldM add_at (replicate n 0) (rate_contributions flows) = Done (vec n rate_at).
Proof. rewrite vec_0. apply add_all. apply (contributions_in_range []). Qed.

Lemma agg_burst_eq bursts :
  foldM add_at (replicate n 0) (burst_contributions flows bursts) = Done (vec n (burst_at bursts)).
Proof. rewrite vec_0. apply add_all. apply contributions_in_range. Qed.

(** *** The stability check *)

(** The first unstable server, if any. *)
Definition first_unstable (h : nat) (s : ServiceCurve) : Prop :=
  services !! h = Some s ∧ rate_at h ≠ 0 ∧ rate_bps s ≤ N.min (rate_at h) U64_MAX ∧
  ∀ h' s', (h' < h)%nat → services !! h' = Some s' →
    rate_at h' = 0 ∨ N.min (rate_at h') U64_MAX < rate_bps s'.

Lemma check_stable_spec k h :
  (h + k = n)%nat →
  (∀ h' s', (h' < h)%nat → services !! h' = Some s' →
     rate_at h' = 0 ∨ N.min (rate_at h') U64_MAX < rate_bps s') →
  (check_stable services h (map (λ h, N.min (rate_at h) U64_MAX) (seq h k)) = Done (inl tt) ∧ stable) ∨
  (∃ h' s, check_stable services h (map (λ h, N.min (rate_at h) U64_MAX) (seq h k)) =
             Done (inr (Unstable h' (N.min (rate_at h') U64_MAX) (rate_bps s))) ∧ first_unstable h' s).
Proof.
  revert h. induction k as [|k IH]; intros h Hk Hbefore; cbn [seq map check_stable].
  { left. split; [done|]. intros h' s' Hs. apply (Hbefore h'); [|done].
    apply lookup_lt_Some in Hs. lia. }
  destruct (lookup_lt_is_Some_2 services h) as [s Hs]; [lia|].
  assert (Hnext : (rate_at h = 0 ∨ N.min (rate_at h) U64_MAX < rate_bps s) →
    ∀ h' s', (h' < S h)%nat → services !! h' = Some s' →
      rate_at h' = 0 ∨ N.min (rate_at h') U64_MAX < rate_bps s').
  { intros Hst h' s' Hh' Hs'. destruct (decide (h' = h)) as [->|]; [by simplify_eq|].
    apply (Hbefore h'); [lia|done]. }
  destruct (N.eqb_spec (N.min (rate_at h) U64_MAX) 0) as [H0|H0].
  { apply IH; [lia|]. apply Hnext. left. unfold U64_MAX in H0. lia. }
  rewrite Hs. destruct (N.leb_spec (rate_bps s) (N.min (rate_at h) U64_MAX)).
  - right. exists h, s. split; [done|]. split_and!; [done|lia|done|done].
  - apply IH; [lia|]. apply Hnext. by right.
Qed.

(** *** Delays *)
Lemma server_delays_spec bursts hs :
  stable → Forall (λ h, (h < n)%nat) hs →
  server_delays services (vec n (burst_at bursts)) (vec n rate_at) hs =
  Done (inl (map (λ h, delay_at (burst_at bursts h) h) hs)).
Proof.
  intros Hst. induction 1 as [|h hs Hh _ IH]; [done|]. cbn [server_delays map].
  rewrite !vec_lookup by done. destruct (lookup_lt_is_Some_2 services h Hh) as [s Hs].
  unfold delay_at at 1. rewrite Hs, IH. cbn [mbind Exec_bind].
  destruct (N.eqb_spec (N.min (rate_at h) U64_MAX) 0) as [H0|H0];
    destruct (N.eqb_spec (rate_at h) 0) as [H1|H1]; [done|exfalso; unfold U64_MAX in *; lia|lia|].
  unfold delay_bound. cbn [sustained_rate_bps affine burst_bytes].
  destruct (Hst h s Hs) as [?|Hlt]; [done|].
  destruct (N.ltb_spec (rate_bps s) (N.min (rate_at h) U64_MAX)); [lia|].
  destruct (N.eqb_spec (rate_bps s) 0); [lia|]. done.
Qed.

(** The aggregate curve at a server, saturated. *)
Definition aggregate_at (bursts : list (list u64)) (h : nat) : ArrivalCurve :=
  affine (N.min (burst_at bursts h) U64_MAX) (N.min (rate_at h) U64_MAX).

(** The delays [D] are bounds: at every server with a rate, that of the
    aggregate curve there; a server without one is given 0. *)
Definition bounded_delays (bursts : list (list u64)) (D : list u64) : Prop :=
  length D = n ∧ ∀ h s, services !! h = Some s →
    (rate_at h ≠ 0 → ∃ d, D !! h = Some d ∧ delay_bound (aggregate_at bursts h) s = Ok d) ∧
    (rate_at h = 0 → D !! h = Some 0).

Lemma delay_at_bound bursts : stable → bounded_delays bursts (delays bursts).
Proof.
  intros Hst. unfold delays. split; [by rewrite length_map, length_seq|]. intros h s Hs.
  pose proof (lookup_lt_Some _ _ _ Hs) as Hh. rewrite list_lookup_fmap, lookup_seq_lt by done. cbn [fmap option_fmap option_map Nat.add].
  unfold delay_at. rewrite Hs. destruct (N.eqb_spec (rate_at h) 0) as [H0|H0]; split; try done.
  intros _. eexists. split; [done|]. unfold aggregate_at, delay_bound. cbn [sustained_rate_bps affine burst_bytes].
  destruct (Hst h s Hs) as [?|Hlt]; [done|].
  destruct (N.ltb_spec (rate_bps s) (N.min (rate_at h) U64_MAX)); [lia|].
  destruct (N.eqb_spec (rate_bps s) 0); [lia|]. done.
Qed.

(** *** Propagation *)
Definition inflate (rho d b : N) : N := sat_add b (bits_to_bytes_in_window rho d).

Lemma inflate_burst_spec b rho d :
  rho ≤ U64_MAX → ∃ out, inflate_burst (affine b rho) d = Done out ∧ burst_bytes out = inflate rho d b.
Proof.
  intros Hr. unfold inflate_burst, output_bound. cbn [sustained_rate_bps affine rate_latency rate_bps].
  destruct (N.ltb_spec (sat_add rho 1) rho) as [H|H]; [unfold sat_add in H; lia|]. by eexists.
Qed.

(** The bursts after the first hop, and the whole next row. *)
Fixpoint outs (D : nat → N) (rho : N) (path : list nat) (row : list N) : list N :=
  match path, row with
  | h :: ((_ :: _) as path), b :: row => inflate rho (D h) b :: outs D rho path row
  | _, _ => []
  end.
Definition next_row (D : nat → N) (f : TfaFlow) (row : list N) : list N :=
  take 1 row ++ outs D (sustained_rate_bps (alpha f)) (path f) row.
Definition next_with (D : nat → N) (bursts : list (list N)) : list (list N) :=
  zip_with (next_row D) flows bursts.
Definition next (bursts : list (list N)) : list (list N) :=
  next_with (λ h, delay_at (burst_at bursts h) h) bursts.

Lemma propagate_from_spec (D : nat → N) rho p row :
  rho ≤ U64_MAX → Forall (λ h, (h < n)%nat) p →
  propagate_from (map D (seq 0 n)) rho p row = Done (outs D rho p row).
Proof.
  intros Hr. revert row. induction p as [|h [|h' p] IH]; intros [|b row] Hp; try done.
  apply Forall_cons_1 in Hp as [Hh Hp].
  change (propagate_from (map D (seq 0 n)) rho (h :: h' :: p) (b :: row)) with
    (match map D (seq 0 n) !! h with
     | None => Panic
     | Some d => out ← inflate_burst (affine b rho) d;
         rest ← propagate_from (map D (seq 0 n)) rho (h' :: p) row; Done (burst_bytes out :: rest)
     end).
  assert (El : map D (seq 0 n) !! h = Some (D h)) by (by rewrite list_lookup_fmap, lookup_seq_lt).
  rewrite El. destruct (inflate_burst_spec b rho (D h) Hr) as (out & -> & Hout). cbn [mbind Exec_bind].
  rewrite IH by done. cbn [mbind Exec_bind]. by rewrite Hout.
Qed.
End network.

(** Rates and bursts are 64-bit. *)
Definition flows_fit (flows : list TfaFlow) : Prop :=
  Forall (λ f, burst_bytes (alpha f) ≤ U64_MAX ∧ sustained_rate_bps (alpha f) ≤ U64_MAX) flows.

(** A burst past the ceiling at some hop after the first. *)
Definition over (D : nat → N) (f : TfaFlow) (row : list N) : Prop :=
  Exists (λ b, TFA_BURST_CEILING_BYTES < b) (outs D (sustained_rate_bps (alpha f)) (path f) row).

Lemma propagate_spec services D flows bursts :
  flows_fit flows → in_range flows services →
  ∃ dv, propagate (map D (seq 0 (length services))) flows bursts = Done (next_with flows D bursts, dv) ∧
    (dv = true ↔ Exists (λ fr, over D (fst fr) (snd fr)) (zip flows bursts)).
Proof.
  intros Hf Hr. revert bursts. induction Hf as [|f flows [_ Hf] _ IH]; intros [|row bursts];
    try (exists false; split; [done|]; split; [done|]; by intros ?%Exists_nil).
  apply Forall_cons_1 in Hr as [Hp Hr]. destruct (IH Hr bursts) as (dv & E & Hdv).
  cbn [propagate]. rewrite (propagate_from_spec services) by done. cbn [mbind Exec_bind]. rewrite E.
  eexists. split; [done|]. cbn [zip_with]. rewrite Exists_cons, <- Hdv, orb_true_iff. f_equiv.
  unfold over. rewrite existsb_exists, Exists_exists. cbn [fst snd].
  setoid_rewrite N.ltb_lt. setoid_rewrite list_elem_of_In. done.
Qed.

(** ** Solutions of the burst equations *)
Section solutions.
Context (flows : list TfaFlow) (services : list ServiceCurve).

Definition le_b : list (list N) → list (list N) → Prop := Forall2 (Forall2 N.le).

(** One row per flow, one burst per hop. *)
Definition shape (bursts : list (list N)) : Prop :=
  Forall2 (λ f row, length row = length (path f)) flows bursts.

(** [valid]: bursts that absorb their own propagation; [solution]: bursts
    that are exactly the sources and what the delays they cause make of them. *)
Definition valid (bursts : list (list N)) : Prop :=
  shape bursts ∧
  Forall2 (λ f row, ∀ b, head row = Some b → burst_bytes (alpha f) ≤ b) flows bursts ∧
  le_b (next flows services bursts) bursts.
Definition solution (bursts : list (list N)) : Prop :=
  shape bursts ∧
  Forall2 (λ f row, ∀ b, head row = Some b → b = burst_bytes (alpha f)) flows bursts ∧
  next flows services bursts = bursts.
Definition exceeds (bursts : list (list N)) : Prop :=
  Exists (Exists (λ b, TFA_BURST_CEILING_BYTES < b)) bursts.

Lemma total_zip_mono h p row row' :
  Forall2 N.le row row' → total h (zip p row) ≤ total h (zip p row').
Proof.
  intros H. revert p. induction H as [|b b' row row' Hb _ IH]; intros [|x p]; simpl; try lia.
  specialize (IH p). unfold total in *. case_match; lia.
Qed.

Lemma burst_at_mono b b' h : le_b b b' → burst_at flows b h ≤ burst_at flows b' h.
Proof.
  unfold burst_at. intros H. revert b b' H.
  induction flows as [|f fs IH]; intros b b' [|row row' b1 b1' Hrow H]; [done..|].
  change (total h (zip (path f) row ++ burst_contributions fs b1) ≤
          total h (zip (path f) row' ++ burst_contributions fs b1')).
  rewrite !total_app. pose proof (total_zip_mono h (path f) _ _ Hrow). specialize (IH _ _ H). lia.
Qed.

Lemma time_to_send_mono x x' r : x ≤ x' → time_to_send_ps x r ≤ time_to_send_ps x' r.
Proof.
  intros Hx. destruct (N.eq_dec r 0) as [->|]; [by vm_compute|].
  rewrite !time_to_send_eq by lia.
  assert (ceil_quot (x * DENOM) r ≤ ceil_quot (x' * DENOM) r)
    by (apply ceil_quot_mono; by apply N.mul_le_mono_r). lia.
Qed.

Lemma delay_at_mono x x' h : x ≤ x' → delay_at flows services x h ≤ delay_at flows services x' h.
Proof.
  intros Hx. unfold delay_at. destruct (rate_at flows h =? 0); [lia|].
  destruct (services !! h) as [s|]; [|lia]. apply sat_add_mono; [lia|].
  apply time_to_send_mono. lia.
Qed.

Lemma outs_mono D D' rho p row row' :
  (∀ h, D h ≤ D' h) → Forall2 N.le row row' → Forall2 N.le (outs D rho p row) (outs D' rho p row').
Proof.
  intros HD H. revert p. induction H as [|b b' row row' Hb _ IH]; intros [|h [|h' p]]; try constructor.
  - apply sat_add_mono; [done|]. by apply bytes_in_window_mono.
  - apply (IH (h' :: p)).
Qed.

Lemma next_row_mono D D' f row row' :
  (∀ h, D h ≤ D' h) → Forall2 N.le row row' → Forall2 N.le (next_row D f row) (next_row D' f row').
Proof. intros HD H. apply Forall2_app; [by apply Forall2_take|by apply outs_mono]. Qed.

Lemma next_with_mono D D' b b' :
  (∀ h, D h ≤ D' h) → le_b b b' → le_b (next_with flows D b) (next_with flows D' b').
Proof.
  intros HD H. unfold next_with. revert flows.
  induction H as [|row row' b b' Hr _ IH]; intros [|f fs]; try constructor;
    [by apply next_row_mono|apply IH].
Qed.

Lemma delays_mono b b' : le_b b b' →
  ∀ h, delay_at flows services (burst_at flows b h) h ≤ delay_at flows services (burst_at flows b' h) h.
Proof. intros H h. apply delay_at_mono. by apply burst_at_mono. Qed.

Lemma next_mono b b' : le_b b b' → le_b (next flows services b) (next flows services b').
Proof. intros H. apply next_with_mono; [|done]. by apply delays_mono. Qed.

Lemma outs_length D rho p row : length row = length p → length (outs D rho p row) = pred (length p).
Proof.
  revert row. induction p as [|h [|h' p] IH]; intros [|b row] Hl; try done.
  simpl in *. f_equal. rewrite (IH row) by lia. done.
Qed.
Lemma next_row_length D f row :
  length row = length (path f) → length (next_row D f row) = length (path f).
Proof.
  intros Hl. unfold next_row. rewrite length_app, outs_length, length_take, Hl by done. lia.
Qed.
Lemma next_row_head D f row b :
  length row = length (path f) → head (next_row D f row) = Some b → head row = Some b.
Proof. unfold next_row. destruct row; [|done]. by destruct (path f). Qed.

Lemma next_shape bursts : shape bursts → shape (next flows services bursts).
Proof.
  unfold shape, next, next_with. generalize (λ h, delay_at flows services (burst_at flows bursts h) h).
  intros D. induction 1 as [|f row fs bs Hl _ IH]; constructor; try done; by apply next_row_length.
Qed.

(** The initial vector, source bursts everywhere, is below every valid one. *)
Definition init : list (list N) :=
  map (λ f, replicate (length (path f)) (burst_bytes (alpha f))) flows.

Lemma row_above D rho p row x :
  length row = length p → x ≤ U64_MAX → (∀ b, head row = Some b → x ≤ b) →
  Forall2 N.le (outs D rho p row) (tail row) → Forall (N.le x) row.
Proof.
  intros Hl Hx. revert row Hl. induction p as [|h p IH]; intros [|b row] Hl Hh Ho; try done.
  constructor; [by apply Hh|]. destruct p as [|h' p]; [by destruct row|]. destruct row as [|b' row]; [done|].
  simpl in Ho. inversion Ho as [|? ? ? ? Hb Hrest]; simplify_eq. apply IH; [simpl in *; lia| |done].
  intros ? [= <-]. specialize (Hh b eq_refl). unfold inflate, sat_add in Hb. lia.
Qed.

Lemma init_below bursts : flows_fit flows → valid bursts → le_b init bursts.
Proof.
  intros Hfit (Hs & Hh & Hn). unfold shape, init, next, next_with in *. revert Hn.
  generalize (λ h, delay_at flows services (burst_at flows bursts h) h). intros D.
  revert bursts Hs Hh. induction Hfit as [|f fs [Hb _] _ IH]; intros bursts Hs Hh Hn;
    inversion Hs as [|? row ? bs Hl Hs']; simplify_eq; [constructor|constructor].
  - inversion Hh as [|? ? ? ? Hh0 _]; simplify_eq. inversion Hn as [|? ? ? ? Hn0 _]; simplify_eq.
    assert (Ha : Forall (N.le (burst_bytes (alpha f))) row).
    { apply (row_above D (sustained_rate_bps (alpha f)) (path f)); [done|done|done|].
      unfold next_row in Hn0. destruct row as [|b row]; [by destruct (path f)|]. by inversion Hn0. }
    rewrite <- Hl. clear -Ha. induction Ha; constructor; auto.
  - inversion Hh; inversion Hn; simplify_eq. by apply IH.
Qed.

Lemma init_sourced :
  shape init ∧ Forall2 (λ f row, ∀ b, head row = Some b → b = burst_bytes (alpha f)) flows init.
Proof.
  unfold shape, init. split; induction flows as [|f fs IH]; constructor; try done.
  - apply length_replicate.
  - intros b. by destruct (path f); intros [= <-].
Qed.

Lemma Exists_above c l l' : Forall2 N.le l l' → Exists (λ b, c < b) l → Exists (λ b, c < b) l'.
Proof.
  induction 1 as [|x y l l' Hx _ IH]; intros Ho; [done|].
  apply Exists_cons in Ho as [Ho|Ho]; [apply Exists_cons_hd; lia|apply Exists_cons_tl; auto].
Qed.

(** A burst past the ceiling below a valid vector is past it in that vector. *)
Lemma over_exceeds D D' bursts b' :
  (∀ h, D h ≤ D' h) → le_b bursts b' → le_b (next_with flows D' b') b' →
  Exists (λ fr, over D (fst fr) (snd fr)) (zip flows bursts) → exceeds b'.
Proof.
  intros HD. unfold next_with, exceeds. revert bursts b'. induction flows as [|f fs IH]; intros bursts b' Hle Hn.
  { by intros ?%Exists_nil. }
  destruct Hle as [|row row' bs bs' Hrow Hle]; [by intros ?%Exists_nil|].
  simpl in Hn. inversion Hn as [|? ? ? ? Hn0 Hn']; simplify_eq.
  cbn [zip_with]. rewrite Exists_cons. intros [Ho|Ho]; [apply Exists_cons_hd|apply Exists_cons_tl; exact (IH _ _ Hle Hn' Ho)].
  unfold over in Ho. simpl in Ho. unfold next_row in Hn0.
  pose proof (outs_mono D D' (sustained_rate_bps (alpha f)) (path f) _ _ HD Hrow) as Hm.
  apply Forall2_app_inv_l in Hn0 as (l1 & l2 & _ & H2 & ->). apply Exists_app. right.
  eapply Exists_above; [exact H2|]. eapply Exists_above; [exact Hm|done].
Qed.

(** ** The loop *)

(** What the loop may return. *)
Definition loop_result (out : Result (list u64 * u32) TfaError) : Prop :=
  match out with
  | Ok (ds, k) => k ≤ TFA_MAX_ITER ∧ ∃ b, solution b ∧ ds = delays flows services b ∧
      ∀ b', valid b' → le_b b b'
  | Err (NonConvergent k) => k = TFA_MAX_ITER ∨ k < TFA_MAX_ITER ∧ ∀ b', valid b' → exceeds b'
  | Err _ => False
  end.

Lemma next_sourced bursts :
  shape bursts →
  Forall2 (λ f row, ∀ b, head row = Some b → b = burst_bytes (alpha f)) flows bursts →
  Forall2 (λ f row, ∀ b, head row = Some b → b = burst_bytes (alpha f)) flows (next flows services bursts).
Proof.
  unfold shape, next, next_with. generalize (λ h, delay_at flows services (burst_at flows bursts h) h).
  intros D. induction 1 as [|f row fs bs Hl _ IH]; intros Hh; [constructor|].
  apply Forall2_cons_1 in Hh as [Hh Hh']. constructor; [|by apply IH].
  intros b Hb. apply Hh. by eapply next_row_head.
Qed.

Hypothesis Hfit : flows_fit flows.
Hypothesis Hrange : in_range flows services.
Hypothesis Hstable : stable flows services.

#[local] Abbreviation body := (tfa_body flows services (vec (length services) (rate_at flows))).

(** One iteration stops with a result, or goes on from the next bursts. *)
Lemma tfa_body_spec bursts k :
  shape bursts → Forall2 (λ f row, ∀ b, head row = Some b → b = burst_bytes (alpha f)) flows bursts →
  (∀ b', valid b' → le_b bursts b') → k < TFA_MAX_ITER →
  (∃ out, body (bursts, k) = Done (inr out) ∧ loop_result out) ∨
  (k + 1 < TFA_MAX_ITER ∧ body (bursts, k) = Done (inl (next flows services bursts, k + 1))).
Proof.
  intros Hs Hh Hlow Hk. unfold tfa_body. rewrite agg_burst_eq by done. cbn [mbind Exec_bind].
  rewrite server_delays_spec; [|done|by apply Forall_seq; lia]. cbn [mbind Exec_bind].
  set (D := λ h, delay_at flows services (burst_at flows bursts h) h).
  destruct (propagate_spec services D flows bursts Hfit Hrange) as (dv & -> & Hdv).
  cbn [mbind Exec_bind]. change (next_with flows D bursts) with (next flows services bursts).
  destruct dv.
  { left. eexists. split; [done|]. destruct (N.eq_dec (k + 1) TFA_MAX_ITER); [by left|right].
    split; [lia|]. intros b' Hb'. pose proof (Hlow b' Hb') as Hle. destruct Hb' as (_ & _ & Hn).
    eapply (over_exceeds D); [by apply delays_mono|exact Hle|exact Hn|by apply Hdv]. }
  case_bool_decide as Heq.
  { left. eexists. split; [done|]. split; [lia|]. by exists bursts. }
  destruct (N.leb_spec TFA_MAX_ITER (k + 1)); [|by right].
  left. eexists. split; [done|]. left. lia.
Qed.

Lemma valid_next bursts b' : le_b bursts b' → valid b' → le_b (next flows services bursts) b'.
Proof.
  intros Hle (_ & _ & Hn). unfold le_b in *. etrans; [|exact Hn]. by apply next_mono.
Qed.

Lemma tfa_loop_spec n bursts k :
  shape bursts → Forall2 (λ f row, ∀ b, head row = Some b → b = burst_bytes (alpha f)) flows bursts →
  (∀ b', valid b' → le_b bursts b') → k < TFA_MAX_ITER → N.of_nat n + k = TFA_MAX_ITER →
  ∃ out, loop_upto_nat body n (bursts, k) = Done (inr out) ∧ loop_result out.
Proof.
  revert bursts k. induction n as [|n IH]; intros bursts k Hs Hh Hlow Hk Hn; [lia|].
  cbn [loop_upto_nat].
  destruct (tfa_body_spec bursts k Hs Hh Hlow Hk) as [(out & -> & Hout)|[Hk' ->]]; [by exists out|].
  cbn [then_loop mbind Exec_bind]. apply IH; [by apply next_shape|by apply next_sourced| |lia|lia].
  intros b' Hb'. apply valid_next; [by apply Hlow|done].
Qed.
End solutions.

(** ** Sums along the paths *)
Definition path_sum (ds : list u64) (p : list nat) : N := foldr (λ h, N.add (ds !!! h)) 0 p.

Lemma path_delay_spec ds p acc :
  Forall (λ h, (h < length ds)%nat) p →
  path_delay ds p acc = Done (if bool_decide (p = []) then acc else N.min (acc + path_sum ds p) U64_MAX).
Proof.
  intros H. revert acc. induction H as [|h p Hh Hp IH]; intros acc; [done|].
  cbn [path_delay]. destruct (lookup_lt_is_Some_2 ds h Hh) as [d Hd]. rewrite Hd, IH. f_equal.
  unfold path_sum at 2. cbn [foldr]. fold (path_sum ds p). rewrite (list_lookup_total_correct _ _ _ Hd).
  rewrite (bool_decide_eq_false_2 (h :: p = [])) by done. unfold sat_add.
  case_bool_decide; subst; [by rewrite N.add_0_r|]. lia.
Qed.

Lemma flow_delays_spec ds flows :
  Forall (λ f, Forall (λ h, (h < length ds)%nat) (path f)) flows →
  flow_delays ds flows = Done (map (λ f, N.min (path_sum ds (path f)) U64_MAX) flows).
Proof.
  induction 1 as [|f flows Hf _ IH]; [done|]. cbn [flow_delays map]. rewrite path_delay_spec by done.
  cbn [mbind Exec_bind]. rewrite IH. cbn [mbind Exec_bind]. do 2 f_equal.
  case_bool_decide as Hp; [by rewrite Hp|done].
Qed.

Lemma out_of_range_spec flows services :
  existsb (λ flow, existsb (λ h, (length services <=? h)%nat) (path flow)) flows = false ↔
  in_range flows services.
Proof.
  unfold in_range. induction flows as [|f flows IH]; simpl; [split; [constructor|done]|].
  rewrite orb_false_iff, IH, Forall_cons. f_equiv.
  induction (path f) as [|h p IHp]; simpl; [split; [constructor|done]|].
  rewrite orb_false_iff, IHp, Forall_cons, Nat.leb_gt. done.
Qed.

(** ** Every outcome *)

(** What a result says of the network. *)
Definition outcome (flows : list TfaFlow) (services : list ServiceCurve)
    (res : Result TfaResult TfaError) : Prop :=
  match res with
  | Err EmptyNetwork => flows = [] ∨ services = []
  | Err OutOfRange => ¬ in_range flows services
  | Err (Unstable h rate service) => in_range flows services ∧
      ∃ s, first_unstable flows services h s ∧ rate = N.min (rate_at flows h) U64_MAX ∧ service = rate_bps s
  | Err (NonConvergent k) => in_range flows services ∧ stable flows services ∧
      (k = TFA_MAX_ITER ∨ k < TFA_MAX_ITER ∧ ∀ b, valid flows services b → exceeds b)
  | Ok r => in_range flows services ∧ stable flows services ∧ iterations r ≤ TFA_MAX_ITER ∧
      ∃ b, solution flows services b ∧ (∀ b', valid flows services b' → le_b b b') ∧
        server_delay_ps r = delays flows services b ∧ bounded_delays flows services b (server_delay_ps r) ∧
        flow_delay_ps r = map (λ f, N.min (path_sum (server_delay_ps r) (path f)) U64_MAX) flows
  end.

Lemma tfa_bound_outcome flows services :
  flows_fit flows → ∃ res, tfa_bound flows services = Done res ∧ outcome flows services res.
Proof.
  intros Hfit. unfold tfa_bound.
  destruct (bool_decide (flows = [])) eqn:E1.
  { eexists. split; [done|]. left. by apply bool_decide_eq_true in E1. }
  destruct (bool_decide (services = [])) eqn:E2.
  { eexists. split; [done|]. right. by apply bool_decide_eq_true in E2. }
  cbn [orb]. destruct (existsb _ flows) eqn:E3.
  { eexists. split; [done|]. intros Hr%out_of_range_spec. congruence. }
  apply out_of_range_spec in E3 as Hr. rewrite agg_rate_eq by done. cbn [mbind Exec_bind].
  pose proof (check_stable_spec flows services (length services) 0 eq_refl
    ltac:(intros; lia)) as Hc.
  fold (vec (length services) (rate_at flows)) in Hc.
  destruct Hc as [[-> Hst]|(h & s & -> & Hu)].
  2:{ eexists. split; [done|]. split; [done|]. by exists s. }
  cbn [mbind Exec_bind]. rewrite loop_upto_eq.
  destruct (tfa_loop_spec flows services Hfit Hr Hst (N.to_nat TFA_MAX_ITER) (init flows) 0)
    as (out & Hout & Hres); [apply (init_sourced flows)|apply (init_sourced flows)|intros b Hb; by apply (init_below flows services)|done|done|].
  unfold init in Hout. rewrite Hout. cbn [mbind Exec_bind].
  destruct out as [[ds k]|e].
  - destruct Hres as (Hk & b & Hb & -> & Hlow). rewrite flow_delays_spec.
    2:{ unfold delays. rewrite length_map, length_seq. exact Hr. }
    eexists. split; [done|]. cbn. split_and!; [done|done|done|]. exists b. split_and!; try done. by apply delay_at_bound.
  - eexists. split; [done|]. by destruct e.
Qed.

(** C7: on 64-bit rates and bursts [tfa_bound] always returns, and every
    outcome means what it says.
    A path out of range and an unstable server are reported exactly (the
    first server whose aggregate rate is not zero and reaches its service
    rate).  A bound comes from the least solution of the burst equations among
    all burst vectors that absorb their own propagation: at every server whose
    flows have a positive total rate its delay is the [delay_bound] of their
    aggregate curve there.  A server whose flows have a total rate of 0 is
    given the delay 0 whatever their burst, in the equations as in the result,
    so for a flow with a burst and no rate the number returned is not a valid
    bound, against what the documentation of the module claims.
    [NonConvergent] before the iteration cap proves that every vector that
    absorbs its propagation has a burst past the ceiling; at the cap it proves
    nothing. *)
Theorem tfa_bound_exact flows services :
  flows_fit flows → ∃ res, tfa_bound flows services = Done res ∧ outcome flows services res.
Proof. apply tfa_bound_outcome. Qed.

(** The delays of the least solution grow with the bursts of the flows. *)
Definition same_rates (flows flows' : list TfaFlow) : Prop :=
  Forall2 (λ f f', path f = path f' ∧ sustained_rate_bps (alpha f) = sustained_rate_bps (alpha f') ∧
    burst_bytes (alpha f) ≤ burst_bytes (alpha f')) flows flows'.

Lemma same_rates_eq flows flows' :
  same_rates flows flows' →
  rate_contributions flows = rate_contributions flows' ∧
  (∀ b, burst_contributions flows b = burst_contributions flows' b) ∧
  (∀ D b, next_with flows D b = next_with flows' D b).
Proof.
  intros H. split_and!.
  - induction H as [|f f' fs fs' (Hp & Hr & _) _ IH]; [done|].
    change (((λ h, (h, sustained_rate_bps (alpha f))) <$> path f) ++ rate_contributions fs =
            ((λ h, (h, sustained_rate_bps (alpha f'))) <$> path f') ++ rate_contributions fs').
    by rewrite Hp, Hr, IH.
  - induction H as [|f f' fs fs' (Hp & Hr & _) _ IH]; intros [|row b]; [done..|].
    change (zip (path f) row ++ burst_contributions fs b = zip (path f') row ++ burst_contributions fs' b).
    by rewrite Hp, IH.
  - unfold next_with. induction H as [|f f' fs fs' (Hp & Hr & _) _ IH]; intros D [|row b]; [done..|].
    simpl. by rewrite IH; unfold next_row; rewrite Hp, Hr.
Qed.

Lemma same_rates_valid flows flows' services b :
  same_rates flows flows' → solution flows' services b → valid flows services b.
Proof.
  intros H (Hs & Hh & Hn). destruct (same_rates_eq _ _ H) as (E1 & E2 & E3). split_and!.
  - unfold shape in *. revert H Hs. clear. intros H. revert b.
    induction H as [|f f' fs fs' (Hp & _) _ IH]; intros b Hs; inversion Hs; simplify_eq; constructor;
      [by rewrite Hp|by apply IH].
  - clear -H Hh. revert b Hh. induction H as [|f f' fs fs' (_ & _ & Hb) _ IH]; intros b Hh;
      inversion Hh; simplify_eq; constructor; [|by apply IH].
    intros x Hx. match goal with H : ∀ b, head _ = Some b → _ |- _ => by rewrite (H x Hx) end.
  - assert (E : next flows services b = next flows' services b).
    { unfold next. rewrite E3. unfold next_with, delay_at, burst_at, rate_at.
      by rewrite E1, E2. }
    rewrite E, Hn. unfold le_b. reflexivity.
Qed.

(** A bound survives smaller bursts.  When the analysis converges for
    some flows, then for the same paths and rates with bursts no larger it
    returns delays that are no larger, unless it stops at the iteration cap. *)
Theorem tfa_bound_monotone flows flows' services r r' :
  flows_fit flows → flows_fit flows' → same_rates flows flows' →
  tfa_bound flows' services = Done (Ok r') → tfa_bound flows services = Done (Ok r) →
  Forall2 N.le (server_delay_ps r) (server_delay_ps r') ∧
  Forall2 N.le (flow_delay_ps r) (flow_delay_ps r').
Proof.
  intros Hf Hf' H E' E.
  destruct (tfa_bound_outcome flows services Hf) as (res & E0 & Ho). rewrite E in E0. injection E0 as <-.
  destruct (tfa_bound_outcome flows' services Hf') as (res & E0 & Ho'). rewrite E' in E0. injection E0 as <-.
  destruct Ho as (_ & _ & _ & b & Hb & Hlow & Hd & _ & Hfl).
  destruct Ho' as (_ & _ & _ & b' & Hb' & _ & Hd' & _ & Hfl').
  specialize (Hlow b' (same_rates_valid _ _ _ _ H Hb')).
  destruct (same_rates_eq _ _ H) as (E1 & E2 & _).
  assert (Hds : Forall2 N.le (server_delay_ps r) (server_delay_ps r')).
  { rewrite Hd, Hd'. unfold delays. apply Forall2_fmap, Forall_Forall2_diag. apply Forall_true. intros h.
    replace (delay_at flows' services (burst_at flows' b' h) h)
      with (delay_at flows services (burst_at flows b' h) h)
      by (unfold delay_at, burst_at, rate_at; by rewrite E1, E2).
    by apply delays_mono. }
  split; [done|]. rewrite Hfl, Hfl'. apply Forall2_fmap. eapply Forall2_impl; [exact H|].
  intros f f' (-> & _ & _). assert (Hs : path_sum (server_delay_ps r) (path f') ≤ path_sum (server_delay_ps r') (path f')).
  { induction (path f') as [|h p IH]; simpl; [lia|]. apply N.add_le_mono; [|done].
    clear -Hds. revert h. induction Hds as [|x y l l' Hx _ IH]; intros [|h]; simpl; try done; apply IH. }
  lia.
Qed.

(** ** Witnesses: two flows over a tandem of gigabit servers *)
Definition flow_ex (burst : u64) (path : list usize) : TfaFlow :=
  {| alpha := affine burst 100000000; path := path |}.
Definition services_ex : list ServiceCurve :=
  [rate_latency 1000000000 10000000; rate_latency 1000000000 5000000].
Definition flows_ex (burst : u64) : list TfaFlow := [flow_ex burst [0; 1]%nat; flow_ex burst [0]%nat].

Lemma flows_ex_fit burst : burst ≤ U64_MAX → flows_fit (flows_ex burst).
Proof. intros H. repeat constructor; try done; simpl; vm_compute; discriminate. Defined.

Lemma tfa_bound_exact_witness :
  flows_fit (flows_ex 1500) ∧
  ∃ res, tfa_bound (flows_ex 1500) services_ex = Done res ∧ outcome (flows_ex 1500) services_ex res.
Proof.
  assert (H : flows_fit (flows_ex 1500)) by (apply flows_ex_fit; vm_compute; discriminate).
  split; [exact H|]. exact (tfa_bound_exact (flows_ex 1500) services_ex H).
Defined.

Definition result_ex (d0 d1 f0 f1 : u64) : TfaResult :=
  {| server_delay_ps := [d0; d1]; flow_delay_ps := [f0; f1]; iterations := 2 |}.

Lemma tfa_bound_monotone_witness :
  let r := result_ex 26000000 15600000 41600000 26000000 in
  let r' := result_ex 34000000 20400000 54400000 34000000 in
  tfa_bound (flows_ex 1000) services_ex = Done (Ok r) ∧
  tfa_bound (flows_ex 1500) services_ex = Done (Ok r') ∧
  Forall2 N.le (server_delay_ps r) (server_delay_ps r') ∧
  Forall2 N.le (flow_delay_ps r) (flow_delay_ps r').
Proof.
  intros r r'. assert (E : tfa_bound (flows_ex 1000) services_ex = Done (Ok r)) by (by vm_compute).
  assert (E' : tfa_bound (flows_ex 1500) services_ex = Done (Ok r')) by (by vm_compute).
  split; [exact E|split; [exact E'|]].
  apply (tfa_bound_monotone (flows_ex 1000) (flows_ex 1500) services_ex);
    [apply flows_ex_fit; vm_compute; discriminate|apply flows_ex_fit; vm_compute; discriminate| |done|done].
  repeat constructor; simpl; vm_compute; discriminate.
Defined.

(** A flow without a sustained rate is not delayed, whatever its burst: the
    server sends at a finite rate, and 0 is no bound. *)
Lemma tfa_zero_rate_burst :
  tfa_bound [{| alpha := affine 1000000 0; path := [0%nat] |}] services_ex =
  Done (Ok {| server_delay_ps := [0; 0]; flow_delay_ps := [0]; iterations := 1 |}).
Proof. by vm_compute. Qed.
