(* ===== verification/Cqf.v ===== *)
(** * Cyclic queuing and forwarding

    [crates/spar-network/src/cqf.rs]: synthesis of an 802.1Qch configuration,
    the hop-count baseline and the long-link variant, with the checker they
    certify themselves against. *)
From S2P Require Import Prelude.
From S2P Require Import BTree.
#[local] Open Scope N_scope.

(** crates/spar-network/src/cqf.rs:252-257 [LinkDelay] *)
Record LinkDelay := { min_ps : u64; max_ps : u64 }.

(** crates/spar-network/src/cqf.rs:62-77 [CqfFlow] *)
Record CqfFlow := {
  id : u32;
  reserved_bits_per_cycle : u64;
  deadline_ps : u64;
  path : list u32;
  link_delays : list LinkDelay;
}.

(** crates/spar-network/src/cqf.rs:81-89 [CqfSchedule] *)
Record CqfSchedule := {
  cycle_time_ps : u64;
  csize_bits : u128;
  per_link_bits : list (u32 * u128);
}.

(** crates/spar-network/src/cqf.rs:93-141 [CqfSynthError] *)
Inductive CqfSynthError :=
  | NoFlows
  | EmptyPath (id : u32)
  | DegenerateFlow (id : u32)
  | DuplicateFlowId (id : u32)
  | ZeroLinkRate
  | DeadlineTooTight (id : u32) (hops : u32) (deadline_ps : u64)
  | Oversubscribed (link : u32) (required_bits csize_bits : u128)
  | SelfCheck (why : string)
  | DeadTimeTooLarge (dead_time_ps cycle_ps : u64)
  | LinkDelayLenMismatch (id : u32) (path_len delays_len : usize)
  | BufferBudgetExceeded (needed cap : u32)
  | LongLinkDeadlineTooTight (id : u32).

(** [path.len() as u32]. *)
Definition hops_of (flow : CqfFlow) : u32 := as_u32 (N.of_nat (length (path flow))).

(** ** The checker *)

(** crates/spar-network/src/cqf.rs:209-211 [cqf_delay_max_ps] *)
Definition cqf_delay_max_ps (hops : u32) (cycle_ps : u64) : u128 := (hops + 1) * cycle_ps.

(** crates/spar-network/src/cqf.rs:218-220 [cqf_delay_min_ps] *)
Definition cqf_delay_min_ps (hops : u32) (cycle_ps : u64) : u128 := (hops - 1) * cycle_ps.

(** crates/spar-network/src/cqf.rs:225-229 [cqf_cycle_budget_bits] *)
Definition cqf_cycle_budget_bits (cycle_ps link_rate_bps : u64) : u128 :=
  link_rate_bps * cycle_ps / 1000000000000.

(** crates/spar-network/src/cqf.rs:267-272 [cqf_hop_advance_cycles]: [div_euclid] by
    a positive cycle is the floor; the assertion and a zero cycle panic. *)
Definition cqf_hop_advance_cycles (link_delay_ps dead_time_ps cycle_ps : u64) : Exec u64 :=
  if dead_time_ps <? cycle_ps then
    let numerator := (Z.of_N link_delay_ps - Z.of_N dead_time_ps)%Z in
    Done (Z.to_N ((2 + numerator / Z.of_N cycle_ps) mod Z.of_N (U64_MAX + 1))%Z)
  else Panic.

(** [iter().map(cqf_hop_advance_cycles).sum()]. *)
Fixpoint sum_advances (delays : list u64) (dead_time_ps cycle_ps : u64) : Exec u128 :=
  match delays with
  | [] => Done 0
  | d :: delays =>
      k ← cqf_hop_advance_cycles d dead_time_ps cycle_ps;
      s ← sum_advances delays dead_time_ps cycle_ps;
      Done (k + s)
  end.

(** crates/spar-network/src/cqf.rs:282-292 [cqf_delay_max_longlink_ps] *)
Definition cqf_delay_max_longlink_ps (link_delays_max_ps : list u64) (dead_time_ps cycle_ps : u64)
    : Exec u128 :=
  sum_k ← sum_advances link_delays_max_ps dead_time_ps cycle_ps;
  Done (cycle_ps + cycle_ps * sum_k).

(** crates/spar-network/src/cqf.rs:316-330 [cqf_delay_min_longlink_ps] *)
Definition cqf_delay_min_longlink_ps (link_delays_min_ps : list u64) (dead_time_ps cycle_ps : u64)
    : Exec u128 :=
  let h := length link_delays_min_ps in
  if Nat.eqb h 0 then Done 0
  else
    sum_k ← sum_advances (take (h - 1) link_delays_min_ps) dead_time_ps cycle_ps;
    Done (cycle_ps * sum_k).

(** crates/spar-network/src/cqf.rs:339-346 [cqf_cycle_budget_bits_with_dead_time] *)
Definition cqf_cycle_budget_bits_with_dead_time (cycle_ps dead_time_ps link_rate_bps : u64) : u128 :=
  let window_ps := sat_sub cycle_ps dead_time_ps in
  link_rate_bps * window_ps / 1000000000000.

(** [(k_max.saturating_sub(k_min)) as u32 + 2], which overflows with a panic. *)
Definition buffers_for (k_max k_min : u64) : Exec u32 :=
  let b := as_u32 (sat_sub k_max k_min) in
  if U32_MAX <? b + 2 then Panic else Done (b + 2).

(** crates/spar-network/src/cqf.rs:355-376 [cqf_buffer_count] *)
Definition cqf_buffer_count (link_delays : list LinkDelay) (dead_time_ps cycle_ps : u64) (cap : u32)
    : Exec (Result u32 u32) :=
  needed ← foldM (λ needed ld,
    k_max ← cqf_hop_advance_cycles (max_ps ld) dead_time_ps cycle_ps;
    k_min ← cqf_hop_advance_cycles (min_ps ld) dead_time_ps cycle_ps;
    b_i ← buffers_for k_max k_min;
    Done (N.max needed b_i)) 3 link_delays;
  Done (if cap <? needed then Err needed else Ok needed).

(** ** Synthesis *)

(** crates/spar-network/src/cqf.rs:399-410 [synthesize_cqf]: the checks of one flow;
    the state is the set of ids seen. *)
Definition check_flow (seen_ids : list u32) (flow : CqfFlow) : Result (list u32) CqfSynthError :=
  if bool_decide (id flow ∈ seen_ids) then Err (DuplicateFlowId (id flow))
  else if bool_decide (path flow = []) then Err (EmptyPath (id flow))
  else if (reserved_bits_per_cycle flow =? 0) || (deadline_ps flow =? 0) then
    Err (DegenerateFlow (id flow))
  else Ok (id flow :: seen_ids).

(** [for flow in flows { check(flow)? }]. *)
Fixpoint check_flows (check : list u32 → CqfFlow → Result (list u32) CqfSynthError)
    (seen_ids : list u32) (flows : list CqfFlow) : Result unit CqfSynthError :=
  match flows with
  | [] => Ok tt
  | flow :: flows =>
      match check seen_ids flow with
      | Ok seen_ids => check_flows check seen_ids flows
      | Err e => Err e
      end
  end.

(** crates/spar-network/src/cqf.rs:420-421 [synthesize_cqf]: the cycle limit of
    one flow. *)
Definition cycle_limit (flow : CqfFlow) : u64 := deadline_ps flow / (hops_of flow + 1).

(** [iter().min_by_key(f)]: the first of the minima. *)
Fixpoint min_by_key {A} (f : A → N) (xs : list A) : option A :=
  match xs with
  | [] => None
  | x :: xs => match min_by_key f xs with
               | Some y => if f y <? f x then Some y else Some x
               | None => Some x
               end
  end.

(** crates/spar-network/src/cqf.rs:441-446 [synthesize_cqf]: the reservations per link. *)
Definition link_bits (flows : list CqfFlow) : list (u32 * u128) :=
  foldl (λ m flow,
    foldl (λ m link, bt_alter (λ v, default 0 v + reserved_bits_per_cycle flow) link m) m (path flow))
    [] flows.

(** crates/spar-network/src/cqf.rs:447-455 [synthesize_cqf]: admission. *)
Fixpoint admit_links (csize_bits : u128) (per_link_bits : list (u32 * u128)) : Result unit CqfSynthError :=
  match per_link_bits with
  | [] => Ok tt
  | (link, required) :: m =>
      if csize_bits <? required then Err (Oversubscribed link required csize_bits)
      else admit_links csize_bits m
  end.

(** crates/spar-network/src/cqf.rs:471-485 [self_check] *)
Definition self_check (schedule : CqfSchedule) (flows : list CqfFlow) : Result unit CqfSynthError :=
  if existsb (λ flow, deadline_ps flow <? cqf_delay_max_ps (hops_of flow) (cycle_time_ps schedule)) flows
  then Err (SelfCheck "flow delay exceeds deadline")
  else if existsb (λ lr, csize_bits schedule <? snd lr) (per_link_bits schedule)
  then Err (SelfCheck "link reservation exceeds csize")
  else Ok tt.

(** crates/spar-network/src/cqf.rs:391-466 [synthesize_cqf] *)
Definition synthesize_cqf (flows : list CqfFlow) (link_rate_bps : u64)
    : Exec (Result CqfSchedule CqfSynthError) :=
  if bool_decide (flows = []) then Done (Err NoFlows)
  else if link_rate_bps =? 0 then Done (Err ZeroLinkRate)
  else
    _ ←? Done (check_flows check_flow [] flows);
    let cycle_ps := foldl (λ c flow, N.min c (cycle_limit flow)) U64_MAX flows in
    let cycle_ps := cycle_ps / 1000 * 1000 in
    if cycle_ps =? 0 then
      match min_by_key cycle_limit flows with
      | None => Panic
      | Some tightest =>
          Done (Err (DeadlineTooTight (id tightest) (hops_of tightest) (deadline_ps tightest)))
      end
    else
      let csize_bits := cqf_cycle_budget_bits cycle_ps link_rate_bps in
      let per_link_bits := link_bits flows in
      _ ←? Done (admit_links csize_bits per_link_bits);
      let schedule := {| cycle_time_ps := cycle_ps; csize_bits := csize_bits;
                         per_link_bits := per_link_bits |} in
      _ ←? Done (self_check schedule flows);
      Done (Ok schedule).

(** crates/spar-network/src/cqf.rs:488-488 [CQF_DEFAULT_BUFFER_CAP] *)
Definition CQF_DEFAULT_BUFFER_CAP : u32 := 7.

(** crates/spar-network/src/cqf.rs:492-505 [CqfLongLinkSchedule] *)
Record CqfLongLinkSchedule := {
  ll_cycle_time_ps : u64;
  ll_dead_time_ps : u64;
  ll_csize_bits : u128;
  ll_per_link_bits : list (u32 * u128);
  ll_buffers : u32;
}.

(** crates/spar-network/src/cqf.rs:538-556 [synthesize_cqf_longlink]: the checks of one flow. *)
Definition check_flow_longlink (seen_ids : list u32) (flow : CqfFlow)
    : Result (list u32) CqfSynthError :=
  match check_flow seen_ids flow with
  | Err e => Err e
  | Ok seen_ids =>
      if negb (bool_decide (link_delays flow = []))
         && negb (Nat.eqb (length (link_delays flow)) (length (path flow)))
      then Err (LinkDelayLenMismatch (id flow) (length (path flow)) (length (link_delays flow)))
      else Ok seen_ids
  end.

(** [flow.link_delays.get(i)], absent delays being zero. *)
Definition hop_delay (flow : CqfFlow) (i : usize) : LinkDelay :=
  default {| min_ps := 0; max_ps := 0 |} (link_delays flow !! i).
(** crates/spar-network/src/cqf.rs:559-560 [synthesize_cqf_longlink] *)
Definition hop_max (flow : CqfFlow) (i : usize) : u64 :=
  match link_delays flow !! i with Some ld => max_ps ld | None => 0 end.
(** crates/spar-network/src/cqf.rs:633-633 [synthesize_cqf_longlink] *)
Definition hops_max (flow : CqfFlow) : list u64 := map (hop_max flow) (seq 0 (length (path flow))).

(** crates/spar-network/src/cqf.rs:570-576 [synthesize_cqf_longlink]: the
    limit of one flow, with one or two cycles per hop. *)
Definition sum_k (dead_time_ps : u64) (ds : list u64) : u64 :=
  foldl (λ s d, s + if d <? dead_time_ps then 1 else 2) 0 ds.
Definition cycle_limit_longlink (dead_time_ps : u64) (flow : CqfFlow) : u64 :=
  deadline_ps flow / (1 + sum_k dead_time_ps (hops_max flow)).

(** crates/spar-network/src/cqf.rs:566-581 [synthesize_cqf_longlink]: the
    tightest limit, the flow it comes from and the longest link. *)
Definition tightest_cycle (dead_time_ps : u64) (flows : list CqfFlow) (first : u32) : u64 * u32 * u64 :=
  foldl (λ '(cycle_ps, tightest_id, max_link) flow,
    let max_link := foldl N.max max_link (hops_max flow) in
    let limit_ps := cycle_limit_longlink dead_time_ps flow in
    if limit_ps <? cycle_ps then (limit_ps, id flow, max_link) else (cycle_ps, tightest_id, max_link))
    (U64_MAX, first, 0) flows.

(** crates/spar-network/src/cqf.rs:632-639 [synthesize_cqf_longlink]: the final
    check of every flow. *)
Fixpoint self_check_longlink (dead_time_ps cycle_ps : u64) (flows : list CqfFlow)
    : Exec (Result unit CqfSynthError) :=
  match flows with
  | [] => Done (Ok tt)
  | flow :: flows =>
      d ← cqf_delay_max_longlink_ps (hops_max flow) dead_time_ps cycle_ps;
      if deadline_ps flow <? d then Done (Err (SelfCheck "long-link flow delay exceeds deadline"))
      else self_check_longlink dead_time_ps cycle_ps flows
  end.

(** crates/spar-network/src/cqf.rs:525-649 [synthesize_cqf_longlink] *)
Definition synthesize_cqf_longlink (flows : list CqfFlow) (link_rate_bps dead_time_ps : u64)
    (buffer_cap : u32) : Exec (Result CqfLongLinkSchedule CqfSynthError) :=
  match flows with
  | [] => Done (Err NoFlows)
  | flow0 :: _ =>
  if link_rate_bps =? 0 then Done (Err ZeroLinkRate)
  else
    _ ←? Done (check_flows check_flow_longlink [] flows);
    let '(cycle_ps, tightest_id, max_link_delay_ps) := tightest_cycle dead_time_ps flows (id flow0) in
    let cycle_ps := cycle_ps / 1000 * 1000 in
    if (cycle_ps =? 0) || (cycle_ps <=? max_link_delay_ps) then
      Done (Err (LongLinkDeadlineTooTight tightest_id))
    else if cycle_ps <=? dead_time_ps then Done (Err (DeadTimeTooLarge dead_time_ps cycle_ps))
    else
      let csize_bits := cqf_cycle_budget_bits_with_dead_time cycle_ps dead_time_ps link_rate_bps in
      let per_link_bits := link_bits flows in
      _ ←? Done (admit_links csize_bits per_link_bits);
      let hops := flow ← flows; map (hop_delay flow) (seq 0 (length (path flow))) in
      b ← cqf_buffer_count hops dead_time_ps cycle_ps buffer_cap;
      buffers ←? Done (match b with Ok b => Ok b | Err needed => Err (BufferBudgetExceeded needed buffer_cap) end);
      _ ←? self_check_longlink dead_time_ps cycle_ps flows;
      Done (Ok {| ll_cycle_time_ps := cycle_ps; ll_dead_time_ps := dead_time_ps;
                  ll_csize_bits := csize_bits; ll_per_link_bits := per_link_bits;
                  ll_buffers := buffers |})
  end.

(** ** Synthesis of a CQF configuration is sound and complete

    A cycle time is feasible when it is a whole number of nanoseconds, the
    checker's delay of every flow meets its deadline and every link's
    reservations fit the cycle budget.  Both synthesizers find the largest
    feasible cycle, or report an error that excludes every cycle. *)
(** ** Reservations per link *)

(** What the flows reserve on a link, over all the hops that use it. *)
Definition link_total (link : u32) (flows : list CqfFlow) : N :=
  foldr (λ flow, N.add (foldr (λ l, N.add (if l =? link then reserved_bits_per_cycle flow else 0)) 0
                           (path flow))) 0 flows.

Definition add_bits (bits : u64) (m : list (u32 * u128)) (link : u32) : list (u32 * u128) :=
  bt_alter (λ v, default 0 v + bits) link m.

Lemma add_bits_get bits m link k :
  bt_sorted m →
  default 0 (bt_get k (add_bits bits m link)) = default 0 (bt_get k m) + (if link =? k then bits else 0).
Proof.
  intros Hm. unfold add_bits. destruct (N.eqb_spec link k) as [->|Hne].
  - by rewrite bt_get_alter.
  - rewrite bt_get_alter_ne, N.add_0_r by done. done.
Qed.

Lemma add_path_spec bits p m :
  bt_sorted m →
  bt_sorted (foldl (add_bits bits) m p) ∧
  ∀ k, default 0 (bt_get k (foldl (add_bits bits) m p)) =
       default 0 (bt_get k m) + foldr (λ l, N.add (if l =? k then bits else 0)) 0 p.
Proof.
  revert m. induction p as [|l p IH]; intros m Hm; simpl; [split; [done|intros; lia]|].
  destruct (IH (add_bits bits m l)) as [Hs Hg]; [by apply bt_sorted_alter|]. split; [done|].
  intros k. rewrite Hg, add_bits_get by done. lia.
Qed.

Lemma link_bits_spec flows :
  bt_sorted (link_bits flows) ∧ ∀ k, default 0 (bt_get k (link_bits flows)) = link_total k flows.
Proof.
  unfold link_bits.
  assert (H : ∀ m, bt_sorted m →
    bt_sorted (foldl (λ m flow, foldl (add_bits (reserved_bits_per_cycle flow)) m (path flow)) m flows) ∧
    ∀ k, default 0 (bt_get k (foldl (λ m flow, foldl (add_bits (reserved_bits_per_cycle flow)) m (path flow)) m flows))
       = default 0 (bt_get k m) + link_total k flows).
  { induction flows as [|f flows IH]; intros m Hm; simpl; [split; [done|intros; lia]|].
    destruct (add_path_spec (reserved_bits_per_cycle f) (path f) m Hm) as [Hs Hg].
    destruct (IH _ Hs) as [Hs' Hg']. split; [done|]. intros k. rewrite Hg', Hg. lia. }
  destruct (H [] I) as [Hs Hg]. split; [exact Hs|]. intros k. etrans; [apply Hg|]. done.
Qed.

(** [admit_links] accepts exactly the maps whose entries fit. *)
Lemma admit_links_spec csize m :
  (admit_links csize m = Ok tt ∧ Forall (λ lr, snd lr ≤ csize) m) ∨
  (∃ link required, admit_links csize m = Err (Oversubscribed link required csize) ∧
     (link, required) ∈ m ∧ csize < required).
Proof.
  induction m as [|[l r] m IH]; simpl; [by left|]. destruct (N.ltb_spec csize r) as [Hlt|Hle].
  - right. exists l, r. split_and!; [done|left|done].
  - destruct IH as [[E Hf]|(l' & r' & E & Hin & Hr)]; [left; by repeat constructor|right].
    exists l', r'. split_and!; [done|by right|done].
Qed.

Lemma fits_totals csize flows :
  Forall (λ lr, snd lr ≤ csize) (link_bits flows) ↔ ∀ link, link_total link flows ≤ csize.
Proof.
  destruct (link_bits_spec flows) as [Hs Hg]. rewrite Forall_forall. split.
  - intros H link. rewrite <- Hg. destruct (bt_get link (link_bits flows)) as [r|] eqn:E; simpl; [|lia].
    apply (bt_elem _ _ _ Hs) in E. exact (H _ E).
  - intros H [l r] Hin. apply (bt_elem _ _ _ Hs) in Hin. specialize (H l). rewrite <- Hg, Hin in H. done.
Qed.

(** ** Input checks *)

Definition flow_ok (flow : CqfFlow) : Prop :=
  path flow ≠ [] ∧ reserved_bits_per_cycle flow ≠ 0 ∧ deadline_ps flow ≠ 0.

(** What the errors of the input checks say. *)
Definition input_error (flows : list CqfFlow) (e : CqfSynthError) : Prop :=
  match e with
  | DuplicateFlowId i => ¬ NoDup (map id flows) ∧ i ∈ map id flows
  | EmptyPath i => ∃ f, f ∈ flows ∧ id f = i ∧ path f = []
  | DegenerateFlow i => ∃ f, f ∈ flows ∧ id f = i ∧ (reserved_bits_per_cycle f = 0 ∨ deadline_ps f = 0)
  | LinkDelayLenMismatch i p d => ∃ f, f ∈ flows ∧ id f = i ∧ p = length (path f) ∧
      d = length (link_delays f) ∧ d ≠ 0%nat ∧ d ≠ p
  | _ => False
  end.

Definition delays_ok (flow : CqfFlow) : Prop :=
  link_delays flow = [] ∨ length (link_delays flow) = length (path flow).

Lemma check_flow_spec seen f :
  (check_flow seen f = Ok (id f :: seen) ∧ flow_ok f ∧ id f ∉ seen) ∨
  (check_flow seen f = Err (DuplicateFlowId (id f)) ∧ id f ∈ seen) ∨
  (∃ e, check_flow seen f = Err e ∧ (∀ flows, f ∈ flows → input_error flows e)).
Proof.
  unfold check_flow. case_bool_decide as Hs; [by right; left|].
  case_bool_decide as Hp.
  { right; right. eexists. split; [done|]. intros flows Hin. by exists f. }
  destruct (N.eqb_spec (reserved_bits_per_cycle f) 0) as [Hr|Hr]; simpl.
  { right; right. eexists. split; [done|]. intros flows Hin. exists f. tauto. }
  destruct (N.eqb_spec (deadline_ps f) 0) as [Hd|Hd]; simpl.
  { right; right. eexists. split; [done|]. intros flows Hin. exists f. tauto. }
  by left.
Qed.

(** The ids already seen are those of the flows before. *)
Lemma check_flows_spec check (P : CqfFlow → Prop) flows :
  (∀ seen f, (check seen f = Ok (id f :: seen) ∧ P f ∧ id f ∉ seen) ∨
     (check seen f = Err (DuplicateFlowId (id f)) ∧ id f ∈ seen) ∨
     (∃ e, check seen f = Err e ∧ (∀ flows, f ∈ flows → input_error flows e))) →
  ∀ before, NoDup (map id before) →
  (check_flows check (map id before) flows = Ok tt ∧ Forall P flows) ∨
  (∃ e, check_flows check (map id before) flows = Err e ∧ input_error (reverse before ++ flows) e).
Proof.
  intros Hcheck. induction flows as [|f flows IH]; intros before Hnd; simpl; [by left|].
  destruct (Hcheck (map id before) f) as [(-> & HP & Hn)|[[-> Hin]|(e & -> & He)]].
  - destruct (IH (f :: before)) as [[E Hf]|(e & E & He)]; [by constructor| |].
    + left. split; [exact E|]. by constructor.
    + right. exists e. split; [exact E|]. by rewrite reverse_cons, <- app_assoc in He.
  - right. eexists. split; [done|]. simpl. rewrite map_app. split.
    + intros (_ & Hd & _)%NoDup_app. apply (Hd (id f)); [|by left].
      apply list_elem_of_fmap in Hin as (g & -> & Hg). apply list_elem_of_fmap. exists g.
      split; [done|]. by apply elem_of_reverse.
    + apply elem_of_app. right. by left.
  - right. exists e. split; [done|]. apply He. apply elem_of_app. right. by left.
Qed.

(** ** Cycle times *)

Definition whole_ns (T : N) : Prop := T mod 1000 = 0.

Lemma floor_ns c : whole_ns (c / 1000 * 1000) ∧ c / 1000 * 1000 ≤ c ∧
  ∀ T, whole_ns T → T ≤ c → T ≤ c / 1000 * 1000.
Proof.
  unfold whole_ns. split_and!.
  - apply N.Div0.mod_mul.
  - rewrite N.mul_comm. apply N.Div0.mul_div_le.
  - intros T HT Hle. pose proof (N.div_mod T 1000 ltac:(done)). pose proof (div_mono T c 1000 Hle). lia.
Qed.

Lemma fold_min_spec {A} (f : A → N) xs c T :
  T ≤ foldl (λ c x, N.min c (f x)) c xs ↔ T ≤ c ∧ Forall (λ x, T ≤ f x) xs.
Proof.
  revert c. induction xs as [|x xs IH]; intros c; simpl.
  - split; [|by intros [? _]]. intros H. split; [done|constructor].
  - rewrite IH, Forall_cons, N.min_glb_iff. tauto.
Qed.

Lemma cycle_limit_spec f T :
  T ≤ cycle_limit f ↔ cqf_delay_max_ps (hops_of f) T ≤ deadline_ps f.
Proof.
  unfold cycle_limit, cqf_delay_max_ps. rewrite div_le_spec by lia. by rewrite N.mul_comm.
Qed.

Lemma budget_mono T T' rate : T ≤ T' → cqf_cycle_budget_bits T rate ≤ cqf_cycle_budget_bits T' rate.
Proof. intros. apply div_mono, N.mul_le_mono_l. done. Qed.

(** ** The baseline *)

(** The deadlines allow the cycle; and its budget holds the reservations. *)
Definition meets_deadlines (flows : list CqfFlow) (T : u64) : Prop :=
  0 < T ∧ whole_ns T ∧ Forall (λ f, cqf_delay_max_ps (hops_of f) T ≤ deadline_ps f) flows.
Definition feasible (flows : list CqfFlow) (rate T : u64) : Prop :=
  meets_deadlines flows T ∧ ∀ link, link_total link flows ≤ cqf_cycle_budget_bits T rate.

Definition deadlines_fit (flows : list CqfFlow) : Prop :=
  Forall (λ f, deadline_ps f ≤ U64_MAX) flows.

(** What each result of [synthesize_cqf] says. *)
Definition synth_outcome (flows : list CqfFlow) (rate : u64)
    (res : Result CqfSchedule CqfSynthError) : Prop :=
  match res with
  | Ok s => Forall flow_ok flows ∧ feasible flows rate (cycle_time_ps s) ∧
      (∀ T, meets_deadlines flows T → T ≤ cycle_time_ps s) ∧
      csize_bits s = cqf_cycle_budget_bits (cycle_time_ps s) rate ∧
      bt_sorted (per_link_bits s) ∧
      ∀ link, default 0 (bt_get link (per_link_bits s)) = link_total link flows
  | Err NoFlows => flows = []
  | Err ZeroLinkRate => rate = 0
  | Err (DeadlineTooTight i h d) =>
      (∃ f, f ∈ flows ∧ i = id f ∧ h = hops_of f ∧ d = deadline_ps f ∧ d < cqf_delay_max_ps h 1000) ∧
      ∀ T, ¬ meets_deadlines flows T
  | Err (Oversubscribed link required csize) =>
      required = link_total link flows ∧ csize < required ∧ ∀ T, ¬ feasible flows rate T
  | Err e => input_error flows e
  end.

Lemma min_by_key_spec {A} (f : A → N) xs :
  xs ≠ [] → ∃ y, min_by_key f xs = Some y ∧ y ∈ xs ∧ Forall (λ x, f y ≤ f x) xs.
Proof.
  induction xs as [|x xs IH]; [done|]. intros _. simpl. destruct xs as [|x' xs].
  { exists x. split_and!; [done|left|repeat constructor; lia]. }
  destruct IH as (y & -> & Hin & Hle); [done|]. destruct (N.ltb_spec (f y) (f x)).
  - exists y. split_and!; [done|by right|]. constructor; [lia|done].
  - exists x. split_and!; [done|left|]. constructor; [lia|]. eapply Forall_impl; [exact Hle|].
    intros z Hz. simpl in Hz. lia.
Qed.

Lemma self_check_ok s flows :
  Forall (λ f, cqf_delay_max_ps (hops_of f) (cycle_time_ps s) ≤ deadline_ps f) flows →
  Forall (λ lr, snd lr ≤ csize_bits s) (per_link_bits s) →
  self_check s flows = Ok tt.
Proof.
  intros H1 H2. unfold self_check.
  assert (E1 : existsb (λ flow, deadline_ps flow <? cqf_delay_max_ps (hops_of flow) (cycle_time_ps s)) flows = false).
  { clear H2. induction H1; simpl; [done|]. rewrite IHForall, orb_false_r. by apply N.ltb_ge. }
  assert (E2 : existsb (λ lr, csize_bits s <? snd lr) (per_link_bits s) = false).
  { clear H1. induction H2; simpl; [done|]. rewrite IHForall, orb_false_r. by apply N.ltb_ge. }
  by rewrite E1, E2.
Qed.

(** The cycle computed from the deadlines is the largest that meets them. *)
Lemma cycle_spec flows c :
  flows ≠ [] → deadlines_fit flows →
  c = foldl (λ c flow, N.min c (cycle_limit flow)) U64_MAX flows / 1000 * 1000 →
  (∀ T, meets_deadlines flows T → T ≤ c) ∧ (0 < c → meets_deadlines flows c).
Proof.
  intros Hne Hfit ->. set (c0 := foldl _ _ _). destruct (floor_ns c0) as (Hw & Hle & Hmax). split.
  - intros T (_ & HT & Hd). apply Hmax; [done|]. apply fold_min_spec. split.
    + destruct flows as [|f flows]; [done|]. apply Forall_cons_1 in Hd as [Hd _].
      apply Forall_cons_1 in Hfit as [Hf _]. unfold cqf_delay_max_ps in Hd. nia.
    + eapply Forall_impl; [exact Hd|]. intros f. by apply cycle_limit_spec.
  - intros Hc. split_and!; [done|done|]. apply fold_min_spec in Hle as [_ Hle].
    eapply Forall_impl; [exact Hle|]. intros f. by apply cycle_limit_spec.
Qed.

Lemma oversubscribed_spec link required flows :
  (link, required) ∈ link_bits flows → required = link_total link flows.
Proof.
  destruct (link_bits_spec flows) as [Hs Hg]. intros Hin. apply (bt_elem _ _ _ Hs) in Hin.
  by rewrite <- Hg, Hin.
Qed.

(** C23: Synthesis of the two-buffer baseline is sound and complete.  It
    always returns; a schedule has the largest whole-nanosecond cycle that
    meets every deadline of the checker, with every link's reservations
    within its budget, and an error either names a malformed flow or
    excludes every cycle time: no deadline-meeting cycle exists, or none
    whose budget holds the reservations.  The self check never fails. *)
Theorem synthesize_cqf_exact flows rate :
  deadlines_fit flows →
  ∃ res, synthesize_cqf flows rate = Done res ∧ synth_outcome flows rate res.
Proof.
  intros Hfit. unfold synthesize_cqf. case_bool_decide as Hne; [by eexists|].
  destruct (N.eqb_spec rate 0) as [Hr|Hr]; [by eexists|]. cbn [try_bind mbind Exec_bind].
  destruct (check_flows_spec check_flow flow_ok flows check_flow_spec [] (NoDup_nil_2))
    as [[E Hok]|(e & E & He)]; simpl map in E; rewrite E.
  2:{ eexists. split; [done|]. simpl app in He. by destruct e. }
  set (c := foldl _ _ _ / 1000 * 1000).
  destruct (cycle_spec flows c Hne Hfit eq_refl) as [Hmax Hmeets].
  destruct (N.eqb_spec c 0) as [Hc|Hc].
  { destruct (min_by_key_spec cycle_limit flows Hne) as (f & -> & Hin & Hmin).
    assert (Hnone : ∀ T, ¬ meets_deadlines flows T).
    { intros T HT. pose proof (Hmax T HT). destruct HT. lia. }
    eexists. split; [done|]. split; [|done]. exists f. split_and!; try done.
    apply N.nle_gt. intros Hf. apply (Hnone 1000). split_and!; [done|done|].
    apply cycle_limit_spec in Hf. eapply Forall_impl; [exact Hmin|]. intros g Hg.
    apply cycle_limit_spec. simpl in Hg. lia. }
  specialize (Hmeets ltac:(lia)). cbn [mbind Exec_bind].
  destruct (admit_links_spec (cqf_cycle_budget_bits c rate) (link_bits flows)) as [[-> Hf]|(l & r & -> & Hin & Hlt)].
  - rewrite self_check_ok; [|apply Hmeets|exact Hf]. eexists. split; [done|].
    destruct (link_bits_spec flows) as [Hs Hg]. cbn.
    split_and!; try done. split; [done|]. by apply fits_totals.
  - eexists. split; [done|]. apply (oversubscribed_spec l r) in Hin as ->. split_and!; [done|done|].
    intros T [HT Hb]. specialize (Hb l). pose proof (budget_mono T c rate (Hmax T HT)). lia.
Qed.

(** ** Long links *)

Definition delays_fit (flows : list CqfFlow) : Prop :=
  Forall (λ f, Forall (λ ld, min_ps ld ≤ max_ps ld) (link_delays f)) flows.

(** The cycle is longer than the dead time and every link, and meets every
    deadline of the long-link checker. *)
Definition meets_longlink (flows : list CqfFlow) (dt T : u64) : Prop :=
  0 < T ≤ U64_MAX ∧ whole_ns T ∧ dt < T ∧ Forall (λ f, Forall (λ d, d < T) (hops_max f)) flows ∧
  Forall (λ f, ∃ D, cqf_delay_max_longlink_ps (hops_max f) dt T = Done D ∧ D ≤ deadline_ps f) flows.
Definition all_hops (flows : list CqfFlow) : list LinkDelay :=
  flow ← flows; map (hop_delay flow) (seq 0 (length (path flow))).
Definition feasible_longlink (flows : list CqfFlow) (rate dt : u64) (cap : u32) (T : u64) : Prop :=
  meets_longlink flows dt T ∧
  (∀ link, link_total link flows ≤ cqf_cycle_budget_bits_with_dead_time T dt rate) ∧
  ∃ b, cqf_buffer_count (all_hops flows) dt T cap = Done (Ok b).

Definition cycles_per_hop (dt d : N) : N := if d <? dt then 1 else 2.

(** With a cycle longer than the link, a frame advances one or two cycles. *)
Lemma hop_advance d dt T :
  d < T → dt < T → T ≤ U64_MAX → cqf_hop_advance_cycles d dt T = Done (cycles_per_hop dt d).
Proof.
  intros Hd Hdt HT. unfold cqf_hop_advance_cycles, cycles_per_hop.
  rewrite (proj2 (N.ltb_lt dt T)) by done. f_equal.
  destruct (N.ltb_spec d dt) as [H|H].
  - rewrite <- (Z.div_unique (Z.of_N d - Z.of_N dt) (Z.of_N T) (-1) (Z.of_N d - Z.of_N dt + Z.of_N T)); [done|lia|lia].
  - rewrite Z.div_small by lia. done.
Qed.

Lemma sum_k_eq dt ds : sum_k dt ds = foldr (λ d, N.add (cycles_per_hop dt d)) 0 ds.
Proof.
  unfold sum_k. assert (H : ∀ s, foldl (λ s d, s + cycles_per_hop dt d) s ds =
    s + foldr (λ d, N.add (cycles_per_hop dt d)) 0 ds).
  { induction ds as [|d ds IH]; intros s; simpl; [lia|]. rewrite IH. lia. }
  apply (H 0).
Qed.

Lemma sum_advances_eq ds dt T :
  Forall (λ d, d < T) ds → dt < T → T ≤ U64_MAX → sum_advances ds dt T = Done (sum_k dt ds).
Proof.
  intros H Hdt HT. rewrite sum_k_eq. induction H as [|d ds Hd _ IH]; simpl; [done|].
  rewrite hop_advance by done. cbn [mbind Exec_bind]. by rewrite IH.
Qed.

Lemma longlink_delay_eq ds dt T :
  Forall (λ d, d < T) ds → dt < T → T ≤ U64_MAX →
  cqf_delay_max_longlink_ps ds dt T = Done (T * (1 + sum_k dt ds)).
Proof.
  intros. unfold cqf_delay_max_longlink_ps. rewrite sum_advances_eq by done. cbn [mbind Exec_bind].
  f_equal. lia.
Qed.

Lemma limit_longlink_spec dt f T :
  T ≤ cycle_limit_longlink dt f ↔ T * (1 + sum_k dt (hops_max f)) ≤ deadline_ps f.
Proof. unfold cycle_limit_longlink. apply div_le_spec. lia. Qed.

Lemma fold_max_spec m ds T : foldl N.max m ds < T ↔ m < T ∧ Forall (λ d, d < T) ds.
Proof.
  revert m. induction ds as [|d ds IH]; intros m; simpl.
  - split; [by split|by intros [? _]].
  - rewrite IH, Forall_cons, N.max_lub_lt_iff. tauto.
Qed.

Lemma tightest_cycle_spec dt flows first :
  ∃ i ml, tightest_cycle dt flows first =
    (foldl (λ c f, N.min c (cycle_limit_longlink dt f)) U64_MAX flows, i, ml) ∧
    ∀ T, ml < T ↔ 0 < T ∧ Forall (λ f, Forall (λ d, d < T) (hops_max f)) flows.
Proof.
  unfold tightest_cycle.
  assert (H : ∀ c i m, ∃ i' ml, foldl (λ '(cycle_ps, tightest_id, max_link) flow,
    let max_link := foldl N.max max_link (hops_max flow) in
    let limit_ps := cycle_limit_longlink dt flow in
    if limit_ps <? cycle_ps then (limit_ps, id flow, max_link) else (cycle_ps, tightest_id, max_link))
      (c, i, m) flows = (foldl (λ c f, N.min c (cycle_limit_longlink dt f)) c flows, i', ml) ∧
    ∀ T, ml < T ↔ m < T ∧ Forall (λ f, Forall (λ d, d < T) (hops_max f)) flows).
  { induction flows as [|f flows IH]; intros c i m; simpl.
    - exists i, m. split; [done|]. intros T. split; [by split|by intros [? _]].
    - set (m' := foldl N.max m (hops_max f)).
      assert (Hstep : ∀ i'', ∃ i' ml, foldl (λ '(cycle_ps, tightest_id, max_link) flow,
        let max_link := foldl N.max max_link (hops_max flow) in
        let limit_ps := cycle_limit_longlink dt flow in
        if limit_ps <? cycle_ps then (limit_ps, id flow, max_link) else (cycle_ps, tightest_id, max_link))
          (N.min c (cycle_limit_longlink dt f), i'', m') flows =
          (foldl (λ c f, N.min c (cycle_limit_longlink dt f)) (N.min c (cycle_limit_longlink dt f)) flows, i', ml) ∧
        ∀ T, ml < T ↔ m < T ∧ Forall (λ f, Forall (λ d, d < T) (hops_max f)) (f :: flows)).
      { intros i''. destruct (IH (N.min c (cycle_limit_longlink dt f)) i'' m') as (i' & ml & E & Hml).
        exists i', ml. split; [exact E|]. intros T. rewrite Hml, Forall_cons. subst m'.
        rewrite fold_max_spec. tauto. }
      destruct (N.ltb_spec (cycle_limit_longlink dt f) c).
      + rewrite (N.min_r c) in Hstep |- * by lia. apply Hstep.
      + rewrite (N.min_l c) in Hstep |- * by lia. apply Hstep. }
  apply H.
Qed.

(** *** Buffers: three suffice when every hop takes one or two cycles *)
Lemma buffer_step needed ld dt T :
  3 ≤ needed → min_ps ld ≤ max_ps ld → max_ps ld < T → dt < T → T ≤ U64_MAX →
  (k_max ← cqf_hop_advance_cycles (max_ps ld) dt T;
   k_min ← cqf_hop_advance_cycles (min_ps ld) dt T;
   b_i ← buffers_for k_max k_min;
   Done (N.max needed b_i)) = Done needed.
Proof.
  intros Hn Hm Hmax Hdt HT. rewrite !hop_advance by lia. cbn [mbind Exec_bind].
  assert (Hk : sat_sub (cycles_per_hop dt (max_ps ld)) (cycles_per_hop dt (min_ps ld)) ≤ 1).
  { unfold sat_sub, cycles_per_hop. repeat case_match; lia. }
  unfold buffers_for. rewrite as_u32_small by (unfold U32_MAX; lia).
  destruct (N.ltb_spec U32_MAX (sat_sub (cycles_per_hop dt (max_ps ld)) (cycles_per_hop dt (min_ps ld)) + 2)) as [H|H];
    [unfold U32_MAX in H; lia|]. cbn [mbind Exec_bind]. f_equal. lia.
Qed.

Lemma buffer_count_eq hops dt T cap :
  Forall (λ ld, min_ps ld ≤ max_ps ld ∧ max_ps ld < T) hops → dt < T → T ≤ U64_MAX →
  cqf_buffer_count hops dt T cap = Done (if cap <? 3 then Err 3 else Ok 3).
Proof.
  intros H Hdt HT. unfold cqf_buffer_count.
  match goal with |- context [foldM ?f 3 hops] => assert (E : foldM f 3 hops = Done 3) end; [|by rewrite E].
  induction H as [|ld hops [Hm Hmax] _ IH]; [done|]. cbn [foldM]. by rewrite buffer_step.
Qed.

Lemma hop_max_delay f i : hop_max f i = max_ps (hop_delay f i).
Proof. unfold hop_max, hop_delay. by destruct (link_delays f !! i). Qed.

Lemma all_hops_fit flows T :
  delays_fit flows → Forall (λ f, Forall (λ d, d < T) (hops_max f)) flows →
  Forall (λ ld, min_ps ld ≤ max_ps ld ∧ max_ps ld < T) (all_hops flows).
Proof.
  intros Hfit H. apply Forall_forall. intros ld Hin.
  apply list_elem_of_bind in Hin as (f & Hld & Hf). apply list_elem_of_fmap in Hld as (i & -> & Hi).
  pose proof (proj1 (Forall_forall _ _) (proj1 (Forall_forall _ _) Hfit f Hf)) as Hfit'.
  pose proof (proj1 (Forall_forall _ _) (proj1 (Forall_forall _ _) H f Hf)) as H'. cbv beta in Hfit', H'. split.
  - unfold hop_delay. destruct (link_delays f !! i) as [ld|] eqn:E; simpl; [|lia].
    apply Hfit'. by eapply list_elem_of_lookup_2.
  - rewrite <- hop_max_delay. apply H'. apply list_elem_of_fmap. by exists i.
Qed.

Lemma check_flow_longlink_spec seen f :
  (check_flow_longlink seen f = Ok (id f :: seen) ∧ (flow_ok f ∧ delays_ok f) ∧ id f ∉ seen) ∨
  (check_flow_longlink seen f = Err (DuplicateFlowId (id f)) ∧ id f ∈ seen) ∨
  (∃ e, check_flow_longlink seen f = Err e ∧ (∀ flows, f ∈ flows → input_error flows e)).
Proof.
  unfold check_flow_longlink.
  destruct (check_flow_spec seen f) as [(-> & Hok & Hn)|[[-> Hin]|(e & -> & He)]];
    [|by right; left|by right; right; exists e].
  unfold delays_ok. case_bool_decide as H0; simpl; [left; tauto|].
  destruct (Nat.eqb_spec (length (link_delays f)) (length (path f))) as [Hl|Hl]; simpl; [left; tauto|].
  right; right. eexists. split; [done|]. intros flows Hin. exists f. split_and!; try done.
  by destruct (link_delays f).
Qed.

(** What each result of [synthesize_cqf_longlink] says. *)
Definition longlink_outcome (flows : list CqfFlow) (rate dt : u64) (cap : u32)
    (res : Result CqfLongLinkSchedule CqfSynthError) : Prop :=
  match res with
  | Ok s => feasible_longlink flows rate dt cap (ll_cycle_time_ps s) ∧
      (∀ T, meets_longlink flows dt T → T ≤ ll_cycle_time_ps s) ∧
      ll_dead_time_ps s = dt ∧ ll_buffers s = 3 ∧
      ll_csize_bits s = cqf_cycle_budget_bits_with_dead_time (ll_cycle_time_ps s) dt rate ∧
      ∀ link, default 0 (bt_get link (ll_per_link_bits s)) = link_total link flows
  | Err NoFlows => flows = []
  | Err ZeroLinkRate => rate = 0
  | Err (LongLinkDeadlineTooTight _) | Err (DeadTimeTooLarge _ _) => ∀ T, ¬ meets_longlink flows dt T
  | Err (Oversubscribed link required csize) =>
      required = link_total link flows ∧ csize < required ∧ ∀ T, ¬ feasible_longlink flows rate dt cap T
  | Err (BufferBudgetExceeded needed c) =>
      c = cap ∧ cap < needed ∧ ∀ T, ¬ feasible_longlink flows rate dt cap T
  | Err e => input_error flows e
  end.

Lemma cycle_longlink_spec flows dt c :
  flows ≠ [] → deadlines_fit flows →
  c = foldl (λ c f, N.min c (cycle_limit_longlink dt f)) U64_MAX flows / 1000 * 1000 →
  (∀ T, meets_longlink flows dt T → T ≤ c) ∧
  (0 < c → dt < c → Forall (λ f, Forall (λ d, d < c) (hops_max f)) flows → meets_longlink flows dt c).
Proof.
  intros Hne Hfit ->. set (c0 := foldl _ _ _). destruct (floor_ns c0) as (Hw & Hle & Hmax).
  assert (Hlim : ∀ T f, T ≤ U64_MAX → dt < T → Forall (λ d, d < T) (hops_max f) →
    T ≤ cycle_limit_longlink dt f ↔
    ∃ D, cqf_delay_max_longlink_ps (hops_max f) dt T = Done D ∧ D ≤ deadline_ps f).
  { intros T f HT Hdt Hd. rewrite longlink_delay_eq, limit_longlink_spec by done. naive_solver. }
  split.
  - intros T ([_ Hb] & HT & Hdt & Hl & Hd). apply Hmax; [done|]. apply fold_min_spec. split; [done|].
    rewrite Forall_forall in Hl, Hd |- *. intros f Hf. apply Hlim; auto.
  - intros Hc Hdt Hl. apply fold_min_spec in Hle as [Hb Hle]. split_and!; try done.
    rewrite Forall_forall in Hl, Hle |- *. intros f Hf. apply Hlim; auto.
Qed.

Lemma budget_dead_mono T T' dt rate :
  T ≤ T' → cqf_cycle_budget_bits_with_dead_time T dt rate ≤ cqf_cycle_budget_bits_with_dead_time T' dt rate.
Proof. intros. apply div_mono, N.mul_le_mono_l. unfold sat_sub. lia. Qed.

Lemma self_check_longlink_ok dt T flows :
  Forall (λ f, ∃ D, cqf_delay_max_longlink_ps (hops_max f) dt T = Done D ∧ D ≤ deadline_ps f) flows →
  self_check_longlink dt T flows = Done (Ok tt).
Proof.
  induction 1 as [|f flows (D & E & HD) _ IH]; [done|]. cbn [self_check_longlink].
  rewrite E. cbn [mbind Exec_bind]. by rewrite (proj2 (N.ltb_ge _ _)).
Qed.

(** The long-link synthesizer is sound and complete for cycles longer
    than every link: it returns the largest such whole-nanosecond cycle
    whose cycle-quantized delay, by the exact checker, meets every deadline,
    with the reservations within the dead-time budget and three buffers per
    port; every error but those of a malformed flow excludes all such
    cycles.  The self check never fails and nothing panics. *)
Theorem synthesize_cqf_longlink_exact flows rate dt cap :
  deadlines_fit flows → delays_fit flows →
  ∃ res, synthesize_cqf_longlink flows rate dt cap = Done res ∧
    longlink_outcome flows rate dt cap res.
Proof.
  intros Hfit Hdel. unfold synthesize_cqf_longlink. destruct flows as [|f0 flows0]; [by eexists|].
  set (flows := f0 :: flows0) in *. assert (Hne : flows ≠ []) by done.
  destruct (N.eqb_spec rate 0) as [Hr|Hr]; [by eexists|]. cbn [try_bind mbind Exec_bind].
  destruct (check_flows_spec check_flow_longlink (λ f, flow_ok f ∧ delays_ok f) flows
    check_flow_longlink_spec [] (NoDup_nil_2)) as [[E Hok]|(e & E & He)]; simpl map in E; rewrite E.
  2:{ eexists. split; [done|]. simpl app in He. by destruct e. }
  destruct (tightest_cycle_spec dt flows (id f0)) as (i & ml & -> & Hml). cbn [mbind Exec_bind].
  set (c := foldl _ _ _ / 1000 * 1000).
  destruct (cycle_longlink_spec flows dt c Hne Hfit eq_refl) as [Hmax Hmeets].
  destruct ((c =? 0) || (c <=? ml)) eqn:Ec.
  { eexists. split; [done|]. intros T HT. pose proof (Hmax T HT) as HTc.
    destruct HT as ([HT0 _] & _ & _ & Hl & _). specialize (proj2 (Hml T) (conj HT0 Hl)).
    apply orb_true_iff in Ec as [Ec%N.eqb_eq|Ec%N.leb_le]; lia. }
  apply orb_false_iff in Ec as [Hc0%N.eqb_neq Hcl%N.leb_gt].
  destruct (proj1 (Hml c) Hcl) as [Hcpos Hlinks].
  destruct (N.leb_spec c dt) as [Hdt|Hdt].
  { eexists. split; [done|]. intros T HT. specialize (Hmax T HT). destruct HT as (_ & _ & HT & _). lia. }
  specialize (Hmeets Hcpos Hdt Hlinks).
  destruct (admit_links_spec (cqf_cycle_budget_bits_with_dead_time c dt rate) (link_bits flows))
    as [[-> Hf]|(l & r & -> & Hin & Hlt)]; cbn [mbind Exec_bind].
  2:{ eexists. split; [done|]. apply oversubscribed_spec in Hin as ->. split_and!; [done|done|].
      intros T (HT & Hb & _). specialize (Hb l). pose proof (budget_dead_mono T c dt rate (Hmax T HT)). lia. }
  fold (all_hops flows).
  assert (Hbuf : ∀ T, meets_longlink flows dt T →
    cqf_buffer_count (all_hops flows) dt T cap = Done (if cap <? 3 then Err 3 else Ok 3)).
  { intros T ([_ Hb] & _ & HdT & Hl & _). apply buffer_count_eq; [by apply all_hops_fit|done|done]. }
  rewrite (Hbuf c Hmeets). destruct (N.ltb_spec cap 3) as [Hcap|Hcap]; cbn [mbind Exec_bind].
  { eexists. split; [done|]. split_and!; [done|done|]. intros T (HT & _ & b & Hb).
    by rewrite (Hbuf T HT) in Hb. }
  rewrite self_check_longlink_ok by apply Hmeets. cbn [mbind Exec_bind].
  eexists. split; [done|]. split_and!; try done; [|exact (proj2 (link_bits_spec flows))].
  split_and!; [done|by apply fits_totals|]. exists 3. exact (Hbuf c Hmeets).
Qed.

(** Without link delays and with a dead time the cycle is the baseline's,
    but the budget is smaller: the two synthesizers differ on admission. *)
Lemma longlink_budget_differs :
  let f := {| id := 1; reserved_bits_per_cycle := 10000; deadline_ps := 20000000;
              path := [7]; link_delays := [] |} in
  (∃ s, synthesize_cqf [f] 1000000000 = Done (Ok s) ∧ cycle_time_ps s = 10000000) ∧
  synthesize_cqf_longlink [f] 1000000000 1 7 = Done (Err (Oversubscribed 7 10000 9999)).
Proof. split; [eexists|]; by vm_compute. Qed.

(** ** Witnesses: two flows that share a gigabit link *)
Definition cqf_flow_ex (i : u32) (p : list u32) : CqfFlow :=
  {| id := i; reserved_bits_per_cycle := 4000; deadline_ps := 100000000; path := p;
     link_delays := map (λ _, {| min_ps := 1000; max_ps := 500000 |}) p |}.
Definition cqf_flows_ex : list CqfFlow := [cqf_flow_ex 1 [10; 11]; cqf_flow_ex 2 [11; 12; 13]].

Lemma cqf_flows_fit : deadlines_fit cqf_flows_ex ∧ delays_fit cqf_flows_ex.
Proof. split; repeat constructor; vm_compute; discriminate. Defined.

Lemma synthesize_cqf_exact_witness :
  deadlines_fit cqf_flows_ex ∧
  ∃ res, synthesize_cqf cqf_flows_ex 1000000000 = Done res ∧
    synth_outcome cqf_flows_ex 1000000000 res.
Proof.
  split; [apply cqf_flows_fit|]. apply synthesize_cqf_exact. apply cqf_flows_fit.
Defined.

Lemma synthesize_cqf_longlink_exact_witness :
  deadlines_fit cqf_flows_ex ∧ delays_fit cqf_flows_ex ∧
  ∃ res, synthesize_cqf_longlink cqf_flows_ex 1000000000 100000 CQF_DEFAULT_BUFFER_CAP = Done res ∧
    longlink_outcome cqf_flows_ex 1000000000 100000 CQF_DEFAULT_BUFFER_CAP res.
Proof.
  split; [apply cqf_flows_fit|]. split; [apply cqf_flows_fit|].
  apply synthesize_cqf_longlink_exact; apply cqf_flows_fit.
Defined.
