(* ===== verification/NetGraph.v ===== *)
(** * The network graph

    [crates/spar-network/src/types.rs]: nodes, links and the reachability
    query, a depth-first search on an explicit stack.  Component indices are
    natural numbers. *)
From S2P Require Import Prelude.
From stdpp Require Import sets.
#[local] Open Scope nat_scope.

(** crates/spar-network/src/types.rs:44-50 [SwitchType] *)
Inductive SwitchType := Fifo | Priority | Tsn.

(** crates/spar-network/src/types.rs:29-34 [NodeKind] *)
Inductive NodeKind := Switch (switch_type : SwitchType) | EndStation.

(** crates/spar-network/src/types.rs:17-25 [NetworkNode] *)
Record NetworkNode := { idx : nat; kind : NodeKind; name : string }.

(** crates/spar-network/src/types.rs:75-91 [NetworkLink] *)
Record NetworkLink := {
  from : nat;
  to : nat;
  bus_idx : nat;
  bandwidth_bps : option u64;
  forwarding_latency_ps : option (u64 * u64);
  queue_depth : option u64;
}.

(** crates/spar-network/src/types.rs:97-100 [NetworkGraph] *)
Record NetworkGraph := { nodes : list NetworkNode; links : list NetworkLink }.

(** crates/spar-network/src/types.rs:114-118 [NetworkGraph::switches] *)
Definition switches (g : NetworkGraph) : list NetworkNode :=
  List.filter (λ n, match kind n with Switch _ => true | EndStation => false end) (nodes g).

(** crates/spar-network/src/types.rs:121-125 [NetworkGraph::end_stations] *)
Definition end_stations (g : NetworkGraph) : list NetworkNode :=
  List.filter (λ n, match kind n with EndStation => true | Switch _ => false end) (nodes g).

(** crates/spar-network/src/types.rs:128-130 [NetworkGraph::node] *)
Definition node (g : NetworkGraph) (i : nat) : option NetworkNode :=
  List.find (λ n, Nat.eqb (idx n) i) (nodes g).

(** crates/spar-network/src/types.rs:153-159 [NetworkGraph::reachable_from]:
    the other end of a link. *)
Definition next_of (current : nat) (link : NetworkLink) : option nat :=
  if Nat.eqb (from link) current then Some (to link)
  else if Nat.eqb (to link) current then Some (from link)
  else None.

(** crates/spar-network/src/types.rs:152-165 [NetworkGraph::reachable_from]:
    the loop over the links; the head of the list is the top of the stack. *)
Definition push_neighbours (g : NetworkGraph) (current : nat) (visited stack : list nat) : list nat :=
  foldl (λ stack link,
    match next_of current link with
    | Some next => if bool_decide (next ∈ visited) then stack else next :: stack
    | None => stack
    end) stack (links g).

(** crates/spar-network/src/types.rs:146-166 [NetworkGraph::reachable_from]:
    the loop, on fuel. *)
Fixpoint search (g : NetworkGraph) (fuel : nat) (stack visited : list nat) : Exec (list nat) :=
  match stack with
  | [] => Done visited
  | current :: stack =>
      match fuel with
      | O => Stuck
      | S n =>
          if bool_decide (current ∈ visited) then search g n stack visited
          else
            let visited := visited ++ [current] in
            search g n (push_neighbours g current visited stack) visited
      end
  end.

(** crates/spar-network/src/types.rs:138-169 [NetworkGraph::reachable_from]: each
    node is expanded once and pushes at most one entry per link. *)
Definition reachable_from (g : NetworkGraph) (start : nat) : Exec (list nat) :=
  match node g start with
  | None => Done []
  | Some _ => search g (1 + (1 + 2 * length (links g)) * length (links g)) [start] []
  end.

(** ** Reachability as a relation *)

(** Links are undirected. *)
Definition edge (g : NetworkGraph) (x y : nat) : Prop :=
  ∃ l, l ∈ links g ∧ ((from l = x ∧ to l = y) ∨ (to l = x ∧ from l = y)).

Inductive reachable (g : NetworkGraph) (x : nat) : nat → Prop :=
  | reachable_refl : reachable g x x
  | reachable_step y z : reachable g x y → edge g y z → reachable g x z.

Lemma next_of_edge g x l y : l ∈ links g → next_of x l = Some y → edge g x y.
Proof.
  intros Hl. unfold next_of. destruct (Nat.eqb_spec (from l) x), (Nat.eqb_spec (to l) x);
    intros [= <-]; exists l; auto.
Qed.

(** The link that makes an edge offers its other end. *)
Lemma edge_next_of g x y : edge g x y → ∃ l, l ∈ links g ∧ next_of x l = Some y.
Proof.
  intros (l & Hl & [[<- <-]|[<- <-]]); exists l; split; try done; unfold next_of; rewrite Nat.eqb_refl.
  - done.
  - by destruct (Nat.eqb_spec (from l) (to l)) as [->|E].
Qed.

(** What the pushes add: neighbours that are not visited. *)
Lemma push_spec g x visited stack y :
  y ∈ push_neighbours g x visited stack ↔
  y ∈ stack ∨ (y ∉ visited ∧ ∃ l, l ∈ links g ∧ next_of x l = Some y).
Proof.
  unfold push_neighbours. revert stack. induction (links g) as [|l ls IH]; intros stack; simpl.
  - split; [by left|]. intros [?|(_ & l & Hl%not_elem_of_nil & _)]; done.
  - rewrite IH. setoid_rewrite elem_of_cons.
    destruct (next_of x l) as [z|] eqn:E; [case_bool_decide as Hz|].
    + naive_solver.
    + rewrite elem_of_cons. naive_solver.
    + naive_solver.
Qed.

Lemma push_length g x visited stack :
  length (push_neighbours g x visited stack) ≤ length stack + length (links g).
Proof.
  unfold push_neighbours. revert stack. induction (links g) as [|l ls IH]; intros stack; simpl; [lia|].
  etrans; [apply IH|]. destruct (next_of x l); [case_bool_decide|]; simpl; lia.
Qed.

(** ** The search *)

(** The nodes a search from [start] can meet. *)
Definition universe (g : NetworkGraph) (start : nat) : list nat :=
  start :: (l ← links g; [from l; to l]).

Lemma universe_length g start : length (universe g start) = 1 + 2 * length (links g).
Proof.
  unfold universe. simpl. f_equal. induction (links g) as [|l ls IH]; [done|].
  change (length ([from l; to l] ++ (l ← ls; [from l; to l])) = 2 * S (length ls)).
  rewrite length_app, IH. simpl. lia.
Qed.

Lemma edge_universe g start x y : edge g x y → y ∈ universe g start.
Proof.
  intros (l & Hl & H). right. apply list_elem_of_bind. exists l. split; [|done].
  destruct H as [[_ <-]|[_ <-]]; [right; left|left].
Qed.

(** The search keeps this: everything seen is reachable, and every edge that
    leaves the visited set leads to the visited set or to the stack. *)
Record Inv (g : NetworkGraph) (start : nat) (stack visited : list nat) : Prop := {
  inv_nodup : NoDup visited;
  inv_reach x : x ∈ visited ∨ x ∈ stack → reachable g start x;
  inv_universe x : x ∈ visited ∨ x ∈ stack → x ∈ universe g start;
  inv_closed x y : x ∈ visited → edge g x y → y ∈ visited ∨ y ∈ stack;
  inv_start : start ∈ visited ∨ start ∈ stack;
}.

Lemma Inv_pop g start x stack visited :
  x ∈ visited → Inv g start (x :: stack) visited → Inv g start stack visited.
Proof.
  intros Hx [H1 H2 H3 H4 H5]. constructor; [done|..].
  - intros y Hy. apply H2. set_solver.
  - intros y Hy. apply H3. set_solver.
  - intros y z Hy Hz. destruct (H4 y z Hy Hz) as [?|[->|?]%elem_of_cons]; auto.
  - destruct H5 as [?|[->|?]%elem_of_cons]; auto.
Qed.

Lemma Inv_visit g start x stack visited :
  x ∉ visited → Inv g start (x :: stack) visited →
  Inv g start (push_neighbours g x (visited ++ [x]) stack) (visited ++ [x]).
Proof.
  intros Hx [H1 H2 H3 H4 H5]. assert (Hrx : reachable g start x) by (apply H2; set_solver).
  constructor.
  - apply NoDup_app. split_and!; [done| |apply NoDup_singleton]. set_solver.
  - intros y Hy. rewrite push_spec in Hy.
    destruct Hy as [Hy|[Hy|(_ & l & Hl & Hn)]]; [apply H2; set_solver|apply H2; set_solver|].
    eapply reachable_step; [exact Hrx|]. by eapply next_of_edge.
  - intros y Hy. rewrite push_spec in Hy.
    destruct Hy as [Hy|[Hy|(_ & l & Hl & Hn)]]; [apply H3; set_solver|apply H3; set_solver|].
    eapply edge_universe, next_of_edge; done.
  - intros y z Hy Hz. rewrite push_spec.
    destruct (decide (z ∈ visited ++ [x])) as [?|Hn]; [by left|right].
    apply elem_of_app in Hy as [Hy|Hy].
    + left. destruct (H4 y z Hy Hz) as [?|[->|?]%elem_of_cons]; set_solver.
    + apply list_elem_of_singleton in Hy as ->. right. split; [done|]. by apply edge_next_of.
  - rewrite push_spec. destruct H5 as [?|[->|?]%elem_of_cons]; set_solver.
Qed.

(** Enough fuel for what is stacked and what can still be expanded. *)
Lemma search_total g start fuel stack visited :
  Inv g start stack visited →
  length stack + (1 + 2 * length (links g) - length visited) * length (links g) ≤ fuel →
  ∃ res, search g fuel stack visited = Done res ∧ visited `prefix_of` res ∧ Inv g start [] res.
Proof.
  revert stack visited. induction fuel as [|fuel IH]; intros [|x stack] visited HI Hf; simpl in *;
    try (by exists visited); [by apply Nat.le_0_r in Hf|].
  case_bool_decide as Hx.
  - destruct (IH stack visited) as (res & E & H); [by eapply Inv_pop|lia|by exists res].
  - pose proof (Inv_visit _ _ _ _ _ Hx HI) as HI'.
    assert (Hlen : length (visited ++ [x]) ≤ 1 + 2 * length (links g)).
    { rewrite <- (universe_length g start). apply submseteq_length, NoDup_submseteq; [apply HI'|].
      intros y Hy. apply HI'. by left. }
    rewrite length_app in Hlen. simpl in Hlen.
    destruct (IH _ _ HI') as (res & E & [k ->] & HI2).
    { pose proof (push_length g x (visited ++ [x]) stack). rewrite length_app. simpl. nia. }
    eexists. split; [exact E|]. split; [|done]. exists ([x] ++ k). by rewrite <- app_assoc.
Qed.

Lemma search_spec g start :
  ∃ res, search g (1 + (1 + 2 * length (links g)) * length (links g)) [start] [] = Done res ∧
    NoDup res ∧ head res = Some start ∧ ∀ x, x ∈ res ↔ reachable g start x.
Proof.
  assert (HI : Inv g start [start] []).
  { constructor; try set_solver; [constructor|]. intros x Hx. assert (x = start) as -> by set_solver.
    constructor. }
  pose proof (Inv_visit g start start [] [] (not_elem_of_nil _) HI) as HI'. simpl in HI'.
  destruct (search_total g start ((1 + 2 * length (links g)) * length (links g)) _ _ HI')
    as (res & E & [k ->] & HI2).
  { pose proof (push_length g start [start] []). simpl in *. lia. }
  exists (start :: k). split_and!.
  - etrans; [|exact E]. reflexivity.
  - apply HI2.
  - done.
  - intros x. split; [intros Hx; apply HI2; by left|].
    induction 1 as [|y z _ IH Hz]; [by left|].
    destruct (inv_closed _ _ _ _ HI2 y z IH Hz) as [?|?%not_elem_of_nil]; done.
Qed.

(** C26: [reachable_from] terminates and computes reachability: from a node of
    the graph it returns, without duplicates and starting with the node
    itself, exactly the nodes that a chain of links, in either direction,
    connects to it; from anything else it returns nothing. *)
Theorem reachable_from_exact g start :
  ∃ res, reachable_from g start = Done res ∧ NoDup res ∧
    match node g start with
    | Some _ => head res = Some start ∧ ∀ x, x ∈ res ↔ reachable g start x
    | None => res = []
    end.
Proof.
  unfold reachable_from. destruct (node g start).
  - destruct (search_spec g start) as (res & E & H1 & H2 & H3). by exists res.
  - exists []. split_and!; [done|constructor|done].
Qed.

Lemma reachable_sym g x y : reachable g x y → reachable g y x.
Proof.
  assert (Hs : ∀ a b, edge g a b → edge g b a) by (intros a b (l & Hl & [?|?]); exists l; tauto).
  assert (Ht : ∀ a b, reachable g a b → ∀ c, edge g c a → reachable g c b).
  { induction 1 as [|b c' _ IH Hbc]; intros c Hc; [econstructor; [constructor|done]|].
    econstructor; [by apply IH|done]. }
  induction 1 as [|y z _ IH Hyz]; [constructor|]. eapply Ht; [exact IH|]. by apply Hs.
Qed.

(** Reachability is mutual: of two nodes of the graph, each search finds
    the other node or neither does. *)
Theorem reachable_from_symmetric g x y rx ry :
  is_Some (node g x) → is_Some (node g y) →
  reachable_from g x = Done rx → reachable_from g y = Done ry → y ∈ rx ↔ x ∈ ry.
Proof.
  intros [nx Hx] [ny Hy]. unfold reachable_from. rewrite Hx, Hy.
  destruct (search_spec g x) as (rx' & -> & _ & _ & H1). intros [= <-].
  destruct (search_spec g y) as (ry' & -> & _ & _ & H2). intros [= <-].
  rewrite H1, H2. split; apply reachable_sym.
Qed.

Definition graph_ex : NetworkGraph :=
  let n i k := {| idx := i; kind := k; name := "n" |} in
  let l a b := {| from := a; to := b; bus_idx := 9; bandwidth_bps := None;
                  forwarding_latency_ps := None; queue_depth := None |} in
  {| nodes := [n 1 EndStation; n 2 (Switch Fifo); n 3 EndStation; n 4 EndStation];
     links := [l 1 2; l 3 2] |}.

Lemma reachable_from_symmetric_witness :
  is_Some (node graph_ex 1) ∧ is_Some (node graph_ex 3) ∧
  reachable_from graph_ex 1 = Done [1; 2; 3] ∧ reachable_from graph_ex 3 = Done [3; 2; 1] ∧
  (3 ∈ [1; 2; 3] ↔ 1 ∈ [3; 2; 1]).
Proof.
  split; [by eexists|]. split; [by eexists|]. split; [by vm_compute|]. split; [by vm_compute|].
  apply (reachable_from_symmetric graph_ex 1 3); [by eexists|by eexists|by vm_compute|by vm_compute].
Defined.
