(* ===== verification/Vocabulary.v ===== *)
(** * Vocabularies

    The repository has four parsers (AADL, the error-model annex, the
    behaviour annex and SysML v2), each over its own enum of token and node
    kinds.  [Discriminant] is what an enum without payload gives (its
    [as u16] cast is injective, so [==] compares codes); [Vocabulary] is what
    the event parser and the tree builder use of such an enum.  The parser
    state, its program logic, token sets and tree building are developed once
    over these classes and instantiated four times. *)
From S2P Require Import Prelude.
#[local] Open Scope N_scope.

Class Discriminant (K : Type) := {
  kind_code : K → N;
  kind_code_inj k1 k2 : kind_code k1 = kind_code k2 → k1 = k2;
}.

Section discriminant.
Context {K : Type} {HD : Discriminant K}.

(** The derived [PartialEq]. *)
Definition kind_eqb (k1 k2 : K) : bool := kind_code k1 =? kind_code k2.

Lemma kind_eqb_spec k1 k2 : reflect (k1 = k2) (kind_eqb k1 k2).
Proof.
  unfold kind_eqb. destruct (N.eqb_spec (kind_code k1) (kind_code k2)); constructor.
  - by apply kind_code_inj.
  - congruence.
Qed.

Lemma kind_eqb_refl k : kind_eqb k k = true.
Proof. by destruct (kind_eqb_spec k k). Qed.

Lemma kind_eqb_true k1 k2 : kind_eqb k1 k2 = true → k1 = k2.
Proof. by destruct (kind_eqb_spec k1 k2). Qed.

Lemma kind_eqb_sym k1 k2 : kind_eqb k1 k2 = kind_eqb k2 k1.
Proof. apply N.eqb_sym. Qed.

#[export] Instance kind_eq_dec : EqDecision K.
Proof.
  intros k1 k2. destruct (kind_eqb k1 k2) eqn:E.
  - left. by destruct (kind_eqb_spec k1 k2).
  - right. by destruct (kind_eqb_spec k1 k2).
Defined.
End discriminant.

Class Vocabulary (K : Type) `{Discriminant K} := {
  eof : K;
  tombstone : K;
  error_kind : K;
  is_trivia : K → bool;
  kind_name : K → string;
  error_not_tombstone : error_kind ≠ tombstone;
}.

(** A keyword table has no [eof]. *)
Lemma keyword_not_eof {K} {HD : Discriminant K} {V : Vocabulary K} (table : list (string * K)) f k :
  forallb (λ row, negb (kind_eqb (snd row) eof)) table = true →
  snd <$> List.find f table = Some k → k ≠ eof.
Proof.
  rewrite forallb_forall. intros Hall E. destruct (List.find f table) as [row|] eqn:Ef; [|done].
  injection E as <-. apply find_some in Ef as [Hin _]. apply Hall, negb_true_iff in Hin.
  by destruct (kind_eqb_spec (snd row) eof).
Qed.
