(* ===== verification/SyntaxKind.v ===== *)
(** * Syntax kinds

    [crates/spar-parser/src/syntax_kind.rs]: the kinds of tokens and nodes,
    their discriminants, and the keyword table. *)
From S2P Require Import Prelude.
From S2P Require Export Vocabulary.
#[local] Open Scope N_scope.

(** crates/spar-parser/src/syntax_kind.rs:10-430 [SyntaxKind] *)
Inductive SyntaxKind :=
  | TOMBSTONE | EOF | ERROR | WHITESPACE | COMMENT | SEMICOLON | COLON | COMMA | DOT
  | DOT_DOT | L_PAREN | R_PAREN | L_CURLY | R_CURLY | L_BRACKET | R_BRACKET | ARROW
  | BIDI_ARROW | FAT_ARROW | PLUS_ARROW | PLUS | MINUS | STAR | SLASH | COLON_COLON
  | ANNEX_OPEN | ANNEX_CLOSE | HASH | DASH_BRACKET | BRACKET_ARROW | INTEGER_LIT
  | REAL_LIT | STRING_LIT | IDENT | PACKAGE_KW | PUBLIC_KW | PRIVATE_KW | WITH_KW
  | END_KW | NONE_KW | RENAMES_KW | SYSTEM_KW | PROCESS_KW | THREAD_KW | GROUP_KW
  | PROCESSOR_KW | VIRTUAL_KW | BUS_KW | MEMORY_KW | DEVICE_KW | SUBPROGRAM_KW | DATA_KW
  | ABSTRACT_KW | IMPLEMENTATION_KW | EXTENDS_KW | PROTOTYPES_KW | FEATURES_KW | FLOWS_KW
  | CONNECTIONS_KW | MODES_KW | PROPERTIES_KW | SUBCOMPONENTS_KW | ANNEX_KW | CALLS_KW
  | INTERNAL_KW | IN_KW | OUT_KW | PORT_KW | EVENT_KW | ACCESS_KW | PROVIDES_KW
  | REQUIRES_KW | FEATURE_KW | PARAMETER_KW | INVERSE_KW | OF_KW | FLOW_KW | SOURCE_KW
  | SINK_KW | PATH_KW | INITIAL_KW | MODE_KW | TRANSITION_KW | CONSTANT_KW | APPLIES_KW
  | TO_KW | INHERIT_KW | DELTA_KW | IS_KW | ALL_KW | BINDING_KW | CLASSIFIER_KW
  | REFERENCE_KW | RECORD_KW | COMPUTE_KW | TYPE_KW | SET_KW | RANGE_KW | UNITS_KW
  | ENUMERATION_KW | LIST_KW | AADLBOOLEAN_KW | AADLINTEGER_KW | AADLREAL_KW
  | AADLSTRING_KW | PROPERTY_KW | TRUE_KW | FALSE_KW | NOT_KW | AND_KW | OR_KW
  | REFINED_KW | SELF_KW | INTERFACE_KW | FILE_KW | SOURCE_FILE | AADL_PACKAGE
  | PUBLIC_SECTION | PRIVATE_SECTION | WITH_CLAUSE | NAME | QUALIFIED_NAME | NAME_LIST
  | PACKAGE_PROPERTIES | RENAMES_CLAUSE | COMPONENT_TYPE | COMPONENT_IMPL
  | COMPONENT_CATEGORY | TYPE_EXTENSION | IMPL_EXTENSION | REALIZATION
  | PROTOTYPE_SECTION | PROTOTYPE | PROTOTYPE_BINDING | PROTOTYPE_BINDING_LIST
  | FEATURE_SECTION | DATA_PORT | EVENT_PORT | EVENT_DATA_PORT | PARAMETER | DATA_ACCESS
  | BUS_ACCESS | SUBPROGRAM_ACCESS | SUBPROGRAM_GROUP_ACCESS | FEATURE_GROUP
  | ABSTRACT_FEATURE | FEATURE_GROUP_TYPE | DIRECTION | SUBCOMPONENT_SECTION
  | SUBCOMPONENT | CONNECTION_SECTION | PORT_CONNECTION | ACCESS_CONNECTION
  | FEATURE_GROUP_CONNECTION | FEATURE_CONNECTION | PARAMETER_CONNECTION
  | CONNECTED_ELEMENT | FLOW_SPEC_SECTION | FLOW_SPEC | FLOW_KIND | FLOW_END
  | FLOW_IMPL_SECTION | FLOW_IMPL | END_TO_END_FLOW | FLOW_SEGMENT | MODE_SECTION | MODE
  | MODE_TRANSITION | MODE_TRIGGER | PROPERTY_SECTION | PROPERTY_ASSOCIATION
  | PROPERTY_REF | APPLIES_TO | CONTAINMENT_PATH | IN_BINDING | MODAL_PROPERTY_VALUE
  | PROPERTY_SET | PROPERTY_DEFINITION | PROPERTY_TYPE | PROPERTY_CONSTANT
  | PROPERTY_TYPE_DECL | PROPERTY_EXPRESSION | BOOLEAN_VALUE | INTEGER_VALUE | REAL_VALUE
  | STRING_VALUE | RECORD_VALUE | RECORD_FIELD | LIST_VALUE | RANGE_VALUE | DELTA_VALUE
  | UNIT_VALUE | BINARY_EXPR | REFERENCE_VALUE | CLASSIFIER_VALUE | COMPUTED_VALUE
  | FILE_REFERENCE | CLASSIFIER_REF | ANNEX_SUBCLAUSE | ANNEX_LIBRARY | ANNEX_TEXT
  | ARRAY_DIMENSION | ARRAY_SIZE | CALL_SECTION | CALL_SEQUENCE | SUBPROGRAM_CALL
  | INTERNAL_FEATURES_SECTION | PROCESSOR_FEATURES_SECTION | EVENT_SOURCE
  | EVENT_DATA_SOURCE | PORT_PROXY | SUBPROGRAM_PROXY | REFINED_TO | __LAST.

(** The kinds in declaration order. *)
Definition all_kinds : list SyntaxKind :=
  [TOMBSTONE; EOF; ERROR; WHITESPACE; COMMENT; SEMICOLON; COLON; COMMA; DOT; DOT_DOT;
   L_PAREN; R_PAREN; L_CURLY; R_CURLY; L_BRACKET; R_BRACKET; ARROW; BIDI_ARROW;
   FAT_ARROW; PLUS_ARROW; PLUS; MINUS; STAR; SLASH; COLON_COLON; ANNEX_OPEN; ANNEX_CLOSE;
   HASH; DASH_BRACKET; BRACKET_ARROW; INTEGER_LIT; REAL_LIT; STRING_LIT; IDENT;
   PACKAGE_KW; PUBLIC_KW; PRIVATE_KW; WITH_KW; END_KW; NONE_KW; RENAMES_KW; SYSTEM_KW;
   PROCESS_KW; THREAD_KW; GROUP_KW; PROCESSOR_KW; VIRTUAL_KW; BUS_KW; MEMORY_KW;
   DEVICE_KW; SUBPROGRAM_KW; DATA_KW; ABSTRACT_KW; IMPLEMENTATION_KW; EXTENDS_KW;
   PROTOTYPES_KW; FEATURES_KW; FLOWS_KW; CONNECTIONS_KW; MODES_KW; PROPERTIES_KW;
   SUBCOMPONENTS_KW; ANNEX_KW; CALLS_KW; INTERNAL_KW; IN_KW; OUT_KW; PORT_KW; EVENT_KW;
   ACCESS_KW; PROVIDES_KW; REQUIRES_KW; FEATURE_KW; PARAMETER_KW; INVERSE_KW; OF_KW;
   FLOW_KW; SOURCE_KW; SINK_KW; PATH_KW; INITIAL_KW; MODE_KW; TRANSITION_KW; CONSTANT_KW;
   APPLIES_KW; TO_KW; INHERIT_KW; DELTA_KW; IS_KW; ALL_KW; BINDING_KW; CLASSIFIER_KW;
   REFERENCE_KW; RECORD_KW; COMPUTE_KW; TYPE_KW; SET_KW; RANGE_KW; UNITS_KW;
   ENUMERATION_KW; LIST_KW; AADLBOOLEAN_KW; AADLINTEGER_KW; AADLREAL_KW; AADLSTRING_KW;
   PROPERTY_KW; TRUE_KW; FALSE_KW; NOT_KW; AND_KW; OR_KW; REFINED_KW; SELF_KW;
   INTERFACE_KW; FILE_KW; SOURCE_FILE; AADL_PACKAGE; PUBLIC_SECTION; PRIVATE_SECTION;
   WITH_CLAUSE; NAME; QUALIFIED_NAME; NAME_LIST; PACKAGE_PROPERTIES; RENAMES_CLAUSE;
   COMPONENT_TYPE; COMPONENT_IMPL; COMPONENT_CATEGORY; TYPE_EXTENSION; IMPL_EXTENSION;
   REALIZATION; PROTOTYPE_SECTION; PROTOTYPE; PROTOTYPE_BINDING; PROTOTYPE_BINDING_LIST;
   FEATURE_SECTION; DATA_PORT; EVENT_PORT; EVENT_DATA_PORT; PARAMETER; DATA_ACCESS;
   BUS_ACCESS; SUBPROGRAM_ACCESS; SUBPROGRAM_GROUP_ACCESS; FEATURE_GROUP;
   ABSTRACT_FEATURE; FEATURE_GROUP_TYPE; DIRECTION; SUBCOMPONENT_SECTION; SUBCOMPONENT;
   CONNECTION_SECTION; PORT_CONNECTION; ACCESS_CONNECTION; FEATURE_GROUP_CONNECTION;
   FEATURE_CONNECTION; PARAMETER_CONNECTION; CONNECTED_ELEMENT; FLOW_SPEC_SECTION;
   FLOW_SPEC; FLOW_KIND; FLOW_END; FLOW_IMPL_SECTION; FLOW_IMPL; END_TO_END_FLOW;
   FLOW_SEGMENT; MODE_SECTION; MODE; MODE_TRANSITION; MODE_TRIGGER; PROPERTY_SECTION;
   PROPERTY_ASSOCIATION; PROPERTY_REF; APPLIES_TO; CONTAINMENT_PATH; IN_BINDING;
   MODAL_PROPERTY_VALUE; PROPERTY_SET; PROPERTY_DEFINITION; PROPERTY_TYPE;
   PROPERTY_CONSTANT; PROPERTY_TYPE_DECL; PROPERTY_EXPRESSION; BOOLEAN_VALUE;
   INTEGER_VALUE; REAL_VALUE; STRING_VALUE; RECORD_VALUE; RECORD_FIELD; LIST_VALUE;
   RANGE_VALUE; DELTA_VALUE; UNIT_VALUE; BINARY_EXPR; REFERENCE_VALUE; CLASSIFIER_VALUE;
   COMPUTED_VALUE; FILE_REFERENCE; CLASSIFIER_REF; ANNEX_SUBCLAUSE; ANNEX_LIBRARY;
   ANNEX_TEXT; ARRAY_DIMENSION; ARRAY_SIZE; CALL_SECTION; CALL_SEQUENCE; SUBPROGRAM_CALL;
   INTERNAL_FEATURES_SECTION; PROCESSOR_FEATURES_SECTION; EVENT_SOURCE;
   EVENT_DATA_SOURCE; PORT_PROXY; SUBPROGRAM_PROXY; REFINED_TO; __LAST].

(** crates/spar-parser/src/syntax_kind.rs:9-10 [SyntaxKind as u16] *)
Definition syntax_kind_code (k : SyntaxKind) : N :=
  match k with
  | TOMBSTONE => 0 | EOF => 1 | ERROR => 2 | WHITESPACE => 3 | COMMENT => 4
  | SEMICOLON => 5 | COLON => 6 | COMMA => 7 | DOT => 8 | DOT_DOT => 9 | L_PAREN => 10
  | R_PAREN => 11 | L_CURLY => 12 | R_CURLY => 13 | L_BRACKET => 14 | R_BRACKET => 15
  | ARROW => 16 | BIDI_ARROW => 17 | FAT_ARROW => 18 | PLUS_ARROW => 19 | PLUS => 20
  | MINUS => 21 | STAR => 22 | SLASH => 23 | COLON_COLON => 24 | ANNEX_OPEN => 25
  | ANNEX_CLOSE => 26 | HASH => 27 | DASH_BRACKET => 28 | BRACKET_ARROW => 29
  | INTEGER_LIT => 30 | REAL_LIT => 31 | STRING_LIT => 32 | IDENT => 33
  | PACKAGE_KW => 34 | PUBLIC_KW => 35 | PRIVATE_KW => 36 | WITH_KW => 37 | END_KW => 38
  | NONE_KW => 39 | RENAMES_KW => 40 | SYSTEM_KW => 41 | PROCESS_KW => 42
  | THREAD_KW => 43 | GROUP_KW => 44 | PROCESSOR_KW => 45 | VIRTUAL_KW => 46
  | BUS_KW => 47 | MEMORY_KW => 48 | DEVICE_KW => 49 | SUBPROGRAM_KW => 50
  | DATA_KW => 51 | ABSTRACT_KW => 52 | IMPLEMENTATION_KW => 53 | EXTENDS_KW => 54
  | PROTOTYPES_KW => 55 | FEATURES_KW => 56 | FLOWS_KW => 57 | CONNECTIONS_KW => 58
  | MODES_KW => 59 | PROPERTIES_KW => 60 | SUBCOMPONENTS_KW => 61 | ANNEX_KW => 62
  | CALLS_KW => 63 | INTERNAL_KW => 64 | IN_KW => 65 | OUT_KW => 66 | PORT_KW => 67
  | EVENT_KW => 68 | ACCESS_KW => 69 | PROVIDES_KW => 70 | REQUIRES_KW => 71
  | FEATURE_KW => 72 | PARAMETER_KW => 73 | INVERSE_KW => 74 | OF_KW => 75
  | FLOW_KW => 76 | SOURCE_KW => 77 | SINK_KW => 78 | PATH_KW => 79 | INITIAL_KW => 80
  | MODE_KW => 81 | TRANSITION_KW => 82 | CONSTANT_KW => 83 | APPLIES_KW => 84
  | TO_KW => 85 | INHERIT_KW => 86 | DELTA_KW => 87 | IS_KW => 88 | ALL_KW => 89
  | BINDING_KW => 90 | CLASSIFIER_KW => 91 | REFERENCE_KW => 92 | RECORD_KW => 93
  | COMPUTE_KW => 94 | TYPE_KW => 95 | SET_KW => 96 | RANGE_KW => 97 | UNITS_KW => 98
  | ENUMERATION_KW => 99 | LIST_KW => 100 | AADLBOOLEAN_KW => 101 | AADLINTEGER_KW => 102
  | AADLREAL_KW => 103 | AADLSTRING_KW => 104 | PROPERTY_KW => 105 | TRUE_KW => 106
  | FALSE_KW => 107 | NOT_KW => 108 | AND_KW => 109 | OR_KW => 110 | REFINED_KW => 111
  | SELF_KW => 112 | INTERFACE_KW => 113 | FILE_KW => 114 | SOURCE_FILE => 115
  | AADL_PACKAGE => 116 | PUBLIC_SECTION => 117 | PRIVATE_SECTION => 118
  | WITH_CLAUSE => 119 | NAME => 120 | QUALIFIED_NAME => 121 | NAME_LIST => 122
  | PACKAGE_PROPERTIES => 123 | RENAMES_CLAUSE => 124 | COMPONENT_TYPE => 125
  | COMPONENT_IMPL => 126 | COMPONENT_CATEGORY => 127 | TYPE_EXTENSION => 128
  | IMPL_EXTENSION => 129 | REALIZATION => 130 | PROTOTYPE_SECTION => 131
  | PROTOTYPE => 132 | PROTOTYPE_BINDING => 133 | PROTOTYPE_BINDING_LIST => 134
  | FEATURE_SECTION => 135 | DATA_PORT => 136 | EVENT_PORT => 137
  | EVENT_DATA_PORT => 138 | PARAMETER => 139 | DATA_ACCESS => 140 | BUS_ACCESS => 141
  | SUBPROGRAM_ACCESS => 142 | SUBPROGRAM_GROUP_ACCESS => 143 | FEATURE_GROUP => 144
  | ABSTRACT_FEATURE => 145 | FEATURE_GROUP_TYPE => 146 | DIRECTION => 147
  | SUBCOMPONENT_SECTION => 148 | SUBCOMPONENT => 149 | CONNECTION_SECTION => 150
  | PORT_CONNECTION => 151 | ACCESS_CONNECTION => 152 | FEATURE_GROUP_CONNECTION => 153
  | FEATURE_CONNECTION => 154 | PARAMETER_CONNECTION => 155 | CONNECTED_ELEMENT => 156
  | FLOW_SPEC_SECTION => 157 | FLOW_SPEC => 158 | FLOW_KIND => 159 | FLOW_END => 160
  | FLOW_IMPL_SECTION => 161 | FLOW_IMPL => 162 | END_TO_END_FLOW => 163
  | FLOW_SEGMENT => 164 | MODE_SECTION => 165 | MODE => 166 | MODE_TRANSITION => 167
  | MODE_TRIGGER => 168 | PROPERTY_SECTION => 169 | PROPERTY_ASSOCIATION => 170
  | PROPERTY_REF => 171 | APPLIES_TO => 172 | CONTAINMENT_PATH => 173 | IN_BINDING => 174
  | MODAL_PROPERTY_VALUE => 175 | PROPERTY_SET => 176 | PROPERTY_DEFINITION => 177
  | PROPERTY_TYPE => 178 | PROPERTY_CONSTANT => 179 | PROPERTY_TYPE_DECL => 180
  | PROPERTY_EXPRESSION => 181 | BOOLEAN_VALUE => 182 | INTEGER_VALUE => 183
  | REAL_VALUE => 184 | STRING_VALUE => 185 | RECORD_VALUE => 186 | RECORD_FIELD => 187
  | LIST_VALUE => 188 | RANGE_VALUE => 189 | DELTA_VALUE => 190 | UNIT_VALUE => 191
  | BINARY_EXPR => 192 | REFERENCE_VALUE => 193 | CLASSIFIER_VALUE => 194
  | COMPUTED_VALUE => 195 | FILE_REFERENCE => 196 | CLASSIFIER_REF => 197
  | ANNEX_SUBCLAUSE => 198 | ANNEX_LIBRARY => 199 | ANNEX_TEXT => 200
  | ARRAY_DIMENSION => 201 | ARRAY_SIZE => 202 | CALL_SECTION => 203
  | CALL_SEQUENCE => 204 | SUBPROGRAM_CALL => 205 | INTERNAL_FEATURES_SECTION => 206
  | PROCESSOR_FEATURES_SECTION => 207 | EVENT_SOURCE => 208 | EVENT_DATA_SOURCE => 209
  | PORT_PROXY => 210 | SUBPROGRAM_PROXY => 211 | REFINED_TO => 212 | __LAST => 213
  end.

(** The variant's name, as [#[derive(Debug)]] prints it with [{:?}]. *)
Definition syntax_kind_name (k : SyntaxKind) : string :=
  (match k with
  | TOMBSTONE => "TOMBSTONE" | EOF => "EOF" | ERROR => "ERROR"
  | WHITESPACE => "WHITESPACE" | COMMENT => "COMMENT" | SEMICOLON => "SEMICOLON"
  | COLON => "COLON" | COMMA => "COMMA" | DOT => "DOT" | DOT_DOT => "DOT_DOT"
  | L_PAREN => "L_PAREN" | R_PAREN => "R_PAREN" | L_CURLY => "L_CURLY"
  | R_CURLY => "R_CURLY" | L_BRACKET => "L_BRACKET" | R_BRACKET => "R_BRACKET"
  | ARROW => "ARROW" | BIDI_ARROW => "BIDI_ARROW" | FAT_ARROW => "FAT_ARROW"
  | PLUS_ARROW => "PLUS_ARROW" | PLUS => "PLUS" | MINUS => "MINUS" | STAR => "STAR"
  | SLASH => "SLASH" | COLON_COLON => "COLON_COLON" | ANNEX_OPEN => "ANNEX_OPEN"
  | ANNEX_CLOSE => "ANNEX_CLOSE" | HASH => "HASH" | DASH_BRACKET => "DASH_BRACKET"
  | BRACKET_ARROW => "BRACKET_ARROW" | INTEGER_LIT => "INTEGER_LIT"
  | REAL_LIT => "REAL_LIT" | STRING_LIT => "STRING_LIT" | IDENT => "IDENT"
  | PACKAGE_KW => "PACKAGE_KW" | PUBLIC_KW => "PUBLIC_KW" | PRIVATE_KW => "PRIVATE_KW"
  | WITH_KW => "WITH_KW" | END_KW => "END_KW" | NONE_KW => "NONE_KW"
  | RENAMES_KW => "RENAMES_KW" | SYSTEM_KW => "SYSTEM_KW" | PROCESS_KW => "PROCESS_KW"
  | THREAD_KW => "THREAD_KW" | GROUP_KW => "GROUP_KW" | PROCESSOR_KW => "PROCESSOR_KW"
  | VIRTUAL_KW => "VIRTUAL_KW" | BUS_KW => "BUS_KW" | MEMORY_KW => "MEMORY_KW"
  | DEVICE_KW => "DEVICE_KW" | SUBPROGRAM_KW => "SUBPROGRAM_KW" | DATA_KW => "DATA_KW"
  | ABSTRACT_KW => "ABSTRACT_KW" | IMPLEMENTATION_KW => "IMPLEMENTATION_KW"
  | EXTENDS_KW => "EXTENDS_KW" | PROTOTYPES_KW => "PROTOTYPES_KW"
  | FEATURES_KW => "FEATURES_KW" | FLOWS_KW => "FLOWS_KW"
  | CONNECTIONS_KW => "CONNECTIONS_KW" | MODES_KW => "MODES_KW"
  | PROPERTIES_KW => "PROPERTIES_KW" | SUBCOMPONENTS_KW => "SUBCOMPONENTS_KW"
  | ANNEX_KW => "ANNEX_KW" | CALLS_KW => "CALLS_KW" | INTERNAL_KW => "INTERNAL_KW"
  | IN_KW => "IN_KW" | OUT_KW => "OUT_KW" | PORT_KW => "PORT_KW" | EVENT_KW => "EVENT_KW"
  | ACCESS_KW => "ACCESS_KW" | PROVIDES_KW => "PROVIDES_KW"
  | REQUIRES_KW => "REQUIRES_KW" | FEATURE_KW => "FEATURE_KW"
  | PARAMETER_KW => "PARAMETER_KW" | INVERSE_KW => "INVERSE_KW" | OF_KW => "OF_KW"
  | FLOW_KW => "FLOW_KW" | SOURCE_KW => "SOURCE_KW" | SINK_KW => "SINK_KW"
  | PATH_KW => "PATH_KW" | INITIAL_KW => "INITIAL_KW" | MODE_KW => "MODE_KW"
  | TRANSITION_KW => "TRANSITION_KW" | CONSTANT_KW => "CONSTANT_KW"
  | APPLIES_KW => "APPLIES_KW" | TO_KW => "TO_KW" | INHERIT_KW => "INHERIT_KW"
  | DELTA_KW => "DELTA_KW" | IS_KW => "IS_KW" | ALL_KW => "ALL_KW"
  | BINDING_KW => "BINDING_KW" | CLASSIFIER_KW => "CLASSIFIER_KW"
  | REFERENCE_KW => "REFERENCE_KW" | RECORD_KW => "RECORD_KW"
  | COMPUTE_KW => "COMPUTE_KW" | TYPE_KW => "TYPE_KW" | SET_KW => "SET_KW"
  | RANGE_KW => "RANGE_KW" | UNITS_KW => "UNITS_KW" | ENUMERATION_KW => "ENUMERATION_KW"
  | LIST_KW => "LIST_KW" | AADLBOOLEAN_KW => "AADLBOOLEAN_KW"
  | AADLINTEGER_KW => "AADLINTEGER_KW" | AADLREAL_KW => "AADLREAL_KW"
  | AADLSTRING_KW => "AADLSTRING_KW" | PROPERTY_KW => "PROPERTY_KW"
  | TRUE_KW => "TRUE_KW" | FALSE_KW => "FALSE_KW" | NOT_KW => "NOT_KW"
  | AND_KW => "AND_KW" | OR_KW => "OR_KW" | REFINED_KW => "REFINED_KW"
  | SELF_KW => "SELF_KW" | INTERFACE_KW => "INTERFACE_KW" | FILE_KW => "FILE_KW"
  | SOURCE_FILE => "SOURCE_FILE" | AADL_PACKAGE => "AADL_PACKAGE"
  | PUBLIC_SECTION => "PUBLIC_SECTION" | PRIVATE_SECTION => "PRIVATE_SECTION"
  | WITH_CLAUSE => "WITH_CLAUSE" | NAME => "NAME" | QUALIFIED_NAME => "QUALIFIED_NAME"
  | NAME_LIST => "NAME_LIST" | PACKAGE_PROPERTIES => "PACKAGE_PROPERTIES"
  | RENAMES_CLAUSE => "RENAMES_CLAUSE" | COMPONENT_TYPE => "COMPONENT_TYPE"
  | COMPONENT_IMPL => "COMPONENT_IMPL" | COMPONENT_CATEGORY => "COMPONENT_CATEGORY"
  | TYPE_EXTENSION => "TYPE_EXTENSION" | IMPL_EXTENSION => "IMPL_EXTENSION"
  | REALIZATION => "REALIZATION" | PROTOTYPE_SECTION => "PROTOTYPE_SECTION"
  | PROTOTYPE => "PROTOTYPE" | PROTOTYPE_BINDING => "PROTOTYPE_BINDING"
  | PROTOTYPE_BINDING_LIST => "PROTOTYPE_BINDING_LIST"
  | FEATURE_SECTION => "FEATURE_SECTION" | DATA_PORT => "DATA_PORT"
  | EVENT_PORT => "EVENT_PORT" | EVENT_DATA_PORT => "EVENT_DATA_PORT"
  | PARAMETER => "PARAMETER" | DATA_ACCESS => "DATA_ACCESS" | BUS_ACCESS => "BUS_ACCESS"
  | SUBPROGRAM_ACCESS => "SUBPROGRAM_ACCESS"
  | SUBPROGRAM_GROUP_ACCESS => "SUBPROGRAM_GROUP_ACCESS"
  | FEATURE_GROUP => "FEATURE_GROUP" | ABSTRACT_FEATURE => "ABSTRACT_FEATURE"
  | FEATURE_GROUP_TYPE => "FEATURE_GROUP_TYPE" | DIRECTION => "DIRECTION"
  | SUBCOMPONENT_SECTION => "SUBCOMPONENT_SECTION" | SUBCOMPONENT => "SUBCOMPONENT"
  | CONNECTION_SECTION => "CONNECTION_SECTION" | PORT_CONNECTION => "PORT_CONNECTION"
  | ACCESS_CONNECTION => "ACCESS_CONNECTION"
  | FEATURE_GROUP_CONNECTION => "FEATURE_GROUP_CONNECTION"
  | FEATURE_CONNECTION => "FEATURE_CONNECTION"
  | PARAMETER_CONNECTION => "PARAMETER_CONNECTION"
  | CONNECTED_ELEMENT => "CONNECTED_ELEMENT" | FLOW_SPEC_SECTION => "FLOW_SPEC_SECTION"
  | FLOW_SPEC => "FLOW_SPEC" | FLOW_KIND => "FLOW_KIND" | FLOW_END => "FLOW_END"
  | FLOW_IMPL_SECTION => "FLOW_IMPL_SECTION" | FLOW_IMPL => "FLOW_IMPL"
  | END_TO_END_FLOW => "END_TO_END_FLOW" | FLOW_SEGMENT => "FLOW_SEGMENT"
  | MODE_SECTION => "MODE_SECTION" | MODE => "MODE"
  | MODE_TRANSITION => "MODE_TRANSITION" | MODE_TRIGGER => "MODE_TRIGGER"
  | PROPERTY_SECTION => "PROPERTY_SECTION"
  | PROPERTY_ASSOCIATION => "PROPERTY_ASSOCIATION" | PROPERTY_REF => "PROPERTY_REF"
  | APPLIES_TO => "APPLIES_TO" | CONTAINMENT_PATH => "CONTAINMENT_PATH"
  | IN_BINDING => "IN_BINDING" | MODAL_PROPERTY_VALUE => "MODAL_PROPERTY_VALUE"
  | PROPERTY_SET => "PROPERTY_SET" | PROPERTY_DEFINITION => "PROPERTY_DEFINITION"
  | PROPERTY_TYPE => "PROPERTY_TYPE" | PROPERTY_CONSTANT => "PROPERTY_CONSTANT"
  | PROPERTY_TYPE_DECL => "PROPERTY_TYPE_DECL"
  | PROPERTY_EXPRESSION => "PROPERTY_EXPRESSION" | BOOLEAN_VALUE => "BOOLEAN_VALUE"
  | INTEGER_VALUE => "INTEGER_VALUE" | REAL_VALUE => "REAL_VALUE"
  | STRING_VALUE => "STRING_VALUE" | RECORD_VALUE => "RECORD_VALUE"
  | RECORD_FIELD => "RECORD_FIELD" | LIST_VALUE => "LIST_VALUE"
  | RANGE_VALUE => "RANGE_VALUE" | DELTA_VALUE => "DELTA_VALUE"
  | UNIT_VALUE => "UNIT_VALUE" | BINARY_EXPR => "BINARY_EXPR"
  | REFERENCE_VALUE => "REFERENCE_VALUE" | CLASSIFIER_VALUE => "CLASSIFIER_VALUE"
  | COMPUTED_VALUE => "COMPUTED_VALUE" | FILE_REFERENCE => "FILE_REFERENCE"
  | CLASSIFIER_REF => "CLASSIFIER_REF" | ANNEX_SUBCLAUSE => "ANNEX_SUBCLAUSE"
  | ANNEX_LIBRARY => "ANNEX_LIBRARY" | ANNEX_TEXT => "ANNEX_TEXT"
  | ARRAY_DIMENSION => "ARRAY_DIMENSION" | ARRAY_SIZE => "ARRAY_SIZE"
  | CALL_SECTION => "CALL_SECTION" | CALL_SEQUENCE => "CALL_SEQUENCE"
  | SUBPROGRAM_CALL => "SUBPROGRAM_CALL"
  | INTERNAL_FEATURES_SECTION => "INTERNAL_FEATURES_SECTION"
  | PROCESSOR_FEATURES_SECTION => "PROCESSOR_FEATURES_SECTION"
  | EVENT_SOURCE => "EVENT_SOURCE" | EVENT_DATA_SOURCE => "EVENT_DATA_SOURCE"
  | PORT_PROXY => "PORT_PROXY" | SUBPROGRAM_PROXY => "SUBPROGRAM_PROXY"
  | REFINED_TO => "REFINED_TO" | __LAST => "__LAST"
  end)%string.

Lemma all_kinds_code k : nth_error all_kinds (N.to_nat (syntax_kind_code k)) = Some k.
Proof. by destruct k. Qed.

Lemma syntax_kind_code_inj k1 k2 : syntax_kind_code k1 = syntax_kind_code k2 → k1 = k2.
Proof.
  intros H. pose proof (all_kinds_code k1) as H1. pose proof (all_kinds_code k2) as H2.
  rewrite H in H1. congruence.
Qed.

#[export] Instance syntax_kind_discriminant : Discriminant SyntaxKind :=
  {| kind_code := syntax_kind_code; kind_code_inj := syntax_kind_code_inj |}.

Lemma kind_code_bound (k : SyntaxKind) : kind_code k < 214.
Proof. by destruct k. Qed.

(** crates/spar-parser/src/syntax_kind.rs:435-437 [SyntaxKind::is_trivia] *)
Definition syntax_kind_is_trivia (k : SyntaxKind) : bool := kind_eqb k WHITESPACE || kind_eqb k COMMENT.

(** crates/spar-parser/src/syntax_kind.rs:441-443 [SyntaxKind::is_keyword] *)
Definition is_keyword (k : SyntaxKind) : bool :=
  (kind_code PACKAGE_KW <=? kind_code k) && (kind_code k <=? kind_code FILE_KW).

(** crates/spar-parser/src/syntax_kind.rs:447-449 [SyntaxKind::is_punct] *)
Definition is_punct (k : SyntaxKind) : bool :=
  (kind_code SEMICOLON <=? kind_code k) && (kind_code k <=? kind_code BRACKET_ARROW).

(** crates/spar-parser/src/syntax_kind.rs:453-455 [SyntaxKind::is_literal] *)
Definition is_literal (k : SyntaxKind) : bool :=
  kind_eqb k INTEGER_LIT || kind_eqb k REAL_LIT || kind_eqb k STRING_LIT.

(** crates/spar-parser/src/syntax_kind.rs:459-474 [SyntaxKind::is_component_category_kw] *)
Definition is_component_category_kw (k : SyntaxKind) : bool :=
  kind_eqb k SYSTEM_KW || kind_eqb k PROCESS_KW || kind_eqb k THREAD_KW ||
  kind_eqb k PROCESSOR_KW || kind_eqb k VIRTUAL_KW || kind_eqb k BUS_KW ||
  kind_eqb k MEMORY_KW || kind_eqb k DEVICE_KW || kind_eqb k SUBPROGRAM_KW ||
  kind_eqb k DATA_KW || kind_eqb k ABSTRACT_KW.

(** The rows of the keyword table. *)
Definition keyword_table : list (string * SyntaxKind) :=
  [("package", PACKAGE_KW); ("public", PUBLIC_KW); ("private", PRIVATE_KW);
   ("with", WITH_KW); ("end", END_KW); ("none", NONE_KW); ("renames", RENAMES_KW);
   ("system", SYSTEM_KW); ("process", PROCESS_KW); ("thread", THREAD_KW);
   ("group", GROUP_KW); ("processor", PROCESSOR_KW); ("virtual", VIRTUAL_KW);
   ("bus", BUS_KW); ("memory", MEMORY_KW); ("device", DEVICE_KW);
   ("subprogram", SUBPROGRAM_KW); ("data", DATA_KW); ("abstract", ABSTRACT_KW);
   ("implementation", IMPLEMENTATION_KW); ("extends", EXTENDS_KW);
   ("prototypes", PROTOTYPES_KW); ("features", FEATURES_KW); ("flows", FLOWS_KW);
   ("connections", CONNECTIONS_KW); ("modes", MODES_KW); ("properties", PROPERTIES_KW);
   ("subcomponents", SUBCOMPONENTS_KW); ("annex", ANNEX_KW); ("calls", CALLS_KW);
   ("internal", INTERNAL_KW); ("in", IN_KW); ("out", OUT_KW); ("port", PORT_KW);
   ("event", EVENT_KW); ("access", ACCESS_KW); ("provides", PROVIDES_KW);
   ("requires", REQUIRES_KW); ("feature", FEATURE_KW); ("parameter", PARAMETER_KW);
   ("inverse", INVERSE_KW); ("of", OF_KW); ("flow", FLOW_KW); ("source", SOURCE_KW);
   ("sink", SINK_KW); ("path", PATH_KW); ("initial", INITIAL_KW); ("mode", MODE_KW);
   ("transition", TRANSITION_KW); ("constant", CONSTANT_KW); ("applies", APPLIES_KW);
   ("to", TO_KW); ("inherit", INHERIT_KW); ("delta", DELTA_KW); ("is", IS_KW);
   ("all", ALL_KW); ("binding", BINDING_KW); ("classifier", CLASSIFIER_KW);
   ("reference", REFERENCE_KW); ("record", RECORD_KW); ("compute", COMPUTE_KW);
   ("type", TYPE_KW); ("set", SET_KW); ("range", RANGE_KW); ("units", UNITS_KW);
   ("enumeration", ENUMERATION_KW); ("list", LIST_KW); ("aadlboolean", AADLBOOLEAN_KW);
   ("aadlinteger", AADLINTEGER_KW); ("aadlreal", AADLREAL_KW);
   ("aadlstring", AADLSTRING_KW); ("property", PROPERTY_KW); ("true", TRUE_KW);
   ("false", FALSE_KW); ("not", NOT_KW); ("and", AND_KW); ("or", OR_KW);
   ("refined", REFINED_KW); ("self", SELF_KW); ("interface", INTERFACE_KW);
   ("file", FILE_KW)]%string.

(** crates/spar-parser/src/syntax_kind.rs:477-562 [SyntaxKind::from_keyword] *)
Definition from_keyword (s : string) : option SyntaxKind :=
  snd <$> List.find (λ row, String.eqb (fst row) s) keyword_table.

#[export] Instance aadl : Vocabulary SyntaxKind := {|
  eof := EOF; tombstone := TOMBSTONE; error_kind := ERROR;
  is_trivia := syntax_kind_is_trivia; kind_name := syntax_kind_name;
  error_not_tombstone := ltac:(discriminate);
|}.
