(* ===== verification/Text.v ===== *)
(** * Source text

    A Rust [&str] is a list of bytes that is valid UTF-8.  This file holds
    the part of [str] and [u8] the lexer relies on: ASCII classes, character
    boundaries, slices (which panic off a boundary) and the well-formedness
    of UTF-8 in the form the lexer needs. *)
From Stdlib Require Export Ascii String.
From S2P Require Export Prelude.
#[local] Open Scope N_scope.

Abbreviation bytes := (list ascii).

Definition byte_code (b : ascii) : N := N_of_ascii b.
Definition byte_eqb (a b : ascii) : bool := Ascii.eqb a b.
Infix "=?c" := byte_eqb (at level 70).

Definition in_range (lo hi : ascii) (b : ascii) : bool :=
  (byte_code lo <=? byte_code b) && (byte_code b <=? byte_code hi).

(** [u8::is_ascii_digit], [is_ascii_alphabetic], ... *)
Definition is_ascii_digit (b : ascii) : bool := in_range "0" "9" b.
Definition is_ascii_uppercase (b : ascii) : bool := in_range "A" "Z" b.
Definition is_ascii_lowercase (b : ascii) : bool := in_range "a" "z" b.
Definition is_ascii_alphabetic (b : ascii) : bool := is_ascii_uppercase b || is_ascii_lowercase b.
Definition is_ascii_alphanumeric (b : ascii) : bool := is_ascii_alphabetic b || is_ascii_digit b.
Definition is_ascii_hexdigit (b : ascii) : bool :=
  is_ascii_digit b || in_range "a" "f" b || in_range "A" "F" b.
Definition is_ascii (b : ascii) : bool := byte_code b <? 128.

(** [to_ascii_lowercase] on one byte and on a string. *)
Definition byte_to_lower (b : ascii) : ascii :=
  if is_ascii_uppercase b then ascii_of_N (byte_code b + 32) else b.
Definition to_ascii_lowercase (s : bytes) : bytes := byte_to_lower <$> s.

(** [char::is_digit(radix)] for the radices the lexer asks about, on the
    Latin-1 character of a byte ([b as char]). *)
Definition char_is_digit (b : ascii) (radix : N) : bool :=
  if is_ascii_digit b then byte_code b - 48 <? radix
  else if is_ascii_lowercase b then byte_code b - 97 + 10 <? radix
  else if is_ascii_uppercase b then byte_code b - 65 + 10 <? radix
  else false.

(** ** UTF-8 *)

(** A continuation byte, [0x80..=0xBF]. *)
Definition is_cont (b : ascii) : bool := (128 <=? byte_code b) && (byte_code b <? 192).

(** [char::len_utf8] of the character a lead byte starts. *)
Definition len_utf8 (lead : ascii) : nat :=
  if byte_code lead <? 128 then 1
  else if byte_code lead <? 224 then 2
  else if byte_code lead <? 240 then 3
  else 4.

(** Every [&str] satisfies [utf8]: it is a sequence of characters, each a
    lead byte followed by the continuation bytes the lead byte announces
    (overlong forms and surrogates, which [str] excludes too, do not matter
    to the lexer). *)
Inductive utf8 : bytes → Prop :=
  | utf8_nil : utf8 []
  | utf8_1 b s : byte_code b < 128 → utf8 s → utf8 (b :: s)
  | utf8_2 b c1 s : 192 ≤ byte_code b < 224 → is_cont c1 → utf8 s → utf8 (b :: c1 :: s)
  | utf8_3 b c1 c2 s : 224 ≤ byte_code b < 240 → is_cont c1 → is_cont c2 →
      utf8 s → utf8 (b :: c1 :: c2 :: s)
  | utf8_4 b c1 c2 c3 s : 240 ≤ byte_code b → is_cont c1 → is_cont c2 → is_cont c3 →
      utf8 s → utf8 (b :: c1 :: c2 :: c3 :: s).

#[export] Hint Constructors utf8 : spar.

(** [str::is_char_boundary]. *)
Definition is_char_boundary (s : bytes) (i : nat) : bool :=
  match i with
  | O => true
  | _ => match s !! i with
         | Some b => negb (is_cont b)
         | None => Nat.eqb i (length s)
         end
  end.

(** [&s[a..b]]: panics out of range or off a character boundary. *)
Definition slice (s : bytes) (a b : nat) : Exec bytes :=
  if (a <=? b)%nat && is_char_boundary s a && is_char_boundary s b
  then Done (take (b - a) (drop a s)) else Panic.

(** ** Lemmas *)
Lemma cont_not_ascii c : is_cont c → 128 ≤ byte_code c.
Proof. unfold is_cont. intros H. apply andb_prop_elim in H as [H _]. destruct (N.leb_spec 128 (byte_code c)); [done|]. destruct H. Qed.

Lemma utf8_after_ascii x b y :
  utf8 (x ++ b :: y) → byte_code b < 128 → utf8 (b :: y) ∧ utf8 y.
Proof.
  remember (x ++ b :: y) as s eqn:Es. intros H Hb. revert x Es.
  assert (Hbase : utf8 y → utf8 (b :: y) ∧ utf8 y) by eauto with spar.
  assert (Hc : ∀ c, is_cont c → c ≠ b).
  { intros c Hc ->. apply cont_not_ascii in Hc. lia. }
  induction H as [|b' s Hb' H IH|b' c1 s Hb' H1 H IH|b' c1 c2 s Hb' H1 H2 H IH
    |b' c1 c2 c3 s Hb' H1 H2 H3 H IH]; intros x Es.
  - by destruct x.
  - destruct x as [|? x]; simplify_eq/=; eauto.
  - do 2 (destruct x as [|? x]; simplify_eq/=; [first [lia | by destruct (Hc _ H1)]|]). eauto.
  - do 3 (destruct x as [|? x]; simplify_eq/=;
      [first [lia | by destruct (Hc _ H1) | by destruct (Hc _ H2)]|]). eauto.
  - do 4 (destruct x as [|? x]; simplify_eq/=;
      [first [lia | by destruct (Hc _ H1) | by destruct (Hc _ H2) | by destruct (Hc _ H3)]|]). eauto.
Qed.

Lemma utf8_tail b s : utf8 (b :: s) → byte_code b < 128 → utf8 s.
Proof. intros H Hb. by destruct (utf8_after_ascii [] b s). Qed.

Lemma utf8_head b s : utf8 (b :: s) → is_cont b = false.
Proof.
  unfold is_cont. inversion 1; simplify_eq;
    destruct (N.leb_spec 128 (byte_code b)), (N.ltb_spec (byte_code b) 192); simpl; lia || done.
Qed.

(** A text whose rest is text stops at a character boundary. *)
Lemma utf8_prefix x y : utf8 (x ++ y) → utf8 y → utf8 x.
Proof.
  remember (x ++ y) as s eqn:Es. intros H Hy. revert x Es.
  assert (Hc : ∀ c z, is_cont c → y ≠ c :: z).
  { intros c z Hc ->. apply utf8_head in Hy. by rewrite Hy in Hc. }
  induction H as [|b s Hb H IH|b c1 s Hb H1 H IH|b c1 c2 s Hb H1 H2 H IH
    |b c1 c2 c3 s Hb H1 H2 H3 H IH]; intros x Es.
  - by destruct x; [constructor|].
  - destruct x as [|? x]; simplify_eq/=; eauto with spar.
  - do 2 (destruct x as [|? x]; simplify_eq/=;
      [first [by constructor | by destruct (Hc _ _ H1 eq_refl)]|]). eauto with spar.
  - do 3 (destruct x as [|? x]; simplify_eq/=;
      [first [by constructor | by destruct (Hc _ _ H1 eq_refl) | by destruct (Hc _ _ H2 eq_refl)]|]).
    eauto with spar.
  - do 4 (destruct x as [|? x]; simplify_eq/=;
      [first [by constructor | by destruct (Hc _ _ H1 eq_refl) | by destruct (Hc _ _ H2 eq_refl)
             | by destruct (Hc _ _ H3 eq_refl)]|]).
    eauto with spar.
Qed.

(** [s[pos..].chars().next()] skips exactly one whole character. *)
Lemma utf8_skip_char b s :
  utf8 (b :: s) →
  utf8 (drop (len_utf8 b) (b :: s)) ∧ (0 < len_utf8 b ≤ length (b :: s))%nat.
Proof.
  unfold len_utf8. inversion 1; simplify_eq;
    destruct (N.ltb_spec (byte_code b) 128), (N.ltb_spec (byte_code b) 224),
      (N.ltb_spec (byte_code b) 240); simpl; split; (done || lia).
Qed.

Lemma boundary_utf8 s i :
  (i ≤ length s)%nat → utf8 (drop i s) → is_char_boundary s i = true.
Proof.
  intros Hi Hu. destruct i as [|i]; [done|]. unfold is_char_boundary.
  destruct (s !! Datatypes.S i) as [b|] eqn:E.
  - rewrite (drop_S _ _ _ E) in Hu. by rewrite (utf8_head _ _ Hu).
  - apply lookup_ge_None in E. apply Nat.eqb_eq. lia.
Qed.

Lemma slice_utf8 s a b :
  (a ≤ b)%nat → (b ≤ length s)%nat → utf8 (drop a s) → utf8 (drop b s) →
  slice s a b = Done (take (b - a) (drop a s)).
Proof.
  intros. unfold slice. rewrite !boundary_utf8 by (done || lia).
  by rewrite (proj2 (Nat.leb_le a b)).
Qed.
