(* ===== verification/Cursor.v ===== *)
(** * The cursor

    The part of [crates/spar-parser/src/lexer.rs] that does not depend on the
    language: the cursor over the bytes of the source, the scanning loop, and
    the loops of the entry points over a function that scans one token.  The
    SysML lexer ([crates/spar-sysml2/src/lexer.rs]) has the same cursor and
    loops; the annex lexers run an index over the bytes the same way. *)
From S2P Require Import Prelude.
From S2P Require Export Text.
From S2P Require Import Vocabulary.
#[local] Open Scope nat_scope.

(** ** The cursor *)

(** crates/spar-parser/src/lexer.rs:17-20 [Cursor] *)
Record Cursor := { input : bytes; pos : usize }.

(** crates/spar-parser/src/lexer.rs:23-25 [Cursor::new] *)
Definition cursor_new (input : bytes) : Cursor := {| input := input; pos := 0 |}.

(** crates/spar-parser/src/lexer.rs:30-32 [Cursor::rest] *)
Definition rest (c : Cursor) : bytes := drop (pos c) (input c).

(** crates/spar-parser/src/lexer.rs:36-42 [Cursor::current] *)
Definition current (c : Cursor) : ascii :=
  match input c !! pos c with Some b => b | None => zero end.

(** crates/spar-parser/src/lexer.rs:46-53 [Cursor::peek] *)
Definition peek (n : nat) (c : Cursor) : ascii :=
  match input c !! (pos c + n) with Some b => b | None => zero end.

(** crates/spar-parser/src/lexer.rs:57-59 [Cursor::is_eof] *)
Definition is_eof (c : Cursor) : bool := (length (input c) <=? pos c).

(** crates/spar-parser/src/lexer.rs:63-65 [Cursor::bump] *)
Definition bump (c : Cursor) : Cursor := {| input := input c; pos := pos c + 1 |}.

(** crates/spar-parser/src/lexer.rs:69-74 [Cursor::bump_char] *)
Definition bump_char (c : Cursor) : Exec Cursor :=
  if pos c <? length (input c) then
    _ ← slice (input c) (pos c) (length (input c));
    Done {| input := input c; pos := pos c + len_utf8 (current c) |}
  else Done c.

(** crates/spar-parser/src/lexer.rs:78-80 [Cursor::bump_n] *)
Definition bump_n (n : nat) (c : Cursor) : Cursor := {| input := input c; pos := pos c + n |}.

(** ** Character classes *)

(** crates/spar-parser/src/lexer.rs:94-96 [is_whitespace] *)
Definition is_whitespace (b : ascii) : bool :=
  (b =?c " ") || (b =?c "009") || (b =?c "013") || (b =?c "010").

(** crates/spar-parser/src/lexer.rs:98-100 [is_ident_start] *)
Definition is_ident_start (b : ascii) : bool := is_ascii_alphabetic b || (b =?c "_").

(** crates/spar-parser/src/lexer.rs:102-104 [is_ident_continue] *)
Definition is_ident_continue (b : ascii) : bool := is_ascii_alphanumeric b || (b =?c "_").

(** crates/spar-parser/src/lexer.rs:106-108 [is_digit] *)
Definition is_digit (b : ascii) : bool := is_ascii_digit b.

(** ** Scanning *)

(** crates/spar-parser/src/lexer.rs:122-124 [scan_whitespace]: the loop
    [while !c.is_eof() && p(c.current()) { c.bump(); }] that the
    scanning functions share, on fuel; [scan_while] gives it one more step
    than there are bytes. *)
Fixpoint scan_loop (fuel : nat) (p : ascii → bool) (c : Cursor) : Exec Cursor :=
  match fuel with
  | O => Stuck
  | S n => if negb (is_eof c) && p (current c) then scan_loop n p (bump c) else Done c
  end.

(** crates/spar-parser/src/lexer.rs:121-125 [scan_whitespace] *)
Definition scan_while (p : ascii → bool) (c : Cursor) : Exec Cursor :=
  scan_loop (S (length (input c))) p c.

(** crates/spar-parser/src/lexer.rs:266-272 [scan_number]: the exponent,
    [E[+-]digits], which the AADL [scan_number] writes out three times and the SysML one twice. *)
Definition scan_exponent (c : Cursor) : Exec Cursor :=
  let c := bump c in
  let c := if negb (is_eof c) && ((current c =?c "+") || (current c =?c "-"))
           then bump c else c in
  scan_while is_digit c.

(** ** Entry points *)
Section loops.
Context {K : Type} (scan_token_kind : Cursor → Exec (K * Cursor)).

(** crates/spar-parser/src/lexer.rs:301-465 [scan_token]: the kind is found by
    [scan_token_kind]. *)
Definition scan_token_of (c : Cursor) : Exec ((K * bytes) * Cursor) :=
  let start := pos c in
  '(kind, c) ← scan_token_kind c;
  text ← slice (input c) start (pos c);
  Done ((kind, text), c).

(** crates/spar-parser/src/lexer.rs:475-482 [lex] *)
Fixpoint lex_loop (fuel : nat) (c : Cursor) (tokens : list (K * bytes))
    : Exec (list (K * bytes)) :=
  match fuel with
  | O => Stuck
  | S n =>
      if negb (is_eof c) then
        '(tok, c) ← scan_token_of c;
        lex_loop n c (tokens ++ [tok])
      else Done tokens
  end.

(** crates/spar-parser/src/lexer.rs:475-482 [lex] *)
Definition lex_of (input : bytes) : Exec (list (K * bytes)) :=
  lex_loop (S (length input)) (cursor_new input) [].

(** crates/spar-parser/src/lexer.rs:488-497 [tokenize] *)
Fixpoint tokenize_loop (fuel : nat) (c : Cursor) (tokens : list (K * usize))
    : Exec (list (K * usize)) :=
  match fuel with
  | O => Stuck
  | S n =>
      if negb (is_eof c) then
        let start := pos c in
        '((kind, _), c) ← scan_token_of c;
        tokenize_loop n c (tokens ++ [(kind, pos c - start)])
      else Done tokens
  end.

(** crates/spar-parser/src/lexer.rs:488-497 [tokenize] *)
Definition tokenize_of (input : bytes) : Exec (list (K * usize)) :=
  tokenize_loop (S (length input)) (cursor_new input) [].

(** crates/spar-parser/src/lexer.rs:519-528 [LexedStr::new] *)
Fixpoint lexed_loop (fuel : nat) (c : Cursor) (tokens : list (K * u32))
    : Exec (list (K * u32)) :=
  match fuel with
  | O => Stuck
  | S n =>
      if negb (is_eof c) then
        let start := as_u32 (N.of_nat (pos c)) in
        '((kind, _), c) ← scan_token_of c;
        lexed_loop n c (tokens ++ [(kind, start)])
      else Done tokens
  end.
End loops.

(** ** Scanning loses nothing

    Sound cursors (between two characters), the scanners that keep them
    sound, and the three token loops: over any function that scans one
    token, consumes at least a byte and stops between characters, they
    return tokens that concatenate to the source. *)
(** ** The cursor invariant *)

(** A cursor between two characters of the source. *)
Record Sound (c : Cursor) : Prop := {
  sound_pos : pos c ≤ length (input c);
  sound_utf8 : utf8 (rest c);
}.

(** [c'] is a sound cursor on the same source, at or after [c]. *)
Record Adv (c c' : Cursor) : Prop := {
  adv_input : input c' = input c;
  adv_pos : pos c ≤ pos c';
  adv_sound : Sound c';
}.

Lemma Adv_refl c : Sound c → Adv c c.
Proof. by constructor. Qed.

Lemma Adv_trans c1 c2 c3 : Adv c1 c2 → Adv c2 c3 → Adv c1 c3.
Proof. intros [] []. constructor; [congruence|lia|done]. Qed.

#[export] Hint Resolve Adv_refl adv_sound : spar.

Lemma rest_nil c : pos c ≤ length (input c) → rest c = [] ↔ is_eof c = true.
Proof.
  intros. unfold rest, is_eof. rewrite Nat.leb_le. split; intros Hr.
  - apply (f_equal length) in Hr. rewrite length_drop in Hr. simpl in Hr. lia.
  - apply drop_ge. lia.
Qed.

Lemma rest_cons c : is_eof c = false → rest c = current c :: rest (bump c).
Proof.
  unfold is_eof, rest, current. rewrite Nat.leb_gt. intros H.
  destruct (lookup_lt_is_Some_2 _ _ H) as [b Hb]. rewrite Hb. simpl.
  rewrite (drop_S _ _ _ Hb). by rewrite Nat.add_1_r.
Qed.

Lemma rest_bump_n n c : rest (bump_n n c) = drop n (rest c).
Proof. unfold rest. simpl. by rewrite drop_drop. Qed.

Lemma is_eof_false_lt c : is_eof c = false ↔ pos c < length (input c).
Proof. unfold is_eof. by rewrite Nat.leb_gt. Qed.

Lemma peek_rest c n b : peek n c = b → b ≠ zero → rest c !! n = Some b.
Proof.
  unfold peek, rest. rewrite lookup_drop. destruct (input c !! (pos c + n)); naive_solver.
Qed.

Lemma current_peek c : current c = peek 0 c.
Proof. unfold current, peek. by rewrite Nat.add_0_r. Qed.

(** Consuming an ASCII byte keeps the cursor between characters. *)
Lemma Adv_bump c : Sound c → is_eof c = false → (byte_code (current c) < 128)%N → Adv c (bump c).
Proof.
  intros [Hp Hu] He Ha. rewrite (rest_cons _ He) in Hu.
  apply is_eof_false_lt in He. constructor; simpl; [done|lia|].
  constructor; simpl; [lia|]. by eapply utf8_tail.
Qed.

Lemma Adv_to_end c c' :
  input c' = input c → pos c ≤ pos c' ≤ length (input c) → is_eof c' = true → Adv c c'.
Proof.
  intros Hi Hp He. assert (pos c' ≤ length (input c')) by (rewrite Hi; lia).
  constructor; [done|lia|]. constructor; [done|].
  apply rest_nil in He as ->; [constructor|done].
Qed.

(** A cursor just before or just after an ASCII byte found further on is
    between characters, whatever was skipped. *)
Lemma Adv_before_ascii c c' :
  Sound c → input c' = input c → pos c ≤ pos c' → is_eof c' = false →
  (byte_code (current c') < 128)%N → Adv c c' ∧ Adv c (bump c').
Proof.
  intros [Hp Hu] Hi Hle He Ha. pose proof (rest_cons _ He) as Hr.
  apply is_eof_false_lt in He. rewrite Hi in He.
  assert (rest c = take (pos c' - pos c) (rest c) ++ current c' :: rest (bump c')) as Hs.
  { rewrite <- Hr. rewrite <- (take_drop (pos c' - pos c) (rest c)) at 1. f_equal.
    unfold rest. rewrite drop_drop, Hi. f_equal. lia. }
  rewrite Hs in Hu. apply utf8_after_ascii in Hu as [H1 H2]; [|done].
  split; constructor; simpl; try done; try lia; constructor; simpl; rewrite ?Hi; try lia.
  - by rewrite Hr.
  - done.
Qed.

(** ** The scanning loops *)

Lemma scan_loop_spec p fuel c :
  pos c ≤ length (input c) → length (input c) - pos c < fuel →
  ∃ c', scan_loop fuel p c = Done c' ∧ input c' = input c ∧
    pos c ≤ pos c' ≤ length (input c) ∧
    (is_eof c' = true ∨ p (current c') = false) ∧
    (∀ i b, pos c ≤ i < pos c' → input c !! i = Some b → p b = true).
Proof.
  revert c. induction fuel as [|n IH]; intros c Hp Hf; [lia|]. simpl.
  destruct (is_eof c) eqn:He; simpl.
  { exists c. split_and!; try done; [by left|lia]. }
  destruct (p (current c)) eqn:Hc.
  2:{ exists c. split_and!; try done; [by right|lia]. }
  apply is_eof_false_lt in He.
  destruct (IH (bump c)) as (c' & -> & Hi & Hpos & Hstop & Hall); simpl in *; [lia..|].
  exists c'. split_and!; try done; [lia|lia|].
  intros i b Hib Hb. destruct (decide (i = pos c)) as [->|]; [|apply (Hall i); [lia|done]].
  revert Hc. unfold current. by rewrite Hb.
Qed.

Lemma scan_while_spec p c :
  pos c ≤ length (input c) →
  ∃ c', scan_while p c = Done c' ∧ input c' = input c ∧
    pos c ≤ pos c' ≤ length (input c) ∧
    (is_eof c' = true ∨ p (current c') = false) ∧
    (∀ i b, pos c ≤ i < pos c' → input c !! i = Some b → p b = true).
Proof. intros. apply scan_loop_spec; lia. Qed.

(** Skipping a run of ASCII bytes stays between characters. *)
Lemma Adv_ascii_run c c' :
  Sound c → input c' = input c → pos c ≤ pos c' ≤ length (input c) →
  (∀ i b, pos c ≤ i < pos c' → input c !! i = Some b → (byte_code b < 128)%N) → Adv c c'.
Proof.
  intros Hs Hi Hp Hall. remember (pos c' - pos c) as n eqn:En. revert c Hs Hi Hp Hall En.
  induction n as [|n IH]; intros c Hs Hi Hp Hall En.
  - destruct c as [s i], c' as [s' i']; simpl in *; subst s'.
    replace i' with i by lia. by apply Adv_refl.
  - assert (Hb : Adv c (bump c)).
    { assert (He : is_eof c = false) by (apply is_eof_false_lt; lia).
      apply Adv_bump; [done|done|]. unfold current. apply is_eof_false_lt in He.
      destruct (lookup_lt_is_Some_2 _ _ He) as [b Hb]. rewrite Hb. apply (Hall (pos c)); [lia|done]. }
    eapply Adv_trans; [done|]. apply IH; simpl; try done; try lia; [apply Hb|].
    intros i b ?. apply Hall. lia.
Qed.

Definition ascii_pred (p : ascii → bool) : Prop := ∀ b, p b = true → (byte_code b < 128)%N.

Lemma scan_while_ascii p c :
  ascii_pred p → Sound c →
  ∃ c', scan_while p c = Done c' ∧ Adv c c' ∧ (is_eof c' = true ∨ p (current c') = false).
Proof.
  intros Hp Hs. destruct (scan_while_spec p c) as (c' & E & Hi & Hpos & Hstop & Hall);
    [by apply Hs|].
  exists c'. split_and!; try done. apply Adv_ascii_run; try done.
  intros i b Hib Hb. apply Hp. by eapply Hall.
Qed.

(** Skipping up to an ASCII delimiter, or to the end, does too. *)
Lemma scan_until_ascii d c :
  (byte_code d < 128)%N → Sound c →
  ∃ c', scan_while (λ b, negb (b =?c d)) c = Done c' ∧ Adv c c'.
Proof.
  intros Hd Hs. destruct (scan_while_spec (λ b, negb (b =?c d)) c) as (c' & E & Hi & Hpos & Hstop & _);
    [by apply Hs|].
  exists c'. split; [done|]. destruct Hstop as [He|Hc]; [by apply Adv_to_end|].
  destruct (is_eof c') eqn:He; [by apply Adv_to_end|].
  apply negb_false_iff, Ascii.eqb_eq in Hc.
  apply Adv_before_ascii; [done..|lia|done|]. by rewrite Hc.
Qed.

(** ** The scanning functions

    [Scans m c]: the scanner [m] returns, and leaves a sound cursor at or
    after [c]. *)
Definition Scans {A} (m : Exec (A * Cursor)) (c : Cursor) : Prop :=
  ∃ a c', m = Done (a, c') ∧ Adv c c'.
Definition Scans1 (m : Exec Cursor) (c : Cursor) : Prop := ∃ c', m = Done c' ∧ Adv c c'.

Lemma Scans_bind {A} (m : Exec Cursor) (k : Cursor → Exec (A * Cursor)) c :
  Scans1 m c → (∀ c', Adv c c' → Scans (k c') c') → Scans (m ≫= k) c.
Proof.
  intros (c1 & -> & H1) Hk. destruct (Hk _ H1) as (a & c2 & E & H2).
  exists a, c2. split; [done|]. by eapply Adv_trans.
Qed.

Lemma Scans1_bind (m : Exec Cursor) (k : Cursor → Exec Cursor) c :
  Scans1 m c → (∀ c', Adv c c' → Scans1 (k c') c') → Scans1 (m ≫= k) c.
Proof.
  intros (c1 & -> & H1) Hk. destruct (Hk _ H1) as (c2 & E & H2).
  exists c2. split; [done|]. by eapply Adv_trans.
Qed.

Lemma Scans_step {A} (m : Exec (A * Cursor)) c c' : Adv c c' → Scans m c' → Scans m c.
Proof. intros H (a & c2 & -> & H2). exists a, c2. split; [done|]. by eapply Adv_trans. Qed.

Lemma Scans1_step (m : Exec Cursor) c c' : Adv c c' → Scans1 m c' → Scans1 m c.
Proof. intros H (c2 & -> & H2). exists c2. split; [done|]. by eapply Adv_trans. Qed.

Lemma Scans_done {A} (a : A) c : Sound c → Scans (Done (a, c)) c.
Proof. intros. exists a, c. eauto with spar. Qed.

Lemma Scans1_while p c : ascii_pred p → Sound c → Scans1 (scan_while p c) c.
Proof. intros Hp Hs. destruct (scan_while_ascii p c Hp Hs) as (c' & -> & ? & _). by exists c'. Qed.

Lemma in_range_ascii lo hi b : (byte_code hi < 128)%N → in_range lo hi b = true → (byte_code b < 128)%N.
Proof. unfold in_range. intros ? [_ H]%andb_prop. apply N.leb_le in H. lia. Qed.

Lemma eqc_ascii d b : (byte_code d < 128)%N → (b =?c d) = true → (byte_code b < 128)%N.
Proof. unfold byte_eqb. by intros ? ->%Ascii.eqb_eq. Qed.

(** Every class of bytes the scanners test is a union of ASCII ranges and bytes. *)
Ltac ascii_pred_tac :=
  intros b Hb; rewrite ?orb_true_iff in Hb; destruct_or?;
  first [ eapply in_range_ascii; [|exact Hb] | eapply eqc_ascii; [|exact Hb] ];
  vm_compute; reflexivity.

Lemma is_whitespace_ascii : ascii_pred is_whitespace.
Proof. unfold is_whitespace. ascii_pred_tac. Qed.
Lemma is_digit_ascii : ascii_pred is_digit.
Proof. unfold is_digit, is_ascii_digit. ascii_pred_tac. Qed.
Lemma is_ident_start_ascii : ascii_pred is_ident_start.
Proof.
  unfold is_ident_start, is_ascii_alphabetic, is_ascii_uppercase, is_ascii_lowercase.
  ascii_pred_tac.
Qed.
Lemma is_ident_continue_ascii : ascii_pred is_ident_continue.
Proof.
  unfold is_ident_continue, is_ascii_alphanumeric, is_ascii_alphabetic,
    is_ascii_uppercase, is_ascii_lowercase, is_ascii_digit.
  ascii_pred_tac.
Qed.
#[export] Hint Resolve is_whitespace_ascii is_digit_ascii is_ident_continue_ascii
  Scans1_while Scans_done : spar.

(** A conditional [bump] of an ASCII byte. *)
Lemma Adv_bump_if (t : bool) c :
  Sound c → (t = true → is_eof c = false ∧ (byte_code (current c) < 128)%N) →
  Adv c (if t then bump c else c).
Proof. intros Hs Ht. destruct t; [|by apply Adv_refl]. destruct Ht; [done|]. by apply Adv_bump. Qed.

Lemma guard_ascii c (p : ascii → bool) :
  ascii_pred p → negb (is_eof c) && p (current c) = true →
  is_eof c = false ∧ (byte_code (current c) < 128)%N.
Proof. intros Hp [?%negb_true_iff ?%Hp]%andb_prop. done. Qed.

(** A run of bytes of a class that holds of the current byte is not empty. *)
Lemma Scans1_while_head p c :
  ascii_pred p → Sound c → is_eof c = false → p (current c) = true →
  Scans1 (scan_while p c) (bump c).
Proof.
  intros Hp Hs He Hc. destruct (scan_while_ascii p c Hp Hs) as (c' & E & [Hi Hle Hs'] & Hstop).
  exists c'. split; [done|]. constructor; [done| |done]. simpl.
  destruct (decide (pos c' = pos c)) as [Heq|]; [|lia].
  destruct c as [s i], c' as [s' i']; simpl in *; subst. destruct Hstop; congruence.
Qed.

(** ** One token *)

(** The next [n] bytes are the (ASCII, non-NUL) bytes of an operator. *)
Lemma Adv_bump_n n c :
  Sound c → (∀ i, i < n → ∃ b, peek i c = b ∧ b ≠ zero ∧ (byte_code b < 128)%N) →
  Adv c (bump_n n c).
Proof.
  intros Hs Hn. assert (Hb : ∀ i, i < n → ∃ b, input c !! (pos c + i) = Some b ∧ (byte_code b < 128)%N).
  { intros i Hi. destruct (Hn i Hi) as (b & Hb & Hz & Ha). exists b. split; [|done].
    apply peek_rest in Hb; [|done]. unfold rest in Hb. by rewrite lookup_drop in Hb. }
  apply Adv_ascii_run; simpl; [done..| |].
  - destruct n as [|n]; [destruct Hs; lia|]. destruct (Hb n) as (b & Hl%lookup_lt_Some & _); lia.
  - intros i b Hi Hl. destruct (Hb (i - pos c)) as (b' & Hl' & Ha); [lia|].
    replace (pos c + (i - pos c)) with i in Hl' by lia. congruence.
Qed.

Lemma bump_n_Adv n c : Adv c (bump_n (S n) c) → Scans1 (Done (bump_n (S n) c)) (bump c).
Proof. intros [Hi Hp Hs]. exists (bump_n (S n) c). split; [done|]. constructor; simpl in *; [done|lia|done]. Qed.

Lemma eqc_true a b : (a =?c b) = true → a = b.
Proof. apply Ascii.eqb_eq. Qed.

Lemma Adv_bump_2 c a b :
  Sound c → (current c =?c a) && (peek 1 c =?c b) = true →
  a ≠ zero → b ≠ zero → (byte_code a < 128)%N → (byte_code b < 128)%N → Adv c (bump_n 2 c).
Proof.
  intros Hs [Ha%eqc_true Hb%eqc_true]%andb_prop ????. rewrite current_peek in Ha. apply Adv_bump_n; [done|].
  intros [|[|i]] ?; [by eauto..|lia].
Qed.

Lemma Adv_bump_3 c a b d :
  Sound c → (current c =?c a) && (peek 1 c =?c b) && (peek 2 c =?c d) = true →
  a ≠ zero → b ≠ zero → d ≠ zero →
  (byte_code a < 128)%N → (byte_code b < 128)%N → (byte_code d < 128)%N → Adv c (bump_n 3 c).
Proof.
  intros Hs [[Ha%eqc_true Hb%eqc_true]%andb_prop Hd%eqc_true]%andb_prop ??????.
  rewrite current_peek in Ha. apply Adv_bump_n; [done|].
  intros [|[|[|i]]] ?; [by eauto..|lia].
Qed.

Lemma bump_char_spec c :
  Sound c → is_eof c = false → ∃ c', bump_char c = Done c' ∧ Adv c c' ∧ pos c < pos c'.
Proof.
  intros [Hp Hu] He. unfold bump_char. pose proof (rest_cons _ He) as Hr.
  apply is_eof_false_lt in He. rewrite (proj2 (Nat.ltb_lt _ _)) by done.
  rewrite slice_utf8; [|lia|lia|done|rewrite drop_ge by lia; constructor]. simpl.
  eexists. split; [done|]. rewrite Hr in Hu.
  destruct (utf8_skip_char _ _ Hu) as [Hu' Hl].
  assert (length (current c :: rest (bump c)) = length (input c) - pos c) as Hlen.
  { rewrite <- Hr. unfold rest. by rewrite length_drop. }
  rewrite Hlen in Hl. rewrite <- Hr in Hu'. unfold rest in Hu'. rewrite drop_drop in Hu'.
  split; [|simpl; lia]. constructor; simpl; [done|lia|]. constructor; simpl; [lia|done].
Qed.

(** A scanner that consumes at least one byte. *)
Definition Tok {A} (m : Exec (A * Cursor)) (c : Cursor) : Prop :=
  ∃ a c', m = Done (a, c') ∧ Adv c c' ∧ pos c < pos c'.

Lemma Tok_Scans {A} (m : Exec (A * Cursor)) c : Adv c (bump c) → Scans m (bump c) → Tok m c.
Proof.
  intros Hb (a & c' & -> & H). exists a, c'. split; [done|].
  split; [by eapply Adv_trans|]. destruct H; simpl in *. lia.
Qed.

Lemma Tok_n {A} (a : A) n c : Adv c (bump_n (S n) c) → Tok (Done (a, bump_n (S n) c)) c.
Proof. intros. exists a, (bump_n (S n) c). split_and!; [done|done|]. simpl. lia. Qed.

Lemma Tok_one {A} (a : A) d c :
  Sound c → is_eof c = false → (current c =?c d) = true → (byte_code d < 128)%N →
  Tok (Done (a, bump c)) c.
Proof. intros Hs He Hc%eqc_true Hd. apply (Tok_n a 0). apply Adv_bump; [done|done|by rewrite Hc]. Qed.

Lemma Tok_ascii {A} (p : ascii → bool) (m : Exec (A * Cursor)) c :
  Sound c → is_eof c = false → ascii_pred p → p (current c) = true →
  Scans m (bump c) → Tok m c.
Proof. intros Hs He Hp Hc. apply Tok_Scans. by apply Adv_bump, Hp. Qed.

(** A token of two bytes and everything up to a delimiter. *)
Lemma Tok_until {A} (k : A) a b d c :
  Sound c → (current c =?c a) && (peek 1 c =?c b) = true →
  a ≠ zero → b ≠ zero → (byte_code a < 128)%N → (byte_code b < 128)%N → (byte_code d < 128)%N →
  Tok (c ← scan_while (λ x, negb (x =?c d)) (bump_n 2 c); Done (k, c)) c.
Proof.
  intros Hs Hg Ha Hb Ha' Hb' Hd. pose proof (Adv_bump_2 c a b Hs Hg Ha Hb Ha' Hb') as H2.
  destruct (scan_until_ascii d (bump_n 2 c)) as (c' & -> & H3); [done|by apply H2|]. simpl.
  exists k, c'. split_and!; [done|by eapply Adv_trans|]. destruct H3; simpl in *. lia.
Qed.

Lemma sign_ascii : ascii_pred (λ b, (b =?c "+") || (b =?c "-")).
Proof. ascii_pred_tac. Qed.
Lemma exp_ascii : ascii_pred (λ b, (b =?c "e") || (b =?c "E")).
Proof. ascii_pred_tac. Qed.

Lemma Scans1_exponent c :
  Sound c → is_eof c = false → (byte_code (current c) < 128)%N → Scans1 (scan_exponent c) (bump c).
Proof.
  intros Hs He Ha. unfold scan_exponent. pose proof (Adv_bump _ Hs He Ha) as [_ _ Hb].
  assert (Adv (bump c) (if negb (is_eof (bump c)) && ((current (bump c) =?c "+") || (current (bump c) =?c "-"))
            then bump (bump c) else bump c)) as Hstep.
  { apply Adv_bump_if; [done|]. apply (guard_ascii _ _ sign_ascii). }
  eapply Scans1_step; [exact Hstep|]. apply Scans1_while; eauto with spar.
Qed.

Lemma Scans_exponent {A} (a : A) c : Sound c → (negb (is_eof c) && ((current c =?c "e") || (current c =?c "E"))) = true →
  Scans (c ← scan_exponent c; Done (a, c)) c.
Proof.
  intros Hs [He Ha]%(guard_ascii _ _ exp_ascii).
  eapply Scans_step; [by apply Adv_bump|].
  apply Scans_bind; [by apply Scans1_exponent|]. intros. eauto with spar.
Qed.

(** The value of a scanner satisfies [P]. *)
Definition Emits {A} (P : A → Prop) (m : Exec (A * Cursor)) : Prop :=
  ∀ a c, m = Done (a, c) → P a.

Lemma Emits_done {A} (P : A → Prop) a c : P a → Emits P (Done (a, c)).
Proof. by intros ? ? ? [= <- <-]. Qed.
Lemma Emits_bind {A A'} (P : A → Prop) (m : Exec A') k : (∀ x, Emits P (k x)) → Emits P (m ≫= k).
Proof. intros Hk a c E. apply Exec_bind_Done in E as (x & _ & E). by eapply Hk. Qed.
Lemma Emits_if {A} (P : A → Prop) (b : bool) m1 m2 : Emits P m1 → Emits P m2 → Emits P (if b then m1 else m2).
Proof. by destruct b. Qed.

Ltac emits := repeat first [apply Emits_done; try discriminate | apply Emits_if | apply Emits_bind; intros ?].

Lemma utf8_ascii s : Forall (λ b, (byte_code b < 128)%N) s → utf8 s.
Proof. induction 1; eauto with spar. Qed.

Lemma utf8_app x y : utf8 x → utf8 y → utf8 (x ++ y).
Proof. induction 1; simpl; eauto with spar. Qed.

Lemma utf8_concat {K} (toks : list (K * bytes)) :
  Forall (λ t, snd t ≠ [] ∧ utf8 (snd t)) toks → utf8 (List.concat (map snd toks)).
Proof. induction 1 as [|t ts [_ H]]; simpl; [constructor|]. by apply utf8_app. Qed.

Lemma concat_split {K} (toks : list (K * bytes)) i :
  List.concat (map snd toks) =
  List.concat (map snd (take i toks)) ++ List.concat (map snd (drop i toks)).
Proof. by rewrite <- concat_app, <- map_app, take_drop. Qed.

(** The cascade of operators of one, two or three ASCII bytes. *)
Ltac scan_operators :=
  repeat match goal with
  | |- Tok (if ?g && ?h && ?i then _ else _) _ =>
      destruct (g && h && i) eqn:?; [by (eapply Tok_n, Adv_bump_3; [done|eassumption|done..])|]
  | |- Tok (if ?g && ?h then _ else _) _ =>
      destruct (g && h) eqn:?; [by (eapply Tok_n, Adv_bump_2; [done|eassumption|done..])|]
  | |- Tok (if ?g then _ else _) _ => destruct g eqn:?; [by (eapply Tok_one; [done|done|eassumption|done])|]
  end.

(** ** The loops over a scanner *)
Section scanner.
Context {K : Type} {HD : Discriminant K} {V : Vocabulary K}.
Context (scan_token_kind : Cursor → Exec (K * Cursor)).
(** The sources the scanner is made for: a bound on their length, say. *)
Context (scannable : bytes → Prop).
Context (scan_kind_ok : ∀ c, scannable (input c) → Sound c → is_eof c = false → Tok (scan_token_kind c) c).
Context (scan_kind_not_eof : ∀ c, Emits (λ k, k ≠ eof) (scan_token_kind c)).

Lemma scan_token_spec c :
  scannable (input c) → Sound c → is_eof c = false →
  ∃ k c', scan_token_of scan_token_kind c = Done ((k, take (pos c' - pos c) (rest c)), c') ∧
    scan_token_kind c = Done (k, c') ∧ Adv c c' ∧ pos c < pos c'.
Proof.
  intros Hin Hs He. destruct (scan_kind_ok c) as (k & c' & E & H & Hlt); [done..|].
  exists k, c'. unfold scan_token_of. rewrite E. simpl. split_and!; try done.
  destruct H as [Hi Hp [Hp' Hu]]. rewrite Hi in Hp' |- *. rewrite slice_utf8; [done|lia|lia|apply Hs|].
  unfold rest in Hu. by rewrite Hi in Hu.
Qed.

(** ** The token stream *)

(** The tokens with the offsets at which they start. *)
Fixpoint offsets (p : nat) (toks : list (K * bytes)) : list (K * u32) :=
  match toks with
  | [] => []
  | t :: toks => (fst t, N.of_nat p) :: offsets (p + length (snd t)) toks
  end.

(** What the three loops do from a cursor: the same tokens, non-empty and
    concatenating to the rest of the source, with their texts, their lengths
    or their offsets. *)
Record Scanned (fuel : nat) (c : Cursor) (toks : list (K * bytes)) : Prop := {
  scanned_lex : ∀ acc, lex_loop scan_token_kind fuel c acc = Done (acc ++ toks);
  scanned_tokenize : ∀ acc,
    tokenize_loop scan_token_kind fuel c acc = Done (acc ++ map (λ t, (fst t, length (snd t))) toks);
  scanned_lexed : (N.of_nat (length (input c)) ≤ U32_MAX)%N →
    ∀ acc, lexed_loop scan_token_kind fuel c acc = Done (acc ++ offsets (pos c) toks);
  scanned_concat : List.concat (map snd toks) = rest c;
  scanned_text : Forall (λ t, snd t ≠ [] ∧ utf8 (snd t)) toks;
  scanned_kind : Forall (λ t, fst t ≠ eof) toks;
}.

Lemma Scanned_nil n c : Sound c → is_eof c = true → Scanned (S n) c [].
Proof.
  intros Hs He. constructor; simpl; rewrite ?He; simpl; intros; rewrite ?app_nil_r; try done.
  symmetry. by apply rest_nil; [apply Hs|].
Qed.

Lemma Scanned_cons n c k c' toks :
  Sound c → is_eof c = false →
  scan_token_of scan_token_kind c = Done ((k, take (pos c' - pos c) (rest c)), c') → k ≠ eof →
  Adv c c' → pos c < pos c' → Scanned n c' toks →
  Scanned (S n) c ((k, take (pos c' - pos c) (rest c)) :: toks).
Proof.
  intros Hs He Ek Hk H Hlt [H1 H2 H3 H4 H5 H6].
  assert (Hr : rest c' = drop (pos c' - pos c) (rest c)).
  { unfold rest. rewrite drop_drop, (adv_input _ _ H). f_equal. lia. }
  assert (Hlen : length (take (pos c' - pos c) (rest c)) = pos c' - pos c).
  { rewrite length_take. unfold rest. rewrite length_drop.
    destruct H as [Hi _ [Hp _]]. rewrite Hi in Hp. lia. }
  constructor; simpl; rewrite ?He, ?Ek; simpl.
  - intros acc. by rewrite H1, <- app_assoc.
  - intros acc. by rewrite H2, <- app_assoc, Hlen.
  - intros Hb acc. rewrite (adv_input _ _ H) in H3. rewrite (H3 Hb), <- app_assoc, Hlen.
    rewrite as_u32_small by (apply is_eof_false_lt in He; lia).
    by replace (pos c + (pos c' - pos c)) with (pos c') by lia.
  - by rewrite H4, Hr, take_drop.
  - constructor; [|done]. simpl. split.
    + intros Hn. rewrite Hn in Hlen. simpl in Hlen. lia.
    + apply (utf8_prefix _ (rest c')); [|apply H]. rewrite Hr, take_drop. apply Hs.
  - by constructor.
Qed.

Lemma Scanned_ex fuel c :
  scannable (input c) → Sound c → length (input c) - pos c < fuel → ∃ toks, Scanned fuel c toks.
Proof.
  revert c. induction fuel as [|n IH]; intros c Hin Hs Hf; [lia|].
  destruct (is_eof c) eqn:He; [exists []; by apply Scanned_nil|].
  destruct (scan_token_spec c) as (k & c' & Ek & Ekk & H & Hlt); [done..|].
  pose proof (scan_kind_not_eof c k c' Ekk) as Hk.
  destruct (IH c') as [toks Ht].
  { by rewrite (adv_input _ _ H). } { apply H. } { rewrite (adv_input _ _ H). destruct H as [Hi _ [Hp _]]. rewrite Hi in Hp. lia. }
  eexists. by eapply Scanned_cons.
Qed.

Lemma Sound_new s : utf8 s → Sound (cursor_new s).
Proof. intros. constructor; simpl; [lia|]. unfold rest. simpl. by rewrite drop_0. Qed.

Lemma Scanned_new s : scannable s → utf8 s → ∃ toks, Scanned (S (length s)) (cursor_new s) toks.
Proof. intros. apply Scanned_ex; [done|by apply Sound_new|simpl; lia]. Qed.

Lemma lex_Scanned s toks : Scanned (S (length s)) (cursor_new s) toks → lex_of scan_token_kind s = Done toks.
Proof. intros H. apply (scanned_lex _ _ _ H []). Qed.
End scanner.
