(* ===== verification/Lexer.v ===== *)
(** * The AADL lexer

    [crates/spar-parser/src/lexer.rs]: a cursor over the bytes of the source,
    the scanning functions of each token class, [scan_token], and the three
    entry points [lex], [tokenize] and [LexedStr]. *)
From S2P Require Import Prelude.
From S2P Require Export Cursor.
From S2P Require Import SyntaxKind.

(** ** Character classes *)

(** crates/spar-parser/src/lexer.rs:110-112 [is_hex_digit] *)
Definition is_hex_digit (b : ascii) : bool := is_ascii_hexdigit b.

(** crates/spar-parser/src/lexer.rs:116-118 [is_radix_digit] *)
Definition is_radix_digit (b : ascii) (radix : N) : bool := char_is_digit b radix.

(** ** Scanning *)

(** crates/spar-parser/src/lexer.rs:121-125 [scan_whitespace] *)
Definition scan_whitespace (c : Cursor) : Exec Cursor := scan_while is_whitespace c.

(** crates/spar-parser/src/lexer.rs:129-135 [scan_comment] *)
Definition scan_comment (c : Cursor) : Exec Cursor :=
  let c := bump_n 2 c in
  scan_while (λ b, negb (b =?c "010")) c.

(** crates/spar-parser/src/lexer.rs:140-158 [scan_string] *)
Fixpoint scan_string_loop (fuel : nat) (c : Cursor) : Exec (bool * Cursor) :=
  match fuel with
  | O => Stuck
  | S n =>
      if negb (is_eof c) then
        if current c =?c "034" then
          if peek 1 c =?c "034" then
            let c := bump c in
            let c := bump c in
            scan_string_loop n c
          else
            let c := bump c in
            Done (true, c)
        else
          let c := bump c in
          scan_string_loop n c
      else Done (false, c)
  end.

(** crates/spar-parser/src/lexer.rs:140-158 [scan_string] *)
Definition scan_string (c : Cursor) : Exec (bool * Cursor) :=
  let c := bump c in
  scan_string_loop (S (length (input c))) c.

(** crates/spar-parser/src/lexer.rs:189-194 [scan_number]: the radix a
    C-style marker announces; 0 for any other byte. *)
Definition radix_of_marker (b : ascii) : N :=
  if (b =?c "x") || (b =?c "X") then 16
  else if (b =?c "o") || (b =?c "O") then 8
  else if (b =?c "b") || (b =?c "B") then 2
  else 0.

(** crates/spar-parser/src/lexer.rs:188-195 [scan_number]: a lone [0] glued
    to a radix marker and a digit of that radix. *)
Definition at_c_style_radix (start : nat) (c : Cursor) : bool :=
  Nat.eqb (pos c - start) 1 &&
  (match input c !! start with Some b => b =?c "0" | None => false end) &&
  negb (is_eof c) &&
  let radix := radix_of_marker (current c) in
  negb (N.eqb radix 0) && is_radix_digit (peek 1 c) radix.

(** crates/spar-parser/src/lexer.rs:213-221 [scan_number] *)
Fixpoint scan_based_loop (fuel : nat) (is_real : bool) (c : Cursor) : Exec (bool * Cursor) :=
  match fuel with
  | O => Stuck
  | S n =>
      if negb (is_eof c) &&
         (is_hex_digit (current c) || (current c =?c ".") || (current c =?c "_")) then
        let is_real := if current c =?c "." then true else is_real in
        scan_based_loop n is_real (bump c)
      else Done (is_real, c)
  end.

(** crates/spar-parser/src/lexer.rs:212-241 [scan_number] *)
Definition scan_based_literal (c : Cursor) : Exec (SyntaxKind * Cursor) :=
  let c := bump c in
  '(is_real, c) ← scan_based_loop (S (length (input c))) false c;
  let c := if negb (is_eof c) && (current c =?c "#") then bump c else c in
  if negb (is_eof c) && ((current c =?c "e") || (current c =?c "E")) then
    c ← scan_exponent c; Done (REAL_LIT, c)
  else Done (if (is_real : bool) then REAL_LIT else INTEGER_LIT, c).

(** crates/spar-parser/src/lexer.rs:167-282 [scan_number] *)
Definition scan_number (c : Cursor) : Exec (SyntaxKind * Cursor) :=
  let start := pos c in
  c ← scan_while is_digit c;
  if at_c_style_radix start c then
    let c := bump c in
    c ← scan_while is_ident_continue c;
    Done (ERROR, c)
  else if negb (is_eof c) && (current c =?c "#") then scan_based_literal c
  else if negb (is_eof c) && (current c =?c ".") && negb (peek 1 c =?c ".") then
    let c := bump c in
    c ← scan_while is_digit c;
    if negb (is_eof c) && ((current c =?c "e") || (current c =?c "E")) then
      c ← scan_exponent c; Done (REAL_LIT, c)
    else Done (REAL_LIT, c)
  else if negb (is_eof c) && ((current c =?c "e") || (current c =?c "E")) then
    c ← scan_exponent c; Done (REAL_LIT, c)
  else
    c ← scan_while (λ b, is_digit b || (b =?c "_")) c;
    Done (INTEGER_LIT, c).

(** crates/spar-parser/src/lexer.rs:285-293 [scan_ident_or_keyword] *)
Definition scan_ident_or_keyword (c : Cursor) (start : nat) : Exec (SyntaxKind * Cursor) :=
  c ← scan_while is_ident_continue c;
  text ← slice (input c) start (pos c);
  let lower := to_ascii_lowercase text in
  Done (match from_keyword (string_of_list_ascii lower) with Some k => k | None => IDENT end, c).

(** ** One token *)

(** crates/spar-parser/src/lexer.rs:301-465 [scan_token] *)
Definition scan_token_kind (c : Cursor) : Exec (SyntaxKind * Cursor) :=
  let start := pos c in
  let b := current c in
  let one k := Done (k, bump c) in
  let two k := Done (k, bump_n 2 c) in
  let three k := Done (k, bump_n 3 c) in
  if is_whitespace b then c ← scan_whitespace c; Done (WHITESPACE, c)
  else if (b =?c "-") && (peek 1 c =?c "-") then c ← scan_comment c; Done (COMMENT, c)
  else if b =?c "034" then '(_, c) ← scan_string c; Done (STRING_LIT, c)
  else if is_digit b then scan_number c
  else if is_ident_start b then
    let c := bump c in scan_ident_or_keyword c start
  else if (b =?c "{") && (peek 1 c =?c "*") && (peek 2 c =?c "*") then three ANNEX_OPEN
  else if (b =?c "*") && (peek 1 c =?c "*") && (peek 2 c =?c "}") then three ANNEX_CLOSE
  else if (b =?c "+") && (peek 1 c =?c "=") && (peek 2 c =?c ">") then three PLUS_ARROW
  else if (b =?c "]") && (peek 1 c =?c "-") && (peek 2 c =?c ">") then three BRACKET_ARROW
  else if (b =?c "<") && (peek 1 c =?c "-") && (peek 2 c =?c ">") then three BIDI_ARROW
  else if (b =?c "-") && (peek 1 c =?c ">") then two ARROW
  else if (b =?c "-") && (peek 1 c =?c "[") then two DASH_BRACKET
  else if (b =?c "=") && (peek 1 c =?c ">") then two FAT_ARROW
  else if (b =?c ".") && (peek 1 c =?c ".") then two DOT_DOT
  else if (b =?c ":") && (peek 1 c =?c ":") then two COLON_COLON
  else if b =?c ";" then one SEMICOLON
  else if b =?c ":" then one COLON
  else if b =?c "," then one COMMA
  else if b =?c "." then one DOT
  else if b =?c "(" then one L_PAREN
  else if b =?c ")" then one R_PAREN
  else if b =?c "{" then one L_CURLY
  else if b =?c "}" then one R_CURLY
  else if b =?c "[" then one L_BRACKET
  else if b =?c "]" then one R_BRACKET
  else if b =?c "+" then one PLUS
  else if b =?c "-" then one MINUS
  else if b =?c "*" then one STAR
  else if b =?c "/" then one SLASH
  else if b =?c "#" then one HASH
  else c ← bump_char c; Done (ERROR, c).

(** crates/spar-parser/src/lexer.rs:301-465 [scan_token] *)
Definition scan_token (c : Cursor) : Exec ((SyntaxKind * bytes) * Cursor) :=
  scan_token_of scan_token_kind c.

(** ** Entry points *)

(** crates/spar-parser/src/lexer.rs:475-482 [lex] *)
Definition lex (input : bytes) : Exec (list (SyntaxKind * bytes)) := lex_of scan_token_kind input.

(** crates/spar-parser/src/lexer.rs:488-497 [tokenize] *)
Definition tokenize (input : bytes) : Exec (list (SyntaxKind * usize)) :=
  tokenize_of scan_token_kind input.

(** ** Tokens with text ranges *)

(** crates/spar-parser/src/lexer.rs:510-515 [LexedStr] *)
Record LexedStr := { lexed_input : bytes; lexed_tokens : list (SyntaxKind * u32) }.

(** crates/spar-parser/src/lexer.rs:519-528 [LexedStr::new] *)
Definition lexed_new (input : bytes) : Exec LexedStr :=
  tokens ← lexed_loop scan_token_kind (S (length input)) (cursor_new input) [];
  Done {| lexed_input := input; lexed_tokens := tokens |}.

(** crates/spar-parser/src/lexer.rs:532-534 [LexedStr::len] *)
Definition lexed_len (l : LexedStr) : usize := length (lexed_tokens l).

(** crates/spar-parser/src/lexer.rs:538-540 [LexedStr::is_empty] *)
Definition lexed_is_empty (l : LexedStr) : bool := Nat.eqb (length (lexed_tokens l)) 0.

(** crates/spar-parser/src/lexer.rs:544-546 [LexedStr::kind] *)
Definition lexed_kind (l : LexedStr) (index : usize) : Exec SyntaxKind :=
  match lexed_tokens l !! index with Some t => Done (fst t) | None => Panic end.

(** crates/spar-parser/src/lexer.rs:562-570 [LexedStr::text_range] *)
Definition lexed_text_range (l : LexedStr) (index : usize) : Exec (usize * usize) :=
  match lexed_tokens l !! index with
  | None => Panic
  | Some t =>
      let start := N.to_nat (snd t) in
      let stop := match lexed_tokens l !! (index + 1) with
                  | Some t' => N.to_nat (snd t')
                  | None => length (lexed_input l)
                  end in
      Done (start, stop)
  end.

(** crates/spar-parser/src/lexer.rs:550-558 [LexedStr::text] *)
Definition lexed_text (l : LexedStr) (index : usize) : Exec bytes :=
  '(start, stop) ← lexed_text_range l index;
  slice (lexed_input l) start stop.

(** crates/spar-parser/src/lexer.rs:574-576 [LexedStr::text_start] *)
Definition lexed_text_start (l : LexedStr) (index : usize) : Exec usize :=
  match lexed_tokens l !! index with Some t => Done (N.to_nat (snd t)) | None => Panic end.

(** crates/spar-parser/src/lexer.rs:585-587 [LexedStr::iter] *)
Fixpoint lexed_iter_from (l : LexedStr) (idxs : list usize) : Exec (list (SyntaxKind * bytes)) :=
  match idxs with
  | [] => Done []
  | i :: idxs =>
      k ← lexed_kind l i; t ← lexed_text l i;
      ts ← lexed_iter_from l idxs; Done ((k, t) :: ts)
  end.

(** crates/spar-parser/src/lexer.rs:585-587 [LexedStr::iter] *)
Definition lexed_iter (l : LexedStr) : Exec (list (SyntaxKind * bytes)) :=
  lexed_iter_from l (seq 0 (lexed_len l)).
