(* ===== verification/LexerSpec.v ===== *)
(** * Correctness of the lexer

    For every valid UTF-8 source the lexer neither panics nor loops, and its
    tokens cover the source exactly: no byte is dropped, duplicated or split
    off a character boundary. *)
From S2P Require Import Prelude.
From S2P Require Export Cursor.
From S2P Require Import SyntaxKind.
From S2P Require Import Lexer.
#[local] Open Scope nat_scope.

Lemma is_hex_digit_ascii : ascii_pred is_hex_digit.
Proof. unfold is_hex_digit, is_ascii_hexdigit, is_ascii_digit. ascii_pred_tac. Qed.
Lemma digit_underscore_ascii : ascii_pred (λ b, is_digit b || (b =?c "_")).
Proof. unfold is_digit, is_ascii_digit. ascii_pred_tac. Qed.

#[local] Hint Resolve digit_underscore_ascii : spar.

Lemma scan_string_loop_spec fuel c :
  pos c ≤ length (input c) → length (input c) - pos c < fuel →
  ∃ t c', scan_string_loop fuel c = Done (t, c') ∧ input c' = input c ∧
    pos c ≤ pos c' ≤ length (input c) ∧
    (is_eof c' = true ∨
     ∃ q, c' = bump q ∧ input q = input c ∧ pos c ≤ pos q ∧ is_eof q = false ∧ current q = "034"%char).
Proof.
  revert c. induction fuel as [|n IH]; intros c Hp Hf; [lia|]. simpl.
  destruct (is_eof c) eqn:He; simpl.
  { exists false, c. split_and!; try done. by left. }
  pose proof (proj1 (is_eof_false_lt c) He) as Hlt.
  destruct (current c =?c "034") eqn:Hq; [destruct (peek 1 c =?c "034") eqn:Hq2|].
  - assert (pos c + 1 < length (input c)).
    { apply Ascii.eqb_eq in Hq2. revert Hq2. unfold peek.
      destruct (input c !! (pos c + 1)) eqn:E; [|done]. intros _. by eapply lookup_lt_Some. }
    destruct (IH (bump (bump c))) as (t & c' & -> & Hi & Hpos & Hstop); simpl in *; [lia..|].
    exists t, c'. split_and!; try done; try lia.
    destruct Hstop as [?|(q & -> & ? & ? & ? & ?)]; [by left|right].
    exists q. split_and!; try done; lia.
  - exists true, (bump c). split_and!; simpl; try done; try lia.
    right. exists c. split_and!; try done. by apply Ascii.eqb_eq.
  - destruct (IH (bump c)) as (t & c' & -> & Hi & Hpos & Hstop); simpl in *; [lia..|].
    exists t, c'. split_and!; try done; try lia.
    destruct Hstop as [?|(q & -> & ? & ? & ? & ?)]; [by left|right].
    exists q. split_and!; try done; lia.
Qed.

Lemma Scans_string c :
  Sound c → is_eof c = false → (byte_code (current c) < 128)%N →
  Scans (scan_string c) (bump c).
Proof.
  intros Hs He Ha. pose proof (Adv_bump _ Hs He Ha) as [_ _ Hb]. unfold scan_string.
  destruct (scan_string_loop_spec (S (length (input (bump c)))) (bump c))
    as (t & c' & -> & Hi & Hpos & Hstop); [apply Hb|lia|].
  exists t, c'. split; [done|]. destruct Hstop as [?|(q & -> & Hqi & Hqp & Hqe & Hq)].
  - by apply Adv_to_end.
  - apply Adv_before_ascii; [done..|]. by rewrite Hq.
Qed.

Lemma scan_based_loop_spec fuel r c :
  Sound c → length (input c) - pos c < fuel → Scans (scan_based_loop fuel r c) c.
Proof.
  revert r c. induction fuel as [|n IH]; intros r c Hs Hf; [lia|]. simpl.
  case_match eqn:Hg; [|eauto with spar].
  apply (guard_ascii _ (λ b, is_hex_digit b || (b =?c ".") || (b =?c "_"))) in Hg as [He Ha].
  2:{ unfold is_hex_digit, is_ascii_hexdigit, is_ascii_digit. ascii_pred_tac. }
  pose proof (Adv_bump _ Hs He Ha) as Hb. eapply Scans_step; [exact Hb|].
  apply is_eof_false_lt in He. apply IH; [by apply Hb|]. simpl. lia.
Qed.

Lemma Scans_based_literal c :
  Sound c → (negb (is_eof c) && (current c =?c "#")) = true → Scans (scan_based_literal c) c.
Proof.
  intros Hs Hg. assert (hash_ascii : ascii_pred (λ b, b =?c "#")) by ascii_pred_tac.
  apply (guard_ascii _ _ hash_ascii) in Hg as [He Ha].
  pose proof (Adv_bump _ Hs He Ha) as Hb. eapply Scans_step; [exact Hb|]. unfold scan_based_literal.
  destruct (scan_based_loop_spec (S (length (input (bump c)))) false (bump c)) as (r & c1 & -> & H1);
    [by apply Hb|lia|]. simpl.
  eapply Scans_step; [exact H1|].
  assert (Adv c1 (if negb (is_eof c1) && (current c1 =?c "#") then bump c1 else c1)) as H2.
  { apply Adv_bump_if; [by apply H1|]. apply (guard_ascii _ _ hash_ascii). }
  revert H2. generalize (if negb (is_eof c1) && (current c1 =?c "#") then bump c1 else c1).
  intros c2 H2. eapply Scans_step; [exact H2|].
  case_match; [apply Scans_exponent|apply Scans_done]; eauto with spar.
Qed.

Lemma marker_ascii b : radix_of_marker b ≠ 0%N → (byte_code b < 128)%N.
Proof.
  unfold radix_of_marker.
  assert (ascii_pred (λ a, ((a =?c "x") || (a =?c "X")) || ((a =?c "o") || (a =?c "O"))
    || ((a =?c "b") || (a =?c "B")))) as Hp by (intros a; rewrite !orb_true_iff;
      intros Ha; destruct_or!; (eapply eqc_ascii; [|exact Ha]); vm_compute; reflexivity).
  intros Hb. apply Hp. by destruct ((b =?c "x") || _), ((b =?c "o") || _), ((b =?c "b") || _).
Qed.

Lemma Scans_number c :
  Sound c → is_eof c = false → is_digit (current c) = true → Scans (scan_number c) (bump c).
Proof.
  intros Hs He0 Hd0. unfold scan_number.
  apply Scans_bind; [apply Scans1_while_head; eauto with spar|].
  intros c1 H1. pose proof (adv_sound _ _ H1) as Hs1.
  case_match eqn:Hr.
  { unfold at_c_style_radix in Hr. rewrite !andb_true_iff, !negb_true_iff in Hr.
    destruct Hr as [[_ He] [Hm%N.eqb_neq _]].
    pose proof (Adv_bump _ Hs1 He (marker_ascii _ Hm)) as Hb. eapply Scans_step; [exact Hb|].
    apply Scans_bind; intros; eauto with spar. }
  case_match eqn:Hh; [by apply Scans_based_literal|].
  case_match eqn:Hd.
  { apply andb_prop in Hd as [Hd _]. assert (ascii_pred (λ b, b =?c ".")) as Hp by ascii_pred_tac.
    apply (guard_ascii _ _ Hp) in Hd as [He Ha].
    pose proof (Adv_bump _ Hs1 He Ha) as Hb. eapply Scans_step; [exact Hb|].
    apply Scans_bind; [eauto with spar|]. intros c2 H2.
    case_match; [apply Scans_exponent|apply Scans_done]; eauto with spar. }
  case_match; [apply Scans_exponent; eauto with spar|].
  apply Scans_bind; intros; eauto with spar.
Qed.

Lemma Scans_ident start c :
  Sound c → start ≤ pos c → utf8 (drop start (input c)) → Scans (scan_ident_or_keyword c start) c.
Proof.
  intros Hs Hst Hu. unfold scan_ident_or_keyword. apply Scans_bind; [eauto with spar|].
  intros c1 [Hi Hp [Hp1 Hu1]]. unfold rest in Hu1. rewrite slice_utf8; [|lia|done|by rewrite Hi|done].
  by apply Scans_done.
Qed.

Lemma Tok_comment c :
  Sound c → (current c =?c "-") && (peek 1 c =?c "-") = true →
  Tok (c ← scan_comment c; Done (COMMENT, c)) c.
Proof. intros Hs Hg. unfold scan_comment. by apply (Tok_until COMMENT "-" "-"). Qed.

Lemma scan_token_kind_spec c : Sound c → is_eof c = false → Tok (scan_token_kind c) c.
Proof.
  intros Hs He. unfold scan_token_kind.
  destruct (is_whitespace _) eqn:H0.
  { apply (Tok_ascii is_whitespace); eauto with spar. apply Scans_bind; [|intros; eauto with spar].
    apply Scans1_while_head; eauto with spar. }
  destruct ((current c =?c "-") && (peek 1 c =?c "-")) eqn:H1; [by apply Tok_comment|].
  destruct (current c =?c "034") eqn:H2.
  { apply eqc_true in H2.
    assert (byte_code (current c) < 128)%N by (by rewrite H2).
    apply Tok_Scans; [by apply Adv_bump|].
    destruct (Scans_string c) as (t & c' & -> & H'); [done..|]. by exists STRING_LIT, c'. }
  destruct (is_digit _) eqn:H3.
  { apply (Tok_ascii is_digit); eauto with spar. by apply Scans_number. }
  destruct (is_ident_start _) eqn:H4.
  { apply (Tok_ascii is_ident_start); eauto using is_ident_start_ascii with spar.
    apply Scans_ident; [|simpl; lia|apply Hs].
    apply Adv_bump; [done|done|by apply is_ident_start_ascii]. }
  scan_operators.
  destruct (bump_char_spec c) as (c' & -> & ? & ?); [done..|]. by exists ERROR, c'.
Qed.

(** ** No token is an end of file *)

Lemma from_keyword_kind s k : from_keyword s = Some k → k ≠ EOF.
Proof. exact (keyword_not_eof keyword_table _ k eq_refl). Qed.

Lemma scan_token_kind_not_eof c : Emits (λ k, k ≠ EOF) (scan_token_kind c).
Proof.
  unfold scan_token_kind, scan_ident_or_keyword. cbv zeta. emits.
  - destruct x as [t c']. emits.
  - unfold scan_number, scan_based_literal. cbv zeta. emits.
    destruct x0 as [r c']. emits. by destruct r.
  - destruct (from_keyword _) eqn:E; [by eapply from_keyword_kind|done].
Qed.

Lemma Scanned_aadl s : utf8 s → ∃ toks, Scanned scan_token_kind (S (length s)) (cursor_new s) toks.
Proof.
  by apply (Scanned_new _ (λ _, True)); [intros c _; apply scan_token_kind_spec|apply scan_token_kind_not_eof|].
Qed.

(** C12: On every string the lexer returns (it neither panics nor runs
    forever), its tokens are non-empty, each is itself a whole number of
    characters, and concatenating them gives back the source: no byte is
    lost, repeated or reordered. *)
Theorem lex_lossless s :
  utf8 s →
  ∃ toks, lex s = Done toks ∧ List.concat (map snd toks) = s ∧
    Forall (λ t, snd t ≠ [] ∧ utf8 (snd t)) toks.
Proof.
  intros Hs. destruct (Scanned_aadl s Hs) as [toks H]. exists toks.
  split_and!; [by apply lex_Scanned|apply (scanned_concat _ _ _ _ H)|apply H].
Qed.

(** A concrete source. *)
Definition src_example : bytes := list_ascii_of_string "System S1 -- c".

Lemma src_example_utf8 : utf8 src_example.
Proof. apply utf8_ascii. repeat constructor. Qed.

Lemma lex_lossless_witness :
  utf8 src_example ∧
  ∃ toks, lex src_example = Done toks ∧ List.concat (map snd toks) = src_example ∧
    Forall (λ t, snd t ≠ [] ∧ utf8 (snd t)) toks.
Proof. split; [apply src_example_utf8|]. apply lex_lossless. apply src_example_utf8. Defined.

(** ** [LexedStr] *)

Lemma offsets_lookup (toks : list (SyntaxKind * bytes)) p i :
  offsets p toks !! i =
  (λ t, (fst t, N.of_nat (p + length (List.concat (map snd (take i toks)))))) <$> toks !! i.
Proof.
  revert p i. induction toks as [|t toks IH]; intros p [|i]; simpl; try done.
  - by rewrite Nat.add_0_r.
  - rewrite IH. destruct (toks !! i); simpl; [|done]. rewrite length_app. do 3 f_equal. lia.
Qed.

(** The range and text of token [i] are those of the [i]-th token of [lex]. *)
Lemma lexed_text_spec (toks : list (SyntaxKind * bytes)) i k t :
  Forall (λ t, snd t ≠ [] ∧ utf8 (snd t)) toks → toks !! i = Some (k, t) →
  let l := {| lexed_input := List.concat (map snd toks); lexed_tokens := offsets 0 toks |} in
  lexed_kind l i = Done k ∧ lexed_text l i = Done t.
Proof.
  intros Hf Hi l. pose proof (take_drop_middle _ _ _ Hi) as Hm.
  set (x := List.concat (map snd (take i toks))). set (y := List.concat (map snd (drop (S i) toks))).
  assert (Hc : List.concat (map snd toks) = x ++ t ++ y).
  { rewrite <- Hm at 1. by rewrite map_app, concat_app. }
  assert (Hy : utf8 y) by (apply utf8_concat; by apply Forall_drop).
  assert (Ht : utf8 t) by (rewrite Forall_lookup in Hf; by destruct (Hf _ _ Hi)).
  unfold lexed_text, lexed_text_range, lexed_kind. simpl. rewrite !offsets_lookup, Hi. simpl.
  split; [done|]. fold x. rewrite Nat2N.id.
  assert (Hstop : match (λ t0, (fst t0, N.of_nat (length (List.concat (map snd (take (i + 1) toks))))))
      <$> toks !! (i + 1) with
      | Some t' => N.to_nat (snd t') | None => length (List.concat (map snd toks)) end
    = length x + length t).
  { assert (Htk : length (List.concat (map snd (take (i + 1) toks))) = length x + length t).
    { rewrite Nat.add_1_r, (take_S_r _ _ _ Hi), map_app, concat_app, length_app. simpl.
      by rewrite app_nil_r. }
    destruct (toks !! (i + 1)) eqn:E; simpl; [rewrite Nat2N.id; done|].
    apply lookup_ge_None in E. rewrite <- Htk, take_ge by lia. done. }
  rewrite Hstop. simpl. rewrite Hc.
  assert (Hd : drop (length x) (x ++ t ++ y) = t ++ y) by (by rewrite drop_app_length).
  rewrite slice_utf8; [|lia|rewrite !length_app; lia|rewrite Hd; by apply utf8_app|].
  - rewrite Hd. f_equal. replace (length x + length t - length x) with (length t) by lia.
    by rewrite take_app_length.
  - rewrite <- drop_drop, Hd, drop_app_length. done.
Qed.

Lemma lexed_iter_from_spec l (toks : list (SyntaxKind * bytes)) idxs :
  (∀ i k t, toks !! i = Some (k, t) → lexed_kind l i = Done k ∧ lexed_text l i = Done t) →
  Forall (λ i, i < length toks) idxs →
  lexed_iter_from l idxs = Done (omap (λ i, toks !! i) idxs).
Proof.
  intros H. induction 1 as [|i idxs Hi _ IH]; simpl; [done|].
  destruct (lookup_lt_is_Some_2 _ _ Hi) as [[k t] E]. destruct (H _ _ _ E) as [-> ->]. simpl.
  by rewrite IH, E.
Qed.

Lemma omap_lookup_seq {A} (l : list A) : omap (λ i, l !! i) (seq 0 (length l)) = l.
Proof.
  induction l as [|x l IH] using rev_ind; [done|].
  rewrite length_app. simpl. rewrite Nat.add_1_r, seq_S, omap_app. simpl.
  rewrite list_lookup_middle by done. f_equal. rewrite <- IH at 2.
  assert (Hext : ∀ idxs, Forall (λ i, i < length l) idxs →
    omap (λ i, (l ++ [x]) !! i) idxs = omap (λ i, l !! i) idxs).
  { induction 1 as [|i ixs Hi _ IH2]; csimpl; [done|]. by rewrite lookup_app_l, IH2 by done. }
  apply Hext. apply Forall_forall. intros i Hi%elem_of_seq. lia.
Qed.

(** On a source of at most [u32::MAX] bytes, the three entry points
    agree: [tokenize] gives the kinds and byte lengths of the tokens of
    [lex], and a [LexedStr], which keeps 32-bit offsets only, gives back the
    same kinds and texts by index. *)
Theorem lexed_str_agrees s :
  utf8 s → (N.of_nat (length s) ≤ U32_MAX)%N →
  ∃ toks l, lex s = Done toks ∧
    tokenize s = Done (map (λ t, (fst t, length (snd t))) toks) ∧
    lexed_new s = Done l ∧ lexed_len l = length toks ∧ lexed_iter l = Done toks.
Proof.
  intros Hs Hb. destruct (Scanned_aadl s Hs) as [toks H].
  assert (Hl : lexed_loop scan_token_kind (S (length s)) (cursor_new s) [] = Done (offsets 0 toks))
    by apply (scanned_lexed _ _ _ _ H Hb []).
  assert (Hc : List.concat (map snd toks) = s) by apply (scanned_concat _ _ _ _ H).
  exists toks, {| lexed_input := s; lexed_tokens := offsets 0 toks |}.
  assert (Hlen : ∀ p, length (offsets p toks) = length toks).
  { clear. induction toks as [|t toks IH]; intros p; simpl; [done|]. by rewrite IH. }
  split_and!; [by apply lex_Scanned|apply (scanned_tokenize _ _ _ _ H [])| | |].
  - unfold lexed_new. by rewrite Hl.
  - apply Hlen.
  - unfold lexed_iter, lexed_len. cbn [lexed_tokens]. rewrite Hlen.
    rewrite (lexed_iter_from_spec _ toks).
    + by rewrite omap_lookup_seq.
    + intros i k t Hi. rewrite <- Hc. by apply (lexed_text_spec toks); [apply H|].
    + apply Forall_forall. intros i Hi%elem_of_seq. lia.
Qed.

Lemma lexed_str_agrees_witness :
  utf8 src_example ∧
  ∃ toks l, lex src_example = Done toks ∧
    tokenize src_example = Done (map (λ t, (fst t, length (snd t))) toks) ∧
    lexed_new src_example = Done l ∧ lexed_len l = length toks ∧ lexed_iter l = Done toks.
Proof.
  split; [apply src_example_utf8|]. apply lexed_str_agrees; [apply src_example_utf8|].
  vm_compute. discriminate.
Defined.

(** ** Case insensitivity

    AADL is case-insensitive.  [low] is the same cursor on the source in
    lower case; every scanner commutes with it. *)
Definition low (c : Cursor) : Cursor := {| input := to_ascii_lowercase (input c); pos := pos c |}.

Definition low_token (t : SyntaxKind * bytes) : SyntaxKind * bytes :=
  (fst t, to_ascii_lowercase (snd t)).

(** A class of bytes that does not distinguish case. *)
Definition caseless (p : ascii → bool) : Prop := ∀ b, p (byte_to_lower b) = p b.

Ltac all_bytes := intros [[] [] [] [] [] [] [] []]; vm_compute; reflexivity.

Lemma caseless_whitespace : caseless is_whitespace. Proof. all_bytes. Qed.
Lemma caseless_digit : caseless is_digit. Proof. all_bytes. Qed.
Lemma caseless_ident_start : caseless is_ident_start. Proof. all_bytes. Qed.
Lemma caseless_ident_continue : caseless is_ident_continue. Proof. all_bytes. Qed.
Lemma caseless_hex_digit : caseless is_hex_digit. Proof. all_bytes. Qed.
Lemma caseless_radix b : radix_of_marker (byte_to_lower b) = radix_of_marker b.
Proof. revert b. all_bytes. Qed.
Lemma caseless_radix_digit b r : is_radix_digit (byte_to_lower b) r = is_radix_digit b r.
Proof.
  unfold is_radix_digit, char_is_digit.
  revert b. intros [[] [] [] [] [] [] [] []]; reflexivity.
Qed.
Lemma caseless_exp b :
  (byte_to_lower b =?c "e") || (byte_to_lower b =?c "E") = (b =?c "e") || (b =?c "E").
Proof. revert b. all_bytes. Qed.
Lemma caseless_cont b : is_cont (byte_to_lower b) = is_cont b.
Proof. revert b. all_bytes. Qed.
Lemma caseless_len b : len_utf8 (byte_to_lower b) = len_utf8 b.
Proof. revert b. all_bytes. Qed.

(** A byte that is not a letter is seen as itself. *)
Lemma caseless_eqc d : is_ascii_alphabetic d = false → ∀ b, (byte_to_lower b =?c d) = (b =?c d).
Proof.
  intros Hd b. unfold byte_eqb. destruct (Ascii.eqb_spec b d) as [->|Hn].
  - assert (byte_to_lower d = d) as ->; [|apply Ascii.eqb_refl].
    unfold is_ascii_alphabetic in Hd. apply orb_false_iff in Hd as [Hd _].
    unfold byte_to_lower. by rewrite Hd.
  - apply Ascii.eqb_neq. intros <-. apply Hn.
    revert Hd. clear Hn. revert b. intros [[] [] [] [] [] [] [] []]; vm_compute; congruence.
Qed.

Lemma byte_to_lower_idem b : byte_to_lower (byte_to_lower b) = byte_to_lower b.
Proof. revert b. all_bytes. Qed.

Lemma to_ascii_lowercase_idem s : to_ascii_lowercase (to_ascii_lowercase s) = to_ascii_lowercase s.
Proof.
  unfold to_ascii_lowercase. rewrite <- list_fmap_compose. apply list_fmap_ext. intros. apply byte_to_lower_idem.
Qed.

Lemma low_eof c : is_eof (low c) = is_eof c.
Proof. unfold is_eof. simpl. unfold to_ascii_lowercase. by rewrite length_fmap. Qed.
Lemma low_lookup (s : bytes) i : to_ascii_lowercase s !! i = byte_to_lower <$> s !! i.
Proof. apply list_lookup_fmap. Qed.
Lemma low_current c : current (low c) = byte_to_lower (current c).
Proof. unfold current. simpl. rewrite low_lookup. by destruct (input c !! pos c). Qed.
Lemma low_peek n c : peek n (low c) = byte_to_lower (peek n c).
Proof. unfold peek. simpl. rewrite low_lookup. by destruct (input c !! (pos c + n)). Qed.
Lemma low_bump c : bump (low c) = low (bump c). Proof. done. Qed.
Lemma low_bump_n n c : bump_n n (low c) = low (bump_n n c). Proof. done. Qed.
Lemma low_length (s : bytes) : length (to_ascii_lowercase s) = length s.
Proof. apply length_fmap. Qed.

Definition low1 (m : Exec Cursor) : Exec Cursor := c ← m; Done (low c).
Definition low2 {A} (m : Exec (A * Cursor)) : Exec (A * Cursor) := '(a, c) ← m; Done (a, low c).

Lemma low1_bind {A} (m : Exec Cursor) (k k' : Cursor → Exec A) :
  (∀ c, k (low c) = k' c) → low1 m ≫= k = m ≫= k'.
Proof. intros Hk. by destruct m; simpl. Qed.

Lemma low2_bind1 {A} (m : Exec Cursor) (k : Cursor → Exec (A * Cursor)) :
  low2 (m ≫= k) = m ≫= (λ c, low2 (k c)).
Proof. by destruct m. Qed.
Lemma low1_bind1 (m : Exec Cursor) (k : Cursor → Exec Cursor) :
  low1 (m ≫= k) = m ≫= (λ c, low1 (k c)).
Proof. by destruct m. Qed.
Lemma low2_if {A} (b : bool) (m1 m2 : Exec (A * Cursor)) :
  low2 (if b then m1 else m2) = if b then low2 m1 else low2 m2.
Proof. by destruct b. Qed.
Lemma low_if (b : bool) c1 c2 : low (if b then c1 else c2) = if b then low c1 else low c2.
Proof. by destruct b. Qed.

Lemma low_scan_while p c : caseless p → scan_while p (low c) = low1 (scan_while p c).
Proof.
  intros Hp. unfold scan_while. simpl input. rewrite low_length.
  generalize (S (length (input c))) as n. intros n. revert c.
  induction n as [|n IH]; intros c; simpl; [done|].
  rewrite low_eof, low_current, Hp, low_bump, IH. by destruct (negb (is_eof c) && p (current c)).
Qed.

Ltac low_simp :=
  rewrite ?low_bump, ?low_bump_n, ?low_eof, ?low_current, ?low_peek, ?caseless_whitespace, ?caseless_digit,
    ?caseless_ident_start, ?caseless_hex_digit, ?caseless_exp;
  repeat (rewrite caseless_eqc by reflexivity).

Lemma low_comment c : scan_comment (low c) = low1 (scan_comment c).
Proof. unfold scan_comment. rewrite low_bump_n. apply low_scan_while. intros b. by rewrite caseless_eqc. Qed.

Lemma low_string c : scan_string (low c) = low2 (scan_string c).
Proof.
  unfold scan_string. rewrite low_bump. simpl input. rewrite low_length.
  generalize (S (length (input c))) (bump c). intros n. clear c.
  induction n as [|n IH]; intros c; simpl; [done|].
  low_simp. rewrite !IH. by destruct (is_eof c), (current c =?c "034"), (peek 1 c =?c "034").
Qed.

Lemma low_exponent c : scan_exponent (low c) = low1 (scan_exponent c).
Proof.
  unfold scan_exponent. low_simp. rewrite <- low_if. apply low_scan_while, caseless_digit.
Qed.

Lemma low_exponent_real c :
  (c ← scan_exponent (low c); Done (REAL_LIT, c)) = low2 (c ← scan_exponent c; Done (REAL_LIT, c)).
Proof. rewrite low_exponent, low2_bind1. by apply low1_bind. Qed.

Lemma low_at_c_style start c : at_c_style_radix start (low c) = at_c_style_radix start c.
Proof.
  unfold at_c_style_radix. rewrite low_eof, low_current, low_peek, caseless_radix, caseless_radix_digit.
  simpl. rewrite low_lookup. destruct (input c !! start); simpl; [|done]. by rewrite caseless_eqc.
Qed.

Lemma low_based_loop n r c : scan_based_loop n r (low c) = low2 (scan_based_loop n r c).
Proof.
  revert r c. induction n as [|n IH]; intros r c; simpl; [done|].
  low_simp. rewrite low2_if. by rewrite IH.
Qed.

Lemma low_based_literal c : scan_based_literal (low c) = low2 (scan_based_literal c).
Proof.
  unfold scan_based_literal. rewrite low_bump. simpl input. rewrite low_length, low_based_loop.
  destruct (scan_based_loop _ _ _) as [[r c']| |]; simpl; try done.
  low_simp. rewrite <- low_if.
  generalize (if negb (is_eof c') && (current c' =?c "#") then bump c' else c'). intros c2.
  low_simp. by rewrite low_exponent_real, low2_if.
Qed.

Lemma low_number c : scan_number (low c) = low2 (scan_number c).
Proof.
  unfold scan_number. rewrite (low_scan_while _ _ caseless_digit), low2_bind1. apply low1_bind.
  intros c1. simpl pos. rewrite low_at_c_style, low_bump. low_simp.
  rewrite !low2_if, low_based_literal, low_exponent_real.
  rewrite !(low_scan_while is_digit) by apply caseless_digit.
  rewrite !(low_scan_while is_ident_continue) by apply caseless_ident_continue.
  rewrite (low_scan_while (λ b, is_digit b || (b =?c "_")))
    by (intros b; by rewrite caseless_digit, caseless_eqc).
  rewrite !low2_bind1.
  destruct (at_c_style_radix _ _); [by apply low1_bind|].
  destruct (_ && (current c1 =?c "#")); [done|].
  destruct (_ && negb (peek 1 c1 =?c ".")).
  - apply low1_bind. intros c2. low_simp. by rewrite low_exponent_real, low2_if.
  - destruct (_ && (_ || _)); [done|]. by apply low1_bind.
Qed.

Lemma low_slice s a b : slice (to_ascii_lowercase s) a b = to_ascii_lowercase <$> slice s a b.
Proof.
  assert (Hb : ∀ i, is_char_boundary (to_ascii_lowercase s) i = is_char_boundary s i).
  { intros [|i]; [done|]. unfold is_char_boundary. rewrite low_lookup, low_length.
    destruct (s !! S i); simpl; [|done]. by rewrite caseless_cont. }
  unfold slice. rewrite !Hb. destruct (_ && _); simpl; [|done].
  unfold to_ascii_lowercase. by rewrite <- fmap_drop, <- fmap_take.
Qed.

Lemma low_ident c start : scan_ident_or_keyword (low c) start = low2 (scan_ident_or_keyword c start).
Proof.
  unfold scan_ident_or_keyword.
  rewrite (low_scan_while _ _ caseless_ident_continue), low2_bind1. apply low1_bind. intros c1.
  simpl input. simpl pos. rewrite low_slice. destruct (slice _ _ _); simpl; try done.
  by rewrite to_ascii_lowercase_idem.
Qed.

Lemma low_bump_char c : bump_char (low c) = low1 (bump_char c).
Proof.
  unfold bump_char. simpl input. simpl pos. rewrite low_length, low_slice, low_current, caseless_len.
  destruct (pos c <? length (input c)); [|done]. by destruct (slice _ _ _).
Qed.

Lemma low_scan_token_kind c : scan_token_kind (low c) = low2 (scan_token_kind c).
Proof.
  unfold scan_token_kind. cbv zeta. low_simp.
  rewrite !low2_if, !low2_bind1, low_bump_char, low_comment, low_string, low_number.
  unfold scan_whitespace. rewrite (low_scan_while _ _ caseless_whitespace), low_ident.
  repeat match goal with
  | |- (if ?b then low1 ?m ≫= ?k else _) = _ => destruct b; [by apply low1_bind|]
  | |- (if ?b then _ else _) = _ => destruct b; [solve [done | by destruct (scan_string c) as [[]| |]]|]
  end.
  by apply low1_bind.
Qed.

Lemma low_scan_token c :
  scan_token (low c) = ('(t, c) ← scan_token c; Done (low_token t, low c)).
Proof.
  unfold scan_token, scan_token_of. rewrite low_scan_token_kind.
  destruct (scan_token_kind c) as [[k c']| |]; simpl; try done.
  rewrite low_slice. by destruct (slice _ _ _).
Qed.

(** The lexer does not look at case: lexing a source in lower case gives
    the same kinds with the texts in lower case, or the same failure.  In
    particular keywords, exponents, radix markers and based literals are
    recognised in either case. *)
Theorem lex_case_insensitive s :
  lex (to_ascii_lowercase s) = map low_token <$> lex s.
Proof.
  unfold lex, lex_of. rewrite low_length.
  change (cursor_new (to_ascii_lowercase s)) with (low (cursor_new s)).
  change [] with (map low_token []) at 1.
  generalize (S (length s)) (cursor_new s) (@nil (SyntaxKind * bytes)). intros n.
  induction n as [|n IH]; intros c acc; simpl; [done|]. rewrite low_eof.
  destruct (negb (is_eof c)); [|done]. fold (scan_token (low c)) (scan_token c).
  rewrite low_scan_token. destruct (scan_token c) as [[[k t] c']| |]; simpl; try done.
  rewrite <- IH. f_equal. by rewrite map_app.
Qed.

(** A word, a letter or underscore followed by letters, digits and
    underscores, is one token: the keyword its lower-case form spells, or an
    identifier. *)
Theorem lex_word w :
  (∃ b w', w = b :: w' ∧ is_ident_start b = true) → Forall (λ b, is_ident_continue b = true) w →
  lex w = Done [(match from_keyword (string_of_list_ascii (to_ascii_lowercase w)) with
                 | Some k => k | None => IDENT end, w)].
Proof.
  intros (b & w' & Ew & Hb) Hall.
  assert (Hlen : length w = S (length w')) by (by rewrite Ew).
  assert (Hcur : current (cursor_new w) = b) by (by rewrite Ew).
  assert (Hu : utf8 w).
  { apply utf8_ascii. eapply Forall_impl; [exact Hall|]. apply is_ident_continue_ascii. }
  assert (Hend : scan_while is_ident_continue (bump (cursor_new w)) = Done {| input := w; pos := length w |}).
  { destruct (scan_while_spec is_ident_continue (bump (cursor_new w))) as ([s' p'] & -> & Hi & Hp & Hstop & _);
      simpl in *; [lia|]. subst s'. do 2 f_equal.
    destruct Hstop as [He|Hc]; [unfold is_eof in He; apply Nat.leb_le in He; simpl in He; lia|].
    unfold current in Hc. simpl input in Hc. simpl pos in Hc. destruct (w !! p') as [a|] eqn:E.
    - rewrite Forall_lookup in Hall. by rewrite (Hall _ _ E) in Hc.
    - apply lookup_ge_None in E. simpl in *. lia. }
  assert (Hsl : slice w 0 (length w) = Done w).
  { rewrite slice_utf8; [|lia|lia|done|rewrite drop_all; constructor].
    by rewrite drop_0, Nat.sub_0_r, firstn_all. }
  assert (Hcls : is_whitespace b = false ∧ (b =?c "-") = false ∧ (b =?c "034") = false ∧ is_digit b = false).
  { clear -Hb. revert b Hb. intros [[] [] [] [] [] [] [] []]; vm_compute; intros; split_and!; congruence. }
  destruct Hcls as (H1 & H2 & H3 & H4).
  assert (Hk : scan_token (cursor_new w) = Done ((match from_keyword (string_of_list_ascii (to_ascii_lowercase w)) with
                 | Some k => k | None => IDENT end, w), {| input := w; pos := length w |})).
  { unfold scan_token, scan_token_of, scan_token_kind. rewrite Hcur, H1, H2, H3, H4, Hb. simpl andb. cbv iota. unfold scan_ident_or_keyword. rewrite Hend.
    simpl. rewrite Hsl. simpl. by rewrite Hsl. }
  assert (Hne : is_eof (cursor_new w) = false) by (by rewrite Ew).
  assert (Hfin : is_eof {| input := w; pos := length w |} = true) by (apply Nat.leb_refl).
  unfold lex, lex_of. rewrite Hlen. simpl lex_loop. rewrite Hne. simpl negb. cbv iota. fold (scan_token (cursor_new w)). rewrite Hk. simpl.
  by rewrite Hfin.
Qed.

Lemma lex_word_witness :
  let w := list_ascii_of_string "ImPLementation" in
  lex w = Done [(IMPLEMENTATION_KW, w)].
Proof.
  intros w. rewrite (lex_word w); [done| |].
  - by eexists _, _.
  - repeat constructor.
Defined.
