(* ===== verification/TokenSet.v ===== *)
(** * Token sets

    [crates/spar-parser/src/token_set.rs]: a set of kinds as two 64-bit
    masks, indexed by the discriminant of the kind.  The SysML front end has
    the same structure over its own kinds ([crates/spar-sysml2/src/token_set.rs]). *)
From S2P Require Import Prelude.
From S2P Require Import Vocabulary.
#[local] Open Scope N_scope.

(** crates/spar-parser/src/token_set.rs:8-11 [TokenSet] *)
Record TokenSet := { lo : u64; hi : u64 }.

(** crates/spar-parser/src/token_set.rs:15-15 [TokenSet::EMPTY] *)
Definition EMPTY : TokenSet := {| lo := 0; hi := 0 |}.

Section token_set.
Context {K : Type} {HD : Discriminant K}.

(** crates/spar-parser/src/token_set.rs:20-36 [TokenSet::new] *)
Definition token_set_add (s : TokenSet) (kind : K) : TokenSet :=
  let bit := kind_code kind in
  if bit <? 64 then {| lo := N.lor (lo s) (N.shiftl 1 bit); hi := hi s |}
  else if bit <? 128 then {| lo := lo s; hi := N.lor (hi s) (N.shiftl 1 (bit - 64)) |}
  else s.

(** crates/spar-parser/src/token_set.rs:20-36 [TokenSet::new] *)
Definition token_set_new (kinds : list K) : TokenSet :=
  fold_left token_set_add kinds EMPTY.

(** crates/spar-parser/src/token_set.rs:39-44 [TokenSet::union] *)
Definition token_set_union (a b : TokenSet) : TokenSet :=
  {| lo := N.lor (lo a) (lo b); hi := N.lor (hi a) (hi b) |}.

(** crates/spar-parser/src/token_set.rs:47-56 [TokenSet::contains] *)
Definition contains (s : TokenSet) (kind : K) : bool :=
  let bit := kind_code kind in
  if bit <? 64 then negb (N.land (lo s) (N.shiftl 1 bit) =? 0)
  else if bit <? 128 then negb (N.land (hi s) (N.shiftl 1 (bit - 64)) =? 0)
  else false.

(** ** Membership *)

(** The bit of a kind in the 128-bit word the two masks form. *)
Definition mask (s : TokenSet) (bit : N) : bool :=
  if bit <? 64 then N.testbit (lo s) bit
  else if bit <? 128 then N.testbit (hi s) (bit - 64) else false.

Lemma land_bit x b : negb (N.land x (N.shiftl 1 b) =? 0) = N.testbit x b.
Proof.
  rewrite N.shiftl_1_l. destruct (N.testbit x b) eqn:E.
  - apply negb_true_iff, N.eqb_neq. intros E0. apply (f_equal (λ y, N.testbit y b)) in E0.
    by rewrite N.land_spec, N.pow2_bits_true, E, N.bits_0 in E0.
  - apply negb_false_iff, N.eqb_eq. apply N.bits_inj. intros i.
    rewrite N.land_spec, N.bits_0, N.pow2_bits_eqb. destruct (N.eqb_spec b i) as [->|]; by rewrite ?E, ?andb_false_r.
Qed.

Lemma contains_mask s (k : K) : contains s k = mask s (kind_code k).
Proof. unfold contains, mask. by rewrite !land_bit. Qed.

Lemma mask_add s (k : K) b :
  mask (token_set_add s k) b = mask s b || ((kind_code k =? b) && (b <? 128)).
Proof.
  unfold mask, token_set_add.
  destruct (N.ltb_spec (kind_code k) 64), (N.ltb_spec (kind_code k) 128); simpl; try lia;
  destruct (N.ltb_spec b 64), (N.ltb_spec b 128); simpl; try lia;
  rewrite ?N.lor_spec, ?N.shiftl_1_l, ?N.pow2_bits_eqb, ?andb_true_r, ?andb_false_r, ?orb_false_r;
  destruct (N.eqb_spec (kind_code k) b) as [E|E]; rewrite ?orb_false_r; try done; try lia.
  - f_equal. apply N.eqb_eq. lia.
  - rewrite (proj2 (N.eqb_neq _ _)) by lia. by rewrite orb_false_r.
Qed.

Lemma mask_new (kinds : list K) s b :
  mask (fold_left token_set_add kinds s) b =
  mask s b || (existsb (λ k, kind_code k =? b) kinds && (b <? 128)).
Proof.
  revert s. induction kinds as [|k ks IH]; intros s; simpl; [by rewrite orb_false_r|].
  rewrite IH, mask_add. by destruct (mask s b), (kind_code k =? b), (existsb _ ks), (b <? 128).
Qed.

Lemma contains_EMPTY (k : K) : contains EMPTY k = false.
Proof.
  rewrite contains_mask. unfold mask. simpl. by repeat case_match.
Qed.
End token_set.

(** A token set is the set of the kinds it was built from that have one
    of the first 128 discriminants (every token kind has), and [union] is
    their union: the two-word bitmask loses nothing and adds nothing. *)
Theorem token_set_contains {K} `{Discriminant K} (kinds : list K) k :
  contains (token_set_new kinds) k = existsb (kind_eqb k) kinds && (kind_code k <? 128) ∧
  (∀ kinds', contains (token_set_union (token_set_new kinds) (token_set_new kinds')) k =
    contains (token_set_new kinds) k || contains (token_set_new kinds') k).
Proof.
  assert (Hnew : ∀ ks : list K, contains (token_set_new ks) k = existsb (kind_eqb k) ks && (kind_code k <? 128)).
  { intros ks. rewrite contains_mask. unfold token_set_new. rewrite mask_new.
    assert (mask EMPTY (kind_code k) = false) as ->.
    { unfold mask. simpl. by repeat case_match. }
    simpl. f_equal. induction ks as [|k' ks IH]; simpl; [done|]. rewrite IH. f_equal.
    unfold kind_eqb. apply N.eqb_sym. }
  split; [apply Hnew|]. intros kinds'. rewrite !contains_mask. unfold mask, token_set_union. simpl.
  rewrite !N.lor_spec. by repeat case_match.
Qed.
