(* ===== verification/Diagnostics.v ===== *)
(** * Diagnostics of the analysis passes

    [crates/spar-analysis/src/lib.rs]: what a pass reports, and the loop that
    collects reports. *)
From S2P Require Import Prelude.

(** crates/spar-analysis/src/lib.rs:107-111 [Severity] *)
Inductive Severity := Error | Warning | Info.

(** crates/spar-analysis/src/lib.rs:95-102 [AnalysisDiagnostic] *)
Record AnalysisDiagnostic := {
  severity : Severity;
  message : string;
  path : list string;
  analysis : string;
}.

(** Collect the outcomes of a loop, the first panic ending it. *)
Fixpoint concatM {A B} (f : A → Exec (list B)) (xs : list A) : Exec (list B) :=
  match xs with
  | [] => Done []
  | x :: xs => ys ← f x; zs ← concatM f xs; Done (ys ++ zs)
  end.

Section concatM.
Context {A B : Type} (f : A → Exec (list B)).

(** The loop returns when every iteration does, and reports what they report. *)
Lemma concatM_spec (P : A → B → Prop) xs :
  (∀ x, x ∈ xs → ∃ ys, f x = Done ys ∧ ∀ y, y ∈ ys ↔ P x y) →
  ∃ ys, concatM f xs = Done ys ∧ ∀ y, y ∈ ys ↔ ∃ x, x ∈ xs ∧ P x y.
Proof.
  induction xs as [|x xs IH]; intros H; simpl.
  - exists []. split; [done|]. intros y. split; [by intros ?%not_elem_of_nil|].
    by intros (x & ?%not_elem_of_nil & _).
  - destruct (H x) as (ys & -> & Hy); [by left|]. destruct IH as (zs & -> & Hz).
    { intros x' Hx'. apply H. by right. }
    exists (ys ++ zs). split; [done|]. intros y. rewrite elem_of_app, Hy, Hz.
    setoid_rewrite elem_of_cons. naive_solver.
Qed.
End concatM.

(** A loop that always returns, and what it collects. *)
Lemma concatM_total {A B} (f : A → Exec (list B)) xs :
  (∀ x, x ∈ xs → ∃ ys, f x = Done ys) →
  ∃ ys, concatM f xs = Done ys ∧ ∀ y, y ∈ ys ↔ ∃ x zs, x ∈ xs ∧ f x = Done zs ∧ y ∈ zs.
Proof.
  intros H. destruct (concatM_spec f (λ x y, ∃ zs, f x = Done zs ∧ y ∈ zs) xs) as (ys & Hys & Hy).
  - intros x Hx. destruct (H x Hx) as [zs Hzs]. exists zs. split; [done|]. intros y. split; [eauto|].
    intros (zs' & Hzs' & Hy). congruence.
  - exists ys. split; [done|]. intros y. rewrite Hy. naive_solver.
Qed.

(** What a loop that returned went through. *)
Lemma concatM_Done {A B} (f : A → Exec (list B)) xs ys :
  concatM f xs = Done ys →
  (∀ x, x ∈ xs → ∃ zs, f x = Done zs) ∧
  ∀ y, y ∈ ys ↔ ∃ x zs, x ∈ xs ∧ f x = Done zs ∧ y ∈ zs.
Proof.
  intros H. assert (Ht : ∀ x, x ∈ xs → ∃ zs, f x = Done zs).
  { revert ys H. induction xs as [|x xs IH]; intros ys; [by intros _ ? ?%not_elem_of_nil|]. simpl.
    intros (zs & Hx & (zs' & Hxs & _)%Exec_bind_Done)%Exec_bind_Done x' [->|Hin]%elem_of_cons; eauto. }
  split; [done|]. destruct (concatM_total f xs Ht) as (ys' & H' & Hy). rewrite H in H'.
  by injection H' as <-.
Qed.
