(* ===== verification/Categories.v ===== *)
(** * Component categories

    [crates/spar-parser/src/grammar/categories.rs]: the fourteen categories,
    the two-token lookahead, and the two legality tables the grammar
    consults. *)
From S2P Require Import Prelude.
From S2P Require Import SyntaxKind.

(** crates/spar-parser/src/grammar/categories.rs:99-114 [Category] *)
Inductive Category :=
  | Abstract | Bus | Data | Device | Memory | Process | Processor | Subprogram
  | SubprogramGroup | System | Thread | ThreadGroup | VirtualBus | VirtualProcessor.

#[export] Instance Category_eq_dec : EqDecision Category.
Proof. solve_decision. Defined.

(** crates/spar-parser/src/grammar/categories.rs:118-135 [Category::as_str] *)
Definition category_as_str (c : Category) : string :=
  match c with
  | Abstract => "abstract" | Bus => "bus" | Data => "data" | Device => "device"
  | Memory => "memory" | Process => "process" | Processor => "processor"
  | Subprogram => "subprogram" | SubprogramGroup => "subprogram group" | System => "system"
  | Thread => "thread" | ThreadGroup => "thread group" | VirtualBus => "virtual bus"
  | VirtualProcessor => "virtual processor"
  end%string.

(** crates/spar-parser/src/grammar/categories.rs:145-163 [peek] *)
Definition peek (current next : SyntaxKind) : option Category :=
  match current with
  | ABSTRACT_KW => Some Abstract
  | BUS_KW => Some Bus
  | DATA_KW => Some Data
  | DEVICE_KW => Some Device
  | MEMORY_KW => Some Memory
  | PROCESS_KW => Some Process
  | PROCESSOR_KW => Some Processor
  | SYSTEM_KW => Some System
  | THREAD_KW => if kind_eqb next GROUP_KW then Some ThreadGroup else Some Thread
  | SUBPROGRAM_KW => if kind_eqb next GROUP_KW then Some SubprogramGroup else Some Subprogram
  | VIRTUAL_KW =>
      if kind_eqb next BUS_KW then Some VirtualBus
      else if kind_eqb next PROCESSOR_KW then Some VirtualProcessor
      else None
  | _ => None
  end.

(** crates/spar-parser/src/grammar/categories.rs:168-233 [may_contain] *)
Definition may_contain (container sub : Category) : bool :=
  let allowed :=
    match container with
    | Abstract =>
        [Abstract; Bus; Data; Device; Memory; Process; Processor; Subprogram; SubprogramGroup;
         System; Thread; ThreadGroup; VirtualBus; VirtualProcessor]
    | Bus => [Abstract; VirtualBus]
    | Data => [Abstract; Data; Subprogram]
    | Device => [Abstract; Bus; Data; VirtualBus]
    | Memory => [Abstract; Bus; Memory; VirtualBus]
    | Process => [Abstract; Data; Subprogram; SubprogramGroup; Thread; ThreadGroup]
    | Processor => [Abstract; Bus; Memory; VirtualBus; VirtualProcessor]
    | Subprogram => [Abstract; Data; Subprogram]
    | SubprogramGroup => [Abstract; Data; Subprogram; SubprogramGroup]
    | System =>
        [Abstract; Bus; Data; Device; Memory; Process; Processor; Subprogram; SubprogramGroup;
         System; VirtualBus; VirtualProcessor]
    | Thread => [Abstract; Data; Subprogram; SubprogramGroup]
    | ThreadGroup => [Abstract; Data; Subprogram; SubprogramGroup; Thread; ThreadGroup]
    | VirtualBus => [Abstract; VirtualBus]
    | VirtualProcessor => [Abstract; VirtualBus; VirtualProcessor]
    end in
  bool_decide (sub ∈ allowed).

(** crates/spar-parser/src/grammar/categories.rs:254-259 [FeatureKind] *)
Inductive FeatureKind := BusAccess | Parameter_.

#[export] Instance FeatureKind_eq_dec : EqDecision FeatureKind.
Proof. solve_decision. Defined.

(** crates/spar-parser/src/grammar/categories.rs:262-267 [FeatureKind::as_str] *)
Definition feature_kind_as_str (k : FeatureKind) : string :=
  match k with BusAccess => "bus access" | Parameter_ => "parameter" end%string.

(** crates/spar-parser/src/grammar/categories.rs:271-284 [may_have_feature] *)
Definition may_have_feature (container : Category) (kind : FeatureKind) : bool :=
  match kind with
  | BusAccess =>
      match container with
      | Abstract | Bus | Device | Memory | Processor | System | VirtualBus | VirtualProcessor => true
      | _ => false
      end
  | Parameter_ => match container with Subprogram => true | _ => false end
  end.
