(* ===== verification/CategoryRules.v ===== *)
(** * Category restriction tables

    [crates/spar-hir-def/src/category_rules.rs]: which features and which
    subcomponents each component category may have, and the analysis pass
    [crates/spar-analysis/src/category_check.rs] that applies them to an item
    tree.  The parser has tables of its own ([Categories.may_contain],
    [Categories.may_have_feature]); the theorems say exactly where the two
    disagree. *)
From S2P Require Import Prelude.
From S2P Require Import Diagnostics.
From S2P Require Categories.
Export (hints) Categories.

(** crates/spar-hir-def/src/item_tree/mod.rs:112-127 [ComponentCategory] *)
Inductive ComponentCategory :=
  | System | Process | Thread | ThreadGroup | Processor | VirtualProcessor | Memory | Bus
  | VirtualBus | Device | Subprogram | SubprogramGroup | Data | Abstract.

#[export] Instance ComponentCategory_eq_dec : EqDecision ComponentCategory.
Proof. solve_decision. Defined.

(** crates/spar-hir-def/src/item_tree/mod.rs:130-148 [ComponentCategory::fmt] *)
Definition category_fmt (c : ComponentCategory) : string :=
  match c with
  | System => "system" | Process => "process" | Thread => "thread"
  | ThreadGroup => "thread group" | Processor => "processor"
  | VirtualProcessor => "virtual processor" | Memory => "memory" | Bus => "bus"
  | VirtualBus => "virtual bus" | Device => "device" | Subprogram => "subprogram"
  | SubprogramGroup => "subprogram group" | Data => "data" | Abstract => "abstract"
  end%string.

(** crates/spar-hir-def/src/item_tree/mod.rs:285-296 [FeatureKind] *)
Inductive FeatureKind :=
  | DataPort | EventPort | EventDataPort | Parameter_ | DataAccess | BusAccess
  | SubprogramAccess | SubprogramGroupAccess | FeatureGroup | AbstractFeature.

#[export] Instance FeatureKind_eq_dec : EqDecision FeatureKind.
Proof. solve_decision. Defined.

(** crates/spar-hir-def/src/item_tree/mod.rs:299-312 [FeatureKind::fmt] *)
Definition feature_fmt (k : FeatureKind) : string :=
  match k with
  | DataPort => "data port" | EventPort => "event port" | EventDataPort => "event data port"
  | Parameter_ => "parameter" | DataAccess => "data access" | BusAccess => "bus access"
  | SubprogramAccess => "subprogram access"
  | SubprogramGroupAccess => "subprogram group access" | FeatureGroup => "feature group"
  | AbstractFeature => "abstract feature"
  end%string.

(** ** The tables *)

(** crates/spar-hir-def/src/category_rules.rs:15-26 [ALL_FEATURES] *)
Definition ALL_FEATURES : list FeatureKind :=
  [DataPort; EventPort; EventDataPort; Parameter_; DataAccess; BusAccess; SubprogramAccess;
   SubprogramGroupAccess; FeatureGroup; AbstractFeature].
(** crates/spar-hir-def/src/category_rules.rs:29-35 [PORTS_FG_ABS] *)
Definition PORTS_FG_ABS : list FeatureKind :=
  [DataPort; EventPort; EventDataPort; FeatureGroup; AbstractFeature].
(** crates/spar-hir-def/src/category_rules.rs:39-49 [SYSTEM_FEATURES] *)
Definition SYSTEM_FEATURES : list FeatureKind :=
  [DataPort; EventPort; EventDataPort; DataAccess; BusAccess; SubprogramAccess;
   SubprogramGroupAccess; FeatureGroup; AbstractFeature].
(** crates/spar-hir-def/src/category_rules.rs:51-60 [PROCESS_FEATURES] *)
Definition PROCESS_FEATURES : list FeatureKind :=
  [DataPort; EventPort; EventDataPort; DataAccess; SubprogramAccess;
   SubprogramGroupAccess; FeatureGroup; AbstractFeature].
(** crates/spar-hir-def/src/category_rules.rs:62-72 [THREAD_FEATURES] *)
Definition THREAD_FEATURES : list FeatureKind :=
  [DataPort; EventPort; EventDataPort; DataAccess; SubprogramAccess;
   SubprogramGroupAccess; FeatureGroup; AbstractFeature; Parameter_].
(** crates/spar-hir-def/src/category_rules.rs:74-83 [THREAD_GROUP_FEATURES] *)
Definition THREAD_GROUP_FEATURES : list FeatureKind :=
  [DataPort; EventPort; EventDataPort; DataAccess; SubprogramAccess;
   SubprogramGroupAccess; FeatureGroup; AbstractFeature].
(** crates/spar-hir-def/src/category_rules.rs:85-94 [PROCESSOR_FEATURES] *)
Definition PROCESSOR_FEATURES : list FeatureKind :=
  [DataPort; EventPort; EventDataPort; BusAccess; SubprogramAccess; SubprogramGroupAccess;
   FeatureGroup; AbstractFeature].
(** crates/spar-hir-def/src/category_rules.rs:96-104 [VIRTUAL_PROCESSOR_FEATURES] *)
Definition VIRTUAL_PROCESSOR_FEATURES : list FeatureKind :=
  [DataPort; EventPort; EventDataPort; SubprogramAccess; SubprogramGroupAccess;
   FeatureGroup; AbstractFeature].
(** crates/spar-hir-def/src/category_rules.rs:106-113 [MEMORY_FEATURES] *)
Definition MEMORY_FEATURES : list FeatureKind :=
  [DataPort; EventPort; EventDataPort; BusAccess; FeatureGroup; AbstractFeature].
(** crates/spar-hir-def/src/category_rules.rs:115-122 [BUS_FEATURES] *)
Definition BUS_FEATURES : list FeatureKind :=
  [DataPort; EventPort; EventDataPort; BusAccess; FeatureGroup; AbstractFeature].
(** crates/spar-hir-def/src/category_rules.rs:124-124 [VIRTUAL_BUS_FEATURES] *)
Definition VIRTUAL_BUS_FEATURES : list FeatureKind :=
  PORTS_FG_ABS.
(** crates/spar-hir-def/src/category_rules.rs:126-136 [DEVICE_FEATURES] *)
Definition DEVICE_FEATURES : list FeatureKind :=
  [DataPort; EventPort; EventDataPort; DataAccess; BusAccess; SubprogramAccess;
   SubprogramGroupAccess; FeatureGroup; AbstractFeature].
(** crates/spar-hir-def/src/category_rules.rs:138-147 [SUBPROGRAM_FEATURES] *)
Definition SUBPROGRAM_FEATURES : list FeatureKind :=
  [DataPort; EventPort; EventDataPort; DataAccess; SubprogramAccess; FeatureGroup;
   AbstractFeature; Parameter_].
(** crates/spar-hir-def/src/category_rules.rs:149-157 [SUBPROGRAM_GROUP_FEATURES] *)
Definition SUBPROGRAM_GROUP_FEATURES : list FeatureKind :=
  [DataPort; EventPort; EventDataPort; SubprogramAccess; SubprogramGroupAccess;
   FeatureGroup; AbstractFeature].
(** crates/spar-hir-def/src/category_rules.rs:159-167 [DATA_FEATURES] *)
Definition DATA_FEATURES : list FeatureKind :=
  [DataPort; EventPort; EventDataPort; DataAccess; SubprogramAccess; FeatureGroup;
   AbstractFeature].
(** crates/spar-hir-def/src/category_rules.rs:171-186 [ALL_CATEGORIES] *)
Definition ALL_CATEGORIES : list ComponentCategory :=
  [System; Process; Thread; ThreadGroup; Processor; VirtualProcessor; Memory; Bus;
   VirtualBus; Device; Subprogram; SubprogramGroup; Data; Abstract].
(** crates/spar-hir-def/src/category_rules.rs:188-199 [SYSTEM_SUBCOMPONENTS] *)
Definition SYSTEM_SUBCOMPONENTS : list ComponentCategory :=
  [System; Process; Device; Memory; Bus; Processor; VirtualProcessor; VirtualBus; Data;
   Abstract].
(** crates/spar-hir-def/src/category_rules.rs:201-208 [PROCESS_SUBCOMPONENTS] *)
Definition PROCESS_SUBCOMPONENTS : list ComponentCategory :=
  [Thread; ThreadGroup; Data; Subprogram; SubprogramGroup; Abstract].
(** crates/spar-hir-def/src/category_rules.rs:210-210 [THREAD_SUBCOMPONENTS] *)
Definition THREAD_SUBCOMPONENTS : list ComponentCategory :=
  [Data; Subprogram; Abstract].
(** crates/spar-hir-def/src/category_rules.rs:212-213 [THREAD_GROUP_SUBCOMPONENTS] *)
Definition THREAD_GROUP_SUBCOMPONENTS : list ComponentCategory :=
  [Thread; ThreadGroup; Data; Subprogram; Abstract].
(** crates/spar-hir-def/src/category_rules.rs:215-216 [PROCESSOR_SUBCOMPONENTS] *)
Definition PROCESSOR_SUBCOMPONENTS : list ComponentCategory :=
  [Memory; Bus; VirtualProcessor; VirtualBus; Abstract].
(** crates/spar-hir-def/src/category_rules.rs:218-219 [VIRTUAL_PROCESSOR_SUBCOMPONENTS] *)
Definition VIRTUAL_PROCESSOR_SUBCOMPONENTS : list ComponentCategory :=
  [VirtualProcessor; VirtualBus; Abstract].
(** crates/spar-hir-def/src/category_rules.rs:221-221 [MEMORY_SUBCOMPONENTS] *)
Definition MEMORY_SUBCOMPONENTS : list ComponentCategory :=
  [Memory; Bus; Abstract].
(** crates/spar-hir-def/src/category_rules.rs:223-223 [BUS_SUBCOMPONENTS] *)
Definition BUS_SUBCOMPONENTS : list ComponentCategory :=
  [VirtualBus; Abstract].
(** crates/spar-hir-def/src/category_rules.rs:225-225 [VIRTUAL_BUS_SUBCOMPONENTS] *)
Definition VIRTUAL_BUS_SUBCOMPONENTS : list ComponentCategory :=
  [VirtualBus; Abstract].
(** crates/spar-hir-def/src/category_rules.rs:227-227 [DEVICE_SUBCOMPONENTS] *)
Definition DEVICE_SUBCOMPONENTS : list ComponentCategory :=
  [Bus; VirtualBus; Data; Abstract].
(** crates/spar-hir-def/src/category_rules.rs:229-229 [SUBPROGRAM_SUBCOMPONENTS] *)
Definition SUBPROGRAM_SUBCOMPONENTS : list ComponentCategory :=
  [Data; Abstract].
(** crates/spar-hir-def/src/category_rules.rs:231-232 [SUBPROGRAM_GROUP_SUBCOMPONENTS] *)
Definition SUBPROGRAM_GROUP_SUBCOMPONENTS : list ComponentCategory :=
  [Subprogram; SubprogramGroup; Data; Abstract].
(** crates/spar-hir-def/src/category_rules.rs:234-234 [DATA_SUBCOMPONENTS] *)
Definition DATA_SUBCOMPONENTS : list ComponentCategory :=
  [Data; Subprogram; Abstract].

(** crates/spar-hir-def/src/category_rules.rs:239-256 [allowed_features] *)
Definition allowed_features (category : ComponentCategory) : list FeatureKind :=
  match category with
  | System => SYSTEM_FEATURES
  | Process => PROCESS_FEATURES
  | Thread => THREAD_FEATURES
  | ThreadGroup => THREAD_GROUP_FEATURES
  | Processor => PROCESSOR_FEATURES
  | VirtualProcessor => VIRTUAL_PROCESSOR_FEATURES
  | Memory => MEMORY_FEATURES
  | Bus => BUS_FEATURES
  | VirtualBus => VIRTUAL_BUS_FEATURES
  | Device => DEVICE_FEATURES
  | Subprogram => SUBPROGRAM_FEATURES
  | SubprogramGroup => SUBPROGRAM_GROUP_FEATURES
  | Data => DATA_FEATURES
  | Abstract => ALL_FEATURES
  end.

(** crates/spar-hir-def/src/category_rules.rs:259-276 [allowed_subcomponents] *)
Definition allowed_subcomponents (category : ComponentCategory) : list ComponentCategory :=
  match category with
  | System => SYSTEM_SUBCOMPONENTS
  | Process => PROCESS_SUBCOMPONENTS
  | Thread => THREAD_SUBCOMPONENTS
  | ThreadGroup => THREAD_GROUP_SUBCOMPONENTS
  | Processor => PROCESSOR_SUBCOMPONENTS
  | VirtualProcessor => VIRTUAL_PROCESSOR_SUBCOMPONENTS
  | Memory => MEMORY_SUBCOMPONENTS
  | Bus => BUS_SUBCOMPONENTS
  | VirtualBus => VIRTUAL_BUS_SUBCOMPONENTS
  | Device => DEVICE_SUBCOMPONENTS
  | Subprogram => SUBPROGRAM_SUBCOMPONENTS
  | SubprogramGroup => SUBPROGRAM_GROUP_SUBCOMPONENTS
  | Data => DATA_SUBCOMPONENTS
  | Abstract => ALL_CATEGORIES
  end.

(** crates/spar-hir-def/src/category_rules.rs:279-281 [is_feature_allowed] *)
Definition is_feature_allowed (category : ComponentCategory) (feature : FeatureKind) : bool :=
  bool_decide (feature ∈ allowed_features category).

(** crates/spar-hir-def/src/category_rules.rs:284-286 [is_subcomponent_allowed] *)
Definition is_subcomponent_allowed (parent child : ComponentCategory) : bool :=
  bool_decide (child ∈ allowed_subcomponents parent).

(** ** The parser's tables against these *)

Definition to_component_category (c : Categories.Category) : ComponentCategory :=
  match c with
  | Categories.Abstract => Abstract | Categories.Bus => Bus | Categories.Data => Data
  | Categories.Device => Device | Categories.Memory => Memory
  | Categories.Process => Process | Categories.Processor => Processor
  | Categories.Subprogram => Subprogram | Categories.SubprogramGroup => SubprogramGroup
  | Categories.System => System | Categories.Thread => Thread
  | Categories.ThreadGroup => ThreadGroup | Categories.VirtualBus => VirtualBus
  | Categories.VirtualProcessor => VirtualProcessor
  end.
Definition to_feature_kind (k : Categories.FeatureKind) : FeatureKind :=
  match k with Categories.BusAccess => BusAccess | Categories.Parameter_ => Parameter_ end.

(** What the parser accepts and [category_check] then reports. *)
Definition parser_only_subcomponents : list (Categories.Category * Categories.Category) :=
  [(Categories.Memory, Categories.VirtualBus); (Categories.Subprogram, Categories.Subprogram);
   (Categories.System, Categories.Subprogram); (Categories.System, Categories.SubprogramGroup);
   (Categories.Thread, Categories.SubprogramGroup);
   (Categories.ThreadGroup, Categories.SubprogramGroup)].
Definition parser_only_features : list (Categories.Category * Categories.FeatureKind) :=
  [(Categories.VirtualBus, Categories.BusAccess);
   (Categories.VirtualProcessor, Categories.BusAccess)].
(** What the parser rejects although the tables of [category_check] allow it. *)
Definition checker_only_features : list (Categories.Category * Categories.FeatureKind) :=
  [(Categories.Abstract, Categories.Parameter_); (Categories.Thread, Categories.Parameter_)].

(** C14: The parser's legality tables and those of [category_check], kept
    apart in the code, compared entry by entry: every containment that
    [is_subcomponent_allowed] allows is accepted by the parser, which accepts
    six more; on the two feature kinds the parser checks, each side accepts
    two (category, feature) pairs that the other rejects. *)
Theorem legality_tables_compared p s k :
  let cc := to_component_category in
  (is_subcomponent_allowed (cc p) (cc s) = true →
     Categories.may_contain p s = true) ∧
  (Categories.may_contain p s = true ↔
     is_subcomponent_allowed (cc p) (cc s) = true ∨ (p, s) ∈ parser_only_subcomponents) ∧
  (Categories.may_have_feature p k = true ∧
     is_feature_allowed (cc p) (to_feature_kind k) = false ↔ (p, k) ∈ parser_only_features) ∧
  (Categories.may_have_feature p k = false ∧
     is_feature_allowed (cc p) (to_feature_kind k) = true ↔ (p, k) ∈ checker_only_features).
Proof.
  intros cc. assert (Hs : ∀ b1 b2 (P : Prop) `{Decision P}, implb b1 b2 && eqb b2 (b1 || bool_decide P) = true →
    (b1 = true → b2 = true) ∧ (b2 = true ↔ b1 = true ∨ P)).
  { intros [] [] P ?; case_bool_decide; simpl; naive_solver. }
  assert (Hf : ∀ b1 b2 (P : Prop) `{Decision P}, eqb (b1 && negb b2) (bool_decide P) = true →
    (b1 = true ∧ b2 = false ↔ P)).
  { intros [] [] P ?; case_bool_decide; simpl; naive_solver. }
  assert (H4 : ∀ A B C D : Prop, (A ∧ B) → C → D → A ∧ B ∧ C ∧ D) by naive_solver.
  refine (H4 _ _ _ _ _ _ _); [unshelve eapply Hs; try apply _; by destruct p, s| |].
  - unshelve eapply Hf; try apply _; by destruct p, k.
  - rewrite (and_comm _ (_ = true)). unshelve eapply Hf; try apply _; by destruct p, k.
Qed.
