(* ===== verification/Names.v ===== *)
(** * Names and strings of the model layer

    [crates/spar-hir-def/src/name.rs] and the part of Rust's [str] the model
    layer uses: ASCII case folding, [trim], [join].  A [String] is the
    standard library's [string], the list of its UTF-8 bytes. *)
From S2P Require Import Prelude.
From S2P Require Import Text.
From S2P Require Import BTree.
From stdpp Require Import strings.
#[local] Open Scope string_scope.

(** ** Strings *)

(** [str::to_ascii_lowercase]. *)
Fixpoint to_ascii_lowercase (s : string) : string :=
  match s with
  | "" => ""
  | String b s => String (byte_to_lower b) (to_ascii_lowercase s)
  end.

(** [str::eq_ignore_ascii_case]. *)
Definition eq_ignore_ascii_case (a b : string) : bool :=
  bool_decide (to_ascii_lowercase a = to_ascii_lowercase b).

(** [[String]::join]. *)
Fixpoint str_join (sep : string) (xs : list string) : string :=
  match xs with
  | [] => ""
  | [x] => x
  | x :: xs => x +:+ sep +:+ str_join sep xs
  end.

(** The UTF-8 encodings of the characters [char::is_whitespace] accepts. *)
Definition whitespace : list (list N) :=
  [[9]; [10]; [11]; [12]; [13]; [32]; [194; 133]; [194; 160]; [225; 154; 128];
   [226; 128; 128]; [226; 128; 129]; [226; 128; 130]; [226; 128; 131]; [226; 128; 132];
   [226; 128; 133]; [226; 128; 134]; [226; 128; 135]; [226; 128; 136]; [226; 128; 137];
   [226; 128; 138]; [226; 128; 168]; [226; 128; 169]; [226; 128; 175]; [226; 129; 159];
   [227; 128; 128]]%N.

Fixpoint strip (p : list N) (s : bytes) : option bytes :=
  match p, s with
  | [], _ => Some s
  | n :: p, b :: s => if (byte_code b =? n)%N then strip p s else None
  | _ :: _, [] => None
  end.

(** What remains when the text starts with one of the encodings. *)
Fixpoint strip_any (ps : list (list N)) (s : bytes) : option bytes :=
  match ps with
  | [] => None
  | p :: ps => match strip p s with Some s' => Some s' | None => strip_any ps s end
  end.

Fixpoint strip_all (fuel : nat) (ps : list (list N)) (s : bytes) : bytes :=
  match fuel with
  | O => s
  | S n => match strip_any ps s with Some s' => strip_all n ps s' | None => s end
  end.

Definition trim_bytes (s : bytes) : bytes :=
  let s := strip_all (length s) whitespace s in
  rev (strip_all (length s) (rev (A:=N) <$> whitespace) (rev s)).

(** [str::trim]. *)
Definition trim (s : string) : string :=
  string_of_list_ascii (trim_bytes (list_ascii_of_string s)).

#[export] Instance string_key : KeyOrder string.
Proof.
  refine {| key_cmp := String.compare |}.
  - split; [apply String.compare_eq_iff|intros ->]. induction b as [|c b IH]; [done|].
    simpl. unfold Ascii.compare. by rewrite N.compare_refl.
  - intros a b. apply String.compare_antisym.
  - induction a as [|x a IH]; intros [|y b] [|z c]; simpl; try done.
    unfold Ascii.compare.
    destruct (N.compare_spec (N_of_ascii x) (N_of_ascii y)) as [E1|E1|E1],
      (N.compare_spec (N_of_ascii y) (N_of_ascii z)) as [E2|E2|E2]; try done.
    + rewrite E1, E2, N.compare_refl. apply IH.
    + intros _ _. rewrite E1. by apply N.compare_lt_iff in E2 as ->.
    + intros _ _. rewrite <- E2. by apply N.compare_lt_iff in E1 as ->.
    + intros _ _. pose proof (N.lt_trans _ _ _ E1 E2) as E3. by apply N.compare_lt_iff in E3 as ->.
Defined.

(** ** Names *)

(** crates/spar-hir-def/src/name.rs:12-12 [Name] *)
Definition Name : Type := string.

(** crates/spar-hir-def/src/name.rs:24-26 [Name::eq_ci] *)
Definition eq_ci (a b : Name) : bool := eq_ignore_ascii_case a b.

(** crates/spar-hir-def/src/resolver.rs:95-95 [CiName] *)
Definition CiName : Type := string.

(** crates/spar-hir-def/src/resolver.rs:98-100 [CiName::new] *)
Definition ci (n : Name) : CiName := to_ascii_lowercase n.

(** crates/spar-hir-def/src/name.rs:55-62 [ClassifierRef] *)
Record ClassifierRef := {
  package : option Name;
  type_name : Name;
  impl_name : option Name;
}.

(** crates/spar-hir-def/src/name.rs:90-92 [ClassifierRef::is_implementation] *)
Definition is_implementation (r : ClassifierRef) : bool :=
  match impl_name r with Some _ => true | None => false end.

(** crates/spar-hir-def/src/name.rs:96-105 [ClassifierRef::fmt] *)
Definition classifier_fmt (r : ClassifierRef) : string :=
  match package r with Some pkg => pkg +:+ "::" | None => "" end +:+ type_name r +:+
  match impl_name r with Some imp => "." +:+ imp | None => "" end.

(** crates/spar-hir-def/src/name.rs:110-115 [PropertyRef] *)
Record PropertyRef := { property_set : option Name; property_name : Name }.

#[export] Instance ClassifierRef_eq_dec : EqDecision ClassifierRef.
Proof. solve_decision. Defined.
#[export] Instance PropertyRef_eq_dec : EqDecision PropertyRef.
Proof. solve_decision. Defined.

(** ** Facts *)

Lemma eq_ci_spec a b : eq_ci a b = true ↔ ci a = ci b.
Proof. apply bool_decide_eq_true. Qed.

Lemma eq_ci_refl a : eq_ci a a = true.
Proof. by apply eq_ci_spec. Qed.

Lemma eq_ci_sym a b : eq_ci a b = eq_ci b a.
Proof. unfold eq_ci, eq_ignore_ascii_case. apply bool_decide_ext. split; done. Qed.

Lemma byte_to_lower_idemp b : byte_to_lower (byte_to_lower b) = byte_to_lower b.
Proof. destruct b as [[] [] [] [] [] [] [] []]; vm_compute; reflexivity. Qed.

Lemma ci_idemp n : ci (ci n) = ci n.
Proof. unfold ci. induction n as [|b n IH]; simpl; [done|]. by rewrite byte_to_lower_idemp, IH. Qed.

Lemma eq_ci_ci n : eq_ci (ci n) n = true.
Proof. apply eq_ci_spec, ci_idemp. Qed.

#[export] Hint Resolve eq_ci_refl : spar.
#[export] Hint Rewrite ci_idemp : spar.

(** ** More of [str] *)

Fixpoint contains_char (c : ascii) (s : string) : bool :=
  match s with "" => false | String b s => Ascii.eqb b c || contains_char c s end.

(** [s.matches(c).count()] for a character. *)
Fixpoint count_char (c : ascii) (s : string) : nat :=
  match s with "" => 0 | String b s => (if Ascii.eqb b c then 1 else 0) + count_char c s end.

(** [str::replace] of one character by another. *)
Fixpoint replace_char (c d : ascii) (s : string) : string :=
  match s with "" => "" | String b s => String (if Ascii.eqb b c then d else b) (replace_char c d s) end.

(** The text before the first [c], the whole text when there is none. *)
Fixpoint before_char (c : ascii) (s : string) : string :=
  match s with "" => "" | String b s => if Ascii.eqb b c then "" else String b (before_char c s) end.

(** [str::split] on the characters that satisfy [p]. *)
Fixpoint split_on (p : ascii → bool) (s : string) : list string :=
  match s with
  | "" => [""]
  | String b s =>
      if p b then "" :: split_on p s
      else match split_on p s with
           | x :: xs => String b x :: xs
           | [] => [String b ""]
           end
  end.

(** [str::ends_with]. *)
Definition ends_with (s suffix : string) : bool :=
  (String.length suffix <=? String.length s)%nat &&
  bool_decide (String.substring (String.length s - String.length suffix) (String.length suffix) s = suffix).

(** [str::get(..n)] and [str::get(n..)]: nothing off a character boundary. *)
Definition str_get (s : string) (n : nat) : option (string * string) :=
  let bs := list_ascii_of_string s in
  if (n <=? length bs)%nat && is_char_boundary bs n then
    Some (string_of_list_ascii (take n bs), string_of_list_ascii (drop n bs))
  else None.

(** The pieces between the separators, trimmed, the empty ones left out. *)
Definition segments (p : ascii → bool) (s : string) : list string :=
  List.filter (λ x, negb (bool_decide (x = ""))) (trim <$> split_on p s).
