(* ===== verification/PropertyExpr.v ===== *)
(** * Property expressions

    [crates/spar-hir-def/src/item_tree/mod.rs] (the expression and type
    trees), [crates/spar-hir-def/src/property_arith.rs] (arithmetic is
    rejected) and [crates/spar-hir-def/src/property_eval.rs] ([value()]
    references).  Following a reference recurses on the expression it finds,
    with no guard against a cycle: the recursion runs on fuel, and the
    theorem says exactly when it returns. *)
From S2P Require Import Prelude.
From S2P Require Import Names.
From S2P Require Import CategoryRules.
From stdpp Require Import sets.
#[local] Open Scope string_scope.

(** crates/spar-hir-def/src/item_tree/mod.rs:613-618 [BinaryOpKind] *)
Inductive BinaryOpKind := Add | Sub | Mul | Div.

(** crates/spar-hir-def/src/item_tree/mod.rs:567-609 [PropertyExpr]: integers
    are [i64]. *)
Inductive PropertyExpr :=
  | Integer (v : Z) (unit : option Name)
  | Real (v : string) (unit : option Name)
  | StringLit (s : string)
  | Boolean (b : bool)
  | Enum (n : Name)
  | List_ (items : list PropertyExpr)
  | Record_ (fields : list (Name * PropertyExpr))
  | Range_ (min max : PropertyExpr) (delta : option PropertyExpr)
  | ClassifierValue (c : ClassifierRef)
  | ReferenceValue (s : string)
  | ComputedValue (n : Name)
  | UnitValue (inner : PropertyExpr) (unit : Name)
  | BinaryOp (op : BinaryOpKind) (lhs rhs : PropertyExpr)
  | ValueRef (n : Name)
  | Opaque (s : string).

(** Induction through the lists and the optional delta. *)
Lemma PropertyExpr_nested_ind (P : PropertyExpr → Prop) :
  (∀ v u, P (Integer v u)) → (∀ v u, P (Real v u)) → (∀ s, P (StringLit s)) →
  (∀ b, P (Boolean b)) → (∀ n, P (Enum n)) →
  (∀ items, Forall P items → P (List_ items)) →
  (∀ fields, Forall (λ f, P f.2) fields → P (Record_ fields)) →
  (∀ min max delta, P min → P max → from_option P True delta → P (Range_ min max delta)) →
  (∀ c, P (ClassifierValue c)) → (∀ s, P (ReferenceValue s)) → (∀ n, P (ComputedValue n)) →
  (∀ e u, P e → P (UnitValue e u)) → (∀ op l r, P l → P r → P (BinaryOp op l r)) →
  (∀ n, P (ValueRef n)) → (∀ s, P (Opaque s)) → ∀ e, P e.
Proof.
  intros H1 H2 H3 H4 H5 Hl Hr Hg H6 H7 H8 Hu Hb H9 H10. fix IH 1.
  intros [v u|v u|s|b|n|items|fields|min max delta|c|s|n|e u|op l r|n|s].
  - apply H1.
  - apply H2.
  - apply H3.
  - apply H4.
  - apply H5.
  - apply Hl. induction items as [|e es IHe]; constructor; [apply IH|exact IHe].
  - apply Hr. induction fields as [|[n e] fs IHf]; constructor; [apply IH|exact IHf].
  - apply Hg; [apply IH..|]. destruct delta as [d|]; [apply IH|exact I].
  - apply H6.
  - apply H7.
  - apply H8.
  - apply Hu, IH.
  - apply Hb; apply IH.
  - apply H9.
  - apply H10.
Qed.

(** crates/spar-hir-def/src/property_arith.rs:39-50 [is_arithmetic] *)
Fixpoint is_arithmetic (e : PropertyExpr) : bool :=
  match e with
  | BinaryOp _ _ _ => true
  | List_ items => existsb is_arithmetic items
  | Record_ fields => existsb (λ f, is_arithmetic f.2) fields
  | Range_ min max delta =>
      is_arithmetic min || is_arithmetic max ||
      match delta with Some d => is_arithmetic d | None => false end
  | UnitValue inner _ => is_arithmetic inner
  | _ => false
  end.

(** crates/spar-hir-def/src/item_tree/mod.rs:734-742 [ModalPropertyValueItem] *)
Record ModalPropertyValueItem := {
  mpv_value : string;
  mpv_typed_value : option PropertyExpr;
  mpv_in_modes : list Name;
}.

(** crates/spar-hir-def/src/item_tree/mod.rs:707-730 [PropertyAssociationItem] *)
Record PropertyAssociationItem := {
  pa_name : PropertyRef;
  pa_value : string;
  pa_typed_value : option PropertyExpr;
  pa_is_append : bool;
  pa_applies_to : option string;
  pa_in_modes : list Name;
  pa_modal_values : list ModalPropertyValueItem;
}.

(** crates/spar-hir-def/src/item_tree/mod.rs:622-659 [PropertyTypeDef] *)
Inductive PropertyTypeDef :=
  | AadlInteger (range : option (Z * Z)) (units : option Name)
  | AadlReal (range : option (string * string)) (units : option Name)
  | AadlString
  | AadlBoolean
  | Enumeration (variants : list Name)
  | RangeOf (inner : PropertyTypeDef)
  | ClassifierType (category : option ComponentCategory)
  | ReferenceType (category : option ComponentCategory)
  | RecordType (fields : list (Name * PropertyTypeDef))
  | TypeRef (n : Name)
  | ListOf (elem : PropertyTypeDef)
  | UnitsType (units : list (Name * option (Name * Z))).

(** crates/spar-hir-def/src/item_tree/mod.rs:675-685 [AppliesToKind] *)
Inductive AppliesToKind :=
  | AppliesToAll
  | AppliesToCategory (c : ComponentCategory)
  | AppliesToFeature (k : FeatureKind)
  | AppliesToConnection | AppliesToFlow | AppliesToMode | AppliesToPort | AppliesToAccess
  | AppliesToNamed (n : Name).

(** crates/spar-hir-def/src/item_tree/mod.rs:663-671 [PropertyDefItem] *)
Record PropertyDefItem := {
  pd_name : Name;
  pd_type_def : option PropertyTypeDef;
  pd_default_value : option PropertyExpr;
  pd_applies_to : list AppliesToKind;
}.

(** ** References *)
Section eval.
Context (associations : list PropertyAssociationItem) (definitions : list PropertyDefItem).

(** crates/spar-hir-def/src/property_eval.rs:33-46 [resolve_property_expr]: what
    a reference stands for, the first association of that name if it has a
    typed value, otherwise the default of the first definition. *)
Definition referenced (ref_name : Name) : option PropertyExpr :=
  match List.find (λ a, eq_ci (property_name (pa_name a)) ref_name) associations ≫= pa_typed_value with
  | Some typed => Some typed
  | None => List.find (λ d, eq_ci (pd_name d) ref_name) definitions ≫= pd_default_value
  end.

(** crates/spar-hir-def/src/property_eval.rs:27-85 [resolve_property_expr]: the
    fuel is the depth of the recursion. *)
Fixpoint resolve_property_expr (fuel : nat) (e : PropertyExpr) : Exec PropertyExpr :=
  match fuel with
  | O => Stuck
  | S n =>
      let resolve := resolve_property_expr n in
      match e with
      | ComputedValue r | ValueRef r =>
          match referenced r with
          | Some target => resolve target
          | None => Done e
          end
      | List_ items => items' ← mapM resolve items; Done (List_ items')
      | Record_ fields =>
          fields' ← mapM (λ f, v ← resolve f.2; Done (f.1, v)) fields; Done (Record_ fields')
      | Range_ min max delta =>
          min' ← resolve min;
          max' ← resolve max;
          delta' ← match delta with
                   | Some d => d' ← resolve d; Done (Some d')
                   | None => Done None
                   end;
          Done (Range_ min' max' delta')
      | UnitValue inner unit => inner' ← resolve inner; Done (UnitValue inner' unit)
      | BinaryOp op lhs rhs =>
          lhs' ← resolve lhs; rhs' ← resolve rhs; Done (BinaryOp op lhs' rhs')
      | _ => Done e
      end
  end.

(** crates/spar-hir-def/src/property_eval.rs:93-113 [lookup_property] *)
Definition lookup_property (fuel : nat) (prop_name : Name) : Exec (option PropertyExpr) :=
  match referenced prop_name with
  | Some target => v ← resolve_property_expr fuel target; Done (Some v)
  | None => Done None
  end.
End eval.

(** crates/spar-hir-def/src/property_eval.rs:193-201 [get_record_field] *)
Definition get_record_field (e : PropertyExpr) (field_name : string) : option PropertyExpr :=
  match e with
  | Record_ fields => snd <$> List.find (λ f, eq_ignore_ascii_case f.1 field_name) fields
  | _ => None
  end.

(** ** When property references resolve

    The recursion of [resolve_property_expr] returns exactly when the
    references it starts from do not lead into a cycle, and what it returns
    contains no reference that stands for anything. *)
#[local] Close Scope string_scope.

(** The references that occur in an expression. *)
Fixpoint refs (e : PropertyExpr) : list Name :=
  match e with
  | ComputedValue r | ValueRef r => [r]
  | List_ items => i ← items; refs i
  | Record_ fields => f ← fields; refs f.2
  | Range_ min max delta => refs min ++ refs max ++ match delta with Some d => refs d | None => [] end
  | UnitValue inner _ => refs inner
  | BinaryOp _ lhs rhs => refs lhs ++ refs rhs
  | _ => []
  end.

Section resolve.
Context (associations : list PropertyAssociationItem) (definitions : list PropertyDefItem).
Notation referenced := (referenced associations definitions).
Notation resolve := (resolve_property_expr associations definitions).

(** [r'] is met when [r] is followed. *)
Definition depends (r' r : Name) : Prop := ∃ t, referenced r = Some t ∧ r' ∈ refs t.

(** No reference of the expression stands for anything. *)
Definition settled (e : PropertyExpr) : Prop := ∀ r, r ∈ refs e → referenced r = None.

Lemma resolve_fuel n m e v : resolve n e = Done v → n ≤ m → resolve m e = Done v.
Proof.
  revert m e v. induction n as [|n IH]; intros m e v; [done|]. destruct m as [|m]; [lia|].
  intros H Hle. assert (Hm : ∀ e v, resolve n e = Done v → resolve m e = Done v) by (intros; apply IH; [done|lia]).
  destruct e as [ | | | | |items|fields|min max delta| | |r|e u|op l r|r| ]; simpl in *; try done.
  - apply Exec_bind_Done in H as (is' & H & Hv). apply mapM_Done in H.
    assert (mapM (resolve m) items = Done is') as ->; [|done].
    apply mapM_Done. eapply Forall2_impl; [exact H|]. auto.
  - apply Exec_bind_Done in H as (fs' & H & Hv). apply mapM_Done in H.
    set (g := λ f : Name * PropertyExpr, v ← resolve m f.2; Done (f.1, v)).
    assert (mapM g fields = Done fs') as ->; [|done].
    apply mapM_Done. eapply Forall2_impl; [exact H|]. intros f f' Hf. unfold g. simpl in Hf.
    apply Exec_bind_Done in Hf as (x & Hx & [= <-]). by rewrite (Hm _ _ Hx).
  - apply Exec_bind_Done in H as (a & Ha & (b & Hb & (c & Hc & [= <-])%Exec_bind_Done)%Exec_bind_Done).
    rewrite (Hm _ _ Ha). simpl. rewrite (Hm _ _ Hb). simpl. destruct delta as [d|]; simpl in Hc |- *.
    + apply Exec_bind_Done in Hc as (d' & Hd & [= <-]). by rewrite (Hm _ _ Hd).
    + by injection Hc as <-.
  - destruct (referenced r); [by apply Hm|done].
  - apply Exec_bind_Done in H as (a & Ha & [= <-]). by rewrite (Hm _ _ Ha).
  - apply Exec_bind_Done in H as (a & Ha & (b & Hb & [= <-])%Exec_bind_Done).
    rewrite (Hm _ _ Ha). simpl. by rewrite (Hm _ _ Hb).
  - destruct (referenced r); [by apply Hm|done].
Qed.

(** ** One level of the recursion *)

(** The reference an expression is, and the expressions it is made of. *)
Definition as_ref (e : PropertyExpr) : option Name :=
  match e with ComputedValue r | ValueRef r => Some r | _ => None end.

Definition children (e : PropertyExpr) : list PropertyExpr :=
  match e with
  | List_ items => items
  | Record_ fields => fields.*2
  | Range_ min max delta => min :: max :: option_list delta
  | UnitValue inner _ => [inner]
  | BinaryOp _ lhs rhs => [lhs; rhs]
  | _ => []
  end.

Lemma refs_children e r : as_ref e = None → r ∈ refs e ↔ ∃ c, c ∈ children e ∧ r ∈ refs c.
Proof.
  destruct e as [ | | | | |items|fields|min max delta| | | |e u|op x y| | ]; simpl; intros [=];
    try (split; [by intros ?%not_elem_of_nil|by intros (? & ?%not_elem_of_nil & _)]).
  - rewrite list_elem_of_bind. naive_solver.
  - rewrite list_elem_of_bind. setoid_rewrite list_elem_of_fmap. naive_solver.
  - destruct delta; set_solver.
  - set_solver.
  - set_solver.
Qed.

Lemma resolve_children n e v :
  as_ref e = None → resolve (S n) e = Done v →
  as_ref v = None ∧ Forall2 (λ c c', resolve n c = Done c') (children e) (children v).
Proof.
  destruct e as [ | | | | |items|fields|min max delta| | | |e u|op x y| | ]; simpl; intros [=] H;
    try (by simplify_eq/=).
  - apply Exec_bind_Done in H as (is' & H%mapM_Done & [= <-]). done.
  - apply Exec_bind_Done in H as (fs' & H%mapM_Done & [= <-]). split; [done|]. simpl.
    apply Forall2_fmap. eapply Forall2_impl; [exact H|]. intros f f' Hf. simpl in Hf.
    by apply Exec_bind_Done in Hf as (x & Hx & [= <-]).
  - apply Exec_bind_Done in H as (a & Ha & (b & Hb & (c & Hc & [= <-])%Exec_bind_Done)%Exec_bind_Done).
    destruct delta as [d|].
    + apply Exec_bind_Done in Hc as (d' & Hd & [= <-]). by repeat constructor.
    + injection Hc as <-. by repeat constructor.
  - apply Exec_bind_Done in H as (a & Ha & [= <-]). by repeat constructor.
  - apply Exec_bind_Done in H as (a & Ha & (b & Hb & [= <-])%Exec_bind_Done). by repeat constructor.
Qed.

Lemma resolve_rebuild n e :
  as_ref e = None → (∀ c, c ∈ children e → ∃ c', resolve n c = Done c') → ∃ v, resolve (S n) e = Done v.
Proof.
  intros He Hc.
  assert (HF : ∀ f : PropertyExpr → Exec PropertyExpr, (∀ c, c ∈ children e → ∃ c', f c = Done c') →
    ∃ cs, Forall2 (λ c c', f c = Done c') (children e) cs).
  { intros f Hf. by apply Forall_exists_Forall2_l, Forall_forall. }
  destruct e as [ | | | | |items|fields|min max delta| | | |e u|op x y| | ]; simpl in *; try done;
    try (by eexists).
  - destruct (HF (resolve n) Hc) as (cs & Hcs%mapM_Done). rewrite Hcs. by eexists.
  - set (g := λ f : Name * PropertyExpr, v ← resolve n f.2; Done (f.1, v)).
    assert (∃ fs, Forall2 (λ f f', g f = Done f') fields fs) as (fs & Hfs%mapM_Done).
    { apply Forall_exists_Forall2_l, Forall_forall. intros f Hf. unfold g.
      destruct (Hc f.2) as (c' & ->); [by apply list_elem_of_fmap_2|]. by eexists. }
    rewrite Hfs. by eexists.
  - destruct (Hc min) as (a & ->); [by left|]. destruct (Hc max) as (b & ->); [by right; left|].
    destruct delta as [d|]; simpl; [|by eexists].
    destruct (Hc d) as (d' & ->); [by right; right; left|]. by eexists.
  - destruct (Hc e) as (a & ->); [by left|]. by eexists.
  - destruct (Hc x) as (a & ->); [by left|]. destruct (Hc y) as (b & ->); [by right; left|].
    by eexists.
Qed.

(** ** Termination and the result *)

Lemma resolve_settled n e v : resolve n e = Done v → settled v.
Proof.
  revert e v. induction n as [|n IH]; intros e v; [done|].
  destruct (as_ref e) as [r|] eqn:He.
  - assert (refs e = [r]) as Hr by (by destruct e; simplify_eq/=).
    destruct e; simplify_eq/=; (destruct (referenced r) as [t|] eqn:Ht; [by intros ?%IH|]);
      intros [= <-] r' ->%list_elem_of_singleton; done.
  - intros (Hv & Hc)%resolve_children r (c' & Hc' & Hr)%refs_children; [|done..].
    eapply Forall2_Forall_r in Hc as HF; [|apply Forall_forall; intros c _ y Hy; exact (IH c y Hy)].
    rewrite Forall_forall in HF. by apply (HF c').
Qed.

Lemma resolve_Acc n e v : resolve n e = Done v → ∀ r, r ∈ refs e → Acc depends r.
Proof.
  revert e v. induction n as [|n IH]; intros e v; [done|].
  destruct (as_ref e) as [r|] eqn:He.
  - intros H r'. assert (refs e = [r]) as -> by (by destruct e; simplify_eq/=).
    intros ->%list_elem_of_singleton. constructor. intros r' (t & Ht & Hr').
    assert (resolve n t = Done v) by (destruct e; simplify_eq/=; by rewrite Ht in H). by eapply IH.
  - intros (Hv & Hc)%resolve_children r (c & Hc' & Hr)%refs_children; [|done..].
    apply list_elem_of_lookup in Hc' as [i Hi].
    destruct (Forall2_lookup_l _ _ _ _ _ Hc Hi) as (y & _ & Hy). by eapply IH.
Qed.

(** One fuel for finitely many recursions. *)
Lemma resolve_common (es : list PropertyExpr) :
  (∀ e, e ∈ es → ∃ n v, resolve n e = Done v) → ∃ n, ∀ e, e ∈ es → ∃ v, resolve n e = Done v.
Proof.
  induction es as [|e es IH]; intros H; [exists 0; by intros e ?%not_elem_of_nil|].
  destruct IH as [n Hn]; [intros; apply H; by right|]. destruct (H e) as (m & v & Hv); [by left|].
  exists (max n m). intros e' [->|He']%elem_of_cons.
  - exists v. eapply resolve_fuel; [exact Hv|lia].
  - destruct (Hn e' He') as [v' Hv']. exists v'. eapply resolve_fuel; [exact Hv'|lia].
Qed.

(** An expression resolves when its references do. *)
Lemma resolve_refs e :
  (∀ r, r ∈ refs e → ∃ n v, from_option (resolve n) (Done e) (referenced r) = Done v) →
  ∃ n v, resolve n e = Done v.
Proof.
  assert (Hnode : ∀ e, as_ref e = None →
    (∀ c, c ∈ children e → (∀ r, r ∈ refs c → ∃ n v, from_option (resolve n) (Done c) (referenced r) = Done v) →
       ∃ n v, resolve n c = Done v) →
    (∀ r, r ∈ refs e → ∃ n v, from_option (resolve n) (Done e) (referenced r) = Done v) →
    ∃ n v, resolve n e = Done v).
  { clear e. intros e He IH H. destruct (resolve_common (children e)) as [n Hn].
    { intros c Hc. apply IH; [done|]. intros r Hr. destruct (H r) as (n & v & Hv).
      - apply refs_children; eauto.
      - exists n. destruct (referenced r); simpl in *; eauto. }
    destruct (resolve_rebuild n e He Hn) as [v Hv]. eauto. }
  assert (Href : ∀ r e, as_ref e = Some r →
    (∀ r, r ∈ refs e → ∃ n v, from_option (resolve n) (Done e) (referenced r) = Done v) →
    ∃ n v, resolve n e = Done v).
  { clear. intros r e He H. destruct (H r) as (n & v & Hv).
    { destruct e; simplify_eq/=; by left. }
    exists (S n). destruct e; simplify_eq/=; destruct (referenced r); eauto. }
  induction e using PropertyExpr_nested_ind; try (by eapply Href); apply Hnode; try done; simpl.
  all: try (by intros ? ?%not_elem_of_nil).
  - by rewrite <- Forall_forall.
  - intros c (f & -> & Hf)%list_elem_of_fmap. rewrite Forall_forall in H. by apply (H f).
  - intros c [->|[->|Hc]%elem_of_cons]%elem_of_cons; [done..|].
    destruct delta; simpl in *; [|by apply not_elem_of_nil in Hc].
    by apply list_elem_of_singleton in Hc as ->.
  - by intros c ->%list_elem_of_singleton.
  - intros c [->|Hc]%elem_of_cons; [done|]. by apply list_elem_of_singleton in Hc as ->.
Qed.

Lemma Acc_resolve r : Acc depends r → ∀ t, referenced r = Some t → ∃ n v, resolve n t = Done v.
Proof.
  induction 1 as [r _ IH]. intros t Ht. apply resolve_refs. intros r' Hr'.
  destruct (referenced r') as [t'|] eqn:Ht'; simpl; [|by exists 0; eexists].
  apply (IH r'); [by exists t|done].
Qed.

Lemma resolve_terminates e :
  (∃ n v, resolve n e = Done v) ↔ ∀ r, r ∈ refs e → Acc depends r.
Proof.
  split.
  - intros (n & v & H). by eapply resolve_Acc.
  - intros H. apply resolve_refs. intros r Hr.
    destruct (referenced r) as [t|] eqn:Ht; simpl; [|by exists 0; eexists].
    by apply (Acc_resolve r); [apply H|].
Qed.

Lemma resolve_no_panic n e : resolve n e ≠ Panic.
Proof.
  assert (HM : ∀ {A B} (f : A → Exec B) xs, (∀ x, f x ≠ Panic) → mapM f xs ≠ Panic).
  { intros A B f xs Hf. induction xs as [|x xs IH]; simpl; [done|].
    destruct (f x) eqn:E; simpl; [|by apply Hf in E|done]. by destruct (mapM f xs). }
  revert e. induction n as [|n IH]; intros e; [done|].
  assert (IHb : ∀ {B} e (k : _ → Exec B), (∀ v, k v ≠ Panic) → resolve n e ≫= k ≠ Panic).
  { intros B e' k Hk. destruct (resolve n e') eqn:E; simpl; [apply Hk|by apply IH in E|done]. }
  destruct e as [ | | | | |items|fields|min max delta| | |r|e u|op l r|r| ]; simpl; try done.
  - pose proof (HM _ _ (resolve n) items IH). by destruct (mapM _ items).
  - match goal with |- mapM ?f fields ≫= _ ≠ _ => assert (mapM f fields ≠ Panic) as H;
      [apply HM; intros f'; by apply IHb|by destruct (mapM f fields)] end.
  - apply IHb. intros a. apply IHb. intros b. destruct delta as [d|]; [|done].
    assert ((d' ← resolve n d; Done (Some d')) ≠ Panic) by (by apply IHb).
    by destruct (d' ← resolve n d; Done (Some d')).
  - by destruct (referenced r).
  - by apply IHb.
  - apply IHb. intros a. by apply IHb.
  - by destruct (referenced r).
Qed.

(** An expression without live references resolves to itself. *)
Lemma resolve_settled_id n e v : settled e → resolve n e = Done v → v = e.
Proof.
  revert e v. induction n as [|n IH]; intros e v Hs H; [done|].
  assert (Hm : ∀ es vs, Forall2 (λ c c', resolve n c = Done c') es vs →
    (∀ c, c ∈ es → settled c) → vs = es).
  { induction 1 as [|c c' es vs Hc _ IHF]; intros Hset; [done|]. f_equal.
    - apply IH; [apply Hset; by left|done].
    - apply IHF. intros x Hx. apply Hset. by right. }
  destruct (as_ref e) as [r|] eqn:He.
  - assert (referenced r = None) as Hr by (apply Hs; destruct e; simplify_eq/=; by left).
    destruct e; simplify_eq/=; rewrite Hr in H; by injection H as <-.
  - assert (Hset : ∀ c, c ∈ children e → settled c).
    { intros c Hc r Hr. apply Hs, refs_children; eauto. }
    destruct e as [ | | | | |items|fields|min max delta| | | |e u|op x y| | ]; simpl in *; try done;
      try (by injection H as <-).
    + apply Exec_bind_Done in H as (is' & H%mapM_Done & [= <-]). f_equal. by apply Hm.
    + apply Exec_bind_Done in H as (fs' & H%mapM_Done & [= <-]). f_equal. clear Hs He.
      induction H as [|[k x] f' fs fs' Hf _ IHF]; [done|]. simpl in Hf.
      apply Exec_bind_Done in Hf as (x' & Hx & [= <-]). f_equal.
      * f_equal. apply IH; [apply Hset; by left|done].
      * apply IHF. intros c Hc. apply Hset. by right.
    + apply Exec_bind_Done in H as (a & Ha & (b & Hb & (c & Hc & [= <-])%Exec_bind_Done)%Exec_bind_Done).
      apply IH in Ha as ->; [|apply Hset; by left].
      apply IH in Hb as ->; [|apply Hset; by right; left].
      destruct delta as [d|]; simpl in Hc; [|by injection Hc as <-].
      apply Exec_bind_Done in Hc as (d' & Hd & [= <-]).
      apply IH in Hd as ->; [done|]. apply Hset. by right; right; left.
    + apply Exec_bind_Done in H as (a & Ha & [= <-]). f_equal. apply IH; [apply Hset; by left|done].
    + apply Exec_bind_Done in H as (a & Ha & (b & Hb & [= <-])%Exec_bind_Done).
      f_equal; apply IH; [apply Hset; by left|done|apply Hset; by right; left|done].
Qed.

(** C38: Resolving the [value()] references of an expression returns exactly
    when following its references never leads back to itself, however deep
    they nest (a cycle recurses for ever: the code has no guard); it never
    panics, and the result contains no reference that stands for anything,
    so resolving it again changes nothing. *)
Theorem resolve_property_expr_exact e :
  ((∃ n v, resolve n e = Done v) ↔ (∀ r, r ∈ refs e → Acc depends r)) ∧
  (∀ n, resolve n e ≠ Panic) ∧
  (∀ n v, resolve n e = Done v →
     settled v ∧ (∀ m, n ≤ m → resolve m e = Done v) ∧
     (∀ m v', resolve m v = Done v' → v' = v)).
Proof.
  split_and!.
  - apply resolve_terminates.
  - intros n. apply resolve_no_panic.
  - intros n v H. split_and!; [by eapply resolve_settled| |].
    + intros m. by apply resolve_fuel.
    + intros m v'. apply resolve_settled_id. by eapply resolve_settled.
Qed.
End resolve.

(** A property defined by itself: [A => value(A)] never resolves. *)
Lemma resolve_self_reference n :
  let a := {| pa_name := {| property_set := None; property_name := "A" |}; pa_value := "value(A)";
              pa_typed_value := Some (ValueRef "A"); pa_is_append := false; pa_applies_to := None;
              pa_in_modes := []; pa_modal_values := [] |} in
  resolve_property_expr [a] [] n (ValueRef "A") = Stuck.
Proof. intros a. induction n as [|n IH]; [done|]. exact IH. Qed.
