(* ===== verification/ItemTree.v ===== *)
(** * The item tree

    [crates/spar-hir-def/src/item_tree/mod.rs]: the declarations of one file,
    which lowering makes of its syntax tree and everything above works on.
    An arena is a list and an index into it a number; an index outside its
    arena panics.  The names of fields are prefixed by the item they are of. *)
From S2P Require Import Prelude.
From S2P Require Import CategoryRules.
From S2P Require Import Names.
From S2P Require Import PropertyExpr.

(** [PackageIdx] and the other indices. *)
Abbreviation ItemIdx := nat (only parsing).

(** crates/spar-hir-def/src/item_tree/mod.rs:53-56 [LoweringSeverity] *)
Inductive LoweringSeverity := LWarning | LError.

(** crates/spar-hir-def/src/item_tree/mod.rs:46-49 [LoweringDiagnostic] *)
Record LoweringDiagnostic := { ld_message : string; ld_severity : LoweringSeverity }.

(** ** The error-model annex attached to components *)

(** crates/spar-annex/src/emv2/model.rs:30-35 [PropagationDirection] *)
Inductive PropagationDirection := PropagationIn | PropagationOut.

(** crates/spar-annex/src/emv2/model.rs:40-53 [ErrorPropagation] *)
Record ErrorPropagation := {
  ep_feature : string;
  ep_is_kind : bool;
  ep_negated : bool;
  ep_direction : PropagationDirection;
  ep_error_types : list string;
}.

(** crates/spar-annex/src/emv2/model.rs:57-64 [ErrorFlowKind] *)
Inductive ErrorFlowKind := ErrorSource | ErrorSink | ErrorPath.

(** crates/spar-annex/src/emv2/model.rs:68-81 [ErrorFlow] *)
Record ErrorFlow := {
  ef_name : string;
  ef_kind : ErrorFlowKind;
  ef_point : string;
  ef_target_point : option string;
  ef_error_types : list string;
}.

(** crates/spar-annex/src/emv2/model.rs:85-90 [Emv2Model] *)
Record Emv2Model := { em_propagations : list ErrorPropagation; em_flows : list ErrorFlow }.

(** crates/spar-hir-def/src/item_tree/mod.rs:100-105 [Emv2Subclause] *)
Record Emv2Subclause := { em_name : Name; em_model : Emv2Model }.

(** ** Items at the top of a package *)

(** crates/spar-hir-def/src/item_tree/mod.rs:167-173 [ItemRef] *)
Inductive ItemRef :=
  | RComponentType (i : ItemIdx)
  | RComponentImpl (i : ItemIdx)
  | RFeatureGroupType (i : ItemIdx)
  | RPropertySet (i : ItemIdx)
  | RAnnexLibrary.

(** crates/spar-hir-def/src/item_tree/mod.rs:153-163 [Package] *)
Record Package := {
  pkg_name : Name;
  pkg_with_clauses : list Name;
  pkg_public_items : list ItemRef;
  pkg_private_items : list ItemRef;
  pkg_renames : list ItemIdx;
}.

(** crates/spar-hir-def/src/item_tree/mod.rs:177-200 [ComponentTypeItem] *)
Record ComponentTypeItem := {
  ct_name : Name;
  ct_category : ComponentCategory;
  ct_is_public : bool;
  ct_extends : option ClassifierRef;
  ct_features : list ItemIdx;
  ct_flow_specs : list ItemIdx;
  ct_modes : list ItemIdx;
  ct_mode_transitions : list ItemIdx;
  ct_prototypes : list ItemIdx;
  ct_property_associations : list ItemIdx;
  ct_requires_modes : bool;
  ct_emv2 : list ItemIdx;
}.

(** crates/spar-hir-def/src/item_tree/mod.rs:204-234 [ComponentImplItem] *)
Record ComponentImplItem := {
  ci_type_name : Name;
  ci_impl_name : Name;
  ci_category : ComponentCategory;
  ci_is_public : bool;
  ci_extends : option ClassifierRef;
  ci_subcomponents : list ItemIdx;
  ci_connections : list ItemIdx;
  ci_end_to_end_flows : list ItemIdx;
  ci_flow_impls : list ItemIdx;
  ci_modes : list ItemIdx;
  ci_mode_transitions : list ItemIdx;
  ci_prototypes : list ItemIdx;
  ci_call_sequences : list ItemIdx;
  ci_property_associations : list ItemIdx;
  ci_requires_modes : bool;
  ci_emv2 : list ItemIdx;
}.

(** crates/spar-hir-def/src/item_tree/mod.rs:238-252 [FeatureGroupTypeItem] *)
Record FeatureGroupTypeItem := {
  fgt_name : Name;
  fgt_is_public : bool;
  fgt_extends : option ClassifierRef;
  fgt_inverse_of : option ClassifierRef;
  fgt_features : list ItemIdx;
  fgt_prototypes : list ItemIdx;
}.

(** ** Items nested in them *)

(** crates/spar-hir-def/src/item_tree/mod.rs:267-271 [Direction] *)
Inductive Direction := In | Out | InOut.

(** crates/spar-hir-def/src/item_tree/mod.rs:317-320 [AccessKind] *)
Inductive AccessKind := Provides | Requires.

#[export] Instance Direction_eq_dec : EqDecision Direction.
Proof. solve_decision. Defined.

#[export] Instance AccessKind_eq_dec : EqDecision AccessKind.
Proof. solve_decision. Defined.

(** crates/spar-hir-def/src/item_tree/mod.rs:556-561 [ArraySize] *)
Inductive ArraySize := SizeLiteral (n : u64) | SizeConstant (c : PropertyRef).

(** crates/spar-hir-def/src/item_tree/mod.rs:549-552 [ArrayDimension] *)
Record ArrayDimension := { ad_size : option ArraySize }.

(** crates/spar-hir-def/src/item_tree/mod.rs:333-346 [Feature] *)
Record Feature := {
  ft_name : Name;
  ft_kind : FeatureKind;
  ft_direction : option Direction;
  ft_access_kind : option AccessKind;
  ft_classifier : option ClassifierRef;
  ft_is_refined : bool;
  ft_array_dimensions : list ArrayDimension;
  ft_property_associations : list ItemIdx;
}.

(** crates/spar-hir-def/src/item_tree/mod.rs:350-360 [SubcomponentItem] *)
Record SubcomponentItem := {
  sub_name : Name;
  sub_category : ComponentCategory;
  sub_classifier : option ClassifierRef;
  sub_is_refined : bool;
  sub_array_dimensions : list ArrayDimension;
  sub_in_modes : list Name;
  sub_property_associations : list ItemIdx;
}.

(** crates/spar-hir-def/src/item_tree/mod.rs:364-370 [ConnectionKind] *)
Inductive ConnectionKind :=
  | PortConnection | AccessConnection | FeatureGroupConnection | FeatureConnection | ParameterConnection.

#[export] Instance ConnectionKind_eq_dec : EqDecision ConnectionKind.
Proof. solve_decision. Defined.

(** crates/spar-hir-def/src/item_tree/mod.rs:374-379 [ConnectedElementRef] *)
Record ConnectedElementRef := { ce_subcomponent : option Name; ce_feature : Name }.

(** crates/spar-hir-def/src/item_tree/mod.rs:383-395 [ConnectionItem] *)
Record ConnectionItem := {
  cn_name : Name;
  cn_kind : ConnectionKind;
  cn_is_bidirectional : bool;
  cn_is_refined : bool;
  cn_src : option ConnectedElementRef;
  cn_dst : option ConnectedElementRef;
  cn_in_modes : list Name;
  cn_property_associations : list ItemIdx;
}.

(** crates/spar-hir-def/src/item_tree/mod.rs:399-403 [FlowKind] *)
Inductive FlowKind := FlowSource | FlowSink | FlowPath.

(** crates/spar-hir-def/src/item_tree/mod.rs:407-418 [FlowSpecItem] *)
Record FlowSpecItem := {
  fs_name : Name;
  fs_kind : FlowKind;
  fs_source_feature : option Name;
  fs_sink_feature : option Name;
  fs_in_modes : list Name;
  fs_property_associations : list ItemIdx;
}.

(** crates/spar-hir-def/src/item_tree/mod.rs:435-440 [FlowSegment] *)
Record FlowSegment := { seg_subcomponent : option Name; seg_element : Name }.

(** crates/spar-hir-def/src/item_tree/mod.rs:422-431 [FlowImplItem] *)
Record FlowImplItem := {
  fi_name : Name;
  fi_kind : FlowKind;
  fi_segments : list FlowSegment;
  fi_in_modes : list Name;
  fi_property_associations : list ItemIdx;
}.

(** crates/spar-hir-def/src/item_tree/mod.rs:444-451 [EndToEndFlowItem] *)
Record EndToEndFlowItem := {
  ee_name : Name;
  ee_segments : list Name;
  ee_in_modes : list Name;
  ee_property_associations : list ItemIdx;
}.

(** crates/spar-hir-def/src/item_tree/mod.rs:457-461 [ModeItem] *)
Record ModeItem := { md_name : Name; md_is_initial : bool }.

(** crates/spar-hir-def/src/item_tree/mod.rs:465-474 [ModeTransitionItem] *)
Record ModeTransitionItem := {
  tr_name : option Name;
  tr_source : Name;
  tr_triggers : list Name;
  tr_destination : Name;
}.

(** crates/spar-hir-def/src/item_tree/mod.rs:480-486 [PrototypeItem] *)
Record PrototypeItem := {
  pt_name : Name;
  pt_category : option ComponentCategory;
  pt_constraining_classifier : option ClassifierRef;
}.

(** crates/spar-hir-def/src/item_tree/mod.rs:490-497 [PrototypeBindingItem] *)
Record PrototypeBindingItem := {
  pb_formal : Name;
  pb_actual : option ClassifierRef;
  pb_actual_category : option ComponentCategory;
}.

(** crates/spar-hir-def/src/item_tree/mod.rs:503-509 [CallSequenceItem] *)
Record CallSequenceItem := { cs_name : option Name; cs_calls : list ItemIdx; cs_in_modes : list Name }.

(** crates/spar-hir-def/src/item_tree/mod.rs:513-517 [SubprogramCallItem] *)
Record SubprogramCallItem := { sc_name : Name; sc_called_subprogram : option ClassifierRef }.

(** crates/spar-hir-def/src/item_tree/mod.rs:523-530 [RenamesKind] *)
Inductive RenamesKind := RenamesPackage | RenamesClassifier | RenamesFeatureGroup.

(** crates/spar-hir-def/src/item_tree/mod.rs:536-543 [RenamesItem] *)
Record RenamesItem := { rn_alias : Name; rn_original : Name; rn_kind : RenamesKind }.

(** ** Property sets *)

(** crates/spar-hir-def/src/item_tree/mod.rs:689-693 [PropertyTypeDefItem] *)
Record PropertyTypeDefItem := { ptd_name : Name; ptd_type_def : option PropertyTypeDef }.

(** crates/spar-hir-def/src/item_tree/mod.rs:697-703 [PropertyConstantItem] *)
Record PropertyConstantItem := {
  pc_const_name : Name;
  pc_type_def : option PropertyTypeDef;
  pc_value : option PropertyExpr;
}.

(** crates/spar-hir-def/src/item_tree/mod.rs:256-261 [PropertySetItem] *)
Record PropertySetItem := {
  ps_name : Name;
  ps_property_defs : list PropertyDefItem;
  ps_property_type_defs : list PropertyTypeDefItem;
  ps_property_constants : list PropertyConstantItem;
}.

(** ** The tree *)

(** crates/spar-hir-def/src/item_tree/mod.rs:65-95 [ItemTree] *)
Record ItemTree := {
  packages : list Package;
  component_types : list ComponentTypeItem;
  component_impls : list ComponentImplItem;
  feature_group_types : list FeatureGroupTypeItem;
  property_sets : list PropertySetItem;
  tree_features : list Feature;
  tree_subcomponents : list SubcomponentItem;
  tree_connections : list ConnectionItem;
  flow_specs : list FlowSpecItem;
  end_to_end_flows : list EndToEndFlowItem;
  property_associations : list PropertyAssociationItem;
  tree_modes : list ModeItem;
  tree_mode_transitions : list ModeTransitionItem;
  prototypes : list PrototypeItem;
  prototype_bindings : list PrototypeBindingItem;
  flow_impls : list FlowImplItem;
  call_sequences : list CallSequenceItem;
  subprogram_calls : list SubprogramCallItem;
  renames : list RenamesItem;
  emv2_subclauses : list Emv2Subclause;
  impl_local_features : list (ItemIdx * Name);
  tree_diagnostics : list LoweringDiagnostic;
}.

(** [ItemTree::default()]. *)
Definition empty_tree : ItemTree :=
  {| packages := []; component_types := []; component_impls := []; feature_group_types := [];
     property_sets := []; tree_features := []; tree_subcomponents := []; tree_connections := [];
     flow_specs := []; end_to_end_flows := []; property_associations := []; tree_modes := [];
     tree_mode_transitions := []; prototypes := []; prototype_bindings := []; flow_impls := [];
     call_sequences := []; subprogram_calls := []; renames := []; emv2_subclauses := [];
     impl_local_features := []; tree_diagnostics := [] |}.

(** [arena[i]]. *)
Definition arena_get {A} (arena : list A) (i : nat) : Exec A :=
  match arena !! i with Some a => Done a | None => Panic end.
