(* ===== verification/CategoryCheck.v ===== *)
(** * The category check

    [crates/spar-analysis/src/category_check.rs]: the pass that applies the
    restriction tables of [CategoryRules] to an item tree. *)
From S2P Require Import Prelude.
From S2P Require Import Diagnostics.
From S2P Require Import Names.
From S2P Require Import CategoryRules.
From S2P Require Import ItemTree.
#[local] Open Scope string_scope.

(** crates/spar-analysis/src/category_check.rs:17-57 [check_category_rules] *)
Definition type_diag (ct : ComponentTypeItem) (feat : Feature) : AnalysisDiagnostic :=
  {| severity := Error;
     message := category_fmt (ct_category ct) +:+ " component type '" +:+ ct_name ct
       +:+ "' cannot have " +:+ feature_fmt (ft_kind feat) +:+ " feature '"
       +:+ ft_name feat +:+ "'";
     path := [ct_name ct]; analysis := "category_check" |}.

(** crates/spar-analysis/src/category_check.rs:17-57 [check_category_rules] *)
Definition check_type (tree : ItemTree) (ct : ComponentTypeItem) : Exec (list AnalysisDiagnostic) :=
  concatM (λ feat_idx,
    match tree_features tree !! feat_idx with
    | None => Panic
    | Some feat =>
        if is_feature_allowed (ct_category ct) (ft_kind feat) then Done []
        else Done [type_diag ct feat]
    end) (ct_features ct).

(** crates/spar-analysis/src/category_check.rs:45-54 [check_category_rules] *)
Definition impl_diag (ci : ComponentImplItem) (sub : SubcomponentItem) : AnalysisDiagnostic :=
  {| severity := Error;
     message := category_fmt (ci_category ci) +:+ " implementation '" +:+ ci_type_name ci
       +:+ "." +:+ ci_impl_name ci +:+ "' cannot contain "
       +:+ category_fmt (sub_category sub) +:+ " subcomponent '" +:+ sub_name sub +:+ "'";
     path := [(ci_type_name ci +:+ "." +:+ ci_impl_name ci)]; analysis := "category_check" |}.

(** crates/spar-analysis/src/category_check.rs:17-57 [check_category_rules] *)
Definition check_impl (tree : ItemTree) (ci : ComponentImplItem) : Exec (list AnalysisDiagnostic) :=
  concatM (λ sub_idx,
    match tree_subcomponents tree !! sub_idx with
    | None => Panic
    | Some sub =>
        if is_subcomponent_allowed (ci_category ci) (sub_category sub) then Done []
        else Done [impl_diag ci sub]
    end) (ci_subcomponents ci).

(** crates/spar-analysis/src/category_check.rs:17-57 [check_category_rules] *)
Definition check_category_rules (tree : ItemTree) : Exec (list AnalysisDiagnostic) :=
  ds1 ← concatM (check_type tree) (component_types tree);
  ds2 ← concatM (check_impl tree) (component_impls tree);
  Done (ds1 ++ ds2)%list.

(** ** The pass reports exactly the violations *)

(** Every index of the tree is in range of its arena. *)
Definition indices_ok (tree : ItemTree) : Prop :=
  (∀ ct i, ct ∈ component_types tree → i ∈ ct_features ct → is_Some (tree_features tree !! i)) ∧
  (∀ ci i, ci ∈ component_impls tree → i ∈ ci_subcomponents ci → is_Some (tree_subcomponents tree !! i)).

Lemma check_type_spec tree ct :
  (∀ i, i ∈ ct_features ct → is_Some (tree_features tree !! i)) →
  ∃ ds, check_type tree ct = Done ds ∧ ∀ d, d ∈ ds ↔ ∃ i, i ∈ ct_features ct ∧
    ∃ feat, tree_features tree !! i = Some feat ∧
      ft_kind feat ∉ allowed_features (ct_category ct) ∧ d = type_diag ct feat.
Proof.
  intros H. apply concatM_spec. intros i Hi. destruct (H i Hi) as [feat ->].
  unfold is_feature_allowed. case_bool_decide; eexists; (split; [done|]); intros d;
    rewrite ?list_elem_of_singleton, ?elem_of_nil; naive_solver.
Qed.

Lemma check_impl_spec tree ci :
  (∀ i, i ∈ ci_subcomponents ci → is_Some (tree_subcomponents tree !! i)) →
  ∃ ds, check_impl tree ci = Done ds ∧ ∀ d, d ∈ ds ↔ ∃ i, i ∈ ci_subcomponents ci ∧
    ∃ sub, tree_subcomponents tree !! i = Some sub ∧
      sub_category sub ∉ allowed_subcomponents (ci_category ci) ∧ d = impl_diag ci sub.
Proof.
  intros H. apply concatM_spec. intros i Hi. destruct (H i Hi) as [sub ->].
  unfold is_subcomponent_allowed. case_bool_decide; eexists; (split; [done|]); intros d;
    rewrite ?list_elem_of_singleton, ?elem_of_nil; naive_solver.
Qed.

(** C13: [check_category_rules] is exact: on an item tree whose indices are in
    range it returns, and it reports one error for precisely each feature of
    a component type, and each subcomponent of an implementation, that the
    tables do not allow for the category of its owner. *)
Theorem check_category_rules_exact tree :
  indices_ok tree →
  ∃ ds, check_category_rules tree = Done ds ∧ ∀ d, d ∈ ds ↔
    (∃ ct i feat, ct ∈ component_types tree ∧ i ∈ ct_features ct ∧
       tree_features tree !! i = Some feat ∧ ft_kind feat ∉ allowed_features (ct_category ct) ∧
       d = type_diag ct feat) ∨
    (∃ ci i sub, ci ∈ component_impls tree ∧ i ∈ ci_subcomponents ci ∧
       tree_subcomponents tree !! i = Some sub ∧
       sub_category sub ∉ allowed_subcomponents (ci_category ci) ∧ d = impl_diag ci sub).
Proof.
  intros [Ht Hi].
  destruct (concatM_spec (check_type tree) _ (component_types tree)
    (λ ct Hct, check_type_spec tree ct (λ i, Ht ct i Hct))) as (ds1 & E1 & H1).
  destruct (concatM_spec (check_impl tree) _ (component_impls tree)
    (λ ci Hci, check_impl_spec tree ci (λ i, Hi ci i Hci))) as (ds2 & E2 & H2).
  exists (ds1 ++ ds2)%list. unfold check_category_rules. rewrite E1. cbn [mbind Exec_bind]. rewrite E2.
  split; [done|]. intros d. rewrite elem_of_app, H1, H2. naive_solver.
Qed.

(** A bus with a requires-bus access in a system that holds a thread. *)
Definition type_example : ComponentTypeItem :=
  {| ct_name := "B"; ct_category := VirtualBus; ct_is_public := true; ct_extends := None;
     ct_features := [0%nat]; ct_flow_specs := []; ct_modes := []; ct_mode_transitions := [];
     ct_prototypes := []; ct_property_associations := []; ct_requires_modes := false; ct_emv2 := [] |}.

Definition impl_example : ComponentImplItem :=
  {| ci_type_name := "S"; ci_impl_name := "i"; ci_category := System; ci_is_public := true;
     ci_extends := None; ci_subcomponents := [0%nat]; ci_connections := []; ci_end_to_end_flows := [];
     ci_flow_impls := []; ci_modes := []; ci_mode_transitions := []; ci_prototypes := [];
     ci_call_sequences := []; ci_property_associations := []; ci_requires_modes := false; ci_emv2 := [] |}.

Definition feature_example : Feature :=
  {| ft_name := "a"; ft_kind := BusAccess; ft_direction := None; ft_access_kind := Some Requires;
     ft_classifier := None; ft_is_refined := false; ft_array_dimensions := [];
     ft_property_associations := [] |}.

Definition sub_example : SubcomponentItem :=
  {| sub_name := "t"; sub_category := Thread; sub_classifier := None; sub_is_refined := false;
     sub_array_dimensions := []; sub_in_modes := []; sub_property_associations := [] |}.

Definition tree_example : ItemTree :=
  {| packages := []; component_types := [type_example]; component_impls := [impl_example];
     feature_group_types := []; property_sets := []; tree_features := [feature_example];
     tree_subcomponents := [sub_example]; tree_connections := [];
     flow_specs := []; end_to_end_flows := []; property_associations := []; tree_modes := [];
     tree_mode_transitions := []; prototypes := []; prototype_bindings := []; flow_impls := [];
     call_sequences := []; subprogram_calls := []; renames := []; emv2_subclauses := [];
     impl_local_features := []; tree_diagnostics := [] |}.

Lemma check_category_rules_exact_witness :
  indices_ok tree_example ∧
  ∃ ds, check_category_rules tree_example = Done ds ∧ ∀ d, d ∈ ds ↔
    (∃ ct i feat, ct ∈ component_types tree_example ∧ i ∈ ct_features ct ∧
       tree_features tree_example !! i = Some feat ∧
       ft_kind feat ∉ allowed_features (ct_category ct) ∧ d = type_diag ct feat) ∨
    (∃ ci i sub, ci ∈ component_impls tree_example ∧ i ∈ ci_subcomponents ci ∧
       tree_subcomponents tree_example !! i = Some sub ∧
       sub_category sub ∉ allowed_subcomponents (ci_category ci) ∧ d = impl_diag ci sub).
Proof.
  assert (H : indices_ok tree_example).
  { split; intros c i ->%list_elem_of_singleton ->%list_elem_of_singleton; by eexists. }
  split; [exact H|]. exact (check_category_rules_exact tree_example H).
Defined.
