(* ===== verification/PropertyMap.v ===== *)
(** * Property maps

    [crates/spar-hir-def/src/properties.rs]: the values of a model element by
    property, layered from classifier to declaration, with the reference
    context, the provenance and the modal values each key carries beside its
    value.  The four hash maps are finite maps; where the code iterates over
    one, the model folds over its bindings and the theorems do not depend on
    the order. *)
From S2P Require Import Prelude.
From S2P Require Import Names.
From S2P Require Import PropertyExpr.
From S2P Require Import ItemTree.
From stdpp Require Import gmap.

(** An index into the arena of component instances. *)
Abbreviation ComponentInstanceIdx := nat (only parsing).

(** crates/spar-hir-def/src/properties.rs:28-37 [PropertyValue] *)
Record PropertyValue := {
  pv_name : PropertyRef;
  pv_value : string;
  pv_typed_expr : option PropertyExpr;
  pv_is_append : bool;
}.

(** crates/spar-hir-def/src/properties.rs:41-45 [PropertyValue::is_arithmetic] *)
Definition pv_is_arithmetic (pv : PropertyValue) : bool :=
  match pv_typed_expr pv with Some e => is_arithmetic e | None => false end.

(** crates/spar-hir-def/src/properties.rs:56-92 [PropertySource] *)
Inductive PropertySource :=
  | Classifier (classifier : string)
  | Implementation (classifier : string)
  | DeclaredLocal
  | Refined (subcomponent declared_in : string)
  | Contained (declarer : ComponentInstanceIdx)
  | ContainedUnresolved (path : string)
  | Inherited (ancestor : ComponentInstanceIdx) (origin : PropertySource)
  | Unrecorded.

(** crates/spar-hir-def/src/properties.rs:124-130 [ModalValue] *)
Record ModalValue := { mv_in_modes : list Name; mv_value : PropertyValue }.

(** crates/spar-hir-def/src/properties.rs:140-145 [ModalBinding] *)
Record ModalBinding := { mode_context : ComponentInstanceIdx; mb_values : list ModalValue }.

(** The keys: property set (empty when unqualified) and name, case-folded. *)
Definition key : Type := CiName * CiName.

(** crates/spar-hir-def/src/properties.rs:104-120 [PropertyMap] *)
Record PropertyMap := {
  props : gmap key (list PropertyValue);
  ref_ctx : gmap key ComponentInstanceIdx;
  sources : gmap key (list PropertySource);
  modal : gmap key ModalBinding;
}.

(** crates/spar-hir-def/src/properties.rs:152-166 [ModalBinding::value_in_mode]:
    the loop, [default] the last value seen without modes. *)
Fixpoint value_in_mode_from (default : option PropertyValue) (mode : string) (values : list ModalValue)
  : option PropertyValue :=
  match values with
  | [] => default
  | mv :: values =>
      match mv_in_modes mv with
      | [] => value_in_mode_from (Some (mv_value mv)) mode values
      | in_modes =>
          if existsb (λ m, eq_ignore_ascii_case m mode) in_modes then Some (mv_value mv)
          else value_in_mode_from default mode values
      end
  end.

(** crates/spar-hir-def/src/properties.rs:152-166 [ModalBinding::value_in_mode] *)
Definition value_in_mode (b : ModalBinding) (mode : string) : option PropertyValue :=
  value_in_mode_from None mode (mb_values b).

(** crates/spar-hir-def/src/properties.rs:185-187 [PropertyMap::new] *)
Definition new : PropertyMap := {| props := ∅; ref_ctx := ∅; sources := ∅; modal := ∅ |}.

(** crates/spar-hir-def/src/properties.rs:333-341 [PropertyMap::key_of] *)
Definition key_of (name : PropertyRef) : key :=
  (match property_set name with Some ps => ci ps | None => ci ""%string end, ci (property_name name)).

(** crates/spar-hir-def/src/properties.rs:202-231 [PropertyMap::add_from] *)
Definition add_from (m : PropertyMap) (prop : PropertyValue) (source : PropertySource) : PropertyMap :=
  let value := trim (pv_value prop) in
  if bool_decide (value = ""%string) then m
  else
    let prop := {| pv_name := pv_name prop; pv_value := value; pv_typed_expr := pv_typed_expr prop;
                   pv_is_append := pv_is_append prop |} in
    let key := key_of (pv_name prop) in
    if pv_is_append prop then
      {| props := <[key := default [] (props m !! key) ++ [prop]]> (props m);
         ref_ctx := ref_ctx m;
         sources := <[key := default [] (sources m !! key) ++ [source]]> (sources m);
         modal := delete key (modal m) |}
    else
      {| props := <[key := [prop]]> (props m);
         ref_ctx := delete key (ref_ctx m);
         sources := <[key := [source]]> (sources m);
         modal := delete key (modal m) |}.

(** crates/spar-hir-def/src/properties.rs:197-199 [PropertyMap::add] *)
Definition add (m : PropertyMap) (prop : PropertyValue) : PropertyMap := add_from m prop Unrecorded.

Definition set_ref_ctx (m : PropertyMap) (k : key) (ctx : ComponentInstanceIdx) : PropertyMap :=
  {| props := props m; ref_ctx := <[k := ctx]> (ref_ctx m); sources := sources m; modal := modal m |}.

Definition set_modal (m : PropertyMap) (k : key) (b : ModalBinding) : PropertyMap :=
  {| props := props m; ref_ctx := ref_ctx m; sources := sources m; modal := <[k := b]> (modal m) |}.

(** crates/spar-hir-def/src/properties.rs:241-258 [PropertyMap::add_with_reference_context] *)
Definition add_with_reference_context (m : PropertyMap) (prop : PropertyValue)
    (ctx : ComponentInstanceIdx) : PropertyMap :=
  let had_value := negb (bool_decide (trim (pv_value prop) = ""%string)) in
  let m := add_from m prop (Contained ctx) in
  if had_value then set_ref_ctx m (key_of (pv_name prop)) ctx else m.

(** crates/spar-hir-def/src/properties.rs:268-285 [PropertyMap::add_modal] *)
Definition add_modal (m : PropertyMap) (prop : PropertyValue) (source : PropertySource)
    (binding : option ModalBinding) (reference_context : option ComponentInstanceIdx) : PropertyMap :=
  let key := key_of (pv_name prop) in
  let has_value := negb (bool_decide (trim (pv_value prop) = ""%string)) in
  let assigns := negb (pv_is_append prop) && has_value in
  let m := add_from m prop source in
  let m := match reference_context with
           | Some ctx => if has_value then set_ref_ctx m key ctx else m
           | None => m
           end in
  match binding with Some b => if assigns then set_modal m key b else m | None => m end.

(** crates/spar-hir-def/src/properties.rs:288-290 [PropertyMap::has_modal_values] *)
Definition has_modal_values (m : PropertyMap) : bool := negb (bool_decide (modal m = ∅)).

(** crates/spar-hir-def/src/properties.rs:314-326 [PropertyMap::in_mode]: one
    iteration of the loop. *)
Definition in_mode_step (mode_of : ComponentInstanceIdx → option string) (out : PropertyMap)
    (kb : key * ModalBinding) : PropertyMap :=
  let '(key, binding) := kb in
  match mode_of (mode_context binding) with
  | None => out
  | Some mode =>
      match value_in_mode binding mode with
      | Some value =>
          {| props := <[key := [value]]> (props out); ref_ctx := ref_ctx out;
             sources := sources out; modal := modal out |}
      | None =>
          {| props := delete key (props out); ref_ctx := delete key (ref_ctx out);
             sources := sources out; modal := modal out |}
      end
  end.

(** crates/spar-hir-def/src/properties.rs:306-329 [PropertyMap::in_mode] *)
Definition in_mode (m : PropertyMap) (mode_of : ComponentInstanceIdx → option string) : PropertyMap :=
  if bool_decide (modal m = ∅) then m
  else foldl (in_mode_step mode_of) m (map_to_list (modal m)).

(** crates/spar-hir-def/src/properties.rs:344-346 [PropertyMap::has_key] *)
Definition has_key (m : PropertyMap) (k : key) : bool := bool_decide (is_Some (props m !! k)).

(** crates/spar-hir-def/src/properties.rs:360-387 [PropertyMap::insert_inherited] *)
Definition insert_inherited (m : PropertyMap) (k : key) (values : list PropertyValue)
    (ctx ancestor : ComponentInstanceIdx) (origins : list PropertySource)
    (binding : option ModalBinding) : PropertyMap :=
  let srcs := (λ i, Inherited ancestor (default Unrecorded (origins !! i))) <$> seq 0 (length values) in
  {| props := <[k := values]> (props m);
     ref_ctx := <[k := ctx]> (ref_ctx m);
     sources := <[k := srcs]> (sources m);
     modal := match binding with
              | Some b => <[k := b]> (modal m)
              | None => delete k (modal m)
              end |}.

(** crates/spar-hir-def/src/properties.rs:392-394 [PropertyMap::sources_for_key] *)
Definition sources_for_key (m : PropertyMap) (k : key) : list PropertySource :=
  default [] (sources m !! k).

(** crates/spar-hir-def/src/properties.rs:397-399 [PropertyMap::values_for_key] *)
Definition values_for_key (m : PropertyMap) (k : key) : option (list PropertyValue) := props m !! k.

(** crates/spar-hir-def/src/properties.rs:403-408 [PropertyMap::reference_context_for_key] *)
Definition reference_context_for_key (m : PropertyMap) (k : key) : option ComponentInstanceIdx :=
  ref_ctx m !! k.

(** crates/spar-hir-def/src/properties.rs:412-420 [PropertyMap::reference_context] *)
Definition reference_context (m : PropertyMap) (set name : string) : option ComponentInstanceIdx :=
  ref_ctx m !! (ci set, ci name).

(** The first value of a key, unless it is arithmetic. *)
Definition first_value (m : PropertyMap) (set name : string) : option PropertyValue :=
  match props m !! (ci set, ci name) with
  | Some (pv :: _) => if pv_is_arithmetic pv then None else Some pv
  | _ => None
  end.

(** crates/spar-hir-def/src/properties.rs:433-441 [PropertyMap::get] *)
Definition get (m : PropertyMap) (set name : string) : option string :=
  pv_value <$> first_value m set name.

(** crates/spar-hir-def/src/properties.rs:447-455 [PropertyMap::get_typed] *)
Definition get_typed (m : PropertyMap) (set name : string) : option PropertyExpr :=
  first_value m set name ≫= pv_typed_expr.

(** crates/spar-hir-def/src/properties.rs:460-472 [PropertyMap::get_all] *)
Definition get_all (m : PropertyMap) (set name : string) : list string :=
  match props m !! (ci set, ci name) with
  | Some vals => pv_value <$> List.filter (λ pv, negb (pv_is_arithmetic pv)) vals
  | None => []
  end.

(** crates/spar-hir-def/src/properties.rs:475-477 [PropertyMap::len] *)
Definition len (m : PropertyMap) : nat := size (props m).

(** ** Collecting from the item tree *)

(** crates/spar-hir-def/src/properties.rs:508-513 [PropertyMap::collect_for_component]:
    the value an association stands for. *)
Definition value_of (pa : PropertyAssociationItem) : PropertyValue :=
  {| pv_name := pa_name pa; pv_value := pa_value pa; pv_typed_expr := pa_typed_value pa;
     pv_is_append := pa_is_append pa |}.

(** crates/spar-hir-def/src/properties.rs:557-569 [PropertyMap::from_associations]: the
    loop, which layers the associations on a map; an index out of the arena panics. *)
Fixpoint add_associations (tree : ItemTree) (m : PropertyMap) (indices : list nat) : Exec PropertyMap :=
  match indices with
  | [] => Done m
  | i :: indices =>
      match property_associations tree !! i with
      | None => Panic
      | Some pa => add_associations tree (add m (value_of pa)) indices
      end
  end.

(** crates/spar-hir-def/src/properties.rs:557-569 [PropertyMap::from_associations] *)
Definition from_associations (tree : ItemTree) (indices : list nat) : Exec PropertyMap :=
  add_associations tree new indices.

(** crates/spar-hir-def/src/properties.rs:495-531 [PropertyMap::collect_for_component] *)
Definition collect_for_component (tree : ItemTree) (component_type_idx component_impl_idx : option nat)
  : Exec PropertyMap :=
  m ← match component_type_idx with
      | Some i => ct ← arena_get (component_types tree) i; add_associations tree new (ct_property_associations ct)
      | None => Done new
      end;
  match component_impl_idx with
  | Some i => c ← arena_get (component_impls tree) i; add_associations tree m (ci_property_associations c)
  | None => Done m
  end.

(** crates/spar-hir-def/src/properties.rs:535-554 [PropertyMap::collect_for_subcomponent] *)
Definition collect_for_subcomponent (tree : ItemTree) (base : PropertyMap) (subcomponent_idx : nat)
  : Exec PropertyMap :=
  sub ← arena_get (tree_subcomponents tree) subcomponent_idx;
  add_associations tree base (sub_property_associations sub).

(** ** What a property map holds

    The invariant of a map and that every operation keeps it; layering as a
    specification on the sequence of associations; and the reading of a map
    in one system operation mode. *)
(** A key with values has one source per value; a key without values has no
    source, no reference context and no modal binding. *)
Record map_ok (m : PropertyMap) : Prop := {
  ok_sources k vs : props m !! k = Some vs →
    vs ≠ [] ∧ ∃ ss, sources m !! k = Some ss ∧ length ss = length vs;
  ok_no_value k : props m !! k = None →
    sources m !! k = None ∧ ref_ctx m !! k = None ∧ modal m !! k = None;
}.

Lemma new_ok : map_ok new.
Proof. split; intros k; unfold new; simpl; rewrite ?lookup_empty; done. Qed.

(** A write at one key, seen at that key and at the others. *)
Lemma map_ok_write m k vs ss rc md :
  map_ok m → vs ≠ [] → length ss = length vs →
  (∀ k', k' ≠ k → rc !! k' = ref_ctx m !! k') → (∀ k', k' ≠ k → md !! k' = modal m !! k') →
  map_ok {| props := <[k := vs]> (props m); ref_ctx := rc; sources := <[k := ss]> (sources m); modal := md |}.
Proof.
  intros [H1 H2] Hvs Hss Hrc Hmd. split; simpl; intros k' *; destruct (decide (k' = k)) as [->|Hne].
  - rewrite !lookup_insert_eq. intros [= <-]. eauto.
  - rewrite !lookup_insert_ne by done. apply H1.
  - by rewrite lookup_insert_eq.
  - rewrite !lookup_insert_ne, Hrc, Hmd by done. apply H2.
Qed.

Lemma add_from_ok m p s : map_ok m → map_ok (add_from m p s).
Proof.
  intros Hm. unfold add_from. case_bool_decide; [done|]. simpl.
  destruct (pv_is_append p); apply map_ok_write; try done.
  - by destruct (default [] _).
  - rewrite !length_app. simpl. f_equal. destruct (props m !! key_of (pv_name p)) as [vs|] eqn:E.
    + destruct (ok_sources _ Hm _ _ E) as (_ & ss & -> & ?). done.
    + destruct (ok_no_value _ Hm _ E) as (-> & _). done.
  - intros k Hk. by rewrite lookup_delete_ne.
  - intros k Hk. by rewrite lookup_delete_ne.
  - intros k Hk. by rewrite lookup_delete_ne.
Qed.

Lemma add_from_has_key m p s :
  trim (pv_value p) ≠ ""%string → is_Some (props (add_from m p s) !! key_of (pv_name p)).
Proof.
  intros Hv. unfold add_from. rewrite bool_decide_eq_false_2 by done. simpl.
  destruct (pv_is_append p); simpl; rewrite lookup_insert_eq; by eexists.
Qed.

Lemma set_ref_ctx_ok m k c : map_ok m → is_Some (props m !! k) → map_ok (set_ref_ctx m k c).
Proof.
  intros [H1 H2] [vs Hk]. split; simpl; [done|]. intros k' E. destruct (H2 k' E) as (? & ? & ?).
  split_and!; try done. rewrite lookup_insert_ne; [done|]. congruence.
Qed.

Lemma set_modal_ok m k b : map_ok m → is_Some (props m !! k) → map_ok (set_modal m k b).
Proof.
  intros [H1 H2] [vs Hk]. split; simpl; [done|]. intros k' E. destruct (H2 k' E) as (? & ? & ?).
  split_and!; try done. rewrite lookup_insert_ne; [done|]. congruence.
Qed.

#[local] Hint Resolve add_from_ok set_ref_ctx_ok set_modal_ok add_from_has_key new_ok : spar.

Lemma add_associations_ok tree m ids m' :
  map_ok m → add_associations tree m ids = Done m' → map_ok m'.
Proof.
  revert m. induction ids as [|i ids IH]; simpl; intros m Hm; [by intros [= <-]|].
  destruct (property_associations tree !! i); [|done]. apply IH. unfold add. auto with spar.
Qed.

(** The value as the map keeps it. *)
Definition trimmed (p : PropertyValue) : PropertyValue :=
  {| pv_name := pv_name p; pv_value := trim (pv_value p); pv_typed_expr := pv_typed_expr p;
     pv_is_append := pv_is_append p |}.

(** ** The history of a map

    For each key the values that were given to it and still count, each with
    its own source, in the order in which they were given. *)
Definition history : Type := key → list (PropertyValue * PropertySource).

(** A value is written: a blank one is passed over, an appended one is put at
    the end, any other starts afresh; the other keys keep what they have. *)
Definition written (p : PropertyValue) (s : PropertySource) (h : history) : history := λ k,
  if decide (key_of (pv_name p) = k ∧ trim (pv_value p) ≠ ""%string) then
    (if pv_is_append p then h k else []) ++ [(trimmed p, s)]
  else h k.

(** A key inherits what an ancestor has, each value with its source there. *)
Definition handed_down (k : key) (ancestor : ComponentInstanceIdx) (hs h : history) : history := λ k',
  if decide (k' = k) then (λ vo, (vo.1, Inherited ancestor vo.2)) <$> hs k else h k'.

(** The associations of an item tree are written one after the other, without
    a source. *)
Fixpoint associated (tree : ItemTree) (indices : list nat) (h : history) : history :=
  match indices with
  | [] => h
  | i :: indices =>
      associated tree indices (from_option (λ pa, written (value_of pa) Unrecorded h) h (property_associations tree !! i))
  end.

(** The maps that the building operations make, and their histories. *)
Inductive built : PropertyMap → history → Prop :=
  | built_new : built new (λ _, [])
  | built_add m h p s : built m h → built (add_from m p s) (written p s h)
  | built_add_ctx m h p c : built m h → built (add_with_reference_context m p c) (written p (Contained c) h)
  | built_add_modal m h p s b c : built m h → built (add_modal m p s b c) (written p s h)
  | built_inherited m h k anc hs vs ctx a binding :
      built m h → built anc hs → values_for_key anc k = Some vs →
      built (insert_inherited m k vs ctx a (sources_for_key anc k) binding) (handed_down k a hs h)
  | built_associations tree m h ids m' :
      built m h → add_associations tree m ids = Done m' → built m' (associated tree ids h).

(** What a table has of a key: a column of its history, unless that is empty. *)
Definition column {A} (f : PropertyValue * PropertySource → A) (l : list (PropertyValue * PropertySource)) : option (list A) :=
  match l with [] => None | _ => Some (f <$> l) end.

Lemma column_default {A} (f : _ → A) l : default [] (column f l) = f <$> l.
Proof. by destruct l. Qed.

Lemma column_snoc {A} (f : _ → A) l x : column f (l ++ [x]) = Some ((f <$> l) ++ [f x]).
Proof. unfold column. destruct l; [done|]. cbn. by rewrite fmap_app. Qed.

Definition holds_history (m : PropertyMap) (h : history) : Prop :=
  ∀ k, props m !! k = column fst (h k) ∧ sources m !! k = column snd (h k).

Lemma add_from_history m h p s : holds_history m h → holds_history (add_from m p s) (written p s h).
Proof.
  intros H k. destruct (H k) as [Hp Hs]. unfold add_from, written. case_bool_decide as Hb; cbn zeta.
  { rewrite decide_False; [done|]. by intros [_ ?]. }
  destruct (decide (key_of (pv_name p) = k)) as [<-|Hne].
  - rewrite decide_True by done. rewrite !column_snoc. unfold trimmed. cbn.
    destruct (pv_is_append p); cbn; rewrite ?lookup_insert_eq; [|done]. by rewrite Hp, Hs, !column_default.
  - rewrite decide_False by (by intros [? _]). destruct (pv_is_append p); cbn; by rewrite !lookup_insert_ne.
Qed.

Lemma add_associations_history tree m h ids m' :
  holds_history m h → add_associations tree m ids = Done m' → holds_history m' (associated tree ids h).
Proof.
  revert m h. induction ids as [|i ids IH]; cbn; intros m h H; [by intros [= <-]|].
  destruct (property_associations tree !! i) as [pa|]; [|done]. apply IH. by apply add_from_history.
Qed.

Lemma inherited_sources a (l : list (PropertyValue * PropertySource)) :
  (λ i, Inherited a (default Unrecorded ((snd <$> l) !! i))) <$> seq 0 (length l) = (λ vo, Inherited a vo.2) <$> l.
Proof.
  apply list_eq. intros i. rewrite !list_lookup_fmap. destruct (l !! i) as [[v o]|] eqn:E.
  - rewrite lookup_seq_lt by by eapply lookup_lt_Some. cbn. by rewrite list_lookup_fmap, E.
  - apply lookup_ge_None in E. by rewrite lookup_seq_ge.
Qed.

Lemma inherited_history m h k anc hs vs ctx a binding :
  holds_history m h → holds_history anc hs → values_for_key anc k = Some vs →
  holds_history (insert_inherited m k vs ctx a (sources_for_key anc k) binding) (handed_down k a hs h).
Proof.
  intros H Ha Hv k'. unfold handed_down. destruct (decide (k' = k)) as [->|Hne]; cbn [insert_inherited props sources].
  2: { rewrite !lookup_insert_ne by done. apply H. }
  rewrite !lookup_insert_eq. destruct (Ha k) as [Hp Hs]. unfold values_for_key in Hv. rewrite Hv in Hp.
  unfold sources_for_key. rewrite Hs, column_default.
  assert (vs = fst <$> hs k) as -> by (destruct (hs k); [done|by injection Hp]). rewrite length_fmap, inherited_sources.
  unfold column. destruct (hs k) as [|e es]; [done|]. cbn. by rewrite <- !list_fmap_compose.
Qed.

Lemma built_history m h : built m h → holds_history m h.
Proof.
  induction 1 as [|m h p s _ IH|m h p c _ IH|m h p s b c _ IH|m h k anc hs vs ctx a bd _ IH1 _ IH2 Hv|tree m h ids m' _ IH E].
  - intros k. cbn. by rewrite !lookup_empty.
  - by apply add_from_history.
  - pose proof (add_from_history m h p (Contained c) IH) as H. unfold add_with_reference_context. by destruct (negb _).
  - pose proof (add_from_history m h p s IH) as H. unfold add_modal. cbn zeta. by destruct b, c; repeat destruct (_ && _); repeat destruct (negb _).
  - by apply inherited_history.
  - by eapply add_associations_history.
Qed.

Lemma built_ok m h : built m h → map_ok m.
Proof.
  induction 1 as [|m h p s _ IH|m h p c _ IH|m h p s b c _ IH|m h k anc hs vs ctx a bd _ IH1 _ IH2 Hv|]; auto with spar.
  - unfold add_with_reference_context. case_bool_decide; simpl; auto with spar.
  - unfold add_modal. case_bool_decide as Hv; rewrite ?andb_false_r; simpl;
      rewrite ?andb_true_r; destruct c, b; auto with spar; destruct (negb _); auto with spar.
    apply set_modal_ok; auto with spar; by apply (add_from_has_key m p s).
  - destruct (ok_sources _ IH2 _ _ Hv) as [Hne _]. apply map_ok_write; try done.
    + by rewrite length_fmap, length_seq.
    + intros k' Hk. by rewrite lookup_insert_ne.
    + intros k' Hk. destruct bd; [by rewrite lookup_insert_ne|by rewrite lookup_delete_ne].
  - by eapply add_associations_ok.
Qed.

(** Reading in a mode leaves the sources and the modal bindings alone, and the
    values of every key that has no binding. *)
Lemma in_mode_fold_tables mode_of kbs m :
  sources (foldl (in_mode_step mode_of) m kbs) = sources m ∧
  ∀ k, k ∉ kbs.*1 → props (foldl (in_mode_step mode_of) m kbs) !! k = props m !! k.
Proof.
  revert m. induction kbs as [|[k' b] kbs IH]; intros m; [done|]. cbn [foldl]. destruct (IH (in_mode_step mode_of m (k', b))) as [-> Hv].
  split; [cbn; destruct (mode_of _); [by destruct (value_in_mode _ _)|done]|].
  intros k. rewrite fmap_cons, not_elem_of_cons. intros [Hne Hk]. rewrite Hv by done. cbn. destruct (mode_of _); [|done].
  destruct (value_in_mode b _); cbn; [by rewrite lookup_insert_ne|by rewrite lookup_delete_ne].
Qed.

(** C36: a property map holds what its history says.  However [add],
    [add_from], [add_with_reference_context], [add_modal], [insert_inherited]
    (of what another such map holds) and the collection of associations build
    a map, its values of a key are those given to it since the last plain
    assignment or inheritance, with it, blanks left out, and its sources are the sources these very
    values were given with, in the same order; a value that is inherited has
    the source it has in the ancestor, marked as inherited from it.  A key has
    an entry exactly when it has a value, and one without has no source, no
    reference context and no modal binding left over.  [in_mode] is not one
    of these operations: it leaves the sources as they are and replaces the
    values of keys that have a modal binding, so only for the others do
    values and sources still agree in the map it makes. *)
Theorem property_map_invariant m h k :
  built m h →
  values_for_key m k = column fst (h k) ∧
  sources_for_key m k = snd <$> h k ∧
  (h k = [] → reference_context_for_key m k = None ∧ modal m !! k = None) ∧
  ∀ mode_of, sources_for_key (in_mode m mode_of) k = snd <$> h k ∧
    (modal m !! k = None → values_for_key (in_mode m mode_of) k = column fst (h k)).
Proof.
  intros H. destruct (built_history m h H k) as [Hp Hs]. pose proof (built_ok m h H) as Hok.
  unfold sources_for_key, values_for_key, reference_context_for_key. rewrite Hs, column_default.
  split_and!; [done|done| |].
  - intros E. rewrite E in Hp. by destruct (ok_no_value _ Hok _ Hp) as (_ & -> & ->).
  - intros mode_of. unfold in_mode. case_bool_decide; [by rewrite Hs, column_default|].
    destruct (in_mode_fold_tables mode_of (map_to_list (modal m)) m) as [-> Hv]. rewrite Hs, column_default. split; [done|].
    intros Hm. rewrite Hv, Hp; [done|]. intros ([k' b] & -> & Hin)%list_elem_of_fmap.
    apply elem_of_map_to_list in Hin. cbn in Hm. congruence.
Qed.

(** ** Layering *)

(** The values given to one key, blank ones left out, in order. *)
Definition given (k : key) (ps : list PropertyValue) : list PropertyValue :=
  trimmed <$> filter (λ p, key_of (pv_name p) = k ∧ trim (pv_value p) ≠ ""%string) ps.

Lemma given_cons k p ps :
  given k (p :: ps) =
  (if decide (key_of (pv_name p) = k ∧ trim (pv_value p) ≠ ""%string) then [trimmed p] else []) ++ given k ps.
Proof. unfold given. rewrite filter_cons. by destruct (decide _). Qed.

Lemma add_values m p s k :
  props (add_from m p s) !! k =
  if decide (key_of (pv_name p) = k ∧ trim (pv_value p) ≠ ""%string) then
    Some (if pv_is_append p then default [] (props m !! k) ++ [trimmed p] else [trimmed p])
  else props m !! k.
Proof.
  unfold add_from. case_bool_decide as Hb; simpl.
  - rewrite decide_False; [done|]. by intros [_ ?].
  - destruct (decide (key_of (pv_name p) = k)) as [<-|Hne].
    + rewrite decide_True by done. unfold trimmed.
      by destruct (pv_is_append p); simpl; rewrite lookup_insert_eq.
    + rewrite decide_False by (by intros [? _]).
      by destruct (pv_is_append p); simpl; rewrite lookup_insert_ne.
Qed.

(** Values layered on those a key has already: the last assignment starts
    the list afresh, an append extends it. *)
Definition layered (base rel res : list PropertyValue) : Prop :=
  (Forall (λ p, pv_is_append p = true) rel ∧ res = base ++ rel) ∨
  (∃ pre a post, rel = pre ++ a :: post ∧ pv_is_append a = false ∧
     Forall (λ p, pv_is_append p = true) post ∧ res = a :: post).

Lemma layered_cons base p rel res :
  layered (if pv_is_append p then base ++ [p] else [p]) rel res → layered base (p :: rel) res.
Proof.
  intros [[Ha ->]|(pre & a & post & -> & Ha & Hpost & ->)].
  - destruct (pv_is_append p) eqn:E.
    + left. split; [by constructor|]. by rewrite <- app_assoc.
    + right. by exists [], p, rel.
  - right. by exists (p :: pre), a, post.
Qed.

Lemma add_associations_spec tree m ids :
  Forall (λ i, i < length (property_associations tree)) ids →
  ∃ m' pas, add_associations tree m ids = Done m' ∧
    Forall2 (λ i pa, property_associations tree !! i = Some pa) ids pas ∧
    ∀ k, layered (default [] (props m !! k)) (given k (value_of <$> pas)) (default [] (props m' !! k)).
Proof.
  intros H. revert m. induction H as [|i ids Hi _ IH]; intros m; simpl.
  - exists m, []. split_and!; [done|constructor|]. intros k. left. split; [constructor|].
    by rewrite app_nil_r.
  - apply lookup_lt_is_Some in Hi as [pa Hpa]. rewrite Hpa.
    destruct (IH (add m (value_of pa))) as (m' & pas & -> & Hpas & Hk). exists m', (pa :: pas).
    split_and!; [done|by constructor|]. intros k. specialize (Hk k). rewrite fmap_cons, given_cons.
    unfold add in Hk. rewrite add_values in Hk. case_decide; simpl in Hk; [|done].
    change ((pa_is_append pa)) with (pv_is_append (trimmed (value_of pa))) in Hk.
    by apply layered_cons.
Qed.

(** Collecting a list of property associations panics exactly on an
    index outside the arena; otherwise the values of each key are what the
    associations give it, blank values skipped and the others trimmed: the
    last plain assignment followed by the appends after it, or, when there is
    none, all the appends; a lookup reads the first of them, unless it is
    arithmetic. *)
Theorem from_associations_exact tree ids :
  (Exists (λ i, length (property_associations tree) ≤ i) ids → from_associations tree ids = Panic) ∧
  (Forall (λ i, i < length (property_associations tree)) ids →
   ∃ m pas, from_associations tree ids = Done m ∧
     Forall2 (λ i pa, property_associations tree !! i = Some pa) ids pas ∧
     ∀ set name, let vs := default [] (values_for_key m (ci set, ci name)) in
       layered [] (given (ci set, ci name) (value_of <$> pas)) vs ∧
       get m set name = match vs with
                        | v :: _ => if pv_is_arithmetic v then None else Some (pv_value v)
                        | [] => None
                        end).
Proof.
  unfold from_associations. split.
  - generalize new. induction ids as [|i ids IH]; intros m H; [by inversion H|]. simpl.
    destruct (property_associations tree !! i) as [pa|] eqn:E; [|done].
    apply IH. apply lookup_lt_Some in E. inversion H; subst; [lia|done].
  - intros H. destruct (add_associations_spec tree new ids H) as (m & pas & Hm & Hpas & Hk).
    exists m, pas. split_and!; [done..|]. intros set name. simpl. split; [apply (Hk (ci set, ci name))|].
    unfold get, first_value, values_for_key. destruct (props m !! _) as [[|v vs]|]; simpl; [done| |done].
    by destruct (pv_is_arithmetic v).
Qed.

(** ** Modes *)

Definition names_mode (mode : string) (mv : ModalValue) : Prop :=
  ∃ m, m ∈ mv_in_modes mv ∧ eq_ci m mode = true.

Lemma existsb_names mode mv :
  existsb (λ m, eq_ignore_ascii_case m mode) (mv_in_modes mv) = true ↔ names_mode mode mv.
Proof. unfold names_mode. rewrite existsb_exists. by setoid_rewrite <- list_elem_of_In. Qed.

(** The last of the values that have no modes. *)
Definition unmoded (values : list ModalValue) : option PropertyValue :=
  mv_value <$> last (filter (λ mv, mv_in_modes mv = []) values).

Lemma unmoded_cons mv values :
  unmoded (mv :: values) =
  match unmoded values with
  | Some v => Some v
  | None => if decide (mv_in_modes mv = []) then Some (mv_value mv) else None
  end.
Proof.
  unfold unmoded. rewrite filter_cons. case_decide; [|by destruct (last _)].
  rewrite last_cons. by destruct (last _).
Qed.

Lemma value_in_mode_from_spec d mode values :
  (∃ pre mv post, values = pre ++ mv :: post ∧ Forall (λ x, ¬ names_mode mode x) pre ∧
     names_mode mode mv ∧ value_in_mode_from d mode values = Some (mv_value mv)) ∨
  (Forall (λ x, ¬ names_mode mode x) values ∧
     value_in_mode_from d mode values = match unmoded values with Some v => Some v | None => d end).
Proof.
  revert d. induction values as [|mv values IH]; intros d; [by right|].
  rewrite unmoded_cons. cbn [value_in_mode_from].
  assert (Hno : mv_in_modes mv = [] → ¬ names_mode mode mv).
  { intros E (m & Hm & _). rewrite E in Hm. by apply not_elem_of_nil in Hm. }
  destruct (mv_in_modes mv) as [|m ms] eqn:E.
  - destruct (IH (Some (mv_value mv))) as [(pre & x & post & -> & Hpre & Hx & ->)|[Hn ->]].
    + left. exists (mv :: pre), x, post. split_and!; try done. by constructor; [apply Hno|].
    + right. split; [by constructor; [apply Hno|]|]. rewrite decide_True by done. by destruct (unmoded values).
  - rewrite <- E. destruct (existsb _ _) eqn:Ex.
    + left. exists [], mv, values. split_and!; try done. by apply existsb_names.
    + assert (¬ names_mode mode mv) by (by rewrite <- existsb_names, Ex).
      destruct (IH d) as [(pre & x & post & -> & Hpre & Hx & ->)|[Hn ->]].
      * left. exists (mv :: pre), x, post. split_and!; try done. by constructor.
      * right. split; [by constructor|]. rewrite decide_False by (by rewrite E).
        by destruct (unmoded values).
Qed.

(** What one key reads as in a system operation mode. *)
Definition read_in_mode (mode_of : ComponentInstanceIdx → option string) (b : ModalBinding)
    (vs : option (list PropertyValue)) : option (list PropertyValue) :=
  match mode_of (mode_context b) with
  | Some mode => (λ v, [v]) <$> value_in_mode b mode
  | None => vs
  end.

Lemma in_mode_step_ne mode_of m k k' b : k ≠ k' → props (in_mode_step mode_of m (k', b)) !! k = props m !! k.
Proof.
  intros Hne. simpl. destruct (mode_of _); [|done].
  destruct (value_in_mode b _); simpl; [by rewrite lookup_insert_ne|by rewrite lookup_delete_ne].
Qed.

Lemma in_mode_step_eq mode_of m k b :
  props (in_mode_step mode_of m (k, b)) !! k = read_in_mode mode_of b (props m !! k).
Proof.
  unfold read_in_mode. simpl. destruct (mode_of _); [|done].
  destruct (value_in_mode b _); simpl; [by rewrite lookup_insert_eq|by rewrite lookup_delete_eq].
Qed.

Lemma in_mode_fold_ne mode_of kbs m k :
  k ∉ kbs.*1 → props (foldl (in_mode_step mode_of) m kbs) !! k = props m !! k.
Proof.
  revert m. induction kbs as [|[k' b] kbs IH]; intros m; [done|]. rewrite fmap_cons, not_elem_of_cons.
  intros [Hne Hk]. cbn [foldl]. rewrite IH by done. by apply in_mode_step_ne.
Qed.

Lemma in_mode_fold_eq mode_of kbs m k b :
  NoDup kbs.*1 → (k, b) ∈ kbs →
  props (foldl (in_mode_step mode_of) m kbs) !! k = read_in_mode mode_of b (props m !! k).
Proof.
  revert m. induction kbs as [|[k' b'] kbs IH]; intros m Hnd; [by intros ?%not_elem_of_nil|].
  rewrite fmap_cons, NoDup_cons in Hnd. destruct Hnd as [Hk' Hnd]. cbn [foldl].
  intros [[= -> ->]|Hin]%elem_of_cons.
  - rewrite in_mode_fold_ne by done. apply in_mode_step_eq.
  - rewrite IH by done. rewrite in_mode_step_ne; [done|]. intros ->. apply Hk'.
    by apply (list_elem_of_fmap_2 fst kbs (k', b)).
Qed.

Lemma in_mode_values m mode_of k :
  values_for_key (in_mode m mode_of) k =
  match modal m !! k with
  | Some b => read_in_mode mode_of b (values_for_key m k)
  | None => values_for_key m k
  end.
Proof.
  unfold in_mode, values_for_key. case_bool_decide as E; [by rewrite E, lookup_empty|].
  destruct (modal m !! k) as [b|] eqn:Eb.
  - apply in_mode_fold_eq; [apply NoDup_fst_map_to_list|]. by apply elem_of_map_to_list.
  - apply in_mode_fold_ne. intros ([k' b] & -> & Hin)%list_elem_of_fmap.
    apply elem_of_map_to_list in Hin. simpl in Eb. congruence.
Qed.

(** C37: A map read in a system operation mode: a key without modal values
    keeps its values, and so does one whose declarer has no selected mode;
    any other key has the value of the first entry that names the mode, case
    ignored, otherwise the last entry without modes, otherwise no value at
    all. *)
Theorem in_mode_exact m mode_of k :
  (modal m !! k = None → values_for_key (in_mode m mode_of) k = values_for_key m k) ∧
  (∀ b, modal m !! k = Some b → mode_of (mode_context b) = None →
     values_for_key (in_mode m mode_of) k = values_for_key m k) ∧
  (∀ b mode, modal m !! k = Some b → mode_of (mode_context b) = Some mode →
     (∃ pre mv post, mb_values b = pre ++ mv :: post ∧ Forall (λ x, ¬ names_mode mode x) pre ∧
        names_mode mode mv ∧ values_for_key (in_mode m mode_of) k = Some [mv_value mv]) ∨
     (Forall (λ x, ¬ names_mode mode x) (mb_values b) ∧
        values_for_key (in_mode m mode_of) k = (λ v, [v]) <$> unmoded (mb_values b))).
Proof.
  rewrite in_mode_values. split_and!.
  - by intros ->.
  - intros b -> Hm. unfold read_in_mode. by rewrite Hm.
  - intros b mode -> Hm. unfold read_in_mode. rewrite Hm. unfold value_in_mode.
    destruct (value_in_mode_from_spec None mode (mb_values b)) as
      [(pre & mv & post & Hb & Hpre & Hx & E)|[Hn ->]].
    + left. exists pre, mv, post. split_and!; try done. by rewrite E.
    + right. split; [done|]. by destruct (unmoded (mb_values b)).
Qed.

(** A key that has no value in the mode keeps its recorded source: the
    source list is no longer aligned with the (absent) values. *)
Lemma in_mode_keeps_sources :
  let name := {| property_set := None; property_name := "P" |} in
  let v := {| pv_name := name; pv_value := "1"; pv_typed_expr := None; pv_is_append := false |} in
  let b := {| mode_context := 0; mb_values := [{| mv_in_modes := ["fast"%string]; mv_value := v |}] |} in
  let m := in_mode (add_modal new v DeclaredLocal (Some b) None) (λ _, Some "slow"%string) in
  values_for_key m (key_of name) = None ∧ sources_for_key m (key_of name) = [DeclaredLocal].
Proof. by vm_compute. Qed.

Definition map_ex : PropertyMap :=
  add_from new {| pv_name := {| property_set := None; property_name := "Period" |}; pv_value := " 5 ms ";
                  pv_typed_expr := None; pv_is_append := false |} DeclaredLocal.

Lemma property_map_invariant_witness :
  ∃ h, built map_ex h ∧ values_for_key map_ex (ci "", ci "PERIOD") = column fst (h (ci "", ci "PERIOD")) ∧
    sources_for_key map_ex (ci "", ci "PERIOD") = [DeclaredLocal].
Proof.
  eexists. assert (H : built map_ex (written {| pv_name := {| property_set := None; property_name := "Period" |}; pv_value := " 5 ms ";
    pv_typed_expr := None; pv_is_append := false |} DeclaredLocal (λ _, []))) by (apply built_add, built_new).
  split; [exact H|]. destruct (property_map_invariant map_ex _ (ci "", ci "PERIOD") H) as (Hv & Hs & _).
  split; [exact Hv|]. rewrite Hs. vm_compute. reflexivity.
Defined.
