(* ===== verification/Instance.v ===== *)
(** * The instance model

    [crates/spar-hir-def/src/instance.rs]: the flattened component hierarchy
    every analysis runs on, with the operations that work on it once it is
    built: name resolution, the semantic connections traced through the
    hierarchy and the system operation modes.  An arena is a list, an index
    into it a number, and an index outside it panics. *)
From S2P Require Import Prelude.
From S2P Require Import Diagnostics.
From S2P Require Import CategoryRules.
From S2P Require Import Names.
From S2P Require Import PropertyExpr.
From S2P Require Import ItemTree.
From S2P Require Import PropertyMap.
From Stdlib Require Import Ascii.
From stdpp Require Import gmap pretty.
From Stdlib Require String.
From stdpp Require Import gmap.

Abbreviation ConnectionInstanceIdx := nat (only parsing).
Abbreviation ModeInstanceIdx := nat (only parsing).
Abbreviation ModeTransitionInstanceIdx := nat (only parsing).
Abbreviation FeatureInstanceIdx := nat (only parsing).
Abbreviation FlowInstanceIdx := nat (only parsing).

(** crates/spar-hir-def/src/instance.rs:37-43 [SystemOperationMode] *)
Record SystemOperationMode := {
  som_name : string;
  mode_selections : list (ComponentInstanceIdx * ModeInstanceIdx);
}.

(** crates/spar-hir-def/src/instance.rs:80-98 [ComponentInstance] *)
Record ComponentInstance := {
  name : Name;
  category : ComponentCategory;
  comp_type_name : Name;
  comp_impl_name : option Name;
  comp_package : Name;
  parent : option ComponentInstanceIdx;
  children : list ComponentInstanceIdx;
  features : list FeatureInstanceIdx;
  connections : list ConnectionInstanceIdx;
  flows : list FlowInstanceIdx;
  modes : list ModeInstanceIdx;
  mode_transitions : list ModeTransitionInstanceIdx;
  array_index : option u64;
  comp_in_modes : list Name;
}.

(** crates/spar-hir-def/src/instance.rs:102-118 [FeatureInstance] *)
Record FeatureInstance := {
  feat_name : Name;
  feat_kind : FeatureKind;
  direction : option Direction;
  feat_owner : ComponentInstanceIdx;
  feat_classifier : option ClassifierRef;
  access_kind : option AccessKind;
  feat_array_index : option u64;
  data_size_bytes : option u64;
}.

(** crates/spar-hir-def/src/instance.rs:139-144 [ConnectionEnd] *)
Record ConnectionEnd := { subcomponent : option Name; feature : Name }.

(** crates/spar-hir-def/src/instance.rs:122-135 [ConnectionInstance] *)
Record ConnectionInstance := {
  conn_name : Name;
  conn_kind : ConnectionKind;
  is_bidirectional : bool;
  conn_owner : ComponentInstanceIdx;
  src : option ConnectionEnd;
  dst : option ConnectionEnd;
  conn_in_modes : list Name;
}.

(** crates/spar-hir-def/src/instance.rs:148-161 [FlowInstance] *)
Record FlowInstance := {
  flow_name : Name;
  flow_kind : FlowKind;
  flow_owner : ComponentInstanceIdx;
  impl_segments : option (list FlowSegment);
}.

(** crates/spar-hir-def/src/instance.rs:165-179 [EndToEndFlowInstance] *)
Record EndToEndFlowInstance := {
  e2e_name : Name;
  e2e_owner : ComponentInstanceIdx;
  e2e_segments : list Name;
  e2e_properties : PropertyMap;
}.

(** crates/spar-hir-def/src/instance.rs:202-206 [ModeInstance] *)
Record ModeInstance := { mode_name : Name; is_initial : bool; mode_owner : ComponentInstanceIdx }.

(** crates/spar-hir-def/src/instance.rs:210-216 [ModeTransitionInstance] *)
Record ModeTransitionInstance := {
  mt_name : option Name;
  mt_source : Name;
  mt_destination : Name;
  mt_triggers : list Name;
  mt_owner : ComponentInstanceIdx;
}.

(** crates/spar-hir-def/src/instance.rs:224-235 [SemanticConnection] *)
Record SemanticConnection := {
  sem_name : Name;
  sem_kind : ConnectionKind;
  ultimate_source : ComponentInstanceIdx * Name;
  ultimate_destination : ComponentInstanceIdx * Name;
  connection_path : list ConnectionInstanceIdx;
}.

(** crates/spar-hir-def/src/instance.rs:239-242 [InstanceDiagnostic] *)
Record InstanceDiagnostic := { inst_message : string; inst_path : list Name }.

(** crates/spar-hir-def/src/instance.rs:47-76 [SystemInstance] *)
Record SystemInstance := {
  root : ComponentInstanceIdx;
  components : list ComponentInstance;
  feature_instances : list FeatureInstance;
  connection_instances : list ConnectionInstance;
  flow_instances : list FlowInstance;
  e2e_flow_instances : list EndToEndFlowInstance;
  mode_instances : list ModeInstance;
  mode_transition_instances : list ModeTransitionInstance;
  diagnostics : list InstanceDiagnostic;
  property_maps : gmap ComponentInstanceIdx PropertyMap;
  feature_property_maps : gmap FeatureInstanceIdx PropertyMap;
  connection_property_maps : gmap ConnectionInstanceIdx PropertyMap;
  emv2_models : gmap ComponentInstanceIdx (list Emv2Model);
  semantic_connections : list SemanticConnection;
  system_operation_modes : list SystemOperationMode;
}.

(** ** One field replaced *)

(** An instance with nothing in it. *)
Definition empty_instance : SystemInstance :=
  {| root := 0; components := []; feature_instances := []; connection_instances := []; flow_instances := [];
     e2e_flow_instances := []; mode_instances := []; mode_transition_instances := []; diagnostics := [];
     property_maps := ∅; feature_property_maps := ∅; connection_property_maps := ∅; emv2_models := ∅;
     semantic_connections := []; system_operation_modes := [] |}.

Definition set_root (v : ComponentInstanceIdx) (i : SystemInstance) : SystemInstance :=
  {| root := v; components := components i; feature_instances := feature_instances i;
     connection_instances := connection_instances i; flow_instances := flow_instances i;
     e2e_flow_instances := e2e_flow_instances i; mode_instances := mode_instances i;
     mode_transition_instances := mode_transition_instances i; diagnostics := diagnostics i;
     property_maps := property_maps i; feature_property_maps := feature_property_maps i;
     connection_property_maps := connection_property_maps i; emv2_models := emv2_models i;
     semantic_connections := semantic_connections i; system_operation_modes := system_operation_modes i |}.

Definition set_components (v : list ComponentInstance) (i : SystemInstance) : SystemInstance :=
  {| root := root i; components := v; feature_instances := feature_instances i; connection_instances :=
     connection_instances i; flow_instances := flow_instances i; e2e_flow_instances :=
     e2e_flow_instances i; mode_instances := mode_instances i; mode_transition_instances :=
     mode_transition_instances i; diagnostics := diagnostics i; property_maps := property_maps i;
     feature_property_maps := feature_property_maps i; connection_property_maps :=
     connection_property_maps i; emv2_models := emv2_models i; semantic_connections :=
     semantic_connections i; system_operation_modes := system_operation_modes i |}.

Definition set_feature_instances (v : list FeatureInstance) (i : SystemInstance) : SystemInstance :=
  {| root := root i; components := components i; feature_instances := v; connection_instances :=
     connection_instances i; flow_instances := flow_instances i; e2e_flow_instances :=
     e2e_flow_instances i; mode_instances := mode_instances i; mode_transition_instances :=
     mode_transition_instances i; diagnostics := diagnostics i; property_maps := property_maps i;
     feature_property_maps := feature_property_maps i; connection_property_maps :=
     connection_property_maps i; emv2_models := emv2_models i; semantic_connections :=
     semantic_connections i; system_operation_modes := system_operation_modes i |}.

Definition set_connection_instances (v : list ConnectionInstance) (i : SystemInstance) : SystemInstance :=
  {| root := root i; components := components i; feature_instances := feature_instances i;
     connection_instances := v; flow_instances := flow_instances i; e2e_flow_instances :=
     e2e_flow_instances i; mode_instances := mode_instances i; mode_transition_instances :=
     mode_transition_instances i; diagnostics := diagnostics i; property_maps := property_maps i;
     feature_property_maps := feature_property_maps i; connection_property_maps :=
     connection_property_maps i; emv2_models := emv2_models i; semantic_connections :=
     semantic_connections i; system_operation_modes := system_operation_modes i |}.

Definition set_flow_instances (v : list FlowInstance) (i : SystemInstance) : SystemInstance :=
  {| root := root i; components := components i; feature_instances := feature_instances i;
     connection_instances := connection_instances i; flow_instances := v; e2e_flow_instances :=
     e2e_flow_instances i; mode_instances := mode_instances i; mode_transition_instances :=
     mode_transition_instances i; diagnostics := diagnostics i; property_maps := property_maps i;
     feature_property_maps := feature_property_maps i; connection_property_maps :=
     connection_property_maps i; emv2_models := emv2_models i; semantic_connections :=
     semantic_connections i; system_operation_modes := system_operation_modes i |}.

Definition set_e2e_flow_instances (v : list EndToEndFlowInstance) (i : SystemInstance) : SystemInstance :=
  {| root := root i; components := components i; feature_instances := feature_instances i;
     connection_instances := connection_instances i; flow_instances := flow_instances i;
     e2e_flow_instances := v; mode_instances := mode_instances i; mode_transition_instances :=
     mode_transition_instances i; diagnostics := diagnostics i; property_maps := property_maps i;
     feature_property_maps := feature_property_maps i; connection_property_maps :=
     connection_property_maps i; emv2_models := emv2_models i; semantic_connections :=
     semantic_connections i; system_operation_modes := system_operation_modes i |}.

Definition set_mode_instances (v : list ModeInstance) (i : SystemInstance) : SystemInstance :=
  {| root := root i; components := components i; feature_instances := feature_instances i;
     connection_instances := connection_instances i; flow_instances := flow_instances i;
     e2e_flow_instances := e2e_flow_instances i; mode_instances := v; mode_transition_instances :=
     mode_transition_instances i; diagnostics := diagnostics i; property_maps := property_maps i;
     feature_property_maps := feature_property_maps i; connection_property_maps :=
     connection_property_maps i; emv2_models := emv2_models i; semantic_connections :=
     semantic_connections i; system_operation_modes := system_operation_modes i |}.

Definition set_mode_transition_instances (v : list ModeTransitionInstance) (i : SystemInstance) : SystemInstance :=
  {| root := root i; components := components i; feature_instances := feature_instances i;
     connection_instances := connection_instances i; flow_instances := flow_instances i;
     e2e_flow_instances := e2e_flow_instances i; mode_instances := mode_instances i;
     mode_transition_instances := v; diagnostics := diagnostics i; property_maps := property_maps i;
     feature_property_maps := feature_property_maps i; connection_property_maps :=
     connection_property_maps i; emv2_models := emv2_models i; semantic_connections :=
     semantic_connections i; system_operation_modes := system_operation_modes i |}.

Definition set_diagnostics (v : list InstanceDiagnostic) (i : SystemInstance) : SystemInstance :=
  {| root := root i; components := components i; feature_instances := feature_instances i;
     connection_instances := connection_instances i; flow_instances := flow_instances i;
     e2e_flow_instances := e2e_flow_instances i; mode_instances := mode_instances i;
     mode_transition_instances := mode_transition_instances i; diagnostics := v; property_maps :=
     property_maps i; feature_property_maps := feature_property_maps i; connection_property_maps :=
     connection_property_maps i; emv2_models := emv2_models i; semantic_connections :=
     semantic_connections i; system_operation_modes := system_operation_modes i |}.

Definition set_property_maps (v : gmap ComponentInstanceIdx PropertyMap) (i : SystemInstance) : SystemInstance :=
  {| root := root i; components := components i; feature_instances := feature_instances i;
     connection_instances := connection_instances i; flow_instances := flow_instances i;
     e2e_flow_instances := e2e_flow_instances i; mode_instances := mode_instances i;
     mode_transition_instances := mode_transition_instances i; diagnostics := diagnostics i;
     property_maps := v; feature_property_maps := feature_property_maps i; connection_property_maps :=
     connection_property_maps i; emv2_models := emv2_models i; semantic_connections :=
     semantic_connections i; system_operation_modes := system_operation_modes i |}.

Definition set_feature_property_maps (v : gmap FeatureInstanceIdx PropertyMap) (i : SystemInstance) : SystemInstance :=
  {| root := root i; components := components i; feature_instances := feature_instances i;
     connection_instances := connection_instances i; flow_instances := flow_instances i;
     e2e_flow_instances := e2e_flow_instances i; mode_instances := mode_instances i;
     mode_transition_instances := mode_transition_instances i; diagnostics := diagnostics i;
     property_maps := property_maps i; feature_property_maps := v; connection_property_maps :=
     connection_property_maps i; emv2_models := emv2_models i; semantic_connections :=
     semantic_connections i; system_operation_modes := system_operation_modes i |}.

Definition set_connection_property_maps (v : gmap ConnectionInstanceIdx PropertyMap) (i : SystemInstance) : SystemInstance :=
  {| root := root i; components := components i; feature_instances := feature_instances i;
     connection_instances := connection_instances i; flow_instances := flow_instances i;
     e2e_flow_instances := e2e_flow_instances i; mode_instances := mode_instances i;
     mode_transition_instances := mode_transition_instances i; diagnostics := diagnostics i;
     property_maps := property_maps i; feature_property_maps := feature_property_maps i;
     connection_property_maps := v; emv2_models := emv2_models i; semantic_connections :=
     semantic_connections i; system_operation_modes := system_operation_modes i |}.

Definition set_emv2_models (v : gmap ComponentInstanceIdx (list Emv2Model)) (i : SystemInstance) : SystemInstance :=
  {| root := root i; components := components i; feature_instances := feature_instances i;
     connection_instances := connection_instances i; flow_instances := flow_instances i;
     e2e_flow_instances := e2e_flow_instances i; mode_instances := mode_instances i;
     mode_transition_instances := mode_transition_instances i; diagnostics := diagnostics i;
     property_maps := property_maps i; feature_property_maps := feature_property_maps i;
     connection_property_maps := connection_property_maps i; emv2_models := v; semantic_connections :=
     semantic_connections i; system_operation_modes := system_operation_modes i |}.

Definition set_semantic_connections (v : list SemanticConnection) (i : SystemInstance) : SystemInstance :=
  {| root := root i; components := components i; feature_instances := feature_instances i;
     connection_instances := connection_instances i; flow_instances := flow_instances i;
     e2e_flow_instances := e2e_flow_instances i; mode_instances := mode_instances i;
     mode_transition_instances := mode_transition_instances i; diagnostics := diagnostics i;
     property_maps := property_maps i; feature_property_maps := feature_property_maps i;
     connection_property_maps := connection_property_maps i; emv2_models := emv2_models i;
     semantic_connections := v; system_operation_modes := system_operation_modes i |}.

Definition set_system_operation_modes (v : list SystemOperationMode) (i : SystemInstance) : SystemInstance :=
  {| root := root i; components := components i; feature_instances := feature_instances i;
     connection_instances := connection_instances i; flow_instances := flow_instances i;
     e2e_flow_instances := e2e_flow_instances i; mode_instances := mode_instances i;
     mode_transition_instances := mode_transition_instances i; diagnostics := diagnostics i;
     property_maps := property_maps i; feature_property_maps := feature_property_maps i;
     connection_property_maps := connection_property_maps i; emv2_models := emv2_models i;
     semantic_connections := semantic_connections i; system_operation_modes := v |}.

(** ** Access *)

(** crates/spar-hir-def/src/instance.rs:361-363 [SystemInstance::component] *)
Definition component (inst : SystemInstance) (i : ComponentInstanceIdx) : Exec ComponentInstance :=
  arena_get (components inst) i.

Definition connection (inst : SystemInstance) (i : ConnectionInstanceIdx) : Exec ConnectionInstance :=
  arena_get (connection_instances inst) i.

(** crates/spar-hir-def/src/instance.rs:349-351 [SystemInstance::component_count] *)
Definition component_count (inst : SystemInstance) : nat := length (components inst).

(** crates/spar-hir-def/src/instance.rs:354-358 [SystemInstance::all_components] *)
Definition all_components (inst : SystemInstance) : list (ComponentInstanceIdx * ComponentInstance) :=
  imap pair (components inst).

(** crates/spar-hir-def/src/instance.rs:368-371 [SystemInstance::properties_for] *)
Definition properties_for (inst : SystemInstance) (i : ComponentInstanceIdx) : PropertyMap :=
  default new (property_maps inst !! i).

(** crates/spar-hir-def/src/instance.rs:415-418 [SystemInstance::properties_for_connection] *)
Definition properties_for_connection (inst : SystemInstance) (i : ConnectionInstanceIdx) : PropertyMap :=
  default new (connection_property_maps inst !! i).

(** crates/spar-hir-def/src/instance.rs:402-404 [SystemInstance::emv2_for] *)
Definition emv2_for (inst : SystemInstance) (i : ComponentInstanceIdx) : list Emv2Model :=
  default [] (emv2_models inst !! i).

(** crates/spar-hir-def/src/instance.rs:408-411 [SystemInstance::properties_for_feature] *)
Definition properties_for_feature (inst : SystemInstance) (i : FeatureInstanceIdx) : PropertyMap :=
  default new (feature_property_maps inst !! i).

(** crates/spar-hir-def/src/instance.rs:192-197 [EndToEndFlowInstance::nested_segment]: the
    search from the segment at position [i]. *)
Fixpoint nested_segment_from (i : nat) (segs : list Name) : option (nat * Name) :=
  match segs with
  | [] => None
  | seg :: segs =>
      let dots := count_char "."%char seg in
      if (if Nat.even i then (1 <? dots)%nat else (0 <? dots)%nat) then Some (i, seg)
      else nested_segment_from (S i) segs
  end.

(** crates/spar-hir-def/src/instance.rs:192-197 [EndToEndFlowInstance::nested_segment] *)
Definition nested_segment (f : EndToEndFlowInstance) : option (nat * Name) :=
  nested_segment_from 0 (e2e_segments f).

(** crates/spar-hir-def/src/instance.rs:395-399 [SystemInstance::has_modal_property_values] *)
Definition has_modal_property_values (inst : SystemInstance) : bool :=
  existsb has_modal_values ((map_to_list (property_maps inst)).*2).

(** crates/spar-hir-def/src/instance.rs:598-604 [SystemInstance::modes_for] *)
Definition modes_for (inst : SystemInstance) (i : ComponentInstanceIdx) : Exec (list ModeInstance) :=
  c ← component inst i; mapM (arena_get (mode_instances inst)) (modes c).

(** crates/spar-hir-def/src/instance.rs:607-613 [SystemInstance::mode_transitions_for] *)
Definition mode_transitions_for (inst : SystemInstance) (i : ComponentInstanceIdx)
  : Exec (list ModeTransitionInstance) :=
  c ← component inst i; mapM (arena_get (mode_transition_instances inst)) (mode_transitions c).

(** crates/spar-hir-def/src/instance.rs:380-392 [SystemInstance::properties_in_som]: a
    selection outside the arena panics here at once, in the code when a modal
    key's lookup reaches it. *)
Definition properties_in_som (inst : SystemInstance) (i : ComponentInstanceIdx)
    (som : SystemOperationMode) : Exec PropertyMap :=
  selected ← mapM (λ s, arena_get (mode_instances inst) s.2) (mode_selections som);
  Done (in_mode (properties_for inst i) (λ declarer,
    mode_name <$> List.find (λ m, Nat.eqb (mode_owner m) declarer) selected)).

(** ** Paths and references *)

(** crates/spar-analysis/src/lib.rs:343-349 [component_path]: the walk to the
    root, on fuel. *)
Fixpoint walk_up (inst : SystemInstance) (fuel : nat) (current : option ComponentInstanceIdx)
  : Exec (list Name) :=
  match current with
  | None => Done []
  | Some i =>
      match fuel with
      | O => Stuck
      | S n => c ← component inst i; path ← walk_up inst n (parent c); Done (name c :: path)
      end
  end.

(** crates/spar-analysis/src/lib.rs:341-351 [component_path] *)
Definition component_path (inst : SystemInstance) (i : ComponentInstanceIdx) : Exec (list string) :=
  path ← walk_up inst (length (components inst)) (Some i); Done (rev path).

(** crates/spar-hir-def/src/instance.rs:426-436 [SystemInstance::component_instance_path] *)
Definition component_instance_path (inst : SystemInstance) (i : ComponentInstanceIdx) : Exec string :=
  parts ← walk_up inst (length (components inst)) (Some i); Done (str_join "/"%string (rev parts)).

(** crates/spar-hir-def/src/instance.rs:471-474 [SystemInstance::resolve_dotted_path]:
    the later of two equally deep matches wins. *)
Definition keep_deepest (best : option (ComponentInstanceIdx * nat)) (i : ComponentInstanceIdx)
    (depth : nat) : option (ComponentInstanceIdx * nat) :=
  match best with
  | Some (_, d) => if (d <=? depth)%nat then Some (i, depth) else best
  | None => Some (i, depth)
  end.

(** crates/spar-hir-def/src/instance.rs:467-489 [SystemInstance::resolve_dotted_path]:
    one iteration of either loop. *)
Definition match_component (inst : SystemInstance) (written : string)
    (best : option (ComponentInstanceIdx * nat)) (ic : ComponentInstanceIdx * ComponentInstance)
  : Exec (option (ComponentInstanceIdx * nat)) :=
  let needle := replace_char "."%char "/"%char written in
  if contains_char "/"%char needle then
    path ← component_instance_path inst ic.1;
    Done (if ends_with (to_ascii_lowercase path) (to_ascii_lowercase needle)
          then keep_deepest best ic.1 (count_char "/"%char path) else best)
  else if eq_ignore_ascii_case (name ic.2) written then
    path ← component_instance_path inst ic.1;
    Done (keep_deepest best ic.1 (count_char "/"%char path))
  else Done best.

(** crates/spar-hir-def/src/instance.rs:458-491 [SystemInstance::resolve_dotted_path] *)
Definition resolve_dotted_path (inst : SystemInstance) (written : string)
  : Exec (option ComponentInstanceIdx) :=
  best ← foldM (match_component inst written) None (all_components inst);
  match best with Some (i, _) => Done (Some i) | None => Done None end.

(** crates/spar-hir-def/src/instance.rs:502-515 [SystemInstance::reference_context] *)
Definition reference_context_of (inst : SystemInstance) (comp : ComponentInstanceIdx) (set nm : string)
  : ComponentInstanceIdx :=
  let props := properties_for inst comp in
  let key_set := match get props set nm with Some _ => set | None => ""%string end in
  default comp (reference_context props key_set nm).

(** crates/spar-hir-def/src/instance.rs:524-539 [SystemInstance::connection_reference_context] *)
Definition connection_reference_context (inst : SystemInstance) (conn : ConnectionInstanceIdx)
    (set nm : string) : Exec ComponentInstanceIdx :=
  let props := properties_for_connection inst conn in
  let key_set := match get props set nm with Some _ => set | None => ""%string end in
  c ← connection inst conn; Done (default (conn_owner c) (reference_context props key_set nm)).

(** crates/spar-hir-def/src/instance.rs:1364-1369 [walk_children]: the first
    child of that name. *)
Fixpoint find_child (inst : SystemInstance) (seg : string) (cs : list ComponentInstanceIdx)
  : Exec (option ComponentInstanceIdx) :=
  match cs with
  | [] => Done None
  | i :: cs =>
      c ← component inst i;
      if eq_ignore_ascii_case (name c) seg then Done (Some i) else find_child inst seg cs
  end.

(** crates/spar-hir-def/src/instance.rs:1355-1369 [walk_children] *)
Fixpoint walk_children (inst : SystemInstance) (from : ComponentInstanceIdx) (segs : list string)
  : Exec (option ComponentInstanceIdx) :=
  match segs with
  | [] => Done (Some from)
  | seg :: rest =>
      c ← component inst from;
      child ← find_child inst seg (children c);
      match child with
      | Some i => walk_children inst i rest
      | None => Done None
      end
  end.

Definition is_dot_or_slash (b : ascii) : bool := Ascii.eqb b "."%char || Ascii.eqb b "/"%char.

(** crates/spar-hir-def/src/instance.rs:574-594 [SystemInstance::resolve_reference]:
    an absolute path, which begins with the root's name. *)
Definition resolve_from_root (inst : SystemInstance) (path : string) : Exec (option ComponentInstanceIdx) :=
  r ← component inst (root inst);
  let written := replace_char "/"%char "."%char (trim path) in
  match str_get written (String.length (name r)) with
  | Some (head, String "."%char tail) =>
      if eq_ignore_ascii_case head (name r) then
        walk_children inst (root inst) (segments (Ascii.eqb "."%char) tail)
      else Done None
  | _ => Done None
  end.

(** crates/spar-hir-def/src/instance.rs:560-595 [SystemInstance::resolve_reference] *)
Definition resolve_reference (inst : SystemInstance) (ctx : ComponentInstanceIdx) (path : string)
  : Exec (option ComponentInstanceIdx) :=
  match segments is_dot_or_slash path with
  | [] => Done None
  | segs =>
      found ← walk_children inst ctx segs;
      match found with
      | Some i => Done (Some i)
      | None => resolve_from_root inst path
      end
  end.

(** ** Well-formed instances *)

(** Every index points into its arena, and a component is allocated after its
    parent, as the builder does. *)
Record wf_instance (inst : SystemInstance) : Prop := {
  wf_root : root inst < length (components inst);
  wf_parent i c p : components inst !! i = Some c → parent c = Some p → p < i;
  wf_children i c j : components inst !! i = Some c → j ∈ children c → j < length (components inst);
  wf_connections i c j : components inst !! i = Some c → j ∈ connections c →
    j < length (connection_instances inst);
  wf_modes i c j : components inst !! i = Some c → j ∈ modes c → j < length (mode_instances inst);
  wf_transitions i c j : components inst !! i = Some c → j ∈ mode_transitions c →
    j < length (mode_transition_instances inst);
  wf_owner i conn : connection_instances inst !! i = Some conn → conn_owner conn < length (components inst);
}.

Lemma arena_get_Some {A} (xs : list A) i x : arena_get xs i = Done x ↔ xs !! i = Some x.
Proof. unfold arena_get. destruct (xs !! i); split; congruence. Qed.

Lemma arena_get_lt {A} (xs : list A) i : i < length xs → ∃ x, arena_get xs i = Done x ∧ xs !! i = Some x.
Proof.
  intros [x Hx]%lookup_lt_is_Some. exists x. split; [by apply arena_get_Some|done].
Qed.

Lemma mapM_arena {A} (xs : list A) is_ :
  Forall (λ i, i < length xs) is_ →
  ∃ ys, mapM (arena_get xs) is_ = Done ys ∧ Forall2 (λ i y, xs !! i = Some y) is_ ys.
Proof.
  intros H. assert (∃ ys, Forall2 (λ i y, arena_get xs i = Done y) is_ ys) as [ys Hys].
  { apply Forall_exists_Forall2_l. eapply Forall_impl; [exact H|]. intros i Hi.
    destruct (arena_get_lt xs i Hi) as (x & Hx & _). eauto. }
  exists ys. split; [by apply mapM_Done|]. eapply Forall2_impl; [exact Hys|].
  intros i y. apply arena_get_Some.
Qed.

Lemma all_components_elem inst i c : (i, c) ∈ all_components inst ↔ components inst !! i = Some c.
Proof.
  unfold all_components. rewrite list_elem_of_lookup. setoid_rewrite list_lookup_imap. split.
  - intros (j & (c' & Hc & [= -> ->])%fmap_Some). done.
  - intros Hc. exists i. apply fmap_Some. by exists c.
Qed.

#[export] Hint Resolve wf_children wf_connections wf_modes wf_transitions wf_owner wf_root : spar.

(** The same, as a test. *)
Definition below (n : nat) (js : list nat) : bool := forallb (λ j, Nat.ltb j n) js.

Definition wf_component (inst : SystemInstance) (ic : ComponentInstanceIdx * ComponentInstance) : bool :=
  match parent ic.2 with Some p => Nat.ltb p ic.1 | None => true end &&
  below (length (components inst)) (children ic.2) &&
  below (length (connection_instances inst)) (connections ic.2) &&
  below (length (mode_instances inst)) (modes ic.2) &&
  below (length (mode_transition_instances inst)) (mode_transitions ic.2).

Definition wf_check (inst : SystemInstance) : bool :=
  Nat.ltb (root inst) (length (components inst)) &&
  forallb (wf_component inst) (all_components inst) &&
  forallb (λ c, Nat.ltb (conn_owner c) (length (components inst))) (connection_instances inst).

Lemma below_lt n js j : below n js = true → j ∈ js → j < n.
Proof. unfold below. rewrite forallb_forall. intros H Hj. apply Nat.ltb_lt, H. by apply list_elem_of_In. Qed.

Lemma wf_check_sound inst : wf_check inst = true → wf_instance inst.
Proof.
  unfold wf_check. rewrite !andb_true_iff. intros [[Hroot Hcs] Hconn].
  rewrite forallb_forall in Hcs, Hconn.
  assert (Hc : ∀ i c, components inst !! i = Some c → wf_component inst (i, c) = true).
  { intros i c H. apply Hcs, list_elem_of_In, all_components_elem, H. }
  unfold wf_component in Hc. simpl in Hc. setoid_rewrite andb_true_iff in Hc.
  setoid_rewrite andb_true_iff in Hc. setoid_rewrite andb_true_iff in Hc.
  setoid_rewrite andb_true_iff in Hc.
  split; [by apply Nat.ltb_lt|intros i c j Hi; destruct (Hc _ _ Hi) as [[[[? ?] ?] ?] ?]..|];
    try (by apply below_lt).
  - intros E. rewrite E in *. by apply Nat.ltb_lt.
  - intros i conn Hi. apply Nat.ltb_lt, Hconn, list_elem_of_In, list_elem_of_lookup. by exists i.
Qed.

(** A small instance: a source with an inner source, and an array of two
    destinations; two of the components have modes. *)
Definition inst_ex : SystemInstance :=
  let comp n p cs conns ms mts ai :=
    {| name := n; category := System; comp_type_name := "T"; comp_impl_name := None; comp_package := "P";
       parent := p; children := cs; features := []; connections := conns; flows := []; modes := ms;
       mode_transitions := mts; array_index := ai; comp_in_modes := [] |} in
  let conn n o s d :=
    {| conn_name := n; conn_kind := PortConnection; is_bidirectional := false; conn_owner := o;
       src := s; dst := d; conn_in_modes := [] |} in
  let at_ s f := Some {| subcomponent := s; feature := f |} in
  let mode n i o := {| mode_name := n; is_initial := i; mode_owner := o |} in
  {| root := 0;
     components :=
       [comp "Top.impl"%string None [1; 2; 3] [0; 1] [] [] None;
        comp "src"%string (Some 0) [4] [2] [0; 1; 4] [0; 1] None;
        comp "dst[1]"%string (Some 0) [] [] [2; 3] [] (Some 1%N);
        comp "dst[2]"%string (Some 0) [] [] [] [] (Some 2%N);
        comp "inner"%string (Some 1) [] [] [] [] None];
     feature_instances := [];
     flow_instances := []; e2e_flow_instances := [];
     connection_instances :=
       [conn "c"%string 0 (at_ (Some "src"%string) "p"%string) (at_ (Some "dst"%string) "q"%string);
        conn "broken"%string 0 (at_ None "p"%string) None;
        conn "out"%string 1 (at_ (Some "inner"%string) "o"%string) (at_ None "p"%string)];
     mode_instances := [mode "off"%string true 1; mode "on"%string false 1; mode "slow"%string true 2;
                        mode "fast"%string false 2; mode "lost"%string false 1];
     mode_transition_instances :=
       [{| mt_name := None; mt_source := "off"; mt_destination := "on"; mt_triggers := ["p"%string]; mt_owner := 1 |};
        {| mt_name := None; mt_source := "ON"; mt_destination := "off"; mt_triggers := ["r"%string]; mt_owner := 1 |}];
     diagnostics := []; property_maps := ∅; feature_property_maps := ∅; connection_property_maps := ∅;
     emv2_models := ∅;
     semantic_connections := []; system_operation_modes := [] |}.

Lemma inst_ex_wf : wf_instance inst_ex.
Proof. apply wf_check_sound. by vm_compute. Qed.

(** ** Paths and references of the instance model

    The path of a component is its parent's path followed by its name; a
    [reference (...)] names the component its segments lead to, child by
    child, from the declaring component, or from the root when it is written
    with the root's name in front. *)
Section wf.
Context (inst : SystemInstance) (Hwf : wf_instance inst).

(** The names from a component up to the root. *)
Inductive ancestry : option ComponentInstanceIdx → list Name → Prop :=
  | ancestry_none : ancestry None []
  | ancestry_some i c path :
      components inst !! i = Some c → ancestry (parent c) path → ancestry (Some i) (name c :: path).

Lemma walk_up_spec n i :
  i < n → n ≤ length (components inst) → ∃ path, ∀ m, n ≤ m → walk_up inst m (Some i) = Done path ∧ ancestry (Some i) path.
Proof.
  revert i. induction n as [|n IH]; intros i Hi Hn; [lia|].
  destruct (arena_get_lt (components inst) i) as (c & Hget & Hc); [lia|].
  destruct (parent c) as [p|] eqn:Hp.
  - pose proof (wf_parent _ Hwf _ _ _ Hc Hp). destruct (IH p) as [path Hpath]; [lia..|].
    exists (name c :: path). intros [|m] Hm; [lia|]. destruct (Hpath m) as [E Ha]; [lia|].
    cbn [walk_up]. unfold component. rewrite Hget. simpl. rewrite Hp, E. split; [done|].
    econstructor; [done|]. by rewrite Hp.
  - exists [name c]. intros [|m] Hm; [lia|]. cbn [walk_up]. unfold component. rewrite Hget. simpl.
    rewrite Hp. split; [by destruct m|]. econstructor; [done|]. rewrite Hp. constructor.
Qed.

Lemma walk_up_total i : i < length (components inst) →
  ∃ path, walk_up inst (length (components inst)) (Some i) = Done path ∧ ancestry (Some i) path.
Proof. intros Hi. destruct (walk_up_spec _ i Hi (le_n _)) as [path H]. exists path. by apply H. Qed.

Lemma ancestry_det i p1 p2 : ancestry i p1 → ancestry i p2 → p1 = p2.
Proof.
  intros H. revert p2. induction H as [|i c p Hc _ IH]; intros p2 H2; inversion H2; simplify_eq; [done|].
  f_equal. by apply IH.
Qed.

(** ** References *)

(** The child a segment names: the first of that name, case ignored. *)
Definition first_child (from : ComponentInstanceIdx) (seg : string) (i : ComponentInstanceIdx) : Prop :=
  ∃ f pre post c, components inst !! from = Some f ∧ children f = pre ++ i :: post ∧
    components inst !! i = Some c ∧ eq_ci (name c) seg = true ∧
    ∀ j c', j ∈ pre → components inst !! j = Some c' → eq_ci (name c') seg = false.

Inductive walks : ComponentInstanceIdx → list string → ComponentInstanceIdx → Prop :=
  | walks_nil i : walks i [] i
  | walks_cons i seg j segs k : first_child i seg j → walks j segs k → walks i (seg :: segs) k.

Lemma find_child_spec seg cs :
  (∀ j, j ∈ cs → j < length (components inst)) →
  (∃ i pre post c, find_child inst seg cs = Done (Some i) ∧ cs = pre ++ i :: post ∧
     components inst !! i = Some c ∧ eq_ci (name c) seg = true ∧
     ∀ j c', j ∈ pre → components inst !! j = Some c' → eq_ci (name c') seg = false) ∨
  (find_child inst seg cs = Done None ∧
     ∀ j c', j ∈ cs → components inst !! j = Some c' → eq_ci (name c') seg = false).
Proof.
  induction cs as [|i cs IH]; intros Hcs; simpl; [right; split; [done|]; by intros ?? ?%not_elem_of_nil|].
  destruct (arena_get_lt (components inst) i) as (c & Hget & Hc); [apply Hcs; by left|].
  unfold component. rewrite Hget. simpl. fold (eq_ci (name c) seg). destruct (eq_ci (name c) seg) eqn:E.
  - left. exists i, [], cs, c. split_and!; try done. by intros ?? ?%not_elem_of_nil.
  - destruct IH as [(k & pre & post & c' & H1 & -> & H3 & H4 & H5)|[H1 H2]].
    + intros j Hj. apply Hcs. by right.
    + left. exists k, (i :: pre), post, c'. split_and!; try done.
      intros j cj [->|Hj]%elem_of_cons Hcj; [by simplify_eq|by eapply H5].
    + right. split; [done|]. intros j cj [->|Hj]%elem_of_cons Hcj; [by simplify_eq|by eapply H2].
Qed.

Lemma first_child_det from seg i j : first_child from seg i → first_child from seg j → i = j.
Proof.
  intros (f & pre & post & c & Hf & Hcs & Hc & He & Hpre) (f' & pre' & post' & c' & Hf' & Hcs' & Hc' & He' & Hpre').
  simplify_eq. rewrite Hcs in Hcs'. clear Hcs Hf. revert pre' Hpre' Hcs'. induction pre as [|x pre IH]; intros [|y pre'] Hpre' Hcs';
    simpl in Hcs'; simplify_eq; [done| | |].
  - rewrite (Hpre' y c) in He; [done|by left|done].
  - rewrite (Hpre j c') in He'; [done|by left|done].
  - apply (IH) with pre'; [| |done].
    + intros ????. eapply Hpre; [by right|done].
    + intros ????. eapply Hpre'; [by right|done].
Qed.

Lemma walks_det from segs i j : walks from segs i → walks from segs j → i = j.
Proof.
  intros H. revert j. induction H as [i|i seg k segs l Hf _ IH]; intros j H2; inversion H2; subst; [done|].
  apply IH. match goal with Hj : first_child i seg ?k', Hw : walks ?k' _ _ |- _ =>
    rewrite (first_child_det _ _ _ _ Hf Hj); exact Hw end.
Qed.

Lemma walk_children_spec from segs :
  from < length (components inst) →
  (∃ i, walk_children inst from segs = Done (Some i) ∧ walks from segs i ∧ i < length (components inst)) ∨
  (walk_children inst from segs = Done None ∧ ∀ i, ¬ walks from segs i).
Proof.
  revert from. induction segs as [|seg segs IH]; intros from Hfrom; simpl.
  - left. exists from. split_and!; [done|constructor|done].
  - destruct (arena_get_lt (components inst) from Hfrom) as (f & Hget & Hf).
    assert (component inst from = Done f) as -> by done. simpl.
    destruct (find_child_spec seg (children f)) as
      [(i & pre & post & c & -> & Hcs & Hc & He & Hpre)|[-> Hno]]; [by intros j; eapply wf_children| |].
    + simpl. assert (Hfc : first_child from seg i) by (by exists f, pre, post, c).
      destruct (IH i) as [(k & -> & Hw & Hk)|[-> Hn]]; [by eapply lookup_lt_Some| |].
      * left. exists k. split_and!; [done|by econstructor|done].
      * right. split; [done|]. intros k Hw. inversion Hw; subst.
        match goal with Hj : first_child from seg ?k' |- _ => rewrite <- (first_child_det _ _ _ _ Hfc Hj) in * end.
        by eapply Hn.
    + right. split; [done|]. intros k Hw. inversion Hw as [|? ? j ? ? (f' & pre & post & c & Hf' & Hcs & Hc & He & _)]; subst.
      simplify_eq. rewrite (Hno j c) in He; [done| |done]. rewrite Hcs. apply elem_of_app. right. by left.
Qed.

(** A path written from the root: the root's name, a dot and the segments. *)
Definition absolute (path : string) (segs : list string) : Prop :=
  ∃ r head tail, components inst !! root inst = Some r ∧
    str_get (replace_char "/"%char "."%char (trim path)) (String.length (name r)) =
      Some (head, String.String "."%char tail) ∧
    eq_ci head (name r) = true ∧ segs = segments (Ascii.eqb "."%char) tail.

Lemma absolute_det path s1 s2 : absolute path s1 → absolute path s2 → s1 = s2.
Proof. intros (r & h & t & Hr & Ht & _ & ->) (r' & h' & t' & Hr' & Ht' & _ & ->). by simplify_eq. Qed.

Lemma resolve_from_root_spec path :
  (∃ i segs, resolve_from_root inst path = Done (Some i) ∧ absolute path segs ∧ walks (root inst) segs i) ∨
  (resolve_from_root inst path = Done None ∧ ∀ segs i, absolute path segs → ¬ walks (root inst) segs i).
Proof.
  unfold resolve_from_root, absolute.
  destruct (arena_get_lt (components inst) (root inst) (wf_root _ Hwf)) as (r & Hget & Hr).
  unfold component. rewrite Hget. simpl.
  destruct (str_get _ _) as [[head tail]|] eqn:E.
  2:{ right. split; [done|]. intros segs i (r' & h & t & Hr' & E' & _). simplify_eq. }
  destruct tail as [|b tail].
  { right. split; [done|]. intros segs i (r' & h & t & Hr' & E' & _). by simplify_eq. }
  destruct (Ascii.eqb_spec b "."%char) as [->|Hb].
  - simpl. fold (eq_ci head (name r)). destruct (eq_ci head (name r)) eqn:Eh.
    + destruct (walk_children_spec (root inst) (segments (Ascii.eqb "."%char) tail) (wf_root _ Hwf))
        as [(i & -> & Hw & _)|[-> Hn]].
      * left. exists i. eexists. split_and!; [done| |exact Hw]. by exists r, head, tail.
      * right. split; [done|]. intros segs i (r' & h & t & Hr' & E' & _ & ->). simplify_eq. apply Hn.
    + right. split; [done|]. intros segs i (r' & h & t & Hr' & E' & Eh' & _). simplify_eq. congruence.
  - right. split.
    + by destruct b as [[] [] [] [] [] [] [] []].
    + intros segs i (r' & h & t & Hr' & E' & _). by simplify_eq.
Qed.

(** C35: Resolving a reference on a well-formed instance never panics, and it
    names at most one component: the one the segments of the path lead to
    from the declaring component, each segment the first child of that name
    with case ignored; or, when they lead nowhere and the path starts with
    the name of the root and a dot, the one the rest leads to from the root.
    The path reported for a component is its ancestors' names from the root
    down to its own. *)
Theorem resolve_reference_exact ctx path :
  ctx < length (components inst) →
  ∃ res, resolve_reference inst ctx path = Done res ∧
    (∀ i, res = Some i ↔
       segments is_dot_or_slash path ≠ [] ∧
       (walks ctx (segments is_dot_or_slash path) i ∨
        ((∀ j, ¬ walks ctx (segments is_dot_or_slash path) j) ∧
         ∃ segs, absolute path segs ∧ walks (root inst) segs i))) ∧
    ∃ names, component_path inst ctx = Done (rev names) ∧ ancestry (Some ctx) names.
Proof.
  intros Hctx. unfold resolve_reference, component_path.
  destruct (walk_up_total ctx Hctx) as (names & -> & Hnames).
  assert (Hpath : ∃ names0, Done (rev names) = Done (rev names0) ∧ ancestry (Some ctx) names0) by eauto.
  destruct (segments is_dot_or_slash path) as [|seg segs] eqn:Hs.
  { exists None. split_and!; [done| |done]. intros i. split; [done|]. by intros [? _]. }
  destruct (walk_children_spec ctx (seg :: segs) Hctx) as [(i & -> & Hw & _)|[-> Hn]]; cbn [mbind Exec_bind].
  - exists (Some i). split_and!; [done| |done]. intros j. split.
    + intros [= <-]. split; [done|by left].
    + intros [_ [Hj|[Hno _]]]; [by rewrite (walks_det _ _ _ _ Hw Hj)|]. by destruct (Hno i).
  - destruct (resolve_from_root_spec path) as [(i & segs' & -> & Habs & Hw)|[-> Hno]].
    + exists (Some i). split_and!; [done| |done]. intros j. split.
      * intros [= <-]. split; [done|]. right. split; [done|]. by exists segs'.
      * intros [_ [Hj|[_ (segs2 & Habs2 & Hj)]]]; [by destruct (Hn j)|].
        rewrite (absolute_det _ _ _ Habs2 Habs) in Hj. by rewrite (walks_det _ _ _ _ Hw Hj).
    + exists None. split_and!; [done| |done]. intros j. split; [done|].
      intros [_ [Hj|[_ (segs2 & Habs2 & Hj)]]]; [by destruct (Hn j)|]. by destruct (Hno segs2 j).
Qed.
End wf.

Lemma resolve_reference_exact_witness :
  wf_instance inst_ex ∧ 0 < length (components inst_ex) ∧
  resolve_reference inst_ex 0 "SRC.inner" = Done (Some 4) ∧
  resolve_reference inst_ex 3 "top.IMPL.src" = Done (Some 1) ∧
  ∃ res, resolve_reference inst_ex 0 "SRC.inner" = Done res ∧ (res = Some 4 ↔ Some 4 = Some 4).
Proof.
  split; [exact inst_ex_wf|]. split; [simpl; lia|]. split; [by vm_compute|]. split; [by vm_compute|].
  destruct (resolve_reference_exact inst_ex inst_ex_wf 0 "SRC.inner") as (res & H & _); [simpl; lia|].
  exists res. split; [exact H|]. split; [done|]. intros _.
  assert (E : resolve_reference inst_ex 0 "SRC.inner" = Done (Some 4)) by (by vm_compute). congruence.
Defined.

(** [resolve_dotted_path] matches suffixes of the path's text, not of its
    segments: [rc.inner] names the component [src.inner]; and as the root's
    name holds a dot, a path written from the root names nothing. *)
Lemma resolve_dotted_path_partial_segment :
  resolve_dotted_path inst_ex "rc.inner" = Done (Some 4) ∧
  resolve_dotted_path inst_ex "Top.impl.src" = Done None ∧
  resolve_reference inst_ex 0 "Top.impl.src" = Done (Some 1).
Proof. by vm_compute. Qed.
