(* ===== verification/Soms.v ===== *)
(** * System operation modes

    [SystemInstance::compute_soms] of
    [crates/spar-hir-def/src/instance.rs]: the cartesian product of the modes
    of the modal components, capped, with the theorem that says what the
    capped loops compute. *)
From S2P Require Import Prelude.
From S2P Require Import Diagnostics.
From S2P Require Import Names.
From S2P Require Import PropertyMap.
From S2P Require Import ItemTree.
From S2P Require Import Instance.
From stdpp Require Import pretty.

(** ** System operation modes *)

(** crates/spar-hir-def/src/instance.rs:626 [MAX_SOMS] *)
Definition MAX_SOMS : N := 10000.

(** crates/spar-hir-def/src/instance.rs:637-647 [SystemInstance::compute_soms] *)
Definition modal_components (inst : SystemInstance) : list (ComponentInstanceIdx * list ModeInstanceIdx) :=
  omap (λ ic : ComponentInstanceIdx * ComponentInstance,
    match modes ic.2 with [] => None | ms => Some (ic.1, ms) end) (all_components inst).

(** crates/spar-hir-def/src/instance.rs:659-661 [SystemInstance::compute_soms]:
    [None] is more than [u64::MAX]. *)
Definition product_size (mcs : list (ComponentInstanceIdx * list ModeInstanceIdx)) : option u64 :=
  foldl (λ acc mc, a ← acc; let p := (a * N.of_nat (length mc.2))%N in
                   if (p <=? max_of 64)%N then Some p else None) (Some 1%N) mcs.

Abbreviation selection := (list (ComponentInstanceIdx * ModeInstanceIdx)).

Definition over_cap (soms : list selection) : bool := (MAX_SOMS <? N.of_nat (length soms))%N.

(** crates/spar-hir-def/src/instance.rs:673-680 [SystemInstance::compute_soms] *)
Fixpoint push_modes (next : list selection) (existing : selection) (comp : ComponentInstanceIdx)
    (ms : list ModeInstanceIdx) : list selection :=
  match ms with
  | [] => next
  | m :: ms =>
      let next := next ++ [existing ++ [(comp, m)]] in
      if over_cap next then next else push_modes next existing comp ms
  end.

(** crates/spar-hir-def/src/instance.rs:672-684 [SystemInstance::compute_soms] *)
Fixpoint extend_soms (next soms : list selection) (comp : ComponentInstanceIdx)
    (ms : list ModeInstanceIdx) : list selection :=
  match soms with
  | [] => next
  | existing :: soms =>
      let next := push_modes next existing comp ms in
      if over_cap next then next else extend_soms next soms comp ms
  end.

(** crates/spar-hir-def/src/instance.rs:669-689 [SystemInstance::compute_soms] *)
Fixpoint expand_soms (soms : list selection) (mcs : list (ComponentInstanceIdx * list ModeInstanceIdx))
  : list selection :=
  match mcs with
  | [] => soms
  | (comp, ms) :: mcs =>
      let soms := extend_soms [] soms comp ms in
      if over_cap soms then soms else expand_soms soms mcs
  end.

(** crates/spar-hir-def/src/instance.rs:710-720 [SystemInstance::compute_soms] *)
Definition named_som (inst : SystemInstance) (s : selection) : Exec SystemOperationMode :=
  ms ← mapM (λ cm : ComponentInstanceIdx * ModeInstanceIdx, arena_get (mode_instances inst) cm.2) s;
  Done {| som_name := str_join "_"%string (mode_name <$> ms); mode_selections := s |}.

Definition set_soms (inst : SystemInstance) (ds : list InstanceDiagnostic) (soms : list SystemOperationMode)
  : SystemInstance :=
  set_system_operation_modes soms (set_diagnostics (diagnostics inst ++ ds) inst).

(** crates/spar-hir-def/src/instance.rs:663 [SystemInstance::compute_soms] *)
Definition exceeds_cap (total : option u64) : bool :=
  match total with Some t => (MAX_SOMS <? t)%N | None => true end.

(** crates/spar-hir-def/src/instance.rs:696-705 [SystemInstance::compute_soms] *)
Definition truncation_message (total : option u64) : string :=
  ("system operation mode count (" +:+
     match total with Some t => pretty t | None => "more than 2^64" end +:+
     ") exceeds limit (" +:+ pretty MAX_SOMS +:+ "); truncated")%string.

(** crates/spar-hir-def/src/instance.rs:634-722 [SystemInstance::compute_soms] *)
Definition compute_soms (inst : SystemInstance) : Exec SystemInstance :=
  match modal_components inst with
  | [] => Done (set_soms inst [] [])
  | mcs =>
      let total := product_size mcs in
      let truncated := exceeds_cap total in
      let soms := take (N.to_nat MAX_SOMS) (expand_soms [[]] mcs) in
      ds ← if truncated then
             r ← component inst (root inst);
             Done [{| inst_message := truncation_message total; inst_path := [name r] |}]
           else Done [];
      named ← mapM (named_som inst) soms;
      Done (set_soms inst ds named)
  end.


(** ** What the loops compute *)

(** All the selections of one mode for each component. *)
Definition extensions (soms : list selection) (mc : ComponentInstanceIdx * list ModeInstanceIdx)
  : list selection := s ← soms; (λ m, s ++ [(mc.1, m)]) <$> mc.2.

Definition product (mcs : list (ComponentInstanceIdx * list ModeInstanceIdx)) : list selection :=
  foldl extensions [[]] mcs.

Definition cap : nat := N.to_nat MAX_SOMS.

Lemma cap_pos : 1 ≤ cap.
Proof. unfold cap, MAX_SOMS. lia. Qed.

Lemma cap_N : N.of_nat cap = MAX_SOMS.
Proof. unfold cap. lia. Qed.

#[local] Opaque cap.

Lemma over_cap_spec soms : over_cap soms = bool_decide (cap < length soms).
Proof.
  unfold over_cap. rewrite <- cap_N. destruct (N.ltb_spec (N.of_nat cap) (N.of_nat (length soms)));
    symmetry; [apply bool_decide_eq_true_2|apply bool_decide_eq_false_2]; lia.
Qed.

Lemma push_modes_spec next e c ms :
  length next ≤ cap →
  push_modes next e c ms = take (S cap) (next ++ ((λ m, e ++ [(c, m)]) <$> ms)).
Proof.
  revert next. induction ms as [|m ms IH]; intros next H; cbn [push_modes].
  - by rewrite app_nil_r, take_ge by lia.
  - rewrite over_cap_spec. case_bool_decide as Hc; rewrite length_app in Hc; simpl in Hc.
    + rewrite fmap_cons, (cons_middle _ _ (_ <$> ms)), app_assoc, take_app_length'; [done|].
      rewrite length_app. simpl. lia.
    + rewrite IH by (rewrite length_app; simpl; lia). by rewrite fmap_cons, <- app_assoc.
Qed.

Lemma extend_soms_spec next soms c ms :
  length next ≤ cap → extend_soms next soms c ms = take (S cap) (next ++ extensions soms (c, ms)).
Proof.
  revert next. induction soms as [|e soms IH]; intros next H; cbn [extend_soms].
  - unfold extensions. simpl. by rewrite app_nil_r, take_ge by lia.
  - rewrite push_modes_spec, over_cap_spec by done.
    change (extensions (e :: soms) (c, ms)) with (((λ m, e ++ [(c, m)]) <$> ms) ++ extensions soms (c, ms)).
    rewrite app_assoc. case_bool_decide as Hc.
    + rewrite length_take in Hc. rewrite (take_app_le (next ++ _)); [done|lia].
    + rewrite length_take in Hc.
      rewrite (take_ge (next ++ ((λ m, e ++ [(c, m)]) <$> ms))) by lia. apply IH. lia.
Qed.

Lemma extensions_length soms mc : length (extensions soms mc) = length soms * length mc.2.
Proof.
  unfold extensions. induction soms as [|s soms IH]; [done|]. rewrite bind_cons, length_app, IH, length_fmap.
  simpl. lia.
Qed.

Lemma product_grows soms mcs :
  Forall (λ mc : ComponentInstanceIdx * list ModeInstanceIdx, mc.2 ≠ []) mcs →
  length soms ≤ length (foldl extensions soms mcs).
Proof.
  intros H. revert soms. induction H as [|mc mcs Hmc _ IH]; intros soms; simpl; [done|].
  rewrite <- IH, extensions_length. destruct mc.2; [done|]. simpl. lia.
Qed.

Lemma expand_soms_spec soms mcs :
  Forall (λ mc : ComponentInstanceIdx * list ModeInstanceIdx, mc.2 ≠ []) mcs → length soms ≤ cap →
  (length (foldl extensions soms mcs) ≤ cap ∧ expand_soms soms mcs = foldl extensions soms mcs) ∨
  (∃ pre post, mcs = pre ++ post ∧ cap < length (foldl extensions soms pre) ∧
     expand_soms soms mcs = take (S cap) (foldl extensions soms pre)).
Proof.
  intros H. revert soms. induction H as [|[c ms] mcs Hmc Hmcs IH]; intros soms Hl; [by left|].
  cbn [expand_soms foldl]. rewrite extend_soms_spec by (simpl; lia). simpl app.
  rewrite over_cap_spec. case_bool_decide as Hc.
  - right. exists [(c, ms)], mcs. split; [done|]. rewrite length_take in Hc. simpl. split; [lia|done].
  - rewrite length_take in Hc. rewrite take_ge by lia.
    destruct (IH (extensions soms (c, ms))) as [H|(pre & post & -> & H1 & H2)]; [lia|by left|].
    right. exists ((c, ms) :: pre), post. by split_and!.
Qed.

(** The selections of the product: one mode of each component, in order. *)
Lemma product_elem mcs s :
  s ∈ product mcs ↔ Forall2 (λ mc cm, cm.1 = mc.1 ∧ cm.2 ∈ mc.2) mcs s.
Proof.
  unfold product.
  assert (H : ∀ soms, s ∈ foldl extensions soms mcs ↔
    ∃ s1 s2, s = s1 ++ s2 ∧ s1 ∈ soms ∧ Forall2 (λ mc cm, cm.1 = mc.1 ∧ cm.2 ∈ mc.2) mcs s2).
  { induction mcs as [|mc mcs IH]; intros soms; cbn [foldl].
    - split; [intros Hs; exists s, []; by rewrite app_nil_r|].
      intros (s1 & s2 & -> & H1 & H2%Forall2_nil_inv_l). by rewrite H2, app_nil_r.
    - rewrite IH. split.
      + intros (s1 & s2 & -> & H1 & H2). apply list_elem_of_bind in H1 as (s0 & H1 & H0).
        apply list_elem_of_fmap in H1 as (m & -> & Hm). exists s0, ((mc.1, m) :: s2).
        rewrite <- app_assoc. split_and!; [done..|]. by constructor.
      + intros (s1 & s2 & -> & H1 & ([c m] & s3 & [Hc Hm] & H3 & ->)%Forall2_cons_inv_l).
        simpl in *. subst c. exists (s1 ++ [(mc.1, m)]), s3. rewrite <- app_assoc. split_and!; [done| |done].
        apply list_elem_of_bind. exists s1. split; [|done]. apply list_elem_of_fmap. by exists m. }
  rewrite H. split.
  - intros (s1 & s2 & -> & ->%list_elem_of_singleton & H2). done.
  - intros H2. exists [], s. split_and!; [done|by left|done].
Qed.

Lemma extensions_NoDup n soms mc :
  Forall (λ s, length s = n) soms → NoDup soms → NoDup mc.2 →
  Forall (λ s, length s = S n) (extensions soms mc) ∧ NoDup (extensions soms mc).
Proof.
  intros Hn Hs Hm. split.
  - unfold extensions. rewrite Forall_forall in *. intros s (s' & (m & -> & _)%list_elem_of_fmap & Hs')%list_elem_of_bind.
    rewrite length_app, Hn by done. simpl. lia.
  - clear Hn. unfold extensions. induction Hs as [|s soms Hns _ IH]; [constructor|].
    rewrite bind_cons. apply NoDup_app. split_and!; [|intros x Hx Hx'|done].
    + apply NoDup_fmap_2; [|done]. intros a b Hab. simplify_list_eq. done.
    + apply list_elem_of_fmap in Hx as (m & -> & _).
      apply list_elem_of_bind in Hx' as (s' & (m' & Heq & _)%list_elem_of_fmap & Hs').
      apply app_inj_tail in Heq as [-> _]. done.
Qed.

Lemma product_NoDup mcs :
  Forall (λ mc : ComponentInstanceIdx * list ModeInstanceIdx, NoDup mc.2) mcs → NoDup (product mcs).
Proof.
  unfold product. intros H.
  assert (Hgen : ∀ n soms, Forall (λ s, length s = n) soms → NoDup soms → NoDup (foldl extensions soms mcs)).
  { induction H as [|mc mcs Hmc _ IH]; intros n soms Hn Hs; cbn [foldl]; [done|].
    destruct (extensions_NoDup n soms mc Hn Hs Hmc) as [H1 H2]. by eapply IH. }
  apply (Hgen 0); [by repeat constructor|apply NoDup_singleton].
Qed.

Lemma modal_components_elem inst i ms :
  (i, ms) ∈ modal_components inst ↔ ∃ c, components inst !! i = Some c ∧ modes c = ms ∧ ms ≠ [].
Proof.
  unfold modal_components. rewrite list_elem_of_omap. split.
  - intros ([j c] & Hc%all_components_elem & H). simpl in H. destruct (modes c) eqn:E; simplify_eq.
    exists c. by rewrite E.
  - intros (c & Hc & Hm & Hne). exists (i, c). split; [by apply all_components_elem|]. simpl.
    by destruct (modes c); subst.
Qed.

Lemma modal_nonempty inst : Forall (λ mc : ComponentInstanceIdx * list ModeInstanceIdx, mc.2 ≠ []) (modal_components inst).
Proof. apply Forall_forall. intros [i ms] (c & _ & _ & H)%modal_components_elem. done. Qed.

(** The number of selections, and when it is more than a [u64]. *)
Lemma product_size_spec mcs :
  Forall (λ mc : ComponentInstanceIdx * list ModeInstanceIdx, mc.2 ≠ []) mcs →
  match product_size mcs with
  | Some t => t = N.of_nat (length (product mcs))
  | None => (max_of 64 < N.of_nat (length (product mcs)))%N
  end.
Proof.
  intros H. unfold product_size, product.
  set (step := λ (acc : option u64) (mc : ComponentInstanceIdx * list ModeInstanceIdx), _).
  assert (HN : ∀ mcs, foldl step None mcs = None) by (clear; induction mcs; done).
  assert (Hgen : ∀ soms, match foldl step (Some (N.of_nat (length soms))) mcs with
    | Some t => t = N.of_nat (length (foldl extensions soms mcs))
    | None => (max_of 64 < N.of_nat (length (foldl extensions soms mcs)))%N
    end).
  { induction H as [|mc mcs Hmc Hmcs IH]; intros soms; cbn [foldl]; [done|].
    assert (E : (N.of_nat (length soms) * N.of_nat (length mc.2))%N = N.of_nat (length (extensions soms mc))).
    { rewrite extensions_length. lia. }
    unfold step at 2. simpl. rewrite E. destruct (N.leb_spec (N.of_nat (length (extensions soms mc))) (max_of 64)).
    - apply IH.
    - rewrite HN. pose proof (product_grows (extensions soms mc) mcs Hmcs). lia. }
  apply (Hgen [[]]).
Qed.

Lemma exceeds_cap_spec mcs :
  Forall (λ mc : ComponentInstanceIdx * list ModeInstanceIdx, mc.2 ≠ []) mcs →
  exceeds_cap (product_size mcs) = bool_decide (cap < length (product mcs)).
Proof.
  intros H%product_size_spec. pose proof cap_N as Hc.
  unfold exceeds_cap. destruct (product_size mcs) as [t|].
  - subst t. destruct (N.ltb_spec MAX_SOMS (N.of_nat (length (product mcs))));
      symmetry; [apply bool_decide_eq_true_2|apply bool_decide_eq_false_2]; lia.
  - symmetry. apply bool_decide_eq_true_2. assert (MAX_SOMS < max_of 64)%N by done. lia.
Qed.

Lemma named_soms inst soms :
  Forall (λ s : selection, Forall (λ cm, cm.2 < length (mode_instances inst)) s) soms →
  ∃ named, mapM (named_som inst) soms = Done named ∧ mode_selections <$> named = soms ∧
    Forall (λ n, ∃ ms, Forall2 (λ cm m, mode_instances inst !! cm.2 = Some m) (mode_selections n) ms ∧
                       som_name n = str_join "_"%string (mode_name <$> ms)) named.
Proof.
  intros H.
  assert (Hone : ∀ s : selection, Forall (λ cm, cm.2 < length (mode_instances inst)) s → ∃ n,
    named_som inst s = Done n ∧ mode_selections n = s ∧
    ∃ ms, Forall2 (λ cm m, mode_instances inst !! cm.2 = Some m) s ms ∧
          som_name n = str_join "_"%string (mode_name <$> ms)).
  { intros s Hs. unfold named_som.
    assert (∃ ms, Forall2 (λ cm m, arena_get (mode_instances inst) cm.2 = Done m) s ms) as [ms Hms].
    { apply Forall_exists_Forall2_l. eapply Forall_impl; [exact Hs|]. intros cm Hcm. simpl in Hcm.
      destruct (arena_get_lt _ _ Hcm) as (x & Hx & _). eauto. }
    assert (mapM (λ cm : ComponentInstanceIdx * ModeInstanceIdx, arena_get (mode_instances inst) cm.2) s
      = Done ms) as -> by (by apply mapM_Done). simpl. eexists. split; [done|]. split; [done|]. exists ms.
    split; [|done]. eapply Forall2_impl; [exact Hms|]. intros cm m. apply arena_get_Some. }
  assert (∃ named, Forall2 (λ s n, named_som inst s = Done n ∧ mode_selections n = s ∧
    ∃ ms, Forall2 (λ cm m, mode_instances inst !! cm.2 = Some m) s ms ∧
          som_name n = str_join "_"%string (mode_name <$> ms)) soms named) as [named Hn].
  { apply Forall_exists_Forall2_l. eapply Forall_impl; [exact H|]. intros s Hs. by apply Hone. }
  exists named. split_and!.
  - apply mapM_Done. eapply Forall2_impl; [exact Hn|]. by intros s n (? & _).
  - clear -Hn. induction Hn as [|s n soms named (_ & <- & _) _ IH]; [done|]. rewrite fmap_cons. by f_equal.
  - clear -Hn. induction Hn as [|s n soms named (_ & <- & ?) _ IH]; constructor; done.
Qed.

(** Selections of modes of an instance point into its arena. *)
Lemma selections_in_range inst pre post :
  wf_instance inst → modal_components inst = pre ++ post →
  Forall (λ s : selection, Forall (λ cm, cm.2 < length (mode_instances inst)) s) (product pre).
Proof.
  intros Hwf Hmc. apply Forall_forall. intros s Hs%product_elem.
  assert (Hin : ∀ mc, mc ∈ pre → mc ∈ modal_components inst) by (intros; rewrite Hmc; apply elem_of_app; by left).
  clear Hmc. induction Hs as [|[i ms] [j m] pre' s' [Hi Hm] _ IH]; constructor.
  - simpl in *. destruct (proj1 (modal_components_elem inst i ms)) as (c & Hc & <- & _).
    { apply Hin. by left. }
    by eapply wf_modes.
  - apply IH. intros mc Hmc'. apply Hin. by right.
Qed.

(** The modes that a system operation mode selects are in the arena. *)
Definition som_in_range (inst : SystemInstance) (som : SystemOperationMode) : Prop :=
  Forall (λ cm : ComponentInstanceIdx * ModeInstanceIdx, cm.2 < length (mode_instances inst)) (mode_selections som).

(** [compute_soms] returns. *)
Lemma soms_total inst : wf_instance inst →
  ∃ ds named, compute_soms inst = Done (set_soms inst ds named) ∧ Forall (som_in_range inst) named.
Proof.
  intros Hwf. pose proof (modal_nonempty inst) as Hne. unfold compute_soms. change (N.to_nat MAX_SOMS) with cap.
  destruct (arena_get_lt (components inst) (root inst) (wf_root _ Hwf)) as (r & Hroot & _).
  destruct (modal_components inst) as [|mc mcs] eqn:Hmcs; [by eexists _, []|]. set (all := mc :: mcs) in *.
  assert (∃ pre post, all = pre ++ post ∧ take cap (expand_soms [[]] all) = take cap (product pre)) as (pre & post & Hsplit & ->).
  { destruct (expand_soms_spec [[]] all Hne cap_pos) as [[Hle ->]|(pre & post & Hsplit & Hlt & ->)].
    - exists all, []. by rewrite app_nil_r.
    - exists pre, post. split; [done|]. fold (product pre). by rewrite take_take, Nat.min_l by lia. }
  assert (Hr : Forall (λ s : selection, Forall (λ cm, cm.2 < length (mode_instances inst)) s) (take cap (product pre))).
  { apply Forall_take. eapply selections_in_range; [done|]. by rewrite Hmcs. }
  destruct (named_soms inst (take cap (product pre)) Hr) as (named & Hn & Hs & _).
  assert (Forall (som_in_range inst) named) by (rewrite <- Hs, Forall_fmap in Hr; exact Hr).
  rewrite Hn. destruct (exceeds_cap _).
  - unfold component. rewrite Hroot. by eexists _, _.
  - by eexists _, _.
Qed.

(** C34: The system operation modes of a well-formed instance are the
    cartesian product of the modes of its modal components, in order, one
    mode of each component and (where no component lists a mode twice) no
    selection twice, as long as the product has at most 10000 selections;
    past that there are exactly 10000 of them and one diagnostic, and they
    select modes for the first modal components only, those where the product
    exceeds the cap.  A name joins the names of the selected modes. *)
Theorem compute_soms_exact inst :
  wf_instance inst →
  ∃ inst', compute_soms inst = Done inst' ∧
    let mcs := modal_components inst in
    let soms := mode_selections <$> system_operation_modes inst' in
    (mcs = [] → soms = [] ∧ diagnostics inst' = diagnostics inst) ∧
    (mcs ≠ [] → length (product mcs) ≤ cap → soms = product mcs ∧ diagnostics inst' = diagnostics inst) ∧
    (mcs ≠ [] → cap < length (product mcs) →
       (∃ pre post, mcs = pre ++ post ∧ cap < length (product pre) ∧ soms = take cap (product pre)) ∧
       ∃ d, diagnostics inst' = diagnostics inst ++ [d]) ∧
    (∀ s, s ∈ product mcs ↔ Forall2 (λ mc cm, cm.1 = mc.1 ∧ cm.2 ∈ mc.2) mcs s) ∧
    (Forall (λ mc, NoDup mc.2) mcs → NoDup soms) ∧
    Forall (λ n, ∃ ms, Forall2 (λ cm m, mode_instances inst !! cm.2 = Some m) (mode_selections n) ms ∧
                       som_name n = str_join "_"%string (mode_name <$> ms)) (system_operation_modes inst').
Proof.
  intros Hwf. pose proof (modal_nonempty inst) as Hne. unfold compute_soms.
  change (N.to_nat MAX_SOMS) with cap.
  destruct (modal_components inst) as [|mc mcs] eqn:Hmcs.
  { eexists. split; [done|]. split_and!; try done.
    - simpl. by rewrite app_nil_r.
    - intros s. apply product_elem.
    - constructor. }
  rewrite exceeds_cap_spec by done. set (all := mc :: mcs) in *.
  assert (Hone : length ([[]] : list selection) ≤ cap) by apply cap_pos.
  destruct (expand_soms_spec [[]] all Hne Hone) as [[Hle Hex]|(pre & post & Hsplit & Hlt & Hex)];
    rewrite Hex; fold (product all) in *; [|fold (product pre) in *].
  - rewrite bool_decide_eq_false_2 by lia. simpl. rewrite take_ge by done.
    assert (Hr : Forall (λ s : selection, Forall (λ cm, cm.2 < length (mode_instances inst)) s) (product all)).
    { apply (selections_in_range inst all []); [done|]. by rewrite app_nil_r. }
    destruct (named_soms inst _ Hr) as (named & -> & Hsel & Hn). simpl. eexists. split; [done|].
    simpl. rewrite app_nil_r. split_and!; try done.
    + intros _ Hc. lia.
    + intros s. apply product_elem.
    + intros Hnd. rewrite Hsel. by apply product_NoDup.
  - assert (Hall : cap < length (product all)).
    { unfold product in *. rewrite Hsplit, foldl_app. eapply Nat.lt_le_trans; [exact Hlt|].
      apply product_grows. rewrite Hsplit, Forall_app in Hne. apply Hne. }
    rewrite bool_decide_eq_true_2 by done.
    destruct (arena_get_lt (components inst) (root inst) (wf_root _ Hwf)) as (r & Hroot & _).
    unfold component. rewrite Hroot. simpl. rewrite take_take.
    replace (cap `min` S cap) with cap by lia.
    assert (Hr : Forall (λ s : selection, Forall (λ cm, cm.2 < length (mode_instances inst)) s)
      (take cap (product pre))).
    { apply Forall_take. eapply selections_in_range; [done|]. by rewrite Hmcs. }
    destruct (named_soms inst _ Hr) as (named & -> & Hsel & Hn). simpl. eexists. split; [done|].
    simpl. split_and!; try done.
    + intros _ Hc. lia.
    + intros _ _. split; [|by eexists]. exists pre, post. split; [exact Hsplit|]. split; [exact Hlt|exact Hsel].
    + intros s. apply product_elem.
    + intros Hnd. rewrite Hsel. eapply sublist_NoDup; [apply product_NoDup|apply sublist_take].
      rewrite Hsplit, Forall_app in Hnd. apply Hnd.
Qed.

Lemma compute_soms_exact_witness :
  wf_instance inst_ex ∧
  (som_name <$> match compute_soms inst_ex with Done i => system_operation_modes i | _ => [] end) =
    ["off_slow"; "off_fast"; "on_slow"; "on_fast"; "lost_slow"; "lost_fast"]%string ∧
  ∃ inst', compute_soms inst_ex = Done inst' ∧ diagnostics inst' = diagnostics inst_ex.
Proof.
  split; [exact inst_ex_wf|]. split; [by vm_compute|].
  destruct (compute_soms_exact inst_ex inst_ex_wf) as (inst' & H & _ & Hp & _). exists inst'.
  split; [exact H|]. apply Hp; [by vm_compute|].
  change (length (product (modal_components inst_ex))) with 6. pose proof cap_N as Hc. unfold MAX_SOMS in Hc. lia.
Defined.
