(* ===== verification/Semantic.v ===== *)
(** * Semantic connections

    [SystemInstance::compute_semantic_connections] of
    [crates/spar-hir-def/src/instance.rs]: the connections traced through the
    hierarchy, from the features the data comes from to the features it goes
    to. *)
From S2P Require Import Prelude.
From S2P Require Import Diagnostics.
From S2P Require Import Names.
From S2P Require Import PropertyMap.
From S2P Require Import ItemTree.
From S2P Require Import Instance.
From Stdlib Require Import Ascii.
From Stdlib Require String.
From stdpp Require Import pretty.
From stdpp Require Import pretty sets.

(** ** Semantic connections *)

(** crates/spar-hir-def/src/instance.rs:1584-1589 [base_name_of] *)
Definition base_name_of (s : string) : string := before_char "["%char s.

(** crates/spar-hir-def/src/instance.rs:1154-1171 [SystemInstance::find_children_by_name]:
    the children that satisfy a test. *)
Definition children_where (inst : SystemInstance) (owner : ComponentInstanceIdx)
    (test : ComponentInstance → bool) : Exec (list ComponentInstanceIdx) :=
  o ← component inst owner;
  concatM (λ i, c ← component inst i; Done (if test c then [i] else [])) (children o).

(** crates/spar-hir-def/src/instance.rs:1146-1185 [SystemInstance::find_children_by_name] *)
Definition find_children_by_name (inst : SystemInstance) (owner : ComponentInstanceIdx) (sub_name : Name)
  : Exec (list ComponentInstanceIdx) :=
  exact ← children_where inst owner (λ c, bool_decide (name c = sub_name));
  match exact with
  | _ :: _ => Done exact
  | [] =>
      if contains_char "["%char sub_name then Done []
      else
        children_where inst owner (λ c,
          eq_ignore_ascii_case (base_name_of (name c)) sub_name &&
          match array_index c with Some _ => true | None => false end)
  end.

(** crates/spar-hir-def/src/instance.rs:1215-1223 [SystemInstance::trace_sources]: the
    other end of an up connection that leads to the feature being traced. *)
Definition up_of (conn : ConnectionInstance) (feat : Name) : option (Name * Name) :=
  match src conn, dst conn with
  | Some s, Some d =>
      match subcomponent s, subcomponent d with
      | Some sub, None => if bool_decide (feature d = feat) then Some (sub, feature s) else None
      | _, _ => None
      end
  | _, _ => None
  end.

(** crates/spar-hir-def/src/instance.rs:1277-1285 [SystemInstance::trace_destinations]: the
    other end of a down connection that leads away from that feature. *)
Definition down_of (conn : ConnectionInstance) (feat : Name) : option (Name * Name) :=
  match src conn, dst conn with
  | Some s, Some d =>
      match subcomponent s, subcomponent d with
      | None, Some sub => if bool_decide (feature s = feat) then Some (sub, feature d) else None
      | _, _ => None
      end
  | _, _ => None
  end.

(** An endpoint reached by a trace, with the connections on the way. *)
Abbreviation traced := (ComponentInstanceIdx * Name * list ConnectionInstanceIdx)%type.

Section trace.
Context (inst : SystemInstance) (inner_of : ConnectionInstance → Name → option (Name * Name)).

(** crates/spar-hir-def/src/instance.rs:1197-1247 [SystemInstance::trace_sources]: what
    the two traces share; they differ in the connections they follow. *)
Fixpoint trace (depth_remaining : nat) (comp : ComponentInstanceIdx) (feat : Name)
    (base_path : list ConnectionInstanceIdx) : Exec (list traced) :=
  match depth_remaining with
  | O => Done [(comp, feat, base_path)]
  | S depth =>
      c ← component inst comp;
      results ← concatM (λ ci,
        conn ← connection inst ci;
        match inner_of conn feat with
        | Some (sub_name, inner_feat) =>
            inner ← find_children_by_name inst comp sub_name;
            concatM (λ i, trace depth i inner_feat (base_path ++ [ci])) inner
        | None => Done []
        end) (connections c);
      match results with
      | [] => Done [(comp, feat, base_path)]
      | _ => Done results
      end
  end.
End trace.

(** crates/spar-hir-def/src/instance.rs:1197-1247 [SystemInstance::trace_sources] *)
Definition trace_sources (inst : SystemInstance) (comp : ComponentInstanceIdx) (feat : Name)
    (base_path : list ConnectionInstanceIdx) (depth_remaining : nat) : Exec (list traced) :=
  trace inst up_of depth_remaining comp feat base_path.

(** crates/spar-hir-def/src/instance.rs:1259-1309 [SystemInstance::trace_destinations] *)
Definition trace_destinations (inst : SystemInstance) (comp : ComponentInstanceIdx) (feat : Name)
    (base_path : list ConnectionInstanceIdx) (depth_remaining : nat) : Exec (list traced) :=
  trace inst down_of depth_remaining comp feat base_path.

(** crates/spar-hir-def/src/instance.rs:747 [MAX_TRACE_DEPTH] *)
Definition MAX_TRACE_DEPTH : nat := 20.

(** crates/spar-hir-def/src/instance.rs:1411-1416 [ConnectionPattern] *)
Inductive ConnectionPattern := OneToOne | AllToAll.

(** crates/spar-hir-def/src/instance.rs:1427 [parse_connection_pattern] *)
Definition is_list_punctuation (c : ascii) : bool :=
  existsb (Ascii.eqb c) ["("; ")"; ","; " "; "009"; "010"]%char.

(** crates/spar-hir-def/src/instance.rs:1423-1436 [parse_connection_pattern] *)
Definition parse_connection_pattern (value : string) : ConnectionPattern :=
  let stripped := String.string_of_list_ascii
    (List.filter (λ c, negb (is_list_punctuation c)) (String.list_ascii_of_string value)) in
  if eq_ignore_ascii_case stripped "one_to_one" then OneToOne else AllToAll.

(** crates/spar-hir-def/src/instance.rs:335-346 [SystemInstance::resolve_connection_pattern] *)
Definition resolve_connection_pattern (inst : SystemInstance) (owner : ComponentInstanceIdx)
  : ConnectionPattern :=
  let props := properties_for inst owner in
  match get props "Communication_Properties" "Connection_Pattern" with
  | Some val => parse_connection_pattern val
  | None =>
      match get props "" "Connection_Pattern" with
      | Some val => parse_connection_pattern val
      | None => AllToAll
      end
  end.

(** What one connection contributes. *)
Abbreviation contribution := (list SemanticConnection * list InstanceDiagnostic)%type.

(** crates/spar-hir-def/src/instance.rs:782-801 [SystemInstance::compute_semantic_connections]:
    the report on an endpoint whose subcomponent is not found. *)
Definition unresolved (end_ : string) (owner_name cname sub : Name) : InstanceDiagnostic :=
  {| inst_message := ("connection '" +:+ cname +:+ "': unresolved " +:+ end_ +:+ " subcomponent '"
                        +:+ sub +:+ "'")%string;
     inst_path := [owner_name; cname] |}.

(** crates/spar-hir-def/src/instance.rs:809-839 [SystemInstance::compute_semantic_connections] *)
Definition pair_up (pattern : ConnectionPattern) (srcs dsts : list ComponentInstanceIdx)
  : list (ComponentInstanceIdx * ComponentInstanceIdx) :=
  match pattern with
  | OneToOne => zip srcs dsts
  | AllToAll => s ← srcs; d ← dsts; [(s, d)]
  end.

(** crates/spar-hir-def/src/instance.rs:862-868 [SystemInstance::compute_semantic_connections] *)
Definition merge_paths (src_path dst_path : list ConnectionInstanceIdx) : list ConnectionInstanceIdx :=
  foldl (λ path ci, if bool_decide (ci ∈ path) then path else path ++ [ci]) src_path dst_path.

(** crates/spar-hir-def/src/instance.rs:841-879 [SystemInstance::compute_semantic_connections]:
    the connections one pair of components gives. *)
Definition across_pair (inst : SystemInstance) (ci : ConnectionInstanceIdx) (conn : ConnectionInstance)
    (s d : ConnectionEnd) (pair : ComponentInstanceIdx * ComponentInstanceIdx)
  : Exec (list SemanticConnection) :=
  all_sources ← trace_sources inst pair.1 (feature s) [ci] MAX_TRACE_DEPTH;
  all_destinations ← trace_destinations inst pair.2 (feature d) [ci] MAX_TRACE_DEPTH;
  Done ('(src_comp, src_feat, src_path) ← all_sources;
        '(dst_comp, dst_feat, dst_path) ← all_destinations;
        [{| sem_name := conn_name conn; sem_kind := conn_kind conn;
            ultimate_source := (src_comp, src_feat); ultimate_destination := (dst_comp, dst_feat);
            connection_path := merge_paths src_path dst_path |}]).

(** crates/spar-hir-def/src/instance.rs:777-880 [SystemInstance::compute_semantic_connections] *)
Definition across (inst : SystemInstance) (ci : ConnectionInstanceIdx) (conn : ConnectionInstance)
    (s d : ConnectionEnd) (src_sub dst_sub : Name) : Exec contribution :=
  src_matches ← find_children_by_name inst (conn_owner conn) src_sub;
  dst_matches ← find_children_by_name inst (conn_owner conn) dst_sub;
  o ← component inst (conn_owner conn);
  let no_src := match src_matches with
                | [] => [unresolved "source" (name o) (conn_name conn) src_sub]
                | _ => []
                end in
  let no_dst := match dst_matches with
                | [] => [unresolved "destination" (name o) (conn_name conn) dst_sub]
                | _ => []
                end in
  let pattern := resolve_connection_pattern inst (conn_owner conn) in
  let unequal :=
    match pattern with
    | OneToOne =>
        if bool_decide (length src_matches = length dst_matches) then []
        else [{| inst_message := ("connection '" +:+ conn_name conn +:+
                   "': One_To_One pattern requires equal array sizes (source=" +:+
                   pretty (length src_matches) +:+ ", destination=" +:+
                   pretty (length dst_matches) +:+ ")")%string;
                 inst_path := [name o; conn_name conn] |}]
    | AllToAll => []
    end in
  semantic ← concatM (across_pair inst ci conn s d) (pair_up pattern src_matches dst_matches);
  Done (semantic, no_src ++ no_dst ++ unequal).

(** crates/spar-hir-def/src/instance.rs:888-925 [SystemInstance::compute_semantic_connections]:
    an up connection of the root. *)
Definition up (inst : SystemInstance) (ci : ConnectionInstanceIdx) (conn : ConnectionInstance)
    (s d : ConnectionEnd) (src_sub : Name) : Exec contribution :=
  o ← component inst (conn_owner conn);
  match parent o with
  | Some _ => Done ([], [])
  | None =>
      src_matches ← find_children_by_name inst (conn_owner conn) src_sub;
      let no_src := match src_matches with
                    | [] => [unresolved "source" (name o) (conn_name conn) src_sub]
                    | _ => []
                    end in
      semantic ← concatM (λ i,
        all_sources ← trace_sources inst i (feature s) [ci] MAX_TRACE_DEPTH;
        Done (List.map (λ t : traced,
          {| sem_name := conn_name conn; sem_kind := conn_kind conn; ultimate_source := t.1;
             ultimate_destination := (conn_owner conn, feature d); connection_path := t.2 |})
          all_sources)) src_matches;
      Done (semantic, no_src)
  end.

(** crates/spar-hir-def/src/instance.rs:929-964 [SystemInstance::compute_semantic_connections]:
    a down connection of the root. *)
Definition down (inst : SystemInstance) (ci : ConnectionInstanceIdx) (conn : ConnectionInstance)
    (s d : ConnectionEnd) (dst_sub : Name) : Exec contribution :=
  o ← component inst (conn_owner conn);
  match parent o with
  | Some _ => Done ([], [])
  | None =>
      dst_matches ← find_children_by_name inst (conn_owner conn) dst_sub;
      let no_dst := match dst_matches with
                    | [] => [unresolved "destination" (name o) (conn_name conn) dst_sub]
                    | _ => []
                    end in
      semantic ← concatM (λ i,
        all_destinations ← trace_destinations inst i (feature d) [ci] MAX_TRACE_DEPTH;
        Done (List.map (λ t : traced,
          {| sem_name := conn_name conn; sem_kind := conn_kind conn;
             ultimate_source := (conn_owner conn, feature s); ultimate_destination := t.1;
             connection_path := t.2 |})
          all_destinations)) dst_matches;
      Done (semantic, no_dst)
  end.

(** crates/spar-hir-def/src/instance.rs:756-969 [SystemInstance::compute_semantic_connections]:
    one iteration of the loop. *)
Definition contribution_of (inst : SystemInstance) (ci : ConnectionInstanceIdx) : Exec contribution :=
  conn ← connection inst ci;
  match src conn, dst conn with
  | Some s, Some d =>
      match subcomponent s, subcomponent d with
      | Some src_sub, Some dst_sub => across inst ci conn s d src_sub dst_sub
      | Some src_sub, None => up inst ci conn s d src_sub
      | None, Some dst_sub => down inst ci conn s d dst_sub
      | None, None => Done ([], [])
      end
  | _, _ =>
      o ← component inst (conn_owner conn);
      Done ([], [{| inst_message := ("connection '" +:+ conn_name conn +:+ "': missing endpoint")%string;
                    inst_path := [name o; conn_name conn] |}])
  end.

(** crates/spar-hir-def/src/instance.rs:745-973 [SystemInstance::compute_semantic_connections] *)
Definition compute_semantic_connections (inst : SystemInstance) : Exec SystemInstance :=
  parts ← mapM (contribution_of inst) (seq 0 (length (connection_instances inst)));
  Done (set_semantic_connections (concat parts.*1)
          (set_diagnostics (diagnostics inst ++ concat parts.*2) inst)).

(** ** What the semantic connections are

    The endpoints a trace finds are the ends of chains of connections, one
    level of the hierarchy each, that either cannot be prolonged or have the
    maximal length; a semantic connection joins two of them, and every
    diagnostic has its cause. *)
(** Cases a connection of the given shape does not have. *)
Ltac no_case :=
  repeat match goal with H : _ ∨ _ |- _ => destruct H | H : is_Some _ |- _ => destruct H end;
  simplify_eq; try done; auto.

Lemma elem_of_concat {A} (x : A) xss : x ∈ concat xss ↔ ∃ xs, x ∈ xs ∧ xs ∈ xss.
Proof. rewrite list_elem_of_In, in_concat. setoid_rewrite list_elem_of_In. naive_solver. Qed.

(** ** Finding children *)

(** The children a connection's subcomponent name stands for: those of that
    very name, or, when there are none and the name has no index of its own,
    the elements of the array of that name. *)
Definition names_child (inst : SystemInstance) (owner : ComponentInstanceIdx) (sub : Name)
    (i : ComponentInstanceIdx) : Prop :=
  ∃ o c, components inst !! owner = Some o ∧ i ∈ children o ∧ components inst !! i = Some c ∧
    (name c = sub ∨
     ((∀ j c', j ∈ children o → components inst !! j = Some c' → name c' ≠ sub) ∧
      contains_char "["%char sub = false ∧ eq_ci (base_name_of (name c)) sub = true ∧
      is_Some (array_index c))).

Section wf.
Context (inst : SystemInstance) (Hwf : wf_instance inst).

Lemma component_total i : i < length (components inst) →
  ∃ c, component inst i = Done c ∧ components inst !! i = Some c.
Proof. apply arena_get_lt. Qed.

Lemma component_Done i c : component inst i = Done c ↔ components inst !! i = Some c.
Proof. apply arena_get_Some. Qed.

Lemma children_where_spec owner o test :
  components inst !! owner = Some o →
  ∃ is_, children_where inst owner test = Done is_ ∧
    ∀ i, i ∈ is_ ↔ i ∈ children o ∧ ∃ c, components inst !! i = Some c ∧ test c = true.
Proof.
  intros Ho. unfold children_where. rewrite (proj2 (component_Done _ _) Ho). simpl.
  destruct (concatM_total (λ i, c ← component inst i; Done (if test c then [i] else [])) (children o))
    as (ys & Hys & Hy).
  - intros i Hi. destruct (component_total i) as (c & -> & _); [by eapply wf_children|by eexists].
  - exists ys. split; [done|]. intros i. rewrite Hy. split.
    + intros (x & zs & Hx & Hzs & Hi). apply Exec_bind_Done in Hzs as (c & Hc%component_Done & [= <-]).
      destruct (test c) eqn:E; [|by apply not_elem_of_nil in Hi].
      apply list_elem_of_singleton in Hi as ->. eauto.
    + intros (Hi & c & Hc & Ht). exists i, [i]. rewrite (proj2 (component_Done _ _) Hc). simpl.
      rewrite Ht. split_and!; [done..|by left].
Qed.

Lemma find_children_spec owner sub :
  owner < length (components inst) →
  ∃ is_, find_children_by_name inst owner sub = Done is_ ∧ ∀ i, i ∈ is_ ↔ names_child inst owner sub i.
Proof.
  intros [o Ho]%lookup_lt_is_Some. unfold find_children_by_name, names_child.
  destruct (children_where_spec owner o (λ c, bool_decide (name c = sub)) Ho) as (ex & -> & Hex). simpl.
  setoid_rewrite bool_decide_eq_true in Hex. destruct ex as [|e ex].
  - assert (Hno : ∀ j c', j ∈ children o → components inst !! j = Some c' → name c' ≠ sub).
    { intros j c' Hj Hc Heq. apply (not_elem_of_nil j), Hex. eauto. }
    destruct (contains_char _ sub) eqn:Hb.
    + exists []. split; [done|]. intros i. split; [by intros ?%not_elem_of_nil|].
      intros (o' & c & ? & Hi & Hc & [Hn|(_ & ? & _)]); [|done]. simplify_eq. exfalso; by eapply Hno.
    + destruct (children_where_spec owner o (λ c, eq_ignore_ascii_case (base_name_of (name c)) sub &&
        match array_index c with Some _ => true | None => false end) Ho) as (arr & -> & Harr).
      exists arr. split; [done|]. intros i. rewrite Harr. split.
      * intros (Hi & c & Hc & [He Ha]%andb_true_iff). exists o, c. split_and!; [done..|]. right.
        split_and!; [done..|]. by destruct (array_index c).
      * intros (o' & c & ? & Hi & Hc & [Hn|(_ & _ & He & [a Ha])]); simplify_eq; [exfalso; by eapply Hno|].
        split; [done|]. exists c. split; [done|]. rewrite Ha. by apply andb_true_iff.
  - exists (e :: ex). split; [done|]. intros i. rewrite Hex. split.
    + intros (Hi & c & Hc & Hn). exists o, c. auto.
    + intros (o' & c & ? & Hi & Hc & [Hn|(Hno & _)]); simplify_eq; [by eauto|].
      destruct (proj1 (Hex e)) as (He & c' & Hc' & Hn); [by left|]. exfalso; by eapply Hno.
Qed.

(** ** Traces *)
Section trace.
Context (inner_of : ConnectionInstance → Name → option (Name * Name)).

(** One connection inside the component, followed to a child. *)
Definition follows (from : ComponentInstanceIdx * Name) (ci : ConnectionInstanceIdx)
    (to : ComponentInstanceIdx * Name) : Prop :=
  ∃ c conn sub, components inst !! from.1 = Some c ∧ ci ∈ connections c ∧
    connection_instances inst !! ci = Some conn ∧ inner_of conn from.2 = Some (sub, to.2) ∧
    names_child inst from.1 sub to.1.

Inductive chain : ComponentInstanceIdx * Name → list ConnectionInstanceIdx → ComponentInstanceIdx * Name → Prop :=
  | chain_nil e : chain e [] e
  | chain_cons e ci e' path e'' : follows e ci e' → chain e' path e'' → chain e (ci :: path) e''.

(** The ends of a trace: a chain that cannot be prolonged, or that has used
    up the depth. *)
Definition ends (depth : nat) (from : ComponentInstanceIdx * Name) (to : ComponentInstanceIdx * Name)
    (path : list ConnectionInstanceIdx) : Prop :=
  chain from path to ∧ length path ≤ depth ∧
  (length path = depth ∨ ∀ ci to', ¬ follows to ci to').

Lemma ends_0 e e' path : ends 0 e e' path ↔ e' = e ∧ path = [].
Proof.
  split; [|intros [-> ->]; split_and!; [constructor|done|by left]].
  intros (Hc & Hl & _). destruct path; [by inversion Hc|simpl in Hl; lia].
Qed.

Lemma ends_S d e e' path :
  ends (S d) e e' path ↔
  (path = [] ∧ e' = e ∧ ∀ ci to', ¬ follows e ci to') ∨
  (∃ ci e1 path', path = ci :: path' ∧ follows e ci e1 ∧ ends d e1 e' path').
Proof.
  split.
  - intros (Hc & Hl & Hend). destruct Hc as [e|e ci e1 path e2 Hf Hc].
    + left. destruct Hend as [?|?]; [done|auto].
    + right. exists ci, e1, path. simpl in *. split_and!; [done..|]. split_and!; [done|lia|].
      destruct Hend; [left; lia|by right].
  - intros [(-> & -> & Hno)|(ci & e1 & path' & -> & Hf & Hc & Hl & Hend)].
    + split_and!; [constructor|simpl; lia|by right].
    + split_and!; [by econstructor|simpl; lia|]. simpl. destruct Hend; [left; lia|by right].
Qed.

Lemma follows_range e ci e' : follows e ci e' → e'.1 < length (components inst).
Proof.
  intros (c & conn & sub & _ & _ & _ & _ & (o & c' & _ & _ & Hc' & _)). by eapply lookup_lt_Some.
Qed.

(** A trace returns, and its results are the ends of the chains from the
    feature it starts at. *)
Lemma trace_spec depth comp feat base :
  comp < length (components inst) →
  ∃ ts, trace inst inner_of depth comp feat base = Done ts ∧
    ∀ i f p, (i, f, p) ∈ ts ↔ ∃ path, p = base ++ path ∧ ends depth (comp, feat) (i, f) path.
Proof.
  revert comp feat base. induction depth as [|depth IH]; intros comp feat base Hcomp.
  - eexists. split; [done|]. intros i f p. rewrite list_elem_of_singleton. setoid_rewrite ends_0. split.
    + intros [= -> -> ->]. exists []. by rewrite app_nil_r.
    + intros (path & -> & [[= -> ->] ->]). by rewrite app_nil_r.
  - cbn [trace]. destruct (component_total comp Hcomp) as (c & -> & Hc). simpl.
    match goal with |- context [concatM ?g (connections c)] => set (step := g) end.
    assert (Hstep : ∀ ci, ci ∈ connections c → ∃ ts, step ci = Done ts ∧ ∀ i f p, (i, f, p) ∈ ts ↔
      ∃ e1 path, p = base ++ ci :: path ∧ follows (comp, feat) ci e1 ∧ ends depth e1 (i, f) path).
    { intros ci Hci. unfold step.
      destruct (arena_get_lt (connection_instances inst) ci) as (conn & Hget & Hconn).
      { by eapply wf_connections. }
      unfold connection. rewrite Hget. simpl. destruct (inner_of conn feat) as [[sub f1]|] eqn:Hin.
      - destruct (find_children_spec comp sub Hcomp) as (inner & -> & Hinner). simpl.
        destruct (concatM_total (λ i, trace inst inner_of depth i f1 (base ++ [ci])) inner) as (ts & -> & Hts).
        { intros i (o & c' & _ & _ & Hc' & _)%Hinner. apply lookup_lt_Some in Hc'.
          destruct (IH i f1 (base ++ [ci]) Hc') as (ts & -> & _). eauto. }
        exists ts. split; [done|]. intros i f p. rewrite Hts. split.
        + intros (j & ts' & Hj & Ht & Hp). pose proof (proj1 (Hinner j) Hj) as Hch.
          assert (Hjr : j < length (components inst)).
          { destruct Hch as (? & ? & _ & _ & ? & _). by eapply lookup_lt_Some. }
          destruct (IH j f1 (base ++ [ci]) Hjr) as (ts2 & Ht2 & Hsp). rewrite Ht in Ht2. simplify_eq.
          apply Hsp in Hp as (path & -> & He). exists (j, f1), path. rewrite <- app_assoc.
          split_and!; [done| |done]. by exists c, conn, sub.
        + intros ([j f2] & path & -> & (c' & conn' & sub' & Hc' & _ & Hconn' & Hin' & Hch) & He).
          simpl in *. simplify_eq. exists j.
          assert (Hjr : j < length (components inst)).
          { destruct Hch as (? & ? & _ & _ & ? & _). by eapply lookup_lt_Some. }
          destruct (IH j f1 (base ++ [ci]) Hjr) as (ts2 & Ht2 & Hsp). exists ts2.
          split_and!; [by apply Hinner|done|]. apply Hsp. exists path. by rewrite <- app_assoc.
      - exists []. split; [done|]. intros i f p. split; [by intros ?%not_elem_of_nil|].
        intros (e1 & path & _ & (c' & conn' & sub' & _ & _ & Hconn' & Hin' & _) & _).
        simpl in *. congruence. }
    destruct (concatM_total step (connections c)) as (ts & -> & Hts).
    { intros ci Hci. destruct (Hstep ci Hci) as (ts & -> & _). eauto. }
    assert (Hall : ∀ i f p, (i, f, p) ∈ ts ↔ ∃ ci e1 path,
      p = base ++ ci :: path ∧ follows (comp, feat) ci e1 ∧ ends depth e1 (i, f) path).
    { intros i f p. rewrite Hts. split.
      - intros (ci & ts' & Hci & Ht & Hp). destruct (Hstep ci Hci) as (ts2 & Ht2 & Hsp).
        rewrite Ht in Ht2. simplify_eq. apply Hsp in Hp as (e1 & path & ? & ? & ?). eauto 10.
      - intros (ci & e1 & path & Hp & Hf & He).
        assert (Hci : ci ∈ connections c).
        { destruct Hf as (c' & _ & _ & Hc' & Hci & _). simpl in *. by simplify_eq. }
        destruct (Hstep ci Hci) as (ts2 & Ht2 & Hsp). exists ci, ts2. split_and!; [done..|].
        apply Hsp. eauto. }
    simpl. setoid_rewrite ends_S. destruct ts as [|t ts].
    + assert (Hno : ∀ ci e1, ¬ follows (comp, feat) ci e1).
      { intros ci e1 Hf. assert (Hr := follows_range _ _ _ Hf). destruct e1 as [j f1].
        destruct (IH j f1 [] Hr) as (ts & Ht & Hsp).
        assert (Hex : ∃ t, t ∈ ts).
        { destruct ts as [|t ts]; [|exists t; by left]. exfalso. clear -Ht. destruct depth; [done|].
          cbn [trace] in Ht. apply Exec_bind_Done in Ht as (c & _ & (rs & _ & Ht)%Exec_bind_Done).
          by destruct rs. }
        destruct Hex as [[[i f] p] Ht']. apply Hsp in Ht' as (path & -> & He). simpl in He.
        apply (not_elem_of_nil (i, f, base ++ ci :: path)), Hall. eauto 10. }
      eexists. split; [done|]. intros i f p. rewrite list_elem_of_singleton. split.
      * intros [= -> -> ->]. exists []. rewrite app_nil_r. split; [done|]. by left.
      * intros (path & -> & [(-> & [= -> ->] & _)|(ci & e1 & path' & -> & Hf & _)]).
        -- by rewrite app_nil_r.
        -- by destruct (Hno _ _ Hf).
    + exists (t :: ts). split; [done|]. intros i f p. rewrite Hall. split.
      * intros (ci & e1 & path & -> & Hf & He). exists (ci :: path). split; [done|]. right. eauto 10.
      * intros (path & -> & [(-> & [= -> ->] & Hno)|(ci & e1 & path' & -> & Hf & He)]); [|by eauto 10].
        exfalso. destruct t as [[i f] p]. destruct (proj1 (Hall i f p)) as (ci & e1 & ? & _ & Hf & _); [by left|].
        by eapply Hno.
Qed.
End trace.

(** ** The connections and the reports *)

#[local] Arguments trace : simpl never.

(** The pairs of children an across connection joins: all of them, or, under
    the one-to-one pattern, those at the same position. *)
Definition paired (owner : ComponentInstanceIdx) (src_sub dst_sub : Name) (i j : ComponentInstanceIdx) : Prop :=
  ∃ srcs dsts, find_children_by_name inst owner src_sub = Done srcs ∧
    find_children_by_name inst owner dst_sub = Done dsts ∧
    match resolve_connection_pattern inst owner with
    | OneToOne => ∃ k, srcs !! k = Some i ∧ dsts !! k = Some j
    | AllToAll => i ∈ srcs ∧ j ∈ dsts
    end.

Definition source_ends := ends up_of MAX_TRACE_DEPTH.
Definition destination_ends := ends down_of MAX_TRACE_DEPTH.

(** What one connection gives. *)
Inductive gives (ci : ConnectionInstanceIdx) (conn : ConnectionInstance) : SemanticConnection → Prop :=
  | gives_across s d ss ds i j source spath destination dpath :
      src conn = Some s → dst conn = Some d → subcomponent s = Some ss → subcomponent d = Some ds →
      paired (conn_owner conn) ss ds i j →
      source_ends (i, feature s) source spath → destination_ends (j, feature d) destination dpath →
      gives ci conn
        {| sem_name := conn_name conn; sem_kind := conn_kind conn; ultimate_source := source;
           ultimate_destination := destination;
           connection_path := merge_paths (ci :: spath) (ci :: dpath) |}
  | gives_up s d ss o i source spath :
      src conn = Some s → dst conn = Some d → subcomponent s = Some ss → subcomponent d = None →
      components inst !! conn_owner conn = Some o → parent o = None →
      names_child inst (conn_owner conn) ss i → source_ends (i, feature s) source spath →
      gives ci conn
        {| sem_name := conn_name conn; sem_kind := conn_kind conn; ultimate_source := source;
           ultimate_destination := (conn_owner conn, feature d); connection_path := ci :: spath |}
  | gives_down s d ds o j destination dpath :
      src conn = Some s → dst conn = Some d → subcomponent s = None → subcomponent d = Some ds →
      components inst !! conn_owner conn = Some o → parent o = None →
      names_child inst (conn_owner conn) ds j → destination_ends (j, feature d) destination dpath →
      gives ci conn
        {| sem_name := conn_name conn; sem_kind := conn_kind conn;
           ultimate_source := (conn_owner conn, feature s); ultimate_destination := destination;
           connection_path := ci :: dpath |}.

Lemma pair_up_elem owner ss ds srcs dsts i j :
  find_children_by_name inst owner ss = Done srcs → find_children_by_name inst owner ds = Done dsts →
  (i, j) ∈ pair_up (resolve_connection_pattern inst owner) srcs dsts ↔ paired owner ss ds i j.
Proof.
  intros Hs Hd. unfold paired. rewrite Hs, Hd. transitivity (match resolve_connection_pattern inst owner with
    | OneToOne => ∃ k, srcs !! k = Some i ∧ dsts !! k = Some j
    | AllToAll => i ∈ srcs ∧ j ∈ dsts end).
  - destruct (resolve_connection_pattern inst owner); simpl.
    + rewrite list_elem_of_lookup. split; intros [k Hk]; exists k.
      * apply lookup_zip_Some in Hk. done.
      * by apply lookup_zip_Some.
    + rewrite list_elem_of_bind. split.
      * intros (s & (d & H & Hd')%list_elem_of_bind & Hs'). apply list_elem_of_singleton in H. by simplify_eq.
      * intros [? ?]. exists i. split; [|done]. apply list_elem_of_bind. exists j. split; [by left|done].
  - split; [intros H; by exists srcs, dsts|]. intros (s' & d' & [= <-] & [= <-] & H). done.
Qed.

Lemma across_pair_spec ci conn s d i j :
  i < length (components inst) → j < length (components inst) →
  ∃ scs, across_pair inst ci conn s d (i, j) = Done scs ∧ ∀ sc, sc ∈ scs ↔
    ∃ source spath destination dpath,
      source_ends (i, feature s) source spath ∧ destination_ends (j, feature d) destination dpath ∧
      sc = {| sem_name := conn_name conn; sem_kind := conn_kind conn; ultimate_source := source;
              ultimate_destination := destination;
              connection_path := merge_paths (ci :: spath) (ci :: dpath) |}.
Proof.
  intros Hi Hj. unfold across_pair, trace_sources, trace_destinations. simpl.
  destruct (trace_spec up_of MAX_TRACE_DEPTH i (feature s) [ci] Hi) as (ss & -> & Hs). simpl.
  destruct (trace_spec down_of MAX_TRACE_DEPTH j (feature d) [ci] Hj) as (ds & -> & Hd). simpl.
  eexists. split; [done|]. intros sc. rewrite list_elem_of_bind. split.
  - intros ([[sc1 sf] sp] & H & Hin1). apply list_elem_of_bind in H as ([[dc df] dp] & H & Hin2).
    apply list_elem_of_singleton in H as ->. apply Hs in Hin1 as (sp' & -> & He1).
    apply Hd in Hin2 as (dp' & -> & He2). by exists (sc1, sf), sp', (dc, df), dp'.
  - intros ([c1 f1] & sp & [c2 f2] & dp & H1 & H2 & ->). exists (c1, f1, [ci] ++ sp). split.
    + apply list_elem_of_bind. exists (c2, f2, [ci] ++ dp). split; [by left|]. apply Hd. eauto.
    + apply Hs. eauto.
Qed.

Lemma names_child_range owner sub i : names_child inst owner sub i → i < length (components inst).
Proof. intros (? & ? & _ & _ & H & _). by eapply lookup_lt_Some. Qed.

Lemma paired_range owner ss ds i j :
  owner < length (components inst) → paired owner ss ds i j →
  i < length (components inst) ∧ j < length (components inst).
Proof.
  intros Ho (srcs & dsts & Hs & Hd & Hp).
  destruct (find_children_spec owner ss Ho) as (srcs' & E1 & Hsin).
  destruct (find_children_spec owner ds Ho) as (dsts' & E2 & Hdin).
  rewrite Hs in E1. rewrite Hd in E2. simplify_eq.
  assert (i ∈ srcs' ∧ j ∈ dsts') as [Hi%Hsin Hj%Hdin]; [|by split; eapply names_child_range].
  destruct (resolve_connection_pattern inst owner); [|done].
  destruct Hp as (k & H1 & H2). split; by eapply list_elem_of_lookup_2.
Qed.

(** The two standalone cases, at the root. *)
Lemma standalone_spec inner_of feat ci matches (mk : traced → SemanticConnection) :
  (∀ i, i ∈ matches → i < length (components inst)) →
  ∃ scs, concatM (λ i, ts ← trace inst inner_of MAX_TRACE_DEPTH i feat [ci]; Done (List.map mk ts)) matches
      = Done scs ∧
    ∀ sc, sc ∈ scs ↔ ∃ i e path, i ∈ matches ∧ ends inner_of MAX_TRACE_DEPTH (i, feat) e path ∧
                       sc = mk (e, ci :: path).
Proof.
  intros Hm. destruct (concatM_total (λ i, ts ← trace inst inner_of MAX_TRACE_DEPTH i feat [ci];
    Done (List.map mk ts)) matches) as (scs & Hscs & Hin).
  { intros i Hi. destruct (trace_spec inner_of MAX_TRACE_DEPTH i feat [ci] (Hm i Hi)) as (ts & -> & _).
    by eexists. }
  exists scs. split; [done|]. intros sc. rewrite Hin. split.
  - intros (i & zs & Hi & Hz & Hsc). exists i.
    destruct (trace_spec inner_of MAX_TRACE_DEPTH i feat [ci] (Hm i Hi)) as (ts & Ht & Hts).
    rewrite Ht in Hz. injection Hz as <-. apply list_elem_of_In, in_map_iff in Hsc as ([[c f] p] & <- & Hp).
    apply list_elem_of_In, Hts in Hp as (path & -> & He). by exists (c, f), path.
  - intros (i & [c f] & path & Hi & He & ->).
    destruct (trace_spec inner_of MAX_TRACE_DEPTH i feat [ci] (Hm i Hi)) as (ts & Ht & Hts).
    exists i, (List.map mk ts). rewrite Ht. split_and!; [done..|].
    apply list_elem_of_In, in_map. apply list_elem_of_In, Hts. by exists path.
Qed.

(** Why one connection is reported; [o] is the component that owns it. *)
Inductive reports (conn : ConnectionInstance) (o : ComponentInstance) : InstanceDiagnostic → Prop :=
  | rep_missing :
      src conn = None ∨ dst conn = None →
      reports conn o
        {| inst_message := ("connection '" +:+ conn_name conn +:+ "': missing endpoint")%string;
           inst_path := [name o; conn_name conn] |}
  | rep_source s d ss :
      src conn = Some s → dst conn = Some d → subcomponent s = Some ss →
      is_Some (subcomponent d) ∨ parent o = None →
      (∀ i, ¬ names_child inst (conn_owner conn) ss i) →
      reports conn o (unresolved "source" (name o) (conn_name conn) ss)
  | rep_destination s d ds :
      src conn = Some s → dst conn = Some d → subcomponent d = Some ds →
      is_Some (subcomponent s) ∨ parent o = None →
      (∀ j, ¬ names_child inst (conn_owner conn) ds j) →
      reports conn o (unresolved "destination" (name o) (conn_name conn) ds)
  | rep_unequal s d ss ds srcs dsts :
      src conn = Some s → dst conn = Some d → subcomponent s = Some ss → subcomponent d = Some ds →
      resolve_connection_pattern inst (conn_owner conn) = OneToOne →
      find_children_by_name inst (conn_owner conn) ss = Done srcs →
      find_children_by_name inst (conn_owner conn) ds = Done dsts → length srcs ≠ length dsts →
      reports conn o
        {| inst_message := ("connection '" +:+ conn_name conn +:+
             "': One_To_One pattern requires equal array sizes (source=" +:+
             pretty (length srcs) +:+ ", destination=" +:+ pretty (length dsts) +:+ ")")%string;
           inst_path := [name o; conn_name conn] |}.

Definition contributes ci conn o (c : contribution) : Prop :=
  (∀ sc, sc ∈ c.1 ↔ gives ci conn sc) ∧ (∀ d, d ∈ c.2 ↔ reports conn o d).

(** A report made exactly when a search found nothing. *)
Lemma report_if_empty {A} (xs : list A) (P : A → Prop) (x d : InstanceDiagnostic) :
  (∀ a, a ∈ xs ↔ P a) → d ∈ match xs with [] => [x] | _ => [] end ↔ d = x ∧ ∀ a, ¬ P a.
Proof.
  intros H. destruct xs as [|a xs].
  - rewrite list_elem_of_singleton. split; [|by intros [? _]]. intros ->. split; [done|].
    intros a Ha%H. by apply not_elem_of_nil in Ha.
  - split; [by intros ?%not_elem_of_nil|]. intros [_ Hn]. edestruct Hn. apply H. by left.
Qed.

Lemma across_spec ci conn o s d ss ds :
  connection_instances inst !! ci = Some conn → components inst !! conn_owner conn = Some o →
  src conn = Some s → dst conn = Some d → subcomponent s = Some ss → subcomponent d = Some ds →
  ∃ c, across inst ci conn s d ss ds = Done c ∧ contributes ci conn o c.
Proof.
  intros Hci Ho Hs Hd Hss Hds. assert (Hor : conn_owner conn < length (components inst)) by (by eapply lookup_lt_Some).
  unfold across.
  destruct (find_children_spec (conn_owner conn) ss Hor) as (srcs & Hsrcs & Hsin).
  destruct (find_children_spec (conn_owner conn) ds Hor) as (dsts & Hdsts & Hdin).
  rewrite Hsrcs. simpl. rewrite Hdsts. simpl. rewrite (proj2 (component_Done _ _) Ho). simpl.
  destruct (concatM_total (across_pair inst ci conn s d)
    (pair_up (resolve_connection_pattern inst (conn_owner conn)) srcs dsts)) as (scs & -> & Hscs).
  { intros [i j] [Hi Hj]%(pair_up_elem _ _ _ _ _ i j Hsrcs Hdsts)%paired_range; [|done].
    destruct (across_pair_spec ci conn s d i j Hi Hj) as (scs & -> & _). by eexists. }
  simpl. eexists. split; [done|]. split; simpl.
  - intros sc. rewrite Hscs. split.
    + intros ([i j] & zs & Hij & Hz & Hsc). apply (pair_up_elem _ _ _ _ _ i j Hsrcs Hdsts) in Hij.
      destruct (paired_range _ _ _ _ _ Hor Hij) as [Hi Hj].
      destruct (across_pair_spec ci conn s d i j Hi Hj) as (scs' & E & Hin).
      rewrite E in Hz. simplify_eq. apply Hin in Hsc as (source & sp & dest & dp & H1 & H2 & ->).
      by eapply gives_across.
    + intros Hg. inversion Hg; simplify_eq. exists (i, j).
      match goal with H : paired _ _ _ i j |- _ => destruct (paired_range _ _ _ _ _ Hor H) as [Hi Hj];
        apply (pair_up_elem _ _ _ _ _ i j Hsrcs Hdsts) in H end.
      destruct (across_pair_spec ci conn s d i j Hi Hj) as (scs' & E & Hin).
      exists scs'. split_and!; [done..|]. apply Hin. eauto 10.
  - intros x. rewrite !elem_of_app, (report_if_empty _ _ _ _ Hsin), (report_if_empty _ _ _ _ Hdin). split.
    + intros [[-> Hn]|[[-> Hn]|Hu]].
      * eapply rep_source; eauto.
      * eapply rep_destination; eauto.
      * destruct (resolve_connection_pattern inst (conn_owner conn)) eqn:Hp; [|by apply not_elem_of_nil in Hu].
        case_bool_decide; [by apply not_elem_of_nil in Hu|]. apply list_elem_of_singleton in Hu as ->.
        by eapply rep_unequal.
    + intros Hr. inversion Hr as [[|]|s' d' ss' E1 E2 E3|s' d' ds' E1 E2 E3|s' d' ss' ds' srcs' dsts' E1 E2 E3 E4 Hp E5 E6 Hne];
        simplify_eq.
      * auto.
      * auto.
      * rewrite Hsrcs in E5. rewrite Hdsts in E6. simplify_eq. right; right.
        rewrite Hp, bool_decide_eq_false_2 by done. by left.
Qed.

Lemma up_spec ci conn o s d ss :
  connection_instances inst !! ci = Some conn → components inst !! conn_owner conn = Some o →
  src conn = Some s → dst conn = Some d → subcomponent s = Some ss → subcomponent d = None →
  ∃ c, up inst ci conn s d ss = Done c ∧ contributes ci conn o c.
Proof.
  intros Hci Ho Hs Hd Hss Hds. unfold up. rewrite (proj2 (component_Done _ _) Ho).
  cbn [mbind Exec_bind].
  destruct (parent o) as [p|] eqn:Hp.
  - eexists. split; [done|]. split; simpl; intros x; (split; [by intros ?%not_elem_of_nil|]);
      intros Hg; inversion Hg; no_case.
  - destruct (find_children_spec (conn_owner conn) ss) as (srcs & -> & Hin); [by eapply lookup_lt_Some|].
    cbn [mbind Exec_bind]. cbv beta delta [trace_sources].
    destruct (standalone_spec up_of (feature s) ci srcs (λ t : traced,
      {| sem_name := conn_name conn; sem_kind := conn_kind conn; ultimate_source := t.1;
         ultimate_destination := (conn_owner conn, feature d); connection_path := t.2 |}))
      as (scs & -> & Hscs); [intros i ?%Hin; by eapply names_child_range|].
    cbn [mbind Exec_bind]. eexists. split; [done|]. split; cbn [fst snd].
    + intros sc. rewrite Hscs. split.
      * intros (i & e & path & Hi%Hin & He & ->). by eapply gives_up.
      * intros Hg. inversion Hg; simplify_eq. do 3 eexists. split_and!; [by apply Hin|done|done].
    + intros x. rewrite (report_if_empty _ _ _ _ Hin). split.
      * intros [-> Hn]. eapply rep_source; eauto.
      * intros Hr. inversion Hr; no_case.
Qed.

Lemma down_spec ci conn o s d ds :
  connection_instances inst !! ci = Some conn → components inst !! conn_owner conn = Some o →
  src conn = Some s → dst conn = Some d → subcomponent s = None → subcomponent d = Some ds →
  ∃ c, down inst ci conn s d ds = Done c ∧ contributes ci conn o c.
Proof.
  intros Hci Ho Hs Hd Hss Hds. unfold down. rewrite (proj2 (component_Done _ _) Ho).
  cbn [mbind Exec_bind].
  destruct (parent o) as [p|] eqn:Hp.
  - eexists. split; [done|]. split; simpl; intros x; (split; [by intros ?%not_elem_of_nil|]);
      intros Hg; inversion Hg; no_case.
  - destruct (find_children_spec (conn_owner conn) ds) as (dsts & -> & Hin); [by eapply lookup_lt_Some|].
    cbn [mbind Exec_bind]. cbv beta delta [trace_destinations].
    destruct (standalone_spec down_of (feature d) ci dsts (λ t : traced,
      {| sem_name := conn_name conn; sem_kind := conn_kind conn;
         ultimate_source := (conn_owner conn, feature s); ultimate_destination := t.1;
         connection_path := t.2 |}))
      as (scs & -> & Hscs); [intros i ?%Hin; by eapply names_child_range|].
    cbn [mbind Exec_bind]. eexists. split; [done|]. split; cbn [fst snd].
    + intros sc. rewrite Hscs. split.
      * intros (i & e & path & Hi%Hin & He & ->). by eapply gives_down.
      * intros Hg. inversion Hg; simplify_eq. do 3 eexists. split_and!; [by apply Hin|done|done].
    + intros x. rewrite (report_if_empty _ _ _ _ Hin). split.
      * intros [-> Hn]. eapply rep_destination; eauto.
      * intros Hr. inversion Hr; no_case.
Qed.

Lemma contribution_spec ci conn o :
  connection_instances inst !! ci = Some conn → components inst !! conn_owner conn = Some o →
  ∃ c, contribution_of inst ci = Done c ∧ contributes ci conn o c.
Proof.
  intros Hci Ho. unfold contribution_of, connection. rewrite (proj2 (arena_get_Some _ _ _) Hci). simpl.
  assert (Hmissing : src conn = None ∨ dst conn = None → ∃ c,
    (o ← component inst (conn_owner conn);
     Done ([], [{| inst_message := ("connection '" +:+ conn_name conn +:+ "': missing endpoint")%string;
                   inst_path := [name o; conn_name conn] |}])) = Done c ∧ contributes ci conn o c).
  { intros Hm. rewrite (proj2 (component_Done _ _) Ho). simpl. eexists. split; [done|]. split; simpl.
    - intros sc. split; [by intros ?%not_elem_of_nil|]. intros Hg. inversion Hg; no_case.
    - intros x. rewrite list_elem_of_singleton. split; [intros ->; by apply rep_missing|].
      intros Hr. inversion Hr; no_case. }
  destruct (src conn) as [s|] eqn:Hs; [|by apply Hmissing; left].
  destruct (dst conn) as [d|] eqn:Hd; [|by apply Hmissing; right].
  destruct (subcomponent s) as [ss|] eqn:Hss, (subcomponent d) as [ds|] eqn:Hds.
  - by apply across_spec.
  - by apply up_spec.
  - by apply down_spec.
  - eexists. split; [done|]. split; simpl; intros x; (split; [by intros ?%not_elem_of_nil|]);
      intros Hg; inversion Hg; no_case.
Qed.

Abbreviation contributions parts := (Forall2 (λ ci c, contribution_of inst ci = Done c ∧ ∃ conn o,
  connection_instances inst !! ci = Some conn ∧ components inst !! conn_owner conn = Some o ∧ contributes ci conn o c)
  (seq 0 (length (connection_instances inst))) parts).

Lemma contributions_total : ∃ parts, contributions parts ∧
  compute_semantic_connections inst = Done (set_semantic_connections (concat parts.*1)
                                              (set_diagnostics (diagnostics inst ++ concat parts.*2) inst)).
Proof.
  assert (∃ parts, contributions parts) as [parts Hparts].
  { apply Forall_exists_Forall2_l, Forall_forall. intros ci [_ [conn Hci]%lookup_lt_is_Some]%elem_of_seq.
    destruct (lookup_lt_is_Some_2 (components inst) (conn_owner conn)) as [o Ho]; [by eapply wf_owner|].
    destruct (contribution_spec ci conn o Hci Ho) as (c & Hc & Hcc). eauto 10. }
  exists parts. split; [done|]. unfold compute_semantic_connections.
  assert (mapM (contribution_of inst) (seq 0 (length (connection_instances inst))) = Done parts) as ->; [|done].
  apply mapM_Done. eapply Forall2_impl; [exact Hparts|]. by intros ci c [? _].
Qed.

(** C33: On a well-formed instance [compute_semantic_connections] never
    panics.  The semantic connections are exactly those the declared
    connections give: an across connection joins, for the pairs of children
    its pattern selects, each end of the chains of up connections behind its
    source with each end of the chains of down connections behind its
    destination, an up or down connection of the root has the root's feature
    as its other end, and a chain ends where no connection prolongs it or
    after 20 connections.  The diagnostics added are exactly the missing
    endpoints, the names that stand for no child and the arrays of different
    sizes under the one-to-one pattern. *)
Theorem compute_semantic_connections_exact :
  ∃ inst', compute_semantic_connections inst = Done inst' ∧
    (∀ sc, sc ∈ semantic_connections inst' ↔
       ∃ ci conn, connection_instances inst !! ci = Some conn ∧ gives ci conn sc) ∧
    ∃ ds, diagnostics inst' = diagnostics inst ++ ds ∧
      ∀ d, d ∈ ds ↔ ∃ ci conn o, connection_instances inst !! ci = Some conn ∧
        components inst !! conn_owner conn = Some o ∧ reports conn o d.
Proof.
  destruct contributions_total as (parts & Hparts & ->). eexists. split; [done|]. simpl.
  assert (Hget : ∀ ci conn, connection_instances inst !! ci = Some conn → ∃ o c, c ∈ parts ∧
    components inst !! conn_owner conn = Some o ∧ contributes ci conn o c).
  { intros ci conn Hci. assert (seq 0 (length (connection_instances inst)) !! ci = Some ci) as Hi.
    { apply lookup_seq. split; [done|]. by eapply lookup_lt_Some. }
    destruct (Forall2_lookup_l _ _ _ _ _ Hparts Hi) as (c & Hc & _ & conn' & o & Hci' & Ho & Hcc).
    simplify_eq. exists o, c. split_and!; [by eapply list_elem_of_lookup_2|done..]. }
  assert (Hof : ∀ c, c ∈ parts → ∃ ci conn o, connection_instances inst !! ci = Some conn ∧
    components inst !! conn_owner conn = Some o ∧ contributes ci conn o c).
  { intros c [k Hk]%list_elem_of_lookup.
    destruct (Forall2_lookup_r _ _ _ _ _ Hparts Hk) as (ci & _ & _ & conn & o & H). eauto. }
  split.
  - intros sc. rewrite elem_of_concat. setoid_rewrite list_elem_of_fmap. split.
    + intros (? & Hsc & c & -> & (ci & conn & o & Hci & _ & [Hg _])%Hof). exists ci, conn. split; [done|]. by apply Hg.
    + intros (ci & conn & Hci & Hgives). destruct (Hget _ _ Hci) as (o & c & Hc & _ & [Hg _]).
      exists c.1. split; [by apply Hg|]. eauto.
  - eexists. split; [done|]. intros d. rewrite elem_of_concat. setoid_rewrite list_elem_of_fmap. split.
    + intros (? & Hd & c & -> & (ci & conn & o & Hci & Ho & [_ Hr])%Hof). exists ci, conn, o.
      split_and!; [done..|]. by apply Hr.
    + intros (ci & conn & o & Hci & Ho & Hrep). destruct (Hget _ _ Hci) as (o' & c & Hc & Ho' & [_ Hr]).
      simplify_eq. exists c.2. split; [by apply Hr|]. eauto.
Qed.
End wf.

(** The source is traced into the inner component; the array name stands for
    both destinations. *)
Lemma compute_semantic_connections_exact_witness :
  wf_instance inst_ex ∧
  (match compute_semantic_connections inst_ex with
   | Done i => ((λ sc, (ultimate_source sc, ultimate_destination sc, connection_path sc)) <$>
                  semantic_connections i, length (diagnostics i))
   | _ => ([], 0)
   end) = ([((4, "o"%string), (2, "q"%string), [0; 2]); ((4, "o"%string), (3, "q"%string), [0; 2])], 1) ∧
  ∃ inst', compute_semantic_connections inst_ex = Done inst' ∧
    (∀ sc, sc ∈ semantic_connections inst' ↔
       ∃ ci conn, connection_instances inst_ex !! ci = Some conn ∧ gives inst_ex ci conn sc).
Proof.
  split; [exact inst_ex_wf|]. split; [by vm_compute|].
  destruct (compute_semantic_connections_exact inst_ex inst_ex_wf) as (inst' & H & Hs & _).
  exists inst'. split; [exact H|exact Hs].
Defined.
