(* ===== verification/ModeReachability.v ===== *)
(** * Mode reachability

    [crates/spar-analysis/src/mode_reachability.rs]: for every modal
    component the matrix of modes reachable from each other by transitions,
    the modes that cannot be reached from the initial one and the transitions
    whose triggers nothing is connected to.  The NuSMV and DOT exports are
    text generation over the same data and are not modelled. *)
From S2P Require Import Prelude.
From S2P Require Import BTree.
From S2P Require Import Diagnostics.
From S2P Require Import Names.
From S2P Require Import PropertyMap.
From S2P Require Import ItemTree.
From S2P Require Import Instance.
From stdpp Require Import pretty.
From stdpp Require Import sets relations.

(** crates/spar-analysis/src/mode_reachability.rs:39-44 [DeadTransition] *)
Record DeadTransition := {
  dt_name : string;
  dt_source : string;
  dt_destination : string;
  dt_trigger : string;
}.

(** crates/spar-analysis/src/mode_reachability.rs:20-35 [ReachabilityMatrix] *)
Record ReachabilityMatrix := {
  rm_component_path : list string;
  component_idx : ComponentInstanceIdx;
  rm_modes : list string;
  initial_mode : string;
  matrix : list (list bool);
  unreachable : list string;
  dead_transitions : list DeadTransition;
}.

(** ** The closure *)

(** crates/spar-analysis/src/mode_reachability.rs:136-140 [compute_reachability_matrices]:
    a later mode of the same name takes the entry of an earlier one. *)
Definition mode_index (mode_names : list string) : list (string * nat) :=
  foldl (λ m (ni : nat * string), bt_insert (to_ascii_lowercase ni.2) ni.1 m) []
    (imap pair mode_names).

(** crates/spar-analysis/src/mode_reachability.rs:146-151 [compute_reachability_matrices] *)
Definition add_edge (index : list (string * nat)) (adj : list (list (nat * unit)))
    (mt : ModeTransitionInstance) : list (list (nat * unit)) :=
  match bt_get (to_ascii_lowercase (mt_source mt)) index,
        bt_get (to_ascii_lowercase (mt_destination mt)) index with
  | Some si, Some di => alter (bt_insert di tt) si adj
  | _, _ => adj
  end.

(** crates/spar-analysis/src/mode_reachability.rs:144-152 [compute_reachability_matrices]:
    the sets of direct successors, in increasing order. *)
Definition adjacency (index : list (string * nat)) (n : nat) (transitions : list ModeTransitionInstance)
  : list (list nat) :=
  (λ succs, succs.*1) <$> foldl (add_edge index) (replicate n []) transitions.

(** crates/spar-analysis/src/mode_reachability.rs:167-172 [compute_reachability_matrices]:
    mark the successors not seen yet and put them on the stack, whose top is
    the head of the list. *)
Fixpoint push_next (nexts : list nat) (visited : list bool) (queue : list nat)
  : Exec (list bool * list nat) :=
  match nexts with
  | [] => Done (visited, queue)
  | next :: nexts =>
      v ← arena_get visited next;
      if (v : bool) then push_next nexts visited queue
      else push_next nexts (<[next := true]> visited) (next :: queue)
  end.

(** crates/spar-analysis/src/mode_reachability.rs:166-173 [compute_reachability_matrices]:
    every iteration takes one mode off the stack, and a mode is put there at
    most once. *)
Fixpoint drain (fuel : nat) (adj : list (list nat)) (visited : list bool) (queue : list nat)
  : Exec (list bool) :=
  match queue with
  | [] => Done visited
  | current :: queue =>
      match fuel with
      | O => Stuck
      | S fuel =>
          nexts ← arena_get adj current;
          '(visited, queue) ← push_next nexts visited queue;
          drain fuel adj visited queue
      end
  end.

(** crates/spar-analysis/src/mode_reachability.rs:157-174 [compute_reachability_matrices]:
    one row of the matrix. *)
Definition reach_row (adj : list (list nat)) (n start : nat) : Exec (list bool) :=
  nexts ← arena_get adj start;
  '(visited, queue) ← push_next nexts (<[start := true]> (replicate n false)) [];
  drain n adj visited queue.

(** ** Dead transitions *)

(** crates/spar-analysis/src/mode_reachability.rs:219-226 [find_dead_transitions] *)
Definition own_destinations (inst : SystemInstance) (comp : ComponentInstance) : Exec (list string) :=
  concatM (λ ci, conn ← connection inst ci;
    Done match dst conn with
         | Some d => match subcomponent d with None => [to_ascii_lowercase (feature d)] | Some _ => [] end
         | None => []
         end) (connections comp).

(** crates/spar-analysis/src/mode_reachability.rs:229-233 [find_dead_transitions] *)
Definition semantic_destinations (inst : SystemInstance) (comp_idx : ComponentInstanceIdx) : list string :=
  sc ← semantic_connections inst;
  if Nat.eqb (ultimate_destination sc).1 comp_idx
  then [to_ascii_lowercase (ultimate_destination sc).2] else [].

(** crates/spar-analysis/src/mode_reachability.rs:236-249 [find_dead_transitions] *)
Definition parent_destinations (inst : SystemInstance) (comp : ComponentInstance) : Exec (list string) :=
  match parent comp with
  | None => Done []
  | Some p =>
      par ← component inst p;
      concatM (λ ci, conn ← connection inst ci;
        Done match dst conn with
             | Some d =>
                 match subcomponent d with
                 | Some s => if eq_ignore_ascii_case s (name comp) then [to_ascii_lowercase (feature d)] else []
                 | None => []
                 end
             | None => []
             end) (connections par)
  end.

(** crates/spar-analysis/src/mode_reachability.rs:255-261 [find_dead_transitions] *)
Definition transition_label (mt : ModeTransitionInstance) : string :=
  match mt_name mt with
  | Some n => n
  | None => mt_source mt +:+ "->" +:+ mt_destination mt
  end.

(** crates/spar-analysis/src/mode_reachability.rs:205-273 [find_dead_transitions] *)
Definition find_dead_transitions (inst : SystemInstance) (comp_idx : ComponentInstanceIdx)
    (transitions : list ModeTransitionInstance) : Exec (list DeadTransition) :=
  comp ← component inst comp_idx;
  own ← own_destinations inst comp;
  par ← parent_destinations inst comp;
  let connected_features := own ++ semantic_destinations inst comp_idx ++ par in
  Done (mt ← transitions;
        trigger ← mt_triggers mt;
        if bool_decide (to_ascii_lowercase trigger ∈ connected_features) then []
        else [{| dt_name := transition_label mt; dt_source := mt_source mt;
                 dt_destination := mt_destination mt; dt_trigger := trigger |}]).

(** ** The matrices *)

(** crates/spar-analysis/src/mode_reachability.rs:180-185 [compute_reachability_matrices] *)
Definition unreachable_modes (mode_names : list string) (initial_idx : nat) (row : list bool) : list string :=
  concat (imap (λ i nm, if negb (Nat.eqb i initial_idx) && negb (default false (row !! i)) then [nm] else [])
    mode_names).

(** crates/spar-analysis/src/mode_reachability.rs:118-198 [compute_reachability_matrices]:
    one iteration of the loop, [None] where it continues. *)
Definition component_matrix (inst : SystemInstance) (comp_idx : ComponentInstanceIdx)
  : Exec (option ReachabilityMatrix) :=
  ms ← modes_for inst comp_idx;
  transitions ← mode_transitions_for inst comp_idx;
  if (length ms <? 2) || bool_decide (transitions = []) then Done None
  else
    match List.find is_initial ms with
    | None => Done None
    | Some initial =>
        path ← component_path inst comp_idx;
        let mode_names := mode_name <$> ms in
        let index := mode_index mode_names in
        let n := length mode_names in
        let adj := adjacency index n transitions in
        rows ← mapM (reach_row adj n) (seq 0 n);
        let initial_idx := default 0 (bt_get (to_ascii_lowercase (mode_name initial)) index) in
        row ← arena_get rows initial_idx;
        dead ← find_dead_transitions inst comp_idx transitions;
        Done (Some {| rm_component_path := path; component_idx := comp_idx; rm_modes := mode_names;
                      initial_mode := mode_name initial; matrix := rows;
                      unreachable := unreachable_modes mode_names initial_idx row;
                      dead_transitions := dead |})
    end.

(** crates/spar-analysis/src/mode_reachability.rs:115-202 [compute_reachability_matrices] *)
Definition compute_reachability_matrices (inst : SystemInstance) : Exec (list ReachabilityMatrix) :=
  concatM (λ ic : ComponentInstanceIdx * ComponentInstance,
    m ← component_matrix inst ic.1; Done (option_list m)) (all_components inst).

(** crates/spar-analysis/src/mode_reachability.rs:58-111 [ModeReachabilityAnalysis::analyze] *)
Definition matrix_diagnostics (m : ReachabilityMatrix) : list AnalysisDiagnostic :=
  let diag sev msg := {| severity := sev; message := msg; path := rm_component_path m;
                         analysis := "mode_reachability" |} in
  ((λ mode, diag Warning ("mode '" +:+ mode +:+ "' is not reachable from initial mode '" +:+ initial_mode m
      +:+ "' via any transition path")) <$> unreachable m) ++
  ((λ dt, diag Warning ("transition '" +:+ dt_name dt +:+ "' (" +:+ dt_source dt +:+ " -> "
      +:+ dt_destination dt +:+ ") has trigger port '" +:+ dt_trigger dt
      +:+ "' with no incoming connections — transition can never fire")) <$> dead_transitions m) ++
  [diag Info ("mode reachability: " +:+ pretty (length (rm_modes m) - length (unreachable m)) +:+ "/" +:+
      pretty (length (rm_modes m)) +:+ " modes reachable from initial mode '" +:+ initial_mode m +:+ "'")].

(** crates/spar-analysis/src/mode_reachability.rs:58-111 [ModeReachabilityAnalysis::analyze] *)
Definition analyze (inst : SystemInstance) : Exec (list AnalysisDiagnostic) :=
  ms ← compute_reachability_matrices inst; Done (ms ≫= matrix_diagnostics).

(** ** What the reachability matrix says

    An entry of the matrix is set exactly when a sequence of transitions
    leads from the one mode to the other; the modes reported unreachable are
    those the initial mode does not reach, and the transitions reported dead
    those with a trigger no connection ends at. *)
(** ** The search of one row *)
Section row.
Context (adj : list (list nat)) (n : nat).
Context (Hlen : length adj = n) (Hadj : ∀ i s j, adj !! i = Some s → j ∈ s → j < n).

Definition succ (i j : nat) : Prop := ∃ s, adj !! i = Some s ∧ j ∈ s.

Definition marked (visited : list bool) (i : nat) : Prop := visited !! i = Some true.

#[local] Instance marked_dec visited i : Decision (marked visited i).
Proof. unfold marked. apply _. Defined.

Definition unmarked (visited : list bool) : nat := length (filter (λ b, b = false) visited).

Lemma marked_insert visited i j :
  i < length visited → marked (<[i := true]> visited) j ↔ j = i ∨ marked visited j.
Proof.
  intros Hi. unfold marked. destruct (decide (j = i)) as [->|Hne].
  - rewrite list_lookup_insert_eq by done. naive_solver.
  - rewrite list_lookup_insert_ne by done. naive_solver.
Qed.

Lemma unmarked_insert visited i :
  visited !! i = Some false → unmarked visited = S (unmarked (<[i := true]> visited)).
Proof.
  unfold unmarked. revert i. induction visited as [|b visited IH]; intros [|i] H; simplify_eq/=.
  - done.
  - rewrite !filter_cons. destruct (decide (b = false)); simpl; [f_equal|]; by apply IH.
Qed.

Lemma push_next_spec nexts visited queue :
  length visited = n → (∀ j, j ∈ nexts → j < n) →
  ∃ visited' queue', push_next nexts visited queue = Done (visited', queue') ∧
    length visited' = n ∧
    unmarked visited' + length queue' = unmarked visited + length queue ∧
    (∀ j, marked visited' j ↔ marked visited j ∨ j ∈ nexts) ∧
    (∀ j, j ∈ queue' ↔ j ∈ queue ∨ (j ∈ nexts ∧ ¬ marked visited j)).
Proof.
  revert visited queue. induction nexts as [|x nexts IH]; intros visited queue Hl Hn.
  - exists visited, queue. split_and!; try done; intros j; set_solver.
  - simpl. destruct (arena_get_lt visited x) as (b & -> & Hb); [rewrite Hl; apply Hn; by left|]. simpl.
    destruct b.
    + destruct (IH visited queue) as (v' & q' & -> & H1 & H2 & H3 & H4); [done|set_solver|].
      exists v', q'. split_and!; try done; intros j; rewrite ?H3, ?H4, elem_of_cons; unfold marked in *; naive_solver.
    + assert (Hx : x < length visited) by (by eapply lookup_lt_Some).
      destruct (IH (<[x := true]> visited) (x :: queue)) as (v' & q' & -> & H1 & H2 & H3 & H4);
        [by rewrite length_insert|set_solver|].
      exists v', q'. split; [done|]. split; [done|]. split.
      { rewrite H2, (unmarked_insert visited x) by done. simpl. lia. }
      assert (Hnm : ¬ marked visited x) by (unfold marked; congruence).
      split; intros j; rewrite ?H3, ?H4, ?marked_insert by done; rewrite !elem_of_cons; [naive_solver|].
      destruct (decide (j = x)) as [->|]; naive_solver.
Qed.

(** Everything marked is reachable, and every successor of a marked mode is
    marked unless the mode is still on the stack. *)
Record RowInv (start : nat) (visited : list bool) (queue : list nat) : Prop := {
  ri_length : length visited = n;
  ri_start : marked visited start;
  ri_reach j : marked visited j → rtc succ start j;
  ri_queue j : j ∈ queue → marked visited j;
  ri_closed i j : marked visited i → i ∉ queue → succ i j → marked visited j;
}.

Lemma marked_lt visited i : length visited = n → marked visited i → i < n.
Proof. intros <- H. by eapply lookup_lt_Some. Qed.

(** Processing the successors of a mode that was marked. *)
Lemma RowInv_expand start visited (queue : list nat) current (s : list nat) visited' (queue' : list nat) :
  length visited = n → marked visited start → marked visited current →
  (∀ j, marked visited j → rtc succ start j) → (∀ j, j ∈ queue → marked visited j) →
  (∀ i j, marked visited i → i ≠ current → i ∉ queue → succ i j → marked visited j) →
  adj !! current = Some s → length visited' = n →
  (∀ j, marked visited' j ↔ marked visited j ∨ j ∈ s) →
  (∀ j, j ∈ queue' ↔ j ∈ queue ∨ (j ∈ s ∧ ¬ marked visited j)) →
  RowInv start visited' queue'.
Proof.
  intros Hl Hst Hcur Hreach Hq Hcl Hs Hl' Hm' Hq'. split; [done|by apply Hm'; left|..].
  - intros j [Hj|Hj]%Hm'; [by apply Hreach|]. eapply rtc_r; [by apply Hreach|]. by exists s.
  - intros j [Hj|[Hj _]]%Hq'; apply Hm'; [left; by apply Hq|by right].
  - intros i j Hi Hiq Hij. apply Hm'. destruct (decide (i = current)) as [->|Hne].
    + destruct Hij as (s' & Hs' & Hj). simplify_eq. by right.
    + left. assert (Hni : ¬ (i ∈ queue ∨ (i ∈ s ∧ ¬ marked visited i))) by (by rewrite <- Hq').
      apply Hm' in Hi as [Hi|Hi].
      * eapply Hcl; eauto.
      * destruct (decide (marked visited i)) as [Him|Him]; [eapply Hcl; eauto|]. destruct Hni. by right.
Qed.

Lemma drain_spec start fuel visited queue :
  RowInv start visited queue → unmarked visited + length queue ≤ fuel →
  ∃ row, drain fuel adj visited queue = Done row ∧ RowInv start row [].
Proof.
  revert visited queue. induction fuel as [|fuel IH]; intros visited [|current queue] HI Hf; simpl in *;
    try (by eexists); [lia|].
  assert (Hcur : marked visited current) by (eapply ri_queue; [done|by left]).
  destruct (arena_get_lt adj current) as (s & -> & Hs).
  { rewrite Hlen. by eapply marked_lt; [eapply ri_length|]. }
  simpl. destruct (push_next_spec s visited queue) as (v' & q' & -> & H1 & H2 & H3 & H4);
    [by eapply ri_length|by intros j; eapply Hadj|].
  simpl. apply IH; [|lia]. eapply (RowInv_expand start visited queue current s); try done; try apply HI.
  - intros j Hj. eapply ri_queue; [done|by right].
  - intros i j Hi Hne Hiq. eapply ri_closed; [done..|]. by intros [?|?]%elem_of_cons.
Qed.

Lemma unmarked_replicate : unmarked (replicate n false) = n.
Proof.
  unfold unmarked. clear Hlen Hadj. induction n as [|m IH]; [done|].
  cbn [replicate]. rewrite filter_cons_True by done. cbn [length]. by f_equal.
Qed.

Lemma reach_row_spec start :
  start < n → ∃ row, reach_row adj n start = Done row ∧ length row = n ∧
    ∀ j, row !! j = Some true ↔ rtc succ start j.
Proof.
  intros Hst. unfold reach_row. destruct (arena_get_lt adj start) as (s & -> & Hs); [by rewrite Hlen|].
  simpl. set (v0 := <[start := true]> (replicate n false)).
  assert (Hl0 : length v0 = n) by (unfold v0; by rewrite length_insert, length_replicate).
  assert (Hm0 : ∀ j, marked v0 j ↔ j = start).
  { intros j. unfold v0. rewrite marked_insert by (by rewrite length_replicate). split; [|by left].
    intros [?|Hj]; [done|]. unfold marked in Hj. apply lookup_replicate in Hj as [? _]. done. }
  destruct (push_next_spec s v0 []) as (v' & q' & -> & H1 & H2 & H3 & H4);
    [done|by intros j; eapply Hadj|]. simpl.
  destruct (drain_spec start n v' q') as (row & -> & HI).
  - eapply (RowInv_expand start v0 [] start s); try done.
    + by apply Hm0.
    + by apply Hm0.
    + intros j ->%Hm0. constructor.
    + by intros j ?%not_elem_of_nil.
    + intros i j ->%Hm0. done.
  - rewrite H2. simpl. rewrite Nat.add_0_r. transitivity (unmarked (replicate n false)); [|by rewrite unmarked_replicate].
    unfold v0. rewrite (unmarked_insert (replicate n false) start); [lia|]. by apply lookup_replicate_2.
  - exists row. split; [done|]. split; [apply HI|]. intros j. split; [apply HI|].
    assert (Hcl : ∀ i k, rtc succ i k → marked row i → marked row k).
    { induction 1 as [i|i k l Hik _ IH]; intros Hi; [done|]. apply IH.
      apply (ri_closed _ _ _ HI i); [exact Hi|apply not_elem_of_nil|done]. }
    intros Hr. eapply Hcl; [exact Hr|apply HI].
Qed.
End row.

(** ** Modes and transitions *)

(** The position a mode name stands for: the last mode of that name, case
    ignored. *)
Definition last_named (names : list string) (k : CiName) (i : nat) : Prop :=
  ∃ nm, names !! i = Some nm ∧ ci nm = k ∧ ∀ j nm', i < j → names !! j = Some nm' → ci nm' ≠ k.

Lemma mode_index_app names x :
  mode_index (names ++ [x]) = bt_insert (ci x) (length names) (mode_index names).
Proof. unfold mode_index. rewrite imap_app, foldl_app. simpl. by rewrite Nat.add_0_r. Qed.

Lemma mode_index_spec names :
  bt_sorted (mode_index names) ∧ ∀ k i, bt_get k (mode_index names) = Some i ↔ last_named names k i.
Proof.
  induction names as [|x names [IHs IH]] using rev_ind.
  - split; [done|]. intros k i. split; [done|]. by intros (nm & ? & _).
  - rewrite mode_index_app. split; [by apply bt_sorted_alter|]. intros k i. unfold bt_insert.
    destruct (decide (k = ci x)) as [->|Hne].
    + rewrite bt_get_alter by done. split.
      * intros [= <-]. exists x. split_and!; [by rewrite list_lookup_middle|done|].
        intros j nm' Hj Hnm. apply lookup_lt_Some in Hnm. rewrite length_app in Hnm. simpl in Hnm. lia.
      * intros (nm & Hnm & _ & Hlast). f_equal. apply lookup_lt_Some in Hnm as Hi.
        rewrite length_app in Hi. simpl in Hi. destruct (decide (i = length names)); [done|].
        exfalso. apply (Hlast (length names) x); [lia|by rewrite list_lookup_middle|done].
    + rewrite bt_get_alter_ne, IH by done. split; intros (nm & Hnm & Hk & Hlast).
      * exists nm. split_and!; [by apply lookup_app_l_Some|done|]. intros j nm' Hj Hnm'.
        apply lookup_app_Some in Hnm' as [?|[_ Hx]]; [by eapply Hlast|].
        apply list_lookup_singleton_Some in Hx as [_ <-]. done.
      * apply lookup_app_Some in Hnm as [Hnm|[_ Hx]].
        -- exists nm. split_and!; [done..|]. intros j nm' Hj Hnm'. apply (Hlast j); [done|].
           by apply lookup_app_l_Some.
        -- apply list_lookup_singleton_Some in Hx as [_ <-]. done.
Qed.

(** One transition, between the modes its names stand for. *)
Definition edge (names : list string) (ts : list ModeTransitionInstance) (i j : nat) : Prop :=
  ∃ mt, mt ∈ ts ∧ last_named names (ci (mt_source mt)) i ∧ last_named names (ci (mt_destination mt)) j.

Lemma last_named_lt names k i : last_named names k i → i < length names.
Proof. intros (nm & H & _). by eapply lookup_lt_Some. Qed.

Lemma adjacency_spec names ts :
  let adj := adjacency (mode_index names) (length names) ts in
  length adj = length names ∧ ∀ i j, succ adj i j ↔ edge names ts i j.
Proof.
  destruct (mode_index_spec names) as [_ Hidx]. unfold adjacency, succ.
  assert (H : ∀ adj0 : list (list (nat * unit)), length adj0 = length names →
    let adj := foldl (add_edge (mode_index names)) adj0 ts in
    length adj = length names ∧ ∀ i j,
      (∃ s, adj !! i = Some s ∧ j ∈ s.*1) ↔ (∃ s, adj0 !! i = Some s ∧ j ∈ s.*1) ∨ edge names ts i j).
  { induction ts as [|mt ts IH]; intros adj0 Hl; cbn [foldl].
    - split; [done|]. intros i j. split; [by left|]. intros [?|(mt & ?%not_elem_of_nil & _)]; done.
    - destruct (IH (add_edge (mode_index names) adj0 mt)) as [H1 H2].
      { unfold add_edge. repeat case_match; by rewrite ?length_alter. }
      split; [done|]. intros i j. rewrite H2. clear H2.
      assert (Hone : (∃ s, add_edge (mode_index names) adj0 mt !! i = Some s ∧ j ∈ s.*1) ↔
        (∃ s, adj0 !! i = Some s ∧ j ∈ s.*1) ∨
        (last_named names (ci (mt_source mt)) i ∧ last_named names (ci (mt_destination mt)) j)).
      { rewrite <- !Hidx. unfold add_edge, ci.
        destruct (bt_get (to_ascii_lowercase (mt_source mt)) _) as [si|] eqn:Es; [|naive_solver].
        destruct (bt_get (to_ascii_lowercase (mt_destination mt)) _) as [di|] eqn:Ed; [|naive_solver].
        destruct (decide (i = si)) as [->|Hne].
        - rewrite list_lookup_alter_eq. setoid_rewrite fmap_Some. split.
          + intros (s & (s0 & Hs0 & ->) & [->|Hj]%bt_keys_alter); [by right|]. left. eauto.
          + assert (is_Some (adj0 !! si)) as [s0 Hs0].
            { apply lookup_lt_is_Some. rewrite Hl. eapply last_named_lt. by apply Hidx. }
            intros [(s & Hs & Hj)|[_ [= ->]]].
            * simplify_eq. exists (bt_insert di tt s0). split; [eauto|]. apply bt_keys_alter. by right.
            * exists (bt_insert j tt s0). split; [eauto|]. apply bt_keys_alter. by left.
        - rewrite list_lookup_alter_ne by done. naive_solver. }
      rewrite Hone. unfold edge. setoid_rewrite elem_of_cons. naive_solver. }
  destruct (H (replicate (length names) [])) as [H1 H2]; [by rewrite length_replicate|].
  split; [by rewrite length_fmap|]. intros i j. setoid_rewrite list_lookup_fmap. setoid_rewrite fmap_Some.
  transitivity (∃ s, foldl (add_edge (mode_index names)) (replicate (length names) []) ts !! i = Some s ∧ j ∈ s.*1).
  - naive_solver.
  - rewrite H2. split; [|by right]. intros [(s & [-> _]%lookup_replicate & Hj)|?]; [|done].
    by apply not_elem_of_nil in Hj.
Qed.

(** ** Connected triggers *)

Lemma or_iff (A A' B B' : Prop) : (A ↔ A') → (B ↔ B') → (A ∨ B) ↔ (A' ∨ B').
Proof. tauto. Qed.
Section wf.
Context (inst : SystemInstance) (Hwf : wf_instance inst).

(** A connection ends at the trigger: one of the component's own, a semantic
    one, or one of the parent's that names the component. *)
Definition connected (i : ComponentInstanceIdx) (c : ComponentInstance) (trigger : Name) : Prop :=
  (∃ k conn d, k ∈ connections c ∧ connection_instances inst !! k = Some conn ∧ dst conn = Some d ∧
     subcomponent d = None ∧ ci (feature d) = ci trigger) ∨
  (∃ sc f, sc ∈ semantic_connections inst ∧ ultimate_destination sc = (i, f) ∧ ci f = ci trigger) ∨
  (∃ p par k conn d s, parent c = Some p ∧ components inst !! p = Some par ∧ k ∈ connections par ∧
     connection_instances inst !! k = Some conn ∧ dst conn = Some d ∧ subcomponent d = Some s ∧
     eq_ci s (name c) = true ∧ ci (feature d) = ci trigger).

(** A loop over connections that keeps the features some test selects. *)
Lemma destinations_spec (sel : ConnectionInstance → list string) ks :
  (∀ k, k ∈ ks → k < length (connection_instances inst)) →
  ∃ fs, concatM (λ k, conn ← connection inst k; Done (sel conn)) ks = Done fs ∧
    ∀ f, f ∈ fs ↔ ∃ k conn, k ∈ ks ∧ connection_instances inst !! k = Some conn ∧ f ∈ sel conn.
Proof.
  intros Hks. destruct (concatM_spec (λ k, conn ← connection inst k; Done (sel conn))
    (λ k f, ∃ conn, connection_instances inst !! k = Some conn ∧ f ∈ sel conn) ks) as (fs & Hfs & Hin).
  - intros k Hk. destruct (arena_get_lt (connection_instances inst) k (Hks k Hk)) as (conn & Hget & Hc).
    exists (sel conn). unfold connection. rewrite Hget. split; [done|]. naive_solver.
  - exists fs. split; [done|]. intros f. rewrite Hin. naive_solver.
Qed.

Lemma find_dead_spec i c ts :
  components inst !! i = Some c →
  ∃ dead, find_dead_transitions inst i ts = Done dead ∧
    ∀ dt, dt ∈ dead ↔ ∃ mt trigger, mt ∈ ts ∧ trigger ∈ mt_triggers mt ∧ ¬ connected i c trigger ∧
      dt = {| dt_name := transition_label mt; dt_source := mt_source mt;
              dt_destination := mt_destination mt; dt_trigger := trigger |}.
Proof.
  intros Hc. unfold find_dead_transitions, component. rewrite (proj2 (arena_get_Some _ _ _) Hc). simpl.
  destruct (destinations_spec (λ conn, match dst conn with
    | Some d => match subcomponent d with None => [to_ascii_lowercase (feature d)] | Some _ => [] end
    | None => [] end) (connections c)) as (own & Hown & Hin_own); [by intros k; eapply wf_connections|].
  unfold own_destinations. rewrite Hown. simpl.
  assert (∃ par, parent_destinations inst c = Done par ∧ ∀ f, f ∈ par ↔
    ∃ p pc k conn d s, parent c = Some p ∧ components inst !! p = Some pc ∧ k ∈ connections pc ∧
      connection_instances inst !! k = Some conn ∧ dst conn = Some d ∧ subcomponent d = Some s ∧
      eq_ci s (name c) = true ∧ f = ci (feature d)) as (par & -> & Hin_par).
  { unfold parent_destinations. destruct (parent c) as [p|] eqn:Hp.
    - destruct (arena_get_lt (components inst) p) as (pc & Hget & Hpc).
      { pose proof (wf_parent _ Hwf _ _ _ Hc Hp). apply lookup_lt_Some in Hc. lia. }
      unfold component. rewrite Hget. simpl.
      destruct (destinations_spec (λ conn, match dst conn with
        | Some d => match subcomponent d with
                    | Some s => if eq_ignore_ascii_case s (name c) then [to_ascii_lowercase (feature d)] else []
                    | None => [] end
        | None => [] end) (connections pc)) as (par & Hpar & Hin); [by intros k; eapply wf_connections|].
      exists par. split; [exact Hpar|]. intros f. rewrite Hin. split.
      + intros (k & conn & Hk & Hconn & Hf). destruct (dst conn) as [d|] eqn:Hd; [|by apply not_elem_of_nil in Hf].
        destruct (subcomponent d) as [s|] eqn:Hs; [|by apply not_elem_of_nil in Hf].
        destruct (eq_ignore_ascii_case s (name c)) eqn:He; [|by apply not_elem_of_nil in Hf].
        apply list_elem_of_singleton in Hf. by exists p, pc, k, conn, d, s.
      + intros (p' & pc' & k & conn & d & s & [= <-] & Hpc' & Hk & Hconn & Hd & Hs & He & ->). simplify_eq.
        exists k, conn. split_and!; [done..|]. rewrite Hd, Hs. unfold eq_ci in He. rewrite He. by left.
    - exists []. split; [done|]. intros f. split; [by intros ?%not_elem_of_nil|].
      by intros (? & ? & ? & ? & ? & ? & [=] & _). }
  simpl. eexists. split; [done|].
  assert (Hconn : ∀ trigger, to_ascii_lowercase trigger ∈ own ++ semantic_destinations inst i ++ par ↔
    connected i c trigger).
  { intros trigger. rewrite !elem_of_app, Hin_own, Hin_par. unfold connected. fold (ci trigger).
    apply or_iff; [|apply or_iff].
    - split.
      + intros (k & conn & Hk & Hcn & Hf). destruct (dst conn) as [d|] eqn:Hd; [|by apply not_elem_of_nil in Hf].
        destruct (subcomponent d) eqn:Hs; [by apply not_elem_of_nil in Hf|].
        apply list_elem_of_singleton in Hf. by exists k, conn, d.
      + intros (k & conn & d & Hk & Hcn & Hd & Hs & Hf). exists k, conn. split_and!; [done..|].
        rewrite Hd, Hs. unfold ci in *. rewrite Hf. by left.
    - unfold semantic_destinations. rewrite list_elem_of_bind. split.
      + intros (sc & Hf & Hsc). destruct (Nat.eqb_spec (ultimate_destination sc).1 i);
          [|by apply not_elem_of_nil in Hf]. apply list_elem_of_singleton in Hf.
        exists sc, (ultimate_destination sc).2. split_and!; [done| |done]. subst. by destruct (ultimate_destination sc).
      + intros (sc & f & Hsc & Hu & Hf). exists sc. split; [|done]. rewrite Hu. simpl.
        rewrite Nat.eqb_refl. unfold ci in *. rewrite Hf. by left.
    - naive_solver. }
  intros dt. rewrite list_elem_of_bind. setoid_rewrite list_elem_of_bind. split.
  - intros (mt & (trigger & Hdt & Htr) & Hmt). case_bool_decide as Hb; [by apply not_elem_of_nil in Hdt|].
    apply list_elem_of_singleton in Hdt as ->. rewrite Hconn in Hb. by exists mt, trigger.
  - intros (mt & trigger & Hmt & Htr & Hb & ->). exists mt. split; [|done]. exists trigger. split; [|done].
    rewrite bool_decide_eq_false_2 by (by rewrite Hconn). by left.
Qed.

(** ** The matrix of a component *)

(** What the analysis says of one component, with its modes [ms] and
    transitions [ts]: [k] is the position its initial mode's name stands
    for. *)
Record describes (i : ComponentInstanceIdx) (c : ComponentInstance) (ms : list ModeInstance)
    (ts : list ModeTransitionInstance) (m : ReachabilityMatrix) : Prop := {
  ds_idx : component_idx m = i;
  ds_path : ∃ names, rm_component_path m = rev names ∧ ancestry inst (Some i) names;
  ds_modes : rm_modes m = mode_name <$> ms;
  ds_matrix a b : (∃ row, matrix m !! a = Some row ∧ row !! b = Some true) ↔
    a < length ms ∧ rtc (edge (rm_modes m) ts) a b;
  ds_unreachable : ∃ init k, List.find is_initial ms = Some init ∧ initial_mode m = mode_name init ∧
    last_named (rm_modes m) (ci (mode_name init)) k ∧
    ∀ nm, nm ∈ unreachable m ↔
      ∃ b, rm_modes m !! b = Some nm ∧ b ≠ k ∧ ¬ rtc (edge (rm_modes m) ts) k b;
  ds_dead dt : dt ∈ dead_transitions m ↔
    ∃ mt trigger, mt ∈ ts ∧ trigger ∈ mt_triggers mt ∧ ¬ connected i c trigger ∧
      dt = {| dt_name := transition_label mt; dt_source := mt_source mt;
              dt_destination := mt_destination mt; dt_trigger := trigger |};
}.

(** The components with a matrix: at least two modes, a transition and an
    initial mode. *)
Definition modal (ms : list ModeInstance) (ts : list ModeTransitionInstance) : Prop :=
  2 ≤ length ms ∧ ts ≠ [] ∧ ∃ m, m ∈ ms ∧ is_initial m = true.

Lemma unreachable_modes_elem names k row nm :
  nm ∈ unreachable_modes names k row ↔ ∃ b, names !! b = Some nm ∧ b ≠ k ∧ row !! b ≠ Some true.
Proof.
  unfold unreachable_modes. rewrite list_elem_of_In, in_concat. split.
  - intros (l & Hl & Hnm). apply list_elem_of_In in Hl, Hnm. apply list_elem_of_lookup in Hl as [b Hb].
    rewrite list_lookup_imap in Hb. apply fmap_Some in Hb as (nm' & Hn & ->).
    destruct (Nat.eqb_spec b k), (row !! b) as [[]|] eqn:Hr; simpl in Hnm;
      try (by apply not_elem_of_nil in Hnm); apply list_elem_of_singleton in Hnm as ->; exists b; rewrite Hr; auto.
  - intros (b & Hb & Hne & Hr). exists [nm]. split; [|by left]. apply list_elem_of_In, list_elem_of_lookup.
    exists b. rewrite list_lookup_imap, Hb. simpl. rewrite (proj2 (Nat.eqb_neq _ _) Hne). simpl.
    by destruct (row !! b) as [[]|].
Qed.

(** The rows of the matrix, one per mode. *)
Lemma rows_spec names ts :
  let adj := adjacency (mode_index names) (length names) ts in
  ∃ rows, mapM (reach_row adj (length names)) (seq 0 (length names)) = Done rows ∧
    length rows = length names ∧
    ∀ a row, rows !! a = Some row → ∀ b, row !! b = Some true ↔ rtc (edge names ts) a b.
Proof.
  intros adj. destruct (adjacency_spec names ts) as [Hlen Hsucc]. fold adj in Hlen, Hsucc.
  assert (Hadj : ∀ i s j, adj !! i = Some s → j ∈ s → j < length names).
  { intros i s j Hs Hj. assert (succ adj i j) as (mt & _ & _ & Hd)%Hsucc by (by exists s).
    by eapply last_named_lt. }
  assert (Hrtc : ∀ a b, rtc (succ adj) a b ↔ rtc (edge names ts) a b).
  { intros a b. split; apply rtc_subrel; intros x y; apply Hsucc. }
  assert (∃ rows, Forall2 (λ a row, reach_row adj (length names) a = Done row ∧
    ∀ b, row !! b = Some true ↔ rtc (edge names ts) a b) (seq 0 (length names)) rows) as [rows Hrows].
  { apply Forall_exists_Forall2_l, Forall_forall. intros a [_ Ha]%elem_of_seq.
    destruct (reach_row_spec adj (length names) Hlen Hadj a Ha) as (row & Hrow & _ & Hr).
    exists row. split; [done|]. intros b. by rewrite Hr. }
  exists rows. split_and!.
  - apply mapM_Done. eapply Forall2_impl; [exact Hrows|]. by intros a row [? _].
  - by rewrite <- (Forall2_length _ _ _ Hrows), length_seq.
  - intros a row Hrow. destruct (Forall2_lookup_r _ _ _ _ _ Hrows Hrow) as (a' & Ha' & _ & Hr).
    apply lookup_seq in Ha' as [-> _]. done.
Qed.

(** The initial mode's name stands for some mode. *)
Lemma last_named_exists names nm : nm ∈ names → ∃ k, last_named names (ci nm) k.
Proof.
  induction names as [|x names IH] using rev_ind; [by intros ?%not_elem_of_nil|]. intros Hin.
  destruct (decide (ci x = ci nm)) as [Heq|Hne].
  - exists (length names), x. split_and!; [by rewrite list_lookup_middle|done|].
    intros j nm' Hj Hnm'. apply lookup_lt_Some in Hnm'. rewrite length_app in Hnm'. simpl in Hnm'. lia.
  - destruct IH as (k & y & Hy & Hk & Hlast).
    { apply elem_of_app in Hin as [?|Hx]; [done|]. apply list_elem_of_singleton in Hx. by subst. }
    exists k, y. split_and!; [by apply lookup_app_l_Some|done|]. intros j nm' Hj Hnm'.
    apply lookup_app_Some in Hnm' as [?|[_ Hx]]; [by eapply Hlast|].
    by apply list_lookup_singleton_Some in Hx as [_ <-].
Qed.

Lemma component_matrix_spec i c :
  components inst !! i = Some c →
  ∃ ms ts r, Forall2 (λ k m, mode_instances inst !! k = Some m) (modes c) ms ∧
    Forall2 (λ k t, mode_transition_instances inst !! k = Some t) (mode_transitions c) ts ∧
    component_matrix inst i = Done r ∧
    match r with
    | None => ¬ modal ms ts
    | Some m => modal ms ts ∧ describes i c ms ts m
    end.
Proof.
  intros Hc. unfold component_matrix, modes_for, mode_transitions_for.
  assert (component inst i = Done c) as -> by (by apply arena_get_Some). simpl.
  destruct (mapM_arena (mode_instances inst) (modes c)) as (ms & -> & Hms).
  { apply Forall_forall. intros k. by eapply wf_modes. }
  destruct (mapM_arena (mode_transition_instances inst) (mode_transitions c)) as (ts & -> & Hts).
  { apply Forall_forall. intros k. by eapply wf_transitions. }
  simpl. exists ms, ts. unfold modal.
  destruct (Nat.ltb_spec (length ms) 2); [exists None; split_and!; [done..|]; intros [? _]; lia|].
  case_bool_decide as Hnil; [exists None; split_and!; [done..|]; by intros (_ & ? & _)|]. simpl.
  destruct (List.find is_initial ms) as [init|] eqn:Hinit.
  2:{ exists None. split_and!; [done..|]. intros (_ & _ & m & Hm & Hi).
      apply list_elem_of_In in Hm. by rewrite (find_none _ _ Hinit _ Hm) in Hi. }
  assert (init ∈ ms ∧ is_initial init = true) as [Hmem Hii].
  { rewrite list_elem_of_In. by apply find_some. }
  destruct (walk_up_total inst Hwf i) as (path & Hpath & Hanc); [by eapply lookup_lt_Some|].
  unfold component_path. rewrite Hpath. simpl. rewrite length_fmap.
  destruct (rows_spec (mode_name <$> ms) ts) as (rows & Hrows & Hlen & Hr). rewrite length_fmap in Hrows, Hlen.
  rewrite Hrows. simpl.
  destruct (last_named_exists (mode_name <$> ms) (mode_name init)) as [k Hk].
  { apply list_elem_of_fmap. by exists init. }
  assert (bt_get (to_ascii_lowercase (mode_name init)) (mode_index (mode_name <$> ms)) = Some k) as ->.
  { by apply mode_index_spec. }
  pose proof (last_named_lt _ _ _ Hk) as Hkl. rewrite length_fmap in Hkl. simpl.
  destruct (arena_get_lt rows k) as (row & -> & Hrow); [by rewrite Hlen|]. simpl.
  destruct (find_dead_spec i c ts Hc) as (dead & -> & Hdead). simpl.
  eexists. split_and!; [done..|]. simpl. split; [split_and!; [done..|by exists init]|].
  split; simpl; [done|by exists path|done| | |exact Hdead].
  - intros a b. split.
    + intros (row' & Hrow' & Hb). split; [rewrite <- Hlen; by eapply lookup_lt_Some|]. by eapply Hr.
    + intros [Ha Hab]. rewrite <- Hlen in Ha. apply lookup_lt_is_Some in Ha as [row' Hrow'].
      exists row'. split; [done|]. by eapply Hr.
  - exists init, k. split_and!; [done..|]. intros nm. rewrite unreachable_modes_elem.
    split; intros (b & Hb & Hne & Hn); exists b; split_and!; try done.
    + by rewrite <- (Hr k row Hrow b).
    + by rewrite (Hr k row Hrow b).
Qed.

(** C32: On a well-formed instance the reachability analysis never panics and
    gives one matrix for each component with at least two modes, a transition
    and an initial mode.  An entry of the matrix is set exactly when a
    sequence of transitions leads from the one mode to the other, names
    compared without case; the modes listed as unreachable are exactly those
    no sequence leads to from the initial mode, and the dead transitions
    exactly those with a trigger at which no connection ends. *)
Theorem compute_reachability_matrices_exact :
  ∃ rms, compute_reachability_matrices inst = Done rms ∧
    (∀ m, m ∈ rms → ∃ i c ms ts, components inst !! i = Some c ∧
       Forall2 (λ k x, mode_instances inst !! k = Some x) (modes c) ms ∧
       Forall2 (λ k x, mode_transition_instances inst !! k = Some x) (mode_transitions c) ts ∧
       modal ms ts ∧ describes i c ms ts m) ∧
    (∀ i c ms ts, components inst !! i = Some c →
       Forall2 (λ k x, mode_instances inst !! k = Some x) (modes c) ms →
       Forall2 (λ k x, mode_transition_instances inst !! k = Some x) (mode_transitions c) ts →
       modal ms ts → ∃ m, m ∈ rms ∧ component_idx m = i).
Proof.
  unfold compute_reachability_matrices.
  destruct (concatM_spec (λ ic : ComponentInstanceIdx * ComponentInstance,
    m ← component_matrix inst ic.1; Done (option_list m))
    (λ ic m, component_matrix inst ic.1 = Done (Some m)) (all_components inst)) as (rms & -> & Hin).
  { intros [i c] Hc%all_components_elem. destruct (component_matrix_spec i c Hc) as (ms & ts & r & _ & _ & Hr & _).
    simpl. rewrite Hr. exists (option_list r). split; [done|]. intros m.
    destruct r as [m'|]; simpl; [rewrite list_elem_of_singleton; naive_solver|].
    split; [by intros ?%not_elem_of_nil|done]. }
  exists rms. split; [done|]. split.
  - intros m ([i c] & Hc%all_components_elem & Hm)%Hin. simpl in Hm.
    destruct (component_matrix_spec i c Hc) as (ms & ts & r & Hms & Hts & Hr & H). rewrite Hm in Hr. simplify_eq.
    destruct H as [H1 H2]. by exists i, c, ms, ts.
  - intros i c ms ts Hc Hms Hts Hmodal.
    destruct (component_matrix_spec i c Hc) as (ms' & ts' & r & Hms' & Hts' & Hr & H).
    assert (Hdet : ∀ {A} (xs : list A) ks ys zs, Forall2 (λ k x, xs !! k = Some x) ks ys →
      Forall2 (λ k x, xs !! k = Some x) ks zs → ys = zs).
    { intros A xs ks ys zs H1. revert zs. induction H1 as [|k y ks ys Hy _ IH]; intros zs H2;
        inversion H2; simplify_eq; [done|]. f_equal. by apply IH. }
    rewrite (Hdet _ _ _ _ _ Hms Hms'), (Hdet _ _ _ _ _ Hts Hts') in Hmodal.
    destruct r as [m|]; [|done]. exists m. split; [|apply H]. apply Hin. exists (i, c).
    split; [by apply all_components_elem|done].
Qed.
End wf.

Lemma compute_reachability_matrices_exact_witness :
  wf_instance inst_ex ∧
  match compute_reachability_matrices inst_ex with
  | Done [m] => matrix m = [[true; true; false]; [true; true; false]; [false; false; true]] ∧
      unreachable m = ["lost"%string] ∧ (dt_trigger <$> dead_transitions m) = ["r"%string]
  | _ => False
  end ∧
  ∃ rms, compute_reachability_matrices inst_ex = Done rms.
Proof.
  split; [exact inst_ex_wf|]. split; [by vm_compute|].
  destruct (compute_reachability_matrices_exact inst_ex inst_ex_wf) as (rms & H & _). exists rms. exact H.
Defined.
