(* ===== verification/PropertyTypes.v ===== *)
(** * Property types

    The two checkers of property values against their declared types,
    [check_type] of [crates/spar-hir-def/src/property_value.rs] and
    [validate_property_type] of [crates/spar-hir-def/src/property_check.rs],
    and the resolution of a units chain.  Each checker is compared with a
    typing relation of its own, and the relations with each other. *)
From S2P Require Import Prelude.
From S2P Require Import Names.
From S2P Require Import PropertyExpr.
From stdpp Require Import pretty.
From stdpp Require Import sets.
#[local] Open Scope string_scope.

(** crates/spar-hir-def/src/property_value.rs:18-25 [TypeCheckResult] *)
Inductive TypeCheckResult := TOk | TError (explanation : string) | TSkipped.

(** crates/spar-hir-def/src/property_value.rs:162-180 [expr_kind_name] *)
Definition value_expr_kind_name (e : PropertyExpr) : string :=
  match e with
  | Integer _ _ => "integer"
  | Real _ _ => "real"
  | StringLit _ => "string"
  | Boolean _ => "boolean"
  | Enum _ => "enumeration"
  | List_ _ => "list"
  | Record_ _ => "record"
  | Range_ _ _ _ => "range"
  | ClassifierValue _ => "classifier"
  | ReferenceValue _ => "reference"
  | ComputedValue _ => "compute"
  | UnitValue _ _ => "unit value"
  | BinaryOp _ _ _ => "binary operation"
  | ValueRef _ => "value reference"
  | Opaque _ => "opaque"
  end.

(** crates/spar-hir-def/src/property_value.rs:183-198 [type_kind_name] *)
Definition value_type_kind_name (t : PropertyTypeDef) : string :=
  match t with
  | AadlInteger _ _ => "aadlinteger"
  | AadlReal _ _ => "aadlreal"
  | AadlString => "aadlstring"
  | AadlBoolean => "aadlboolean"
  | Enumeration _ => "enumeration"
  | RangeOf _ => "range"
  | ClassifierType _ => "classifier"
  | ReferenceType _ => "reference"
  | RecordType _ => "record"
  | TypeRef _ => "type reference"
  | ListOf _ => "list"
  | UnitsType _ => "units"
  end.

(** crates/spar-hir-def/src/property_value.rs:38-159 [check_typed] *)
Fixpoint check_typed (e : PropertyExpr) (t : PropertyTypeDef) : TypeCheckResult :=
  match e, t with
  | Integer val _, AadlInteger (Some (lo, hi)) _ =>
      if ((val <? lo) || (hi <? val))%Z then
        TError ("integer value " +:+ pretty val +:+ " is outside range " +:+ pretty lo +:+ " .. "
                  +:+ pretty hi)
      else TOk
  | Integer _ _, AadlInteger None _ => TOk
  | UnitValue inner _, AadlInteger _ _ => check_typed inner t
  | Real _ _, AadlReal _ _ => TOk
  | UnitValue inner _, AadlReal _ _ => check_typed inner t
  | Integer _ _, AadlReal _ _ => TOk
  | StringLit _, AadlString => TOk
  | Boolean _, AadlBoolean => TOk
  | Enum val, Enumeration variants =>
      if existsb (λ v, eq_ci v val) variants then TOk
      else TError ("enumeration value '" +:+ val +:+ "' is not one of: " +:+ str_join ", " variants)
  | List_ items, ListOf elem_type =>
      (fix go (i : nat) (items : list PropertyExpr) :=
         match items with
         | [] => TOk
         | item :: items =>
             match check_typed item elem_type with
             | TError x => TError ("list element [" +:+ pretty i +:+ "]: " +:+ x)
             | _ => go (S i) items
             end
         end) O items
  | Record_ fields, RecordType field_types =>
      (fix go (fields : list (Name * PropertyExpr)) :=
         match fields with
         | [] => TOk
         | (field_name, field_val) :: fields =>
             match List.find (λ f, eq_ci f.1 field_name) field_types with
             | Some (_, field_type) =>
                 match check_typed field_val field_type with
                 | TError x => TError ("record field '" +:+ field_name +:+ "': " +:+ x)
                 | _ => go fields
                 end
             | None => TError ("record field '" +:+ field_name +:+ "' is not declared in the type")
             end
         end) fields
  | Range_ min max _, RangeOf inner_type =>
      match check_typed min inner_type with
      | TError x => TError ("range min: " +:+ x)
      | _ =>
          match check_typed max inner_type with
          | TError x => TError ("range max: " +:+ x)
          | _ => TOk
          end
      end
  | ClassifierValue _, ClassifierType _ => TOk
  | ReferenceValue _, ReferenceType _ => TOk
  | _, _ =>
      TError ("type mismatch: " +:+ value_expr_kind_name e +:+ " value is not compatible with "
                +:+ value_type_kind_name t)
  end.

(** crates/spar-hir-def/src/property_value.rs:31-36 [check_type] *)
Definition check_type (e : PropertyExpr) (t : PropertyTypeDef) : TypeCheckResult :=
  match e with Opaque _ => TSkipped | _ => check_typed e t end.

(** crates/spar-hir-def/src/property_check.rs:13-16 [PropertyTypeDiagnostic] *)
Record PropertyTypeDiagnostic := { ptd_message : string; ptd_property_name : string }.

(** crates/spar-hir-def/src/property_check.rs:142-160 [expr_kind_name] *)
Definition check_expr_kind_name (e : PropertyExpr) : string :=
  match e with
  | Integer _ _ => "integer"
  | Real _ _ => "real"
  | StringLit _ => "string"
  | Boolean _ => "boolean"
  | Enum _ => "enumeration literal"
  | List_ _ => "list"
  | Record_ _ => "record"
  | Range_ _ _ _ => "range"
  | ClassifierValue _ => "classifier value"
  | ReferenceValue _ => "reference value"
  | ComputedValue _ => "computed value"
  | UnitValue _ _ => "unit value"
  | BinaryOp _ _ _ => "binary operation"
  | ValueRef _ => "value reference"
  | Opaque _ => "opaque"
  end.

(** crates/spar-hir-def/src/property_check.rs:163-178 [type_kind_name] *)
Definition check_type_kind_name (t : PropertyTypeDef) : string :=
  match t with
  | AadlInteger _ _ => "aadlinteger"
  | AadlReal _ _ => "aadlreal"
  | AadlString => "aadlstring"
  | AadlBoolean => "aadlboolean"
  | Enumeration _ => "enumeration"
  | RangeOf _ => "range"
  | ClassifierType _ => "classifier"
  | ReferenceType _ => "reference"
  | RecordType _ => "record"
  | TypeRef _ => "type reference"
  | ListOf _ => "list of"
  | UnitsType _ => "units"
  end.

(** crates/spar-hir-def/src/property_check.rs:31-139 [check_expr]: the diagnostics
    are pushed in this order. *)
Fixpoint check_expr (property_name : string) (e : PropertyExpr) (t : PropertyTypeDef)
  : list PropertyTypeDiagnostic :=
  let mismatch :=
    [{| ptd_message := "type mismatch for property '" +:+ property_name +:+ "': expression "
          +:+ check_expr_kind_name e +:+ " is not compatible with type " +:+ check_type_kind_name t;
        ptd_property_name := property_name |}] in
  match e, t with
  | Opaque _, _ | ComputedValue _, _ | ValueRef _, _ | BinaryOp _ _ _, _ => []
  | UnitValue inner _, _ => check_expr property_name inner t
  | Integer _ _, AadlInteger _ _ => []
  | Real _ _, AadlReal _ _ => []
  | StringLit _, AadlString => []
  | Boolean _, AadlBoolean => []
  | Enum val, Enumeration variants =>
      if existsb (λ v, eq_ci v val) variants then []
      else [{| ptd_message := "invalid enumeration literal '" +:+ val +:+ "' for property '"
                 +:+ property_name +:+ "'; expected one of: " +:+ str_join ", " variants;
               ptd_property_name := property_name |}]
  | List_ items, ListOf element_type => items ≫= (λ item, check_expr property_name item element_type)
  | ClassifierValue _, ClassifierType _ => []
  | ReferenceValue _, ReferenceType _ => []
  | Range_ min max delta, RangeOf inner =>
      check_expr property_name min inner ++ check_expr property_name max inner ++
      match delta with Some d => check_expr property_name d inner | None => [] end
  | Record_ fields, RecordType type_fields =>
      fields ≫= (λ f,
        match List.find (λ n, eq_ci n.1 f.1) type_fields with
        | Some (_, tf_type) => check_expr property_name f.2 tf_type
        | None => []
        end)
  | _, TypeRef _ => []
  | Integer _ _, UnitsType _ | Real _ _, UnitsType _ => []
  | _, _ => mismatch
  end.

(** crates/spar-hir-def/src/property_check.rs:21-29 [validate_property_type] *)
Definition validate_property_type (property_name : string) (e : PropertyExpr) (t : PropertyTypeDef)
  : list PropertyTypeDiagnostic := check_expr property_name e t.

(** ** Units *)

(** Checked multiplication of [i64]s (overflow panics). *)
Definition mul_i64 (a b : Z) : Exec Z :=
  if ((- 2 ^ 63 <=? a * b) && (a * b <? 2 ^ 63))%Z then Done (a * b)%Z else Panic.

(** crates/spar-hir-def/src/property_value.rs:273-292 [compute_absolute_factor]: the
    fuel is the depth of the recursion. *)
Fixpoint compute_absolute_factor (fuel : nat) (units : list (Name * option (Name * Z)))
    (unit_name : string) : Exec (option Z) :=
  match fuel with
  | O => Stuck
  | S n =>
      match List.find (λ u, eq_ignore_ascii_case u.1 unit_name) units with
      | None => Done None
      | Some (_, None) => Done (Some 1%Z)
      | Some (_, Some (base_name, factor)) =>
          base ← compute_absolute_factor n units base_name;
          match base with
          | None => Done None
          | Some base_absolute => f ← mul_i64 base_absolute factor; Done (Some f)
          end
      end
  end.

(** ** What the two type checkers accept

    [has_type] is the typing relation [check_type] decides, [accepted] the one
    [validate_property_type] decides; where a value has its type under the
    first, the second accepts it unless an integer literal meets a real type
    or the delta of a range is ill-typed.  The units chain resolves to the
    product of the factors along the chain. *)
#[local] Close Scope string_scope.

(** The declared type of a record field. *)
Definition field_type (fields : list (Name * PropertyTypeDef)) (n : Name) : option PropertyTypeDef :=
  snd <$> List.find (λ f, eq_ci f.1 n) fields.

(** ** The relation of [check_type] *)
Inductive has_type : PropertyTypeDef → PropertyExpr → Prop :=
  | ty_int v u us : has_type (AadlInteger None us) (Integer v u)
  | ty_int_range v u us lo hi : (lo ≤ v ≤ hi)%Z → has_type (AadlInteger (Some (lo, hi)) us) (Integer v u)
  | ty_int_unit e u r us : has_type (AadlInteger r us) e → has_type (AadlInteger r us) (UnitValue e u)
  | ty_real v u r us : has_type (AadlReal r us) (Real v u)
  | ty_real_int v u r us : has_type (AadlReal r us) (Integer v u)
  | ty_real_unit e u r us : has_type (AadlReal r us) e → has_type (AadlReal r us) (UnitValue e u)
  | ty_string s : has_type AadlString (StringLit s)
  | ty_bool b : has_type AadlBoolean (Boolean b)
  | ty_enum n variants v : v ∈ variants → ci v = ci n → has_type (Enumeration variants) (Enum n)
  | ty_list items t : Forall (has_type t) items → has_type (ListOf t) (List_ items)
  | ty_record fields ts :
      Forall (λ f, ∃ t, field_type ts f.1 = Some t ∧ has_type t f.2) fields →
      has_type (RecordType ts) (Record_ fields)
  | ty_range min max delta t :
      has_type t min → has_type t max → has_type (RangeOf t) (Range_ min max delta)
  | ty_classifier c cat : has_type (ClassifierType cat) (ClassifierValue c)
  | ty_reference s cat : has_type (ReferenceType cat) (ReferenceValue s).

(** The two loops of [check_typed]. *)
Lemma check_list_ok items t :
  check_typed (List_ items) (ListOf t) = TOk ↔
  Forall (λ e, ∀ x, check_typed e t ≠ TError x) items.
Proof.
  simpl. generalize O. induction items as [|e items IH]; intros i; [by split|].
  rewrite Forall_cons. destruct (check_typed e t) as [|x|] eqn:E.
  - rewrite IH. split; [by intros ?|by intros [_ ?]].
  - split; [done|]. intros [H _]. by destruct (H x).
  - rewrite IH. split; [by intros ?|by intros [_ ?]].
Qed.

Lemma check_record_ok fields ts :
  check_typed (Record_ fields) (RecordType ts) = TOk ↔
  Forall (λ f, ∃ t, field_type ts f.1 = Some t ∧ ∀ x, check_typed f.2 t ≠ TError x) fields.
Proof.
  unfold field_type. simpl. induction fields as [|[n e] fields IH]; [by split|].
  rewrite Forall_cons. simpl. destruct (List.find _ ts) as [[n' t]|]; simpl;
    [|split; [done|by intros [(? & ? & _) _]]].
  destruct (check_typed e t) as [|x|] eqn:E.
  - rewrite IH. split; [intros ?|by intros [_ ?]]. split; [|done]. exists t. by rewrite E.
  - split; [done|]. intros [(t' & [= <-] & H) _]. by destruct (H x).
  - rewrite IH. split; [intros ?|by intros [_ ?]]. split; [|done]. exists t. by rewrite E.
Qed.

Lemma check_typed_not_skipped e t : check_typed e t ≠ TSkipped.
Proof.
  revert t. induction e using PropertyExpr_nested_ind; intros t; destruct t; try done; simpl.
  - destruct range as [[lo hi]|]; [by destruct (_ || _)|done].
  - by destruct (existsb _ _).
  - generalize O. induction H as [|e items He _ IH]; intros i; [done|].
    destruct (check_typed e t) eqn:E; [apply IH|done|by apply He in E].
  - induction H as [|[n e] fs He _ IH]; [done|]. destruct (List.find _ fields0) as [[n' t]|]; [|done].
    destruct (check_typed e t) eqn:E; [apply IH|done|by apply He in E].
  - by destruct (check_typed e1 t), (check_typed e2 t).
  - auto.
  - auto.
Qed.

Lemma not_error_ok e t : (∀ x, check_typed e t ≠ TError x) ↔ check_typed e t = TOk.
Proof.
  split; [|by intros ->]. intros H. destruct (check_typed e t) eqn:E; [done| |].
  - by destruct (H explanation).
  - by apply check_typed_not_skipped in E.
Qed.

Lemma existsb_ci n variants :
  existsb (λ v, eq_ci v n) variants = true ↔ ∃ v, v ∈ variants ∧ ci v = ci n.
Proof. rewrite existsb_exists. setoid_rewrite eq_ci_spec. by setoid_rewrite <- list_elem_of_In. Qed.

Lemma has_type_record fields ts :
  has_type (RecordType ts) (Record_ fields) →
  Forall (λ f, ∃ t, field_type ts f.1 = Some t ∧ has_type t f.2) fields.
Proof. by inversion 1. Qed.

Lemma check_typed_has_type e t : check_typed e t = TOk ↔ has_type t e.
Proof.
  revert t. induction e using PropertyExpr_nested_ind; intros t; destruct t;
    try (by split; [done|inversion 1]); try (by split; [by constructor|done]).
  - destruct range as [[lo hi]|]; simpl; [|by split; [by constructor|done]].
    destruct (Z.ltb_spec v lo), (Z.ltb_spec hi v); simpl;
      (split; [try done; by constructor; lia|inversion 1; subst; try done; lia]).
  - simpl. destruct (existsb _ _) eqn:E.
    + apply existsb_ci in E as (v & Hv & Hc). split; [by econstructor|done].
    + split; [done|]. inversion 1; subst. exfalso. eapply not_true_iff_false; [exact E|].
      apply existsb_ci. eauto.
  - rewrite check_list_ok. split.
    + intros HF. constructor. rewrite Forall_forall in *. intros x Hx. apply H; [done|].
      by apply not_error_ok, HF.
    + inversion 1; subst. rewrite Forall_forall in *. intros x Hx. apply not_error_ok, H; auto.
  - rewrite check_record_ok. split.
    + intros HF. constructor. rewrite Forall_forall in *. intros x Hx.
      destruct (HF x Hx) as (t & Ht & He). exists t. split; [done|]. apply H; [done|].
      by apply not_error_ok.
    + intros HF%has_type_record. rewrite Forall_forall in *. intros x Hx.
      destruct (HF x Hx) as (t & Ht & He). exists t. split; [done|]. apply not_error_ok, H; auto.
  - simpl. split.
    + destruct (check_typed e1 t) eqn:E1; [|done|by apply check_typed_not_skipped in E1].
      destruct (check_typed e2 t) eqn:E2; [|done|by apply check_typed_not_skipped in E2].
      intros _. constructor; [by apply IHe1|by apply IHe2].
    + inversion 1; subst. by rewrite (proj2 (IHe1 t)), (proj2 (IHe2 t)).
  - simpl. rewrite IHe. split; [by constructor|by inversion 1].
  - simpl. rewrite IHe. split; [by constructor|by inversion 1].
Qed.

(** C39: [check_type] decides the typing relation [has_type]: it answers
    [Skipped] exactly for an opaque value, [Ok] exactly for a value that has
    the type, and an error for every other value.  (An opaque value nested
    in a list or a record is an error, not skipped.) *)
Theorem check_type_exact e t :
  (check_type e t = TSkipped ↔ ∃ s, e = Opaque s) ∧
  (check_type e t = TOk ↔ has_type t e) ∧
  ((∃ x, check_type e t = TError x) ↔ ¬ has_type t e ∧ ∀ s, e ≠ Opaque s).
Proof.
  pose proof (check_typed_has_type e t) as Hok. pose proof (check_typed_not_skipped e t) as Hns.
  assert (Hop : (∃ s, e = Opaque s) ∨ (check_type e t = check_typed e t ∧ ∀ s, e ≠ Opaque s)).
  { destruct e; (by left; eexists) || by right. }
  destruct Hop as [[s ->]|[-> Ho]].
  - split_and!; simpl; [by split; [by eexists|]|by split; [done|inversion 1]|].
    split; [by intros [? ?]|]. intros [_ H]. by destruct (H s).
  - split_and!; [split; [done|by intros [s ?%Ho]]|done|].
    rewrite <- Hok. destruct (check_typed e t) as [|x|] eqn:E; [|by split; [|by eexists]|done].
    split; [by intros [? ?]|by intros [? _]].
Qed.

(** ** The relation of [validate_property_type] *)
Inductive accepted : PropertyTypeDef → PropertyExpr → Prop :=
  | ac_opaque s t : accepted t (Opaque s)
  | ac_computed n t : accepted t (ComputedValue n)
  | ac_value_ref n t : accepted t (ValueRef n)
  | ac_binary op l r t : accepted t (BinaryOp op l r)
  | ac_unit e u t : accepted t e → accepted t (UnitValue e u)
  | ac_int v u r us : accepted (AadlInteger r us) (Integer v u)
  | ac_real v u r us : accepted (AadlReal r us) (Real v u)
  | ac_string s : accepted AadlString (StringLit s)
  | ac_bool b : accepted AadlBoolean (Boolean b)
  | ac_enum n variants v : v ∈ variants → ci v = ci n → accepted (Enumeration variants) (Enum n)
  | ac_list items t : Forall (accepted t) items → accepted (ListOf t) (List_ items)
  | ac_record fields ts :
      Forall (λ f, ∀ t, field_type ts f.1 = Some t → accepted t f.2) fields →
      accepted (RecordType ts) (Record_ fields)
  | ac_range min max delta t :
      accepted t min → accepted t max → (∀ d, delta = Some d → accepted t d) →
      accepted (RangeOf t) (Range_ min max delta)
  | ac_classifier c cat : accepted (ClassifierType cat) (ClassifierValue c)
  | ac_reference s cat : accepted (ReferenceType cat) (ReferenceValue s)
  | ac_type_ref n e : (∀ e' u, e ≠ UnitValue e' u) → accepted (TypeRef n) e
  | ac_units_int v u us : accepted (UnitsType us) (Integer v u)
  | ac_units_real v u us : accepted (UnitsType us) (Real v u).

Lemma bind_nil {A B} (f : A → list B) xs : xs ≫= f = [] ↔ Forall (λ x, f x = []) xs.
Proof.
  induction xs as [|x xs IH]; [by split|]. rewrite bind_cons, Forall_cons, <- IH.
  split; [intros ?%app_eq_nil|intros [-> ->]]; done.
Qed.

Lemma accepted_list items t : accepted (ListOf t) (List_ items) → Forall (accepted t) items.
Proof. by inversion 1. Qed.

Lemma accepted_record fields ts :
  accepted (RecordType ts) (Record_ fields) →
  Forall (λ f, ∀ t, field_type ts f.1 = Some t → accepted t f.2) fields.
Proof. by inversion 1. Qed.

Lemma accepted_range min max delta t :
  accepted (RangeOf t) (Range_ min max delta) →
  accepted t min ∧ accepted t max ∧ ∀ d, delta = Some d → accepted t d.
Proof. by inversion 1. Qed.

Lemma accepted_unit e u t : accepted t (UnitValue e u) → accepted t e.
Proof. inversion 1; [done|]. by edestruct H0. Qed.

Lemma check_expr_accepted p e t : check_expr p e t = [] ↔ accepted t e.
Proof.
  revert t. induction e using PropertyExpr_nested_ind; intros t;
    try (by destruct t; (split; [by constructor|done]) || (split; [done|inversion 1])).
  - destruct t; try (by (split; [by constructor|done]) || (split; [done|inversion 1])).
    simpl. destruct (existsb _ _) eqn:E.
    + apply existsb_ci in E as (v & Hv & Hc). split; [by econstructor|done].
    + split; [done|]. inversion 1; subst. exfalso. eapply not_true_iff_false; [exact E|].
      apply existsb_ci. eauto.
  - destruct t; try (by (split; [by constructor|done]) || (split; [done|inversion 1])).
    simpl. rewrite bind_nil. rewrite Forall_forall in H.
    split; [intros HF; constructor|intros HF%accepted_list];
      rewrite Forall_forall in *; intros x Hx; apply H; auto.
  - destruct t as [ | | | | | | | |ts| | | ];
      try (by (split; [by constructor|done]) || (split; [done|inversion 1])).
    simpl. rewrite bind_nil. rewrite Forall_forall in H. unfold field_type in *.
    split; [intros HF; constructor|intros HF%accepted_record];
      rewrite Forall_forall in *; intros x Hx; specialize (HF x Hx); unfold field_type in *;
      destruct (List.find _ ts) as [[n t]|]; simpl in *; try done.
    + intros t' [= <-]. by apply H.
    + apply H; auto.
  - destruct t as [ | | | | |t| | | | | | ];
      try (by (split; [by constructor|done]) || (split; [done|inversion 1])).
    simpl. rewrite !app_nil, IHe1, IHe2.
    assert (match delta with Some d => check_expr p d t | None => [] end = [] ↔
      ∀ d, delta = Some d → accepted t d) as ->.
    { destruct delta as [d|]; simpl in *; [|done]. rewrite H. naive_solver. }
    split; [intros (? & ? & ?); by constructor|apply accepted_range].
  - assert (check_expr p (UnitValue e u) t = check_expr p e t) as -> by by destruct t.
    rewrite IHe. split; [by constructor|apply accepted_unit].
Qed.

(** Where [validate_property_type] is stricter than [check_type]. *)
Inductive stricter : PropertyTypeDef → PropertyExpr → Prop :=
  | st_int_for_real v u r us : stricter (AadlReal r us) (Integer v u)
  | st_delta min max d t : ¬ accepted t d → stricter (RangeOf t) (Range_ min max (Some d))
  | st_unit e u t : stricter t e → stricter t (UnitValue e u)
  | st_list items t : Exists (stricter t) items → stricter (ListOf t) (List_ items)
  | st_record fields ts :
      Exists (λ f, ∃ t, field_type ts f.1 = Some t ∧ stricter t f.2) fields →
      stricter (RecordType ts) (Record_ fields)
  | st_min min max delta t : stricter t min → stricter (RangeOf t) (Range_ min max delta)
  | st_max min max delta t : stricter t max → stricter (RangeOf t) (Range_ min max delta).

Lemma accepted_dec e t : accepted t e ∨ ¬ accepted t e.
Proof. rewrite <- (check_expr_accepted "" e t). destruct (check_expr _ e t); [by left|by right]. Qed.

Lemma Forall_or_Exists {A} (P Q : A → Prop) xs :
  Forall (λ x, P x ∨ Q x) xs → Forall P xs ∨ Exists Q xs.
Proof. induction 1 as [|x xs [?|?] _ [?|?]]; auto. Qed.

Lemma stricter_not_accepted e t : stricter t e → ¬ accepted t e.
Proof.
  revert t. induction e using PropertyExpr_nested_ind; intros t Hs; inversion Hs; subst.
  - inversion 1.
  - intros HF%accepted_list. rewrite Forall_forall in H, HF.
    match goal with H' : Exists _ _ |- _ => apply Exists_exists in H' as (x & Hx & Hs') end.
    by eapply H; [| |apply HF].
  - intros HF%accepted_record. rewrite Forall_forall in H, HF.
    match goal with H' : Exists _ _ |- _ => apply Exists_exists in H' as (x & Hx & t & Ht & Hs') end.
    by eapply H; [| |eapply HF].
  - intros (_ & _ & Hd)%accepted_range. by match goal with H : ¬ accepted _ _ |- _ => apply H, Hd end.
  - intros (Ha & _)%accepted_range. by eapply IHe1.
  - intros (_ & Ha & _)%accepted_range. by eapply IHe2.
  - intros Ha%accepted_unit. by eapply IHe.
Qed.

Lemma has_type_accepted e t : has_type t e → accepted t e ∨ stricter t e.
Proof.
  revert t. induction e using PropertyExpr_nested_ind; intros t Ht; inversion Ht; subst;
    try (left; by econstructor); try (right; by constructor).
  - rewrite Forall_forall in H. destruct (Forall_or_Exists (accepted t0) (stricter t0) items).
    + rewrite Forall_forall in *. intros x Hx. apply H; auto.
    + left. by constructor.
    + right. by constructor.
  - pose proof (has_type_record _ _ Ht) as HF. rewrite Forall_forall in H.
    destruct (Forall_or_Exists (λ f, ∀ t, field_type ts f.1 = Some t → accepted t f.2)
      (λ f, ∃ t, field_type ts f.1 = Some t ∧ stricter t f.2) fields) as [?|?].
    + rewrite Forall_forall in *. intros x Hx. destruct (HF x Hx) as (t & Ht' & He).
      destruct (H x Hx t He) as [?|?]; [|right; by eexists]. left. intros t' ?. by simplify_eq.
    + left. by constructor.
    + right. by constructor.
  - match goal with H1 : has_type _ e1, H2 : has_type _ e2 |- _ =>
      apply IHe1 in H1 as [?|?]; apply IHe2 in H2 as [?|?]; try (right; by constructor) end.
    destruct delta as [d|]; [destruct (accepted_dec d t0)|]; [left|right|left]; constructor; try done.
    by intros ? [= <-].
  - match goal with H : has_type _ e |- _ => apply IHe in H as [?|?] end;
      [left|right]; by constructor.
  - match goal with H : has_type _ e |- _ => apply IHe in H as [?|?] end;
      [left|right]; by constructor.
Qed.

(** C40: [validate_property_type] reports nothing exactly for the values its
    typing relation accepts, and it agrees with [check_type] on every value
    that has its type except where an integer literal is given for a real
    (a value [check_type] allows) and where the delta of a range, which
    [check_type] never looks at, does not have the type of the bounds. *)
Theorem validators_compared p e t :
  (validate_property_type p e t = [] ↔ accepted t e) ∧
  (check_type e t = TOk → (validate_property_type p e t = [] ↔ ¬ stricter t e)).
Proof.
  unfold validate_property_type. rewrite check_expr_accepted. split; [done|]. intros Hok.
  split; [intros Ha Hs; by eapply stricter_not_accepted|]. intros Hs.
  assert (Ht : has_type t e).
  { apply check_typed_has_type. by destruct e. }
  by destruct (has_type_accepted e t Ht).
Qed.

(** ** The units chain *)

(** [unit_factor units u f]: [f] is the product of the factors from [u] down
    to a base unit, and no partial product leaves [i64]. *)
Inductive unit_factor (units : list (Name * option (Name * Z))) : string → Z → Prop :=
  | uf_base u n :
      List.find (λ e, eq_ignore_ascii_case e.1 u) units = Some (n, None) → unit_factor units u 1
  | uf_derived u n base k f :
      List.find (λ e, eq_ignore_ascii_case e.1 u) units = Some (n, Some (base, k)) →
      unit_factor units base f → (- 2 ^ 63 <= f * k < 2 ^ 63)%Z → unit_factor units u (f * k).

Lemma mul_i64_Done a b c : mul_i64 a b = Done c ↔ c = (a * b)%Z ∧ (- 2 ^ 63 <= a * b < 2 ^ 63)%Z.
Proof.
  unfold mul_i64. destruct (Z.leb_spec (- 2 ^ 63) (a * b)), (Z.ltb_spec (a * b) (2 ^ 63)); simpl;
    (split; [intros [= <-]; done || lia|intros [-> ?]; done || lia]).
Qed.

Lemma compute_absolute_factor_sound n units u f :
  compute_absolute_factor n units u = Done (Some f) → unit_factor units u f.
Proof.
  revert u f. induction n as [|n IH]; intros u f; [done|]. simpl.
  destruct (List.find (λ e, eq_ignore_ascii_case e.1 u) units) as [[m [[base k]|]]|] eqn:E; [|intros [= <-]; by eapply uf_base|done].
  intros ([b|] & Hb & H)%Exec_bind_Done; [|done].
  apply Exec_bind_Done in H as (c & [-> Hc]%mul_i64_Done & [= <-]).
  eapply uf_derived; [done|by apply IH|done].
Qed.

Lemma compute_absolute_factor_complete units u f :
  unit_factor units u f → ∃ n, ∀ m, n ≤ m → compute_absolute_factor m units u = Done (Some f).
Proof.
  induction 1 as [u m E|u m base k f E _ [n IH] Hk].
  - exists 1. intros [|m'] Hm; [lia|]. simpl. by rewrite E.
  - exists (S n). intros [|m'] Hm; [lia|]. simpl. rewrite E, IH by lia. simpl.
    by rewrite (proj2 (mul_i64_Done f k (f * k))).
Qed.

(** A chain as the standard writes it: each unit is derived from one declared
    before it. *)
Fixpoint chain_from (seen : list CiName) (units : list (Name * option (Name * Z))) : Prop :=
  match units with
  | [] => True
  | (n, d) :: units =>
      ci n ∉ seen ∧ from_option (λ b, ci b.1 ∈ seen) True d ∧ chain_from (ci n :: seen) units
  end.

Definition unit_keys (units : list (Name * option (Name * Z))) : list CiName := (λ e, ci e.1) <$> units.

Lemma chain_split seen pre n d post :
  chain_from seen (pre ++ (n, d) :: post) →
  ci n ∉ unit_keys pre ∧ from_option (λ b, ci b.1 ∈ seen ∨ ci b.1 ∈ unit_keys pre) True d.
Proof.
  assert (Hnot : ∀ units seen x, chain_from seen units → x ∈ seen → x ∉ unit_keys units).
  { clear. induction units as [|[n d] units IH]; intros seen x; simpl; [by intros _ _ ?%not_elem_of_nil|].
    intros (Hn & _ & Hc) Hx [->|Hin]%elem_of_cons; [done|]. apply (IH (ci n :: seen) x Hc); [by right|done]. }
  revert seen. induction pre as [|[m e] pre IH]; intros seen; simpl.
  - intros (Hn & Hd & _). split; [by inversion 1|]. destruct d; simpl in *; auto.
  - intros (Hm & _ & Hc). pose proof (IH _ Hc) as [H1 H2]. split.
    + intros [Heq|?]%elem_of_cons; [|done]. apply (Hnot _ _ (ci m) Hc); [by left|].
      unfold unit_keys. rewrite fmap_app. apply elem_of_app. right. rewrite <- Heq. by left.
    + destruct d as [b|]; simpl in *; [|done]. destruct H2 as [[->|?]%elem_of_cons|?]; auto.
      * right. by left.
      * right. by right.
Qed.

Lemma find_unit_split units u n d pre post :
  units = pre ++ (n, d) :: post → ci u = ci n → ci n ∉ unit_keys pre →
  List.find (λ e, eq_ignore_ascii_case e.1 u) units = Some (n, d).
Proof.
  intros -> Hu. induction pre as [|[m e] pre IH]; simpl.
  - intros _. assert (eq_ignore_ascii_case n u = true) as -> by (by apply eq_ci_spec). done.
  - intros Hn. assert (eq_ignore_ascii_case m u = false) as ->.
    { apply not_true_iff_false. intros E%eq_ci_spec. apply Hn. rewrite <- Hu, <- E. by left. }
    apply IH. intros Hin. apply Hn. by right.
Qed.

Lemma compute_chain units u :
  chain_from [] units → ci u ∈ unit_keys units →
  ∀ n, length units ≤ n → compute_absolute_factor n units u = Panic ∨
    ∃ f, compute_absolute_factor n units u = Done (Some f).
Proof.
  intros Hc. revert u.
  assert (H : ∀ k u pre n d post, length pre ≤ k → units = pre ++ (n, d) :: post → ci u = ci n →
    ∀ m, k < m → compute_absolute_factor m units u = Panic ∨
      ∃ f, compute_absolute_factor m units u = Done (Some f)).
  { induction k as [|k IH]; intros u pre n d post Hk Hu Hn m Hm;
      (destruct m as [|m]; [lia|]); simpl; pose proof Hc as Hc'; rewrite Hu in Hc';
      apply chain_split in Hc' as [Hnew Hd]; rewrite (find_unit_split _ _ _ _ _ _ Hu Hn Hnew);
      (destruct d as [[base f]|]; [|by right; eexists]); simpl in Hd;
      destruct Hd as [?%not_elem_of_nil|Hb]; [done| |done|].
    - destruct pre; [by apply not_elem_of_nil in Hb|simpl in Hk; lia].
    - apply list_elem_of_fmap in Hb as ([n' d'] & Hb & (pre1 & pre2 & ->)%list_elem_of_split).
      destruct (IH base pre1 n' d' (pre2 ++ (n, Some (base, f)) :: post)) with (m := m) as [->|[f' ->]].
      + rewrite length_app in Hk. simpl in Hk. lia.
      + rewrite Hu. by rewrite <- app_assoc.
      + done.
      + lia.
      + by left.
      + simpl. unfold mul_i64. destruct (_ && _)%Z; [right; by eexists|by left]. }
  intros u ([n d] & Hn & (pre & post & ->)%list_elem_of_split)%list_elem_of_fmap m Hm.
  eapply (H (length pre)); [done|done|done|]. rewrite length_app in Hm. simpl in Hm. lia.
Qed.

(** [compute_absolute_factor] returns the product of the conversion
    factors from the unit down to its base unit, and nothing else; on a units
    type whose derived units refer to earlier ones, and with as much
    recursion as there are units, it always gives a factor for a declared
    unit, unless a product leaves the range of [i64]. *)
Theorem compute_absolute_factor_exact units u :
  (∀ n f, compute_absolute_factor n units u = Done (Some f) → unit_factor units u f) ∧
  (∀ f, unit_factor units u f → ∃ n, ∀ m, n ≤ m → compute_absolute_factor m units u = Done (Some f)) ∧
  (chain_from [] units → ci u ∈ unit_keys units →
     ∀ n, length units ≤ n →
       compute_absolute_factor n units u = Panic ∨
       ∃ f, compute_absolute_factor n units u = Done (Some f) ∧ unit_factor units u f).
Proof.
  split_and!.
  - intros n f. apply compute_absolute_factor_sound.
  - apply compute_absolute_factor_complete.
  - intros Hc Hu n Hn. destruct (compute_chain _ _ Hc Hu n Hn) as [H|[f H]]; [by left|right].
    exists f. split; [done|]. by eapply compute_absolute_factor_sound.
Qed.
