(* ===== verification/F64.v ===== *)
(** * Double-precision floating point

    [f64] as IEEE 754 defines it, on the Standard Library's [SpecFloat]
    (binary64: 53 bits of precision, exponents below 1024, rounding to the
    nearest, ties to even), with the conversions and the text syntax of
    Rust's standard library.  Everything computes. *)
From S2P Require Import Prelude.
From S2P Require Import Text.
From Stdlib Require Import ZArith.
From Stdlib Require Import SpecFloat.
#[local] Open Scope N_scope.

Definition prec : Z := 53.
Definition emax : Z := 1024.
Definition f64 : Type := spec_float.

Definition f64_zero : f64 := S754_zero false.
Definition f64_one : f64 := S754_finite false 4503599627370496 (-52).

(** [n as f64] for an unsigned integer. *)
Definition f64_of_u64 (n : u64) : f64 := binary_normalize prec emax (Z.of_N n) 0 false.

(** [+], [*], [/]. *)
Definition f64_add : f64 → f64 → f64 := SFadd prec emax.
Definition f64_mul : f64 → f64 → f64 := SFmul prec emax.
Definition f64_div : f64 → f64 → f64 := SFdiv prec emax.

(** [<=], false on a NaN, and [partial_cmp]. *)
Definition f64_le (a b : f64) : bool := SFleb a b.
Definition f64_partial_cmp (a b : f64) : option comparison := SFcompare a b.

(** [x as u64]: towards zero, saturating, zero on a NaN. *)
Definition f64_to_u64 (x : f64) : u64 :=
  match x with
  | S754_finite false m e =>
      N.min (match e with
             | Zneg k => N.shiftr (Npos m) (Npos k)
             | _ => N.shiftl (Npos m) (Z.to_N e)
             end) U64_MAX
  | S754_infinity false => U64_MAX
  | _ => 0
  end.

(** ** Numbers as text *)

Definition digit_value (b : ascii) : N := byte_code b - 48.

(** The digits at the start of a text, as a number after [acc], with their
    count and what follows them. *)
Fixpoint read_digits (acc : N) (count : nat) (s : bytes) : N * nat * bytes :=
  match s with
  | b :: s' => if is_ascii_digit b then read_digits (10 * acc + digit_value b) (S count) s'
               else (acc, count, s)
  | [] => (acc, count, [])
  end.

(** An optional sign; true for [-]. *)
Definition read_sign (s : bytes) : bool * bytes :=
  match s with
  | "-"%char :: s => (true, s)
  | "+"%char :: s => (false, s)
  | _ => (false, s)
  end.

(** [str::parse::<u64>]: an optional [+] and digits, in range. *)
Definition parse_u64 (s : bytes) : option u64 :=
  let s := match s with "+"%char :: s => s | _ => s end in
  let '(n, count, rest) := read_digits 0 0 s in
  match rest with
  | [] => if (0 <? count)%nat && (n <=? U64_MAX) then Some n else None
  | _ => None
  end.

(** The float nearest to [m * 10^e]. *)
Definition decimal_to_f64 (negative : bool) (m : N) (e : Z) : f64 :=
  match m, e with
  | 0, _ => S754_zero negative
  | Npos m, Zneg k => f64_div (S754_finite negative m 0) (S754_finite false (10 ^ k) 0)
  | Npos m, Zpos k => f64_mul (S754_finite negative m 0) (S754_finite false (10 ^ k) 0)
  | Npos m, Z0 => binary_round prec emax negative m 0
  end.

(** An exponent, [0] when there is none. *)
Definition read_exponent (s : bytes) : option Z :=
  match s with
  | [] => Some 0%Z
  | b :: s =>
      if bool_decide (byte_to_lower b = "e"%char) then
        let '(negative, s) := read_sign s in
        let '(n, count, rest) := read_digits 0 0 s in
        match rest with
        | [] => if (0 <? count)%nat then Some (if negative then - Z.of_N n else Z.of_N n)%Z else None
        | _ => None
        end
      else None
  end.

(** [str::parse::<f64>]: a decimal number, [inf], [infinity] or [nan]. *)
Definition parse_f64 (s : bytes) : option f64 :=
  let '(negative, s) := read_sign s in
  let name := to_ascii_lowercase s in
  if bool_decide (name = list_ascii_of_string "inf" ∨ name = list_ascii_of_string "infinity")
  then Some (S754_infinity negative)
  else if bool_decide (name = list_ascii_of_string "nan") then Some S754_nan
  else
    let '(m, n_int, s) := read_digits 0 0 s in
    let '(m, n_frac, s) :=
      match s with "."%char :: s => read_digits m 0 s | _ => (m, 0%nat, s) end in
    if (0 <? n_int + n_frac)%nat then
      e ← read_exponent s; Some (decimal_to_f64 negative m (e - Z.of_nat n_frac))
    else None.

Example parse_f64_examples :
  parse_f64 (list_ascii_of_string "0.1") = Some (S754_finite false 7205759403792794 (-56)) ∧
  parse_f64 (list_ascii_of_string "1e0") = Some f64_one ∧
  parse_f64 (list_ascii_of_string "1e400") = Some (S754_infinity false) ∧
  parse_f64 (list_ascii_of_string "-5.") = Some (S754_finite true 5629499534213120 (-50)) ∧
  parse_f64 (list_ascii_of_string ".") = None ∧ parse_f64 (list_ascii_of_string "1e") = None.
Proof. by vm_compute. Qed.

(** ** Printing and parsing an integer *)

(** The decimal digits of a number, as [Display] writes them. *)
Fixpoint digits_upto (fuel : nat) (n : N) (acc : bytes) : bytes :=
  let acc := ascii_of_N (48 + n mod 10) :: acc in
  match fuel with
  | O => acc
  | S fuel => if n <? 10 then acc else digits_upto fuel (n / 10) acc
  end.
Definition show_u64 (n : u64) : bytes := digits_upto (N.to_nat (N.log2 n)) n [].

Lemma digit_of_small d :
  d < 10 → is_ascii_digit (ascii_of_N (48 + d)) = true ∧ digit_value (ascii_of_N (48 + d)) = d.
Proof.
  intros H. assert (E : Forall (λ d, is_ascii_digit (ascii_of_N (48 + d)) = true ∧
    digit_value (ascii_of_N (48 + d)) = d) (N.of_nat <$> seq 0 10)).
  { apply (bool_decide_unpack _). by vm_compute. }
  rewrite Forall_forall in E. apply E. apply list_elem_of_fmap.
  exists (N.to_nat d). split; [lia|]. apply elem_of_seq. lia.
Qed.

Lemma read_digits_digit a c d s :
  d < 10 → read_digits a c (ascii_of_N (48 + d) :: s) = read_digits (10 * a + d) (S c) s.
Proof. intros [H1 H2]%digit_of_small. cbn [read_digits]. by rewrite H1, H2. Qed.

(** Reading what was printed. *)
Lemma read_digits_upto fuel n acc :
  n < 10 ^ N.of_nat (S fuel) →
  ∃ k, ∀ c, read_digits 0 c (digits_upto fuel n acc) = read_digits n (c + S k) acc.
Proof.
  revert n acc. induction fuel as [|fuel IH]; intros n acc Hn; cbn [digits_upto].
  - exists 0%nat. intros c. change (10 ^ N.of_nat 1) with 10 in Hn. rewrite N.mod_small by done.
    rewrite read_digits_digit by done. f_equal; lia.
  - destruct (N.ltb_spec n 10) as [H|H].
    + exists 0%nat. intros c. rewrite N.mod_small, read_digits_digit by done. f_equal; lia.
    + destruct (IH (n / 10) (ascii_of_N (48 + n mod 10) :: acc)) as [k Hk].
      { apply N.Div0.div_lt_upper_bound.
        replace (N.of_nat (S (S fuel))) with (N.succ (N.of_nat (S fuel))) in Hn by lia.
        by rewrite N.pow_succ_r' in Hn. }
      exists (S k). intros c. rewrite Hk, read_digits_digit by (apply N.mod_lt; lia).
      f_equal; [|lia]. pose proof (N.div_mod n 10). lia.
Qed.

Lemma digits_upto_app fuel n acc acc' :
  digits_upto fuel n acc ++ acc' = digits_upto fuel n (acc ++ acc').
Proof.
  revert n acc. induction fuel as [|fuel IH]; intros n acc; cbn [digits_upto]; [done|].
  destruct (n <? 10); [done|]. by rewrite IH.
Qed.

Lemma read_digits_show n rest :
  ∃ k, ∀ c, read_digits 0 c (show_u64 n ++ rest) = read_digits n (c + S k) rest.
Proof.
  unfold show_u64. rewrite digits_upto_app. apply read_digits_upto.
  destruct (decide (n = 0)) as [->|Hn]; [by vm_compute|].
  pose proof (N.log2_spec n ltac:(lia)) as [_ H]. rewrite Nat2N.inj_succ, N2Nat.id.
  eapply N.lt_le_trans; [exact H|]. by apply N.pow_le_mono_l.
Qed.

Lemma digits_upto_head fuel n acc :
  ∃ d s, digits_upto fuel n acc = ascii_of_N (48 + d) :: s ∧ d < 10.
Proof.
  revert n acc. induction fuel as [|fuel IH]; intros n acc; cbn [digits_upto]; [|destruct (n <? 10)].
  1,2: eexists _, _; split; [done|apply N.mod_lt; lia].
  apply IH.
Qed.

Lemma parse_show_u64 n : n ≤ U64_MAX → parse_u64 (show_u64 n) = Some n.
Proof.
  intros Hn. destruct (read_digits_show n []) as [k Hk]. rewrite app_nil_r in Hk.
  unfold parse_u64.
  replace (match show_u64 n with "+"%char :: s => s | _ => show_u64 n end) with (show_u64 n).
  { rewrite Hk. cbn. by rewrite (proj2 (N.leb_le _ _) Hn). }
  unfold show_u64. destruct (digits_upto_head (N.to_nat (N.log2 n)) n []) as (d & s & -> & Hd).
  assert (C : d ∈ N.of_nat <$> seq 0 10).
  { apply list_elem_of_fmap. exists (N.to_nat d). split; [lia|]. apply elem_of_seq. lia. }
  simpl in C. repeat (apply elem_of_cons in C as [->|C]; [done|]). by apply elem_of_nil in C.
Qed.

(** ** Facts about double precision

    An integer of 64 bits is a finite float, quotients of such are numbers,
    and comparison is a total preorder on the numbers. *)
#[local] Open Scope Z_scope.

(** ** Shifting the mantissa *)

Lemma shr_1_m mrs : 0 ≤ shr_m mrs → shr_m (shr_1 mrs) = shr_m mrs / 2.
Proof.
  destruct mrs as [m r s]. cbn. intros Hm. destruct m as [|[p|p|]|p]; cbn; try done; try lia.
  - rewrite (Pos2Z.inj_xI p). rewrite Z.add_comm, Z.mul_comm, Z.div_add by lia. done.
  - rewrite (Pos2Z.inj_xO p), Z.mul_comm, Z.div_mul by lia. done.
Qed.

Lemma iter_shr_m p mrs : 0 ≤ shr_m mrs → shr_m (iter_pos shr_1 p mrs) = shr_m mrs / 2 ^ Zpos p.
Proof.
  revert mrs. induction p as [p IH|p IH|]; intros mrs H; cbn [iter_pos].
  - assert (H1 : 0 ≤ shr_m (shr_1 mrs)) by (rewrite shr_1_m by done; apply Z.div_pos; lia).
    assert (H2 : 0 ≤ shr_m (iter_pos shr_1 p (shr_1 mrs)))
      by (rewrite IH by done; apply Z.div_pos; [done|by apply Z.pow_pos_nonneg]).
    rewrite !IH, shr_1_m by done. rewrite !Z.div_div by (try apply Z.pow_nonzero; try lia; try (by apply Z.pow_pos_nonneg)).
    f_equal. rewrite (Pos2Z.inj_xI p). replace (2 * Zpos p + 1) with (1 + Zpos p + Zpos p) by lia.
    rewrite !Z.pow_add_r by lia. lia.
  - assert (H2 : 0 ≤ shr_m (iter_pos shr_1 p mrs))
      by (rewrite IH by done; apply Z.div_pos; [done|by apply Z.pow_pos_nonneg]).
    rewrite !IH by done. rewrite !Z.div_div by (try apply Z.pow_nonzero; try lia; try (by apply Z.pow_pos_nonneg)).
    f_equal. rewrite (Pos2Z.inj_xO p). replace (2 * Zpos p) with (Zpos p + Zpos p) by lia.
    rewrite !Z.pow_add_r by lia. lia.
  - by rewrite shr_1_m.
Qed.

Lemma digits_log2 p : Zpos (digits2_pos p) = Z.log2 (Zpos p) + 1.
Proof.
  induction p as [p IH|p IH|]; cbn [digits2_pos]; [| |done]; rewrite Pos2Z.inj_succ, IH.
  - rewrite (Pos2Z.inj_xI p), Z.log2_succ_double by lia. lia.
  - rewrite (Pos2Z.inj_xO p), Z.log2_double by lia. lia.
Qed.

Lemma shr_m_of_loc m l : shr_m (shr_record_of_loc m l) = m.
Proof. by destruct l as [|[]]. Qed.

Lemma shr_fexp_m m e l :
  0 ≤ m → ∃ k, 0 ≤ k ∧ shr_m (shr_fexp prec emax m e l).1 = m / 2 ^ k ∧
    (shr_fexp prec emax m e l).2 = e + k ∧
    k = Z.max 0 (fexp prec emax (Zdigits2 m + e) - e).
Proof.
  intros Hm. unfold shr_fexp. set (n := fexp prec emax (Zdigits2 m + e) - e). unfold shr.
  destruct n as [|p|p] eqn:E.
  - exists 0. cbn. rewrite shr_m_of_loc, Z.div_1_r. lia.
  - exists (Zpos p). cbn [fst snd]. rewrite iter_shr_m by (by rewrite shr_m_of_loc).
    rewrite shr_m_of_loc. lia.
  - exists 0. cbn. rewrite shr_m_of_loc, Z.div_1_r. lia.
Qed.

Lemma round_bounds m l : m ≤ round_nearest_even m l ≤ m + 1.
Proof. destruct l as [|[]]; cbn; [lia| |lia|lia]. destruct (Z.even m); lia. Qed.

(** A positive mantissa stays positive. *)
Lemma shr_fexp_pos m e l :
  0 < m → -1074 ≤ e →
  0 < shr_m (shr_fexp prec emax m e l).1 ≤ m ∧
  e ≤ (shr_fexp prec emax m e l).2 ≤ e + Z.log2 m.
Proof.
  intros Hm He. destruct (shr_fexp_m m e l) as (k & Hk & -> & -> & Ek); [lia|].
  assert (Hd : Zdigits2 m = Z.log2 m + 1) by (destruct m; [lia|apply digits_log2|lia]).
  rewrite Hd in Ek. unfold fexp, SpecFloat.emin, prec, emax in Ek.
  assert (Hkm : k ≤ Z.log2 m) by (pose proof (Z.log2_nonneg m); lia).
  split; [|lia]. split.
  - apply Z.div_str_pos. split; [by apply Z.pow_pos_nonneg|].
    etrans; [apply (Z.pow_le_mono_r 2 k (Z.log2 m)); lia|]. by apply Z.log2_spec.
  - apply Z.div_le_upper_bound; [by apply Z.pow_pos_nonneg|].
    assert (0 < 2 ^ k) by (by apply Z.pow_pos_nonneg). nia.
Qed.

Lemma binary_round_aux_finite m e l :
  0 < m < 2 ^ 70 → -1074 ≤ e ≤ 700 → ∃ m' e', binary_round_aux prec emax false m e l = S754_finite false m' e'.
Proof.
  intros Hm He. unfold binary_round_aux.
  pose proof (shr_fexp_pos m e l) as [H1 H2]; [lia..|].
  destruct (shr_fexp prec emax m e l) as [r1 e1]. cbn [fst snd] in *.
  pose proof (round_bounds (shr_m r1) (loc_of_shr_record r1)) as Hr.
  set (m1 := round_nearest_even _ _) in *.
  pose proof (shr_fexp_pos m1 e1 loc_Exact) as [H3 H4]; [lia..|].
  destruct (shr_fexp prec emax m1 e1 loc_Exact) as [r2 e2]. cbn [fst snd] in *.
  assert (Hl : Z.log2 m < 70) by (apply Z.log2_lt_pow2; lia).
  assert (Hl1 : Z.log2 m1 < 71) by (apply Z.log2_lt_pow2; lia).
  destruct (shr_m r2) as [|q|q]; [lia| |lia].
  assert (E : (e2 <=? emax - prec) = true) by (apply Z.leb_le; unfold emax, prec; lia).
  rewrite E. by eexists _, _.
Qed.

(** ** Integers *)

Lemma iter_xO p q : Zpos (Pos.iter xO p q) = Zpos p * 2 ^ Zpos q.
Proof.
  induction q as [|q IH] using Pos.peano_ind; [cbn; lia|].
  rewrite Pos.iter_succ, Pos2Z.inj_xO, IH, Pos2Z.inj_succ, Z.pow_succ_r by lia. lia.
Qed.

Lemma f64_of_u64_finite n :
  (0 < n ≤ U64_MAX)%N → ∃ m e, f64_of_u64 n = S754_finite false m e.
Proof.
  intros Hn. unfold f64_of_u64. destruct n as [|p]; [lia|]. cbn [Z.of_N binary_normalize].
  assert (Hp : Zpos p < 2 ^ 64) by (unfold U64_MAX in Hn; lia).
  assert (Hl : Z.log2 (Zpos p) < 64) by (apply Z.log2_lt_pow2; lia).
  unfold binary_round, shl_align. rewrite digits_log2.
  assert (Hf : fexp prec emax (Z.log2 (Zpos p) + 1 + 0) = Z.log2 (Zpos p) - 52).
  { unfold fexp, SpecFloat.emin, prec, emax. pose proof (Z.log2_nonneg (Zpos p)). lia. }
  rewrite Hf, Z.sub_0_r. pose proof (Z.log2_nonneg (Zpos p)) as Hl0.
  destruct (Z.log2 (Zpos p) - 52) as [|q|q] eqn:E.
  1,2: apply binary_round_aux_finite; lia.
  apply binary_round_aux_finite; [|lia]. rewrite iter_xO. split; [lia|].
  assert (Hlp : Zpos p < 2 ^ (Z.log2 (Zpos p) + 1)) by (apply Z.log2_spec; lia).
  apply (Z.lt_le_trans _ (2 ^ (Z.log2 (Zpos p) + 1) * 2 ^ Zpos q)).
  - apply Z.mul_lt_mono_pos_r; [by apply Z.pow_pos_nonneg|done].
  - rewrite <- Z.pow_add_r by lia. apply Z.pow_le_mono_r; lia.
Qed.

(** ** Not a number *)

Lemma binary_round_aux_number s m e l : 0 ≤ m → binary_round_aux prec emax s m e l ≠ S754_nan.
Proof.
  intros Hm. unfold binary_round_aux.
  destruct (shr_fexp_m m e l) as (k & Hk & E1 & _ & _); [done|].
  destruct (shr_fexp prec emax m e l) as [r1 e1]. cbn [fst snd] in *.
  assert (H1 : 0 ≤ shr_m r1) by (rewrite E1; apply Z.div_pos; [done|by apply Z.pow_pos_nonneg]).
  pose proof (round_bounds (shr_m r1) (loc_of_shr_record r1)) as Hr.
  destruct (shr_fexp_m (round_nearest_even (shr_m r1) (loc_of_shr_record r1)) e1 loc_Exact)
    as (k2 & Hk2 & E2 & _ & _); [lia|].
  destruct (shr_fexp prec emax _ e1 loc_Exact) as [r2 e2]. cbn [fst snd] in *.
  assert (H2 : 0 ≤ shr_m r2) by (rewrite E2; apply Z.div_pos; [lia|by apply Z.pow_pos_nonneg]).
  destruct (shr_m r2); [done| |lia]. by destruct (e2 <=? emax - prec).
Qed.

Definition number (x : f64) : Prop := x ≠ S754_nan.

(** The quotient of two integers, the second not zero, is a number. *)
Lemma f64_div_number a b :
  (a ≤ U64_MAX)%N → (0 < b ≤ U64_MAX)%N → number (f64_div (f64_of_u64 a) (f64_of_u64 b)).
Proof.
  intros Ha Hb. destruct (f64_of_u64_finite b Hb) as (mb & eb & ->).
  destruct (decide (a = 0%N)) as [->|Hne]; [done|].
  destruct (f64_of_u64_finite a) as (ma & ea & ->); [lia|].
  unfold f64_div, SFdiv, number.
  destruct (SFdiv_core_binary _ _ _ _ _ _) as [[q e] l] eqn:E. apply binary_round_aux_number.
  unfold SFdiv_core_binary in E. set (s := Z.sub _ _) in E.
  set (m' := match s with Z0 => _ | Zpos _ => _ | Zneg _ => _ end) in E.
  assert (Hm : 0 ≤ m') by (unfold m'; destruct s; [lia|by apply Z.shiftl_nonneg|lia]).
  destruct (Z.div_eucl m' (Zpos mb)) as [q' r'] eqn:Ed. injection E as <- _ _.
  replace q' with (m' / Zpos mb) by (unfold Z.div; by rewrite Ed). by apply Z.div_pos.
Qed.

(** ** Comparison *)

(** The place of a number: its sign or infinity, then exponent and mantissa. *)
Definition rank (x : f64) : Z * Z * Z :=
  match x with
  | S754_infinity true => (-2, 0, 0)
  | S754_finite true m e => (-1, - e, - Zpos m)
  | S754_zero _ | S754_nan => (0, 0, 0)
  | S754_finite false m e => (1, e, Zpos m)
  | S754_infinity false => (2, 0, 0)
  end.

Definition rank_cmp (a b : Z * Z * Z) : comparison :=
  match a.1.1 ?= b.1.1 with
  | Eq => match a.1.2 ?= b.1.2 with Eq => a.2 ?= b.2 | c => c end
  | c => c
  end.

Lemma partial_cmp_rank x y :
  number x → number y → f64_partial_cmp x y = Some (rank_cmp (rank x) (rank y)).
Proof.
  unfold number, f64_partial_cmp, rank_cmp. destruct x as [s1|s1| |s1 m1 e1], y as [s2|s2| |s2 m2 e2];
    try done; intros _ _; try (by destruct s1, s2); try (by destruct s1); try (by destruct s2).
  destruct s1, s2; cbn [SFcompare rank fst snd]; try done; f_equal.
  change (Pos.compare_cont Eq m1 m2) with (Pos.compare m1 m2).
  rewrite !Z.compare_opp. cbn. rewrite (Z.compare_antisym e1 e2).
  destruct (e1 ?= e2); cbn; [|done|done]. symmetry. apply Pos.compare_antisym.
Qed.

Lemma rank_cmp_antisym a b : rank_cmp b a = CompOpp (rank_cmp a b).
Proof.
  destruct a as [[a1 a2] a3], b as [[b1 b2] b3]. unfold rank_cmp. cbn.
  rewrite (Z.compare_antisym a1 b1), (Z.compare_antisym a2 b2), (Z.compare_antisym a3 b3).
  by destruct (a1 ?= b1), (a2 ?= b2).
Qed.

Lemma rank_cmp_le a b :
  rank_cmp a b ≠ Gt ↔
  a.1.1 < b.1.1 ∨ a.1.1 = b.1.1 ∧ (a.1.2 < b.1.2 ∨ a.1.2 = b.1.2 ∧ a.2 ≤ b.2).
Proof.
  unfold rank_cmp. destruct (Z.compare_spec a.1.1 b.1.1), (Z.compare_spec a.1.2 b.1.2),
    (Z.compare_spec a.2 b.2); split; intros; try lia; try done.
Qed.

Lemma rank_cmp_trans a b c : rank_cmp a b ≠ Gt → rank_cmp b c ≠ Gt → rank_cmp a c ≠ Gt.
Proof. rewrite !rank_cmp_le. lia. Qed.

Lemma rank_cmp_Eq a b : rank_cmp a b = Eq ↔ a = b.
Proof.
  destruct a as [[a1 a2] a3], b as [[b1 b2] b3]. unfold rank_cmp. cbn.
  destruct (Z.compare_spec a1 b1), (Z.compare_spec a2 b2), (Z.compare_spec a3 b3);
    split; intros; simplify_eq; try done; lia.
Qed.

Lemma rank_cmp_Lt_trans a b c : rank_cmp a b = Lt → rank_cmp b c = Lt → rank_cmp a c = Lt.
Proof.
  intros H1 H2. assert (H : rank_cmp a c ≠ Gt) by (apply (rank_cmp_trans a b c); congruence).
  destruct (rank_cmp a c) eqn:E; [|done|done]. apply rank_cmp_Eq in E as ->.
  rewrite rank_cmp_antisym, H1 in H2. done.
Qed.
