(* ===== verification/StandardProperties.v ===== *)
(** * The predeclared property sets

    [crates/spar-hir-def/src/standard_properties.rs]: the tables of the
    properties every model has, and the table of those declared [inherit]
    with the components that accept them. *)
From S2P Require Import Prelude.
From S2P Require Import CategoryRules.
From S2P Require Import Names.
#[local] Open Scope string_scope.

(** crates/spar-hir-def/src/standard_properties.rs:28-44 [STANDARD_PROPERTY_SET_NAMES] *)
Definition STANDARD_PROPERTY_SET_NAMES : list string :=
  ["Timing_Properties";
   "Communication_Properties";
   "Memory_Properties";
   "Deployment_Properties";
   "Thread_Properties";
   "Programming_Properties";
   "Modeling_Properties";
   "AADL_Project";
   "Spar_Timing";
   "Spar_Trace";
   "Spar_Network";
   "Spar_Migration";
   "Spar_Power";
   "Spar_TSN";
   "Spar_Identity"].

(** ** The tables: a property with a description of its type *)

(** crates/spar-hir-def/src/standard_properties.rs:48-64 [TIMING_PROPERTIES] *)
Definition TIMING_PROPERTIES : list (string * string) :=
  [("Period", "Time");
   ("Deadline", "Time");
   ("Compute_Execution_Time", "Time_Range");
   ("Clock_Period", "Time");
   ("Reference_Time", "list of reference (applies to processor, device)");
   ("Startup_Execution_Time", "Time_Range");
   ("Clock_Jitter", "Time");
   ("First_Dispatch_Time", "Time");
   ("Dispatch_Jitter", "Time");
   ("Dispatch_Offset", "Time");
   ("Execution_Time", "Time_Range");
   ("Process_Swap_Execution_Time", "Time_Range")].

(** crates/spar-hir-def/src/standard_properties.rs:68-94 [COMMUNICATION_PROPERTIES] *)
Definition COMMUNICATION_PROPERTIES : list (string * string) :=
  [("Fan_Out_Policy", "enumeration (Broadcast, RoundRobin, Selective)");
   ("Queue_Size", "aadlinteger");
   ("Queue_Processing_Protocol", "enumeration (FIFO, LIFO, Priority)");
   ("Overflow_Handling_Protocol", "enumeration (DropOldest, DropNewest, Error)");
   ("Transmission_Type", "enumeration (push, pull)");
   ("Input_Rate", "Rate_Spec");
   ("Output_Rate", "Rate_Spec");
   ("Data_Rate", "aadlinteger units Data_Rate_Units");
   ("Connection_Pattern", "list of list of Supported_Connection_Patterns");
   ("Connection_Set", "list of Connection_Pair");
   ("Latency", "Time_Range");
   ("Actual_Latency", "Time_Range");
   ("Required_Connection", "list of reference (port)")].

(** crates/spar-hir-def/src/standard_properties.rs:98-113 [MEMORY_PROPERTIES] *)
Definition MEMORY_PROPERTIES : list (string * string) :=
  [("Data_Size", "Size");
   ("Code_Size", "Size");
   ("Stack_Size", "Size");
   ("Heap_Size", "Size");
   ("Byte_Count", "aadlinteger");
   ("Word_Size", "Size");
   ("Word_Space", "aadlinteger 1..2**32");
   ("Base_Address", "aadlinteger");
   ("Source_Code_Size", "Size");
   ("Source_Data_Size", "Size");
   ("Source_Stack_Size", "Size");
   ("Source_Heap_Size", "Size");
   ("Runtime_Protection", "aadlboolean");
   ("Read_Only", "aadlboolean")].

(** crates/spar-hir-def/src/standard_properties.rs:117-159 [DEPLOYMENT_PROPERTIES] *)
Definition DEPLOYMENT_PROPERTIES : list (string * string) :=
  [("Allowed_Processor_Binding", "list of reference (processor, virtual processor, device, system)");
   ("Actual_Processor_Binding", "list of reference (processor, virtual processor)");
   ("Allowed_Memory_Binding", "list of reference (memory, system, processor)");
   ("Actual_Memory_Binding", "list of reference (memory, system, processor)");
   ("Allowed_Connection_Binding", "list of reference (bus, virtual bus, processor, virtual processor, device, memory, system)");
   ("Actual_Connection_Binding", "list of reference (bus, virtual bus, processor, virtual processor, device, memory, system)");
   ("Allowed_Dispatch_Protocol", "list of Supported_Dispatch_Protocols");
   ("Actual_Subprogram_Call", "reference (subprogram)");
   ("Actual_Subprogram_Call_Binding", "list of reference");
   ("Preemptive_Scheduler", "aadlboolean");
   ("Scheduling_Protocol", "list of Supported_Scheduling_Protocols");
   ("Not_Collocated", "record (Targets: list of reference; Location: classifier)");
   ("Priority_Map", "list of Priority_Mapping");
   ("Priority_Range", "range of aadlinteger")].

(** crates/spar-hir-def/src/standard_properties.rs:163-191 [THREAD_PROPERTIES] *)
Definition THREAD_PROPERTIES : list (string * string) :=
  [("Dispatch_Protocol", "enumeration (Periodic, Sporadic, Aperiodic, Timed, Hybrid, Background)");
   ("Dispatch_Trigger", "list of reference (port)");
   ("Priority", "aadlinteger");
   ("Criticality", "aadlinteger");
   ("POSIX_Scheduling_Policy", "enumeration (SCHED_FIFO, SCHED_RR, SCHED_OTHERS)");
   ("Active_Thread_Handling_Protocol", "Supported_Active_Thread_Handling_Protocols");
   ("Active_Thread_Queue_Handling_Protocol", "enumeration (flush, hold)");
   ("Locking_Protocol", "enumeration (Priority_Ceiling_Protocol, Priority_Inheritance_Protocol, Stop_For_Lock, None)")].

(** crates/spar-hir-def/src/standard_properties.rs:195-248 [PROGRAMMING_PROPERTIES] *)
Definition PROGRAMMING_PROPERTIES : list (string * string) :=
  [("Source_Language", "list of Supported_Source_Languages");
   ("Source_Text", "list of aadlstring");
   ("Source_Name", "aadlstring");
   ("Type_Source_Name", "aadlstring");
   ("Hardware_Description_Source_Text", "list of aadlstring");
   ("Hardware_Source_Language", "Supported_Hardware_Source_Languages");
   ("Device_Driver", "classifier (abstract implementation)");
   ("Initialize_Entrypoint", "classifier (subprogram classifier)");
   ("Initialize_Entrypoint_Call_Sequence", "classifier (subprogram classifier)");
   ("Initialize_Entrypoint_Source_Text", "aadlstring");
   ("Compute_Entrypoint", "classifier (subprogram classifier)");
   ("Compute_Entrypoint_Call_Sequence", "classifier (subprogram classifier)");
   ("Compute_Entrypoint_Source_Text", "aadlstring");
   ("Activate_Entrypoint", "classifier (subprogram classifier)");
   ("Activate_Entrypoint_Call_Sequence", "classifier (subprogram classifier)");
   ("Activate_Entrypoint_Source_Text", "aadlstring");
   ("Deactivate_Entrypoint", "classifier (subprogram classifier)");
   ("Deactivate_Entrypoint_Call_Sequence", "classifier (subprogram classifier)");
   ("Deactivate_Entrypoint_Source_Text", "aadlstring");
   ("Finalize_Entrypoint", "classifier (subprogram classifier)");
   ("Finalize_Entrypoint_Call_Sequence", "classifier (subprogram classifier)");
   ("Finalize_Entrypoint_Source_Text", "aadlstring");
   ("Recover_Entrypoint", "classifier (subprogram classifier)");
   ("Recover_Entrypoint_Call_Sequence", "classifier (subprogram classifier)");
   ("Recover_Entrypoint_Source_Text", "aadlstring")].

(** crates/spar-hir-def/src/standard_properties.rs:252-266 [MODELING_PROPERTIES] *)
Definition MODELING_PROPERTIES : list (string * string) :=
  [("Classifier_Matching_Rule", "enumeration (Classifier_Match, Equivalence, Subset, Conversion, Complement)");
   ("Classifier_Substitution_Rule", "enumeration (Classifier_Match, Type_Extension, Signature_Match)");
   ("Prototype_Substitution_Rule", "enumeration (Classifier_Match, Type_Extension, Signature_Match)");
   ("Implemented_As", "classifier (abstract implementation)")].

(** crates/spar-hir-def/src/standard_properties.rs:270-302 [AADL_PROJECT] *)
Definition AADL_PROJECT : list (string * string) :=
  [("Supported_Dispatch_Protocols", "list of Supported_Dispatch_Protocols");
   ("Supported_Scheduling_Protocols", "list of Supported_Scheduling_Protocols");
   ("Supported_Source_Languages", "list of Supported_Source_Languages");
   ("Supported_Hardware_Source_Languages", "list of Supported_Hardware_Source_Languages");
   ("Max_Thread_Compute_Execution_Time", "Time");
   ("Max_Urgency", "aadlinteger");
   ("Max_Byte_Count", "aadlinteger");
   ("Max_Word_Space", "aadlinteger");
   ("Max_Memory_Size", "Size");
   ("Max_Queue_Size", "aadlinteger");
   ("Data_Volume", "aadlinteger units Data_Volume_Units");
   ("Supported_Connection_Patterns", "enumeration (One_To_One, All_To_All, One_To_All, All_To_One, Next, Previous, Cyclic_Next, Cyclic_Previous)");
   ("Supported_Active_Thread_Handling_Protocols", "enumeration (abort, complete_one_flush_queue, complete_one_transfer_queue, complete_one_stop, complete_all, stop)")].

(** crates/spar-hir-def/src/standard_properties.rs:312-333 [SPAR_TIMING] *)
Definition SPAR_TIMING : list (string * string) :=
  [("ISR_Priority", "aadlinteger");
   ("ISR_Execution_Time", "Time_Range");
   ("Interrupt_Latency_Bound", "Time");
   ("Bottom_Half_Server", "reference (thread)");
   ("Critical_Section_Blocking", "Time")].

(** crates/spar-hir-def/src/standard_properties.rs:343-355 [SPAR_TRACE] *)
Definition SPAR_TRACE : list (string * string) :=
  [("Probe_Point", "aadlboolean");
   ("Expected_BCET", "Time");
   ("Expected_WCET", "Time");
   ("Expected_Mean", "Time")].

(** crates/spar-hir-def/src/standard_properties.rs:370-398 [SPAR_NETWORK] *)
Definition SPAR_NETWORK : list (string * string) :=
  [("Switch_Type", "enumeration (FIFO, Priority, TSN)");
   ("Queue_Depth", "aadlinteger");
   ("Forwarding_Latency", "Time_Range");
   ("Output_Rate", "Data_Rate");
   ("WCTT_Budget", "Time")].

(** crates/spar-hir-def/src/standard_properties.rs:410-434 [SPAR_MIGRATION] *)
Definition SPAR_MIGRATION : list (string * string) :=
  [("Frozen", "aadlboolean");
   ("Mobile", "aadlboolean");
   ("Allowed_Targets", "list of reference (thread)");
   ("Pinned_Reason", "aadlstring")].

(** crates/spar-hir-def/src/standard_properties.rs:454-460 [SPAR_POWER] *)
Definition SPAR_POWER : list (string * string) :=
  [("Power_Budget", "Time")].

(** crates/spar-hir-def/src/standard_properties.rs:478-531 [SPAR_TSN] *)
Definition SPAR_TSN : list (string * string) :=
  [("Stream_ID", "aadlinteger 0..2**32-1");
   ("Class_of_Service", "aadlinteger 0..7");
   ("Gate_Control_List", "aadlstring");
   ("Max_Frame_Size", "aadlinteger units Size_Units");
   ("Frame_Preemption", "aadlboolean");
   ("Bandwidth_Reservation", "aadlinteger units Data_Rate_Units");
   ("Sync_Error", "aadlinteger units Time_Units");
   ("Hi_Credit", "aadlinteger units Size_Units");
   ("Lo_Credit", "aadlinteger units Size_Units")].

(** crates/spar-hir-def/src/standard_properties.rs:552-584 [SPAR_IDENTITY] *)
Definition SPAR_IDENTITY : list (string * string) :=
  [("MAC_Address", "aadlstring");
   ("VLAN_ID", "aadlinteger 0 .. 4094");
   ("Stream_Handle", "aadlinteger");
   ("Multicast_Group", "aadlstring");
   ("LLDP_Chassis_Id", "aadlstring");
   ("LLDP_Port_Id", "aadlstring");
   ("IPv4_Address", "aadlstring");
   ("IPv6_Address", "aadlstring")].

(** ** Lookup *)

(** crates/spar-hir-def/src/standard_properties.rs:11-18 [StandardProperty] *)
Record StandardProperty := { sp_name : string; sp_property_set : string; sp_type_description : string }.

(** crates/spar-hir-def/src/standard_properties.rs:587-599 [collect_properties] *)
Definition collect_properties (table : list (string * string)) (property_set : string) : list StandardProperty :=
  (λ '(name, ty), {| sp_name := name; sp_property_set := property_set; sp_type_description := ty |}) <$> table.

(** crates/spar-hir-def/src/standard_properties.rs:602-630 [all_standard_properties] *)
Definition all_standard_properties : list StandardProperty :=
  collect_properties TIMING_PROPERTIES "Timing_Properties" ++
  collect_properties COMMUNICATION_PROPERTIES "Communication_Properties" ++
  collect_properties MEMORY_PROPERTIES "Memory_Properties" ++
  collect_properties DEPLOYMENT_PROPERTIES "Deployment_Properties" ++
  collect_properties THREAD_PROPERTIES "Thread_Properties" ++
  collect_properties PROGRAMMING_PROPERTIES "Programming_Properties" ++
  collect_properties MODELING_PROPERTIES "Modeling_Properties" ++
  collect_properties AADL_PROJECT "AADL_Project" ++
  collect_properties SPAR_TIMING "Spar_Timing" ++
  collect_properties SPAR_TRACE "Spar_Trace" ++
  collect_properties SPAR_NETWORK "Spar_Network" ++
  collect_properties SPAR_MIGRATION "Spar_Migration" ++
  collect_properties SPAR_POWER "Spar_Power" ++
  collect_properties SPAR_TSN "Spar_TSN" ++
  collect_properties SPAR_IDENTITY "Spar_Identity".

(** crates/spar-hir-def/src/standard_properties.rs:635-640 [is_standard_property_set] *)
Definition is_standard_property_set (name : string) : bool :=
  existsb (λ s, String.eqb (to_ascii_lowercase s) (to_ascii_lowercase name)) STANDARD_PROPERTY_SET_NAMES.

(** crates/spar-hir-def/src/standard_properties.rs:643-662 [lookup_table] *)
Definition lookup_table (set_lower : string) : option (list (string * string)) :=
  if String.eqb set_lower "timing_properties" then Some TIMING_PROPERTIES
  else if String.eqb set_lower "communication_properties" then Some COMMUNICATION_PROPERTIES
  else if String.eqb set_lower "memory_properties" then Some MEMORY_PROPERTIES
  else if String.eqb set_lower "deployment_properties" then Some DEPLOYMENT_PROPERTIES
  else if String.eqb set_lower "thread_properties" then Some THREAD_PROPERTIES
  else if String.eqb set_lower "programming_properties" then Some PROGRAMMING_PROPERTIES
  else if String.eqb set_lower "modeling_properties" then Some MODELING_PROPERTIES
  else if String.eqb set_lower "aadl_project" then Some AADL_PROJECT
  else if String.eqb set_lower "spar_timing" then Some SPAR_TIMING
  else if String.eqb set_lower "spar_trace" then Some SPAR_TRACE
  else if String.eqb set_lower "spar_network" then Some SPAR_NETWORK
  else if String.eqb set_lower "spar_migration" then Some SPAR_MIGRATION
  else if String.eqb set_lower "spar_power" then Some SPAR_POWER
  else if String.eqb set_lower "spar_tsn" then Some SPAR_TSN
  else if String.eqb set_lower "spar_identity" then Some SPAR_IDENTITY
  else None.

(** crates/spar-hir-def/src/standard_properties.rs:668-674 [standard_properties_in_set] *)
Definition standard_properties_in_set (set_name : string) : list string :=
  match lookup_table (to_ascii_lowercase set_name) with
  | Some table => table.*1
  | None => []
  end.

(** crates/spar-hir-def/src/standard_properties.rs:680-688 [standard_property_type] *)
Definition standard_property_type (set_name property_name : string) : option string :=
  table ← lookup_table (to_ascii_lowercase set_name);
  snd <$> List.find (λ p, String.eqb (to_ascii_lowercase p.1) (to_ascii_lowercase property_name)) table.

(** ** Inherited properties *)

(** crates/spar-hir-def/src/standard_properties.rs:716-725 [InheritReceivers] *)
Inductive InheritReceivers :=
  | Categories (cats : list ComponentCategory)
  | AnyComponent
  | Implementations.

(** crates/spar-hir-def/src/standard_properties.rs:729-736 [InheritProperty] *)
Record InheritProperty := { ip_property_set : string; ip_name : string; ip_receivers : InheritReceivers }.

(** crates/spar-hir-def/src/standard_properties.rs:741-750 [InheritProperty::accepts] *)
Definition accepts (p : InheritProperty) (category : ComponentCategory) (is_implementation : bool) : bool :=
  if bool_decide (category = Abstract) then true
  else match ip_receivers p with
       | Categories cats => bool_decide (category ∈ cats)
       | AnyComponent => true
       | Implementations => is_implementation
       end.

(** crates/spar-hir-def/src/standard_properties.rs:753-763 [inh] *)
Definition inh (property_set name : string) (receivers : InheritReceivers) : InheritProperty :=
  {| ip_property_set := property_set; ip_name := name; ip_receivers := receivers |}.

(** crates/spar-hir-def/src/standard_properties.rs:769-776 [cats::PROC_BINDING] *)
Definition PROC_BINDING : list ComponentCategory :=
  [Thread; ThreadGroup; Process; System; VirtualProcessor; Device].

(** crates/spar-hir-def/src/standard_properties.rs:777-788 [cats::MEM_BINDING_CLASS] *)
Definition MEM_BINDING_CLASS : list ComponentCategory :=
  [Thread; ThreadGroup; Process; System; Device; Data; Subprogram; SubprogramGroup; Processor; VirtualProcessor].

(** crates/spar-hir-def/src/standard_properties.rs:789-801 [cats::MEM_BINDING] *)
Definition MEM_BINDING : list ComponentCategory :=
  [Memory; Thread; ThreadGroup; Process; System; Device; Data; Subprogram; SubprogramGroup; Processor; VirtualProcessor].

(** crates/spar-hir-def/src/standard_properties.rs:802-803 [cats::CONN_BINDING] *)
Definition CONN_BINDING : list ComponentCategory :=
  [Thread; ThreadGroup; Process; System; VirtualBus].

(** crates/spar-hir-def/src/standard_properties.rs:804-805 [cats::FUNCTION_BINDING] *)
Definition FUNCTION_BINDING : list ComponentCategory :=
  [Subprogram; Thread; ThreadGroup; Process; System; Abstract].

(** crates/spar-hir-def/src/standard_properties.rs:806-814 [cats::PROVIDED_VB] *)
Definition PROVIDED_VB : list ComponentCategory :=
  [Bus; VirtualBus; Processor; VirtualProcessor; Device; Memory; System].

(** crates/spar-hir-def/src/standard_properties.rs:815-816 [cats::REQUIRED_VB] *)
Definition REQUIRED_VB : list ComponentCategory :=
  [VirtualBus; Thread; ThreadGroup; Process; System; Device].

(** crates/spar-hir-def/src/standard_properties.rs:817-817 [cats::SCHEDULING_PROTOCOL] *)
Definition SCHEDULING_PROTOCOL : list ComponentCategory :=
  [VirtualProcessor; Processor; System].

(** crates/spar-hir-def/src/standard_properties.rs:818-830 [cats::SOURCE_LANGUAGE] *)
Definition SOURCE_LANGUAGE : list ComponentCategory :=
  [Subprogram; Data; Thread; ThreadGroup; Process; System; Bus; Device; Processor; VirtualProcessor; VirtualBus].

(** crates/spar-hir-def/src/standard_properties.rs:831-844 [cats::SOURCE_TEXT] *)
Definition SOURCE_TEXT : list ComponentCategory :=
  [Data; Subprogram; Thread; ThreadGroup; Process; System; VirtualBus; VirtualProcessor; Memory; Bus; Device; Processor].

(** crates/spar-hir-def/src/standard_properties.rs:845-845 [cats::HW_SOURCE_TEXT] *)
Definition HW_SOURCE_TEXT : list ComponentCategory :=
  [Memory; Bus; Device; Processor; System].

(** crates/spar-hir-def/src/standard_properties.rs:846-847 [cats::PRIORITY] *)
Definition PRIORITY : list ComponentCategory :=
  [Thread; ThreadGroup; Process; System; Device; Data].

(** crates/spar-hir-def/src/standard_properties.rs:848-848 [cats::THREAD_TO_SYSTEM] *)
Definition THREAD_TO_SYSTEM : list ComponentCategory :=
  [Thread; ThreadGroup; Process; System].

(** crates/spar-hir-def/src/standard_properties.rs:849-849 [cats::RUNTIME_PROTECTION] *)
Definition RUNTIME_PROTECTION : list ComponentCategory :=
  [Process; System; VirtualProcessor].

(** crates/spar-hir-def/src/standard_properties.rs:850-857 [cats::DEADLINE] *)
Definition DEADLINE : list ComponentCategory :=
  [Thread; ThreadGroup; Process; System; Device; VirtualProcessor].

(** crates/spar-hir-def/src/standard_properties.rs:858-858 [cats::THREAD_AND_GROUP] *)
Definition THREAD_AND_GROUP : list ComponentCategory :=
  [Thread; ThreadGroup].

(** crates/spar-hir-def/src/standard_properties.rs:859-859 [cats::THREAD] *)
Definition THREAD : list ComponentCategory :=
  [Thread].

(** crates/spar-hir-def/src/standard_properties.rs:860-869 [cats::PERIOD] *)
Definition PERIOD : list ComponentCategory :=
  [Thread; ThreadGroup; Process; System; Device; VirtualProcessor; VirtualBus; Bus].

(** crates/spar-hir-def/src/standard_properties.rs:870-878 [cats::REFERENCE_TIME] *)
Definition REFERENCE_TIME : list ComponentCategory :=
  [Device; Processor; Bus; System; Memory; VirtualBus; VirtualProcessor].

(** crates/spar-hir-def/src/standard_properties.rs:879-887 [cats::REFERENCE_PROCESSOR] *)
Definition REFERENCE_PROCESSOR : list ComponentCategory :=
  [Subprogram; SubprogramGroup; Thread; ThreadGroup; Process; Device; System].

(** crates/spar-hir-def/src/standard_properties.rs:888-888 [cats::PROCESSOR] *)
Definition PROCESSOR : list ComponentCategory :=
  [Processor].

(** crates/spar-hir-def/src/standard_properties.rs:895-1059 [INHERIT_PROPERTIES] *)
Definition INHERIT_PROPERTIES : list InheritProperty :=
  [inh "Deployment_Properties" "Allowed_Processor_Binding_Class" (Categories PROC_BINDING);
   inh "Deployment_Properties" "Allowed_Processor_Binding" (Categories PROC_BINDING);
   inh "Deployment_Properties" "Actual_Processor_Binding" (Categories PROC_BINDING);
   inh "Deployment_Properties" "Allowed_Memory_Binding_Class" (Categories MEM_BINDING_CLASS);
   inh "Deployment_Properties" "Allowed_Memory_Binding" (Categories MEM_BINDING);
   inh "Deployment_Properties" "Actual_Memory_Binding" (Categories MEM_BINDING);
   inh "Deployment_Properties" "Allowed_Connection_Binding_Class" (Categories CONN_BINDING);
   inh "Deployment_Properties" "Allowed_Connection_Binding" (Categories CONN_BINDING);
   inh "Deployment_Properties" "Actual_Connection_Binding" (Categories CONN_BINDING);
   inh "Deployment_Properties" "Actual_Function_Binding" (Categories FUNCTION_BINDING);
   inh "Deployment_Properties" "Provided_Virtual_Bus_Class" (Categories PROVIDED_VB);
   inh "Deployment_Properties" "Required_Virtual_Bus_Class" (Categories REQUIRED_VB);
   inh "Deployment_Properties" "Provided_Connection_Quality_Of_Service" (Categories PROVIDED_VB);
   inh "Deployment_Properties" "Required_Connection_Quality_Of_Service" (Categories REQUIRED_VB);
   inh "Deployment_Properties" "Scheduling_Protocol" (Categories SCHEDULING_PROTOCOL);
   inh "Modeling_Properties" "Classifier_Matching_Rule" Implementations;
   inh "Modeling_Properties" "Classifier_Substitution_Rule" AnyComponent;
   inh "Modeling_Properties" "Prototype_Substitution_Rule" AnyComponent;
   inh "Programming_Properties" "Source_Language" (Categories SOURCE_LANGUAGE);
   inh "Programming_Properties" "Source_Text" (Categories SOURCE_TEXT);
   inh "Programming_Properties" "Hardware_Description_Source_Text" (Categories HW_SOURCE_TEXT);
   inh "Thread_Properties" "Priority" (Categories PRIORITY);
   inh "Thread_Properties" "Active_Thread_Handling_Protocol" (Categories THREAD_TO_SYSTEM);
   inh "Thread_Properties" "Active_Thread_Queue_Handling_Protocol" (Categories THREAD_TO_SYSTEM);
   inh "Thread_Properties" "Runtime_Protection" (Categories RUNTIME_PROTECTION);
   inh "Thread_Properties" "Synchronized_Component" (Categories THREAD_TO_SYSTEM);
   inh "Timing_Properties" "Deadline" (Categories DEADLINE);
   inh "Timing_Properties" "First_Dispatch_Time" (Categories THREAD_AND_GROUP);
   inh "Timing_Properties" "Dispatch_Jitter" (Categories THREAD_AND_GROUP);
   inh "Timing_Properties" "Dispatch_Offset" (Categories THREAD);
   inh "Timing_Properties" "Period" (Categories PERIOD);
   inh "Timing_Properties" "Reference_Time" (Categories REFERENCE_TIME);
   inh "Timing_Properties" "Reference_Processor" (Categories REFERENCE_PROCESSOR);
   inh "Timing_Properties" "Scheduler_Quantum" (Categories PROCESSOR)].

(** crates/spar-hir-def/src/standard_properties.rs:1070-1075 [inherit_property] *)
Definition inherit_property (set name : string) : option InheritProperty :=
  List.find (λ p, eq_ignore_ascii_case (ip_name p) name &&
    (String.eqb set "" || eq_ignore_ascii_case (ip_property_set p) set)) INHERIT_PROPERTIES.
