(* ===== verification/Quantities.v ===== *)
(** * Quantities written as text

    [crates/spar-hir-def/src/property_value.rs]: times and sizes with their
    units.  A product that leaves [u64] panics in a checked build. *)
From S2P Require Import Prelude.
From S2P Require Import Text.
From S2P Require Import Names.
From S2P Require Import F64.
From stdpp Require Import strings.
#[local] Open Scope N_scope.

(** Checked multiplication of [u64]s. *)
Definition mul_u64 (a b : u64) : Exec u64 := if a * b <=? U64_MAX then Done (a * b) else Panic.

(** [or_else] and [and_then] on options a function returns. *)
Definition or_elseM {A} (m k : Exec (option A)) : Exec (option A) :=
  o ← m; match o with Some a => Done (Some a) | None => k end.
Definition and_thenM {A B} (m : Exec (option A)) (k : A → Exec (option B)) : Exec (option B) :=
  o ← m; match o with Some a => k a | None => Done None end.

(** [str::strip_suffix]. *)
Definition str_strip_suffix (suffix s : bytes) : option bytes :=
  if (length suffix <=? length s)%nat && bool_decide (drop (length s - length suffix) s = suffix)
  then Some (take (length s - length suffix) s) else None.

(** What follows [prefix] in a text. *)
Fixpoint str_strip_prefix (prefix s : bytes) : option bytes :=
  match prefix, s with
  | [], _ => Some s
  | a :: prefix, b :: s => if Ascii.eqb a b then str_strip_prefix prefix s else None
  | _ :: _, [] => None
  end.

(** [str::split_once]: the text before and after the first occurrence. *)
Fixpoint split_once (pat s : bytes) : option (bytes * bytes) :=
  match str_strip_prefix pat s with
  | Some after => Some ([], after)
  | None =>
      match s with
      | [] => None
      | b :: s => '(before, after) ← split_once pat s; Some (b :: before, after)
      end
  end.

(** crates/spar-hir-def/src/property_value.rs:203-211 [TIME_UNITS] *)
Definition TIME_UNITS : list (string * u64) :=
  [("ps"%string, 1); ("ns"%string, 1000); ("us"%string, 1000000); ("ms"%string, 1000000000);
   ("sec"%string, 1000000000000); ("min"%string, 60000000000000); ("hr"%string, 3600000000000000)].

(** crates/spar-hir-def/src/property_value.rs:214-221 [SIZE_UNITS] *)
Definition SIZE_UNITS : list (string * u64) :=
  [("bits"%string, 1); ("Bytes"%string, 8); ("KByte"%string, 8 * 1024);
   ("MByte"%string, 8 * 1024 * 1024); ("GByte"%string, 8 * 1024 * 1024 * 1024);
   ("TByte"%string, 8 * 1024 * 1024 * 1024 * 1024)].

(** crates/spar-hir-def/src/property_value.rs:294-299 [find_unit_factor] *)
Definition find_unit_factor (table : list (string * u64)) (unit : string) : option u64 :=
  snd <$> List.find (λ u, eq_ignore_ascii_case u.1 unit) table.

(** crates/spar-hir-def/src/property_value.rs:226-244 [convert_units] *)
Definition convert_units (value : f64) (from_unit to_unit : string) : option f64 :=
  let within table :=
    match find_unit_factor table from_unit, find_unit_factor table to_unit with
    | Some from_factor, Some to_factor =>
        Some (f64_div (f64_mul value (f64_of_u64 from_factor)) (f64_of_u64 to_factor))
    | _, _ => None
    end in
  match within TIME_UNITS with Some v => Some v | None => within SIZE_UNITS end.

(** [(v * factor as f64) as u64]. *)
Definition scale (v : f64) (factor : u64) : u64 := f64_to_u64 (f64_mul v (f64_of_u64 factor)).

(** crates/spar-hir-def/src/property_value.rs:304-318 [parse_time_value]: the loop
    over the units, on the trimmed text. *)
Fixpoint parse_time_with (units : list (string * u64)) (s : bytes) : Exec (option u64) :=
  match units with
  | [] => Done None
  | (unit_name, factor) :: units =>
      match trim_bytes <$> str_strip_suffix (list_ascii_of_string unit_name) s with
      | Some num_str =>
          match parse_u64 num_str with
          | Some val => v ← mul_u64 val factor; Done (Some v)
          | None =>
              match parse_f64 num_str with
              | Some val => Done (Some (scale val factor))
              | None => parse_time_with units s
              end
          end
      | None => parse_time_with units s
      end
  end.

(** crates/spar-hir-def/src/property_value.rs:304-318 [parse_time_value] *)
Definition parse_time_value (s : bytes) : Exec (option u64) := parse_time_with TIME_UNITS (trim_bytes s).

(** crates/spar-hir-def/src/property_value.rs:323-333 [parse_size_value]: the loop
    over the units, on the trimmed text. *)
Fixpoint parse_size_with (units : list (string * u64)) (s : bytes) : Exec (option u64) :=
  match units with
  | [] => Done None
  | (unit_name, factor) :: units =>
      match (trim_bytes <$> str_strip_suffix (list_ascii_of_string unit_name) s) ≫= parse_u64 with
      | Some val => v ← mul_u64 val factor; Done (Some v)
      | None => parse_size_with units s
      end
  end.

(** crates/spar-hir-def/src/property_value.rs:323-333 [parse_size_value] *)
Definition parse_size_value (s : bytes) : Exec (option u64) := parse_size_with SIZE_UNITS (trim_bytes s).

Example parse_time_value_examples :
  let parse s := parse_time_value (list_ascii_of_string s) in
  parse " 10 ms "%string = Done (Some 10000000000) ∧ parse "1.5us"%string = Done (Some 1500000) ∧
  parse "-5 ms"%string = Done (Some 0) ∧ parse "inf ps"%string = Done (Some U64_MAX) ∧
  parse "10 MS"%string = Done None ∧ parse "20000000 sec"%string = Panic.
Proof. by vm_compute. Qed.
