(* ===== verification/Resolver.v ===== *)
(** * Name resolution

    [crates/spar-hir-def/src/resolver.rs]: the scope that a set of item trees
    makes, and the resolution of classifiers, packages, properties and the
    shapes of data types in it.  The keys of the maps are names in lower
    case.  Resolving an alias calls the resolver again, on a qualified name,
    so the recursion is two deep; following the fields of a data
    implementation is not guarded against a cycle, and runs on fuel. *)
From S2P Require Import Prelude.
From S2P Require Import Text.
From S2P Require Import Names.
From S2P Require Import CategoryRules.
From S2P Require Import Diagnostics.
From S2P Require Import PropertyExpr.
From S2P Require Import ItemTree.
From S2P Require Import StandardProperties.
From S2P Require Import Quantities.
From Stdlib Require Import String.
From stdpp Require Import gmap strings.
#[local] Open Scope string_scope.

(** ** Data *)

(** crates/spar-hir-def/src/resolver.rs:15-20 [ItemLoc] *)
Record ItemLoc := { loc_tree : nat; loc_raw_idx : nat }.

(** crates/spar-hir-def/src/resolver.rs:24-29 [ResolvedClassifier] *)
Inductive ResolvedClassifier :=
  | ResolvedType (package : Name) (loc : ItemLoc)
  | ResolvedImpl (package : Name) (loc : ItemLoc)
  | ResolvedFeatureGroup (package : Name) (loc : ItemLoc)
  | Unresolved.

(** crates/spar-hir-def/src/resolver.rs:66-70 [ScalarKind] *)
Inductive ScalarKind := Unsigned | Signed | Float.

(** crates/spar-hir-def/src/resolver.rs:36-60 [DataShape] *)
Inductive DataShape :=
  | Scalar (bytes : u64) (kind : ScalarKind)
  | RecordShape (type_name : string) (fields : list (Name * DataShape))
  | ArrayShape (element : DataShape) (len : option u64)
  | OpaqueShape.

(** crates/spar-hir-def/src/resolver.rs:81-91 [ResolvedProperty] *)
Inductive ResolvedProperty :=
  | PropertyDef (property_set property_name : Name)
  | PropertyConstant (property_set property_name : Name)
  | UnresolvedProperty.

(** crates/spar-hir-def/src/resolver.rs:110-132 [PackageScope] *)
Record PackageScope := {
  scope_name : Name;
  imports : list Name;
  scope_types : gmap CiName ItemLoc;
  scope_impls : gmap (CiName * CiName) ItemLoc;
  scope_fgts : gmap CiName ItemLoc;
  private_types : gset CiName;
  private_impls : gset (CiName * CiName);
  private_fgts : gset CiName;
  package_renames : gmap CiName Name;
  classifier_renames : gmap CiName (Name * Name);
  feature_group_renames : gmap CiName (Name * Name);
}.

(** crates/spar-hir-def/src/resolver.rs:136-140 [PropertySetInfo] *)
Record PropertySetInfo := { psi_name : Name; property_names : list Name; constant_names : list Name }.

(** crates/spar-hir-def/src/resolver.rs:144-151 [GlobalScope] *)
Record GlobalScope := {
  scope_packages : gmap CiName PackageScope;
  scope_property_sets : gmap CiName PropertySetInfo;
  trees : list ItemTree;
  scope_diagnostics : list string;
}.

(** ** Building the scope *)

Definition property_set_info (ps : PropertySetItem) : PropertySetInfo :=
  {| psi_name := ps_name ps; property_names := pd_name <$> ps_property_defs ps;
     constant_names := pc_const_name <$> ps_property_constants ps |}.

Definition with_type (s : PackageScope) (is_public : bool) (key : CiName) (loc : ItemLoc) : PackageScope :=
  {| scope_name := scope_name s; imports := imports s; scope_types := <[key := loc]> (scope_types s);
     scope_impls := scope_impls s; scope_fgts := scope_fgts s;
     private_types := if is_public then private_types s else {[key]} ∪ private_types s;
     private_impls := private_impls s; private_fgts := private_fgts s;
     package_renames := package_renames s; classifier_renames := classifier_renames s;
     feature_group_renames := feature_group_renames s |}.

Definition with_impl (s : PackageScope) (is_public : bool) (key : CiName * CiName) (loc : ItemLoc) : PackageScope :=
  {| scope_name := scope_name s; imports := imports s; scope_types := scope_types s;
     scope_impls := <[key := loc]> (scope_impls s); scope_fgts := scope_fgts s;
     private_types := private_types s;
     private_impls := if is_public then private_impls s else {[key]} ∪ private_impls s;
     private_fgts := private_fgts s;
     package_renames := package_renames s; classifier_renames := classifier_renames s;
     feature_group_renames := feature_group_renames s |}.

Definition with_fgt (s : PackageScope) (is_public : bool) (key : CiName) (loc : ItemLoc) : PackageScope :=
  {| scope_name := scope_name s; imports := imports s; scope_types := scope_types s;
     scope_impls := scope_impls s; scope_fgts := <[key := loc]> (scope_fgts s);
     private_types := private_types s; private_impls := private_impls s;
     private_fgts := if is_public then private_fgts s else {[key]} ∪ private_fgts s;
     package_renames := package_renames s; classifier_renames := classifier_renames s;
     feature_group_renames := feature_group_renames s |}.

(** crates/spar-hir-def/src/resolver.rs:290-353 [GlobalScope::register_items]: one
    item of a section of a package. *)
Definition register_item (tree : ItemTree) (tree_idx : nat) (is_public : bool)
    (st : PackageScope * gmap CiName PropertySetInfo) (item : ItemRef)
  : Exec (PackageScope * gmap CiName PropertySetInfo) :=
  let '(s, sets) := st in
  match item with
  | RComponentType idx =>
      ct ← arena_get (component_types tree) idx;
      Done (with_type s is_public (ci (ct_name ct)) {| loc_tree := tree_idx; loc_raw_idx := idx |}, sets)
  | RComponentImpl idx =>
      c ← arena_get (component_impls tree) idx;
      Done (with_impl s is_public (ci (ci_type_name c), ci (ci_impl_name c))
              {| loc_tree := tree_idx; loc_raw_idx := idx |}, sets)
  | RFeatureGroupType idx =>
      fgt ← arena_get (feature_group_types tree) idx;
      Done (with_fgt s is_public (ci (fgt_name fgt)) {| loc_tree := tree_idx; loc_raw_idx := idx |}, sets)
  | RPropertySet idx =>
      ps ← arena_get (property_sets tree) idx;
      Done (s, <[ci (ps_name ps) := property_set_info ps]> sets)
  | RAnnexLibrary => Done (s, sets)
  end.

(** crates/spar-hir-def/src/resolver.rs:281-355 [GlobalScope::register_items] *)
Definition register_items (tree : ItemTree) (tree_idx : nat) (is_public : bool)
    (st : PackageScope * gmap CiName PropertySetInfo) (items : list ItemRef)
  : Exec (PackageScope * gmap CiName PropertySetInfo) :=
  foldM (register_item tree tree_idx is_public) st items.

(** [str::split_once] on ["::"], the parts trimmed. *)
Definition split_colons (s : string) : option (Name * Name) :=
  '(a, b) ← split_once (list_ascii_of_string "::") (list_ascii_of_string s);
  Some (trim (string_of_list_ascii a), trim (string_of_list_ascii b)).

(** crates/spar-hir-def/src/resolver.rs:202-230 [GlobalScope::from_trees]: one
    [renames] declaration. *)
Definition register_rename (tree : ItemTree) (s : PackageScope) (idx : ItemIdx) : Exec PackageScope :=
  ri ← arena_get (renames tree) idx;
  let alias := ci (rn_alias ri) in
  let renamed pr cr fr :=
    {| scope_name := scope_name s; imports := imports s; scope_types := scope_types s;
       scope_impls := scope_impls s; scope_fgts := scope_fgts s; private_types := private_types s;
       private_impls := private_impls s; private_fgts := private_fgts s;
       package_renames := pr; classifier_renames := cr; feature_group_renames := fr |} in
  Done (match rn_kind ri with
        | RenamesPackage =>
            renamed (<[alias := rn_original ri]> (package_renames s)) (classifier_renames s)
              (feature_group_renames s)
        | RenamesClassifier =>
            match split_colons (rn_original ri) with
            | Some orig => renamed (package_renames s) (<[alias := orig]> (classifier_renames s))
                             (feature_group_renames s)
            | None => s
            end
        | RenamesFeatureGroup =>
            match split_colons (rn_original ri) with
            | Some orig => renamed (package_renames s) (classifier_renames s)
                             (<[alias := orig]> (feature_group_renames s))
            | None => s
            end
        end).

(** [PackageScope::default()], with a name and imports. *)
Definition empty_scope (name : Name) (imports : list Name) : PackageScope :=
  {| scope_name := name; imports := imports; scope_types := ∅; scope_impls := ∅; scope_fgts := ∅;
     private_types := ∅; private_impls := ∅; private_fgts := ∅; package_renames := ∅;
     classifier_renames := ∅; feature_group_renames := ∅ |}.

(** crates/spar-hir-def/src/resolver.rs:174-240 [GlobalScope::from_trees]: one
    package. *)
Definition register_package (tree : ItemTree) (tree_idx : nat) (g : GlobalScope) (pkg : Package)
  : Exec GlobalScope :=
  st ← register_items tree tree_idx true
         (empty_scope (pkg_name pkg) (pkg_with_clauses pkg), scope_property_sets g) (pkg_public_items pkg);
  '(s, sets) ← register_items tree tree_idx false st (pkg_private_items pkg);
  s ← foldM (register_rename tree) s (pkg_renames pkg);
  let key := ci (pkg_name pkg) in
  let ds := match scope_packages g !! key with
            | Some _ => [("package '" +:+ pkg_name pkg +:+
                          "' is defined in multiple files; only the last definition is used")]
            | None => []
            end in
  Done {| scope_packages := <[key := s]> (scope_packages g); scope_property_sets := sets;
          trees := trees g; scope_diagnostics := scope_diagnostics g ++ ds |}.

(** crates/spar-hir-def/src/resolver.rs:172-257 [GlobalScope::from_trees]: one tree,
    its packages and then its property sets outside packages. *)
Definition register_tree (g : GlobalScope) (it : nat * ItemTree) : Exec GlobalScope :=
  let '(tree_idx, tree) := it in
  g ← foldM (register_package tree tree_idx) g (packages tree);
  Done {| scope_packages := scope_packages g;
          scope_property_sets :=
            foldl (λ m ps, <[ci (ps_name ps) := property_set_info ps]> m)
              (scope_property_sets g) (property_sets tree);
          trees := trees g; scope_diagnostics := scope_diagnostics g |}.

(** crates/spar-hir-def/src/resolver.rs:264-275 [GlobalScope::from_trees]: a
    predeclared set, unless the model has one of that name. *)
Definition register_standard_set (m : gmap CiName PropertySetInfo) (set_name : string)
  : gmap CiName PropertySetInfo :=
  match m !! to_ascii_lowercase set_name with
  | Some _ => m
  | None => <[to_ascii_lowercase set_name :=
      {| psi_name := set_name; property_names := standard_properties_in_set set_name;
         constant_names := [] |}]> m
  end.

(** crates/spar-hir-def/src/resolver.rs:169-278 [GlobalScope::from_trees] *)
Definition from_trees (ts : list ItemTree) : Exec GlobalScope :=
  g ← foldM register_tree
        {| scope_packages := ∅; scope_property_sets := ∅; trees := []; scope_diagnostics := [] |}
        (imap pair ts);
  Done {| scope_packages := scope_packages g;
          scope_property_sets := foldl register_standard_set (scope_property_sets g)
                                   STANDARD_PROPERTY_SET_NAMES;
          trees := ts; scope_diagnostics := scope_diagnostics g |}.

(** ** Looking items up *)
Section scope.
Context (g : GlobalScope).

(** crates/spar-hir-def/src/resolver.rs:363-368 [GlobalScope::get_component_impl] *)
Definition get_component_impl (loc : ItemLoc) : Exec (option ComponentImplItem) :=
  match trees g !! loc_tree loc with
  | Some tree => c ← arena_get (component_impls tree) (loc_raw_idx loc); Done (Some c)
  | None => Done None
  end.

(** crates/spar-hir-def/src/resolver.rs:371-376 [GlobalScope::get_component_type] *)
Definition get_component_type (loc : ItemLoc) : Exec (option ComponentTypeItem) :=
  match trees g !! loc_tree loc with
  | Some tree => c ← arena_get (component_types tree) (loc_raw_idx loc); Done (Some c)
  | None => Done None
  end.

(** crates/spar-hir-def/src/resolver.rs:379-384 [GlobalScope::get_feature_group_type] *)
Definition get_feature_group_type (loc : ItemLoc) : Exec (option FeatureGroupTypeItem) :=
  match trees g !! loc_tree loc with
  | Some tree => c ← arena_get (feature_group_types tree) (loc_raw_idx loc); Done (Some c)
  | None => Done None
  end.

(** crates/spar-hir-def/src/resolver.rs:387-390 [GlobalScope::get_feature] *)
Definition get_feature (tree_idx : nat) (feat_idx : ItemIdx) : Exec (option Feature) :=
  match trees g !! tree_idx with
  | Some tree => f ← arena_get (tree_features tree) feat_idx; Done (Some f)
  | None => Done None
  end.

(** ** Classifiers *)

(** [Some] of what a visible declaration resolves to, with its owner. *)
Definition visible (private is_same_package : bool) (r : ResolvedClassifier) : option ResolvedClassifier :=
  if negb is_same_package && private then None else Some r.

(** crates/spar-hir-def/src/resolver.rs:722-772 [GlobalScope::resolve_in_package] *)
Definition resolve_in_package (pkg_key : CiName) (reference : ClassifierRef) (is_same_package : bool)
  : option ResolvedClassifier :=
  s ← scope_packages g !! pkg_key;
  match impl_name reference with
  | Some impl =>
      let key := (ci (type_name reference), ci impl) in
      match scope_impls s !! key with
      | Some loc => visible (bool_decide (key ∈ private_impls s)) is_same_package
                      (ResolvedImpl (scope_name s) loc)
      | None => None
      end
  | None =>
      let key := ci (type_name reference) in
      match scope_types s !! key with
      | Some loc => visible (bool_decide (key ∈ private_types s)) is_same_package
                      (ResolvedType (scope_name s) loc)
      | None =>
          match scope_fgts s !! key with
          | Some loc => visible (bool_decide (key ∈ private_fgts s)) is_same_package
                          (ResolvedFeatureGroup (scope_name s) loc)
          | None => None
          end
      end
  end.

(** crates/spar-hir-def/src/resolver.rs:586-605 [GlobalScope::resolve_classifier]: the
    package a reference names and whether it is the one it is read in. *)
Definition target_package (from_package : Name) (reference : ClassifierRef) : CiName * bool :=
  let from_key := ci from_package in
  match package reference with
  | Some pkg_name =>
      let key :=
        match scope_packages g !! from_key ≫= λ s, package_renames s !! ci pkg_name with
        | Some original => ci original
        | None => ci pkg_name
        end in
      (key, bool_decide (key = from_key))
  | None => (from_key, true)
  end.

(** crates/spar-hir-def/src/resolver.rs:620-650 [GlobalScope::resolve_classifier]: the
    qualified reference an alias of the package stands for. *)
Definition renamed_reference (from_package : Name) (reference : ClassifierRef) : option ClassifierRef :=
  match package reference with
  | Some _ => None
  | None =>
      s ← scope_packages g !! ci from_package;
      let key := ci (type_name reference) in
      match classifier_renames s !! key with
      | Some (orig_pkg, orig_type) =>
          Some {| package := Some orig_pkg; type_name := orig_type; impl_name := impl_name reference |}
      | None =>
          match impl_name reference with
          | None =>
              '(orig_pkg, orig_fgt) ← feature_group_renames s !! key;
              Some {| package := Some orig_pkg; type_name := orig_fgt; impl_name := None |}
          | Some _ => None
          end
      end
  end.

Fixpoint first_some {A B} (f : A → option B) (xs : list A) : option B :=
  match xs with [] => None | x :: xs => match f x with Some b => Some b | None => first_some f xs end end.

(** crates/spar-hir-def/src/resolver.rs:581-666 [GlobalScope::resolve_classifier]: the
    fuel is the depth of the recursion. *)
Fixpoint resolve_classifier_to (depth : nat) (from_package : Name) (reference : ClassifierRef)
  : Exec ResolvedClassifier :=
  match depth with
  | O => Stuck
  | S depth =>
      let '(target_pkg, is_same_package) := target_package from_package reference in
      match resolve_in_package target_pkg reference is_same_package with
      | Some result => Done result
      | None =>
          match renamed_reference from_package reference with
          | Some aliased_ref => resolve_classifier_to depth from_package aliased_ref
          | None =>
              match package reference, scope_packages g !! ci from_package with
              | None, Some s =>
                  Done (default Unresolved
                    (first_some (λ import, resolve_in_package (ci import) reference false) (imports s)))
              | _, _ => Done Unresolved
              end
          end
      end
  end.

(** crates/spar-hir-def/src/resolver.rs:581-666 [GlobalScope::resolve_classifier] *)
Definition resolve_classifier (from_package : Name) (reference : ClassifierRef) : Exec ResolvedClassifier :=
  resolve_classifier_to 2 from_package reference.

(** crates/spar-hir-def/src/resolver.rs:673-720 [GlobalScope::resolve_classifier_with_diagnostics] *)
Definition resolve_classifier_with_diagnostics (from_package : Name) (reference : ClassifierRef)
  : Exec (ResolvedClassifier * list string) :=
  result ← resolve_classifier from_package reference;
  let quiet := Done (result, []) in
  match package reference, result with
  | Some _, _ | _, Unresolved => quiet
  | None, _ =>
      if is_some (resolve_in_package (ci from_package) reference true) then quiet
      else
        match scope_packages g !! ci from_package with
        | None => quiet
        | Some s =>
            let candidates := List.filter
              (λ import, is_some (resolve_in_package (ci import) reference false)) (imports s) in
            match candidates with
            | first :: _ :: _ =>
                Done (result, [("ambiguous classifier reference '" +:+ type_name reference
                  +:+ "': matches found in packages " +:+ str_join ", " candidates
                  +:+ "; using first match from '" +:+ first +:+ "'")])
            | _ => quiet
            end
        end
  end.

(** crates/spar-hir-def/src/resolver.rs:775-795 [GlobalScope::is_private_classifier] *)
Definition is_private_classifier (target_package : Name) (reference : ClassifierRef) : bool :=
  match scope_packages g !! ci target_package with
  | None => false
  | Some s =>
      match impl_name reference with
      | Some impl => bool_decide ((ci (type_name reference), ci impl) ∈ private_impls s)
      | None => bool_decide (ci (type_name reference) ∈ private_types s) ||
                bool_decide (ci (type_name reference) ∈ private_fgts s)
      end
  end.

(** crates/spar-hir-def/src/resolver.rs:798-814 [GlobalScope::resolve_package_name] *)
Definition resolve_package_name (from_package pkg_name : Name) : option Name :=
  s ← scope_packages g !! ci from_package;
  match package_renames s !! ci pkg_name with
  | Some original => Some original
  | None => match scope_packages g !! ci pkg_name with Some _ => Some pkg_name | None => None end
  end.

(** ** Properties and listings *)

(** crates/spar-hir-def/src/resolver.rs:817-851 [GlobalScope::resolve_property] *)
Definition resolve_property (property_set_name property_name : Name) : ResolvedProperty :=
  match scope_property_sets g !! ci property_set_name with
  | None => UnresolvedProperty
  | Some info =>
      let matches n := String.eqb (ci n) (ci property_name) in
      match List.find matches (property_names info) with
      | Some n => PropertyDef (psi_name info) n
      | None =>
          match List.find matches (constant_names info) with
          | Some n => PropertyConstant (psi_name info) n
          | None => UnresolvedProperty
          end
      end
  end.

(** crates/spar-hir-def/src/resolver.rs:854-856 [GlobalScope::has_package] *)
Definition has_package (name : Name) : bool := is_some (scope_packages g !! ci name).

(** crates/spar-hir-def/src/resolver.rs:859-861 [GlobalScope::package_names] *)
Definition package_names : list Name := (λ s, scope_name s.2) <$> map_to_list (scope_packages g).

(** crates/spar-hir-def/src/resolver.rs:864-866 [GlobalScope::property_set_names] *)
Definition property_set_names : list Name := (λ s, psi_name s.2) <$> map_to_list (scope_property_sets g).

(** crates/spar-hir-def/src/resolver.rs:872-878 [GlobalScope::property_names_in_set] *)
Definition property_names_in_set (set_name : string) : list Name :=
  match scope_property_sets g !! to_ascii_lowercase set_name with
  | Some info => property_names info
  | None => []
  end.

(** crates/spar-hir-def/src/resolver.rs:881-891 [GlobalScope::all_component_types] *)
Definition all_component_types : Exec (list (Name * Name * ComponentCategory)) :=
  concatM (λ s,
    concatM (λ kl,
      o ← get_component_type kl.2;
      Done (match o with Some ct => [(scope_name s, ct_name ct, ct_category ct)] | None => [] end))
      (map_to_list (scope_types s))) ((map_to_list (scope_packages g)).*2).

(** crates/spar-hir-def/src/resolver.rs:895-907 [GlobalScope::all_component_impls] *)
Definition all_component_impls : Exec (list (Name * Name * Name * ComponentCategory)) :=
  concatM (λ s,
    concatM (λ kl,
      o ← get_component_impl kl.2;
      Done (match o with
            | Some c => [(scope_name s, ci_type_name c, ci_impl_name c, ci_category c)]
            | None => []
            end))
      (map_to_list (scope_impls s))) ((map_to_list (scope_packages g)).*2).

(** crates/spar-hir-def/src/resolver.rs:911-921 [GlobalScope::all_feature_group_types] *)
Definition all_feature_group_types : Exec (list (Name * Name)) :=
  concatM (λ s,
    concatM (λ kl,
      o ← get_feature_group_type kl.2;
      Done (match o with Some f => [(scope_name s, fgt_name f)] | None => [] end))
      (map_to_list (scope_fgts s))) ((map_to_list (scope_packages g)).*2).

(** ** Shapes of data types *)

(** The text after the last ["::"]. *)
Fixpoint after_last (pat s : bytes) : option bytes :=
  match s with
  | [] => None
  | _ :: s' => match after_last pat s' with Some r => Some r | None => str_strip_prefix pat s end
  end.

(** crates/spar-hir-def/src/resolver.rs:552-554 [leaf]: the last segment of a
    qualified literal. *)
Definition leaf (v : string) : string :=
  let bs := list_ascii_of_string v in
  trim (string_of_list_ascii (default bs (after_last (list_ascii_of_string "::") bs))).

(** crates/spar-hir-def/src/resolver.rs:536-549 [GlobalScope::scalar_of]: the
    data type a reference resolves to, with its package and tree. *)
Definition data_type (from_package : Name) (classifier : ClassifierRef)
  : Exec (option (Name * ItemTree * ComponentTypeItem)) :=
  resolved ← resolve_classifier from_package classifier;
  match resolved with
  | ResolvedType package loc =>
      o ← get_component_type loc;
      Done (match o, trees g !! loc_tree loc with
            | Some ct, Some tree => if bool_decide (ct_category ct = Data) then Some (package, tree, ct) else None
            | _, _ => None
            end)
  | _ => Done None
  end.

(** What the representation properties of a data type say. *)
Record Representation := { rp_bytes : option u64; rp_is_float : bool; rp_is_signed : bool }.

(** crates/spar-hir-def/src/resolver.rs:558-569 [GlobalScope::scalar_of]: one
    property association. *)
Definition read_representation (tree : ItemTree) (r : Representation) (idx : ItemIdx) : Exec Representation :=
  pa ← arena_get (property_associations tree) idx;
  let pn := property_name (pa_name pa) in
  if eq_ignore_ascii_case pn "Data_Size" || eq_ignore_ascii_case pn "Source_Data_Size" then
    bits ← parse_size_value (list_ascii_of_string (pa_value pa));
    Done {| rp_bytes := (λ b, b / 8)%N <$> bits; rp_is_float := rp_is_float r; rp_is_signed := rp_is_signed r |}
  else if eq_ignore_ascii_case pn "Data_Representation" then
    Done {| rp_bytes := rp_bytes r; rp_is_float := eq_ignore_ascii_case (leaf (pa_value pa)) "Float";
            rp_is_signed := rp_is_signed r |}
  else if eq_ignore_ascii_case pn "Number_Representation" then
    Done {| rp_bytes := rp_bytes r; rp_is_float := rp_is_float r;
            rp_is_signed := eq_ignore_ascii_case (leaf (pa_value pa)) "Signed" |}
  else Done r.

(** crates/spar-hir-def/src/resolver.rs:535-578 [GlobalScope::scalar_of] *)
Definition scalar_of (from_package : Name) (classifier : ClassifierRef) : Exec (option (u64 * ScalarKind)) :=
  o ← data_type from_package classifier;
  match o with
  | None => Done None
  | Some (_, tree, ct) =>
      r ← foldM (read_representation tree) {| rp_bytes := None; rp_is_float := false; rp_is_signed := false |}
            (ct_property_associations ct);
      let kind := if rp_is_float r then Float else if rp_is_signed r then Signed else Unsigned in
      Done ((λ bytes, (bytes, kind)) <$> rp_bytes r)
  end.

(** crates/spar-hir-def/src/resolver.rs:525-528 [GlobalScope::data_size_bytes] *)
Definition data_size_bytes (from_package : Name) (classifier : ClassifierRef) : Exec (option u64) :=
  o ← scalar_of from_package classifier; Done (fst <$> (o : option (u64 * ScalarKind))).

(** crates/spar-hir-def/src/resolver.rs:462-468 [first_classifier] *)
Fixpoint first_classifier (e : PropertyExpr) : option ClassifierRef :=
  match e with
  | ClassifierValue cr => Some cr
  | List_ items =>
      (fix go items :=
         match items with
         | [] => None
         | e :: items => match first_classifier e with Some c => Some c | None => go items end
         end) items
  | _ => None
  end.

(** crates/spar-hir-def/src/resolver.rs:471-477 [first_int] *)
Fixpoint first_int (e : PropertyExpr) : option Z :=
  match e with
  | Integer n _ => Some n
  | List_ items =>
      (fix go items :=
         match items with
         | [] => None
         | e :: items => match first_int e with Some c => Some c | None => go items end
         end) items
  | _ => None
  end.

(** What the array properties of a data type say. *)
Record ArrayProperties := { ap_is_array : bool; ap_base_type : option ClassifierRef; ap_dim : option u64 }.

(** crates/spar-hir-def/src/resolver.rs:484-502 [GlobalScope::array_of]: one
    property association. *)
Definition read_array (tree : ItemTree) (r : ArrayProperties) (idx : ItemIdx) : Exec ArrayProperties :=
  pa ← arena_get (property_associations tree) idx;
  let pn := property_name (pa_name pa) in
  Done (
    if eq_ignore_ascii_case pn "Data_Representation" then
      {| ap_is_array := match pa_typed_value pa with
                        | Some (Enum n) => eq_ignore_ascii_case n "Array"
                        | _ => eq_ignore_ascii_case (leaf (pa_value pa)) "Array"
                        end;
         ap_base_type := ap_base_type r; ap_dim := ap_dim r |}
    else if eq_ignore_ascii_case pn "Base_Type" then
      {| ap_is_array := ap_is_array r; ap_base_type := pa_typed_value pa ≫= first_classifier; ap_dim := ap_dim r |}
    else if eq_ignore_ascii_case pn "Dimension" then
      {| ap_is_array := ap_is_array r; ap_base_type := ap_base_type r;
         ap_dim := n ← pa_typed_value pa ≫= first_int; if (0 <=? n)%Z then Some (Z.to_N n) else None |}
    else r).

(** crates/spar-hir-def/src/resolver.rs:443-505 [GlobalScope::array_of]: the base
    type of an array, the package it is read in, and the length. *)
Definition array_base (from_package : Name) (classifier : ClassifierRef)
  : Exec (option (Name * ClassifierRef * option u64)) :=
  o ← data_type from_package classifier;
  match o with
  | None => Done None
  | Some (decl_package, tree, ct) =>
      r ← foldM (read_array tree) {| ap_is_array := false; ap_base_type := None; ap_dim := None |}
            (ct_property_associations ct);
      Done (if ap_is_array r then (λ base, (decl_package, base, ap_dim r)) <$> ap_base_type r else None)
  end.

(** crates/spar-hir-def/src/resolver.rs:398-406 [GlobalScope::resolve_data_shape]:
    the subcomponents of a data implementation, and the package they are read in. *)
Definition record_fields (from_package : Name) (classifier : ClassifierRef)
  : Exec (option (Name * ItemTree * list ItemIdx)) :=
  resolved ← resolve_classifier from_package classifier;
  match resolved with
  | ResolvedImpl package loc =>
      o ← get_component_impl loc;
      match o, trees g !! loc_tree loc with
      | Some c, Some tree =>
          Done (if bool_decide (ci_category c = Data) && negb (bool_decide (ci_subcomponents c = []))
                then Some (package, tree, ci_subcomponents c) else None)
      | _, _ => Done None
      end
  | _ => Done None
  end.

(** crates/spar-hir-def/src/resolver.rs:398-434 [GlobalScope::resolve_data_shape]:
    the recursion, through fields and the base types of arrays. *)
Fixpoint resolve_data_shape (fuel : nat) (from_package : Name) (classifier : ClassifierRef) : Exec DataShape :=
  match fuel with
  | O => Stuck
  | S fuel =>
      rec ← record_fields from_package classifier;
      match rec with
      | Some (package, tree, subs) =>
          fields ← mapM (λ sub_idx,
            sub ← arena_get (tree_subcomponents tree) sub_idx;
            shape ← match sub_classifier sub with
                    | Some cref => resolve_data_shape fuel package cref
                    | None => Done OpaqueShape
                    end;
            Done (sub_name sub, shape)) subs;
          Done (RecordShape (classifier_fmt classifier) fields)
      | None =>
          sc ← scalar_of from_package classifier;
          match sc with
          | Some (bytes, kind) => Done (Scalar bytes kind)
          | None =>
              arr ← array_base from_package classifier;
              match arr with
              | None => Done OpaqueShape
              | Some (package, base, dim) =>
                  element ← resolve_data_shape fuel package base;
                  Done (match element with OpaqueShape => OpaqueShape | _ => ArrayShape element dim end)
              end
          end
      end
  end.
End scope.

(** ** What the scope holds, read off the trees *)
#[local] Close Scope string_scope.

(** The last of the values, or the one there was. *)
Definition later {A} (xs : list A) (o : option A) : option A := match last xs with Some x => Some x | None => o end.

Lemma later_cons {A} (x : A) xs o : later (x :: xs) o = later xs (Some x).
Proof. unfold later. rewrite last_cons. by destruct (last xs). Qed.

Lemma later_app {A} (xs ys : list A) o : later (xs ++ ys) o = later ys (later xs o).
Proof. unfold later. rewrite last_app. by destruct (last ys). Qed.

(** The declarations of a name among items. *)
Definition types_named (tree : ItemTree) (key : CiName) (items : list ItemRef) : list ItemIdx :=
  omap (λ item, match item with
    | RComponentType idx => ct ← component_types tree !! idx; if decide (ci (ct_name ct) = key) then Some idx else None
    | _ => None
    end) items.

Definition impls_named (tree : ItemTree) (key : CiName * CiName) (items : list ItemRef) : list ItemIdx :=
  omap (λ item, match item with
    | RComponentImpl idx =>
        c ← component_impls tree !! idx;
        if decide ((ci (ci_type_name c), ci (ci_impl_name c)) = key) then Some idx else None
    | _ => None
    end) items.

Definition fgts_named (tree : ItemTree) (key : CiName) (items : list ItemRef) : list ItemIdx :=
  omap (λ item, match item with
    | RFeatureGroupType idx => f ← feature_group_types tree !! idx; if decide (ci (fgt_name f) = key) then Some idx else None
    | _ => None
    end) items.

(** The aliases of a kind among the renamings of a package. *)
Definition packages_renamed (tree : ItemTree) (key : CiName) (idxs : list ItemIdx) : list Name :=
  omap (λ idx, ri ← renames tree !! idx;
    match rn_kind ri with
    | RenamesPackage => if decide (ci (rn_alias ri) = key) then Some (rn_original ri) else None
    | _ => None
    end) idxs.

Definition classifiers_renamed (tree : ItemTree) (key : CiName) (idxs : list ItemIdx) : list (Name * Name) :=
  omap (λ idx, ri ← renames tree !! idx;
    match rn_kind ri with
    | RenamesClassifier => if decide (ci (rn_alias ri) = key) then split_colons (rn_original ri) else None
    | _ => None
    end) idxs.

Definition fgts_renamed (tree : ItemTree) (key : CiName) (idxs : list ItemIdx) : list (Name * Name) :=
  omap (λ idx, ri ← renames tree !! idx;
    match rn_kind ri with
    | RenamesFeatureGroup => if decide (ci (rn_alias ri) = key) then split_colons (rn_original ri) else None
    | _ => None
    end) idxs.

(** Items and renamings that are in the arenas of their tree. *)
Definition item_ok (tree : ItemTree) (item : ItemRef) : Prop :=
  match item with
  | RComponentType idx => is_Some (component_types tree !! idx)
  | RComponentImpl idx => is_Some (component_impls tree !! idx)
  | RFeatureGroupType idx => is_Some (feature_group_types tree !! idx)
  | RPropertySet idx => is_Some (property_sets tree !! idx)
  | RAnnexLibrary => True
  end.

Definition package_ok (tree : ItemTree) (pkg : Package) : Prop :=
  Forall (item_ok tree) (pkg_public_items pkg) ∧ Forall (item_ok tree) (pkg_private_items pkg) ∧
  Forall (λ idx, is_Some (renames tree !! idx)) (pkg_renames pkg).

Definition tree_ok (tree : ItemTree) : Prop := Forall (package_ok tree) (packages tree).

Definition at_loc (tree_idx : nat) (idx : ItemIdx) : ItemLoc := {| loc_tree := tree_idx; loc_raw_idx := idx |}.

(** What registering items does to a scope. *)
Record registered (tree : ItemTree) (ti : nat) (is_public : bool) (items : list ItemRef)
    (s s' : PackageScope) : Prop := {
  reg_types k : scope_types s' !! k = later (at_loc ti <$> types_named tree k items) (scope_types s !! k);
  reg_impls k : scope_impls s' !! k = later (at_loc ti <$> impls_named tree k items) (scope_impls s !! k);
  reg_fgts k : scope_fgts s' !! k = later (at_loc ti <$> fgts_named tree k items) (scope_fgts s !! k);
  reg_private_types k :
    k ∈ private_types s' ↔ k ∈ private_types s ∨ (is_public = false ∧ types_named tree k items ≠ []);
  reg_private_impls k :
    k ∈ private_impls s' ↔ k ∈ private_impls s ∨ (is_public = false ∧ impls_named tree k items ≠ []);
  reg_private_fgts k :
    k ∈ private_fgts s' ↔ k ∈ private_fgts s ∨ (is_public = false ∧ fgts_named tree k items ≠ []);
  reg_name : scope_name s' = scope_name s;
  reg_imports : imports s' = imports s;
  reg_renames : package_renames s' = package_renames s ∧ classifier_renames s' = classifier_renames s ∧
    feature_group_renames s' = feature_group_renames s;
}.

Lemma registered_nil tree ti p s : registered tree ti p [] s s.
Proof. split; try done; intros k; cbn; tauto. Qed.

Lemma app_not_nil {A} (xs ys : list A) : xs ++ ys ≠ [] ↔ xs ≠ [] ∨ ys ≠ [].
Proof. destruct xs; simpl; naive_solver. Qed.

(** One more item in front: every table sees it first. *)
Lemma registered_cons tree ti p item items s s1 s' :
  registered tree ti p [item] s s1 → registered tree ti p items s1 s' →
  registered tree ti p (item :: items) s s'.
Proof.
  intros [T1 I1 F1 PT1 PI1 PF1 N1 M1 R1] [T2 I2 F2 PT2 PI2 PF2 N2 M2 R2].
  assert (Ht : ∀ k, types_named tree k (item :: items) = types_named tree k [item] ++ types_named tree k items)
    by (intros k; apply (omap_app _ [item])).
  assert (Hi : ∀ k, impls_named tree k (item :: items) = impls_named tree k [item] ++ impls_named tree k items)
    by (intros k; apply (omap_app _ [item])).
  assert (Hf : ∀ k, fgts_named tree k (item :: items) = fgts_named tree k [item] ++ fgts_named tree k items)
    by (intros k; apply (omap_app _ [item])).
  split.
  - intros k. by rewrite T2, T1, Ht, fmap_app, later_app.
  - intros k. by rewrite I2, I1, Hi, fmap_app, later_app.
  - intros k. by rewrite F2, F1, Hf, fmap_app, later_app.
  - intros k. rewrite PT2, PT1, Ht, app_not_nil. tauto.
  - intros k. rewrite PI2, PI1, Hi, app_not_nil. tauto.
  - intros k. rewrite PF2, PF1, Hf, app_not_nil. tauto.
  - congruence.
  - congruence.
  - destruct R1 as (<- & <- & <-). done.
Qed.

Ltac solve_registered :=
  split; try done; intros k; cbn;
  repeat match goal with
  | H : ?o = Some _ |- context [?o] => rewrite H; cbn
  | |- context [decide (?a = ?b)] => destruct (decide (a = b)) as [<-|]; cbn
  end;
  rewrite ?lookup_insert_eq, ?lookup_insert_ne by done; try done.

Lemma register_item_spec tree ti p s sets item :
  item_ok tree item →
  ∃ s' sets', register_item tree ti p (s, sets) item = Done (s', sets') ∧ registered tree ti p [item] s s'.
Proof.
  unfold register_item, arena_get. destruct item as [idx|idx|idx|idx|]; cbn beta iota; cbn [item_ok].
  - intros [ct E]. rewrite E. eexists _, _. split; [done|]. destruct p; solve_registered; set_solver.
  - intros [c E]. rewrite E. eexists _, _. split; [done|]. destruct p; solve_registered; set_solver.
  - intros [f E]. rewrite E. eexists _, _. split; [done|]. destruct p; solve_registered; set_solver.
  - intros [ps E]. rewrite E. eexists _, _. split; [done|]. solve_registered; tauto.
  - intros _. eexists _, _. split; [done|]. solve_registered; tauto.
Qed.

Lemma register_items_spec tree ti p s sets items :
  Forall (item_ok tree) items →
  ∃ s' sets', register_items tree ti p (s, sets) items = Done (s', sets') ∧ registered tree ti p items s s'.
Proof.
  intros H. revert s sets. induction H as [|item items Hi _ IH]; intros s sets; unfold register_items in *.
  { exists s, sets. split; [done|apply registered_nil]. }
  destruct (register_item_spec tree ti p s sets item Hi) as (s1 & sets1 & E & H1).
  destruct (IH s1 sets1) as (s' & sets' & E' & H2). exists s', sets'. cbn [foldM]. rewrite E. cbn [mbind Exec_bind].
  split; [done|]. by eapply registered_cons.
Qed.

(** What the renamings of a package do to its scope. *)
Record renamed (tree : ItemTree) (idxs : list ItemIdx) (s s' : PackageScope) : Prop := {
  ren_packages k : package_renames s' !! k = later (packages_renamed tree k idxs) (package_renames s !! k);
  ren_classifiers k : classifier_renames s' !! k = later (classifiers_renamed tree k idxs) (classifier_renames s !! k);
  ren_fgts k : feature_group_renames s' !! k = later (fgts_renamed tree k idxs) (feature_group_renames s !! k);
  ren_tables : scope_types s' = scope_types s ∧ scope_impls s' = scope_impls s ∧ scope_fgts s' = scope_fgts s;
  ren_private : private_types s' = private_types s ∧ private_impls s' = private_impls s ∧
    private_fgts s' = private_fgts s;
  ren_names : scope_name s' = scope_name s ∧ imports s' = imports s;
}.

Lemma renamed_cons tree idx idxs s s1 s' :
  renamed tree [idx] s s1 → renamed tree idxs s1 s' → renamed tree (idx :: idxs) s s'.
Proof.
  intros [P1 C1 F1 T1 V1 N1] [P2 C2 F2 T2 V2 N2]. split.
  - intros k. rewrite P2, P1, <- later_app. f_equal. symmetry. apply (omap_app _ [idx]).
  - intros k. rewrite C2, C1, <- later_app. f_equal. symmetry. apply (omap_app _ [idx]).
  - intros k. rewrite F2, F1, <- later_app. f_equal. symmetry. apply (omap_app _ [idx]).
  - destruct T1 as (<- & <- & <-). done.
  - destruct V1 as (<- & <- & <-). done.
  - destruct N1 as (<- & <-). done.
Qed.

Lemma register_rename_spec tree s idx :
  is_Some (renames tree !! idx) → ∃ s', register_rename tree s idx = Done s' ∧ renamed tree [idx] s s'.
Proof.
  intros [ri E]. unfold register_rename, arena_get. rewrite E. cbn [mbind Exec_bind]. eexists. split; [done|].
  destruct (rn_kind ri) eqn:Ek; [|destruct (split_colons (rn_original ri)) eqn:Es..];
    (split; try done; intros k; cbn; rewrite E; cbn; rewrite Ek, ?Es; try done;
     destruct (decide (ci (rn_alias ri) = k)) as [<-|]; cbn;
     rewrite ?lookup_insert_eq, ?lookup_insert_ne by done; done).
Qed.

Lemma register_renames_spec tree s idxs :
  Forall (λ idx, is_Some (renames tree !! idx)) idxs →
  ∃ s', foldM (register_rename tree) s idxs = Done s' ∧ renamed tree idxs s s'.
Proof.
  intros H. revert s. induction H as [|idx idxs Hi _ IH]; intros s.
  { exists s. split; [done|]. by split. }
  destruct (register_rename_spec tree s idx Hi) as (s1 & E & H1). destruct (IH s1) as (s' & E' & H2).
  exists s'. cbn [foldM]. rewrite E. split; [done|]. by eapply renamed_cons.
Qed.

(** The scope of a package, as its declarations say. *)
Record scope_of (ti : nat) (tree : ItemTree) (pkg : Package) (s : PackageScope) : Prop := {
  so_types k : scope_types s !! k = at_loc ti <$> last (types_named tree k (pkg_public_items pkg ++ pkg_private_items pkg));
  so_impls k : scope_impls s !! k = at_loc ti <$> last (impls_named tree k (pkg_public_items pkg ++ pkg_private_items pkg));
  so_fgts k : scope_fgts s !! k = at_loc ti <$> last (fgts_named tree k (pkg_public_items pkg ++ pkg_private_items pkg));
  so_private_types k : k ∈ private_types s ↔ types_named tree k (pkg_private_items pkg) ≠ [];
  so_private_impls k : k ∈ private_impls s ↔ impls_named tree k (pkg_private_items pkg) ≠ [];
  so_private_fgts k : k ∈ private_fgts s ↔ fgts_named tree k (pkg_private_items pkg) ≠ [];
  so_packages k : package_renames s !! k = last (packages_renamed tree k (pkg_renames pkg));
  so_classifiers k : classifier_renames s !! k = last (classifiers_renamed tree k (pkg_renames pkg));
  so_renamed_fgts k : feature_group_renames s !! k = last (fgts_renamed tree k (pkg_renames pkg));
  so_name : scope_name s = pkg_name pkg;
  so_imports : imports s = pkg_with_clauses pkg;
}.

Lemma later_None {A} (xs : list A) : later xs None = last xs.
Proof. unfold later. by destruct (last xs). Qed.

Lemma register_package_spec ti tree g pkg :
  package_ok tree pkg →
  ∃ g' s, register_package tree ti g pkg = Done g' ∧ scope_of ti tree pkg s ∧
    scope_packages g' = <[ci (pkg_name pkg) := s]> (scope_packages g).
Proof.
  intros (Hpub & Hpriv & Hren). unfold register_package.
  destruct (register_items_spec tree ti true (empty_scope (pkg_name pkg) (pkg_with_clauses pkg))
    (scope_property_sets g) _ Hpub) as (s1 & sets1 & -> & [T1 I1 F1 PT1 PI1 PF1 N1 M1 R1]). cbn [mbind Exec_bind].
  destruct (register_items_spec tree ti false s1 sets1 _ Hpriv)
    as (s2 & sets2 & -> & [T2 I2 F2 PT2 PI2 PF2 N2 M2 R2]). cbn [mbind Exec_bind].
  destruct (register_renames_spec tree s2 _ Hren) as (s3 & -> & [P3 C3 F3 T3 V3 N3]). cbn [mbind Exec_bind].
  eexists _, s3. split; [done|]. split; [|done].
  destruct R1 as (R1a & R1b & R1c), R2 as (R2a & R2b & R2c), T3 as (T3a & T3b & T3c),
    V3 as (V3a & V3b & V3c), N3 as (N3a & N3b).
  split.
  - intros k. rewrite T3a, T2, T1. cbn. unfold types_named. by rewrite lookup_empty, omap_app, <- later_app, later_None, <- fmap_app, fmap_last.
  - intros k. rewrite T3b, I2, I1. cbn. unfold impls_named. by rewrite lookup_empty, omap_app, <- later_app, later_None, <- fmap_app, fmap_last.
  - intros k. rewrite T3c, F2, F1. cbn. unfold fgts_named. by rewrite lookup_empty, omap_app, <- later_app, later_None, <- fmap_app, fmap_last.
  - intros k. rewrite V3a, PT2, PT1. cbn. set_solver.
  - intros k. rewrite V3b, PI2, PI1. cbn. set_solver.
  - intros k. rewrite V3c, PF2, PF1. cbn. set_solver.
  - intros k. rewrite P3, R2a, R1a. cbn. by rewrite lookup_empty, later_None.
  - intros k. rewrite C3, R2b, R1b. cbn. by rewrite lookup_empty, later_None.
  - intros k. rewrite F3, R2c, R1c. cbn. by rewrite lookup_empty, later_None.
  - by rewrite N3a, N2, N1.
  - by rewrite N3b, M2, M1.
Qed.

(** The packages of a name in the trees, with the index of their tree. *)
Definition packages_of (key : CiName) (it : nat * ItemTree) : list (nat * ItemTree * Package) :=
  (λ pkg, (it.1, it.2, pkg)) <$> List.filter (λ pkg, String.eqb (ci (pkg_name pkg)) key) (packages it.2).

Definition packages_named (key : CiName) (its : list (nat * ItemTree)) : list (nat * ItemTree * Package) :=
  concat (packages_of key <$> its).

(** A scope holds, under each key, what the last package of that name says. *)
Definition holds (found : option (nat * ItemTree * Package)) (o : option PackageScope) : Prop :=
  match found, o with
  | Some (ti, tree, pkg), Some s => scope_of ti tree pkg s
  | None, None => True
  | _, _ => False
  end.

Lemma register_packages_spec ti tree pkgs g :
  Forall (package_ok tree) pkgs →
  ∃ g', foldM (register_package tree ti) g pkgs = Done g' ∧
    ∀ key found, holds found (scope_packages g !! key) →
      holds (later ((λ pkg, (ti, tree, pkg)) <$> List.filter (λ pkg, String.eqb (ci (pkg_name pkg)) key) pkgs) found)
        (scope_packages g' !! key).
Proof.
  intros H. revert g. induction H as [|pkg pkgs Hp _ IH]; intros g; [by exists g|].
  destruct (register_package_spec ti tree g pkg Hp) as (g1 & s & E & Hs & Hg1).
  destruct (IH g1) as (g' & E' & Hg'). exists g'. cbn [foldM]. rewrite E. split; [done|].
  intros key found Hf. simpl. destruct (String.eqb_spec (ci (pkg_name pkg)) key) as [<-|Hne]; simpl.
  - rewrite later_cons. apply Hg'. by rewrite Hg1, lookup_insert_eq.
  - apply Hg'. by rewrite Hg1, lookup_insert_ne.
Qed.

Lemma register_trees_spec its g :
  Forall (λ it, tree_ok it.2) its →
  ∃ g', foldM register_tree g its = Done g' ∧
    ∀ key found, holds found (scope_packages g !! key) →
      holds (later (packages_named key its) found) (scope_packages g' !! key).
Proof.
  intros H. revert g. induction H as [|[ti tree] its Ht _ IH]; intros g; [by exists g|].
  destruct (register_packages_spec ti tree (packages tree) g Ht) as (g1 & E & Hg1).
  cbn [foldM register_tree]. rewrite E. cbn [mbind Exec_bind].
  edestruct IH as (g' & -> & Hg'). exists g'. split; [done|]. intros key found Hf.
  unfold packages_named. cbn [fmap list_fmap concat]. rewrite later_app. apply Hg'. by apply Hg1.
Qed.

(** The package a name stands for in the model: the last one so named. *)
Definition the_package (ts : list ItemTree) (key : CiName) : option (nat * ItemTree * Package) :=
  last (packages_named key (imap pair ts)).

Lemma from_trees_spec ts :
  Forall tree_ok ts →
  ∃ g, from_trees ts = Done g ∧ trees g = ts ∧ ∀ key, holds (the_package ts key) (scope_packages g !! key).
Proof.
  intros H. unfold from_trees, the_package.
  destruct (register_trees_spec (imap pair ts)
    {| scope_packages := ∅; scope_property_sets := ∅; trees := []; scope_diagnostics := [] |}) as (g & -> & Hg).
  { apply Forall_lookup_2. intros i it Hi. rewrite list_lookup_imap in Hi.
    apply fmap_Some in Hi as (tree & Ht & ->). by eapply Forall_lookup_1 in H. }
  eexists. split; [done|]. split; [done|]. intros key. cbn [scope_packages].
  rewrite <- later_None. apply Hg. cbn [scope_packages]. by rewrite lookup_empty.
Qed.

(** ** Resolution, read off the trees *)

(** What a declaration of a package resolves to: the last one of the name,
    hidden from other packages when one of that name is private. *)
Definition declared (ti : nat) (all private : list ItemIdx) (is_same_package : bool)
    (r : ItemLoc → ResolvedClassifier) : option (option ResolvedClassifier) :=
  match last all with
  | Some idx => Some (if negb is_same_package && negb (bool_decide (private = [])) then None else Some (r (at_loc ti idx)))
  | None => None
  end.

(** Implementations have names of their own; a type hides a feature group
    type of the same name, even where the type itself is not visible. *)
Definition declaration (found : option (nat * ItemTree * Package)) (reference : ClassifierRef)
    (is_same_package : bool) : option ResolvedClassifier :=
  '(ti, tree, pkg) ← found;
  let items := pkg_public_items pkg ++ pkg_private_items pkg in
  match impl_name reference with
  | Some impl =>
      let key := (ci (type_name reference), ci impl) in
      default None (declared ti (impls_named tree key items) (impls_named tree key (pkg_private_items pkg))
        is_same_package (ResolvedImpl (pkg_name pkg)))
  | None =>
      let key := ci (type_name reference) in
      match declared ti (types_named tree key items) (types_named tree key (pkg_private_items pkg))
              is_same_package (ResolvedType (pkg_name pkg)) with
      | Some r => r
      | None => default None (declared ti (fgts_named tree key items) (fgts_named tree key (pkg_private_items pkg))
                  is_same_package (ResolvedFeatureGroup (pkg_name pkg)))
      end
  end.

(** The references a reference is tried as, each with the package it is looked
    up in and whether that is the package it is written in. *)
Definition own_attempt (ts : list ItemTree) (from : Name) (reference : ClassifierRef) : CiName * bool :=
  match package reference with
  | Some pkg_name =>
      let original := '(_, tree, pkg) ← the_package ts (ci from);
                      last (packages_renamed tree (ci pkg_name) (pkg_renames pkg)) in
      let key := ci (default pkg_name original) in (key, bool_decide (key = ci from))
  | None => (ci from, true)
  end.

Definition alias (ts : list ItemTree) (from : Name) (reference : ClassifierRef) : option ClassifierRef :=
  '(_, tree, pkg) ← the_package ts (ci from);
  let key := ci (type_name reference) in
  let to o := {| package := Some o.1; type_name := o.2; impl_name := impl_name reference |} in
  match package reference, impl_name reference with
  | Some _, _ => None
  | None, Some _ => to <$> last (classifiers_renamed tree key (pkg_renames pkg))
  | None, None =>
      to <$> match last (classifiers_renamed tree key (pkg_renames pkg)) with
             | Some o => Some o
             | None => last (fgts_renamed tree key (pkg_renames pkg))
             end
  end.

Definition imported (ts : list ItemTree) (from : Name) (reference : ClassifierRef) : option ResolvedClassifier :=
  match package reference with
  | Some _ => None
  | None =>
      '(_, _, pkg) ← the_package ts (ci from);
      first_some (λ import, declaration (the_package ts (ci import)) reference false) (pkg_with_clauses pkg)
  end.

Definition own (ts : list ItemTree) (from : Name) (reference : ClassifierRef) : option ResolvedClassifier :=
  let '(key, same) := own_attempt ts from reference in declaration (the_package ts key) reference same.

(** The package named or the own package first; otherwise what an alias stands
    for, and only without an alias the imported packages, in order. *)
Definition resolution (ts : list ItemTree) (from : Name) (reference : ClassifierRef) : ResolvedClassifier :=
  match own ts from reference with
  | Some r => r
  | None =>
      match alias ts from reference with
      | Some aliased => default Unresolved (own ts from aliased)
      | None => default Unresolved (imported ts from reference)
      end
  end.

Lemma visible_declared (o : option ItemLoc) ti all private b same r :
  o = at_loc ti <$> last all → (b = true ↔ private ≠ []) →
  (loc ← o; Some (visible b same (r loc))) = declared ti all private same r.
Proof.
  intros -> Hb. unfold declared, visible. destruct (last all); [|done]. cbn. do 2 f_equal. destruct same; [done|].
  cbn. destruct b; case_bool_decide as E; cbn; try done; exfalso; naive_solver.
Qed.

Section exact.
Context (ts : list ItemTree) (g : GlobalScope).
Hypothesis Hg : ∀ key, holds (the_package ts key) (scope_packages g !! key).

Lemma scope_cases key :
  (the_package ts key = None ∧ scope_packages g !! key = None) ∨
  ∃ ti tree pkg s, the_package ts key = Some (ti, tree, pkg) ∧ scope_packages g !! key = Some s ∧
    scope_of ti tree pkg s.
Proof.
  specialize (Hg key). destruct (the_package ts key) as [[[ti tree] pkg]|], (scope_packages g !! key) as [s|];
    try done; [right; by exists ti, tree, pkg, s|by left].
Qed.

Lemma resolve_in_package_exact key reference same :
  resolve_in_package g key reference same = declaration (the_package ts key) reference same.
Proof.
  unfold resolve_in_package, declaration.
  destruct (scope_cases key) as [[-> ->]|(ti & tree & pkg & s & -> & -> & Hs)]; [done|]. cbn [mbind option_bind].
  rewrite <- (so_name _ _ _ _ Hs). destruct (impl_name reference) as [impl|].
  - rewrite <- (visible_declared (scope_impls s !! (ci (type_name reference), ci impl)) ti _ _
      (bool_decide ((ci (type_name reference), ci impl) ∈ private_impls s)) same _ (so_impls _ _ _ _ Hs _));
      [by destruct (scope_impls s !! _)|]. rewrite bool_decide_eq_true. apply Hs.
  - rewrite <- (visible_declared (scope_types s !! ci (type_name reference)) ti _ _
      (bool_decide (ci (type_name reference) ∈ private_types s)) same _ (so_types _ _ _ _ Hs _))
      by (rewrite bool_decide_eq_true; apply Hs).
    rewrite <- (visible_declared (scope_fgts s !! ci (type_name reference)) ti _ _
      (bool_decide (ci (type_name reference) ∈ private_fgts s)) same _ (so_fgts _ _ _ _ Hs _))
      by (rewrite bool_decide_eq_true; apply Hs).
    destruct (scope_types s !! _); [done|]. by destruct (scope_fgts s !! _).
Qed.

Lemma target_package_exact from reference : target_package g from reference = own_attempt ts from reference.
Proof.
  unfold target_package, own_attempt. destruct (package reference) as [pkg_name|]; [|done].
  destruct (scope_cases (ci from)) as [[-> ->]|(ti & tree & pkg & s & -> & -> & Hs)]; [done|]. cbn.
  rewrite (so_packages _ _ _ _ Hs). by destruct (last _).
Qed.

Lemma own_exact from reference :
  (let '(k, same) := target_package g from reference in resolve_in_package g k reference same) = own ts from reference.
Proof. rewrite target_package_exact. unfold own. destruct (own_attempt _ _ _). apply resolve_in_package_exact. Qed.

Lemma alias_exact from reference : renamed_reference g from reference = alias ts from reference.
Proof.
  unfold renamed_reference, alias.
  destruct (scope_cases (ci from)) as [[-> ->]|(ti & tree & pkg & s & -> & -> & Hs)];
    [by destruct (package reference)|]. cbn [mbind option_bind].
  rewrite (so_classifiers _ _ _ _ Hs), (so_renamed_fgts _ _ _ _ Hs). destruct (package reference); [done|].
  destruct (last (classifiers_renamed _ _ _)) as [[? ?]|], (impl_name reference); try done.
  by destruct (last (fgts_renamed _ _ _)) as [[? ?]|].
Qed.

Lemma first_some_ext {A B} (f h : A → option B) xs : (∀ x, f x = h x) → first_some f xs = first_some h xs.
Proof. intros H. induction xs as [|x xs IH]; simpl; [done|]. by rewrite H, IH. Qed.

Lemma alias_qualified from reference aliased :
  alias ts from reference = Some aliased → is_Some (package aliased).
Proof.
  unfold alias. destruct (the_package ts (ci from)) as [[[ti tree] pkg]|]; [|done]. cbn.
  destruct (package reference), (impl_name reference); try done;
    intros (o & _ & ->)%fmap_Some; by eexists.
Qed.

Lemma resolve_step depth from reference :
  resolve_classifier_to g (S depth) from reference =
  match own ts from reference with
  | Some r => Done r
  | None =>
      match alias ts from reference with
      | Some aliased => resolve_classifier_to g depth from aliased
      | None => Done (default Unresolved (imported ts from reference))
      end
  end.
Proof.
  cbn [resolve_classifier_to]. rewrite <- own_exact, <- alias_exact.
  destruct (target_package g from reference) as [k same].
  destruct (resolve_in_package g k reference same); [done|].
  destruct (renamed_reference g from reference); [done|]. unfold imported.
  destruct (package reference); [done|].
  destruct (scope_cases (ci from)) as [[-> ->]|(ti & tree & pkg & s & -> & -> & Hs)]; [done|]. cbn.
  rewrite (so_imports _ _ _ _ Hs). do 2 f_equal. apply first_some_ext. intros import. apply resolve_in_package_exact.
Qed.

Lemma alias_unqualified from reference : is_Some (package reference) → alias ts from reference = None.
Proof. intros [p Hp]. unfold alias. rewrite Hp. by destruct (the_package ts (ci from)) as [[[? ?] ?]|]. Qed.

Lemma resolve_resolution from reference :
  resolve_classifier g from reference = Done (resolution ts from reference).
Proof.
  unfold resolve_classifier, resolution. rewrite resolve_step. destruct (own ts from reference); [done|].
  destruct (alias ts from reference) as [aliased|] eqn:Ea; [|done]. apply alias_qualified in Ea.
  rewrite resolve_step, (alias_unqualified from aliased Ea). destruct (own ts from aliased); [done|].
  unfold imported. by destruct Ea as [p ->].
Qed.
End exact.

(** C8: name resolution is what the declarations say.  For item trees whose
    indices are in range the scope can be built, and a classifier resolves as
    [resolution] reads it off the trees: to the last declaration of the name
    in the last package of the name (renamed packages followed), unless one
    is private and the reference comes from elsewhere; failing that to what
    the last alias of that name stands for; and only when there is no alias,
    to the first imported package that declares it visibly.  Resolution
    always ends. *)
Theorem resolve_classifier_exact ts :
  Forall tree_ok ts →
  ∃ g, from_trees ts = Done g ∧
    ∀ from reference, resolve_classifier g from reference = Done (resolution ts from reference).
Proof.
  intros H. destruct (from_trees_spec ts H) as (g & Hg & _ & Hh). exists g. split; [done|].
  intros from reference. by apply resolve_resolution.
Qed.

(** ** What a reference resolves to is visible *)

Definition item_of (r : ResolvedClassifier) : option (Name * ItemLoc * ItemRef) :=
  match r with
  | ResolvedType p loc => Some (p, loc, RComponentType (loc_raw_idx loc))
  | ResolvedImpl p loc => Some (p, loc, RComponentImpl (loc_raw_idx loc))
  | ResolvedFeatureGroup p loc => Some (p, loc, RFeatureGroupType (loc_raw_idx loc))
  | Unresolved => None
  end.

(** The item has the name a reference gives, in any case. *)
Definition names_item (tree : ItemTree) (item : ItemRef) (reference : ClassifierRef) : Prop :=
  match item with
  | RComponentType idx => impl_name reference = None ∧
      ∃ ct, component_types tree !! idx = Some ct ∧ eq_ci (ct_name ct) (type_name reference) = true
  | RComponentImpl idx => ∃ impl c, impl_name reference = Some impl ∧ component_impls tree !! idx = Some c ∧
      eq_ci (ci_type_name c) (type_name reference) = true ∧ eq_ci (ci_impl_name c) impl = true
  | RFeatureGroupType idx => impl_name reference = None ∧
      ∃ f, feature_group_types tree !! idx = Some f ∧ eq_ci (fgt_name f) (type_name reference) = true
  | _ => False
  end.

Definition visible_item (from p : Name) (pkg : Package) (item : ItemRef) : Prop :=
  item ∈ pkg_public_items pkg ∨ (item ∈ pkg_private_items pkg ∧ eq_ci p from = true).

Lemma the_package_sound ts key ti tree pkg :
  the_package ts key = Some (ti, tree, pkg) →
  ts !! ti = Some tree ∧ pkg ∈ packages tree ∧ ci (pkg_name pkg) = key.
Proof.
  unfold the_package, packages_named. intros H%last_Some_elem_of.
  apply list_elem_of_In, in_concat in H as (xs & Hxs & Hin).
  apply list_elem_of_In, list_elem_of_fmap in Hxs as ([ti' tree'] & -> & Hit).
  apply list_elem_of_In in Hin. unfold packages_of in Hin.
  apply list_elem_of_fmap in Hin as (pkg' & [= -> -> ->] & Hp).
  apply list_elem_of_In, filter_In in Hp as [Hp Hk%String.eqb_eq]. apply list_elem_of_In in Hp.
  apply list_elem_of_lookup in Hit as [j Hj]. rewrite list_lookup_imap in Hj.
  apply fmap_Some in Hj as (tree'' & Hj & [= <- <-]). done.
Qed.

Lemma declared_sound ti public private same r (f : ItemLoc → ResolvedClassifier) :
  declared ti (public ++ private) private same f = Some (Some r) →
  ∃ idx, r = f (at_loc ti idx) ∧ (idx ∈ public ∨ (idx ∈ private ∧ same = true)).
Proof.
  unfold declared. destruct (last (public ++ private)) as [idx|] eqn:E; [|done].
  apply last_Some_elem_of in E. destruct same; cbn.
  - intros [= <-]. exists idx. split; [done|]. apply elem_of_app in E as [?|?]; auto.
  - case_bool_decide as Ep; cbn; [|done]. intros [= <-]. exists idx. rewrite Ep, app_nil_r in E. by auto.
Qed.

Lemma types_named_spec tree key items idx :
  idx ∈ types_named tree key items →
  RComponentType idx ∈ items ∧ ∃ ct, component_types tree !! idx = Some ct ∧ ci (ct_name ct) = key.
Proof.
  intros (item & Hin & H)%list_elem_of_omap. destruct item as [i|i|i|i|]; try done.
  apply bind_Some in H as (ct & Hct & H). destruct (decide _) as [E|]; [|done]. injection H as <-. eauto.
Qed.

Lemma impls_named_spec tree key items idx :
  idx ∈ impls_named tree key items →
  RComponentImpl idx ∈ items ∧
  ∃ c, component_impls tree !! idx = Some c ∧ (ci (ci_type_name c), ci (ci_impl_name c)) = key.
Proof.
  intros (item & Hin & H)%list_elem_of_omap. destruct item as [i|i|i|i|]; try done.
  apply bind_Some in H as (ct & Hct & H). destruct (decide _) as [E|]; [|done]. injection H as <-. eauto.
Qed.

Lemma fgts_named_spec tree key items idx :
  idx ∈ fgts_named tree key items →
  RFeatureGroupType idx ∈ items ∧ ∃ f, feature_group_types tree !! idx = Some f ∧ ci (fgt_name f) = key.
Proof.
  intros (item & Hin & H)%list_elem_of_omap. destruct item as [i|i|i|i|]; try done.
  apply bind_Some in H as (ct & Hct & H). destruct (decide _) as [E|]; [|done]. injection H as <-. eauto.
Qed.

(** Where a resolved reference was declared. *)
Definition declared_at (ts : list ItemTree) (from : Name) (reference : ClassifierRef) (r : ResolvedClassifier) : Prop :=
  ∃ p loc item tree pkg, item_of r = Some (p, loc, item) ∧ ts !! loc_tree loc = Some tree ∧
    pkg ∈ packages tree ∧ pkg_name pkg = p ∧ names_item tree item reference ∧ visible_item from p pkg item.

Lemma declaration_sound ts key reference same from r :
  (same = true → key = ci from) →
  declaration (the_package ts key) reference same = Some r → declared_at ts from reference r.
Proof.
  intros Hsame H. apply bind_Some in H as ([[ti tree] pkg] & Hp & H). cbn zeta in H.
  apply the_package_sound in Hp as (Htree & Hpkg & Hkey).
  assert (Hown : same = true → eq_ci (pkg_name pkg) from = true).
  { intros E. apply eq_ci_spec. rewrite Hkey. by apply Hsame. }
  destruct (impl_name reference) as [impl|] eqn:Ei.
  - revert H. destruct (declared _ _ _ _ _) as [o|] eqn:E; [|done]. cbn. intros ->. unfold impls_named in E. rewrite omap_app in E.
    apply declared_sound in E as (idx & -> & Hv). exists (pkg_name pkg), (at_loc ti idx), (RComponentImpl idx), tree, pkg.
    assert (Hn : ∃ c, component_impls tree !! idx = Some c ∧
      (ci (ci_type_name c), ci (ci_impl_name c)) = (ci (type_name reference), ci impl))
      by (destruct Hv as [Hv|[Hv _]]; apply impls_named_spec in Hv; tauto).
    destruct Hn as (c & Hc & [= E1 E2]).
    split_and!; try done.
    + exists impl, c. rewrite !eq_ci_spec. by split_and!.
    + destruct Hv as [Hv|[Hv Hs]]; apply impls_named_spec in Hv as [Hv _]; [by left|right; auto].
  - assert (Hty : ∀ o, declared ti (types_named tree (ci (type_name reference)) (pkg_public_items pkg ++ pkg_private_items pkg))
      (types_named tree (ci (type_name reference)) (pkg_private_items pkg)) same (ResolvedType (pkg_name pkg)) = Some o →
      o = Some r → declared_at ts from reference r).
    { intros o E ->. unfold types_named in E. rewrite omap_app in E. apply declared_sound in E as (idx & -> & Hv).
      exists (pkg_name pkg), (at_loc ti idx), (RComponentType idx), tree, pkg. split_and!; try done.
      - assert (Hn : ∃ ct, component_types tree !! idx = Some ct ∧ ci (ct_name ct) = ci (type_name reference))
          by (destruct Hv as [Hv|[Hv _]]; apply types_named_spec in Hv; tauto).
        destruct Hn as (ct & ? & ?). split; [done|]. exists ct. by rewrite eq_ci_spec.
      - destruct Hv as [Hv|[Hv Hs]]; apply types_named_spec in Hv as [Hv _]; [by left|right; auto]. }
    revert H Hty. destruct (declared _ _ _ _ _) as [o|]; [intros H Hty; by apply (Hty o)|]. intros H _. revert H.
    destruct (declared _ _ _ _ _) as [o|] eqn:E; [|done]. cbn. intros ->. unfold fgts_named in E. rewrite omap_app in E.
    apply declared_sound in E as (idx & -> & Hv). exists (pkg_name pkg), (at_loc ti idx), (RFeatureGroupType idx), tree, pkg.
    assert (Hn : ∃ f, feature_group_types tree !! idx = Some f ∧ ci (fgt_name f) = ci (type_name reference))
      by (destruct Hv as [Hv|[Hv _]]; apply fgts_named_spec in Hv; tauto).
    destruct Hn as (f & ? & ?). split_and!; try done.
    + split; [done|]. exists f. by rewrite eq_ci_spec.
    + destruct Hv as [Hv|[Hv Hs]]; apply fgts_named_spec in Hv as [Hv _]; [by left|right; auto].
Qed.

Lemma own_sound ts from reference r : own ts from reference = Some r → declared_at ts from reference r.
Proof.
  unfold own, own_attempt. destruct (package reference); apply declaration_sound; [|done].
  by intros ?%bool_decide_eq_true.
Qed.

Lemma imported_sound ts from reference r : imported ts from reference = Some r → declared_at ts from reference r.
Proof.
  unfold imported. destruct (package reference); [done|].
  intros ([[ti tree] pkg] & _ & H)%bind_Some. induction (pkg_with_clauses pkg) as [|i is_ IH]; [done|]. simpl in H.
  destruct (declaration _ reference false) as [r'|] eqn:E; [|by apply IH]. injection H as ->.
  by apply declaration_sound with (from := from) in E.
Qed.

Lemma resolution_declared ts from reference :
  resolution ts from reference ≠ Unresolved →
  ∃ named, (named = reference ∨ alias ts from reference = Some named) ∧
    declared_at ts from named (resolution ts from reference).
Proof.
  unfold resolution. intros Hne.
  destruct (own ts from reference) eqn:E1; [exists reference; split; [by left|by apply own_sound]|].
  destruct (alias ts from reference) as [aliased|].
  - destruct (own ts from aliased) eqn:E2; [|done]. exists aliased. split; [by right|]. by apply own_sound.
  - destruct (imported ts from reference) eqn:E3; [|done]. exists reference. split; [by left|]. by apply imported_sound.
Qed.

(** What a classifier resolves to is a declaration that the reference may
    see.  The item is in its arena, in a package with the name that is
    reported, and has the name of the reference, or of what an alias stands
    for, up to case; it is in the public section of that package, or the
    reference is written in a package of the same name. *)
Theorem resolve_classifier_visible ts g from reference r :
  Forall tree_ok ts → from_trees ts = Done g → resolve_classifier g from reference = Done r → r ≠ Unresolved →
  ∃ named, (named = reference ∨ alias ts from reference = Some named) ∧ declared_at ts from named r.
Proof.
  intros Hok Hg Hr Hne. destruct (from_trees_spec ts Hok) as (g' & Hg' & _ & Hh).
  rewrite Hg in Hg'. injection Hg' as <-. rewrite (resolve_resolution ts g Hh) in Hr. injection Hr as <-.
  by apply resolution_declared.
Qed.

(** ** The shape of a data type, read off the trees *)

(** The associations of a type, in order, and the last of them with a name. *)
Definition associations (tree : ItemTree) (ct : ComponentTypeItem) : list PropertyAssociationItem :=
  omap (λ i, property_associations tree !! i) (ct_property_associations ct).

Definition named (nm : Name) (pa : PropertyAssociationItem) : bool := eq_ignore_ascii_case (property_name (pa_name pa)) nm.

Definition sized (pa : PropertyAssociationItem) : bool := named "Data_Size" pa || named "Source_Data_Size" pa.

Definition last_of (f : PropertyAssociationItem → bool) (tree : ItemTree) (ct : ComponentTypeItem) : option PropertyAssociationItem :=
  last (List.filter f (associations tree ct)).

(** The value written is this literal, whatever its qualification. *)
Definition says (literal : string) (pa : PropertyAssociationItem) : bool := eq_ignore_ascii_case (leaf (pa_value pa)) literal.

(** The size in whole bytes. *)
Definition size_bytes (pa : PropertyAssociationItem) : option u64 :=
  match parse_size_value (list_ascii_of_string (pa_value pa)) with Done (Some bits) => Some (bits / 8)%N | _ => None end.

Definition data_size (tree : ItemTree) (ct : ComponentTypeItem) : option u64 := last_of sized tree ct ≫= size_bytes.

Definition scalar_kind (tree : ItemTree) (ct : ComponentTypeItem) : ScalarKind :=
  if from_option (says "Float") false (last_of (named "Data_Representation") tree ct) then Float
  else if from_option (says "Signed") false (last_of (named "Number_Representation") tree ct) then Signed else Unsigned.

Definition says_array (pa : PropertyAssociationItem) : bool :=
  match pa_typed_value pa with Some (Enum n) => eq_ignore_ascii_case n "Array" | _ => says "Array" pa end.

Definition is_array (tree : ItemTree) (ct : ComponentTypeItem) : bool :=
  from_option says_array false (last_of (named "Data_Representation") tree ct).

(** The expressions in a list of lists, from left to right. *)
Fixpoint leaves (e : PropertyExpr) : list PropertyExpr :=
  match e with
  | List_ items => (fix go items := match items with [] => [] | e :: items => leaves e ++ go items end) items
  | _ => [e]
  end.

Definition base_of (pa : PropertyAssociationItem) : option ClassifierRef :=
  v ← pa_typed_value pa; head (omap (λ e, match e with ClassifierValue c => Some c | _ => None end) (leaves v)).

Definition dimension_of (pa : PropertyAssociationItem) : option u64 :=
  n ← (v ← pa_typed_value pa; head (omap (λ e, match e with Integer n _ => Some n | _ => None end) (leaves v)));
  if (0 <=? n)%Z then Some (Z.to_N n) else None.

Definition base_type (tree : ItemTree) (ct : ComponentTypeItem) : option ClassifierRef :=
  last_of (named "Base_Type") tree ct ≫= base_of.

Definition dimension (tree : ItemTree) (ct : ComponentTypeItem) : option u64 :=
  last_of (named "Dimension") tree ct ≫= dimension_of.

(** The data type, and the data implementation with fields, that a reference
    names. *)
Definition names_data_type (ts : list ItemTree) (from : Name) (c : ClassifierRef) (package : Name) (tree : ItemTree)
  (ct : ComponentTypeItem) : Prop :=
  ∃ loc, resolution ts from c = ResolvedType package loc ∧ ts !! loc_tree loc = Some tree ∧
    component_types tree !! loc_raw_idx loc = Some ct ∧ ct_category ct = Data.

Definition names_record (ts : list ItemTree) (from : Name) (c : ClassifierRef) (package : Name) (tree : ItemTree)
  (ci : ComponentImplItem) : Prop :=
  ∃ loc, resolution ts from c = ResolvedImpl package loc ∧ ts !! loc_tree loc = Some tree ∧
    component_impls tree !! loc_raw_idx loc = Some ci ∧ ci_category ci = Data ∧ ci_subcomponents ci ≠ [].

(** A type of no stated size that is an array of some base type. *)
Definition names_array (ts : list ItemTree) (from : Name) (c : ClassifierRef) (package : Name) (base : ClassifierRef)
  (dim : option u64) : Prop :=
  ∃ tree ct, names_data_type ts from c package tree ct ∧ data_size tree ct = None ∧ is_array tree ct = true ∧
    base_type tree ct = Some base ∧ dim = dimension tree ct.

(** The shape that a reference read in a package has.  An implementation is a
    record of its subcomponents, in order, each with the shape of its own
    classifier in the package of the implementation; a type with a size is a
    scalar; an array has the shape of its base type for its elements, and is
    opaque when they are; everything else is opaque. *)
Inductive shaped (ts : list ItemTree) : Name → ClassifierRef → DataShape → Prop :=
  | shaped_record from c package tree ci fields :
      names_record ts from c package tree ci → shaped_fields ts package tree (ci_subcomponents ci) fields →
      shaped ts from c (RecordShape (classifier_fmt c) fields)
  | shaped_scalar from c package tree ct bytes :
      names_data_type ts from c package tree ct → data_size tree ct = Some bytes →
      shaped ts from c (Scalar bytes (scalar_kind tree ct))
  | shaped_array from c package base dim element :
      names_array ts from c package base dim → shaped ts package base element → element ≠ OpaqueShape →
      shaped ts from c (ArrayShape element dim)
  | shaped_opaque_array from c package base dim :
      names_array ts from c package base dim → shaped ts package base OpaqueShape → shaped ts from c OpaqueShape
  | shaped_opaque from c :
      (∀ package tree ci, ¬ names_record ts from c package tree ci) →
      (∀ package tree ct, names_data_type ts from c package tree ct → data_size tree ct = None) →
      (∀ package base dim, ¬ names_array ts from c package base dim) →
      shaped ts from c OpaqueShape
with shaped_fields (ts : list ItemTree) : Name → ItemTree → list ItemIdx → list (Name * DataShape) → Prop :=
  | fields_nil package tree : shaped_fields ts package tree [] []
  | fields_untyped package tree i is_ sub fields :
      tree_subcomponents tree !! i = Some sub → sub_classifier sub = None → shaped_fields ts package tree is_ fields →
      shaped_fields ts package tree (i :: is_) ((sub_name sub, OpaqueShape) :: fields)
  | fields_typed package tree i is_ sub cref shape fields :
      tree_subcomponents tree !! i = Some sub → sub_classifier sub = Some cref → shaped ts package cref shape →
      shaped_fields ts package tree is_ fields →
      shaped_fields ts package tree (i :: is_) ((sub_name sub, shape) :: fields).

Scheme shaped_mut := Minimality for shaped Sort Prop
with shaped_fields_mut := Minimality for shaped_fields Sort Prop.
Combined Scheme shaped_both_ind from shaped_mut, shaped_fields_mut.

(** The references that the shape of a reference is made of: those of the
    fields of a record, and the base type of an array. *)
Inductive made_of (ts : list ItemTree) : Name * ClassifierRef → Name * ClassifierRef → Prop :=
  | made_of_field from c package tree ci i sub cref :
      names_record ts from c package tree ci → i ∈ ci_subcomponents ci →
      tree_subcomponents tree !! i = Some sub → sub_classifier sub = Some cref →
      made_of ts (from, c) (package, cref)
  | made_of_element from c package base dim :
      names_array ts from c package base dim → made_of ts (from, c) (package, base).

(** ** What the trees are asked for

    The fields of an implementation and the associations of a type are in
    their arenas, and no size it states overflows when it is read. *)
Definition tree_data_ok (tree : ItemTree) : Prop :=
  Forall (λ c, Forall (λ i, is_Some (tree_subcomponents tree !! i)) (ci_subcomponents c)) (component_impls tree) ∧
  Forall (λ ct, Forall (λ i, ∃ pa, property_associations tree !! i = Some pa ∧
    (sized pa = true → ∃ o, parse_size_value (list_ascii_of_string (pa_value pa)) = Done o)) (ct_property_associations ct))
    (component_types tree).

(** ** The reading loops *)
Lemma named_other a b pa : to_ascii_lowercase a ≠ to_ascii_lowercase b → named a pa = true → named b pa = false.
Proof.
  unfold named, eq_ignore_ascii_case. intros Hne Ha%bool_decide_eq_true. apply bool_decide_eq_false. intros Hb. congruence.
Qed.

(** What the last of the associations chosen by [p] says, or [b] without one. *)
Definition latest {A B} (p : A → bool) (h : A → B) (xs : list A) (b : B) : B := from_option h b (last (List.filter p xs)).

Lemma latest_cons {A B} (p : A → bool) (h : A → B) x xs b : latest p h (x :: xs) b = latest p h xs (if p x then h x else b).
Proof.
  unfold latest. cbn [List.filter]. destruct (p x); [|done]. rewrite last_cons. by destruct (last _).
Qed.

Lemma latest_option {A B} (p : A → bool) (h : A → option B) xs : latest p h xs None = last (List.filter p xs) ≫= h.
Proof. unfold latest. by destruct (last _). Qed.

Lemma first_leaf {A} (h : PropertyExpr → option A) (f : PropertyExpr → option A) :
  (∀ items, f (List_ items) = (fix go items := match items with [] => None | e :: items => match f e with Some c => Some c | None => go items end end) items) →
  (∀ e, (∀ items, e ≠ List_ items) → f e = h e) →
  ∀ e, f e = head (omap h (leaves e)).
Proof.
  intros Hlist Hleaf. apply PropertyExpr_nested_ind;
    try (intros; rewrite Hleaf by done; cbn; by destruct (h _)).
  intros items H. rewrite Hlist. cbn [leaves]. induction H as [|e items He _ IH]; [done|].
  rewrite omap_app, IH, He. by destruct (omap h (leaves e)).
Qed.

Lemma first_classifier_leaf e : first_classifier e = head (omap (λ e, match e with ClassifierValue c => Some c | _ => None end) (leaves e)).
Proof. apply first_leaf; [done|]. intros []; done || (intros H; by destruct (H items)). Qed.

Lemma first_int_leaf e : first_int e = head (omap (λ e, match e with Integer n _ => Some n | _ => None end) (leaves e)).
Proof. apply first_leaf; [done|]. intros []; done || (intros H; by destruct (H items)). Qed.

Lemma sized_other b pa : to_ascii_lowercase "Data_Size" ≠ to_ascii_lowercase b → to_ascii_lowercase "Source_Data_Size" ≠ to_ascii_lowercase b →
  sized pa = true → named b pa = false.
Proof.
  intros H1 H2 [H|H]%orb_true_iff; [by apply (named_other "Data_Size")|by apply (named_other "Source_Data_Size")].
Qed.

Section loops.
Context (tree : ItemTree).

Definition read_from (idxs : list ItemIdx) (pas : list PropertyAssociationItem) : Prop :=
  Forall2 (λ i pa, property_associations tree !! i = Some pa) idxs pas.

Lemma read_representations idxs pas r :
  read_from idxs pas → Forall (λ pa, sized pa = true → ∃ o, parse_size_value (list_ascii_of_string (pa_value pa)) = Done o) pas →
  foldM (read_representation tree) r idxs = Done
    {| rp_bytes := latest sized size_bytes pas (rp_bytes r);
       rp_is_float := latest (named "Data_Representation") (says "Float") pas (rp_is_float r);
       rp_is_signed := latest (named "Number_Representation") (says "Signed") pas (rp_is_signed r) |}.
Proof.
  intros H. revert r. induction H as [|i pa idxs pas Hi _ IH]; intros r Hs; [by destruct r|].
  inversion Hs as [|? ? Hpa Hs']; subst. cbn [foldM]. unfold read_representation at 2, arena_get. rewrite Hi. cbn [mbind Exec_bind].
  rewrite !latest_cons. change (eq_ignore_ascii_case _ "Data_Size" || _) with (sized pa). destruct (sized pa) eqn:E1.
  { destruct (Hpa eq_refl) as [o Ho]. rewrite Ho. cbn [mbind Exec_bind]. rewrite IH by done. cbn.
    rewrite !(sized_other _ pa) by done. 
    assert (size_bytes pa = (λ b, b / 8)%N <$> o) as -> by (unfold size_bytes; rewrite Ho; by destruct o). done. }
  change (eq_ignore_ascii_case _ "Data_Representation") with (named "Data_Representation" pa).
  destruct (named "Data_Representation" pa) eqn:E2.
  { cbn [mbind Exec_bind]. rewrite IH by done. cbn. by rewrite (named_other "Data_Representation") by done. }
  change (eq_ignore_ascii_case _ "Number_Representation") with (named "Number_Representation" pa).
  destruct (named "Number_Representation" pa); cbn [mbind Exec_bind]; by rewrite IH.
Qed.

Lemma read_arrays idxs pas r :
  read_from idxs pas →
  foldM (read_array tree) r idxs = Done
    {| ap_is_array := latest (named "Data_Representation") says_array pas (ap_is_array r);
       ap_base_type := latest (named "Base_Type") base_of pas (ap_base_type r);
       ap_dim := latest (named "Dimension") dimension_of pas (ap_dim r) |}.
Proof.
  intros H. revert r. induction H as [|i pa idxs pas Hi _ IH]; intros r; [by destruct r|].
  cbn [foldM]. unfold read_array at 2, arena_get. rewrite Hi. cbn [mbind Exec_bind]. rewrite IH, !latest_cons. clear IH.
  change (eq_ignore_ascii_case (property_name (pa_name pa)) ?n) with (named n pa).
  destruct (named "Data_Representation" pa) eqn:E1; [by rewrite !(named_other "Data_Representation" _ pa) by done|].
  destruct (named "Base_Type" pa) eqn:E2.
  { rewrite (named_other "Base_Type" _ pa) by done. cbn. do 2 f_equal. unfold base_of. destruct (pa_typed_value pa); [|done].
    cbn. by rewrite <- first_classifier_leaf. }
  destruct (named "Dimension" pa); [|done]. cbn. do 2 f_equal. unfold dimension_of. destruct (pa_typed_value pa); [|done].
  cbn. by rewrite <- first_int_leaf.
Qed.
End loops.

(** The fuel is enough for a shape once it is enough for its parts. *)
Section fuel.
Context (g : GlobalScope).

(** One field, with some fuel for its shape. *)
Definition field_shape (n : nat) (package : Name) (tree : ItemTree) (i : ItemIdx) : Exec (Name * DataShape) :=
  sub ← arena_get (tree_subcomponents tree) i;
  shape ← match sub_classifier sub with Some cref => resolve_data_shape g n package cref | None => Done OpaqueShape end;
  Done (sub_name sub, shape).

Lemma resolve_data_shape_S n from c : resolve_data_shape g (S n) from c =
  (rec ← record_fields g from c;
   match rec with
   | Some (package, tree, subs) =>
       fields ← mapM (field_shape n package tree) subs; Done (RecordShape (classifier_fmt c) fields)
   | None =>
       sc ← scalar_of g from c;
       match sc with
       | Some (bytes, kind) => Done (Scalar bytes kind)
       | None =>
           arr ← array_base g from c;
           match arr with
           | None => Done OpaqueShape
           | Some (package, base, dim) =>
               element ← resolve_data_shape g n package base;
               Done (match element with OpaqueShape => OpaqueShape | _ => ArrayShape element dim end)
           end
       end
   end).
Proof. reflexivity. Qed.

Lemma mapM_mono {A B} (f h : A → Exec B) xs ys :
  (∀ x y, x ∈ xs → f x = Done y → h x = Done y) → mapM f xs = Done ys → mapM h xs = Done ys.
Proof.
  rewrite !mapM_Done. intros Hfh H. induction H as [|x y xs ys Hx _ IH]; constructor.
  - apply Hfh; [by left|done].
  - apply IH. intros x0 y0 Hx0. apply Hfh. by right.
Qed.

Lemma field_shape_fuel n m package tree i f :
  (∀ from c v, resolve_data_shape g n from c = Done v → resolve_data_shape g m from c = Done v) →
  field_shape n package tree i = Done f → field_shape m package tree i = Done f.
Proof.
  unfold field_shape. intros IH H. apply Exec_bind_Done in H as (sub & -> & H). cbn [mbind Exec_bind].
  destruct (sub_classifier sub) as [cref|]; [|done]. apply Exec_bind_Done in H as (sh & Hsh & <-). by rewrite (IH _ _ sh).
Qed.

Lemma resolve_data_shape_fuel n m from c v : resolve_data_shape g n from c = Done v → (n ≤ m)%nat → resolve_data_shape g m from c = Done v.
Proof.
  revert m from c v. induction n as [|n IH]; intros [|m] from c v; [done..|lia|]. rewrite !resolve_data_shape_S. intros H Hm.
  apply Exec_bind_Done in H as (rec & -> & H). cbn [mbind Exec_bind]. destruct rec as [[[package tree] subs]|].
  - apply Exec_bind_Done in H as (fields & Hf & <-).
    erewrite mapM_mono; [reflexivity| |exact Hf]. intros idx y _ Hy. eapply field_shape_fuel, Hy.
    intros from' c' v' Hv. apply IH; [done|lia].
  - apply Exec_bind_Done in H as (sc & -> & H). cbn [mbind Exec_bind]. destruct sc as [[? ?]|]; [done|].
    apply Exec_bind_Done in H as (arr & -> & H). cbn [mbind Exec_bind]. destruct arr as [[[? ?] ?]|]; [|done].
    apply Exec_bind_Done in H as (e & He & <-). by rewrite (IH m _ _ e) by (done || lia).
Qed.
End fuel.

(** ** What the scope reads is what the trees say *)
Section reads.
Context (ts : list ItemTree) (g : GlobalScope).
Hypothesis (Hok : Forall tree_ok ts) (Hdata : Forall tree_data_ok ts) (Hg : from_trees ts = Done g).

Lemma scope_holds : trees g = ts ∧ ∀ key, holds (the_package ts key) (scope_packages g !! key).
Proof. destruct (from_trees_spec ts Hok) as (g' & Hg' & Ht & Hh). rewrite Hg in Hg'. by injection Hg' as <-. Qed.

Lemma names_data_type_functional from c p1 t1 c1 p2 t2 c2 :
  names_data_type ts from c p1 t1 c1 → names_data_type ts from c p2 t2 c2 → p1 = p2 ∧ t1 = t2 ∧ c1 = c2.
Proof. intros (l1 & H1 & H2 & H3 & _) (l2 & H1' & H2' & H3' & _). rewrite H1 in H1'. injection H1' as <- <-. by simplify_eq. Qed.

Lemma names_record_functional from c p1 t1 c1 p2 t2 c2 :
  names_record ts from c p1 t1 c1 → names_record ts from c p2 t2 c2 → p1 = p2 ∧ t1 = t2 ∧ c1 = c2.
Proof. intros (l1 & H1 & H2 & H3 & _) (l2 & H1' & H2' & H3' & _). rewrite H1 in H1'. injection H1' as <- <-. by simplify_eq. Qed.

Lemma names_record_type from c p1 t1 c1 p2 t2 c2 : names_record ts from c p1 t1 c1 → ¬ names_data_type ts from c p2 t2 c2.
Proof. intros (l1 & H1 & _) (l2 & H2 & _). congruence. Qed.

Lemma data_type_spec from c : ∃ o, data_type g from c = Done o ∧
  match o with
  | Some (p, tree, ct) => names_data_type ts from c p tree ct ∧ tree ∈ ts ∧ ct ∈ component_types tree
  | None => ∀ p tree ct, ¬ names_data_type ts from c p tree ct
  end.
Proof.
  destruct scope_holds as [Ht Hh]. unfold data_type. rewrite (resolve_resolution ts g Hh). cbn [mbind Exec_bind].
  pose proof (resolution_declared ts from c) as Hd. unfold names_data_type.
  destruct (resolution ts from c) as [p loc|p loc|p loc|]; try (eexists; split; [done|]; by intros ? ? ? (? & ? & _)).
  destruct Hd as (nm & _ & p' & loc' & item & tree & pkg & [= <- <- <-] & Htree & _ & _ & (_ & ct & Hct & _) & _); [done|].
  unfold get_component_type, arena_get. rewrite Ht, Htree, Hct. cbn [mbind Exec_bind]. eexists. split; [done|].
  case_bool_decide as Hcat.
  - split; [by exists loc|]. by split; eapply list_elem_of_lookup_2.
  - intros p' tree' ct' (loc' & [= -> ->] & ? & ? & ?). by simplify_eq.
Qed.

Lemma record_fields_spec from c : ∃ o, record_fields g from c = Done o ∧
  match o with
  | Some (p, tree, subs) => ∃ ci, names_record ts from c p tree ci ∧ subs = ci_subcomponents ci ∧
      Forall (λ i, is_Some (tree_subcomponents tree !! i)) subs
  | None => ∀ p tree ci, ¬ names_record ts from c p tree ci
  end.
Proof.
  destruct scope_holds as [Ht Hh]. unfold record_fields. rewrite (resolve_resolution ts g Hh). cbn [mbind Exec_bind].
  pose proof (resolution_declared ts from c) as Hd. unfold names_record.
  destruct (resolution ts from c) as [p loc|p loc|p loc|]; try (eexists; split; [done|]; by intros ? ? ? (? & ? & _)).
  destruct Hd as (nm & _ & p' & loc' & item & tree & pkg & [= <- <- <-] & Htree & _ & _ & (i & ci & _ & Hci & _) & _); [done|].
  unfold get_component_impl, arena_get. rewrite Ht, Htree, Hci. cbn [mbind Exec_bind]. eexists. split; [done|].
  destruct (decide (ci_category ci = Data)) as [Hcat|Hcat], (decide (ci_subcomponents ci = [])) as [Hs|Hs].
  - rewrite (bool_decide_true (_ = [])), andb_false_r by done. intros ? ? ? (? & [= <- <-] & ? & ? & ? & ?). by simplify_eq.
  - rewrite bool_decide_true, bool_decide_false by done. exists ci. split_and!; [by exists loc|done|]. rewrite Forall_forall in Hdata.
    destruct (Hdata tree) as [H _]; [by eapply list_elem_of_lookup_2|]. rewrite Forall_forall in H. by eapply H, list_elem_of_lookup_2.
  - rewrite bool_decide_false by done. intros ? ? ? (? & [= <- <-] & ? & ? & ? & ?). by simplify_eq.
  - rewrite bool_decide_false by done. intros ? ? ? (? & [= <- <-] & ? & ? & ? & ?). by simplify_eq.
Qed.

(** The associations of a type that is read are there, with sizes that are
    read. *)
Lemma associations_read tree ct : tree ∈ ts → ct ∈ component_types tree →
  read_from tree (ct_property_associations ct) (associations tree ct) ∧
  Forall (λ pa, sized pa = true → ∃ o, parse_size_value (list_ascii_of_string (pa_value pa)) = Done o) (associations tree ct).
Proof.
  intros Htree Hct. rewrite Forall_forall in Hdata. destruct (Hdata tree Htree) as [_ H]. rewrite Forall_forall in H.
  specialize (H ct Hct). unfold read_from, associations.
  induction H as [|i is_ (pa & Hpa & Hs) _ [IH1 IH2]]; [by split; constructor|]. cbn [omap list_omap]. rewrite Hpa.
  split; by constructor.
Qed.

Lemma scalar_of_spec from c : ∃ o, scalar_of g from c = Done o ∧
  match o with
  | Some (bytes, kind) => ∃ p tree ct, names_data_type ts from c p tree ct ∧ data_size tree ct = Some bytes ∧ kind = scalar_kind tree ct
  | None => ∀ p tree ct, names_data_type ts from c p tree ct → data_size tree ct = None
  end.
Proof.
  unfold scalar_of. destruct (data_type_spec from c) as (o & -> & Ho). cbn [mbind Exec_bind].
  destruct o as [[[p tree] ct]|]; [|eexists; split; [done|]; intros p tree ct H; by destruct (Ho p tree ct)].
  destruct Ho as (Hn & Htree & Hct). destruct (associations_read tree ct Htree Hct) as [Hread Hs].
  rewrite (read_representations tree _ _ _ Hread Hs). cbn [mbind Exec_bind rp_bytes rp_is_float rp_is_signed].
  eexists. split; [done|]. rewrite latest_option. change (last _ ≫= size_bytes) with (data_size tree ct).
  destruct (data_size tree ct) as [b|] eqn:Hb; cbn.
  - by exists p, tree, ct.
  - intros p' tree' ct' Hn'. by destruct (names_data_type_functional _ _ _ _ _ _ _ _ Hn Hn') as (_ & <- & <-).
Qed.

Lemma array_base_spec from c : scalar_of g from c = Done None → ∃ o, array_base g from c = Done o ∧
  match o with
  | Some (p, base, dim) => names_array ts from c p base dim
  | None => ∀ p base dim, ¬ names_array ts from c p base dim
  end.
Proof.
  intros Hsc. destruct (scalar_of_spec from c) as (o & Ho & Hsize). rewrite Hsc in Ho. injection Ho as <-.
  unfold array_base. destruct (data_type_spec from c) as (o & -> & Ho). cbn [mbind Exec_bind].
  destruct o as [[[p tree] ct]|]; [|eexists; split; [done|]; intros p base dim (tree & ct & H & _); by destruct (Ho p tree ct)].
  destruct Ho as (Hn & Htree & Hct). destruct (associations_read tree ct Htree Hct) as [Hread _].
  rewrite (read_arrays tree _ _ _ Hread). cbn [mbind Exec_bind ap_is_array ap_base_type ap_dim]. rewrite !latest_option.
  change (last _ ≫= base_of) with (base_type tree ct). change (last _ ≫= dimension_of) with (dimension tree ct).
  change (latest _ _ _ false) with (is_array tree ct). eexists. split; [done|].
  assert (Hother : (is_array tree ct = true → base_type tree ct = None) → ∀ p' base dim, ¬ names_array ts from c p' base dim).
  { intros H p' base dim (tree' & ct' & Hn' & _ & Ha & Hb & _).
    destruct (names_data_type_functional _ _ _ _ _ _ _ _ Hn Hn') as (_ & <- & <-). rewrite H in Hb; done. }
  destruct (is_array tree ct) eqn:Ea; [|by apply Hother]. destruct (base_type tree ct) as [base|] eqn:Eb; cbn; [|by apply Hother].
  exists tree, ct. split_and!; try done. by eapply Hsize.
Qed.

Lemma names_array_functional from c p1 b1 d1 p2 b2 d2 :
  names_array ts from c p1 b1 d1 → names_array ts from c p2 b2 d2 → p1 = p2 ∧ b1 = b2 ∧ d1 = d2.
Proof.
  intros (t1 & c1 & H1 & _ & _ & B1 & ->) (t2 & c2 & H2 & _ & _ & B2 & ->).
  destruct (names_data_type_functional _ _ _ _ _ _ _ _ H1 H2) as (<- & <- & <-). by simplify_eq.
Qed.

(** *** Soundness *)
Lemma shaped_returned n from c v : resolve_data_shape g n from c = Done v → shaped ts from c v.
Proof.
  revert from c v. induction n as [|n IH]; intros from c v; [done|]. rewrite resolve_data_shape_S.
  destruct (record_fields_spec from c) as (rec & -> & Hrec). cbn [mbind Exec_bind]. destruct rec as [[[p tree] subs]|].
  { destruct Hrec as (ci & Hn & -> & _). intros (fields & Hf%mapM_Done & [= <-])%Exec_bind_Done. apply (shaped_record _ _ _ p tree ci); [done|].
    induction Hf as [|i f is_ fields Hi _ IHf]; [constructor|]. unfold field_shape, arena_get in Hi.
    destruct (tree_subcomponents tree !! i) as [sub|] eqn:Hsub; [|done]. cbn [mbind Exec_bind] in Hi.
    destruct (sub_classifier sub) as [cref|] eqn:Hcr; cbn [mbind Exec_bind] in Hi.
    - apply Exec_bind_Done in Hi as (sh & Hsh & [= <-]). eapply fields_typed; eauto.
    - injection Hi as <-. by eapply fields_untyped. }
  destruct (scalar_of_spec from c) as (sc & Hsc & Hscalar). rewrite Hsc. cbn [mbind Exec_bind]. destruct sc as [[b k]|].
  { destruct Hscalar as (p & tree & ct & Hn & Hb & ->). intros [= <-]. by eapply shaped_scalar. }
  destruct (array_base_spec from c Hsc) as (arr & -> & Harr). cbn [mbind Exec_bind]. destruct arr as [[[p base] dim]|].
  - intros (e & He%IH & Hv)%Exec_bind_Done. destruct e; injection Hv as <-; first [by eapply shaped_array|by eapply shaped_opaque_array].
  - intros [= <-]. by apply shaped_opaque.
Qed.

(** *** Completeness *)
Lemma scalar_of_none from c : (∀ p tree ct, names_data_type ts from c p tree ct → data_size tree ct = None) → scalar_of g from c = Done None.
Proof.
  intros H. destruct (scalar_of_spec from c) as ([[b k]|] & -> & Ho); [|done]. destruct Ho as (p & tree & ct & Hn & Hb & _).
  by rewrite (H p tree ct Hn) in Hb.
Qed.

Lemma record_fields_none from c : (∀ p tree ci, ¬ names_record ts from c p tree ci) → record_fields g from c = Done None.
Proof.
  intros H. destruct (record_fields_spec from c) as ([[[p tree] subs]|] & -> & Ho); [|done].
  destruct Ho as (ci & Hn & _). by destruct (H p tree ci).
Qed.

Lemma array_base_names from c p base dim : names_array ts from c p base dim →
  record_fields g from c = Done None ∧ scalar_of g from c = Done None ∧ array_base g from c = Done (Some (p, base, dim)).
Proof.
  intros Ha. destruct Ha as (tree & ct & Hn & Hs & Ha') eqn:E. clear E.
  assert (Hsc : scalar_of g from c = Done None).
  { apply scalar_of_none. intros p' tree' ct' Hn'. by destruct (names_data_type_functional _ _ _ _ _ _ _ _ Hn Hn') as (_ & <- & <-). }
  split_and!; [|done|].
  - apply record_fields_none. intros p' tree' ci Hr. by destruct (names_record_type _ _ _ _ _ _ _ _ Hr Hn).
  - assert (Hna : names_array ts from c p base dim) by by exists tree, ct.
    destruct (array_base_spec from c Hsc) as ([[[p' b'] d']|] & -> & Ho); [|by destruct (Ho p base dim)].
    by destruct (names_array_functional _ _ _ _ _ _ _ _ Hna Ho) as (-> & -> & ->).
Qed.

Lemma shaped_returns :
  (∀ from c v, shaped ts from c v → ∃ n, resolve_data_shape g n from c = Done v) ∧
  (∀ p tree is_ fields, shaped_fields ts p tree is_ fields → ∃ n, mapM (field_shape g n p tree) is_ = Done fields).
Proof.
  apply shaped_both_ind.
  - intros from c p tree ci fields Hn _ (n & Hf). exists (S n). rewrite resolve_data_shape_S.
    destruct (record_fields_spec from c) as ([[[p' tree'] subs]|] & -> & Ho); [|by destruct (Ho p tree ci)].
    destruct Ho as (ci' & Hn' & -> & _). destruct (names_record_functional _ _ _ _ _ _ _ _ Hn Hn') as (<- & <- & <-).
    cbn [mbind Exec_bind]. by rewrite Hf.
  - intros from c p tree ct b Hn Hb. exists 1%nat. rewrite resolve_data_shape_S.
    rewrite record_fields_none by (intros p' tree' ci Hr; by destruct (names_record_type _ _ _ _ _ _ _ _ Hr Hn)). cbn [mbind Exec_bind].
    destruct (scalar_of_spec from c) as ([[b' k]|] & -> & Ho); [|by rewrite (Ho p tree ct Hn) in Hb].
    destruct Ho as (p' & tree' & ct' & Hn' & Hb' & ->). destruct (names_data_type_functional _ _ _ _ _ _ _ _ Hn Hn') as (<- & <- & <-).
    by simplify_eq.
  - intros from c p base dim e Ha _ (n & He) Hne. exists (S n). rewrite resolve_data_shape_S.
    destruct (array_base_names _ _ _ _ _ Ha) as (-> & -> & ->). cbn [mbind Exec_bind]. rewrite He. cbn. by destruct e.
  - intros from c p base dim Ha _ (n & He). exists (S n). rewrite resolve_data_shape_S.
    destruct (array_base_names _ _ _ _ _ Ha) as (-> & -> & ->). cbn [mbind Exec_bind]. by rewrite He.
  - intros from c Hr Hs Ha. exists 1%nat. rewrite resolve_data_shape_S, (record_fields_none _ _ Hr). cbn [mbind Exec_bind].
    pose proof (scalar_of_none _ _ Hs) as Hsc. rewrite Hsc. cbn [mbind Exec_bind].
    destruct (array_base_spec from c Hsc) as ([[[p b] d]|] & -> & Ho); [by destruct (Ha p b d)|done].
  - intros p tree. by exists 0%nat.
  - intros p tree i is_ sub fields Hsub Hcr _ (n & Hf). exists n. apply mapM_Done. constructor; [|by apply mapM_Done].
    unfold field_shape, arena_get. rewrite Hsub. cbn [mbind Exec_bind]. by rewrite Hcr.
  - intros p tree i is_ sub cref sh fields Hsub Hcr _ (n & Hsh) _ (m & Hf). exists (n `max` m)%nat. apply mapM_Done. constructor.
    + unfold field_shape, arena_get. rewrite Hsub. cbn [mbind Exec_bind]. by rewrite Hcr, (resolve_data_shape_fuel g n _ _ _ sh) by (done || lia).
    + apply mapM_Done. eapply (mapM_mono (field_shape g m p tree)); [|exact Hf]. intros j f _. apply field_shape_fuel.
      intros from' c' v' Hv. apply (resolve_data_shape_fuel g m); [done|lia].
Qed.

(** *** Which references have a shape *)
Lemma array_acc from c p base dim :
  names_array ts from c p base dim → Acc (flip (made_of ts)) (p, base) → Acc (flip (made_of ts)) (from, c).
Proof.
  intros Ha IH. constructor. intros y Hy. unfold flip in Hy.
  inversion Hy as [? ? p' tree' ci' i sub cref Hn'|? ? p' base' dim' Ha']; subst.
  - destruct Ha as (tree & ct & Hn & _). by destruct (names_record_type _ _ _ _ _ _ _ _ Hn' Hn).
  - by destruct (names_array_functional _ _ _ _ _ _ _ _ Ha Ha') as (<- & <- & _).
Qed.

Lemma shaped_acc :
  (∀ from c v, shaped ts from c v → Acc (flip (made_of ts)) (from, c)) ∧
  (∀ p tree is_ fields, shaped_fields ts p tree is_ fields →
     ∀ i sub cref, i ∈ is_ → tree_subcomponents tree !! i = Some sub → sub_classifier sub = Some cref → Acc (flip (made_of ts)) (p, cref)).
Proof.
  apply shaped_both_ind.
  - intros from c p tree ci fields Hn _ IH. constructor. intros y Hy. unfold flip in Hy.
    inversion Hy as [? ? p' tree' ci' i sub cref Hn' Hi Hsub Hcr|? ? p' base dim (tree' & ct & Hn' & _)]; subst.
    + destruct (names_record_functional _ _ _ _ _ _ _ _ Hn Hn') as (<- & <- & <-). by eapply IH.
    + by destruct (names_record_type _ _ _ _ _ _ _ _ Hn Hn').
  - intros from c p tree ct b Hn Hb. constructor. intros y Hy. unfold flip in Hy.
    inversion Hy as [? ? p' tree' ci' i sub cref Hn' Hi Hsub Hcr|? ? p' base dim (tree' & ct' & Hn' & Hs & _)]; subst.
    + by destruct (names_record_type _ _ _ _ _ _ _ _ Hn' Hn).
    + destruct (names_data_type_functional _ _ _ _ _ _ _ _ Hn Hn') as (<- & <- & <-). congruence.
  - intros from c p base dim e Ha _ IH _. by eapply array_acc.
  - intros from c p base dim Ha _ IH. by eapply array_acc.
  - intros from c Hr _ Ha. constructor. intros y Hy. unfold flip in Hy.
    inversion Hy as [? ? p' tree' ci' i sub cref Hn'|? ? p' base dim Ha']; subst; [by destruct (Hr _ _ _ Hn')|by destruct (Ha _ _ _ Ha')].
  - intros p tree i sub cref Hi. by apply not_elem_of_nil in Hi.
  - intros p tree i is_ sub fields Hsub Hcr _ IH j sub' cref [->|Hj]%elem_of_cons; [|by apply IH]. intros. by simplify_eq.
  - intros p tree i is_ sub cref sh fields Hsub Hcr _ IH1 _ IH2 j sub' cref' [->|Hj]%elem_of_cons; [|by apply IH2]. intros. by simplify_eq.
Qed.

Lemma acc_shaped q : Acc (flip (made_of ts)) q → ∃ v, shaped ts q.1 q.2 v.
Proof.
  intros H. induction H as [[from c] _ IH]. cbn [fst snd].
  destruct (record_fields_spec from c) as ([[[p tree] subs]|] & _ & Hrec).
  { destruct Hrec as (ci & Hn & -> & Hidx). enough (∃ fields, shaped_fields ts p tree (ci_subcomponents ci) fields) as [fields Hf].
    { eexists. by eapply shaped_record. }
    assert (Hin : ∀ i, i ∈ ci_subcomponents ci → i ∈ ci_subcomponents ci) by done. revert Hin Hidx.
    generalize (ci_subcomponents ci) at 1 3 4 as is_. induction is_ as [|i is_ IHis]; intros Hin Hidx; [eexists; constructor|].
    inversion Hidx as [|? ? [sub Hsub] Hidx']; subst. destruct IHis as [fields Hf]; [intros; apply Hin; by right|done|].
    destruct (sub_classifier sub) as [cref|] eqn:Hcr; [|eexists; by eapply fields_untyped].
    destruct (IH (p, cref)) as [sh Hsh]; [eapply made_of_field; [done|apply Hin; by left|done|done]|]. eexists. by eapply fields_typed. }
  destruct (scalar_of_spec from c) as ([[b k]|] & Hsc & Hscalar).
  { destruct Hscalar as (p & tree & ct & Hn & Hb & _). eexists. by eapply shaped_scalar. }
  destruct (array_base_spec from c Hsc) as ([[[p base] dim]|] & _ & Harr); [|eexists; by apply shaped_opaque].
  destruct (IH (p, base)) as [e He]; [by eapply made_of_element|]. cbn in He.
  destruct e; eexists; first [by eapply shaped_array|by eapply shaped_opaque_array].
Qed.
End reads.

(** C9: the shape of a data type is the one its declaration describes, and it is
    found exactly when the types it is made of do not contain themselves.  On
    item trees whose packages, fields and associations are in range and in
    which no Data_Size or Source_Data_Size overflows when it is read (such a
    size panics), a reference has the shape [shaped] gives it from the trees
    alone: a record with the fields of the implementation named, in order,
    with their names and shapes; a scalar with the last stated size in bytes
    and the representation stated last; an array of its base type with its
    dimension; or opaque.  The recursion through fields and base types has no
    guard: it returns a shape, the same for all fuel beyond some depth, if and
    only if the references that a reference is made of are well-founded. *)
Theorem resolve_data_shape_exact ts g from c :
  Forall tree_ok ts → Forall tree_data_ok ts → from_trees ts = Done g →
  (∀ shape, (∃ n, ∀ m, (n ≤ m)%nat → resolve_data_shape g m from c = Done shape) ↔ shaped ts from c shape) ∧
  ((∃ n shape, ∀ m, (n ≤ m)%nat → resolve_data_shape g m from c = Done shape) ↔ Acc (flip (made_of ts)) (from, c)).
Proof.
  intros H1 H2 H3. assert (Hex : ∀ shape, (∃ n, ∀ m, (n ≤ m)%nat → resolve_data_shape g m from c = Done shape) ↔ shaped ts from c shape).
  { intros shape. split.
    - intros [n Hn]. eapply (shaped_returned ts g H1 H2 H3 n), Hn. done.
    - intros Hs. destruct (proj1 (shaped_returns ts g H1 H2 H3) _ _ _ Hs) as [n Hn]. exists n. intros m. by apply resolve_data_shape_fuel. }
  split; [exact Hex|]. split.
  - intros (n & shape & Hn). eapply (proj1 (shaped_acc ts)), Hex. by exists n.
  - intros H%(acc_shaped ts g H1 H2 H3). destruct H as [v Hv]. apply Hex in Hv as [n Hn]. by exists n, v.
Qed.

(** ** A model of three packages *)
#[local] Open Scope string_scope.
Definition type_ex (name : Name) (category : ComponentCategory) (pas : list ItemIdx) : ComponentTypeItem :=
  {| ct_name := name; ct_category := category; ct_is_public := true; ct_extends := None; ct_features := [];
     ct_flow_specs := []; ct_modes := []; ct_mode_transitions := []; ct_prototypes := [];
     ct_property_associations := pas; ct_requires_modes := false; ct_emv2 := [] |}.

Definition impl_ex (name impl : Name) (category : ComponentCategory) (subs : list ItemIdx) : ComponentImplItem :=
  {| ci_type_name := name; ci_impl_name := impl; ci_category := category; ci_is_public := true;
     ci_extends := None; ci_subcomponents := subs; ci_connections := []; ci_end_to_end_flows := [];
     ci_flow_impls := []; ci_modes := []; ci_mode_transitions := []; ci_prototypes := [];
     ci_call_sequences := []; ci_property_associations := []; ci_requires_modes := false; ci_emv2 := [] |}.

Definition ref_ex (p : option Name) (t : Name) (i : option Name) : ClassifierRef :=
  {| package := p; type_name := t; impl_name := i |}.

Definition field_ex (name : Name) (c : ClassifierRef) : SubcomponentItem :=
  {| sub_name := name; sub_category := Data; sub_classifier := Some c; sub_is_refined := false;
     sub_array_dimensions := []; sub_in_modes := []; sub_property_associations := [] |}.

(** [Base] has a sized type and a private one, [A::B] a type; [App] imports
    [Base], renames a type of each, and has a record and one that contains
    itself; the size of the sized type is as given. *)
Definition model_of (size : string) : ItemTree :=
  {| packages :=
       [{| pkg_name := "Base"; pkg_with_clauses := []; pkg_public_items := [RComponentType 0];
           pkg_private_items := [RComponentType 1]; pkg_renames := [] |};
        {| pkg_name := "A::B"; pkg_with_clauses := []; pkg_public_items := [RComponentType 2];
           pkg_private_items := []; pkg_renames := [] |};
        {| pkg_name := "App"; pkg_with_clauses := ["Base"; "A::B"];
           pkg_public_items := [RComponentImpl 0; RComponentImpl 1];
           pkg_private_items := []; pkg_renames := [0; 1]%nat |}];
     component_types := [type_ex "Word" Data [0%nat]; type_ex "Hidden" Data []; type_ex "N" Data []];
     component_impls := [impl_ex "Pair" "i" Data [0; 1]%nat; impl_ex "Loop" "i" Data [2%nat]];
     feature_group_types := []; property_sets := []; tree_features := [];
     tree_subcomponents := [field_ex "a" (ref_ex None "WORD" None); field_ex "b" (ref_ex (Some "base") "Word" None);
                            field_ex "next" (ref_ex None "Loop" (Some "i"))];
     tree_connections := []; flow_specs := []; end_to_end_flows := [];
     property_associations :=
       [{| pa_name := {| property_set := None; property_name := "Data_Size" |}; pa_value := size;
           pa_typed_value := None; pa_is_append := false; pa_applies_to := None; pa_in_modes := [];
           pa_modal_values := [] |}];
     tree_modes := []; tree_mode_transitions := []; prototypes := []; prototype_bindings := [];
     flow_impls := []; call_sequences := []; subprogram_calls := [];
     renames := [{| rn_alias := "Alias"; rn_original := "Base::Word"; rn_kind := RenamesClassifier |};
                 {| rn_alias := "Nested"; rn_original := "A::B::N"; rn_kind := RenamesClassifier |}];
     emv2_subclauses := []; impl_local_features := []; tree_diagnostics := [] |}.

Definition model_ex : ItemTree := model_of "4 Bytes".

Definition in_model {A} (f : GlobalScope → Exec A) : Exec A := g ← from_trees [model_ex]; f g.

Example resolver_examples :
  in_model (λ g, resolve_classifier g "App" (ref_ex None "alias" None)) = Done (ResolvedType "Base" (at_loc 0 0)) ∧
  in_model (λ g, resolve_classifier g "App" (ref_ex (Some "BASE") "Hidden" None)) = Done Unresolved ∧
  in_model (λ g, resolve_classifier g "base" (ref_ex None "hidden" None)) = Done (ResolvedType "Base" (at_loc 0 1)) ∧
  in_model (λ g, resolve_data_shape g 2 "App" (ref_ex None "Pair" (Some "i"))) =
    Done (RecordShape "Pair.i" [("a", Scalar 4 Unsigned); ("b", Scalar 4 Unsigned)]).
Proof. vm_compute. repeat split. Qed.

(** An alias of a type in a package whose name has two parts is split at the
    first separator, and does not resolve, although the type itself does. *)
Example nested_package_alias :
  in_model (λ g, resolve_classifier g "App" (ref_ex None "N" None)) = Done (ResolvedType "A::B" (at_loc 0 2)) ∧
  in_model (λ g, resolve_classifier g "App" (ref_ex None "Nested" None)) = Done Unresolved.
Proof. vm_compute. repeat split. Qed.

(** Properties the inherit table has and the tables of their sets do not. *)
Example inherited_unknown :
  (λ p, ip_name p) <$> filter (λ p, standard_property_type (ip_property_set p) (ip_name p) = None) INHERIT_PROPERTIES =
  ["Allowed_Processor_Binding_Class"; "Allowed_Memory_Binding_Class"; "Allowed_Connection_Binding_Class";
   "Actual_Function_Binding"; "Provided_Virtual_Bus_Class"; "Required_Virtual_Bus_Class";
   "Provided_Connection_Quality_Of_Service"; "Required_Connection_Quality_Of_Service"; "Runtime_Protection";
   "Synchronized_Component"; "Reference_Processor"; "Scheduler_Quantum"].
Proof. vm_compute. reflexivity. Qed.

Lemma model_ex_ok : Forall tree_ok [model_ex].
Proof. repeat first [constructor|eexists; reflexivity]. Qed.

Lemma resolve_classifier_exact_witness :
  ∃ g, from_trees [model_ex] = Done g ∧
    resolve_classifier g "App" (ref_ex None "Word" None) = Done (ResolvedType "Base" (at_loc 0 0)).
Proof.
  destruct (resolve_classifier_exact [model_ex] model_ex_ok) as (g & Hg & H). exists g. split; [exact Hg|].
  rewrite H. vm_compute. reflexivity.
Defined.

Lemma resolve_classifier_visible_witness :
  ∃ g named, from_trees [model_ex] = Done g ∧ alias [model_ex] "App" (ref_ex None "Alias" None) = Some named ∧
    declared_at [model_ex] "App" named (ResolvedType "Base" (at_loc 0 0)).
Proof.
  destruct (from_trees_spec [model_ex] model_ex_ok) as (g & Hg & _ & Hh).
  destruct (resolve_classifier_visible [model_ex] g "App" (ref_ex None "Alias" None) (ResolvedType "Base" (at_loc 0 0)))
    as (named & [->|Ha] & Hd).
  - exact model_ex_ok.
  - exact Hg.
  - rewrite (resolve_resolution [model_ex] g Hh). vm_compute. reflexivity.
  - discriminate.
  - exfalso. destruct Hd as (p & loc & item & tree & pkg & [= <- <- <-] & [= <-] & _ & _ & (_ & ct & [= <-] & Hn) & _).
    vm_compute in Hn. discriminate.
  - exists g, named. split; [exact Hg|]. split; [exact Ha|exact Hd].
Defined.

Lemma acc_irreflexive {A} (R : A → A → Prop) x : Acc (flip R) x → ¬ R x x.
Proof. intros H. induction H as [x _ IH]. intros Hx. by apply (IH x). Qed.

Lemma model_ex_data_ok : Forall tree_data_ok [model_ex].
Proof.
  constructor; [|constructor]. split; repeat first [constructor|eexists; reflexivity].
  all: eexists; split; [reflexivity|]; intros _; eexists; vm_compute; reflexivity.
Qed.

(** The record of two words has its shape; the implementation that contains
    itself has none for any fuel. *)
Lemma resolve_data_shape_exact_witness :
  ∃ g, from_trees [model_ex] = Done g ∧
    shaped [model_ex] "App" (ref_ex None "Pair" (Some "i")) (RecordShape "Pair.i" [("a", Scalar 4 Unsigned); ("b", Scalar 4 Unsigned)]) ∧
    ¬ ∃ n shape, ∀ m, (n ≤ m)%nat → resolve_data_shape g m "App" (ref_ex None "Loop" (Some "i")) = Done shape.
Proof.
  destruct (from_trees_spec [model_ex] model_ex_ok) as (g & Hg & Ht & Hh). exists g. split; [exact Hg|]. split.
  - apply (resolve_data_shape_exact [model_ex] g "App" _ model_ex_ok model_ex_data_ok Hg). exists 2%nat. intros m Hm.
    apply (resolve_data_shape_fuel g 2); [|exact Hm]. destruct resolver_examples as (_ & _ & _ & E). unfold in_model in E.
    rewrite Hg in E. exact E.
  - intros H. apply (resolve_data_shape_exact [model_ex] g "App" _ model_ex_ok model_ex_data_ok Hg) in H.
    apply (acc_irreflexive _ _ H). eapply (made_of_field _ _ _ "App" model_ex _ 2 (field_ex "next" (ref_ex None "Loop" (Some "i")))).
    + exists (at_loc 0 1). split; [vm_compute; reflexivity|]. split; [reflexivity|]. split; [reflexivity|]. split; [reflexivity|discriminate].
    + by left.
    + reflexivity.
    + reflexivity.
Defined.

(** A size that does not fit in 64 bits panics where it is read. *)
Example size_overflows :
  parse_size_value (list_ascii_of_string "99999999999 GByte") = Panic ∧
  (g ← from_trees [model_of "99999999999 GByte"]; resolve_data_shape g 2 "App" (ref_ex None "Pair" (Some "i"))) = Panic.
Proof. split; vm_compute; reflexivity. Qed.
