(* ===== verification/FeatureGroups.v ===== *)
(** * Feature groups and prototypes

    [crates/spar-hir-def/src/feature_group.rs]: the features a feature group
    type stands for, with nested groups, extended types and inverses, to a
    depth of ten; [crates/spar-hir-def/src/prototype.rs]: the actuals bound to
    formal prototypes. *)
From S2P Require Import Prelude.
From S2P Require Import Diagnostics.
From S2P Require Import Names.
From S2P Require Import CategoryRules.
From S2P Require Import ItemTree.
From S2P Require Import Resolver.
#[local] Open Scope string_scope.

(** ** Feature groups *)

(** crates/spar-hir-def/src/feature_group.rs:12-21 [ExpandedFeature] *)
Record ExpandedFeature := {
  ef_feature_name : Name;
  ef_feature_kind : FeatureKind;
  ef_direction : option Direction;
  ef_group_prefix : option Name;
}.

(** crates/spar-hir-def/src/feature_group.rs:40-40 [MAX_DEPTH] *)
Definition MAX_DEPTH : nat := 10.

(** crates/spar-hir-def/src/feature_group.rs:126-131 [make_prefix] *)
Definition make_prefix (existing : option Name) (name : Name) : Name :=
  match existing with Some p => p +:+ "." +:+ name | None => name end.

(** crates/spar-hir-def/src/feature_group.rs:142-148 [flip_direction] *)
Definition flip_direction (dir : Direction) : Direction :=
  match dir with In => Out | Out => In | InOut => InOut end.

(** crates/spar-hir-def/src/feature_group.rs:134-139 [maybe_flip] *)
Definition maybe_flip (dir : option Direction) (is_inverse : bool) : option Direction :=
  if is_inverse then flip_direction <$> dir else dir.

(** crates/spar-hir-def/src/feature_group.rs:113-118 [expand_from_ref]: a feature
    that is emitted as it is (also lines 105-110). *)
Definition emitted (feat : Feature) (is_inverse : bool) (prefix : option Name) : ExpandedFeature :=
  {| ef_feature_name := ft_name feat; ef_feature_kind := ft_kind feat;
     ef_direction := maybe_flip (ft_direction feat) is_inverse; ef_group_prefix := prefix |}.

(** crates/spar-hir-def/src/feature_group.rs:43-123 [expand_from_ref]: [levels] more
    calls are allowed before the depth exceeds the maximum. *)
Fixpoint expand_from_ref (g : GlobalScope) (levels : nat) (package : Name) (class_ref : ClassifierRef)
    (is_inverse : bool) (prefix : option Name) : Exec (list ExpandedFeature) :=
  match levels with
  | O => Done []
  | S levels =>
      resolved ← resolve_classifier g package class_ref;
      match resolved with
      | ResolvedFeatureGroup pkg_name loc =>
          o ← get_feature_group_type g loc;
          match o with
          | None => Done []
          | Some fgt =>
              match fgt_inverse_of fgt with
              | Some inv_ref => expand_from_ref g levels pkg_name inv_ref (negb is_inverse) prefix
              | None =>
                  parent ← match fgt_extends fgt with
                           | Some ext_ref => expand_from_ref g levels pkg_name ext_ref is_inverse prefix
                           | None => Done []
                           end;
                  own ← concatM (λ feat_idx,
                    f ← get_feature g (loc_tree loc) feat_idx;
                    match f with
                    | None => Done []
                    | Some feat =>
                        match ft_kind feat, ft_classifier feat with
                        | FeatureGroup, Some nested_ref =>
                            expand_from_ref g levels pkg_name nested_ref is_inverse
                              (Some (make_prefix prefix (ft_name feat)))
                        | _, _ => Done [emitted feat is_inverse prefix]
                        end
                    end) (fgt_features fgt);
                  Done (parent ++ own)%list
              end
          end
      | _ => Done []
      end
  end.

(** crates/spar-hir-def/src/feature_group.rs:27-37 [expand_feature_group] *)
Definition expand_feature_group (g : GlobalScope) (package fg_name : Name) (is_inverse : bool)
  : Exec (list ExpandedFeature) :=
  expand_from_ref g (S MAX_DEPTH) package {| package := None; type_name := fg_name; impl_name := None |}
    is_inverse None.

(** ** Prototypes *)

(** crates/spar-hir-def/src/prototype.rs:25-36 [ResolvedPrototype] *)
Record ResolvedPrototype := {
  formal_name : Name;
  formal_category : option ComponentCategory;
  formal_constraining_classifier : option ClassifierRef;
  actual_classifier : option ClassifierRef;
  actual_category : option ComponentCategory;
}.

(** crates/spar-hir-def/src/prototype.rs:40-42 [ResolvedPrototype::is_bound] *)
Definition is_bound (p : ResolvedPrototype) : bool :=
  is_some (actual_classifier p) || is_some (actual_category p).

(** crates/spar-hir-def/src/prototype.rs:57-64 [resolve_prototypes]: the first
    binding of the name. *)
Fixpoint matching_binding (tree : ItemTree) (name : Name) (bindings : list ItemIdx)
  : Exec (option PrototypeBindingItem) :=
  match bindings with
  | [] => Done None
  | bind_idx :: bindings =>
      b ← arena_get (prototype_bindings tree) bind_idx;
      if eq_ci (pb_formal b) name then Done (Some b) else matching_binding tree name bindings
  end.

(** crates/spar-hir-def/src/prototype.rs:50-85 [resolve_prototypes] *)
Definition resolve_prototypes (tree : ItemTree) (formals bindings : list ItemIdx)
  : Exec (list ResolvedPrototype) :=
  mapM (λ formal_idx,
    formal ← arena_get (prototypes tree) formal_idx;
    b ← matching_binding tree (pt_name formal) bindings;
    Done {| formal_name := pt_name formal; formal_category := pt_category formal;
            formal_constraining_classifier := pt_constraining_classifier formal;
            actual_classifier := b ≫= pb_actual; actual_category := b ≫= pb_actual_category |}) formals.

(** crates/spar-hir-def/src/prototype.rs:92-109 [validate_prototype_bindings] *)
Definition validate_prototype_bindings (resolved : list ResolvedPrototype) : list string :=
  omap (λ p,
    match formal_category p, actual_category p with
    | Some formal_cat, Some actual_cat =>
        if bool_decide (formal_cat = actual_cat) then None
        else Some ("prototype '" +:+ formal_name p +:+ "': expected category '" +:+ category_fmt formal_cat
                   +:+ "', got '" +:+ category_fmt actual_cat +:+ "'")
    | _, _ => None
    end) resolved.

(** crates/spar-hir-def/src/prototype.rs:114-116 [unbound_prototypes] *)
Definition unbound_prototypes (resolved : list ResolvedPrototype) : list ResolvedPrototype :=
  List.filter (λ p, negb (is_bound p)) resolved.
#[local] Close Scope string_scope.

(** ** What a feature group stands for, read off the trees *)

(** Opposite directions: [in] and [out] are, [in out] is its own opposite, and
    so is a direction that is not given. *)
Inductive opposite : option Direction → option Direction → Prop :=
  | opposite_in : opposite (Some In) (Some Out)
  | opposite_out : opposite (Some Out) (Some In)
  | opposite_both : opposite (Some InOut) (Some InOut)
  | opposite_none : opposite None None.

(** The same feature with the opposite direction. *)
Definition opposed (f f' : ExpandedFeature) : Prop :=
  ef_feature_name f' = ef_feature_name f ∧ ef_feature_kind f' = ef_feature_kind f ∧
  ef_group_prefix f' = ef_group_prefix f ∧ opposite (ef_direction f) (ef_direction f').

(** The feature group type that a reference names. *)
Definition names_group (ts : list ItemTree) (from : Name) (c : ClassifierRef) (package : Name) (tree : ItemTree)
  (fgt : FeatureGroupTypeItem) : Prop :=
  ∃ loc, resolution ts from c = ResolvedFeatureGroup package loc ∧ ts !! loc_tree loc = Some tree ∧
    feature_group_types tree !! loc_raw_idx loc = Some fgt.

(** The path of a nested group. *)
Definition below (prefix : option Name) (nm : Name) : option Name :=
  Some (match prefix with None => nm | Some p => (p +:+ "." +:+ nm)%string end).

(** The features that a reference stands for, to a depth of [n].  The inverse of
    a type has the features of that type with the opposite directions;
    otherwise a type has those of the type it extends and then its own, in
    order.  Its own features are themselves, with the direction they are
    declared with, or the features of a nested group. *)
Inductive stands_for (ts : list ItemTree) : nat → Name → ClassifierRef → option Name → list ExpandedFeature → Prop :=
  | stands_deeper from c prefix : stands_for ts 0 from c prefix []
  | stands_no_group n from c prefix :
      (∀ package tree fgt, ¬ names_group ts from c package tree fgt) → stands_for ts (S n) from c prefix []
  | stands_inverse n from c prefix package tree fgt other fs fs' :
      names_group ts from c package tree fgt → fgt_inverse_of fgt = Some other →
      stands_for ts n package other prefix fs → Forall2 opposed fs fs' →
      stands_for ts (S n) from c prefix fs'
  | stands_root n from c prefix package tree fgt own :
      names_group ts from c package tree fgt → fgt_inverse_of fgt = None → fgt_extends fgt = None →
      members ts n package tree prefix (fgt_features fgt) own →
      stands_for ts (S n) from c prefix own
  | stands_extended n from c prefix package tree fgt base inherited own :
      names_group ts from c package tree fgt → fgt_inverse_of fgt = None → fgt_extends fgt = Some base →
      stands_for ts n package base prefix inherited → members ts n package tree prefix (fgt_features fgt) own →
      stands_for ts (S n) from c prefix (inherited ++ own)
with members (ts : list ItemTree) : nat → Name → ItemTree → option Name → list ItemIdx → list ExpandedFeature → Prop :=
  | members_nil n package tree prefix : members ts n package tree prefix [] []
  | members_plain n package tree prefix i is_ feat fs :
      tree_features tree !! i = Some feat → (ft_kind feat = FeatureGroup → ft_classifier feat = None) →
      members ts n package tree prefix is_ fs →
      members ts n package tree prefix (i :: is_)
        ({| ef_feature_name := ft_name feat; ef_feature_kind := ft_kind feat; ef_direction := ft_direction feat;
            ef_group_prefix := prefix |} :: fs)
  | members_nested n package tree prefix i is_ feat nested fs fs' :
      tree_features tree !! i = Some feat → ft_kind feat = FeatureGroup → ft_classifier feat = Some nested →
      stands_for ts n package nested (below prefix (ft_name feat)) fs →
      members ts n package tree prefix is_ fs' →
      members ts n package tree prefix (i :: is_) (fs ++ fs').

Scheme stands_for_mut := Minimality for stands_for Sort Prop
with members_mut := Minimality for members Sort Prop.
Combined Scheme stands_both_ind from stands_for_mut, members_mut.

(** ** Expansion *)

(** The list with directions turned round when it is expanded as an inverse. *)
Definition flipped (f : ExpandedFeature) : ExpandedFeature :=
  {| ef_feature_name := ef_feature_name f; ef_feature_kind := ef_feature_kind f;
     ef_direction := flip_direction <$> ef_direction f; ef_group_prefix := ef_group_prefix f |}.

Definition turned (inverse : bool) (fs : list ExpandedFeature) : list ExpandedFeature := if inverse then map flipped fs else fs.

Lemma turned_app b fs fs' : turned b (fs ++ fs') = turned b fs ++ turned b fs'.
Proof. destruct b; [apply map_app|done]. Qed.

Lemma opposed_flipped f f' : opposed f f' ↔ f' = flipped f.
Proof.
  unfold opposed, flipped. split.
  - destruct f as [? ? d ?], f' as [? ? d' ?]. cbn. intros (-> & -> & -> & H). f_equal. by destruct H.
  - intros ->. cbn. split_and!; try done. destruct (ef_direction f) as [[]|]; constructor.
Qed.

Lemma opposed_list fs fs' : Forall2 opposed fs fs' ↔ fs' = turned true fs.
Proof.
  cbn. split.
  - induction 1 as [|f f' fs fs' Hf _ IH]; [done|]. cbn. by rewrite <- IH, (proj1 (opposed_flipped _ _) Hf).
  - intros ->. induction fs as [|f fs IH]; constructor; [by apply opposed_flipped|done].
Qed.

Lemma turned_negb b fs : turned (negb b) fs = turned b (turned true fs).
Proof.
  destruct b; [|done]. cbn. rewrite map_map. symmetry. rewrite <- (map_id fs) at 2. apply map_ext. intros [? ? [[]|] ?]; done.
Qed.

Lemma emitted_turned b prefix feat : [emitted feat b prefix] =
  turned b [{| ef_feature_name := ft_name feat; ef_feature_kind := ft_kind feat; ef_direction := ft_direction feat;
               ef_group_prefix := prefix |}].
Proof. by destruct b. Qed.

Section expansion.
Context (ts : list ItemTree) (g : GlobalScope).
Hypothesis (Hok : Forall tree_ok ts) (Hg : from_trees ts = Done g).
Hypothesis (Hin : Forall (λ t, Forall (λ f, Forall (λ i, is_Some (tree_features t !! i)) (fgt_features f)) (feature_group_types t)) ts).

(** What a reference resolves to, and the type found there. *)
Lemma group_spec from c : ∃ r, resolve_classifier g from c = Done r ∧
  match r with
  | ResolvedFeatureGroup p loc => ∃ tree fgt, ts !! loc_tree loc = Some tree ∧ get_feature_group_type g loc = Done (Some fgt) ∧
      names_group ts from c p tree fgt ∧ Forall (λ i, is_Some (tree_features tree !! i)) (fgt_features fgt)
  | _ => ∀ p tree fgt, ¬ names_group ts from c p tree fgt
  end.
Proof.
  destruct (scope_holds ts g Hok Hg) as [Ht Hh]. rewrite (resolve_resolution ts g Hh). eexists. split; [done|].
  pose proof (resolution_declared ts from c) as Hd. unfold names_group.
  destruct (resolution ts from c) as [p loc|p loc|p loc|]; try by intros ? ? ? (? & ? & _).
  destruct Hd as (nm & _ & p' & loc' & item & tree & pkg & [= <- <- <-] & Htree & _ & _ & (_ & fgt & Hf & _) & _); [done|].
  exists tree, fgt. split; [done|]. unfold get_feature_group_type, arena_get. rewrite Ht, Htree, Hf. split; [done|].
  split; [by exists loc|]. rewrite Forall_forall in Hin. pose proof (Hin tree (list_elem_of_lookup_2 _ _ _ Htree)) as H.
  rewrite Forall_forall in H. by eapply H, list_elem_of_lookup_2.
Qed.

Lemma names_group_functional from c p1 t1 f1 p2 t2 f2 :
  names_group ts from c p1 t1 f1 → names_group ts from c p2 t2 f2 → p1 = p2 ∧ t1 = t2 ∧ f1 = f2.
Proof. intros (l1 & H1 & H2 & H3) (l2 & H1' & H2' & H3'). rewrite H1 in H1'. injection H1' as <- <-. by simplify_eq. Qed.

(** One feature of a type. *)
Definition expand_feature (n : nat) (p : Name) (tree_idx : nat) (b : bool) (prefix : option Name) (feat_idx : ItemIdx)
  : Exec (list ExpandedFeature) :=
  f ← get_feature g tree_idx feat_idx;
  match f with
  | None => Done []
  | Some feat =>
      match ft_kind feat, ft_classifier feat with
      | FeatureGroup, Some nested_ref => expand_from_ref g n p nested_ref b (Some (make_prefix prefix (ft_name feat)))
      | _, _ => Done [emitted feat b prefix]
      end
  end.

(** Expanding a reference to a type. *)
Lemma expand_from_ref_group n from c b prefix p tree fgt : names_group ts from c p tree fgt →
  ∃ tree_idx, ts !! tree_idx = Some tree ∧ expand_from_ref g (S n) from c b prefix =
    match fgt_inverse_of fgt with
    | Some inv_ref => expand_from_ref g n p inv_ref (negb b) prefix
    | None =>
        parent ← match fgt_extends fgt with Some ext_ref => expand_from_ref g n p ext_ref b prefix | None => Done [] end;
        own ← concatM (expand_feature n p tree_idx b prefix) (fgt_features fgt); Done (parent ++ own)
    end.
Proof.
  intros Hn. cbn [expand_from_ref]. destruct (group_spec from c) as (r & -> & Hr). cbn [mbind Exec_bind].
  destruct r as [?|?|p' loc|]; try by destruct (Hr p tree fgt). destruct Hr as (tree' & fgt' & Ht & -> & Hn' & _).
  destruct (names_group_functional _ _ _ _ _ _ _ _ Hn Hn') as (<- & <- & <-). by exists (loc_tree loc).
Qed.

Lemma expand_feature_at n p tree_idx tree b prefix i feat : ts !! tree_idx = Some tree → tree_features tree !! i = Some feat →
  expand_feature n p tree_idx b prefix i =
    match ft_kind feat, ft_classifier feat with
    | FeatureGroup, Some nested_ref => expand_from_ref g n p nested_ref b (below prefix (ft_name feat))
    | _, _ => Done [emitted feat b prefix]
    end.
Proof.
  intros Ht Hf. destruct (scope_holds ts g Hok Hg) as [Hts _]. unfold expand_feature, get_feature, arena_get. by rewrite Hts, Ht, Hf.
Qed.

Lemma stands_for_expanded :
  (∀ n from c prefix fs, stands_for ts n from c prefix fs → ∀ b, expand_from_ref g n from c b prefix = Done (turned b fs)) ∧
  (∀ n p tree prefix is_ fs, members ts n p tree prefix is_ fs →
     ∀ tree_idx b, ts !! tree_idx = Some tree → concatM (expand_feature n p tree_idx b prefix) is_ = Done (turned b fs)).
Proof.
  apply stands_both_ind.
  - intros from c prefix []; done.
  - intros n from c prefix Hn b. cbn [expand_from_ref]. destruct (group_spec from c) as (r & -> & Hr). cbn [mbind Exec_bind].
    destruct r as [?|?|p loc|]; try by destruct b. destruct Hr as (tree & fgt & _ & _ & H & _). by destruct (Hn p tree fgt).
  - intros n from c prefix p tree fgt other fs fs' Hn Hi _ IH Ho b. apply opposed_list in Ho as ->.
    destruct (expand_from_ref_group n from c b prefix p tree fgt Hn) as (j & _ & ->). by rewrite Hi, IH, turned_negb.
  - intros n from c prefix p tree fgt own Hn Hi He _ IH b.
    destruct (expand_from_ref_group n from c b prefix p tree fgt Hn) as (j & Hj & ->). rewrite Hi, He. cbn [mbind Exec_bind].
    by rewrite IH.
  - intros n from c prefix p tree fgt base inherited own Hn Hi He _ IHb _ IH b.
    destruct (expand_from_ref_group n from c b prefix p tree fgt Hn) as (j & Hj & ->). rewrite Hi, He, IHb. cbn [mbind Exec_bind].
    rewrite IH by done. cbn [mbind Exec_bind]. by rewrite turned_app.
  - intros n p tree prefix j []; done.
  - intros n p tree prefix i is_ feat fs Hf Hk _ IH j b Hj. cbn [concatM]. rewrite (expand_feature_at _ _ _ _ _ _ _ _ Hj Hf).
    rewrite IH by done.
    assert (match ft_kind feat, ft_classifier feat with
      | FeatureGroup, Some nested_ref => expand_from_ref g n p nested_ref b (below prefix (ft_name feat))
      | _, _ => Done [emitted feat b prefix] end = Done [emitted feat b prefix]) as ->
      by (destruct (ft_kind feat); try done; by rewrite Hk).
    cbn [mbind Exec_bind]. rewrite emitted_turned, <- turned_app. done.
  - intros n p tree prefix i is_ feat nested fs fs' Hf Hk Hc _ IHn _ IH j b Hj. cbn [concatM].
    rewrite (expand_feature_at _ _ _ _ _ _ _ _ Hj Hf), Hk, Hc, IHn, IH by done. cbn [mbind Exec_bind]. by rewrite turned_app.
Qed.

Lemma stands_for_something n : ∀ from c prefix, ∃ fs, stands_for ts n from c prefix fs.
Proof.
  induction n as [|n IH]; intros from c prefix; [eexists; constructor|]. destruct (group_spec from c) as (r & _ & Hr).
  destruct r as [?|?|p loc|]; try (eexists; by apply stands_no_group). destruct Hr as (tree & fgt & _ & _ & Hn & Hidx).
  destruct (fgt_inverse_of fgt) as [other|] eqn:Hi.
  { destruct (IH p other prefix) as [fs Hfs]. exists (turned true fs). eapply stands_inverse; [done..|]. by apply opposed_list. }
  assert (∃ own, members ts n p tree prefix (fgt_features fgt) own) as [own Hown].
  { induction Hidx as [|i is_ [feat Hf] _ [own Hown]]; [eexists; constructor|].
    destruct (decide (ft_kind feat = FeatureGroup)) as [Hk|Hk]; [|eexists; by eapply members_plain].
    destruct (ft_classifier feat) as [nested|] eqn:Hc; [|eexists; by eapply members_plain].
    destruct (IH p nested (below prefix (ft_name feat))) as [fs Hfs]. eexists. by eapply members_nested. }
  destruct (fgt_extends fgt) as [base|] eqn:He; [|eexists; by eapply stands_root].
  destruct (IH p base prefix) as [inherited Hb]. eexists. by eapply stands_extended.
Qed.
End expansion.

(** C25: the expansion of a feature group type gives exactly the features that
    the declarations say it has.  On item trees whose packages and feature
    group types have indices in range it returns; the features are those of
    the type that an extension names, then the type's own, each with the
    direction it is declared with, those of a nested group in its place and
    under its path; and a type that is the inverse of another has the
    features of that one with [in] and [out] exchanged, at whatever level it
    is used.  Expanded as an inverse, the group has the same features in the
    same order with the opposite directions.  What lies more than ten levels
    deep is left out, and a reference that names no feature group type stands
    for nothing. *)
Theorem expand_feature_group_exact ts g package fg_name :
  Forall tree_ok ts → from_trees ts = Done g →
  Forall (λ t, Forall (λ f, Forall (λ i, is_Some (tree_features t !! i)) (fgt_features f)) (feature_group_types t)) ts →
  ∃ fs, stands_for ts 11 package (ref_ex None fg_name None) None fs ∧
    (∀ fs', stands_for ts 11 package (ref_ex None fg_name None) None fs' → fs' = fs) ∧
    expand_feature_group g package fg_name false = Done fs ∧
    ∃ fs', expand_feature_group g package fg_name true = Done fs' ∧ Forall2 opposed fs fs'.
Proof.
  intros Hok Hg Hin. destruct (stands_for_something ts g Hok Hg Hin 11 package (ref_ex None fg_name None) None) as [fs Hfs].
  assert (Hexp : ∀ fs b, stands_for ts 11 package (ref_ex None fg_name None) None fs → expand_feature_group g package fg_name b = Done (turned b fs)).
  { intros fs' b H. by apply (proj1 (stands_for_expanded ts g Hok Hg Hin) _ _ _ _ _ H b). }
  exists fs. split; [done|]. split.
  - intros fs' H. pose proof (Hexp fs false Hfs) as E. rewrite (Hexp fs' false H) in E. by injection E.
  - split; [by apply (Hexp fs false)|]. exists (turned true fs). split; [by apply (Hexp fs true)|]. by apply opposed_list.
Qed.

(** [J] is the inverse of [G], which holds a port and a nested group [H]. *)
#[local] Open Scope string_scope.
Definition feature_ex (name : Name) (kind : FeatureKind) (dir : option Direction) (c : option Name) : Feature :=
  {| ft_name := name; ft_kind := kind; ft_direction := dir; ft_access_kind := None;
     ft_classifier := (λ t, ref_ex None t None) <$> c; ft_is_refined := false; ft_array_dimensions := [];
     ft_property_associations := [] |}.

Definition fgt_ex (name : Name) (inverse : option Name) (features : list ItemIdx) : FeatureGroupTypeItem :=
  {| fgt_name := name; fgt_is_public := true; fgt_extends := None;
     fgt_inverse_of := (λ t, ref_ex None t None) <$> inverse; fgt_features := features; fgt_prototypes := [] |}.

Definition groups_ex : ItemTree :=
  {| packages := [{| pkg_name := "P"; pkg_with_clauses := [];
                     pkg_public_items := [RFeatureGroupType 0; RFeatureGroupType 1; RFeatureGroupType 2];
                     pkg_private_items := []; pkg_renames := [] |}];
     component_types := []; component_impls := [];
     feature_group_types := [fgt_ex "G" None [0; 1]%nat; fgt_ex "H" None [2%nat]; fgt_ex "J" (Some "g") []];
     property_sets := [];
     tree_features := [feature_ex "p" DataPort (Some In) None; feature_ex "n" FeatureGroup None (Some "H");
                       feature_ex "q" EventPort (Some Out) None];
     tree_subcomponents := []; tree_connections := []; flow_specs := []; end_to_end_flows := [];
     property_associations := []; tree_modes := []; tree_mode_transitions := []; prototypes := [];
     prototype_bindings := []; flow_impls := []; call_sequences := []; subprogram_calls := [];
     renames := []; emv2_subclauses := []; impl_local_features := []; tree_diagnostics := [] |}.

Definition members_ex : list ExpandedFeature :=
  [{| ef_feature_name := "p"; ef_feature_kind := DataPort; ef_direction := Some Out; ef_group_prefix := None |};
   {| ef_feature_name := "q"; ef_feature_kind := EventPort; ef_direction := Some In; ef_group_prefix := Some "n" |}].

Example expand_inverse_of : (g ← from_trees [groups_ex]; expand_feature_group g "P" "J" false) = Done members_ex.
Proof. vm_compute. reflexivity. Qed.

Lemma expand_feature_group_exact_witness :
  ∃ g, from_trees [groups_ex] = Done g ∧ stands_for [groups_ex] 11 "P" (ref_ex None "J" None) None members_ex.
Proof.
  assert (Hok : Forall tree_ok [groups_ex]) by (repeat first [constructor|eexists; reflexivity]).
  destruct (from_trees_spec [groups_ex] Hok) as (g & Hg & _).
  assert (Hin : Forall (λ t, Forall (λ f, Forall (λ i, is_Some (tree_features t !! i)) (fgt_features f)) (feature_group_types t)) [groups_ex])
    by (repeat first [constructor|eexists; reflexivity]).
  destruct (expand_feature_group_exact [groups_ex] g "P" "J" Hok Hg Hin) as (fs & Hfs & _ & He & _).
  exists g. split; [exact Hg|]. pose proof expand_inverse_of as E. rewrite Hg in E. cbn [mbind Exec_bind] in E.
  rewrite He in E. injection E as ->. exact Hfs.
Defined.
