(* ===== verification/Containment.v ===== *)
(** * Circular containment

    [detect_circular_containment] of [crates/spar-hir-def/src/instance.rs]: a
    depth-first search through the implementations that the subcomponents of
    implementations refer to, which the instantiation makes before it expands
    them. *)
From S2P Require Import Prelude.
From S2P Require Import Diagnostics.
From S2P Require Import Names.
From S2P Require Import CategoryRules.
From S2P Require Import ItemTree.
From S2P Require Import Resolver.
From stdpp Require Import gmap strings relations.
#[local] Open Scope string_scope.

(** crates/spar-hir-def/src/instance.rs:1490-1490 [ClassKey] *)
Definition ClassKey : Type := string * string * string.

(** An implementation as it is referred to: package, type and name. *)
Abbreviation Node := (Name * Name * Name)%type (only parsing).

(** crates/spar-hir-def/src/instance.rs:1493-1499 [make_key] *)
Definition make_key (n : Node) : ClassKey :=
  let '(pkg, type_name, impl_name) := n in
  (to_ascii_lowercase pkg, to_ascii_lowercase type_name, to_ascii_lowercase impl_name).

(** The three arguments of the search that it mutates. *)
Record Search := { visiting : gset ClassKey; visited : gset ClassKey; path : list string }.

(** crates/spar-hir-def/src/instance.rs:1516-1516 [dfs] *)
Definition label (n : Node) : string :=
  let '(pkg, type_name, impl_name) := n in pkg +:+ "::" +:+ type_name +:+ "." +:+ impl_name.

(** crates/spar-hir-def/src/instance.rs:1520-1523 [dfs] *)
Definition cycle_message (path : list string) : string :=
  "circular containment detected: " +:+ str_join " -> " path +:+ " (STPA-REQ-012)".

(** crates/spar-hir-def/src/instance.rs:1536-1557 [dfs]: the loop over the
    subcomponents of an implementation. *)
Fixpoint visit_all (visit : Node → Search → Exec (option string * Search)) (g : GlobalScope)
    (loc : ItemLoc) (res_pkg : Name) (subs : list ItemIdx) (st : Search) : Exec (option string * Search) :=
  match subs with
  | [] => Done (None, st)
  | sub_idx :: subs =>
      match trees g !! loc_tree loc with
      | None => visit_all visit g loc res_pkg subs st
      | Some tree =>
          sub ← arena_get (tree_subcomponents tree) sub_idx;
          match sub_classifier sub with
          | Some cls_ref =>
              match impl_name cls_ref with
              | Some sub_impl =>
                  '(result, st) ← visit (default res_pkg (package cls_ref), type_name cls_ref, sub_impl) st;
                  match result with
                  | Some _ => Done (result, st)
                  | None => visit_all visit g loc res_pkg subs st
                  end
              | None => visit_all visit g loc res_pkg subs st
              end
          | None => visit_all visit g loc res_pkg subs st
          end
      end
  end.

(** crates/spar-hir-def/src/instance.rs:1501-1564 [dfs] *)
Fixpoint dfs (g : GlobalScope) (fuel : nat) (n : Node) (st : Search) : Exec (option string * Search) :=
  match fuel with
  | O => Stuck
  | S fuel =>
      let key := make_key n in
      if bool_decide (key ∈ visited st) then Done (None, st)
      else if bool_decide (key ∈ visiting st) then
        let path := (path st ++ [label n])%list in
        Done (Some (cycle_message path),
              {| visiting := visiting st; visited := visited st; path := path |})
      else
        let st := {| visiting := {[key]} ∪ visiting st; visited := visited st;
                     path := (path st ++ [label n])%list |} in
        let '(pkg, type_name, impl) := n in
        resolved ← resolve_classifier g pkg {| package := Some pkg; type_name := type_name; impl_name := Some impl |};
        '(result, st) ←
          match resolved with
          | ResolvedImpl res_pkg loc =>
              o ← get_component_impl g loc;
              match o with
              | Some c => visit_all (dfs g fuel) g loc res_pkg (ci_subcomponents c) st
              | None => Done (None, st)
              end
          | _ => Done (None, st)
          end;
        match result with
        | Some _ => Done (result, st)
        | None => Done (None, {| visiting := visiting st ∖ {[key]}; visited := {[key]} ∪ visited st;
                                 path := removelast (path st) |})
        end
  end.

(** ** The depth of the search

    Every key on the stack is that of the root or of a reference written in a
    tree, qualified with its own package or with one that is declared. *)
Definition declared_packages (ts : list ItemTree) : list Name :=
  tree ← ts; pkg_name <$> packages tree.

Definition class_keys (ts : list ItemTree) : list ClassKey :=
  tree ← ts; sub ← tree_subcomponents tree;
  match sub_classifier sub with
  | Some cls_ref =>
      match impl_name cls_ref with
      | Some sub_impl =>
          (λ p, make_key (default p (package cls_ref), type_name cls_ref, sub_impl)) <$> declared_packages ts
      | None => []
      end
  | None => []
  end.

(** crates/spar-hir-def/src/instance.rs:1566-1578 [detect_circular_containment] *)
Definition detect_circular_containment (g : GlobalScope) (root_package root_type root_impl : Name)
  : Exec (option string) :=
  r ← dfs g (2 + length (class_keys (trees g))) (root_package, root_type, root_impl)
        {| visiting := ∅; visited := ∅; path := [] |};
  Done r.1.
#[local] Close Scope string_scope.

(** ** What the search finds *)

(** The declarations that a resolved reference leads to, with the packages
    they are in. *)
Section declared.
Context (ts : list ItemTree) (g : GlobalScope).
Hypothesis (Hok : Forall tree_ok ts) (Hg : from_trees ts = Done g).

Lemma scope_trees : trees g = ts.
Proof. by destruct (scope_holds ts g Hok Hg). Qed.

Lemma resolve_returns from reference : ∃ r, resolve_classifier g from reference = Done r.
Proof. destruct (scope_holds ts g Hok Hg) as [_ Hh]. eexists. apply (resolve_resolution ts g Hh). Qed.

Lemma declared_packages_elem tree pkg : tree ∈ ts → pkg ∈ packages tree → pkg_name pkg ∈ declared_packages ts.
Proof.
  intros Ht Hp. apply list_elem_of_bind. exists tree. split; [|done]. apply list_elem_of_fmap. by exists pkg.
Qed.

Lemma resolved_impl from reference p loc :
  resolve_classifier g from reference = Done (ResolvedImpl p loc) →
  p ∈ declared_packages ts ∧ ∃ tree c, trees g !! loc_tree loc = Some tree ∧ tree ∈ ts ∧ c ∈ component_impls tree ∧
    get_component_impl g loc = Done (Some c).
Proof.
  intros H. destruct (scope_holds ts g Hok Hg) as [Ht Hh]. rewrite (resolve_resolution ts g Hh) in H. injection H as H.
  destruct (resolution_declared ts from reference) as (named & _ & p' & loc' & item & tree & pkg & E & Htree & Hpkg & Hn & Hi & _);
    rewrite H in *; [done|]. injection E as <- <- <-. destruct Hi as (i & c & _ & Hc & _).
  split; [rewrite <- Hn; apply (declared_packages_elem tree); [by eapply list_elem_of_lookup_2|done]|].
  exists tree, c. unfold get_component_impl, arena_get. rewrite Ht, Htree, Hc.
  split_and!; [done|by eapply list_elem_of_lookup_2..|done].
Qed.
End declared.

(** A subcomponent of the implementation refers to another implementation,
    as the search reads it. *)
Inductive contains (g : GlobalScope) : Node → Node → Prop :=
  | contains_intro p t i res_pkg loc c tree sub_idx sub cls_ref impl :
      resolve_classifier g p {| package := Some p; type_name := t; impl_name := Some i |} = Done (ResolvedImpl res_pkg loc) →
      get_component_impl g loc = Done (Some c) → trees g !! loc_tree loc = Some tree →
      sub_idx ∈ ci_subcomponents c → tree_subcomponents tree !! sub_idx = Some sub →
      sub_classifier sub = Some cls_ref → impl_name cls_ref = Some impl →
      contains g (p, t, i) (default res_pkg (package cls_ref), type_name cls_ref, impl).

Definition linked (g : GlobalScope) (ns : list Node) : Prop :=
  ∀ i a b, ns !! i = Some a → ns !! S i = Some b → contains g a b.

(** Only the key of an implementation matters for what it contains. *)
Lemma resolve_key g p t i p' t' i' :
  make_key (p, t, i) = make_key (p', t', i') →
  resolve_classifier g p {| package := Some p; type_name := t; impl_name := Some i |} =
  resolve_classifier g p' {| package := Some p'; type_name := t'; impl_name := Some i' |}.
Proof.
  intros [= Hp Ht Hi]. unfold resolve_classifier. cbn [resolve_classifier_to].
  unfold target_package, resolve_in_package, renamed_reference, ci. cbn [package type_name impl_name].
  rewrite Hp, Ht, Hi. done.
Qed.

Lemma contains_key g n n' m : make_key n = make_key n' → contains g n m → contains g n' m.
Proof.
  intros Hk H. destruct H as [p t i res_pkg loc c tree sub_idx sub cls_ref impl Hr].
  destruct n' as [[p' t'] i']. rewrite (resolve_key g _ _ _ _ _ _ Hk) in Hr. by eapply contains_intro.
Qed.

Lemma linked_tc g ns i j a b : linked g ns → ns !! i = Some a → ns !! j = Some b → i < j → tc (contains g) a b.
Proof.
  intros Hl Ha. revert b. induction j as [|j IH]; intros b Hb Hij; [lia|].
  assert (is_Some (ns !! j)) as [c Hc] by (apply lookup_lt_is_Some; apply lookup_lt_Some in Hb; lia).
  destruct (decide (i = j)) as [<-|]; [replace c with a in Hc by congruence; by apply tc_once, (Hl i)|].
  eapply tc_r; [apply IH; [done|lia]|by eapply Hl].
Qed.

Lemma linked_snoc g ns n m : linked g (ns ++ [n]) → contains g n m → linked g ((ns ++ [n]) ++ [m]).
Proof.
  intros H Hc i a b Ha Hb. pose proof (lookup_lt_Some _ _ _ Hb) as Hlt. rewrite !length_app in Hlt. cbn in Hlt.
  rewrite lookup_app_l in Ha by (rewrite length_app; cbn; lia).
  destruct (decide (S i < length (ns ++ [n]))) as [Hi|Hi].
  - rewrite lookup_app_l in Hb by done. by eapply H.
  - rewrite length_app in Hi. cbn in Hi. replace i with (length ns) in * by lia.
    rewrite lookup_app_r in Hb by (rewrite length_app; cbn; lia).
    rewrite length_app in Hb. cbn in Hb. replace (S (length ns) - (length ns + 1)) with 0 in Hb by lia.
    rewrite lookup_app_r, Nat.sub_diag in Ha by lia. by simplify_eq/=.
Qed.

Lemma acc_no_cycle {A} (R : A → A → Prop) x : Acc (flip R) x → ¬ tc R x x.
Proof.
  induction 1 as [x _ IH]. intros H. inversion H as [? y Hy|? y z Hy Hyz]; subst; [by apply (IH x)|].
  apply (IH y Hy). eapply tc_r; done.
Qed.

Lemma acc_rtc {A} (R : A → A → Prop) x y : rtc R x y → Acc (flip R) x → Acc (flip R) y.
Proof. induction 1 as [|x y z Hxy _ IH]; [done|]. intros [H]. by apply IH, H. Qed.

Lemma elem_keys (key : ClassKey) (ns : list Node) : key ∈ make_key <$> ns ↔ ∃ n, n ∈ ns ∧ make_key n = key.
Proof. rewrite list_elem_of_fmap. naive_solver. Qed.

Section search.
Context (ts : list ItemTree) (g : GlobalScope) (root : Node).
Hypothesis (Hok : Forall tree_ok ts) (Hg : from_trees ts = Done g).
Hypothesis (Hsubs : Forall (λ tree, Forall (λ c,
  Forall (λ i, is_Some (tree_subcomponents tree !! i)) (ci_subcomponents c)) (component_impls tree)) ts).

Definition universe : list ClassKey := make_key root :: class_keys ts.

(** What holds of the search while the implementations of [stack] are being
    visited. *)
Record searching (stack : list Node) (st : Search) : Prop := {
  se_visiting key : key ∈ visiting st ↔ key ∈ make_key <$> stack;
  se_visited n : make_key n ∈ visited st → Acc (flip (contains g)) n;
  se_path : path st = label <$> stack;
  se_once : NoDup (make_key <$> stack);
  se_known : make_key <$> stack ⊆ universe;
}.

(** A circular containment below [stack]: the chain to an implementation that
    is on it already, and the message that shows it. *)
Definition circular (stack : list Node) (n : Node) (message : string) : Prop :=
  ∃ l k, head (l ++ [k]) = Some n ∧ linked g (stack ++ l ++ [k]) ∧ make_key k ∈ make_key <$> (stack ++ l) ∧
    message = cycle_message (label <$> (stack ++ l ++ [k])).

(** The outcome of visiting: nothing, and the keys of the nodes that satisfy
    [done_] are visited, or a circular containment below one of them. *)
Definition outcome (stack : list Node) (done_ : Node → Prop) (st : Search) (r : Exec (option string * Search)) : Prop :=
  (∃ st', r = Done (None, st') ∧ searching stack st' ∧ visited st ⊆ visited st' ∧
          ∀ n, done_ n → make_key n ∈ visited st') ∨
  ∃ message st' n, r = Done (Some message, st') ∧ done_ n ∧ circular stack n message.

Lemma stack_bound stack st : searching stack st → length stack ≤ length universe.
Proof.
  intros H. rewrite <- (length_fmap make_key stack). apply submseteq_length, NoDup_submseteq; [by eapply se_once|by eapply se_known].
Qed.

Lemma in_class_keys tree sub cls_ref impl p :
  tree ∈ ts → sub ∈ tree_subcomponents tree → sub_classifier sub = Some cls_ref → impl_name cls_ref = Some impl →
  p ∈ declared_packages ts → make_key (default p (package cls_ref), type_name cls_ref, impl) ∈ universe.
Proof.
  intros Ht Hs Hc Hi Hp. right. apply list_elem_of_bind. exists tree. split; [|done].
  apply list_elem_of_bind. exists sub. split; [|done]. rewrite Hc, Hi. apply list_elem_of_fmap. by exists p.
Qed.

Lemma visit_all_spec visit stack n loc res_pkg tree c subs st :
  (∀ m st, searching (stack ++ [n]) st → linked g ((stack ++ [n]) ++ [m]) → make_key m ∈ universe →
     outcome (stack ++ [n]) (eq m) st (visit m st)) →
  res_pkg ∈ declared_packages ts → tree ∈ ts → c ∈ component_impls tree → trees g !! loc_tree loc = Some tree →
  subs ⊆ ci_subcomponents c → linked g (stack ++ [n]) → searching (stack ++ [n]) st →
  (∀ sub_idx sub cls_ref impl, sub_idx ∈ subs → tree_subcomponents tree !! sub_idx = Some sub →
     sub_classifier sub = Some cls_ref → impl_name cls_ref = Some impl →
     contains g n (default res_pkg (package cls_ref), type_name cls_ref, impl)) →
  outcome (stack ++ [n]) (λ m, ∃ sub_idx sub cls_ref impl, sub_idx ∈ subs ∧ tree_subcomponents tree !! sub_idx = Some sub ∧
     sub_classifier sub = Some cls_ref ∧ impl_name cls_ref = Some impl ∧
     m = (default res_pkg (package cls_ref), type_name cls_ref, impl)) st
    (visit_all visit g loc res_pkg subs st).
Proof.
  intros Hvisit Hp Ht Hc Htree. revert st. induction subs as [|sub_idx subs IH]; intros st Hin Hl Hst Hcont.
  { left. exists st. split_and!; try done. intros m (? & ? & ? & ? & []%not_elem_of_nil & _). }
  cbn [visit_all]. rewrite Htree.
  assert (is_Some (tree_subcomponents tree !! sub_idx)) as [sub Hsub].
  { rewrite Forall_forall in Hsubs. specialize (Hsubs tree Ht). rewrite Forall_forall in Hsubs.
    specialize (Hsubs c Hc). rewrite Forall_forall in Hsubs. apply Hsubs, Hin. by left. }
  assert (IH' : ∀ st', searching (stack ++ [n]) st' → visited st ⊆ visited st' →
    (∀ cls_ref impl, sub_classifier sub = Some cls_ref → impl_name cls_ref = Some impl →
       make_key (default res_pkg (package cls_ref), type_name cls_ref, impl) ∈ visited st') →
    outcome (stack ++ [n]) (λ m, ∃ sub_idx0 sub0 cls_ref impl, sub_idx0 ∈ sub_idx :: subs ∧
       tree_subcomponents tree !! sub_idx0 = Some sub0 ∧ sub_classifier sub0 = Some cls_ref ∧
       impl_name cls_ref = Some impl ∧ m = (default res_pkg (package cls_ref), type_name cls_ref, impl)) st
      (visit_all visit g loc res_pkg subs st')).
  { intros st' Hst' Hv Hhere. destruct (IH st') as [(st2 & -> & Hs2 & Hv2 & Hd)|(msg & st2 & m & -> & Hd & Hc2)]; try done.
    - intros x Hx. apply Hin. by right.
    - intros ???? Hx. eapply Hcont. by right.
    - left. exists st2. split_and!; try done; [set_solver|].
      intros m (i & s & cr & im & [->|Hi]%elem_of_cons & Hs & Hcr & Him & ->).
      + simplify_eq. apply Hv2. by apply Hhere.
      + apply Hd. by exists i, s, cr, im.
    - right. exists msg, st2, m. split_and!; try done. destruct Hd as (i & s & cr & im & Hi & ?). exists i, s, cr, im.
      split; [by right|done]. }
  unfold arena_get. rewrite Hsub. cbn [mbind Exec_bind].
  destruct (sub_classifier sub) as [cls_ref|] eqn:Ecr; [|by apply IH'].
  destruct (impl_name cls_ref) as [impl|] eqn:Eim; [|apply IH'; [done..|congruence]].
  destruct (Hvisit (default res_pkg (package cls_ref), type_name cls_ref, impl) st)
    as [(st' & -> & Hst' & Hv & Hd)|(msg & st' & m & -> & <- & Hcirc)].
  - done.
  - apply linked_snoc; [done|]. eapply Hcont; [by left|done..].
  - by eapply in_class_keys; [|eapply list_elem_of_lookup_2| | |].
  - apply IH'; [done..|]. intros cr im [= <-] E. rewrite Eim in E. injection E as <-. by apply Hd.
  - right. exists msg, st'. eexists. split; [done|]. split; [|exact Hcirc]. exists sub_idx, sub, cls_ref, impl. by split_and!; [left|..].
Qed.

Lemma searching_push stack st n :
  searching stack st → make_key n ∉ visiting st → make_key n ∈ universe →
  searching (stack ++ [n]) {| visiting := {[make_key n]} ∪ visiting st; visited := visited st;
                              path := (path st ++ [label n])%list |}.
Proof.
  intros [H1 H2 H3 H4 H5] Hn Hu. split; cbn.
  - intros key. rewrite elem_of_union, elem_of_singleton, H1, fmap_app, elem_of_app. cbn. rewrite list_elem_of_singleton. tauto.
  - done.
  - by rewrite H3, fmap_app.
  - rewrite fmap_app. apply NoDup_app. split_and!; [done| |by apply NoDup_singleton].
    intros key Hk Hk2%list_elem_of_singleton. subst key. by apply Hn, H1.
  - rewrite fmap_app. intros key [?| ->%list_elem_of_singleton]%elem_of_app; [by apply H5|done].
Qed.

Lemma searching_pop stack st n :
  searching (stack ++ [n]) st → (∀ m, contains g n m → make_key m ∈ visited st) →
  searching stack {| visiting := visiting st ∖ {[make_key n]}; visited := {[make_key n]} ∪ visited st;
                     path := removelast (path st) |}.
Proof.
  intros [H1 H2 H3 H4 H5] Hn. rewrite fmap_app in H3. rewrite fmap_app in H4. rewrite fmap_app in H5. apply NoDup_app in H4 as (H4 & Hd & _).
  split; cbn.
  - intros key. rewrite elem_of_difference, elem_of_singleton, H1, fmap_app, elem_of_app. cbn. rewrite list_elem_of_singleton.
    split; [tauto|]. intros Hk. split; [by left|]. intros ->. apply (Hd (make_key n) Hk). by left.
  - intros n' [E%elem_of_singleton|?]%elem_of_union; [|by apply H2]. constructor. intros m Hm.
    apply H2, Hn. by apply (contains_key g n').
  - rewrite H3. cbn. apply removelast_last.
  - done.
  - intros key Hk. apply H5, elem_of_app. by left.
Qed.

Lemma dfs_spec fuel : ∀ n st stack,
  searching stack st → linked g (stack ++ [n]) → make_key n ∈ universe → length universe < fuel + length stack →
  outcome stack (eq n) st (dfs g fuel n st).
Proof.
  induction fuel as [|fuel IH]; intros n st stack Hst Hl Hu Hf.
  { pose proof (stack_bound stack st Hst). lia. }
  cbn [dfs]. case_bool_decide as Hv; [left; exists st; by split_and!; [..|intros ? <-]|].
  case_bool_decide as Hg'.
  { right. eexists _, _, n. split; [done|]. split; [done|]. exists [], n. rewrite app_nil_r.
    split_and!; [done..|by apply se_visiting with (st := st)|].
    by rewrite (se_path _ _ Hst), fmap_app. }
  pose proof (searching_push stack st n Hst Hg' Hu) as Hpush.
  set (st1 := {| visiting := _; visited := visited st; path := _ |}) in *.
  assert (Hsearched : ∀ r, outcome (stack ++ [n]) (contains g n) st1 r →
    outcome stack (eq n) st ('(result, st) ← r;
      match result with
      | Some _ => Done (result, st)
      | None => Done (None, {| visiting := visiting st ∖ {[make_key n]}; visited := {[make_key n]} ∪ visited st;
                               path := removelast (path st) |})
      end)).
  { intros r [(st' & -> & Hs' & Hv' & Hd)|(msg & st' & m & -> & Hd & l & k & Hh & Hlk & Hk & Hm)]; cbn.
    - left. eexists. split; [done|]. split; [by apply searching_pop|]. split; [set_solver|]. intros ? <-. set_solver.
    - right. exists msg, st', n. split_and!; [done..|]. exists (n :: l), k.
      replace (stack ++ (n :: l) ++ [k])%list with ((stack ++ [n]) ++ l ++ [k])%list by by rewrite <- app_assoc.
      split_and!; try done. by replace (stack ++ n :: l)%list with ((stack ++ [n]) ++ l)%list by by rewrite <- app_assoc. }
  destruct n as [[p t] i]. destruct (resolve_returns ts g Hok Hg p {| package := Some p; type_name := t; impl_name := Some i |})
    as [resolved Hr]. rewrite Hr. cbn [mbind Exec_bind].
  assert (Hnone : (∀ res_pkg loc, resolved ≠ ResolvedImpl res_pkg loc) →
    outcome (stack ++ [(p, t, i)]) (contains g (p, t, i)) st1 (Done (None, st1))).
  { intros Hne. left. exists st1. split_and!; try done. intros m Hm. exfalso.
    inversion Hm as [? ? ? rp lc ? ? ? ? ? ? Hr0]; subst. rewrite Hr in Hr0. injection Hr0 as ->. by apply (Hne rp lc). }
  destruct resolved as [?|res_pkg loc|?|]; try (by apply Hsearched, Hnone). clear Hnone.
  destruct (resolved_impl ts g Hok Hg _ _ _ _ Hr) as (Hp & tree & c & Htree & Hin & Hc & Hget). rewrite Hget.
  cbn [mbind Exec_bind]. apply Hsearched. assert (Hcont : ∀ m, contains g (p, t, i) m ↔
    ∃ sub_idx sub cls_ref impl, sub_idx ∈ ci_subcomponents c ∧ tree_subcomponents tree !! sub_idx = Some sub ∧
     sub_classifier sub = Some cls_ref ∧ impl_name cls_ref = Some impl ∧
     m = (default res_pkg (package cls_ref), type_name cls_ref, impl)).
  { intros m. split.
    - intros Hm. inversion Hm as [? ? ? rp lc c0 tr j sub cr im Hr0 Hget0 Htree0 ? ? ? ?]; subst.
      rewrite Hr in Hr0. injection Hr0 as <- <-. rewrite Hget in Hget0. injection Hget0 as <-.
      rewrite Htree in Htree0. injection Htree0 as <-. by exists j, sub, cr, im.
    - intros (j & sub & cr & im & ? & ? & ? & ? & ->). by eapply contains_intro. }
  edestruct (visit_all_spec (dfs g fuel) stack (p, t, i) loc res_pkg tree c (ci_subcomponents c) st1)
    as [(st' & E & Hs' & Hv' & Hd)|(msg & st' & m & E & Hd & Hm)]; try done.
  - intros m st0 Hst0 Hl0 Hu0. apply IH; [done..|]. rewrite length_app. cbn [length]. lia.
  - intros j sub cr im ? ? ? ?. apply Hcont. by exists j, sub, cr, im.
  - left. exists st'. split_and!; try done. intros m Hm. apply Hd, Hcont, Hm.
  - right. exists msg, st', m. split_and!; [done| |done]. by apply Hcont.
Qed.
End search.

(** The search from the root implementation ends. *)
Lemma detect_returns ts g p t i :
  Forall tree_ok ts → from_trees ts = Done g →
  Forall (λ tree, Forall (λ c, Forall (λ i, is_Some (tree_subcomponents tree !! i)) (ci_subcomponents c))
                    (component_impls tree)) ts →
  (detect_circular_containment g p t i = Done None ∧ Acc (flip (contains g)) (p, t, i)) ∨
  ∃ message chain n, detect_circular_containment g p t i = Done (Some message) ∧ head (chain ++ [n]) = Some (p, t, i) ∧
    linked g (chain ++ [n]) ∧ make_key n ∈ make_key <$> chain ∧ message = cycle_message (label <$> (chain ++ [n])).
Proof.
  intros Hok Hg Hsubs. unfold detect_circular_containment. rewrite (scope_trees ts g Hok Hg).
  destruct (dfs_spec ts g (p, t, i) Hok Hg Hsubs (2 + length (class_keys ts)) (p, t, i)
    {| visiting := ∅; visited := ∅; path := [] |} []) as [(st' & -> & Hs & _ & Hd)|(msg & st' & n & -> & <- & l & k & Hh & Hl & Hk & Hm)].
  - split; cbn; [set_solver|set_solver|done|constructor|set_solver].
  - intros j a b _ Hb. by destruct j.
  - by left.
  - cbn. lia.
  - left. split; [done|]. by eapply se_visited, Hd.
  - right. by exists msg, l, k.
Qed.

(** C24: circular containment is found exactly.  For item trees whose indices
    are in range the search ends; it reports nothing if and only if no chain
    of containments from the root implementation is endless, and the message
    it reports spells out a chain of containments from the root that comes
    back to an implementation on it. *)
Theorem detect_circular_containment_exact ts g p t i :
  Forall tree_ok ts → from_trees ts = Done g →
  Forall (λ tree, Forall (λ c, Forall (λ i, is_Some (tree_subcomponents tree !! i)) (ci_subcomponents c))
                    (component_impls tree)) ts →
  ∃ o, detect_circular_containment g p t i = Done o ∧
    (o = None ↔ Acc (flip (contains g)) (p, t, i)) ∧
    ∀ message, o = Some message →
      ∃ chain n, head (chain ++ [n]) = Some (p, t, i) ∧ linked g (chain ++ [n]) ∧
        make_key n ∈ make_key <$> chain ∧ message = cycle_message (label <$> (chain ++ [n])).
Proof.
  intros Hok Hg Hsubs. destruct (detect_returns ts g p t i Hok Hg Hsubs) as [[-> Hacc]|(msg & l & k & -> & Hh & Hl & Hk & Hm)].
  - by exists None.
  - exists (Some msg). split_and!; [done| |intros ? [= <-]; by exists l, k]. split; [done|]. intros Hacc. exfalso.
    apply elem_keys in Hk as (s & [j Hj]%list_elem_of_lookup & E).
    assert (Hlast : (l ++ [k]) !! length l = Some k) by (by rewrite lookup_app_r, Nat.sub_diag).
    assert (Hs : (l ++ [k]) !! j = Some s) by (by apply lookup_app_l_Some).
    pose proof (lookup_lt_Some _ _ _ Hj) as Hlt.
    pose proof (linked_tc g (l ++ [k]) j (length l) s k Hl Hs Hlast Hlt) as Hsk.
    apply (acc_no_cycle (contains g) k).
    + apply (acc_rtc _ (p, t, i)); [|done]. destruct (decide (length l = 0)) as [->%nil_length_inv|Hne]; [by simplify_eq/=|].
      apply tc_rtc. eapply (linked_tc g (l ++ [k]) 0 (length l)); try done; [|lia]. by rewrite <- head_lookup.
    + inversion Hsk as [? y Hy|? y z Hy Hyz]; subst.
      * apply tc_once. by apply (contains_key g s).
      * eapply tc_l; [by apply (contains_key g s)|done].
Qed.

(** ** Implementations that contain each other

    [A.i] and [B.i] contain each other.  [T.i] contains [U.i], which inherits
    a subcomponent of type [T.i]; the search does not follow [extends]. *)
#[local] Open Scope string_scope.
Definition with_extends (c : ComponentImplItem) (e : ClassifierRef) : ComponentImplItem :=
  {| ci_type_name := ci_type_name c; ci_impl_name := ci_impl_name c; ci_category := ci_category c;
     ci_is_public := ci_is_public c; ci_extends := Some e; ci_subcomponents := ci_subcomponents c;
     ci_connections := ci_connections c; ci_end_to_end_flows := ci_end_to_end_flows c;
     ci_flow_impls := ci_flow_impls c; ci_modes := ci_modes c; ci_mode_transitions := ci_mode_transitions c;
     ci_prototypes := ci_prototypes c; ci_call_sequences := ci_call_sequences c;
     ci_property_associations := ci_property_associations c; ci_requires_modes := ci_requires_modes c;
     ci_emv2 := ci_emv2 c |}.

Definition cycle_ex : ItemTree :=
  {| packages := [{| pkg_name := "P"; pkg_with_clauses := [];
                     pkg_public_items := [RComponentImpl 0; RComponentImpl 1; RComponentImpl 2; RComponentImpl 3;
                                          RComponentImpl 4];
                     pkg_private_items := []; pkg_renames := [] |}];
     component_types := [];
     component_impls :=
       [impl_ex "A" "i" System [0%nat]; impl_ex "B" "i" System [1%nat]; impl_ex "T" "i" System [2%nat];
        with_extends (impl_ex "U" "i" System []) (ref_ex None "U" (Some "base")); impl_ex "U" "base" System [3%nat]];
     feature_group_types := []; property_sets := []; tree_features := [];
     tree_subcomponents := [field_ex "b" (ref_ex None "B" (Some "i")); field_ex "a" (ref_ex (Some "p") "A" (Some "I"));
                            field_ex "u" (ref_ex None "U" (Some "i")); field_ex "t" (ref_ex None "T" (Some "i"))];
     tree_connections := []; flow_specs := []; end_to_end_flows := []; property_associations := [];
     tree_modes := []; tree_mode_transitions := []; prototypes := []; prototype_bindings := [];
     flow_impls := []; call_sequences := []; subprogram_calls := []; renames := []; emv2_subclauses := [];
     impl_local_features := []; tree_diagnostics := [] |}.

Example containment_examples :
  (g ← from_trees [cycle_ex]; detect_circular_containment g "P" "A" "i") =
    Done (Some "circular containment detected: P::A.i -> P::B.i -> p::A.I (STPA-REQ-012)") ∧
  (g ← from_trees [cycle_ex]; detect_circular_containment g "P" "T" "i") = Done None.
Proof. vm_compute. by split. Qed.

Lemma cycle_ex_ok : Forall tree_ok [cycle_ex].
Proof. repeat first [constructor|eexists; reflexivity]. Qed.

Lemma detect_circular_containment_exact_witness :
  ∃ g, from_trees [cycle_ex] = Done g ∧ ¬ Acc (flip (contains g)) ("P", "A", "i") ∧
    Acc (flip (contains g)) ("P", "T", "i").
Proof.
  destruct (from_trees_spec [cycle_ex] cycle_ex_ok) as (g & Hg & _). exists g. split; [exact Hg|].
  pose proof containment_examples as [Ha Ht]. rewrite Hg in Ha, Ht. cbn [mbind Exec_bind] in Ha, Ht. split.
  - destruct (detect_circular_containment_exact [cycle_ex] g "P" "A" "i" cycle_ex_ok Hg) as (o & Ho & Hacc & _).
    + repeat first [constructor|eexists; reflexivity].
    + rewrite Ha in Ho. intros H. apply Hacc in H. congruence.
  - destruct (detect_circular_containment_exact [cycle_ex] g "P" "T" "i" cycle_ex_ok Hg) as (o & Ho & Hacc & _).
    + repeat first [constructor|eexists; reflexivity].
    + rewrite Ht in Ho. apply Hacc. congruence.
Defined.
#[local] Close Scope string_scope.
