(* ===== verification/Builder.v ===== *)
(** * Instantiation

    The builder of [crates/spar-hir-def/src/instance.rs]: it expands a root
    implementation into component, feature, connection, flow and mode
    instances with their properties, then attaches the properties of the
    [applies to] clauses and hands the inherited ones down.  Its methods are
    programs of a monad with the builder as state and the effects of [Exec];
    the arenas, maps and diagnostics that it moves into the instance in the
    end are those of the instance [built]. *)
From S2P Require Import Prelude.
From S2P Require Import Diagnostics.
From S2P Require Import CategoryRules.
From S2P Require Import Names.
From S2P Require Import PropertyExpr.
From S2P Require Import ItemTree.
From S2P Require Import PropertyMap.
From S2P Require Import Instance.
From S2P Require Import Semantic.
From S2P Require Import StandardProperties.
From S2P Require Import F64.
From S2P Require Import Quantities.
From S2P Require Import BTree.
From S2P Require Import Resolver.
From S2P Require Import FeatureGroups.
From S2P Require Import Containment.
From Stdlib Require Import Ascii String.
From stdpp Require Import gmap strings pretty.
#[local] Open Scope string_scope.

(** A subcomponent declaration: its tree and its index there. *)
Abbreviation SubLoc := (nat * ItemIdx)%type (only parsing).

(** crates/spar-hir-def/src/instance.rs:1713-1718 [PendingAppliesTo] *)
Definition PendingAppliesTo : Type := ComponentInstanceIdx * string * PropertyValue * option ModalBinding.

(** crates/spar-hir-def/src/instance.rs:1656-1705 [Builder]: without [depth] and
    [max_depth], of which [instantiate_component] takes the difference. *)
Record Builder := {
  built : SystemInstance;
  refined_origins : gmap SubLoc (list SubLoc);
  pending_applies_to : list PendingAppliesTo;
  applies_to_fallbacks : gset (ComponentInstanceIdx * key);
  features_complete : gset ComponentInstanceIdx;
  feature_chain_incomplete : bool;
}.

(** ** Programs *)
Definition Build (A : Type) : Type := Builder → Exec (A * Builder).

#[global] Instance Build_ret : MRet Build := λ A a b, Done (a, b).
#[global] Instance Build_bind : MBind Build := λ A B k m b,
  match m b with Done (a, b') => k a b' | Panic => Panic | Stuck => Stuck end.

Definition lift {A} (m : Exec A) : Build A := λ b, a ← m; Done (a, b).
Definition gets {A} (f : Builder → A) : Build A := λ b, Done (f b, b).
Definition modify (f : Builder → Builder) : Build () := λ b, Done ((), f b).

(** [for x in xs { ... }] *)
Fixpoint forM_ {A} (f : A → Build ()) (xs : list A) : Build () :=
  match xs with [] => mret () | x :: xs => f x ;; forM_ f xs end.

(** [for x in xs { state = ... }] *)
Fixpoint foldB {A B} (f : A → B → Build A) (a : A) (bs : list B) : Build A :=
  match bs with [] => mret a | b :: bs => a ← f a b; foldB f a bs end.

Definition on_built (f : SystemInstance → SystemInstance) : Build () := modify (λ b,
  {| built := f (built b); refined_origins := refined_origins b; pending_applies_to := pending_applies_to b;
     applies_to_fallbacks := applies_to_fallbacks b; features_complete := features_complete b;
     feature_chain_incomplete := feature_chain_incomplete b |}).

Definition push_diagnostic (d : InstanceDiagnostic) : Build () :=
  on_built (λ i, set_diagnostics (diagnostics i ++ [d]) i).

Definition set_refined_origins (v : gmap SubLoc (list SubLoc)) : Build () := modify (λ b,
  {| built := built b; refined_origins := v; pending_applies_to := pending_applies_to b;
     applies_to_fallbacks := applies_to_fallbacks b; features_complete := features_complete b;
     feature_chain_incomplete := feature_chain_incomplete b |}).

Definition set_pending (v : list PendingAppliesTo) : Build () := modify (λ b,
  {| built := built b; refined_origins := refined_origins b; pending_applies_to := v;
     applies_to_fallbacks := applies_to_fallbacks b; features_complete := features_complete b;
     feature_chain_incomplete := feature_chain_incomplete b |}).

Definition set_fallbacks (v : gset (ComponentInstanceIdx * key)) : Build () := modify (λ b,
  {| built := built b; refined_origins := refined_origins b; pending_applies_to := pending_applies_to b;
     applies_to_fallbacks := v; features_complete := features_complete b;
     feature_chain_incomplete := feature_chain_incomplete b |}).

Definition set_features_complete (v : gset ComponentInstanceIdx) : Build () := modify (λ b,
  {| built := built b; refined_origins := refined_origins b; pending_applies_to := pending_applies_to b;
     applies_to_fallbacks := applies_to_fallbacks b; features_complete := v;
     feature_chain_incomplete := feature_chain_incomplete b |}).

Definition set_chain_incomplete (v : bool) : Build () := modify (λ b,
  {| built := built b; refined_origins := refined_origins b; pending_applies_to := pending_applies_to b;
     applies_to_fallbacks := applies_to_fallbacks b; features_complete := features_complete b;
     feature_chain_incomplete := v |}).

(** [Arena::alloc] of each arena. *)
Definition alloc {A} (get : SystemInstance → list A) (set : list A → SystemInstance → SystemInstance) (a : A)
  : Build nat :=
  xs ← gets (get ∘ built); on_built (set (xs ++ [a])%list) ;; mret (length xs).

Definition alloc_component := alloc components set_components.
Definition alloc_feature := alloc feature_instances set_feature_instances.
Definition alloc_connection := alloc connection_instances set_connection_instances.
Definition alloc_flow := alloc flow_instances set_flow_instances.
Definition alloc_e2e_flow := alloc e2e_flow_instances set_e2e_flow_instances.
Definition alloc_mode := alloc mode_instances set_mode_instances.
Definition alloc_mode_transition := alloc mode_transition_instances set_mode_transition_instances.

(** [self.components[i]] and the other arenas. *)
Definition the_component (i : ComponentInstanceIdx) : Build ComponentInstance :=
  b ← gets built; lift (component b i).
Definition the_feature (i : FeatureInstanceIdx) : Build FeatureInstance :=
  b ← gets built; lift (arena_get (feature_instances b) i).

(** [self.components[i].field = ...] *)
Definition update_component (i : ComponentInstanceIdx) (f : ComponentInstance → ComponentInstance) : Build () :=
  c ← the_component i; on_built (λ inst, set_components (<[i := f c]> (components inst)) inst).

Definition with_children (v : list ComponentInstanceIdx) (c : ComponentInstance) : ComponentInstance :=
  {| name := name c; category := category c; comp_type_name := comp_type_name c; comp_impl_name := comp_impl_name c;
     comp_package := comp_package c; parent := parent c; children := v; features := features c;
     connections := connections c; flows := flows c; modes := modes c; mode_transitions := mode_transitions c;
     array_index := array_index c; comp_in_modes := comp_in_modes c |}.

Definition with_connections (v : list ConnectionInstanceIdx) (c : ComponentInstance) : ComponentInstance :=
  {| name := name c; category := category c; comp_type_name := comp_type_name c; comp_impl_name := comp_impl_name c;
     comp_package := comp_package c; parent := parent c; children := children c; features := features c;
     connections := v; flows := flows c; modes := modes c; mode_transitions := mode_transitions c;
     array_index := array_index c; comp_in_modes := comp_in_modes c |}.

Definition with_contents (fs : list FeatureInstanceIdx) (fls : list FlowInstanceIdx) (ms : list ModeInstanceIdx)
    (mts : list ModeTransitionInstanceIdx) (c : ComponentInstance) : ComponentInstance :=
  {| name := name c; category := category c; comp_type_name := comp_type_name c; comp_impl_name := comp_impl_name c;
     comp_package := comp_package c; parent := parent c; children := children c; features := fs;
     connections := connections c; flows := fls; modes := ms; mode_transitions := mts;
     array_index := array_index c; comp_in_modes := comp_in_modes c |}.

Definition with_element (i : option u64) (ms : list Name) (c : ComponentInstance) : ComponentInstance :=
  {| name := name c; category := category c; comp_type_name := comp_type_name c; comp_impl_name := comp_impl_name c;
     comp_package := comp_package c; parent := parent c; children := children c; features := features c;
     connections := connections c; flows := flows c; modes := modes c; mode_transitions := mode_transitions c;
     array_index := i; comp_in_modes := ms |}.

(** A component as it is allocated. *)
Definition fresh_component (nm : Name) (cat : ComponentCategory) (ty : Name) (im : option Name) (pkg : Name)
    (p : option ComponentInstanceIdx) (i : option u64) (ms : list Name) : ComponentInstance :=
  {| name := nm; category := cat; comp_type_name := ty; comp_impl_name := im; comp_package := pkg; parent := p;
     children := []; features := []; connections := []; flows := []; modes := []; mode_transitions := [];
     array_index := i; comp_in_modes := ms |}.

(** ** Arrays *)

(** crates/spar-hir-def/src/instance.rs:1446-1475 [array_element_count] *)
Definition array_element_count (dims : list ArrayDimension) (context_name : Name) : Build u64 :=
  match dims with
  | [] => mret 1%N
  | d :: _ =>
      let count := match ad_size d with Some (SizeLiteral n) => n | _ => 1%N end in
      if (count =? 0)%N then
        push_diagnostic {| inst_message := "array dimension for '" +:+ context_name +:+
                             "' is zero; using 1 as fallback (STPA-REQ-009)";
                           inst_path := [context_name] |} ;;
        mret 1%N
      else mret count
  end.

(** crates/spar-hir-def/src/instance.rs:1843-1848 [Builder::instantiate_component]: the
    index and the name of an element, [None] and the plain name outside arrays. *)
Definition element (is_array : bool) (nm : Name) (i : nat) : option u64 * Name :=
  if is_array then (Some (N.of_nat i + 1)%N, nm +:+ "[" +:+ pretty (N.of_nat i + 1)%N +:+ "]") else (None, nm).

(** ** Property associations *)

(** crates/spar-hir-def/src/instance.rs:3227-3244 [Builder::push_property_association]: the
    modal binding of an association. *)
Definition modal_binding (pa : PropertyAssociationItem) (mode_ctx : option ComponentInstanceIdx) : option ModalBinding :=
  match mode_ctx, pa_modal_values pa with
  | Some ctx, _ :: _ =>
      Some {| mode_context := ctx;
              mb_values := (λ mv, {| mv_in_modes := mpv_in_modes mv;
                                     mv_value := {| pv_name := pa_name pa; pv_value := mpv_value mv;
                                                    pv_typed_expr := mpv_typed_value mv; pv_is_append := false |} |})
                           <$> pa_modal_values pa |}
  | _, _ => None
  end.

(** crates/spar-hir-def/src/instance.rs:3213-3251 [Builder::push_property_association] *)
Definition push_property_association (pa : PropertyAssociationItem) (owner : ComponentInstanceIdx)
    (mode_ctx : option ComponentInstanceIdx) (source : PropertySource)
    (st : PropertyMap * list PendingAppliesTo) : PropertyMap * list PendingAppliesTo :=
  let '(map, pending) := st in
  let prop := value_of pa in
  let binding := modal_binding pa mode_ctx in
  match pa_applies_to pa with
  | Some path =>
      if bool_decide (trim path = "") then (add_modal map prop source binding None, pending)
      else (map, (pending ++ [(owner, path, prop, binding)])%list)
  | None => (add_modal map prop source binding None, pending)
  end.

(** The same, with the queue of the builder. *)
Definition push_association (tree : ItemTree) (owner : ComponentInstanceIdx) (mode_ctx : option ComponentInstanceIdx)
    (source : PropertySource) (map : PropertyMap) (pa_idx : ItemIdx) : Build PropertyMap :=
  pa ← lift (arena_get (property_associations tree) pa_idx);
  pending ← gets pending_applies_to;
  let '(map, pending) := push_property_association pa owner mode_ctx source (map, pending) in
  set_pending pending ;; mret map.

(** ** The chains of extended classifiers *)
Section scope.
Context (g : GlobalScope).

(** The declarations of all trees, which bound the length of a chain. *)
Definition all_types : list ComponentTypeItem := tree ← trees g; component_types tree.
Definition all_impls : list ComponentImplItem := tree ← trees g; component_impls tree.

(** A property association: its tree, its index, and the classifier that
    declares it. *)
Abbreviation ChainProperty := (nat * ItemIdx * string)%type (only parsing).

(** crates/spar-hir-def/src/instance.rs:2940-2981 [Builder::collect_type_chain_properties]: on
    fuel; [visited] is returned with the result. *)
Fixpoint collect_type_chain_properties (fuel : nat) (loc : ItemLoc) (pkg : Name) (visited : list string)
  : Exec (list ChainProperty * list string) :=
  match fuel with
  | O => Stuck
  | S fuel =>
      o ← get_component_type g loc;
      match o with
      | None => Done ([], visited)
      | Some ct =>
          '(inherited, visited) ←
            match ct_extends ct with
            | Some parent_ref =>
                let parent_key := classifier_fmt parent_ref in
                if bool_decide (parent_key ∈ visited) then Done ([], visited)
                else
                  resolved ← resolve_classifier g pkg parent_ref;
                  match resolved with
                  | ResolvedType parent_pkg parent_loc =>
                      collect_type_chain_properties fuel parent_loc parent_pkg (visited ++ [parent_key])%list
                  | _ => Done ([], (visited ++ [parent_key])%list)
                  end
            | None => Done ([], visited)
            end;
          let classifier := pkg +:+ "::" +:+ ct_name ct in
          Done ((inherited ++ ((λ pa_idx, (loc_tree loc, pa_idx, classifier)) <$> ct_property_associations ct))%list,
                visited)
      end
  end.

(** crates/spar-hir-def/src/instance.rs:2986-3026 [Builder::collect_impl_chain_properties] *)
Fixpoint collect_impl_chain_properties (fuel : nat) (loc : ItemLoc) (pkg : Name) (visited : list string)
  : Exec (list ChainProperty * list string) :=
  match fuel with
  | O => Stuck
  | S fuel =>
      o ← get_component_impl g loc;
      match o with
      | None => Done ([], visited)
      | Some c =>
          '(inherited, visited) ←
            match ci_extends c with
            | Some parent_ref =>
                let parent_key := classifier_fmt parent_ref in
                if bool_decide (parent_key ∈ visited) then Done ([], visited)
                else
                  resolved ← resolve_classifier g pkg parent_ref;
                  match resolved with
                  | ResolvedImpl parent_pkg parent_loc =>
                      collect_impl_chain_properties fuel parent_loc parent_pkg (visited ++ [parent_key])%list
                  | _ => Done ([], (visited ++ [parent_key])%list)
                  end
            | None => Done ([], visited)
            end;
          let classifier := pkg +:+ "::" +:+ ci_type_name c +:+ "." +:+ ci_impl_name c in
          Done ((inherited ++ ((λ pa_idx, (loc_tree loc, pa_idx, classifier)) <$> ci_property_associations c))%list,
                visited)
      end
  end.

Definition type_chain_properties (loc : ItemLoc) (pkg : Name) : Build (list ChainProperty) :=
  lift (r ← collect_type_chain_properties (S (length all_types)) loc pkg []; Done r.1).

Definition impl_chain_properties (loc : ItemLoc) (pkg : Name) : Build (list ChainProperty) :=
  lift (r ← collect_impl_chain_properties (S (length all_impls)) loc pkg []; Done r.1).

(** ** Property maps *)

(** crates/spar-hir-def/src/instance.rs:3044-3057 [Builder::build_property_map]: the
    associations of a chain of classifiers, pushed in order. *)
Definition push_chain (idx : ComponentInstanceIdx) (source : string → PropertySource) (ps : list ChainProperty)
    (map : PropertyMap) : Build PropertyMap :=
  foldB (λ map '(tree_idx, pa_idx, classifier),
    match trees g !! tree_idx with
    | Some tree => push_association tree idx (Some idx) (source classifier) map pa_idx
    | None => mret map
    end) map ps.

(** crates/spar-hir-def/src/instance.rs:1373-1384 [declaring_impl_name] *)
Definition declaring_impl_name (tree : ItemTree) (si : ItemIdx) : string :=
  match List.find (λ c, bool_decide (si ∈ ci_subcomponents c)) (component_impls tree) with
  | Some c => ci_type_name c +:+ "." +:+ ci_impl_name c
  | None => "?"
  end.

(** crates/spar-hir-def/src/instance.rs:3094-3139 [Builder::push_subcomponent_associations] *)
Definition push_subcomponent_associations (idx : ComponentInstanceIdx) (loc : SubLoc) (map : PropertyMap)
  : Build PropertyMap :=
  origins ← gets refined_origins;
  c ← the_component idx;
  let mode_ctx := default idx (parent c) in
  foldB (λ map d,
    match trees g !! d.1 with
    | None => mret map
    | Some tree =>
        sub ← lift (arena_get (tree_subcomponents tree) d.2);
        let source := if bool_decide (d = loc) then DeclaredLocal
                      else Refined (sub_name sub) (declaring_impl_name tree d.2) in
        foldB (push_association tree idx (Some mode_ctx) source) map (sub_property_associations sub)
    end) map (default [] (origins !! loc) ++ [loc])%list.

(** [if !map.is_empty() { self.property_maps.insert(idx, map) }] *)
Definition insert_property_map (idx : ComponentInstanceIdx) (map : PropertyMap) : Build () :=
  if bool_decide (props map = ∅) then mret ()
  else on_built (λ inst, set_property_maps (<[idx := map]> (property_maps inst)) inst).

(** crates/spar-hir-def/src/instance.rs:3029-3088 [Builder::build_property_map] *)
Definition build_property_map (idx : ComponentInstanceIdx) (type_loc impl_loc : option ItemLoc)
    (subcomponent_loc : option SubLoc) (resolved_package : Name) : Build () :=
  map ← match type_loc with
        | Some loc => ps ← type_chain_properties loc resolved_package; push_chain idx Classifier ps new
        | None => mret new
        end;
  map ← match impl_loc with
        | Some loc => ps ← impl_chain_properties loc resolved_package; push_chain idx Implementation ps map
        | None => mret map
        end;
  map ← match subcomponent_loc with
        | Some loc => push_subcomponent_associations idx loc map
        | None => mret map
        end;
  insert_property_map idx map.

(** crates/spar-hir-def/src/instance.rs:3142-3179 [Builder::build_leaf_property_map] *)
Definition build_leaf_property_map (idx : ComponentInstanceIdx) (pkg ty : Name) (loc : SubLoc) : Build () :=
  resolved ← lift (resolve_classifier g pkg {| package := Some pkg; type_name := ty; impl_name := None |});
  map ← match resolved with
        | ResolvedType _ l => ps ← type_chain_properties l pkg; push_chain idx Classifier ps new
        | _ => mret new
        end;
  map ← push_subcomponent_associations idx loc map;
  insert_property_map idx map.

(** crates/spar-hir-def/src/instance.rs:3182-3196 [Builder::build_anon_property_map] *)
Definition build_anon_property_map (idx : ComponentInstanceIdx) (loc : SubLoc) : Build () :=
  map ← push_subcomponent_associations idx loc new;
  insert_property_map idx map.

(** ** Features, flows and modes of a type *)

(** crates/spar-hir-def/src/instance.rs:2363-2371 [Builder::collect_type_chain_features]: what
    is collected of a feature. *)
Record FeatureData := {
  fd_name : Name;
  fd_kind : FeatureKind;
  fd_direction : option Direction;
  fd_classifier : option ClassifierRef;
  fd_access_kind : option AccessKind;
  fd_array_dimensions : list ArrayDimension;
  fd_properties : nat * list ItemIdx;
}.

(** crates/spar-hir-def/src/instance.rs:2406-2420 [Builder::collect_type_chain_features]: the
    features a type declares itself. *)
Definition own_features (tree_idx : nat) (idxs : list ItemIdx) : Build (list FeatureData) :=
  mapM (λ feat_idx,
    o ← lift (get_feature g tree_idx feat_idx);
    match o with
    | Some f =>
        mret [{| fd_name := ft_name f; fd_kind := ft_kind f; fd_direction := ft_direction f;
                 fd_classifier := ft_classifier f; fd_access_kind := ft_access_kind f;
                 fd_array_dimensions := ft_array_dimensions f;
                 fd_properties := (tree_idx, ft_property_associations f) |}]
    | None => set_chain_incomplete true ;; mret []
    end) idxs ≫= λ fss, mret (concat fss).

(** crates/spar-hir-def/src/instance.rs:2425-2430 [Builder::collect_type_chain_features]: the
    first of each name, in any case. *)
Fixpoint first_of_each (seen : list string) (fs : list FeatureData) : list FeatureData :=
  match fs with
  | [] => []
  | f :: fs =>
      let name_key := to_ascii_lowercase (fd_name f) in
      if bool_decide (name_key ∈ seen) then first_of_each seen fs
      else f :: first_of_each (name_key :: seen) fs
  end.

(** crates/spar-hir-def/src/instance.rs:2422-2432 [Builder::collect_type_chain_features] *)
Definition last_of_each (fs : list FeatureData) : list FeatureData := rev (first_of_each [] (rev fs)).

(** crates/spar-hir-def/src/instance.rs:2358-2433 [Builder::collect_type_chain_features]: on
    fuel; [visited] is returned with the result. *)
Fixpoint collect_type_chain_features (fuel : nat) (loc : ItemLoc) (pkg : Name) (visited : list string)
  : Build (list FeatureData * list string) :=
  match fuel with
  | O => λ _, Stuck
  | S fuel =>
      o ← lift (get_component_type g loc);
      match o with
      | None => set_chain_incomplete true ;; mret ([], visited)
      | Some ct =>
          let key := pkg +:+ "::" +:+ ct_name ct in
          if bool_decide (key ∈ visited) then
            set_chain_incomplete true ;;
            push_diagnostic {| inst_message := "circular extends chain detected: " +:+ key; inst_path := [] |} ;;
            mret ([], visited)
          else
            let visited := (visited ++ [key])%list in
            '(inherited, visited) ←
              match ct_extends ct with
              | Some ext_ref =>
                  resolved ← lift (resolve_classifier g pkg ext_ref);
                  match resolved with
                  | ResolvedType parent_pkg parent_loc => collect_type_chain_features fuel parent_loc parent_pkg visited
                  | _ => set_chain_incomplete true ;; mret ([], visited)
                  end
              | None => mret ([], visited)
              end;
            own ← own_features (loc_tree loc) (ct_features ct);
            mret (last_of_each (inherited ++ own)%list, visited)
      end
  end.

(** Enough for every chain of types: a package and a type give a key. *)
Definition type_chain_features (loc : ItemLoc) (pkg : Name) : Build (list FeatureData) :=
  r ← collect_type_chain_features (2 + length (declared_packages (trees g)) * length all_types) loc pkg [];
  mret r.1.

(** crates/spar-hir-def/src/instance.rs:2706-2724 [Builder::resolve_data_size_bytes]: the
    loop over the associations. *)
Fixpoint find_data_size (tree : ItemTree) (pas : list ItemIdx) : Exec (option u64) :=
  match pas with
  | [] => Done None
  | pa_idx :: pas =>
      pa ← arena_get (property_associations tree) pa_idx;
      if eq_ignore_ascii_case (property_name (pa_name pa)) "Data_Size" ||
         eq_ignore_ascii_case (property_name (pa_name pa)) "Source_Data_Size" then
        bits ← parse_size_value (list_ascii_of_string (pa_value pa));
        Done (match bits with Some b => Some (b / 8)%N | None => None end)
      else find_data_size tree pas
  end.

(** crates/spar-hir-def/src/instance.rs:2691-2725 [Builder::resolve_data_size_bytes] *)
Definition resolve_data_size_bytes (from_package : Name) (classifier : ClassifierRef) : Exec (option u64) :=
  resolved ← resolve_classifier g from_package classifier;
  match resolved with
  | ResolvedType _ loc =>
      o ← get_component_type g loc;
      match o with
      | None => Done None
      | Some ct =>
          if bool_decide (ct_category ct = Data) then
            match trees g !! loc_tree loc with
            | Some tree => find_data_size tree (ct_property_associations ct)
            | None => Done None
            end
          else Done None
      end
  | _ => Done None
  end.

(** The models of the subclauses with the given indices. *)
Definition emv2_of (tree_idx : nat) (subs : list ItemIdx) : Build (list Emv2Model) :=
  match trees g !! tree_idx with
  | Some tree => mapM (λ i, s ← lift (arena_get (emv2_subclauses tree) i); mret (em_model s)) subs
  | None => mret []
  end.

(** crates/spar-hir-def/src/instance.rs:2729-2759 [Builder::project_emv2] *)
Definition project_emv2 (idx : ComponentInstanceIdx) (type_loc impl_loc : option ItemLoc) : Build () :=
  of_type ← match type_loc with
            | Some loc =>
                o ← lift (get_component_type g loc);
                match o with Some ct => emv2_of (loc_tree loc) (ct_emv2 ct) | None => mret [] end
            | None => mret []
            end;
  of_impl ← match impl_loc with
            | Some loc =>
                o ← lift (get_component_impl g loc);
                match o with Some c => emv2_of (loc_tree loc) (ci_emv2 c) | None => mret [] end
            | None => mret []
            end;
  match (of_type ++ of_impl)%list with
  | [] => mret ()
  | models => on_built (λ inst, set_emv2_models (<[idx := models]> (emv2_models inst)) inst)
  end.

(** crates/spar-hir-def/src/instance.rs:2864-2885 [Builder::populate_from_type]: the
    properties written on a feature; those with [applies to] are skipped. *)
Definition push_feature_properties (idx : ComponentInstanceIdx) (fi : FeatureInstanceIdx)
    (feat_tree : nat) (feat_pas : list ItemIdx) : Build () :=
  match feat_pas, trees g !! feat_tree with
  | _ :: _, Some tree =>
      map ← foldB (λ map pa_idx,
              pa ← lift (arena_get (property_associations tree) pa_idx);
              if is_some (pa_applies_to pa) then mret map
              else push_association tree idx None DeclaredLocal map pa_idx) new feat_pas;
      if bool_decide (props map = ∅) then mret ()
      else on_built (λ inst, set_feature_property_maps (<[fi := map]> (feature_property_maps inst)) inst)
  | _, _ => mret ()
  end.

(** crates/spar-hir-def/src/instance.rs:2821-2888 [Builder::populate_from_type]: the
    instances of one feature. *)
Definition instantiate_feature (idx : ComponentInstanceIdx) (type_package : Name) (fd : FeatureData)
  : Build (list FeatureInstanceIdx) :=
  count ← array_element_count (fd_array_dimensions fd) (fd_name fd);
  let is_array := negb (bool_decide (length (fd_array_dimensions fd) = 0)) in
  data_size ← match fd_classifier fd with
              | Some c => lift (resolve_data_size_bytes type_package c)
              | None => mret None
              end;
  mapM (λ i,
    let '(index, nm) := element is_array (fd_name fd) i in
    fi ← alloc_feature
           {| feat_name := nm; feat_kind := fd_kind fd; direction := fd_direction fd; feat_owner := idx;
              feat_classifier := fd_classifier fd; access_kind := fd_access_kind fd; feat_array_index := index;
              Instance.data_size_bytes := data_size |};
    push_feature_properties idx fi (fd_properties fd).1 (fd_properties fd).2 ;;
    mret fi) (seq 0 (N.to_nat count)).

(** crates/spar-hir-def/src/instance.rs:2761-2931 [Builder::populate_from_type] *)
Definition populate_from_type (idx : ComponentInstanceIdx) (type_loc : option ItemLoc) (type_package : Name) : Build () :=
  match type_loc with
  | None => mret ()
  | Some loc =>
      set_chain_incomplete false ;;
      feat_data ← type_chain_features loc type_package;
      incomplete ← gets feature_chain_incomplete;
      o ← lift (get_component_type g loc);
      match o, trees g !! loc_tree loc with
      | Some ct, Some tree =>
          complete ← gets features_complete;
          set_features_complete (if (incomplete : bool) then complete else {[idx]} ∪ complete) ;;
          flow_data ← lift (mapM (arena_get (flow_specs tree)) (ct_flow_specs ct));
          mode_data ← lift (mapM (arena_get (tree_modes tree)) (ct_modes ct));
          mt_data ← lift (mapM (arena_get (tree_mode_transitions tree)) (ct_mode_transitions ct));
          feat_indices ← mapM (instantiate_feature idx type_package) feat_data;
          flow_indices ← mapM (λ f, alloc_flow {| flow_name := fs_name f; flow_kind := fs_kind f; flow_owner := idx;
                                                  impl_segments := None |}) flow_data;
          mode_indices ← mapM (λ m, alloc_mode {| mode_name := md_name m; is_initial := md_is_initial m;
                                                  mode_owner := idx |}) mode_data;
          mt_indices ← mapM (λ t, alloc_mode_transition
                                    {| mt_name := tr_name t; mt_source := tr_source t; mt_destination := tr_destination t;
                                       mt_triggers := tr_triggers t; mt_owner := idx |}) mt_data;
          update_component idx (with_contents (concat feat_indices) flow_indices mode_indices mt_indices)
      | _, _ => mret ()
      end
  end.

(** ** The members of a chain of implementations *)

(** crates/spar-hir-def/src/instance.rs:1595-1607 [ImplChainResult]: a collected
    subcomponent. *)
Record SubcomponentData := {
  sd_name : Name;
  sd_category : ComponentCategory;
  sd_classifier : option ClassifierRef;
  sd_loc : SubLoc;
  sd_array_dimensions : list ArrayDimension;
  sd_in_modes : list Name;
}.

(** crates/spar-hir-def/src/instance.rs:1608-1619 [ImplChainResult]: a collected
    connection. *)
Record ConnectionData := {
  cd_name : Name;
  cd_kind : ConnectionKind;
  cd_bidirectional : bool;
  cd_src : option ConnectionEnd;
  cd_dst : option ConnectionEnd;
  cd_in_modes : list Name;
  cd_tree : nat;
  cd_idx : ItemIdx;
}.

(** crates/spar-hir-def/src/instance.rs:1594-1636 [ImplChainResult] *)
Record ImplChainResult := {
  r_subcomponents : list SubcomponentData;
  r_connections : list ConnectionData;
  r_flow_impls : list (Name * list FlowSegment);
  r_e2e_flows : list (Name * list Name * nat * list ItemIdx);
  r_modes : list ModeItem;
  r_mode_transitions : list ModeTransitionItem;
  r_call_map : gmap string Name;
  r_local_features : list Name;
}.

Definition empty_chain : ImplChainResult :=
  {| r_subcomponents := []; r_connections := []; r_flow_impls := []; r_e2e_flows := []; r_modes := [];
     r_mode_transitions := []; r_call_map := ∅; r_local_features := [] |}.

(** crates/spar-hir-def/src/instance.rs:2228-2265 [Builder::collect_impl_chain_recursive]: one
    subcomponent; a refinement takes the place of what it refines. *)
Definition add_subcomponent (tree_idx : nat) (tree : ItemTree) (subs : list SubcomponentData) (sub_idx : ItemIdx)
  : Build (list SubcomponentData) :=
  sub ← lift (arena_get (tree_subcomponents tree) sub_idx);
  let entry classifier :=
    {| sd_name := sub_name sub; sd_category := sub_category sub; sd_classifier := classifier;
       sd_loc := (tree_idx, sub_idx); sd_array_dimensions := sub_array_dimensions sub;
       sd_in_modes := sub_in_modes sub |} in
  match (if sub_is_refined sub then list_find (λ s, eq_ci (sd_name s) (sub_name sub) = true) subs else None) with
  | Some (pos, refined_away) =>
      origins ← gets refined_origins;
      set_refined_origins (<[(tree_idx, sub_idx) := (default [] (origins !! sd_loc refined_away) ++ [sd_loc refined_away])%list]>
                             origins) ;;
      mret (delete pos subs ++ [entry match sub_classifier sub with
                                      | Some c => Some c
                                      | None => sd_classifier refined_away
                                      end])%list
  | None => mret (subs ++ [entry (sub_classifier sub)])%list
  end.

Definition connection_end (e : ConnectedElementRef) : ConnectionEnd :=
  {| subcomponent := ce_subcomponent e; feature := ce_feature e |}.

(** crates/spar-hir-def/src/instance.rs:2268-2290 [Builder::collect_impl_chain_recursive] *)
Definition connection_data (tree_idx : nat) (tree : ItemTree) (conn_idx : ItemIdx) : Exec ConnectionData :=
  conn ← arena_get (tree_connections tree) conn_idx;
  Done {| cd_name := cn_name conn; cd_kind := cn_kind conn; cd_bidirectional := cn_is_bidirectional conn;
          cd_src := connection_end <$> cn_src conn; cd_dst := connection_end <$> cn_dst conn;
          cd_in_modes := cn_in_modes conn; cd_tree := tree_idx; cd_idx := conn_idx |}.

(** crates/spar-hir-def/src/instance.rs:2341-2353 [Builder::collect_impl_chain_recursive]: one
    call of a sequence, mapped when it names a type only. *)
Definition add_call (tree : ItemTree) (calls : gmap string Name) (call_idx : ItemIdx) : Exec (gmap string Name) :=
  call ← arena_get (subprogram_calls tree) call_idx;
  Done match sc_called_subprogram call with
       | Some {| package := None; type_name := t; impl_name := None |} =>
           <[to_ascii_lowercase (sc_name call) := t]> calls
       | _ => calls
       end.

(** crates/spar-hir-def/src/instance.rs:2213-2354 [Builder::collect_impl_chain_recursive]: what
    an implementation declares itself, after what it inherits. *)
Definition add_own (loc : ItemLoc) (tree : ItemTree) (c : ComponentImplItem) (r : ImplChainResult)
  : Build ImplChainResult :=
  let tree_idx := loc_tree loc in
  let locals := omap (λ l, if bool_decide (l.1 = loc_raw_idx loc) then Some l.2 else None) (impl_local_features tree) in
  subs ← foldB (add_subcomponent tree_idx tree) (r_subcomponents r) (ci_subcomponents c);
  conns ← lift (mapM (connection_data tree_idx tree) (ci_connections c));
  e2es ← lift (mapM (λ i, e ← arena_get (end_to_end_flows tree) i;
                          Done (ee_name e, ee_segments e, tree_idx, ee_property_associations e)) (ci_end_to_end_flows c));
  fimpls ← lift (mapM (λ i, f ← arena_get (flow_impls tree) i; Done (fi_name f, fi_segments f)) (ci_flow_impls c));
  ms ← lift (mapM (arena_get (tree_modes tree)) (ci_modes c));
  mts ← lift (mapM (arena_get (tree_mode_transitions tree)) (ci_mode_transitions c));
  calls ← lift (foldM (λ calls cs_idx, cs ← arena_get (call_sequences tree) cs_idx; foldM (add_call tree) calls (cs_calls cs))
                  (r_call_map r) (ci_call_sequences c));
  mret {| r_subcomponents := subs; r_connections := (r_connections r ++ conns)%list;
          r_flow_impls := (r_flow_impls r ++ fimpls)%list; r_e2e_flows := (r_e2e_flows r ++ e2es)%list;
          r_modes := (r_modes r ++ ms)%list; r_mode_transitions := (r_mode_transitions r ++ mts)%list;
          r_call_map := calls; r_local_features := (r_local_features r ++ locals)%list |}.

(** crates/spar-hir-def/src/instance.rs:2180-2354 [Builder::collect_impl_chain_recursive]: on
    fuel; [visited] and the result are threaded. *)
Fixpoint collect_impl_chain_recursive (fuel : nat) (loc : ItemLoc) (pkg : Name) (st : list string * ImplChainResult)
  : Build (list string * ImplChainResult) :=
  match fuel with
  | O => λ _, Stuck
  | S fuel =>
      o ← lift (get_component_impl g loc);
      match o, trees g !! loc_tree loc with
      | Some c, Some tree =>
          let key := pkg +:+ "::" +:+ ci_type_name c +:+ "." +:+ ci_impl_name c in
          if bool_decide (key ∈ st.1) then
            push_diagnostic {| inst_message := "circular impl extends chain detected: " +:+ key; inst_path := [] |} ;;
            mret st
          else
            let st := ((st.1 ++ [key])%list, st.2) in
            st ← match ci_extends c with
                 | Some ext_ref =>
                     resolved ← lift (resolve_classifier g pkg ext_ref);
                     match resolved with
                     | ResolvedImpl parent_pkg parent_loc => collect_impl_chain_recursive fuel parent_loc parent_pkg st
                     | _ => mret st
                     end
                 | None => mret st
                 end;
            r ← add_own loc tree c (snd st);
            mret (fst st, r)
      | _, _ => mret st
      end
  end.

(** crates/spar-hir-def/src/instance.rs:2169-2178 [Builder::collect_impl_chain] *)
Definition collect_impl_chain (loc : ItemLoc) (pkg : Name) : Build ImplChainResult :=
  r ← collect_impl_chain_recursive (2 + length (declared_packages (trees g)) * length all_impls) loc pkg ([], empty_chain);
  mret r.2.

(** ** Connections *)

(** [n] is the name of a child, or its name without an index when [first] has
    none. *)
Definition names_element (first n : Name) : bool :=
  eq_ignore_ascii_case n first || (negb (contains_char "["%char first) && eq_ignore_ascii_case (base_name_of n) first).

(** The first of the indices whose element satisfies a test. *)
Fixpoint find_index {A} (get : nat → Build A) (test : A → bool) (is_ : list nat) : Build (option nat) :=
  match is_ with
  | [] => mret None
  | i :: is_ => a ← get i; if test a then mret (Some i) else find_index get test is_
  end.

(** crates/spar-hir-def/src/instance.rs:1979-2000 [Builder::instantiate_component]: a bare
    end of an access connection that is the name of a child. *)
Definition fix_access (child_names : list Name) (e : ConnectionEnd) : ConnectionEnd :=
  if negb (is_some (subcomponent e)) && existsb (λ n, eq_ignore_ascii_case n (feature e)) child_names
  then {| subcomponent := Some (feature e); feature := "" |} else e.

(** crates/spar-hir-def/src/instance.rs:2003-2012 [Builder::instantiate_component]: an end
    of a parameter connection that names a call. *)
Definition fix_call (call_map : gmap string Name) (e : ConnectionEnd) : ConnectionEnd :=
  match subcomponent e ≫= λ sub, call_map !! to_ascii_lowercase sub with
  | Some target_sub => {| subcomponent := Some target_sub; feature := feature e |}
  | None => e
  end.

(** crates/spar-hir-def/src/instance.rs:2454-2502 [Builder::fixup_own_feature_group_endpoint] *)
Definition fixup_own_feature_group_endpoint (owner : ComponentInstanceIdx) (cname : Name) (child_names : list Name)
    (e : ConnectionEnd) : Build ConnectionEnd :=
  match subcomponent e with
  | None => mret e
  | Some first =>
      if existsb (names_element first) child_names then mret e
      else
        o ← the_component owner;
        found ← find_index the_feature (λ f, bool_decide (feat_kind f = FeatureGroup) && eq_ci (feat_name f) first) (features o);
        match found with
        | None => mret e
        | Some fi =>
            f ← the_feature fi;
            match feat_classifier f with
            | Some cls_ref =>
                members ← lift (expand_feature_group g (default (comp_package o) (package cls_ref)) (type_name cls_ref) false);
                if bool_decide (members = []) || existsb (λ m, eq_ci (ef_feature_name m) (feature e)) members then mret ()
                else push_diagnostic
                       {| inst_message := "connection '" +:+ cname +:+ "': feature group '" +:+ first +:+
                            "' has no member '" +:+ feature e +:+ "'";
                          inst_path := [name o; cname] |}
            | None => mret ()
            end ;;
            mret {| subcomponent := None; feature := first +:+ "." +:+ feature e |}
        end
  end.

(** crates/spar-hir-def/src/instance.rs:2655-2659 [Builder::check_call_end_feature]: the
    least call that stands for the target. *)
Definition least_call (call_map : gmap string Name) (target : string) : option string :=
  foldr (λ c best, match best with
                   | Some b => Some (match String.compare c b with Gt => b | _ => c end)
                   | None => Some c
                   end) None
    (omap (λ ct, if eq_ignore_ascii_case ct.2 target then Some ct.1 else None) (map_to_list call_map)).

(** crates/spar-hir-def/src/instance.rs:2646-2689 [Builder::check_call_end_feature] *)
Definition check_call_end_feature (owner : ComponentInstanceIdx) (cname : Name) (role : string)
    (call_map : gmap string Name) (target feat : string) : Build () :=
  match least_call call_map target with
  | None => mret ()
  | Some call =>
      o ← the_component owner;
      resolved ← lift (resolve_classifier g (comp_package o) {| package := None; type_name := target; impl_name := None |});
      match resolved with
      | ResolvedType pkg loc =>
          set_chain_incomplete false ;;
          feats ← type_chain_features loc pkg;
          incomplete ← gets feature_chain_incomplete;
          if (incomplete : bool) || existsb (λ f, bool_decide (fd_kind f = FeatureGroup)) feats ||
             existsb (λ f, eq_ignore_ascii_case (fd_name f) feat) feats then mret ()
          else push_diagnostic
                 {| inst_message := "connection '" +:+ cname +:+ "': " +:+ role +:+ " '" +:+ call +:+ "." +:+ feat +:+
                      "': called subprogram '" +:+ target +:+ "' (classifier '" +:+ pkg +:+ "::" +:+ target +:+
                      "') has no feature '" +:+ feat +:+ "'";
                    inst_path := [name o; cname] |}
      | _ => mret ()
      end
  end.

(** crates/spar-hir-def/src/instance.rs:2595-2616 [Builder::check_connection_end_feature]: a
    feature group that may have the member, or cannot be expanded. *)
Definition group_may_have (comp : ComponentInstance) (same : string → bool) (f : FeatureInstance) : Exec bool :=
  if bool_decide (feat_kind f = FeatureGroup) then
    match feat_classifier f with
    | None => Done true
    | Some cls_ref =>
        members ← expand_feature_group g (default (comp_package comp) (package cls_ref)) (type_name cls_ref) false;
        Done (bool_decide (members = []) ||
              existsb (λ m, same (ef_feature_name m) ||
                            match ef_group_prefix m with
                            | Some p => existsb same (split_on (Ascii.eqb "."%char) p)
                            | None => false
                            end) members)
    end
  else Done false.

Fixpoint any_group (comp : ComponentInstance) (same : string → bool) (fs : list FeatureInstance) : Exec bool :=
  match fs with
  | [] => Done false
  | f :: fs => b ← group_may_have comp same f; if (b : bool) then Done true else any_group comp same fs
  end.

(** crates/spar-hir-def/src/instance.rs:2576-2635 [Builder::check_connection_end_feature]: the
    check once the component the end is on is known. *)
Definition check_target_feature (owner target : ComponentInstanceIdx) (cname : Name) (role : string) (e : ConnectionEnd)
  : Build () :=
  complete ← gets features_complete;
  if negb (bool_decide (target ∈ complete)) then mret ()
  else
    let same declared := eq_ignore_ascii_case (base_name_of declared) (feature e) in
    comp ← the_component target;
    fs ← mapM the_feature (features comp);
    if existsb (λ f, same (feat_name f)) fs then mret ()
    else
      in_group ← lift (any_group comp same fs);
      if (in_group : bool) then mret ()
      else
        let '(written, holder) :=
          match subcomponent e with
          | Some sub => (sub +:+ "." +:+ feature e, "subcomponent '" +:+ sub +:+ "'")
          | None => (feature e, "component '" +:+ name comp +:+ "'")
          end in
        o ← the_component owner;
        push_diagnostic
          {| inst_message := "connection '" +:+ cname +:+ "': " +:+ role +:+ " '" +:+ written +:+ "': " +:+ holder +:+
               " (classifier '" +:+ comp_package comp +:+ "::" +:+ comp_type_name comp +:+ "') has no feature '" +:+
               feature e +:+ "'";
             inst_path := [name o; cname] |}.

(** crates/spar-hir-def/src/instance.rs:2531-2636 [Builder::check_connection_end_feature] *)
Definition check_connection_end_feature (owner : ComponentInstanceIdx) (cname : Name) (role : string)
    (child_names local_features : list Name) (call_map : gmap string Name) (e : ConnectionEnd) : Build () :=
  let feat := feature e in
  if bool_decide (feat = "") || contains_char "."%char feat then mret ()
  else
    let same declared := eq_ignore_ascii_case (base_name_of declared) feat in
    match subcomponent e with
    | Some sub =>
        o ← the_component owner;
        found ← find_index the_component (λ c, names_element sub (name c)) (children o);
        match found with
        | Some target => check_target_feature owner target cname role e
        | None => check_call_end_feature owner cname role call_map sub feat
        end
    | None =>
        if existsb same child_names || existsb same local_features then mret ()
        else check_target_feature owner owner cname role e
    end.

(** crates/spar-hir-def/src/instance.rs:3610-3612 [Builder::validate_connection_array_indices]: the
    index written in a name, with the name before it; the slice panics when
    the brackets are the wrong way round. *)
Definition written_index (s : string) : Exec (option (string * u64)) :=
  match String.index 0 "[" s, String.index 0 "]" s with
  | Some bracket_pos, Some end_pos =>
      if (S bracket_pos <=? end_pos)%nat then
        Done (match parse_u64 (list_ascii_of_string (String.substring (S bracket_pos) (end_pos - S bracket_pos) s)) with
              | Some index => Some (String.substring 0 bracket_pos s, index)
              | None => None
              end)
      else Panic
  | _, _ => Done None
  end.

(** crates/spar-hir-def/src/instance.rs:3591-3597 [Builder::validate_connection_array_indices] *)
Definition max_index (max_indices : gmap string u64) (child : ComponentInstance) : gmap string u64 :=
  match array_index child with
  | Some ai =>
      let base := to_ascii_lowercase (base_name_of (name child)) in
      <[base := N.max (default 0%N (max_indices !! base)) ai]> max_indices
  | None => max_indices
  end.

(** crates/spar-hir-def/src/instance.rs:3606-3628 [Builder::validate_connection_array_indices]: one
    end of a connection. *)
Definition validate_end (max_indices : gmap string u64) (cname : Name) (e : ConnectionEnd) : Build () :=
  match subcomponent e with
  | None => mret ()
  | Some sub =>
      o ← lift (written_index sub);
      match o with
      | Some (base, index) =>
          match max_indices !! to_ascii_lowercase base with
          | Some max_idx =>
              if (max_idx <? index)%N || (index =? 0)%N then
                push_diagnostic
                  {| inst_message := "connection '" +:+ cname +:+ "': array index " +:+ pretty index +:+ " for '" +:+
                       base +:+ "' is out of bounds (max " +:+ pretty max_idx +:+ ") (STPA-REQ-010)";
                     inst_path := [cname] |}
              else mret ()
          | None => mret ()
          end
      | None => mret ()
      end
  end.

Definition option_list {A} (o : option A) : list A := match o with Some a => [a] | None => [] end.

(** crates/spar-hir-def/src/instance.rs:3582-3630 [Builder::validate_connection_array_indices] *)
Definition validate_connection_array_indices (owner : ComponentInstanceIdx) (conn_indices : list ConnectionInstanceIdx)
  : Build () :=
  o ← the_component owner;
  cs ← mapM the_component (children o);
  let max_indices := foldl max_index ∅ cs in
  if bool_decide (max_indices = ∅) then mret ()
  else
    forM_ (λ ci,
      inst ← gets built;
      conn ← lift (connection inst ci);
      forM_ (validate_end max_indices (conn_name conn)) (option_list (src conn) ++ option_list (dst conn))%list)
    conn_indices.

(** crates/spar-hir-def/src/instance.rs:2062-2078 [Builder::instantiate_component]: the
    properties written on a connection. *)
Definition push_connection_properties (idx : ComponentInstanceIdx) (ci : ConnectionInstanceIdx) (cd : ConnectionData)
  : Build () :=
  match trees g !! cd_tree cd with
  | None => mret ()
  | Some tree =>
      item ← lift (arena_get (tree_connections tree) (cd_idx cd));
      map ← foldB (push_association tree idx None DeclaredLocal) new (cn_property_associations item);
      if bool_decide (props map = ∅) then mret ()
      else on_built (λ inst, set_connection_property_maps (<[ci := map]> (connection_property_maps inst)) inst)
  end.

Definition on_end {A} (f : A → Build A) (o : option A) : Build (option A) :=
  match o with Some a => a ← f a; mret (Some a) | None => mret None end.

(** crates/spar-hir-def/src/instance.rs:1967-2081 [Builder::instantiate_component]: one
    connection. *)
Definition instantiate_connection (idx : ComponentInstanceIdx) (child_names local_features : list Name)
    (call_map : gmap string Name) (cd : ConnectionData) : Build ConnectionInstanceIdx :=
  let fix_end e :=
    let e := if bool_decide (cd_kind cd = AccessConnection) then fix_access child_names e else e in
    if bool_decide (cd_kind cd = ParameterConnection) then fix_call call_map e else e in
  s ← on_end (fixup_own_feature_group_endpoint idx (cd_name cd) child_names) (fix_end <$> cd_src cd);
  d ← on_end (fixup_own_feature_group_endpoint idx (cd_name cd) child_names) (fix_end <$> cd_dst cd);
  forM_ (check_connection_end_feature idx (cd_name cd) "source" child_names local_features call_map) (option_list s) ;;
  forM_ (check_connection_end_feature idx (cd_name cd) "destination" child_names local_features call_map) (option_list d) ;;
  ci ← alloc_connection {| conn_name := cd_name cd; conn_kind := cd_kind cd; is_bidirectional := cd_bidirectional cd;
                           conn_owner := idx; src := s; dst := d; conn_in_modes := cd_in_modes cd |};
  push_connection_properties idx ci cd ;;
  mret ci.

(** ** Components *)

(** crates/spar-hir-def/src/instance.rs:1813-1823 [Builder::instantiate_component]: the
    segments of a flow implementation. *)
Definition attach_flow_impl (idx : ComponentInstanceIdx) (fi : Name * list FlowSegment) : Build () :=
  c ← the_component idx;
  let the_flow i := (inst ← gets built; lift (arena_get (flow_instances inst) i)) in
  target ← find_index the_flow (λ f, eq_ignore_ascii_case (flow_name f) fi.1) (flows c);
  match target with
  | Some f =>
      fl ← the_flow f;
      on_built (λ inst, set_flow_instances
        (<[f := {| flow_name := flow_name fl; flow_kind := flow_kind fl; flow_owner := flow_owner fl;
                   impl_segments := Some fi.2 |}]> (flow_instances inst)) inst)
  | None => mret ()
  end.

(** crates/spar-hir-def/src/instance.rs:2088-2113 [Builder::instantiate_component]: an
    end-to-end flow; what its associations queue is discarded. *)
Definition instantiate_e2e_flow (idx : ComponentInstanceIdx) (e : Name * list Name * nat * list ItemIdx) : Build () :=
  let '(nm, segs, tree_idx, pa_indices) := e in
  pending ← gets pending_applies_to;
  properties ← match trees g !! tree_idx with
               | Some tree => foldB (push_association tree idx None DeclaredLocal) new pa_indices
               | None => mret new
               end;
  set_pending pending ;;
  alloc_e2e_flow {| e2e_name := nm; e2e_owner := idx; e2e_segments := segs; e2e_properties := properties |} ;;
  mret ().

(** crates/spar-hir-def/src/instance.rs:2118-2149 [Builder::instantiate_component]: the
    modes and mode transitions of the implementation. *)
Definition instantiate_modes (idx : ComponentInstanceIdx) (ms : list ModeItem) (mts : list ModeTransitionItem) : Build () :=
  c ← the_component idx;
  existing ← mapM (λ mi, inst ← gets built; lift (arena_get (mode_instances inst) mi)) (modes c);
  let is_new m := negb (existsb (λ e, bool_decide (mode_name e = md_name m)) existing) in
  new_modes ← mapM (λ m, alloc_mode {| mode_name := md_name m; is_initial := md_is_initial m; mode_owner := idx |})
                (List.filter is_new ms);
  new_transitions ← mapM (λ t, alloc_mode_transition
                            {| mt_name := tr_name t; mt_source := tr_source t; mt_destination := tr_destination t;
                               mt_triggers := tr_triggers t; mt_owner := idx |}) mts;
  update_component idx (λ c, with_contents (features c) (flows c) (modes c ++ new_modes)
                                           (mode_transitions c ++ new_transitions) c).

(** A component to instantiate: the arguments of [instantiate_component]. *)
Record Request := {
  rq_name : Name;
  rq_from_package : Name;
  rq_classifier_package : option Name;
  rq_type_name : Name;
  rq_impl_name : Name;
  rq_parent : option ComponentInstanceIdx;
  rq_subcomponent : option SubLoc;
}.

(** crates/spar-hir-def/src/instance.rs:1869-1922 [Builder::instantiate_component]: a
    subcomponent with a type and no implementation. *)
Definition instantiate_leaf (idx : ComponentInstanceIdx) (resolved_package : Name) (cls_ref : ClassifierRef)
    (sd : SubcomponentData) (index : option u64) (nm : Name) : Build ComponentInstanceIdx :=
  resolved ← lift (resolve_classifier g resolved_package
                     {| package := package cls_ref; type_name := type_name cls_ref; impl_name := None |});
  let '(leaf_type_loc, leaf_pkg) :=
    match resolved with
    | ResolvedType res_pkg loc => (Some loc, res_pkg)
    | _ => (None, default resolved_package (package cls_ref))
    end in
  child ← alloc_component (fresh_component nm (sd_category sd) (type_name cls_ref) None leaf_pkg (Some idx) index
                             (sd_in_modes sd));
  populate_from_type child leaf_type_loc leaf_pkg ;;
  project_emv2 child leaf_type_loc None ;;
  build_leaf_property_map child leaf_pkg (type_name cls_ref) (sd_loc sd) ;;
  mret child.

(** crates/spar-hir-def/src/instance.rs:1927-1945 [Builder::instantiate_component]: a
    subcomponent with no classifier. *)
Definition instantiate_anonymous (idx : ComponentInstanceIdx) (resolved_package : Name) (sd : SubcomponentData)
    (index : option u64) (nm : Name) : Build ComponentInstanceIdx :=
  child ← alloc_component (fresh_component nm (sd_category sd) "" None resolved_package (Some idx) index (sd_in_modes sd));
  build_anon_property_map child (sd_loc sd) ;;
  mret child.

(** crates/spar-hir-def/src/instance.rs:1842-1947 [Builder::instantiate_component]: one
    element of a subcomponent; [instantiate] is the recursive call. *)
Definition instantiate_element (instantiate : Request → Build ComponentInstanceIdx) (idx : ComponentInstanceIdx)
    (resolved_package : Name) (sd : SubcomponentData) (i : nat) : Build ComponentInstanceIdx :=
  let '(index, nm) := element (negb (bool_decide (length (sd_array_dimensions sd) = 0))) (sd_name sd) i in
  match sd_classifier sd with
  | Some cls_ref =>
      match impl_name cls_ref with
      | Some sub_impl =>
          child ← instantiate {| rq_name := nm; rq_from_package := resolved_package;
                                 rq_classifier_package := package cls_ref; rq_type_name := type_name cls_ref;
                                 rq_impl_name := sub_impl; rq_parent := Some idx; rq_subcomponent := Some (sd_loc sd) |};
          update_component child (with_element index (sd_in_modes sd)) ;;
          mret child
      | None => instantiate_leaf idx resolved_package cls_ref sd index nm
      end
  | None => instantiate_anonymous idx resolved_package sd index nm
  end.

(** crates/spar-hir-def/src/instance.rs:1828-1948 [Builder::instantiate_component]: the
    instances of one subcomponent. *)
Definition instantiate_subcomponent (instantiate : Request → Build ComponentInstanceIdx) (idx : ComponentInstanceIdx)
    (resolved_package : Name) (sd : SubcomponentData) : Build (list ComponentInstanceIdx) :=
  count ← array_element_count (sd_array_dimensions sd) (sd_name sd);
  mapM (instantiate_element instantiate idx resolved_package sd) (seq 0 (N.to_nat count)).

(** crates/spar-hir-def/src/instance.rs:1803-2149 [Builder::instantiate_component]: what
    is inside an implementation. *)
Definition instantiate_inside (instantiate : Request → Build ComponentInstanceIdx) (idx : ComponentInstanceIdx)
    (loc : ItemLoc) (resolved_package : Name) : Build () :=
  chain ← collect_impl_chain loc resolved_package;
  forM_ (attach_flow_impl idx) (r_flow_impls chain) ;;
  child_indices ← mapM (instantiate_subcomponent instantiate idx resolved_package) (r_subcomponents chain);
  update_component idx (with_children (concat child_indices)) ;;
  children ← mapM the_component (concat child_indices);
  conn_indices ← mapM (instantiate_connection idx (map name children) (r_local_features chain) (r_call_map chain))
                      (r_connections chain);
  update_component idx (with_connections conn_indices) ;;
  validate_connection_array_indices idx conn_indices ;;
  forM_ (instantiate_e2e_flow idx) (r_e2e_flows chain) ;;
  instantiate_modes idx (r_modes chain) (r_mode_transitions chain).

(** crates/spar-hir-def/src/instance.rs:1736-1786 [Builder::instantiate_component]: the
    component itself, with where its type and its implementation are and the
    package they are in. *)
Definition allocate_component (rq : Request) : Build (ComponentInstanceIdx * option ItemLoc * option ItemLoc * Name) :=
  let ref_ := {| package := rq_classifier_package rq; type_name := rq_type_name rq; impl_name := Some (rq_impl_name rq) |} in
  resolved ← lift (resolve_classifier g (rq_from_package rq) ref_);
  '(cat, impl_loc, resolved_package) ←
    match resolved with
    | ResolvedImpl res_pkg loc =>
        c ← lift (get_component_impl g loc);
        mret (match c with Some c => ci_category c | None => System end, Some loc, res_pkg)
    | _ =>
        push_diagnostic {| inst_message := "unresolved implementation: " +:+ classifier_fmt ref_;
                           inst_path := [rq_name rq] |} ;;
        mret (System, None, rq_from_package rq)
    end;
  type_resolved ← lift (resolve_classifier g resolved_package
    {| package := Some resolved_package; type_name := rq_type_name rq; impl_name := None |});
  let type_loc := match type_resolved with ResolvedType _ loc => Some loc | _ => None end in
  idx ← alloc_component (fresh_component (rq_name rq) cat (rq_type_name rq) (Some (rq_impl_name rq)) resolved_package
                           (rq_parent rq) None []);
  mret (idx, type_loc, impl_loc, resolved_package).

(** The maximal depth, for [instantiate] and the message. *)
Definition max_depth : nat := 100.

(** crates/spar-hir-def/src/instance.rs:1722-2161 [Builder::instantiate_component]: [levels] is
    [max_depth - depth]. *)
Fixpoint instantiate_component (levels : nat) (rq : Request) : Build ComponentInstanceIdx :=
  a ← allocate_component rq;
  let '(idx, type_loc, impl_loc, resolved_package) := (a : _ * _ * _ * _) in
  build_property_map idx type_loc impl_loc (rq_subcomponent rq) resolved_package ;;
  populate_from_type idx type_loc resolved_package ;;
  project_emv2 idx type_loc impl_loc ;;
  match impl_loc with
  | Some loc =>
      match levels with
      | S levels => instantiate_inside (instantiate_component levels) idx loc resolved_package
      | O => push_diagnostic {| inst_message := "maximum instantiation depth (" +:+ pretty (N.of_nat max_depth) +:+ ") exceeded";
                                inst_path := [rq_name rq] |}
      end
  | None => mret ()
  end ;;
  mret idx.
End scope.

(** ** [applies to] *)

(** crates/spar-hir-def/src/instance.rs:1641-1654 [AppliesTarget] *)
Inductive AppliesTarget :=
  | TargetComponent (i : ComponentInstanceIdx)
  | TargetFeature (i : FeatureInstanceIdx)
  | TargetConnection (i : ConnectionInstanceIdx)
  | Unresolvable.

(** The first index whose element has the name. *)
Fixpoint find_named {A} (arena : list A) (name_of : A → Name) (seg : string) (is_ : list nat) : Exec (option nat) :=
  match is_ with
  | [] => Done None
  | i :: is_ =>
      a ← arena_get arena i;
      if eq_ignore_ascii_case (name_of a) seg then Done (Some i) else find_named arena name_of seg is_
  end.

(** crates/spar-hir-def/src/instance.rs:3535-3574 [Builder::resolve_applies_to_path]: the
    walk from [current]. *)
Fixpoint walk_path (inst : SystemInstance) (current : ComponentInstanceIdx) (segs : list string) : Exec AppliesTarget :=
  match segs with
  | [] => Done (TargetComponent current)
  | seg :: rest =>
      c ← component inst current;
      child ← find_child inst seg (children c);
      match child with
      | Some i => walk_path inst i rest
      | None =>
          match rest with
          | [] =>
              f ← find_named (feature_instances inst) feat_name seg (features c);
              match f with
              | Some fi => Done (TargetFeature fi)
              | None =>
                  cn ← find_named (connection_instances inst) conn_name seg (connections c);
                  Done match cn with Some ci => TargetConnection ci | None => Unresolvable end
              end
          | _ => Done Unresolvable
          end
      end
  end.

(** crates/spar-hir-def/src/instance.rs:3524-3575 [Builder::resolve_applies_to_path] *)
Definition resolve_applies_to_path (inst : SystemInstance) (owner : ComponentInstanceIdx) (path : string)
  : Exec AppliesTarget :=
  walk_path inst owner (segments (Ascii.eqb "."%char) path).

(** [map.entry(i).or_default()], changed. *)
Definition update_map (f : PropertyMap → PropertyMap) (i : nat) (m : gmap nat PropertyMap) : gmap nat PropertyMap :=
  <[i := f (default new (m !! i))]> m.

(** crates/spar-hir-def/src/instance.rs:3432-3510 [Builder::attach_applies_to] *)
Definition attach_applies_to (owner : ComponentInstanceIdx) (path : string) (prop : PropertyValue)
    (binding : option ModalBinding) : Build () :=
  inst ← gets built;
  target ← lift (resolve_applies_to_path inst owner path);
  match target with
  | TargetComponent t =>
      on_built (λ i, set_property_maps
        (update_map (λ m, add_modal m prop (Contained owner) binding (Some owner)) t (property_maps i)) i)
  | TargetFeature f =>
      on_built (λ i, set_feature_property_maps
        (update_map (λ m, add_from m prop (Contained owner)) f (feature_property_maps i)) i)
  | TargetConnection c =>
      on_built (λ i, set_connection_property_maps
        (update_map (λ m, add_with_reference_context m prop owner) c (connection_property_maps i)) i)
  | Unresolvable =>
      let k := key_of (pv_name prop) in
      let holds := match property_maps inst !! owner with Some m => has_key m k | None => false end in
      fallbacks ← gets applies_to_fallbacks;
      set_fallbacks (if pv_is_append prop && holds then fallbacks else {[(owner, k)]} ∪ fallbacks) ;;
      on_built (λ i, set_property_maps
        (update_map (λ m, add_modal m prop (ContainedUnresolved path) binding None) owner (property_maps i)) i) ;;
      o ← the_component owner;
      push_diagnostic {| inst_message := "applies_to path '" +:+ path +:+
                           "' could not be resolved to a component instance or feature";
                         inst_path := [name o] |}
  end.

(** crates/spar-hir-def/src/instance.rs:3290-3309 [Builder::resolve_pending_applies_to]: one
    queued association. *)
Definition attach_pending (p : PendingAppliesTo) : Build () :=
  let '(owner, path, prop, binding) := p in
  match segments (Ascii.eqb ","%char) path with
  | [] => attach_applies_to owner path prop binding
  | elements => forM_ (λ element, attach_applies_to owner element prop binding) elements
  end.

(** crates/spar-hir-def/src/instance.rs:3278-3312 [Builder::resolve_pending_applies_to] *)
Definition resolve_pending_applies_to : Build () :=
  pending ← gets pending_applies_to;
  set_pending [] ;;
  forM_ attach_pending pending.

(** ** Inherited properties *)

(** crates/spar-hir-def/src/instance.rs:3346-3354 [Builder::inherit_properties]: what a
    component is to inherit. *)
Record Addition := {
  ad_heir : ComponentInstanceIdx;
  ad_key : key;
  ad_values : list PropertyValue;
  ad_ctx : ComponentInstanceIdx;
  ad_ancestor : ComponentInstanceIdx;
  ad_origins : list PropertySource;
  ad_modal : option ModalBinding;
}.

(** crates/spar-hir-def/src/instance.rs:3363-3369 [Builder::inherit_properties]: the keys
    under which a property may be written. *)
Definition inherit_keys (p : InheritProperty) : list key :=
  [(ci "", ci (ip_name p)); (ci (ip_property_set p), ci (ip_name p))].

(** crates/spar-hir-def/src/instance.rs:3381-3390 [Builder::inherit_properties] *)
Definition source_keys (b : Builder) (keys : list key) (a : ComponentInstanceIdx) : list key :=
  match property_maps (built b) !! a with
  | None => []
  | Some m => List.filter (λ k, has_key m k && negb (bool_decide ((a, k) ∈ applies_to_fallbacks b))) keys
  end.

(** crates/spar-hir-def/src/instance.rs:3395-3414 [Builder::inherit_properties]: what an
    ancestor hands down. *)
Definition additions_from (b : Builder) (idx a : ComponentInstanceIdx) (from : list key) : list Addition :=
  match property_maps (built b) !! a with
  | None => []
  | Some m => omap (λ k,
      match values_for_key m k with
      | Some values =>
          Some {| ad_heir := idx; ad_key := k; ad_values := values; ad_ctx := default a (reference_context_for_key m k);
                  ad_ancestor := a; ad_origins := sources_for_key m k; ad_modal := modal m !! k |}
      | None => None
      end) from
  end.

(** crates/spar-hir-def/src/instance.rs:3391-3418 [Builder::inherit_properties]: the walk
    up, on fuel. *)
Fixpoint nearest (fuel : nat) (b : Builder) (idx : ComponentInstanceIdx) (keys : list key)
    (ancestor : option ComponentInstanceIdx) : Exec (list Addition) :=
  match ancestor with
  | None => Done []
  | Some a =>
      match fuel with
      | O => Stuck
      | S fuel =>
          match source_keys b keys a with
          | [] => c ← component (built b) a; nearest fuel b idx keys (parent c)
          | from => Done (additions_from b idx a from)
          end
      end
  end.

(** crates/spar-hir-def/src/instance.rs:3360-3419 [Builder::inherit_properties]: one
    property of one component. *)
Definition inherit_one (b : Builder) (ic : ComponentInstanceIdx * ComponentInstance) (p : InheritProperty)
  : Exec (list Addition) :=
  let '(idx, comp) := ic in
  if negb (accepts p (category comp) (is_some (comp_impl_name comp))) then Done []
  else
    let keys := inherit_keys p in
    let own := match property_maps (built b) !! idx with
               | Some m => existsb (has_key m) keys
               | None => false
               end in
    if own then Done []
    else nearest (length (components (built b))) b idx keys (parent comp).

(** crates/spar-hir-def/src/instance.rs:3421-3426 [Builder::inherit_properties] *)
Definition apply_addition (m : gmap nat PropertyMap) (a : Addition) : gmap nat PropertyMap :=
  update_map (λ pm, insert_inherited pm (ad_key a) (ad_values a) (ad_ctx a) (ad_ancestor a) (ad_origins a) (ad_modal a))
    (ad_heir a) m.

(** crates/spar-hir-def/src/instance.rs:3339-3427 [Builder::inherit_properties] *)
Definition inherit_properties : Build () :=
  b ← gets id;
  additions ← lift (concatM (λ ic, concatM (inherit_one b ic) INHERIT_PROPERTIES) (all_components (built b)));
  on_built (λ i, set_property_maps (foldl apply_addition (property_maps i) additions) i).
#[local] Close Scope string_scope.
