(* ===== verification/BuilderSpec.v ===== *)
(** * What the builder keeps

    A logic of total correctness for the programs of the builder; the
    invariant of its state, that every program keeps; and what each program
    adds to the arenas.  None panics or runs out of fuel on well-indexed item
    trees: indices in range, sizes that can be read, brackets in order. *)
From S2P Require Import Prelude.
From S2P Require Import Diagnostics.
From S2P Require Import CategoryRules.
From S2P Require Import Names.
From S2P Require Import PropertyExpr.
From S2P Require Import ItemTree.
From S2P Require Import PropertyMap.
From S2P Require Import Instance.
From S2P Require Import Semantic.
From S2P Require Import Quantities.
From S2P Require Import Resolver.
From S2P Require Import FeatureGroups.
From S2P Require Import Containment.
From S2P Require Import Builder.
From Stdlib Require Import Ascii String.
From stdpp Require Import gmap strings sorting.

(** ** Total correctness

    [wp m Q b]: from [b], [m] returns, and [Q] holds of the result and of the
    builder it leaves. *)
Definition wp {A} (m : Build A) (Q : A → Builder → Prop) (b : Builder) : Prop :=
  ∃ a b', m b = Done (a, b') ∧ Q a b'.

Lemma wp_ret {A} (a : A) Q b : Q a b → wp (mret a) Q b.
Proof. intros H. by exists a, b. Qed.

Lemma wp_bind {A B} (m : Build A) (k : A → Build B) Q b :
  wp m (λ a, wp (k a) Q) b → wp (m ≫= k) Q b.
Proof.
  intros (a & b' & E & c & b'' & E' & H). exists c, b''. split; [|done].
  unfold mbind, Build_bind. by rewrite E.
Qed.

Lemma wp_lift {A} (m : Exec A) Q b : (∃ a, m = Done a ∧ Q a b) → wp (lift m) Q b.
Proof. intros (a & -> & H). by exists a, b. Qed.

Lemma wp_gets {A} (f : Builder → A) Q b : Q (f b) b → wp (gets f) Q b.
Proof. intros H. by exists (f b), b. Qed.

Lemma wp_modify f (Q : () → Builder → Prop) b : Q () (f b) → wp (modify f) Q b.
Proof. intros H. by exists (), (f b). Qed.

Lemma wp_mono {A} (m : Build A) (Q Q' : A → Builder → Prop) b :
  wp m Q b → (∀ a b', Q a b' → Q' a b') → wp m Q' b.
Proof. intros (a & b' & E & H) HQ. exists a, b'. auto. Qed.

(** Loops: [I] is kept by each round. *)
Lemma wp_mapM {A B} (f : A → Build B) (I : list A → list B → Builder → Prop) xs b :
  I [] [] b →
  (∀ done_ x ys b', done_ ++ [x] `prefix_of` xs → I done_ ys b' → wp (f x) (λ y b'', I (done_ ++ [x]) (ys ++ [y]) b'') b') →
  wp (mapM f xs) (λ ys b', I xs ys b') b.
Proof.
  intros H0 Hstep. assert (H : ∀ todo done_ ys b', done_ ++ todo = xs → I done_ ys b' →
    wp (mapM f todo) (λ zs b'', I xs (ys ++ zs) b'') b').
  { induction todo as [|x todo IH]; intros done_ ys b' Hd Hi; simpl.
    - apply wp_ret. rewrite app_nil_r in *. by subst.
    - apply wp_bind. eapply wp_mono; [apply (Hstep done_ x ys b'); [|done]|].
      + exists todo. by rewrite <- Hd, <- app_assoc.
      + intros y b'' Hy. apply wp_bind. eapply wp_mono; [apply (IH (done_ ++ [x]) (ys ++ [y])); [|done]|].
        * by rewrite <- app_assoc.
        * intros zs b3 Hz. apply wp_ret. cbn beta in Hz. by rewrite <- app_assoc in Hz. }
  by apply (H xs [] []).
Qed.

Lemma wp_foldB {A B} (f : A → B → Build A) (I : A → Builder → Prop) a bs b :
  I a b → (∀ a' x b', x ∈ bs → I a' b' → wp (f a' x) I b') → wp (foldB f a bs) I b.
Proof.
  revert a b. induction bs as [|x bs IH]; intros a b H0 Hstep; simpl; [by apply wp_ret|].
  apply wp_bind. eapply wp_mono; [apply Hstep; [by left|done]|]. intros a' b' H. apply IH; [done|].
  intros a2 y b2 Hy. apply Hstep. by right.
Qed.

Lemma wp_forM {A} (f : A → Build ()) (I : Builder → Prop) xs b :
  I b → (∀ x b', x ∈ xs → I b' → wp (f x) (λ _, I) b') → wp (forM_ f xs) (λ _, I) b.
Proof.
  revert b. induction xs as [|x xs IH]; intros b H0 Hstep; simpl; [by apply wp_ret|].
  apply wp_bind. eapply wp_mono; [apply Hstep; [by left|done]|]. intros [] b' H. apply IH; [done|].
  intros y b2 Hy. apply Hstep. by right.
Qed.

(** ** Well-indexed item trees

    Three conditions on a tree.  An index is in its arena: lowering stores one
    only once its item is there.  A Data_Size or Source_Data_Size of a
    component type does not overflow when it is read ([tree_data_ok]): that
    depends on the model, and is not checked by the code (see
    [Resolver.size_overflows]).  The names of a connection's ends, and of a
    called subprogram, do not have a closing bracket before the opening one
    ([brackets_ok]): the parser makes no such name. *)
Definition in_arena {A} (arena : list A) (is_ : list ItemIdx) : Prop := Forall (λ i, is_Some (arena !! i)) is_.

Definition brackets_ok (s : string) : Prop := ∃ o, written_index s = Done o.

Definition element_ok (e : ConnectedElementRef) : Prop :=
  from_option brackets_ok True (ce_subcomponent e) ∧ brackets_ok (ce_feature e).

Record well_indexed (t : ItemTree) : Prop := {
  wi_packages : tree_ok t;
  wi_data : tree_data_ok t;
  wi_types : Forall (λ ct,
    in_arena (tree_features t) (ct_features ct) ∧ in_arena (flow_specs t) (ct_flow_specs ct) ∧
    in_arena (tree_modes t) (ct_modes ct) ∧ in_arena (tree_mode_transitions t) (ct_mode_transitions ct) ∧
    in_arena (emv2_subclauses t) (ct_emv2 ct)) (component_types t);
  wi_impls : Forall (λ c,
    in_arena (tree_connections t) (ci_connections c) ∧ in_arena (end_to_end_flows t) (ci_end_to_end_flows c) ∧
    in_arena (flow_impls t) (ci_flow_impls c) ∧ in_arena (tree_modes t) (ci_modes c) ∧
    in_arena (tree_mode_transitions t) (ci_mode_transitions c) ∧ in_arena (call_sequences t) (ci_call_sequences c) ∧
    in_arena (property_associations t) (ci_property_associations c) ∧ in_arena (emv2_subclauses t) (ci_emv2 c))
    (component_impls t);
  wi_groups : Forall (λ f, in_arena (tree_features t) (fgt_features f)) (feature_group_types t);
  wi_features : Forall (λ f, in_arena (property_associations t) (ft_property_associations f)) (tree_features t);
  wi_subcomponents : Forall (λ s, in_arena (property_associations t) (sub_property_associations s)) (tree_subcomponents t);
  wi_connections : Forall (λ c, in_arena (property_associations t) (cn_property_associations c) ∧
    from_option element_ok True (cn_src c) ∧ from_option element_ok True (cn_dst c)) (tree_connections t);
  wi_flows : Forall (λ e, in_arena (property_associations t) (ee_property_associations e)) (end_to_end_flows t);
  wi_sequences : Forall (λ s, in_arena (subprogram_calls t) (cs_calls s)) (call_sequences t);
  wi_calls : Forall (λ c, from_option (λ r, brackets_ok (type_name r)) True (sc_called_subprogram c)) (subprogram_calls t);
}.

Lemma in_arena_get {A} (arena : list A) is_ i : in_arena arena is_ → i ∈ is_ → ∃ a, arena_get arena i = Done a ∧ arena !! i = Some a.
Proof.
  unfold in_arena. rewrite Forall_forall. intros H Hi. destruct (H i Hi) as [a Ha]. exists a. split; [by apply arena_get_Some|done].
Qed.

Lemma mapM_in_arena {A} (arena : list A) is_ : in_arena arena is_ → ∃ ys, mapM (arena_get arena) is_ = Done ys.
Proof.
  intros H. induction H as [|i is_ [a Ha] _ [ys IH]]; [by exists []|]. exists (a :: ys). simpl.
  apply arena_get_Some in Ha as ->. simpl. by rewrite IH.
Qed.

Lemma mapM_all {A B} (f : A → Exec B) (P : B → Prop) xs :
  (∀ x, x ∈ xs → ∃ y, f x = Done y ∧ P y) → ∃ ys, mapM f xs = Done ys ∧ Forall P ys.
Proof.
  induction xs as [|x xs IH]; intros H; [by exists []|]. destruct (H x) as (y & Hy & Py); [by left|].
  destruct IH as (ys & Hys & Pys); [intros; apply H; by right|]. exists (y :: ys). simpl. rewrite Hy. simpl. rewrite Hys. split; [done|by constructor].
Qed.

(** ** Who owns what *)

(** The positions at which the owner is [i]. *)
Definition positions (os : list (option nat)) (i : nat) : list nat :=
  omap (λ jo : nat * option nat, if bool_decide (jo.2 = Some i) then Some jo.1 else None) (imap pair os).

Lemma positions_nil i : positions [] i = [].
Proof. done. Qed.

Lemma positions_snoc os o i :
  positions (os ++ [o]) i = positions os i ++ (if bool_decide (o = Some i) then [length os] else []).
Proof.
  unfold positions. rewrite imap_app, omap_app. f_equal. cbn. rewrite Nat.add_0_r. by case_bool_decide.
Qed.

Lemma positions_replicate os n i j :
  positions (os ++ replicate n (Some i)) j = positions os j ++ (if bool_decide (i = j) then seq (length os) n else []).
Proof.
  revert os. induction n as [|n IH]; intros os; cbn [replicate seq].
  { rewrite app_nil_r. case_bool_decide; by rewrite app_nil_r. }
  replace (os ++ Some i :: replicate n (Some i)) with ((os ++ [Some i]) ++ replicate n (Some i)) by by rewrite <- app_assoc.
  rewrite IH, positions_snoc, <- app_assoc. f_equal. rewrite length_app. cbn [length].
  destruct (decide (i = j)) as [->|Hne].
  - rewrite !bool_decide_true by done. cbn. by rewrite Nat.add_1_r.
  - rewrite !bool_decide_false by congruence. done.
Qed.

Lemma positions_elem os i j : j ∈ positions os i ↔ os !! j = Some (Some i).
Proof.
  unfold positions. rewrite list_elem_of_omap. split.
  - intros ([j' o] & Hin & H). apply list_elem_of_lookup in Hin as [k Hk]. rewrite list_lookup_imap in Hk.
    apply fmap_Some in Hk as (o' & Ho & [= -> ->]). cbn in H. case_bool_decide; [|done]. by simplify_eq.
  - intros H. exists (j, Some i). split; [|cbn; by rewrite bool_decide_true].
    apply list_elem_of_lookup. exists j. by rewrite list_lookup_imap, H.
Qed.

Lemma positions_none os i : Forall (λ o, o ≠ Some i) os → positions os i = [].
Proof.
  intros H. destruct (positions os i) as [|j js] eqn:E; [done|]. exfalso.
  assert (Hj : j ∈ positions os i) by (rewrite E; by left). apply positions_elem in Hj.
  by eapply (Forall_lookup_1 _ _ _ _ H).
Qed.

Lemma positions_sorted os i : StronglySorted lt (positions os i).
Proof.
  induction os as [|o os IH] using rev_ind; [constructor|]. rewrite positions_snoc.
  case_bool_decide; [|by rewrite app_nil_r].
  assert (Hlt : Forall (λ j, j < length os) (positions os i)).
  { apply Forall_forall. intros j Hj%positions_elem. by eapply lookup_lt_Some. }
  revert IH Hlt. generalize (positions os i). induction l as [|j js IHj]; cbn; intros Hs Hl; [by repeat constructor|].
  apply StronglySorted_inv in Hs as [Hs Hj]. inversion Hl; subst. constructor; [by apply IHj|].
  apply Forall_app. split; [done|by repeat constructor].
Qed.

(** ** The invariant *)

(** The instance without its maps and its diagnostics. *)
Definition blank (i : SystemInstance) : SystemInstance :=
  set_diagnostics [] (set_property_maps ∅ (set_feature_property_maps ∅ (set_connection_property_maps ∅
    (set_emv2_models ∅ i)))).

Definition arenas (b : Builder) : SystemInstance := blank (built b).

Definition parents (i : SystemInstance) : list (option nat) := parent <$> components i.
Definition feature_owners (i : SystemInstance) : list (option nat) := (λ f, Some (feat_owner f)) <$> feature_instances i.
Definition connection_owners (i : SystemInstance) : list (option nat) := (λ c, Some (conn_owner c)) <$> connection_instances i.
Definition flow_owners (i : SystemInstance) : list (option nat) := (λ f, Some (flow_owner f)) <$> flow_instances i.
Definition mode_owners (i : SystemInstance) : list (option nat) := (λ m, Some (mode_owner m)) <$> mode_instances i.
Definition transition_owners (i : SystemInstance) : list (option nat) :=
  (λ t, Some (mt_owner t)) <$> mode_transition_instances i.

(** How far a component is from the root. *)
Inductive depth_is (ps : list (option nat)) : nat → nat → Prop :=
  | depth_root i : ps !! i = Some None → depth_is ps i 0
  | depth_child i p d : ps !! i = Some (Some p) → depth_is ps p d → depth_is ps i (S d).

Definition end_ok (e : ConnectionEnd) : Prop := from_option brackets_ok True (subcomponent e).

Section invariant.
Context (ts : list ItemTree) (D : nat).

Definition sub_ok (l : nat * ItemIdx) : Prop :=
  ∃ tree sub, ts !! l.1 = Some tree ∧ tree_subcomponents tree !! l.2 = Some sub.

(** The lists of a component point into the arenas. *)
Definition below (n : nat) (is_ : list nat) : Prop := Forall (λ j, j < n) is_.

Record lists_ok (i : SystemInstance) (c : ComponentInstance) : Prop := {
  lo_children : below (length (components i)) (children c);
  lo_features : below (length (feature_instances i)) (features c);
  lo_connections : below (length (connection_instances i)) (connections c);
  lo_flows : below (length (flow_instances i)) (flows c);
  lo_modes : below (length (mode_instances i)) (modes c);
  lo_transitions : below (length (mode_transition_instances i)) (mode_transitions c);
}.

Definition owner_in (i : SystemInstance) (o : option nat) : Prop := ∃ k, o = Some k ∧ k < length (components i).

(** What holds of the arenas at any time. *)
Record sane_arenas (i : SystemInstance) : Prop := {
  sa_parent k c : components i !! k = Some c → match parent c with Some p => p < k | None => k = 0 end;
  sa_depth k d : depth_is (parents i) k d → d ≤ D;
  sa_lists k c : components i !! k = Some c → lists_ok i c;
  sa_features : Forall (owner_in i) (feature_owners i);
  sa_connections : Forall (owner_in i) (connection_owners i);
  sa_flows : Forall (owner_in i) (flow_owners i);
  sa_modes : Forall (owner_in i) (mode_owners i);
  sa_transitions : Forall (owner_in i) (transition_owners i);
  sa_e2e : Forall (λ e, e2e_owner e < length (components i)) (e2e_flow_instances i);
  sa_ends : Forall (λ c, from_option end_ok True (src c) ∧ from_option end_ok True (dst c)) (connection_instances i);
}.

(** And of the builder. *)
Record sane (b : Builder) : Prop := {
  sn_arenas : sane_arenas (arenas b);
  sn_pending : Forall (λ p : PendingAppliesTo, p.1.1.1 < length (components (arenas b))) (pending_applies_to b);
  sn_origins l ls : refined_origins b !! l = Some ls → Forall sub_ok ls;
}.

(** What holds between the steps of an instantiation: a component lists what
    it owns, in the order of allocation; those of [open] have no children yet. *)
Record settled (open : list nat) (i : SystemInstance) : Prop := {
  st_children k c : components i !! k = Some c → k ∉ open → children c = positions (parents i) k;
  st_features k c : components i !! k = Some c → features c = positions (feature_owners i) k;
  st_connections k c : components i !! k = Some c → connections c = positions (connection_owners i) k;
  st_flows k c : components i !! k = Some c → flows c = positions (flow_owners i) k;
  st_modes k c : components i !! k = Some c → modes c = positions (mode_owners i) k;
  st_transitions k c : components i !! k = Some c → mode_transitions c = positions (transition_owners i) k;
}.

(** ** Programs that keep the arenas

    [keeps i m Q]: where the arenas are those of [i], [m] returns a value of
    which [Q] holds and leaves them so. *)
Definition keeps (i : SystemInstance) {A} (m : Build A) (Q : A → Prop) : Prop :=
  ∀ b, sane b → arenas b = i → wp m (λ a b', sane b' ∧ arenas b' = i ∧ Q a) b.

Section keeps.
Context (i : SystemInstance).

Lemma keeps_ret {A} (a : A) Q : Q a → keeps i (mret a) Q.
Proof. intros H b Hs Hi. apply wp_ret. by split_and!. Qed.

Lemma keeps_bind {A B} (m : Build A) (k : A → Build B) P Q :
  keeps i m P → (∀ a, P a → keeps i (k a) Q) → keeps i (m ≫= k) Q.
Proof.
  intros Hm Hk b Hs Hi. apply wp_bind. eapply wp_mono; [by apply Hm|]. intros a b' (Hs' & Hi' & Ha). by apply (Hk a Ha).
Qed.

Lemma keeps_mono {A} (m : Build A) (P Q : A → Prop) : keeps i m P → (∀ a, P a → Q a) → keeps i m Q.
Proof.
  intros Hm Hk b Hs Hi. eapply wp_mono; [by apply Hm|]. intros a b' (Hs' & Hi' & Ha). split_and!; auto.
Qed.

Lemma keeps_lift {A} (m : Exec A) Q : (∃ a, m = Done a ∧ Q a) → keeps i (lift m) Q.
Proof. intros (a & Hm & H) b Hs Hi. apply wp_lift. exists a. by split_and!. Qed.

Lemma keeps_gets {A} (f : Builder → A) (Q : A → Prop) :
  (∀ b, sane b → arenas b = i → Q (f b)) → keeps i (gets f) Q.
Proof. intros H b Hs Hi. apply wp_gets. split_and!; auto. Qed.

Lemma keeps_modify f : (∀ b, sane b → arenas b = i → sane (f b) ∧ arenas (f b) = i) → keeps i (modify f) (λ _, True).
Proof. intros H b Hs Hi. apply wp_modify. destruct (H b Hs Hi). by split_and!. Qed.

Lemma keeps_foldB {A B} (f : A → B → Build A) (P : A → Prop) a bs :
  P a → (∀ a x, x ∈ bs → P a → keeps i (f a x) P) → keeps i (foldB f a bs) P.
Proof.
  revert a. induction bs as [|x bs IH]; intros a Ha H; simpl; [by apply keeps_ret|].
  eapply keeps_bind; [apply H; [by left|done]|]. intros a' Ha'. apply IH; [done|]. intros ????. apply H; [by right|done].
Qed.

Lemma keeps_forM {A} (f : A → Build ()) xs : (∀ x, x ∈ xs → keeps i (f x) (λ _, True)) → keeps i (forM_ f xs) (λ _, True).
Proof.
  induction xs as [|x xs IH]; intros H; simpl; [by apply keeps_ret|].
  eapply keeps_bind; [apply H; by left|]. intros [] _. apply IH. intros ??. apply H. by right.
Qed.

Lemma keeps_mapM {A B} (f : A → Build B) (P : B → Prop) xs :
  (∀ x, x ∈ xs → keeps i (f x) P) → keeps i (mapM f xs) (λ ys, Forall P ys).
Proof.
  induction xs as [|x xs IH]; intros H; simpl; [by apply keeps_ret|].
  eapply keeps_bind; [apply H; by left|]. intros y Hy. eapply keeps_bind; [apply IH; intros; apply H; by right|].
  intros ys Hys. apply keeps_ret. by constructor.
Qed.

Lemma sane_same b b' : arenas b' = arenas b → pending_applies_to b' = pending_applies_to b →
  refined_origins b' = refined_origins b → sane b → sane b'.
Proof. intros E1 E2 E3 [H1 H2 H3]. split; rewrite ?E1, ?E2, ?E3; done. Qed.

Lemma keeps_push_diagnostic d : keeps i (push_diagnostic d) (λ _, True).
Proof. apply keeps_modify. intros b Hs Hi. split; [by apply (sane_same b)|done]. Qed.

Lemma keeps_set_chain_incomplete v : keeps i (set_chain_incomplete v) (λ _, True).
Proof. apply keeps_modify. intros b Hs Hi. split; [by apply (sane_same b)|done]. Qed.

Lemma keeps_the_component k : k < length (components i) →
  keeps i (the_component k) (λ c, components i !! k = Some c).
Proof.
  intros Hk b Hs Hi. unfold the_component. apply wp_bind, wp_gets, wp_lift.
  destruct (arena_get_lt (components i) k Hk) as (c & Hc & Hl). exists c. rewrite <- Hi in Hc. by split_and!.
Qed.

Lemma keeps_the_feature k : k < length (feature_instances i) →
  keeps i (the_feature k) (λ f, feature_instances i !! k = Some f).
Proof.
  intros Hk b Hs Hi. unfold the_feature. apply wp_bind, wp_gets, wp_lift.
  destruct (arena_get_lt (feature_instances i) k Hk) as (c & Hc & Hl). exists c. rewrite <- Hi in Hc. by split_and!.
Qed.
End keeps.

(** ** Reading the item trees *)
Context (g : GlobalScope).
Hypothesis (Hok : Forall well_indexed ts) (Hg : from_trees ts = Done g).

Lemma trees_ok : Forall tree_ok ts.
Proof. eapply Forall_impl; [exact Hok|]. apply wi_packages. Qed.

Lemma well_indexed_at j tree : ts !! j = Some tree → well_indexed tree.
Proof. apply (Forall_lookup_1 _ _ _ _ Hok). Qed.

Lemma scope_trees_eq : trees g = ts.
Proof. apply scope_trees; [apply trees_ok|done]. Qed.

Lemma resolved_total from reference : ∃ r, resolve_classifier g from reference = Done r.
Proof. apply (resolve_returns ts g trees_ok Hg). Qed.

Definition type_at (loc : ItemLoc) (tree : ItemTree) (ct : ComponentTypeItem) : Prop :=
  ts !! loc_tree loc = Some tree ∧ component_types tree !! loc_raw_idx loc = Some ct.
Definition impl_at (loc : ItemLoc) (tree : ItemTree) (c : ComponentImplItem) : Prop :=
  ts !! loc_tree loc = Some tree ∧ component_impls tree !! loc_raw_idx loc = Some c.
Definition group_at (loc : ItemLoc) (tree : ItemTree) (f : FeatureGroupTypeItem) : Prop :=
  ts !! loc_tree loc = Some tree ∧ feature_group_types tree !! loc_raw_idx loc = Some f.

Lemma resolved_declared from reference r :
  resolve_classifier g from reference = Done r →
  match r with
  | ResolvedType p loc => p ∈ declared_packages ts ∧ ∃ tree ct, type_at loc tree ct
  | ResolvedImpl p loc => p ∈ declared_packages ts ∧ ∃ tree c, impl_at loc tree c
  | ResolvedFeatureGroup p loc => p ∈ declared_packages ts ∧ ∃ tree f, group_at loc tree f
  | Unresolved => True
  end.
Proof.
  intros H. destruct (scope_holds ts g trees_ok Hg) as [_ Hh]. rewrite (resolve_resolution ts g Hh) in H. injection H as H.
  assert (r = Unresolved ∨ r ≠ Unresolved) as [->|Hne] by (destruct r; [right; done..|by left]); [done|].
  destruct (resolution_declared ts from reference) as (named & _ & p & loc & item & tree & pkg & E & Htree & Hpkg & Hn & Hi & _);
    [congruence|]. rewrite H in E.
  assert (Hp : p ∈ declared_packages ts) by (rewrite <- Hn; eapply declared_packages_elem; [by eapply list_elem_of_lookup_2|done]).
  destruct r as [p' loc'|p' loc'|p' loc'|]; [injection E as -> -> <-..|done]; (split; [done|]); exists tree; cbn in Hi.
  - destruct Hi as (_ & ct & Hct & _). by exists ct.
  - destruct Hi as (impl & c & _ & Hc & _). by exists c.
  - destruct Hi as (_ & f & Hf & _). by exists f.
Qed.

Lemma get_type loc tree ct : type_at loc tree ct → get_component_type g loc = Done (Some ct) ∧ trees g !! loc_tree loc = Some tree.
Proof. intros [H1 H2]. unfold get_component_type, arena_get. by rewrite scope_trees_eq, H1, H2. Qed.

Lemma get_impl loc tree c : impl_at loc tree c → get_component_impl g loc = Done (Some c) ∧ trees g !! loc_tree loc = Some tree.
Proof. intros [H1 H2]. unfold get_component_impl, arena_get. by rewrite scope_trees_eq, H1, H2. Qed.

Lemma get_group loc tree f : group_at loc tree f → get_feature_group_type g loc = Done (Some f) ∧ trees g !! loc_tree loc = Some tree.
Proof. intros [H1 H2]. unfold get_feature_group_type, arena_get. by rewrite scope_trees_eq, H1, H2. Qed.

Lemma type_indexed loc tree ct : type_at loc tree ct →
  (in_arena (tree_features tree) (ct_features ct) ∧ in_arena (flow_specs tree) (ct_flow_specs ct) ∧
   in_arena (tree_modes tree) (ct_modes ct) ∧ in_arena (tree_mode_transitions tree) (ct_mode_transitions ct) ∧
   in_arena (emv2_subclauses tree) (ct_emv2 ct)) ∧
  Forall (λ i, ∃ pa, property_associations tree !! i = Some pa ∧
    (sized pa = true → ∃ o, parse_size_value (list_ascii_of_string (pa_value pa)) = Done o)) (ct_property_associations ct).
Proof.
  intros [H1 H2]. pose proof (well_indexed_at _ _ H1) as W. split.
  - by apply (Forall_lookup_1 _ _ _ _ (wi_types _ W) H2).
  - by apply (Forall_lookup_1 _ _ _ _ (proj2 (wi_data _ W)) H2).
Qed.

Lemma impl_indexed loc tree c : impl_at loc tree c →
  (in_arena (tree_connections tree) (ci_connections c) ∧ in_arena (end_to_end_flows tree) (ci_end_to_end_flows c) ∧
   in_arena (flow_impls tree) (ci_flow_impls c) ∧ in_arena (tree_modes tree) (ci_modes c) ∧
   in_arena (tree_mode_transitions tree) (ci_mode_transitions c) ∧ in_arena (call_sequences tree) (ci_call_sequences c) ∧
   in_arena (property_associations tree) (ci_property_associations c) ∧ in_arena (emv2_subclauses tree) (ci_emv2 c)) ∧
  in_arena (tree_subcomponents tree) (ci_subcomponents c).
Proof.
  intros [H1 H2]. pose proof (well_indexed_at _ _ H1) as W. split.
  - by apply (Forall_lookup_1 _ _ _ _ (wi_impls _ W) H2).
  - by apply (Forall_lookup_1 _ _ _ _ (proj1 (wi_data _ W)) H2).
Qed.

(** ** The expansion of feature groups returns *)

Lemma concatM_returns {A B} (f : A → Exec (list B)) xs : (∀ x, x ∈ xs → ∃ ys, f x = Done ys) → ∃ ys, concatM f xs = Done ys.
Proof.
  induction xs as [|x xs IH]; intros H; simpl; [by exists []|]. destruct (H x) as [ys ->]; [by left|].
  destruct IH as [zs ->]; [intros; apply H; by right|]. by eexists.
Qed.

Lemma expand_from_ref_total levels : ∀ pkg c inv prefix, ∃ fs, expand_from_ref g levels pkg c inv prefix = Done fs.
Proof.
  induction levels as [|levels IH]; intros pkg c inv prefix; [by exists []|]. cbn [expand_from_ref].
  destruct (resolved_total pkg c) as [r Hr]. pose proof (resolved_declared _ _ _ Hr) as Hd. rewrite Hr. cbn [mbind Exec_bind].
  destruct r as [?|?|p loc|]; try by eexists. destruct Hd as (_ & tree & f & Hf). destruct (get_group _ _ _ Hf) as [-> Ht].
  cbn [mbind Exec_bind]. destruct (fgt_inverse_of f); [apply IH|].
  assert (∃ parent, match fgt_extends f with
    | Some ext_ref => expand_from_ref g levels p ext_ref inv prefix | None => Done [] end = Done parent) as [parent ->]
    by (destruct (fgt_extends f); [apply IH|by eexists]).
  cbn [mbind Exec_bind]. match goal with |- context [concatM ?h ?xs] => destruct (concatM_returns h xs) as [own ->]; [|by eexists] end.
  intros i Hi. destruct Hf as [H1 H2]. pose proof (well_indexed_at _ _ H1) as W.
  pose proof (Forall_lookup_1 _ _ _ _ (wi_groups _ W) H2) as Hfs. cbn in Hfs.
  destruct (in_arena_get _ _ i Hfs Hi) as (ft & Hft & _). unfold get_feature. rewrite Ht, Hft. cbn [mbind Exec_bind].
  destruct (ft_kind ft), (ft_classifier ft); try apply IH; by eexists.
Qed.

Lemma expand_feature_group_total pkg nm inv : ∃ fs, expand_feature_group g pkg nm inv = Done fs.
Proof. apply expand_from_ref_total. Qed.

(** ** The chains of classifiers end *)

(** A list of different keys is no longer than the keys there are. *)
Lemma fresh_key (keys visited : list string) k :
  NoDup visited → visited ⊆ keys → k ∈ keys → k ∉ visited → length visited < length keys.
Proof.
  intros Hn Hs Hk Hv. change (length (k :: visited) ≤ length keys).
  apply submseteq_length, NoDup_submseteq; [by constructor|]. intros x [->|Hx]%elem_of_cons; [done|by apply Hs].
Qed.

Lemma visited_snoc (keys visited : list string) k :
  NoDup visited → visited ⊆ keys → k ∈ keys → k ∉ visited → NoDup (visited ++ [k]) ∧ visited ++ [k] ⊆ keys.
Proof.
  intros Hn Hs Hk Hv. split.
  - apply NoDup_app. split_and!; [done| |by apply NoDup_singleton]. intros x Hx ->%list_elem_of_singleton. done.
  - intros x [Hx| ->%list_elem_of_singleton]%elem_of_app; [by apply Hs|done].
Qed.

Lemma all_types_elem loc tree ct : type_at loc tree ct → ct ∈ all_types g.
Proof.
  intros [H1 H2]. apply list_elem_of_bind. exists tree. rewrite scope_trees_eq. split; by eapply list_elem_of_lookup_2.
Qed.

Lemma all_impls_elem loc tree c : impl_at loc tree c → c ∈ all_impls g.
Proof.
  intros [H1 H2]. apply list_elem_of_bind. exists tree. rewrite scope_trees_eq. split; by eapply list_elem_of_lookup_2.
Qed.

(** A property association that is there. *)
Definition association_at (tree_idx : nat) (i : ItemIdx) : Prop :=
  ∃ tree pa, ts !! tree_idx = Some tree ∧ property_associations tree !! i = Some pa.

Lemma association_arena j tree is_ i :
  ts !! j = Some tree → in_arena (property_associations tree) is_ → i ∈ is_ → association_at j i.
Proof. intros Ht H Hi. destruct (in_arena_get _ _ i H Hi) as (pa & _ & Hpa). by exists tree, pa. Qed.

Definition reference_keys {A} (extends : A → option ClassifierRef) (items : list A) : list string :=
  omap (λ a, classifier_fmt <$> extends a) items.

Lemma reference_keys_elem {A} (extends : A → option ClassifierRef) items a r :
  a ∈ items → extends a = Some r → classifier_fmt r ∈ reference_keys extends items.
Proof. intros Ha Hr. apply list_elem_of_omap. exists a. by rewrite Hr. Qed.

Lemma reference_keys_length {A} (extends : A → option ClassifierRef) items :
  length (reference_keys extends items) ≤ length items.
Proof.
  unfold reference_keys. induction items as [|a items IH]; [done|]. cbn [omap list_omap].
  destruct (extends a); cbn [fmap option_fmap option_map length] in *; lia.
Qed.

Definition chain_ok (r : Exec (list (nat * ItemIdx * string) * list string)) : Prop :=
  ∃ ps v, r = Done (ps, v) ∧ Forall (λ p, association_at p.1.1 p.1.2) ps.

Lemma chain_ok_own j is_ classifier inherited v :
  Forall (λ p : nat * ItemIdx * string, association_at p.1.1 p.1.2) inherited → (∀ i, i ∈ is_ → association_at j i) →
  chain_ok (Done (inherited ++ ((λ i, (j, i, classifier)) <$> is_), v)).
Proof.
  intros Hi Ho. eexists _, _. split; [done|]. apply Forall_app. split; [done|].
  apply Forall_fmap, Forall_forall. intros i Hin. by apply Ho.
Qed.

Lemma type_chain_ok fuel : ∀ loc tree ct pkg visited,
  type_at loc tree ct → NoDup visited → visited ⊆ reference_keys ct_extends (all_types g) →
  length (reference_keys ct_extends (all_types g)) < fuel + length visited →
  chain_ok (collect_type_chain_properties g fuel loc pkg visited).
Proof.
  induction fuel as [|fuel IH]; intros loc tree ct pkg visited Hct Hn Hs Hf.
  { assert (length visited ≤ length (reference_keys ct_extends (all_types g))) by (by apply submseteq_length, NoDup_submseteq). lia. }
  cbn [collect_type_chain_properties]. destruct (get_type _ _ _ Hct) as [-> _]. cbn [mbind Exec_bind].
  assert (Hown : ∀ i, i ∈ ct_property_associations ct → association_at (loc_tree loc) i).
  { intros i Hi. destruct (type_indexed _ _ _ Hct) as [_ H]. rewrite Forall_forall in H.
    destruct (H i Hi) as (pa & Hpa & _). exists tree, pa. split; [by destruct Hct|done]. }
  assert (Hnone : ∀ v, chain_ok ('(inherited, v) ← Done ([], v);
    Done (inherited ++ ((λ i, (loc_tree loc, i, (pkg +:+ "::" +:+ ct_name ct)%string)) <$> ct_property_associations ct), v)))
    by (intros v; cbn [mbind Exec_bind]; apply chain_ok_own; [by constructor|exact Hown]).
  destruct (ct_extends ct) as [parent_ref|] eqn:Ee; [|apply Hnone]. case_bool_decide as Hv; [apply Hnone|].
  destruct (resolved_total pkg parent_ref) as [r Hr]. pose proof (resolved_declared _ _ _ Hr) as Hd. rewrite Hr. cbn [mbind Exec_bind].
  destruct r as [p l|?|?|]; try apply Hnone. destruct Hd as (_ & tree' & ct' & Hct').
  assert (Hk : classifier_fmt parent_ref ∈ reference_keys ct_extends (all_types g))
    by (apply (reference_keys_elem _ _ ct); [by eapply (all_types_elem loc)|done]).
  destruct (visited_snoc _ _ _ Hn Hs Hk Hv) as [Hn' Hs'].
  destruct (IH l tree' ct' p (visited ++ [classifier_fmt parent_ref]) Hct' Hn' Hs') as (ps & v & -> & Hps).
  { rewrite length_app. cbn [length]. lia. }
  by apply chain_ok_own.
Qed.

Lemma impl_chain_ok fuel : ∀ loc tree c pkg visited,
  impl_at loc tree c → NoDup visited → visited ⊆ reference_keys ci_extends (all_impls g) →
  length (reference_keys ci_extends (all_impls g)) < fuel + length visited →
  chain_ok (collect_impl_chain_properties g fuel loc pkg visited).
Proof.
  induction fuel as [|fuel IH]; intros loc tree c pkg visited Hc Hn Hs Hf.
  { assert (length visited ≤ length (reference_keys ci_extends (all_impls g))) by (by apply submseteq_length, NoDup_submseteq). lia. }
  cbn [collect_impl_chain_properties]. destruct (get_impl _ _ _ Hc) as [-> _]. cbn [mbind Exec_bind].
  assert (Hown : ∀ i, i ∈ ci_property_associations c → association_at (loc_tree loc) i).
  { intros i Hi. destruct (impl_indexed _ _ _ Hc) as [(_ & _ & _ & _ & _ & _ & H & _) _].
    eapply association_arena; [by destruct Hc|done|done]. }
  assert (Hnone : ∀ v, chain_ok ('(inherited, v) ← Done ([], v);
    Done (inherited ++ ((λ i, (loc_tree loc, i, (pkg +:+ "::" +:+ ci_type_name c +:+ "." +:+ ci_impl_name c)%string))
                        <$> ci_property_associations c), v)))
    by (intros v; cbn [mbind Exec_bind]; apply chain_ok_own; [by constructor|exact Hown]).
  destruct (ci_extends c) as [parent_ref|] eqn:Ee; [|apply Hnone]. case_bool_decide as Hv; [apply Hnone|].
  destruct (resolved_total pkg parent_ref) as [r Hr]. pose proof (resolved_declared _ _ _ Hr) as Hd. rewrite Hr. cbn [mbind Exec_bind].
  destruct r as [?|p l|?|]; try apply Hnone. destruct Hd as (_ & tree' & c' & Hc').
  assert (Hk : classifier_fmt parent_ref ∈ reference_keys ci_extends (all_impls g))
    by (apply (reference_keys_elem _ _ c); [by eapply (all_impls_elem loc)|done]).
  destruct (visited_snoc _ _ _ Hn Hs Hk Hv) as [Hn' Hs'].
  destruct (IH l tree' c' p (visited ++ [classifier_fmt parent_ref]) Hc' Hn' Hs') as (ps & v & -> & Hps).
  { rewrite length_app. cbn [length]. lia. }
  by apply chain_ok_own.
Qed.

Definition associations_ok (ps : list (nat * ItemIdx * string)) : Prop := Forall (λ p, association_at p.1.1 p.1.2) ps.

Lemma keeps_type_chain i loc tree ct pkg : type_at loc tree ct → keeps i (type_chain_properties g loc pkg) associations_ok.
Proof.
  intros H. apply keeps_lift. destruct (type_chain_ok (S (length (all_types g))) loc tree ct pkg []) as (ps & v & -> & Hps);
    [done|constructor|by intros ? []%not_elem_of_nil| |by exists ps].
  pose proof (reference_keys_length ct_extends (all_types g)). cbn [length]. lia.
Qed.

Lemma keeps_impl_chain i loc tree c pkg : impl_at loc tree c → keeps i (impl_chain_properties g loc pkg) associations_ok.
Proof.
  intros H. apply keeps_lift. destruct (impl_chain_ok (S (length (all_impls g))) loc tree c pkg []) as (ps & v & -> & Hps);
    [done|constructor|by intros ? []%not_elem_of_nil| |by exists ps].
  pose proof (reference_keys_length ci_extends (all_impls g)). cbn [length]. lia.
Qed.

(** ** Properties *)

Lemma push_pending pa owner ctx src map pending n :
  owner < n → Forall (λ p : PendingAppliesTo, p.1.1.1 < n) pending →
  Forall (λ p : PendingAppliesTo, p.1.1.1 < n) (push_property_association pa owner ctx src (map, pending)).2.
Proof.
  intros Ho Hp. unfold push_property_association. destruct (pa_applies_to pa) as [path|]; [|done].
  case_bool_decide; [done|]. apply Forall_app. split; [done|by repeat constructor].
Qed.

Lemma keeps_push_association i tree owner ctx src map pa_idx :
  owner < length (components i) → is_Some (property_associations tree !! pa_idx) →
  keeps i (push_association tree owner ctx src map pa_idx) (λ _, True).
Proof.
  intros Ho [pa Hpa]. unfold push_association. apply (keeps_bind _ _ _ (λ _, True)); [apply keeps_lift; exists pa; split; [by apply arena_get_Some|done]|].
  intros pa' _ b Hs Hi. apply wp_bind, wp_gets. cbn beta.
  pose proof (push_pending pa' owner ctx src map (pending_applies_to b) (length (components i)) Ho) as Hp.
  destruct (push_property_association _ _ _ _ _) as [map' pending']. apply wp_bind, wp_modify, wp_ret.
  split_and!; [|done..]. destruct Hs as [H1 H2 H3]. split; [done| |done]. cbn in Hp |- *.
  replace (length (components (built b))) with (length (components i)) by by rewrite <- Hi.
  apply Hp. by rewrite <- Hi.
Qed.

Lemma keeps_push_associations i j tree owner ctx src map pas :
  owner < length (components i) → ts !! j = Some tree → (∀ p, p ∈ pas → association_at j p) →
  keeps i (foldB (push_association tree owner ctx src) map pas) (λ _, True).
Proof.
  intros Ho Ht Hp. apply keeps_foldB; [done|]. intros m p Hin _. apply keeps_push_association; [done|].
  destruct (Hp p Hin) as (tree' & pa & Ht' & Hpa). simplify_eq. by eexists.
Qed.

Lemma keeps_push_chain i idx source ps map :
  idx < length (components i) → associations_ok ps → keeps i (push_chain g idx source ps map) (λ _, True).
Proof.
  intros Hi Hps. apply keeps_foldB; [done|]. intros m [[j p] cl] Hin _. rewrite scope_trees_eq.
  unfold associations_ok in Hps. rewrite Forall_forall in Hps. destruct (Hps _ Hin) as (tree & pa & Ht & Hpa). cbn in *.
  rewrite Ht. by apply keeps_push_association.
Qed.

Lemma keeps_push_subcomponent i idx loc map :
  idx < length (components i) → sub_ok loc → keeps i (push_subcomponent_associations g idx loc map) (λ _, True).
Proof.
  intros Hi Hl. unfold push_subcomponent_associations.
  eapply (keeps_bind _ _ _ (λ o, ∀ l ls, o !! l = Some ls → Forall sub_ok ls)).
  { apply keeps_gets. intros b Hs _. by apply sn_origins. }
  intros o Ho. eapply keeps_bind; [by apply keeps_the_component|]. intros c _. apply keeps_foldB; [done|].
  intros m d Hd _. rewrite scope_trees_eq.
  assert (Hok' : sub_ok d).
  { apply elem_of_app in Hd as [Hd|Hd].
    - destruct (o !! loc) as [ls|] eqn:E; cbn in Hd; [|by apply not_elem_of_nil in Hd].
      specialize (Ho _ _ E). rewrite Forall_forall in Ho. by apply Ho.
    - apply list_elem_of_singleton in Hd. by subst. }
  destruct Hok' as (tree & sub & Ht & Hsub). rewrite Ht.
  eapply keeps_bind; [apply keeps_lift; exists sub; split; [by apply arena_get_Some|exact (eq_refl sub)]|].
  intros ? <-. eapply keeps_push_associations; [done..|]. intros p Hp. eapply association_arena; [done| |done].
  pose proof (well_indexed_at _ _ Ht) as W. by apply (Forall_lookup_1 _ _ _ _ (wi_subcomponents _ W) Hsub).
Qed.

Lemma keeps_on_built i f : (∀ x, blank (f x) = blank x) → keeps i (on_built f) (λ _, True).
Proof.
  intros H. apply keeps_modify. intros b Hs Hi. split; [|unfold arenas in *; cbn; by rewrite H].
  apply (sane_same b); [|done..]. apply H.
Qed.

Lemma keeps_insert_property_map i idx map : keeps i (insert_property_map idx map) (λ _, True).
Proof. unfold insert_property_map. case_bool_decide; [by apply keeps_ret|by apply keeps_on_built]. Qed.

Definition type_loc_ok (o : option ItemLoc) : Prop := from_option (λ loc, ∃ tree ct, type_at loc tree ct) True o.
Definition impl_loc_ok (o : option ItemLoc) : Prop := from_option (λ loc, ∃ tree c, impl_at loc tree c) True o.

Lemma keeps_build_property_map i idx type_loc impl_loc sub pkg :
  idx < length (components i) → type_loc_ok type_loc → impl_loc_ok impl_loc → from_option sub_ok True sub →
  keeps i (build_property_map g idx type_loc impl_loc sub pkg) (λ _, True).
Proof.
  intros Hi Ht Hm Hs. unfold build_property_map. apply (keeps_bind _ _ _ (λ _, True)).
  { destruct type_loc as [loc|]; [|by apply keeps_ret]. destruct Ht as (tree & ct & Ht).
    eapply keeps_bind; [by eapply keeps_type_chain|]. intros ps Hps. by apply keeps_push_chain. }
  intros m1 _. apply (keeps_bind _ _ _ (λ _, True)).
  { destruct impl_loc as [loc|]; [|by apply keeps_ret]. destruct Hm as (tree & c & Hc).
    eapply keeps_bind; [by eapply keeps_impl_chain|]. intros ps Hps. by apply keeps_push_chain. }
  intros m2 _. apply (keeps_bind _ _ _ (λ _, True)).
  { destruct sub as [loc|]; [|by apply keeps_ret]. by apply keeps_push_subcomponent. }
  intros m3 _. apply keeps_insert_property_map.
Qed.

Lemma keeps_resolve i from reference :
  keeps i (lift (resolve_classifier g from reference)) (λ r, resolve_classifier g from reference = Done r).
Proof. apply keeps_lift. destruct (resolved_total from reference) as [r Hr]. by exists r. Qed.

Lemma keeps_build_leaf i idx pkg ty loc :
  idx < length (components i) → sub_ok loc → keeps i (build_leaf_property_map g idx pkg ty loc) (λ _, True).
Proof.
  intros Hi Hs. unfold build_leaf_property_map. eapply keeps_bind; [apply keeps_resolve|]. intros r Hr.
  apply resolved_declared in Hr. apply (keeps_bind _ _ _ (λ _, True)).
  { destruct r as [p l|?|?|]; try by apply keeps_ret. destruct Hr as (_ & tree & ct & Hct).
    eapply keeps_bind; [by eapply keeps_type_chain|]. intros ps Hps. by apply keeps_push_chain. }
  intros m1 _. eapply keeps_bind; [by apply keeps_push_subcomponent|]. intros m2 _. apply keeps_insert_property_map.
Qed.

Lemma keeps_build_anon i idx loc :
  idx < length (components i) → sub_ok loc → keeps i (build_anon_property_map g idx loc) (λ _, True).
Proof.
  intros Hi Hs. unfold build_anon_property_map. eapply keeps_bind; [by apply keeps_push_subcomponent|]. intros m2 _.
  apply keeps_insert_property_map.
Qed.

(** ** Features of a type *)

Definition feature_data_ok (fd : FeatureData) : Prop :=
  ∀ p, p ∈ (fd_properties fd).2 → association_at (fd_properties fd).1 p.

Lemma keeps_own_features i loc tree ct :
  type_at loc tree ct → keeps i (own_features g (loc_tree loc) (ct_features ct)) (Forall feature_data_ok).
Proof.
  intros Hct. unfold own_features. eapply (keeps_bind _ _ _ (Forall (Forall feature_data_ok))).
  - apply keeps_mapM. intros f Hf. destruct (type_indexed _ _ _ Hct) as [(Hfs & _) _]. destruct Hct as [Ht _].
    destruct (in_arena_get _ _ f Hfs Hf) as (ft & Hft & Hl).
    eapply keeps_bind; [apply keeps_lift; exists (Some ft); split; [|exact (eq_refl (Some ft))]|].
    { unfold get_feature. by rewrite scope_trees_eq, Ht, Hft. }
    intros ? <-. apply keeps_ret. repeat constructor. intros p Hp. cbn in *.
    eapply association_arena; [done| |done]. pose proof (well_indexed_at _ _ Ht) as W.
    by apply (Forall_lookup_1 _ _ _ _ (wi_features _ W) Hl).
  - intros fss H. apply keeps_ret. by apply Forall_concat.
Qed.

Lemma first_of_each_incl seen fs : first_of_each seen fs ⊆ fs.
Proof.
  revert seen. induction fs as [|f fs IH]; intros seen; [done|]. cbn. case_bool_decide.
  - intros x Hx. right. by apply (IH seen).
  - intros x [->|Hx]%elem_of_cons; [by left|]. right. by eapply IH.
Qed.

Lemma last_of_each_incl fs : last_of_each fs ⊆ fs.
Proof.
  intros x Hx. unfold last_of_each in Hx. rewrite list_elem_of_In, <- in_rev, <- list_elem_of_In in Hx.
  apply first_of_each_incl in Hx. by rewrite list_elem_of_In, <- in_rev, <- list_elem_of_In in Hx.
Qed.

(** The keys of the chain of types that starts at a type of package [pkg]. *)
Definition type_keys (pkg : Name) (ct : ComponentTypeItem) : list string :=
  (pkg +:+ "::" +:+ ct_name ct)%string ::
  (p ← declared_packages ts; (λ ct, (p +:+ "::" +:+ ct_name ct)%string) <$> all_types g).

Lemma type_keys_length pkg ct : length (type_keys pkg ct) = S (length (declared_packages ts) * length (all_types g)).
Proof.
  unfold type_keys. cbn [length]. f_equal. induction (declared_packages ts) as [|p ps IH]; [done|].
  cbn [mbind list_bind]. rewrite length_app, length_fmap, IH. done.
Qed.

Lemma type_features_ok keys fuel : ∀ i loc tree ct pkg visited,
  (∀ p tree loc ct, p ∈ declared_packages ts → type_at loc tree ct → (p +:+ "::" +:+ ct_name ct)%string ∈ keys) →
  (pkg +:+ "::" +:+ ct_name ct)%string ∈ keys → type_at loc tree ct → NoDup visited → visited ⊆ keys →
  length keys < fuel + length visited →
  keeps i (collect_type_chain_features g fuel loc pkg visited) (λ r, Forall feature_data_ok r.1).
Proof.
  induction fuel as [|fuel IH]; intros i loc tree ct pkg visited Hkeys Hk Hct Hn Hs Hf.
  { assert (length visited ≤ length keys) by (by apply submseteq_length, NoDup_submseteq). lia. }
  cbn [collect_type_chain_features]. destruct (get_type _ _ _ Hct) as [Hget _].
  eapply keeps_bind; [apply keeps_lift; exists (Some ct); split; [done|exact (eq_refl (Some ct))]|]. intros ? <-.
  case_bool_decide as Hv.
  { eapply keeps_bind; [apply keeps_set_chain_incomplete|]. intros [] _.
    eapply keeps_bind; [apply keeps_push_diagnostic|]. intros [] _. by apply keeps_ret. }
  destruct (visited_snoc _ _ _ Hn Hs Hk Hv) as [Hn' Hs'].
  apply (keeps_bind _ _ _ (λ r, Forall feature_data_ok r.1)).
  - destruct (ct_extends ct) as [ext_ref|]; [|by apply keeps_ret]. eapply keeps_bind; [apply keeps_resolve|].
    intros r Hr. apply resolved_declared in Hr. destruct r as [p l|?|?|];
      try (eapply keeps_bind; [apply keeps_set_chain_incomplete|]; intros [] _; by apply keeps_ret).
    destruct Hr as (Hp & tree' & ct' & Hct'). eapply IH; try done; [by eapply Hkeys|].
    rewrite length_app. cbn [length]. lia.
  - intros [inherited v] Hi. eapply keeps_bind; [by eapply keeps_own_features|]. intros own Hown. apply keeps_ret.
    apply Forall_forall. intros x Hx%last_of_each_incl. revert x Hx. apply Forall_forall. by apply Forall_app.
Qed.

Lemma keeps_type_features i loc tree ct pkg :
  type_at loc tree ct → keeps i (type_chain_features g loc pkg) (Forall feature_data_ok).
Proof.
  intros Hct. unfold type_chain_features. rewrite scope_trees_eq.
  eapply keeps_bind; [eapply (type_features_ok (type_keys pkg ct)); [| |done|constructor|..]|].
  - intros p tree' loc' ct' Hp Hct'. right. apply list_elem_of_bind. exists p. split; [|done].
    apply list_elem_of_fmap. exists ct'. split; [done|]. by eapply all_types_elem.
  - by left.
  - by intros ? []%not_elem_of_nil.
  - rewrite type_keys_length. cbn [length]. lia.
  - intros r Hr. by apply keeps_ret.
Qed.

(** ** What grows *)

(** The component [idx] is given further features, connections, flows, modes
    and transitions, new in the arenas; nothing else changes. *)
Record grown (idx : nat) (i i' : SystemInstance) : Prop := {
  gr_component : ∃ c c' nf nc nl nm nt,
    components i !! idx = Some c ∧ components i' = <[idx := c']> (components i) ∧
    parent c' = parent c ∧ children c' = children c ∧
    features c' = features c ++ seq (length (feature_instances i)) nf ∧
    feature_owners i' = feature_owners i ++ replicate nf (Some idx) ∧
    connections c' = connections c ++ seq (length (connection_instances i)) nc ∧
    connection_owners i' = connection_owners i ++ replicate nc (Some idx) ∧
    flows c' = flows c ++ seq (length (flow_instances i)) nl ∧
    flow_owners i' = flow_owners i ++ replicate nl (Some idx) ∧
    modes c' = modes c ++ seq (length (mode_instances i)) nm ∧
    mode_owners i' = mode_owners i ++ replicate nm (Some idx) ∧
    mode_transitions c' = mode_transitions c ++ seq (length (mode_transition_instances i)) nt ∧
    transition_owners i' = transition_owners i ++ replicate nt (Some idx);
}.

Lemma grown_refl idx c i : components i !! idx = Some c → grown idx i i.
Proof.
  intros H. split. exists c, c, 0, 0, 0, 0, 0. rewrite list_insert_id by done. cbn. rewrite !app_nil_r. done.
Qed.

Ltac owner_lengths :=
  repeat match goal with
  | H : _ <$> ?ys = (_ <$> ?xs) ++ replicate ?n (Some ?i) |- _ =>
      lazymatch goal with
      | _ : length ys = length xs + n |- _ => fail
      | _ => let E := fresh in assert (E : length ys = length xs + n)
               by (apply (f_equal length) in H; rewrite length_app, !length_fmap, length_replicate in H; exact H)
      end
  end.

Lemma grown_trans idx i1 i2 i3 : grown idx i1 i2 → grown idx i2 i3 → grown idx i1 i3.
Proof.
  intros [(c & c' & nf & nc & nl & nm & nt & H1 & H2 & H3 & H4 & H5 & H6 & H7 & H8 & H9 & H10 & H11 & H12 & H13 & H14)].
  intros [(d & d' & nf' & nc' & nl' & nm' & nt' & G1 & G2 & G3 & G4 & G5 & G6 & G7 & G8 & G9 & G10 & G11 & G12 & G13 & G14)].
  rewrite H2, list_lookup_insert_eq in G1 by (by eapply lookup_lt_Some). injection G1 as <-.
  unfold feature_owners, connection_owners, flow_owners, mode_owners, transition_owners in *. owner_lengths.
  split. exists c, d', (nf + nf'), (nc + nc'), (nl + nl'), (nm + nm'), (nt + nt').
  unfold feature_owners, connection_owners, flow_owners, mode_owners, transition_owners.
  rewrite G2, H2, list_insert_insert_eq, G3, G4, G5, G7, G9, G11, G13, G6, G8, G10, G12, G14, H5, H6, H7, H8, H9, H10, H11, H12, H13, H14.
  rewrite !seq_app, !replicate_add, !app_assoc. repeat match goal with H : length _ = _ + _ |- _ => rewrite H; clear H end. done.
Qed.

Lemma grown_parents idx i i' : grown idx i i' → parents i' = parents i.
Proof.
  intros [(c & c' & nf & nc & nl & nm & nt & H1 & H2 & H3 & _)]. unfold parents. rewrite H2, list_fmap_insert, H3.
  apply list_insert_id. by rewrite list_lookup_fmap, H1.
Qed.

Lemma grown_length idx i i' : grown idx i i' → length (components i') = length (components i).
Proof.
  intros [(c & c' & nf & nc & nl & nm & nt & H1 & H2 & _)]. by rewrite H2, length_insert.
Qed.

Lemma grown_other idx i i' k : grown idx i i' → k ≠ idx → components i' !! k = components i !! k.
Proof.
  intros [(c & c' & nf & nc & nl & nm & nt & H1 & H2 & _)] Hk. by rewrite H2, list_lookup_insert_ne.
Qed.

Lemma grown_settled open idx i i' : settled open i → grown idx i i' → settled open i'.
Proof.
  intros S G. pose proof (grown_parents _ _ _ G) as Hp.
  destruct G as [(c & c' & nf & nc & nl & nm & nt & H1 & H2 & H3 & H4 & H5 & H6 & H7 & H8 & H9 & H10 & H11 & H12 & H13 & H14)].
  assert (L : idx < length (components i)) by by eapply lookup_lt_Some.
  destruct S as [S1 S2 S3 S4 S5 S6]. split; intros k d; rewrite H2;
    (destruct (decide (idx = k)) as [<-|Hne];
     [rewrite list_lookup_insert_eq by done; intros [= <-]|rewrite list_lookup_insert_ne by done; intros Hd]);
    rewrite ?Hp, ?H6, ?H8, ?H10, ?H12, ?H14, ?positions_replicate;
    try (rewrite bool_decide_true by done); try (rewrite bool_decide_false by done); rewrite ?app_nil_r; auto.
  - rewrite H4. auto.
  - rewrite H5, (S2 _ _ H1). unfold feature_owners. by rewrite length_fmap.
  - rewrite H7, (S3 _ _ H1). unfold connection_owners. by rewrite length_fmap.
  - rewrite H9, (S4 _ _ H1). unfold flow_owners. by rewrite length_fmap.
  - rewrite H11, (S5 _ _ H1). unfold mode_owners. by rewrite length_fmap.
  - rewrite H13, (S6 _ _ H1). unfold transition_owners. by rewrite length_fmap.
Qed.

(** The component [idx] keeps its children and its connections, and grows. *)
Definition fills (idx : nat) (i i' : SystemInstance) : Prop :=
  grown idx i i' ∧ ∀ c c', components i !! idx = Some c → components i' !! idx = Some c' → connections c' = connections c.

Lemma fills_refl idx c i : components i !! idx = Some c → fills idx i i.
Proof. intros H. split; [by eapply grown_refl|]. congruence. Qed.

Lemma grown_at idx i i' : grown idx i i' → ∃ c c', components i !! idx = Some c ∧ components i' !! idx = Some c' ∧
  parent c' = parent c ∧ children c' = children c.
Proof.
  intros [(c & c' & nf & nc & nl & nm & nt & H1 & H2 & H3 & H4 & _)]. exists c, c'. split_and!; try done.
  rewrite H2, list_lookup_insert_eq; [done|by eapply lookup_lt_Some].
Qed.

Lemma fills_trans idx i1 i2 i3 : fills idx i1 i2 → fills idx i2 i3 → fills idx i1 i3.
Proof.
  intros [G1 H1] [G2 H2]. split; [by eapply grown_trans|]. intros c c' Hc Hc'.
  destruct (grown_at _ _ _ G1) as (_ & d & _ & Hd & _). rewrite (H2 d c'), (H1 c d); done.
Qed.

Lemma fills_component idx i i' c : fills idx i i' → components i !! idx = Some c →
  ∃ c', components i' !! idx = Some c' ∧ parent c' = parent c ∧ children c' = children c ∧ connections c' = connections c.
Proof.
  intros [G H] Hc. destruct (grown_at _ _ _ G) as (d & c' & Hd & Hc' & Hp & Hch). rewrite Hc in Hd. injection Hd as <-.
  exists c'. split_and!; auto.
Qed.

Lemma fills_parents idx i i' : fills idx i i' → parents i' = parents i.
Proof. intros [G _]. by eapply grown_parents. Qed.

(** ** Allocation

    What the arenas have in common: [own] is the owner of an element, [ok]
    what else it must satisfy. *)
Record arena_laws {A} (get : SystemInstance → list A) (set : list A → SystemInstance → SystemInstance)
    (own : A → nat) (ok : A → Prop) : Prop := {
  al_blank_set v x : blank (set v x) = set v (blank x);
  al_blank_get x : get (blank x) = get x;
  al_get_set v x : get (set v x) = v;
  al_set_set v w x : set v (set w x) = set v x;
  al_set_get x : set (get x) x = x;
  al_components v x : components (set v x) = components x;
  al_sane i new : sane_arenas i → Forall (λ a, own a < length (components i) ∧ ok a) new →
    sane_arenas (set (get i ++ new) i);
}.

Lemma lists_ok_mono i i' c :
  lists_ok i c → length (components i) ≤ length (components i') → length (feature_instances i) ≤ length (feature_instances i') →
  length (connection_instances i) ≤ length (connection_instances i') → length (flow_instances i) ≤ length (flow_instances i') →
  length (mode_instances i) ≤ length (mode_instances i') →
  length (mode_transition_instances i) ≤ length (mode_transition_instances i') → lists_ok i' c.
Proof.
  unfold below. intros [H1 H2 H3 H4 H5 H6] L1 L2 L3 L4 L5 L6. unfold below in *.
  split; unfold below; (eapply Forall_impl; [eassumption|]); cbn; intros; lia.
Qed.

Ltac arena_sane :=
  let i := fresh "i" in let k := fresh "k" in let c := fresh "c" in let Hnew := fresh "Hnew" in
  intros i ? [] Hnew; split; cbn; auto;
  lazymatch goal with
  | |- ∀ k c, components _ !! k = Some c → _ =>
      intros k c Hk; apply (lists_ok_mono i); [eauto|..]; cbn; rewrite ?length_app; lia
  | |- Forall _ _ =>
      unfold feature_owners, connection_owners, flow_owners, mode_owners, transition_owners; cbn;
      rewrite ?fmap_app; apply Forall_app; (split; [done|]); try apply Forall_fmap;
      (eapply Forall_impl; [exact Hnew|]); cbn; unfold owner_in; cbn; naive_solver
  end.

Lemma feature_arena : arena_laws feature_instances set_feature_instances feat_owner (λ _, True).
Proof. split; [done..|by intros []|done|arena_sane]. Qed.

Lemma connection_arena : arena_laws connection_instances set_connection_instances conn_owner
  (λ c, from_option end_ok True (src c) ∧ from_option end_ok True (dst c)).
Proof. split; [done..|by intros []|done|arena_sane]. Qed.

Lemma flow_arena : arena_laws flow_instances set_flow_instances flow_owner (λ _, True).
Proof. split; [done..|by intros []|done|arena_sane]. Qed.

Lemma mode_arena : arena_laws mode_instances set_mode_instances mode_owner (λ _, True).
Proof. split; [done..|by intros []|done|arena_sane]. Qed.

Lemma transition_arena : arena_laws mode_transition_instances set_mode_transition_instances mt_owner (λ _, True).
Proof. split; [done..|by intros []|done|arena_sane]. Qed.

Lemma e2e_arena : arena_laws e2e_flow_instances set_e2e_flow_instances e2e_owner (λ _, True).
Proof. split; [done..|by intros []|done|arena_sane]. Qed.

Section alloc.
Context {A : Type} {get : SystemInstance → list A} {set : list A → SystemInstance → SystemInstance}
  {own : A → nat} {ok : A → Prop} (L : arena_laws get set own ok).
Context (i : SystemInstance) (idx : nat).

(** Since the arenas were those of [i], elements of [idx] were allocated, at
    the indices [js]. *)
Definition added (js : list nat) (b : Builder) : Prop :=
  sane b ∧ ∃ new, arenas b = set (get i ++ new) i ∧ own <$> new = replicate (length new) idx ∧
    js = seq (length (get i)) (length new).

Lemma added_nil b : sane b → arenas b = i → added [] b.
Proof.
  intros Hs Hi. split; [done|]. exists []. rewrite app_nil_r, (al_set_get _ _ _ _ L). done.
Qed.

Lemma added_alloc a js b :
  idx < length (components i) → own a = idx → ok a → added js b → wp (alloc get set a) (λ j, added (js ++ [j])) b.
Proof.
  intros Hi Ho Hok' [Hs (new & Hb & Hn & ->)].
  assert (Hgb : get (built b) = get i ++ new).
  { rewrite <- (al_blank_get _ _ _ _ L). change (get (arenas b) = get i ++ new). by rewrite Hb, (al_get_set _ _ _ _ L). }
  assert (Hc : components (arenas b) = components i) by (by rewrite Hb, (al_components _ _ _ _ L)).
  unfold alloc. apply wp_bind, wp_gets, wp_bind, wp_modify, wp_ret. cbn [compose]. rewrite Hgb.
  match goal with |- added _ ?x => set (b' := x) end.
  assert (E : arenas b' = set (get i ++ new ++ [a]) i).
  { unfold arenas, b'. cbn. rewrite (al_blank_set _ _ _ _ L). change (blank (built b)) with (arenas b).
    by rewrite Hb, (al_set_set _ _ _ _ L), <- app_assoc. }
  assert (E' : arenas b' = set (get (arenas b) ++ [a]) (arenas b)).
  { by rewrite E, Hb, (al_get_set _ _ _ _ L), (al_set_set _ _ _ _ L), <- app_assoc. }
  split.
  - destruct Hs as [H1 H2 H3]. split; [|by rewrite E', (al_components _ _ _ _ L)|done]. rewrite E'.
    apply (al_sane _ _ _ _ L); [done|]. repeat constructor; [|done]. rewrite Hc. congruence.
  - exists (new ++ [a]). split; [done|]. split.
    + rewrite fmap_app, Hn, length_app. cbn. rewrite replicate_add, Ho. done.
    + by rewrite !length_app, seq_app.
Qed.

Lemma added_keeps {B} (m : Build B) Q js b :
  (∀ i', components i' = components i → (∃ new, i' = set (get i ++ new) i) → keeps i' m Q) →
  added js b → wp m (λ a b', added js b' ∧ Q a) b.
Proof.
  intros Hm [Hs (new & Hb & Hn & Hj)]. eapply wp_mono; [apply (Hm (arenas b)); try done|].
  - by rewrite Hb, (al_components _ _ _ _ L).
  - by exists new.
  - intros a b' (Hs' & Hb' & Ha). split; [|done]. split; [done|]. exists new. by rewrite Hb'.
Qed.

Lemma added_mapM {B} (f : B → Build nat) xs js b :
  (∀ x js b, x ∈ xs → added js b → wp (f x) (λ j, added (js ++ [j])) b) →
  added js b → wp (mapM f xs) (λ js', added (js ++ js')) b.
Proof.
  intros Hf H. apply (wp_mapM f (λ _ ys, added (js ++ ys))).
  - by rewrite app_nil_r.
  - intros done_ x ys b' [todo ->] Hb. eapply wp_mono; [apply Hf; [|done]|].
    + rewrite !elem_of_app. left. right. by left.
    + intros j b'' Hj. by rewrite app_assoc.
Qed.

Lemma added_concat {B} (f : B → Build (list nat)) xs js b :
  (∀ x js b, x ∈ xs → added js b → wp (f x) (λ js', added (js ++ js')) b) →
  added js b → wp (mapM f xs) (λ jss, added (js ++ concat jss)) b.
Proof.
  intros Hf H. apply (wp_mapM f (λ _ ys, added (js ++ concat ys))).
  - by rewrite app_nil_r.
  - intros done_ x ys b' [todo ->] Hb. eapply wp_mono; [apply Hf; [|done]|].
    + rewrite !elem_of_app. left. right. by left.
    + intros j b'' Hj. cbn beta in Hj. by rewrite concat_app, app_assoc; cbn; rewrite app_nil_r.
Qed.
End alloc.

(** ** The features, flows and modes of a type *)

Lemma keeps_array_count i dims nm : keeps i (array_element_count dims nm) (λ _, True).
Proof.
  unfold array_element_count. destruct dims as [|d dims]; [by apply keeps_ret|]. destruct (_ =? 0)%N; [|by apply keeps_ret].
  eapply keeps_bind; [apply keeps_push_diagnostic|]. intros [] _. by apply keeps_ret.
Qed.

Lemma data_size_returns from c : ∃ o, resolve_data_size_bytes g from c = Done o.
Proof.
  unfold resolve_data_size_bytes. destruct (resolved_total from c) as [r Hr]. pose proof (resolved_declared _ _ _ Hr) as Hd.
  rewrite Hr. cbn [mbind Exec_bind]. destruct r as [p loc|?|?|]; try by eexists. destruct Hd as (_ & tree & ct & Hct).
  destruct (get_type _ _ _ Hct) as [-> ->]. cbn [mbind Exec_bind]. case_bool_decide; [|by eexists].
  destruct (type_indexed _ _ _ Hct) as [_ Hpas]. induction Hpas as [|q qs (pa & Hpa & Hsz) _ IH]; [by eexists|].
  cbn [find_data_size]. unfold arena_get. rewrite Hpa. cbn [mbind Exec_bind]. change (_ || _) with (sized pa).
  destruct (sized pa); [|done]. destruct (Hsz eq_refl) as [o ->]. by eexists.
Qed.

Lemma keeps_feature_properties i idx fi j pas :
  idx < length (components i) → (∀ p, p ∈ pas → association_at j p) → keeps i (push_feature_properties g idx fi j pas) (λ _, True).
Proof.
  intros Hi Hp. unfold push_feature_properties. rewrite scope_trees_eq. destruct pas as [|p0 pas]; [by apply keeps_ret|].
  destruct (ts !! j) as [tree|] eqn:Ht; [|by apply keeps_ret]. apply (keeps_bind _ _ _ (λ _, True)).
  - apply keeps_foldB; [done|]. intros m p Hin _. destruct (Hp p Hin) as (tree' & pa & Ht' & Hpa). simplify_eq.
    eapply keeps_bind; [apply keeps_lift; exists pa; split; [by apply arena_get_Some|exact (eq_refl pa)]|]. intros ? <-.
    destruct (is_some _); [by apply keeps_ret|]. apply keeps_push_association; [done|by eexists].
  - intros map _. case_bool_decide; [by apply keeps_ret|by apply keeps_on_built].
Qed.

Abbreviation added_features := (added (get := feature_instances) (set := set_feature_instances) (own := feat_owner)).

Lemma instantiate_feature_added i idx pkg fd js b :
  idx < length (components i) → feature_data_ok fd → added_features i idx js b →
  wp (instantiate_feature g idx pkg fd) (λ js', added_features i idx (js ++ js')) b.
Proof.
  intros Hi Hfd Hb. unfold instantiate_feature. apply wp_bind.
  eapply wp_mono; [eapply (added_keeps feature_arena); [|done]; intros; apply keeps_array_count|]. intros count b1 [Hb1 _].
  apply wp_bind. eapply wp_mono; [eapply (added_keeps feature_arena _ _ _ (λ _, True)); [|done]|].
  { intros i' _ _. destruct (fd_classifier fd) as [c|]; [|by apply keeps_ret]. apply keeps_lift.
    destruct (data_size_returns pkg c) as [o Ho]. by exists o. }
  intros size b2 [Hb2 _]. apply (added_mapM (set := set_feature_instances)); [|done]. intros k js' b3 _ Hb3.
  destruct (element _ _ _) as [index nm]. apply wp_bind. eapply wp_mono; [by apply (added_alloc feature_arena)|].
  intros fi b4 Hb4. apply wp_bind.
  eapply wp_mono; [eapply (added_keeps feature_arena); [|exact Hb4]; intros i' Hc _; apply keeps_feature_properties; [by rewrite Hc|done]|].
  intros [] b5 [Hb5 _]. by apply wp_ret.
Qed.

Lemma owners_app {A} (own : A → nat) (xs new : list A) idx :
  own <$> new = replicate (length new) idx →
  (λ a, Some (own a)) <$> (xs ++ new) = ((λ a, Some (own a)) <$> xs) ++ replicate (length new) (Some idx).
Proof.
  intros H. rewrite fmap_app. f_equal. rewrite <- (fmap_replicate Some), <- H, <- list_fmap_compose. done.
Qed.

Lemma owners_app_eq {A} (own : A → nat) (xs ys new : list A) idx :
  ys = xs ++ new → own <$> new = replicate (length new) idx →
  (λ a, Some (own a)) <$> ys = ((λ a, Some (own a)) <$> xs) ++ replicate (length new) (Some idx).
Proof. intros ->. apply owners_app. Qed.

Lemma sane_update i k c c' :
  sane_arenas i → components i !! k = Some c → parent c' = parent c → lists_ok i c' →
  sane_arenas (set_components (<[k := c']> (components i)) i).
Proof.
  intros H Hk Hp Hl.
  assert (Hps : parents (set_components (<[k := c']> (components i)) i) = parents i).
  { unfold parents. cbn. rewrite list_fmap_insert, Hp. apply list_insert_id. by rewrite list_lookup_fmap, Hk. }
  assert (Hlen : length (components (set_components (<[k := c']> (components i)) i)) = length (components i))
    by (cbn; by rewrite length_insert).
  assert (Howner : ∀ os, Forall (owner_in i) os → Forall (owner_in (set_components (<[k := c']> (components i)) i)) os).
  { intros os Ho. eapply Forall_impl; [exact Ho|]. intros o. unfold owner_in. by rewrite Hlen. }
  assert (Hlists : ∀ d, lists_ok i d → lists_ok (set_components (<[k := c']> (components i)) i) d)
    by (intros d Hd; apply (lists_ok_mono i); [done|rewrite Hlen; lia|cbn; lia..]).
  destruct H as [H1 H2 H3 H4 H5 H6 H7 H8 H9 H10].
  split; [| |intros j d Hj; apply Hlists|apply Howner; done..| |].
  - intros j d Hj. cbn in Hj. destruct (decide (k = j)) as [<-|Hne].
    + rewrite list_lookup_insert_eq in Hj by (by eapply lookup_lt_Some). injection Hj as <-. rewrite Hp. by apply H1.
    + rewrite list_lookup_insert_ne in Hj by done. by apply H1.
  - rewrite Hps. done.
  - cbn in Hj. destruct (decide (k = j)) as [<-|Hne].
    + rewrite list_lookup_insert_eq in Hj by (by eapply lookup_lt_Some). by injection Hj as <-.
    + rewrite list_lookup_insert_ne in Hj by done. by eapply H3.
  - rewrite Hlen. done.
  - done.
Qed.

Lemma wp_update_component k c f b (Q : () → Builder → Prop) :
  sane b → components (arenas b) !! k = Some c → parent (f c) = parent c → lists_ok (arenas b) (f c) →
  (∀ b', sane b' → arenas b' = set_components (<[k := f c]> (components (arenas b))) (arenas b) → Q () b') →
  wp (update_component k f) Q b.
Proof.
  intros Hs Hk Hp Hl HQ. unfold update_component. apply wp_bind.
  eapply wp_mono; [apply (keeps_the_component (arenas b) k); [by eapply lookup_lt_Some|done|done]|].
  intros d b' (Hs' & Hb' & Hd). rewrite Hk in Hd. injection Hd as <-. apply wp_modify.
  match goal with |- Q () ?x => set (b2 := x) end.
  assert (E : arenas b2 = set_components (<[k := f c]> (components (arenas b))) (arenas b)).
  { transitivity (set_components (<[k := f c]> (components (arenas b'))) (arenas b')); [done|by rewrite Hb']. }
  apply HQ; [|exact E]. destruct Hs' as [H1 H2 H3]. split; [| |done].
  - rewrite E. eapply sane_update; try done. apply Hs.
  - rewrite E. cbn. rewrite length_insert. rewrite Hb' in H2. exact H2.
Qed.

Lemma below_seq n m k : n + m ≤ k → below k (seq n m).
Proof. intros H. apply Forall_forall. intros j Hj%elem_of_seq. lia. Qed.

Definition empty_contents (c : ComponentInstance) : Prop :=
  features c = [] ∧ flows c = [] ∧ modes c = [] ∧ mode_transitions c = [].

Lemma lift_mapM_arena {A} i (arena : list A) is_ :
  in_arena arena is_ → keeps i (lift (mapM (arena_get arena) is_)) (λ _, True).
Proof. intros H. apply keeps_lift. destruct (mapM_in_arena arena is_ H) as [ys Hys]. by exists ys. Qed.

(** The last step of [populate_from_type]. *)
Lemma contents_fill idx i c c' i1 fs fls ms mts :
  components i !! idx = Some c → empty_contents c →
  i1 = set_mode_transition_instances (mode_transition_instances i ++ mts) (set_mode_instances (mode_instances i ++ ms)
         (set_flow_instances (flow_instances i ++ fls) (set_feature_instances (feature_instances i ++ fs) i))) →
  feat_owner <$> fs = replicate (length fs) idx → flow_owner <$> fls = replicate (length fls) idx →
  mode_owner <$> ms = replicate (length ms) idx → mt_owner <$> mts = replicate (length mts) idx →
  c' = with_contents (seq (length (feature_instances i)) (length fs)) (seq (length (flow_instances i)) (length fls))
         (seq (length (mode_instances i)) (length ms)) (seq (length (mode_transition_instances i)) (length mts)) c →
  fills idx i (set_components (<[idx := c']> (components i1)) i1).
Proof.
  intros Hc (E1 & E2 & E3 & E4) -> F1 F2 F3 F4 ->. split.
  2:{ intros d d' Hd. cbn. rewrite list_lookup_insert_eq by (by eapply lookup_lt_Some). intros [= <-]. cbn. congruence. }
  split. exists c. eexists. exists (length fs), 0, (length fls), (length ms), (length mts).
  split; [done|]. split; [done|]. cbn. rewrite E1, E2, E3, E4, !app_nil_r. split_and!; try done; by apply owners_app.
Qed.

Lemma populate_fills i idx c type_loc pkg b :
  sane b → arenas b = i → components i !! idx = Some c → empty_contents c → type_loc_ok type_loc →
  wp (populate_from_type g idx type_loc pkg) (λ _ b', sane b' ∧ fills idx i (arenas b')) b.
Proof.
  intros Hs Hb Hc He Ht. unfold populate_from_type. destruct type_loc as [loc|].
  2:{ apply wp_ret. split; [done|]. rewrite Hb. by eapply fills_refl. }
  destruct Ht as (tree & ct & Hct). pose proof (lookup_lt_Some _ _ _ Hc) as Hlt.
  destruct (type_indexed _ _ _ Hct) as [(_ & Hfl & Hms & Hmt & _) _]. destruct (get_type _ _ _ Hct) as [Hget Htree].
  apply wp_bind. eapply wp_mono; [by apply (keeps_set_chain_incomplete i)|]. intros [] b1 (Hs1 & Hb1 & _).
  apply wp_bind. eapply wp_mono; [by apply (keeps_type_features i _ _ _ _ Hct)|]. intros fds b2 (Hs2 & Hb2 & Hfds).
  apply wp_bind, wp_gets, wp_bind, wp_lift. exists (Some ct). split; [done|]. rewrite Htree.
  apply wp_bind, wp_gets, wp_bind, wp_modify. match goal with |- wp _ _ ?x => set (b3 := x) end.
  assert (Hs3 : sane b3) by (by apply (sane_same b2)). assert (Hb3 : arenas b3 = i) by done.
  apply wp_bind. eapply wp_mono; [by apply (lift_mapM_arena i)|]. intros flow_data b4 (Hs4 & Hb4 & _).
  apply wp_bind. eapply wp_mono; [by apply (lift_mapM_arena i)|]. intros mode_data b5 (Hs5 & Hb5 & _).
  apply wp_bind. eapply wp_mono; [by apply (lift_mapM_arena i)|]. intros mt_data b6 (Hs6 & Hb6 & _).
  apply wp_bind. eapply wp_mono; [apply (added_concat (get := feature_instances) (set := set_feature_instances) (own := feat_owner) i idx _ _ []);
    [|by apply (added_nil feature_arena)]|].
  { intros fd js b' Hin Hadd. rewrite Forall_forall in Hfds. apply instantiate_feature_added; auto. }
  intros fiss b7 (Hs7 & fs & Hb7 & Hfs & Hfis). cbn [app] in Hfis.
  apply wp_bind. eapply wp_mono; [apply (added_mapM (get := flow_instances) (set := set_flow_instances) (own := flow_owner)
    (arenas b7) idx _ _ []); [|by apply (added_nil flow_arena)]|].
  { intros f js b' _ Hadd. apply (added_alloc flow_arena); try done. by rewrite Hb7. }
  intros flis b8 (Hs8 & fls & Hb8 & Hfls & Hflis). cbn [app] in Hflis.
  apply wp_bind. eapply wp_mono; [apply (added_mapM (get := mode_instances) (set := set_mode_instances) (own := mode_owner)
    (arenas b8) idx _ _ []); [|by apply (added_nil mode_arena)]|].
  { intros f js b' _ Hadd. apply (added_alloc mode_arena); try done. by rewrite Hb8, Hb7. }
  intros mis b9 (Hs9 & ms & Hb9 & Hms' & Hmis). cbn [app] in Hmis.
  apply wp_bind. eapply wp_mono; [apply (added_mapM (get := mode_transition_instances) (set := set_mode_transition_instances)
    (own := mt_owner) (arenas b9) idx _ _ []); [|by apply (added_nil transition_arena)]|].
  { intros f js b' _ Hadd. apply (added_alloc transition_arena); try done. by rewrite Hb9, Hb8, Hb7. }
  intros mtis b10 (Hs10 & mts & Hb10 & Hmts' & Hmtis). cbn [app] in Hmtis.
  rewrite Hb7 in Hb8. rewrite Hb8 in Hb9. rewrite Hb9 in Hb10.
  rewrite Hb7 in Hflis. rewrite Hb8 in Hmis. rewrite Hb9 in Hmtis. cbn in Hflis, Hmis, Hmtis.
  rewrite Hfis, Hflis, Hmis, Hmtis.
  apply (wp_update_component idx c); [done|by rewrite Hb10|done| |].
  - destruct (sa_lists _ (sn_arenas _ Hs10) idx c) as [L1 _ L3 _ _ _]; [by rewrite Hb10|]. rewrite Hb10 in *.
    split; cbn; try done; rewrite length_app; apply below_seq; lia.
  - intros b11 Hs11 Hb11. split; [done|]. rewrite Hb11. eapply contents_fill; [done|done|by rewrite Hb10|done..].
Qed.

Lemma keeps_emv2_of i j tree subs :
  ts !! j = Some tree → in_arena (emv2_subclauses tree) subs → keeps i (emv2_of g j subs) (λ _, True).
Proof.
  intros Ht H. unfold emv2_of. rewrite scope_trees_eq, Ht.
  eapply keeps_mono; [apply (keeps_mapM _ _ (λ _, True))|done]. intros k Hk.
  destruct (in_arena_get _ _ k H Hk) as (s & Hs & _).
  eapply (keeps_bind _ _ _ (λ _, True)); [apply keeps_lift; by exists s|]. intros s' _. by apply keeps_ret.
Qed.

Lemma keeps_project_emv2 i idx type_loc impl_loc :
  type_loc_ok type_loc → impl_loc_ok impl_loc → keeps i (project_emv2 g idx type_loc impl_loc) (λ _, True).
Proof.
  intros Ht Hm. unfold project_emv2. apply (keeps_bind _ _ _ (λ _, True)).
  { destruct type_loc as [loc|]; [|by apply keeps_ret]. destruct Ht as (tree & ct & Hct).
    destruct (get_type _ _ _ Hct) as [Hget _].
    eapply keeps_bind; [apply keeps_lift; exists (Some ct); split; [done|exact (eq_refl (Some ct))]|]. intros ? <-.
    destruct (type_indexed _ _ _ Hct) as [(_ & _ & _ & _ & He) _]. destruct Hct as [Hl _]. by eapply keeps_emv2_of. }
  intros m1 _. apply (keeps_bind _ _ _ (λ _, True)).
  { destruct impl_loc as [loc|]; [|by apply keeps_ret]. destruct Hm as (tree & c & Hc).
    destruct (get_impl _ _ _ Hc) as [Hget _].
    eapply keeps_bind; [apply keeps_lift; exists (Some c); split; [done|exact (eq_refl (Some c))]|]. intros ? <-.
    destruct (impl_indexed _ _ _ Hc) as [(_ & _ & _ & _ & _ & _ & _ & He) _]. destruct Hc as [Hl _]. by eapply keeps_emv2_of. }
  intros m2 _. destruct (m1 ++ m2); [by apply keeps_ret|by apply keeps_on_built].
Qed.

(** ** The chain of implementations *)

Definition raw_end_ok (e : ConnectionEnd) : Prop := end_ok e ∧ brackets_ok (feature e).

Record chain_result_ok (r : ImplChainResult) : Prop := {
  cr_subcomponents : Forall (λ sd, sub_ok (sd_loc sd)) (r_subcomponents r);
  cr_connections : Forall (λ cd,
    (∃ tree item, ts !! cd_tree cd = Some tree ∧ tree_connections tree !! cd_idx cd = Some item) ∧
    from_option raw_end_ok True (cd_src cd) ∧ from_option raw_end_ok True (cd_dst cd)) (r_connections r);
  cr_e2e : Forall (λ e : Name * list Name * nat * list ItemIdx, ∀ p, p ∈ e.2 → association_at e.1.2 p) (r_e2e_flows r);
  cr_calls : map_Forall (λ _ t, brackets_ok t) (r_call_map r);
}.

Lemma empty_chain_ok : chain_result_ok empty_chain.
Proof. split; try constructor. apply map_Forall_empty. Qed.

Lemma keeps_add_subcomponent i j tree subs k :
  ts !! j = Some tree → is_Some (tree_subcomponents tree !! k) → Forall (λ sd, sub_ok (sd_loc sd)) subs →
  keeps i (add_subcomponent j tree subs k) (Forall (λ sd, sub_ok (sd_loc sd))).
Proof.
  intros Ht [sub Hsub] Hsubs. unfold add_subcomponent.
  eapply keeps_bind; [apply keeps_lift; exists sub; split; [by apply arena_get_Some|exact (eq_refl sub)]|]. intros ? <-.
  assert (Hk : sub_ok (j, k)) by (by exists tree, sub).
  destruct (if sub_is_refined sub then _ else None) as [[pos away]|] eqn:E.
  2:{ apply keeps_ret, Forall_app. split; [done|by repeat constructor]. }
  assert (Haway : sub_ok (sd_loc away)).
  { destruct (sub_is_refined sub); [|done]. apply list_find_Some in E as (E & _).
    by apply (Forall_lookup_1 _ _ _ _ Hsubs E). }
  eapply (keeps_bind _ _ _ (λ o, ∀ l ls, o !! l = Some ls → Forall sub_ok ls)).
  { apply keeps_gets. intros b Hs _. by apply sn_origins. }
  intros o Ho. apply (keeps_bind _ _ _ (λ _, True)).
  - apply keeps_modify. intros b [H1 H2 _] Hi. split; [|done]. split; [done|done|]. intros l ls. cbn.
    destruct (decide ((j, k) = l)) as [<-|Hne]; [|rewrite lookup_insert_ne by done; apply Ho].
    rewrite lookup_insert_eq. intros [= <-]. apply Forall_app. split; [|by repeat constructor].
    destruct (o !! sd_loc away) eqn:E2; [by eapply Ho|constructor].
  - intros [] _. apply keeps_ret, Forall_app. split; [by apply Forall_delete|by repeat constructor].
Qed.

Lemma connection_data_ok j tree k :
  ts !! j = Some tree → is_Some (tree_connections tree !! k) →
  ∃ cd, connection_data j tree k = Done cd ∧
    (∃ tree item, ts !! cd_tree cd = Some tree ∧ tree_connections tree !! cd_idx cd = Some item) ∧
    from_option raw_end_ok True (cd_src cd) ∧ from_option raw_end_ok True (cd_dst cd).
Proof.
  intros Ht [conn Hc]. unfold connection_data. rewrite (proj2 (arena_get_Some _ _ _) Hc). eexists. split; [done|]. cbn.
  split; [by exists tree, conn|]. pose proof (well_indexed_at _ _ Ht) as W.
  destruct (Forall_lookup_1 _ _ _ _ (wi_connections _ W) Hc) as (_ & H1 & H2).
  by destruct (cn_src conn), (cn_dst conn).
Qed.

Lemma add_call_ok tree calls k :
  well_indexed tree → is_Some (subprogram_calls tree !! k) → map_Forall (λ _ t, brackets_ok t) calls →
  ∃ calls', add_call tree calls k = Done calls' ∧ map_Forall (λ _ t, brackets_ok t) calls'.
Proof.
  intros W [c Hc] H. unfold add_call. rewrite (proj2 (arena_get_Some _ _ _) Hc). eexists. split; [done|].
  pose proof (Forall_lookup_1 _ _ _ _ (wi_calls _ W) Hc) as Hb. cbn in Hb.
  destruct (sc_called_subprogram c) as [[[?|] t [?|]]|]; try done. by apply map_Forall_insert_2.
Qed.

Lemma foldM_keeps {A B} (f : A → B → Exec A) (P : A → Prop) a bs :
  P a → (∀ a b, b ∈ bs → P a → ∃ a', f a b = Done a' ∧ P a') → ∃ a', foldM f a bs = Done a' ∧ P a'.
Proof.
  revert a. induction bs as [|b bs IH]; intros a Ha H; [by exists a|]. cbn [foldM].
  destruct (H a b) as (a' & -> & Ha'); [by left|done|]. cbn [mbind Exec_bind]. apply IH; [done|]. intros ????. apply H; [by right|done].
Qed.

Lemma keeps_add_own i loc tree c r :
  impl_at loc tree c → chain_result_ok r → keeps i (add_own loc tree c r) chain_result_ok.
Proof.
  intros Hc [R1 R2 R3 R4]. destruct (impl_indexed _ _ _ Hc) as [(I1 & I2 & I3 & I4 & I5 & I6 & _ & _) I7].
  destruct Hc as [Ht _]. pose proof (well_indexed_at _ _ Ht) as W. unfold add_own.
  eapply keeps_bind; [apply keeps_foldB; [exact R1|]|].
  { intros subs k Hk Hsubs. destruct (in_arena_get _ _ k I7 Hk) as (s & _ & Hs). apply keeps_add_subcomponent; [done|by exists s|done]. }
  intros subs Hsubs. eapply keeps_bind; [apply keeps_lift, mapM_all|].
  { intros k Hk. destruct (in_arena_get _ _ k I1 Hk) as (x & _ & Hx). by apply connection_data_ok. }
  intros conns Hconns. eapply keeps_bind; [apply keeps_lift, mapM_all|].
  { intros k Hk. destruct (in_arena_get _ _ k I2 Hk) as (e & -> & He). eexists. split; [done|].
    instantiate (1 := λ e : Name * list Name * nat * list ItemIdx, ∀ p, p ∈ e.2 → association_at e.1.2 p).
    cbn. intros p Hp. eapply association_arena; [done| |done]. by apply (Forall_lookup_1 _ _ _ _ (wi_flows _ W) He). }
  intros e2es He2es. eapply (keeps_bind _ _ _ (λ _, True)).
  { apply keeps_lift. edestruct (mapM_all (λ k, f ← arena_get (flow_impls tree) k; Done (fi_name f, fi_segments f)) (λ _, True))
      as (ys & -> & _); [|by eexists]. intros k Hk. destruct (in_arena_get _ _ k I3 Hk) as (f & -> & _). by eexists. }
  intros fimpls _. eapply keeps_bind; [by apply lift_mapM_arena|]. intros ms _.
  eapply keeps_bind; [by apply lift_mapM_arena|]. intros mts _.
  eapply keeps_bind; [apply keeps_lift, (foldM_keeps _ (map_Forall (λ _ t, brackets_ok t))); [exact R4|]|].
  { intros calls k Hk Hcalls. destruct (in_arena_get _ _ k I6 Hk) as (s & -> & Hs). cbn [mbind Exec_bind].
    apply foldM_keeps; [done|]. intros calls' k' Hk' Hcalls'. apply add_call_ok; [done| |done].
    pose proof (Forall_lookup_1 _ _ _ _ (wi_sequences _ W) Hs) as Hq. cbn in Hq.
    destruct (in_arena_get _ _ k' Hq Hk') as (x & _ & Hx). by exists x. }
  intros calls Hcalls. apply keeps_ret. split; cbn; [done|apply Forall_app; split; done..|done].
Qed.

Definition impl_keys (pkg : Name) (c : ComponentImplItem) : list string :=
  (pkg +:+ "::" +:+ ci_type_name c +:+ "." +:+ ci_impl_name c)%string ::
  (p ← declared_packages ts; (λ c, (p +:+ "::" +:+ ci_type_name c +:+ "." +:+ ci_impl_name c)%string) <$> all_impls g).

Lemma impl_keys_length pkg c : length (impl_keys pkg c) = S (length (declared_packages ts) * length (all_impls g)).
Proof.
  unfold impl_keys. cbn [length]. f_equal. induction (declared_packages ts) as [|p ps IH]; [done|].
  cbn [mbind list_bind]. rewrite length_app, length_fmap, IH. done.
Qed.

Lemma impl_chain_recursive_ok keys fuel : ∀ i loc tree c pkg st,
  (∀ p tree loc c, p ∈ declared_packages ts → impl_at loc tree c →
     (p +:+ "::" +:+ ci_type_name c +:+ "." +:+ ci_impl_name c)%string ∈ keys) →
  (pkg +:+ "::" +:+ ci_type_name c +:+ "." +:+ ci_impl_name c)%string ∈ keys → impl_at loc tree c →
  NoDup st.1 → st.1 ⊆ keys → length keys < fuel + length st.1 → chain_result_ok st.2 →
  keeps i (collect_impl_chain_recursive g fuel loc pkg st) (λ r, chain_result_ok r.2).
Proof.
  induction fuel as [|fuel IH]; intros i loc tree c pkg st Hkeys Hk Hc Hn Hs Hf Hr.
  { assert (length st.1 ≤ length keys) by (by apply submseteq_length, NoDup_submseteq). lia. }
  cbn [collect_impl_chain_recursive]. destruct (get_impl _ _ _ Hc) as [Hget Htree].
  eapply keeps_bind; [apply keeps_lift; exists (Some c); split; [done|exact (eq_refl (Some c))]|]. intros ? <-.
  rewrite Htree. case_bool_decide as Hv.
  { eapply keeps_bind; [apply keeps_push_diagnostic|]. intros [] _. by apply keeps_ret. }
  destruct (visited_snoc _ _ _ Hn Hs Hk Hv) as [Hn' Hs'].
  apply (keeps_bind _ _ _ (λ r, chain_result_ok r.2)).
  - destruct (ci_extends c) as [ext_ref|]; [|by apply keeps_ret]. eapply keeps_bind; [apply keeps_resolve|].
    intros r Hres. apply resolved_declared in Hres. destruct r as [?|p l|?|]; try by apply keeps_ret.
    destruct Hres as (Hp & tree' & c' & Hc'). eapply IH; try done; [by eapply Hkeys|].
    cbn [fst]. rewrite length_app. cbn [length]. lia.
  - intros st' Hst'. eapply keeps_bind; [by apply keeps_add_own|]. intros r' Hr'. by apply keeps_ret.
Qed.

Lemma keeps_impl_chain_members i loc tree c pkg :
  impl_at loc tree c → keeps i (collect_impl_chain g loc pkg) chain_result_ok.
Proof.
  intros Hc. unfold collect_impl_chain. rewrite scope_trees_eq.
  eapply keeps_bind; [eapply (impl_chain_recursive_ok (impl_keys pkg c)); [| |done|constructor|..]|].
  - intros p tree' loc' c' Hp Hc'. right. apply list_elem_of_bind. exists p. split; [|done].
    apply list_elem_of_fmap. exists c'. split; [done|]. by eapply all_impls_elem.
  - by left.
  - by intros ? []%not_elem_of_nil.
  - rewrite impl_keys_length. cbn [length fst]. lia.
  - apply empty_chain_ok.
  - intros r Hr. by apply keeps_ret.
Qed.

(** ** Flow implementations *)

Lemma keeps_find_index {A} i (get : nat → Build A) test is_ :
  (∀ k, k ∈ is_ → keeps i (get k) (λ _, True)) → keeps i (find_index get test is_) (from_option (λ k, k ∈ is_) True).
Proof.
  induction is_ as [|k is_ IH]; intros H; cbn [find_index]; [by apply keeps_ret|].
  eapply keeps_bind; [apply H; by left|]. intros a _. destruct (test a); [apply keeps_ret; by left|].
  eapply keeps_mono; [apply IH; intros; apply H; by right|]. intros [j|]; [by right|done].
Qed.

Lemma component_lists b k c : sane b → components (arenas b) !! k = Some c → lists_ok (arenas b) c.
Proof. intros Hs Hk. by apply (sa_lists _ (sn_arenas _ Hs) k). Qed.

Lemma below_in n is_ k : below n is_ → k ∈ is_ → k < n.
Proof. intros H Hk. unfold below in H. rewrite Forall_forall in H. auto. Qed.

Lemma keeps_the_arena {A} i (get : SystemInstance → list A) k :
  (∀ x, get (blank x) = get x) → k < length (get i) →
  keeps i (b ← gets built; lift (arena_get (get b) k)) (λ a, get i !! k = Some a).
Proof.
  intros Hg' Hk b Hs Hi. apply wp_bind, wp_gets, wp_lift.
  destruct (arena_get_lt (get i) k Hk) as (c & Hc & Hl). exists c. rewrite <- (Hg' (built b)).
  change (blank (built b)) with (arenas b). rewrite Hi. by split_and!.
Qed.

(** The flows of the arena are changed, but not their owners. *)
Lemma reflowed_sane i fls :
  sane_arenas i → flow_owner <$> fls = flow_owner <$> flow_instances i → sane_arenas (set_flow_instances fls i).
Proof.
  intros [H1 H2 H3 H4 H5 H6 H7 H8 H9 H10] E.
  assert (El : length fls = length (flow_instances i)) by (apply (f_equal length) in E; by rewrite !length_fmap in E).
  assert (Eo : flow_owners (set_flow_instances fls i) = flow_owners i).
  { unfold flow_owners. cbn. apply (f_equal (fmap Some)) in E. rewrite <- !list_fmap_compose in E. exact E. }
  split; try done.
  - intros k c Hk. apply (lists_ok_mono i); [by apply (H3 k)|cbn; lia..].
  - rewrite Eo. exact H6.
Qed.

Lemma reflowed_grown idx i c fls :
  components i !! idx = Some c → flow_owner <$> fls = flow_owner <$> flow_instances i →
  grown idx i (set_flow_instances fls i).
Proof.
  intros Hc E. split. exists c, c, 0, 0, 0, 0, 0. rewrite list_insert_id by done. cbn. rewrite !app_nil_r. split_and!; try done.
  unfold flow_owners. cbn. apply (f_equal (fmap Some)) in E. rewrite <- !list_fmap_compose in E. exact E.
Qed.

Lemma attach_flow_fills idx fi c b :
  sane b → components (arenas b) !! idx = Some c →
  wp (attach_flow_impl idx fi) (λ _ b', sane b' ∧ fills idx (arenas b) (arenas b')) b.
Proof.
  intros Hs Hc. unfold attach_flow_impl. pose proof (component_lists _ _ _ Hs Hc) as L.
  apply wp_bind. eapply wp_mono; [apply (keeps_the_component (arenas b) idx); [by eapply lookup_lt_Some|done|done]|].
  intros c' b1 (Hs1 & Hb1 & Hc1). rewrite Hc in Hc1. injection Hc1 as <-.
  apply wp_bind. eapply wp_mono; [apply (keeps_find_index (arenas b)); [|done|done]|].
  { intros k Hk. eapply keeps_mono; [apply (keeps_the_arena _ flow_instances); [done|]|done]. by eapply below_in; [apply L|]. }
  intros [f|] b2 (Hs2 & Hb2 & Hf); [|apply wp_ret; rewrite Hb2; split; [done|by eapply fills_refl]]. cbn in Hf.
  apply wp_bind. eapply wp_mono; [apply (keeps_the_arena (arenas b) flow_instances); [done| |done|done]|].
  { by eapply below_in; [apply L|]. }
  intros fl b3 (Hs3 & Hb3 & Hfl). apply wp_modify. cbn beta.
  match goal with |- sane ?x ∧ _ => set (b4 := x) end.
  match goal with b4 := {| built := set_flow_instances (<[f := ?x]> _) _ |} |- _ => set (fl' := x) in * end.
  assert (E : arenas b4 = set_flow_instances (<[f := fl']> (flow_instances (arenas b))) (arenas b))
    by (rewrite <- Hb3; done).
  assert (Eo : flow_owner <$> <[f := fl']> (flow_instances (arenas b)) = flow_owner <$> flow_instances (arenas b)).
  { rewrite list_fmap_insert. apply list_insert_id. by rewrite list_lookup_fmap, Hfl. }
  rewrite E. split; [|split; [by eapply reflowed_grown|]].
  - destruct Hs3 as [H1 H2 H3]. rewrite Hb3 in H1, H2. split; rewrite ?E; [by apply reflowed_sane|exact H2|exact H3].
  - cbn. congruence.
Qed.

(** ** Connections *)

Lemma fix_access_ok names e : raw_end_ok e → raw_end_ok (fix_access names e).
Proof.
  intros [H1 H2]. unfold fix_access. destruct (_ && _); [|done]. split; [exact H2|]. by exists None.
Qed.

Lemma fix_call_ok calls e : map_Forall (λ _ t, brackets_ok t) calls → raw_end_ok e → raw_end_ok (fix_call calls e).
Proof.
  intros Hc H. unfold fix_call. destruct (subcomponent e) as [s|]; cbn; [|done].
  destruct (calls !! to_ascii_lowercase s) as [t|] eqn:Ht; [|done]. split; [by apply (Hc _ _ Ht)|apply H].
Qed.

Section at_instance.
Context (i : SystemInstance) (Hi : sane_arenas i).

Lemma keeps_component k c (Q : ComponentInstance → Prop) : components i !! k = Some c → Q c → keeps i (the_component k) Q.
Proof.
  intros Hc HQ. eapply keeps_mono; [apply keeps_the_component; by eapply lookup_lt_Some|]. cbn. intros d Hd. congruence.
Qed.

Lemma component_at k : k < length (components i) → ∃ c, components i !! k = Some c ∧ lists_ok i c.
Proof. intros Hk. destruct (lookup_lt_is_Some_2 _ _ Hk) as [c Hc]. exists c. split; [done|by apply (sa_lists _ Hi k)]. Qed.

Lemma keeps_members pkg nm inv : keeps i (lift (expand_feature_group g pkg nm inv)) (λ _, True).
Proof. apply keeps_lift. destruct (expand_feature_group_total pkg nm inv) as [fs Hfs]. by exists fs. Qed.

Lemma keeps_fixup owner cname names e :
  owner < length (components i) → end_ok e → keeps i (fixup_own_feature_group_endpoint g owner cname names e) end_ok.
Proof.
  intros Ho He. unfold fixup_own_feature_group_endpoint. destruct (subcomponent e) as [first|]; [|by apply keeps_ret].
  destruct (existsb _ _); [by apply keeps_ret|]. destruct (component_at _ Ho) as (o & Hc & L).
  eapply keeps_bind; [apply (keeps_component _ o (eq o)); done|]. intros ? <-.
  eapply keeps_bind; [apply keeps_find_index|].
  { intros k Hk. eapply keeps_mono; [apply keeps_the_feature|done]. by eapply below_in; [apply L|]. }
  intros [fi|] Hfi; [|by apply keeps_ret]. cbn in Hfi.
  eapply keeps_bind; [apply keeps_the_feature; by eapply below_in; [apply L|]|]. intros f _.
  eapply (keeps_bind _ _ _ (λ _, True)); [|intros [] _; by apply keeps_ret].
  destruct (feat_classifier f) as [cls|]; [|by apply keeps_ret].
  eapply keeps_bind; [apply keeps_members|]. intros ms _. destruct (_ || _); [by apply keeps_ret|apply keeps_push_diagnostic].
Qed.

Lemma keeps_check_call owner cname role calls target feat :
  owner < length (components i) → keeps i (check_call_end_feature g owner cname role calls target feat) (λ _, True).
Proof.
  intros Ho. unfold check_call_end_feature. destruct (least_call _ _); [|by apply keeps_ret].
  eapply keeps_bind; [by apply keeps_the_component|]. intros o _. eapply keeps_bind; [apply keeps_resolve|]. intros r Hr.
  apply resolved_declared in Hr. destruct r as [p loc|?|?|]; try by apply keeps_ret. destruct Hr as (_ & tree & ct & Hct).
  eapply keeps_bind; [apply keeps_set_chain_incomplete|]. intros [] _.
  eapply keeps_bind; [by eapply keeps_type_features|]. intros fs _.
  eapply (keeps_bind _ _ _ (λ _, True)); [by apply keeps_gets|]. intros inc _.
  destruct (_ || _); [by apply keeps_ret|apply keeps_push_diagnostic].
Qed.

Lemma any_group_returns c same fs : ∃ b, any_group g c same fs = Done b.
Proof.
  induction fs as [|f fs IH]; [by exists false|]. cbn [any_group]. unfold group_may_have.
  case_bool_decide; [|exact IH]. destruct (feat_classifier f) as [cls|]; [|by exists true].
  destruct (expand_feature_group_total (default (comp_package c) (package cls)) (type_name cls) false) as [ms ->].
  cbn [mbind Exec_bind]. destruct (_ || _); [by exists true|exact IH].
Qed.

Lemma keeps_check_target owner target cname role e :
  owner < length (components i) → target < length (components i) →
  keeps i (check_target_feature g owner target cname role e) (λ _, True).
Proof.
  intros Ho Ht. unfold check_target_feature. eapply (keeps_bind _ _ _ (λ _, True)); [by apply keeps_gets|]. intros done_ _.
  destruct (negb _); [by apply keeps_ret|]. destruct (component_at _ Ht) as (c & Hc & L).
  eapply keeps_bind; [apply (keeps_component _ c (eq c)); done|]. intros ? <-.
  eapply keeps_bind; [apply (keeps_mapM _ _ (λ _, True))|].
  { intros k Hk. eapply keeps_mono; [apply keeps_the_feature|done]. by eapply below_in; [apply L|]. }
  intros fs _. destruct (existsb _ _); [by apply keeps_ret|].
  eapply (keeps_bind _ _ _ (λ _, True)).
  { apply keeps_lift. match goal with |- context [any_group g c ?s fs] => destruct (any_group_returns c s fs) as [x ->] end. by exists x. }
  intros [] _; [by apply keeps_ret|]. destruct (subcomponent e); cbn;
    (eapply keeps_bind; [by apply keeps_the_component|]; intros o _; apply keeps_push_diagnostic).
Qed.

Lemma keeps_check_end owner cname role names locals calls e :
  owner < length (components i) →
  keeps i (check_connection_end_feature g owner cname role names locals calls e) (λ _, True).
Proof.
  intros Ho. unfold check_connection_end_feature. destruct (_ || _); [by apply keeps_ret|].
  destruct (subcomponent e) as [sub|].
  2:{ destruct (_ || _); [by apply keeps_ret|by apply keeps_check_target]. }
  destruct (component_at _ Ho) as (o & Hc & L).
  eapply keeps_bind; [apply (keeps_component _ o (eq o)); done|]. intros ? <-.
  eapply keeps_bind; [apply keeps_find_index|].
  { intros k Hk. eapply keeps_mono; [apply keeps_the_component|done]. by eapply below_in; [apply L|]. }
  intros [t|] Hf; [|by apply keeps_check_call]. apply keeps_check_target; [done|]. by eapply below_in; [apply L|].
Qed.

Lemma keeps_validate_end m cname e : end_ok e → keeps i (validate_end m cname e) (λ _, True).
Proof.
  unfold end_ok, validate_end. destruct (subcomponent e) as [sub|]; [|intros _; by apply keeps_ret]. intros [o Ho].
  eapply keeps_bind; [apply keeps_lift; exists o; split; [done|exact (eq_refl o)]|]. intros ? <-.
  destruct o as [[b n]|]; [|by apply keeps_ret]. destruct (m !! _) as [mx|]; [|by apply keeps_ret].
  destruct (_ || _); [apply keeps_push_diagnostic|by apply keeps_ret].
Qed.

Lemma keeps_validate owner conns :
  owner < length (components i) → below (length (connection_instances i)) conns →
  keeps i (validate_connection_array_indices owner conns) (λ _, True).
Proof.
  intros Ho Hcs. unfold validate_connection_array_indices. destruct (component_at _ Ho) as (o & Hc & L).
  eapply keeps_bind; [apply (keeps_component _ o (eq o)); done|]. intros ? <-.
  eapply keeps_bind; [apply (keeps_mapM _ _ (λ _, True))|].
  { intros k Hk. eapply keeps_mono; [apply keeps_the_component|done]. by eapply below_in; [apply L|]. }
  intros cs _. case_bool_decide; [by apply keeps_ret|]. apply keeps_forM. intros k Hk b Hs Hb.
  apply wp_bind, wp_gets, wp_bind, wp_lift. unfold connection.
  destruct (arena_get_lt (connection_instances i) k) as (cn & Hcn & Hl); [by eapply below_in|].
  change (connection_instances (built b)) with (connection_instances (arenas b)). rewrite Hb. exists cn. split; [done|].
  apply (keeps_forM i); [|done|done]. intros e He. apply keeps_validate_end.
  destruct (Forall_lookup_1 _ _ _ _ (sa_ends _ Hi) Hl) as [H1 H2].
  apply elem_of_app in He as [He|He]; [destruct (src cn)|destruct (dst cn)]; cbn in He;
    try (by apply not_elem_of_nil in He); apply list_elem_of_singleton in He; by subst.
Qed.
End at_instance.

Definition connection_data_sound (cd : ConnectionData) : Prop :=
  (∃ tree item, ts !! cd_tree cd = Some tree ∧ tree_connections tree !! cd_idx cd = Some item) ∧
  from_option raw_end_ok True (cd_src cd) ∧ from_option raw_end_ok True (cd_dst cd).

Lemma keeps_connection_properties i idx ci cd :
  idx < length (components i) → connection_data_sound cd → keeps i (push_connection_properties g idx ci cd) (λ _, True).
Proof.
  intros Hi [(tree & item & Ht & Hc) _]. unfold push_connection_properties. rewrite scope_trees_eq, Ht.
  eapply keeps_bind; [apply keeps_lift; exists item; split; [by apply arena_get_Some|exact (eq_refl item)]|]. intros ? <-.
  eapply (keeps_bind _ _ _ (λ _, True)).
  - eapply keeps_push_associations; [done..|]. intros p Hp. eapply association_arena; [done| |done].
    pose proof (well_indexed_at _ _ Ht) as W. by apply (Forall_lookup_1 _ _ _ _ (wi_connections _ W) Hc).
  - intros map _. case_bool_decide; [by apply keeps_ret|by apply keeps_on_built].
Qed.

Lemma keeps_on_end i f (P Q : ConnectionEnd → Prop) o :
  (∀ e, P e → keeps i (f e) Q) → from_option P True o → keeps i (on_end f o) (from_option Q True).
Proof.
  intros Hf Ho. destruct o as [e|]; [|by apply keeps_ret]. eapply keeps_bind; [by apply Hf|]. intros a Ha. by apply keeps_ret.
Qed.

Abbreviation added_connections := (added (get := connection_instances) (set := set_connection_instances) (own := conn_owner)).

Lemma instantiate_connection_added i idx names locals calls cd js b :
  idx < length (components i) → connection_data_sound cd → map_Forall (λ _ t, brackets_ok t) calls →
  added_connections i idx js b →
  wp (instantiate_connection g idx names locals calls cd) (λ j, added_connections i idx (js ++ [j])) b.
Proof.
  intros Hi Hcd Hcalls Hb. unfold instantiate_connection.
  match goal with |- context [?fe <$> cd_src cd] => set (fix_end := fe) end.
  assert (Hfix : ∀ o : option ConnectionEnd, from_option raw_end_ok True o → from_option end_ok True (fix_end <$> o)).
  { intros [e|]; [|done]. cbn. intros He. apply (proj1 (A := end_ok (fix_end e)) (B := brackets_ok (feature (fix_end e)))).
    change (raw_end_ok (fix_end e)). unfold fix_end.
    case_bool_decide; case_bool_decide; auto using fix_call_ok, fix_access_ok. }
  assert (Hc : ∀ b, added_connections i idx js b → idx < length (components (arenas b))).
  { intros b' (_ & new & -> & _). by rewrite (al_components _ _ _ _ connection_arena). }
  assert (Hkeep : ∀ {B} (m : Build B) Q b, added_connections i idx js b →
    (sane_arenas (arenas b) → idx < length (components (arenas b)) → keeps (arenas b) m Q) →
    wp m (λ a b', added_connections i idx js b' ∧ Q a) b).
  { intros B m Q b' Hb' Hm. destruct (Hb') as [Hs (new & Hnew & Hn & Hj)].
    eapply wp_mono; [apply (Hm (sn_arenas _ Hs) (Hc _ Hb')); done|].
    intros a b'' (Hs' & Hb'' & Ha). split; [|done]. split; [done|]. exists new. by rewrite Hb''. }
  destruct Hcd as (Hcd1 & Hcd2 & Hcd3).
  apply wp_bind. eapply wp_mono; [apply Hkeep; [done|]|].
  { intros Ha Hl. eapply keeps_on_end; [|by apply Hfix]. intros e He. by apply keeps_fixup. }
  intros s b1 [Hb1 Hs']. apply wp_bind. eapply wp_mono; [apply Hkeep; [done|]|].
  { intros Ha Hl. eapply keeps_on_end; [|by apply Hfix]. intros e He. by apply keeps_fixup. }
  intros d b2 [Hb2 Hd']. apply wp_bind. eapply wp_mono; [apply Hkeep; [done|]|].
  { intros Ha Hl. apply keeps_forM. intros e _. by apply keeps_check_end. }
  intros [] b3 [Hb3 _]. apply wp_bind. eapply wp_mono; [apply Hkeep; [done|]|].
  { intros Ha Hl. apply keeps_forM. intros e _. by apply keeps_check_end. }
  intros [] b4 [Hb4 _]. apply wp_bind. eapply wp_mono; [by apply (added_alloc connection_arena)|]. intros ci b5 Hb5.
  apply wp_bind. eapply wp_mono; [eapply (added_keeps connection_arena); [|exact Hb5]|].
  { intros i' Hi' _. apply keeps_connection_properties; [by rewrite Hi'|done]. }
  intros [] b6 [Hb6 _]. by apply wp_ret.
Qed.

(** ** End-to-end flows and modes of an implementation *)

Lemma wp_keeps {A} b (m : Build A) Q : sane b → keeps (arenas b) m Q → wp m (λ a b', sane b' ∧ arenas b' = arenas b ∧ Q a) b.
Proof. intros Hs H. by apply H. Qed.

Lemma e2e_fills idx e c b :
  sane b → components (arenas b) !! idx = Some c → (∀ p, p ∈ e.2 → association_at e.1.2 p) →
  wp (instantiate_e2e_flow g idx e) (λ _ b', sane b' ∧ fills idx (arenas b) (arenas b')) b.
Proof.
  destruct e as [[[nm segs] j] pas]. cbn. intros Hs Hc Hp. pose proof (lookup_lt_Some _ _ _ Hc) as Hlt.
  unfold instantiate_e2e_flow. apply wp_bind, wp_gets. rewrite scope_trees_eq. apply wp_bind.
  eapply wp_mono; [apply (wp_keeps _ _ (λ _, True)); [exact Hs|]|].
  { destruct (ts !! j) as [tree|] eqn:Ht; [by eapply keeps_push_associations|by apply keeps_ret]. }
  intros ps b1 (Hs1 & Hb1 & _). apply wp_bind, wp_modify. match goal with |- wp _ _ ?x => set (b2 := x) end.
  assert (Hb2 : arenas b2 = arenas b) by done.
  assert (Hs2 : sane b2).
  { destruct Hs as [G1 G2 G3], Hs1 as [H1 H2 H3]. split; [done|rewrite Hb2; exact G2|exact H3]. }
  apply wp_bind. eapply wp_mono; [apply (added_alloc e2e_arena (arenas b) idx _ []); [done..|by apply (added_nil e2e_arena)]|].
  intros k b3 (Hs3 & new & Hb3 & _). apply wp_ret. split; [done|]. rewrite Hb3. split.
  - split. exists c, c, 0, 0, 0, 0, 0. cbn. rewrite list_insert_id by done. rewrite !app_nil_r. done.
  - cbn. congruence.
Qed.

Lemma modes_fills idx ms mts c b :
  sane b → components (arenas b) !! idx = Some c →
  wp (instantiate_modes idx ms mts) (λ _ b', sane b' ∧ fills idx (arenas b) (arenas b')) b.
Proof.
  intros Hs Hc. pose proof (lookup_lt_Some _ _ _ Hc) as Hlt. pose proof (component_lists _ _ _ Hs Hc) as L.
  unfold instantiate_modes.
  apply wp_bind. eapply wp_mono; [apply (keeps_component (arenas b) idx c (eq c)); done|]. intros ? b1 (Hs1 & Hb1 & <-).
  apply wp_bind. eapply wp_mono; [apply (keeps_mapM (arenas b) _ (λ _, True)); [|done|done]|].
  { intros k Hk. eapply keeps_mono; [apply (keeps_the_arena _ mode_instances); [done|]|done]. by eapply below_in; [apply L|]. }
  intros existing b2 (Hs2 & Hb2 & _).
  apply wp_bind. eapply wp_mono; [apply (added_mapM (get := mode_instances) (set := set_mode_instances) (own := mode_owner)
    (arenas b) idx _ _ []); [|by apply (added_nil mode_arena)]|].
  { intros m js b' _ Hadd. by apply (added_alloc mode_arena). }
  intros mis b3 (Hs3 & ms' & Hb3 & Hms & Hmis). cbn [app] in Hmis.
  apply wp_bind. eapply wp_mono; [apply (added_mapM (get := mode_transition_instances) (set := set_mode_transition_instances)
    (own := mt_owner) (arenas b3) idx _ _ []); [|by apply (added_nil transition_arena)]|].
  { intros t js b' _ Hadd. apply (added_alloc transition_arena); try done. by rewrite Hb3. }
  intros mtis b4 (Hs4 & mts' & Hb4 & Hmts & Hmtis). cbn [app] in Hmtis.
  rewrite Hb3 in Hb4. rewrite Hb3 in Hmtis. cbn in Hmtis. rewrite Hmis, Hmtis.
  apply (wp_update_component idx c); [done|by rewrite Hb4|done| |].
  - destruct (sa_lists _ (sn_arenas _ Hs4) idx c) as [L1 L2 L3 L4 L5 L6]; [by rewrite Hb4|]. rewrite Hb4 in *.
    split; cbn; try done; (apply Forall_app; split; [done|]); apply below_seq; rewrite length_app; lia.
  - intros b5 Hs5 Hb5. split; [done|]. rewrite Hb5, Hb4. split.
    + split. exists c. eexists. exists 0, 0, 0, (length ms'), (length mts').
      split; [done|]. split; [done|]. cbn. rewrite !app_nil_r. split_and!; try done; by apply owners_app.
    + intros d d' Hd. cbn. rewrite list_lookup_insert_eq by done. intros [= <-]. cbn. congruence.
Qed.

(** A loop of such programs. *)
Lemma fills_forM {A} (f : A → Build ()) idx xs c b :
  (∀ x c b, x ∈ xs → sane b → components (arenas b) !! idx = Some c →
     wp (f x) (λ _ b', sane b' ∧ fills idx (arenas b) (arenas b')) b) →
  sane b → components (arenas b) !! idx = Some c →
  wp (forM_ f xs) (λ _ b', sane b' ∧ fills idx (arenas b) (arenas b')) b.
Proof.
  intros Hf Hs Hc. apply (wp_forM f (λ b', sane b' ∧ fills idx (arenas b) (arenas b'))).
  - split; [done|by eapply fills_refl].
  - intros x b' Hx [Hs' F]. destruct (fills_component _ _ _ _ F Hc) as (c' & Hc' & _).
    eapply wp_mono; [by eapply Hf|]. intros [] b'' [Hs'' F']. split; [done|by eapply fills_trans].
Qed.

(** ** Components

    Since the arenas were [i], components were appended; of those there were,
    [p] gained the children [js]. *)
Record since (p : option nat) (js : list nat) (i i' : SystemInstance) : Prop := {
  sc_components : ∃ new, components i' = components i ++ new;
  sc_parents k : k < length (components i) →
    positions (parents i') k = positions (parents i) k ++ (if bool_decide (p = Some k) then js else []);
  sc_new : Forall (λ j, length (components i) ≤ j < length (components i')) js;
}.

Lemma since_refl p i : since p [] i i.
Proof. split; [exists []; by rewrite app_nil_r| |constructor]. intros k _. case_bool_decide; by rewrite app_nil_r. Qed.

Lemma since_length p js i i' : since p js i i' → length (components i) ≤ length (components i').
Proof. intros [[new ->] _ _]. rewrite length_app. lia. Qed.

Lemma since_lookup p js i i' k c : since p js i i' → components i !! k = Some c → components i' !! k = Some c.
Proof. intros [[new ->] _ _] H. by apply lookup_app_l_Some. Qed.

Lemma since_parents p js i i' : since p js i i' → ∃ more, parents i' = parents i ++ more.
Proof. intros [[new E] _ _]. exists (parent <$> new). unfold parents. by rewrite E, fmap_app. Qed.

Lemma since_update p js i i' i'' idx c :
  since p js i i' → components i'' = <[idx := c]> (components i') → parents i'' = parents i' →
  length (components i) ≤ idx → since p js i i''.
Proof.
  intros [[new E] H Hnew] Ec Ep Hi. split; [| |by rewrite Ec, length_insert].
  - rewrite Ec, E, insert_app_r_alt by done. by eexists.
  - intros k Hk. rewrite Ep. by apply H.
Qed.

Lemma since_grown p js i i' i'' idx :
  since p js i i' → grown idx i' i'' → length (components i) ≤ idx → since p js i i''.
Proof.
  intros S G Hi. pose proof (grown_parents _ _ _ G). destruct G as [(c & c' & _ & _ & _ & _ & _ & _ & Ec & _)].
  by eapply since_update.
Qed.

Lemma since_spawn p js q js' i i' i'' :
  since p js i i' → since (Some q) js' i' i'' → length (components i) ≤ q → since p js i i''.
Proof.
  intros S1 S2 Hq. pose proof (since_length _ _ _ _ S1). pose proof (since_length _ _ _ _ S2). destruct S1 as [[n1 E1] H1 N1], S2 as [[n2 E2] H2 N2].
  split; [| |eapply Forall_impl; [exact N1|]; cbn; lia].
  - exists (n1 ++ n2). by rewrite E2, E1, app_assoc.
  - intros k Hk. rewrite H2 by lia. rewrite bool_decide_false by (intros [= ->]; lia). rewrite app_nil_r. by apply H1.
Qed.

Lemma since_app p js js' i i' i'' : since p js i i' → since p js' i' i'' → since p (js ++ js') i i''.
Proof.
  intros S1 S2. pose proof (since_length _ _ _ _ S1). pose proof (since_length _ _ _ _ S2). destruct S1 as [[n1 E1] H1 N1], S2 as [[n2 E2] H2 N2]. split.
  - exists (n1 ++ n2). by rewrite E2, E1, app_assoc.
  - intros k Hk. rewrite H2, H1, <- app_assoc by lia. by case_bool_decide.
  - apply Forall_app. split; (eapply Forall_impl; [eassumption|]); cbn; lia.
Qed.

Lemma since_child p js i i' j : since p js i i' → j ∈ js → length (components i) ≤ j < length (components i').
Proof. intros [_ _ H]. rewrite Forall_forall in H. apply H. Qed.

Lemma depth_prefix ps more k d : depth_is ps k d → depth_is (ps ++ more) k d.
Proof. induction 1; [by apply depth_root, lookup_app_l_Some|by eapply depth_child; [apply lookup_app_l_Some|]]. Qed.

Lemma depth_unique ps k d d' : depth_is ps k d → depth_is ps k d' → d = d'.
Proof. intros H. revert d'. induction H; intros d' H'; inversion H'; simplify_eq; auto. Qed.

Lemma depth_snoc ps o k d :
  (∀ j q, ps !! j = Some (Some q) → q < j) → k < length ps → depth_is (ps ++ [o]) k d → depth_is ps k d.
Proof.
  intros Hps Hk H. induction H as [j Hj|j q d Hj H IH]; rewrite lookup_app_l in Hj by done.
  - by apply depth_root.
  - eapply depth_child; [done|]. apply IH. specialize (Hps _ _ Hj). lia.
Qed.

(** Room for [levels] more levels below a child of [p]. *)
Definition room (levels : nat) (i : SystemInstance) (p : option nat) : Prop :=
  match p with
  | None => components i = [] ∧ levels ≤ D
  | Some p => ∃ d, depth_is (parents i) p d ∧ S (d + levels) ≤ D
  end.

Lemma room_since levels q p js i i' : since p js i i' → room levels i (Some q) → room levels i' (Some q).
Proof.
  intros S (d & Hd & Hl). destruct (since_parents _ _ _ _ S) as [more E]. exists d. rewrite E. by split; [apply depth_prefix|].
Qed.

Lemma room_parent levels i p : room levels i (Some p) → p < length (components i).
Proof. intros (d & Hd & _). destruct Hd as [k Hk|k q d Hk _]; apply lookup_lt_Some in Hk; unfold parents in Hk; by rewrite length_fmap in Hk. Qed.

(** A component without contents. *)
Definition bare (c : ComponentInstance) : Prop := empty_contents c ∧ children c = [] ∧ connections c = [].

Definition appended (c : ComponentInstance) (i : SystemInstance) : SystemInstance := set_components (components i ++ [c]) i.

Lemma parents_below i k p : sane_arenas i → parents i !! k = Some (Some p) → p < k.
Proof.
  intros H Hk. unfold parents in Hk. rewrite list_lookup_fmap in Hk. apply fmap_Some in Hk as (c & Hc & Hp).
  pose proof (sa_parent _ H k c Hc) as Hq. by rewrite <- Hp in Hq.
Qed.

Lemma parents_appended c i : parents (appended c i) = parents i ++ [parent c].
Proof. unfold parents. cbn. by rewrite fmap_app. Qed.

Lemma appended_depth levels c i d :
  sane_arenas i → room levels i (parent c) → depth_is (parents (appended c i)) (length (components i)) d → d + levels ≤ D.
Proof.
  intros H R Hd. rewrite parents_appended in Hd. assert (L : length (parents i) = length (components i)) by apply length_fmap.
  inversion Hd as [k Hk|k q d' Hk Hq]; subst k; rewrite <- L, list_lookup_middle in Hk by done; injection Hk as Hk;
    rewrite Hk in R.
  - cbn. apply R.
  - destruct R as (d2 & Hd2 & Hl).
    assert (d' = d2) as -> by (eapply depth_unique; [exact Hq|]; by apply depth_prefix). lia.
Qed.

Lemma appended_sane levels c i : sane_arenas i → bare c → room levels i (parent c) → sane_arenas (appended c i).
Proof.
  intros H ((E1 & E2 & E3 & E4) & E5 & E6) R. pose proof (λ d, appended_depth levels c i d H R) as Hdepth.
  assert (Hlen : length (components (appended c i)) = S (length (components i))) by (cbn; rewrite length_app; cbn; lia).
  assert (Howner : ∀ os, Forall (owner_in i) os → Forall (owner_in (appended c i)) os).
  { intros os Ho. eapply Forall_impl; [exact Ho|]. intros o (k & -> & Hk). exists k. split; [done|lia]. }
  pose proof (parents_below i) as Hbelow. destruct (H) as [H1 H2 H3 H4 H5 H6 H7 H8 H9 H10]. split; try (by apply Howner).
  - intros k d Hk. cbn in Hk. apply lookup_snoc_Some in Hk as [[_ Hk]|[-> <-]]; [by apply H1|].
    unfold room in R. destruct (parent c) as [p|]; [by apply (room_parent levels)|]. by destruct R as [-> _].
  - intros k d Hd. destruct (decide (k = length (components i))) as [->|Hne]; [specialize (Hdepth d Hd); lia|].
    apply (H2 k). rewrite parents_appended in Hd. eapply depth_snoc; [by intros; apply Hbelow| |exact Hd].
    assert (Hk : k < length (parents i ++ [parent c])) by (destruct Hd; by eapply lookup_lt_Some).
    unfold parents in *. rewrite length_app, length_fmap in Hk. rewrite length_fmap. cbn in Hk. lia.
  - intros k d Hk. cbn in Hk. apply lookup_snoc_Some in Hk as [[_ Hk]|[-> <-]].
    + apply (lists_ok_mono i); [by apply (H3 k)|lia|cbn; lia..].
    + split; rewrite ?E1, ?E2, ?E3, ?E4, ?E5, ?E6; constructor.
  - eapply Forall_impl; [exact H9|]. cbn. intros e. rewrite length_app. cbn. lia.
  - done.
Qed.

Lemma not_owned i os : Forall (owner_in i) os → positions os (length (components i)) = [].
Proof. intros H. apply positions_none. eapply Forall_impl; [exact H|]. intros o (k & -> & Hk) [= ->]. lia. Qed.

Lemma no_children_yet c i : sane_arenas i → (∀ p, parent c = Some p → p < length (components i)) →
  positions (parents (appended c i)) (length (components i)) = [].
Proof.
  intros H Hp. rewrite parents_appended, positions_snoc. rewrite bool_decide_false, app_nil_r by (intros E; specialize (Hp _ E); lia).
  apply positions_none, Forall_forall. intros o Ho ->. apply list_elem_of_lookup in Ho as [k Hk].
  pose proof (parents_below _ _ _ H Hk). apply lookup_lt_Some in Hk. unfold parents in Hk. rewrite length_fmap in Hk. lia.
Qed.

Lemma appended_settled open c i :
  sane_arenas i → bare c → (∀ p, parent c = Some p → p ∈ open ∧ p < length (components i)) → settled open i →
  settled open (appended c i).
Proof.
  intros H ((E1 & E2 & E3 & E4) & E5 & E6) Hp [S1 S2 S3 S4 S5 S6].
  split; intros k d Hk; cbn in Hk; apply lookup_snoc_Some in Hk as [[Hlt Hk]|[-> <-]]; auto.
  - intros Hopen. rewrite parents_appended, positions_snoc, (S1 k d Hk Hopen), bool_decide_false, app_nil_r; [done|].
    intros E. by destruct (Hp _ E).
  - intros _. rewrite E5. symmetry. apply no_children_yet; [done|]. intros p E. by apply Hp.
  - rewrite E1. symmetry. apply (not_owned i), H.
  - rewrite E6. symmetry. apply (not_owned i), H.
  - rewrite E2. symmetry. apply (not_owned i), H.
  - rewrite E3. symmetry. apply (not_owned i), H.
  - rewrite E4. symmetry. apply (not_owned i), H.
Qed.

Lemma appended_since c i : since (parent c) [length (components i)] i (appended c i).
Proof.
  split; [by exists [c]| |repeat constructor; cbn; rewrite ?length_app; cbn; lia]. intros k Hk. rewrite parents_appended, positions_snoc. unfold parents. rewrite length_fmap. done.
Qed.

Lemma wp_alloc_component levels c b :
  sane b → bare c → room levels (arenas b) (parent c) →
  wp (alloc_component c) (λ j b', sane b' ∧ j = length (components (arenas b)) ∧ arenas b' = appended c (arenas b)) b.
Proof.
  intros Hs Hc R. unfold alloc_component, alloc. apply wp_bind, wp_gets, wp_bind, wp_modify, wp_ret.
  split_and!; [|done..]. destruct Hs as [H1 H2 H3]. split; [by eapply (appended_sane levels c (arenas b))| |exact H3].
  eapply Forall_impl; [exact H2|]. cbn. intros p. rewrite length_app. cbn. lia.
Qed.

(** What an instantiation achieves: components are appended, [p] gains the
    children [js], and every component but those of [open] lists what it owns. *)
Record spawned (open : list nat) (p : option nat) (js : list nat) (b b' : Builder) : Prop := {
  sp_sane : sane b';
  sp_settled : settled open (arenas b');
  sp_since : since p js (arenas b) (arenas b');
}.

Lemma spawned_keeps {A} open p js b b' (m : Build A) Q :
  spawned open p js b b' → keeps (arenas b') m Q → wp m (λ a b'', spawned open p js b b'' ∧ arenas b'' = arenas b' ∧ Q a) b'.
Proof.
  intros [H1 H2 H3] Hm. eapply wp_mono; [by apply wp_keeps|]. intros a b'' (Hs & Hb & Ha). split; [|done]. by split; rewrite ?Hb.
Qed.

Lemma spawned_grown open p js b b' b'' idx :
  spawned open p js b b' → sane b'' → grown idx (arenas b') (arenas b'') → length (components (arenas b)) ≤ idx →
  spawned open p js b b''.
Proof.
  intros [H1 H2 H3] Hs G Hl. split; [done|by eapply grown_settled|by eapply since_grown].
Qed.

Lemma wp_allocate levels open c b :
  sane b → settled open (arenas b) → bare c → room levels (arenas b) (parent c) →
  (∀ p, parent c = Some p → p ∈ open) →
  wp (alloc_component c) (λ j b', j = length (components (arenas b)) ∧ spawned open (parent c) [j] b b' ∧
    arenas b' = appended c (arenas b)) b.
Proof.
  intros Hs St Hc R Ho. eapply wp_mono; [by eapply wp_alloc_component|]. intros j b' (Hs' & -> & Hb').
  split; [done|]. split; [|done]. split; [done|..]; rewrite Hb'.
  - apply appended_settled; [apply Hs|done| |done]. intros p E. split; [by apply Ho|]. rewrite E in R. by eapply room_parent.
  - apply appended_since.
Qed.

Lemma appended_last c i : components (appended c i) !! length (components i) = Some c.
Proof. by apply list_lookup_middle. Qed.

Lemma fresh_bare nm cat ty im pkg p i ms : bare (fresh_component nm cat ty im pkg p i ms).
Proof. done. Qed.

Lemma populate_filled open p js b0 b idx c type_loc pkg :
  spawned open p js b0 b → length (components (arenas b0)) ≤ idx → components (arenas b) !! idx = Some c → empty_contents c →
  type_loc_ok type_loc →
  wp (populate_from_type g idx type_loc pkg) (λ _ b', spawned open p js b0 b' ∧ fills idx (arenas b) (arenas b')) b.
Proof.
  intros Sp Hl Hc He Ht. eapply wp_mono; [apply (populate_fills (arenas b) idx c); try done; apply Sp|].
  intros [] b' [Hs' F]. split; [by eapply spawned_grown; [..|apply F|]|done].
Qed.

Section inside.
Context (open : list nat) (idx : nat) (Hopen : idx ∈ open).

Lemma instantiate_leaf_spawned pkg cls sd index nm b :
  sane b → settled open (arenas b) → room 0 (arenas b) (Some idx) → sub_ok (sd_loc sd) →
  wp (instantiate_leaf g idx pkg cls sd index nm) (λ j b', spawned open (Some idx) [j] b b') b.
Proof.
  intros Hs St R Hsub. unfold instantiate_leaf.
  apply wp_bind. eapply wp_mono; [apply wp_keeps; [done|apply keeps_resolve]|]. intros r b1 (Hs1 & Hb1 & Hr).
  assert (Hloc : ∃ leaf pkg', match r with ResolvedType res_pkg loc => (Some loc, res_pkg) | _ => (None, default pkg (package cls)) end
    = (leaf, pkg') ∧ type_loc_ok leaf).
  { apply resolved_declared in Hr. destruct r; eexists _, _; split; try done. by destruct Hr as [_ Hr]. }
  destruct Hloc as (leaf & pkg' & -> & Hleaf). rewrite <- Hb1 in St, R.
  apply wp_bind. eapply wp_mono; [apply (wp_allocate 0 open); [done..|]|].
  { intros p [= <-]. done. }
  intros j b2 (-> & Sp & Hb2). cbn [parent fresh_component] in Sp.
  pose proof (appended_last (fresh_component nm (sd_category sd) (type_name cls) None pkg' (Some idx) index (sd_in_modes sd)) (arenas b1)) as Hc.
  rewrite <- Hb2 in Hc.
  apply wp_bind. eapply wp_mono; [eapply populate_filled; [exact Sp|done|exact Hc|done|done]|]. intros [] b3 [Sp3 _].
  apply wp_bind. eapply wp_mono; [eapply spawned_keeps; [exact Sp3|by apply keeps_project_emv2]|]. intros [] b4 [Sp4 _].
  pose proof (since_child _ _ _ _ (length (components (arenas b1))) (sp_since _ _ _ _ _ Sp4)) as L.
  apply wp_bind. eapply wp_mono; [eapply spawned_keeps; [exact Sp4|apply keeps_build_leaf; [apply L; by left|done]]|]. intros [] b5 [Sp5 _].
  apply wp_ret. destruct Sp5 as [G1 G2 G3]. split; [done..|]. by rewrite <- Hb1.
Qed.

Lemma instantiate_anonymous_spawned pkg sd index nm b :
  sane b → settled open (arenas b) → room 0 (arenas b) (Some idx) → sub_ok (sd_loc sd) →
  wp (instantiate_anonymous g idx pkg sd index nm) (λ j b', spawned open (Some idx) [j] b b') b.
Proof.
  intros Hs St R Hsub. unfold instantiate_anonymous.
  apply wp_bind. eapply wp_mono; [apply (wp_allocate 0 open); [done..|]|].
  { intros p [= <-]. done. }
  intros j b2 (-> & Sp & Hb2). cbn [parent fresh_component] in Sp.
  pose proof (since_child _ _ _ _ (length (components (arenas b))) (sp_since _ _ _ _ _ Sp)) as L.
  apply wp_bind. eapply wp_mono; [eapply spawned_keeps; [exact Sp|apply keeps_build_anon; [apply L; by left|done]]|].
  intros [] b5 [Sp5 _]. by apply wp_ret.
Qed.

(** The contract of the recursive call. *)
Definition request_ok (rq : Request) : Prop :=
  (∀ p, rq_parent rq = Some p → p ∈ open) ∧ from_option sub_ok True (rq_subcomponent rq).

Lemma with_element_grown j index ms c b :
  sane b → components (arenas b) !! j = Some c →
  wp (update_component j (with_element index ms)) (λ _ b', sane b' ∧ grown j (arenas b) (arenas b')) b.
Proof.
  intros Hs Hc. pose proof (component_lists _ _ _ Hs Hc) as [L1 L2 L3 L4 L5 L6].
  apply (wp_update_component j c); [done|done|done|by split|]. intros b' Hs' Hb'. split; [done|]. rewrite Hb'.
  split. eexists c, _, 0, 0, 0, 0, 0. split; [done|]. split; [done|]. cbn. rewrite !app_nil_r. done.
Qed.

Context (levels : nat) (inst : Request → Build ComponentInstanceIdx).
Hypothesis (Hinst : ∀ rq b, sane b → settled open (arenas b) → room levels (arenas b) (rq_parent rq) → request_ok rq →
  wp (inst rq) (λ j b', spawned open (rq_parent rq) [j] b b') b).

Lemma instantiate_element_spawned pkg sd k b :
  sane b → settled open (arenas b) → room levels (arenas b) (Some idx) → sub_ok (sd_loc sd) →
  wp (instantiate_element g inst idx pkg sd k) (λ j b', spawned open (Some idx) [j] b b') b.
Proof.
  intros Hs St R Hsub. assert (R0 : room 0 (arenas b) (Some idx)) by (destruct R as (d & Hd & Hl); exists d; split; [done|lia]).
  unfold instantiate_element. destruct (element _ _ _) as [index nm].
  destruct (sd_classifier sd) as [cls|]; [|by apply instantiate_anonymous_spawned].
  destruct (impl_name cls) as [im|]; [|by apply instantiate_leaf_spawned].
  apply wp_bind. eapply wp_mono; [apply Hinst; try done|].
  { split; [|done]. intros p [= <-]. done. }
  intros j b1 Sp. cbn [rq_parent] in Sp.
  pose proof (since_child _ _ _ _ j (sp_since _ _ _ _ _ Sp)) as L.
  destruct (lookup_lt_is_Some_2 (components (arenas b1)) j) as [c Hc]; [apply L; by left|].
  apply wp_bind. eapply wp_mono; [apply (with_element_grown j _ _ c); [apply Sp|done]|].
  intros [] b2 [Hs2 G]. apply wp_ret. eapply spawned_grown; [done..|].
  apply L. by left.
Qed.

Lemma instantiate_subcomponent_spawned pkg sd b :
  sane b → settled open (arenas b) → room levels (arenas b) (Some idx) → sub_ok (sd_loc sd) →
  wp (instantiate_subcomponent g inst idx pkg sd) (λ js b', spawned open (Some idx) js b b') b.
Proof.
  intros Hs St R Hsub. unfold instantiate_subcomponent.
  apply wp_bind. eapply wp_mono; [apply wp_keeps; [done|apply keeps_array_count]|]. intros count b1 (Hs1 & Hb1 & _).
  apply (wp_mapM _ (λ _ js b', spawned open (Some idx) js b b')).
  - split; rewrite ?Hb1; [done..|apply since_refl].
  - intros done_ k js b2 _ Sp. eapply wp_mono; [apply (instantiate_element_spawned pkg sd k); [apply Sp..| |done]|].
    + eapply room_since; [apply Sp|done].
    + intros j b3 [H1 H2 H3]. split; [done..|]. eapply since_app; [apply Sp|done].
Qed.

Lemma instantiate_children_spawned pkg sds b :
  sane b → settled open (arenas b) → room levels (arenas b) (Some idx) → Forall (λ sd, sub_ok (sd_loc sd)) sds →
  wp (mapM (instantiate_subcomponent g inst idx pkg) sds) (λ jss b', spawned open (Some idx) (concat jss) b b') b.
Proof.
  intros Hs St R Hsubs. apply (wp_mapM _ (λ _ jss b', spawned open (Some idx) (concat jss) b b')).
  - split; [done..|apply since_refl].
  - intros done_ sd jss b2 [todo ->] Sp. rewrite !Forall_app in Hsubs. destruct Hsubs as [[_ Hsd%Forall_inv] _].
    eapply wp_mono; [apply (instantiate_subcomponent_spawned pkg sd); [apply Sp..| |done]|].
    + eapply room_since; [apply Sp|done].
    + intros js b3 [H1 H2 H3]. split; [done..|]. rewrite concat_app. cbn. rewrite app_nil_r.
      eapply since_app; [apply Sp|done].
Qed.
End inside.

(** ** What is inside an implementation *)

Lemma settled_weaken open open' i : open ⊆ open' → settled open i → settled open' i.
Proof. intros H [S1 S2 S3 S4 S5 S6]. split; try done. intros k c Hk Hn. apply (S1 k c Hk). intros Hin. by apply Hn, H. Qed.

Lemma closed_settled open idx i c :
  settled (idx :: open) i → components i !! idx = Some c →
  settled open (set_components (<[idx := with_children (positions (parents i) idx) c]> (components i)) i).
Proof.
  intros [S1 S2 S3 S4 S5 S6] Hc. assert (L : idx < length (components i)) by by eapply lookup_lt_Some.
  assert (Hp : parents (set_components (<[idx := with_children (positions (parents i) idx) c]> (components i)) i) = parents i).
  { unfold parents. cbn. rewrite list_fmap_insert. apply list_insert_id. cbn. by rewrite list_lookup_fmap, Hc. }
  split; intros k d Hk; cbn in Hk; (destruct (decide (idx = k)) as [<-|Hne];
    [rewrite list_lookup_insert_eq in Hk by done; injection Hk as <-|rewrite list_lookup_insert_ne in Hk by done]);
    try first [exact (S2 _ _ Hc)|exact (S3 _ _ Hc)|exact (S4 _ _ Hc)|exact (S5 _ _ Hc)|exact (S6 _ _ Hc)]; eauto.
  - intros _. by rewrite Hp.
  - intros Ho. rewrite Hp. apply (S1 k d Hk). intros [->|?]%elem_of_cons; done.
Qed.

(** The children are handed to their parent. *)
Lemma with_children_spawned open p js0 b0 b idx js c :
  spawned (idx :: open) p js0 b0 b → length (components (arenas b0)) ≤ idx → components (arenas b) !! idx = Some c →
  positions (parents (arenas b)) idx = js →
  wp (update_component idx (with_children js)) (λ _ b', spawned open p js0 b0 b' ∧
    ∃ c', components (arenas b') !! idx = Some c' ∧ connections c' = connections c ∧
      length (components (arenas b')) = length (components (arenas b))) b.
Proof.
  intros [H1 H2 H3] Hl Hc <-. apply (wp_update_component idx c); [done..| |].
  - destruct (component_lists _ _ _ H1 Hc) as [L1 L2 L3 L4 L5 L6]. split; try done. cbn.
    apply Forall_forall. intros j Hj%positions_elem%lookup_lt_Some. unfold parents in Hj. by rewrite length_fmap in Hj.
  - intros b' Hs' Hb'. assert (L : idx < length (components (arenas b))) by by eapply lookup_lt_Some. split.
    + split; [done|rewrite Hb'; by apply closed_settled|]. eapply since_update; [done|by rewrite Hb'| |done].
      rewrite Hb'. unfold parents. cbn [components set_components]. rewrite list_fmap_insert. apply list_insert_id.
      by rewrite list_lookup_fmap, Hc.
    + rewrite Hb'. cbn [components set_components]. rewrite list_lookup_insert_eq, length_insert by done. by eexists.
Qed.

Lemma connections_grown idx i c new js :
  components i !! idx = Some c → connections c = [] → conn_owner <$> new = replicate (length new) idx →
  js = seq (length (connection_instances i)) (length new) →
  grown idx i (set_components (<[idx := with_connections js c]> (components i))
                 (set_connection_instances (connection_instances i ++ new) i)).
Proof.
  intros Hc E Hn ->. split. exists c. eexists. exists 0, (length new), 0, 0, 0.
  split; [done|]. split; [done|]. cbn. rewrite !app_nil_r, E. split_and!; try done. by apply owners_app.
Qed.

Lemma instantiate_connections_grown idx names locals calls cds c b :
  sane b → components (arenas b) !! idx = Some c → connections c = [] → Forall connection_data_sound cds →
  map_Forall (λ _ t, brackets_ok t) calls →
  wp (js ← mapM (instantiate_connection g idx names locals calls) cds;
      update_component idx (with_connections js) ;; validate_connection_array_indices idx js)
     (λ _ b', sane b' ∧ grown idx (arenas b) (arenas b')) b.
Proof.
  intros Hs Hc E Hcds Hcalls. pose proof (lookup_lt_Some _ _ _ Hc) as Hlt. rewrite Forall_forall in Hcds.
  apply wp_bind. eapply wp_mono; [apply (added_mapM (get := connection_instances) (set := set_connection_instances)
    (own := conn_owner) (arenas b) idx _ _ []); [|by apply (added_nil connection_arena)]|].
  { intros cd js b' Hin Hadd. apply instantiate_connection_added; auto. }
  intros js b1 (Hs1 & new & Hb1 & Hn & Hjs). cbn [app] in Hjs.
  apply wp_bind. apply (wp_update_component idx c); [done|by rewrite Hb1|done| |].
  - destruct (sa_lists _ (sn_arenas _ Hs1) idx c) as [L1 L2 L3 L4 L5 L6]; [by rewrite Hb1|]. rewrite Hb1 in *.
    split; try done. cbn [connections with_connections connection_instances set_connection_instances]. rewrite Hjs.
    apply below_seq. rewrite length_app. lia.
  - intros b2 Hs2 Hb2. rewrite Hb1 in Hb2. assert (G : grown idx (arenas b) (arenas b2)).
    { rewrite Hb2. exact (connections_grown idx (arenas b) c new js Hc E Hn Hjs). }
    eapply wp_mono; [apply wp_keeps; [done|]|].
    + apply keeps_validate; [apply Hs2|by rewrite (grown_length _ _ _ G)|]. rewrite Hb2, Hjs.
      cbn [connection_instances set_components set_connection_instances]. apply below_seq.
      rewrite length_app. lia.
    + intros [] b3 (Hs3 & Hb3 & _). by rewrite Hb3.
Qed.

Lemma wp_group {A B} (m : Build A) (u v : A → Build ()) (rest : Build B) Q b :
  wp (a ← m; u a ;; v a) (λ _, wp rest Q) b → wp (a ← m; u a ;; v a ;; rest) Q b.
Proof.
  intros ([] & b' & E & c & b'' & E' & H). exists c, b''. split; [|done]. revert E. unfold mbind, Build_bind.
  destruct (m b) as [[a b1]| |]; [|done..]. destruct (u a b1) as [[[] b2]| |]; [|done..]. intros E. by rewrite E.
Qed.

(** The contract of [instantiate_component], at a number of levels. *)
Definition instantiates (levels : nat) (inst : Request → Build ComponentInstanceIdx) : Prop :=
  ∀ open rq b, sane b → settled open (arenas b) → room levels (arenas b) (rq_parent rq) → request_ok open rq →
  wp (inst rq) (λ j b', j = length (components (arenas b)) ∧ spawned open (rq_parent rq) [j] b b') b.

Lemma spawned_fills open p js b0 b b' idx c :
  spawned open p js b0 b → length (components (arenas b0)) ≤ idx → components (arenas b) !! idx = Some c →
  sane b' ∧ fills idx (arenas b) (arenas b') →
  spawned open p js b0 b' ∧
    ∃ c', components (arenas b') !! idx = Some c' ∧ children c' = children c ∧ connections c' = connections c.
Proof.
  intros Sp Hl Hc [Hs F]. split; [eapply spawned_grown; [done|done|apply F|done]|].
  destruct (fills_component _ _ _ _ F Hc) as (c' & H1 & _ & H2 & H3). by exists c'.
Qed.

Lemma instantiate_inside_spawned levels inst open p js b0 idx loc tree im pkg c b :
  instantiates levels inst → impl_at loc tree im →
  spawned open p js b0 b → length (components (arenas b0)) ≤ idx → components (arenas b) !! idx = Some c →
  connections c = [] → positions (parents (arenas b)) idx = [] → room levels (arenas b) (Some idx) →
  wp (instantiate_inside g inst idx loc pkg) (λ _ b', spawned open p js b0 b') b.
Proof.
  intros Hinst Him Sp Hl Hc Ec Ep R. unfold instantiate_inside. pose proof (lookup_lt_Some _ _ _ Hc) as Hlt.
  apply wp_bind. eapply wp_mono; [eapply spawned_keeps; [exact Sp|by eapply keeps_impl_chain_members]|].
  intros chain b1 (Sp1 & Hb1 & [R1 R2 R3 R4]). rewrite <- Hb1 in Hc, Ep, R, Hlt.
  apply wp_bind. eapply wp_mono; [eapply fills_forM; [|apply Sp1|exact Hc]; intros; by eapply attach_flow_fills|].
  intros [] b2 F. pose proof (fills_parents _ _ _ (proj2 F)) as Hp2. rewrite <- Hp2 in Ep.
  destruct (spawned_fills _ _ _ _ _ _ _ _ Sp1 Hl Hc F) as (Sp2 & c2 & Hc2 & _ & Ec2). rewrite Ec in Ec2.
  assert (R' : room levels (arenas b2) (Some idx)) by (destruct R as (d & Hd & Hr); exists d; by rewrite Hp2).
  assert (Hlt2 : idx < length (components (arenas b2))) by by eapply lookup_lt_Some.
  apply wp_bind. eapply wp_mono; [apply (instantiate_children_spawned (idx :: open) idx ltac:(by left) levels inst); try done|].
  { intros rq b' H1 H2 H3 H4. eapply wp_mono; [by apply (Hinst (idx :: open))|]. by intros j b'' [_ H]. }
  { apply Sp2. }
  { eapply settled_weaken; [|apply Sp2]. intros x Hx. by right. }
  intros jss b3 [Hs3 St3 Sc3]. assert (Hjs : positions (parents (arenas b3)) idx = concat jss).
  { destruct Sc3 as [_ Sc3 _]. rewrite (Sc3 idx Hlt2), Ep, bool_decide_true; done. }
  assert (Sp3 : spawned (idx :: open) p js b0 b3).
  { split; [done..|]. eapply since_spawn; [apply Sp2|exact Sc3|done]. }
  apply wp_bind. eapply wp_mono; [apply (with_children_spawned open p js b0 b3 idx (concat jss) c2); try done|].
  { by eapply since_lookup. }
  intros [] b4 [Sp4 (c4 & Hc4 & Ec4 & El4)]. apply wp_bind.
  eapply wp_mono; [eapply spawned_keeps; [exact Sp4|]|].
  { eapply (keeps_mapM _ _ (λ _, True)). intros k Hk. eapply keeps_mono; [apply keeps_the_component|done].
    rewrite <- Hjs in Hk. apply positions_elem, lookup_lt_Some in Hk. unfold parents in Hk. by rewrite length_fmap, <- El4 in Hk. }
  intros children b5 (Sp5 & Hb5 & _). rewrite <- Hb5 in Hc4. rewrite Ec2 in Ec4.
  apply wp_group. eapply wp_mono; [eapply instantiate_connections_grown; [apply Sp5|exact Hc4|done|exact R2|exact R4]|].
  intros [] b6 [Hs6 G6]. pose proof (spawned_grown _ _ _ _ _ _ _ Sp5 Hs6 G6 Hl) as Sp6.
  destruct (grown_at _ _ _ G6) as (_ & c6 & _ & Hc6 & _).
  apply wp_bind. eapply wp_mono; [eapply fills_forM; [|exact Hs6|exact Hc6]|].
  { intros e c' b' He Hs' Hc'. eapply e2e_fills; [done|exact Hc'|]. rewrite Forall_forall in R3. by apply R3. }
  intros [] b7 F7. destruct (spawned_fills _ _ _ _ _ _ _ _ Sp6 Hl Hc6 F7) as (Sp7 & c7 & Hc7 & _).
  eapply wp_mono; [eapply modes_fills; [apply F7|exact Hc7]|]. intros [] b8 F8.
  by eapply spawned_fills.
Qed.

(** ** [instantiate_component] *)

Lemma room_below levels c i :
  room (S levels) i (parent c) → room levels (appended c i) (Some (length (components i))).
Proof.
  intros R. assert (Hl : parents (appended c i) !! length (components i) = Some (parent c)).
  { rewrite parents_appended. apply list_lookup_middle. unfold parents. by rewrite length_fmap. }
  unfold room in *. destruct (parent c) as [p|].
  - destruct R as (d & Hd & Hr). exists (S d). split; [|lia]. eapply depth_child; [done|]. rewrite parents_appended.
    by apply depth_prefix.
  - exists 0. destruct R as [_ R]. split; [by apply depth_root|lia].
Qed.

Lemma allocate_spawned levels open rq b :
  sane b → settled open (arenas b) → room levels (arenas b) (rq_parent rq) → request_ok open rq →
  wp (allocate_component g rq) (λ '(idx, type_loc, impl_loc, pkg) b', idx = length (components (arenas b)) ∧
    spawned open (rq_parent rq) [idx] b b' ∧ type_loc_ok type_loc ∧ impl_loc_ok impl_loc ∧
    ∃ c, bare c ∧ parent c = rq_parent rq ∧ arenas b' = appended c (arenas b)) b.
Proof.
  intros Hs St R [Hp _]. unfold allocate_component.
  apply wp_bind. eapply wp_mono; [apply wp_keeps; [done|apply keeps_resolve]|]. intros r b1 (Hs1 & Hb1 & Hr).
  apply resolved_declared in Hr.
  apply wp_bind. eapply wp_mono; [apply (wp_keeps _ _ (λ x, impl_loc_ok x.1.2)); [done|]|].
  { destruct r as [?|p loc|?|];
      try (eapply keeps_bind; [apply keeps_push_diagnostic|]; intros [] _; by apply keeps_ret).
    destruct Hr as (_ & tree & c & Hc). destruct (get_impl _ _ _ Hc) as [Hget _].
    eapply (keeps_bind _ _ _ (λ _, True)); [apply keeps_lift; by exists (Some c)|]. intros o _. apply keeps_ret.
    by exists tree, c. }
  intros [[cat impl_loc] pkg] b2 (Hs2 & Hb2 & Him). cbn in Him.
  apply wp_bind. eapply wp_mono; [apply wp_keeps; [done|apply keeps_resolve]|]. intros r2 b3 (Hs3 & Hb3 & Hr2).
  apply resolved_declared in Hr2. rewrite Hb2, Hb1 in Hb3. rewrite <- Hb3 in St, R.
  apply wp_bind. eapply wp_mono; [by apply (wp_allocate levels open)|]. intros idx b4 (-> & [H1 H2 H3] & Hb4).
  apply wp_ret. rewrite <- Hb3. cbn [parent fresh_component] in H3. split_and!; [done| | |done|].
  - split; [done|done|by rewrite <- Hb3].
  - destruct r2 as [p loc|?|?|]; try done. by destruct Hr2 as [_ Hr2].
  - eexists. split; [|split; [|exact Hb4]]; done.
Qed.

Lemma instantiate_component_spawned levels : instantiates levels (instantiate_component g levels).
Proof.
  induction levels as [|levels IH]; intros open rq b Hs St R Hrq; cbn [instantiate_component].
  all: apply wp_bind; eapply wp_mono; [by eapply allocate_spawned|].
  all: intros [[[idx type_loc] impl_loc] pkg] b1 (Hidx & Sp1 & Hty & Him & c & Hbare & Hpar & Hb1).
  all: pose proof (appended_last c (arenas b)) as Hc; rewrite <- Hb1, <- Hidx in Hc.
  all: pose proof (lookup_lt_Some _ _ _ Hc) as Hlt; assert (Hle : length (components (arenas b)) ≤ idx) by lia.
  all: apply wp_bind; eapply wp_mono; [eapply spawned_keeps; [exact Sp1|apply keeps_build_property_map; [done..|apply Hrq]]|].
  all: intros [] b2 (Sp2 & Hb2 & _); rewrite <- Hb2 in Hc.
  all: apply wp_bind; eapply wp_mono; [eapply populate_filled; [exact Sp2|done|exact Hc|apply Hbare|done]|].
  all: intros [] b3 [Sp3 F3]; destruct (fills_component _ _ _ _ F3 Hc) as (c3 & Hc3 & _ & _ & Ec3).
  all: rewrite (proj2 (proj2 Hbare)) in Ec3.
  all: apply wp_bind; eapply wp_mono; [eapply spawned_keeps; [exact Sp3|by apply keeps_project_emv2]|].
  all: intros [] b4 (Sp4 & Hb4 & _); apply wp_bind.
  all: apply (wp_mono _ (λ _ b', spawned open (rq_parent rq) [idx] b b'));
    [|intros [] b5 Sp5; apply wp_ret; split; [exact Hidx|exact Sp5]].
  - destruct impl_loc as [loc|]; [|by apply wp_ret].
    eapply wp_mono; [eapply spawned_keeps; [exact Sp4|apply keeps_push_diagnostic]|]. by intros [] b5 [Sp5 _].
  - destruct impl_loc as [loc|]; [|by apply wp_ret]. destruct Him as (tree & im & Him). rewrite <- Hb4 in Hc3.
    assert (Epar : parents (arenas b4) = parents (appended c (arenas b)))
      by (by rewrite Hb4, (fills_parents _ _ _ F3), Hb2, Hb1).
    eapply instantiate_inside_spawned; [exact IH|exact Him|exact Sp4|done|exact Hc3|exact Ec3| |].
    + rewrite Epar, Hidx. apply no_children_yet; [apply Hs|]. intros p Hp. rewrite Hpar in Hp. rewrite Hp in R. by eapply room_parent.
    + rewrite <- Hpar in R. destruct (room_below _ _ _ R) as (d & Hd & Hr). exists d. by rewrite Epar, Hidx.
Qed.

(** ** The passes over the properties *)

Section passes.
Context (inst : SystemInstance) (Ha : sane_arenas (blank inst)).

Lemma pass_component k : k < length (components inst) →
  ∃ c, component inst k = Done c ∧ components inst !! k = Some c ∧ lists_ok (blank inst) c.
Proof.
  intros Hk. destruct (arena_get_lt (components inst) k Hk) as (c & Hg' & Hc). exists c. split_and!; [done..|].
  by apply (sa_lists _ Ha k).
Qed.

Lemma find_child_total seg cs : below (length (components inst)) cs →
  ∃ o, find_child inst seg cs = Done o ∧ from_option (λ k, k < length (components inst)) True o.
Proof.
  induction 1 as [|k cs Hk _ IH]; [by exists None|]. cbn [find_child]. destruct (pass_component k Hk) as (c & -> & _).
  cbn [mbind Exec_bind]. destruct (eq_ignore_ascii_case _ _); [by exists (Some k)|exact IH].
Qed.

Lemma find_named_total {A} (arena : list A) name_of seg is_ : below (length arena) is_ →
  ∃ o, find_named arena name_of seg is_ = Done o.
Proof.
  induction 1 as [|k is_ Hk _ IH]; [by exists None|]. cbn [find_named]. destruct (arena_get_lt arena k Hk) as (a & -> & _).
  cbn [mbind Exec_bind]. destruct (eq_ignore_ascii_case _ _); [by exists (Some k)|exact IH].
Qed.

Lemma walk_path_total segs : ∀ k, k < length (components inst) → ∃ t, walk_path inst k segs = Done t.
Proof.
  induction segs as [|seg segs IH]; intros k Hk; [by eexists|]. cbn [walk_path].
  destruct (pass_component k Hk) as (c & -> & _ & [L1 L2 L3 _ _ _]). cbn [mbind Exec_bind].
  destruct (find_child_total seg (children c) L1) as (o & -> & Ho). cbn [mbind Exec_bind].
  destruct o as [j|]; [by apply IH|]. destruct segs as [|seg' segs]; [|by eexists].
  destruct (find_named_total (feature_instances inst) feat_name seg (features c) L2) as (o & ->). cbn [mbind Exec_bind].
  destruct o; [by eexists|].
  destruct (find_named_total (connection_instances inst) conn_name seg (connections c) L3) as (o & ->). by eexists.
Qed.

Lemma nearest_total fuel b idx keys : built b = inst → ∀ o,
  (∀ a, o = Some a → a < fuel ∧ a < length (components inst)) → ∃ r, nearest fuel b idx keys o = Done r.
Proof.
  intros Hb. induction fuel as [|fuel IH]; intros [a|] Ho; try (by exists []); [by destruct (Ho a eq_refl); lia|].
  cbn [nearest]. rewrite Hb. destruct (Ho a eq_refl) as [H1 H2]. destruct (source_keys _ _ _) eqn:E; [|by eexists].
  destruct (pass_component a H2) as (c & -> & Hc & _). cbn [mbind Exec_bind]. apply IH. intros p Hp.
  pose proof (sa_parent _ Ha a c Hc) as Hlt. rewrite Hp in Hlt. lia.
Qed.

Lemma inherit_one_total b idx c p : built b = inst → components inst !! idx = Some c → ∃ r, inherit_one b (idx, c) p = Done r.
Proof.
  intros Hb Hc. unfold inherit_one. destruct (negb _); [by eexists|].
  match goal with |- context [if ?x then _ else _] => destruct x end; [by eexists|]. apply nearest_total; [done|].
  intros a E. rewrite Hb. pose proof (sa_parent _ Ha idx c Hc) as Hlt. rewrite E in Hlt.
  apply lookup_lt_Some in Hc. lia.
Qed.
End passes.

Lemma keeps_attach i owner path prop binding :
  owner < length (components i) → keeps i (attach_applies_to owner path prop binding) (λ _, True).
Proof.
  intros Ho. unfold attach_applies_to.
  apply (keeps_bind _ _ _ (λ inst, blank inst = i ∧ sane_arenas i)).
  { apply keeps_gets. intros b Hs <-. split; [done|apply Hs]. }
  intros inst [<- Ha]. apply (keeps_bind _ _ _ (λ _, True)).
  { apply keeps_lift. destruct (walk_path_total inst Ha (segments (Ascii.eqb "."%char) path) owner Ho) as [t Ht]. by exists t. }
  intros t _. destruct t as [t|t|t|]; try by apply keeps_on_built.
  apply (keeps_bind _ _ _ (λ _, True)); [by apply keeps_gets|]. intros fb _.
  apply (keeps_bind _ _ _ (λ _, True)); [apply keeps_modify; intros b Hs Hi; split; [by apply (sane_same b)|done]|]. intros [] _.
  apply (keeps_bind _ _ _ (λ _, True)); [by apply keeps_on_built|]. intros [] _.
  eapply keeps_bind; [by apply keeps_the_component|]. intros o _. apply keeps_push_diagnostic.
Qed.

Lemma keeps_resolve_pending i : keeps i resolve_pending_applies_to (λ _, True).
Proof.
  unfold resolve_pending_applies_to.
  apply (keeps_bind _ _ _ (λ ps : list PendingAppliesTo, Forall (λ p, p.1.1.1 < length (components i)) ps)).
  { apply keeps_gets. intros b Hs <-. apply Hs. }
  intros ps Hps. rewrite Forall_forall in Hps.
  apply (keeps_bind _ _ _ (λ _, True)).
  { apply keeps_modify. intros b [H1 H2 H3] Hi. by split. }
  intros [] _. apply keeps_forM. intros [[[owner path] prop] binding] Hin. specialize (Hps _ Hin). cbn in Hps.
  unfold attach_pending. destruct (segments _ path); [by apply keeps_attach|]. apply keeps_forM. intros e _. by apply keeps_attach.
Qed.

Lemma keeps_inherit i : keeps i inherit_properties (λ _, True).
Proof.
  unfold inherit_properties. apply (keeps_bind _ _ _ (λ b, sane b)); [by apply keeps_gets|]. intros b Hs.
  apply (keeps_bind _ _ _ (λ _, True)); [|intros additions _; by apply keeps_on_built].
  apply keeps_lift. match goal with |- context [concatM ?h ?xs] => destruct (concatM_returns h xs) as [r ->]; [|by exists r] end.
  intros [idx c] Hin%all_components_elem. apply concatM_returns. intros p _.
  apply (inherit_one_total (built b)); [apply Hs|done|done].
Qed.

(** ** The root *)

Lemma depth_exists i k : sane_arenas i → k < length (components i) → ∃ d, depth_is (parents i) k d ∧ d ≤ D.
Proof.
  intros H Hk. assert (∃ d, depth_is (parents i) k d) as [d Hd]; [|exists d; split; [done|by eapply sa_depth]].
  induction k as [k IH] using lt_wf_ind. destruct (lookup_lt_is_Some_2 _ _ Hk) as [c Hc].
  assert (Hp : parents i !! k = Some (parent c)) by (unfold parents; by rewrite list_lookup_fmap, Hc).
  pose proof (sa_parent _ H k c Hc) as Hlt. destruct (parent c) as [p|]; [|exists 0; by apply depth_root].
  destruct (IH p Hlt) as [d Hd]; [lia|]. exists (S d). by eapply depth_child.
Qed.

(** A builder with no instances. *)
Lemma empty_sane b : arenas b = blank empty_instance → pending_applies_to b = [] → refined_origins b = ∅ →
  sane b ∧ settled [] (arenas b).
Proof.
  intros E1 E2 E3. rewrite E1. split; [|by split].
  split; [rewrite E1|by rewrite E2|by rewrite E3].
  split; try constructor; try done; intros k d H; [|done..]. inversion H as [? Hk|? ? ? Hk]; by destruct k.
Qed.
End invariant.
