(* ===== verification/Instantiate.v ===== *)
(** * The instance of a system

    [SystemInstance::instantiate] of [crates/spar-hir-def/src/instance.rs]:
    the builder's expansion of the root implementation, the passes over its
    properties, the connections of feature groups, and what instantiation
    promises. *)
From S2P Require Import Prelude.
From S2P Require Import Diagnostics.
From S2P Require Import CategoryRules.
From S2P Require Import Names.
From S2P Require Import PropertyExpr.
From S2P Require Import ItemTree.
From S2P Require Import PropertyMap.
From S2P Require Import Instance.
From S2P Require Import Semantic.
From S2P Require Import Soms.
From S2P Require Import StandardProperties.
From S2P Require Import Quantities.
From S2P Require Import Resolver.
From S2P Require Import FeatureGroups.
From S2P Require Import Containment.
From S2P Require Import Builder.
From S2P Require Import BuilderSpec.
From Stdlib Require Import Ascii String.
From stdpp Require Import gmap strings pretty.
#[local] Open Scope string_scope.

(** ** The connections of feature groups *)

(** crates/spar-hir-def/src/instance.rs:1386-1391 [make_expanded_name] *)
Definition make_expanded_name (fg_name : Name) (prefix : option Name) (feature_name : Name) : Name :=
  match prefix with
  | Some p => fg_name +:+ "." +:+ p +:+ "." +:+ feature_name
  | None => fg_name +:+ "." +:+ feature_name
  end.

(** crates/spar-hir-def/src/instance.rs:1394-1407 [feature_kind_to_connection_kind] *)
Definition feature_kind_to_connection_kind (kind : FeatureKind) : ConnectionKind :=
  match kind with
  | DataPort | EventPort | EventDataPort => PortConnection
  | Parameter_ => ParameterConnection
  | DataAccess | BusAccess | SubprogramAccess | SubprogramGroupAccess => AccessConnection
  | FeatureGroup => FeatureGroupConnection
  | AbstractFeature => FeatureConnection
  end.

(** crates/spar-hir-def/src/instance.rs:1077-1089 [SystemInstance::resolve_endpoint_component] *)
Definition resolve_endpoint_component (inst : SystemInstance) (owner : ComponentInstanceIdx) (sub : option Name)
  : Exec (option ComponentInstanceIdx) :=
  match sub with
  | Some sub_name => matches ← find_children_by_name inst owner sub_name; Done (head matches)
  | None => Done (Some owner)
  end.

(** crates/spar-hir-def/src/instance.rs:1122-1135 [SystemInstance::expand_endpoint_feature_group]: the
    search of the features of the type. *)
Fixpoint expand_declared (g : GlobalScope) (comp : ComponentInstance) (tree_idx : nat) (feature_name : Name)
    (idxs : list ItemIdx) : Exec (option (list ExpandedFeature)) :=
  match idxs with
  | [] => Done None
  | feat_idx :: idxs =>
      o ← get_feature g tree_idx feat_idx;
      match o with
      | None => Done None
      | Some feat =>
          if eq_ci (ft_name feat) feature_name && bool_decide (ft_kind feat = FeatureGroup) then
            match ft_classifier feat with
            | Some cls_ref =>
                fs ← expand_feature_group g (default (comp_package comp) (package cls_ref)) (type_name cls_ref) false;
                Done (Some fs)
            | None => Done None
            end
          else expand_declared g comp tree_idx feature_name idxs
      end
  end.

(** crates/spar-hir-def/src/instance.rs:1095-1139 [SystemInstance::expand_endpoint_feature_group] *)
Definition expand_endpoint_feature_group (g : GlobalScope) (inst : SystemInstance) (i : ComponentInstanceIdx)
    (feature_name : Name) : Exec (option (list ExpandedFeature)) :=
  comp ← component inst i;
  fs ← mapM (arena_get (feature_instances inst)) (features comp);
  if negb (existsb (λ f, eq_ci (feat_name f) feature_name && bool_decide (feat_kind f = FeatureGroup)) fs) then Done None
  else
    resolved ← resolve_classifier g (comp_package comp)
      {| package := Some (comp_package comp); type_name := comp_type_name comp; impl_name := None |};
    match resolved with
    | ResolvedType _ loc =>
        o ← get_component_type g loc;
        match o with
        | Some ct => expand_declared g comp (loc_tree loc) feature_name (ct_features ct)
        | None => Done None
        end
    | _ => Done None
    end.

(** crates/spar-hir-def/src/instance.rs:1026-1062 [SystemInstance::expand_feature_group_connections]: the
    match of one feature of the source. *)
Definition connect_member (ci : ConnectionInstanceIdx) (cname : Name) (s d : ConnectionEnd)
    (src_idx dst_idx : ComponentInstanceIdx) (dst_features : list ExpandedFeature) (sf : ExpandedFeature)
  : SemanticConnection + InstanceDiagnostic :=
  match List.find (λ df, eq_ci (ef_feature_name sf) (ef_feature_name df)) dst_features with
  | Some df =>
      inl {| sem_name := cname +:+ "." +:+ ef_feature_name sf;
             sem_kind := feature_kind_to_connection_kind (ef_feature_kind sf);
             ultimate_source := (src_idx, make_expanded_name (feature s) (ef_group_prefix sf) (ef_feature_name sf));
             ultimate_destination := (dst_idx, make_expanded_name (feature d) (ef_group_prefix df) (ef_feature_name df));
             connection_path := [ci] |}
  | None =>
      inr {| inst_message := "feature group connection '" +:+ cname +:+ "': source feature '" +:+ ef_feature_name sf +:+
               "' has no matching destination feature (STPA-REQ-011)";
             inst_path := [cname; ef_feature_name sf] |}
  end.

(** crates/spar-hir-def/src/instance.rs:992-1063 [SystemInstance::expand_feature_group_connections]: one
    connection. *)
Definition expand_connection (g : GlobalScope) (inst : SystemInstance) (ci : ConnectionInstanceIdx)
  : Exec (list (SemanticConnection + InstanceDiagnostic)) :=
  conn ← connection inst ci;
  if negb (bool_decide (conn_kind conn = FeatureGroupConnection)) then Done []
  else
    match src conn, dst conn with
    | Some s, Some d =>
        sc ← resolve_endpoint_component inst (conn_owner conn) (subcomponent s);
        dc ← resolve_endpoint_component inst (conn_owner conn) (subcomponent d);
        match sc, dc with
        | Some src_idx, Some dst_idx =>
            sfs ← expand_endpoint_feature_group g inst src_idx (feature s);
            dfs ← expand_endpoint_feature_group g inst dst_idx (feature d);
            match sfs, dfs with
            | Some src_features, Some dst_features =>
                Done (map (connect_member ci (conn_name conn) s d src_idx dst_idx dst_features) src_features)
            | _, _ => Done []
            end
        | _, _ => Done []
        end
    | _, _ => Done []
    end.

(** crates/spar-hir-def/src/instance.rs:984-1070 [SystemInstance::expand_feature_group_connections] *)
Definition expand_feature_group_connections (g : GlobalScope) (inst : SystemInstance) : Exec SystemInstance :=
  rs ← concatM (expand_connection g inst) (seq 0 (List.length (connection_instances inst)));
  let expanded := omap (λ r, match r with inl sc => Some sc | inr _ => None end) rs in
  let unmatched := omap (λ r, match r with inl _ => None | inr d => Some d end) rs in
  Done (set_diagnostics (diagnostics inst ++ unmatched)%list
          (set_semantic_connections (semantic_connections inst ++ expanded)%list inst)).

(** ** Instantiation *)

(** crates/spar-hir-def/src/instance.rs:252-272 [SystemInstance::instantiate]: the builder
    it starts with. *)
Definition new_builder : Builder :=
  {| built := empty_instance; refined_origins := ∅; pending_applies_to := []; applies_to_fallbacks := ∅;
     features_complete := ∅; feature_chain_incomplete := false |}.

(** crates/spar-hir-def/src/instance.rs:274-303 [SystemInstance::instantiate]: the work of
    the builder. *)
Definition build_instance (g : GlobalScope) (levels : nat) (root_package root_type root_impl : Name)
  : Build ComponentInstanceIdx :=
  cycle ← lift (detect_circular_containment g root_package root_type root_impl);
  forM_ (λ msg, push_diagnostic {| inst_message := msg; inst_path := [root_type] |}) (option_list cycle) ;;
  idx ← instantiate_component g levels
          {| rq_name := root_type +:+ "." +:+ root_impl; rq_from_package := root_package;
             rq_classifier_package := Some root_package; rq_type_name := root_type; rq_impl_name := root_impl;
             rq_parent := None; rq_subcomponent := None |};
  resolve_pending_applies_to ;;
  inherit_properties ;;
  mret idx.

(** crates/spar-hir-def/src/instance.rs:246-326 [SystemInstance::instantiate]: to a given
    depth. *)
Definition instantiate_to (g : GlobalScope) (levels : nat) (root_package root_type root_impl : Name)
  : Exec SystemInstance :=
  '(idx, b) ← build_instance g levels root_package root_type root_impl new_builder;
  inst ← compute_semantic_connections (set_root idx (built b));
  inst ← expand_feature_group_connections g inst;
  compute_soms inst.

(** crates/spar-hir-def/src/instance.rs:252-272 [SystemInstance::instantiate]: to the
    depth of the builder. *)
Definition instantiate (g : GlobalScope) (root_package root_type root_impl : Name) : Exec SystemInstance :=
  instantiate_to g max_depth root_package root_type root_impl.
#[local] Close Scope string_scope.

(** ** Instantiation returns a tree *)

Section expansion.
Context (ts : list ItemTree) (g : GlobalScope).
Hypothesis (Hok : Forall well_indexed ts) (Hg : from_trees ts = Done g).
Context (inst : SystemInstance) (Hwf : wf_instance inst).
Hypothesis (Hfeatures : ∀ k c, components inst !! k = Some c → Forall (λ f, f < length (feature_instances inst)) (features c)).

Lemma endpoint_total owner sub : owner < length (components inst) →
  ∃ o, resolve_endpoint_component inst owner sub = Done o ∧ from_option (λ k, k < length (components inst)) True o.
Proof.
  intros Ho. unfold resolve_endpoint_component. destruct sub as [s|]; [|by exists (Some owner)].
  destruct (find_children_spec inst Hwf owner s Ho) as (is_ & -> & His). cbn [mbind Exec_bind]. eexists. split; [done|].
  destruct is_ as [|i is_]; [done|]. cbn. eapply (names_child_range inst), His. by left.
Qed.

Lemma endpoint_group_total i feat : i < length (components inst) →
  ∃ o, expand_endpoint_feature_group g inst i feat = Done o.
Proof.
  intros Hi. unfold expand_endpoint_feature_group. destruct (arena_get_lt _ _ Hi) as (c & Hc & Hl). unfold component. rewrite Hc.
  cbn [mbind Exec_bind]. destruct (mapM_arena _ _ (Hfeatures _ _ Hl)) as (fs & -> & _). cbn [mbind Exec_bind].
  destruct (negb _); [by eexists|].
  match goal with |- context [resolve_classifier g ?p ?r] => destruct (resolved_total ts g Hok Hg p r) as [res Hres] end.
  rewrite Hres. cbn [mbind Exec_bind]. pose proof (resolved_declared ts g Hok Hg _ _ _ Hres) as Hd.
  destruct res as [p loc|?|?|]; try by eexists. destruct Hd as (_ & tree & ct & Hct).
  destruct (get_type ts g Hok Hg _ _ _ Hct) as [-> Ht]. cbn [mbind Exec_bind].
  destruct (type_indexed ts Hok _ _ _ Hct) as [(Hfs & _) _].
  induction Hfs as [|f fs' [ft Hft] _ IH]; [by eexists|]. cbn [expand_declared]. unfold get_feature. rewrite Ht.
  rewrite (proj2 (arena_get_Some _ _ _) Hft). cbn [mbind Exec_bind]. destruct (_ && _); [|done].
  destruct (ft_classifier ft) as [cls|]; [|by eexists].
  destruct (expand_feature_group_total ts g Hok Hg (default (comp_package c) (package cls)) (type_name cls) false) as [ms ->].
  by eexists.
Qed.

Lemma expand_connection_total ci : ci < length (connection_instances inst) → ∃ r, expand_connection g inst ci = Done r.
Proof.
  intros Hci. unfold expand_connection. destruct (arena_get_lt _ _ Hci) as (conn & Hc & Hl). unfold connection. rewrite Hc.
  cbn [mbind Exec_bind]. destruct (negb _); [by eexists|]. pose proof (wf_owner _ Hwf _ _ Hl) as Ho.
  destruct (src conn) as [s|]; [|by eexists]. destruct (dst conn) as [d|]; [|by eexists].
  destruct (endpoint_total (conn_owner conn) (subcomponent s) Ho) as (so & -> & Hs). cbn [mbind Exec_bind].
  destruct (endpoint_total (conn_owner conn) (subcomponent d) Ho) as (do_ & -> & Hd). cbn [mbind Exec_bind].
  destruct so as [si|]; [|by eexists]. destruct do_ as [di|]; [|by eexists].
  destruct (endpoint_group_total si (feature s) Hs) as (sf & ->). cbn [mbind Exec_bind].
  destruct (endpoint_group_total di (feature d) Hd) as (df & ->). cbn [mbind Exec_bind].
  destruct sf, df; by eexists.
Qed.

Lemma expand_connections_total : ∃ ds scs, expand_feature_group_connections g inst =
  Done (set_diagnostics ds (set_semantic_connections scs inst)).
Proof.
  unfold expand_feature_group_connections.
  destruct (concatM_returns (expand_connection g inst) (seq 0 (length (connection_instances inst)))) as [rs ->]; [|by eexists _, _].
  intros ci Hci%elem_of_seq. apply expand_connection_total. lia.
Qed.
End expansion.

(** ** Where references are resolved from *)

(** The contexts that the maps of components and connections record. *)
Definition contexts (P : nat → Prop) (i : SystemInstance) : Prop :=
  (∀ j m, property_maps i !! j = Some m → map_Forall (λ _, P) (ref_ctx m)) ∧
  (∀ j m, connection_property_maps i !! j = Some m → map_Forall (λ _, P) (ref_ctx m)).

Lemma contexts_mono (P Q : nat → Prop) i : (∀ j, P j → Q j) → contexts P i → contexts Q i.
Proof. intros H [H1 H2]. split; intros j m Hm k c Hc; apply H; [by apply (H1 j m Hm k)|by apply (H2 j m Hm k)]. Qed.

Lemma wp_eq {A} (m : Build A) Q b : wp m Q b → wp m (λ a b', Q a b' ∧ m b = Done (a, b')) b.
Proof. intros (a & b' & E & HQ). by exists a, b'. Qed.

(** [stays I m Q]: if [m] returns from a state of which [I] holds then [I] holds
    of the state it leaves, and [Q] of what it returns. *)
Definition stays {A} (I : Builder → Prop) (m : Build A) (Q : A → Prop) : Prop :=
  ∀ b a b', m b = Done (a, b') → I b → I b' ∧ Q a.

Section stays.
Context (I : Builder → Prop).

Lemma stays_ret {A} (a : A) (Q : A → Prop) : Q a → stays I (mret a) Q.
Proof. by intros HQ b ? ? [= <- <-] Hb. Qed.

Lemma stays_bind {A B} (m : Build A) (k : A → Build B) P Q : stays I m P → (∀ a, P a → stays I (k a) Q) → stays I (m ≫= k) Q.
Proof.
  intros Hm Hk b c b' H Hb. unfold mbind, Build_bind in H. destruct (m b) as [[a b1]| |] eqn:E; try done.
  destruct (Hm b a b1 E Hb) as [Hb1 Ha]. by eapply (Hk a Ha b1).
Qed.

Lemma stays_lift {A} (m : Exec A) : stays I (lift m) (λ a, m = Done a).
Proof. intros b a b' H Hb. unfold lift in H. by apply Exec_bind_Done in H as (x & ? & [= <- <-]). Qed.

Lemma stays_gets {A} (f : Builder → A) : stays I (gets f) (λ _, True).
Proof. by intros b ? ? [= <- <-] Hb. Qed.

Lemma stays_modify f : (∀ b, I b → I (f b)) → stays I (modify f) (λ _, True).
Proof. intros H b ? ? [= <- <-] Hb. split; [by apply H|done]. Qed.

Lemma stays_stuck {A} Q : stays I (λ _, @Stuck (A * Builder)) Q.
Proof. by intros b a b' H. Qed.

Lemma stays_mono {A} (m : Build A) (P Q : A → Prop) : stays I m P → (∀ a, P a → Q a) → stays I m Q.
Proof. intros H HPQ b a b' E Hb. destruct (H b a b' E Hb). auto. Qed.

Lemma stays_forM {A} (f : A → Build ()) xs : (∀ x, x ∈ xs → stays I (f x) (λ _, True)) → stays I (forM_ f xs) (λ _, True).
Proof.
  intros H. induction xs as [|x xs IH]; [by apply stays_ret|]. eapply stays_bind; [apply H; by left|]. intros _ _. apply IH.
  intros. apply H. by right.
Qed.

Lemma stays_foldB {A B} (f : A → B → Build A) (P : A → Prop) a bs : P a → (∀ a x, P a → stays I (f a x) P) → stays I (foldB f a bs) P.
Proof.
  intros Ha H. revert a Ha. induction bs as [|x bs IH]; intros a Ha; [by apply stays_ret|]. eapply stays_bind; [by apply H|]. done.
Qed.

Lemma stays_mapM {A B} (f : A → Build B) xs : (∀ x, stays I (f x) (λ _, True)) → stays I (mapM f xs) (λ _, True).
Proof.
  intros H. induction xs as [|x xs IH]; [by apply stays_ret|]. cbn. eapply stays_bind; [apply H|]. intros y _.
  eapply stays_bind; [apply IH|]. intros ys _. by apply stays_ret.
Qed.

(** What a program that returns leaves. *)
Lemma wp_stays {A} (m : Build A) Q P b : wp m Q b → stays I m P → I b → wp m (λ a b', Q a b' ∧ I b' ∧ P a) b.
Proof.
  unfold wp. intros (a & b' & E & HQ) Hm Hb. exists a, b'. split; [done|]. split; [done|]. by apply (Hm b a b').
Qed.
End stays.

(** While components are instantiated no map records a context. *)
Abbreviation quiet m Q := (stays (λ b, contexts (λ _, False) (built b)) m Q).
Abbreviation silently m := (quiet m (λ _, True)).

(** Steps of a program that writes no map of properties. *)
Ltac quiet_step :=
  lazymatch goal with
  | |- stays _ (mret _) _ => apply stays_ret
  | |- stays _ (mbind _ _) (λ _, True) => apply (stays_bind _ _ _ (λ _, True)); [|intros ? _]
  | |- stays _ (lift _) _ => eapply stays_mono; [apply stays_lift|done]
  | |- stays _ (gets _) _ => apply stays_gets
  | |- stays _ (modify _) _ => apply stays_modify; intros ? ?; assumption
  | |- stays _ (forM_ _ _) _ => apply stays_forM; intros ? _
  | |- stays _ (foldB _ _ _) _ => apply stays_foldB; [exact Logic.I|intros ? ? _]
  | |- stays _ (mapM _ _) _ => apply stays_mapM; intros ?
  | |- stays _ (match ?x with _ => _ end) _ => destruct x
  | |- stays _ (let _ := _ in _) _ => cbv zeta
  | |- True => exact Logic.I
  | |- stays _ ?m _ => let rec head t := lazymatch t with ?f _ => head f | _ => t end in let h := head m in progress unfold h
  end.

Definition contextless (m : PropertyMap) : Prop := ref_ctx m = ∅.

Lemma add_from_contextless m prop source : contextless m → contextless (add_from m prop source).
Proof. unfold contextless, add_from. intros E. case_bool_decide; [done|]. destruct (pv_is_append prop); cbn; rewrite E; [done|by rewrite delete_empty]. Qed.

Lemma add_modal_contextless m prop source binding : contextless m → contextless (add_modal m prop source binding None).
Proof.
  intros H%(add_from_contextless m prop source). unfold add_modal. destruct binding; [|done]. by destruct (_ && _).
Qed.

Section contexts.
Context (g : GlobalScope).

Lemma push_association_quiet tree owner mode_ctx source m pa : contextless m →
  quiet (push_association tree owner mode_ctx source m pa) contextless.
Proof.
  intros Hm. unfold push_association. eapply stays_bind; [apply stays_lift|]. intros a _. eapply stays_bind; [apply stays_gets|].
  intros pending _. destruct (push_property_association _ _ _ _ _) as [m' pending'] eqn:E.
  assert (contextless m').
  { unfold push_property_association in E. destruct (pa_applies_to a); [case_bool_decide|]; injection E as <- <-;
      [by apply add_modal_contextless|done|by apply add_modal_contextless]. }
  eapply stays_bind; [apply stays_modify; by intros|]. intros _ _. by apply stays_ret.
Qed.

Lemma push_chain_quiet idx source ps m : contextless m → quiet (push_chain g idx source ps m) contextless.
Proof.
  intros Hm. unfold push_chain. apply stays_foldB; [done|]. intros m' [[t pa] c] Hm'.
  destruct (trees g !! t); [by apply push_association_quiet|by apply stays_ret].
Qed.

Lemma push_subcomponent_quiet idx loc m : contextless m → quiet (push_subcomponent_associations g idx loc m) contextless.
Proof.
  intros Hm. unfold push_subcomponent_associations. eapply stays_bind; [apply stays_gets|]. intros origins _.
  apply (stays_bind _ _ _ (λ _, True)); [by repeat quiet_step|]. intros c _. apply stays_foldB; [done|]. intros m' d Hm'.
  destruct (trees g !! d.1) as [tree|]; [|by apply stays_ret]. eapply stays_bind; [apply stays_lift|]. intros sub _.
  apply stays_foldB; [done|]. intros. by apply push_association_quiet.
Qed.

Lemma insert_property_map_quiet idx m : contextless m → silently (insert_property_map idx m).
Proof.
  intros Hm. unfold insert_property_map. case_bool_decide; [by apply stays_ret|]. apply stays_modify. intros b [H1 H2].
  split; [|done]. intros j m'. cbn. destruct (decide (idx = j)) as [->|Hne].
  - rewrite lookup_insert_eq. intros [= <-]. rewrite Hm. apply map_Forall_empty.
  - rewrite lookup_insert_ne by done. apply H1.
Qed.

Lemma build_property_map_quiet idx tl il sl pkg : silently (build_property_map g idx tl il sl pkg).
Proof.
  unfold build_property_map. eapply (stays_bind _ _ _ contextless).
  { destruct tl; [|by apply stays_ret]. eapply stays_bind; [apply stays_lift|]. intros. by apply push_chain_quiet. }
  intros m1 H1. eapply (stays_bind _ _ _ contextless).
  { destruct il; [|by apply stays_ret]. eapply stays_bind; [apply stays_lift|]. intros. by apply push_chain_quiet. }
  intros m2 H2. eapply (stays_bind _ _ _ contextless); [destruct sl; [by apply push_subcomponent_quiet|by apply stays_ret]|].
  intros. by apply insert_property_map_quiet.
Qed.

Lemma leaf_property_map_quiet idx pkg ty loc : silently (build_leaf_property_map g idx pkg ty loc).
Proof.
  unfold build_leaf_property_map. eapply stays_bind; [apply stays_lift|]. intros r _. eapply (stays_bind _ _ _ contextless).
  { destruct r; try by apply stays_ret. eapply stays_bind; [apply stays_lift|]. intros. by apply push_chain_quiet. }
  intros m Hm. eapply stays_bind; [by apply push_subcomponent_quiet|]. intros. by apply insert_property_map_quiet.
Qed.

Lemma anon_property_map_quiet idx loc : silently (build_anon_property_map g idx loc).
Proof.
  unfold build_anon_property_map. eapply stays_bind; [by apply push_subcomponent_quiet|]. intros. by apply insert_property_map_quiet.
Qed.

Lemma connection_properties_quiet idx ci cd : silently (push_connection_properties g idx ci cd).
Proof.
  unfold push_connection_properties. destruct (trees g !! _); [|by apply stays_ret]. eapply stays_bind; [apply stays_lift|]. intros item _.
  eapply (stays_bind _ _ _ contextless); [apply stays_foldB; [done|]; intros; by apply push_association_quiet|].
  intros m Hm. case_bool_decide; [by apply stays_ret|]. apply stays_modify. intros b [H1 H2].
  split; [done|]. intros j m'. cbn. destruct (decide (ci = j)) as [->|Hne].
  - rewrite lookup_insert_eq. intros [= <-]. rewrite Hm. apply map_Forall_empty.
  - rewrite lookup_insert_ne by done. apply H2.
Qed.

Ltac quietly := repeat first [apply build_property_map_quiet | apply leaf_property_map_quiet | apply anon_property_map_quiet
  | apply connection_properties_quiet | assumption | match goal with H : ∀ _, _ |- stays _ _ _ => apply H end | apply stays_stuck | quiet_step].

Lemma type_chain_quiet fuel loc pkg visited : silently (collect_type_chain_features g fuel loc pkg visited).
Proof. revert loc pkg visited. induction fuel as [|fuel IH]; intros loc pkg visited; cbn [collect_type_chain_features]; quietly. Qed.

Lemma impl_chain_quiet fuel loc pkg st : silently (collect_impl_chain_recursive g fuel loc pkg st).
Proof. revert loc pkg st. induction fuel as [|fuel IH]; intros loc pkg st; cbn [collect_impl_chain_recursive]; quietly. Qed.


Lemma find_index_quiet {A} (get : nat → Build A) test is_ : (∀ i, silently (get i)) → silently (find_index get test is_).
Proof. intros H. induction is_ as [|i is_ IH]; cbn [find_index]; quietly. Qed.

Ltac quietly_all := repeat first [apply type_chain_quiet | apply impl_chain_quiet | apply find_index_quiet; intros ? |
  apply build_property_map_quiet | apply leaf_property_map_quiet | apply anon_property_map_quiet
  | apply connection_properties_quiet | assumption | match goal with H : ∀ _, _ |- stays _ _ _ => apply H end | apply stays_stuck | quiet_step].

Lemma populate_quiet idx tl pkg : silently (populate_from_type g idx tl pkg).
Proof. quietly_all. Qed.

Lemma inside_quiet inst idx loc pkg : (∀ rq, silently (inst rq)) → silently (instantiate_inside g inst idx loc pkg).
Proof. intros H. quietly_all. Qed.

Lemma instantiate_component_quiet levels rq : silently (instantiate_component g levels rq).
Proof.
  revert rq. induction levels as [|levels IH]; intros rq; cbn [instantiate_component].
  - quietly_all.
  - pose proof (λ idx loc pkg, inside_quiet (instantiate_component g levels) idx loc pkg IH). quietly_all.
Qed.
End contexts.

(** What is written on a path, and what is inherited, is resolved from a
    component of the instance. *)
Section inside.
Context (n : nat).

Definition inside (i : SystemInstance) : Prop := length (components i) = n ∧ contexts (λ j, j < n) i.

Definition map_inside (m : PropertyMap) : Prop := map_Forall (λ _ j, j < n) (ref_ctx m).

Lemma add_from_inside m prop source : map_inside m → map_inside (add_from m prop source).
Proof.
  unfold map_inside, add_from. intros H. case_bool_decide; [done|]. destruct (pv_is_append prop); cbn; [done|].
  by apply map_Forall_delete.
Qed.

Lemma set_ref_ctx_inside m k c : map_inside m → c < n → map_inside (set_ref_ctx m k c).
Proof. intros H Hc. by apply map_Forall_insert_2. Qed.

Lemma add_modal_inside m prop source binding c : map_inside m → from_option (λ j, j < n) True c →
  map_inside (add_modal m prop source binding c).
Proof.
  intros H%(add_from_inside m prop source) Hc. unfold add_modal. set (m1 := add_from m prop source) in *.
  assert (H1 : map_inside (match c with
    | Some ctx => if negb (bool_decide (trim (pv_value prop) = ""%string)) then set_ref_ctx m1 (key_of (pv_name prop)) ctx else m1
    | None => m1 end)) by (destruct c; [destruct (negb _); [by apply set_ref_ctx_inside|done]|done]).
  destruct binding; [|done]. by destruct (_ && _).
Qed.

Lemma update_map_inside f j (ms : gmap nat PropertyMap) :
  (∀ m, map_inside m → map_inside (f m)) → (∀ k m, ms !! k = Some m → map_inside m) →
  ∀ k m, update_map f j ms !! k = Some m → map_inside m.
Proof.
  intros Hf H k m. unfold update_map. destruct (decide (j = k)) as [->|Hne]; [|rewrite lookup_insert_ne by done; apply H].
  rewrite lookup_insert_eq. intros [= <-]. apply Hf. destruct (ms !! k) eqn:E; [by eapply H|]. apply map_Forall_empty.
Qed.

Abbreviation stays_inside m := (stays (λ b, inside (built b)) m (λ _, True)).

Lemma attach_inside owner path prop binding : owner < n → stays_inside (attach_applies_to owner path prop binding).
Proof.
  intros Ho. unfold attach_applies_to. apply (stays_bind _ _ _ (λ _, True)); [apply stays_gets|]. intros inst _.
  apply (stays_bind _ _ _ (λ _, True)); [quiet_step|]. intros [t|f|c|] _.
  - apply stays_modify. intros b [Hl [H1 H2]]. split; [done|]. split; [|done]. apply update_map_inside; [|done].
    intros. by apply add_modal_inside.
  - apply stays_modify. by intros b [Hl [H1 H2]].
  - apply stays_modify. intros b [Hl [H1 H2]]. split; [done|]. split; [done|]. apply update_map_inside; [|done].
    intros m Hm%(add_from_inside m prop (Contained owner)). unfold add_with_reference_context.
    destruct (negb _); [by apply set_ref_ctx_inside|done].
  - apply (stays_bind _ _ _ (λ _, True)); [apply stays_gets|]. intros fallbacks _.
    apply (stays_bind _ _ _ (λ _, True)); [by apply stays_modify|]. intros _ _.
    apply (stays_bind _ _ _ (λ _, True)).
    { apply stays_modify. intros b [Hl [H1 H2]]. split; [done|]. split; [|done]. apply update_map_inside; [|done].
      intros. by apply add_modal_inside. }
    intros _ _. by repeat quiet_step.
Qed.

Lemma attach_pending_inside p : p.1.1.1 < n → stays_inside (attach_pending p).
Proof.
  destruct p as [[[owner path] prop] binding]. cbn [fst]. intros Ho. unfold attach_pending. destruct (segments _ path) as [|s ss]; [by apply attach_inside|].
  apply stays_forM. intros. by apply attach_inside.
Qed.

Lemma resolve_pending_inside b b' : Forall (λ p : PendingAppliesTo, p.1.1.1 < n) (pending_applies_to b) →
  resolve_pending_applies_to b = Done ((), b') → inside (built b) → inside (built b').
Proof.
  intros Hp E Hb. unfold resolve_pending_applies_to in E.
  assert (H : stays_inside (set_pending [] ;; forM_ attach_pending (pending_applies_to b))).
  { apply (stays_bind _ _ _ (λ _, True)); [by apply stays_modify|]. intros _ _. apply stays_forM. intros p Hin. apply attach_pending_inside.
    rewrite Forall_forall in Hp. by apply Hp. }
  by destruct (H b () b' E Hb).
Qed.

Context (b : Builder) (Hb : inside (built b)) (Hparent : ∀ k c, components (built b) !! k = Some c → from_option (λ p, p < k) True (parent c)).

Lemma additions_inside idx a from : a < n → Forall (λ ad, ad_ctx ad < n) (additions_from b idx a from).
Proof.
  intros Ha. unfold additions_from. destruct (property_maps (built b) !! a) as [m|] eqn:E; [|constructor].
  apply Forall_forall. intros ad (k & Hk & H)%list_elem_of_omap. destruct (values_for_key m k); [|done]. injection H as <-. cbn.
  unfold reference_context_for_key. destruct (ref_ctx m !! k) as [c|] eqn:Ec; [|done]. destruct Hb as [_ [H1 _]]. by apply (H1 a m E k).
Qed.

Lemma nearest_inside fuel idx keys anc ads : from_option (λ a, a < n) True anc → nearest fuel b idx keys anc = Done ads →
  Forall (λ ad, ad_ctx ad < n) ads.
Proof.
  revert anc. induction fuel as [|fuel IH]; intros [a|] Ha; cbn [nearest]; [done|by intros [= <-]| |by intros [= <-]].
  destruct (source_keys b keys a); [|intros [= <-]; by apply additions_inside].
  intros (c & Hc & H)%Exec_bind_Done. eapply IH; [|exact H]. unfold component in Hc. apply arena_get_Some in Hc.
  specialize (Hparent _ _ Hc). cbn in Ha. destruct (parent c); cbn in *; [lia|done].
Qed.

Lemma inherit_inside b' : inherit_properties b = Done ((), b') → inside (built b').
Proof.
  unfold inherit_properties, mbind, Build_bind, gets, lift, id. destruct (concatM _ _) as [ads| |] eqn:E; try done.
  cbn. intros [= <-]. destruct Hb as [Hl [H1 H2]]. split; [done|]. split; [|done]. cbn.
  assert (Hads : Forall (λ ad, ad_ctx ad < n) ads).
  { apply Forall_forall. intros ad Had. apply concatM_Done in E as [_ E]. apply E in Had as ([idx c] & zs & Hin%all_components_elem & Hz & Had).
    apply concatM_Done in Hz as [_ Hz]. apply Hz in Had as (p & ys & _ & Hy & Had). unfold inherit_one in Hy.
    destruct (negb _); [injection Hy as <-; by apply not_elem_of_nil in Had|].
    destruct (match property_maps (built b) !! idx with Some m => _ | None => _ end); [injection Hy as <-; by apply not_elem_of_nil in Had|].
    eapply nearest_inside in Hy; [rewrite Forall_forall in Hy; by apply Hy|]. specialize (Hparent _ _ Hin).
    apply lookup_lt_Some in Hin. destruct (parent c); cbn in *; [lia|done]. }
  clear E. revert H1. generalize (property_maps (built b)). induction Hads as [|ad ads Had _ IH]; intros ms Hms; [done|]. cbn [foldl].
  apply IH. apply update_map_inside; [|done]. intros m Hm. by apply map_Forall_insert_2.
Qed.
End inside.

Lemma sane_parents ts levels b : sane ts levels b →
  ∀ k c, components (built b) !! k = Some c → from_option (λ p, p < k) True (parent c).
Proof. intros Hs k c Hc. pose proof (sa_parent _ _ (sn_arenas _ _ _ Hs) k c Hc) as H. by destruct (parent c). Qed.

(** A reference is resolved from a component of the instance. *)
Definition declared_inside (inst : SystemInstance) : Prop :=
  (∀ i set nm, i < length (components inst) → reference_context_of inst i set nm < length (components inst)) ∧
  ∀ i conn set nm ctx, connection_instances inst !! i = Some conn →
    connection_reference_context inst i set nm = Done ctx → ctx < length (components inst).

Lemma inside_declared inst : wf_instance inst → inside (length (components inst)) inst → declared_inside inst.
Proof.
  intros Hwf [_ [H1 H2]]. split.
  - intros i set nm Hi. unfold reference_context_of, properties_for, reference_context.
    match goal with |- default _ (ref_ctx ?m !! ?k) < _ => destruct (ref_ctx m !! k) as [c|] eqn:E; [cbn|done] end.
    destruct (property_maps inst !! i) as [m|] eqn:Em; [by eapply (H1 i m Em)|done].
  - intros i conn set nm ctx Hc. unfold connection_reference_context. intros (c & Hcc & [= <-])%Exec_bind_Done.
    unfold connection in Hcc. apply arena_get_Some in Hcc. rewrite Hc in Hcc. injection Hcc as <-.
    unfold properties_for_connection, reference_context.
    match goal with |- default _ (ref_ctx ?m !! ?k) < _ => destruct (ref_ctx m !! k) as [c|] eqn:E; [cbn|by apply (wf_owner _ Hwf i)] end.
    destruct (connection_property_maps inst !! i) as [m|] eqn:Em; [by eapply (H2 i m Em)|done].
Qed.

Section instantiation.
Context (ts : list ItemTree) (g : GlobalScope).
Hypothesis (Hok : Forall well_indexed ts) (Hg : from_trees ts = Done g).

(** What the builder leaves. *)
Lemma build_instance_spec levels pkg ty im :
  wp (build_instance g levels pkg ty im) (λ idx b, sane ts levels b ∧ settled [] (arenas b) ∧ idx = 0 ∧
    0 < length (components (arenas b)) ∧ inside (length (components (built b))) (built b)) new_builder.
Proof.
  unfold build_instance. destruct (empty_sane ts levels new_builder eq_refl eq_refl eq_refl) as [Hs St].
  assert (Hi : arenas new_builder = blank empty_instance) by done.
  assert (Hq : contexts (λ _, False) (built new_builder)) by by split.
  revert Hs St Hi Hq. generalize new_builder as b. intros b Hs St Hi Hq.
  apply wp_bind. eapply wp_mono; [eapply (wp_stays (λ b, contexts (λ _, False) (built b))); [apply (wp_keeps ts levels _ _ (λ _, True)); [exact Hs|]|apply stays_lift|exact Hq]|].
  { apply keeps_lift. destruct (detect_returns ts g pkg ty im) as [[-> _]|(msg & _ & _ & -> & _)]; [| | |by eexists..].
    - eapply Forall_impl; [exact Hok|]. apply wi_packages.
    - done.
    - eapply Forall_impl; [exact Hok|]. intros t W. apply (wi_data _ W). }
  intros cycle b1 ((Hs1 & Hb1 & _) & Hq1 & _). apply wp_bind.
  eapply wp_mono; [eapply (wp_stays (λ b, contexts (λ _, False) (built b))); [apply (wp_keeps ts levels _ _ (λ _, True)); [exact Hs1|]| |exact Hq1]|].
  { apply keeps_forM. intros msg _. apply keeps_push_diagnostic. }
  { by repeat quiet_step. }
  intros [] b2 ((Hs2 & Hb2 & _) & Hq2 & _). rewrite Hb1, Hi in Hb2. apply wp_bind.
  eapply wp_mono; [eapply (wp_stays (λ b, contexts (λ _, False) (built b))); [eapply (instantiate_component_spawned ts levels g Hok Hg levels []); [exact Hs2|by rewrite Hb2, <- Hi|..]|
    apply instantiate_component_quiet|exact Hq2]|].
  { rewrite Hb2. by split. }
  { by split. }
  intros idx b3 ((Hidx & [Hs3 St3 Sc3]) & Hq3 & _). rewrite Hb2 in Hidx. cbn in Hidx. subst idx.
  assert (Hpos : 0 < length (components (arenas b3))).
  { eapply (since_child _ _ _ _ 0 Sc3). by left. }
  apply wp_bind. eapply wp_mono; [eapply wp_eq, (wp_keeps ts levels); [exact Hs3|apply keeps_resolve_pending]|].
  intros [] b4 ((Hs4 & Hb4 & _) & E4). apply wp_bind.
  eapply wp_mono; [eapply wp_eq, (wp_keeps ts levels); [exact Hs4|apply keeps_inherit]|].
  intros [] b5 ((Hs5 & Hb5 & _) & E5). apply wp_ret. rewrite Hb5, Hb4. split_and!; try done.
  assert (Hl : components (built b5) = components (built b3)).
  { change (components (arenas b5) = components (arenas b3)). by rewrite Hb5, Hb4. }
  rewrite Hl. eapply (inherit_inside _ b4); [|eapply sane_parents, Hs4|exact E5].
  eapply resolve_pending_inside; [apply (sn_pending _ _ _ Hs3)|exact E4|]. split; [done|].
  eapply contexts_mono; [|exact Hq3]. done.
Qed.

(** A tree of components, of a bounded depth, in which every component lists
    what it owns. *)
Record component_tree (levels : nat) (inst : SystemInstance) : Prop := {
  ct_settled : settled [] inst;
  ct_root k c : components inst !! k = Some c → parent c = None ↔ k = root inst;
  ct_depth k : k < length (components inst) → ∃ d, depth_is (parents inst) k d ∧ d ≤ levels;
}.

(** What holds of the arenas does not depend on the rest of the instance. *)
Definition same_arenas (i i' : SystemInstance) : Prop :=
  components i' = components i ∧ feature_instances i' = feature_instances i ∧
  connection_instances i' = connection_instances i ∧ flow_instances i' = flow_instances i ∧
  e2e_flow_instances i' = e2e_flow_instances i ∧ mode_instances i' = mode_instances i ∧
  mode_transition_instances i' = mode_transition_instances i.

Lemma sane_same_arenas levels i i' : same_arenas i i' → sane_arenas levels i → sane_arenas levels i'.
Proof.
  intros (E1 & E2 & E3 & E4 & E5 & E6 & E7) [H1 H2 H3 H4 H5 H6 H7 H8 H9 H10].
  split; unfold parents, owner_in, feature_owners, connection_owners, flow_owners, mode_owners, transition_owners in *;
    rewrite ?E1, ?E2, ?E3, ?E4, ?E5, ?E6, ?E7; try done.
  intros k c Hk. apply (lists_ok_mono i); [by apply (H3 k c)|rewrite ?E1, ?E2, ?E3, ?E4, ?E6, ?E7; done..].
Qed.

Lemma settled_same_arenas open i i' : same_arenas i i' → settled open i → settled open i'.
Proof.
  intros (E1 & E2 & E3 & E4 & E5 & E6 & E7) [H1 H2 H3 H4 H5 H6].
  split; unfold parents, feature_owners, connection_owners, flow_owners, mode_owners, transition_owners in *;
    rewrite ?E1, ?E2, ?E3, ?E4, ?E5, ?E6, ?E7; done.
Qed.

Lemma sane_tree levels i : sane_arenas levels i → settled [] i → root i = 0 → component_tree levels i.
Proof.
  intros H St E. split; [done| |by intros; apply depth_exists]. intros k c Hk. rewrite E.
  pose proof (sa_parent _ _ H k c Hk) as Hp. destruct (parent c); [|done]. split; [done|]. intros ->. lia.
Qed.

Lemma sane_wf levels i : sane_arenas levels i → root i = 0 → 0 < length (components i) → wf_instance i.
Proof.
  intros [H1 _ H3 _ H5 _ _ _ _ _] E Hl. split; [by rewrite E| | | | | |].
  - intros k c p Hk Hp. specialize (H1 k c Hk). by rewrite Hp in H1.
  - intros k c j Hk. apply below_in, (H3 k c Hk).
  - intros k c j Hk. apply below_in, (H3 k c Hk).
  - intros k c j Hk. apply below_in, (H3 k c Hk).
  - intros k c j Hk. apply below_in, (H3 k c Hk).
  - intros k conn Hk. assert (Hin : Some (conn_owner conn) ∈ connection_owners i).
    { apply list_elem_of_fmap. exists conn. split; [done|by eapply list_elem_of_lookup_2]. }
    rewrite Forall_forall in H5. destruct (H5 _ Hin) as (o & [= ->] & Ho). exact Ho.
Qed.

(** What the passes over the instance leave. *)
Lemma instantiate_to_sane levels pkg ty im :
  ∃ inst, instantiate_to g levels pkg ty im = Done inst ∧ wf_instance inst ∧ sane_arenas levels inst ∧ settled [] inst ∧
    root inst = 0 ∧ Forall (som_in_range inst) (system_operation_modes inst) ∧ declared_inside inst.
Proof.
  unfold instantiate_to. destruct (build_instance_spec levels pkg ty im) as (idx & b & -> & Hs & St & -> & Hpos & Hin).
  cbn [mbind Exec_bind]. set (i := set_root 0 (built b)).
  assert (Hall : ∀ i', same_arenas (arenas b) i' → root i' = 0 → sane_arenas levels i' ∧ settled [] i' ∧ wf_instance i').
  { intros i' Hsame Hr. assert (Ha : sane_arenas levels i') by (eapply sane_same_arenas; [done|apply Hs]).
    split_and!; [done|by eapply settled_same_arenas|]. eapply sane_wf; [done|done|]. by destruct Hsame as [-> _]. }
  destruct (Hall i) as (_ & _ & Hwf); [done..|].
  destruct (contributions_total i Hwf) as (parts & _ & ->). cbn [mbind Exec_bind].
  match goal with |- context [expand_feature_group_connections g ?x] => set (i2 := x) end.
  destruct (Hall i2) as (Ha2 & _ & Hwf2); [done..|].
  destruct (expand_connections_total ts g Hok Hg i2 Hwf2) as (ds & scs & ->).
  { intros k c Hk. apply (sa_lists _ _ Ha2 k c Hk). }
  cbn [mbind Exec_bind]. match goal with |- context [compute_soms ?x] => set (i3 := x) end.
  destruct (Hall i3) as (_ & _ & Hwf3); [done..|].
  destruct (soms_total i3 Hwf3) as (ds' & soms & -> & Hsoms). eexists. split; [done|].
  destruct (Hall (set_soms i3 ds' soms)) as (Ha & Hst & Hwf'); [done..|]. split_and!; try done. by apply inside_declared.
Qed.

(** C1: instantiation returns a well-formed instance, a tree.  On item trees
    whose indices are in range, whose Data_Size and Source_Data_Size
    properties do not overflow when they are read (99999999999 GByte does, and
    panics), and in whose connection ends and called subprograms no closing
    bracket comes before the opening one, for every root and every bound on
    the depth, no step panics or runs forever, even where implementations
    contain themselves: the components are a tree whose only root is the root
    component, no deeper than the bound, and each component lists exactly the
    children, features, connections, flows, modes and mode transitions that
    have it as parent or owner, in the order of their allocation. *)
Theorem instantiate_to_tree levels pkg ty im :
  ∃ inst, instantiate_to g levels pkg ty im = Done inst ∧ wf_instance inst ∧ component_tree levels inst.
Proof.
  destruct (instantiate_to_sane levels pkg ty im) as (inst & H & Hwf & Ha & Hst & Hr & _).
  exists inst. split_and!; [done..|by apply sane_tree].
Qed.
End instantiation.

(** ** Examples *)
#[local] Open Scope string_scope.

(** A plant of two cells and a controller. *)
Definition plant_ex : ItemTree :=
  let type nm fs ms :=
    {| ct_name := nm; ct_category := System; ct_is_public := true; ct_extends := None; ct_features := fs;
       ct_flow_specs := []; ct_modes := ms; ct_mode_transitions := []; ct_prototypes := [];
       ct_property_associations := []; ct_requires_modes := false; ct_emv2 := [] |} in
  let impl t subs conns pas :=
    {| ci_type_name := t; ci_impl_name := "i"; ci_category := System; ci_is_public := true; ci_extends := None;
       ci_subcomponents := subs; ci_connections := conns; ci_end_to_end_flows := []; ci_flow_impls := [];
       ci_modes := []; ci_mode_transitions := []; ci_prototypes := []; ci_call_sequences := [];
       ci_property_associations := pas; ci_requires_modes := false; ci_emv2 := [] |} in
  let sub nm c dims :=
    {| sub_name := nm; sub_category := System; sub_classifier := Some c; sub_is_refined := false;
       sub_array_dimensions := dims; sub_in_modes := []; sub_property_associations := [] |} in
  let elem s f := Some {| ce_subcomponent := s; ce_feature := f |} in
  {| packages := [{| pkg_name := "P"; pkg_with_clauses := [];
                     pkg_public_items := [RComponentType 0; RComponentType 1; RComponentType 2; RComponentImpl 0;
                                          RComponentImpl 1];
                     pkg_private_items := []; pkg_renames := [] |}];
     component_types := [type "Plant" [] []; type "Cell" [0%nat] [0; 1]%nat; type "Ctl" [1%nat] []];
     component_impls := [impl "Plant" [0; 1]%nat [0%nat] [0%nat]; impl "Ctl" [] [] []];
     feature_group_types := []; property_sets := [];
     tree_features := [feature_ex "p" EventPort (Some Out) None; feature_ex "r" EventPort (Some ItemTree.In) None];
     tree_subcomponents := [sub "cell" (ref_ex None "cell" None) [{| ad_size := Some (SizeLiteral 2) |}];
                            sub "ctl" (ref_ex None "Ctl" (Some "i")) []];
     tree_connections :=
       [{| cn_name := "c"; cn_kind := PortConnection; cn_is_bidirectional := false; cn_is_refined := false;
           cn_src := elem (Some "cell[2]") "p"; cn_dst := elem (Some "ctl") "s"; cn_in_modes := [];
           cn_property_associations := [] |}];
     flow_specs := []; end_to_end_flows := [];
     property_associations :=
       [{| pa_name := {| property_set := None; property_name := "Period" |}; pa_value := "10 ms";
           pa_typed_value := None; pa_is_append := false; pa_applies_to := Some "ctl"; pa_in_modes := [];
           pa_modal_values := [] |}];
     tree_modes := [{| md_name := "slow"; md_is_initial := true |}; {| md_name := "fast"; md_is_initial := false |}];
     tree_mode_transitions := []; prototypes := []; prototype_bindings := [];
     flow_impls := []; call_sequences := []; subprogram_calls := []; renames := []; emv2_subclauses := [];
     impl_local_features := []; tree_diagnostics := [] |}.

Definition of_model {A} (ts : list ItemTree) (levels : nat) (ty : Name) (f : SystemInstance → A) : Exec A :=
  g ← from_trees ts; inst ← instantiate_to g levels "P" ty "i"; Done (f inst).

(** The controller has no feature [s]; the period is on the controller; the
    modes of the cells make four selections. *)
Example plant_instance :
  of_model [plant_ex] 100 "Plant" (λ i, (map name (components i), map children (components i))) =
    Done (["Plant.i"; "cell[1]"; "cell[2]"; "ctl"], [[1; 2; 3]; []; []; []]%nat) ∧
  of_model [plant_ex] 100 "Plant" (λ i, map inst_message (diagnostics i)) =
    Done ["connection 'c': destination 'ctl.s': subcomponent 'ctl' (classifier 'P::Ctl') has no feature 's'"] ∧
  of_model [plant_ex] 100 "Plant" (λ i, map sem_name (semantic_connections i)) = Done ["c"] ∧
  of_model [plant_ex] 100 "Plant" (λ i, (map fst (map_to_list (property_maps i)), length (system_operation_modes i))) = Done ([3], 4)%nat.
Proof. vm_compute. by split. Qed.

(** A cycle that the search does not see, since it goes through an extended
    implementation, is expanded to the depth bound. *)
Example circular_instantiation :
  of_model [cycle_ex] 4 "T" (λ i, (map name (components i), map inst_message (diagnostics i))) =
    Done (["T.i"; "u"; "t"; "u"; "t"], ["maximum instantiation depth (100) exceeded"]).
Proof. vm_compute. reflexivity. Qed.

Lemma plant_ex_indexed : Forall well_indexed [plant_ex].
Proof.
  constructor; [|constructor]. split; repeat first [constructor|eexists; reflexivity].
Qed.

Lemma instantiate_to_tree_witness :
  ∃ g inst, from_trees [plant_ex] = Done g ∧ instantiate_to g max_depth "P" "Plant" "i" = Done inst ∧
    component_tree max_depth inst.
Proof.
  assert (Hok : Forall tree_ok [plant_ex]) by (eapply Forall_impl; [exact plant_ex_indexed|apply wi_packages]).
  destruct (from_trees_spec [plant_ex] Hok) as (g & Hg & _).
  destruct (instantiate_to_tree [plant_ex] g plant_ex_indexed Hg max_depth "P" "Plant" "i") as (inst & Hi & _ & Ht).
  exists g, inst. split; [exact Hg|]. split; [exact Hi|exact Ht].
Defined.
#[local] Close Scope string_scope.
