(* ===== verification/PropertyAccessors.v ===== *)
(** * Typed property accessors

    [crates/spar-analysis/src/property_accessors.rs]: how the analysis passes
    read a property.  An accessor tries the typed expression and falls back
    to the text; multiplying a value by its unit panics on overflow in a
    checked build. *)
From S2P Require Import Prelude.
From S2P Require Import Text.
From S2P Require Import Names.
From S2P Require Import PropertyExpr.
From S2P Require Import PropertyMap.
From S2P Require Import F64.
From S2P Require Import Quantities.
From stdpp Require Import strings.
#[local] Open Scope N_scope.

(** ** Reading a typed expression *)

(** crates/spar-analysis/src/property_accessors.rs:19-27 [TIME_UNIT_FACTORS] *)
Definition TIME_UNIT_FACTORS : list (string * u64) :=
  [("ps"%string, 1); ("ns"%string, 1000); ("us"%string, 1000000); ("ms"%string, 1000000000);
   ("sec"%string, 1000000000000); ("min"%string, 60000000000000); ("hr"%string, 3600000000000000)].

(** crates/spar-analysis/src/property_accessors.rs:30-37 [SIZE_UNIT_FACTORS] *)
Definition SIZE_UNIT_FACTORS : list (string * u64) :=
  [("bits"%string, 1); ("Bytes"%string, 8); ("KByte"%string, 8 * 1024);
   ("MByte"%string, 8 * 1024 * 1024); ("GByte"%string, 8 * 1024 * 1024 * 1024);
   ("TByte"%string, 8 * 1024 * 1024 * 1024 * 1024)].

(** crates/spar-analysis/src/property_accessors.rs:40-45 [unit_factor] *)
Definition unit_factor (table : list (string * u64)) (unit : string) : option u64 :=
  snd <$> List.find (λ u, eq_ignore_ascii_case u.1 unit) table.

(** [val as u64] of an [i64]. *)
Definition i64_as_u64 (v : Z) : u64 := Z.to_N (v mod 2 ^ 64).

(** [s.parse::<f64>()] of a string. *)
Definition parse_real (s : string) : option f64 := parse_f64 (list_ascii_of_string s).

Definition someM {A} (m : Exec A) : Exec (option A) := a ← m; Done (Some a).

(** crates/spar-analysis/src/property_accessors.rs:51-79 [extract_time_ps] *)
Definition extract_time_ps (expr : PropertyExpr) : Exec (option u64) :=
  match expr with
  | Integer val (Some unit) =>
      match unit_factor TIME_UNIT_FACTORS unit with
      | Some factor => someM (mul_u64 (i64_as_u64 val) factor)
      | None => Done None
      end
  | Integer val None => Done (Some (i64_as_u64 val))
  | Real s (Some unit) =>
      Done (v ← parse_real s; factor ← unit_factor TIME_UNIT_FACTORS unit; Some (scale v factor))
  | UnitValue inner unit =>
      match unit_factor TIME_UNIT_FACTORS unit with
      | Some factor =>
          match inner with
          | Integer val _ => someM (mul_u64 (i64_as_u64 val) factor)
          | Real s _ => Done (v ← parse_real s; Some (scale v factor))
          | _ => Done None
          end
      | None => Done None
      end
  | _ => Done None
  end.

(** crates/spar-analysis/src/property_accessors.rs:82-101 [extract_size_bits] *)
Definition extract_size_bits (expr : PropertyExpr) : Exec (option u64) :=
  match expr with
  | Integer val (Some unit) =>
      match unit_factor SIZE_UNIT_FACTORS unit with
      | Some factor => someM (mul_u64 (i64_as_u64 val) factor)
      | None => Done None
      end
  | Integer val None => Done (Some (i64_as_u64 val))
  | UnitValue (Integer val _) unit =>
      match unit_factor SIZE_UNIT_FACTORS unit with
      | Some factor => someM (mul_u64 (i64_as_u64 val) factor)
      | None => Done None
      end
  | _ => Done None
  end.

(** crates/spar-analysis/src/property_accessors.rs:107-119 [extract_time_range_ps] *)
Definition extract_time_range_ps (expr : PropertyExpr) : Exec (option (u64 * u64)) :=
  match expr with
  | Range_ min max _ =>
      and_thenM (extract_time_ps min) (λ min_ps,
      and_thenM (extract_time_ps max) (λ max_ps, Done (Some (min_ps, max_ps))))
  | _ => and_thenM (extract_time_ps expr) (λ val, Done (Some (val, val)))
  end.

(** [None] for an empty text. *)
Definition non_empty (s : string) : option string := if bool_decide (s = ""%string) then None else Some s.

(** crates/spar-analysis/src/property_accessors.rs:122-130 [extract_typed_reference] *)
Definition extract_typed_reference (expr : PropertyExpr) : option string :=
  match expr with ReferenceValue s => non_empty (trim s) | _ => None end.

(** crates/spar-analysis/src/property_accessors.rs:133-138 [extract_bool] *)
Definition extract_bool (expr : PropertyExpr) : option bool :=
  match expr with Boolean b => Some b | _ => None end.

(** crates/spar-analysis/src/property_accessors.rs:141-152 [extract_integer] *)
Definition extract_integer (expr : PropertyExpr) : option u64 :=
  match expr with Integer v _ => if (0 <=? v)%Z then Some (i64_as_u64 v) else None | _ => None end.

(** [v as f64] of an [i64]. *)
Definition f64_of_i64 (v : Z) : f64 := SpecFloat.binary_normalize prec emax v 0 false.

(** crates/spar-analysis/src/property_accessors.rs:155-161 [extract_real] *)
Definition extract_real (expr : PropertyExpr) : option f64 :=
  match expr with
  | Real s _ => parse_real s
  | Integer v _ => Some (f64_of_i64 v)
  | _ => None
  end.

(** crates/spar-analysis/src/property_accessors.rs:167-173 [extract_string] *)
Definition extract_string (expr : PropertyExpr) : option string :=
  match expr with StringLit s => Some s | Enum n => Some n | _ => None end.

(** ** Lookup *)

(** [o.or_else(|| o')] *)
Definition or_else {A} (o o' : option A) : option A := match o with Some a => Some a | None => o' end.

(** crates/spar-analysis/src/property_accessors.rs:179-187 [get_typed_qualified] *)
Definition get_typed_qualified (props : PropertyMap) (set name : string) : option PropertyExpr :=
  or_else (get_typed props set name) (get_typed props "" name).

(** [props.get(set, name).or_else(|| props.get("", name))] *)
Definition get_qualified (props : PropertyMap) (set name : string) : option string :=
  or_else (get props set name) (get props "" name).

(** What [f] makes of an option. *)
Definition whenM {A B} (o : option A) (f : A → Exec (option B)) : Exec (option B) :=
  match o with Some a => f a | None => Done None end.

(** A value after ["min .. max"] or alone: the text forms of a range. *)
Definition parse_time_text (raw : string) : Exec (option u64) := parse_time_value (list_ascii_of_string raw).
Definition range_text (raw : string) : option (bytes * bytes) :=
  split_once (list_ascii_of_string "..") (list_ascii_of_string raw).

Definition worst_case_text (raw : string) : Exec (option u64) :=
  match range_text raw with
  | Some (_, max_str) => parse_time_value (trim_bytes max_str)
  | None => parse_time_text raw
  end.

Definition time_range_text (raw : string) : Exec (option (u64 * u64)) :=
  match range_text raw with
  | Some (min_str, max_str) =>
      and_thenM (parse_time_value (trim_bytes min_str)) (λ min_ps,
      and_thenM (parse_time_value (trim_bytes max_str)) (λ max_ps, Done (Some (min_ps, max_ps))))
  | None => and_thenM (parse_time_text raw) (λ val, Done (Some (val, val)))
  end.

(** ** Accessors *)

(** crates/spar-analysis/src/property_accessors.rs:195-208 [get_timing_property] *)
Definition get_timing_property (props : PropertyMap) (name : string) : Exec (option u64) :=
  or_elseM (whenM (get_typed_qualified props "Timing_Properties" name) extract_time_ps)
    (whenM (get_qualified props "Timing_Properties" name) parse_time_text).

(** crates/spar-analysis/src/property_accessors.rs:214-234 [get_execution_time] *)
Definition get_execution_time (props : PropertyMap) : Exec (option u64) :=
  or_elseM
    (and_thenM (whenM (get_typed_qualified props "Timing_Properties" "Compute_Execution_Time")
       extract_time_range_ps) (λ r, Done (Some r.2)))
    (whenM (get_qualified props "Timing_Properties" "Compute_Execution_Time") worst_case_text).

(** crates/spar-analysis/src/property_accessors.rs:243-246 [LatencyBudget] *)
Record LatencyBudget := { min_ps : option u64; max_ps : u64 }.

(** crates/spar-analysis/src/property_accessors.rs:269-290 [get_latency_budget]: the
    typed value in one set. *)
Definition typed_latency (props : PropertyMap) (set : string) : Exec (option LatencyBudget) :=
  whenM (get_typed_qualified props set "Latency") (λ expr,
    match expr with
    | Range_ min max _ =>
        lo ← extract_time_ps min; hi ← extract_time_ps max;
        match lo, hi with
        | Some lo, Some hi => Done (Some {| min_ps := Some lo; max_ps := hi |})
        | _, _ => Done None
        end
    | other =>
        and_thenM (extract_time_ps other) (λ v, Done (Some {| min_ps := None; max_ps := v |}))
    end).

(** crates/spar-analysis/src/property_accessors.rs:265-308 [get_latency_budget] *)
Definition get_latency_budget (props : PropertyMap) : Exec (option LatencyBudget) :=
  let sets := ["Communication_Properties"; "Timing_Properties"; ""]%string in
  or_elseM (foldr (λ set, or_elseM (typed_latency props set)) (Done None) sets)
    (whenM (foldr (λ set, or_else (get props set "Latency")) None sets) (λ raw,
       match range_text raw with
       | Some (lo, hi) =>
           and_thenM (parse_time_value (trim_bytes lo)) (λ lo,
           and_thenM (parse_time_value (trim_bytes hi)) (λ hi,
             Done (Some {| min_ps := Some lo; max_ps := hi |})))
       | None =>
           and_thenM (parse_time_text raw) (λ v, Done (Some {| min_ps := None; max_ps := v |}))
       end)).

(** A time range: typed, or text. *)
Definition get_time_range (props : PropertyMap) (set name : string) : Exec (option (u64 * u64)) :=
  or_elseM (whenM (get_typed_qualified props set name) extract_time_range_ps)
    (whenM (get_qualified props set name) time_range_text).

(** crates/spar-analysis/src/property_accessors.rs:314-335 [get_execution_time_range] *)
Definition get_execution_time_range (props : PropertyMap) : Exec (option (u64 * u64)) :=
  get_time_range props "Timing_Properties" "Compute_Execution_Time".

(** crates/spar-analysis/src/property_accessors.rs:342-366 [get_execution_time_or_exec] *)
Definition get_execution_time_or_exec (props : PropertyMap) : Exec (option u64) :=
  or_elseM
    (and_thenM (whenM (or_else (get_typed_qualified props "Timing_Properties" "Execution_Time")
         (get_typed_qualified props "Timing_Properties" "Compute_Execution_Time"))
       extract_time_range_ps) (λ r, Done (Some r.2)))
    (whenM (or_else (get_qualified props "Timing_Properties" "Execution_Time")
         (get_qualified props "Timing_Properties" "Compute_Execution_Time"))
       worst_case_text).

(** crates/spar-analysis/src/property_accessors.rs:425-440 [extract_reference_target] *)
Definition extract_reference_target (val : string) : option string :=
  '(_, after_ref) ← split_once (list_ascii_of_string "reference") (trim_bytes (list_ascii_of_string val));
  '(_, inner) ← split_once (list_ascii_of_string "(") after_ref;
  '(target, _) ← split_once (list_ascii_of_string ")") inner;
  non_empty (string_of_list_ascii (trim_bytes target)).

(** The target of a reference: typed, or text. *)
Definition get_reference (props : PropertyMap) (set name : string) : option string :=
  or_else (get_typed_qualified props set name ≫= extract_typed_reference)
    (get_qualified props set name ≫= extract_reference_target).

(** crates/spar-analysis/src/property_accessors.rs:369-384 [get_processor_binding] *)
Definition get_processor_binding (props : PropertyMap) : option string :=
  get_reference props "Deployment_Properties" "Actual_Processor_Binding".

(** crates/spar-analysis/src/property_accessors.rs:390-403 [get_size_property] *)
Definition get_size_property (props : PropertyMap) (name : string) : Exec (option u64) :=
  or_elseM (whenM (get_typed_qualified props "Memory_Properties" name) extract_size_bits)
    (whenM (get_qualified props "Memory_Properties" name)
       (λ raw, parse_size_value (list_ascii_of_string raw))).

(** crates/spar-analysis/src/property_accessors.rs:406-419 [get_memory_binding] *)
Definition get_memory_binding (props : PropertyMap) : option string :=
  get_reference props "Deployment_Properties" "Actual_Memory_Binding".

(** crates/spar-analysis/src/property_accessors.rs:444-444 [SPAR_TIMING] *)
Definition SPAR_TIMING : string := "Spar_Timing".

(** An integer: typed, or text. *)
Definition parse_integer_text (raw : string) : option u64 :=
  parse_u64 (trim_bytes (list_ascii_of_string raw)).
Definition get_integer (props : PropertyMap) (set name : string) : option u64 :=
  or_else (get_typed_qualified props set name ≫= extract_integer)
    (get_qualified props set name ≫= parse_integer_text).

(** A time: typed, or text. *)
Definition get_time (props : PropertyMap) (set name : string) : Exec (option u64) :=
  or_elseM (whenM (get_typed_qualified props set name) extract_time_ps)
    (whenM (get_qualified props set name) parse_time_text).

(** crates/spar-analysis/src/property_accessors.rs:447-460 [get_isr_priority] *)
Definition get_isr_priority (props : PropertyMap) : option u64 := get_integer props SPAR_TIMING "ISR_Priority".

(** crates/spar-analysis/src/property_accessors.rs:463-484 [get_isr_execution_time_range] *)
Definition get_isr_execution_time_range (props : PropertyMap) : Exec (option (u64 * u64)) :=
  get_time_range props SPAR_TIMING "ISR_Execution_Time".

(** crates/spar-analysis/src/property_accessors.rs:489-502 [get_interrupt_latency_bound] *)
Definition get_interrupt_latency_bound (props : PropertyMap) : Exec (option u64) :=
  get_time props SPAR_TIMING "Interrupt_Latency_Bound".

(** crates/spar-analysis/src/property_accessors.rs:515-535 [get_interrupt_overhead] *)
Definition get_interrupt_overhead (props : PropertyMap) : Exec (option u64) :=
  or_elseM (whenM (get_typed_qualified props SPAR_TIMING "Interrupt_Overhead") extract_time_ps)
    (or_elseM (whenM (get_typed_qualified props "SPAR_Properties" "Interrupt_Overhead") extract_time_ps)
       (whenM (or_else (get props SPAR_TIMING "Interrupt_Overhead")
                 (get_qualified props "SPAR_Properties" "Interrupt_Overhead")) parse_time_text)).

(** crates/spar-analysis/src/property_accessors.rs:538-551 [get_bottom_half_server] *)
Definition get_bottom_half_server (props : PropertyMap) : option string :=
  get_reference props SPAR_TIMING "Bottom_Half_Server".

(** crates/spar-analysis/src/property_accessors.rs:556-558 [get_dispatch_jitter] *)
Definition get_dispatch_jitter (props : PropertyMap) : Exec (option u64) :=
  get_timing_property props "Dispatch_Jitter".

(** crates/spar-analysis/src/property_accessors.rs:566-575 [LockingProtocol] *)
Inductive LockingProtocol := Pip | Pcp | StopForLock | NoProtocol.

(** crates/spar-analysis/src/property_accessors.rs:596-604 [parse_locking_protocol] *)
Definition parse_locking_protocol (s : string) : option LockingProtocol :=
  let s := to_ascii_lowercase (trim s) in
  if bool_decide (s = "priority_inheritance_protocol"%string) then Some Pip
  else if bool_decide (s = "priority_ceiling_protocol"%string) then Some Pcp
  else if bool_decide (s = "stop_for_lock"%string) then Some StopForLock
  else if bool_decide (s = "none"%string) then Some NoProtocol
  else None.

(** crates/spar-analysis/src/property_accessors.rs:582-593 [get_locking_protocol] *)
Definition get_locking_protocol (props : PropertyMap) : option LockingProtocol :=
  let typed_str := get_typed_qualified props "Thread_Properties" "Locking_Protocol" ≫= extract_string in
  raw_str ← or_else typed_str (trim <$> get_qualified props "Thread_Properties" "Locking_Protocol");
  parse_locking_protocol raw_str.

(** crates/spar-analysis/src/property_accessors.rs:612-625 [get_critical_section_blocking] *)
Definition get_critical_section_blocking (props : PropertyMap) : Exec (option u64) :=
  get_time props SPAR_TIMING "Critical_Section_Blocking".

(** crates/spar-analysis/src/property_accessors.rs:630-650 [get_dispatch_protocol] *)
Definition get_dispatch_protocol (props : PropertyMap) : option string :=
  or_else (get_typed_qualified props "Thread_Properties" "Dispatch_Protocol" ≫= extract_string)
    (or_else (get_typed_qualified props "Timing_Properties" "Dispatch_Protocol" ≫= extract_string)
       (trim <$> or_else (get props "Thread_Properties" "Dispatch_Protocol")
          (get_qualified props "Timing_Properties" "Dispatch_Protocol"))).

(** crates/spar-analysis/src/property_accessors.rs:663-682 [get_priority] *)
Definition get_priority (props : PropertyMap) : option u64 :=
  or_else
    (or_else (get_typed props "Thread_Properties" "Priority")
       (or_else (get_typed props "Deployment_Properties" "Priority") (get_typed props "" "Priority"))
     ≫= extract_integer)
    (or_else (get props "Thread_Properties" "Priority")
       (or_else (get props "Deployment_Properties" "Priority") (get props "" "Priority"))
     ≫= parse_integer_text).

(** ** Properties of AI components *)

(** crates/spar-analysis/src/property_accessors.rs:686-686 [AI_ML] *)
Definition AI_ML : string := "AI_ML".

(** crates/spar-analysis/src/property_accessors.rs:691-711 [get_inference_latency_range] *)
Definition get_inference_latency_range (props : PropertyMap) : Exec (option (u64 * u64)) :=
  get_time_range props AI_ML "Inference_Latency".

(** crates/spar-analysis/src/property_accessors.rs:714-727 [get_fallback_latency] *)
Definition get_fallback_latency (props : PropertyMap) : Exec (option u64) :=
  get_time props AI_ML "Fallback_Latency".

(** crates/spar-analysis/src/property_accessors.rs:730-743 [get_confidence_threshold] *)
Definition get_confidence_threshold (props : PropertyMap) : option f64 :=
  or_else (get_typed_qualified props AI_ML "Confidence_Threshold" ≫= extract_real)
    (get_qualified props AI_ML "Confidence_Threshold" ≫= λ raw,
       parse_f64 (trim_bytes (list_ascii_of_string raw))).

(** crates/spar-analysis/src/property_accessors.rs:746-759 [get_ai_ml_string] *)
Definition get_ai_ml_string (props : PropertyMap) (name : string) : option string :=
  or_else (get_typed_qualified props AI_ML name ≫= extract_string) (get_qualified props AI_ML name).

(** crates/spar-analysis/src/property_accessors.rs:762-777 [get_ai_ml_bool]: no letter
    outside ASCII lowercases to a letter of the two words. *)
Definition get_ai_ml_bool (props : PropertyMap) (name : string) : option bool :=
  or_else (get_typed_qualified props AI_ML name ≫= extract_bool)
    (raw ← get_qualified props AI_ML name;
     let s := to_ascii_lowercase (trim raw) in
     if bool_decide (s = "true"%string) then Some true
     else if bool_decide (s = "false"%string) then Some false
     else None).

(** crates/spar-analysis/src/property_accessors.rs:780-791 [get_ai_ml_integer] *)
Definition get_ai_ml_integer (props : PropertyMap) (name : string) : option u64 := get_integer props AI_ML name.

(** crates/spar-analysis/src/property_accessors.rs:794-807 [get_drift_detection_window] *)
Definition get_drift_detection_window (props : PropertyMap) : Exec (option u64) :=
  get_time props AI_ML "Drift_Detection_Window".

(** crates/spar-analysis/src/property_accessors.rs:810-817 [is_ai_ml_component] *)
Definition is_ai_ml_component (props : PropertyMap) : Exec bool :=
  range ← get_inference_latency_range props;
  Done (is_some range
        || is_some (get_ai_ml_string props "Model_Version")
        || is_some (get_ai_ml_string props "Inference_Mode")
        || is_some (get_confidence_threshold props)
        || is_some (get_ai_ml_string props "Fallback_Strategy")
        || is_some (get_ai_ml_string props "Model_Format")).

(** ** What the property accessors read

    A duration written in the source is read as the same number of
    picoseconds through the typed expression and through the text. *)
(** ** Trimming *)

(** A printable ASCII character other than a space ends no whitespace. *)
Definition solid (b : ascii) : bool := (32 <? byte_code b) && (byte_code b <? 127).

Lemma strip_any_solid b s :
  solid b = true →
  strip_any whitespace (b :: s) = None ∧ strip_any (rev (A:=N) <$> whitespace) (b :: s) = None.
Proof. destruct b as [[] [] [] [] [] [] [] []]; intros [=]; done. Qed.

Lemma strip_all_solid n b s :
  solid b = true → strip_all n whitespace (b :: s) = b :: s ∧
  strip_all n (rev (A:=N) <$> whitespace) (b :: s) = b :: s.
Proof. intros [H1 H2]%(strip_any_solid b s). destruct n; [done|]. cbn [strip_all]. by rewrite H1, H2. Qed.

Lemma strip_any_space s : strip_any (rev (A:=N) <$> whitespace) (" "%char :: s) = Some s.
Proof. reflexivity. Qed.

Definition solid_ends (s : bytes) : Prop :=
  (∃ a r, s = a :: r ∧ solid a = true) ∧ (∃ b r, s = r ++ [b] ∧ solid b = true).

Lemma solid_ends_all s : s ≠ [] → Forall (λ b, solid b = true) s → solid_ends s.
Proof.
  intros Hs H. split.
  - destruct s as [|a r]; [done|]. exists a, r. by inversion H.
  - destruct s as [|b r _] using rev_ind; [done|]. exists b, r. split; [done|].
    apply Forall_app in H as [_ H]. by inversion H.
Qed.

Lemma solid_ends_app s t u : solid_ends s → solid_ends u → solid_ends (s ++ t ++ u).
Proof.
  intros [(a & r & -> & Ha) _] [_ (b & r' & -> & Hb)]. split.
  - by eexists a, _.
  - exists b, (a :: r ++ t ++ r'). split; [|done]. simpl. by rewrite !app_assoc.
Qed.

(** Trimming takes off a space at the end, and nothing else. *)
Lemma trim_bytes_ends s t :
  solid_ends s → t = [] ∨ t = [" "%char] → trim_bytes (s ++ t) = s.
Proof.
  intros [(a & r & E1 & Ha) (b & r' & E2 & Hb)] Ht. unfold trim_bytes.
  assert (E : strip_all (length (s ++ t)) whitespace (s ++ t) = s ++ t).
  { rewrite E1. apply (strip_all_solid _ a _ Ha). }
  rewrite E, rev_app_distr, E2, rev_app_distr.
  destruct Ht as [-> | ->]; cbn [rev app].
  - rewrite (proj2 (strip_all_solid _ b _ Hb)). cbn [rev]. by rewrite rev_involutive.
  - rewrite length_app, Nat.add_comm. cbn [length Nat.add strip_all]. rewrite strip_any_space.
    rewrite (proj2 (strip_all_solid _ b _ Hb)). cbn [rev]. by rewrite rev_involutive.
Qed.

(** ** A number and its unit *)

Lemma digit_solid d : d < 10 → solid (ascii_of_N (48 + d)) = true.
Proof.
  intros [H1 _]%digit_of_small. unfold solid, is_ascii_digit, in_range, byte_code in *.
  apply andb_true_iff in H1 as [H1 H2]. apply N.leb_le in H1, H2. cbn in H1, H2.
  apply andb_true_iff. split; apply N.ltb_lt; lia.
Qed.

Lemma digits_upto_solid fuel n acc :
  Forall (λ b, solid b = true) acc → Forall (λ b, solid b = true) (digits_upto fuel n acc).
Proof.
  revert n acc. induction fuel as [|fuel IH]; intros n acc H; cbn [digits_upto].
  1: by constructor; [apply digit_solid, N.mod_lt|].
  assert (H' : Forall (λ b, solid b = true) (ascii_of_N (48 + n mod 10) :: acc))
    by by constructor; [apply digit_solid, N.mod_lt|].
  destruct (n <? 10); [done|]. by apply IH.
Qed.

Lemma show_u64_solid n : solid_ends (show_u64 n).
Proof.
  apply solid_ends_all; [|by apply digits_upto_solid].
  destruct (digits_upto_head (N.to_nat (N.log2 n)) n []) as (d & s & E & _). unfold show_u64. by rewrite E.
Qed.

(** [n unit], as [format!("{n} {unit}")] writes it. *)
Definition written (n : u64) (unit : string) : bytes := show_u64 n ++ " "%char :: list_ascii_of_string unit.

Lemma strip_suffix_app s u : str_strip_suffix u (s ++ u) = Some s.
Proof.
  unfold str_strip_suffix. rewrite length_app, Nat.add_sub, drop_app_length, take_app_length.
  rewrite bool_decide_eq_true_2 by done. by rewrite (proj2 (Nat.leb_le _ _)) by lia.
Qed.

Lemma strip_suffix_within u s t :
  (length u <= length t)%nat → str_strip_suffix u (s ++ t) = app s <$> str_strip_suffix u t.
Proof.
  intros H. unfold str_strip_suffix. rewrite length_app.
  replace (length s + length t - length u)%nat with (length s + (length t - length u))%nat by lia.
  rewrite drop_app_add, take_app_add.
  destruct (Nat.leb_spec (length u) (length s + length t)); [|lia].
  destruct (Nat.leb_spec (length u) (length t)); [|lia].
  cbn [andb]. by destruct (bool_decide _).
Qed.

Lemma trim_written n unit :
  solid_ends (list_ascii_of_string unit) → trim_bytes (written n unit) = written n unit.
Proof.
  intros H. unfold written. rewrite <- (app_nil_r (show_u64 n ++ _)) at 1.
  apply trim_bytes_ends; [|by left].
  apply (solid_ends_app _ [" "%char]); [apply show_u64_solid|done].
Qed.

Lemma strip_written n unit :
  (trim_bytes <$> str_strip_suffix (list_ascii_of_string unit) (written n unit)) = Some (show_u64 n).
Proof.
  unfold written. change (" "%char :: ?u) with ([" "%char] ++ u). rewrite app_assoc, strip_suffix_app.
  cbn. f_equal. apply trim_bytes_ends; [apply show_u64_solid|by right].
Qed.

Lemma list_ascii_length s : length (list_ascii_of_string s) = String.length s.
Proof. induction s; simpl; congruence. Qed.

Lemma strip_other n u unit :
  str_strip_suffix (list_ascii_of_string u) (" "%char :: list_ascii_of_string unit) = None →
  (String.length u <= S (String.length unit))%nat →
  str_strip_suffix (list_ascii_of_string u) (written n unit) = None.
Proof.
  intros H Hl. unfold written. rewrite strip_suffix_within, H; [done|].
  cbn [length]. by rewrite !list_ascii_length.
Qed.

(** ** Durations *)

Lemma parse_time_hit n unit factor units :
  n ≤ U64_MAX → n * factor ≤ U64_MAX →
  parse_time_with ((unit, factor) :: units) (written n unit) = Done (Some (n * factor)).
Proof.
  intros Hn Hf. cbn [parse_time_with]. rewrite (strip_written n unit), parse_show_u64 by done.
  unfold mul_u64. by rewrite (proj2 (N.leb_le _ _) Hf).
Qed.

Lemma parse_time_miss n unit u factor units :
  str_strip_suffix (list_ascii_of_string u) (" "%char :: list_ascii_of_string unit) = None →
  (String.length u <= S (String.length unit))%nat →
  parse_time_with ((u, factor) :: units) (written n unit) = parse_time_with units (written n unit).
Proof. intros H1 H2. cbn [parse_time_with]. by rewrite strip_other. Qed.

Lemma unit_solid unit factor :
  (unit, factor) ∈ TIME_UNITS → solid_ends (list_ascii_of_string unit) ∧ 0 < factor.
Proof.
  unfold TIME_UNITS. intros Hu. repeat (apply elem_of_cons in Hu as [[= -> ->]|Hu];
    [split; [by apply solid_ends_all; [|repeat constructor]|done]|]). by apply elem_of_nil in Hu.
Qed.

(** What the loop over the units makes of the text [n unit]. *)
Lemma parse_time_written n unit factor :
  (unit, factor) ∈ TIME_UNITS → n * factor ≤ U64_MAX →
  parse_time_value (written n unit) = Done (Some (n * factor)).
Proof.
  intros Hu Hn.
  pose proof (unit_solid unit factor Hu) as [Hs Hf].
  unfold parse_time_value. rewrite trim_written by done.
  assert (Hp : n ≤ U64_MAX) by nia. clear Hf Hs. unfold TIME_UNITS in *.
  repeat (apply elem_of_cons in Hu as [[= -> ->]|Hu];
    [repeat (rewrite parse_time_miss by (done || (cbn; lia))); by apply parse_time_hit|]).
  by apply elem_of_nil in Hu.
Qed.

(** The typed expression of the same value. *)
Definition typed_as (n : u64) (unit : string) (e : option PropertyExpr) : Prop :=
  e = None ∨ e = Some (Integer (Z.of_N n) (Some unit)) ∨ ∃ u, e = Some (UnitValue (Integer (Z.of_N n) u) unit).

Lemma unit_factor_time unit factor :
  (unit, factor) ∈ TIME_UNITS → unit_factor TIME_UNIT_FACTORS unit = Some factor.
Proof.
  unfold TIME_UNITS. intros Hu.
  repeat (apply elem_of_cons in Hu as [[= -> ->]|Hu]; [by vm_compute|]). by apply elem_of_nil in Hu.
Qed.

Lemma i64_as_u64_small n : n < 2 ^ 63 → i64_as_u64 (Z.of_N n) = n.
Proof. intros H. unfold i64_as_u64. rewrite Z.mod_small by lia. lia. Qed.

Lemma extract_time_typed n unit factor e :
  (unit, factor) ∈ TIME_UNITS → n < 2 ^ 63 → n * factor ≤ U64_MAX → typed_as n unit (Some e) →
  extract_time_ps e = Done (Some (n * factor)).
Proof.
  intros Hu%unit_factor_time Hn Hf [|[[= ->]|[u [= ->]]]]; [done|..]; cbn [extract_time_ps];
    rewrite Hu, i64_as_u64_small by done; unfold mul_u64, someM; by rewrite (proj2 (N.leb_le _ _) Hf).
Qed.

(** What a map holds under a key just written. *)
Lemma first_value_add m p set nm :
  key_of (pv_name p) = (ci set, ci nm) → trim (pv_value p) ≠ ""%string →
  pv_is_append p = false → pv_is_arithmetic p = false →
  first_value (add m p) set nm = Some (trimmed p).
Proof.
  intros Hk Hv Ha He. unfold first_value, add. rewrite add_values, decide_True, Ha by done.
  change (pv_is_arithmetic (trimmed p)) with (pv_is_arithmetic p). by rewrite He.
Qed.

Lemma first_value_add_ne m p set nm :
  key_of (pv_name p) ≠ (ci set, ci nm) → first_value (add m p) set nm = first_value m set nm.
Proof. intros Hk. unfold first_value, add. by rewrite add_values, decide_False by tauto. Qed.

(** The association [Timing_Properties::nm => n unit]. *)
Definition timing_value (nm : Name) (n : u64) (unit : string) (e : option PropertyExpr) : PropertyValue :=
  {| pv_name := {| property_set := Some "Timing_Properties"%string; property_name := nm |};
     pv_value := string_of_list_ascii (written n unit); pv_typed_expr := e; pv_is_append := false |}.

Lemma trim_timing_value n unit factor :
  (unit, factor) ∈ TIME_UNITS →
  trim (string_of_list_ascii (written n unit)) = string_of_list_ascii (written n unit) ∧
  string_of_list_ascii (written n unit) ≠ ""%string.
Proof.
  intros Hu%unit_solid. unfold trim. rewrite list_ascii_of_string_of_list_ascii, trim_written by apply Hu.
  split; [done|]. destruct (show_u64_solid n) as [(a & r & E & _) _]. unfold written. by rewrite E.
Qed.

(** C22: a duration [n unit] associated with a timing property is read as [n]
    times the unit in picoseconds, whether the association carries a typed
    expression or only its text.  The unit is one of ps, ns, us, ms, sec, min
    and hr, written in that case (the text is matched with its case, so 10 MS
    reads as nothing); [n] is below 2^63 and [n] times the unit is at most
    2^64 - 1 picoseconds (a larger product panics).  Without a typed
    expression, a typed value under the unqualified name would be read
    instead, so there must be none. *)
Theorem timing_property_roundtrip m nm n unit factor e :
  (unit, factor) ∈ TIME_UNITS → n < 2 ^ 63 → n * factor ≤ U64_MAX → typed_as n unit e →
  (e = None → get_typed m "" nm = None) →
  get_timing_property (add m (timing_value nm n unit e)) nm = Done (Some (n * factor)).
Proof.
  intros Hu Hn Hf He Hm. destruct (trim_timing_value n unit factor Hu) as [Ht Hne].
  assert (F : first_value (add m (timing_value nm n unit e)) "Timing_Properties" nm =
              Some (timing_value nm n unit e)).
  { rewrite first_value_add; [|done|by cbn [timing_value pv_value]; rewrite Ht|done|].
    - unfold trimmed. cbn [timing_value pv_value]. by rewrite Ht.
    - by destruct He as [->|[->|[u ->]]]. }
  unfold get_timing_property, get_typed_qualified, get_qualified, get_typed, get. rewrite F.
  destruct e as [e|]; cbn.
  - by rewrite (extract_time_typed n unit factor) by done.
  - rewrite first_value_add_ne by done. specialize (Hm eq_refl). unfold get_typed in Hm.
    cbn in Hm. rewrite Hm. cbn. unfold parse_time_text.
    rewrite list_ascii_of_string_of_list_ascii. by apply parse_time_written.
Qed.

Lemma timing_property_roundtrip_witness :
  get_timing_property (add new (timing_value "Period" 10 "ms" None)) "Period" = Done (Some 10000000000).
Proof.
  apply (timing_property_roundtrip new "Period" 10 "ms" 1000000000 None).
  - by vm_compute; repeat constructor.
  - done.
  - by vm_compute.
  - by left.
  - done.
Defined.

(** A negative duration overflows as a typed value and is 0 as text. *)
Example negative_duration :
  extract_time_ps (Integer (-5) (Some "ms"%string)) = Panic ∧
  parse_time_text "-5 ms" = Done (Some 0).
Proof. by vm_compute. Qed.
