(* ===== verification/Parser.v ===== *)
(** * The parser state

    [crates/spar-parser/src/event.rs], [marker.rs] and [parser.rs]: the event
    list, the markers, and the operations of [Parser] that the grammar is
    written with, over any [Vocabulary]: the annex parsers
    ([crates/spar-annex/src/{emv2,ba}/parser.rs]) and the SysML parser
    ([crates/spar-sysml2/src/{event,marker,parser}.rs]) have the same data and
    the same operations over their own kinds.  A Rust function
    [fn f(p: &mut Parser) -> A] is a value of [M K A]: a state transformer
    that may panic. *)
From S2P Require Import Prelude.
From S2P Require Export Text.
From S2P Require Export Vocabulary.
From S2P Require Export TokenSet.
#[local] Open Scope nat_scope.

Section data.
Context {K : Type}.

(** ** Events *)

(** crates/spar-parser/src/event.rs:5-24 [Event] *)
Inductive Event :=
  | Start (kind : K) (forward_parent : option u32)
  | Token (kind : K) (n_raw_tokens : nat)
  | Finish
  | Error (msg : string)
  | Tombstone.

(** ** State *)

(** crates/spar-parser/src/parser.rs:14-27 [Parser] *)
Record Parser := {
  all_tokens : list (K * usize);
  non_trivia_indices : list usize;
  pos : usize;
  events : list Event;
  source : bytes;
  token_starts : list usize;
}.

(** crates/spar-parser/src/parser.rs:35-60 [Parser::new] *)
Fixpoint starts_from (offset : usize) (tokens : list (K * usize)) : list usize :=
  match tokens with
  | [] => []
  | (_, len) :: tokens => offset :: starts_from (offset + len) tokens
  end.

(** crates/spar-parser/src/parser.rs:35-60 [Parser::new] *)
Fixpoint non_trivia_from `{Vocabulary K} (i : usize) (tokens : list (K * usize)) : list usize :=
  match tokens with
  | [] => []
  | (kind, _) :: tokens =>
      if is_trivia kind then non_trivia_from (S i) tokens else i :: non_trivia_from (S i) tokens
  end.

(** crates/spar-parser/src/parser.rs:35-60 [Parser::new] *)
Definition parser_new `{Vocabulary K} (tokens : list (K * usize)) (source : bytes) : Parser :=
  {| all_tokens := tokens;
     non_trivia_indices := non_trivia_from 0 tokens;
     pos := 0;
     events := [];
     source := source;
     token_starts := starts_from 0 tokens |}.

(** ** The monad *)
Definition M (A : Type) : Type := Parser → Exec (A * Parser).

End data.
Arguments Event K : clear implicits.
Arguments Parser K : clear implicits.
Arguments M K A : clear implicits.

#[global] Instance M_ret {K} : MRet (M K) := fun A a p => Done (a, p).
#[global] Instance M_bind {K} : MBind (M K) := fun A B k m p =>
  match m p with Done (a, p') => k a p' | Panic => Panic | Stuck => Stuck end.

Section operations.
Context {K : Type}.
#[local] Abbreviation Parser := (Parser K).
#[local] Abbreviation M := (M K).

Definition panic {A} : M A := λ _, Panic.
Definition stuck {A} : M A := λ _, Stuck.
(** A read of the parser. *)
Definition reads {A} (f : Parser → A) : M A := λ p, Done (f p, p).
(** A read that may panic. *)
Definition reads_exec {A} (f : Parser → Exec A) : M A := λ p, a ← f p; Done (a, p).

(** [if f(p) { m1 } else { m2 }] and [if f(p) { m }]. *)
Definition cond {A} (f : Parser → bool) (m1 m2 : M A) : M A :=
  λ p, if f p then m1 p else m2 p.
Definition when (f : Parser → bool) (m : M unit) : M unit := cond f m (mret tt).

End operations.

(** Conditions are boolean functions of the parser. *)
Declare Scope pred_scope.
Delimit Scope pred_scope with P.
Definition por {K} (f g : Parser K → bool) : Parser K → bool := λ p, f p || g p.
Definition pand {K} (f g : Parser K → bool) : Parser K → bool := λ p, f p && g p.
Definition pnot {K} (f : Parser K → bool) : Parser K → bool := λ p, negb (f p).
Arguments por {K} f%_P g%_P.
Arguments pand {K} f%_P g%_P.
Arguments pnot {K} f%_P.
Infix "||" := por : pred_scope.
Infix "&&" := pand : pred_scope.
Notation "! f" := (pnot f) (at level 35, right associativity) : pred_scope.
Arguments cond {K A} f%_P m1 m2.
Arguments when {K} f%_P m.

Notation "'IF' f 'THEN' m1 'ELSE' m2" := (cond f m1 m2)
  (at level 10, f at level 200, m1 at level 200, m2 at level 200,
   format "'[v' 'IF'  f  'THEN' '/  ' m1 '/' 'ELSE'  m2 ']'").

Section loops.
Context {K : Type}.
#[local] Abbreviation Parser := (Parser K).
#[local] Abbreviation M := (M K).

(** The tokens still to be read; the fuel of the loops. *)
Definition remaining (p : Parser) : nat := length (non_trivia_indices p) - pos p.

(** [loop { ... }]: [body] maps the loop's local state to the next one
    ([inl]) or to the value the loop breaks with ([inr]). *)
Fixpoint iter_fuel {A B} (n : nat) (body : A → M (A + B)) (a : A) : M B :=
  match n with
  | O => stuck
  | S n => o ← body a; match o with inl a' => iter_fuel n body a' | inr b => mret b end
  end.

(** A loop of the grammar consumes a token on every iteration but the last. *)
Definition iter {A B} (body : A → M (A + B)) (a : A) : M B :=
  λ p, iter_fuel (S (remaining p)) body a p.

(** [while f(p) { body }]. *)
Definition while (f : Parser → bool) (body : M unit) : M unit :=
  iter (λ _, cond f (body ;; mret (inl tt)) (mret (inr tt))) tt.
End loops.
Arguments while {K} f%_P body.

Section parser.
Context {K : Type} {HD : Discriminant K} {V : Vocabulary K}.
#[local] Abbreviation Parser := (Parser K).
#[local] Abbreviation M := (M K).

(** ** Inspection *)

(** crates/spar-parser/src/parser.rs:76-83 [Parser::nth]: the two index
    expressions written with the panic they have out of range. *)
Definition nth_checked (p : Parser) (n : usize) : Exec K :=
  let idx := pos p + n in
  if length (non_trivia_indices p) <=? idx then Done eof
  else match non_trivia_indices p !! idx with
       | Some token_idx => match all_tokens p !! token_idx with Some t => Done (fst t) | None => Panic end
       | None => Panic
       end.

(** crates/spar-parser/src/parser.rs:76-83 [Parser::nth]: as the conditions
    of the grammar use it; [ParserSpec] shows that it is [nth_checked] on
    every parser built by [Parser::new]. *)
Definition nth (n : usize) (p : Parser) : K :=
  match nth_checked p n with Done k => k | _ => eof end.

(** crates/spar-parser/src/parser.rs:69-71 [Parser::current] *)
Definition current (p : Parser) : K := nth 0 p.

(** crates/spar-parser/src/parser.rs:86-88 [Parser::at] *)
Definition at_ (kind : K) (p : Parser) : bool := kind_eqb (current p) kind.

(** [p.nth(n) == kind]. *)
Definition nth_is (n : usize) (kind : K) (p : Parser) : bool := kind_eqb (nth n p) kind.
(** [f(p.current())]. *)
Definition cur (f : K → bool) (p : Parser) : bool := f (current p).

(** crates/spar-parser/src/parser.rs:122-124 [Parser::at_end] *)
Definition at_end (p : Parser) : bool := length (non_trivia_indices p) <=? pos p.

(** crates/spar-parser/src/parser.rs:133-142 [Parser::nth_text] *)
Definition nth_text (n : usize) (p : Parser) : Exec bytes :=
  let idx := pos p + n in
  if length (non_trivia_indices p) <=? idx then Done []
  else
    match non_trivia_indices p !! idx with
    | None => Panic
    | Some token_idx =>
        match token_starts p !! token_idx, all_tokens p !! token_idx with
        | Some start, Some (_, len) => slice (source p) start (start + len)
        | _, _ => Panic
        end
    end.

(** crates/spar-parser/src/parser.rs:127-129 [Parser::current_text] *)
Definition current_text (p : Parser) : Exec bytes := nth_text 0 p.

(** crates/spar-parser/src/parser.rs:95-103 [Parser::at_contextual_kw] *)
Definition at_contextual_kw (text : string) : M bool :=
  IF at_end THEN mret false
  ELSE t ← reads_exec current_text; mret (bool_decide (t = list_ascii_of_string text)).

(** ** Events *)

(** crates/spar-parser/src/parser.rs:260-262 [Parser::push_event] *)
Definition push_event (e : Event K) : M unit := λ p,
  Done (tt, {| all_tokens := all_tokens p; non_trivia_indices := non_trivia_indices p;
               pos := pos p; events := events p ++ [e]; source := source p;
               token_starts := token_starts p |}).

Definition set_events (es : list (Event K)) : M unit := λ p,
  Done (tt, {| all_tokens := all_tokens p; non_trivia_indices := non_trivia_indices p;
               pos := pos p; events := es; source := source p; token_starts := token_starts p |}).

(** crates/spar-parser/src/parser.rs:265-268 [Parser::do_bump] *)
Definition advance (n_raw_tokens : nat) : M unit := λ p,
  Done (tt, {| all_tokens := all_tokens p; non_trivia_indices := non_trivia_indices p;
               pos := pos p + n_raw_tokens; events := events p; source := source p;
               token_starts := token_starts p |}).

(** crates/spar-parser/src/parser.rs:265-268 [Parser::do_bump] *)
Definition do_bump (kind : K) (n_raw_tokens : nat) : M unit :=
  push_event (Token kind n_raw_tokens) ;;
  advance n_raw_tokens.

(** crates/spar-parser/src/parser.rs:250-257 [Parser::start_event] *)
Definition start_event : M u32 :=
  pos ← reads (λ p, as_u32 (N.of_nat (length (events p))));
  push_event (Start tombstone None) ;;
  mret pos.

(** crates/spar-parser/src/parser.rs:207-209 [Parser::error] *)
Definition error (msg : string) : M unit := push_event (Error msg).

(** ** Consumption *)

(** crates/spar-parser/src/parser.rs:154-162 [Parser::bump] *)
Definition bump (kind : K) : M unit :=
  IF at_ kind THEN do_bump kind 1 ELSE panic.

(** crates/spar-parser/src/parser.rs:165-171 [Parser::bump_any] *)
Definition bump_any : M unit :=
  kind ← reads current;
  if kind_eqb kind eof then mret tt else do_bump kind 1.

(** crates/spar-parser/src/parser.rs:175-182 [Parser::eat] *)
Definition eat (kind : K) : M bool :=
  IF at_ kind THEN do_bump kind 1 ;; mret true ELSE mret false.

(** crates/spar-parser/src/parser.rs:186-193 [Parser::expect] *)
Definition expect (kind : K) : M bool :=
  b ← eat kind;
  if (b : bool) then mret true
  else error ("expected " +:+ kind_name kind) ;; mret false.

(** [while p.eat(kind) { body }]. *)
Definition while_eat (kind : K) (body : M unit) : M unit :=
  iter (λ _, b ← eat kind;
    if (b : bool) then body ;; mret (inl tt) else mret (inr tt)) tt.

(** ** Markers *)

(** crates/spar-parser/src/marker.rs:10-13 [Marker] *)
Definition Marker := u32.

(** crates/spar-parser/src/marker.rs:67-69 [CompletedMarker] *)
Record CompletedMarker := { completed_pos : u32 }.

(** crates/spar-parser/src/parser.rs:201-204 [Parser::start] *)
Definition start : M Marker := start_event.

(** crates/spar-parser/src/marker.rs:27-41 [Marker::complete] *)
Definition complete (m : Marker) (kind : K) : M CompletedMarker :=
  let idx := N.to_nat m in
  es ← reads events;
  match es !! idx with
  | Some (Start _ fp) =>
      set_events (<[idx := Start kind fp]> es) ;;
      push_event Finish ;;
      mret {| completed_pos := m |}
  | _ => panic
  end.

(** crates/spar-parser/src/marker.rs:46-61 [Marker::abandon]: [len() - 1]
    underflows on an empty list, and the assignment is out of range beyond
    its end. *)
Definition abandon (m : Marker) : M unit :=
  let idx := N.to_nat m in
  es ← reads events;
  if Nat.eqb (length es) 0 then panic
  else if Nat.eqb idx (length es - 1) then
    match es !! idx with
    | Some (Start tombstone None) => set_events (take idx es)
    | _ => panic
    end
  else if idx <? length es then set_events (<[idx := Tombstone]> es) else panic.

(** crates/spar-parser/src/marker.rs:78-89 [CompletedMarker::precede]: the
    [u32] subtraction panics on underflow in a checked build. *)
Definition precede (c : CompletedMarker) : M Marker :=
  new_pos ← start_event;
  if (new_pos <? completed_pos c)%N then panic
  else
    let delta := (new_pos - completed_pos c)%N in
    let idx := N.to_nat (completed_pos c) in
    es ← reads events;
    match es !! idx with
    | Some (Start kind _) => set_events (<[idx := Start kind (Some delta)]> es) ;; mret new_pos
    | _ => panic
    end.

(** ** Error recovery *)

(** crates/spar-parser/src/parser.rs:219-238 [Parser::err_recover]: over the
    membership test of the recovery set. *)
Definition err_recover_on (msg : string) (in_recovery : K → bool) : M unit :=
  IF at_ eof THEN error msg
  ELSE IF cur in_recovery THEN error msg
  ELSE
    m ← start;
    error msg ;;
    bump_any ;;
    while (! at_end && ! cur in_recovery) bump_any ;;
    complete m error_kind ;;
    mret tt.

(** crates/spar-parser/src/parser.rs:219-238 [Parser::err_recover] *)
Definition err_recover (msg : string) (recovery : TokenSet) : M unit :=
  err_recover_on msg (contains recovery).

(** crates/spar-parser/src/parser.rs:213-215 [Parser::err_and_bump] *)
Definition err_and_bump (msg : string) : M unit := err_recover msg EMPTY.

(** crates/spar-parser/src/parser.rs:241-243 [Parser::finish] *)
Definition finish (p : Parser) : list (Event K) := events p.
(** ** Binary expressions

    [while f(p) { let m = lhs.precede(p); op(p); operand(p);
    lhs = m.complete(p, kind) }], the loop of every left-associative level. *)
Definition binary_loop (f : Parser → bool) (op : M unit) (operand : M (option CompletedMarker))
    (kind : K) (lhs : CompletedMarker) : M CompletedMarker :=
  iter (λ lhs,
    IF f THEN
      m ← precede lhs;
      op ;;
      operand ;;
      lhs ← complete m kind;
      mret (inl lhs)
    ELSE mret (inr lhs)) lhs.

(** A level: nothing without a first operand. *)
Definition binary_operands (f : Parser → bool) (op : M unit) (operand : M (option CompletedMarker))
    (kind : K) : M (option CompletedMarker) :=
  o ← operand;
  match o with
  | None => mret None
  | Some lhs => lhs ← binary_loop f op operand kind lhs; mret (Some lhs)
  end.

(** [Some(m.complete(p, kind))]. *)
Definition complete_some (m : Marker) (kind : K) : M (option CompletedMarker) :=
  c ← complete m kind; mret (Some c).
End parser.
Arguments binary_loop {K HD V} f%_P op operand kind lhs.
Arguments binary_operands {K HD V} f%_P op operand kind.
