(* ===== verification/Grammar.v ===== *)
(** * The grammar: names, classifiers, modes and annexes

    [crates/spar-parser/src/grammar/mod.rs] (all but [source_file], which is
    in [GrammarPackages]), [modes.rs] and [annexes.rs].  Each Rust function is
    one definition; [match p.current() { K => ..., _ => ... }] is written as
    a chain of [IF at_ K]. *)
From S2P Require Import Prelude.
From S2P Require Export SyntaxKind.
From S2P Require Export Parser.

(** ** The AADL parser

    The event parser over the AADL kinds, and the operations of
    [crates/spar-parser/src/parser.rs] that only the AADL grammar has. *)

Abbreviation Parser := (Parser.Parser SyntaxKind).
Abbreviation M := (Parser.M SyntaxKind).

(** crates/spar-parser/src/parser.rs:113-119 [Parser::at_name] *)
Definition at_name : Parser → bool := (at_ IDENT || (cur is_keyword && nth_is 1 COLON))%P.

#[local] Open Scope string_scope.

(** ** Categories and names *)

(** crates/spar-parser/src/grammar/mod.rs:49-82 [component_category] *)
Definition component_category : M bool :=
  IF ! cur is_component_category_kw THEN mret false
  ELSE
    m ← start;
    (IF at_ VIRTUAL_KW THEN
       bump VIRTUAL_KW ;;
       (IF at_ BUS_KW THEN bump BUS_KW
        ELSE IF at_ PROCESSOR_KW THEN bump PROCESSOR_KW
        ELSE error "expected `bus` or `processor` after `virtual`")
     ELSE IF at_ THREAD_KW THEN
       bump THREAD_KW ;;
       when (at_ GROUP_KW) (bump GROUP_KW)
     ELSE IF at_ SUBPROGRAM_KW THEN
       bump SUBPROGRAM_KW ;;
       when (at_ GROUP_KW) (bump GROUP_KW)
     ELSE IF cur is_component_category_kw THEN bump_any
     ELSE panic) ;;
    complete m COMPONENT_CATEGORY ;;
    mret true.

(** crates/spar-parser/src/grammar/mod.rs:219-221 [at_ident_or_kw] *)
Definition at_ident_or_kw : Parser → bool := (at_ IDENT || cur is_keyword)%P.

(** crates/spar-parser/src/grammar/mod.rs:224-232 [bump_as_ident] *)
Definition bump_as_ident : M unit :=
  IF at_ IDENT THEN bump IDENT ELSE bump_any.

(** crates/spar-parser/src/grammar/mod.rs:235-253 [name] *)
Definition name : M bool :=
  IF ! at_ IDENT THEN error "expected name" ;; mret false
  ELSE
    m ← start;
    bump IDENT ;;
    iter (λ _,
      IF at_ COLON_COLON THEN
        bump COLON_COLON ;;
        (IF at_ IDENT THEN bump IDENT ;; mret (inl tt)
         ELSE error "expected identifier after `::`" ;; mret (inr tt))
      ELSE mret (inr tt)) tt ;;
    complete m NAME ;;
    mret true.

(** crates/spar-parser/src/grammar/mod.rs:257-259 [package_name] *)
Definition package_name : M bool := name.

(** ** Classifier references and prototype bindings

    The three functions are mutually recursive.  Each is written over the
    one it calls; [classifier_ref_n] closes the recursion on fuel. *)

(** crates/spar-parser/src/grammar/mod.rs:89-119 [classifier_ref] *)
Definition classifier_ref_with (prototype_binding_list : M unit) : M bool :=
  IF ! at_ident_or_kw THEN mret false
  ELSE
    m ← start;
    bump_as_ident ;;
    while (at_ COLON_COLON) (
      bump COLON_COLON ;;
      (IF at_ident_or_kw THEN bump_as_ident
       ELSE error "expected identifier after `::`")) ;;
    when (at_ DOT) (
      bump DOT ;;
      (IF at_ident_or_kw THEN bump_as_ident
       ELSE error "expected implementation name after `.`")) ;;
    when (at_ L_PAREN) prototype_binding_list ;;
    complete m CLASSIFIER_REF ;;
    mret true.

(** crates/spar-parser/src/grammar/mod.rs:149-168 [prototype_binding]: the
    optional direction. *)
Definition prototype_direction : M unit :=
  when (at_ IN_KW || at_ OUT_KW || at_ PROVIDES_KW || at_ REQUIRES_KW) (
    d ← start;
    (IF at_ IN_KW THEN
       bump IN_KW ;;
       when (at_ OUT_KW) (bump OUT_KW)
     ELSE IF at_ OUT_KW THEN bump OUT_KW
     ELSE bump_any) ;;
    complete d DIRECTION ;; mret tt).

(** crates/spar-parser/src/grammar/mod.rs:171-204 [prototype_binding]: the
    port or access category. *)
Definition prototype_binding_kind : M unit :=
  IF at_ DATA_KW && nth_is 1 PORT_KW THEN bump DATA_KW ;; bump PORT_KW
  ELSE IF at_ EVENT_KW && nth_is 1 DATA_KW THEN
    bump EVENT_KW ;; bump DATA_KW ;; eat PORT_KW ;; mret tt
  ELSE IF at_ EVENT_KW && nth_is 1 PORT_KW THEN bump EVENT_KW ;; bump PORT_KW
  ELSE IF at_ EVENT_KW THEN bump EVENT_KW
  ELSE IF at_ DATA_KW && nth_is 1 ACCESS_KW THEN bump DATA_KW ;; bump ACCESS_KW
  ELSE IF at_ BUS_KW && nth_is 1 ACCESS_KW THEN bump BUS_KW ;; bump ACCESS_KW
  ELSE IF at_ FEATURE_KW THEN bump FEATURE_KW ;; when (at_ GROUP_KW) (bump GROUP_KW)
  ELSE IF cur is_component_category_kw THEN component_category ;; mret tt
  ELSE IF at_ PORT_KW THEN bump PORT_KW
  ELSE IF at_ ACCESS_KW THEN bump ACCESS_KW
  ELSE mret tt.

(** crates/spar-parser/src/grammar/mod.rs:143-211 [prototype_binding] *)
Definition prototype_binding_with (classifier_ref : M bool) : M unit :=
  m ← start;
  bump_as_ident ;;
  expect FAT_ARROW ;;
  prototype_direction ;;
  prototype_binding_kind ;;
  when (at_ident_or_kw && ! at_ R_PAREN && ! at_ COMMA) (classifier_ref ;; mret tt) ;;
  complete m PROTOTYPE_BINDING ;; mret tt.

(** crates/spar-parser/src/grammar/mod.rs:122-133 [prototype_binding_list] *)
Definition prototype_binding_list_with (classifier_ref : M bool) : M unit :=
  m ← start;
  bump L_PAREN ;;
  when at_ident_or_kw (
    prototype_binding_with classifier_ref ;;
    while_eat COMMA (prototype_binding_with classifier_ref)) ;;
  expect R_PAREN ;;
  complete m PROTOTYPE_BINDING_LIST ;; mret tt.

(** crates/spar-parser/src/grammar/mod.rs:89-119 [classifier_ref] *)
Fixpoint classifier_ref_n (fuel : nat) (p : Parser) : Exec (bool * Parser) :=
  match fuel with
  | O => Stuck
  | S n => classifier_ref_with (prototype_binding_list_with (classifier_ref_n n)) p
  end.

(** crates/spar-parser/src/grammar/mod.rs:89-119 [classifier_ref]: a nested
    reference is preceded by a parenthesis, so the tokens left are fuel
    enough. *)
Definition classifier_ref : M bool := λ p, classifier_ref_n (S (remaining p)) p.

(** crates/spar-parser/src/grammar/mod.rs:122-133 [prototype_binding_list] *)
Definition prototype_binding_list : M unit := prototype_binding_list_with classifier_ref.

(** A reference whose result the caller drops. *)
Definition classifier_ref_ : M unit := classifier_ref ;; mret tt.

(** [if p.at(IDENT) { classifier_ref(p); }], the optional type reference of
    features, subcomponents, calls and prototypes. *)
Definition opt_classifier_ref : M unit := when (at_ IDENT) classifier_ref_.

(** ** Annexes *)

(** crates/spar-parser/src/grammar/annexes.rs:18-51 [annex_subclause]: the
    part the subclause and the library share word for word: name, text or
    file reference, closing. *)
Definition annex_body : M unit :=
  (IF at_ IDENT THEN bump IDENT
   ELSE IF at_ FILE_KW THEN bump_any
   ELSE error "expected annex name") ;;
  (IF at_ ANNEX_OPEN THEN
     bump ANNEX_OPEN ;;
     (IF at_ FILE_KW && nth_is 1 L_PAREN THEN
        fr ← start;
        bump FILE_KW ;;
        bump L_PAREN ;;
        (IF at_ STRING_LIT THEN bump STRING_LIT
         ELSE error "expected file path string") ;;
        expect R_PAREN ;;
        complete fr FILE_REFERENCE ;; mret tt
      ELSE while (! at_ ANNEX_CLOSE && ! at_end) bump_any) ;;
     expect ANNEX_CLOSE ;; mret tt
   ELSE error "expected `{**`") ;;
  expect SEMICOLON ;; mret tt.

(** crates/spar-parser/src/grammar/annexes.rs:13-55 [annex_subclause] *)
Definition annex_subclause : M unit :=
  m ← start;
  bump ANNEX_KW ;;
  annex_body ;;
  complete m ANNEX_SUBCLAUSE ;; mret tt.

(** crates/spar-parser/src/grammar/annexes.rs:60-98 [annex_library] *)
Definition annex_library : M unit :=
  m ← start;
  bump ANNEX_KW ;;
  annex_body ;;
  complete m ANNEX_LIBRARY ;; mret tt.

(** ** [in modes] *)

(** crates/spar-parser/src/grammar/modes.rs:133-141 [mode_or_mapping] *)
Definition mode_or_mapping : M unit :=
  when (at_ IDENT || cur is_keyword) (
    bump_any ;;
    b ← eat FAT_ARROW;
    if (b : bool) then when (at_ IDENT || cur is_keyword) bump_any else mret tt).

(** crates/spar-parser/src/grammar/modes.rs:116-130 [in_modes] *)
Definition in_modes : M unit :=
  when (at_ IN_KW && nth_is 1 MODES_KW) (
    bump IN_KW ;;
    bump MODES_KW ;;
    expect L_PAREN ;;
    when (at_ IDENT || cur is_keyword) (
      mode_or_mapping ;;
      while_eat COMMA mode_or_mapping) ;;
    expect R_PAREN ;; mret tt).
