(* ===== verification/GrammarProperties.v ===== *)
(** * The grammar: properties

    [crates/spar-parser/src/grammar/properties.rs]: associations, value
    expressions, property sets and property types. *)
From S2P Require Import Prelude.
From S2P Require Export Grammar.
#[local] Open Scope string_scope.

(** ** Paths *)

(** crates/spar-parser/src/grammar/properties.rs:328-342 [array_subscripts] *)
Definition array_subscripts : M unit :=
  while (at_ L_BRACKET) (
    bump L_BRACKET ;;
    (IF at_ INTEGER_LIT THEN
       bump INTEGER_LIT ;;
       b ← eat DOT_DOT;
       if (b : bool) then when (at_ INTEGER_LIT) (bump INTEGER_LIT) else mret tt
     ELSE when (at_ IDENT) (bump IDENT)) ;;
    expect R_BRACKET ;; mret tt).

(** crates/spar-parser/src/grammar/properties.rs:307-321 [containment_path] *)
Definition containment_path : M unit :=
  m ← start;
  when (at_ IDENT) (
    bump IDENT ;;
    array_subscripts ;;
    while (at_ DOT) (
      bump DOT ;;
      when (at_ IDENT) (bump IDENT ;; array_subscripts))) ;;
  complete m CONTAINMENT_PATH ;; mret tt.

(** crates/spar-parser/src/grammar/properties.rs:295-304 [applies_to] *)
Definition applies_to : M unit :=
  m ← start;
  bump APPLIES_KW ;;
  expect TO_KW ;;
  containment_path ;;
  while_eat COMMA containment_path ;;
  complete m APPLIES_TO ;; mret tt.

(** crates/spar-parser/src/grammar/properties.rs:345-353 [in_binding] *)
Definition in_binding : M unit :=
  m ← start;
  bump IN_KW ;;
  bump BINDING_KW ;;
  expect L_PAREN ;;
  classifier_ref_ ;;
  expect R_PAREN ;;
  complete m IN_BINDING ;; mret tt.

(** ** Value expressions *)

(** crates/spar-parser/src/grammar/properties.rs:287-292 [is_c_style_radix_literal] *)
Definition is_c_style_radix_literal (text : bytes) : bool :=
  match text with
  | b0 :: b1 :: _ :: _ =>
      (b0 =?c "0") && existsb (λ c, b1 =?c c) ["x"; "X"; "o"; "O"; "b"; "B"]%char
  | _ => false
  end.

(** [if p.at(IDENT) { p.bump(IDENT); }]. *)
Definition opt_ident : M unit := when (at_ IDENT) (bump IDENT).

(** crates/spar-parser/src/grammar/properties.rs:145-281 [property_expression_primary] *)
Definition primary_with (property_expression : M unit)
    (property_expression_primary : M (option CompletedMarker)) : M (option CompletedMarker) :=
  IF at_ INTEGER_LIT THEN
    m ← start; bump INTEGER_LIT ;; opt_ident ;; complete_some m INTEGER_VALUE
  ELSE IF at_ REAL_LIT THEN
    m ← start; bump REAL_LIT ;; opt_ident ;; complete_some m REAL_VALUE
  ELSE IF at_ STRING_LIT THEN
    m ← start; bump STRING_LIT ;; complete_some m STRING_VALUE
  ELSE IF at_ TRUE_KW || at_ FALSE_KW THEN
    m ← start; bump_any ;; complete_some m BOOLEAN_VALUE
  ELSE IF at_ NOT_KW THEN
    m ← start; bump NOT_KW ;; property_expression ;; complete_some m BOOLEAN_VALUE
  ELSE IF at_ CLASSIFIER_KW THEN
    m ← start;
    bump CLASSIFIER_KW ;; expect L_PAREN ;; classifier_ref_ ;; expect R_PAREN ;;
    complete_some m CLASSIFIER_VALUE
  ELSE IF at_ REFERENCE_KW THEN
    m ← start;
    bump REFERENCE_KW ;; expect L_PAREN ;; containment_path ;; expect R_PAREN ;;
    complete_some m REFERENCE_VALUE
  ELSE IF at_ COMPUTE_KW THEN
    m ← start;
    bump COMPUTE_KW ;; expect L_PAREN ;; opt_ident ;; expect R_PAREN ;;
    complete_some m COMPUTED_VALUE
  ELSE IF at_ L_PAREN THEN
    m ← start;
    bump L_PAREN ;;
    when (! at_ R_PAREN) (
      property_expression ;;
      while_eat COMMA property_expression) ;;
    expect R_PAREN ;;
    complete_some m LIST_VALUE
  ELSE IF at_ L_BRACKET THEN
    m ← start;
    bump L_BRACKET ;;
    while (at_ IDENT) (
      f ← start;
      bump IDENT ;;
      expect FAT_ARROW ;;
      property_expression ;;
      expect SEMICOLON ;;
      complete f RECORD_FIELD ;; mret tt) ;;
    expect R_BRACKET ;;
    complete_some m RECORD_VALUE
  ELSE IF at_ IDENT THEN
    m ← start;
    bump IDENT ;;
    while (at_ COLON_COLON) (
      bump COLON_COLON ;;
      when (at_ IDENT || cur is_keyword) bump_any) ;;
    complete_some m PROPERTY_EXPRESSION
  ELSE IF at_ PLUS || at_ MINUS THEN
    m ← start;
    bump_any ;;
    property_expression_primary ;;
    complete_some m PROPERTY_EXPRESSION
  ELSE
    c_style ← (IF at_ ERROR
               THEN t ← reads_exec current_text; mret (is_c_style_radix_literal t)
               ELSE mret false);
    if (c_style : bool) then
      m ← start;
      error ("C-style radix literal is not valid AADL; use based notation, " +:+
             "e.g. `16#…#` for hexadecimal") ;;
      bump_any ;;
      complete_some m ERROR
    else
      error "expected property expression" ;; mret None.

(** The loop of the two binary levels:
    [while matches!(p.current(), op1 | op2) { let m = lhs.precede(p); ... }]. *)
Definition binary_level (op1 op2 : SyntaxKind) (operand : M (option CompletedMarker))
    : M (option CompletedMarker) :=
  binary_operands (at_ op1 || at_ op2) bump_any operand BINARY_EXPR.

(** crates/spar-parser/src/grammar/properties.rs:134-143 [multiplicative_expression] *)
Definition multiplicative_with (primary : M (option CompletedMarker)) : M (option CompletedMarker) :=
  binary_level STAR SLASH primary.

(** crates/spar-parser/src/grammar/properties.rs:122-131 [additive_expression] *)
Definition additive_with (primary : M (option CompletedMarker)) : M (option CompletedMarker) :=
  binary_level PLUS MINUS (multiplicative_with primary).

(** crates/spar-parser/src/grammar/properties.rs:103-119 [property_expression] *)
Definition property_expression_with (primary : M (option CompletedMarker)) : M unit :=
  o ← additive_with primary;
  match o with
  | None => mret tt
  | Some lhs =>
      when (at_ DOT_DOT) (
        m ← precede lhs;
        bump DOT_DOT ;;
        additive_with primary ;;
        when (at_ DELTA_KW) (
          d ← start;
          bump DELTA_KW ;;
          additive_with primary ;;
          complete d DELTA_VALUE ;; mret tt) ;;
        complete m RANGE_VALUE ;; mret tt)
  end.

(** crates/spar-parser/src/grammar/properties.rs:145-281 [property_expression_primary] *)
Fixpoint primary_n (fuel : nat) (p : Parser) : Exec (option CompletedMarker * Parser) :=
  match fuel with
  | O => Stuck
  | S n => primary_with (property_expression_with (primary_n n)) (primary_n n) p
  end.

(** crates/spar-parser/src/grammar/properties.rs:103-119 [property_expression]:
    every nested expression follows a consumed token. *)
Definition property_expression : M unit := λ p,
  property_expression_with (primary_n (S (remaining p))) p.

(** crates/spar-parser/src/grammar/properties.rs:78-88 [property_value] *)
Definition property_value : M unit :=
  property_expression ;;
  when (at_ IN_KW && nth_is 1 MODES_KW) (
    m ← start;
    in_modes ;;
    complete m MODAL_PROPERTY_VALUE ;; mret tt).

(** ** Associations *)

(** crates/spar-parser/src/grammar/properties.rs:59-75 [property_ref] *)
Definition property_ref : M unit :=
  m ← start;
  (IF at_name THEN
     bump_any ;;
     when (at_ COLON_COLON) (
       bump COLON_COLON ;;
       (IF at_name THEN bump_any ELSE error "expected property name after `::`"))
   ELSE error "expected property name") ;;
  complete m PROPERTY_REF ;; mret tt.

(** crates/spar-parser/src/grammar/properties.rs:23-56 [property_association] *)
Definition property_association : M unit :=
  m ← start;
  property_ref ;;
  b ← eat FAT_ARROW;
  (if (b : bool) then mret tt else
     b ← eat PLUS_ARROW;
     if (b : bool) then mret tt else error "expected `=>` or `+=>`") ;;
  eat CONSTANT_KW ;;
  property_value ;;
  while (at_ COMMA) (bump COMMA ;; property_value) ;;
  when (at_ APPLIES_KW) applies_to ;;
  when (at_ IN_KW && nth_is 1 BINDING_KW) in_binding ;;
  expect SEMICOLON ;;
  complete m PROPERTY_ASSOCIATION ;; mret tt.

(** The body shared by the sections that may be [none;]:
    [if p.at(NONE_KW) { bump; expect(;) } else { while f(p) { item(p) } }]. *)
Definition none_or (f : Parser → bool) (item : M unit) : M unit :=
  IF at_ NONE_KW THEN bump NONE_KW ;; expect SEMICOLON ;; mret tt
  ELSE while f item.
Arguments none_or f%_P item.

(** crates/spar-parser/src/grammar/properties.rs:8-20 [property_section] *)
Definition property_section : M unit :=
  m ← start;
  bump PROPERTIES_KW ;;
  none_or at_name property_association ;;
  complete m PROPERTY_SECTION ;; mret tt.

(** crates/spar-parser/src/grammar/properties.rs:356-364 [property_block] *)
Definition property_block : M unit :=
  m ← start;
  bump L_CURLY ;;
  while at_name property_association ;;
  expect R_CURLY ;;
  complete m PROPERTY_SECTION ;; mret tt.

(** [if p.at(L_CURLY) { property_block(p); }]. *)
Definition opt_property_block : M unit := when (at_ L_CURLY) property_block.

(** ** Property types *)

(** crates/spar-parser/src/grammar/properties.rs:588-603 [numeric_bound] *)
Definition numeric_bound : M unit :=
  b ← eat PLUS;
  (if (b : bool) then mret tt else eat MINUS ;; mret tt) ;;
  (IF at_ INTEGER_LIT || at_ REAL_LIT THEN bump_any ;; opt_ident
   ELSE IF at_ IDENT THEN
     bump IDENT ;;
     b ← eat COLON_COLON;
     if (b : bool) then opt_ident else mret tt
   ELSE mret tt).

(** crates/spar-parser/src/grammar/properties.rs:572-584 [numeric_range_opt] *)
Definition numeric_range_opt : M unit :=
  IF ! (at_ INTEGER_LIT || at_ REAL_LIT || at_ MINUS || at_ PLUS) THEN mret tt
  ELSE
    numeric_bound ;;
    b ← eat DOT_DOT;
    if (b : bool) then numeric_bound else mret tt.

(** crates/spar-parser/src/grammar/properties.rs:610-633 [units_designator_body] *)
Definition units_designator_body : M unit :=
  expect L_PAREN ;;
  when (at_ IDENT) (
    bump IDENT ;;
    while_eat COMMA (
      when (at_ IDENT) (
        bump IDENT ;;
        b ← eat FAT_ARROW;
        if (b : bool) then
          opt_ident ;;
          b ← eat STAR;
          if (b : bool) then
            IF at_ INTEGER_LIT THEN bump INTEGER_LIT
            ELSE when (at_ REAL_LIT) (bump REAL_LIT)
          else mret tt
        else mret tt))) ;;
  expect R_PAREN ;; mret tt.

(** crates/spar-parser/src/grammar/properties.rs:637-643 [numeric_units_designator] *)
Definition numeric_units_designator : M unit :=
  IF at_ L_PAREN THEN units_designator_body
  ELSE when (at_ IDENT) classifier_ref_.

(** crates/spar-parser/src/grammar/properties.rs:555-562 [classifier_ref_list_element] *)
Definition classifier_ref_list_element : M unit :=
  IF at_ VIRTUAL_KW && (nth_is 1 BUS_KW || nth_is 1 PROCESSOR_KW) THEN component_category ;; mret tt
  ELSE classifier_ref_.

(** crates/spar-parser/src/grammar/properties.rs:533-543 [classifier_ref_list_in_parens] *)
Definition classifier_ref_list_in_parens : M unit :=
  IF ! at_ L_PAREN THEN mret tt
  ELSE
    bump L_PAREN ;;
    classifier_ref_list_element ;;
    while_eat COMMA classifier_ref_list_element ;;
    expect R_PAREN ;; mret tt.

(** crates/spar-parser/src/grammar/properties.rs:445-528 [property_type] *)
Definition property_type_with (property_type : M unit) : M unit :=
  m ← start;
  (IF at_ AADLBOOLEAN_KW THEN bump AADLBOOLEAN_KW
   ELSE IF at_ AADLINTEGER_KW THEN
     bump AADLINTEGER_KW ;;
     numeric_range_opt ;;
     when (at_ UNITS_KW) (bump UNITS_KW ;; numeric_units_designator)
   ELSE IF at_ AADLREAL_KW THEN
     bump AADLREAL_KW ;;
     numeric_range_opt ;;
     when (at_ UNITS_KW) (bump UNITS_KW ;; numeric_units_designator)
   ELSE IF at_ AADLSTRING_KW THEN bump AADLSTRING_KW
   ELSE IF at_ ENUMERATION_KW THEN
     bump ENUMERATION_KW ;;
     expect L_PAREN ;;
     when (at_ IDENT) (bump IDENT ;; while_eat COMMA opt_ident) ;;
     expect R_PAREN ;; mret tt
   ELSE IF at_ LIST_KW THEN bump LIST_KW ;; expect OF_KW ;; property_type
   ELSE IF at_ RANGE_KW THEN bump RANGE_KW ;; expect OF_KW ;; property_type
   ELSE IF at_ RECORD_KW THEN
     bump RECORD_KW ;;
     expect L_PAREN ;;
     while (at_ IDENT) (
       f ← start;
       bump IDENT ;;
       expect COLON ;;
       property_type ;;
       expect SEMICOLON ;;
       complete f RECORD_FIELD ;; mret tt) ;;
     expect R_PAREN ;; mret tt
   ELSE IF at_ UNITS_KW THEN bump UNITS_KW ;; units_designator_body
   ELSE IF at_ CLASSIFIER_KW THEN bump CLASSIFIER_KW ;; classifier_ref_list_in_parens
   ELSE IF at_ REFERENCE_KW THEN bump REFERENCE_KW ;; classifier_ref_list_in_parens
   ELSE IF at_ IDENT THEN classifier_ref_
   ELSE error "expected property type") ;;
  complete m PROPERTY_TYPE ;; mret tt.

(** crates/spar-parser/src/grammar/properties.rs:445-528 [property_type] *)
Fixpoint property_type_n (fuel : nat) (p : Parser) : Exec (unit * Parser) :=
  match fuel with
  | O => Stuck
  | S n => property_type_with (property_type_n n) p
  end.

(** crates/spar-parser/src/grammar/properties.rs:445-528 [property_type]: every
    nested type follows a consumed token. *)
Definition property_type : M unit := λ p, property_type_n (S (remaining p)) p.

(** ** Property sets *)

(** crates/spar-parser/src/grammar/properties.rs:645-735 [applies_to_category] *)
Definition applies_to_category : M unit :=
  IF at_ ALL_KW THEN bump ALL_KW
  ELSE IF at_ FEATURE_KW THEN
    bump FEATURE_KW ;;
    b ← eat GROUP_KW;
    if (b : bool) then eat TYPE_KW ;; mret tt else mret tt
  ELSE IF at_ EVENT_KW THEN
    bump EVENT_KW ;; eat DATA_KW ;; expect PORT_KW ;; mret tt
  ELSE IF cur is_component_category_kw THEN
    component_category ;;
    when (at_ ACCESS_KW || at_ PORT_KW) bump_any ;;
    b ← eat IMPLEMENTATION_KW;
    if (b : bool) then mret tt else eat TYPE_KW ;; mret tt
  ELSE IF at_ PORT_KW || at_ FLOW_KW || at_ MODE_KW || at_ ACCESS_KW || at_ PARAMETER_KW
       || at_ CONNECTIONS_KW || at_ PACKAGE_KW || at_ CLASSIFIER_KW THEN bump_any
  ELSE IF at_ L_CURLY THEN
    bump L_CURLY ;;
    expect IDENT ;;
    expect R_CURLY ;;
    expect STAR ;;
    expect STAR ;;
    when (at_ COMMA || at_ R_PAREN || at_end)
      (error "expected an annex property owner name after `**`") ;;
    while (! at_ COMMA && ! at_ R_PAREN && ! at_end) bump_any
  ELSE IF at_ IDENT THEN bump IDENT
  ELSE error ("expected a property owner: a component category, `all`, `port`, " +:+
              "`feature`, `flow`, `mode`, `connections`, `access`, or `parameter`").

(** crates/spar-parser/src/grammar/properties.rs:401-443 [property_definition_or_constant] *)
Definition property_definition_or_constant : M unit :=
  m ← start;
  bump_any ;;
  expect COLON ;;
  (IF at_ CONSTANT_KW THEN
     bump CONSTANT_KW ;;
     property_type ;;
     expect FAT_ARROW ;;
     property_expression ;;
     expect SEMICOLON ;;
     complete m PROPERTY_CONSTANT ;; mret tt
   ELSE IF at_ TYPE_KW THEN
     bump TYPE_KW ;;
     property_type ;;
     expect SEMICOLON ;;
     complete m PROPERTY_TYPE_DECL ;; mret tt
   ELSE
     eat INHERIT_KW ;;
     property_type ;;
     b ← eat FAT_ARROW;
     (if (b : bool) then property_expression else mret tt) ;;
     expect APPLIES_KW ;;
     expect TO_KW ;;
     expect L_PAREN ;;
     applies_to_category ;;
     while_eat COMMA applies_to_category ;;
     expect R_PAREN ;;
     expect SEMICOLON ;;
     complete m PROPERTY_DEFINITION ;; mret tt).

(** crates/spar-parser/src/grammar/properties.rs:367-399 [property_set] *)
Definition property_set : M unit :=
  m ← start;
  bump PROPERTY_KW ;;
  expect SET_KW ;;
  name ;;
  expect IS_KW ;;
  while (at_ WITH_KW) (
    w ← start;
    bump WITH_KW ;;
    name ;;
    while_eat COMMA (name ;; mret tt) ;;
    expect SEMICOLON ;;
    complete w WITH_CLAUSE ;; mret tt) ;;
  iter (λ _,
    IF ! at_ END_KW && ! at_end THEN
      IF at_name THEN property_definition_or_constant ;; mret (inl tt)
      ELSE mret (inr tt)
    ELSE mret (inr tt)) tt ;;
  expect END_KW ;;
  name ;;
  expect SEMICOLON ;;
  complete m PROPERTY_SET ;; mret tt.
