(* ===== verification/GrammarSections.v ===== *)
(** * The grammar: modes, flows, connections and features

    [crates/spar-parser/src/grammar/modes.rs], [flows.rs], [connections.rs]
    and [features.rs]: the sections of a component. *)
From S2P Require Import Prelude.
From S2P Require Export Categories.
From S2P Require Export GrammarProperties.
#[local] Open Scope string_scope.

(** [p.at(IDENT) || p.current().is_keyword()] guarding a [bump_any]. *)
Definition opt_ident_or_kw : M unit := when (at_ IDENT || cur is_keyword) bump_any.

(** [while p.at(DOT) { p.bump(DOT); if name { p.bump_any(); } }]. *)
Definition dotted_tail : M unit := while (at_ DOT) (bump DOT ;; opt_ident_or_kw).

(** ** Modes *)

(** crates/spar-parser/src/grammar/modes.rs:27-29 [at_unnamed_transition] *)
Definition at_unnamed_transition : Parser → bool :=
  ((at_ IDENT || cur is_keyword) && nth_is 1 DASH_BRACKET)%P.

(** crates/spar-parser/src/grammar/modes.rs:95-113 [trigger_ref] *)
Definition trigger_ref : M unit :=
  IF at_ SELF_KW THEN
    bump SELF_KW ;;
    when (at_ DOT) (bump DOT ;; opt_ident_or_kw)
  ELSE when (at_ IDENT || cur is_keyword) (bump_any ;; dotted_tail).

(** crates/spar-parser/src/grammar/modes.rs:72-92 [parse_transition_tail] *)
Definition parse_transition_tail : M unit :=
  expect DASH_BRACKET ;;
  t ← start;
  when (at_ IDENT || at_ SELF_KW || cur is_keyword) (
    trigger_ref ;;
    while_eat COMMA trigger_ref) ;;
  complete t MODE_TRIGGER ;;
  expect BRACKET_ARROW ;;
  (IF at_ IDENT || cur is_keyword THEN bump_any ELSE error "expected destination mode") ;;
  expect SEMICOLON ;; mret tt.

(** crates/spar-parser/src/grammar/modes.rs:32-69 [mode_or_transition] *)
Definition mode_or_transition : M unit :=
  m ← start;
  (IF at_unnamed_transition THEN
     bump_any ;;
     parse_transition_tail ;;
     complete m MODE_TRANSITION ;; mret tt
   ELSE
     bump_any ;;
     expect COLON ;;
     (IF at_ INITIAL_KW || at_ MODE_KW THEN
        eat INITIAL_KW ;;
        expect MODE_KW ;;
        opt_property_block ;;
        expect SEMICOLON ;;
        complete m MODE ;; mret tt
      ELSE IF at_name || at_unnamed_transition THEN
        bump_any ;;
        parse_transition_tail ;;
        complete m MODE_TRANSITION ;; mret tt
      ELSE
        error "expected `mode` or mode transition" ;;
        complete m ERROR ;; mret tt)).

(** crates/spar-parser/src/grammar/modes.rs:7-24 [mode_section] *)
Definition mode_section : M unit :=
  m ← start;
  when (at_ REQUIRES_KW) (bump REQUIRES_KW) ;;
  bump MODES_KW ;;
  none_or (at_name || at_unnamed_transition) mode_or_transition ;;
  complete m MODE_SECTION ;; mret tt.

(** [if p.at(IN_KW) { in_modes(p); }]. *)
Definition opt_in_modes : M unit := when (at_ IN_KW) in_modes.

(** ** Flows *)

(** crates/spar-parser/src/grammar/flows.rs:154-166 [flow_end] *)
Definition flow_end : M unit :=
  m ← start;
  when (at_ IDENT || cur is_keyword) (bump_any ;; dotted_tail) ;;
  complete m FLOW_END ;; mret tt.

(** crates/spar-parser/src/grammar/flows.rs:191-203 [flow_segment] *)
Definition flow_segment : M unit :=
  m ← start;
  when (at_ IDENT || cur is_keyword) (bump_any ;; dotted_tail) ;;
  complete m FLOW_SEGMENT ;; mret tt.

(** crates/spar-parser/src/grammar/flows.rs:169-188 [at_flow_segment] *)
Definition at_flow_segment : Parser → bool := λ p,
  if at_ IDENT p then true
  else if cur is_keyword p then
    if at_ IN_KW p && nth_is 1 MODES_KW p then false
    else if at_ END_KW p || at_ SEMICOLON p || at_ L_CURLY p then false
    else true
  else false.

(** crates/spar-parser/src/grammar/flows.rs:44-50 [flow_spec]: the optional
    [refined to], the same five lines in flows, connections, features,
    prototypes and subcomponents. *)
Definition opt_refined_to : M unit :=
  when (at_ REFINED_KW) (
    r ← start;
    bump REFINED_KW ;;
    expect TO_KW ;;
    complete r REFINED_TO ;; mret tt).

(** crates/spar-parser/src/grammar/flows.rs:54-62 [flow_spec]: the flow kind;
    [flow_impl_or_e2e] has another message. *)
Definition flow_kind (msg : string) : M unit :=
  k ← start;
  (IF at_ SOURCE_KW THEN bump SOURCE_KW
   ELSE IF at_ SINK_KW THEN bump SINK_KW
   ELSE IF at_ PATH_KW THEN bump PATH_KW
   ELSE error msg) ;;
  complete k FLOW_KIND ;; mret tt.

(** crates/spar-parser/src/grammar/flows.rs:39-82 [flow_spec] *)
Definition flow_spec : M unit :=
  m ← start;
  bump_any ;;
  expect COLON ;;
  opt_refined_to ;;
  expect FLOW_KW ;;
  flow_kind "expected `source`, `sink`, or `path`" ;;
  flow_end ;;
  b ← eat ARROW;
  (if (b : bool) then flow_end else mret tt) ;;
  opt_property_block ;;
  opt_in_modes ;;
  expect SEMICOLON ;;
  complete m FLOW_SPEC ;; mret tt.

(** crates/spar-parser/src/grammar/flows.rs:105-119 [flow_impl_or_e2e]: the
    segments, the property block, the modes and the semicolon, which both
    forms end with. *)
Definition flow_segments : M unit :=
  when at_flow_segment (
    flow_segment ;;
    while_eat ARROW flow_segment) ;;
  opt_property_block ;;
  opt_in_modes ;;
  expect SEMICOLON ;; mret tt.

(** crates/spar-parser/src/grammar/flows.rs:85-151 [flow_impl_or_e2e] *)
Definition flow_impl_or_e2e : M unit :=
  m ← start;
  bump_any ;;
  expect COLON ;;
  opt_refined_to ;;
  (IF at_ END_KW && nth_is 1 TO_KW THEN
     bump END_KW ;;
     expect TO_KW ;;
     expect END_KW ;;
     expect FLOW_KW ;;
     flow_segments ;;
     complete m END_TO_END_FLOW ;; mret tt
   ELSE
     expect FLOW_KW ;;
     flow_kind "expected flow kind" ;;
     flow_segments ;;
     complete m FLOW_IMPL ;; mret tt).

(** crates/spar-parser/src/grammar/flows.rs:7-19 [flow_spec_section] *)
Definition flow_spec_section : M unit :=
  m ← start;
  bump FLOWS_KW ;;
  none_or at_name flow_spec ;;
  complete m FLOW_SPEC_SECTION ;; mret tt.

(** crates/spar-parser/src/grammar/flows.rs:22-36 [flow_impl_section] *)
Definition flow_impl_section : M unit :=
  m ← start;
  bump FLOWS_KW ;;
  none_or at_name flow_impl_or_e2e ;;
  complete m FLOW_IMPL_SECTION ;; mret tt.

(** ** Connections *)

(** crates/spar-parser/src/grammar/connections.rs:138-162 [connected_element] *)
Definition connected_element : M unit :=
  m ← start;
  (IF at_ IDENT || cur is_keyword THEN
     bump_any ;;
     while (at_ DOT) (
       bump DOT ;;
       (IF at_ IDENT || cur is_keyword THEN bump_any
        ELSE error "expected feature name after `.`"))
   ELSE IF at_ SELF_KW THEN
     bump SELF_KW ;;
     when (at_ DOT) (bump DOT ;; opt_ident_or_kw)
   ELSE error "expected connection endpoint") ;;
  complete m CONNECTED_ELEMENT ;; mret tt.

(** crates/spar-parser/src/grammar/connections.rs:39-98 [connection]: the
    [match] that consumes the kind keywords and names the node. *)
Definition connection_kind : M SyntaxKind :=
  IF at_ PORT_KW THEN bump PORT_KW ;; mret PORT_CONNECTION
  ELSE IF at_ ACCESS_KW THEN bump ACCESS_KW ;; mret ACCESS_CONNECTION
  ELSE IF at_ FEATURE_KW THEN
    bump FEATURE_KW ;;
    (IF at_ GROUP_KW THEN bump GROUP_KW ;; mret FEATURE_GROUP_CONNECTION
     ELSE mret FEATURE_CONNECTION)
  ELSE IF at_ PARAMETER_KW THEN bump PARAMETER_KW ;; mret PARAMETER_CONNECTION
  ELSE IF at_ DATA_KW && nth_is 1 ACCESS_KW THEN
    bump DATA_KW ;; bump ACCESS_KW ;; mret ACCESS_CONNECTION
  ELSE IF at_ BUS_KW && nth_is 1 ACCESS_KW THEN
    bump BUS_KW ;; bump ACCESS_KW ;; mret ACCESS_CONNECTION
  ELSE IF at_ SUBPROGRAM_KW && nth_is 1 ACCESS_KW THEN
    bump SUBPROGRAM_KW ;; bump ACCESS_KW ;; mret ACCESS_CONNECTION
  ELSE IF at_ SUBPROGRAM_KW && (nth_is 1 GROUP_KW && nth_is 2 ACCESS_KW) THEN
    bump SUBPROGRAM_KW ;; bump GROUP_KW ;; bump ACCESS_KW ;; mret ACCESS_CONNECTION
  ELSE IF at_ VIRTUAL_KW && (nth_is 1 BUS_KW && nth_is 2 ACCESS_KW) THEN
    bump VIRTUAL_KW ;; bump BUS_KW ;; bump ACCESS_KW ;; mret ACCESS_CONNECTION
  ELSE
    error "expected connection kind (`port`, `access`, `feature`, `parameter`)" ;;
    mret PORT_CONNECTION.

(** crates/spar-parser/src/grammar/connections.rs:22-135 [connection] *)
Definition connection : M unit :=
  m ← start;
  bump_any ;;
  expect COLON ;;
  is_refined ← (
    IF at_ REFINED_KW THEN
      r ← start;
      bump REFINED_KW ;;
      expect TO_KW ;;
      complete r REFINED_TO ;;
      mret true
    ELSE mret false);
  kind ← connection_kind;
  (IF at_ IDENT || cur is_keyword || at_ SELF_KW THEN
     connected_element ;;
     b ← eat ARROW;
     (if (b : bool) then mret tt else
        b ← eat BIDI_ARROW;
        if (b : bool) then mret tt else error "expected `->` or `<->` in connection") ;;
     connected_element
   ELSE if negb is_refined then
     error ("connection must have source and destination (AS-5506B §9.2); " +:+
            "use `refined to` to inherit endpoints")
   else mret tt) ;;
  opt_property_block ;;
  opt_in_modes ;;
  expect SEMICOLON ;;
  complete m kind ;; mret tt.

(** crates/spar-parser/src/grammar/connections.rs:7-19 [connection_section] *)
Definition connection_section : M unit :=
  m ← start;
  bump CONNECTIONS_KW ;;
  none_or at_name connection ;;
  complete m CONNECTION_SECTION ;; mret tt.

(** ** Features *)

(** crates/spar-parser/src/grammar/components.rs:474-489 [array_dimension] *)
Definition array_dimension : M unit :=
  m ← start;
  bump L_BRACKET ;;
  when (! at_ R_BRACKET) (
    s ← start;
    (IF at_ INTEGER_LIT THEN bump INTEGER_LIT
     ELSE when (at_ IDENT) classifier_ref_) ;;
    complete s ARRAY_SIZE ;; mret tt) ;;
  expect R_BRACKET ;;
  complete m ARRAY_DIMENSION ;; mret tt.

(** crates/spar-parser/src/grammar/features.rs:298-307 [opt_property_block_and_semi] *)
Definition opt_property_block_and_semi : M unit :=
  while (at_ L_BRACKET) array_dimension ;;
  opt_property_block ;;
  expect SEMICOLON ;; mret tt.

(** crates/spar-parser/src/grammar/features.rs:344-351 [eat_to_semicolon] *)
Definition eat_to_semicolon : M unit :=
  while (! at_ SEMICOLON && ! at_end) bump_any ;;
  when (at_ SEMICOLON) (bump SEMICOLON).

(** crates/spar-parser/src/grammar/features.rs:329-342 [is_section_kw] *)
Definition is_section_kw : Parser → bool :=
  (at_ END_KW || at_ FEATURES_KW || at_ FLOWS_KW || at_ CONNECTIONS_KW || at_ MODES_KW
   || at_ PROPERTIES_KW || at_ SUBCOMPONENTS_KW || at_ ANNEX_KW || at_ CALLS_KW)%P.

(** crates/spar-parser/src/grammar/features.rs:313-325 [abstract_feature_classifier] *)
Definition abstract_feature_classifier : M unit :=
  IF at_ CLASSIFIER_KW && nth_is 1 L_PAREN THEN
    m ← start;
    bump CLASSIFIER_KW ;;
    bump L_PAREN ;;
    classifier_ref_ ;;
    expect R_PAREN ;;
    complete m CLASSIFIER_VALUE ;; mret tt
  ELSE when (at_ IDENT || (cur is_keyword && ! is_section_kw)) classifier_ref_.

(** crates/spar-parser/src/grammar/features.rs:288-296 [feature_group_ref] *)
Definition feature_group_ref : M unit :=
  IF at_ INVERSE_KW THEN
    bump INVERSE_KW ;;
    expect OF_KW ;;
    classifier_ref_
  ELSE opt_classifier_ref.

(** [opt_property_block_and_semi(p); m.complete(p, kind);], the end of every
    feature. *)
Definition end_feature (m : Marker) (kind : SyntaxKind) : M unit :=
  opt_property_block_and_semi ;;
  complete m kind ;; mret tt.

(** crates/spar-parser/src/grammar/features.rs:230-285 [access_feature] *)
Definition access_feature (m : Marker) : M unit :=
  IF at_ DATA_KW THEN
    bump DATA_KW ;; expect ACCESS_KW ;; opt_classifier_ref ;; end_feature m DATA_ACCESS
  ELSE IF at_ BUS_KW THEN
    bump BUS_KW ;; expect ACCESS_KW ;; opt_classifier_ref ;; end_feature m BUS_ACCESS
  ELSE IF at_ SUBPROGRAM_KW THEN
    bump SUBPROGRAM_KW ;;
    (IF at_ GROUP_KW THEN
       bump GROUP_KW ;; expect ACCESS_KW ;; opt_classifier_ref ;;
       end_feature m SUBPROGRAM_GROUP_ACCESS
     ELSE
       expect ACCESS_KW ;; opt_classifier_ref ;; end_feature m SUBPROGRAM_ACCESS)
  ELSE IF at_ VIRTUAL_KW && nth_is 1 BUS_KW THEN
    bump VIRTUAL_KW ;; bump BUS_KW ;; expect ACCESS_KW ;; opt_classifier_ref ;;
    end_feature m BUS_ACCESS
  ELSE
    error "expected access type after `provides`/`requires`" ;;
    eat_to_semicolon ;;
    complete m ERROR ;; mret tt.

(** crates/spar-parser/src/grammar/features.rs:364-380 [check_feature_legality]:
    the bounded scan, [n] tokens from the [i]-th. *)
Fixpoint feature_kind_scan (n i : nat) (p : Parser) : option FeatureKind :=
  match n with
  | O => None
  | S n =>
      let k := nth i p in
      if kind_eqb k SEMICOLON || kind_eqb k EOF then None
      else if kind_eqb k BUS_KW && nth_is (i + 1) ACCESS_KW p then Some BusAccess
      else if kind_eqb k PARAMETER_KW then Some Parameter_
      else feature_kind_scan n (S i) p
  end.

(** crates/spar-parser/src/grammar/features.rs:361-391 [check_feature_legality] *)
Definition check_feature_legality (outer : Category) : M unit :=
  kind ← reads (feature_kind_scan 24 0);
  match kind with
  | Some kind =>
      if may_have_feature outer kind then mret tt
      else error ("a `" +:+ feature_kind_as_str kind +:+ "` feature is not allowed on a `" +:+
                  category_as_str outer +:+ "`")
  | None => mret tt
  end.

(** crates/spar-parser/src/grammar/features.rs:90-100 [feature]: the
    direction; [first_was_in] is read before the first token is consumed. *)
Definition feature_direction : M unit :=
  d ← start;
  first_was_in ← reads (at_ IN_KW);
  bump_any ;;
  (IF (λ _, first_was_in) && at_ OUT_KW THEN bump OUT_KW
   ELSE IF at_ IN_KW || at_ OUT_KW THEN
     error "feature direction must be `in`, `out`, or `in out` (AS-5506B §8.1)" ;;
     bump_any
   ELSE mret tt) ;;
  complete d DIRECTION ;; mret tt.

(** crates/spar-parser/src/grammar/features.rs:161-169 [feature] *)
Definition data_port (m : Marker) : M unit :=
  bump DATA_KW ;; expect PORT_KW ;; opt_classifier_ref ;; end_feature m DATA_PORT.

(** crates/spar-parser/src/grammar/features.rs:170-185 [feature] *)
Definition event_port (m : Marker) : M unit :=
  bump EVENT_KW ;;
  (IF at_ DATA_KW THEN
     bump DATA_KW ;; expect PORT_KW ;; opt_classifier_ref ;; end_feature m EVENT_DATA_PORT
   ELSE
     expect PORT_KW ;; end_feature m EVENT_PORT).

(** crates/spar-parser/src/grammar/features.rs:190-203 [feature] *)
Definition feature_or_group (m : Marker) : M unit :=
  bump FEATURE_KW ;;
  (IF at_ GROUP_KW THEN
     bump GROUP_KW ;; feature_group_ref ;; end_feature m FEATURE_GROUP
   ELSE
     abstract_feature_classifier ;; end_feature m ABSTRACT_FEATURE).

(** crates/spar-parser/src/grammar/features.rs:81-160 [feature]: a feature
    that starts with a direction. *)
Definition directed_feature (m : Marker) : M unit :=
  feature_direction ;;
  (IF at_ DATA_KW THEN data_port m
   ELSE IF at_ EVENT_KW THEN event_port m
   ELSE IF at_ PARAMETER_KW THEN
     bump PARAMETER_KW ;; opt_classifier_ref ;; end_feature m PARAMETER
   ELSE IF at_ FEATURE_KW THEN feature_or_group m
   ELSE error "expected port type after direction" ;; end_feature m ERROR).

(** crates/spar-parser/src/grammar/features.rs:79-227 [feature]: the type of
    the feature, after its name. *)
Definition feature_type (m : Marker) : M unit :=
  IF at_ IN_KW || at_ OUT_KW THEN directed_feature m
  ELSE IF at_ DATA_KW THEN data_port m
  ELSE IF at_ EVENT_KW THEN event_port m
  ELSE IF at_ PROVIDES_KW || at_ REQUIRES_KW THEN bump_any ;; access_feature m
  ELSE IF at_ FEATURE_KW THEN feature_or_group m
  ELSE IF at_ PORT_KW THEN bump PORT_KW ;; opt_classifier_ref ;; end_feature m DATA_PORT
  ELSE
    is_prototype ← (IF at_ IDENT THEN at_contextual_kw "prototype" ELSE mret false);
    if (is_prototype : bool) then
      bump IDENT ;; opt_ident ;; end_feature m ABSTRACT_FEATURE
    else
      error "expected feature type" ;;
      eat_to_semicolon ;;
      complete m ERROR ;; mret tt.

(** crates/spar-parser/src/grammar/features.rs:50-68 [feature]: the name. *)
Definition feature_name : M unit :=
  IF at_ IDENT THEN bump IDENT
  ELSE IF (at_ IN_KW || at_ OUT_KW) && nth_is 1 COLON THEN
    error ("a feature cannot be named `in` or `out`; they are reserved words (AS-5506B Annex A)") ;;
    bump_any
  ELSE when at_name bump_any.

(** crates/spar-parser/src/grammar/features.rs:27-228 [feature] *)
Definition feature (container : option Category) : M unit :=
  (match container with Some outer => check_feature_legality outer | None => mret tt end) ;;
  (IF ! at_ IDENT && ! at_ IN_KW && ! at_ OUT_KW && ! at_ PROVIDES_KW && ! at_ REQUIRES_KW THEN
     err_and_bump "expected feature declaration"
   ELSE
     m ← start;
     feature_name ;;
     expect COLON ;;
     opt_refined_to ;;
     feature_type m).

(** crates/spar-parser/src/grammar/features.rs:7-24 [feature_section] *)
Definition feature_section (container : option Category) : M unit :=
  m ← start;
  bump FEATURES_KW ;;
  none_or (at_name || at_ IN_KW || at_ OUT_KW || at_ PROVIDES_KW || at_ REQUIRES_KW)
    (feature container) ;;
  complete m FEATURE_SECTION ;; mret tt.
