(* ===== verification/GrammarComponents.v ===== *)
(** * The grammar: components and packages

    [crates/spar-parser/src/grammar/components.rs], [packages.rs] and
    [source_file] of [mod.rs]. *)
From S2P Require Import Prelude.
From S2P Require Export GrammarSections.
#[local] Open Scope string_scope.

(** ** Sections of a component *)

(** crates/spar-parser/src/grammar/components.rs:202-207 [type_extension] *)
Definition type_extension : M unit :=
  m ← start;
  bump EXTENDS_KW ;;
  classifier_ref_ ;;
  complete m TYPE_EXTENSION ;; mret tt.

(** crates/spar-parser/src/grammar/components.rs:209-214 [impl_extension] *)
Definition impl_extension : M unit :=
  m ← start;
  bump EXTENDS_KW ;;
  classifier_ref_ ;;
  complete m IMPL_EXTENSION ;; mret tt.

(** crates/spar-parser/src/grammar/components.rs:346-390 [prototype] *)
Definition prototype : M unit :=
  m ← start;
  bump IDENT ;;
  expect COLON ;;
  opt_refined_to ;;
  when (at_ IN_KW || at_ OUT_KW) (
    d ← start;
    (IF at_ IN_KW THEN
       bump IN_KW ;;
       when (at_ OUT_KW) (bump OUT_KW)
     ELSE bump OUT_KW) ;;
    complete d DIRECTION ;; mret tt) ;;
  (IF cur is_component_category_kw THEN component_category ;; mret tt
   ELSE IF at_ FEATURE_KW THEN
     bump FEATURE_KW ;;
     when (at_ GROUP_KW) (bump GROUP_KW)
   ELSE error "expected component category or `feature`") ;;
  opt_classifier_ref ;;
  expect SEMICOLON ;;
  complete m PROTOTYPE ;; mret tt.

(** crates/spar-parser/src/grammar/components.rs:332-344 [prototype_section] *)
Definition prototype_section : M unit :=
  m ← start;
  bump PROTOTYPES_KW ;;
  none_or (at_ IDENT) prototype ;;
  complete m PROTOTYPE_SECTION ;; mret tt.

(** crates/spar-parser/src/grammar/components.rs:459-472 [impl_reference_list] *)
Definition impl_reference_list : M unit :=
  m ← start;
  bump L_PAREN ;;
  when (at_ IDENT || cur is_keyword) (
    classifier_ref_ ;;
    while_eat COMMA (when (at_ IDENT || cur is_keyword) classifier_ref_)) ;;
  expect R_PAREN ;;
  complete m LIST_VALUE ;; mret tt.

(** crates/spar-parser/src/grammar/components.rs:423-431 [subcomponent]: the
    nesting check of a subcomponent against its container. *)
Definition check_subcomponent (container : option Category) : M unit :=
  inner ← reads (λ p, peek (current p) (nth 1 p));
  match container, inner with
  | Some outer, Some inner =>
      if may_contain outer inner then mret tt
      else error ("a `" +:+ category_as_str inner +:+ "` subcomponent is not allowed in a `" +:+
                  category_as_str outer +:+ "` implementation")
  | _, _ => mret tt
  end.

(** crates/spar-parser/src/grammar/components.rs:406-456 [subcomponent] *)
Definition subcomponent (container : option Category) : M unit :=
  m ← start;
  opt_ident ;;
  expect COLON ;;
  opt_refined_to ;;
  check_subcomponent container ;;
  component_category ;;
  opt_classifier_ref ;;
  while (at_ L_BRACKET) array_dimension ;;
  when (at_ L_PAREN) impl_reference_list ;;
  opt_property_block ;;
  opt_in_modes ;;
  expect SEMICOLON ;;
  complete m SUBCOMPONENT ;; mret tt.

(** crates/spar-parser/src/grammar/components.rs:392-404 [subcomponent_section] *)
Definition subcomponent_section (container : option Category) : M unit :=
  m ← start;
  bump SUBCOMPONENTS_KW ;;
  none_or (at_ IDENT || cur is_component_category_kw) (subcomponent container) ;;
  complete m SUBCOMPONENT_SECTION ;; mret tt.

(** crates/spar-parser/src/grammar/components.rs:522-532 [subprogram_call] *)
Definition subprogram_call : M unit :=
  m ← start;
  bump IDENT ;;
  expect COLON ;;
  expect SUBPROGRAM_KW ;;
  opt_classifier_ref ;;
  expect SEMICOLON ;;
  complete m SUBPROGRAM_CALL ;; mret tt.

(** crates/spar-parser/src/grammar/components.rs:505-520 [call_sequence] *)
Definition call_sequence : M unit :=
  m ← start;
  bump IDENT ;;
  expect COLON ;;
  expect L_CURLY ;;
  while (at_ IDENT) subprogram_call ;;
  expect R_CURLY ;;
  opt_in_modes ;;
  expect SEMICOLON ;;
  complete m CALL_SEQUENCE ;; mret tt.

(** crates/spar-parser/src/grammar/components.rs:491-503 [call_section] *)
Definition call_section : M unit :=
  m ← start;
  bump CALLS_KW ;;
  none_or (at_ IDENT) call_sequence ;;
  complete m CALL_SECTION ;; mret tt.

(** crates/spar-parser/src/grammar/components.rs:557-610 [internal_or_processor_feature] *)
Definition internal_or_processor_feature : M unit :=
  f ← start;
  bump IDENT ;;
  expect COLON ;;
  (IF at_ EVENT_KW THEN
     bump EVENT_KW ;;
     (IF at_ DATA_KW THEN
        bump DATA_KW ;;
        (IF at_ SOURCE_KW THEN
           bump SOURCE_KW ;;
           opt_classifier_ref ;;
           expect SEMICOLON ;;
           complete f EVENT_DATA_SOURCE ;; mret tt
         ELSE
           opt_classifier_ref ;;
           expect SEMICOLON ;;
           complete f EVENT_DATA_SOURCE ;; mret tt)
      ELSE IF at_ SOURCE_KW THEN
        bump SOURCE_KW ;;
        expect SEMICOLON ;;
        complete f EVENT_SOURCE ;; mret tt
      ELSE
        expect SEMICOLON ;;
        complete f EVENT_SOURCE ;; mret tt)
   ELSE IF at_ PORT_KW THEN
     bump PORT_KW ;;
     opt_classifier_ref ;;
     expect SEMICOLON ;;
     complete f PORT_PROXY ;; mret tt
   ELSE IF at_ SUBPROGRAM_KW THEN
     bump SUBPROGRAM_KW ;;
     opt_classifier_ref ;;
     expect SEMICOLON ;;
     complete f SUBPROGRAM_PROXY ;; mret tt
   ELSE
     err_and_bump "expected `event`, `port`, or `subprogram`" ;;
     abandon f).

(** crates/spar-parser/src/grammar/components.rs:534-542 [internal_features_section] *)
Definition internal_features_section : M unit :=
  m ← start;
  bump INTERNAL_KW ;;
  expect FEATURES_KW ;;
  while (at_ IDENT) internal_or_processor_feature ;;
  complete m INTERNAL_FEATURES_SECTION ;; mret tt.

(** crates/spar-parser/src/grammar/components.rs:544-552 [processor_features_section] *)
Definition processor_features_section : M unit :=
  m ← start;
  bump PROCESSOR_KW ;;
  expect FEATURES_KW ;;
  while (at_ IDENT) internal_or_processor_feature ;;
  complete m PROCESSOR_FEATURES_SECTION ;; mret tt.

(** ** Component types and implementations *)

(** crates/spar-parser/src/grammar/components.rs:228-230 [SeenSections] *)
Definition SeenSections := list (SyntaxKind * string).

(** crates/spar-parser/src/grammar/components.rs:234-242 [SeenSections::check]: the
    [bool] it returns is dropped by every caller. *)
Definition seen_check (seen : SeenSections) (kind : SyntaxKind) (label : string) : M SeenSections :=
  if existsb (λ s, kind_eqb (fst s) kind) seen then
    error ("duplicate `" +:+ label +:+ "` section") ;; mret seen
  else mret (seen ++ [(kind, label)])%list.

(** One arm of the section loops: [seen.check(p, kind, label); section(p);]. *)
Definition section (seen : SeenSections) (kind : SyntaxKind) (label : string) (body : M unit)
    : M (SeenSections + unit) :=
  seen ← seen_check seen kind label;
  body ;;
  mret (inl seen).

(** crates/spar-parser/src/grammar/components.rs:245-279 [component_type_sections] *)
Definition component_type_sections (container : option Category) : M unit :=
  iter (λ seen,
    IF at_ PROTOTYPES_KW THEN section seen PROTOTYPES_KW "prototypes" prototype_section
    ELSE IF at_ FEATURES_KW THEN section seen FEATURES_KW "features" (feature_section container)
    ELSE IF at_ FLOWS_KW THEN section seen FLOWS_KW "flows" flow_spec_section
    ELSE IF at_ MODES_KW THEN section seen MODES_KW "modes" mode_section
    ELSE IF at_ REQUIRES_KW && nth_is 1 MODES_KW THEN section seen MODES_KW "modes" mode_section
    ELSE IF at_ PROPERTIES_KW THEN section seen PROPERTIES_KW "properties" property_section
    ELSE IF at_ ANNEX_KW THEN annex_subclause ;; mret (inl seen)
    ELSE mret (inr tt)) [].

(** crates/spar-parser/src/grammar/components.rs:281-330 [component_impl_sections] *)
Definition component_impl_sections (container : option Category) : M unit :=
  iter (λ seen,
    IF at_ PROTOTYPES_KW THEN section seen PROTOTYPES_KW "prototypes" prototype_section
    ELSE IF at_ SUBCOMPONENTS_KW THEN
      section seen SUBCOMPONENTS_KW "subcomponents" (subcomponent_section container)
    ELSE IF at_ INTERNAL_KW THEN
      section seen INTERNAL_KW "internal features" internal_features_section
    ELSE IF at_ PROCESSOR_KW && nth_is 1 FEATURES_KW THEN
      section seen PROCESSOR_KW "processor features" processor_features_section
    ELSE IF at_ CONNECTIONS_KW THEN section seen CONNECTIONS_KW "connections" connection_section
    ELSE IF at_ CALLS_KW THEN section seen CALLS_KW "calls" call_section
    ELSE IF at_ FLOWS_KW THEN section seen FLOWS_KW "flows" flow_impl_section
    ELSE IF at_ MODES_KW THEN section seen MODES_KW "modes" mode_section
    ELSE IF at_ REQUIRES_KW && nth_is 1 MODES_KW THEN section seen MODES_KW "modes" mode_section
    ELSE IF at_ PROPERTIES_KW THEN section seen PROPERTIES_KW "properties" property_section
    ELSE IF at_ ANNEX_KW THEN annex_subclause ;; mret (inl seen)
    ELSE mret (inr tt)) [].

(** crates/spar-parser/src/grammar/components.rs:34-54 [is_implementation_ahead] *)
Definition is_implementation_ahead (p : Parser) : bool :=
  let at_impl lookahead := nth_is lookahead IMPLEMENTATION_KW p in
  if at_ VIRTUAL_KW p then at_impl 2
  else if at_ THREAD_KW p || at_ SUBPROGRAM_KW p then
    if nth_is 1 GROUP_KW p then at_impl 2 else at_impl 1
  else if cur is_component_category_kw p then at_impl 1
  else false.

(** [if p.at_name() { p.bump_any(); } else { p.error(msg); }]. *)
Definition name_or_error (msg : string) : M unit := IF at_name THEN bump_any ELSE error msg.

(** [if p.at_name() { p.bump_any(); }]. *)
Definition opt_name : M unit := when at_name bump_any.

(** crates/spar-parser/src/grammar/components.rs:62-90 [component_type] *)
Definition component_type : M unit :=
  m ← start;
  container ← reads (λ p, peek (current p) (nth 1 p));
  component_category ;;
  name_or_error "expected component type name" ;;
  when (at_ EXTENDS_KW) type_extension ;;
  component_type_sections container ;;
  expect END_KW ;;
  opt_name ;;
  expect SEMICOLON ;;
  complete m COMPONENT_TYPE ;; mret tt.

(** The text of a token in a message. *)
Definition text_at (n : usize) : M string :=
  t ← reads_exec (nth_text n); mret (string_of_list_ascii t).

(** crates/spar-parser/src/grammar/components.rs:165-172 [qualified_realization_error]:
    the segments after the first, and the offset of the token after them. *)
Definition qualified_segments : M (list string * usize) :=
  first ← text_at 0;
  iter (λ '(segments, n),
    IF nth_is n COLON_COLON && nth_is (n + 1) IDENT THEN
      t ← text_at (n + 1);
      mret (inl ((segments ++ [t])%list, n + 2))
    ELSE mret (inr (segments, n))) ([first], 1).

(** crates/spar-parser/src/grammar/components.rs:164-200 [qualified_realization_error] *)
Definition qualified_realization_error (container : option Category) : M unit :=
  '(segments, n) ← qualified_segments;
  IF ! nth_is n DOT || ! nth_is (n + 1) IDENT THEN
    error ("component implementation names its type with a package qualifier: " +:+
           "an implementation names its type by a plain identifier")
  ELSE
    let ty := default "" (last segments) in
    let pkg := String.concat "::" (take (length segments - 1) segments) in
    imp ← text_at (n + 1);
    let cat := match container with Some c => category_as_str c | None => "system" end in
    error ("component implementation `" +:+ pkg +:+ "::" +:+ ty +:+ "." +:+ imp +:+
           "` names its type with a package qualifier: an implementation is declared in the " +:+
           "package of its type, `" +:+ pkg +:+ "`, and names the type plainly there: `" +:+
           cat +:+ " implementation " +:+ ty +:+ "." +:+ imp +:+ "`; to implement it in " +:+
           "another package, extend the type locally: `" +:+ cat +:+ " " +:+ ty +:+
           " extends " +:+ pkg +:+ "::" +:+ ty +:+ "`, then `" +:+ cat +:+
           " implementation " +:+ ty +:+ "." +:+ imp +:+ "`").

(** crates/spar-parser/src/grammar/components.rs:114-125 [component_impl] *)
Definition realization : M unit :=
  r ← start;
  when at_name (
    bump_any ;;
    while (at_ COLON_COLON) (bump COLON_COLON ;; opt_name)) ;;
  complete r REALIZATION ;; mret tt.

(** crates/spar-parser/src/grammar/components.rs:99-157 [component_impl] *)
Definition component_impl : M unit :=
  m ← start;
  container ← reads (λ p, peek (current p) (nth 1 p));
  component_category ;;
  expect IMPLEMENTATION_KW ;;
  when (at_name && nth_is 1 COLON_COLON) (qualified_realization_error container) ;;
  realization ;;
  expect DOT ;;
  name_or_error "expected implementation name" ;;
  when (at_ L_PAREN) prototype_binding_list ;;
  when (at_ EXTENDS_KW) impl_extension ;;
  component_impl_sections container ;;
  expect END_KW ;;
  while (at_name || at_ DOT || at_ COLON_COLON) bump_any ;;
  expect SEMICOLON ;;
  complete m COMPONENT_IMPL ;; mret tt.

(** crates/spar-parser/src/grammar/components.rs:23-31 [classifier_decl] *)
Definition classifier_decl : M unit :=
  IF is_implementation_ahead THEN component_impl ELSE component_type.

(** crates/spar-parser/src/grammar/components.rs:613-665 [feature_group_type_decl] *)
Definition feature_group_type_decl : M unit :=
  m ← start;
  bump FEATURE_KW ;;
  expect GROUP_KW ;;
  name_or_error "expected feature group type name" ;;
  when (at_ EXTENDS_KW) type_extension ;;
  when (at_ PROTOTYPES_KW) prototype_section ;;
  when (at_ FEATURES_KW) (feature_section None) ;;
  when (at_ INVERSE_KW) (bump INVERSE_KW ;; expect OF_KW ;; classifier_ref_) ;;
  when (at_ PROPERTIES_KW) property_section ;;
  while (at_ ANNEX_KW) annex_subclause ;;
  expect END_KW ;;
  opt_name ;;
  expect SEMICOLON ;;
  complete m FEATURE_GROUP_TYPE ;; mret tt.

(** ** Packages *)

(** crates/spar-parser/src/grammar/packages.rs:111-121 [with_clause] *)
Definition with_clause : M unit :=
  m ← start;
  bump WITH_KW ;;
  name ;;
  while_eat COMMA (name ;; mret tt) ;;
  expect SEMICOLON ;;
  complete m WITH_CLAUSE ;; mret tt.

(** crates/spar-parser/src/grammar/packages.rs:123-145 [renames_clause] *)
Definition renames_clause : M unit :=
  m ← start;
  bump IDENT ;;
  bump RENAMES_KW ;;
  b ← component_category;
  (if (b : bool) then classifier_ref_
   else
     IF at_ PACKAGE_KW THEN bump PACKAGE_KW ;; name ;; mret tt
     ELSE IF at_ FEATURE_KW && nth_is 1 GROUP_KW THEN
       bump FEATURE_KW ;; bump GROUP_KW ;; classifier_ref_
     ELSE error "expected component category or `package` after `renames`") ;;
  expect SEMICOLON ;;
  complete m RENAMES_CLAUSE ;; mret tt.

(** crates/spar-parser/src/grammar/packages.rs:149-178 [renames_all_clause] *)
Definition renames_all_clause : M unit :=
  m ← start;
  bump RENAMES_KW ;;
  (IF cur is_component_category_kw THEN component_category ;; classifier_ref_
   ELSE IF at_ FEATURE_KW && nth_is 1 GROUP_KW THEN
     bump FEATURE_KW ;; bump GROUP_KW ;; classifier_ref_
   ELSE IF at_ PACKAGE_KW THEN bump PACKAGE_KW ;; name ;; mret tt
   ELSE when (at_ IDENT || cur is_keyword) (
     bump_any ;;
     while (at_ COLON_COLON) (
       bump COLON_COLON ;;
       when (at_ IDENT || at_ ALL_KW || cur is_keyword) bump_any))) ;;
  expect SEMICOLON ;;
  complete m RENAMES_CLAUSE ;; mret tt.

(** crates/spar-parser/src/grammar/packages.rs:180-196 [package_properties] *)
Definition package_properties : M unit :=
  m ← start;
  bump PROPERTIES_KW ;;
  (IF at_ NONE_KW THEN bump NONE_KW ;; expect SEMICOLON ;; mret tt
   ELSE iter (λ _,
     IF ! at_ END_KW && ! at_end THEN
       IF at_ IDENT THEN property_association ;; mret (inl tt)
       ELSE mret (inr tt)
     ELSE mret (inr tt)) tt) ;;
  complete m PACKAGE_PROPERTIES ;; mret tt.

(** crates/spar-parser/src/grammar/packages.rs:68-109 [section_body] *)
Definition section_body : M unit :=
  iter (λ _,
    IF at_ WITH_KW THEN with_clause ;; mret (inl tt)
    ELSE IF at_ RENAMES_KW THEN renames_all_clause ;; mret (inl tt)
    ELSE IF cur is_component_category_kw THEN classifier_decl ;; mret (inl tt)
    ELSE IF at_ FEATURE_KW THEN
      IF nth_is 1 GROUP_KW THEN feature_group_type_decl ;; mret (inl tt)
      ELSE mret (inr tt)
    ELSE IF at_ INTERFACE_KW && (nth_is 1 FEATURE_KW && nth_is 2 GROUP_KW) THEN
      bump INTERFACE_KW ;;
      feature_group_type_decl ;;
      mret (inl tt)
    ELSE IF at_ ANNEX_KW THEN annex_library ;; mret (inl tt)
    ELSE IF at_ IDENT && nth_is 1 RENAMES_KW THEN renames_clause ;; mret (inl tt)
    ELSE mret (inr tt)) tt.

(** crates/spar-parser/src/grammar/packages.rs:54-59 [public_section] *)
Definition public_section : M unit :=
  m ← start;
  bump PUBLIC_KW ;;
  section_body ;;
  complete m PUBLIC_SECTION ;; mret tt.

(** crates/spar-parser/src/grammar/packages.rs:61-66 [private_section] *)
Definition private_section : M unit :=
  m ← start;
  bump PRIVATE_KW ;;
  section_body ;;
  complete m PRIVATE_SECTION ;; mret tt.

(** crates/spar-parser/src/grammar/packages.rs:26-52 [aadl_package] *)
Definition aadl_package : M unit :=
  m ← start;
  bump PACKAGE_KW ;;
  name ;;
  when (at_ PUBLIC_KW) public_section ;;
  when (at_ PRIVATE_KW) private_section ;;
  when (at_ PROPERTIES_KW) package_properties ;;
  expect END_KW ;;
  name ;;
  expect SEMICOLON ;;
  complete m AADL_PACKAGE ;; mret tt.

(** crates/spar-parser/src/grammar/mod.rs:27-42 [source_file]: the loop over
    the packages and property sets. *)
Definition model_units : M unit :=
  iter (λ _,
    IF ! at_end THEN
      IF at_ PACKAGE_KW THEN aadl_package ;; mret (inl tt)
      ELSE IF at_ PROPERTY_KW && nth_is 1 SET_KW THEN property_set ;; mret (inl tt)
      ELSE IF at_ PROPERTY_KW THEN
        err_and_bump "expected `package` or `property set`" ;; mret (inl tt)
      ELSE IF at_ EOF THEN mret (inr tt)
      ELSE err_and_bump "expected `package` or `property set`" ;; mret (inl tt)
    ELSE mret (inr tt)) tt.

(** crates/spar-parser/src/grammar/mod.rs:25-44 [source_file] *)
Definition source_file : M unit :=
  m ← start;
  model_units ;;
  complete m SOURCE_FILE ;; mret tt.
