(* ===== verification/ParserSpec.v ===== *)
(** * A program logic for the grammar

    What every grammar function must preserve: the event list is a nest of
    open markers around balanced segments, the token events are exactly the
    tokens consumed so far, and the number of events stays below the 32-bit
    positions of the markers.  [run] is the weakest-precondition style
    judgement of a grammar function, with one rule per operation of
    [Parser]; [Adds] and [Eats] are the two shapes of specification the
    grammar functions have. *)
From S2P Require Import Prelude.
From S2P Require Export Parser.
#[local] Open Scope nat_scope.

Section events.
Context {K : Type} {HD : Discriminant K} {V : Vocabulary K}.
#[local] Abbreviation Event := (Event K).

(** ** Well-formed event lists *)

(** [Bal es]: a sequence of complete nodes, tokens, errors and tombstones.
    A node may be preceded by children that were completed first and whose
    [forward_parent] leads to it: [Pend es] is such a chain of children,
    each pointing to the event right after it. *)
Inductive Bal : list Event → Prop :=
  | bal_nil : Bal []
  | bal_token k es : Bal es → Bal (Token k 1 :: es)
  | bal_error m es : Bal es → Bal (Error m :: es)
  | bal_tombstone es : Bal es → Bal (Tombstone :: es)
  | bal_node pre k inner es :
      Pend pre → k ≠ tombstone → Bal inner → Bal es →
      Bal (pre ++ Start k None :: inner ++ Finish :: es)
with Pend : list Event → Prop :=
  | pend_nil : Pend []
  | pend_cons k inner es :
      k ≠ tombstone → Bal inner → Pend es →
      Pend (Start k (Some (N.of_nat (length inner + 2))) :: inner ++ Finish :: es).

Scheme Bal_mut := Induction for Bal Sort Prop
  with Pend_mut := Induction for Pend Sort Prop.
Combined Scheme Bal_Pend_ind from Bal_mut, Pend_mut.

(** The kinds of the tokens consumed. *)
Fixpoint toks (es : list Event) : list K :=
  match es with
  | [] => []
  | Token k _ :: es => k :: toks es
  | _ :: es => toks es
  end.

Lemma toks_app es1 es2 : toks (es1 ++ es2) = toks es1 ++ toks es2.
Proof. induction es1 as [|[] es1 IH]; simpl; by rewrite ?IH. Qed.

Lemma toks_insert es i k1 fp1 e :
  es !! i = Some (Start k1 fp1) → toks [e] = [] → toks (<[i := e]> es) = toks es.
Proof.
  revert i. induction es as [|e' es IH]; intros [|i] Hi He; simpl in *; try done.
  - simplify_eq. by destruct e.
  - rewrite IH by done. done.
Qed.

Lemma Bal_app es1 es2 : Bal es1 → Bal es2 → Bal (es1 ++ es2).
Proof.
  intros H H2. induction H; simpl; try (by constructor); [done|].
  rewrite <- app_assoc. simpl. rewrite <- app_assoc. simpl. by constructor.
Qed.

Lemma Pend_app es1 es2 : Pend es1 → Pend es2 → Pend (es1 ++ es2).
Proof.
  induction 1; intros H2; simpl; [done|]. rewrite <- app_assoc. simpl. by constructor; auto.
Qed.

(** ** Open markers *)

(** [FOpen m fresh]: the marker at [m] is open; it is [fresh] when it does
    not precede a completed node.  [FDone m]: the node at [m] has just been
    completed, so that [precede] may be called on it. *)
Inductive Frame := FOpen (m : nat) (fresh : bool) | FDone (m : nat).

Fixpoint Open (fs : list Frame) (es : list Event) : Prop :=
  match fs with
  | [] => Bal es
  | FOpen m fresh :: fs => ∃ es0 pre inner,
      es = es0 ++ pre ++ Start tombstone None :: inner ∧ m = length es0 + length pre ∧
      Open fs es0 ∧ Pend pre ∧ (fresh = true → pre = []) ∧ Bal inner
  | FDone m :: fs => ∃ es0 pre k inner,
      es = es0 ++ pre ++ Start k None :: inner ++ [Finish] ∧ m = length es0 + length pre ∧
      k ≠ tombstone ∧ Open fs es0 ∧ Pend pre ∧ Bal inner
  end.

(** Frames at which events may be appended. *)
Definition extensible (fs : list Frame) : Prop :=
  match fs with FDone _ :: _ => False | _ => True end.

Lemma Open_app fs es es' : extensible fs → Open fs es → Bal es' → Open fs (es ++ es').
Proof.
  destruct fs as [|[m fresh|m] fs]; simpl; intros Hx H H'; [by apply Bal_app| |done].
  destruct H as (es0 & pre & inner & -> & -> & Ho & Hp & Hf & Hi).
  exists es0, pre, (inner ++ es'). split_and!; try done; [|by apply Bal_app].
  by rewrite <- !app_assoc.
Qed.

Lemma Open_done fs m es : extensible fs → Open (FDone m :: fs) es → Open fs es.
Proof.
  intros Hx (es0 & pre & k & inner & -> & -> & Hk & Ho & Hp & Hi).
  apply Open_app; [done..|]. by apply (bal_node pre k inner []); [..|constructor].
Qed.

Lemma Open_start fs es :
  Open fs es → Open (FOpen (length es) true :: fs) (es ++ [Start tombstone None]).
Proof.
  intros H. exists es, [], []. split_and!; try done; simpl; first [lia | constructor].
Qed.

Lemma Open_complete fs m b es k :
  Open (FOpen m b :: fs) es → k ≠ tombstone →
  es !! m = Some (Start tombstone None) ∧
  Open (FDone m :: fs) (<[m := Start k None]> es ++ [Finish]).
Proof.
  intros (es0 & pre & inner & -> & -> & Ho & Hp & Hf & Hi) Hk.
  rewrite (app_assoc es0), <- length_app. split; [by apply list_lookup_middle|].
  rewrite insert_app_r_alt, Nat.sub_diag by lia. simpl.
  exists es0, pre, k, inner. split_and!; try done; [|by rewrite length_app].
  by rewrite <- !app_assoc.
Qed.

Lemma Open_precede fs m es :
  Open (FDone m :: fs) es →
  m < length es ∧ ∃ k, es !! m = Some (Start k None) ∧
  Open (FOpen (length es) false :: fs)
    (<[m := Start k (Some (N.of_nat (length es - m)))]> (es ++ [Start tombstone None])).
Proof.
  intros (es0 & pre & k & inner & -> & -> & Hk & Ho & Hp & Hi).
  rewrite !length_app. simpl. rewrite length_app. simpl. split; [lia|]. exists k.
  rewrite (app_assoc es0), <- length_app. split; [by apply list_lookup_middle|].
  rewrite <- app_assoc, insert_app_r_alt, Nat.sub_diag by lia. simpl.
  exists es0, (pre ++ Start k (Some (N.of_nat (length inner + 2))) :: inner ++ [Finish]), [].
  split_and!; try done.
  - rewrite <- !app_assoc. simpl. rewrite <- !app_assoc. simpl.
    replace (length es0 + (length pre + S (length inner + 1)) - length (es0 ++ pre))
      with (length inner + 2) by (rewrite length_app; lia). done.
  - rewrite !length_app. simpl. rewrite length_app. simpl. lia.
  - apply Pend_app; [done|]. constructor; [done|done|constructor].
  - constructor.
Qed.

Lemma Open_abandon fs m es :
  extensible fs → Open (FOpen m true :: fs) es →
  m < length es ∧ Open fs (<[m := Tombstone]> es).
Proof.
  intros Hx (es0 & pre & inner & -> & -> & Ho & Hp & Hf & Hi). rewrite (Hf eq_refl) in *.
  simpl. rewrite Nat.add_0_r, length_app. simpl. split; [lia|].
  rewrite insert_app_r_alt, Nat.sub_diag by lia. simpl.
  apply Open_app; [done..|]. by constructor.
Qed.

(** ** The token stream *)

(** The kinds of the non-trivia tokens, in order. *)
Definition kinds_of (tokens : list (K * usize)) : list K :=
  filter (λ k, is_trivia k = false) (map fst tokens).

Lemma kinds_of_cons k l tokens :
  kinds_of ((k, l) :: tokens) = if is_trivia k then kinds_of tokens else k :: kinds_of tokens.
Proof. unfold kinds_of. simpl. rewrite filter_cons. by destruct (is_trivia k). Qed.

Lemma non_trivia_length i tokens :
  length (non_trivia_from i tokens) = length (kinds_of tokens).
Proof.
  revert i. induction tokens as [|[k l] tokens IH]; intros i; [done|].
  rewrite kinds_of_cons. simpl. destruct (is_trivia k); simpl; by rewrite IH.
Qed.

Lemma non_trivia_lookup i tokens j ti :
  non_trivia_from i tokens !! j = Some ti →
  ∃ k l, i ≤ ti ∧ tokens !! (ti - i) = Some (k, l) ∧ kinds_of tokens !! j = Some k.
Proof.
  revert i j. induction tokens as [|[k l] tokens IH]; intros i j; [done|].
  rewrite kinds_of_cons. simpl. destruct (is_trivia k).
  - intros H. destruct (IH _ _ H) as (k' & l' & Hi & Ht & Hk). exists k', l'.
    replace (ti - i) with (S (ti - S i)) by lia. split_and!; [lia|done|done].
  - destruct j as [|j]; simpl; intros H.
    + simplify_eq. exists k, l. by rewrite Nat.sub_diag.
    + destruct (IH _ _ H) as (k' & l' & Hi & Ht & Hk). exists k', l'.
      replace (ti - i) with (S (ti - S i)) by lia. split_and!; [lia|done|done].
Qed.

(** The [n]-th kind still to be read, [eof] past the end. *)
Definition knth (n : nat) (r : list K) : K := List.nth n r eof.

(** What the tokenizer guarantees of its tokens: no token is an [eof], and
    every token is a slice of the source between characters. *)
Record tokens_ok (tokens : list (K * usize)) (src : bytes) : Prop := {
  ok_eof : Forall (λ k, k ≠ eof) (kinds_of tokens);
  ok_slice i start k len :
    starts_from 0 tokens !! i = Some start → tokens !! i = Some (k, len) →
    ∃ t, slice src start (start + len) = Done t;
}.

Lemma starts_from_length o (tokens : list (K * usize)) : length (starts_from o tokens) = length tokens.
Proof. revert o. induction tokens as [|[k l] ts IH]; intros o; simpl; [done|]. by rewrite IH. Qed.

End events.

(** The input of a parse: tokens of a source, and a number of events that
    32-bit positions can address.  [may_stall] is the condition under which
    a loop of the grammar may iterate without consuming a token; such a loop
    needs room for its iterations. *)
Class TokenStream (K : Type) `{Vocabulary K} := {
  in_tokens : list (K * usize);
  in_src : bytes;
  room : nat;
  in_ok : tokens_ok in_tokens in_src;
  room_bound : (N.of_nat room ≤ U32_MAX)%N;
  may_stall : Prop;
  stall_room : may_stall → (N.of_nat (room + 64 * S (length (kinds_of in_tokens))) ≤ U32_MAX)%N;
}.

Section logic.
Context {K : Type} {HD : Discriminant K} {V : Vocabulary K} {TS : TokenStream K}.
#[local] Abbreviation Parser := (Parser K).
#[local] Abbreviation M := (M K).

(** ** States

    [St fs r c p]: the parser [p] reads these tokens, the kinds [r] remain,
    its events have the open markers [fs] and record the consumed tokens,
    and [c] events fit before the next token must be consumed (each token
    pays for 64). *)
Record St (fs : list Frame) (r : list K) (c : nat) (p : Parser) : Prop := {
  st_tokens : all_tokens p = in_tokens;
  st_indices : non_trivia_indices p = non_trivia_from 0 in_tokens;
  st_source : source p = in_src;
  st_starts : token_starts p = starts_from 0 in_tokens;
  st_pos : pos p + length r = length (kinds_of in_tokens);
  st_rest : drop (pos p) (kinds_of in_tokens) = r;
  st_open : Open fs (events p);
  st_toks : toks (events p) ++ r = kinds_of in_tokens;
  st_room : length (events p) + 64 * length r + c ≤ room;
}.

Lemma St_weaken fs r c c' p : St fs r c p → c' ≤ c → St fs r c' p.
Proof. intros [] ?. constructor; try done. lia. Qed.

Lemma St_done fs m r c p : extensible fs → St (FDone m :: fs) r c p → St fs r c p.
Proof. intros Hx []. constructor; try done. by eapply Open_done. Qed.

Lemma St_nth_checked fs r c p n : St fs r c p → nth_checked p n = Done (knth n r).
Proof.
  intros H. unfold nth_checked. rewrite (st_indices _ _ _ _ H), (st_tokens _ _ _ _ H), non_trivia_length.
  pose proof (st_pos _ _ _ _ H) as Hp. pose proof (st_rest _ _ _ _ H) as Hr. unfold knth.
  destruct (Nat.leb_spec (length (kinds_of in_tokens)) (pos p + n)) as [Hle|Hlt].
  - by rewrite nth_overflow by lia.
  - destruct (lookup_lt_is_Some_2 (non_trivia_from 0 in_tokens) (pos p + n)) as [ti Hti];
      [by rewrite non_trivia_length|].
    rewrite Hti. destruct (non_trivia_lookup _ _ _ _ Hti) as (k & l & _ & Hk & Hkk).
    rewrite Nat.sub_0_r in Hk. rewrite Hk. simpl. f_equal. symmetry.
    apply nth_lookup_Some. by rewrite <- Hr, lookup_drop.
Qed.

Lemma St_nth fs r c p n : St fs r c p → nth n p = knth n r.
Proof. intros H. unfold nth. by rewrite (St_nth_checked _ _ _ _ _ H). Qed.

Lemma St_at_end fs r c p : St fs r c p → at_end p = match r with [] => true | _ => false end.
Proof.
  intros H. unfold at_end. rewrite (st_indices _ _ _ _ H), non_trivia_length.
  pose proof (st_pos _ _ _ _ H). destruct r; simpl in *; [apply Nat.leb_le|apply Nat.leb_gt]; lia.
Qed.

Lemma St_remaining fs r c p : St fs r c p → remaining p = length r.
Proof.
  intros H. unfold remaining. rewrite (st_indices _ _ _ _ H), non_trivia_length.
  pose proof (st_pos _ _ _ _ H). lia.
Qed.

Lemma St_head fs k r c p : St fs (k :: r) c p → k ≠ eof.
Proof.
  intros H. pose proof (ok_eof _ _ in_ok) as He. rewrite <- (st_toks _ _ _ _ H) in He.
  apply Forall_app in He as [_ He]. by apply Forall_cons in He as [He _].
Qed.

Lemma St_nth_text fs r c p n : St fs r c p → ∃ t, nth_text n p = Done t.
Proof.
  intros H. unfold nth_text. rewrite (st_indices _ _ _ _ H), (st_tokens _ _ _ _ H),
    (st_starts _ _ _ _ H), (st_source _ _ _ _ H), non_trivia_length.
  destruct (Nat.leb_spec (length (kinds_of in_tokens)) (pos p + n)) as [Hle|Hlt]; [by eexists|].
  destruct (lookup_lt_is_Some_2 (non_trivia_from 0 in_tokens) (pos p + n)) as [ti Hti];
    [by rewrite non_trivia_length|].
  rewrite Hti. destruct (non_trivia_lookup _ _ _ _ Hti) as (k & l & _ & Hk & _).
  rewrite Nat.sub_0_r in Hk. rewrite Hk.
  destruct (lookup_lt_is_Some_2 (starts_from 0 in_tokens) ti) as [s Hs].
  { rewrite starts_from_length. by eapply lookup_lt_Some. }
  rewrite Hs. by eapply (ok_slice _ _ in_ok).
Qed.

(** ** The judgement *)
Definition Post (A : Type) := A → list Frame → list K → nat → Prop.

(** [m] returns, and [Φ] holds of the result; or it does not return, in a
    grammar that may stall.  It does not panic. *)
Definition run {A} (fs : list Frame) (r : list K) (c : nat) (m : M A) (Φ : Post A) : Prop :=
  ∀ p, St fs r c p →
    (∃ v p' fs' r' c', m p = Done (v, p') ∧ St fs' r' c' p' ∧ Φ v fs' r' c') ∨
    (may_stall ∧ m p = Stuck).

(** The statement returned. *)
Lemma run_done {A} (m : M A) fs r c (Φ : Post A) :
  (∀ p, St fs r c p → ∃ v p' fs' r' c', m p = Done (v, p') ∧ St fs' r' c' p' ∧ Φ v fs' r' c') →
  run fs r c m Φ.
Proof. intros H p Hp. left. by apply H. Qed.

Lemma run_ret {A} (v : A) fs r c (Φ : Post A) : Φ v fs r c → run fs r c (mret v) Φ.
Proof. intros H. apply run_done. intros p Hp. by exists v, p, fs, r, c. Qed.

Lemma run_bind {A A'} (m : M A) (k : A → M A') fs r c Φ :
  run fs r c m (λ v fs' r' c', run fs' r' c' (k v) Φ) → run fs r c (m ≫= k) Φ.
Proof.
  intros H p Hp. unfold mbind, M_bind.
  destruct (H p Hp) as [(v & p' & fs' & r' & c' & -> & Hp' & H')|[Hs ->]]; [by apply H'|by right].
Qed.

Lemma run_conseq {A} (m : M A) fs r c (Φ Ψ : Post A) :
  run fs r c m Φ → (∀ v fs' r' c', Φ v fs' r' c' → Ψ v fs' r' c') → run fs r c m Ψ.
Proof.
  intros H HΦ p Hp. destruct (H p Hp) as [(v & p' & fs' & r' & c' & ? & ? & ?)|?]; [left|by right].
  naive_solver.
Qed.

(** Forget how much room there is beyond [c0]. *)
Lemma run_weaken {A} (m : M A) fs r c c0 (Φ : Post A) :
  c0 ≤ c → run fs r c0 m Φ → run fs r c m Φ.
Proof. intros Hc H p Hp. apply H. by eapply St_weaken. Qed.

Lemma run_drop {A} (m : M A) fs mk r c (Φ : Post A) :
  extensible fs → run fs r c m Φ → run (FDone mk :: fs) r c m Φ.
Proof. intros Hx H p Hp. apply H. by eapply St_done. Qed.

(** The result of a statement that opens and closes its own markers, reads
    on, and leaves room for [c0] events. *)
Definition Keeps {A} (fs : list Frame) (r : list K) (c0 : nat) : Post A :=
  λ _ fs' r' c', fs' = fs ∧ length r' ≤ length r ∧ c0 ≤ c'.
Definition Moves {A} (fs : list Frame) (r : list K) (c0 : nat) : Post A :=
  λ _ fs' r' c', fs' = fs ∧ length r' < length r ∧ c0 ≤ c'.

(** What happened inside a statement is forgotten: the way two branches
    join. *)
Lemma run_join_at {A} c0 (m : M A) fs0 fs r c Φ :
  run fs0 r c m (Keeps fs r c0) →
  (∀ v r', length r' ≤ length r → Φ v fs r' c0) → run fs0 r c m Φ.
Proof.
  intros H HΦ p Hp. destruct (H p Hp) as [(v & p' & fs' & r' & c' & E & Hp' & -> & Hl & Hc)|?]; [left|by right].
  exists v, p', fs, r', c0. split_and!; [done|by eapply St_weaken|auto].
Qed.
Lemma run_join {A} c0 (m : M A) fs r c Φ :
  run fs r c m (Keeps fs r c0) →
  (∀ v r', length r' ≤ length r → Φ v fs r' c0) → run fs r c m Φ.
Proof. apply run_join_at. Qed.

Lemma run_joinm {A} c0 (m : M A) fs r c Φ :
  run fs r c m (Moves fs r c0) →
  (∀ v r', length r' < length r → Φ v fs r' c0) → run fs r c m Φ.
Proof.
  intros H HΦ p Hp. destruct (H p Hp) as [(v & p' & fs' & r' & c' & E & Hp' & -> & Hl & Hc)|?]; [left|by right].
  exists v, p', fs, r', c0. split_and!; [done|by eapply St_weaken|auto].
Qed.

(** ** Conditions *)
Class Sem (f : Parser → bool) (h : list K → bool) : Prop :=
  sem : ∀ fs r c p, St fs r c p → f p = h r.

#[export] Instance Sem_at k : Sem (at_ k) (λ r, kind_eqb (knth 0 r) k).
Proof. intros fs r c p H. unfold at_, current. by rewrite (St_nth _ _ _ _ _ H). Qed.
#[export] Instance Sem_nth_is n k : Sem (nth_is n k) (λ r, kind_eqb (knth n r) k).
Proof. intros fs r c p H. unfold nth_is. by rewrite (St_nth _ _ _ _ _ H). Qed.
#[export] Instance Sem_cur f : Sem (cur f) (λ r, f (knth 0 r)).
Proof. intros fs r c p H. unfold cur, current. by rewrite (St_nth _ _ _ _ _ H). Qed.
#[export] Instance Sem_nth n f : Sem (λ p, f (nth n p)) (λ r, f (knth n r)).
Proof. intros fs r c p H. by rewrite (St_nth _ _ _ _ _ H). Qed.
#[export] Instance Sem_at_end : Sem at_end (λ r, match r with [] => true | _ => false end).
Proof. intros fs r c p H. by apply (St_at_end fs r c). Qed.
#[export] Instance Sem_or f g h i : Sem f h → Sem g i → Sem (por f g) (λ r, h r || i r).
Proof. intros Hf Hg fs r c p H. unfold por. by rewrite (Hf _ _ _ _ H), (Hg _ _ _ _ H). Qed.
#[export] Instance Sem_and f g h i : Sem f h → Sem g i → Sem (pand f g) (λ r, h r && i r).
Proof. intros Hf Hg fs r c p H. unfold pand. by rewrite (Hf _ _ _ _ H), (Hg _ _ _ _ H). Qed.
#[export] Instance Sem_not f h : Sem f h → Sem (pnot f) (λ r, negb (h r)).
Proof. intros Hf fs r c p H. unfold pnot. by rewrite (Hf _ _ _ _ H). Qed.
#[export] Instance Sem_const b : Sem (λ _, b) (λ _, b).
Proof. done. Qed.

Lemma run_cond {A} f h `{!Sem f h} (m1 m2 : M A) fs r c Φ :
  (h r = true → run fs r c m1 Φ) → (h r = false → run fs r c m2 Φ) →
  run fs r c (cond f m1 m2) Φ.
Proof.
  intros H1 H2 p Hp. unfold cond. rewrite (@sem f h _ _ _ _ _ Hp).
  destruct (h r) eqn:E; [by apply H1|by apply H2].
Qed.

Lemma run_cond_any {A} f (m1 m2 : M A) fs r c Φ :
  run fs r c m1 Φ → run fs r c m2 Φ → run fs r c (cond f m1 m2) Φ.
Proof. intros H1 H2 p Hp. unfold cond. destruct (f p); [by apply H1|by apply H2]. Qed.

Lemma run_if {A} (b : bool) (m1 m2 : M A) fs r c Φ :
  run fs r c m1 Φ → run fs r c m2 Φ → run fs r c (if b then m1 else m2) Φ.
Proof. by destruct b. Qed.

Lemma run_when f h `{!Sem f h} (m : M unit) fs r c c0 Φ :
  c0 ≤ c → (h r = true → run fs r c m (Keeps fs r c0)) →
  (∀ r', length r' ≤ length r → Φ tt fs r' c0) → run fs r c (when f m) Φ.
Proof.
  intros Hc Hm HΦ. apply (run_join c0).
  - apply (run_cond f h); [done|]. intros _. apply run_ret. by split_and!.
  - intros [] r'. apply HΦ.
Qed.

Lemma run_reads {A} (f : Parser → A) fs r c Φ :
  (∀ v, Φ v fs r c) → run fs r c (reads f) Φ.
Proof. intros H. apply run_done. intros p Hp. by exists (f p), p, fs, r, c. Qed.

Lemma run_reads_sem f h `{!Sem f h} fs r c Φ : Φ (h r) fs r c → run fs r c (reads f) Φ.
Proof. intros H. apply run_done. intros p Hp. exists (h r), p, fs, r, c. unfold reads. by rewrite (@sem f h _ _ _ _ _ Hp). Qed.

(** A function of the next token. *)
Lemma run_reads_nth {A} n (f : K → A) fs r c Φ :
  Φ (f (knth n r)) fs r c → run fs r c (reads (λ p, f (nth n p))) Φ.
Proof.
  intros H. apply run_done. intros p Hp. exists (f (knth n r)), p, fs, r, c.
  unfold reads. by rewrite (St_nth _ _ _ _ _ Hp).
Qed.

Lemma run_text n fs r c Φ : (∀ t, Φ t fs r c) → run fs r c (reads_exec (nth_text n)) Φ.
Proof.
  intros H. apply run_done. intros p Hp. destruct (St_nth_text _ _ _ _ n Hp) as [t Ht].
  exists t, p, fs, r, c. unfold reads_exec. by rewrite Ht.
Qed.

(** ** Events *)

Lemma toks_leaf (es : list (Event K)) k n : toks (es ++ [Token k n]) = toks es ++ [k].
Proof. by rewrite toks_app. Qed.

(** The positions of markers fit: [as u32] is the identity on them. *)
Lemma St_position fs r c p : St fs r c p → as_u32 (N.of_nat (length (events p))) = N.of_nat (length (events p)).
Proof. intros H. apply as_u32_small. pose proof (st_room _ _ _ _ H). pose proof room_bound. lia. Qed.

Lemma run_error msg fs r c Φ :
  extensible fs → 1 ≤ c → Φ tt fs r (c - 1) → run fs r c (error msg) Φ.
Proof.
  intros Hx Hc H. apply run_done. intros p Hp. eexists tt, _, fs, r, (c - 1). split_and!; [done| |done].
  destruct Hp. constructor; simpl; try done.
  - apply Open_app; [done..|]. repeat constructor.
  - by rewrite toks_app, app_nil_r.
  - rewrite length_app. simpl. lia.
Qed.

Lemma run_do_bump k fs r c Φ :
  extensible fs → Φ tt fs r (c + 63) → run fs (k :: r) c (do_bump k 1) Φ.
Proof.
  intros Hx H. apply run_done. intros p Hp. eexists tt, _, fs, r, (c + 63). split_and!; [done| |done].
  destruct Hp. constructor; simpl in *; try done.
  - lia.
  - rewrite <- drop_drop. rewrite st_rest0. done.
  - apply Open_app; [done..|]. repeat constructor.
  - rewrite toks_leaf, <- app_assoc. done.
  - rewrite length_app. simpl. lia.
Qed.

Lemma knth_head r k : knth 0 r = k → k ≠ eof → ∃ r', r = k :: r'.
Proof. destruct r; [done|]. intros <- _. by eexists. Qed.

Lemma run_bump k fs r c Φ :
  extensible fs → knth 0 r = k → k ≠ eof →
  (∀ r', r = k :: r' → Φ tt fs r' (c + 63)) → run fs r c (bump k) Φ.
Proof.
  intros Hx Hk He H. destruct (knth_head _ _ Hk He) as [r' ->].
  apply (run_cond _ _); intros E; [by apply run_do_bump; auto|].
  simpl in E. by rewrite kind_eqb_refl in E.
Qed.

Lemma run_bump_any fs r c Φ :
  extensible fs → r ≠ [] →
  (∀ k r', r = k :: r' → Φ tt fs r' (c + 63)) → run fs r c bump_any Φ.
Proof.
  intros Hx Hr H. destruct r as [|k r]; [done|]. intros p Hp. unfold bump_any.
  unfold mbind, M_bind, reads. unfold current. rewrite (St_nth _ _ _ _ _ Hp).
  change (knth 0 (k :: r)) with k. cbv beta iota.
  destruct (kind_eqb_spec k eof) as [->|]; [by destruct (St_head _ _ _ _ _ Hp)|].
  by apply (run_do_bump k _ _ _ Φ Hx (H k r eq_refl)).
Qed.

Lemma run_bump_any_end fs c Φ : Φ tt fs [] c → run fs [] c bump_any Φ.
Proof.
  intros H. apply run_done. intros p Hp. exists tt, p, fs, [], c. unfold bump_any.
  unfold mbind, M_bind, reads, current. rewrite (St_nth _ _ _ _ _ Hp).
  change (knth 0 []) with eof. by rewrite kind_eqb_refl.
Qed.

(** [bump_any] when it is not known that a token is left. *)
Lemma run_bump_any_le fs r c Φ :
  extensible fs → (∀ r', length r' ≤ length r → Φ tt fs r' c) → run fs r c bump_any Φ.
Proof.
  intros Hx H. apply (run_join c); [|intros [] r'; apply H].
  destruct r as [|k r]; [by apply run_bump_any_end|].
  apply run_bump_any; [done..|]. intros k' r' Hr. simplify_eq. split_and!; simpl; [done|lia|lia].
Qed.

Lemma run_eat k fs r c Φ :
  extensible fs → k ≠ eof →
  (∀ r', r = k :: r' → Φ true fs r' (c + 63)) →
  (knth 0 r ≠ k → Φ false fs r c) → run fs r c (eat k) Φ.
Proof.
  intros Hx He H1 H2. apply (run_cond _ _); destruct (kind_eqb_spec (knth 0 r) k) as [Ek|Ek]; intros E; try done.
  - destruct (knth_head _ _ Ek He) as [r' ->]. apply run_bind, run_do_bump; [done|].
    apply run_ret. by apply H1.
  - apply run_ret. by apply H2.
Qed.

Lemma run_eat_le k fs r c Φ :
  extensible fs → k ≠ eof → (∀ b r', length r' ≤ length r → Φ b fs r' c) → run fs r c (eat k) Φ.
Proof.
  intros Hx He H. apply (run_join c); [|auto]. apply run_eat; [done|done| |].
  - intros r' ->. split_and!; simpl; [done|lia|lia].
  - intros _. by split_and!.
Qed.

Lemma run_expect k fs r c Φ :
  extensible fs → k ≠ eof → 1 ≤ c → (∀ b r', length r' ≤ length r → Φ b fs r' (c - 1)) →
  run fs r c (expect k) Φ.
Proof.
  intros Hx He Hc H. apply (run_join (c - 1)); [|auto]. apply run_bind, run_eat; [done|done| |].
  - intros r' ->. apply run_ret. split_and!; simpl; [done|lia|lia].
  - intros _. apply run_bind, run_error; [done|lia|]. apply run_ret. by split_and!; [..|lia].
Qed.

(** The same when the next token is known. *)
Lemma run_expect_here k fs r c Φ :
  extensible fs → k ≠ eof → Φ true fs r (c + 63) → run fs (k :: r) c (expect k) Φ.
Proof.
  intros Hx He H. apply run_bind, run_eat; [done|done| |by intros Hk].
  intros r' [= <-]. by apply run_ret.
Qed.

(** The same when it is known not to be next. *)
Lemma run_expect_not k fs r c Φ :
  extensible fs → knth 0 r ≠ k → 1 ≤ c → Φ false fs r (c - 1) → run fs r c (expect k) Φ.
Proof.
  intros Hx Hk Hc H. apply run_bind. apply (run_cond _ _).
  - intros E. by apply kind_eqb_true in E.
  - intros _. apply run_ret. apply run_bind, run_error; [done|done|]. by apply run_ret.
Qed.

(** ** Markers *)

Lemma run_start fs r c Φ :
  extensible fs → 1 ≤ c →
  (∀ m, Φ (N.of_nat m) (FOpen m true :: fs) r (c - 1)) → run fs r c start Φ.
Proof.
  intros Hx Hc H. apply run_done. intros p Hp.
  exists (N.of_nat (length (events p))). eexists _, (FOpen (length (events p)) true :: fs), r, (c - 1).
  split_and!; [|..|apply H].
  - unfold start, start_event, mbind, M_bind, reads. by rewrite (St_position _ _ _ _ Hp).
  - destruct Hp. constructor; simpl; try done.
    + by apply Open_start.
    + by rewrite toks_app, app_nil_r.
    + rewrite length_app. simpl. lia.
Qed.

Lemma toks_complete (es : list (Event K)) m k fp k' :
  es !! m = Some (Start k fp) → toks (<[m := Start k' None]> es ++ [Finish]) = toks es.
Proof. intros H. rewrite toks_app, app_nil_r. by eapply toks_insert. Qed.

(** Completing a node leaves it ready for [precede]. *)
Lemma run_complete_done m b k fs r c Φ :
  1 ≤ c → k ≠ tombstone →
  Φ {| completed_pos := N.of_nat m |} (FDone m :: fs) r (c - 1) →
  run (FOpen m b :: fs) r c (complete (N.of_nat m) k) Φ.
Proof.
  intros Hc Hk H. apply run_done. intros p Hp. destruct (Open_complete _ _ _ _ k (st_open _ _ _ _ Hp) Hk) as [Hm Ho].
  eexists _, _, (FDone m :: fs), r, (c - 1). split_and!; [|..|exact H].
  - unfold complete, mbind, M_bind, reads. rewrite Nat2N.id, Hm. reflexivity.
  - destruct Hp. constructor; simpl; try done.
    + by rewrite (toks_complete _ _ _ _ _ Hm).
    + rewrite length_app, length_insert. simpl. lia.
Qed.

Lemma run_complete m b k fs r c Φ :
  extensible fs → 1 ≤ c → k ≠ tombstone →
  (∀ cm, Φ cm fs r (c - 1)) → run (FOpen m b :: fs) r c (complete (N.of_nat m) k) Φ.
Proof.
  intros Hx Hc Hk H p Hp.
  destruct (run_complete_done m b k fs r c (λ _ fs' r' c', fs' = FDone m :: fs ∧ r' = r ∧ c' = c - 1)
    Hc Hk ltac:(done) p Hp) as [(v & p' & ? & ? & ? & E & Hp' & -> & -> & ->)|?]; [left|by right].
  exists v, p', fs, r, (c - 1). split_and!; [done|by eapply St_done|done].
Qed.

Lemma run_precede m fs r c Φ :
  1 ≤ c → (∀ m', Φ (N.of_nat m') (FOpen m' false :: fs) r (c - 1)) →
  run (FDone m :: fs) r c (precede {| completed_pos := N.of_nat m |}) Φ.
Proof.
  intros Hc H. apply run_done. intros p Hp. destruct (Open_precede _ _ _ (st_open _ _ _ _ Hp)) as (Hlt & k & Hm & Ho).
  exists (N.of_nat (length (events p))). eexists _, (FOpen (length (events p)) false :: fs), r, (c - 1).
  split_and!; [|..|apply H].
  - unfold precede, start_event, mbind, M_bind, reads. rewrite (St_position _ _ _ _ Hp). simpl.
    rewrite (proj2 (N.ltb_ge _ _)) by lia. rewrite Nat2N.id. cbn [events].
    rewrite lookup_app_l, Hm by done. reflexivity.
  - destruct Hp. constructor; simpl; try done.
    + replace (N.of_nat (length (events p)) - N.of_nat m)%N with (N.of_nat (length (events p) - m)) by lia.
      done.
    + rewrite (toks_insert _ _ k None) by (done || by rewrite lookup_app_l).
      by rewrite toks_app, app_nil_r.
    + rewrite length_insert, length_app. simpl. lia.
Qed.

Lemma run_abandon m fs r c Φ :
  extensible fs → Φ tt fs r c → run (FOpen m true :: fs) r c (abandon (N.of_nat m)) Φ.
Proof.
  intros Hx H. apply run_done. intros p Hp. destruct (Open_abandon _ _ _ Hx (st_open _ _ _ _ Hp)) as [Hlt Ho].
  destruct (Open_complete _ _ _ _ error_kind (st_open _ _ _ _ Hp) error_not_tombstone) as [Hm _].
  assert (Hne : Nat.eqb (length (events p)) 0 = false) by (apply Nat.eqb_neq; lia).
  destruct (decide (m = length (events p) - 1)) as [Hlast|Hlast].
  - assert (Hes : take m (events p) ++ [Start tombstone None] = events p).
    { rewrite <- (take_S_r _ _ _ Hm). apply take_ge. lia. }
    eexists tt, _, fs, r, c. split_and!; [| |done].
    + unfold abandon, mbind, M_bind, reads. rewrite Nat2N.id, Hne.
      rewrite (proj2 (Nat.eqb_eq _ _)) by done. rewrite Hm. reflexivity.
    + destruct Hp. constructor; simpl; try done.
      * destruct st_open0 as (es0 & pre & inner & He & Hl & Ho0 & _ & Hf & _).
        rewrite (Hf eq_refl) in *. simpl in *. rewrite He, take_app_length' by lia. done.
      * rewrite <- Hes, toks_app, app_nil_r in st_toks0. done.
      * rewrite length_take. lia.
  - eexists tt, _, fs, r, c. split_and!; [| |done].
    + unfold abandon, mbind, M_bind, reads. rewrite Nat2N.id, Hne.
      rewrite (proj2 (Nat.eqb_neq _ _)) by lia.
      rewrite (proj2 (Nat.ltb_lt _ _)) by lia. reflexivity.
    + destruct Hp. constructor; simpl; try done.
      * by rewrite (toks_insert _ _ _ _ _ Hm).
      * by rewrite length_insert.
Qed.

(** ** Loops *)

(** [I] holds at the head of the loop and [μ] decreases: fuel above [μ]
    suffices. *)
Lemma run_iter_fuel {A A'} (I : A → list Frame → list K → Prop)
    (μ : A → list K → nat) (body : A → M (A + A')) n a fs r c (Φ : Post A') :
  (∀ a1 fs1 r1, I a1 fs1 r1 → run fs1 r1 c (body a1) (λ o fs' r' c', c ≤ c' ∧
     match o with
     | inl a' => I a' fs' r' ∧ μ a' r' < μ a1 r1
     | inr b => Φ b fs' r' c
     end)) →
  I a fs r → μ a r < n → run fs r c (iter_fuel n body a) Φ.
Proof.
  intros Hbody Ha Hn p Hp. revert a fs r p Ha Hp Hn.
  induction n as [|n IH]; intros a fs r p Ha Hp Hn; [lia|].
  simpl. unfold mbind, M_bind.
  destruct (Hbody a fs r Ha p Hp) as [(o & p' & fs' & r' & c' & -> & Hp' & Hc & Ho)|[Hs ->]]; [|by right].
  destruct o as [a'|b].
  - destruct Ho as [Ha' Hd]. apply (IH a' fs' r' p'); [done|by eapply St_weaken|lia].
  - left. exists b, p', fs', r', c. split_and!; [done|by eapply St_weaken|done].
Qed.

(** The fuel of [iter] suffices if [μ] is bounded by the tokens left. *)
Lemma run_iter_measure {A A'} (I : A → list Frame → list K → Prop)
    (μ : A → list K → nat) (body : A → M (A + A')) a fs r c (Φ : Post A') :
  (∀ a1 fs1 r1, I a1 fs1 r1 → run fs1 r1 c (body a1) (λ o fs' r' c', c ≤ c' ∧
     match o with
     | inl a' => I a' fs' r' ∧ μ a' r' < μ a1 r1
     | inr b => Φ b fs' r' c
     end)) →
  I a fs r → μ a r ≤ length r → run fs r c (iter body a) Φ.
Proof.
  intros Hbody Ha Hμ p Hp. unfold iter. rewrite (St_remaining _ _ _ _ Hp).
  eapply (run_iter_fuel I μ body _ a fs r c Φ Hbody Ha); [lia|done].
Qed.

Lemma run_iter {A A'} (I : A → list Frame → list K → Prop) (body : A → M (A + A'))
    a fs r c (Φ : Post A') :
  (∀ a1 fs1 r1, I a1 fs1 r1 → run fs1 r1 c (body a1) (λ o fs' r' c', c ≤ c' ∧
     match o with
     | inl a' => I a' fs' r' ∧ length r' < length r1
     | inr b => Φ b fs' r' c
     end)) →
  I a fs r → run fs r c (iter body a) Φ.
Proof. intros. by apply (run_iter_measure I (λ _ r, length r)). Qed.

(** One iteration of a loop whose local state does not matter. *)
Definition Loops {A A'} (fs : list Frame) (r : list K) (c0 : nat) : Post (A + A') :=
  λ o fs' r' c', fs' = fs ∧ c0 ≤ c' ∧
    match o with inl _ => length r' < length r | inr _ => length r' ≤ length r end.

Lemma run_loop {A A'} (body : A → M (A + A')) a fs r c (Φ : Post A') :
  (∀ a r1, length r1 ≤ length r → run fs r1 c (body a) (Loops fs r1 c)) →
  (∀ b r', length r' ≤ length r → Φ b fs r' c) → run fs r c (iter body a) Φ.
Proof.
  intros Hbody HΦ. apply (run_iter (λ _ fs' r', fs' = fs ∧ length r' ≤ length r)); [|done].
  intros a1 fs1 r1 [-> Hr1]. eapply run_conseq; [by apply Hbody|].
  intros o fs' r' c' (-> & Hc & Ho). split; [done|]. destruct o as [a'|b].
  - split_and!; [done|lia|done].
  - apply HΦ. lia.
Qed.

Lemma run_while f h `{!Sem f h} body fs r c Φ :
  (∀ r1, length r1 ≤ length r → h r1 = true → run fs r1 c body (Moves fs r1 c)) →
  (∀ r', length r' ≤ length r → h r' = false → Φ tt fs r' c) →
  run fs r c (while f body) Φ.
Proof.
  intros Hbody HΦ. apply (run_iter (λ _ fs' r', fs' = fs ∧ length r' ≤ length r)); [|done].
  intros [] fs1 r1 [-> Hr1]. apply (run_cond f h); intros E.
  - apply run_bind. eapply run_conseq; [by apply Hbody|].
    intros [] fs' r' c' (-> & Hl & Hc). apply run_ret. split_and!; [done|done|lia|done].
  - apply run_ret. split; [done|]. by apply HΦ.
Qed.

Lemma run_while_eat k body fs r c Φ :
  extensible fs → k ≠ eof →
  (∀ r1, length r1 ≤ length r → run fs r1 (c + 63) body (Keeps fs r1 c)) →
  (∀ r', length r' ≤ length r → Φ tt fs r' c) →
  run fs r c (while_eat k body) Φ.
Proof.
  intros Hx He Hbody HΦ. apply (run_iter (λ _ fs' r', fs' = fs ∧ length r' ≤ length r)); [|done].
  intros [] fs1 r1 [-> Hr1]. apply run_bind, run_eat; [done|done| |].
  - intros r' ->. simpl in Hr1. apply run_bind. eapply run_conseq; [apply Hbody; lia|].
    intros [] fs' r2 c' (-> & Hl & Hc). apply run_ret. simpl. split_and!; [done|done|lia|lia].
  - intros _. apply run_ret. split; [done|]. by apply HΦ.
Qed.

(** A loop that is not entered. *)
Lemma run_while_eat_none k body fs r c Φ :
  extensible fs → k ≠ eof → knth 0 r ≠ k → Φ tt fs r c → run fs r c (while_eat k body) Φ.
Proof.
  intros Hx He Hk H. apply (run_iter (λ _ fs' r', fs' = fs ∧ r' = r)); [|done].
  intros [] fs1 r1 [-> ->]. apply run_bind, run_eat; [done|done|by intros r' ->|].
  intros _. by apply run_ret.
Qed.

(** ** Specifications

    [Adds f pk b]: wherever [f] is called with room for [pk] events, it
    returns, and takes at most [b] of that room.  [Eats f h pk g]: where [h]
    holds of the tokens left, [f] consumes a token and leaves room for [g]
    events more than it had. *)
Class Adds {A} (f : M A) (pk b : nat) : Prop := adds fs r c :
  extensible fs → pk ≤ c → run fs r c f (Keeps fs r (c - b)).
Class Eats {A} (f : M A) (h : list K → bool) (pk g : nat) : Prop := eats fs r c :
  extensible fs → h r = true → pk ≤ c → run fs r c f (Moves fs r (c + g)).

Lemma run_adds {A} (f : M A) pk b `{!Adds f pk b} fs r c Φ :
  extensible fs → pk ≤ c → (∀ v r', length r' ≤ length r → Φ v fs r' (c - b)) → run fs r c f Φ.
Proof. intros Hx Hc. apply run_join. by eapply adds. Qed.

Lemma run_eats {A} (f : M A) h pk g `{!Eats f h pk g} fs r c Φ :
  extensible fs → h r = true → pk ≤ c →
  (∀ v r', length r' < length r → Φ v fs r' (c + g)) → run fs r c f Φ.
Proof. intros Hx Hh Hc. apply run_joinm. by eapply eats. Qed.

(** The same for a function whose recursion is on fuel: fewer than [N]
    tokens are left. *)
Class AddsL {A} (f : M A) (N pk b : nat) : Prop := addsl fs r c :
  extensible fs → length r < N → pk ≤ c → run fs r c f (Keeps fs r (c - b)).
Class EatsL {A} (f : M A) (h : list K → bool) (N pk g : nat) : Prop := eatsl fs r c :
  extensible fs → length r < N → h r = true → pk ≤ c → run fs r c f (Moves fs r (c + g)).

Lemma run_addsl {A} (f : M A) N pk b `{!AddsL f N pk b} fs r c Φ :
  extensible fs → length r < N → pk ≤ c →
  (∀ v r', length r' ≤ length r → Φ v fs r' (c - b)) → run fs r c f Φ.
Proof. intros Hx Hn Hc. apply run_join. by eapply addsl. Qed.

Lemma run_eatsl {A} (f : M A) h N pk g `{!EatsL f h N pk g} fs r c Φ :
  extensible fs → length r < N → h r = true → pk ≤ c →
  (∀ v r', length r' < length r → Φ v fs r' (c + g)) → run fs r c f Φ.
Proof. intros Hx Hn Hh Hc. apply run_joinm. by eapply eatsl. Qed.

(** [f] only looks at the parser, and [Q] relates what it finds to the tokens
    left. *)
Class Peeks {A} (f : M A) (Q : list K → A → Prop) : Prop := peeks fs r c (Φ : Post A) :
  (∀ v, Q r v → Φ v fs r c) → run fs r c f Φ.

Lemma run_peeks {A} (f : M A) Q `{!Peeks f Q} fs r c Φ :
  (∀ v, Q r v → Φ v fs r c) → run fs r c f Φ.
Proof. apply peeks. Qed.

(** Instantiating the fuel with the tokens left. *)
Lemma Adds_fuel {A} (f : nat → M A) pk b :
  (∀ n, AddsL (f n) n pk b) → Adds (λ p, f (S (remaining p)) p) pk b.
Proof.
  intros H fs r c Hx Hc p Hp. rewrite (St_remaining _ _ _ _ Hp).
  apply (H (S (length r)) fs r c); [done|lia|done|done].
Qed.
Lemma Eats_fuel {A} (f : nat → M A) h pk g :
  (∀ n, EatsL (f n) h n pk g) → Eats (λ p, f (S (remaining p)) p) h pk g.
Proof.
  intros H fs r c Hx Hh Hc p Hp. rewrite (St_remaining _ _ _ _ Hp).
  apply (H (S (length r)) fs r c); [done|lia|done|done|done].
Qed.

End logic.
