(* ===== verification/GrammarTactics.v ===== *)
(** * Automation for grammar functions

    [step] applies the rule of [ParserSpec] that fits the next statement,
    [steps] runs to the end of a function and [spec f] opens its
    specification; the two error recoveries are specified here. *)
From S2P Require Import Prelude.
From S2P Require Export ParserSpec.
#[local] Open Scope nat_scope.

(** ** Automation *)

Lemma knth_S {K} `{Vocabulary K} n k (r : list K) : knth (S n) (k :: r) = knth n r.
Proof. done. Qed.

(** Boolean facts about the next tokens, in the context. *)
Ltac facts :=
  repeat match goal with
  | H : _ && _ = true |- _ => apply andb_true_iff in H as [? ?]
  | H : _ || _ = false |- _ => apply orb_false_iff in H as [? ?]
  | H : negb _ && negb _ = false |- _ => rewrite <- negb_orb in H
  | H : negb _ = true |- _ => apply negb_true_iff in H
  | H : negb _ = false |- _ => apply negb_false_iff in H
  | H : kind_eqb ?a ?b = true |- _ =>
      lazymatch goal with
      | E : a = b |- _ => fail
      | _ => pose proof (kind_eqb_true _ _ H)
      end
  end.

Ltac token_eq :=
  match goal with
  | H : knth 0 ?r = ?k |- _ => rewrite H in *
  end.

Ltac use_bools :=
  repeat match goal with
  | H : true = true |- _ => clear H
  | H : false = false |- _ => clear H
  | H : ?a = true, G : ?a = true |- _ => clear G
  | H : ?a = false, G : ?a = false |- _ => clear G
  | H : ?a = true, G : context [?a] |- _ => rewrite H in G; simpl in G
  | H : ?a = false, G : context [?a] |- _ => rewrite H in G; simpl in G
  | H : ?a = true |- context [?a] => rewrite H; simpl
  | H : ?a = false |- context [?a] => rewrite H; simpl
  end.

(** The next token is [k]. *)
Ltac is_kind :=
  first [ assumption
        | apply kind_eqb_true; first [ assumption | use_bools; first [assumption | congruence] ] ].

(** A token is left, since a test on the next token succeeded. *)
Ltac nonempty :=
  let E := fresh in
  intros E;
  first [ discriminate E
        | match type of E with ?r = [] => subst r end;
          match goal with
          | H : context [@nil _] |- _ => vm_compute in H; discriminate H
          | H : kind_eqb (knth 0 []) ?k = false |- _ =>
              change (kind_eqb k k = false) in H; rewrite (kind_eqb_refl k) in H; discriminate H
          end
        | subst; discriminate ].

(** The tests that are used as preconditions by name; a grammar adds its own
    to the database. *)
Create HintDb tests.
Definition k_at {K} `{Discriminant K, !Vocabulary K} (k : K) (r : list K) : bool := kind_eqb (knth 0 r) k.
#[export] Hint Unfold k_at : tests.

(** The precondition of an [Eats]. *)
Ltac precond :=
  cbv beta in *;
  first [ assumption | reflexivity
        | autounfold with tests in *;
          repeat match goal with H : knth _ _ = _ |- _ => rewrite H end; reflexivity
        | match goal with |- match ?r with _ => _ end = true =>
            let E := fresh in assert (r ≠ []) as E by nonempty; by destruct r end
        | autounfold with tests in *; use_bools; first [assumption | congruence | reflexivity]
        | apply andb_true_intro; split; precond ].

Ltac ext := first [exact I | assumption].

(** Name the token a rule consumed. *)
Ltac took :=
  lazymatch goal with
  | |- ∀ k r', _ = k :: r' → _ => intros ? ? ?
  | |- ∀ r', _ = _ :: r' → _ => intros ? ?
  end;
  simplify_eq; rewrite ?knth_S in *.

Ltac fin :=
  first [ solve [unfold Keeps, Moves, Loops; split_and!; first [reflexivity | cbn [length] in *; lia]]
        | exfalso; congruence
        | solve [exfalso; autounfold with tests in *; cbv beta in *; use_bools; congruence] ].

Ltac call :=
  first [ eapply run_peeks; [once (typeclasses eauto) | intros ? ?]
        | eapply run_eats; [once (typeclasses eauto) | ext | precond | lia | intros ? ? ?]
        | eapply run_adds; [once (typeclasses eauto) | ext | lia | intros ? ? ?]
        | eapply run_eatsl; [once (typeclasses eauto) | ext | cbn [length] in *; lia | precond | lia | intros ? ? ?]
        | eapply run_addsl; [once (typeclasses eauto) | ext | cbn [length] in *; lia | lia | intros ? ? ?] ].

(** A kind of node a function takes as an argument. *)
Class NodeKind {K} `{Vocabulary K} (k : K) : Prop := not_tombstone : k ≠ tombstone.
#[export] Hint Extern 1 (NodeKind _) => (unfold NodeKind; discriminate) : typeclass_instances.

(** The kind of a node is not a tombstone. *)
Ltac node_kind :=
  first [ discriminate | assumption | apply error_not_tombstone | solve [repeat case_match; discriminate]
        | match goal with H : NodeKind ?k |- ?k ≠ _ => exact H end ].

Ltac branch := eapply run_cond; [once (typeclasses eauto) | |]; (intros ?; cbv beta in *; facts).

Ltac step :=
  lazymatch goal with
  | |- run ?fs ?r ?c ?m ?Φ =>
      lazymatch m with
      | mret _ => apply run_ret; cbv beta
      | ?X ≫= _ =>
          apply run_bind;
          lazymatch X with
          | cond _ _ _ =>
              first [ apply (run_joinm (c + 40)); [solve [steps] | intros ? ? ?]
                    | apply (run_joinm (c + 12)); [solve [steps] | intros ? ? ?]
                    | apply (run_join (c - 2)); [|intros ? ? ?] ]
          | (if _ then _ else _) =>
              first [ apply (run_join (c - 2)); [solve [steps] | intros ? ? ?]
                    | apply (run_join (c - 7)); [solve [steps] | intros ? ? ?]
                    | apply (run_join (c - 2)); [|intros ? ? ?] ]
          | _ => idtac
          end
      | when _ _ =>
          first
            [ eapply run_when with (c0 := c);
              [once (typeclasses eauto) | lia | intros ?; cbv beta in *; facts; solve [steps] | intros ? ?]
            | eapply run_when with (c0 := c - 1);
              [once (typeclasses eauto) | lia | intros ?; cbv beta in *; facts; solve [steps] | intros ? ?]
            | eapply run_when with (c0 := c - 8);
              [once (typeclasses eauto) | lia | intros ?; cbv beta in *; facts; solve [steps] | intros ? ?]
            | eapply run_when with (c0 := c - 20);
              [once (typeclasses eauto) | lia | intros ?; cbv beta in *; facts; solve [steps] | intros ? ?] ]
      | start => apply run_start; [ext | lia | intros ?]
      | bump _ => apply run_bump; [ext | is_kind | first [discriminate | assumption] | took]
      | bump_any =>
          first [ apply run_bump_any; [ext | nonempty | took]
                | apply run_bump_any_le; [ext | intros ? ?] ]
      | error _ => apply run_error; [ext | lia |]
      | expect _ => apply run_expect; [ext | first [discriminate | assumption] | lia | intros ? ? ?]
      | eat _ => apply run_eat_le; [ext | first [discriminate | assumption] | intros ? ? ?]
      | complete _ _ => apply run_complete; [ext | lia | node_kind | intros ?]
      | cond _ _ _ => branch
      | (if ?b then _ else _) => apply run_if
      | while _ _ =>
          eapply run_while;
          [once (typeclasses eauto) | intros ? ? ?; cbv beta in *; facts | intros ? ? ?; cbv beta in *; facts]
      | while_eat _ _ => apply run_while_eat; [ext | first [discriminate | assumption] | intros ? ? | intros ? ?]
      | abandon _ => apply run_abandon; [ext |]
      | panic => exfalso; congruence
      | iter _ _ => apply run_loop; [intros ? ? ? | intros ? ? ?]
      | reads_exec _ => apply run_text; intros ?
      | reads _ => apply run_reads; intros ?
      | _ => call
      end
  | |- Keeps _ _ _ _ _ _ _ => fin
  | |- Moves _ _ _ _ _ _ _ => fin
  | |- Loops _ _ _ _ _ _ _ => fin
  end; cbv beta
with steps := repeat step.

(** Run to the first conditional statement and join its branches at the
    cost of [n] events, without looking for a better bound. *)
Ltac join n :=
  lazymatch goal with
  | |- run ?fs ?r ?c (cond _ _ _ ≫= _) ?Φ =>
      apply run_bind; apply (run_join (c - n)); [|intros ? ? ?]
  | |- run ?fs ?r ?c ((if _ then _ else _) ≫= _) ?Φ =>
      apply run_bind; apply (run_join (c - n)); [|intros ? ? ?]
  | _ => step; [.. | join n]
  end.
(** Open a specification. *)
Ltac begin := intros fs r c Hx; intros; cbv beta in *; facts.
Ltac spec f := intros fs r c Hx; intros; unfold f; cbv beta in *; facts.

Section specs.
Context {K : Type} {HD : Discriminant K} {V : Vocabulary K} {TS : TokenStream K}.

#[export] Instance at_contextual_kw_peeks text : Peeks (at_contextual_kw text) (λ r b, b = true → r ≠ []).
Proof.
  intros fs r c Φ H. unfold at_contextual_kw. branch; [by apply run_ret, H|].
  apply run_bind, run_text. intros t. apply run_ret, H. by destruct r.
Qed.

#[export] Instance err_recover_on_adds msg rec : Adds (err_recover_on msg rec) 3 1.
Proof. begin. unfold err_recover_on. steps. Qed.
#[export] Instance err_recover_adds msg rec : Adds (err_recover msg rec) 3 1.
Proof. apply err_recover_on_adds. Qed.

(** With nothing to recover to, everything up to the end is consumed. *)
Lemma err_recover_on_eats msg rec :
  (∀ k, rec k = false) →
  Eats (err_recover_on msg rec) (λ r, match r with [] => false | _ => true end) 3 20.
Proof.
  intros Hrec. begin. unfold err_recover_on. destruct r as [|k r]; [done|].
  branch; [intros p Hp; by destruct (St_head _ _ _ _ _ Hp)|].
  branch; [by rewrite Hrec in *|]. steps.
Qed.

#[export] Instance err_and_bump_adds msg : Adds (err_and_bump msg) 3 1.
Proof. apply err_recover_adds. Qed.
#[export] Instance err_and_bump_eats msg :
  Eats (err_and_bump msg) (λ r, match r with [] => false | _ => true end) 3 20.
Proof. apply err_recover_on_eats, contains_EMPTY. Qed.

(** ** Functions that return a node

    Value expressions are built by [precede], so the functions that return a
    completed marker promise that it is the last node. *)

(** The result of an expression: nothing, or the node just completed. *)
Definition NodePost (fs : list Frame) (r : list K) (c : nat)
      : Post (K := K) (option CompletedMarker) := λ v fs' r' c',
  match v with
  | Some cm => ∃ m, cm = {| completed_pos := N.of_nat m |} ∧ fs' = FDone m :: fs ∧
      length r' < length r ∧ c + 10 ≤ c'
  | None => fs' = fs ∧ length r' ≤ length r ∧ c - 1 ≤ c'
  end.

Class NodeL (f : M K (option CompletedMarker)) (N : nat) : Prop := nodel fs r c :
  extensible fs → length r < N → 6 ≤ c → run fs r c f (NodePost fs r c).

(** The result is dropped. *)
#[export] Instance NodeL_addsl f N `{!NodeL f N} : AddsL f N 6 1.
Proof.
  intros fs r c Hx Hn Hc p Hp.
  destruct (nodel (f := f) fs r c Hx Hn Hc p Hp) as [([cm|] & p' & fs' & r' & c' & E & Hp' & H)|?];
    [left..|by right].
  - destruct H as (m & -> & -> & Hl & Hc'). eexists _, p', fs, r', c'.
    split; [done|]. split; [by eapply St_done|fin].
  - by exists None, p', fs', r', c'.
Qed.

Lemma run_complete_some m b k fs r c Φ :
  1 ≤ c → k ≠ tombstone →
  Φ (Some {| completed_pos := N.of_nat m |}) (FDone m :: fs) r (c - 1) →
  run (FOpen m b :: fs) r c (complete_some (N.of_nat m) k) Φ.
Proof.
  intros Hc Hk H. apply run_bind, run_complete_done; [done..|]. by apply run_ret.
Qed.

(** The head of a binary level: [lhs] is the last node completed. *)
Definition at_node (fs : list Frame) (n : nat) (lhs : CompletedMarker) (fs' : list Frame)
    (r : list K) : Prop :=
  ∃ m, lhs = {| completed_pos := N.of_nat m |} ∧ fs' = FDone m :: fs ∧ length r < n.

(** A level whose operator consumes a token. *)
Lemma binary_operands_node f h `{!Sem f h} op operand kind N :
  (∀ fs r c, extensible fs → h r = true → 1 ≤ c → run fs r c op (Moves fs r (c + 20))) →
  kind ≠ tombstone → NodeL operand N → NodeL (binary_operands f op operand kind) N.
Proof.
  intros Hop Hkind Ho fs r c Hx Hn Hc. unfold binary_operands. apply run_bind.
  eapply run_conseq; [by eapply nodel|].
  intros [lhs|] fs1 r1 c1; [|intros (-> & Hl & Hc1); apply run_ret; by split_and!].
  intros (m & -> & -> & Hl & Hc1). apply run_weaken with (c0 := c + 10); [lia|].
  apply run_bind, (run_iter (at_node fs (length r))); [|by exists m].
  clear dependent r1 m c1. intros lhs fs1 r1 (m & -> & -> & Hr1). apply (run_cond f h); intros Hh.
  - apply run_bind, run_precede; [lia|]. intros m'. cbv beta.
    apply run_bind. apply run_joinm with (c0 := c + 10 - 1 + 20); [by apply Hop; [..|lia]|].
    intros ? r2 Hr2. cbv beta. apply run_bind.
    eapply run_addsl; [typeclasses eauto|done|lia|lia|]. intros ? r3 Hr3. cbv beta.
    apply run_bind, run_complete_done; [lia|done|]. apply run_ret. split; [lia|].
    split; [|lia]. exists m'. split_and!; [done|done|lia].
  - apply run_ret. split; [done|]. apply run_ret. exists m. split_and!; [done|done|lia|lia].
Qed.
End specs.

Ltac node :=
  apply run_complete_some; [lia | discriminate |]; cbv beta;
  eexists; split_and!; [reflexivity | reflexivity | cbn [length] in *; lia | lia].

(** ** A whole parse

    The entry point of a grammar opens the root, runs a body that reads
    everything, and closes the root: it returns, and the events are one node
    around balanced segments that record the tokens. *)
Definition parse_room {K} `{Vocabulary K} (tokens : list (K * usize)) : nat :=
  64 * S (length (kinds_of tokens)).

Section root.
Context {K : Type} {HD : Discriminant K} {V : Vocabulary K}.

(** [grammar] returns, with [Q] of the kinds it left, or does not return, in
    which case [stalls] holds of the input. *)
Definition TotalUnless (stalls Q : list K → Prop) (grammar : M K unit) (root : K) : Prop := ∀ tokens src,
  tokens_ok tokens src → (N.of_nat (parse_room tokens) ≤ U32_MAX)%N →
  (stalls (kinds_of tokens) → N.of_nat (2 * parse_room tokens) ≤ U32_MAX)%N →
  (∃ p inner r,
    grammar (parser_new tokens src) = Done (tt, p) ∧
    finish p = Start root None :: inner ++ [Finish] ∧ Q r ∧
    Bal inner ∧ toks inner ++ r = kinds_of tokens ∧ length (finish p) ≤ parse_room tokens) ∨
  (stalls (kinds_of tokens) ∧ grammar (parser_new tokens src) = Stuck).

(** On every stream, reading everything. *)
Definition TotalGrammar (grammar : M K unit) (root : K) : Prop := ∀ tokens src,
  tokens_ok tokens src → (N.of_nat (parse_room tokens) ≤ U32_MAX)%N →
  ∃ p inner,
    grammar (parser_new tokens src) = Done (tt, p) ∧
    finish p = Start root None :: inner ++ [Finish] ∧
    Bal inner ∧ toks inner = kinds_of tokens ∧ length (finish p) ≤ parse_room tokens.

(** The body, run at the start of the input. *)
Definition Reads_unless (stalls Q : list K → Prop) {A} (body : M K A) : Prop :=
  ∀ TS : TokenStream K, (stalls (kinds_of in_tokens) → may_stall) → ∀ m,
  run [FOpen m true] (kinds_of in_tokens) 6 body (λ _ fs' r' c', fs' = [FOpen m true] ∧ Q r' ∧ 1 ≤ c').

Lemma root_total_unless (stalls Q : list K → Prop) {A} (body : M K A) (root : K) :
  root ≠ tombstone → Reads_unless stalls Q body →
  TotalUnless stalls Q (m ← start; body ;; complete m root ;; mret tt) root.
Proof.
  intros Hroot Hbody tokens src Hok Hroom Hslack.
  assert (Hstall : stalls (kinds_of tokens) →
    (N.of_nat (parse_room tokens + 64 * S (length (kinds_of tokens))) ≤ U32_MAX)%N).
  { intros Hs. apply Hslack in Hs. unfold parse_room in *. lia. }
  set (TS := {| in_tokens := tokens; in_src := src; room := parse_room tokens;
                in_ok := Hok; room_bound := Hroom; may_stall := stalls (kinds_of tokens);
                stall_room := Hstall |}).
  set (p1 := {| all_tokens := tokens; non_trivia_indices := non_trivia_from 0 tokens; pos := 0;
    events := [Start tombstone None]; source := src; token_starts := starts_from 0 tokens |}).
  assert (H1 : St [FOpen 0 true] (kinds_of tokens) 6 p1).
  { constructor; try done.
    - by exists [], [], []; split_and!; try done; constructor.
    - simpl. unfold parse_room. lia. }
  unfold mbind, M_bind. change (start (parser_new tokens src)) with (Done (0%N, p1)). cbv beta iota.
  destruct (Hbody TS id 0 p1 H1) as [(v & p2 & fs & r & c & -> & H2 & -> & Hr & Hc)|[Hs ->]]; [left|by right].
  destruct (st_open _ _ _ _ H2) as (es0 & pre & inner & He & Hl & _ & _ & Hf & Hi).
  rewrite (Hf eq_refl) in *. destruct es0; [|simpl in Hl; lia]. simpl in He.
  eexists _, inner, r. split.
  - unfold complete, mbind, M_bind, reads. rewrite He. reflexivity.
  - simpl. pose proof (st_toks _ _ _ _ H2) as Ht.
    rewrite He in Ht. pose proof (st_room _ _ _ _ H2) as Hrm. rewrite He in Hrm.
    split_and!; [done|done|done|done|]. change room with (parse_room tokens) in Hrm.
    rewrite length_app. cbn [length] in *. lia.
Qed.

(** The body reads everything. *)
Definition Reads_all {TS : TokenStream K} {A} (body : M K A) : Prop := ∀ m r,
  run [FOpen m true] r 6 body (λ _ fs' r' c', fs' = [FOpen m true] ∧ r' = [] ∧ 1 ≤ c').

Lemma root_total {A} (body : M K A) (root : K) :
  root ≠ tombstone → (∀ TS : TokenStream K, Reads_all body) →
  TotalGrammar (m ← start; body ;; complete m root ;; mret tt) root.
Proof.
  intros Hroot Hbody tokens src Hok Hroom.
  destruct (root_total_unless (λ _, False) (λ r, r = []) body root Hroot) with (tokens := tokens) (src := src)
    as [(p & inner & r & E & Ef & -> & Hb & Ht & Hl)|[[] _]]; [intros TS _ m; apply Hbody|done..|].
  rewrite app_nil_r in Ht. by exists p, inner.
Qed.
End root.
