(* ===== verification/GrammarSpec.v ===== *)
(** * The grammar is total: names, classifiers, modes and annexes

    The specification ([Adds] or [Eats]) of every function of [Grammar], by
    the rules of [ParserSpec]: no assertion of the
    parser fails, every loop ends, every marker is closed and every token
    consumed is recorded. *)
From S2P Require Import Prelude.
From S2P Require Export GrammarTactics.
From S2P Require Export Grammar.
From S2P Require Export GrammarProperties.
#[local] Open Scope nat_scope.

Section specs.
Context {TS : TokenStream SyntaxKind}.

(** ** Tests *)

Definition k_at_name (r : list SyntaxKind) : bool :=
  kind_eqb (knth 0 r) IDENT || (is_keyword (knth 0 r) && kind_eqb (knth 1 r) COLON).
#[export] Instance Sem_at_name : Sem at_name k_at_name.
Proof. unfold at_name. exact _. Qed.

Definition k_ident_or_kw (r : list SyntaxKind) : bool :=
  kind_eqb (knth 0 r) IDENT || is_keyword (knth 0 r).
#[local] Hint Unfold k_at_name k_ident_or_kw : tests.

(** ** Names *)

#[export] Instance component_category_adds : Adds component_category 8 0.
Proof. spec component_category. steps. Qed.
#[export] Instance component_category_eats :
  Eats component_category (λ r, is_component_category_kw (knth 0 r)) 8 20.
Proof. spec component_category. steps. Qed.

#[export] Instance Sem_ident_or_kw : Sem at_ident_or_kw k_ident_or_kw.
Proof. unfold at_ident_or_kw. exact _. Qed.

#[export] Instance bump_as_ident_adds : Adds bump_as_ident 1 0.
Proof. spec bump_as_ident. steps. Qed.
#[export] Instance bump_as_ident_eats : Eats bump_as_ident k_ident_or_kw 1 60.
Proof. spec bump_as_ident. steps. Qed.

#[export] Instance name_adds : Adds name 5 1.
Proof.
  spec name. steps.
Qed.

(** ** Classifier references *)

#[export] Instance prototype_direction_adds : Adds prototype_direction 3 1.
Proof. spec prototype_direction. steps. Qed.
#[export] Instance prototype_binding_kind_adds : Adds prototype_binding_kind 8 0.
Proof. spec prototype_binding_kind. steps. Qed.

#[export] Instance prototype_binding_addsl cr N `{!AddsL cr N 12 1} :
  AddsL (prototype_binding_with cr) N 24 8.
Proof. spec prototype_binding_with. steps. Qed.
#[export] Instance prototype_binding_list_eatsl cr N `{!AddsL cr N 12 1} :
  EatsL (prototype_binding_list_with cr) (k_at L_PAREN) (S N) 4 0.
Proof. spec prototype_binding_list_with. unfold k_at in *. facts. steps. Qed.
#[export] Instance classifier_ref_with_addsl pbl N `{!EatsL pbl (k_at L_PAREN) N 4 0} :
  AddsL (classifier_ref_with pbl) N 12 1.
Proof. spec classifier_ref_with. steps. Qed.
#[export] Instance classifier_ref_with_eatsl pbl N `{!EatsL pbl (k_at L_PAREN) N 4 0} :
  EatsL (classifier_ref_with pbl) k_ident_or_kw N 12 20.
Proof. spec classifier_ref_with. steps. Qed.

Lemma classifier_ref_n_spec n :
  AddsL (classifier_ref_n n) n 12 1 ∧ EatsL (classifier_ref_n n) k_ident_or_kw n 12 20.
Proof.
  induction n as [|n [IH _]]; [split; intros fs r c; lia|].
  split; [apply classifier_ref_with_addsl|apply classifier_ref_with_eatsl];
    by apply prototype_binding_list_eatsl.
Qed.

#[export] Instance classifier_ref_adds : Adds classifier_ref 12 1.
Proof. apply Adds_fuel. apply classifier_ref_n_spec. Qed.
#[export] Instance classifier_ref_eats : Eats classifier_ref k_ident_or_kw 12 20.
Proof. apply Eats_fuel. apply classifier_ref_n_spec. Qed.
#[export] Instance classifier_ref__adds : Adds classifier_ref_ 12 1.
Proof. spec classifier_ref_. steps. Qed.
#[export] Instance classifier_ref__eats : Eats classifier_ref_ k_ident_or_kw 12 20.
Proof. spec classifier_ref_. steps. Qed.
#[export] Instance prototype_binding_list_eats : Eats prototype_binding_list (k_at L_PAREN) 4 0.
Proof.
  intros fs r c Hx Hk Hc.
  assert (AddsL classifier_ref (length r) 12 1) as Hcr by (intros ?????; by apply adds).
  apply (prototype_binding_list_eatsl classifier_ref (length r) fs r c); [done|lia|done|done].
Qed.
#[export] Instance opt_classifier_ref_adds : Adds opt_classifier_ref 12 0.
Proof. spec opt_classifier_ref. steps. Qed.

(** ** Annexes and modes *)

#[export] Instance annex_body_adds : Adds annex_body 8 6.
Proof. spec annex_body. steps. Qed.
#[export] Instance annex_subclause_eats : Eats annex_subclause (k_at ANNEX_KW) 2 20.
Proof. spec annex_subclause. unfold k_at in *. facts. steps. Qed.
#[export] Instance annex_library_eats : Eats annex_library (k_at ANNEX_KW) 2 20.
Proof. spec annex_library. unfold k_at in *. facts. steps. Qed.

#[export] Instance mode_or_mapping_adds : Adds mode_or_mapping 2 0.
Proof. spec mode_or_mapping. steps. Qed.
#[export] Instance in_modes_eats :
  Eats in_modes (λ r, k_at IN_KW r && kind_eqb (knth 1 r) MODES_KW) 2 20.
Proof.
  spec in_modes. unfold k_at in *. facts.
  apply run_cond with (h := λ r, kind_eqb (knth 0 r) IN_KW && kind_eqb (knth 1 r) MODES_KW);
    [exact _| |]; intros E; cbv beta in E; [clear E; steps|].
  use_bools. done.
Qed.
#[export] Instance in_modes_adds : Adds in_modes 2 0.
Proof. spec in_modes. steps. Qed.
End specs.
#[export] Hint Unfold k_at_name k_ident_or_kw : tests.

(** ** The grammar is total: properties

    The specification of every function of [GrammarProperties]. *)
Section specs.
Context {TS : TokenStream SyntaxKind}.

(** ** Paths *)

#[export] Instance opt_ident_adds : Adds opt_ident 1 0.
Proof. spec opt_ident. steps. Qed.
#[export] Instance array_subscripts_adds : Adds array_subscripts 2 0.
Proof. spec array_subscripts. steps. Qed.
#[export] Instance containment_path_adds : Adds containment_path 4 2.
Proof. spec containment_path. steps. Qed.
#[export] Instance applies_to_eats : Eats applies_to (k_at APPLIES_KW) 2 20.
Proof. spec applies_to. unfold k_at in *. facts. steps. Qed.
#[export] Instance in_binding_eats :
  Eats in_binding (λ r, k_at IN_KW r && kind_eqb (knth 1 r) BINDING_KW) 2 20.
Proof. spec in_binding. unfold k_at in *. facts. steps. Qed.

(** ** Value expressions *)

Lemma primary_node pe prim N :
  AddsL pe N 9 2 → NodeL prim N → NodeL (primary_with pe prim) (S N).
Proof.
  intros Hpe Hprim. spec @primary_with.
  do 12 (branch; [steps; node|]).
  apply run_bind. branch.
  - apply run_bind. unfold current_text. steps.
    + node.
    + split_and!; [done|lia|lia].
  - steps. split_and!; [done|lia|lia].
Qed.

Lemma binary_level_node op1 op2 operand N :
  op1 ≠ EOF → op2 ≠ EOF → NodeL operand N → NodeL (binary_level op1 op2 operand) N.
Proof.
  intros Hop1 Hop2 Ho. apply (binary_operands_node _ (λ r, k_at op1 r || k_at op2 r)); [|done|done].
  intros fs r c Hx Hh Hc. apply run_bump_any; [done| |took; fin].
  intros ->. apply orb_true_iff in Hh as [H|H]; apply kind_eqb_true in H; by subst.
Qed.

Lemma property_expression_addsl prim N :
  NodeL prim N → AddsL (property_expression_with prim) N 9 2.
Proof.
  intros Hp fs r c Hx Hn Hc.
  assert (Hadd : NodeL (additive_with prim) N).
  { apply binary_level_node; [done..|]. by apply binary_level_node. }
  apply run_bind. eapply run_conseq; [by eapply (nodel (N := N)); [..|lia]|].
  intros [lhs|] fs1 r1 c1.
  2:{ intros (-> & Hl & Hc1). apply run_ret. fin. }
  intros (m & -> & -> & Hl & Hc1). apply run_weaken with (c0 := c + 10); [lia|].
  unfold when. branch; [|apply run_drop; [done|]; apply run_ret; fin].
  apply run_bind, run_precede; [lia|]. intros m'. cbv beta. apply run_bind, run_bump; [done|done|done|took].
  cbn [length] in *. steps.
Qed.

Lemma primary_n_node n : NodeL (primary_n n) n.
Proof.
  induction n as [|n IH]; [intros fs r c; lia|].
  apply primary_node; [|done]. by apply property_expression_addsl.
Qed.

#[export] Instance property_expression_adds : Adds property_expression 9 2.
Proof.
  intros fs r c Hx Hc p Hp. unfold property_expression. rewrite (St_remaining _ _ _ _ Hp).
  assert (Hl : length r < S (length r)) by lia.
  exact (property_expression_addsl _ _ (primary_n_node (S (length r))) fs r c Hx Hl Hc p Hp).
Qed.

#[export] Instance property_value_adds : Adds property_value 9 2.
Proof. spec property_value. steps. Qed.

(** ** Associations *)

#[export] Instance property_ref_adds : Adds property_ref 5 4.
Proof. spec property_ref. steps. Qed.
#[export] Instance property_ref_eats : Eats property_ref k_at_name 3 20.
Proof. spec property_ref. steps. Qed.
#[export] Instance property_association_eats : Eats property_association k_at_name 4 0.
Proof. spec property_association. steps. Qed.

#[export] Instance property_section_eats : Eats property_section (k_at PROPERTIES_KW) 2 20.
Proof. spec property_section. unfold none_or, k_at in *. facts. steps. Qed.
#[export] Instance property_block_eats : Eats property_block (k_at L_CURLY) 2 20.
Proof. spec property_block. unfold k_at in *. facts. steps. Qed.
#[export] Instance opt_property_block_adds : Adds opt_property_block 2 0.
Proof. spec opt_property_block. steps. Qed.

(** ** Property types and sets *)

#[export] Instance numeric_bound_adds : Adds numeric_bound 3 2.
Proof. spec numeric_bound. steps. Qed.
#[export] Instance numeric_range_opt_adds : Adds numeric_range_opt 6 4.
Proof. spec numeric_range_opt. steps. Qed.
#[export] Instance units_designator_body_adds : Adds units_designator_body 4 3.
Proof. spec units_designator_body. steps. Qed.
#[export] Instance numeric_units_designator_adds : Adds numeric_units_designator 12 3.
Proof. spec numeric_units_designator. steps. Qed.
#[export] Instance classifier_ref_list_element_adds : Adds classifier_ref_list_element 12 1.
Proof. spec classifier_ref_list_element. steps. Qed.
#[export] Instance classifier_ref_list_in_parens_adds : Adds classifier_ref_list_in_parens 12 0.
Proof. spec classifier_ref_list_in_parens. steps. Qed.

Lemma property_type_with_addsl pt N : AddsL pt N 20 6 → AddsL (property_type_with pt) (S N) 20 6.
Proof. intros Hpt. spec property_type_with. join 4; steps. Qed.

Lemma property_type_n_spec n : AddsL (property_type_n n) n 20 6.
Proof.
  induction n as [|n IH]; [intros fs r c; lia|]. by apply property_type_with_addsl.
Qed.
#[export] Instance property_type_adds : Adds property_type 20 6.
Proof. apply Adds_fuel. apply property_type_n_spec. Qed.

#[export] Instance applies_to_category_adds : Adds applies_to_category 8 8.
Proof. spec applies_to_category. steps. Qed.
#[export] Instance property_definition_or_constant_eats :
  Eats property_definition_or_constant k_at_name 4 0.
Proof. spec property_definition_or_constant. steps. Qed.
#[export] Instance property_set_eats : Eats property_set (k_at PROPERTY_KW) 4 0.
Proof. spec property_set. unfold k_at in *. facts. steps. Qed.
End specs.
