(* ===== verification/GrammarSectionsSpec.v ===== *)
(** * The grammar is total: modes, flows, connections and features

    The specification of every function of [GrammarSections]. *)
From S2P Require Import Prelude.
From S2P Require Export GrammarSpec.
From S2P Require Export GrammarSections.
#[local] Open Scope nat_scope.

Section specs.
Context {TS : TokenStream SyntaxKind}.

#[export] Instance opt_ident_or_kw_adds : Adds opt_ident_or_kw 1 0.
Proof. spec opt_ident_or_kw. steps. Qed.
#[export] Instance dotted_tail_adds : Adds dotted_tail 1 0.
Proof. spec dotted_tail. steps. Qed.

(** ** Modes *)

#[export] Instance trigger_ref_adds : Adds trigger_ref 2 0.
Proof. spec trigger_ref. steps. Qed.
#[export] Instance parse_transition_tail_adds : Adds parse_transition_tail 10 8.
Proof. spec parse_transition_tail. steps. Qed.

Definition k_unnamed_transition (r : list SyntaxKind) : bool :=
  k_ident_or_kw r && kind_eqb (knth 1 r) DASH_BRACKET.
#[export] Instance Sem_unnamed_transition : Sem at_unnamed_transition k_unnamed_transition.
Proof. unfold at_unnamed_transition. exact _. Qed.

#[export] Instance mode_or_transition_eats :
  Eats mode_or_transition (λ r, match r with [] => false | _ => true end) 4 20.
Proof. spec mode_or_transition. destruct r as [|k r]; [done|]. steps. Qed.
#[export] Instance mode_section_eats :
  Eats mode_section (λ r, k_at MODES_KW r || (k_at REQUIRES_KW r && kind_eqb (knth 1 r) MODES_KW)) 4 20.
Proof.
  spec mode_section. unfold none_or, k_at in *. do 3 step.
  unfold when. apply orb_true_iff in H as [H|H]; facts; branch.
  - congruence.
  - apply run_ret. steps.
  - apply run_bump; [done|is_kind|done|took]. steps.
  - congruence.
Qed.
#[export] Instance opt_in_modes_adds : Adds opt_in_modes 2 0.
Proof. spec opt_in_modes. steps. Qed.

(** ** Flows *)

#[export] Instance flow_end_adds : Adds flow_end 3 2.
Proof. spec flow_end. steps. Qed.
#[export] Instance flow_segment_adds : Adds flow_segment 3 2.
Proof. spec flow_segment. steps. Qed.
#[export] Instance opt_refined_to_adds : Adds opt_refined_to 3 0.
Proof. spec opt_refined_to. steps. Qed.
#[export] Instance flow_kind_adds msg : Adds (flow_kind msg) 5 4.
Proof. spec flow_kind. steps. Qed.
#[export] Instance flow_spec_eats :
  Eats flow_spec (λ r, match r with [] => false | _ => true end) 4 20.
Proof. spec flow_spec. destruct r as [|k r]; [done|]. steps. Qed.
#[export] Instance flow_segments_adds : Adds flow_segments 6 4.
Proof.
  spec flow_segments. apply run_bind, (run_join (c - 3)); [|intros; cbv beta; steps].
  apply run_cond_any; steps.
Qed.
#[export] Instance flow_impl_or_e2e_eats :
  Eats flow_impl_or_e2e (λ r, match r with [] => false | _ => true end) 4 20.
Proof. spec flow_impl_or_e2e. destruct r as [|k r]; [done|]. steps. Qed.
#[export] Instance flow_spec_section_eats : Eats flow_spec_section (k_at FLOWS_KW) 4 20.
Proof. spec flow_spec_section. unfold none_or, k_at in *. facts. steps. Qed.
#[export] Instance flow_impl_section_eats : Eats flow_impl_section (k_at FLOWS_KW) 4 20.
Proof. spec flow_impl_section. unfold none_or, k_at in *. facts. steps. Qed.

(** ** Connections *)

#[export] Instance connected_element_adds : Adds connected_element 4 3.
Proof. spec connected_element. join 1; steps. Qed.

(** The kind of the node is never the placeholder. *)
Lemma connection_kind_run fs r c Φ :
  extensible fs → 1 ≤ c →
  (∀ k r', k ≠ TOMBSTONE → length r' ≤ length r → Φ k fs r' (c - 1)) →
  run fs r c connection_kind Φ.
Proof.
  intros Hx Hc HΦ p Hp.
  assert (run fs r c connection_kind
    (λ k fs' r' c', k ≠ TOMBSTONE ∧ Keeps fs r (c - 1) k fs' r' c')) as H.
  { unfold connection_kind. steps; (split; [discriminate|fin]). }
  destruct (H p Hp) as [(k & p' & fs' & r' & c' & E & Hp' & Hk & -> & Hl & Hc')|?]; [left|by right].
  exists k, p', fs, r', (c - 1). split_and!; [done|by eapply St_weaken|auto].
Qed.

#[export] Instance connection_eats :
  Eats connection (λ r, match r with [] => false | _ => true end) 4 20.
Proof.
  spec connection. destruct r as [|k r]; [done|].
  do 6 step. join 4; [steps..|]. step. apply connection_kind_run; [done|lia|].
  intros kind r2 Hkind Hr2. cbv beta. join 10; steps.
Qed.
#[export] Instance connection_section_eats : Eats connection_section (k_at CONNECTIONS_KW) 4 20.
Proof. spec connection_section. unfold none_or, k_at in *. facts. steps. Qed.

(** ** Features *)

#[export] Instance array_dimension_eats : Eats array_dimension (k_at L_BRACKET) 4 20.
Proof. spec array_dimension. unfold k_at in *. facts. steps. Qed.
#[export] Instance opt_property_block_and_semi_adds : Adds opt_property_block_and_semi 4 1.
Proof. spec opt_property_block_and_semi. steps. Qed.
#[export] Instance eat_to_semicolon_adds : Adds eat_to_semicolon 1 0.
Proof. spec eat_to_semicolon. steps. Qed.
#[export] Instance abstract_feature_classifier_adds : Adds abstract_feature_classifier 12 1.
Proof. spec abstract_feature_classifier. unfold is_section_kw. steps. Qed.
#[export] Instance feature_group_ref_adds : Adds feature_group_ref 12 0.
Proof. spec feature_group_ref. steps. Qed.

(** Functions that are handed an open marker and close it. *)
Class Closes (m : nat) (f : M unit) (pk b : nat) : Prop := closes fr fs r c :
  extensible fs → pk ≤ c → run (FOpen m fr :: fs) r c f (Keeps fs r (c - b)).

Lemma run_closes m f pk b `{!Closes m f pk b} fr fs r c Φ :
  extensible fs → pk ≤ c → (∀ v r', length r' ≤ length r → Φ v fs r' (c - b)) →
  run (FOpen m fr :: fs) r c f Φ.
Proof.
  intros Hx Hc. apply run_join_at. by apply closes.
Qed.

Ltac close := eapply run_closes; [once (typeclasses eauto) | ext | lia | intros ? ? ?]; cbv beta.
Ltac fsteps := repeat first [step | close].

Lemma end_feature_closes m k : k ≠ TOMBSTONE → Closes m (end_feature (N.of_nat m) k) 6 2.
Proof. intros Hk fr. spec end_feature. steps. Qed.
#[local] Hint Extern 0 (Closes _ (end_feature _ _) _ _) =>
  (apply end_feature_closes; discriminate) : typeclass_instances.

Instance access_feature_closes m : Closes m (access_feature (N.of_nat m)) 14 3.
Proof. intros fr. spec access_feature. fsteps. Qed.

#[export] Instance check_feature_legality_adds outer : Adds (check_feature_legality outer) 1 1.
Proof. spec check_feature_legality. step. step. destruct v; steps. Qed.

#[export] Instance feature_direction_adds : Adds feature_direction 4 3.
Proof. spec feature_direction. do 6 step. join 1; steps. Qed.
#[export] Instance feature_direction_eats :
  Eats feature_direction (λ r, k_at IN_KW r || k_at OUT_KW r) 4 20.
Proof.
  spec feature_direction. assert (r ≠ []) by (unfold k_at in *; nonempty).
  do 3 step. apply run_reads. intros b. cbv beta. do 2 step. join 1; steps.
Qed.

(** The functions below are called when the next token is the one they
    start with. *)
Lemma data_port_closes m fr fs r c :
  extensible fs → knth 0 r = DATA_KW → 4 ≤ c →
  run (FOpen m fr :: fs) r c (data_port (N.of_nat m)) (Moves fs r (c + 20)).
Proof. intros Hx Hk Hc. unfold data_port. fsteps. Qed.
Lemma event_port_closes m fr fs r c :
  extensible fs → knth 0 r = EVENT_KW → 4 ≤ c →
  run (FOpen m fr :: fs) r c (event_port (N.of_nat m)) (Moves fs r (c + 20)).
Proof. intros Hx Hk Hc. unfold event_port. fsteps. Qed.
Lemma feature_or_group_closes m fr fs r c :
  extensible fs → knth 0 r = FEATURE_KW → 4 ≤ c →
  run (FOpen m fr :: fs) r c (feature_or_group (N.of_nat m)) (Moves fs r (c + 20)).
Proof. intros Hx Hk Hc. unfold feature_or_group. fsteps. Qed.

Definition k_in_out (r : list SyntaxKind) : bool := k_at IN_KW r || k_at OUT_KW r.
Definition k_access (r : list SyntaxKind) : bool := k_at PROVIDES_KW r || k_at REQUIRES_KW r.

Ltac dispatch :=
  first [ eapply run_conseq; [first [apply data_port_closes | apply event_port_closes
                                    | apply feature_or_group_closes]; [ext | is_kind | lia]|];
          intros ? ? ? ? (-> & ? & ?); fin
        | fsteps ].

Lemma directed_feature_closes m fr fs r c :
  extensible fs → k_in_out r = true → 8 ≤ c →
  run (FOpen m fr :: fs) r c (directed_feature (N.of_nat m)) (Moves fs r (c + 10)).
Proof.
  intros Hx Hk Hc. unfold directed_feature. step.
  eapply run_eats; [exact _|exact I|done|lia|]. intros ? r1 Hr1. cbv beta.
  repeat (branch; [dispatch|]). dispatch.
Qed.

(** The type of a feature: a direction or an access keyword is consumed. *)
Lemma feature_type_moves m fr fs r c :
  extensible fs → k_in_out r || k_access r = true → 14 ≤ c →
  run (FOpen m fr :: fs) r c (feature_type (N.of_nat m)) (Moves fs r (c + 10)).
Proof.
  intros Hx Hk Hc. unfold feature_type. unfold k_in_out, k_access, k_at in Hk.
  branch; [by apply directed_feature_closes; [..|lia]|].
  do 2 (branch; [dispatch|]).
  branch; [step; step; close; fin|].
  use_bools. congruence.
Qed.

Instance feature_type_closes m : Closes m (feature_type (N.of_nat m)) 14 3.
Proof.
  intros fr. spec feature_type.
  branch; [eapply run_conseq; [apply directed_feature_closes; [ext|done|lia]|];
           intros ? ? ? ? (-> & ? & ?); fin|].
  do 5 (branch; [dispatch|]).
  apply run_bind. branch.
  - unfold at_contextual_kw. branch; [by destruct r|].
    unfold current_text. fsteps.
  - fsteps.
Qed.

Definition k_feature (r : list SyntaxKind) : bool :=
  k_at_name r || k_at IN_KW r || k_at OUT_KW r || k_at PROVIDES_KW r || k_at REQUIRES_KW r.

(** After the name, or without one before a direction or an access keyword. *)
Lemma feature_body_eats fs r c m :
  extensible fs → kind_eqb (knth 0 r) IDENT || k_in_out r || k_access r = true → 20 ≤ c →
  run (FOpen m true :: fs) r c
    (feature_name ;; expect COLON ;; opt_refined_to ;; feature_type (N.of_nat m)) (Moves fs r (c + 8)).
Proof.
  intros Hx Hk Hc. step. unfold feature_name. branch; [fsteps|]. branch; [fsteps|].
  unfold when. branch; [fsteps|]. step.
  assert (Hk' : k_in_out r || k_access r = true) by (unfold k_in_out, k_access, k_at in *; use_bools; done).
  assert (Hcase : knth 0 r = IN_KW ∨ knth 0 r = OUT_KW ∨ knth 0 r = PROVIDES_KW ∨ knth 0 r = REQUIRES_KW).
  { unfold k_in_out, k_access, k_at in Hk'. rewrite !orb_true_iff in Hk'.
    destruct_or!; apply kind_eqb_true in Hk'; tauto. }
  apply run_bind, run_expect_not; [done|destruct_or!; congruence|lia|]. cbv beta.
  apply run_bind. unfold opt_refined_to, when. branch; [destruct_or!; congruence|].
  step. eapply run_conseq; [apply feature_type_moves; [exact Hx|done|lia]|].
  intros ? ? ? ? (-> & ? & ?). fin.
Qed.

Lemma check_feature_legality_run outer fs r c Φ :
  extensible fs → 1 ≤ c → Φ tt fs r (c - 1) → run fs r c (check_feature_legality outer) Φ.
Proof.
  intros Hx Hc H. apply run_bind, run_reads. intros [k|]; cbv beta iota; [apply run_if|].
  - apply run_weaken with (c0 := c - 1); [lia|]. by apply run_ret.
  - by apply run_error.
  - apply run_weaken with (c0 := c - 1); [lia|]. by apply run_ret.
Qed.

#[export] Instance feature_eats container : Eats (feature container) k_feature 24 0.
Proof.
  spec feature. assert (r ≠ []) as Hne by (unfold k_feature, k_at in *; nonempty).
  apply run_bind.
  assert (run fs r (c - 1) (IF ! at_ IDENT && ! at_ IN_KW && ! at_ OUT_KW && ! at_ PROVIDES_KW && ! at_ REQUIRES_KW THEN
     err_and_bump "expected feature declaration"
   ELSE
     m ← start; feature_name ;; expect COLON ;; opt_refined_to ;; feature_type m) (Moves fs r (c + 0))) as Hrest.
  { branch; [fsteps|]. do 2 step. eapply run_conseq; [apply feature_body_eats; [exact Hx| |lia]|].
    - unfold k_in_out, k_access, k_at. destruct (kind_eqb (knth 0 r) IDENT), (kind_eqb (knth 0 r) IN_KW),
        (kind_eqb (knth 0 r) OUT_KW), (kind_eqb (knth 0 r) PROVIDES_KW), (kind_eqb (knth 0 r) REQUIRES_KW); done.
    - intros ? ? ? ? (-> & ? & ?). fin. }
  destruct container as [outer|]; [apply check_feature_legality_run; [done|lia|exact Hrest]|].
  apply run_weaken with (c0 := c - 1); [lia|]. refine (run_ret _ _ _ _ _ Hrest).
Qed.

#[export] Instance feature_section_eats container :
  Eats (feature_section container) (k_at FEATURES_KW) 4 20.
Proof. spec feature_section. unfold none_or, k_at in *. facts. steps. Qed.
End specs.
