(* ===== verification/GrammarComponentsSpec.v ===== *)
(** * The grammar is total: components, packages and the source file

    The specification of every function of [GrammarComponents], up to
    [source_file]. *)
From S2P Require Import Prelude.
From S2P Require Export GrammarSectionsSpec.
From S2P Require Export GrammarComponents.
#[local] Open Scope nat_scope.

Section specs.
Context {TS : TokenStream SyntaxKind}.

(** ** Sections of a component *)

#[export] Instance type_extension_eats : Eats type_extension (k_at EXTENDS_KW) 2 20.
Proof. spec type_extension. unfold k_at in *. facts. steps. Qed.
#[export] Instance impl_extension_eats : Eats impl_extension (k_at EXTENDS_KW) 2 20.
Proof. spec impl_extension. unfold k_at in *. facts. steps. Qed.
#[export] Instance prototype_eats : Eats prototype (k_at IDENT) 2 10.
Proof. spec prototype. unfold k_at in *. facts. steps. Qed.
#[export] Instance prototype_section_eats : Eats prototype_section (k_at PROTOTYPES_KW) 2 20.
Proof. spec prototype_section. unfold none_or, k_at in *. facts. steps. Qed.
#[export] Instance impl_reference_list_eats : Eats impl_reference_list (k_at L_PAREN) 2 20.
Proof. spec impl_reference_list. unfold k_at in *. facts. steps. Qed.
#[export] Instance subprogram_call_eats : Eats subprogram_call (k_at IDENT) 2 20.
Proof. spec subprogram_call. unfold k_at in *. facts. steps. Qed.
#[export] Instance call_sequence_eats : Eats call_sequence (k_at IDENT) 2 20.
Proof. spec call_sequence. unfold k_at in *. facts. steps. Qed.
#[export] Instance call_section_eats : Eats call_section (k_at CALLS_KW) 2 20.
Proof. spec call_section. unfold none_or, k_at in *. facts. steps. Qed.

#[export] Instance internal_or_processor_feature_eats :
  Eats internal_or_processor_feature (k_at IDENT) 2 20.
Proof.
  spec internal_or_processor_feature. unfold k_at in *. facts. do 6 step.
  steps.
Qed.
#[export] Instance internal_features_section_eats :
  Eats internal_features_section (k_at INTERNAL_KW) 2 20.
Proof. spec internal_features_section. unfold k_at in *. facts. steps. Qed.
#[export] Instance processor_features_section_eats :
  Eats processor_features_section (λ r, k_at PROCESSOR_KW r && kind_eqb (knth 1 r) FEATURES_KW) 2 20.
Proof. spec processor_features_section. unfold k_at in *. facts. steps. Qed.

(** The nesting check emits at most one error and reads on nothing. *)
Lemma check_subcomponent_run container fs r c Φ :
  extensible fs → 1 ≤ c → Φ tt fs r (c - 1) → run fs r c (check_subcomponent container) Φ.
Proof.
  intros Hx Hc H.
  assert (Hret : run fs r c (mret tt) Φ).
  { apply run_weaken with (c0 := c - 1); [lia|]. refine (run_ret _ _ _ _ _ H). }
  apply run_bind, run_reads. intros v. cbv beta.
  destruct container as [outer|], v as [inner|]; try exact Hret.
  apply run_if; [exact Hret|]. by apply run_error.
Qed.

#[export] Instance check_subcomponent_adds container : Adds (check_subcomponent container) 1 1.
Proof. intros fs r c Hx Hc. apply check_subcomponent_run; [done|done|]. fin. Qed.

Lemma category_kw_cases k :
  is_component_category_kw k = true → k ≠ IDENT ∧ k ≠ COLON ∧ k ≠ REFINED_KW.
Proof. intros H. split_and!; intros ->; discriminate H. Qed.

(** A subcomponent without a name still consumes its category. *)
#[export] Instance subcomponent_eats container :
  Eats (subcomponent container) (λ r, k_at IDENT r || is_component_category_kw (knth 0 r)) 20 0.
Proof.
  spec subcomponent. unfold k_at in *. do 3 step. unfold opt_ident, when. branch; [steps|].
  assert (Hk : is_component_category_kw (knth 0 r) = true) by (use_bools; done).
  destruct (category_kw_cases _ Hk) as (_ & Hcolon & Hrefined). do 2 step.
  apply run_expect_not; [done|done|lia|]. cbv beta. step.
  unfold opt_refined_to, when. branch; [congruence|]. do 2 step.
  apply check_subcomponent_run; [done|lia|]. cbv beta. step.
  eapply run_eats; [exact _|exact I|exact Hk|lia|]. intros ? ? ?. cbv beta. steps.
Qed.
#[export] Instance subcomponent_section_eats container :
  Eats (subcomponent_section container) (k_at SUBCOMPONENTS_KW) 4 20.
Proof. spec subcomponent_section. unfold none_or, k_at in *. facts. steps. Qed.

(** ** Component types and implementations *)

(** An arm of a section loop. *)
Lemma run_section seen kind label body h pk g `{!Eats body h pk g} fs r c :
  extensible fs → h r = true → pk < c → 1 ≤ g →
  run fs r c (section seen kind label body) (Loops fs r c).
Proof.
  intros Hx Hh Hc Hg. unfold section, seen_check.
  assert (Hbody : ∀ s : SeenSections, run fs r (c - 1) (body ;; mret (@inl _ unit s)) (Loops fs r c)).
  { intros s. step. eapply run_eats; [done|done|done|lia|]. intros ? ? ?. cbv beta. step. fin. }
  apply run_bind, run_if.
  - apply run_bind, run_error; [done|lia|]. refine (run_ret _ _ _ _ _ _). apply Hbody.
  - apply run_weaken with (c0 := c - 1); [lia|]. refine (run_ret _ _ _ _ _ _). apply Hbody.
Qed.

Ltac arm := eapply run_section; [once (typeclasses eauto) | ext | precond | lia | lia].

#[export] Instance component_type_sections_adds container :
  Adds (component_type_sections container) 8 0.
Proof.
  spec component_type_sections. step; [|steps].
  repeat (branch; [first [arm | steps]|]). steps.
Qed.
#[export] Instance component_impl_sections_adds container :
  Adds (component_impl_sections container) 8 0.
Proof.
  spec component_impl_sections. step; [|steps].
  repeat (branch; [first [arm | steps]|]). steps.
Qed.

#[export] Instance name_or_error_adds msg : Adds (name_or_error msg) 1 1.
Proof. spec name_or_error. steps. Qed.
#[export] Instance opt_name_adds : Adds opt_name 1 0.
Proof. spec opt_name. steps. Qed.
#[export] Instance component_type_eats :
  Eats component_type (λ r, is_component_category_kw (knth 0 r)) 12 0.
Proof. spec component_type. steps. Qed.

Lemma run_text_at n fs r c Φ : (∀ t, Φ t fs r c) → run fs r c (text_at n) Φ.
Proof. intros H. apply run_bind, run_text. intros t. by apply run_ret. Qed.

(** The lookahead over the qualified name stops before the end of the
    tokens, and consumes nothing. *)
Lemma qualified_segments_run fs r c (Φ : Post (K := SyntaxKind) (list string * usize)) :
  (∀ v, Φ v fs r c) → run fs r c qualified_segments Φ.
Proof.
  intros HΦ. apply run_bind, run_text_at. intros t. cbv beta.
  apply (run_iter_measure (λ _ fs' r', fs' = fs ∧ r' = r) (λ a r, S (length r) - snd a));
    [|done|simpl; lia].
  intros [segs n] fs1 r1 [-> ->]. branch.
  - assert (n < length r).
    { apply Nat.nle_gt. intros Hle. unfold knth in *. rewrite nth_overflow in * by done. done. }
    apply run_bind, run_text_at. intros t'. cbv beta. apply run_ret. simpl. split_and!; [done|done|done|lia].
  - apply run_ret. auto.
Qed.

#[export] Instance qualified_realization_error_adds container :
  Adds (qualified_realization_error container) 1 1.
Proof.
  spec qualified_realization_error. apply run_bind, qualified_segments_run. intros [segs n]. cbv beta iota.
  branch; [steps|]. apply run_bind, run_text_at. intros t. cbv beta. steps.
Qed.
#[export] Instance realization_adds : Adds realization 2 2.
Proof. spec realization. steps. Qed.
#[export] Instance component_impl_eats :
  Eats component_impl (λ r, is_component_category_kw (knth 0 r)) 12 0.
Proof. spec component_impl. steps. Qed.
#[export] Instance classifier_decl_eats :
  Eats classifier_decl (λ r, is_component_category_kw (knth 0 r)) 12 0.
Proof. spec classifier_decl. apply run_cond_any; steps. Qed.
#[export] Instance feature_group_type_decl_eats : Eats feature_group_type_decl (k_at FEATURE_KW) 2 0.
Proof. spec feature_group_type_decl. unfold k_at in *. facts. steps. Qed.

(** ** Packages *)

#[export] Instance with_clause_eats : Eats with_clause (k_at WITH_KW) 2 20.
Proof. spec with_clause. unfold k_at in *. facts. steps. Qed.
#[export] Instance renames_clause_eats :
  Eats renames_clause (λ r, k_at IDENT r && kind_eqb (knth 1 r) RENAMES_KW) 2 20.
Proof.
  spec renames_clause. unfold k_at in *. facts. steps.
Qed.
#[export] Instance renames_all_clause_eats : Eats renames_all_clause (k_at RENAMES_KW) 2 20.
Proof. spec renames_all_clause. unfold k_at in *. facts. steps. Qed.
#[export] Instance package_properties_eats : Eats package_properties (k_at PROPERTIES_KW) 2 20.
Proof. spec package_properties. unfold k_at in *. facts. steps. Qed.
#[export] Instance section_body_adds : Adds section_body 12 0.
Proof. spec section_body. steps. Qed.
#[export] Instance public_section_eats : Eats public_section (k_at PUBLIC_KW) 2 20.
Proof. spec public_section. unfold k_at in *. facts. steps. Qed.
#[export] Instance private_section_eats : Eats private_section (k_at PRIVATE_KW) 2 20.
Proof. spec private_section. unfold k_at in *. facts. steps. Qed.
#[export] Instance aadl_package_eats : Eats aadl_package (k_at PACKAGE_KW) 2 20.
Proof. spec aadl_package. unfold k_at in *. facts. steps. Qed.

(** ** The source file *)

(** The loop of [source_file] consumes everything. *)
Lemma model_units_run m r c :
  6 ≤ c → run [FOpen m true] r c model_units (λ _ fs' r' c', fs' = [FOpen m true] ∧ r' = [] ∧ c' = c).
Proof.
  intros Hc. apply (run_iter (λ _ fs' _, fs' = [FOpen m true])); [|done].
  intros [] fs1 r1 ->. apply run_conseq with (Φ := λ o fs' r' c', Loops [FOpen m true] r1 c o fs' r' c' ∧
    (o = inr tt → r' = [])).
  - branch.
    + assert (r1 ≠ []) as Hne by (by destruct r1).
      repeat (branch; [steps; (split; [fin|congruence])|]).
      destruct r1 as [|k r1]; [done|]. branch; [intros p Hp; by destruct (St_head _ _ _ _ _ Hp)|].
      steps. split; [fin|congruence].
    + apply run_ret. split; [fin|]. by destruct r1.
  - intros [[]|[]] fs' r' c' [(-> & Hc' & Hl) Hend]; (split; [done|]); [by split|].
    by rewrite (Hend eq_refl).
Qed.
End specs.

(** ** The whole parse *)

(** The property below and the tree builder rest on this. *)
Lemma source_file_runs : TotalGrammar source_file SOURCE_FILE.
Proof.
  apply (root_total model_units SOURCE_FILE); [done|]. intros TS m r.
  eapply run_conseq; [by apply model_units_run|]. intros ? ? ? ? (-> & -> & ->). split_and!; [done|done|lia].
Qed.

(** C3: The parser is total.  On any token stream of a source (no [EOF]
    token, every token a slice between characters) whose events 32 bits can
    address, [source_file] returns: no assertion, [unreachable!] or index of
    the parser or of the markers fails and no loop or recursion runs on.
    Every marker is closed: the events are one [SOURCE_FILE] node around
    balanced segments, forward parents included, and the token events are
    the non-trivia tokens of the input, each once, in order. *)
Theorem source_file_total tokens src :
  tokens_ok tokens src → (N.of_nat (parse_room tokens) ≤ U32_MAX)%N →
  ∃ p inner,
    source_file (parser_new tokens src) = Done (tt, p) ∧
    finish p = Start SOURCE_FILE None :: inner ++ [Finish] ∧
    Bal inner ∧ toks inner = kinds_of tokens ∧ length (finish p) ≤ parse_room tokens.
Proof. apply source_file_runs. Qed.

Lemma source_file_total_witness :
  let tokens := [(PACKAGE_KW, 1%nat)] in let src := list_ascii_of_string "p" in
  tokens_ok tokens src ∧ (N.of_nat (parse_room tokens) ≤ U32_MAX)%N ∧
  ∃ p inner,
    source_file (parser_new tokens src) = Done (tt, p) ∧
    finish p = Start SOURCE_FILE None :: inner ++ [Finish] ∧
    Bal inner ∧ toks inner = kinds_of tokens ∧ length (finish p) ≤ parse_room tokens.
Proof.
  intros tokens src. assert (Hok : tokens_ok tokens src).
  { constructor; [by repeat constructor|]. intros [|[|i]] start k len Hs Hl; [|done..].
    simpl in Hs, Hl. simplify_eq. by eexists. }
  assert (Hr : (N.of_nat (parse_room tokens) ≤ U32_MAX)%N) by (vm_compute; discriminate).
  split; [exact Hok|split; [exact Hr|]]. exact (source_file_total tokens src Hok Hr).
Defined.
