(* ===== verification/TreeBuilder.v ===== *)
(** * Building the syntax tree

    [crates/spar-syntax/src/parsing.rs]: the resolution of forward parents,
    and the loop that feeds the events and the tokens, trivia included, to
    rowan's [GreenNodeBuilder].  The annexes ([mod.rs] of
    [crates/spar-annex/src/emv2] and [ba]) and the SysML front end
    ([crates/spar-sysml2/src/tree_builder.rs]) have copies of this code over
    their own kinds.  Rowan is not
    part of the repository: its builder is the class [GreenNodeBuilder], and
    the one law the code relies on is [GreenNodeBuilderLaws]. *)
From S2P Require Import Prelude.
From S2P Require Export Parser.
From S2P Require Export Cursor.
From S2P Require Export ParserSpec.
#[local] Open Scope nat_scope.

(** ** Rowan's builder *)

(** The operations of [rowan::GreenNodeBuilder] that [build_tree] calls;
    [finish_node] and [finish] panic when nodes are not balanced. *)
Class GreenNodeBuilder (K : Type) := {
  builder : Type;
  green_node : Type;
  builder_new : builder;
  start_node : K → builder → builder;
  token : K → bytes → builder → builder;
  finish_node : builder → Exec builder;
  builder_finish : builder → Exec green_node;
}.

(** A lossless tree: tokens with their text, nodes with their children. *)
Inductive Tree (K : Type) :=
  | Leaf (kind : K) (text : bytes)
  | Node (kind : K) (children : list (Tree K)).
Arguments Leaf {K} kind text.
Arguments Node {K} kind children.

(** The calls that build a tree: its preorder traversal. *)
Fixpoint build {K} `{GreenNodeBuilder K} (t : Tree K) (b : builder) : Exec builder :=
  match t with
  | Leaf k s => Done (token k s b)
  | Node k ts =>
      b ← (fix go ts b := match ts with
                          | [] => Done b
                          | t :: ts => b ← build t b; go ts b
                          end) ts (start_node k b);
      finish_node b
  end.

(** The documented behaviour of the builder: the calls of the traversal of a
    tree give a green node that is that tree ([tree_of] reads it back). *)
Class GreenNodeBuilderLaws {K} `(GreenNodeBuilder K) := {
  tree_of : green_node → Tree K;
  build_spec k ts : ∃ b g,
    build (Node k ts) builder_new = Done b ∧ builder_finish b = Done g ∧
    tree_of g = Node k ts;
}.

(** The text of a tree, [SyntaxNode::text]. *)
Fixpoint tree_text {K} (t : Tree K) : bytes :=
  match t with
  | Leaf _ s => s
  | Node _ ts => (fix go ts := match ts with [] => [] | t :: ts => tree_text t ++ go ts end) ts
  end.

(** ** Results *)

(** crates/spar-syntax/src/parsing.rs:15-18 [SyntaxError] *)
Record SyntaxError := { msg : string; offset : usize }.

(** crates/spar-syntax/src/parsing.rs:8-11 [Parse] *)
Record Parse (G : Type) := { green : G; errors : list SyntaxError }.
Arguments green {G} _.
Arguments errors {G} _.

(** crates/spar-syntax/src/parsing.rs:32-34 [Parse::ok] *)
Definition ok {G} (p : Parse G) : bool := match errors p with [] => true | _ => false end.

(** ** Forward parents *)
Section resolve.
Context {K : Type} {HD : Discriminant K} {V : Vocabulary K}.
#[local] Abbreviation Event := (Event K).

(** crates/spar-syntax/src/parsing.rs:56-61 [ResolvedEvent] *)
Inductive ResolvedEvent :=
  | StartNode (kind : K)
  | RToken (kind : K) (n_raw_tokens : nat)
  | FinishNode
  | RError (msg : string).

(** crates/spar-syntax/src/parsing.rs:82-98 [resolve_events]: the walk along
    the chain of forward parents, on fuel; [forward_parents] is the vector
    being filled. *)
Fixpoint walk_chain (fuel : nat) (es : list Event) (idx : usize) (fp : option u32)
    (forward_parents : list K) : Exec (list Event * list K) :=
  match fp with
  | None => Done (es, forward_parents)
  | Some fwd =>
      match fuel with
      | O => Stuck
      | S n =>
          let idx := idx + N.to_nat fwd in
          match es !! idx with
          | Some (Start kind fp) =>
              walk_chain n (<[idx := Tombstone]> es) idx fp (forward_parents ++ [kind])
          | _ => Panic
          end
      end
  end.

(** crates/spar-syntax/src/parsing.rs:74-124 [resolve_events]: one iteration.
    A chain visits each event at most once, since what it visits becomes a
    tombstone, so the length of the list is fuel enough. *)
Definition resolve_step (st : list Event * list ResolvedEvent) (i : usize)
    : Exec (list Event * list ResolvedEvent) :=
  let '(es, resolved) := st in
  match es !! i with
  | None => Panic
  | Some e =>
      let es := <[i := Tombstone]> es in
      match e with
      | Start kind forward_parent =>
          '(es, forward_parents) ← walk_chain (length es) es i forward_parent [kind];
          Done (es, resolved ++
            (StartNode <$> filter (λ k, k ≠ tombstone) (reverse forward_parents)))
      | Finish => Done (es, resolved ++ [FinishNode])
      | Token kind n => Done (es, resolved ++ [RToken kind n])
      | Error m => Done (es, resolved ++ [RError m])
      | Tombstone => Done (es, resolved)
      end
  end.

(** crates/spar-syntax/src/parsing.rs:70-128 [resolve_events] *)
Definition resolve_events (es : list Event) : Exec (list ResolvedEvent) :=
  '(_, resolved) ← foldM resolve_step (es, []) (seq 0 (length es));
  Done resolved.

End resolve.
Arguments ResolvedEvent K : clear implicits.

(** ** The tree *)
Section build_tree.
Context {K : Type} {G : GreenNodeBuilder K}.
Context (input : bytes) (tokens : list (K * usize))
  (token_starts : list usize) (non_trivia_indices : list usize).

(** The local variables of [build_tree]. *)
Record TreeState := {
  tb_builder : builder;
  tb_errors : list SyntaxError;
  nt_pos : usize;
  raw_pos : usize;
  depth : usize;
}.

(** crates/spar-syntax/src/parsing.rs:208-211 [build_tree]: one raw token,
    with its own kind. *)
Definition emit_raw (st : TreeState) : Exec TreeState :=
  match tokens !! raw_pos st, token_starts !! raw_pos st with
  | Some (tk, len), Some start =>
      text ← slice input start (start + len);
      Done {| tb_builder := token tk text (tb_builder st); tb_errors := tb_errors st;
              nt_pos := nt_pos st; raw_pos := raw_pos st + 1; depth := depth st |}
  | _, _ => Panic
  end.

(** crates/spar-syntax/src/parsing.rs:207-212 [build_tree]: the loop
    [while raw_pos < target], which advances by one each time. *)
Fixpoint emit_until (fuel : nat) (target : usize) (st : TreeState) : Exec TreeState :=
  if raw_pos st <? target then
    match fuel with
    | O => Stuck
    | S n => st ← emit_raw st; emit_until n target st
    end
  else Done st.

(** crates/spar-syntax/src/parsing.rs:264-287 [eat_trivia] *)
Definition eat_trivia (st : TreeState) : Exec TreeState :=
  match non_trivia_indices !! nt_pos st with
  | Some target_raw => emit_until target_raw target_raw st
  | None => Done st
  end.

(** crates/spar-syntax/src/parsing.rs:203-221 [build_tree]: one step of a
    token event. *)
Definition emit_token (kind : K) (st : TreeState) : Exec TreeState :=
  match non_trivia_indices !! nt_pos st with
  | Some target_raw =>
      st ← emit_until target_raw target_raw st;
      match tokens !! target_raw, token_starts !! target_raw with
      | Some (_, len), Some start =>
          text ← slice input start (start + len);
          Done {| tb_builder := token kind text (tb_builder st); tb_errors := tb_errors st;
                  nt_pos := nt_pos st + 1; raw_pos := target_raw + 1; depth := depth st |}
      | _, _ => Panic
      end
  | None => Done st
  end.

Fixpoint repeat_exec (n : nat) (f : TreeState → Exec TreeState) (st : TreeState) : Exec TreeState :=
  match n with O => Done st | S n => st ← f st; repeat_exec n f st end.

Definition set_builder (b : builder) (d : usize) (st : TreeState) : TreeState :=
  {| tb_builder := b; tb_errors := tb_errors st; nt_pos := nt_pos st; raw_pos := raw_pos st;
     depth := d |}.

(** crates/spar-syntax/src/parsing.rs:240-247 [build_tree]: the offset of an
    error. *)
Definition error_offset (st : TreeState) : Exec usize :=
  match non_trivia_indices !! nt_pos st with
  | Some i => match token_starts !! i with Some s => Done s | None => Panic end
  | None =>
      if Nat.eqb (length tokens) 0 then Done 0
      else match token_starts !! (length tokens - 1), tokens !! (length tokens - 1) with
           | Some s, Some (_, len) => Done (s + len)
           | _, _ => Panic
           end
  end.

(** crates/spar-syntax/src/parsing.rs:167-254 [build_tree]: the body of the
    loop; [depth -= 1] panics on zero. *)
Definition build_step (st : TreeState) (event : ResolvedEvent K) : Exec TreeState :=
  match event with
  | StartNode kind =>
      st ← (if 0 <? depth st then eat_trivia st else Done st);
      let st := set_builder (start_node kind (tb_builder st)) (depth st + 1) st in
      if Nat.eqb (depth st) 1 then eat_trivia st else Done st
  | RToken kind n_raw_tokens => repeat_exec n_raw_tokens (emit_token kind) st
  | FinishNode =>
      if Nat.eqb (depth st) 0 then Panic
      else
        let st := set_builder (tb_builder st) (depth st - 1) st in
        st ← (if Nat.eqb (depth st) 0 then emit_until (length tokens) (length tokens) st
              else Done st);
        b ← finish_node (tb_builder st);
        Done (set_builder b (depth st) st)
  | RError msg =>
      offset ← error_offset st;
      Done {| tb_builder := tb_builder st; tb_errors := tb_errors st ++ [{| msg := msg; offset := offset |}];
              nt_pos := nt_pos st; raw_pos := raw_pos st; depth := depth st |}
  end.
End build_tree.

(** crates/spar-syntax/src/parsing.rs:135-260 [build_tree] *)
Definition build_tree {K} `{Vocabulary K, GreenNodeBuilder K} (input : bytes) (tokens : list (K * usize))
    (events : list (Event K)) : Exec (Parse green_node) :=
  let token_starts := starts_from 0 tokens in
  let non_trivia_indices := non_trivia_from 0 tokens in
  resolved ← resolve_events events;
  st ← foldM (build_step input tokens token_starts non_trivia_indices)
         {| tb_builder := builder_new; tb_errors := []; nt_pos := 0; raw_pos := 0; depth := 0 |}
         resolved;
  g ← builder_finish (tb_builder st);
  Done {| green := g; errors := tb_errors st |}.

(** ** The tree is lossless

    The tokens of a scanner meet the parser's requirements, and the events
    of a total grammar resolve to a nest of nodes. *)
(** ** The tokenizer's promise to the parser *)

(** Reassociate to the right. *)
Ltac norm_app := repeat (simpl; rewrite <- ?app_assoc).
Ltac len_lia := repeat (simpl; rewrite ?length_app); lia.

Section tree.
Context {K : Type} {HD : Discriminant K} {V : Vocabulary K}.
#[local] Abbreviation Event := (Event K).
#[local] Abbreviation ResolvedEvent := (ResolvedEvent K).

(** The tokens as the parser sees them. *)
Definition lengths (texts : list (K * bytes)) : list (K * usize) :=
  map (λ t, (fst t, length (snd t))) texts.

Lemma starts_from_lookup o texts i :
  starts_from o (lengths texts) !! i =
  (λ _, o + length (List.concat (map snd (take i texts)))) <$> texts !! i.
Proof.
  revert o i. induction texts as [|[k t] texts IH]; intros o [|i]; simpl; try done.
  - by rewrite Nat.add_0_r.
  - rewrite IH. destruct (texts !! i); simpl; [|done]. rewrite length_app. f_equal. lia.
Qed.

Lemma lengths_lookup texts i :
  lengths texts !! i = (λ t, (fst t, length (snd t))) <$> texts !! i.
Proof. apply list_lookup_fmap. Qed.

(** Every token is the slice of the source at its offset. *)
Lemma slice_token (texts : list (K * bytes)) i k t :
  Forall (λ t, snd t ≠ [] ∧ utf8 (snd t)) texts → texts !! i = Some (k, t) →
  let start := length (List.concat (map snd (take i texts))) in
  slice (List.concat (map snd texts)) start (start + length t) = Done t.
Proof.
  intros Hf Hi start. pose proof (take_drop_middle _ _ _ Hi) as Hm.
  set (x := List.concat (map snd (take i texts))) in *.
  set (y := List.concat (map snd (drop (S i) texts))).
  assert (Hc : List.concat (map snd texts) = x ++ t ++ y).
  { rewrite <- Hm at 1. by rewrite map_app, concat_app. }
  assert (Hy : utf8 y) by (apply utf8_concat; by apply Forall_drop).
  assert (Ht : utf8 t) by (rewrite Forall_lookup in Hf; by destruct (Hf _ _ Hi)).
  assert (Hd : drop (length x) (x ++ t ++ y) = t ++ y) by (by rewrite drop_app_length).
  rewrite Hc. subst start. rewrite slice_utf8; [|lia|rewrite !length_app; lia|rewrite Hd; by apply utf8_app|].
  - rewrite Hd. f_equal. replace (length x + length t - length x) with (length t) by lia.
    by rewrite take_app_length.
  - rewrite <- drop_drop, Hd, drop_app_length. done.
Qed.

Lemma tokens_ok_lex (texts : list (K * bytes)) :
  Forall (λ t, snd t ≠ [] ∧ utf8 (snd t)) texts → Forall (λ t, fst t ≠ eof) texts →
  tokens_ok (lengths texts) (List.concat (map snd texts)).
Proof.
  intros Hf He. constructor.
  - unfold kinds_of, lengths. rewrite map_map. apply Forall_forall. intros k [_ Hk]%list_elem_of_filter.
    apply list_elem_of_fmap in Hk as (t & -> & Ht). rewrite Forall_forall in He. by apply He.
  - intros i start k len Hs Hl. rewrite starts_from_lookup in Hs. rewrite lengths_lookup in Hl.
    destruct (texts !! i) as [[k' t]|] eqn:E; simplify_eq/=. exists t. by eapply slice_token.
Qed.

(** ** Forward parents *)

(** What an event list resolves to. *)
Inductive Item :=
  | IToken (kind : K)
  | IError (msg : string)
  | INode (kind : K) (items : list Item).

Fixpoint linear (i : Item) : list ResolvedEvent :=
  match i with
  | IToken k => [RToken k 1]
  | IError m => [RError m]
  | INode k is' => StartNode k :: (fix go l := match l with [] => [] | i :: l => linear i ++ go l end) is' ++ [FinishNode]
  end.
Definition linears (l : list Item) : list ResolvedEvent := List.concat (map linear l).

Lemma linear_node k l : linear (INode k l) = StartNode k :: linears l ++ [FinishNode].
Proof.
  simpl. do 2 f_equal. induction l as [|i l IH]; [done|]. unfold linears in *. simpl. by rewrite IH.
Qed.
Lemma linears_app l1 l2 : linears (l1 ++ l2) = linears l1 ++ linears l2.
Proof. unfold linears. by rewrite map_app, concat_app. Qed.

(** The token kinds of an item. *)
Fixpoint itoks (i : Item) : list K :=
  match i with
  | IToken k => [k]
  | IError _ => []
  | INode _ l => (fix go l := match l with [] => [] | i :: l => itoks i ++ go l end) l
  end.
Definition itoks_list (l : list Item) : list K := List.concat (map itoks l).
Lemma itoks_node k l : itoks (INode k l) = itoks_list l.
Proof.
  simpl. induction l as [|i l IH]; [done|]. unfold itoks_list in *. simpl. by rewrite IH.
Qed.
Lemma itoks_list_app l1 l2 : itoks_list (l1 ++ l2) = itoks_list l1 ++ itoks_list l2.
Proof. unfold itoks_list. by rewrite map_app, concat_app. Qed.

(** Resolving a segment in place turns it into [seg'] and emits [rs]. *)
Record Resolves (seg seg' : list Event) (rs : list ResolvedEvent) : Prop := {
  resolves_length : length seg' = length seg;
  resolves before after out :
    foldM resolve_step (before ++ seg ++ after, out) (seq (length before) (length seg)) =
    Done (before ++ seg' ++ after, out ++ rs);
}.

Lemma Resolves_nil : Resolves [] [] [].
Proof. constructor; [done|]. intros. simpl. by rewrite app_nil_r. Qed.

Lemma Resolves_app s1 s1' r1 s2 s2' r2 :
  Resolves s1 s1' r1 → Resolves s2 s2' r2 → Resolves (s1 ++ s2) (s1' ++ s2') (r1 ++ r2).
Proof.
  intros [L1 H1] [L2 H2]. constructor; [by rewrite !length_app, L1, L2|]. intros before after out.
  rewrite length_app, seq_app, foldM_app, <- (app_assoc s1), H1. simpl.
  replace (before ++ s1' ++ s2 ++ after) with ((before ++ s1') ++ s2 ++ after) by (by rewrite <- !app_assoc).
  replace (length before + length s1) with (length (before ++ s1')) by (by rewrite length_app, L1).
  rewrite H2. by rewrite <- !app_assoc.
Qed.

Lemma Resolves_leaf e rs :
  match e with
  | Token k n => rs = [RToken k n] | Error m => rs = [RError m]
  | Finish => rs = [FinishNode] | Tombstone => rs = [] | Start _ _ => False
  end → Resolves [e] [Tombstone] rs.
Proof.
  intros He. constructor; [done|]. intros before after out. simpl.
  rewrite list_lookup_middle by done. rewrite insert_app_r_alt, Nat.sub_diag by lia. simpl.
  destruct e; try done; subst; simpl; by rewrite ?app_nil_r.
Qed.

Lemma Resolves_cons e rs s s' r :
  match e with
  | Token k n => rs = [RToken k n] | Error m => rs = [RError m]
  | Finish => rs = [FinishNode] | Tombstone => rs = [] | Start _ _ => False
  end → Resolves s s' r → Resolves (e :: s) (Tombstone :: s') (rs ++ r).
Proof. intros He H. apply (Resolves_app [e] [Tombstone]); [by apply Resolves_leaf|done]. Qed.

(** What a balanced segment resolves to. *)
Definition Nests (es : list Event) : Prop :=
  ∃ items es', Resolves es es' (linears items) ∧ itoks_list items = toks es.

(** A chain of completed children [pre] of a node that follows: [ks] are the
    kinds of the chain, [dead] is what walking it leaves, [body] is what that
    resolves to, and [wrap l] is the nest of the chain with [l] innermost. *)
Record Chain (pre : list Event) (ks : list K) (dead : list Event)
    (body : list ResolvedEvent) (wrap : list Item → list Item) : Prop := {
  chain_resolves : ∃ dead', Resolves dead dead' body;
  chain_length : length dead = length pre;
  chain_kinds : length ks ≤ length pre ∧ Forall (λ k, k ≠ tombstone) ks;
  chain_head : ∃ d, dead ++ [Tombstone] = Tombstone :: d;
  chain_linears l : linears (wrap l) = (StartNode <$> reverse ks) ++ linears l ++ body;
  chain_toks l : itoks_list (wrap l) = itoks_list l ++ toks pre;
  chain_walk n b after idx fwd fps k :
    idx + N.to_nat fwd = length b → length ks < n →
    walk_chain n (b ++ pre ++ Start k None :: after) idx (Some fwd) fps =
    Done (b ++ dead ++ Tombstone :: after, fps ++ ks ++ [k]);
  chain_step before after out k :
    k ≠ tombstone →
    resolve_step (before ++ (pre ++ [Start k None]) ++ after, out) (length before) =
    Done (before ++ (dead ++ [Tombstone]) ++ after, out ++ (StartNode <$> (k :: reverse ks)));
}.

Lemma lookup_insert_here (b : list Event) e e' after idx :
  idx = length b →
  (b ++ e :: after) !! idx = Some e ∧ <[idx := e']> (b ++ e :: after) = b ++ e' :: after.
Proof.
  intros ->. split; [by apply list_lookup_middle|].
  by rewrite insert_app_r_alt, Nat.sub_diag by lia.
Qed.

Lemma filter_kinds ks : Forall (λ k, k ≠ tombstone) ks → filter (λ k, k ≠ tombstone) ks = ks.
Proof. induction 1 as [|k ks Hk _ IH]; [done|]. rewrite filter_cons_True by done. by f_equal. Qed.

Lemma Chain_nil : Chain [] [] [] [] id.
Proof.
  constructor; try done.
  - exists []. apply Resolves_nil.
  - by exists [].
  - intros l. by rewrite app_nil_r.
  - intros l. by rewrite app_nil_r.
  - intros n b after idx fwd fps k Hi Hn. destruct n; [simpl in Hn; lia|]. simpl.
    destruct (lookup_insert_here b (Start k None) Tombstone after _ Hi) as [-> ->].
    by destruct n.
  - intros before after out k Hk. unfold resolve_step.
    destruct (lookup_insert_here before (Start k None) Tombstone after _ eq_refl) as [E1 E2].
    simpl app. rewrite E1. cbv zeta. rewrite E2.
    assert (Hw : ∀ n es i, walk_chain n es i None [k] = Done (es, [k])) by (by intros []).
    rewrite Hw. unfold mbind, Exec_bind. cbv beta iota. by rewrite (filter_kinds (reverse [k])) by (by repeat constructor).
Qed.

Lemma Chain_cons k inner items inner' pre ks dead body wrap :
  k ≠ tombstone →
  Resolves inner inner' (linears items) → itoks_list items = toks inner →
  Chain pre ks dead body wrap →
  Chain (Start k (Some (N.of_nat (length inner + 2))) :: inner ++ Finish :: pre) (k :: ks)
    (Tombstone :: inner ++ Finish :: dead) (linears items ++ FinishNode :: body)
    (λ l, wrap [INode k (l ++ items)]).
Proof.
  intros Hk Hi Ht C.
  assert (Hwalk : ∀ n b after idx fwd fps k',
    idx + N.to_nat fwd = length b → length (k :: ks) < n →
    walk_chain n (b ++ (Start k (Some (N.of_nat (length inner + 2))) :: inner ++ Finish :: pre)
                    ++ Start k' None :: after) idx (Some fwd) fps =
    Done (b ++ (Tombstone :: inner ++ Finish :: dead) ++ Tombstone :: after, fps ++ (k :: ks) ++ [k'])).
  { intros n b after idx fwd fps k' Hx Hn. destruct n as [|n]; [simpl in Hn; lia|].
    cbn [walk_chain app]. rewrite Hx.
    destruct (lookup_insert_here b (Start k (Some (N.of_nat (length inner + 2)))) Tombstone
      ((inner ++ Finish :: pre) ++ Start k' None :: after) _ eq_refl) as [-> ->].
    replace (b ++ Tombstone :: (inner ++ Finish :: pre) ++ Start k' None :: after)
      with ((b ++ Tombstone :: inner ++ [Finish]) ++ pre ++ Start k' None :: after)
      by (by norm_app).
    rewrite (chain_walk _ _ _ _ _ C).
    - by norm_app.
    - len_lia.
    - simpl in Hn. lia. }
  destruct C as [[d' Hd] Hl [Hks Hks'] [d Hh] Hlin Htok Hw Hs]. constructor; try done.
  - eexists. apply (Resolves_cons Tombstone []); [done|]. apply Resolves_app; [done|].
    apply (Resolves_cons Finish [FinishNode]); done.
  - simpl. rewrite !length_app. simpl. by rewrite Hl.
  - split; [|by constructor]. simpl. rewrite length_app. simpl. lia.
  - by eexists.
  - intros l. rewrite Hlin, reverse_cons, fmap_app, <- !app_assoc. f_equal.
    unfold linears at 1. cbn [map List.concat]. rewrite app_nil_r, linear_node, linears_app.
    simpl. by rewrite <- !app_assoc.
  - intros l. rewrite Htok. unfold itoks_list at 1. cbn [map List.concat]. rewrite itoks_node, itoks_list_app, Ht.
    simpl. rewrite toks_app. simpl. by rewrite app_nil_r, <- !app_assoc.
  - intros before after out k' Hk'. unfold resolve_step. simpl app.
    destruct (lookup_insert_here before (Start k (Some (N.of_nat (length inner + 2)))) Tombstone
      (((inner ++ Finish :: pre) ++ [Start k' None]) ++ after) _ eq_refl) as [-> E2].
    cbv zeta. rewrite E2. set (tot := length _).
    replace (before ++ Tombstone :: ((inner ++ Finish :: pre) ++ [Start k' None]) ++ after)
      with ((before ++ Tombstone :: inner ++ [Finish]) ++ pre ++ Start k' None :: after)
      by (by norm_app).
    rewrite Hw.
    + unfold mbind, Exec_bind. cbv beta iota. rewrite filter_kinds.
      * norm_app. do 3 f_equal. by rewrite !reverse_cons, reverse_app, !fmap_app.
      * apply Forall_reverse. simpl. constructor; [done|]. apply Forall_app; split; [done|by repeat constructor].
    + len_lia.
    + subst tot. len_lia.
Qed.

Lemma resolve_step_tombstone before after out :
  resolve_step (before ++ Tombstone :: after, out) (length before) =
  Done (before ++ Tombstone :: after, out).
Proof.
  unfold resolve_step.
  by destruct (lookup_insert_here before Tombstone Tombstone after _ eq_refl) as [-> ->].
Qed.

(** A first step that leaves a tombstone where the segment starts. *)
Lemma Resolves_head e s d s' r0 r :
  length d = length s →
  (∀ before after out,
    resolve_step (before ++ (e :: s) ++ after, out) (length before) =
    Done (before ++ (Tombstone :: d) ++ after, out ++ r0)) →
  Resolves (Tombstone :: d) s' r → Resolves (e :: s) s' (r0 ++ r).
Proof.
  intros Hl Hs [L H]. constructor; [by rewrite L; simpl; rewrite Hl|]. intros before after out.
  specialize (H before after (out ++ r0)). revert H. cbn [length seq foldM]. rewrite Hl, Hs.
  cbn [app]. unfold mbind, Exec_bind. rewrite resolve_step_tombstone, <- app_assoc. done.
Qed.

Lemma Chain_start pre ks dead body wrap k :
  Chain pre ks dead body wrap → k ≠ tombstone →
  ∃ s', Resolves (pre ++ [Start k None]) s' (StartNode k :: linears (wrap [])).
Proof.
  intros C Hk. destruct C as [[d' Hd] Hl _ [d Hh] Hlin _ _ Hs]. exists (d' ++ [Tombstone]).
  assert (Hr : Resolves (Tombstone :: d) (d' ++ [Tombstone]) body).
  { rewrite <- Hh, <- (app_nil_r body). apply Resolves_app; [done|]. by apply Resolves_leaf. }
  rewrite Hlin. change (StartNode k :: (StartNode <$> reverse ks) ++ linears [] ++ body)
    with ((StartNode <$> k :: reverse ks) ++ body).
  destruct (pre ++ [Start k None]) as [|e s] eqn:E; [by destruct pre|].
  apply (Resolves_head e s d); [|intros|done].
  - apply (f_equal length) in Hh, E. revert Hh E. len_lia.
  - rewrite <- E, <- Hh. by apply Hs.
Qed.

Lemma seg_nests :
  (∀ es, Bal es → Nests es) ∧ (∀ pre, Pend pre → ∃ ks dead body wrap, Chain pre ks dead body wrap).
Proof.
  apply Bal_Pend_ind.
  - exists [], []. by split; [apply Resolves_nil|].
  - intros k es _ (items & es' & Hr & Ht). exists (IToken k :: items), (Tombstone :: es').
    split; [by apply (Resolves_cons _ [RToken k 1])|]. unfold itoks_list in *. simpl. by rewrite Ht.
  - intros m es _ (items & es' & Hr & Ht). exists (IError m :: items), (Tombstone :: es').
    split; [by apply (Resolves_cons _ [RError m])|]. done.
  - intros es _ (items & es' & Hr & Ht). exists items, (Tombstone :: es').
    split; [by apply (Resolves_cons _ [])|]. done.
  - intros pre k inner es _ (ks & dead & body & wrap & C) Hk _ (ii & inner' & Hri & Hti) _ (ie & es' & Hre & Hte).
    destruct (Chain_start _ _ _ _ _ k C Hk) as [s' Hs].
    exists (INode k (wrap [] ++ ii) :: ie). eexists. split.
    + replace (pre ++ Start k None :: inner ++ Finish :: es)
        with ((pre ++ [Start k None]) ++ inner ++ Finish :: es) by (by norm_app).
      replace (linears (INode k (wrap [] ++ ii) :: ie))
        with ((StartNode k :: linears (wrap [])) ++ linears ii ++ [FinishNode] ++ linears ie);
        [apply Resolves_app; [apply Hs|apply Resolves_app; [done|by apply Resolves_cons]]|].
      unfold linears at 4. cbn [map List.concat]. rewrite linear_node, linears_app. by norm_app.
    + unfold itoks_list at 1. cbn [map List.concat]. fold (itoks_list ie).
      rewrite itoks_node, itoks_list_app, (chain_toks _ _ _ _ _ C), Hti, Hte.
      rewrite !toks_app. simpl. by rewrite !toks_app, <- app_assoc.
  - exists [], [], [], id. apply Chain_nil.
  - intros k inner es Hk _ (ii & inner' & Hri & Hti) _ (ks & dead & body & wrap & C).
    do 4 eexists. by eapply Chain_cons.
Qed.

(** The events of a whole parse resolve to one nest of nodes. *)
Lemma resolve_root root inner :
  root ≠ tombstone → Bal inner →
  ∃ items, resolve_events (Start root None :: inner ++ [Finish]) =
             Done (linear (INode root items)) ∧ itoks_list items = toks inner.
Proof.
  intros Hroot Hi. destruct (proj1 seg_nests inner Hi) as (items & inner' & Hr & Ht).
  destruct (Chain_start _ _ _ _ _ root Chain_nil) as [s' Hs]; [done|].
  exists items. split; [|done]. unfold resolve_events.
  pose proof (Resolves_app _ _ _ _ _ _ Hs
    (Resolves_app _ _ _ _ _ _ Hr (Resolves_leaf Finish [FinishNode] eq_refl))) as [_ H].
  specialize (H [] [] []). rewrite app_nil_r in H.
  rewrite linear_node.
  etrans; [exact (f_equal (λ m, m ≫= λ '(_, resolved), Done resolved) H)|done].
Qed.
End tree.
Arguments Item K : clear implicits.
