(* ===== verification/TreeLossless.v ===== *)
(** * The green tree has the tokens of the source as leaves

    The second half of [build_tree]: running the resolved events is the
    traversal of a tree whose leaves are the raw tokens, trivia included.
    [builds_tree] puts the scanner and the builder together for any
    vocabulary, and [total_parse_lossless] a lexer that covers the source, a
    grammar that is total and the tree builder, composed as the [parse]
    functions of AADL and SysML v2 compose them. *)
From S2P Require Import Prelude.
From S2P Require Export TreeBuilder.
From S2P Require Export GrammarTactics.
#[local] Open Scope nat_scope.

(** ** Leaves *)
Section leaves.
Context {K : Type}.
#[local] Abbreviation Tree := (Tree K).

Definition leaf_of (t : K * bytes) : Tree := Leaf (fst t) (snd t).

Fixpoint leaves (t : Tree) : list (K * bytes) :=
  match t with
  | Leaf k s => [(k, s)]
  | Node _ ts => (fix go ts := match ts with [] => [] | t :: ts => leaves t ++ go ts end) ts
  end.
Definition leaves_list (ts : list Tree) : list (K * bytes) :=
  List.concat (map leaves ts).

Lemma leaves_node k ts : leaves (Node k ts) = leaves_list ts.
Proof.
  simpl. induction ts as [|t ts IH]; [done|]. unfold leaves_list in *. simpl. by rewrite IH.
Qed.
Lemma leaves_list_app a b : leaves_list (a ++ b) = leaves_list a ++ leaves_list b.
Proof. unfold leaves_list. by rewrite map_app, concat_app. Qed.
Lemma leaves_list_leaf c : leaves_list (map leaf_of c) = c.
Proof.
  induction c as [|[k t] c IH]; [done|]. unfold leaves_list in *. simpl. by rewrite IH.
Qed.

(** Induction on trees with the hypothesis on every child. *)
Fixpoint Tree_nested_ind (P : Tree → Prop) (HL : ∀ k s, P (Leaf k s))
    (HN : ∀ k ts, Forall P ts → P (Node k ts)) (t : Tree) : P t :=
  match t with
  | Leaf k s => HL k s
  | Node k ts => HN k ts ((fix go ts : Forall P ts :=
      match ts with
      | [] => Forall_nil_2 _
      | t :: ts => Forall_cons_2 _ _ _ (Tree_nested_ind P HL HN t) (go ts)
      end) ts)
  end.

(** The text of a tree is the text of its leaves. *)
Lemma tree_text_leaves t : tree_text t = List.concat (map snd (leaves t)).
Proof.
  induction t as [k s|k ts IH] using Tree_nested_ind; [simpl; by rewrite app_nil_r|].
  rewrite leaves_node. simpl. induction IH as [|t ts Ht _ IH]; [done|].
  unfold leaves_list in *. simpl. by rewrite map_app, concat_app, Ht, IH.
Qed.

End leaves.

(** ** Positions between the raw tokens *)
Section build.
Context {K : Type} {HD : Discriminant K} {V : Vocabulary K} {G : GreenNodeBuilder K}.
#[local] Abbreviation Tree := (Tree K).
#[local] Abbreviation Item := (Item K).


Fixpoint build_list (ts : list Tree) (b : builder) : Exec builder :=
  match ts with [] => Done b | t :: ts => b ← build t b; build_list ts b end.

Lemma build_node k ts b :
  build (Node k ts) b = (b ← build_list ts (start_node k b); finish_node b).
Proof.
  simpl. generalize (start_node k b). induction ts as [|t ts IH]; intros b'; [done|]. simpl.
  destruct (build t b') as [b''| |]; [apply IH|done|done].
Qed.

Lemma build_list_app ts1 ts2 b :
  build_list (ts1 ++ ts2) b = (b ← build_list ts1 b; build_list ts2 b).
Proof.
  revert b. induction ts1 as [|t ts1 IH]; intros b; [done|]. simpl.
  destruct (build t b) as [b'| |]; [apply IH|done|done].
Qed.

Context (texts : list (K * bytes)).
Hypothesis texts_ok : Forall (λ t, snd t ≠ [] ∧ utf8 (snd t)) texts.

#[local] Abbreviation src := (List.concat (map snd texts)).
#[local] Abbreviation toks := (lengths texts).
#[local] Abbreviation starts := (starts_from 0 toks).
#[local] Abbreviation indices := (non_trivia_from 0 toks).

(** The state of the loop when the raw tokens [dn] have been emitted. *)
Definition state_with (nt : usize) (dn : list (K * bytes)) (b : builder) (errs : list SyntaxError)
    (d : nat) : TreeState :=
  {| tb_builder := b; tb_errors := errs; nt_pos := nt; raw_pos := length dn; depth := d |}.

Definition state_at (dn : list (K * bytes)) : builder → list SyntaxError → nat → TreeState :=
  state_with (length (kinds_of (lengths dn))) dn.

Definition trivia (ts : list (K * bytes)) : Prop :=
  Forall (λ t, is_trivia (fst t) = true) ts.

Lemma kinds_of_app (a b : list (K * usize)) : kinds_of (a ++ b) = kinds_of a ++ kinds_of b.
Proof. unfold kinds_of. by rewrite map_app, filter_app. Qed.
Lemma lengths_app (a b : list (K * bytes)) : lengths (a ++ b) = lengths a ++ lengths b.
Proof. unfold lengths. by rewrite map_app. Qed.
Lemma kinds_of_trivia tr : trivia tr → kinds_of (lengths tr) = [].
Proof. induction 1 as [|[k t] tr Hk _ IH]; [done|]. simpl in *. by rewrite kinds_of_cons, Hk. Qed.

(** What remains is trivia up to the next non-trivia token, if any. *)
Lemma split_rest (rest : list (K * bytes)) :
  (trivia rest ∧ kinds_of (lengths rest) = []) ∨
  ∃ tr k t rest', rest = tr ++ (k, t) :: rest' ∧ trivia tr ∧ is_trivia k = false ∧
    kinds_of (lengths rest) = k :: kinds_of (lengths rest').
Proof.
  induction rest as [|[k t] rest IH]; [left; by split; [constructor|]|]. simpl. rewrite kinds_of_cons.
  destruct (is_trivia k) eqn:Hk.
  - destruct IH as [[H1 H2]|(tr & k' & t' & rest' & -> & Htr & Hk' & E)].
    + left. split; [|done]. by constructor.
    + right. exists ((k, t) :: tr), k', t', rest'. split_and!; try done. by constructor.
  - right. exists [], k, t, rest. split_and!; try done. constructor.
Qed.

Lemma non_trivia_app i (a b : list (K * usize)) :
  non_trivia_from i (a ++ b) = non_trivia_from i a ++ non_trivia_from (i + length a) b.
Proof.
  revert i. induction a as [|[k l] a IH]; intros i; simpl; [by rewrite Nat.add_0_r|].
  rewrite IH, Nat.add_succ_r. by destruct (is_trivia k).
Qed.
Lemma non_trivia_trivia i tr : trivia tr → non_trivia_from i (lengths tr) = [].
Proof. intros Htr. revert i. induction Htr as [|[k t] tr Hk _ IH]; intros i; simpl in *; [done|]. by rewrite Hk. Qed.

(** The index of the next non-trivia token. *)
Lemma next_index dn tr k t rest :
  texts = dn ++ tr ++ (k, t) :: rest → trivia tr → is_trivia k = false →
  indices !! length (kinds_of (lengths dn)) = Some (length dn + length tr).
Proof.
  intros E Htr Hk. rewrite E, !lengths_app, !non_trivia_app, (non_trivia_trivia _ tr Htr).
  rewrite lookup_app_r; rewrite non_trivia_length; [|done]. rewrite Nat.sub_diag. simpl.
  rewrite Hk. simpl. unfold lengths. by rewrite !length_map.
Qed.
Lemma next_index_none dn rest :
  texts = dn ++ rest → trivia rest → indices !! length (kinds_of (lengths dn)) = None.
Proof.
  intros E Htr. apply lookup_ge_None_2. rewrite non_trivia_length, E, lengths_app, kinds_of_app.
  by rewrite (kinds_of_trivia rest Htr), app_nil_r.
Qed.

(** The token at a position, its start and its text. *)
Lemma raw_token dn k t rest :
  texts = dn ++ (k, t) :: rest →
  toks !! length dn = Some (k, length t) ∧
  ∃ start, starts !! length dn = Some start ∧ start + length t ≤ length src ∧
    slice src start (start + length t) = Done t.
Proof.
  intros E. assert (Hl : texts !! length dn = Some (k, t)) by (rewrite E; by apply list_lookup_middle).
  rewrite lengths_lookup, starts_from_lookup, Hl. simpl. split; [done|]. eexists. split; [done|].
  split; [|by eapply slice_token]. rewrite E, take_app_length, map_app, concat_app, !length_app.
  simpl. rewrite length_app. lia.
Qed.

#[local] Abbreviation emit_until' := (emit_until src toks starts).
#[local] Abbreviation build_step' := (build_step src toks starts indices).
#[local] Abbreviation eat_trivia' := (eat_trivia src toks starts indices).

(** Emitting a run of raw tokens builds their leaves. *)
Lemma emit_until_raw tr dn rest nt b errs d fuel :
  texts = dn ++ tr ++ rest → length tr ≤ fuel →
  ∃ b', build_list (map leaf_of tr) b = Done b' ∧
  emit_until' fuel (length dn + length tr) (state_with nt dn b errs d) =
    Done (state_with nt (dn ++ tr) b' errs d).
Proof.
  revert dn b fuel. induction tr as [|[k t] tr IH]; intros dn b fuel E Hf.
  - exists b. split; [done|]. rewrite app_nil_r. simpl. rewrite Nat.add_0_r.
    destruct fuel; simpl; by rewrite Nat.ltb_irrefl.
  - destruct fuel as [|fuel]; [simpl in Hf; lia|].
    simpl in Hf. destruct (IH (dn ++ [(k, t)]) (token k t b) fuel) as (b' & Hb & He);
      [by rewrite E, <- app_assoc|lia|].
    exists b'. split; [done|]. cbn [emit_until raw_pos state_with].
    rewrite (proj2 (Nat.ltb_lt _ _)) by (simpl; lia).
    destruct (raw_token dn k t (tr ++ rest) E) as (Ht & start & Hs & _ & Hsl).
    unfold emit_raw. cbn [raw_pos state_with]. rewrite Ht, Hs, Hsl. cbn [mbind Exec_bind].
    revert He. unfold state_with at 1. rewrite !length_app, <- app_assoc. simpl.
    replace (length dn + 1 + length tr) with (length dn + S (length tr)) by lia. done.
Qed.

Lemma emit_until_trivia tr dn rest b errs d fuel :
  texts = dn ++ tr ++ rest → trivia tr → length tr ≤ fuel →
  ∃ b', build_list (map leaf_of tr) b = Done b' ∧
  emit_until' fuel (length dn + length tr) (state_at dn b errs d) =
    Done (state_at (dn ++ tr) b' errs d).
Proof.
  intros E Htr Hf. unfold state_at at 2.
  rewrite lengths_app, kinds_of_app, length_app, (kinds_of_trivia tr Htr), Nat.add_0_r.
  by apply (emit_until_raw tr dn rest).
Qed.

(** [eat_trivia] emits the trivia before the next non-trivia token, if any. *)
Lemma eat_trivia_at dn rest :
  texts = dn ++ rest →
  ∃ tr rest', rest = tr ++ rest' ∧ trivia tr ∧ ∀ b errs d, ∃ b',
    build_list (map leaf_of tr) b = Done b' ∧
    eat_trivia' (state_at dn b errs d) = Done (state_at (dn ++ tr) b' errs d).
Proof.
  intros E. destruct (split_rest rest) as [[Htr _]|(tr & k & t & rest' & -> & Htr & Hk & _)].
  - exists [], rest. split_and!; [done|constructor|]. intros b errs d. exists b. split; [done|].
    unfold eat_trivia. cbn [nt_pos state_at state_with]. by rewrite (next_index_none dn rest E Htr), app_nil_r.
  - exists tr, ((k, t) :: rest'). split_and!; [done..|]. intros b errs d.
    destruct (emit_until_trivia tr dn ((k, t) :: rest') b errs d (length dn + length tr))
      as (b' & Hb & He); [done|done|lia|]. exists b'. split; [done|].
    unfold eat_trivia. cbn [nt_pos state_at state_with]. by rewrite (next_index dn tr k t rest' E Htr Hk).
Qed.

(** A token event emits the trivia before its token, then the token. *)
Lemma emit_token_at dn k rest ks :
  texts = dn ++ rest → kinds_of (lengths rest) = k :: ks →
  ∃ c rest', rest = c ++ rest' ∧ kinds_of (lengths rest') = ks ∧ ∀ b errs d, ∃ b',
    build_list (map leaf_of c) b = Done b' ∧
    build_step' (state_at dn b errs d) (RToken k 1) = Done (state_at (dn ++ c) b' errs d).
Proof.
  intros E Hks. destruct (split_rest rest) as [[_ H0]|(tr & k' & t & rest' & -> & Htr & Hk & H1)];
    [by rewrite H0 in Hks|]. rewrite H1 in Hks. injection Hks as -> <-.
  exists (tr ++ [(k, t)]), rest'. split_and!; [by norm_app|done|]. intros b errs d.
  destruct (emit_until_trivia tr dn ((k, t) :: rest') b errs d (length dn + length tr))
    as (b' & Hb & He); [done|done|lia|]. exists (token k t b').
  rewrite map_app, build_list_app, Hb. split; [done|].
  cbn [build_step repeat_exec]. unfold emit_token. cbn [nt_pos state_at state_with].
  rewrite (next_index dn tr k t rest' E Htr Hk), He. cbn [mbind Exec_bind].
  destruct (raw_token (dn ++ tr) k t rest') as (Ht & start & Hs & _ & Hsl); [by rewrite E; norm_app|].
  rewrite length_app in Ht, Hs. rewrite Ht, Hs, Hsl. unfold state_at, state_with. cbn.
  rewrite !app_assoc, !lengths_app, !kinds_of_app, (kinds_of_trivia tr Htr), app_nil_r.
  simpl lengths. rewrite kinds_of_cons, Hk, !length_app. done.
Qed.

(** An error is reported at an offset within the source. *)
Lemma error_at dn rest m :
  texts = dn ++ rest → ∃ e, msg e = m ∧ offset e ≤ length src ∧ ∀ b errs d,
    build_step' (state_at dn b errs d) (RError m) = Done (state_at dn b (errs ++ [e]) d).
Proof.
  intros E. assert (∃ o, error_offset toks starts indices (state_at dn (builder_new) [] 0) = Done o ∧ o ≤ length src)
    as (o & Ho & Hle).
  { unfold error_offset. cbn [nt_pos state_at state_with].
    destruct (split_rest rest) as [[Htr _]|(tr & k & t & rest' & -> & Htr & Hk & _)].
    - rewrite (next_index_none dn rest E Htr). destruct (Nat.eqb_spec (length toks) 0) as [|Hn]; [by exists 0; split; [|lia]|].
      destruct (exists_last (l := texts)) as (dn' & [k t] & E'); [by intros ->|].
      destruct (raw_token dn' k t [] E') as (Ht & start & Hs & Hle & _).
      replace (length toks - 1) with (length dn')
        by (rewrite E'; unfold lengths; rewrite length_map, length_app; simpl; lia).
      rewrite Hs, Ht. by eexists.
    - rewrite (next_index dn tr k t rest' E Htr Hk).
      destruct (raw_token (dn ++ tr) k t rest') as (Ht & start & Hs & Hle & _); [by rewrite E; norm_app|].
      rewrite length_app in Hs. rewrite Hs. eexists. split; [done|]. lia. }
  exists {| msg := m; offset := o |}. split_and!; [done|done|]. intros b errs d. cbn [build_step].
  change (error_offset toks starts indices (state_at dn b errs d)) with
    (error_offset toks starts indices (state_at dn builder_new [] 0)). by rewrite Ho.
Qed.

(** Running the events of [items] inside a node is the traversal of trees
    whose leaves are the raw tokens consumed. *)
Definition Builds (items : list Item) (dn c : list (K * bytes)) : Prop :=
  ∃ ts errs', leaves_list ts = c ∧ Forall (λ e, offset e ≤ length src) errs' ∧ ∀ b errs d,
    foldM build_step' (state_at dn b errs (S d)) (linears items) =
    (b' ← build_list ts b; Done (state_at (dn ++ c) b' (errs ++ errs') (S d))).

Lemma foldM_build_cons (st st' : TreeState) e es :
  build_step' st e = Done st' → foldM build_step' st (e :: es) = foldM build_step' st' es.
Proof. intros H'. cbn [foldM]. by rewrite H'. Qed.

(** Opening and closing a node below the root. *)
Lemma start_inside k dn tr b b' errs d :
  eat_trivia' (state_at dn b errs (S d)) = Done (state_at (dn ++ tr) b' errs (S d)) →
  build_step' (state_at dn b errs (S d)) (StartNode k) =
  Done (state_at (dn ++ tr) (start_node k b') errs (S (S d))).
Proof.
  intros He. unfold build_step. cbn [depth state_at state_with]. rewrite (proj2 (Nat.ltb_lt _ _)) by lia.
  rewrite He. unfold state_at, state_with, set_builder. cbn. by rewrite Nat.add_1_r.
Qed.
Lemma finish_inside dn b errs d :
  build_step' (state_at dn b errs (S (S d))) FinishNode =
  (b' ← finish_node b; Done (state_at dn b' errs (S d))).
Proof. done. Qed.

Lemma Builds_token k items dn c1 c2 :
  (∀ b errs d, ∃ b', build_list (map leaf_of c1) b = Done b' ∧
    build_step' (state_at dn b errs d) (RToken k 1) = Done (state_at (dn ++ c1) b' errs d)) →
  Builds items (dn ++ c1) c2 → Builds (IToken k :: items) dn (c1 ++ c2).
Proof.
  intros H1 (ts & errs' & Hl & Ho & H2). exists (map leaf_of c1 ++ ts), errs'.
  split_and!; [by rewrite leaves_list_app, leaves_list_leaf, Hl|done|]. intros b errs d.
  destruct (H1 b errs (S d)) as (b' & Hb & Hs).
  change (linears (IToken k :: items)) with (RToken k 1 :: linears items).
  rewrite (foldM_build_cons _ _ _ _ Hs), H2, build_list_app, Hb. by rewrite <- app_assoc.
Qed.

Lemma Builds_error m e items dn c :
  offset e ≤ length src →
  (∀ b errs d,
    build_step' (state_at dn b errs d) (RError m) = Done (state_at dn b (errs ++ [e]) d)) →
  Builds items dn c → Builds (IError m :: items) dn c.
Proof.
  intros He H1 (ts & errs' & Hl & Ho & H2). exists ts, (e :: errs').
  split_and!; [done|by constructor|]. intros b errs d.
  change (linears (IError m :: items)) with (RError m :: linears items).
  by rewrite (foldM_build_cons _ _ _ _ (H1 b errs (S d))), H2, <- app_assoc.
Qed.

Lemma Builds_node k inner items dn tr c1 c2 :
  (∀ b errs d, ∃ b', build_list (map leaf_of tr) b = Done b' ∧
    eat_trivia' (state_at dn b errs d) = Done (state_at (dn ++ tr) b' errs d)) →
  Builds inner (dn ++ tr) c1 → Builds items (dn ++ tr ++ c1) c2 →
  Builds (INode k inner :: items) dn (tr ++ c1 ++ c2).
Proof.
  intros H0 (ts1 & errs1 & Hl1 & Ho1 & H1) (ts2 & errs2 & Hl2 & Ho2 & H2).
  exists (map leaf_of tr ++ Node k ts1 :: ts2), (errs1 ++ errs2). split_and!.
  - rewrite leaves_list_app, leaves_list_leaf. unfold leaves_list at 1. cbn [map List.concat].
    fold (leaves_list ts2). by rewrite leaves_node, Hl1, Hl2.
  - by apply Forall_app.
  - intros b errs d. destruct (H0 b errs (S d)) as (b' & Hb & He).
    replace (linears (INode k inner :: items)) with
      (StartNode k :: linears inner ++ FinishNode :: linears items)
      by (unfold linears at 3; cbn [map List.concat]; rewrite linear_node; by norm_app).
    rewrite (foldM_build_cons _ _ _ _ (start_inside k dn tr b b' errs d He)).
    rewrite foldM_app, H1, build_list_app, Hb. cbn [mbind Exec_bind build_list].
    rewrite build_node. destruct (build_list ts1 (start_node k b')) as [b1| |]; [|done..].
    cbn [mbind Exec_bind foldM]. rewrite finish_inside.
    destruct (finish_node b1) as [b2| |]; [|done..]. cbn [mbind Exec_bind].
    rewrite <- app_assoc, H2. destruct (build_list ts2 b2); [|done..].
    cbn [mbind Exec_bind]. by norm_app.
Qed.

Lemma linears_cons (i : Item) l : linears (i :: l) = linear i ++ linears l.
Proof. done. Qed.
Lemma itoks_cons (i : Item) l : itoks_list (i :: l) = itoks i ++ itoks_list l.
Proof. done. Qed.

Lemma builds n items dn rest ks :
  length (linears items) ≤ n → texts = dn ++ rest →
  kinds_of (lengths rest) = itoks_list items ++ ks →
  ∃ c rest', rest = c ++ rest' ∧ kinds_of (lengths rest') = ks ∧ Builds items dn c.
Proof.
  revert items dn rest ks. induction n as [n IH] using lt_wf_ind. intros [|i items] dn rest ks Hn E Hks.
  { exists [], rest. split_and!; [done|done|]. exists [], []. split_and!; [done|done|].
    intros b errs d. cbn. by rewrite !app_nil_r. }
  rewrite linears_cons, length_app in Hn. rewrite itoks_cons, <- app_assoc in Hks.
  destruct i as [k|m|k inner].
  - destruct (emit_token_at dn k rest (itoks_list items ++ ks) E Hks) as (c1 & rest1 & -> & Hk1 & H1).
    simpl in Hn. destruct (IH (length (linears items)) ltac:(lia) items (dn ++ c1) rest1 ks)
      as (c2 & rest2 & -> & Hk2 & H2); [done|by rewrite E, app_assoc|done|].
    exists (c1 ++ c2), rest2. split_and!; [by rewrite app_assoc|done|]. by apply Builds_token.
  - destruct (error_at dn rest m E) as (e & _ & He & H1).
    simpl in Hn. destruct (IH (length (linears items)) ltac:(lia) items dn rest ks)
      as (c2 & rest2 & -> & Hk2 & H2); [done..|].
    exists c2, rest2. split_and!; [done|done|]. by apply (Builds_error m e).
  - rewrite linear_node in Hn. cbn [length] in Hn. rewrite length_app in Hn. rewrite itoks_node in Hks.
    destruct (eat_trivia_at dn rest E) as (tr & rest0 & -> & Htr & H0).
    rewrite lengths_app, kinds_of_app, (kinds_of_trivia tr Htr) in Hks.
    destruct (IH (length (linears inner)) ltac:(lia) inner (dn ++ tr) rest0 (itoks_list items ++ ks))
      as (c1 & rest1 & -> & Hk1 & H1); [done|by rewrite E, app_assoc|done|].
    destruct (IH (length (linears items)) ltac:(lia) items (dn ++ tr ++ c1) rest1 ks)
      as (c2 & rest2 & -> & Hk2 & H2); [done|by rewrite E; norm_app|done|].
    exists (tr ++ c1 ++ c2), rest2. split_and!; [by norm_app|done|]. by apply Builds_node.
Qed.

Lemma finish_root nt dn dn' b b' errs :
  emit_until' (length toks) (length toks) (state_with nt dn b errs 0) = Done (state_with nt dn' b' errs 0) →
  build_step' (state_with nt dn b errs 1) FinishNode =
  (b2 ← finish_node b'; Done (state_with nt dn' b2 errs 0)).
Proof.
  intros He. transitivity (st ← emit_until' (length toks) (length toks) (state_with nt dn b errs 0);
    b2 ← finish_node (tb_builder st); Done (set_builder b2 (depth st) st)); [done|].
  by rewrite He.
Qed.

(** The root: leading trivia, trailing trivia and the tokens [ks] the grammar
    did not consume end up inside it. *)
Lemma build_root k items ks :
  kinds_of toks = itoks_list items ++ ks →
  ∃ ts errs nt, leaves_list ts = texts ∧ Forall (λ e, offset e ≤ length src) errs ∧ ∀ b,
    foldM build_step' (state_at [] b [] 0) (linear (INode k items)) =
    (b' ← build (Node k ts) b; Done (state_with nt texts b' errs 0)).
Proof.
  intros Hk. destruct (eat_trivia_at [] texts eq_refl) as (tr & rest0 & E & Htr & H0).
  assert (Hk0 : kinds_of (lengths rest0) = itoks_list items ++ ks).
  { by rewrite E, lengths_app, kinds_of_app, (kinds_of_trivia tr Htr) in Hk. }
  destruct (builds _ items tr rest0 ks (le_n _) E Hk0) as (c & rest & -> & Hr & ts & errs & Hl & Ho & H1).
  exists (map leaf_of tr ++ ts ++ map leaf_of rest), errs, (length (kinds_of (lengths (tr ++ c)))).
  split_and!; [|done|].
  { by rewrite !leaves_list_app, !leaves_list_leaf, Hl. }
  intros b. rewrite linear_node, build_node, build_list_app.
  destruct (H0 (start_node k b) [] 1) as (b0 & Hb0 & He0).
  rewrite (foldM_build_cons _ (state_at tr b0 [] 1)).
  2:{ unfold build_step. cbn [depth state_at state_with Nat.ltb Nat.leb mbind Exec_bind]. exact He0. }
  rewrite foldM_app, H1, Hb0. cbn [mbind Exec_bind]. rewrite build_list_app.
  destruct (build_list ts b0) as [b1| |]; [|done..]. cbn [mbind Exec_bind foldM].
  assert (Hlen : length toks = length (tr ++ c) + length rest).
  { rewrite E. unfold lengths. rewrite length_map. len_lia. }
  destruct (emit_until_raw rest (tr ++ c) [] (length (kinds_of (lengths (tr ++ c)))) b1 errs 0 (length toks))
    as (b2 & Hb2 & He2); [rewrite E, app_nil_r; by norm_app|lia|].
  rewrite <- Hlen in He2. rewrite app_nil_l. unfold state_at.
  rewrite (finish_root _ _ _ _ _ _ He2), Hb2. cbn [mbind Exec_bind].
  rewrite <- app_assoc, <- E. by destruct (finish_node b2).
Qed.
End build.

(** There are at most as many tokens as bytes. *)
Lemma kinds_of_length {K} `{Vocabulary K} (texts : list (K * bytes)) : length (kinds_of (lengths texts)) ≤ length texts.
Proof.
  unfold kinds_of, lengths. etrans; [apply length_filter|]. by rewrite !length_map.
Qed.
Lemma texts_length {K} (texts : list (K * bytes)) :
  Forall (λ t, snd t ≠ [] ∧ utf8 (snd t)) texts →
  length texts ≤ length (List.concat (map snd texts)).
Proof.
  induction 1 as [|[k [|x t]] texts [Hn _] _ IH]; simpl; [done|by destruct Hn|].
  rewrite length_app. lia.
Qed.

(** Each token pays for 64 events, and each byte is at most one token. *)
Lemma room_of_length {K} `{Vocabulary K} (texts : list (K * bytes)) :
  Forall (λ t, snd t ≠ [] ∧ utf8 (snd t)) texts →
  (64 * (N.of_nat (length (List.concat (map snd texts))) + 1) ≤ U32_MAX)%N →
  (N.of_nat (parse_room (lengths texts)) ≤ U32_MAX)%N.
Proof.
  intros Hok Hl. pose proof (kinds_of_length texts). pose proof (texts_length texts Hok).
  unfold parse_room. lia.
Qed.

(** A scanner's tokens, a grammar that is total on them and the builder: the
    tree has the tokens as leaves. *)
Lemma builds_tree {K} {HD : Discriminant K} {V : Vocabulary K} {G : GreenNodeBuilder K}
    `{!GreenNodeBuilderLaws G} (texts : list (K * bytes)) (root : K) inner ks :
  Forall (λ t, snd t ≠ [] ∧ utf8 (snd t)) texts → root ≠ tombstone →
  Bal inner → toks inner ++ ks = kinds_of (lengths texts) →
  let s := List.concat (map snd texts) in
  ∃ pr ts, build_tree s (lengths texts) (Start root None :: inner ++ [Finish]) = Done pr ∧
    tree_of (green pr) = Node root ts ∧ leaves (Node root ts) = texts ∧
    tree_text (tree_of (green pr)) = s ∧ Forall (λ e, offset e ≤ length s) (errors pr).
Proof.
  intros Hok Hroot Hb Ht s.
  destruct (resolve_root root inner Hroot Hb) as (items & Er & Hi).
  destruct (build_root texts Hok root items ks) as (ts & errs & nt & Hlv & Ho & Hbuild); [congruence|].
  destruct (build_spec root ts) as (b & g & Hbd & Hg & Htree).
  exists {| green := g; errors := errs |}, ts.
  assert (Hlv' : leaves (Node root ts) = texts) by (by rewrite leaves_node).
  split_and!; try done.
  - unfold build_tree. rewrite Er. cbn [mbind Exec_bind].
    specialize (Hbuild builder_new). unfold state_at in Hbuild. unfold state_with in Hbuild at 1. cbn [length kinds_of lengths] in Hbuild.
    etrans; [apply (f_equal (λ m, st ← m; g ← builder_finish (tb_builder st);
      Done {| green := g; errors := tb_errors st |}) Hbuild)|].
    rewrite Hbd. cbn. by rewrite Hg.
  - simpl green. rewrite Htree, tree_text_leaves, Hlv'. done.
Qed.

(** ** A concrete builder

    The simplest builder that meets the laws: a stack of open nodes with
    their children so far. *)
Module StackBuilder.
Section stack.
Context {K : Type} {HD : Discriminant K} {V : Vocabulary K}.
#[local] Abbreviation Tree := (Tree K).

Definition stack := list (K * list Tree).
Definition push (t : Tree) (b : stack) : stack :=
  match b with [] => [] | (k, ts) :: b => (k, ts ++ [t]) :: b end.

#[export] Instance stack_builder : GreenNodeBuilder K := {
  builder := stack;
  green_node := Tree;
  builder_new := [(tombstone, [])];
  start_node k b := (k, []) :: b;
  token k s b := push (Leaf k s) b;
  finish_node b := match b with (k, ts) :: (x :: b) => Done (push (Node k ts) (x :: b)) | _ => Panic end;
  builder_finish b := match b with [(_, [t])] => Done t | _ => Panic end;
}.

Lemma build_push t : ∀ x b, build t (x :: b) = Done (push t (x :: b)).
Proof.
  induction t as [k s|k ts IH] using Tree_nested_ind; intros x b; [done|].
  rewrite build_node. cbn [start_node stack_builder].
  assert (Hl : ∀ ts', build_list ts ((k, ts') :: x :: b) = Done ((k, ts' ++ ts) :: x :: b)).
  { induction IH as [|t ts Ht _ IH]; intros ts'; [by rewrite app_nil_r|].
    cbn [build_list]. rewrite Ht. cbn [mbind Exec_bind push]. by rewrite IH, <- app_assoc. }
  by rewrite Hl.
Qed.

#[export] Instance stack_builder_laws : GreenNodeBuilderLaws stack_builder.
Proof.
  refine {| tree_of := id : green_node → Tree |}.
  intros k ts. exists [(tombstone, [Node k ts])], (Node k ts).
  split_and!; [apply build_push|done|done].
Defined.
End stack.
End StackBuilder.

(** ** Parsing with a total grammar *)
Section parse.
Context {K : Type} {HD : Discriminant K} {V : Vocabulary K} {G : GreenNodeBuilder K} `{!GreenNodeBuilderLaws G}.
Context (scan_kind : Cursor → Exec (K * Cursor)) (grammar : M K unit) (root : K).
Context (Htotal : TotalGrammar grammar root) (Hroot : root ≠ tombstone).

Lemma total_parse_lossless s texts :
  Scanned scan_kind (S (length s)) (cursor_new s) texts → (64 * (N.of_nat (length s) + 1) ≤ U32_MAX)%N →
  ∃ pr ts, (tokens ← tokenize_of scan_kind s;
            '(_, p) ← grammar (parser_new tokens s);
            build_tree s tokens (finish p)) = Done pr ∧
    tree_of (green pr) = Node root ts ∧ lex_of scan_kind s = Done texts ∧
    leaves (Node root ts) = texts ∧ tree_text (tree_of (green pr)) = s ∧
    Forall (λ e, offset e ≤ length s) (errors pr).
Proof.
  intros H Hl. pose proof (scanned_text _ _ _ _ H) as Hok.
  assert (Esrc : List.concat (map snd texts) = s) by apply (scanned_concat _ _ _ _ H).
  assert (Etok : tokenize_of scan_kind s = Done (lengths texts)) by apply (scanned_tokenize _ _ _ _ H []).
  assert (Htok : tokens_ok (lengths texts) s).
  { rewrite <- Esrc. apply tokens_ok_lex; [done|]. apply (scanned_kind _ _ _ _ H). }
  destruct (Htotal (lengths texts) s Htok) as (p & inner & Ep & Ef & Hb & Ht & _).
  { eapply room_of_length; [exact Hok|by rewrite Esrc]. }
  destruct (builds_tree texts root inner [] Hok) as (pr & ts & Hpr); [done|done|by rewrite app_nil_r|].
  rewrite Esrc in Hpr. destruct Hpr as (Hpr & ? & ? & ? & ?). exists pr, ts.
  split; [|split_and!; [done|by apply lex_Scanned|done..]].
  rewrite Etok. cbn [mbind Exec_bind]. rewrite Ep. cbn [mbind Exec_bind]. by rewrite Ef.
Qed.
End parse.
