(* ===== verification/Parsing.v ===== *)
(** * Parsing AADL

    [parse] of [crates/spar-syntax/src/parsing.rs]: the lexer, the grammar
    and the tree builder composed, and the theorem that nothing of the source
    is lost on the way. *)
From S2P Require Import Prelude.
From S2P Require Lexer.
From S2P Require LexerSpec.
From S2P Require Export GrammarComponentsSpec.
From S2P Require Export TreeLossless.
#[local] Open Scope nat_scope.

(** crates/spar-syntax/src/parsing.rs:38-49 [parse] *)
Definition parse `{GreenNodeBuilder SyntaxKind} (input : bytes) : Exec (Parse green_node) :=
  tokens ← Lexer.tokenize input;
  '(_, p) ← source_file (parser_new tokens input);
  build_tree input tokens (finish p).

(** C2: Parsing loses nothing.  For any UTF-8 source whose events fit the
    32-bit marker positions, [parse] returns a tree whose leaves are the
    tokens of the lexer, with their kinds and their texts, trivia included,
    each once and in order, under a root [SOURCE_FILE]; so the text of the
    tree is the source, byte for byte, whether or not the source is valid
    AADL, and every error is reported at an offset of the source. *)
Theorem parse_lossless `{G : GreenNodeBuilder SyntaxKind, !GreenNodeBuilderLaws G} s :
  utf8 s → (64 * (N.of_nat (length s) + 1) ≤ U32_MAX)%N →
  ∃ pr ts texts, parse s = Done pr ∧ tree_of (green pr) = Node SOURCE_FILE ts ∧
    Lexer.lex s = Done texts ∧ leaves (Node SOURCE_FILE ts) = texts ∧
    tree_text (tree_of (green pr)) = s ∧ Forall (λ e, offset e ≤ length s) (errors pr).
Proof.
  intros Hs Hl. destruct (LexerSpec.Scanned_aadl s Hs) as [texts H].
  destruct (total_parse_lossless _ _ _ source_file_runs ltac:(discriminate) s texts H Hl) as (pr & ts & Hpr).
  by exists pr, ts, texts.
Qed.

Import StackBuilder.

(** A package with a comment and a stray semicolon. *)
Definition tree_example : bytes :=
  list_ascii_of_string "package P -- c
public system S end S; ; end P;".

Lemma parse_lossless_witness :
  utf8 tree_example ∧ (64 * (N.of_nat (length tree_example) + 1) ≤ U32_MAX)%N ∧
  ∃ (pr : Parse (@green_node SyntaxKind stack_builder)) ts texts, parse tree_example = Done pr ∧
    tree_of (green pr) = Node SOURCE_FILE ts ∧
    Lexer.lex tree_example = Done texts ∧ leaves (Node SOURCE_FILE ts) = texts ∧
    tree_text (tree_of (green pr)) = tree_example ∧
    Forall (λ e, offset e ≤ length tree_example) (errors pr).
Proof.
  assert (Hs : utf8 tree_example) by (apply utf8_ascii; repeat constructor).
  assert (Hl : (64 * (N.of_nat (length tree_example) + 1) ≤ U32_MAX)%N) by (vm_compute; discriminate).
  split; [exact Hs|split; [exact Hl|]].
  exact (parse_lossless (G := stack_builder) tree_example Hs Hl).
Defined.
