(* ===== verification/AnnexLexer.v ===== *)
(** * The annex lexers

    What [crates/spar-annex/src/emv2/lexer.rs] and [ba/lexer.rs] have in
    common: an index over the bytes of the annex text (a [Cursor]: [i] is
    [pos], [len] the length), the token classes with more than one byte, and
    the loop of [tokenize].  Unlike the AADL lexer these advance by one byte
    over a character they do not know, whatever its length in UTF-8. *)
From S2P Require Import Prelude.
From S2P Require Export Cursor.
From S2P Require Export Vocabulary.

(** [i + n < len && bytes[i + n] == b] and [... && p(bytes[i + n])]. *)
Definition byte_is (n : nat) (p : ascii → bool) (c : Cursor) : bool :=
  match input c !! (pos c + n) with Some x => p x | None => false end.
Definition byte_at (n : nat) (b : ascii) (c : Cursor) : bool := byte_is n (λ x, x =?c b) c.

(** crates/spar-annex/src/emv2/lexer.rs:25-31 [tokenize] *)
Definition scan_blank (c : Cursor) : Exec Cursor := scan_while is_whitespace (bump c).

(** crates/spar-annex/src/emv2/lexer.rs:34-40 [tokenize] *)
Definition scan_line_comment (c : Cursor) : Exec Cursor :=
  scan_while (λ b, negb (b =?c "010")) (bump_n 2 c).

(** crates/spar-annex/src/emv2/lexer.rs:140-149 [tokenize] *)
Definition scan_quoted (c : Cursor) : Exec Cursor :=
  c ← scan_while (λ b, negb (b =?c "034")) (bump c);
  Done (if negb (is_eof c) then bump c else c).

(** crates/spar-annex/src/emv2/lexer.rs:165-174 [tokenize]: the exponent. *)
Definition scan_annex_exponent (c : Cursor) : Exec Cursor :=
  let c := bump c in
  let c := if byte_at 0 "+" c || byte_at 0 "-" c then bump c else c in
  scan_while is_digit c.

(** crates/spar-annex/src/emv2/lexer.rs:152-176 [tokenize]: the flag is [true]
    for a real literal. *)
Definition scan_annex_number (c : Cursor) : Exec (bool * Cursor) :=
  c ← scan_while is_digit (bump c);
  '(real, c) ← (if byte_at 0 "." c && byte_is 1 is_digit c then
                  c ← scan_while is_digit (bump c); Done (true, c)
                else Done (false, c));
  if byte_at 0 "e" c || byte_at 0 "E" c then
    c ← scan_annex_exponent c; Done (true, c)
  else Done (real, c).

(** crates/spar-annex/src/emv2/lexer.rs:179-185 [tokenize]: the word. *)
Definition scan_annex_word (c : Cursor) : Exec (bytes * Cursor) :=
  let start := pos c in
  c ← scan_while is_ident_continue (bump c);
  text ← slice (input c) start (pos c);
  Done (text, c).

Section loop.
Context {K : Type} (scan_kind : Cursor → Exec (K * Cursor)).

(** crates/spar-annex/src/emv2/lexer.rs:19-198 [tokenize]: the loop. *)
Fixpoint annex_loop (fuel : nat) (c : Cursor) (tokens : list (K * usize)) : Exec (list (K * usize)) :=
  match fuel with
  | O => Stuck
  | S n =>
      if negb (is_eof c) then
        let start := pos c in
        '(kind, c) ← scan_kind c;
        annex_loop n c (tokens ++ [(kind, pos c - start)])
      else Done tokens
  end.

(** crates/spar-annex/src/emv2/lexer.rs:13-199 [tokenize] *)
Definition annex_tokenize (source : bytes) : Exec (list (K * usize)) :=
  annex_loop (S (length source)) (cursor_new source) [].
End loop.
