(* ===== verification/Emv2Kind.v ===== *)
(** * The kinds of the error-model annex

    [crates/spar-annex/src/emv2/syntax_kind.rs]. *)
From S2P Require Import Prelude.
From S2P Require Export Text.
From S2P Require Export Vocabulary.
From S2P Require Export AnnexLexer.

(** crates/spar-annex/src/emv2/syntax_kind.rs:13-224 [Emv2Kind] *)
Inductive Emv2Kind :=
  | TOMBSTONE | EOF | ERROR | WHITESPACE | COMMENT | IDENT | STRING_LIT | INT_LIT |
  REAL_LIT | COLON | COLON_COLON | SEMICOLON | COMMA | DOT | STAR | L_CURLY | R_CURLY |
  L_PAREN | R_PAREN | L_BRACK | R_BRACK | FAT_ARROW | ARROW | TRANS_OPEN | TRANS_CLOSE |
  BANG | MINUS | CARET | AT | ACCESS_KW | ALL_KW | AND_KW | APPLIES_KW | BEHAVIOR_KW |
  BINDING_KW | BINDINGS_KW | COMPONENT_KW | COMPOSITE_KW | CONNECTION_KW | DETECTIONS_KW
  | END_KW | EQUIVALENCE_KW | ERROR_KW | EVENT_KW | EVENTS_KW | EXTENDS_KW | FLOWS_KW |
  IF_KW | IN_KW | INITIAL_KW | MAPPINGS_KW | MEMORY_KW | MODE_KW | NOERROR_KW | NOT_KW |
  OR_KW | ORLESS_KW | ORMORE_KW | OTHERS_KW | OUT_KW | PATH_KW | PATHS_KW | POINT_KW |
  PROCESSOR_KW | PROPAGATION_KW | PROPAGATIONS_KW | PROPERTIES_KW | RECOVER_KW |
  RENAMES_KW | REPAIR_KW | SAME_KW | SET_KW | SINK_KW | SOURCE_KW | STATE_KW | STATES_KW
  | TO_KW | TRANSFORMATIONS_KW | TRANSITIONS_KW | TYPE_KW | TYPES_KW | USE_KW | WHEN_KW
  | WITH_KW | EMV2_ROOT | EMV2_LIBRARY | EMV2_SUBCLAUSE | ERROR_TYPES_SECTION |
  TYPE_DEFINITION | TYPE_SET_DEFINITION | TYPE_SET_CONSTRUCTOR | TYPE_SET_ELEMENT |
  ERROR_BEHAVIOR_SM | ERROR_EVENT | REPAIR_EVENT | RECOVER_EVENT | ERROR_BEHAVIOR_STATE
  | ERROR_BEHAVIOR_TRANSITION | TRANSITION_BRANCH | BRANCH_VALUE |
  ERROR_PROPAGATIONS_SECTION | ERROR_PROPAGATION | ERROR_SOURCE | ERROR_SINK |
  ERROR_PATH | PROPAGATION_KIND_NODE | FEATURE_OR_PP_REF | COMPONENT_ERROR_BEHAVIOR |
  OUTGOING_PROPAGATION_CONDITION | ERROR_DETECTION | ERROR_STATE_TO_MODE_MAPPING |
  COMPOSITE_ERROR_BEHAVIOR | COMPOSITE_STATE | CONNECTION_ERROR |
  PROPAGATION_PATHS_SECTION | PROPAGATION_POINT | PROPAGATION_PATH_DECL |
  QUALIFIED_PROPAGATION_POINT | TYPE_TRANSFORMATION_SET | TYPE_TRANSFORMATION |
  TYPE_MAPPING_SET | TYPE_MAPPING | OR_EXPRESSION | AND_EXPRESSION | ORMORE_EXPRESSION |
  ORLESS_EXPRESSION | ALL_EXPRESSION | CONDITION_ELEMENT | S_CONDITION_ELEMENT |
  QUALIFIED_ERROR_BEHAVIOR_STATE | SUBCOMPONENT_ELEMENT | QEMREF | EMV2_PATH |
  EMV2_PATH_ELEMENT | EMV2_PROPERTY_ASSOCIATION | EMV2_PROPERTIES_SECTION | USE_TYPES |
  USE_BEHAVIOR | USE_MAPPINGS | USE_TRANSFORMATIONS | USE_TYPE_EQUIVALENCE |
  IF_CONDITION | ERROR_CODE_VALUE | REPORTING_PORT_REF | NOERROR_TYPE_SET | __LAST.

(** The kinds in declaration order. *)
Definition emv2_kinds : list Emv2Kind :=
  [TOMBSTONE; EOF; ERROR; WHITESPACE; COMMENT; IDENT; STRING_LIT; INT_LIT; REAL_LIT;
  COLON; COLON_COLON; SEMICOLON; COMMA; DOT; STAR; L_CURLY; R_CURLY; L_PAREN; R_PAREN;
  L_BRACK; R_BRACK; FAT_ARROW; ARROW; TRANS_OPEN; TRANS_CLOSE; BANG; MINUS; CARET; AT;
  ACCESS_KW; ALL_KW; AND_KW; APPLIES_KW; BEHAVIOR_KW; BINDING_KW; BINDINGS_KW;
  COMPONENT_KW; COMPOSITE_KW; CONNECTION_KW; DETECTIONS_KW; END_KW; EQUIVALENCE_KW;
  ERROR_KW; EVENT_KW; EVENTS_KW; EXTENDS_KW; FLOWS_KW; IF_KW; IN_KW; INITIAL_KW;
  MAPPINGS_KW; MEMORY_KW; MODE_KW; NOERROR_KW; NOT_KW; OR_KW; ORLESS_KW; ORMORE_KW;
  OTHERS_KW; OUT_KW; PATH_KW; PATHS_KW; POINT_KW; PROCESSOR_KW; PROPAGATION_KW;
  PROPAGATIONS_KW; PROPERTIES_KW; RECOVER_KW; RENAMES_KW; REPAIR_KW; SAME_KW; SET_KW;
  SINK_KW; SOURCE_KW; STATE_KW; STATES_KW; TO_KW; TRANSFORMATIONS_KW; TRANSITIONS_KW;
  TYPE_KW; TYPES_KW; USE_KW; WHEN_KW; WITH_KW; EMV2_ROOT; EMV2_LIBRARY; EMV2_SUBCLAUSE;
  ERROR_TYPES_SECTION; TYPE_DEFINITION; TYPE_SET_DEFINITION; TYPE_SET_CONSTRUCTOR;
  TYPE_SET_ELEMENT; ERROR_BEHAVIOR_SM; ERROR_EVENT; REPAIR_EVENT; RECOVER_EVENT;
  ERROR_BEHAVIOR_STATE; ERROR_BEHAVIOR_TRANSITION; TRANSITION_BRANCH; BRANCH_VALUE;
  ERROR_PROPAGATIONS_SECTION; ERROR_PROPAGATION; ERROR_SOURCE; ERROR_SINK; ERROR_PATH;
  PROPAGATION_KIND_NODE; FEATURE_OR_PP_REF; COMPONENT_ERROR_BEHAVIOR;
  OUTGOING_PROPAGATION_CONDITION; ERROR_DETECTION; ERROR_STATE_TO_MODE_MAPPING;
  COMPOSITE_ERROR_BEHAVIOR; COMPOSITE_STATE; CONNECTION_ERROR;
  PROPAGATION_PATHS_SECTION; PROPAGATION_POINT; PROPAGATION_PATH_DECL;
  QUALIFIED_PROPAGATION_POINT; TYPE_TRANSFORMATION_SET; TYPE_TRANSFORMATION;
  TYPE_MAPPING_SET; TYPE_MAPPING; OR_EXPRESSION; AND_EXPRESSION; ORMORE_EXPRESSION;
  ORLESS_EXPRESSION; ALL_EXPRESSION; CONDITION_ELEMENT; S_CONDITION_ELEMENT;
  QUALIFIED_ERROR_BEHAVIOR_STATE; SUBCOMPONENT_ELEMENT; QEMREF; EMV2_PATH;
  EMV2_PATH_ELEMENT; EMV2_PROPERTY_ASSOCIATION; EMV2_PROPERTIES_SECTION; USE_TYPES;
  USE_BEHAVIOR; USE_MAPPINGS; USE_TRANSFORMATIONS; USE_TYPE_EQUIVALENCE; IF_CONDITION;
  ERROR_CODE_VALUE; REPORTING_PORT_REF; NOERROR_TYPE_SET; __LAST].

(** crates/spar-annex/src/emv2/syntax_kind.rs:12-13 [Emv2Kind as u16] *)
Definition emv2_kind_code (k : Emv2Kind) : N :=
  match k with
  | TOMBSTONE => 0 | EOF => 1 | ERROR => 2 | WHITESPACE => 3 | COMMENT => 4 | IDENT => 5
  | STRING_LIT => 6 | INT_LIT => 7 | REAL_LIT => 8 | COLON => 9 | COLON_COLON => 10 |
  SEMICOLON => 11 | COMMA => 12 | DOT => 13 | STAR => 14 | L_CURLY => 15 | R_CURLY => 16
  | L_PAREN => 17 | R_PAREN => 18 | L_BRACK => 19 | R_BRACK => 20 | FAT_ARROW => 21 |
  ARROW => 22 | TRANS_OPEN => 23 | TRANS_CLOSE => 24 | BANG => 25 | MINUS => 26 | CARET
  => 27 | AT => 28 | ACCESS_KW => 29 | ALL_KW => 30 | AND_KW => 31 | APPLIES_KW => 32 |
  BEHAVIOR_KW => 33 | BINDING_KW => 34 | BINDINGS_KW => 35 | COMPONENT_KW => 36 |
  COMPOSITE_KW => 37 | CONNECTION_KW => 38 | DETECTIONS_KW => 39 | END_KW => 40 |
  EQUIVALENCE_KW => 41 | ERROR_KW => 42 | EVENT_KW => 43 | EVENTS_KW => 44 | EXTENDS_KW
  => 45 | FLOWS_KW => 46 | IF_KW => 47 | IN_KW => 48 | INITIAL_KW => 49 | MAPPINGS_KW =>
  50 | MEMORY_KW => 51 | MODE_KW => 52 | NOERROR_KW => 53 | NOT_KW => 54 | OR_KW => 55 |
  ORLESS_KW => 56 | ORMORE_KW => 57 | OTHERS_KW => 58 | OUT_KW => 59 | PATH_KW => 60 |
  PATHS_KW => 61 | POINT_KW => 62 | PROCESSOR_KW => 63 | PROPAGATION_KW => 64 |
  PROPAGATIONS_KW => 65 | PROPERTIES_KW => 66 | RECOVER_KW => 67 | RENAMES_KW => 68 |
  REPAIR_KW => 69 | SAME_KW => 70 | SET_KW => 71 | SINK_KW => 72 | SOURCE_KW => 73 |
  STATE_KW => 74 | STATES_KW => 75 | TO_KW => 76 | TRANSFORMATIONS_KW => 77 |
  TRANSITIONS_KW => 78 | TYPE_KW => 79 | TYPES_KW => 80 | USE_KW => 81 | WHEN_KW => 82 |
  WITH_KW => 83 | EMV2_ROOT => 84 | EMV2_LIBRARY => 85 | EMV2_SUBCLAUSE => 86 |
  ERROR_TYPES_SECTION => 87 | TYPE_DEFINITION => 88 | TYPE_SET_DEFINITION => 89 |
  TYPE_SET_CONSTRUCTOR => 90 | TYPE_SET_ELEMENT => 91 | ERROR_BEHAVIOR_SM => 92 |
  ERROR_EVENT => 93 | REPAIR_EVENT => 94 | RECOVER_EVENT => 95 | ERROR_BEHAVIOR_STATE =>
  96 | ERROR_BEHAVIOR_TRANSITION => 97 | TRANSITION_BRANCH => 98 | BRANCH_VALUE => 99 |
  ERROR_PROPAGATIONS_SECTION => 100 | ERROR_PROPAGATION => 101 | ERROR_SOURCE => 102 |
  ERROR_SINK => 103 | ERROR_PATH => 104 | PROPAGATION_KIND_NODE => 105 |
  FEATURE_OR_PP_REF => 106 | COMPONENT_ERROR_BEHAVIOR => 107 |
  OUTGOING_PROPAGATION_CONDITION => 108 | ERROR_DETECTION => 109 |
  ERROR_STATE_TO_MODE_MAPPING => 110 | COMPOSITE_ERROR_BEHAVIOR => 111 | COMPOSITE_STATE
  => 112 | CONNECTION_ERROR => 113 | PROPAGATION_PATHS_SECTION => 114 |
  PROPAGATION_POINT => 115 | PROPAGATION_PATH_DECL => 116 | QUALIFIED_PROPAGATION_POINT
  => 117 | TYPE_TRANSFORMATION_SET => 118 | TYPE_TRANSFORMATION => 119 |
  TYPE_MAPPING_SET => 120 | TYPE_MAPPING => 121 | OR_EXPRESSION => 122 | AND_EXPRESSION
  => 123 | ORMORE_EXPRESSION => 124 | ORLESS_EXPRESSION => 125 | ALL_EXPRESSION => 126 |
  CONDITION_ELEMENT => 127 | S_CONDITION_ELEMENT => 128 | QUALIFIED_ERROR_BEHAVIOR_STATE
  => 129 | SUBCOMPONENT_ELEMENT => 130 | QEMREF => 131 | EMV2_PATH => 132 |
  EMV2_PATH_ELEMENT => 133 | EMV2_PROPERTY_ASSOCIATION => 134 | EMV2_PROPERTIES_SECTION
  => 135 | USE_TYPES => 136 | USE_BEHAVIOR => 137 | USE_MAPPINGS => 138 |
  USE_TRANSFORMATIONS => 139 | USE_TYPE_EQUIVALENCE => 140 | IF_CONDITION => 141 |
  ERROR_CODE_VALUE => 142 | REPORTING_PORT_REF => 143 | NOERROR_TYPE_SET => 144 | __LAST
  => 145
  end%N.

(** crates/spar-annex/src/emv2/syntax_kind.rs:9-13 [Emv2Kind: Debug] *)
Definition emv2_kind_name (k : Emv2Kind) : string :=
  (match k with
  | TOMBSTONE => "TOMBSTONE" | EOF => "EOF" | ERROR => "ERROR" | WHITESPACE =>
  "WHITESPACE" | COMMENT => "COMMENT" | IDENT => "IDENT" | STRING_LIT => "STRING_LIT" |
  INT_LIT => "INT_LIT" | REAL_LIT => "REAL_LIT" | COLON => "COLON" | COLON_COLON =>
  "COLON_COLON" | SEMICOLON => "SEMICOLON" | COMMA => "COMMA" | DOT => "DOT" | STAR =>
  "STAR" | L_CURLY => "L_CURLY" | R_CURLY => "R_CURLY" | L_PAREN => "L_PAREN" | R_PAREN
  => "R_PAREN" | L_BRACK => "L_BRACK" | R_BRACK => "R_BRACK" | FAT_ARROW => "FAT_ARROW"
  | ARROW => "ARROW" | TRANS_OPEN => "TRANS_OPEN" | TRANS_CLOSE => "TRANS_CLOSE" | BANG
  => "BANG" | MINUS => "MINUS" | CARET => "CARET" | AT => "AT" | ACCESS_KW =>
  "ACCESS_KW" | ALL_KW => "ALL_KW" | AND_KW => "AND_KW" | APPLIES_KW => "APPLIES_KW" |
  BEHAVIOR_KW => "BEHAVIOR_KW" | BINDING_KW => "BINDING_KW" | BINDINGS_KW =>
  "BINDINGS_KW" | COMPONENT_KW => "COMPONENT_KW" | COMPOSITE_KW => "COMPOSITE_KW" |
  CONNECTION_KW => "CONNECTION_KW" | DETECTIONS_KW => "DETECTIONS_KW" | END_KW =>
  "END_KW" | EQUIVALENCE_KW => "EQUIVALENCE_KW" | ERROR_KW => "ERROR_KW" | EVENT_KW =>
  "EVENT_KW" | EVENTS_KW => "EVENTS_KW" | EXTENDS_KW => "EXTENDS_KW" | FLOWS_KW =>
  "FLOWS_KW" | IF_KW => "IF_KW" | IN_KW => "IN_KW" | INITIAL_KW => "INITIAL_KW" |
  MAPPINGS_KW => "MAPPINGS_KW" | MEMORY_KW => "MEMORY_KW" | MODE_KW => "MODE_KW" |
  NOERROR_KW => "NOERROR_KW" | NOT_KW => "NOT_KW" | OR_KW => "OR_KW" | ORLESS_KW =>
  "ORLESS_KW" | ORMORE_KW => "ORMORE_KW" | OTHERS_KW => "OTHERS_KW" | OUT_KW => "OUT_KW"
  | PATH_KW => "PATH_KW" | PATHS_KW => "PATHS_KW" | POINT_KW => "POINT_KW" |
  PROCESSOR_KW => "PROCESSOR_KW" | PROPAGATION_KW => "PROPAGATION_KW" | PROPAGATIONS_KW
  => "PROPAGATIONS_KW" | PROPERTIES_KW => "PROPERTIES_KW" | RECOVER_KW => "RECOVER_KW" |
  RENAMES_KW => "RENAMES_KW" | REPAIR_KW => "REPAIR_KW" | SAME_KW => "SAME_KW" | SET_KW
  => "SET_KW" | SINK_KW => "SINK_KW" | SOURCE_KW => "SOURCE_KW" | STATE_KW => "STATE_KW"
  | STATES_KW => "STATES_KW" | TO_KW => "TO_KW" | TRANSFORMATIONS_KW =>
  "TRANSFORMATIONS_KW" | TRANSITIONS_KW => "TRANSITIONS_KW" | TYPE_KW => "TYPE_KW" |
  TYPES_KW => "TYPES_KW" | USE_KW => "USE_KW" | WHEN_KW => "WHEN_KW" | WITH_KW =>
  "WITH_KW" | EMV2_ROOT => "EMV2_ROOT" | EMV2_LIBRARY => "EMV2_LIBRARY" | EMV2_SUBCLAUSE
  => "EMV2_SUBCLAUSE" | ERROR_TYPES_SECTION => "ERROR_TYPES_SECTION" | TYPE_DEFINITION
  => "TYPE_DEFINITION" | TYPE_SET_DEFINITION => "TYPE_SET_DEFINITION" |
  TYPE_SET_CONSTRUCTOR => "TYPE_SET_CONSTRUCTOR" | TYPE_SET_ELEMENT =>
  "TYPE_SET_ELEMENT" | ERROR_BEHAVIOR_SM => "ERROR_BEHAVIOR_SM" | ERROR_EVENT =>
  "ERROR_EVENT" | REPAIR_EVENT => "REPAIR_EVENT" | RECOVER_EVENT => "RECOVER_EVENT" |
  ERROR_BEHAVIOR_STATE => "ERROR_BEHAVIOR_STATE" | ERROR_BEHAVIOR_TRANSITION =>
  "ERROR_BEHAVIOR_TRANSITION" | TRANSITION_BRANCH => "TRANSITION_BRANCH" | BRANCH_VALUE
  => "BRANCH_VALUE" | ERROR_PROPAGATIONS_SECTION => "ERROR_PROPAGATIONS_SECTION" |
  ERROR_PROPAGATION => "ERROR_PROPAGATION" | ERROR_SOURCE => "ERROR_SOURCE" | ERROR_SINK
  => "ERROR_SINK" | ERROR_PATH => "ERROR_PATH" | PROPAGATION_KIND_NODE =>
  "PROPAGATION_KIND_NODE" | FEATURE_OR_PP_REF => "FEATURE_OR_PP_REF" |
  COMPONENT_ERROR_BEHAVIOR => "COMPONENT_ERROR_BEHAVIOR" |
  OUTGOING_PROPAGATION_CONDITION => "OUTGOING_PROPAGATION_CONDITION" | ERROR_DETECTION
  => "ERROR_DETECTION" | ERROR_STATE_TO_MODE_MAPPING => "ERROR_STATE_TO_MODE_MAPPING" |
  COMPOSITE_ERROR_BEHAVIOR => "COMPOSITE_ERROR_BEHAVIOR" | COMPOSITE_STATE =>
  "COMPOSITE_STATE" | CONNECTION_ERROR => "CONNECTION_ERROR" | PROPAGATION_PATHS_SECTION
  => "PROPAGATION_PATHS_SECTION" | PROPAGATION_POINT => "PROPAGATION_POINT" |
  PROPAGATION_PATH_DECL => "PROPAGATION_PATH_DECL" | QUALIFIED_PROPAGATION_POINT =>
  "QUALIFIED_PROPAGATION_POINT" | TYPE_TRANSFORMATION_SET => "TYPE_TRANSFORMATION_SET" |
  TYPE_TRANSFORMATION => "TYPE_TRANSFORMATION" | TYPE_MAPPING_SET => "TYPE_MAPPING_SET"
  | TYPE_MAPPING => "TYPE_MAPPING" | OR_EXPRESSION => "OR_EXPRESSION" | AND_EXPRESSION
  => "AND_EXPRESSION" | ORMORE_EXPRESSION => "ORMORE_EXPRESSION" | ORLESS_EXPRESSION =>
  "ORLESS_EXPRESSION" | ALL_EXPRESSION => "ALL_EXPRESSION" | CONDITION_ELEMENT =>
  "CONDITION_ELEMENT" | S_CONDITION_ELEMENT => "S_CONDITION_ELEMENT" |
  QUALIFIED_ERROR_BEHAVIOR_STATE => "QUALIFIED_ERROR_BEHAVIOR_STATE" |
  SUBCOMPONENT_ELEMENT => "SUBCOMPONENT_ELEMENT" | QEMREF => "QEMREF" | EMV2_PATH =>
  "EMV2_PATH" | EMV2_PATH_ELEMENT => "EMV2_PATH_ELEMENT" | EMV2_PROPERTY_ASSOCIATION =>
  "EMV2_PROPERTY_ASSOCIATION" | EMV2_PROPERTIES_SECTION => "EMV2_PROPERTIES_SECTION" |
  USE_TYPES => "USE_TYPES" | USE_BEHAVIOR => "USE_BEHAVIOR" | USE_MAPPINGS =>
  "USE_MAPPINGS" | USE_TRANSFORMATIONS => "USE_TRANSFORMATIONS" | USE_TYPE_EQUIVALENCE
  => "USE_TYPE_EQUIVALENCE" | IF_CONDITION => "IF_CONDITION" | ERROR_CODE_VALUE =>
  "ERROR_CODE_VALUE" | REPORTING_PORT_REF => "REPORTING_PORT_REF" | NOERROR_TYPE_SET =>
  "NOERROR_TYPE_SET" | __LAST => "__LAST"
  end)%string.

Lemma emv2_kinds_code k : nth_error emv2_kinds (N.to_nat (emv2_kind_code k)) = Some k.
Proof. by destruct k. Qed.

Lemma emv2_kind_code_inj k1 k2 : emv2_kind_code k1 = emv2_kind_code k2 → k1 = k2.
Proof.
  intros H. pose proof (emv2_kinds_code k1) as H1. pose proof (emv2_kinds_code k2) as H2.
  rewrite H in H1. congruence.
Qed.

#[export] Instance emv2_kind_discriminant : Discriminant Emv2Kind :=
  {| kind_code := emv2_kind_code; kind_code_inj := emv2_kind_code_inj |}.

(** The rows of the keyword table. *)
Definition keyword_table : list (string * Emv2Kind) :=
  [("access", ACCESS_KW); ("all", ALL_KW); ("and", AND_KW); ("applies", APPLIES_KW);
  ("behavior", BEHAVIOR_KW); ("binding", BINDING_KW); ("bindings", BINDINGS_KW);
  ("component", COMPONENT_KW); ("composite", COMPOSITE_KW); ("connection",
  CONNECTION_KW); ("detections", DETECTIONS_KW); ("end", END_KW); ("equivalence",
  EQUIVALENCE_KW); ("error", ERROR_KW); ("event", EVENT_KW); ("events", EVENTS_KW);
  ("extends", EXTENDS_KW); ("flows", FLOWS_KW); ("if", IF_KW); ("in", IN_KW);
  ("initial", INITIAL_KW); ("mappings", MAPPINGS_KW); ("memory", MEMORY_KW); ("mode",
  MODE_KW); ("noerror", NOERROR_KW); ("not", NOT_KW); ("or", OR_KW); ("orless",
  ORLESS_KW); ("ormore", ORMORE_KW); ("others", OTHERS_KW); ("out", OUT_KW); ("path",
  PATH_KW); ("paths", PATHS_KW); ("point", POINT_KW); ("processor", PROCESSOR_KW);
  ("propagation", PROPAGATION_KW); ("propagations", PROPAGATIONS_KW); ("properties",
  PROPERTIES_KW); ("recover", RECOVER_KW); ("renames", RENAMES_KW); ("repair",
  REPAIR_KW); ("same", SAME_KW); ("set", SET_KW); ("sink", SINK_KW); ("source",
  SOURCE_KW); ("state", STATE_KW); ("states", STATES_KW); ("to", TO_KW);
  ("transformations", TRANSFORMATIONS_KW); ("transitions", TRANSITIONS_KW); ("type",
  TYPE_KW); ("types", TYPES_KW); ("use", USE_KW); ("when", WHEN_KW); ("with",
  WITH_KW)]%string.

(** crates/spar-annex/src/emv2/syntax_kind.rs:254-314 [Emv2Kind::from_keyword] *)
Definition from_keyword (text : bytes) : option Emv2Kind :=
  let lower := string_of_list_ascii (to_ascii_lowercase text) in
  snd <$> List.find (λ row, String.eqb (fst row) lower) keyword_table.

(** crates/spar-annex/src/emv2/syntax_kind.rs:229-231 [Emv2Kind::is_trivia] *)
Definition emv2_is_trivia (k : Emv2Kind) : bool := kind_eqb k WHITESPACE || kind_eqb k COMMENT.

(** crates/spar-annex/src/emv2/syntax_kind.rs:235-237 [Emv2Kind::is_keyword] *)
Definition is_keyword (k : Emv2Kind) : bool :=
  (kind_code ACCESS_KW <=? kind_code k)%N && (kind_code k <=? kind_code WITH_KW)%N.

(** crates/spar-annex/src/emv2/syntax_kind.rs:241-251 [Emv2Kind::is_propagation_kind] *)
Definition is_propagation_kind (k : Emv2Kind) : bool :=
  kind_eqb k PROCESSOR_KW || kind_eqb k MEMORY_KW || kind_eqb k CONNECTION_KW ||
  kind_eqb k BINDING_KW || kind_eqb k BINDINGS_KW || kind_eqb k ACCESS_KW.

#[export] Instance emv2 : Vocabulary Emv2Kind := {|
  eof := EOF; tombstone := TOMBSTONE; error_kind := ERROR;
  is_trivia := emv2_is_trivia; kind_name := emv2_kind_name;
  error_not_tombstone := ltac:(discriminate);
|}.

(** ** The lexer of the error-model annex

    [crates/spar-annex/src/emv2/lexer.rs]. *)
(** crates/spar-annex/src/emv2/lexer.rs:23-193 [tokenize]: one token. *)
Definition scan_kind (c : Cursor) : Exec (Emv2Kind * Cursor) :=
  let b := current c in
  let one k := Done (k, bump c) in
  let two k := Done (k, bump_n 2 c) in
  let three k := Done (k, bump_n 3 c) in
  if is_whitespace b then c ← scan_blank c; Done (WHITESPACE, c)
  else if (b =?c "-") && byte_at 1 "-" c then c ← scan_line_comment c; Done (COMMENT, c)
  else if (b =?c "-") && byte_at 1 "[" c then two TRANS_OPEN
  else if (b =?c "-") && byte_at 1 ">" c then two ARROW
  else if b =?c "-" then one MINUS
  else if (b =?c "]") && byte_at 1 "-" c && byte_at 2 ">" c then three TRANS_CLOSE
  else if b =?c "]" then one R_BRACK
  else if (b =?c ":") && byte_at 1 ":" c then two COLON_COLON
  else if b =?c ":" then one COLON
  else if (b =?c "=") && byte_at 1 ">" c then two FAT_ARROW
  else if b =?c ";" then one SEMICOLON
  else if b =?c "," then one COMMA
  else if b =?c "." then one DOT
  else if b =?c "*" then one STAR
  else if b =?c "{" then one L_CURLY
  else if b =?c "}" then one R_CURLY
  else if b =?c "(" then one L_PAREN
  else if b =?c ")" then one R_PAREN
  else if b =?c "[" then one L_BRACK
  else if b =?c "!" then one BANG
  else if b =?c "^" then one CARET
  else if b =?c "@" then one AT
  else if b =?c "034" then c ← scan_quoted c; Done (STRING_LIT, c)
  else if is_digit b then
    '(real, c) ← scan_annex_number c; Done (if (real : bool) then REAL_LIT else INT_LIT, c)
  else if is_ident_start b then
    '(text, c) ← scan_annex_word c;
    Done (match from_keyword text with Some k => k | None => IDENT end, c)
  else one ERROR.

(** crates/spar-annex/src/emv2/lexer.rs:13-199 [tokenize] *)
Definition tokenize (source : bytes) : Exec (list (Emv2Kind * usize)) :=
  annex_tokenize scan_kind source.
