(* ===== verification/BaKind.v ===== *)
(** * The kinds of the behaviour annex

    [crates/spar-annex/src/ba/syntax_kind.rs]. *)
From S2P Require Import Prelude.
From S2P Require Export Text.
From S2P Require Export Vocabulary.
From S2P Require Export AnnexLexer.

(** crates/spar-annex/src/ba/syntax_kind.rs:13-228 [BaKind] *)
Inductive BaKind :=
  | TOMBSTONE | EOF | ERROR | WHITESPACE | COMMENT | IDENT | STRING_LIT | INT_LIT |
  REAL_LIT | COLON | COLON_COLON | COLON_EQ | SEMICOLON | COMMA | DOT | DOT_DOT |
  L_PAREN | R_PAREN | L_CURLY | R_CURLY | L_BRACK | R_BRACK | TRANS_OPEN | TRANS_CLOSE |
  FAT_ARROW | PLUS | MINUS | STAR | STAR_STAR | SLASH | EQ | BANG_EQ | L_ANGLE |
  L_ANGLE_EQ | R_ANGLE | R_ANGLE_EQ | BANG | QUESTION | R_ANGLE_R_ANGLE | BANG_L_ANGLE |
  BANG_R_ANGLE | AMP | TICK | HASH | ARROW | ABS_KW | AND_KW | ANY_KW | BINDING_KW |
  CLASSIFIER_KW | COMPLETE_KW | COMPUTATION_KW | COUNT_KW | DISPATCH_KW | DO_KW |
  ELSE_KW | ELSIF_KW | END_KW | FALSE_KW | FINAL_KW | FOR_KW | FORALL_KW | FRESH_KW |
  FROZEN_KW | IF_KW | IN_KW | INITIAL_KW | LOWER_BOUND_KW | MOD_KW | NOT_KW | ON_KW |
  OR_KW | OTHERWISE_KW | REFERENCE_KW | REM_KW | STATE_KW | STATES_KW | STOP_KW |
  TIMEOUT_KW | TRANSITIONS_KW | TRUE_KW | UNTIL_KW | UPPER_BOUND_KW | VARIABLES_KW |
  WHILE_KW | XOR_KW | BA_ROOT | BEHAVIOR_VARIABLES_SECTION | BEHAVIOR_STATES_SECTION |
  BEHAVIOR_TRANSITIONS_SECTION | BEHAVIOR_VARIABLE | BEHAVIOR_STATE |
  BEHAVIOR_TRANSITION | STATE_KIND_LIST | SOURCE_STATE_LIST | DISPATCH_CONDITION |
  EXECUTE_CONDITION | TRANSITION_GUARD | DISPATCH_TRIGGER_LOGICAL_EXPR |
  DISPATCH_TRIGGER_CONJUNCTION | FROZEN_PORT_LIST | ACTION_BLOCK | BEHAVIOR_ACTIONS |
  BEHAVIOR_ACTION | ASSIGNMENT_ACTION | COMMUNICATION_ACTION | COMPUTATION_ACTION |
  TIMED_ACTION | IF_STATEMENT | ELSIF_CLAUSE | ELSE_CLAUSE | FOR_STATEMENT |
  FORALL_STATEMENT | WHILE_STATEMENT | DO_UNTIL_STATEMENT | VALUE_EXPRESSION |
  BINARY_EXPR | UNARY_EXPR | PAREN_EXPR | NAME_REF | QUALIFIED_NAME | ARRAY_INDEX |
  PORT_PROPERTY_REF | PROPERTY_REF | CLASSIFIER_REF | COMPONENT_REF |
  SUBPROGRAM_CALL_PARAMS | TIMEOUT_CLAUSE | RANGE_EXPR | BOOLEAN_LITERAL |
  INTEGER_LITERAL | REAL_LITERAL | STRING_LITERAL | __LAST.

(** The kinds in declaration order. *)
Definition ba_kinds : list BaKind :=
  [TOMBSTONE; EOF; ERROR; WHITESPACE; COMMENT; IDENT; STRING_LIT; INT_LIT; REAL_LIT;
  COLON; COLON_COLON; COLON_EQ; SEMICOLON; COMMA; DOT; DOT_DOT; L_PAREN; R_PAREN;
  L_CURLY; R_CURLY; L_BRACK; R_BRACK; TRANS_OPEN; TRANS_CLOSE; FAT_ARROW; PLUS; MINUS;
  STAR; STAR_STAR; SLASH; EQ; BANG_EQ; L_ANGLE; L_ANGLE_EQ; R_ANGLE; R_ANGLE_EQ; BANG;
  QUESTION; R_ANGLE_R_ANGLE; BANG_L_ANGLE; BANG_R_ANGLE; AMP; TICK; HASH; ARROW; ABS_KW;
  AND_KW; ANY_KW; BINDING_KW; CLASSIFIER_KW; COMPLETE_KW; COMPUTATION_KW; COUNT_KW;
  DISPATCH_KW; DO_KW; ELSE_KW; ELSIF_KW; END_KW; FALSE_KW; FINAL_KW; FOR_KW; FORALL_KW;
  FRESH_KW; FROZEN_KW; IF_KW; IN_KW; INITIAL_KW; LOWER_BOUND_KW; MOD_KW; NOT_KW; ON_KW;
  OR_KW; OTHERWISE_KW; REFERENCE_KW; REM_KW; STATE_KW; STATES_KW; STOP_KW; TIMEOUT_KW;
  TRANSITIONS_KW; TRUE_KW; UNTIL_KW; UPPER_BOUND_KW; VARIABLES_KW; WHILE_KW; XOR_KW;
  BA_ROOT; BEHAVIOR_VARIABLES_SECTION; BEHAVIOR_STATES_SECTION;
  BEHAVIOR_TRANSITIONS_SECTION; BEHAVIOR_VARIABLE; BEHAVIOR_STATE; BEHAVIOR_TRANSITION;
  STATE_KIND_LIST; SOURCE_STATE_LIST; DISPATCH_CONDITION; EXECUTE_CONDITION;
  TRANSITION_GUARD; DISPATCH_TRIGGER_LOGICAL_EXPR; DISPATCH_TRIGGER_CONJUNCTION;
  FROZEN_PORT_LIST; ACTION_BLOCK; BEHAVIOR_ACTIONS; BEHAVIOR_ACTION; ASSIGNMENT_ACTION;
  COMMUNICATION_ACTION; COMPUTATION_ACTION; TIMED_ACTION; IF_STATEMENT; ELSIF_CLAUSE;
  ELSE_CLAUSE; FOR_STATEMENT; FORALL_STATEMENT; WHILE_STATEMENT; DO_UNTIL_STATEMENT;
  VALUE_EXPRESSION; BINARY_EXPR; UNARY_EXPR; PAREN_EXPR; NAME_REF; QUALIFIED_NAME;
  ARRAY_INDEX; PORT_PROPERTY_REF; PROPERTY_REF; CLASSIFIER_REF; COMPONENT_REF;
  SUBPROGRAM_CALL_PARAMS; TIMEOUT_CLAUSE; RANGE_EXPR; BOOLEAN_LITERAL; INTEGER_LITERAL;
  REAL_LITERAL; STRING_LITERAL; __LAST].

(** crates/spar-annex/src/ba/syntax_kind.rs:12-13 [BaKind as u16] *)
Definition ba_kind_code (k : BaKind) : N :=
  match k with
  | TOMBSTONE => 0 | EOF => 1 | ERROR => 2 | WHITESPACE => 3 | COMMENT => 4 | IDENT => 5
  | STRING_LIT => 6 | INT_LIT => 7 | REAL_LIT => 8 | COLON => 9 | COLON_COLON => 10 |
  COLON_EQ => 11 | SEMICOLON => 12 | COMMA => 13 | DOT => 14 | DOT_DOT => 15 | L_PAREN
  => 16 | R_PAREN => 17 | L_CURLY => 18 | R_CURLY => 19 | L_BRACK => 20 | R_BRACK => 21
  | TRANS_OPEN => 22 | TRANS_CLOSE => 23 | FAT_ARROW => 24 | PLUS => 25 | MINUS => 26 |
  STAR => 27 | STAR_STAR => 28 | SLASH => 29 | EQ => 30 | BANG_EQ => 31 | L_ANGLE => 32
  | L_ANGLE_EQ => 33 | R_ANGLE => 34 | R_ANGLE_EQ => 35 | BANG => 36 | QUESTION => 37 |
  R_ANGLE_R_ANGLE => 38 | BANG_L_ANGLE => 39 | BANG_R_ANGLE => 40 | AMP => 41 | TICK =>
  42 | HASH => 43 | ARROW => 44 | ABS_KW => 45 | AND_KW => 46 | ANY_KW => 47 |
  BINDING_KW => 48 | CLASSIFIER_KW => 49 | COMPLETE_KW => 50 | COMPUTATION_KW => 51 |
  COUNT_KW => 52 | DISPATCH_KW => 53 | DO_KW => 54 | ELSE_KW => 55 | ELSIF_KW => 56 |
  END_KW => 57 | FALSE_KW => 58 | FINAL_KW => 59 | FOR_KW => 60 | FORALL_KW => 61 |
  FRESH_KW => 62 | FROZEN_KW => 63 | IF_KW => 64 | IN_KW => 65 | INITIAL_KW => 66 |
  LOWER_BOUND_KW => 67 | MOD_KW => 68 | NOT_KW => 69 | ON_KW => 70 | OR_KW => 71 |
  OTHERWISE_KW => 72 | REFERENCE_KW => 73 | REM_KW => 74 | STATE_KW => 75 | STATES_KW =>
  76 | STOP_KW => 77 | TIMEOUT_KW => 78 | TRANSITIONS_KW => 79 | TRUE_KW => 80 |
  UNTIL_KW => 81 | UPPER_BOUND_KW => 82 | VARIABLES_KW => 83 | WHILE_KW => 84 | XOR_KW
  => 85 | BA_ROOT => 86 | BEHAVIOR_VARIABLES_SECTION => 87 | BEHAVIOR_STATES_SECTION =>
  88 | BEHAVIOR_TRANSITIONS_SECTION => 89 | BEHAVIOR_VARIABLE => 90 | BEHAVIOR_STATE =>
  91 | BEHAVIOR_TRANSITION => 92 | STATE_KIND_LIST => 93 | SOURCE_STATE_LIST => 94 |
  DISPATCH_CONDITION => 95 | EXECUTE_CONDITION => 96 | TRANSITION_GUARD => 97 |
  DISPATCH_TRIGGER_LOGICAL_EXPR => 98 | DISPATCH_TRIGGER_CONJUNCTION => 99 |
  FROZEN_PORT_LIST => 100 | ACTION_BLOCK => 101 | BEHAVIOR_ACTIONS => 102 |
  BEHAVIOR_ACTION => 103 | ASSIGNMENT_ACTION => 104 | COMMUNICATION_ACTION => 105 |
  COMPUTATION_ACTION => 106 | TIMED_ACTION => 107 | IF_STATEMENT => 108 | ELSIF_CLAUSE
  => 109 | ELSE_CLAUSE => 110 | FOR_STATEMENT => 111 | FORALL_STATEMENT => 112 |
  WHILE_STATEMENT => 113 | DO_UNTIL_STATEMENT => 114 | VALUE_EXPRESSION => 115 |
  BINARY_EXPR => 116 | UNARY_EXPR => 117 | PAREN_EXPR => 118 | NAME_REF => 119 |
  QUALIFIED_NAME => 120 | ARRAY_INDEX => 121 | PORT_PROPERTY_REF => 122 | PROPERTY_REF
  => 123 | CLASSIFIER_REF => 124 | COMPONENT_REF => 125 | SUBPROGRAM_CALL_PARAMS => 126
  | TIMEOUT_CLAUSE => 127 | RANGE_EXPR => 128 | BOOLEAN_LITERAL => 129 | INTEGER_LITERAL
  => 130 | REAL_LITERAL => 131 | STRING_LITERAL => 132 | __LAST => 133
  end%N.

(** crates/spar-annex/src/ba/syntax_kind.rs:9-13 [BaKind: Debug] *)
Definition ba_kind_name (k : BaKind) : string :=
  (match k with
  | TOMBSTONE => "TOMBSTONE" | EOF => "EOF" | ERROR => "ERROR" | WHITESPACE =>
  "WHITESPACE" | COMMENT => "COMMENT" | IDENT => "IDENT" | STRING_LIT => "STRING_LIT" |
  INT_LIT => "INT_LIT" | REAL_LIT => "REAL_LIT" | COLON => "COLON" | COLON_COLON =>
  "COLON_COLON" | COLON_EQ => "COLON_EQ" | SEMICOLON => "SEMICOLON" | COMMA => "COMMA" |
  DOT => "DOT" | DOT_DOT => "DOT_DOT" | L_PAREN => "L_PAREN" | R_PAREN => "R_PAREN" |
  L_CURLY => "L_CURLY" | R_CURLY => "R_CURLY" | L_BRACK => "L_BRACK" | R_BRACK =>
  "R_BRACK" | TRANS_OPEN => "TRANS_OPEN" | TRANS_CLOSE => "TRANS_CLOSE" | FAT_ARROW =>
  "FAT_ARROW" | PLUS => "PLUS" | MINUS => "MINUS" | STAR => "STAR" | STAR_STAR =>
  "STAR_STAR" | SLASH => "SLASH" | EQ => "EQ" | BANG_EQ => "BANG_EQ" | L_ANGLE =>
  "L_ANGLE" | L_ANGLE_EQ => "L_ANGLE_EQ" | R_ANGLE => "R_ANGLE" | R_ANGLE_EQ =>
  "R_ANGLE_EQ" | BANG => "BANG" | QUESTION => "QUESTION" | R_ANGLE_R_ANGLE =>
  "R_ANGLE_R_ANGLE" | BANG_L_ANGLE => "BANG_L_ANGLE" | BANG_R_ANGLE => "BANG_R_ANGLE" |
  AMP => "AMP" | TICK => "TICK" | HASH => "HASH" | ARROW => "ARROW" | ABS_KW => "ABS_KW"
  | AND_KW => "AND_KW" | ANY_KW => "ANY_KW" | BINDING_KW => "BINDING_KW" | CLASSIFIER_KW
  => "CLASSIFIER_KW" | COMPLETE_KW => "COMPLETE_KW" | COMPUTATION_KW => "COMPUTATION_KW"
  | COUNT_KW => "COUNT_KW" | DISPATCH_KW => "DISPATCH_KW" | DO_KW => "DO_KW" | ELSE_KW
  => "ELSE_KW" | ELSIF_KW => "ELSIF_KW" | END_KW => "END_KW" | FALSE_KW => "FALSE_KW" |
  FINAL_KW => "FINAL_KW" | FOR_KW => "FOR_KW" | FORALL_KW => "FORALL_KW" | FRESH_KW =>
  "FRESH_KW" | FROZEN_KW => "FROZEN_KW" | IF_KW => "IF_KW" | IN_KW => "IN_KW" |
  INITIAL_KW => "INITIAL_KW" | LOWER_BOUND_KW => "LOWER_BOUND_KW" | MOD_KW => "MOD_KW" |
  NOT_KW => "NOT_KW" | ON_KW => "ON_KW" | OR_KW => "OR_KW" | OTHERWISE_KW =>
  "OTHERWISE_KW" | REFERENCE_KW => "REFERENCE_KW" | REM_KW => "REM_KW" | STATE_KW =>
  "STATE_KW" | STATES_KW => "STATES_KW" | STOP_KW => "STOP_KW" | TIMEOUT_KW =>
  "TIMEOUT_KW" | TRANSITIONS_KW => "TRANSITIONS_KW" | TRUE_KW => "TRUE_KW" | UNTIL_KW =>
  "UNTIL_KW" | UPPER_BOUND_KW => "UPPER_BOUND_KW" | VARIABLES_KW => "VARIABLES_KW" |
  WHILE_KW => "WHILE_KW" | XOR_KW => "XOR_KW" | BA_ROOT => "BA_ROOT" |
  BEHAVIOR_VARIABLES_SECTION => "BEHAVIOR_VARIABLES_SECTION" | BEHAVIOR_STATES_SECTION
  => "BEHAVIOR_STATES_SECTION" | BEHAVIOR_TRANSITIONS_SECTION =>
  "BEHAVIOR_TRANSITIONS_SECTION" | BEHAVIOR_VARIABLE => "BEHAVIOR_VARIABLE" |
  BEHAVIOR_STATE => "BEHAVIOR_STATE" | BEHAVIOR_TRANSITION => "BEHAVIOR_TRANSITION" |
  STATE_KIND_LIST => "STATE_KIND_LIST" | SOURCE_STATE_LIST => "SOURCE_STATE_LIST" |
  DISPATCH_CONDITION => "DISPATCH_CONDITION" | EXECUTE_CONDITION => "EXECUTE_CONDITION"
  | TRANSITION_GUARD => "TRANSITION_GUARD" | DISPATCH_TRIGGER_LOGICAL_EXPR =>
  "DISPATCH_TRIGGER_LOGICAL_EXPR" | DISPATCH_TRIGGER_CONJUNCTION =>
  "DISPATCH_TRIGGER_CONJUNCTION" | FROZEN_PORT_LIST => "FROZEN_PORT_LIST" | ACTION_BLOCK
  => "ACTION_BLOCK" | BEHAVIOR_ACTIONS => "BEHAVIOR_ACTIONS" | BEHAVIOR_ACTION =>
  "BEHAVIOR_ACTION" | ASSIGNMENT_ACTION => "ASSIGNMENT_ACTION" | COMMUNICATION_ACTION =>
  "COMMUNICATION_ACTION" | COMPUTATION_ACTION => "COMPUTATION_ACTION" | TIMED_ACTION =>
  "TIMED_ACTION" | IF_STATEMENT => "IF_STATEMENT" | ELSIF_CLAUSE => "ELSIF_CLAUSE" |
  ELSE_CLAUSE => "ELSE_CLAUSE" | FOR_STATEMENT => "FOR_STATEMENT" | FORALL_STATEMENT =>
  "FORALL_STATEMENT" | WHILE_STATEMENT => "WHILE_STATEMENT" | DO_UNTIL_STATEMENT =>
  "DO_UNTIL_STATEMENT" | VALUE_EXPRESSION => "VALUE_EXPRESSION" | BINARY_EXPR =>
  "BINARY_EXPR" | UNARY_EXPR => "UNARY_EXPR" | PAREN_EXPR => "PAREN_EXPR" | NAME_REF =>
  "NAME_REF" | QUALIFIED_NAME => "QUALIFIED_NAME" | ARRAY_INDEX => "ARRAY_INDEX" |
  PORT_PROPERTY_REF => "PORT_PROPERTY_REF" | PROPERTY_REF => "PROPERTY_REF" |
  CLASSIFIER_REF => "CLASSIFIER_REF" | COMPONENT_REF => "COMPONENT_REF" |
  SUBPROGRAM_CALL_PARAMS => "SUBPROGRAM_CALL_PARAMS" | TIMEOUT_CLAUSE =>
  "TIMEOUT_CLAUSE" | RANGE_EXPR => "RANGE_EXPR" | BOOLEAN_LITERAL => "BOOLEAN_LITERAL" |
  INTEGER_LITERAL => "INTEGER_LITERAL" | REAL_LITERAL => "REAL_LITERAL" | STRING_LITERAL
  => "STRING_LITERAL" | __LAST => "__LAST"
  end)%string.

Lemma ba_kinds_code k : nth_error ba_kinds (N.to_nat (ba_kind_code k)) = Some k.
Proof. by destruct k. Qed.

Lemma ba_kind_code_inj k1 k2 : ba_kind_code k1 = ba_kind_code k2 → k1 = k2.
Proof.
  intros H. pose proof (ba_kinds_code k1) as H1. pose proof (ba_kinds_code k2) as H2.
  rewrite H in H1. congruence.
Qed.

#[export] Instance ba_kind_discriminant : Discriminant BaKind :=
  {| kind_code := ba_kind_code; kind_code_inj := ba_kind_code_inj |}.

(** The rows of the keyword table. *)
Definition keyword_table : list (string * BaKind) :=
  [("abs", ABS_KW); ("and", AND_KW); ("any", ANY_KW); ("binding", BINDING_KW);
  ("classifier", CLASSIFIER_KW); ("complete", COMPLETE_KW); ("computation",
  COMPUTATION_KW); ("count", COUNT_KW); ("dispatch", DISPATCH_KW); ("do", DO_KW);
  ("else", ELSE_KW); ("elsif", ELSIF_KW); ("end", END_KW); ("false", FALSE_KW);
  ("final", FINAL_KW); ("for", FOR_KW); ("forall", FORALL_KW); ("fresh", FRESH_KW);
  ("frozen", FROZEN_KW); ("if", IF_KW); ("in", IN_KW); ("initial", INITIAL_KW);
  ("lower_bound", LOWER_BOUND_KW); ("mod", MOD_KW); ("not", NOT_KW); ("on", ON_KW);
  ("or", OR_KW); ("otherwise", OTHERWISE_KW); ("reference", REFERENCE_KW); ("rem",
  REM_KW); ("state", STATE_KW); ("states", STATES_KW); ("stop", STOP_KW); ("timeout",
  TIMEOUT_KW); ("transitions", TRANSITIONS_KW); ("true", TRUE_KW); ("until", UNTIL_KW);
  ("upper_bound", UPPER_BOUND_KW); ("variables", VARIABLES_KW); ("while", WHILE_KW);
  ("xor", XOR_KW)]%string.

(** crates/spar-annex/src/ba/syntax_kind.rs:244-290 [BaKind::from_keyword] *)
Definition from_keyword (text : bytes) : option BaKind :=
  let lower := string_of_list_ascii (to_ascii_lowercase text) in
  snd <$> List.find (λ row, String.eqb (fst row) lower) keyword_table.

(** crates/spar-annex/src/ba/syntax_kind.rs:233-235 [BaKind::is_trivia] *)
Definition ba_is_trivia (k : BaKind) : bool := kind_eqb k WHITESPACE || kind_eqb k COMMENT.

(** crates/spar-annex/src/ba/syntax_kind.rs:239-241 [BaKind::is_keyword] *)
Definition is_keyword (k : BaKind) : bool :=
  (kind_code ABS_KW <=? kind_code k)%N && (kind_code k <=? kind_code XOR_KW)%N.

#[export] Instance ba : Vocabulary BaKind := {|
  eof := EOF; tombstone := TOMBSTONE; error_kind := ERROR;
  is_trivia := ba_is_trivia; kind_name := ba_kind_name;
  error_not_tombstone := ltac:(discriminate);
|}.

(** ** The lexer of the behaviour annex

    [crates/spar-annex/src/ba/lexer.rs]. *)
(** crates/spar-annex/src/ba/lexer.rs:23-269 [tokenize]: one token. *)
Definition scan_kind (c : Cursor) : Exec (BaKind * Cursor) :=
  let b := current c in
  let one k := Done (k, bump c) in
  let two k := Done (k, bump_n 2 c) in
  let three k := Done (k, bump_n 3 c) in
  if is_whitespace b then c ← scan_blank c; Done (WHITESPACE, c)
  else if (b =?c "-") && byte_at 1 "-" c then c ← scan_line_comment c; Done (COMMENT, c)
  else if (b =?c "-") && byte_at 1 "[" c then two TRANS_OPEN
  else if (b =?c "-") && byte_at 1 ">" c then two ARROW
  else if b =?c "-" then one MINUS
  else if (b =?c "]") && byte_at 1 "-" c && byte_at 2 ">" c then three TRANS_CLOSE
  else if b =?c "]" then one R_BRACK
  else if (b =?c ":") && byte_at 1 "=" c then two COLON_EQ
  else if (b =?c ":") && byte_at 1 ":" c then two COLON_COLON
  else if b =?c ":" then one COLON
  else if (b =?c "=") && byte_at 1 ">" c then two FAT_ARROW
  else if b =?c "=" then one EQ
  else if (b =?c "*") && byte_at 1 "*" c then two STAR_STAR
  else if b =?c "*" then one STAR
  else if (b =?c ".") && byte_at 1 "." c then two DOT_DOT
  else if b =?c "." then one DOT
  else if (b =?c "!") && byte_at 1 "=" c then two BANG_EQ
  else if (b =?c "!") && byte_at 1 "<" c then two BANG_L_ANGLE
  else if (b =?c "!") && byte_at 1 ">" c then two BANG_R_ANGLE
  else if b =?c "!" then one BANG
  else if (b =?c "<") && byte_at 1 "=" c then two L_ANGLE_EQ
  else if b =?c "<" then one L_ANGLE
  else if (b =?c ">") && byte_at 1 ">" c then two R_ANGLE_R_ANGLE
  else if (b =?c ">") && byte_at 1 "=" c then two R_ANGLE_EQ
  else if b =?c ">" then one R_ANGLE
  else if b =?c ";" then one SEMICOLON
  else if b =?c "," then one COMMA
  else if b =?c "{" then one L_CURLY
  else if b =?c "}" then one R_CURLY
  else if b =?c "(" then one L_PAREN
  else if b =?c ")" then one R_PAREN
  else if b =?c "[" then one L_BRACK
  else if b =?c "+" then one PLUS
  else if b =?c "/" then one SLASH
  else if b =?c "&" then one AMP
  else if b =?c "?" then one QUESTION
  else if b =?c "'" then one TICK
  else if b =?c "#" then one HASH
  else if b =?c "034" then c ← scan_quoted c; Done (STRING_LIT, c)
  else if is_digit b then
    '(real, c) ← scan_annex_number c; Done (if (real : bool) then REAL_LIT else INT_LIT, c)
  else if is_ident_start b then
    '(text, c) ← scan_annex_word c;
    Done (match from_keyword text with Some k => k | None => IDENT end, c)
  else one ERROR.

(** crates/spar-annex/src/ba/lexer.rs:13-275 [tokenize] *)
Definition tokenize (source : bytes) : Exec (list (BaKind * usize)) :=
  annex_tokenize scan_kind source.
