(* ===== verification/AnnexLexerSpec.v ===== *)
(** * The annex lexers lose nothing

    On a text in which every token starts at an ASCII byte (the characters
    the lexers do not know are all inside comments and strings) the tokens
    are whole characters and concatenate to the text. *)
From S2P Require Import Prelude.
From S2P Require Export TreeBuilder.
From S2P Require Export Cursor.
From S2P Require Export AnnexLexer.
#[local] Open Scope nat_scope.

(** ** The classes of more than one byte *)

Lemma byte_is_ascii n p c :
  ascii_pred p → byte_is n p c = true → ∃ b, input c !! (pos c + n) = Some b ∧ (byte_code b < 128)%N.
Proof.
  unfold byte_is. intros Hp H. destruct (input c !! (pos c + n)) as [b|]; [|done].
  exists b. split; [done|]. by apply Hp.
Qed.

Lemma byte_at_ascii n d c :
  (byte_code d < 128)%N → byte_at n d c = true →
  ∃ b, input c !! (pos c + n) = Some b ∧ (byte_code b < 128)%N.
Proof. intros Hd. apply byte_is_ascii. intros b Hb. by eapply eqc_ascii. Qed.

(** The next byte is ASCII, so [bump] stays between characters. *)
Lemma Adv_bump_byte c b :
  Sound c → input c !! (pos c + 0) = Some b → (byte_code b < 128)%N → Adv c (bump c).
Proof.
  intros Hs Hb Ha. rewrite Nat.add_0_r in Hb. apply Adv_bump; [done| |].
  - apply is_eof_false_lt. by eapply lookup_lt_Some.
  - unfold current. by rewrite Hb.
Qed.

Lemma Adv_bytes n c :
  Sound c → (∀ i, i < n → ∃ b, input c !! (pos c + i) = Some b ∧ (byte_code b < 128)%N) →
  Adv c (bump_n n c).
Proof.
  intros Hs Hn. apply Adv_ascii_run; simpl; [done..| |].
  - destruct n as [|n]; [destruct Hs; lia|]. destruct (Hn n) as (b & Hl%lookup_lt_Some & _); lia.
  - intros i b Hi Hl. destruct (Hn (i - pos c)) as (b' & Hl' & Ha); [lia|].
    replace (pos c + (i - pos c)) with i in Hl' by lia. congruence.
Qed.

Lemma current_byte c d :
  is_eof c = false → (current c =?c d) = true → (byte_code d < 128)%N →
  ∃ b, input c !! (pos c + 0) = Some b ∧ (byte_code b < 128)%N.
Proof.
  intros He Hc Hd. apply is_eof_false_lt in He. destruct (lookup_lt_is_Some_2 _ _ He) as [b Hb].
  exists b. rewrite Nat.add_0_r. split; [done|]. unfold current in Hc. rewrite Hb in Hc.
  by eapply eqc_ascii.
Qed.

Lemma Scans1_bump_while p c b :
  ascii_pred p → Sound c → input c !! (pos c + 0) = Some b → (byte_code b < 128)%N →
  Scans1 (scan_while p (bump c)) (bump c).
Proof. intros Hp Hs Hb Ha. apply Scans1_while; [done|]. by eapply Adv_bump_byte. Qed.

Lemma Scans_annex_exponent c :
  Sound c → byte_at 0 "e" c || byte_at 0 "E" c = true →
  Scans (c ← scan_annex_exponent c; Done (true, c)) c.
Proof.
  intros Hs He. assert (∃ b, input c !! (pos c + 0) = Some b ∧ (byte_code b < 128)%N) as (b & Hb & Ha).
  { apply orb_true_iff in He as [He|He]; (eapply byte_at_ascii; [|exact He]; done). }
  pose proof (Adv_bump_byte _ _ Hs Hb Ha) as H1. eapply Scans_step; [exact H1|].
  apply Scans_bind; [|intros; eauto with spar]. unfold scan_annex_exponent. cbv zeta.
  assert (Adv (bump c) (if byte_at 0 "+" (bump c) || byte_at 0 "-" (bump c) then bump (bump c) else bump c)) as H2.
  { case_match eqn:E; [|by apply Adv_refl, H1].
    assert (∃ b, input (bump c) !! (pos (bump c) + 0) = Some b ∧ (byte_code b < 128)%N) as (b' & Hb' & Ha').
    { apply orb_true_iff in E as [E|E]; (eapply byte_at_ascii; [|exact E]; done). }
    by eapply Adv_bump_byte; [apply H1|..]. }
  eapply Scans1_step; [exact H2|]. apply Scans1_while; [exact is_digit_ascii|apply H2].
Qed.

Lemma Scans_annex_number c :
  Sound c → is_eof c = false → is_digit (current c) = true → Scans (scan_annex_number c) (bump c).
Proof.
  intros Hs He Hd. pose proof (Adv_bump _ Hs He (is_digit_ascii _ Hd)) as H1.
  unfold scan_annex_number. apply Scans_bind; [apply Scans1_while; [exact is_digit_ascii|apply H1]|].
  intros c1 A1. assert (Hopt : Scans (if byte_at 0 "." c1 && byte_is 1 is_digit c1 then
      c ← scan_while is_digit (bump c1); Done (true, c) else Done (false, c1)) c1).
  { case_match eqn:E; [|eauto with spar]. apply andb_prop in E as [E _].
    destruct (byte_at_ascii 0 "." c1) as (b & Hb & Ha); [done|done|].
    eapply Scans_step; [eapply Adv_bump_byte; [apply A1|exact Hb|exact Ha]|].
    apply Scans_bind; [eapply Scans1_bump_while; [exact is_digit_ascii|apply A1|exact Hb|exact Ha]|].
    intros; eauto with spar. }
  destruct Hopt as (r & c2 & -> & A2). cbn [mbind Exec_bind].
  eapply Scans_step; [exact A2|]. case_match eqn:E; [|apply Scans_done, A2].
  apply Scans_annex_exponent; [apply A2|done].
Qed.

Lemma Tok_annex_number {K} (f : bool → K) c :
  Sound c → is_eof c = false → is_digit (current c) = true →
  Tok ('(real, c) ← scan_annex_number c; Done (f real, c)) c.
Proof.
  intros Hs He Hd. apply Tok_Scans; [by apply Adv_bump; [..|apply is_digit_ascii]|].
  destruct (Scans_annex_number c Hs He Hd) as (r & c1 & -> & H1). by exists (f r), c1.
Qed.

Lemma Tok_annex_word {K} (f : bytes → K) c :
  Sound c → is_eof c = false → is_ident_start (current c) = true →
  Tok ('(text, c) ← scan_annex_word c; Done (f text, c)) c.
Proof.
  intros Hs He Hi. pose proof (Adv_bump _ Hs He (is_ident_start_ascii _ Hi)) as H1.
  apply Tok_Scans; [done|]. unfold scan_annex_word.
  destruct (scan_while_ascii is_ident_continue (bump c)) as (c1 & -> & A1 & _);
    [exact is_ident_continue_ascii|apply H1|]. cbn [mbind Exec_bind].
  destruct (Adv_trans _ _ _ H1 A1) as [Hin Hp [Hp1 Hu1]]. unfold rest in Hu1.
  rewrite slice_utf8; [|lia|done|by rewrite Hin; apply Hs|done]. cbn [mbind Exec_bind].
  by eexists _, c1.
Qed.

Lemma Tok_blank {K} (k : K) c :
  Sound c → is_eof c = false → is_whitespace (current c) = true → Tok (c ← scan_blank c; Done (k, c)) c.
Proof.
  intros Hs He Hw. pose proof (Adv_bump _ Hs He (is_whitespace_ascii _ Hw)) as H1.
  apply Tok_Scans; [done|]. apply Scans_bind; [|intros; eauto with spar].
  apply Scans1_while; [exact is_whitespace_ascii|apply H1].
Qed.

Lemma Tok_line_comment {K} (k : K) c :
  Sound c → is_eof c = false → (current c =?c "-") && byte_at 1 "-" c = true →
  Tok (c ← scan_line_comment c; Done (k, c)) c.
Proof.
  intros Hs He [H0 H1]%andb_prop.
  assert (Adv c (bump_n 2 c)) as H2.
  { apply Adv_bytes; [done|]. intros [|[|i]] ?; [|by eapply byte_at_ascii; [|exact H1]|lia].
    by eapply current_byte. }
  unfold scan_line_comment. destruct (scan_until_ascii "010" (bump_n 2 c)) as (c' & -> & H3);
    [done|by apply H2|]. simpl.
  exists k, c'. split_and!; [done|by eapply Adv_trans|]. destruct H3; simpl in *. lia.
Qed.

Lemma Tok_quoted {K} (k : K) c :
  Sound c → is_eof c = false → (current c =?c "034") = true → Tok (c ← scan_quoted c; Done (k, c)) c.
Proof.
  intros Hs He Hq. pose proof (Adv_bump _ Hs He ltac:(by eapply eqc_ascii; [|exact Hq])) as H1.
  apply Tok_Scans; [done|]. unfold scan_quoted.
  destruct (scan_while_spec (λ b, negb (b =?c "034")) (bump c)) as (c' & -> & Hi & Hpos & Hstop & _);
    [by apply H1|]. cbn [mbind Exec_bind]. eexists _, _. split; [done|].
  destruct (is_eof c') eqn:Hc; [by apply Adv_to_end|]. simpl.
  destruct Hstop as [?|Hstop]; [congruence|]. apply negb_false_iff, eqc_true in Hstop.
  apply Adv_before_ascii; [by apply H1|done|lia|done|by rewrite Hstop].
Qed.

Lemma Tok_op {K} (k : K) n c :
  Sound c → (∀ i, i < S n → ∃ b, input c !! (pos c + i) = Some b ∧ (byte_code b < 128)%N) →
  Tok (Done (k, bump_n (S n) c)) c.
Proof. intros Hs Hn. apply Tok_n. by apply Adv_bytes. Qed.

(** A single ASCII byte. *)
Lemma Tok_current {K} (k : K) c :
  Sound c → is_eof c = false → (byte_code (current c) < 128)%N → Tok (Done (k, bump c)) c.
Proof.
  intros Hs He Ha.
  apply (Tok_op _ 0); [done|]. intros [|i] ?; [|lia].
  apply is_eof_false_lt in He. destruct (lookup_lt_is_Some_2 _ _ He) as [b Hb].
  exists b. rewrite Nat.add_0_r. split; [done|]. unfold current in Ha. by rewrite Hb in Ha.
Qed.

Ltac annex_op n :=
  apply (Tok_op _ n); [done|];
  intros [|[|[|i]]] ?; repeat match goal with H : _ && _ = true |- _ => apply andb_prop in H as [? ?] end;
  first [lia | eapply current_byte; [done|eassumption|done] | eapply byte_at_ascii; [|eassumption]; done].

(** The operators, as [scan_operators] does for the AADL lexer. *)
Ltac annex_operators :=
  repeat match goal with
  | |- Tok (if ?g && ?h && ?i then Done _ else _) _ => destruct (g && h && i) eqn:?; [annex_op 2|]
  | |- Tok (if ?g && ?h then Done _ else _) _ => destruct (g && h) eqn:?; [annex_op 1|]
  | |- Tok (if ?g then Done _ else _) _ => destruct g eqn:?; [annex_op 0|]
  | |- Tok (if ?g then c ← scan_blank _; _ else _) _ => destruct g eqn:?; [by apply Tok_blank|]
  | |- Tok (if ?g then c ← scan_line_comment _; _ else _) _ => destruct g eqn:?; [by apply Tok_line_comment|]
  | |- Tok (if ?g then c ← scan_quoted _; _ else _) _ => destruct g eqn:?; [by apply Tok_quoted|]
  end.

(** ** The loop *)

(** Every token of the text starts at an ASCII byte. *)
Definition ascii_starts {K} (tokenize : bytes → Exec (list (K * usize))) (s : bytes) : bool :=
  match tokenize s with
  | Done tokens =>
      forallb (λ i, match s !! i with Some b => is_ascii b | None => true end) (starts_from 0 tokens)
  | _ => false
  end.

Section tokens.
Context {K : Type} {HD : Discriminant K} {V : Vocabulary K} (scan_kind : Cursor → Exec (K * Cursor)).
Context (scan_ok : ∀ c, Sound c → is_eof c = false → (byte_code (current c) < 128)%N → Tok (scan_kind c) c).
Context (scan_not_eof : ∀ c, Emits (λ k, k ≠ eof) (scan_kind c)).

Definition at_ascii (s : bytes) (i : nat) : Prop := ∀ b, s !! i = Some b → (byte_code b < 128)%N.

Lemma annex_loop_tokens n c acc res :
  annex_loop scan_kind n c acc = Done res →
  ∃ ts, res = acc ++ ts ∧
    (Sound c → Forall (at_ascii (input c)) (starts_from (pos c) ts) →
     ∃ texts, ts = lengths texts ∧ List.concat (map snd texts) = rest c ∧
       Forall (λ t, snd t ≠ [] ∧ utf8 (snd t)) texts ∧ Forall (λ t, fst t ≠ eof) texts).
Proof.
  revert c acc. induction n as [|n IH]; intros c acc E; [done|]. cbn [annex_loop] in E.
  destruct (is_eof c) eqn:He; cbn [negb] in E.
  { injection E as <-. exists []. split; [by rewrite app_nil_r|]. intros Hs _. exists [].
    split_and!; [done|symmetry; by apply rest_nil; [apply Hs|]|constructor..]. }
  apply Exec_bind_Done in E as ([k c'] & Ek & E). destruct (IH _ _ E) as (ts & -> & Hts).
  exists ((k, pos c' - pos c) :: ts). split; [by rewrite <- app_assoc|]. intros Hs Hf.
  apply Forall_cons in Hf as [Ha Hf].
  assert (Hcur : (byte_code (current c) < 128)%N).
  { apply is_eof_false_lt in He. destruct (lookup_lt_is_Some_2 _ _ He) as [b Hb].
    unfold current. rewrite Hb. by apply Ha. }
  destruct (scan_ok c Hs He Hcur) as (k2 & c2 & E2 & HA & Hlt).
  rewrite Ek in E2. injection E2 as <- <-.
  replace (pos c + (pos c' - pos c)) with (pos c') in Hf by lia.
  rewrite <- (adv_input _ _ HA) in Hf.
  destruct (Hts (adv_sound _ _ HA) Hf) as (texts & -> & Hc & Hok & Hk).
  assert (Hr : rest c' = drop (pos c' - pos c) (rest c)).
  { unfold rest. rewrite drop_drop, (adv_input _ _ HA). f_equal. lia. }
  assert (Hlen : length (take (pos c' - pos c) (rest c)) = pos c' - pos c).
  { rewrite length_take. unfold rest. rewrite length_drop.
    destruct HA as [Hi _ [Hp _]]. rewrite Hi in Hp. lia. }
  exists ((k, take (pos c' - pos c) (rest c)) :: texts). split_and!.
  - unfold lengths. simpl. by rewrite Hlen.
  - simpl. by rewrite Hc, Hr, take_drop.
  - constructor; [|done]. simpl. split; [intros Hn; rewrite Hn in Hlen; simpl in Hlen; lia|].
    apply (utf8_prefix _ (rest c')); [|apply HA]. rewrite Hr, take_drop. apply Hs.
  - constructor; [|done]. by eapply scan_not_eof.
Qed.

Lemma annex_tokens s :
  utf8 s → ascii_starts (annex_tokenize scan_kind) s = true →
  ∃ texts, annex_tokenize scan_kind s = Done (lengths texts) ∧ List.concat (map snd texts) = s ∧
    Forall (λ t, snd t ≠ [] ∧ utf8 (snd t)) texts ∧ Forall (λ t, fst t ≠ eof) texts.
Proof.
  unfold ascii_starts. intros Hs Ha. destruct (annex_tokenize scan_kind s) as [tokens| |] eqn:E; [|done..].
  destruct (annex_loop_tokens _ _ _ _ E) as (ts & -> & H). rewrite app_nil_l in *.
  destruct (H (Sound_new s Hs)) as (texts & -> & Hc & Hok & Hk).
  { apply Forall_forall. intros i Hi b Hb. rewrite forallb_forall in Ha.
    specialize (Ha i ltac:(by apply list_elem_of_In)). simpl in Hb. rewrite Hb in Ha.
    by apply N.ltb_lt in Ha. }
  exists texts. split_and!; [done| |done|done]. rewrite Hc. unfold rest. simpl. by rewrite drop_0.
Qed.
End tokens.
