(* ===== verification/AnnexParser.v ===== *)
(** * The annex parsers

    The event parser as the annexes have it
    ([crates/spar-annex/src/{emv2,ba}/parser.rs]): the operations of [Parser]
    with an error recovery that skips one token. *)
From S2P Require Import Prelude.
From S2P Require Export Parser.

Section parser.
Context {K : Type} {HD : Discriminant K} {V : Vocabulary K}.

(** crates/spar-annex/src/emv2/parser.rs:225-234 [Parser::err_and_bump] *)
Definition err_and_bump (msg : string) : M K unit :=
  IF at_end THEN error msg
  ELSE
    m ← start;
    error msg ;;
    bump_any ;;
    complete m error_kind ;; mret tt.
End parser.
