(* ===== verification/AnnexGrammarTactics.v ===== *)
(** * The annex error recovery

    The specification of the error recovery of the annex parsers, for the
    automation of [GrammarTactics]. *)
From S2P Require Import Prelude.
From S2P Require Export GrammarTactics.
From S2P Require Export AnnexParser.
#[local] Open Scope nat_scope.

Section specs.
Context {K : Type} {HD : Discriminant K} {V : Vocabulary K} {TS : TokenStream K}.

#[export] Instance annex_err_and_bump_adds msg : Adds (err_and_bump msg) 3 1.
Proof. begin. unfold err_and_bump. steps. Qed.
#[export] Instance annex_err_and_bump_eats msg :
  Eats (err_and_bump msg) (λ r, match r with [] => false | _ => true end) 3 20.
Proof.
  begin. unfold err_and_bump. destruct r as [|k r]; [done|]. steps.
Qed.
End specs.
