(* ===== verification/Stalls.v ===== *)
(** * Loops that may not advance

    Some loops of the annex grammars call a function that may leave the next
    token where it is.  [Decides f S] says that the next token decides: [f]
    consumes it or something after it if [S] holds of it, and leaves all
    tokens otherwise.  A loop over such a function returns, or it comes to a
    token that it never leaves: it does not return, whatever the fuel. *)
From S2P Require Import Prelude.
From S2P Require Export AnnexGrammarTactics.
#[local] Open Scope nat_scope.

Section rules.
Context {K : Type} {HD : Discriminant K} {V : Vocabulary K} {TS : TokenStream K}.

(** The tokens are left as they are. *)
Definition Stays {A} (fs : list Frame) (r : list K) (c0 : nat) : Post A :=
  λ _ fs' r' c', fs' = fs ∧ r' = r ∧ c0 ≤ c'.

(** ** One step, whether or not it consumes a token *)

Lemma kind_eqb_false (k1 k2 : K) : k1 ≠ k2 → kind_eqb k1 k2 = false.
Proof. by destruct (kind_eqb_spec k1 k2). Qed.

Lemma run_eat_cases k fs r c Φ :
  extensible fs → k ≠ eof →
  (∀ r', r = k :: r' → Φ true fs r' (c + 63)) →
  (kind_eqb (knth 0 r) k = false → Φ false fs r c) → run fs r c (eat k) Φ.
Proof. intros Hx He H1 H2. apply run_eat; [done..|]. intros Hk. by apply H2, kind_eqb_false. Qed.

Lemma run_expect_cases k fs r c Φ :
  extensible fs → k ≠ eof → 1 ≤ c →
  (∀ r', r = k :: r' → Φ true fs r' (c + 63)) →
  (kind_eqb (knth 0 r) k = false → Φ false fs r (c - 1)) → run fs r c (expect k) Φ.
Proof.
  intros Hx He Hc H1 H2. apply run_bind, run_eat_cases; [done|done| |].
  - intros r' ->. apply run_ret. by apply H1.
  - intros Hk. apply run_bind, run_error; [done|done|]. apply run_ret. by apply H2.
Qed.

(** A loop is entered, and then leaves room, or it is not. *)
Lemma run_while_cases f h `{!Sem f h} body fs r c Φ :
  (∀ r1 c1, length r1 ≤ length r → c ≤ c1 → h r1 = true → run fs r1 c1 body (Moves fs r1 (c1 + 30))) →
  (h r = true → ∀ r', length r' < length r → Φ tt fs r' (c + 30)) →
  (h r = false → Φ tt fs r c) →
  run fs r c (while f body) Φ.
Proof.
  intros Hbody H1 H2 p Hp. unfold while, iter. rewrite (St_remaining _ _ _ _ Hp). cbn [iter_fuel].
  revert p Hp. change (run fs r c (o ← cond f (body ;; mret (inl tt)) (mret (inr tt));
    match o with
    | inl a' => iter_fuel (length r) (λ _, cond f (body ;; mret (inl tt)) (mret (inr tt))) a'
    | inr b => mret b
    end) Φ).
  apply run_bind, (run_cond f h); intros Hh; [|apply run_ret, run_ret; by apply H2].
  apply run_bind, (run_joinm (c + 30)); [by apply Hbody|]. intros [] r1 Hr1.
  apply run_ret, (run_iter_fuel (λ _ fs' r', fs' = fs ∧ length r' ≤ length r1) (λ _ r, length r)); [|done|done].
  intros [] fs2 r2 [-> Hr2]. apply (run_cond f h); intros E.
  - apply run_bind. eapply run_conseq; [apply Hbody; [lia|lia|done]|].
    intros [] fs' r' c' (-> & Hl & Hc). apply run_ret. split_and!; [lia|done|lia|done].
  - apply run_ret. split; [done|]. apply H1; [done|lia].
Qed.

Lemma run_while_eat_cases k body fs r c Φ :
  extensible fs → k ≠ eof →
  (∀ r1 c1, length r1 ≤ length r → c ≤ c1 → run fs r1 (c1 + 63) body (Keeps fs r1 (c1 + 40))) →
  (∀ r0, r = k :: r0 → ∀ r', length r' < length r → Φ tt fs r' (c + 40)) →
  (kind_eqb (knth 0 r) k = false → Φ tt fs r c) →
  run fs r c (while_eat k body) Φ.
Proof.
  intros Hx He Hbody H1 H2.
  destruct (kind_eqb_spec (knth 0 r) k) as [Hk|Hk]; [|by apply run_while_eat_none; [..|apply H2]].
  destruct (knth_head _ _ Hk He) as [r0 ->]. clear H2.
  intros p Hp. unfold while_eat, iter. rewrite (St_remaining _ _ _ _ Hp). cbn [iter_fuel].
  set (step := λ _ : unit, b ← eat k; if (b : bool) then body ;; mret (inl tt) else mret (inr tt)).
  revert p Hp. change (run fs (k :: r0) c (o ← step tt;
    match o with inl a' => iter_fuel (S (length r0)) step a' | inr b => mret b end) Φ).
  apply run_bind. unfold step at 1. apply run_bind, run_eat; [done|done| |by intros []].
  intros r1 [= <-]. apply run_bind, (run_join (c + 40)); [apply Hbody; simpl; lia|]. intros [] r1 Hr1.
  apply run_ret, (run_iter_fuel (λ _ fs' r', fs' = fs ∧ length r' ≤ length r0) (λ _ r, length r)); [|done|lia].
  intros [] fs2 r2 [-> Hr2]. unfold step. apply run_bind, run_eat; [done|done| |].
  - intros r3 ->. apply run_bind. eapply run_conseq; [apply (Hbody r3 (c + 40)); simpl in *; lia|].
    intros [] fs' r' c' (-> & Hl & Hc). apply run_ret. simpl in *. split_and!; [lia|done|lia|lia].
  - intros _. apply run_ret. split; [done|]. eapply H1; [done|]. simpl. lia.
Qed.

(** ** Functions decided by the next token *)
Class Decides {A} (f : M K A) (S : K → bool) (N pk b g : nat) : Prop := decides fs r c :
  extensible fs → length r < N → pk ≤ c →
  run fs r c f (if S (knth 0 r) then Moves fs r (c + g) else Stays fs r (c - b)).

Lemma run_decides {A} (f : M K A) S N pk b g `{!Decides f S N pk b g} fs r c Φ :
  extensible fs → length r < N → pk ≤ c →
  (S (knth 0 r) = true → ∀ v r', length r' < length r → Φ v fs r' (c + g)) →
  (S (knth 0 r) = false → ∀ v, Φ v fs r (c - b)) → run fs r c f Φ.
Proof.
  intros Hx Hn Hc H1 H2. pose proof (decides (f := f) fs r c Hx Hn Hc) as H.
  destruct (S (knth 0 r)); [by eapply run_joinm; [exact H|auto]|].
  intros p Hp. destruct (H p Hp) as [(v & p' & fs' & r' & c' & E & Hp' & -> & -> & Hc')|?]; [left|by right].
  exists v, p', fs, r, (c - b). split_and!; [done|by eapply St_weaken|auto].
Qed.

Lemma decides_adds {A} (f : M K A) S pk b g : (∀ N, Decides f S N pk b g) → Adds f pk b.
Proof.
  intros H fs r c Hx Hc. pose proof (H _ fs r c Hx (Nat.lt_succ_diag_r _) Hc) as Hr.
  destruct (S (knth 0 r)); (eapply run_conseq; [exact Hr|]); intros ? ? ? ? (-> & H1 & ?);
    split_and!; [done|lia|lia|done|by rewrite H1|lia].
Qed.

Lemma decides_eats {A} (f : M K A) S pk b g :
  (∀ N, Decides f S N pk b g) → Eats f (λ r, S (knth 0 r)) pk g.
Proof.
  intros H fs r c Hx Hh Hc. pose proof (H _ fs r c Hx (Nat.lt_succ_diag_r _) Hc) as Hr. by rewrite Hh in Hr.
Qed.

Lemma decides_addsl {A} (f : M K A) S N pk b g : Decides f S N pk b g → AddsL f N pk b.
Proof.
  intros H fs r c Hx Hn Hc. pose proof (H fs r c Hx Hn Hc) as Hr.
  destruct (S (knth 0 r)); (eapply run_conseq; [exact Hr|]); intros ? ? ? ? (-> & H1 & ?);
    split_and!; [done|lia|lia|done|by rewrite H1|lia].
Qed.

Lemma decides_fuel {A} (f : nat → M K A) S N pk b g :
  (∀ n, Decides (f n) S n pk b g) → Decides (λ p, f (Datatypes.S (remaining p)) p) S N pk b g.
Proof.
  intros H fs r c Hx _ Hc p Hp. rewrite (St_remaining _ _ _ _ Hp).
  exact (H _ fs r c Hx (Nat.lt_succ_diag_r _) Hc p Hp).
Qed.

(** ** The loops *)

(** Whatever the number of iterations, as long as 32-bit positions can
    address the events, the loop has not returned. *)
Lemma while_stalls f h `{!Sem f h} (body : M K unit) fs r b :
  h r = true → (∀ c, b ≤ c → run fs r c body (Stays fs r (c - b))) →
  ∀ n c p, n * b ≤ c → St fs r c p →
  iter_fuel n (λ _, cond f (body ;; mret (inl tt)) (mret (inr tt))) tt p = Stuck (A := unit * Parser K).
Proof.
  intros Hh Hbody n. induction n as [|n IH]; intros c p Hc Hp; [done|]. cbn [iter_fuel].
  unfold mbind, M_bind, cond. rewrite (@sem _ _ _ _ f h _ _ _ _ _ Hp), Hh.
  destruct (Hbody c ltac:(lia) p Hp) as [([] & p' & fs' & r' & c' & -> & Hp' & -> & -> & Hc')|[_ ->]]; [|done].
  apply (IH (c - b)); [lia|]. by eapply St_weaken.
Qed.
End rules.

Section stalls.
Context {K : Type} {HD : Discriminant K} {V : Vocabulary K} {TS : TokenStream K}.

(** What is left to read is in the input. *)
Lemma run_present {A} k (m : M K A) fs r c Φ :
  k ∈ r → (k ∈ kinds_of in_tokens → run fs r c m Φ) → run fs r c m Φ.
Proof.
  intros Hk H p Hp. apply H; [|done]. rewrite <- (st_toks _ _ _ _ Hp). apply elem_of_app. by right.
Qed.

(** The same stream with room for 64 more events per token. *)
Definition roomier (Hs : may_stall) : TokenStream K :=
  {| in_tokens := in_tokens; in_src := in_src; room := room + 64 * S (length (kinds_of in_tokens));
     in_ok := in_ok; room_bound := stall_room Hs; may_stall := False;
     stall_room := False_ind _ |}.

Lemma St_roomier Hs fs r c p :
  St fs r c p → St (TS := roomier Hs) fs r (c + 64 * S (length (kinds_of in_tokens))) p.
Proof. intros []. constructor; try done. change (@room _ _ _ (roomier Hs)) with
  (room + 64 * S (length (kinds_of in_tokens))). lia. Qed.

(** A loop whose body is decided by the next token: it returns, or it
    stalls. *)
Section loop.
Context (f : Parser K → bool) (h : list K → bool) (body : M K unit) (S : K → bool) (pk b g : nat).
Context (Hs : may_stall) (Hf : ∀ TS : TokenStream K, Sem f h).
Context (Hbody : ∀ (TS : TokenStream K) N, Decides body S N pk b g) (Hpb : pk ≤ b) (Hb : b ≤ 64).

Lemma run_while_fuel_stalls n fs r c Φ :
  extensible fs → pk ≤ c → length r < n → n ≤ Datatypes.S (length (kinds_of in_tokens)) →
  (∀ r', length r' ≤ length r → h r' = false → Φ tt fs r' c) →
  run fs r c (iter_fuel n (λ _, cond f (body ;; mret (inl tt)) (mret (inr tt))) tt) Φ.
Proof.
  intros Hx Hpk. revert r. induction n as [|n IH]; intros r Hlt Hn HΦ; [lia|].
  destruct (h r) eqn:Hh; [destruct (S (knth 0 r)) eqn:HS|].
  - cbn [iter_fuel]. apply run_bind, (run_cond f h); [intros _|congruence]. apply run_bind.
    pose proof (Hbody TS _ fs r c Hx (Nat.lt_succ_diag_r _) Hpk) as H. rewrite HS in H.
    apply run_joinm with (c0 := c); [eapply run_conseq; [exact H|]|].
    { intros ? ? ? ? (-> & ? & ?). split_and!; [done|done|lia]. }
    intros [] r' Hr'. apply run_ret, IH; [lia|lia|]. intros r2 Hr2. apply HΦ. lia.
  - intros p Hp. right. split; [done|].
    eapply (while_stalls (TS := roomier Hs) f h body fs r b Hh);
      [|..|by apply St_roomier]; [|nia].
    intros c1 Hc1. pose proof (Hbody (roomier Hs) _ fs r c1 Hx (Nat.lt_succ_diag_r _)) as H.
    rewrite HS in H. apply H. lia.
  - cbn [iter_fuel]. apply run_bind, (run_cond f h); [congruence|intros _]. apply run_ret, run_ret.
    by apply HΦ.
Qed.

Lemma run_while_stalls fs r c Φ :
  extensible fs → pk ≤ c →
  (∀ r', length r' ≤ length r → h r' = false → Φ tt fs r' c) →
  run fs r c (while f body) Φ.
Proof.
  intros Hx Hpk HΦ p Hp. unfold while, iter. rewrite (St_remaining _ _ _ _ Hp).
  apply (run_while_fuel_stalls _ fs r c); [done|done|lia| |done|done].
  pose proof (st_pos _ _ _ _ Hp). lia.
Qed.
End loop.
End stalls.

(** ** Automation

    [advance f] proves a [Decides]: at each statement the token is consumed,
    and the rest of the function is run as usual, or it is not, and this is
    recorded. *)
Ltac dead :=
  exfalso; autounfold with tests in *; cbn [existsb] in *;
  repeat match goal with
  | H : context [knth 0 (?k :: ?r)] |- _ => change (knth 0 (k :: r)) with k in H
  end;
  facts; use_bools;
  first [ congruence
        | match goal with H : _ = _ :> bool |- _ => vm_compute in H; discriminate H end ].

Ltac consumed :=
  cbn [length] in *;
  lazymatch goal with
  | |- context [@Stays] => try solve [dead]
  | _ => try solve [steps]
  end.

Ltac adv_step :=
  lazymatch goal with
  | |- run ?fs ?r ?c ?m ?Φ =>
      lazymatch m with
      | mret _ => apply run_ret
      | _ ≫= _ => apply run_bind
      | start => apply run_start; [ext | lia | intros ?]
      | error _ => apply run_error; [ext | lia |]
      | complete _ _ => apply run_complete; [ext | lia | discriminate | intros ?]
      | abandon _ => apply run_abandon; [ext |]
      | expect _ => apply run_expect_cases; [ext | discriminate | lia | intros ? ->; consumed | intros ?]
      | eat _ => apply run_eat_cases; [ext | discriminate | intros ? ->; cbv beta iota; consumed | intros ?]
      | while_eat _ _ =>
          apply run_while_eat_cases;
          [ext | discriminate | intros ? ? ? ?; solve [steps] | intros ? -> ? ?; consumed | intros ?]
      | while _ _ =>
          eapply run_while_cases;
          [once (typeclasses eauto) | intros ? ? ? ? ?; cbv beta in *; facts; solve [steps]
          | intros ? ? ?; cbv beta in *; facts; consumed | intros ?; cbv beta in *; facts]
      | cond _ _ _ => branch
      | when _ _ => unfold when at 1; branch
      | bump _ => apply run_bump; [ext | is_kind | discriminate | intros ? ->; consumed]
      | bump_any => apply run_bump_any; [ext | nonempty | intros ? ? ->; consumed]
      | _ =>
          first
            [ solve [dead]
            | eapply run_decides;
              [once (typeclasses eauto) | ext | first [eassumption | cbn [length] in *; lia] | lia
              | intros ? ? ? ?; consumed | intros ? ?; try solve [dead]]
            | solve [steps] ]
      end
  | |- Moves _ _ _ _ _ _ _ => first [fin | dead]
  | |- Stays _ _ _ _ _ _ _ => first [unfold Stays; split_and!; [reflexivity | reflexivity | lia] | dead]
  end; cbv beta iota.

Ltac advance_body :=
  cbv beta;
  lazymatch goal with |- context [if ?S then _ else _] => destruct S eqn:? end;
  repeat adv_step.
Tactic Notation "advance" reference(f) :=
  intros fs r c Hx Hn Hc; unfold f; advance_body.
Tactic Notation "advance" reference(f) reference(g) :=
  intros fs r c Hx Hn Hc; unfold f, g; advance_body.
Tactic Notation "advance" reference(f) reference(g) reference(h) :=
  intros fs r c Hx Hn Hc; unfold f, g, h; advance_body.
