(* ===== verification/AnnexParsing.v ===== *)
(** * Parsing an annex

    The composition of [parse] of [crates/spar-annex/src/{emv2,ba}/mod.rs]:
    the lexer, the grammar and the tree builder (the copy of
    [crates/spar-syntax/src/parsing.rs] that [TreeBuilder] models), over the
    kinds of any annex, and the theorem both annexes share. *)
From S2P Require Import Prelude.
From S2P Require Export AnnexLexerSpec.
From S2P Require Export AnnexGrammarTactics.
From S2P Require Export TreeLossless.
#[local] Open Scope nat_scope.

Section parse.
Context {K : Type} {HD : Discriminant K} {V : Vocabulary K} {G : GreenNodeBuilder K}.
Context (scan_kind : Cursor → Exec (K * Cursor)) (grammar : M K unit).

(** crates/spar-annex/src/emv2/mod.rs:114-120 [parse] *)
Definition annex_parse (source : bytes) : Exec (Parse green_node) :=
  tokens ← annex_tokenize scan_kind source;
  '(_, p) ← grammar (parser_new tokens source);
  build_tree source tokens (finish p).

Context `{!GreenNodeBuilderLaws G}.
Context (scan_ok : ∀ c, Sound c → is_eof c = false → (byte_code (Cursor.current c) < 128)%N → Tok (scan_kind c) c).
Context (scan_not_eof : ∀ c, Emits (λ k, k ≠ eof) (scan_kind c)).

(** The conclusion of a lossless parse under the root [root]. *)
Definition Lossless (root : K) (s : bytes) : Prop :=
  ∃ pr ts texts, annex_parse s = Done pr ∧ tree_of (green pr) = Node root ts ∧
    annex_tokenize scan_kind s = Done (lengths texts) ∧ leaves (Node root ts) = texts ∧
    tree_text (tree_of (green pr)) = s ∧ Forall (λ e, offset e ≤ length s) (errors pr).

(** The kinds of the tokens that are not trivia. *)
Definition token_kinds (s : bytes) : list K :=
  match annex_tokenize scan_kind s with Done tokens => kinds_of tokens | _ => [] end.

Lemma annex_parse_lossless stalls Q root s :
  TotalUnless stalls Q grammar root → root ≠ tombstone →
  utf8 s → ascii_starts (annex_tokenize scan_kind) s = true →
  (128 * (N.of_nat (length s) + 1) ≤ U32_MAX)%N →
  Lossless root s ∨ (stalls (token_kinds s) ∧ annex_parse s = Stuck).
Proof.
  intros Hg Hroot Hs Ha Hl.
  destruct (annex_tokens scan_kind scan_ok scan_not_eof s Hs Ha) as (texts & Etok & Esrc & Hok & Heof).
  unfold token_kinds, Lossless, annex_parse. rewrite Etok. cbn [mbind Exec_bind].
  assert (Htok : tokens_ok (lengths texts) s) by (rewrite <- Esrc; by apply tokens_ok_lex).
  assert (Hroom : (N.of_nat (parse_room (lengths texts)) ≤ 64 * (N.of_nat (length s) + 1))%N).
  { pose proof (kinds_of_length texts). pose proof (texts_length texts Hok) as Hlen.
    rewrite Esrc in Hlen. unfold parse_room. lia. }
  destruct (Hg (lengths texts) s Htok) as [(p & inner & r & Ep & Ef & _ & Hb & Ht & _)|[Hst Ep]];
    [lia|intros _; lia| |].
  2:{ right. split; [exact Hst|]. by rewrite Ep. }
  left. destruct (builds_tree texts root inner r Hok Hroot Hb Ht) as (pr & ts & Hpr).
  rewrite Esrc in Hpr. destruct Hpr as (Hpr & ?). exists pr, ts, texts. split; [|naive_solver].
  rewrite Ep. cbn [mbind Exec_bind]. by rewrite Ef.
Qed.
End parse.
