(* ===== verification/Emv2Grammar.v ===== *)
(** * The grammar of the error-model annex

    [crates/spar-annex/src/emv2/grammar.rs].  [match p.current() { K => ... }]
    is a chain of [IF at_ K].  Conditions are recursive: each function is
    written over the one it recurses to, and [condition_n] and
    [s_condition_n] close the recursion on fuel. *)
From S2P Require Import Prelude.
From S2P Require Export Emv2Kind.
From S2P Require Export AnnexParser.
#[local] Open Scope string_scope.

Abbreviation Parser := (Parser.Parser Emv2Kind).
Abbreviation M := (Parser.M Emv2Kind).

(** ** Shared helpers *)

(** [p.at(IDENT) || p.current().is_keyword()]. *)
Definition at_word : Parser → bool := (at_ IDENT || cur is_keyword)%P.

(** crates/spar-annex/src/emv2/grammar.rs:680-684 [error_propagation_point]: [while p.eat(DOT) { if p.at(IDENT) || ... { p.bump_any() } }]. *)
Definition dotted : M unit := while_eat DOT (when at_word bump_any).

(** crates/spar-annex/src/emv2/grammar.rs:281-284 [error_behavior_event]: [p.expect(IDENT); while p.eat(COMMA) { p.expect(IDENT); }]. *)
Definition ident_list : M unit :=
  expect IDENT ;;
  while_eat COMMA (expect IDENT ;; mret tt).

(** crates/spar-annex/src/emv2/grammar.rs:1435-1450 [qemref] *)
Definition qemref : M unit :=
  m ← start;
  (IF at_word THEN
     bump_any ;;
     while_eat COLON_COLON (
       IF at_word THEN bump_any ELSE error "expected identifier after `::`")
   ELSE error "expected qualified reference") ;;
  complete m QEMREF ;; mret tt.

(** crates/spar-annex/src/emv2/grammar.rs:1453-1462 [if_condition] *)
Definition if_condition : M unit :=
  m ← start;
  bump IF_KW ;;
  (IF at_ STRING_LIT THEN bump STRING_LIT ELSE when (at_ IDENT) qemref) ;;
  complete m IF_CONDITION ;; mret tt.

(** crates/spar-annex/src/emv2/grammar.rs:1464-1471 [eat_to_semi] *)
Definition eat_to_semi : M unit :=
  while (! at_ SEMICOLON && ! at_end) bump_any ;;
  when (at_ SEMICOLON) (bump SEMICOLON).

(** ** Types *)

(** crates/spar-annex/src/emv2/grammar.rs:181-193 [type_set_element] *)
Definition type_set_element : M unit :=
  m ← start;
  IF at_ NOERROR_KW THEN
    bump NOERROR_KW ;;
    complete m TYPE_SET_ELEMENT ;; mret tt
  ELSE
    qemref ;;
    while_eat STAR qemref ;;
    complete m TYPE_SET_ELEMENT ;; mret tt.

(** crates/spar-annex/src/emv2/grammar.rs:167-178 [type_set_constructor] *)
Definition type_set_constructor : M unit :=
  m ← start;
  expect L_CURLY ;;
  when (! at_ R_CURLY) (
    type_set_element ;;
    while_eat COMMA type_set_element) ;;
  expect R_CURLY ;;
  complete m TYPE_SET_CONSTRUCTOR ;; mret tt.

(** An optional type set. *)
Definition opt_type_set : M unit := when (at_ L_CURLY) type_set_constructor.

(** crates/spar-annex/src/emv2/grammar.rs:126-143 [type_definition] *)
Definition type_definition : M unit :=
  m ← start;
  bump IDENT ;;
  b ← eat COLON;
  (if (b : bool) then
     expect TYPE_KW ;;
     when (at_ EXTENDS_KW) (bump EXTENDS_KW ;; qemref)
   else
     b ← eat RENAMES_KW;
     if (b : bool) then expect TYPE_KW ;; qemref else mret tt) ;;
  expect SEMICOLON ;;
  complete m TYPE_DEFINITION ;; mret tt.

(** crates/spar-annex/src/emv2/grammar.rs:146-162 [type_set_definition] *)
Definition type_set_definition : M unit :=
  m ← start;
  bump IDENT ;;
  b ← eat COLON;
  (if (b : bool) then
     expect TYPE_KW ;;
     expect SET_KW ;;
     type_set_constructor
   else
     b ← eat RENAMES_KW;
     if (b : bool) then expect TYPE_KW ;; expect SET_KW ;; qemref else mret tt) ;;
  expect SEMICOLON ;;
  complete m TYPE_SET_DEFINITION ;; mret tt.

(** crates/spar-annex/src/emv2/grammar.rs:104-123 [type_def_or_set] *)
Definition type_def_or_set : M unit :=
  IF nth_is 1 COLON || nth_is 1 RENAMES_KW THEN
    IF nth_is 2 TYPE_KW && nth_is 3 SET_KW THEN type_set_definition ELSE type_definition
  ELSE err_and_bump "expected type or type set definition".

(** crates/spar-annex/src/emv2/grammar.rs:500-510 [use_types] *)
Definition use_types : M unit :=
  m ← start;
  bump USE_KW ;;
  bump TYPES_KW ;;
  qemref ;;
  while_eat COMMA qemref ;;
  expect SEMICOLON ;;
  complete m USE_TYPES ;; mret tt.

(** crates/spar-annex/src/emv2/grammar.rs:211-216 [error_behavior_sm]: [use transformations Ref;]. *)
Definition use_transformations : M unit :=
  u ← start;
  bump USE_KW ;;
  bump TRANSFORMATIONS_KW ;;
  qemref ;;
  expect SEMICOLON ;;
  complete u USE_TRANSFORMATIONS ;; mret tt.

(** ** Properties *)

(** crates/spar-annex/src/emv2/grammar.rs:1383-1400 [eat_property_value]: [depth] is within the
    number of tokens of zero, so it does not overflow. *)
Definition eat_property_value : M unit :=
  iter (λ depth : Z,
    IF at_end THEN mret (inr tt)
    ELSE IF at_ SEMICOLON && (λ _, Z.eqb depth 0) THEN mret (inr tt)
    ELSE IF at_ APPLIES_KW && (λ _, Z.eqb depth 0) THEN mret (inr tt)
    ELSE IF at_ L_PAREN || at_ L_CURLY || at_ L_BRACK THEN bump_any ;; mret (inl (depth + 1)%Z)
    ELSE IF at_ R_PAREN || at_ R_CURLY || at_ R_BRACK THEN bump_any ;; mret (inl (depth - 1)%Z)
    ELSE bump_any ;; mret (inl depth)) 0%Z.

(** crates/spar-annex/src/emv2/grammar.rs:1403-1430 [emv2_path] *)
Definition emv2_path : M unit :=
  m ← start;
  b ← eat CARET;
  (if (b : bool) then
     when (at_ IDENT) (
       bump IDENT ;;
       while_eat DOT (expect IDENT ;; mret tt)) ;;
     expect AT ;; mret tt
   else mret tt) ;;
  (IF cur is_propagation_kind THEN
     bump_any ;;
     b ← eat DOT;
     if (b : bool) then expect IDENT ;; mret tt else mret tt
   ELSE when (at_ IDENT) (bump IDENT ;; dotted)) ;;
  complete m EMV2_PATH ;; mret tt.

(** crates/spar-annex/src/emv2/grammar.rs:1359-1380 [emv2_property_association] *)
Definition emv2_property_association : M unit :=
  m ← start;
  qemref ;;
  expect FAT_ARROW ;;
  eat_property_value ;;
  when (at_ APPLIES_KW) (
    bump APPLIES_KW ;;
    expect TO_KW ;;
    emv2_path ;;
    while_eat COMMA emv2_path) ;;
  expect SEMICOLON ;;
  complete m EMV2_PROPERTY_ASSOCIATION ;; mret tt.

(** crates/spar-annex/src/emv2/grammar.rs:1349-1356 [emv2_properties_section] *)
Definition emv2_properties_section : M unit :=
  m ← start;
  bump PROPERTIES_KW ;;
  while (at_ IDENT && ! at_ END_KW) emv2_property_association ;;
  complete m EMV2_PROPERTIES_SECTION ;; mret tt.

(** crates/spar-annex/src/emv2/grammar.rs:66-100 [error_types_section] *)
Definition error_types_section : M unit :=
  m ← start;
  bump ERROR_KW ;;
  bump TYPES_KW ;;
  when (at_ USE_KW && nth_is 1 TYPES_KW) use_types ;;
  when (at_ EXTENDS_KW) (
    bump EXTENDS_KW ;;
    qemref ;;
    while_eat COMMA qemref ;;
    expect WITH_KW ;; mret tt) ;;
  while (at_ IDENT) type_def_or_set ;;
  when (at_ PROPERTIES_KW) emv2_properties_section ;;
  expect END_KW ;;
  expect TYPES_KW ;;
  expect SEMICOLON ;;
  complete m ERROR_TYPES_SECTION ;; mret tt.

(** ** Conditions *)
Section conditions.
Context (condition_element condition_expression : M unit).

(** crates/spar-annex/src/emv2/grammar.rs:1166-1171 [condition_term]: [( Condition {, Condition}* )]. *)
Definition conditions : M unit :=
  expect L_PAREN ;;
  condition_expression ;;
  while_eat COMMA condition_expression ;;
  expect R_PAREN ;; mret tt.

(** crates/spar-annex/src/emv2/grammar.rs:1159-1213 [condition_term]: over the element and the recursion. *)
Definition condition_term_with : M unit :=
  IF at_ INT_LIT THEN
    m ← start;
    bump INT_LIT ;;
    IF at_ ORMORE_KW THEN
      bump ORMORE_KW ;;
      conditions ;;
      complete m ORMORE_EXPRESSION ;; mret tt
    ELSE IF at_ ORLESS_KW THEN
      bump ORLESS_KW ;;
      conditions ;;
      complete m ORLESS_EXPRESSION ;; mret tt
    ELSE
      error "expected `ormore` or `orless`" ;;
      complete m ERROR ;; mret tt
  ELSE IF at_ ALL_KW THEN
    m ← start;
    bump ALL_KW ;;
    b ← eat MINUS;
    (if (b : bool) then expect INT_LIT ;; mret tt else mret tt) ;;
    conditions ;;
    complete m ALL_EXPRESSION ;; mret tt
  ELSE IF at_ L_PAREN THEN
    bump L_PAREN ;;
    condition_expression ;;
    expect R_PAREN ;; mret tt
  ELSE condition_element.

(** crates/spar-annex/src/emv2/grammar.rs:1148-1156 [and_expression] *)
Definition and_expression_with : M unit :=
  condition_term_with ;;
  while (at_ AND_KW) (
    m ← start;
    bump AND_KW ;;
    condition_term_with ;;
    complete m AND_EXPRESSION ;; mret tt).

(** crates/spar-annex/src/emv2/grammar.rs:1137-1145 [condition_expression] *)
Definition condition_expression_with : M unit :=
  and_expression_with ;;
  while (at_ OR_KW) (
    m ← start;
    bump OR_KW ;;
    and_expression_with ;;
    complete m OR_EXPRESSION ;; mret tt).
End conditions.

(** crates/spar-annex/src/emv2/grammar.rs:1219-1228 [condition_element]: a propagation kind, or a dotted path, or nothing. *)
Definition kind_or_path : M unit :=
  IF cur is_propagation_kind THEN bump_any
  ELSE when (at_ IDENT) (bump IDENT ;; dotted).

(** crates/spar-annex/src/emv2/grammar.rs:1216-1234 [condition_element] *)
Definition condition_element : M unit :=
  m ← start;
  kind_or_path ;;
  opt_type_set ;;
  complete m CONDITION_ELEMENT ;; mret tt.

(** crates/spar-annex/src/emv2/grammar.rs:1308-1343 [s_condition_term]: the last two cases. *)
Definition s_condition_element : M unit :=
  IF at_ IN_KW THEN
    m ← start;
    bump IN_KW ;;
    kind_or_path ;;
    opt_type_set ;;
    complete m S_CONDITION_ELEMENT ;; mret tt
  ELSE
    m ← start;
    when (at_ IDENT) (bump IDENT ;; dotted) ;;
    opt_type_set ;;
    complete m S_CONDITION_ELEMENT ;; mret tt.

(** The recursion: a term consumes a token before the conditions inside it. *)
Fixpoint condition_n (element : M unit) (n : nat) : M unit :=
  match n with
  | O => stuck
  | S n => condition_expression_with element (condition_n element n)
  end.

(** crates/spar-annex/src/emv2/grammar.rs:1137-1145 [condition_expression] *)
Definition condition_expression : M unit := λ p, condition_n condition_element (S (remaining p)) p.

(** crates/spar-annex/src/emv2/grammar.rs:1240-1307 [s_condition_expression]: with the
    functions it calls, which are those of [condition_expression] but for the element. *)
Definition s_condition_expression : M unit := λ p, condition_n s_condition_element (S (remaining p)) p.

(** ** State machines *)

(** crates/spar-annex/src/emv2/grammar.rs:254-256 [at_event_start] *)
Definition at_event_start : Parser → bool := (at_ IDENT && nth_is 1 COLON)%P.

(** crates/spar-annex/src/emv2/grammar.rs:279-285 [error_behavior_event]: [when State, State]. *)
Definition opt_when_list : M unit := when (at_ WHEN_KW) (bump WHEN_KW ;; ident_list).

(** crates/spar-annex/src/emv2/grammar.rs:264-307 [error_behavior_event]: the [match], whose
    value is the kind of the node. *)
Definition event_kind : M Emv2Kind :=
  IF at_ ERROR_KW THEN
    bump ERROR_KW ;;
    expect EVENT_KW ;;
    opt_type_set ;;
    when (at_ IF_KW) if_condition ;;
    mret ERROR_EVENT
  ELSE IF at_ REPAIR_KW THEN
    bump REPAIR_KW ;;
    expect EVENT_KW ;;
    opt_when_list ;;
    mret REPAIR_EVENT
  ELSE IF at_ RECOVER_KW THEN
    bump RECOVER_KW ;;
    expect EVENT_KW ;;
    opt_when_list ;;
    when (at_ IF_KW) if_condition ;;
    mret RECOVER_EVENT
  ELSE
    error "expected `error`, `repair`, or `recover` event" ;;
    mret ERROR.

(** crates/spar-annex/src/emv2/grammar.rs:259-311 [error_behavior_event] *)
Definition error_behavior_event : M unit :=
  m ← start;
  bump IDENT ;;
  expect COLON ;;
  kind ← event_kind;
  expect SEMICOLON ;;
  complete m kind ;; mret tt.

(** crates/spar-annex/src/emv2/grammar.rs:314-325 [error_behavior_state] *)
Definition error_behavior_state : M unit :=
  m ← start;
  bump IDENT ;;
  expect COLON ;;
  eat INITIAL_KW ;;
  expect STATE_KW ;;
  opt_type_set ;;
  expect SEMICOLON ;;
  complete m ERROR_BEHAVIOR_STATE ;; mret tt.

(** crates/spar-annex/src/emv2/grammar.rs:398-407 [branch_value] *)
Definition branch_value : M unit :=
  m ← start;
  (IF at_ REAL_LIT || at_ INT_LIT THEN bump_any
   ELSE IF at_ OTHERS_KW THEN bump OTHERS_KW
   ELSE IF at_ IDENT THEN qemref
   ELSE error "expected branch value") ;;
  complete m BRANCH_VALUE ;; mret tt.

(** crates/spar-annex/src/emv2/grammar.rs:359-371 [error_behavior_transition]: a target state, [same state] included. *)
Definition target_state : M unit :=
  IF at_ SAME_KW THEN
    bump SAME_KW ;;
    expect STATE_KW ;; mret tt
  ELSE
    when (at_ IDENT) (bump IDENT) ;;
    opt_type_set.

(** crates/spar-annex/src/emv2/grammar.rs:379-395 [transition_branch] *)
Definition transition_branch : M unit :=
  m ← start;
  target_state ;;
  expect WITH_KW ;;
  branch_value ;;
  complete m TRANSITION_BRANCH ;; mret tt.

(** crates/spar-annex/src/emv2/grammar.rs:331-335 [error_behavior_transition]: the optional name. *)
Definition opt_name : M unit :=
  when (at_ IDENT && nth_is 1 COLON) (bump IDENT ;; bump COLON).
(** crates/spar-annex/src/emv2/grammar.rs:338-345 [error_behavior_transition] *)
Definition source_states : M unit :=
  b ← eat ALL_KW;
  if (b : bool) then mret tt
  else when (at_ IDENT) (bump IDENT ;; opt_type_set).

(** crates/spar-annex/src/emv2/grammar.rs:328-376 [error_behavior_transition] *)
Definition error_behavior_transition : M unit :=
  m ← start;
  opt_name ;;
  source_states ;;
  expect TRANS_OPEN ;;
  condition_expression ;;
  expect TRANS_CLOSE ;;
  (IF at_ L_PAREN THEN
     bump L_PAREN ;;
     transition_branch ;;
     while_eat COMMA transition_branch ;;
     expect R_PAREN ;; mret tt
   ELSE target_state) ;;
  expect SEMICOLON ;;
  complete m ERROR_BEHAVIOR_TRANSITION ;; mret tt.

(** crates/spar-annex/src/emv2/grammar.rs:220-225 [error_behavior_sm] *)
Definition opt_events : M unit :=
  when (at_ EVENTS_KW) (
    bump EVENTS_KW ;;
    while at_event_start error_behavior_event).

(** crates/spar-annex/src/emv2/grammar.rs:238-240 [error_behavior_sm]: the transitions.  An
    iteration need not consume a token. *)
Definition sm_transitions : M unit :=
  while (! at_ END_KW && ! at_ PROPERTIES_KW && ! at_end) error_behavior_transition.

(** crates/spar-annex/src/emv2/grammar.rs:236-241 [error_behavior_sm] *)
Definition opt_sm_transitions : M unit :=
  when (at_ TRANSITIONS_KW) (bump TRANSITIONS_KW ;; sm_transitions).

(** crates/spar-annex/src/emv2/grammar.rs:198-252 [error_behavior_sm] *)
Definition error_behavior_sm : M unit :=
  m ← start;
  bump ERROR_KW ;;
  bump BEHAVIOR_KW ;;
  expect IDENT ;;
  when (at_ USE_KW && nth_is 1 TYPES_KW) use_types ;;
  when (at_ USE_KW && nth_is 1 TRANSFORMATIONS_KW) use_transformations ;;
  opt_events ;;
  when (at_ STATES_KW) (
    bump STATES_KW ;;
    while (at_ IDENT) error_behavior_state) ;;
  opt_sm_transitions ;;
  when (at_ PROPERTIES_KW) emv2_properties_section ;;
  expect END_KW ;;
  expect BEHAVIOR_KW ;;
  expect SEMICOLON ;;
  complete m ERROR_BEHAVIOR_SM ;; mret tt.

(** ** Propagations and flows *)

(** crates/spar-annex/src/emv2/grammar.rs:454-497 [use_clause] *)
Definition use_clause : M unit :=
  IF nth_is 1 TYPES_KW THEN use_types
  ELSE IF nth_is 1 TYPE_KW THEN
    m ← start;
    bump USE_KW ;;
    bump TYPE_KW ;;
    expect EQUIVALENCE_KW ;;
    qemref ;;
    expect SEMICOLON ;;
    complete m USE_TYPE_EQUIVALENCE ;; mret tt
  ELSE IF nth_is 1 MAPPINGS_KW THEN
    m ← start;
    bump USE_KW ;;
    bump MAPPINGS_KW ;;
    qemref ;;
    expect SEMICOLON ;;
    complete m USE_MAPPINGS ;; mret tt
  ELSE IF nth_is 1 BEHAVIOR_KW THEN
    m ← start;
    bump USE_KW ;;
    bump BEHAVIOR_KW ;;
    qemref ;;
    expect SEMICOLON ;;
    complete m USE_BEHAVIOR ;; mret tt
  ELSE IF nth_is 1 TRANSFORMATIONS_KW THEN use_transformations
  ELSE err_and_bump "expected `types`, `behavior`, `mappings`, or `transformations` after `use`".

(** crates/spar-annex/src/emv2/grammar.rs:539-557 [at_propagation_start] *)
Definition at_propagation_start : Parser → bool :=
  ((at_ IDENT &&
    ((nth_is 1 COLON && (nth_is 2 IN_KW || nth_is 2 OUT_KW || nth_is 2 NOT_KW)) ||
     nth_is 1 DOT ||
     (nth_is 1 COLON && ! nth_is 2 ERROR_KW))) ||
   (! at_ IDENT && cur is_propagation_kind))%P.

(** crates/spar-annex/src/emv2/grammar.rs:560-592 [error_propagation] *)
Definition error_propagation : M unit :=
  m ← start;
  (IF cur is_propagation_kind THEN bump_any
   ELSE
     f ← start;
     bump IDENT ;;
     dotted ;;
     complete f FEATURE_OR_PP_REF ;; mret tt) ;;
  expect COLON ;;
  eat NOT_KW ;;
  (IF at_ IN_KW || at_ OUT_KW THEN bump_any ELSE error "expected `in` or `out`") ;;
  expect PROPAGATION_KW ;;
  type_set_constructor ;;
  expect SEMICOLON ;;
  complete m ERROR_PROPAGATION ;; mret tt.

(** crates/spar-annex/src/emv2/grammar.rs:668-685 [error_propagation_point] *)
Definition error_propagation_point : M unit :=
  b ← eat ALL_KW;
  if (b : bool) then mret tt else kind_or_path.

(** crates/spar-annex/src/emv2/grammar.rs:687-699 [when_clause_body] *)
Definition when_clause_body : M unit :=
  IF at_ STRING_LIT THEN bump STRING_LIT
  ELSE IF at_ L_CURLY THEN type_set_constructor
  ELSE when (at_ IDENT) (bump IDENT ;; opt_type_set).

(** crates/spar-annex/src/emv2/grammar.rs:595-665 [error_flow] *)
Definition error_flow : M unit :=
  m ← start;
  bump IDENT ;;
  expect COLON ;;
  expect ERROR_KW ;;
  IF at_ SOURCE_KW THEN
    bump SOURCE_KW ;;
    error_propagation_point ;;
    opt_type_set ;;
    when (at_ WHEN_KW) (bump WHEN_KW ;; when_clause_body) ;;
    when (at_ IF_KW) if_condition ;;
    expect SEMICOLON ;;
    complete m ERROR_SOURCE ;; mret tt
  ELSE IF at_ SINK_KW THEN
    bump SINK_KW ;;
    error_propagation_point ;;
    opt_type_set ;;
    when (at_ IF_KW) if_condition ;;
    expect SEMICOLON ;;
    complete m ERROR_SINK ;; mret tt
  ELSE IF at_ PATH_KW THEN
    bump PATH_KW ;;
    error_propagation_point ;;
    opt_type_set ;;
    expect ARROW ;;
    error_propagation_point ;;
    (IF at_ L_CURLY THEN type_set_constructor
     ELSE when (at_ USE_KW) (
       bump USE_KW ;;
       expect MAPPINGS_KW ;;
       qemref)) ;;
    when (at_ IF_KW) if_condition ;;
    expect SEMICOLON ;;
    complete m ERROR_PATH ;; mret tt
  ELSE
    error "expected `source`, `sink`, or `path`" ;;
    eat_to_semi ;;
    complete m ERROR ;; mret tt.

(** crates/spar-annex/src/emv2/grammar.rs:515-537 [error_propagations_section] *)
Definition error_propagations_section : M unit :=
  m ← start;
  bump ERROR_KW ;;
  bump PROPAGATIONS_KW ;;
  while at_propagation_start error_propagation ;;
  when (at_ FLOWS_KW) (
    bump FLOWS_KW ;;
    while (at_ IDENT) error_flow) ;;
  expect END_KW ;;
  expect PROPAGATIONS_KW ;;
  expect SEMICOLON ;;
  complete m ERROR_PROPAGATIONS_SECTION ;; mret tt.

(** ** Component error behaviour *)

(** crates/spar-annex/src/emv2/grammar.rs:780-800 [outgoing_propagation_condition]: the source and the condition,
    which detections share. *)
Definition guarded_source : M unit :=
  opt_name ;;
  source_states ;;
  expect TRANS_OPEN ;;
  when (! at_ TRANS_CLOSE) condition_expression ;;
  expect TRANS_CLOSE ;; mret tt.

(** crates/spar-annex/src/emv2/grammar.rs:777-812 [outgoing_propagation_condition] *)
Definition outgoing_propagation_condition : M unit :=
  m ← start;
  guarded_source ;;
  error_propagation_point ;;
  opt_type_set ;;
  expect SEMICOLON ;;
  complete m OUTGOING_PROPAGATION_CONDITION ;; mret tt.

(** crates/spar-annex/src/emv2/grammar.rs:840-845 [error_detection]: the port. *)
Definition reporting_port : M unit :=
  r ← start;
  bump IDENT ;;
  while_eat DOT (expect IDENT ;; mret tt) ;;
  complete r REPORTING_PORT_REF ;; mret tt.

(** crates/spar-annex/src/emv2/grammar.rs:851-861 [error_detection]: the code. *)
Definition error_code : M unit :=
  c ← start;
  bump L_PAREN ;;
  (IF at_ INT_LIT THEN bump INT_LIT
   ELSE IF at_ STRING_LIT THEN bump STRING_LIT
   ELSE qemref) ;;
  expect R_PAREN ;;
  complete c ERROR_CODE_VALUE ;; mret tt.

(** crates/spar-annex/src/emv2/grammar.rs:815-866 [error_detection] *)
Definition error_detection : M unit :=
  m ← start;
  guarded_source ;;
  when (at_ IDENT) reporting_port ;;
  expect BANG ;;
  when (at_ L_PAREN) error_code ;;
  expect SEMICOLON ;;
  complete m ERROR_DETECTION ;; mret tt.

(** crates/spar-annex/src/emv2/grammar.rs:869-895 [error_state_to_mode_mapping]: [modes] is not a
    keyword, so on a valid mapping [expect(MODE_KW)] reports an error. *)
Definition error_state_to_mode_mapping : M unit :=
  m ← start;
  expect IDENT ;;
  opt_type_set ;;
  expect IN_KW ;;
  expect MODE_KW ;;
  b ← eat MODE_KW;
  (if (b : bool) then mret tt else when (at_ IDENT) (bump IDENT)) ;;
  expect L_PAREN ;;
  ident_list ;;
  expect R_PAREN ;;
  expect SEMICOLON ;;
  complete m ERROR_STATE_TO_MODE_MAPPING ;; mret tt.

(** crates/spar-annex/src/emv2/grammar.rs:731-738 [component_error_behavior]: a loop like [sm_transitions]. *)
Definition component_transitions : M unit :=
  while (! at_ PROPAGATIONS_KW && ! at_ DETECTIONS_KW && ! at_ MODE_KW && ! at_ END_KW && ! at_end)
    error_behavior_transition.
(** crates/spar-annex/src/emv2/grammar.rs:744-750 [component_error_behavior] *)
Definition component_propagations : M unit :=
  while (! at_ DETECTIONS_KW && ! at_ MODE_KW && ! at_ END_KW && ! at_end)
    outgoing_propagation_condition.
(** crates/spar-annex/src/emv2/grammar.rs:756-758 [component_error_behavior] *)
Definition component_detections : M unit :=
  while (! at_ MODE_KW && ! at_ END_KW && ! at_end) error_detection.
(** crates/spar-annex/src/emv2/grammar.rs:765-767 [component_error_behavior] *)
Definition component_mode_mappings : M unit :=
  while (! at_ END_KW && ! at_end) error_state_to_mode_mapping.

(** crates/spar-annex/src/emv2/grammar.rs:704-774 [component_error_behavior] *)
Definition component_subsections : M unit :=
  when (at_ TRANSITIONS_KW) (bump TRANSITIONS_KW ;; component_transitions) ;;
  when (at_ PROPAGATIONS_KW) (bump PROPAGATIONS_KW ;; component_propagations) ;;
  when (at_ DETECTIONS_KW) (bump DETECTIONS_KW ;; component_detections) ;;
  when (at_ MODE_KW && nth_is 1 MAPPINGS_KW) (
    bump MODE_KW ;;
    bump MAPPINGS_KW ;;
    component_mode_mappings).

(** crates/spar-annex/src/emv2/grammar.rs:704-774 [component_error_behavior] *)
Definition component_error_behavior : M unit :=
  m ← start;
  bump COMPONENT_KW ;;
  expect ERROR_KW ;;
  expect BEHAVIOR_KW ;;
  when (at_ USE_KW && nth_is 1 TRANSFORMATIONS_KW) use_transformations ;;
  opt_events ;;
  component_subsections ;;
  expect END_KW ;;
  expect COMPONENT_KW ;;
  expect SEMICOLON ;;
  complete m COMPONENT_ERROR_BEHAVIOR ;; mret tt.

(** ** Composite error behaviour *)

(** crates/spar-annex/src/emv2/grammar.rs:920-947 [composite_state] *)
Definition composite_state : M unit :=
  m ← start;
  opt_name ;;
  expect L_BRACK ;;
  b ← eat OTHERS_KW;
  (if (b : bool) then mret tt else s_condition_expression) ;;
  expect TRANS_CLOSE ;;
  when (at_ IDENT) (bump IDENT) ;;
  opt_type_set ;;
  expect SEMICOLON ;;
  complete m COMPOSITE_STATE ;; mret tt.

(** crates/spar-annex/src/emv2/grammar.rs:900-917 [composite_error_behavior] *)
Definition composite_states : M unit := while (! at_ END_KW && ! at_end) composite_state.

(** crates/spar-annex/src/emv2/grammar.rs:900-917 [composite_error_behavior] *)
Definition composite_error_behavior : M unit :=
  m ← start;
  bump COMPOSITE_KW ;;
  expect ERROR_KW ;;
  expect BEHAVIOR_KW ;;
  when (at_ STATES_KW) (bump STATES_KW ;; composite_states) ;;
  expect END_KW ;;
  expect COMPOSITE_KW ;;
  expect SEMICOLON ;;
  complete m COMPOSITE_ERROR_BEHAVIOR ;; mret tt.

(** ** Connections and paths *)

(** crates/spar-annex/src/emv2/grammar.rs:952-975 [connection_error] *)
Definition connection_error : M unit :=
  m ← start;
  bump CONNECTION_KW ;;
  expect ERROR_KW ;;
  when (at_ USE_KW && nth_is 1 TRANSFORMATIONS_KW) use_transformations ;;
  while (at_ IDENT) error_flow ;;
  expect END_KW ;;
  expect CONNECTION_KW ;;
  expect SEMICOLON ;;
  complete m CONNECTION_ERROR ;; mret tt.

(** crates/spar-annex/src/emv2/grammar.rs:1002-1007 [is_propagation_point] *)
Definition is_propagation_point : Parser → bool :=
  (at_ IDENT && nth_is 1 COLON && nth_is 2 PROPAGATION_KW && nth_is 3 POINT_KW)%P.

(** crates/spar-annex/src/emv2/grammar.rs:1010-1018 [propagation_point] *)
Definition propagation_point : M unit :=
  m ← start;
  bump IDENT ;;
  expect COLON ;;
  expect PROPAGATION_KW ;;
  expect POINT_KW ;;
  expect SEMICOLON ;;
  complete m PROPAGATION_POINT ;; mret tt.

(** crates/spar-annex/src/emv2/grammar.rs:1046-1057 [qualified_propagation_point] *)
Definition qualified_propagation_point : M unit :=
  m ← start;
  when (at_ IDENT) (bump IDENT ;; dotted) ;;
  complete m QUALIFIED_PROPAGATION_POINT ;; mret tt.

(** crates/spar-annex/src/emv2/grammar.rs:1021-1043 [propagation_path] *)
Definition propagation_path : M unit :=
  m ← start;
  when (at_ IDENT && nth_is 1 COLON && ! nth_is 2 PROPAGATION_KW) (bump IDENT ;; bump COLON) ;;
  qualified_propagation_point ;;
  expect ARROW ;;
  qualified_propagation_point ;;
  expect SEMICOLON ;;
  complete m PROPAGATION_PATH_DECL ;; mret tt.

(** crates/spar-annex/src/emv2/grammar.rs:980-999 [propagation_paths_section] *)
Definition propagation_paths_section : M unit :=
  m ← start;
  bump PROPAGATION_KW ;;
  bump PATHS_KW ;;
  while (! at_ END_KW && ! at_end) (
    IF at_ IDENT && is_propagation_point THEN propagation_point
    ELSE IF at_ IDENT THEN propagation_path
    ELSE err_and_bump "expected propagation point or path") ;;
  expect END_KW ;;
  expect PATHS_KW ;;
  expect SEMICOLON ;;
  complete m PROPAGATION_PATHS_SECTION ;; mret tt.

(** ** Mappings and transformations *)

(** crates/spar-annex/src/emv2/grammar.rs:1083-1090 [type_mapping] *)
Definition type_mapping : M unit :=
  m ← start;
  type_set_constructor ;;
  expect ARROW ;;
  type_set_constructor ;;
  expect SEMICOLON ;;
  complete m TYPE_MAPPING ;; mret tt.

(** crates/spar-annex/src/emv2/grammar.rs:1062-1080 [type_mapping_set] *)
Definition type_mapping_set : M unit :=
  m ← start;
  bump TYPE_KW ;;
  bump MAPPINGS_KW ;;
  expect IDENT ;;
  when (at_ USE_KW && nth_is 1 TYPES_KW) use_types ;;
  while (at_ L_CURLY) type_mapping ;;
  expect END_KW ;;
  expect MAPPINGS_KW ;;
  expect SEMICOLON ;;
  complete m TYPE_MAPPING_SET ;; mret tt.

(** crates/spar-annex/src/emv2/grammar.rs:1116-1131 [type_transformation] *)
Definition type_transformation : M unit :=
  m ← start;
  b ← eat ALL_KW;
  (if (b : bool) then mret tt else type_set_constructor) ;;
  expect TRANS_OPEN ;;
  opt_type_set ;;
  expect TRANS_CLOSE ;;
  type_set_constructor ;;
  expect SEMICOLON ;;
  complete m TYPE_TRANSFORMATION ;; mret tt.

(** crates/spar-annex/src/emv2/grammar.rs:1095-1113 [type_transformation_set] *)
Definition type_transformations : M unit := while (! at_ END_KW && ! at_end) type_transformation.

(** crates/spar-annex/src/emv2/grammar.rs:1095-1113 [type_transformation_set] *)
Definition type_transformation_set : M unit :=
  m ← start;
  bump TYPE_KW ;;
  bump TRANSFORMATIONS_KW ;;
  expect IDENT ;;
  when (at_ USE_KW && nth_is 1 TYPES_KW) use_types ;;
  type_transformations ;;
  expect END_KW ;;
  expect TRANSFORMATIONS_KW ;;
  expect SEMICOLON ;;
  complete m TYPE_TRANSFORMATION_SET ;; mret tt.

(** ** The annex *)

(** crates/spar-annex/src/emv2/grammar.rs:411-450 [subclause] *)
Definition subclause : M unit :=
  m ← start;
  while (at_ USE_KW) use_clause ;;
  when (at_ ERROR_KW && nth_is 1 PROPAGATIONS_KW) error_propagations_section ;;
  when (at_ COMPONENT_KW) component_error_behavior ;;
  when (at_ COMPOSITE_KW) composite_error_behavior ;;
  when (at_ CONNECTION_KW) connection_error ;;
  when (at_ PROPAGATION_KW && nth_is 1 PATHS_KW) propagation_paths_section ;;
  when (at_ PROPERTIES_KW) emv2_properties_section ;;
  complete m EMV2_SUBCLAUSE ;; mret tt.

(** crates/spar-annex/src/emv2/grammar.rs:37-61 [library] *)
Definition library : M unit :=
  m ← start;
  when (at_ ERROR_KW && nth_is 1 TYPES_KW) error_types_section ;;
  while (at_ ERROR_KW && nth_is 1 BEHAVIOR_KW) error_behavior_sm ;;
  while (at_ TYPE_KW && nth_is 1 MAPPINGS_KW) type_mapping_set ;;
  while (at_ TYPE_KW && nth_is 1 TRANSFORMATIONS_KW) type_transformation_set ;;
  complete m EMV2_LIBRARY ;; mret tt.

(** crates/spar-annex/src/emv2/grammar.rs:23-32 [at_library_start] *)
Definition at_library_start : Parser → bool :=
  ((at_ ERROR_KW && (nth_is 1 TYPES_KW || nth_is 1 BEHAVIOR_KW)) ||
   (at_ TYPE_KW && (nth_is 1 MAPPINGS_KW || nth_is 1 TRANSFORMATIONS_KW)))%P.

Definition library_or_subclause : M unit := IF at_library_start THEN library ELSE subclause.

(** crates/spar-annex/src/emv2/grammar.rs:13-21 [root]: tokens after the library or the
    subclause are neither consumed nor reported. *)
Definition root : M unit :=
  m ← start;
  library_or_subclause ;;
  complete m EMV2_ROOT ;; mret tt.
