(* ===== verification/Emv2GrammarSpec.v ===== *)
(** * The error-model annex grammar

    The specification of every function of [Emv2Grammar].  The next token
    decides whether the functions that the loops of the subsections call
    consume a token; at one that they do not, the loop stalls. *)
From S2P Require Import Prelude.
From S2P Require Export Stalls.
From S2P Require Export Emv2Grammar.
From stdpp Require Import sets.
#[local] Open Scope nat_scope.

(** ** The tokens that decide *)
Definition s_word (k : Emv2Kind) : bool := kind_eqb k IDENT || is_keyword k.
Definition s_type_set (k : Emv2Kind) : bool :=
  s_word k || existsb (kind_eqb k) [L_CURLY; STAR; COMMA; R_CURLY].
Definition s_path (k : Emv2Kind) : bool := is_propagation_kind k || kind_eqb k IDENT.
Definition s_element (k : Emv2Kind) : bool := s_path k || kind_eqb k L_CURLY.
Definition s_state_element (k : Emv2Kind) : bool :=
  kind_eqb k IN_KW || kind_eqb k IDENT || kind_eqb k L_CURLY.
Definition s_term (S : Emv2Kind → bool) (k : Emv2Kind) : bool :=
  S k || existsb (kind_eqb k) [INT_LIT; ALL_KW; L_PAREN].
Definition s_condition (S : Emv2Kind → bool) (k : Emv2Kind) : bool :=
  s_term S k || existsb (kind_eqb k) [AND_KW; OR_KW].
Definition s_source (k : Emv2Kind) : bool := existsb (kind_eqb k) [ALL_KW; IDENT].
#[export] Hint Unfold s_word s_type_set s_path s_element s_state_element s_term s_condition
  s_source at_word at_event_start : tests.

Section specs.
Context {TS : TokenStream Emv2Kind}.

(** ** Shared helpers *)

#[export] Instance dotted_adds : Adds dotted 1 0.
Proof. spec dotted. unfold at_word. steps. Qed.
#[export] Instance ident_list_adds : Adds ident_list 2 1.
Proof. spec ident_list. steps. Qed.
#[export] Instance qemref_decides N : Decides qemref s_word N 3 3 50.
Proof. advance qemref at_word. Qed.
#[export] Instance qemref_adds : Adds qemref 3 3.
Proof. eapply decides_adds. exact _. Qed.
#[export] Instance qemref_eats : Eats qemref (λ r, s_word (knth 0 r)) 3 50.
Proof. eapply decides_eats. exact _. Qed.
#[export] Instance if_condition_eats : Eats if_condition (k_at IF_KW) 2 20.
Proof. spec if_condition. unfold k_at in *. facts. steps. Qed.
#[export] Instance eat_to_semi_adds : Adds eat_to_semi 1 0.
Proof. spec eat_to_semi. steps. Qed.

(** ** Types *)

#[export] Instance type_set_element_decides N :
  Decides type_set_element (λ k, s_word k || kind_eqb k STAR) N 5 5 30.
Proof. advance type_set_element. Qed.
#[export] Instance type_set_element_adds : Adds type_set_element 5 5.
Proof. eapply decides_adds. exact _. Qed.
#[export] Instance type_set_constructor_decides N : Decides type_set_constructor s_type_set N 9 9 20.
Proof. advance type_set_constructor. Qed.
#[export] Instance type_set_constructor_adds : Adds type_set_constructor 9 9.
Proof. eapply decides_adds. exact _. Qed.
#[export] Instance type_set_constructor_eats : Eats type_set_constructor (k_at L_CURLY) 2 30.
Proof.
  spec type_set_constructor. unfold k_at in *. apply kind_eqb_true in H.
  destruct (knth_head _ _ H) as [r' ->]; [done|]. do 2 step.
  apply run_bind, run_expect_here; [done..|]. steps.
Qed.
#[export] Instance opt_type_set_decides N : Decides opt_type_set (λ k, kind_eqb k L_CURLY) N 2 0 30.
Proof. advance opt_type_set. Qed.
#[export] Instance opt_type_set_adds : Adds opt_type_set 2 0.
Proof. eapply decides_adds. exact _. Qed.

#[export] Instance type_definition_eats : Eats type_definition (k_at IDENT) 2 20.
Proof. spec type_definition. unfold k_at in *. facts. join 6; steps. Qed.
#[export] Instance type_set_definition_eats : Eats type_set_definition (k_at IDENT) 2 20.
Proof. spec type_set_definition. unfold k_at in *. facts. join 14; steps. Qed.
#[export] Instance type_def_or_set_eats : Eats type_def_or_set (k_at IDENT) 4 20.
Proof. spec type_def_or_set. unfold k_at in *. facts. steps. Qed.
#[export] Instance use_types_eats :
  Eats use_types (λ r, k_at USE_KW r && kind_eqb (knth 1 r) TYPES_KW) 2 20.
Proof. spec use_types. unfold k_at in *. facts. steps. Qed.
#[export] Instance use_transformations_eats :
  Eats use_transformations (λ r, k_at USE_KW r && kind_eqb (knth 1 r) TRANSFORMATIONS_KW) 2 20.
Proof. spec use_transformations. unfold k_at in *. facts. steps. Qed.

(** ** Properties *)

#[export] Instance eat_property_value_adds : Adds eat_property_value 1 0.
Proof. spec eat_property_value. steps. Qed.
#[export] Instance emv2_path_adds : Adds emv2_path 7 6.
Proof. spec emv2_path. steps. Qed.
#[export] Instance emv2_property_association_eats : Eats emv2_property_association (k_at IDENT) 6 20.
Proof. spec emv2_property_association. unfold k_at in *. facts. steps. Qed.
#[export] Instance emv2_properties_section_eats : Eats emv2_properties_section (k_at PROPERTIES_KW) 2 20.
Proof. spec emv2_properties_section. unfold k_at in *. facts. steps. Qed.
#[export] Instance error_types_section_eats :
  Eats error_types_section (λ r, k_at ERROR_KW r && kind_eqb (knth 1 r) TYPES_KW) 2 20.
Proof. spec error_types_section. unfold k_at in *. facts. steps. Qed.

(** ** Conditions *)

#[export] Instance kind_or_path_decides N : Decides kind_or_path s_path N 1 0 40.
Proof. advance kind_or_path. Qed.
#[export] Instance kind_or_path_adds : Adds kind_or_path 1 0.
Proof. eapply decides_adds. exact _. Qed.
#[export] Instance condition_element_decides N : Decides condition_element s_element N 9 2 20.
Proof. advance condition_element. Qed.
#[export] Instance s_condition_element_decides N : Decides s_condition_element s_state_element N 9 2 20.
Proof. advance s_condition_element. Qed.

Section conditions.
Context (element cond : M unit) (S : Emv2Kind → bool) (N : nat).
Context `{HS : ∀ N, Decides element S N 9 2 20} `{!AddsL cond N 9 2}.

#[export] Instance element_adds : Adds element 9 2.
Proof. eapply decides_adds. exact _. Qed.
#[export] Instance conditions_addsl : AddsL (conditions cond) N 10 4.
Proof. spec @conditions. steps. Qed.
#[export] Instance condition_term_decides :
  Decides (condition_term_with element cond) (s_term S) (Datatypes.S N) 9 2 20.
Proof. advance condition_term_with conditions. Qed.
#[local] Instance condition_term_addsl : AddsL (condition_term_with element cond) (Datatypes.S N) 9 2.
Proof. eapply decides_addsl. exact _. Qed.
#[export] Instance and_expression_decides :
  Decides (and_expression_with element cond) (λ k, s_term S k || kind_eqb k AND_KW) (Datatypes.S N) 9 2 20.
Proof. advance and_expression_with. Qed.
#[local] Instance and_expression_addsl : AddsL (and_expression_with element cond) (Datatypes.S N) 9 2.
Proof. eapply decides_addsl. exact _. Qed.
Lemma condition_expression_decides :
  Decides (condition_expression_with element cond) (s_condition S) (Datatypes.S N) 9 2 20.
Proof. advance condition_expression_with. Qed.
End conditions.

Lemma condition_n_decides element S `{HS : ∀ N, Decides element S N 9 2 20} n :
  Decides (condition_n element n) (s_condition S) n 9 2 20.
Proof.
  induction n as [|n IH]; [intros fs r c; lia|].
  apply condition_expression_decides; [exact HS|]. eapply decides_addsl. exact IH.
Qed.
#[export] Instance condition_decides N : Decides condition_expression (s_condition s_element) N 9 2 20.
Proof. apply decides_fuel. intros n. apply condition_n_decides. exact _. Qed.
#[export] Instance condition_adds : Adds condition_expression 9 2.
Proof. eapply decides_adds. exact _. Qed.
#[export] Instance s_condition_decides N :
  Decides s_condition_expression (s_condition s_state_element) N 9 2 20.
Proof. apply decides_fuel. intros n. apply condition_n_decides. exact _. Qed.
#[export] Instance s_condition_adds : Adds s_condition_expression 9 2.
Proof. eapply decides_adds. exact _. Qed.

(** ** State machines *)

#[export] Instance opt_when_list_adds : Adds opt_when_list 2 0.
Proof. spec opt_when_list. steps. Qed.

(** The kind of an event is never the placeholder. *)
Lemma event_kind_run fs r c Φ :
  extensible fs → 2 ≤ c →
  (∀ k r', k ≠ TOMBSTONE → length r' ≤ length r → Φ k fs r' (c - 1)) →
  run fs r c event_kind Φ.
Proof.
  intros Hx Hc HΦ p Hp.
  assert (run fs r c event_kind (λ k fs' r' c', k ≠ TOMBSTONE ∧ Keeps fs r (c - 1) k fs' r' c')) as H.
  { unfold event_kind. steps; (split; [discriminate|fin]). }
  destruct (H p Hp) as [(k & p' & fs' & r' & c' & E & Hp' & Hk & -> & Hl & Hc')|?]; [left|by right].
  exists k, p', fs, r', (c - 1). split_and!; [done|by eapply St_weaken|auto].
Qed.
#[export] Instance error_behavior_event_eats : Eats error_behavior_event (k_at IDENT) 2 20.
Proof.
  spec error_behavior_event. unfold k_at in *. facts. do 6 step.
  apply run_bind, event_kind_run; [done|lia|]. intros kind r2 Hkind Hr2. cbv beta. steps.
Qed.
#[export] Instance error_behavior_state_eats : Eats error_behavior_state (k_at IDENT) 2 20.
Proof. spec error_behavior_state. unfold k_at in *. facts. steps. Qed.
#[export] Instance branch_value_adds : Adds branch_value 4 3.
Proof. spec branch_value. join 1; steps. Qed.
#[export] Instance target_state_decides N :
  Decides target_state (λ k, existsb (kind_eqb k) [SAME_KW; IDENT; L_CURLY]) N 2 0 20.
Proof. advance target_state. Qed.
#[export] Instance target_state_adds : Adds target_state 2 0.
Proof. eapply decides_adds. exact _. Qed.
#[export] Instance transition_branch_adds : Adds transition_branch 8 6.
Proof. spec transition_branch. steps. Qed.

#[export] Instance error_propagation_point_decides N :
  Decides error_propagation_point (λ k, kind_eqb k ALL_KW || s_path k) N 1 0 40.
Proof. advance error_propagation_point. Qed.
#[export] Instance error_propagation_point_adds : Adds error_propagation_point 1 0.
Proof. eapply decides_adds. exact _. Qed.

(** ** The subsections *)

Definition s_guarded (k : Emv2Kind) : bool :=
  s_source k || s_condition s_element k || existsb (kind_eqb k) [TRANS_OPEN; TRANS_CLOSE].
Definition s_transition (k : Emv2Kind) : bool :=
  s_guarded k || existsb (kind_eqb k) [SAME_KW; SEMICOLON].
Definition s_propagation (k : Emv2Kind) : bool := s_guarded k || kind_eqb k SEMICOLON.
Definition s_detection (k : Emv2Kind) : bool := s_guarded k || existsb (kind_eqb k) [BANG; SEMICOLON].
Definition s_mode_mapping (k : Emv2Kind) : bool :=
  existsb (kind_eqb k) [IDENT; L_CURLY; IN_KW; MODE_KW; L_PAREN; COMMA; R_PAREN; SEMICOLON].
Definition s_composite (k : Emv2Kind) : bool :=
  s_condition s_state_element k || existsb (kind_eqb k) [L_BRACK; OTHERS_KW; TRANS_CLOSE; SEMICOLON].
Definition s_transformation (k : Emv2Kind) : bool :=
  s_type_set k || existsb (kind_eqb k) [ALL_KW; TRANS_OPEN; TRANS_CLOSE; SEMICOLON].
#[local] Hint Unfold s_guarded s_transition s_propagation s_detection s_mode_mapping s_composite
  s_transformation : tests.

Lemma error_behavior_transition_decides N : Decides error_behavior_transition s_transition N 12 12 5.
Proof. advance error_behavior_transition opt_name source_states. Qed.
#[local] Instance guarded_source_decides N : Decides guarded_source s_guarded N 12 4 10.
Proof. advance guarded_source opt_name source_states. Qed.
Lemma outgoing_propagation_condition_decides N :
  Decides outgoing_propagation_condition s_propagation N 14 14 5.
Proof. advance outgoing_propagation_condition. Qed.
#[local] Instance reporting_port_eats : Eats reporting_port (k_at IDENT) 2 20.
Proof. spec reporting_port. unfold k_at in *. facts. steps. Qed.
#[local] Instance error_code_eats : Eats error_code (k_at L_PAREN) 2 20.
Proof. spec error_code. unfold k_at in *. facts. join 5; steps. Qed.
Lemma error_detection_decides N : Decides error_detection s_detection N 14 14 5.
Proof. advance error_detection. Qed.
Lemma error_state_to_mode_mapping_decides N : Decides error_state_to_mode_mapping s_mode_mapping N 14 14 5.
Proof. advance error_state_to_mode_mapping ident_list. Qed.
Lemma composite_state_decides N : Decides composite_state s_composite N 14 14 5.
Proof. advance composite_state opt_name. Qed.
Lemma type_transformation_decides N : Decides type_transformation s_transformation N 26 26 5.
Proof. advance type_transformation. Qed.
End specs.

(** The keywords of the sections with a loop that can stall. *)
Definition stalling : list Emv2Kind := [TRANSITIONS_KW; COMPONENT_KW; COMPOSITE_KW; TRANSFORMATIONS_KW].
Definition has_stalling (ks : list Emv2Kind) : Prop := ∃ k, k ∈ stalling ∧ k ∈ ks.

(** A loop over a function that is decided by the next token. *)
Ltac stall D :=
  intros fs r c Hx Hc;
  eapply (run_while_stalls _ _ _ _ _ _ _); [done|once (typeclasses eauto)|intros TS' N; apply D|lia|lia|done|done|];
  intros r2 Hr2 _; fin.

Section stalls.
Context {TS : TokenStream Emv2Kind} (Hms : may_stall).

Lemma sm_transitions_adds : Adds sm_transitions 12 0.
Proof. stall @error_behavior_transition_decides. Qed.
#[local] Instance component_transitions_adds : Adds component_transitions 12 0.
Proof. stall @error_behavior_transition_decides. Qed.
#[local] Instance component_propagations_adds : Adds component_propagations 14 0.
Proof. stall @outgoing_propagation_condition_decides. Qed.
#[local] Instance component_detections_adds : Adds component_detections 14 0.
Proof. stall @error_detection_decides. Qed.
#[local] Instance component_mode_mappings_adds : Adds component_mode_mappings 14 0.
Proof. stall @error_state_to_mode_mapping_decides. Qed.
Lemma component_subsections_adds : Adds component_subsections 1 0.
Proof. spec component_subsections. steps. Qed.
Lemma composite_states_adds : Adds composite_states 14 0.
Proof. stall @composite_state_decides. Qed.
Lemma type_transformations_adds : Adds type_transformations 26 0.
Proof. stall @type_transformation_decides. Qed.
End stalls.

(** ** The error-model annex grammar: sections

    The specification of the sections of [Emv2Grammar] and of its root: it
    returns on every stream without one of the keywords [stalling], and
    otherwise returns or stalls in the section of such a keyword. *)
Section specs.
Context {TS : TokenStream Emv2Kind}.

(** ** Propagations and flows *)

#[export] Instance use_clause_eats : Eats use_clause (k_at USE_KW) 4 20.
Proof. spec use_clause. unfold k_at in *. facts. steps. Qed.
#[export] Instance error_propagation_eats : Eats error_propagation (λ r, s_path (knth 0 r)) 4 20.
Proof.
  spec error_propagation. unfold s_path in *. do 2 step.
  apply run_bind, (run_joinm (c + 40)); [|intros; cbv beta; steps].
  branch; [steps|]. rewrite H1 in H. simpl in H. steps.
Qed.
#[export] Instance when_clause_body_adds : Adds when_clause_body 2 0.
Proof. spec when_clause_body. steps. Qed.
#[export] Instance error_flow_eats : Eats error_flow (k_at IDENT) 2 20.
Proof. spec error_flow. unfold k_at in *. facts. steps. Qed.
#[export] Instance error_propagations_section_eats :
  Eats error_propagations_section (λ r, k_at ERROR_KW r && kind_eqb (knth 1 r) PROPAGATIONS_KW) 2 20.
Proof.
  spec error_propagations_section. unfold k_at, at_propagation_start in *. facts. steps.
  eapply run_eats; [exact _|done| |lia|intros; fin]. unfold s_path.
  destruct (kind_eqb (knth 0 r1) IDENT); [by rewrite orb_true_r|]. simpl in H5. by rewrite H5.
Qed.

(** ** Connections, paths and mappings *)

#[export] Instance connection_error_eats : Eats connection_error (k_at CONNECTION_KW) 2 20.
Proof. spec connection_error. unfold k_at in *. facts. steps. Qed.
#[export] Instance propagation_point_eats : Eats propagation_point (k_at IDENT) 2 20.
Proof. spec propagation_point. unfold k_at in *. facts. steps. Qed.
#[export] Instance qualified_propagation_point_decides N :
  Decides qualified_propagation_point (λ k, kind_eqb k IDENT) N 2 2 40.
Proof. advance qualified_propagation_point. Qed.
#[export] Instance qualified_propagation_point_adds : Adds qualified_propagation_point 2 2.
Proof. eapply decides_adds. exact _. Qed.
#[export] Instance propagation_path_eats : Eats propagation_path (k_at IDENT) 4 20.
Proof.
  spec propagation_path. unfold k_at in *. do 2 step. unfold when at 1. apply run_bind. branch; [steps|].
  apply run_ret, run_bind. eapply run_eats; [eapply decides_eats; exact _|done|exact H|lia|].
  intros; cbv beta; steps.
Qed.
#[export] Instance propagation_paths_section_eats :
  Eats propagation_paths_section (λ r, k_at PROPAGATION_KW r && kind_eqb (knth 1 r) PATHS_KW) 2 20.
Proof. spec propagation_paths_section. unfold is_propagation_point, k_at in *. facts. steps. Qed.
#[export] Instance type_mapping_eats : Eats type_mapping (k_at L_CURLY) 4 10.
Proof. spec type_mapping. unfold k_at in *. facts. steps. Qed.
#[export] Instance type_mapping_set_eats :
  Eats type_mapping_set (λ r, k_at TYPE_KW r && kind_eqb (knth 1 r) MAPPINGS_KW) 2 20.
Proof. spec type_mapping_set. unfold k_at in *. facts. steps. Qed.
End specs.

(** ** Sections that can stall *)
Section sections.
Context {TS : TokenStream Emv2Kind} (Hst : has_stalling (kinds_of in_tokens) → may_stall).

Lemma run_stalling {A} k (m : M A) fs r c Φ :
  k ∈ stalling → k ∈ r → (may_stall → run fs r c m Φ) → run fs r c m Φ.
Proof. intros Hk Hr H. apply (run_present k); [done|]. intros Hin. apply H, Hst. by exists k. Qed.

#[local] Instance opt_sm_transitions_adds : Adds opt_sm_transitions 2 0.
Proof.
  spec opt_sm_transitions. eapply run_when with (c0 := c); [once (typeclasses eauto)|lia| |intros; fin].
  intros Hk. apply kind_eqb_true in Hk. destruct (knth_head _ _ Hk) as [r' ->]; [done|].
  apply (run_stalling TRANSITIONS_KW); [set_solver|set_solver|]. intros Hms.
  pose proof (sm_transitions_adds Hms). steps.
Qed.
#[local] Instance error_behavior_sm_eats :
  Eats error_behavior_sm (λ r, k_at ERROR_KW r && kind_eqb (knth 1 r) BEHAVIOR_KW) 2 20.
Proof. spec error_behavior_sm. unfold opt_events, at_event_start, k_at in *. facts. steps. Qed.
#[local] Instance component_error_behavior_eats : Eats component_error_behavior (k_at COMPONENT_KW) 2 20.
Proof.
  spec component_error_behavior. unfold opt_events, at_event_start, k_at in *. apply kind_eqb_true in H.
  destruct (knth_head _ _ H) as [r' ->]; [done|].
  apply (run_stalling COMPONENT_KW); [set_solver|set_solver|]. intros Hms.
  pose proof (component_subsections_adds Hms). steps.
Qed.
#[local] Instance composite_error_behavior_eats : Eats composite_error_behavior (k_at COMPOSITE_KW) 2 20.
Proof.
  spec composite_error_behavior. unfold k_at in *. apply kind_eqb_true in H.
  destruct (knth_head _ _ H) as [r' ->]; [done|].
  apply (run_stalling COMPOSITE_KW); [set_solver|set_solver|]. intros Hms.
  pose proof (composite_states_adds Hms). steps.
Qed.
#[local] Instance type_transformation_set_eats :
  Eats type_transformation_set (λ r, k_at TYPE_KW r && kind_eqb (knth 1 r) TRANSFORMATIONS_KW) 2 20.
Proof.
  spec type_transformation_set. unfold k_at in *. facts.
  destruct (knth_head _ _ H3) as [r' ->]; [done|]. destruct (knth_head r' _ H2) as [r2 ->]; [done|].
  apply (run_stalling TRANSFORMATIONS_KW); [set_solver|set_solver|]. intros Hms.
  pose proof (type_transformations_adds Hms). steps.
Qed.

(** ** The root *)

Lemma library_or_subclause_adds : Adds library_or_subclause 5 2.
Proof.
  spec library_or_subclause. unfold at_library_start, library, subclause, k_at in *. steps.
Qed.
End sections.

Lemma emv2_root_runs : TotalUnless has_stalling (λ _, True) root EMV2_ROOT.
Proof.
  apply (root_total_unless _ _ library_or_subclause EMV2_ROOT); [done|]. intros TS Hs m.
  eapply run_conseq; [by apply library_or_subclause_adds; [..|lia]|].
  intros ? ? ? ? (-> & ? & ?). split_and!; [done|done|lia].
Qed.
