(* ===== verification/Emv2Parsing.v ===== *)
(** * Parsing the error-model annex

    [parse] of [crates/spar-annex/src/emv2/mod.rs], and the theorem that it
    loses nothing or stalls. *)
From S2P Require Import Prelude.
From S2P Require Emv2Kind.
From S2P Require Export Emv2GrammarSpec.
From S2P Require Export AnnexParsing.
#[local] Open Scope nat_scope.

(** ** The lexer *)

Lemma emv2_scan_ok c :
  Sound c → is_eof c = false → (byte_code (Cursor.current c) < 128)%N → Tok (Emv2Kind.scan_kind c) c.
Proof.
  intros Hs He Ha. unfold Emv2Kind.scan_kind. cbv zeta. annex_operators.
  destruct (is_digit (Cursor.current c)) eqn:?;
    [by apply (Tok_annex_number (λ real, if real then REAL_LIT else INT_LIT))|].
  destruct (is_ident_start (Cursor.current c)) eqn:?.
  { by apply (Tok_annex_word (λ t, match from_keyword t with Some k => k | None => IDENT end)). }
  by apply Tok_current.
Qed.

Lemma emv2_scan_not_eof c : Emits (λ k, k ≠ eof) (Emv2Kind.scan_kind c).
Proof.
  unfold Emv2Kind.scan_kind. cbv zeta. emits.
  - destruct x as [real c']. emits. by destruct real.
  - destruct x as [text c']. emits. destruct (from_keyword text) eqn:E; [|done].
    exact (keyword_not_eof (V := emv2) keyword_table _ _ eq_refl E).
Qed.

(** ** The loops that stall *)

(** C11: The transitions of a state machine do not recover from errors.  At a
    token that [s_transition] does not list (a [!], say) the loop of
    [error_behavior_sm] consumes nothing, so it does not return: not within
    any number of iterations whose events 32-bit positions can address. *)
Theorem sm_transitions_stall {TS : TokenStream Emv2Kind} fs r c p n :
  extensible fs → r ≠ [] → knth 0 r ≠ END_KW → knth 0 r ≠ PROPERTIES_KW →
  s_transition (knth 0 r) = false → 12 * n ≤ c → St fs r c p →
  iter_fuel n (λ _, cond (! at_ END_KW && ! at_ PROPERTIES_KW && ! at_end)%P
    (error_behavior_transition ;; mret (inl tt)) (mret (inr tt))) tt p = Stuck.
Proof.
  intros Hx Hr He Hpr Hk Hc Hp. rewrite Nat.mul_comm in Hc.
  eapply while_stalls; [once (typeclasses eauto)| | |exact Hc|done].
  - destruct r as [|k r]; [done|]. change (knth 0 (k :: r)) with k in *. cbv beta.
    change (knth 0 (k :: r)) with k. by rewrite !kind_eqb_false.
  - intros c' Hc'. pose proof (error_behavior_transition_decides _ fs r c' Hx (Nat.lt_succ_diag_r _) Hc') as H.
    by rewrite Hk in H.
Qed.

(** The section [transitions !], after its keyword. *)
Lemma sm_transitions_stall_witness :
  let tokens := [(BANG, 1)] in let src := list_ascii_of_string "!" in
  let p := {| all_tokens := tokens; non_trivia_indices := [0]; pos := 0;
              events := [Start tombstone None]; source := src; token_starts := [0] |} in
  ∃ TS : TokenStream Emv2Kind,
  (extensible [FOpen 0 true] ∧ [BANG] ≠ [] ∧ knth 0 [BANG] ≠ END_KW ∧ knth 0 [BANG] ≠ PROPERTIES_KW ∧
   s_transition (knth 0 [BANG]) = false ∧ 12 * 70 ≤ 900 ∧
   St [FOpen 0 true] [BANG] 900 p) ∧
  iter_fuel 70 (λ _, cond (! at_ END_KW && ! at_ PROPERTIES_KW && ! at_end)%P
    (error_behavior_transition ;; mret (inl tt)) (mret (inr tt))) tt p = Stuck.
Proof.
  intros tokens src p. assert (Hok : tokens_ok tokens src).
  { constructor; [by repeat constructor|]. intros [|[|i]] start k len Hs Hl; [|done..].
    simpl in Hs, Hl. simplify_eq. by eexists. }
  exists {| in_tokens := tokens; in_src := src; room := 1000; in_ok := Hok;
            room_bound := ltac:(vm_compute; discriminate);
            may_stall := False; stall_room := False_ind _ |}.
  set (TS := Build_TokenStream _ _ _ _ _ _ _ _ _ _).
  assert (Hp : @St _ _ _ TS [FOpen 0 true] [BANG] 900 p).
  { constructor; try done; [by exists [], [], []; split_and!; try done; constructor|simpl; lia]. }
  assert (Hc : 12 * 70 ≤ 900) by lia. assert (Hr : [BANG] ≠ []) by done.
  assert (He : knth 0 [BANG] ≠ END_KW) by done. assert (Hpr : knth 0 [BANG] ≠ PROPERTIES_KW) by done. split; [by split_and!|].
  exact (@sm_transitions_stall TS [FOpen 0 true] [BANG] 900 p 70 I Hr He Hpr eq_refl Hc Hp).
Defined.

(** ** The parse *)

(** crates/spar-annex/src/emv2/mod.rs:114-120 [parse] *)
Definition parse `{GreenNodeBuilder Emv2Kind} (source : bytes) : Exec (Parse green_node) :=
  annex_parse Emv2Kind.scan_kind root source.

(** C4: Parsing an error-model annex loses nothing.  For any UTF-8 source
    whose events fit 32-bit positions and in which every token starts at an
    ASCII byte, [parse] returns a tree under [EMV2_ROOT] whose leaves are the
    tokens of the lexer, with their kinds and texts, each once and in order
    (those that [root] does not consume included), and every error is
    reported at an offset of the source; or the source has the keyword of a
    section that can stall, and [parse] does not return.  In no case does it
    panic. *)
Theorem emv2_parse_lossless `{G : GreenNodeBuilder Emv2Kind, !GreenNodeBuilderLaws G} s :
  utf8 s → ascii_starts Emv2Kind.tokenize s = true → (128 * (N.of_nat (length s) + 1) ≤ U32_MAX)%N →
  (∃ pr ts texts, parse s = Done pr ∧ tree_of (green pr) = Node EMV2_ROOT ts ∧
    Emv2Kind.tokenize s = Done (lengths texts) ∧ leaves (Node EMV2_ROOT ts) = texts ∧
    tree_text (tree_of (green pr)) = s ∧ Forall (λ e, offset e ≤ length s) (errors pr)) ∨
  (has_stalling (token_kinds Emv2Kind.scan_kind s) ∧ parse s = Stuck).
Proof.
  intros Hs Ha Hl.
  exact (annex_parse_lossless _ _ emv2_scan_ok emv2_scan_not_eof _ _ _ _ emv2_root_runs
    ltac:(discriminate) Hs Ha Hl).
Qed.

Import StackBuilder.

(** A library with a state machine. *)
Definition emv2_example : bytes :=
  list_ascii_of_string "error types T : type; end types; -- types
error behavior B events e : error event; states s : initial state; t : state;
transitions s -[ e and all - 1 (e, x.y) ]-> t; end behavior; ) ".

Lemma emv2_parse_lossless_witness :
  utf8 emv2_example ∧ ascii_starts Emv2Kind.tokenize emv2_example = true ∧
  (128 * (N.of_nat (length emv2_example) + 1) ≤ U32_MAX)%N ∧
  ((∃ (pr : Parse (@green_node Emv2Kind stack_builder)) ts texts, parse emv2_example = Done pr ∧
    tree_of (green pr) = Node EMV2_ROOT ts ∧ Emv2Kind.tokenize emv2_example = Done (lengths texts) ∧
    leaves (Node EMV2_ROOT ts) = texts ∧ tree_text (tree_of (green pr)) = emv2_example ∧
    Forall (λ e, offset e ≤ length emv2_example) (errors pr)) ∨
   (has_stalling (token_kinds Emv2Kind.scan_kind emv2_example) ∧
    parse (H := stack_builder) emv2_example = Stuck)).
Proof.
  assert (Hs : utf8 emv2_example) by (apply utf8_ascii; repeat constructor).
  assert (Ha : ascii_starts Emv2Kind.tokenize emv2_example = true) by (vm_compute; reflexivity).
  assert (Hl : (128 * (N.of_nat (length emv2_example) + 1) ≤ U32_MAX)%N) by (vm_compute; discriminate).
  split; [exact Hs|split; [exact Ha|split; [exact Hl|]]].
  exact (emv2_parse_lossless (G := stack_builder) emv2_example Hs Ha Hl).
Defined.

(** It returns, and reports nothing, not even the stray parenthesis. *)
Example emv2_example_returns :
  (pr ← parse (H := stack_builder) emv2_example; Done (length (errors pr))) = Done 0.
Proof. by vm_compute. Qed.

(** A transition that consumes nothing. *)
Example emv2_stalls :
  parse (H := stack_builder) (list_ascii_of_string "error behavior B transitions ! end behavior;") = Stuck.
Proof. by vm_compute. Qed.

(** [modes] is not a keyword, so a valid mode mapping reports an error. *)
Example emv2_mode_mapping :
  (pr ← parse (H := stack_builder) (list_ascii_of_string
     "component error behavior mode mappings s in modes (m); end component;");
   Done (length (errors pr))) = Done 1.
Proof. by vm_compute. Qed.
