(* ===== verification/BaGrammar.v ===== *)
(** * The grammar of the behaviour annex

    [crates/spar-annex/src/ba/grammar.rs].  [match p.current() { K => ... }]
    is a chain of [IF at_ K].  Expressions and actions are recursive: each
    function is written over the one it recurses to, and [expr_n] and
    [actions_n] close the recursion on fuel. *)
From S2P Require Import Prelude.
From S2P Require Export BaKind.
From S2P Require Export AnnexParser.
#[local] Open Scope string_scope.

Abbreviation Parser := (Parser.Parser BaKind).
Abbreviation M := (Parser.M BaKind).

(** [if p.at(IDENT) { p.bump(IDENT) } else { p.error(msg) }]. *)
Definition ident_or_error (msg : string) : M unit :=
  IF at_ IDENT THEN bump IDENT ELSE error msg.

(** The same, where a keyword is a name too. *)
Definition name_or_error (msg : string) : M unit :=
  IF at_ IDENT THEN bump IDENT ELSE IF cur is_keyword THEN bump_any ELSE error msg.

(** ** Types and names *)

(** crates/spar-annex/src/ba/grammar.rs:720-757 [qualified_name]: after the first name. *)
Definition qualified_tail (m : Marker) : M unit :=
  while_eat COLON_COLON (name_or_error "expected name after '::'") ;;
  b ← eat DOT;
  (if (b : bool) then name_or_error "expected implementation name after '.'" else mret tt) ;;
  complete m QUALIFIED_NAME ;; mret tt.

(** crates/spar-annex/src/ba/grammar.rs:720-757 [qualified_name] *)
Definition qualified_name : M unit :=
  m ← start;
  IF at_ IDENT THEN bump IDENT ;; qualified_tail m
  ELSE IF cur is_keyword THEN bump_any ;; qualified_tail m
  ELSE error "expected name" ;; abandon m.

(** crates/spar-annex/src/ba/grammar.rs:706-717 [type_reference] *)
Definition type_reference : M unit :=
  IF at_ CLASSIFIER_KW THEN
    m ← start;
    bump CLASSIFIER_KW ;;
    expect L_PAREN ;;
    qualified_name ;;
    expect R_PAREN ;;
    complete m CLASSIFIER_REF ;; mret tt
  ELSE qualified_name.

(** crates/spar-annex/src/ba/grammar.rs:1065-1100 [is_structural_keyword] *)
Definition is_structural_keyword (kind : BaKind) : bool :=
  existsb (kind_eqb kind)
    [IF_KW; ELSIF_KW; ELSE_KW; END_KW; FOR_KW; FORALL_KW; WHILE_KW; DO_KW; UNTIL_KW; ON_KW;
     DISPATCH_KW; VARIABLES_KW; STATES_KW; TRANSITIONS_KW; COMPUTATION_KW; STATE_KW; FROZEN_KW;
     STOP_KW; OTHERWISE_KW; AND_KW; OR_KW; XOR_KW; NOT_KW; ABS_KW; MOD_KW; REM_KW; TRUE_KW;
     FALSE_KW; INITIAL_KW; COMPLETE_KW; FINAL_KW].

(** ** Expressions *)
Section expression.
Context (expr : M unit).

(** crates/spar-annex/src/ba/grammar.rs:802-808 [name_reference]: an array index. *)
Definition array_index : M unit :=
  when (at_ L_BRACK) (
    am ← start;
    bump L_BRACK ;;
    expr ;;
    expect R_BRACK ;;
    complete am ARRAY_INDEX ;; mret tt).

(** crates/spar-annex/src/ba/grammar.rs:779-833 [name_reference]: after the
    first name. *)
Definition name_tail (m : Marker) : M unit :=
  while (at_ COLON_COLON) (
    bump COLON_COLON ;;
    name_or_error "expected name after '::'") ;;
  iter (λ _,
    IF at_ DOT THEN
      bump DOT ;;
      (IF at_ IDENT THEN bump IDENT ;; array_index ;; mret (inl tt)
       ELSE IF cur is_keyword THEN bump_any ;; array_index ;; mret (inl tt)
       ELSE error "expected field name after '.'" ;; mret (inr tt))
    ELSE mret (inr tt)) tt ;;
  array_index ;;
  when (at_ TICK) (
    bump TICK ;;
    (IF at_ COUNT_KW || at_ FRESH_KW THEN bump_any
     ELSE IF at_ IDENT THEN bump IDENT
     ELSE error "expected property name after tick")) ;;
  complete m NAME_REF ;; mret tt.

(** crates/spar-annex/src/ba/grammar.rs:764-834 [name_reference] *)
Definition name_reference_with : M unit :=
  m ← start;
  IF at_ IDENT THEN bump IDENT ;; name_tail m
  ELSE IF cur is_keyword THEN bump_any ;; name_tail m
  ELSE error "expected name reference" ;; complete m NAME_REF ;; mret tt.

(** crates/spar-annex/src/ba/grammar.rs:1000-1061 [primary_expr] *)
Definition primary_expr : M (option CompletedMarker) :=
  IF at_ INT_LIT THEN
    m ← start;
    bump INT_LIT ;;
    when (at_ IDENT) (bump IDENT) ;;
    complete_some m INTEGER_LITERAL
  ELSE IF at_ REAL_LIT THEN
    m ← start;
    bump REAL_LIT ;;
    when (at_ IDENT) (bump IDENT) ;;
    complete_some m REAL_LITERAL
  ELSE IF at_ STRING_LIT THEN
    m ← start;
    bump STRING_LIT ;;
    complete_some m STRING_LITERAL
  ELSE IF at_ TRUE_KW || at_ FALSE_KW THEN
    m ← start;
    bump_any ;;
    complete_some m BOOLEAN_LITERAL
  ELSE IF at_ L_PAREN THEN
    m ← start;
    bump L_PAREN ;;
    expr ;;
    expect R_PAREN ;;
    complete_some m PAREN_EXPR
  ELSE IF at_ HASH THEN
    m ← start;
    bump HASH ;;
    qualified_name ;;
    complete_some m PROPERTY_REF
  ELSE IF at_ IDENT THEN
    m ← start;
    name_reference_with ;;
    complete_some m VALUE_EXPRESSION
  ELSE IF cur is_keyword && ! cur is_structural_keyword THEN
    m ← start;
    name_reference_with ;;
    complete_some m VALUE_EXPRESSION
  ELSE mret None.

(** crates/spar-annex/src/ba/grammar.rs:985-997 [unary_expr] *)
Definition unary_expr : M (option CompletedMarker) :=
  IF at_ NOT_KW || at_ ABS_KW || at_ PLUS || at_ MINUS THEN
    m ← start;
    bump_any ;;
    primary_expr ;;
    complete_some m UNARY_EXPR
  ELSE primary_expr.

(** [if f(p) && let Some(cm) = lhs { ... }]: an operator that does not chain. *)
Definition binary_once (f : Parser → bool) (op : M unit) (operand : M (option CompletedMarker))
    : M (option CompletedMarker) :=
  lhs ← operand;
  match lhs with
  | Some cm =>
      IF f THEN
        m ← precede cm;
        op ;;
        operand ;;
        complete_some m BINARY_EXPR
      ELSE mret (Some cm)
  | None => mret None
  end.
Arguments binary_once f%_P op operand.

(** crates/spar-annex/src/ba/grammar.rs:969-982 [power_expr] *)
Definition power_expr : M (option CompletedMarker) :=
  binary_once (at_ STAR_STAR) (bump STAR_STAR) unary_expr.

(** crates/spar-annex/src/ba/grammar.rs:948-966 [multiplicative_expr] *)
Definition multiplicative_expr : M (option CompletedMarker) :=
  binary_operands (at_ STAR || at_ SLASH || at_ MOD_KW || at_ REM_KW) bump_any power_expr BINARY_EXPR.

(** crates/spar-annex/src/ba/grammar.rs:930-945 [additive_expr] *)
Definition additive_expr : M (option CompletedMarker) :=
  binary_operands (at_ PLUS || at_ MINUS) bump_any multiplicative_expr BINARY_EXPR.

(** crates/spar-annex/src/ba/grammar.rs:907-927 [relational_expr] *)
Definition relational_expr : M (option CompletedMarker) :=
  binary_once (at_ EQ || at_ BANG_EQ || at_ L_ANGLE || at_ L_ANGLE_EQ || at_ R_ANGLE || at_ R_ANGLE_EQ)
    bump_any additive_expr.

(** crates/spar-annex/src/ba/grammar.rs:889-904 [and_expr] *)
Definition and_expr : M (option CompletedMarker) :=
  binary_operands (at_ AND_KW) (bump AND_KW) relational_expr BINARY_EXPR.

(** crates/spar-annex/src/ba/grammar.rs:871-886 [xor_expr] *)
Definition xor_expr : M (option CompletedMarker) :=
  binary_operands (at_ XOR_KW) (bump XOR_KW) and_expr BINARY_EXPR.

(** crates/spar-annex/src/ba/grammar.rs:855-868 [or_expr] *)
Definition or_expr : M unit :=
  binary_operands (at_ OR_KW) (bump OR_KW) xor_expr BINARY_EXPR ;; mret tt.
End expression.

(** crates/spar-annex/src/ba/grammar.rs:850-852 [expression]: the recursion, every
    level of which consumes a token. *)
Fixpoint expr_n (n : nat) : M unit :=
  match n with O => stuck | S n => or_expr (expr_n n) end.

(** crates/spar-annex/src/ba/grammar.rs:850-852 [expression] *)
Definition expression : M unit := λ p, expr_n (S (remaining p)) p.

(** crates/spar-annex/src/ba/grammar.rs:764-834 [name_reference] *)
Definition name_reference : M unit := name_reference_with expression.

(** ** Dispatch conditions *)

(** crates/spar-annex/src/ba/grammar.rs:340-358 [frozen_port_list] *)
Definition frozen_port_list : M unit :=
  m ← start;
  bump FROZEN_KW ;;
  ident_or_error "expected port name after 'frozen'" ;;
  while_eat COMMA (ident_or_error "expected port name after ','") ;;
  complete m FROZEN_PORT_LIST ;; mret tt.

(** crates/spar-annex/src/ba/grammar.rs:318-337 [dispatch_trigger_conjunction] *)
Definition dispatch_trigger_conjunction : M unit :=
  m ← start;
  ident_or_error "expected port name in dispatch trigger" ;;
  while (at_ AND_KW) (
    bump AND_KW ;;
    ident_or_error "expected port name after 'and'") ;;
  complete m DISPATCH_TRIGGER_CONJUNCTION ;; mret tt.

(** crates/spar-annex/src/ba/grammar.rs:304-314 [dispatch_trigger_logical_expr] *)
Definition dispatch_trigger_logical_expr : M unit :=
  m ← start;
  dispatch_trigger_conjunction ;;
  while (at_ OR_KW) (
    bump OR_KW ;;
    dispatch_trigger_conjunction) ;;
  complete m DISPATCH_TRIGGER_LOGICAL_EXPR ;; mret tt.

(** crates/spar-annex/src/ba/grammar.rs:276-300 [dispatch_condition] *)
Definition dispatch_condition : M unit :=
  m ← start;
  bump ON_KW ;;
  bump DISPATCH_KW ;;
  (IF at_ STOP_KW THEN bump STOP_KW
   ELSE IF at_ TIMEOUT_KW THEN
     bump TIMEOUT_KW ;;
     when (! at_ TRANS_CLOSE && ! at_ FROZEN_KW) expression
   ELSE when (! at_ TRANS_CLOSE && ! at_ FROZEN_KW) dispatch_trigger_logical_expr) ;;
  when (at_ FROZEN_KW) frozen_port_list ;;
  complete m DISPATCH_CONDITION ;; mret tt.

(** crates/spar-annex/src/ba/grammar.rs:254-269 [transition_guard] *)
Definition transition_guard : M unit :=
  m ← start;
  (IF at_ ON_KW && nth_is 1 DISPATCH_KW THEN dispatch_condition
   ELSE IF at_ OTHERWISE_KW THEN bump OTHERWISE_KW
   ELSE IF at_ TIMEOUT_KW THEN bump TIMEOUT_KW
   ELSE expression) ;;
  complete m TRANSITION_GUARD ;; mret tt.

(** ** Actions *)

(** crates/spar-annex/src/ba/grammar.rs:514-527 [subprogram_call_params] *)
Definition subprogram_call_params : M unit :=
  m ← start;
  bump L_PAREN ;;
  when (! at_ R_PAREN) (
    expression ;;
    while_eat COMMA expression) ;;
  expect R_PAREN ;;
  complete m SUBPROGRAM_CALL_PARAMS ;; mret tt.

(** crates/spar-annex/src/ba/grammar.rs:456-511 [parse_action_starting_with_name] *)
Definition parse_action_starting_with_name : M unit :=
  nm ← start;
  name_reference ;;
  IF at_ COLON_EQ THEN
    bump COLON_EQ ;;
    expression ;;
    complete nm ASSIGNMENT_ACTION ;; mret tt
  ELSE IF at_ BANG THEN
    bump BANG ;;
    when (at_ L_PAREN) subprogram_call_params ;;
    complete nm COMMUNICATION_ACTION ;; mret tt
  ELSE IF at_ BANG_L_ANGLE THEN
    bump BANG_L_ANGLE ;;
    complete nm COMMUNICATION_ACTION ;; mret tt
  ELSE IF at_ BANG_R_ANGLE THEN
    bump BANG_R_ANGLE ;;
    complete nm COMMUNICATION_ACTION ;; mret tt
  ELSE IF at_ QUESTION THEN
    bump QUESTION ;;
    when (at_ L_PAREN) (
      bump L_PAREN ;;
      when (! at_ R_PAREN) name_reference ;;
      expect R_PAREN ;; mret tt) ;;
    complete nm COMMUNICATION_ACTION ;; mret tt
  ELSE IF at_ R_ANGLE_R_ANGLE THEN
    bump R_ANGLE_R_ANGLE ;;
    complete nm COMMUNICATION_ACTION ;; mret tt
  ELSE complete nm COMMUNICATION_ACTION ;; mret tt.

(** crates/spar-annex/src/ba/grammar.rs:668-690 [computation_action] *)
Definition computation_action : M unit :=
  m ← start;
  bump COMPUTATION_KW ;;
  expect L_PAREN ;;
  expression ;;
  b ← eat DOT_DOT;
  (if (b : bool) then expression else mret tt) ;;
  expect R_PAREN ;;
  when (at_ IN_KW) (
    bump IN_KW ;;
    expect BINDING_KW ;;
    expect L_PAREN ;;
    name_reference ;;
    expect R_PAREN ;; mret tt) ;;
  complete m COMPUTATION_ACTION ;; mret tt.

(** [!p.at(ELSIF_KW) && !p.at(ELSE_KW) && !p.at(END_KW)]. *)
Definition not_at_branch_end : Parser → bool := (! at_ ELSIF_KW && ! at_ ELSE_KW && ! at_ END_KW)%P.

Section actions.
Context (behavior_actions : M unit).

(** crates/spar-annex/src/ba/grammar.rs:363-373 [action_block] *)
Definition action_block_with : M unit :=
  m ← start;
  bump L_CURLY ;;
  when (! at_ R_CURLY) behavior_actions ;;
  expect R_CURLY ;;
  complete m ACTION_BLOCK ;; mret tt.

(** crates/spar-annex/src/ba/grammar.rs:532-573 [if_statement] *)
Definition if_statement : M unit :=
  m ← start;
  bump IF_KW ;;
  expect L_PAREN ;;
  expression ;;
  expect R_PAREN ;;
  when not_at_branch_end behavior_actions ;;
  while (at_ ELSIF_KW) (
    em ← start;
    bump ELSIF_KW ;;
    expect L_PAREN ;;
    expression ;;
    expect R_PAREN ;;
    when not_at_branch_end behavior_actions ;;
    complete em ELSIF_CLAUSE ;; mret tt) ;;
  when (at_ ELSE_KW) (
    em ← start;
    bump ELSE_KW ;;
    when (! at_ END_KW) behavior_actions ;;
    complete em ELSE_CLAUSE ;; mret tt) ;;
  expect END_KW ;;
  expect IF_KW ;;
  complete m IF_STATEMENT ;; mret tt.

(** The head and the body [for] and [forall] share. *)
Definition quantified (keyword node : BaKind) : M unit :=
  m ← start;
  bump keyword ;;
  expect L_PAREN ;;
  ident_or_error "expected loop variable name" ;;
  expect COLON ;;
  type_reference ;;
  expect IN_KW ;;
  expression ;;
  b ← eat DOT_DOT;
  (if (b : bool) then expression else mret tt) ;;
  expect R_PAREN ;;
  when (at_ L_CURLY) action_block_with ;;
  complete m node ;; mret tt.

(** crates/spar-annex/src/ba/grammar.rs:576-604 [for_statement] *)
Definition for_statement : M unit := quantified FOR_KW FOR_STATEMENT.

(** crates/spar-annex/src/ba/grammar.rs:607-631 [forall_statement] *)
Definition forall_statement : M unit := quantified FORALL_KW FORALL_STATEMENT.

(** crates/spar-annex/src/ba/grammar.rs:634-647 [while_statement] *)
Definition while_statement : M unit :=
  m ← start;
  bump WHILE_KW ;;
  expect L_PAREN ;;
  expression ;;
  expect R_PAREN ;;
  when (at_ L_CURLY) action_block_with ;;
  complete m WHILE_STATEMENT ;; mret tt.

(** crates/spar-annex/src/ba/grammar.rs:650-663 [do_until_statement] *)
Definition do_until_statement : M unit :=
  m ← start;
  bump DO_KW ;;
  behavior_actions ;;
  expect UNTIL_KW ;;
  expect L_PAREN ;;
  expression ;;
  expect R_PAREN ;;
  complete m DO_UNTIL_STATEMENT ;; mret tt.

(** crates/spar-annex/src/ba/grammar.rs:401-453 [behavior_action] *)
Definition behavior_action : M unit :=
  m ← start;
  (IF at_ IF_KW THEN if_statement
   ELSE IF at_ FOR_KW THEN for_statement
   ELSE IF at_ FORALL_KW THEN forall_statement
   ELSE IF at_ WHILE_KW THEN while_statement
   ELSE IF at_ DO_KW THEN do_until_statement
   ELSE IF at_ COMPUTATION_KW THEN computation_action
   ELSE IF ! at_end && ! at_ R_CURLY && ! at_ SEMICOLON && ! at_ AMP
     THEN parse_action_starting_with_name
   ELSE error "expected behavior action") ;;
  complete m BEHAVIOR_ACTION ;; mret tt.

(** crates/spar-annex/src/ba/grammar.rs:377-397 [behavior_actions] *)
Definition behavior_actions_with : M unit :=
  m ← start;
  behavior_action ;;
  iter (λ _,
    IF ! at_end && ! at_ R_CURLY THEN
      b ← eat SEMICOLON;
      if (b : bool) then
        IF at_ R_CURLY || at_end THEN mret (inr tt)
        ELSE behavior_action ;; mret (inl tt)
      else
        b ← eat AMP;
        if (b : bool) then behavior_action ;; mret (inl tt) else mret (inr tt)
    ELSE mret (inr tt)) tt ;;
  complete m BEHAVIOR_ACTIONS ;; mret tt.
End actions.

(** crates/spar-annex/src/ba/grammar.rs:377-397 [behavior_actions]: a statement
    consumes its keyword before its actions. *)
Fixpoint actions_n (n : nat) : M unit :=
  match n with O => stuck | S n => behavior_actions_with (actions_n n) end.

(** crates/spar-annex/src/ba/grammar.rs:377-397 [behavior_actions] *)
Definition behavior_actions : M unit := λ p, actions_n (S (remaining p)) p.

(** crates/spar-annex/src/ba/grammar.rs:363-373 [action_block] *)
Definition action_block : M unit := action_block_with behavior_actions.

(** crates/spar-annex/src/ba/grammar.rs:693-701 [timeout_clause] *)
Definition timeout_clause : M unit :=
  m ← start;
  bump TIMEOUT_KW ;;
  when (! at_ SEMICOLON && ! at_end) expression ;;
  complete m TIMEOUT_CLAUSE ;; mret tt.

(** ** Sections *)

(** crates/spar-annex/src/ba/grammar.rs:54-83 [behavior_variable] *)
Definition behavior_variable : M unit :=
  m ← start;
  ident_or_error "expected variable name" ;;
  while_eat COMMA (ident_or_error "expected variable name after ','") ;;
  expect COLON ;;
  type_reference ;;
  b ← eat COLON_EQ;
  (if (b : bool) then expression else mret tt) ;;
  expect SEMICOLON ;;
  complete m BEHAVIOR_VARIABLE ;; mret tt.

(** crates/spar-annex/src/ba/grammar.rs:46-48 [behavior_variables_section]: the
    loop.  An iteration need not consume a token. *)
Definition variables_loop : M unit :=
  while (! at_end && ! at_ STATES_KW && ! at_ TRANSITIONS_KW) behavior_variable.

(** crates/spar-annex/src/ba/grammar.rs:42-51 [behavior_variables_section] *)
Definition behavior_variables_section : M unit :=
  m ← start;
  bump VARIABLES_KW ;;
  variables_loop ;;
  complete m BEHAVIOR_VARIABLES_SECTION ;; mret tt.

(** crates/spar-annex/src/ba/grammar.rs:104-139 [behavior_state] *)
Definition behavior_state : M unit :=
  m ← start;
  bump IDENT ;;
  while_eat COMMA (ident_or_error "expected state name after ','") ;;
  expect COLON ;;
  km ← start;
  has_qualifier ← iter (λ has_qualifier : bool,
    IF at_ INITIAL_KW || at_ COMPLETE_KW || at_ FINAL_KW THEN
      bump_any ;; mret (inl true)
    ELSE mret (inr has_qualifier)) false;
  (if (has_qualifier : bool) then complete km STATE_KIND_LIST ;; mret tt else abandon km) ;;
  expect STATE_KW ;;
  expect SEMICOLON ;;
  complete m BEHAVIOR_STATE ;; mret tt.

(** crates/spar-annex/src/ba/grammar.rs:88-101 [behavior_states_section] *)
Definition behavior_states_section : M unit :=
  m ← start;
  bump STATES_KW ;;
  while (! at_end && ! at_ TRANSITIONS_KW) (
    IF at_ IDENT THEN behavior_state
    ELSE err_and_bump "expected state declaration") ;;
  complete m BEHAVIOR_STATES_SECTION ;; mret tt.

(** crates/spar-annex/src/ba/grammar.rs:230-244 [has_transition_name] *)
Definition has_transition_name : Parser → bool :=
  ((nth_is 1 COLON && ! nth_is 2 COLON) ||
   (nth_is 1 L_PAREN && nth_is 2 INT_LIT && nth_is 3 R_PAREN && nth_is 4 COLON))%P.

(** crates/spar-annex/src/ba/grammar.rs:162-226 [behavior_transition] *)
Definition behavior_transition : M unit :=
  m ← start;
  when (at_ IDENT && has_transition_name) (
    bump IDENT ;;
    when (at_ L_PAREN && nth_is 1 INT_LIT) (
      bump L_PAREN ;;
      bump INT_LIT ;;
      expect R_PAREN ;; mret tt) ;;
    expect COLON ;; mret tt) ;;
  sl ← start;
  when (at_ IDENT) (bump IDENT) ;;
  while_eat COMMA (ident_or_error "expected source state name") ;;
  complete sl SOURCE_STATE_LIST ;;
  expect TRANS_OPEN ;;
  when (! at_ TRANS_CLOSE) transition_guard ;;
  expect TRANS_CLOSE ;;
  ident_or_error "expected destination state" ;;
  when (at_ L_CURLY) action_block ;;
  when (at_ TIMEOUT_KW) timeout_clause ;;
  expect SEMICOLON ;;
  complete m BEHAVIOR_TRANSITION ;; mret tt.

(** crates/spar-annex/src/ba/grammar.rs:144-159 [behavior_transitions_section] *)
Definition behavior_transitions_section : M unit :=
  m ← start;
  bump TRANSITIONS_KW ;;
  while (! at_end) (
    IF at_ IDENT || at_ TRANS_OPEN THEN behavior_transition
    ELSE err_and_bump "expected transition declaration") ;;
  complete m BEHAVIOR_TRANSITIONS_SECTION ;; mret tt.

(** ** The annex *)

(** crates/spar-annex/src/ba/grammar.rs:13-37 [root] *)
Definition sections : M unit :=
  when (at_ VARIABLES_KW) behavior_variables_section ;;
  when (at_ STATES_KW) behavior_states_section ;;
  when (at_ TRANSITIONS_KW) behavior_transitions_section ;;
  while (! at_end) (err_and_bump "unexpected token in behavior annex").

(** crates/spar-annex/src/ba/grammar.rs:13-37 [root] *)
Definition root : M unit :=
  m ← start;
  sections ;;
  complete m BA_ROOT ;; mret tt.
