(* ===== verification/BaGrammarSpec.v ===== *)
(** * The behaviour annex grammar is total

    The specification of every function of [BaGrammar]: it returns from any
    state, within a bounded number of events.  The variables section is the
    exception: the next token decides whether a declaration consumes one, and
    at a token that it does not the loop of the section stalls. *)
From S2P Require Import Prelude.
From S2P Require Export Stalls.
From S2P Require Export BaGrammar.
#[local] Open Scope nat_scope.

Section specs.
Context {TS : TokenStream BaKind}.

#[export] Instance ident_or_error_adds msg : Adds (ident_or_error msg) 1 1.
Proof. spec ident_or_error. steps. Qed.
#[export] Instance name_or_error_adds msg : Adds (name_or_error msg) 1 1.
Proof. spec name_or_error. steps. Qed.

(** ** Types and names *)

(** A continuation that closes the marker [m]. *)
Lemma qualified_tail_run m fs r c :
  extensible fs → 4 ≤ c → run (FOpen m true :: fs) r c (qualified_tail (N.of_nat m)) (Keeps fs r (c - 4)).
Proof. intros Hx Hc. unfold qualified_tail. steps. Qed.
#[local] Ltac tail H :=
  eapply run_conseq; [eapply H; first [once (typeclasses eauto)|assumption|cbn [length] in *; lia]|]; intros ? ? ? ? (-> & ? & ?); fin.

#[export] Instance qualified_name_adds : Adds qualified_name 4 2.
Proof. spec qualified_name. steps; try tail qualified_tail_run. Qed.

#[export] Instance type_reference_adds : Adds type_reference 4 2.
Proof. spec type_reference. steps. Qed.

(** ** Expressions *)
Section expression.
Context (expr : M unit) (N : nat) `{!AddsL expr N 8 2}.

#[export] Instance array_index_addsl : AddsL (array_index expr) (S N) 2 0.
Proof. spec @array_index. steps. Qed.

Lemma name_tail_run m fs r c :
  extensible fs → length r < S N → 6 ≤ c →
  run (FOpen m true :: fs) r c (name_tail expr (N.of_nat m)) (Keeps fs r (c - 6)).
Proof. intros Hx Hn Hc. unfold name_tail. steps. Qed.

Definition k_name (r : list BaKind) : bool := kind_eqb (knth 0 r) IDENT || is_keyword (knth 0 r).
#[local] Hint Unfold k_name : tests.

#[export] Instance name_reference_with_addsl : AddsL (name_reference_with expr) (S N) 4 3.
Proof. spec @name_reference_with. steps; try tail name_tail_run. Qed.
#[export] Instance name_reference_with_eatsl : EatsL (name_reference_with expr) k_name (S N) 2 20.
Proof.
  spec @name_reference_with. unfold k_name in *. steps; try tail name_tail_run. by use_bools.
Qed.

Lemma ba_primary_node : NodeL (primary_expr expr) (S N).
Proof.
  spec @primary_expr.
  do 8 (branch; [steps; node|]). steps. split_and!; [done|lia|lia].
Qed.

Lemma unary_node : NodeL (unary_expr expr) (S N).
Proof.
  pose proof ba_primary_node. spec @unary_expr. branch; [steps; node|]. by apply ba_primary_node.
Qed.

(** A level whose operator does not chain. *)
Lemma binary_once_node f h `{!Sem f h} op operand :
  (∀ fs r c, extensible fs → h r = true → 1 ≤ c → run fs r c op (Moves fs r (c + 20))) →
  NodeL operand (S N) → NodeL (binary_once f op operand) (S N).
Proof.
  intros Hop Ho fs r c Hx Hn Hc. unfold binary_once. apply run_bind.
  eapply run_conseq; [by eapply nodel|].
  intros [lhs|] fs1 r1 c1; [|intros (-> & Hl & Hc1); apply run_ret; by split_and!].
  intros (m & -> & -> & Hl & Hc1). apply run_weaken with (c0 := c + 10); [lia|].
  apply (run_cond f h); intros Hh.
  - apply run_bind, run_precede; [lia|]. intros m'. cbv beta.
    apply run_bind, run_joinm with (c0 := c + 10 - 1 + 20); [by apply Hop; [..|lia]|].
    intros ? r2 Hr2. cbv beta. step. step. node.
  - apply run_ret. exists m. split_and!; [done|done|lia|lia].
Qed.

Lemma op_moves (f : list BaKind → bool) :
  f [] = false → ∀ fs r c, extensible fs → f r = true → 1 ≤ c → run fs r c bump_any (Moves fs r (c + 20)).
Proof.
  intros H0 fs r c Hx Hh Hc. apply run_bump_any; [done| |took; fin]. intros ->. congruence.
Qed.

Lemma bump_moves k :
  k ≠ EOF → ∀ fs r c, extensible fs → kind_eqb (knth 0 r) k = true → 1 ≤ c →
  run fs r c (bump k) (Moves fs r (c + 20)).
Proof. intros Hk fs r c Hx Hh Hc. apply run_bump; [done|by apply kind_eqb_true|done|took; fin]. Qed.

Lemma or_expr_addsl : AddsL (or_expr expr) (S N) 8 2.
Proof.
  pose proof unary_node as Hu.
  assert (Hrel : NodeL (relational_expr expr) (S N)).
  { eapply binary_once_node; [once (typeclasses eauto)|by apply op_moves|].
    eapply binary_operands_node; [once (typeclasses eauto)|by apply op_moves|done|].
    eapply binary_operands_node; [once (typeclasses eauto)|by apply op_moves|done|].
    eapply binary_once_node; [once (typeclasses eauto)|by apply bump_moves|done]. }
  assert (Hor : NodeL (binary_operands (at_ OR_KW) (bump OR_KW) (xor_expr expr) BINARY_EXPR) (S N)).
  { do 3 (eapply binary_operands_node; [once (typeclasses eauto)|by apply bump_moves|done|]). done. }
  spec @or_expr. steps.
Qed.
End expression.

Lemma expr_n_addsl n : AddsL (expr_n n) n 8 2.
Proof. induction n as [|n IH]; [intros fs r c; lia|]. by apply or_expr_addsl. Qed.
#[export] Instance expression_adds : Adds expression 8 2.
Proof. apply Adds_fuel, expr_n_addsl. Qed.
#[export] Instance expression_addsl N : AddsL expression N 8 2.
Proof. intros fs r c Hx _ Hc. by apply expression_adds. Qed.
#[export] Instance name_reference_adds : Adds name_reference 4 3.
Proof. intros fs r c Hx Hc. apply (name_reference_with_addsl _ (length r)); [done|lia|done]. Qed.
#[export] Instance name_reference_eats : Eats name_reference k_name 2 20.
Proof. intros fs r c Hx Hh Hc. apply (name_reference_with_eatsl _ (length r)); [done|lia|done|done]. Qed.

(** ** Dispatch conditions *)

#[export] Instance frozen_port_list_eats : Eats frozen_port_list (k_at FROZEN_KW) 2 20.
Proof. spec frozen_port_list. unfold k_at in *. facts. steps. Qed.
#[export] Instance dispatch_trigger_conjunction_adds : Adds dispatch_trigger_conjunction 4 3.
Proof. spec dispatch_trigger_conjunction. steps. Qed.
#[export] Instance dispatch_trigger_logical_expr_adds : Adds dispatch_trigger_logical_expr 6 5.
Proof. spec dispatch_trigger_logical_expr. steps. Qed.
#[export] Instance dispatch_condition_eats :
  Eats dispatch_condition (λ r, k_at ON_KW r && kind_eqb (knth 1 r) DISPATCH_KW) 2 20.
Proof. spec dispatch_condition. unfold k_at in *. facts. join 20; steps. Qed.
#[export] Instance transition_guard_adds : Adds transition_guard 10 5.
Proof. spec transition_guard. steps. Qed.

(** ** Actions *)

#[export] Instance subprogram_call_params_eats : Eats subprogram_call_params (k_at L_PAREN) 2 20.
Proof. spec subprogram_call_params. unfold k_at in *. facts. steps. Qed.
#[export] Instance parse_action_starting_with_name_adds : Adds parse_action_starting_with_name 6 5.
Proof. spec parse_action_starting_with_name. steps. Qed.
#[export] Instance computation_action_eats : Eats computation_action (k_at COMPUTATION_KW) 2 20.
Proof. spec computation_action. unfold k_at in *. facts. steps. Qed.

Section actions.
Context (behavior_actions : M unit) (N : nat) `{!AddsL behavior_actions N 12 10}.

#[export] Instance action_block_with_eatsl : EatsL (action_block_with behavior_actions) (k_at L_CURLY) (S N) 2 20.
Proof. spec @action_block_with. unfold k_at in *. facts. steps. Qed.
#[export] Instance if_statement_eatsl : EatsL (if_statement behavior_actions) (k_at IF_KW) (S N) 2 20.
Proof. spec @if_statement. unfold not_at_branch_end, k_at in *. facts. steps. Qed.
#[export] Instance for_statement_eatsl : EatsL (for_statement behavior_actions) (k_at FOR_KW) (S N) 2 20.
Proof. spec @for_statement. unfold quantified, k_at in *. facts. steps. Qed.
#[export] Instance forall_statement_eatsl :
  EatsL (forall_statement behavior_actions) (k_at FORALL_KW) (S N) 2 20.
Proof. spec @forall_statement. unfold quantified, k_at in *. facts. steps. Qed.
#[export] Instance while_statement_eatsl : EatsL (while_statement behavior_actions) (k_at WHILE_KW) (S N) 2 20.
Proof. spec @while_statement. unfold k_at in *. facts. steps. Qed.
#[export] Instance do_until_statement_eatsl :
  EatsL (do_until_statement behavior_actions) (k_at DO_KW) (S N) 2 20.
Proof. spec @do_until_statement. unfold k_at in *. facts. steps. Qed.

#[export] Instance behavior_action_addsl : AddsL (behavior_action behavior_actions) (S N) 9 8.
Proof. spec @behavior_action. join 6; steps. Qed.

Lemma behavior_actions_with_addsl : AddsL (behavior_actions_with behavior_actions) (S N) 12 10.
Proof.
  spec @behavior_actions_with. do 7 step; [|steps..].
  apply run_bind, run_eat; [done|done|intros ? ->|intros Hs]; [steps|].
  apply run_bind, run_eat; [done|done|intros ? ->|intros Ha]; steps.
Qed.
End actions.

Lemma actions_n_addsl n : AddsL (actions_n n) n 12 10.
Proof. induction n as [|n IH]; [intros fs r c; lia|]. by apply behavior_actions_with_addsl. Qed.
#[export] Instance behavior_actions_adds : Adds behavior_actions 12 10.
Proof. apply Adds_fuel, actions_n_addsl. Qed.
#[export] Instance action_block_eats : Eats action_block (k_at L_CURLY) 2 20.
Proof. spec action_block. unfold action_block_with, k_at in *. facts. steps. Qed.

#[export] Instance timeout_clause_eats : Eats timeout_clause (k_at TIMEOUT_KW) 2 20.
Proof. spec timeout_clause. unfold k_at in *. facts. steps. Qed.

(** ** Sections *)

#[export] Instance behavior_state_eats : Eats behavior_state (k_at IDENT) 2 20.
Proof.
  spec behavior_state. unfold k_at in *. facts.
  (* the two branches leave different markers: no join *)
  repeat lazymatch goal with
  | |- run _ _ _ ((if _ then _ else _) ≫= _) _ => apply run_bind, run_if
  | _ => step
  end.
Qed.
#[export] Instance behavior_states_section_eats : Eats behavior_states_section (k_at STATES_KW) 2 20.
Proof. spec behavior_states_section. unfold k_at in *. facts. steps. Qed.
#[export] Instance behavior_transition_eats :
  Eats behavior_transition (λ r, k_at IDENT r || k_at TRANS_OPEN r) 4 20.
Proof.
  spec behavior_transition. unfold k_at in *. do 2 step.
  destruct (kind_eqb (knth 0 r) IDENT) eqn:Hi.
  - (* the name, or the first source state *)
    unfold when at 1. apply run_bind. branch; [steps|]. apply run_ret. do 2 step.
    unfold when at 1. apply run_bind. branch; [steps|congruence].
  - (* the bracket *)
    apply kind_eqb_true in H. destruct (knth_head _ _ H) as [r' ->]; [done|].
    unfold when at 1. apply run_bind. branch; [done|]. apply run_ret. do 2 step.
    unfold when at 1. apply run_bind. branch; [done|]. apply run_ret.
    apply run_bind, run_while_eat_none; [done..|]. do 2 step.
    apply run_bind, run_expect_here; [done..|]. steps.
Qed.
#[export] Instance behavior_transitions_section_eats :
  Eats behavior_transitions_section (k_at TRANSITIONS_KW) 2 20.
Proof. spec behavior_transitions_section. unfold k_at in *. facts. steps. Qed.
End specs.

(** ** The variables section *)
Section variables.
Context {TS : TokenStream BaKind}.

Definition s_ident (k : BaKind) : bool := kind_eqb k IDENT.
Definition s_name (k : BaKind) : bool := kind_eqb k IDENT || is_keyword k.
(** The tokens that a declaration consumes. *)
Definition s_variable (k : BaKind) : bool :=
  s_name k || existsb (kind_eqb k) [COMMA; COLON; COLON_EQ; SEMICOLON].
#[local] Hint Unfold s_ident s_name s_variable : tests.

#[export] Instance ident_or_error_decides msg N : Decides (ident_or_error msg) s_ident N 1 1 60.
Proof. advance ident_or_error. Qed.
#[export] Instance qualified_name_decides N : Decides qualified_name s_name N 4 2 40.
Proof. advance qualified_name qualified_tail. Qed.
#[export] Instance type_reference_decides N : Decides type_reference s_name N 4 2 40.
Proof. advance type_reference. Qed.
Lemma behavior_variable_decides N : Decides behavior_variable s_variable N 7 7 10.
Proof. advance behavior_variable. Qed.
End variables.

(** At a token that is neither a name nor [,], [:], [:=] or [;], the loop
    stays. *)
Lemma variables_section_run {TS : TokenStream BaKind} fs r c :
  may_stall → extensible fs → k_at VARIABLES_KW r = true → 2 ≤ c →
  run fs r c behavior_variables_section (Moves fs r (c + 20)).
Proof.
  intros Hs Hx Hk Hc. unfold behavior_variables_section, k_at in *. do 4 step.
  apply run_bind. eapply (run_while_stalls _ _ _ s_variable 7 7 10);
    [done|once (typeclasses eauto)|intros TS' N; by apply behavior_variable_decides|lia|lia|done|lia|].
  intros r2 Hr2 _. cbv beta. steps.
Qed.
