(* ===== verification/BaParsing.v ===== *)
(** * Parsing the behaviour annex

    [parse] of [crates/spar-annex/src/ba/mod.rs], and the theorem that it
    loses nothing of a text without a variables section. *)
From S2P Require Import Prelude.
From S2P Require BaKind.
From S2P Require Export BaGrammarSpec.
From S2P Require Export Stalls.
From S2P Require Export AnnexParsing.
#[local] Open Scope nat_scope.

(** ** The lexer *)

Lemma ba_scan_ok c :
  Sound c → is_eof c = false → (byte_code (Cursor.current c) < 128)%N → Tok (BaKind.scan_kind c) c.
Proof.
  intros Hs He Ha. unfold BaKind.scan_kind. cbv zeta. annex_operators.
  destruct (is_digit (Cursor.current c)) eqn:?; [by apply (Tok_annex_number (λ real, if real then REAL_LIT else INT_LIT))|].
  destruct (is_ident_start (Cursor.current c)) eqn:?.
  { by apply (Tok_annex_word (λ t, match from_keyword t with Some k => k | None => IDENT end)). }
  by apply Tok_current.
Qed.

Lemma ba_scan_not_eof c : Emits (λ k, k ≠ eof) (BaKind.scan_kind c).
Proof.
  unfold BaKind.scan_kind. cbv zeta. emits.
  - destruct x as [real c']. emits. by destruct real.
  - destruct x as [text c']. emits. destruct (from_keyword text) eqn:E; [|done].
    exact (keyword_not_eof (V := ba) keyword_table _ _ eq_refl E).
Qed.

(** ** The grammar *)

(** The variables section is read if it comes first. *)
Definition starts_variables (ks : list BaKind) : Prop := knth 0 ks = VARIABLES_KW.

Lemma sections_run {TS : TokenStream BaKind} fs r c Φ :
  (starts_variables r → may_stall) →
  extensible fs → 6 ≤ c → Φ tt fs [] (c - 1) → run fs r c sections Φ.
Proof.
  intros Hs Hx Hc H. unfold sections. apply run_bind. eapply run_when with (c0 := c - 1);
    [once (typeclasses eauto)|lia| |].
  - intros Hv. eapply run_conseq; [apply variables_section_run; [|done|exact Hv|lia]|].
    { by apply Hs, kind_eqb_true. }
    intros ? ? ? ? (-> & ? & ?). fin.
  - intros r' Hr'. cbv beta. steps. by destruct r'2.
Qed.

(** [root] returns, having read everything, or it stalls in the variables
    section. *)
Lemma ba_root_runs : TotalUnless starts_variables (λ r, r = []) root BA_ROOT.
Proof.
  apply (root_total_unless _ _ sections BA_ROOT); [done|]. intros TS Hs m.
  apply sections_run; [done|done|lia|]. split_and!; [done|done|lia].
Qed.

(** The variables section does not recover from errors.  At a token that
    is neither a name nor [,], [:], [:=] or [;] the loop of
    [behavior_variables_section] consumes nothing, so it does not return:
    not within any number of iterations whose events 32-bit positions can
    address. *)
Theorem variables_loop_stalls {TS : TokenStream BaKind} fs r c p n :
  extensible fs → r ≠ [] → s_variable (knth 0 r) = false → 7 * n ≤ c → St fs r c p →
  iter_fuel n (λ _, cond (! at_end && ! at_ STATES_KW && ! at_ TRANSITIONS_KW)%P
    (behavior_variable ;; mret (inl tt)) (mret (inr tt))) tt p = Stuck.
Proof.
  intros Hx Hr Hk Hc Hp. rewrite Nat.mul_comm in Hc.
  eapply while_stalls; [once (typeclasses eauto)| | |exact Hc|done].
  - destruct r as [|k r]; [done|]. simpl in *. by destruct k.
  - intros c' Hc'. pose proof (behavior_variable_decides _ fs r c' Hx (Nat.lt_succ_diag_r _) Hc') as H.
    by rewrite Hk in H.
Qed.

(** The section [variables )], after its keyword. *)
Lemma variables_loop_stalls_witness :
  let tokens := [(R_PAREN, 1)] in let src := list_ascii_of_string ")" in
  let p := {| all_tokens := tokens; non_trivia_indices := [0]; pos := 0;
              events := [Start tombstone None]; source := src; token_starts := [0] |} in
  ∃ TS : TokenStream BaKind,
  (extensible [FOpen 0 true] ∧ [R_PAREN] ≠ [] ∧ s_variable (knth 0 [R_PAREN]) = false ∧ 7 * 100 ≤ 900 ∧
   St [FOpen 0 true] [R_PAREN] 900 p) ∧
  iter_fuel 100 (λ _, cond (! at_end && ! at_ STATES_KW && ! at_ TRANSITIONS_KW)%P
    (behavior_variable ;; mret (inl tt)) (mret (inr tt))) tt p = Stuck.
Proof.
  intros tokens src p. assert (Hok : tokens_ok tokens src).
  { constructor; [by repeat constructor|]. intros [|[|i]] start k len Hs Hl; [|done..].
    simpl in Hs, Hl. simplify_eq. by eexists. }
  exists {| in_tokens := tokens; in_src := src; room := 1000; in_ok := Hok;
            room_bound := ltac:(vm_compute; discriminate);
            may_stall := False; stall_room := False_ind _ |}.
  set (TS := Build_TokenStream _ _ _ _ _ _ _ _ _ _).
  assert (Hp : @St _ _ _ TS [FOpen 0 true] [R_PAREN] 900 p).
  { constructor; try done; [by exists [], [], []; split_and!; try done; constructor|simpl; lia]. }
  assert (Hc : 7 * 100 ≤ 900) by lia. assert (Hr : [R_PAREN] ≠ []) by done. split; [by split_and!|].
  exact (@variables_loop_stalls TS [FOpen 0 true] [R_PAREN] 900 p 100 I Hr eq_refl Hc Hp).
Defined.

(** ** The parse *)

(** crates/spar-annex/src/ba/mod.rs:112-118 [parse] *)
Definition parse `{GreenNodeBuilder BaKind} (source : bytes) : Exec (Parse green_node) :=
  annex_parse BaKind.scan_kind root source.

(** C5: Parsing a behaviour annex loses nothing.  For any UTF-8 source whose
    events fit 32-bit positions and in which every token starts at an ASCII
    byte, [parse] returns a tree under [BA_ROOT] whose leaves are the tokens
    of the lexer, with their kinds and texts, each once and in order, whether
    or not the source is a valid annex, and every error is reported at an
    offset of the source; or the source starts with a variables section, and
    [parse] does not return.  In no case does it panic. *)
Theorem ba_parse_lossless `{G : GreenNodeBuilder BaKind, !GreenNodeBuilderLaws G} s :
  utf8 s → ascii_starts BaKind.tokenize s = true → (128 * (N.of_nat (length s) + 1) ≤ U32_MAX)%N →
  (∃ pr ts texts, parse s = Done pr ∧ tree_of (green pr) = Node BA_ROOT ts ∧
    BaKind.tokenize s = Done (lengths texts) ∧ leaves (Node BA_ROOT ts) = texts ∧
    tree_text (tree_of (green pr)) = s ∧ Forall (λ e, offset e ≤ length s) (errors pr)) ∨
  (knth 0 (token_kinds BaKind.scan_kind s) = VARIABLES_KW ∧ parse s = Stuck).
Proof.
  intros Hs Ha Hl.
  exact (annex_parse_lossless _ _ ba_scan_ok ba_scan_not_eof _ _ _ _ ba_root_runs ltac:(discriminate) Hs Ha Hl).
Qed.

Import StackBuilder.

(** An annex with every kind of section, and a stray token. *)
Definition ba_example : bytes :=
  list_ascii_of_string "variables v : T; states s : initial state; t : final state;
transitions -- moves
s -[ on dispatch p ]-> t { x := a[1] + 2 * y.z; if (x > 1) p!(x) end if }; ) ".

Lemma ba_parse_lossless_witness :
  utf8 ba_example ∧ ascii_starts BaKind.tokenize ba_example = true ∧
  (128 * (N.of_nat (length ba_example) + 1) ≤ U32_MAX)%N ∧
  ((∃ (pr : Parse (@green_node BaKind stack_builder)) ts texts, parse ba_example = Done pr ∧
    tree_of (green pr) = Node BA_ROOT ts ∧ BaKind.tokenize ba_example = Done (lengths texts) ∧
    leaves (Node BA_ROOT ts) = texts ∧ tree_text (tree_of (green pr)) = ba_example ∧
    Forall (λ e, offset e ≤ length ba_example) (errors pr)) ∨
   (knth 0 (token_kinds BaKind.scan_kind ba_example) = VARIABLES_KW ∧
    parse (H := stack_builder) ba_example = Stuck)).
Proof.
  assert (Hs : utf8 ba_example) by (apply utf8_ascii; repeat constructor).
  assert (Ha : ascii_starts BaKind.tokenize ba_example = true) by (vm_compute; reflexivity).
  assert (Hl : (128 * (N.of_nat (length ba_example) + 1) ≤ U32_MAX)%N) by (vm_compute; discriminate).
  split; [exact Hs|split; [exact Ha|split; [exact Hl|]]].
  exact (ba_parse_lossless (G := stack_builder) ba_example Hs Ha Hl).
Defined.

(** It returns: the variables section is well formed. *)
Example ba_example_returns : parse (H := stack_builder) ba_example ≠ Stuck.
Proof. by vm_compute. Qed.

(** A token that starts inside a character: the slice of the tree builder
    panics. *)
Example ba_stray_character :
  parse (H := stack_builder) ["195"; "169"]%char = Panic.
Proof. by vm_compute. Qed.
