(* ===== verification/SysmlKind.v ===== *)
(** * The kinds of SysML v2

    [crates/spar-sysml2/src/syntax_kind.rs].  The enum has more than 128
    kinds, but fewer than 256. *)
From S2P Require Import Prelude.
From S2P Require Export Text.
From S2P Require Export Vocabulary.
From S2P Require Export Cursor.
#[local] Open Scope nat_scope.

(** crates/spar-sysml2/src/syntax_kind.rs:9-416 [SyntaxKind] *)
Inductive SysmlKind :=
  | TOMBSTONE | EOF | ERROR | WHITESPACE | LINE_COMMENT | BLOCK_COMMENT | SEMICOLON |
  COLON | COMMA | DOT | DOT_DOT | L_PAREN | R_PAREN | L_CURLY | R_CURLY | L_BRACKET |
  R_BRACKET | EQ | FAT_ARROW | COLON_GT | COLON_GT_GT | TILDE_GT | TILDE | COLON_COLON |
  STAR | PLUS | MINUS | SLASH | GT | LT | GT_EQ | LT_EQ | EQ_EQ | BANG_EQ | HASH | AT |
  INTEGER_LIT | REAL_LIT | STRING_LIT | TRUE_KW | FALSE_KW | IDENT | PACKAGE_KW |
  IMPORT_KW | PART_KW | PORT_KW | CONNECTION_KW | ACTION_KW | STATE_KW | REQUIREMENT_KW
  | CONSTRAINT_KW | INTERFACE_KW | ATTRIBUTE_KW | ITEM_KW | ENUM_KW | ALLOCATION_KW |
  ANALYSIS_KW | CASE_KW | CALC_KW | CONCERN_KW | DECIDE_KW | DEF_KW | DOC_KW | ENTRY_KW
  | EXHIBIT_KW | EXIT_KW | EXPOSE_KW | FLOW_KW | FORK_KW | FILTER_KW | FIRST_KW | IF_KW
  | IN_KW | INOUT_KW | JOIN_KW | MERGE_KW | METADATA_KW | OCCURRENCE_KW | OUT_KW |
  PERFORM_KW | PRIVATE_KW | PROTECTED_KW | PUBLIC_KW | READONLY_KW | REDEFINES_KW |
  REF_KW | RENDERING_KW | RETURN_KW | SATISFY_KW | VERIFY_KW | REFINE_KW | ALLOCATE_KW |
  DERIVE_KW | SEND_KW | SNAPSHOT_KW | SPECIALIZES_KW | STAKEHOLDER_KW | SUBJECT_KW |
  SUCCESSION_KW | THEN_KW | TIMESLICE_KW | TO_KW | TRANSITION_KW | USE_KW | VARIANT_KW |
  VERIFICATION_KW | VIEW_KW | VIEWPOINT_KW | ABSTRACT_KW | ALIAS_KW | ALL_KW | AND_KW |
  AS_KW | ASSIGN_KW | ASSOC_KW | BIND_KW | BY_KW | CHAINS_KW | COMMENT_KW | CONNECT_KW |
  DEPENDENCY_KW | DERIVED_KW | DIFFERENCES_KW | DISJOINING_KW | DISJOINT_KW | ELSE_KW |
  END_KW | FEATURE_KW | FEATURING_KW | FROM_KW | HASTYPE_KW | IMPLIES_KW | INDIVIDUAL_KW
  | INTERSECTING_KW | INTERSECTS_KW | ISTYPE_KW | LANGUAGE_KW | LIBRARY_KW | LOCALE_KW |
  LOOP_KW | MESSAGE_KW | MULTIPLICITY_KW | NAMESPACE_KW | NONUNIQUE_KW | NOT_KW |
  NULL_KW | OF_KW | OR_KW | ORDERED_KW | PARALLEL_KW | PORTION_KW | PREDICATE_KW |
  RECEPTION_KW | RELATIONSHIP_KW | REP_KW | STRUCT_KW | SUBCLASSIFIER_KW | SUBSET_KW |
  SUBSETS_KW | SUPERSET_KW | SUPERSETS_KW | TYPED_KW | TYPING_KW | UNIONING_KW |
  UNIONS_KW | WHILE_KW | XOR_KW | SOURCE_FILE | PACKAGE | IMPORT_DECL | ALIAS_DECL |
  NAMESPACE_BODY | NAME | QUALIFIED_NAME | FEATURE_CHAIN | PART_DEF | PORT_DEF |
  CONNECTION_DEF | ACTION_DEF | STATE_DEF | ATTRIBUTE_DEF | ITEM_DEF | INTERFACE_DEF |
  ENUM_DEF | REQUIREMENT_DEF | CONSTRAINT_DEF | CALC_DEF | ALLOCATION_DEF | PART_USAGE |
  PORT_USAGE | CONNECTION_USAGE | ACTION_USAGE | STATE_USAGE | ATTRIBUTE_USAGE |
  ITEM_USAGE | REF_USAGE | INTERFACE_USAGE | ENUM_USAGE | REQUIREMENT_USAGE |
  CONSTRAINT_USAGE | SATISFY_REQ | VERIFY_REQ | REFINE_REQ | ALLOCATE_REQ | DERIVE_REQ |
  SUBJECT_MEMBER | DOC_MEMBER | NAME_REF | FEATURE_DECL | KERML_CLASSIFIER |
  PERFORM_ACTION_USAGE | SPECIALIZATION | TYPING | CONJUGATION | MULTIPLICITY |
  CONNECT_ENDPOINT | DIRECTION | COMMENT_NODE | DOC_NODE | LITERAL_EXPR | OPERATOR_EXPR
  | FEATURE_REF_EXPR | UNIT_REF | TRANSITION_USAGE | TARGET_TRANSITION_USAGE |
  TRANSITION_SOURCE | TRANSITION_TARGET | TRIGGER | TRIGGER_VIA | GUARD | EFFECT |
  SUCCESSION_USAGE | STATE_ACTION | TARGET_SUCCESSION | FLOW_USAGE | FLOW_DEF |
  FLOW_PAYLOAD | FEATURE_VALUE | __LAST.

(** The kinds in declaration order. *)
Definition sysml_kinds : list SysmlKind :=
  [TOMBSTONE; EOF; ERROR; WHITESPACE; LINE_COMMENT; BLOCK_COMMENT; SEMICOLON; COLON;
  COMMA; DOT; DOT_DOT; L_PAREN; R_PAREN; L_CURLY; R_CURLY; L_BRACKET; R_BRACKET; EQ;
  FAT_ARROW; COLON_GT; COLON_GT_GT; TILDE_GT; TILDE; COLON_COLON; STAR; PLUS; MINUS;
  SLASH; GT; LT; GT_EQ; LT_EQ; EQ_EQ; BANG_EQ; HASH; AT; INTEGER_LIT; REAL_LIT;
  STRING_LIT; TRUE_KW; FALSE_KW; IDENT; PACKAGE_KW; IMPORT_KW; PART_KW; PORT_KW;
  CONNECTION_KW; ACTION_KW; STATE_KW; REQUIREMENT_KW; CONSTRAINT_KW; INTERFACE_KW;
  ATTRIBUTE_KW; ITEM_KW; ENUM_KW; ALLOCATION_KW; ANALYSIS_KW; CASE_KW; CALC_KW;
  CONCERN_KW; DECIDE_KW; DEF_KW; DOC_KW; ENTRY_KW; EXHIBIT_KW; EXIT_KW; EXPOSE_KW;
  FLOW_KW; FORK_KW; FILTER_KW; FIRST_KW; IF_KW; IN_KW; INOUT_KW; JOIN_KW; MERGE_KW;
  METADATA_KW; OCCURRENCE_KW; OUT_KW; PERFORM_KW; PRIVATE_KW; PROTECTED_KW; PUBLIC_KW;
  READONLY_KW; REDEFINES_KW; REF_KW; RENDERING_KW; RETURN_KW; SATISFY_KW; VERIFY_KW;
  REFINE_KW; ALLOCATE_KW; DERIVE_KW; SEND_KW; SNAPSHOT_KW; SPECIALIZES_KW;
  STAKEHOLDER_KW; SUBJECT_KW; SUCCESSION_KW; THEN_KW; TIMESLICE_KW; TO_KW;
  TRANSITION_KW; USE_KW; VARIANT_KW; VERIFICATION_KW; VIEW_KW; VIEWPOINT_KW;
  ABSTRACT_KW; ALIAS_KW; ALL_KW; AND_KW; AS_KW; ASSIGN_KW; ASSOC_KW; BIND_KW; BY_KW;
  CHAINS_KW; COMMENT_KW; CONNECT_KW; DEPENDENCY_KW; DERIVED_KW; DIFFERENCES_KW;
  DISJOINING_KW; DISJOINT_KW; ELSE_KW; END_KW; FEATURE_KW; FEATURING_KW; FROM_KW;
  HASTYPE_KW; IMPLIES_KW; INDIVIDUAL_KW; INTERSECTING_KW; INTERSECTS_KW; ISTYPE_KW;
  LANGUAGE_KW; LIBRARY_KW; LOCALE_KW; LOOP_KW; MESSAGE_KW; MULTIPLICITY_KW;
  NAMESPACE_KW; NONUNIQUE_KW; NOT_KW; NULL_KW; OF_KW; OR_KW; ORDERED_KW; PARALLEL_KW;
  PORTION_KW; PREDICATE_KW; RECEPTION_KW; RELATIONSHIP_KW; REP_KW; STRUCT_KW;
  SUBCLASSIFIER_KW; SUBSET_KW; SUBSETS_KW; SUPERSET_KW; SUPERSETS_KW; TYPED_KW;
  TYPING_KW; UNIONING_KW; UNIONS_KW; WHILE_KW; XOR_KW; SOURCE_FILE; PACKAGE;
  IMPORT_DECL; ALIAS_DECL; NAMESPACE_BODY; NAME; QUALIFIED_NAME; FEATURE_CHAIN;
  PART_DEF; PORT_DEF; CONNECTION_DEF; ACTION_DEF; STATE_DEF; ATTRIBUTE_DEF; ITEM_DEF;
  INTERFACE_DEF; ENUM_DEF; REQUIREMENT_DEF; CONSTRAINT_DEF; CALC_DEF; ALLOCATION_DEF;
  PART_USAGE; PORT_USAGE; CONNECTION_USAGE; ACTION_USAGE; STATE_USAGE; ATTRIBUTE_USAGE;
  ITEM_USAGE; REF_USAGE; INTERFACE_USAGE; ENUM_USAGE; REQUIREMENT_USAGE;
  CONSTRAINT_USAGE; SATISFY_REQ; VERIFY_REQ; REFINE_REQ; ALLOCATE_REQ; DERIVE_REQ;
  SUBJECT_MEMBER; DOC_MEMBER; NAME_REF; FEATURE_DECL; KERML_CLASSIFIER;
  PERFORM_ACTION_USAGE; SPECIALIZATION; TYPING; CONJUGATION; MULTIPLICITY;
  CONNECT_ENDPOINT; DIRECTION; COMMENT_NODE; DOC_NODE; LITERAL_EXPR; OPERATOR_EXPR;
  FEATURE_REF_EXPR; UNIT_REF; TRANSITION_USAGE; TARGET_TRANSITION_USAGE;
  TRANSITION_SOURCE; TRANSITION_TARGET; TRIGGER; TRIGGER_VIA; GUARD; EFFECT;
  SUCCESSION_USAGE; STATE_ACTION; TARGET_SUCCESSION; FLOW_USAGE; FLOW_DEF; FLOW_PAYLOAD;
  FEATURE_VALUE; __LAST].

(** crates/spar-sysml2/src/syntax_kind.rs:8-9 [SyntaxKind as u16] *)
Definition sysml_kind_code (k : SysmlKind) : N :=
  match k with
  | TOMBSTONE => 0 | EOF => 1 | ERROR => 2 | WHITESPACE => 3 | LINE_COMMENT => 4 |
  BLOCK_COMMENT => 5 | SEMICOLON => 6 | COLON => 7 | COMMA => 8 | DOT => 9 | DOT_DOT =>
  10 | L_PAREN => 11 | R_PAREN => 12 | L_CURLY => 13 | R_CURLY => 14 | L_BRACKET => 15 |
  R_BRACKET => 16 | EQ => 17 | FAT_ARROW => 18 | COLON_GT => 19 | COLON_GT_GT => 20 |
  TILDE_GT => 21 | TILDE => 22 | COLON_COLON => 23 | STAR => 24 | PLUS => 25 | MINUS =>
  26 | SLASH => 27 | GT => 28 | LT => 29 | GT_EQ => 30 | LT_EQ => 31 | EQ_EQ => 32 |
  BANG_EQ => 33 | HASH => 34 | AT => 35 | INTEGER_LIT => 36 | REAL_LIT => 37 |
  STRING_LIT => 38 | TRUE_KW => 39 | FALSE_KW => 40 | IDENT => 41 | PACKAGE_KW => 42 |
  IMPORT_KW => 43 | PART_KW => 44 | PORT_KW => 45 | CONNECTION_KW => 46 | ACTION_KW =>
  47 | STATE_KW => 48 | REQUIREMENT_KW => 49 | CONSTRAINT_KW => 50 | INTERFACE_KW => 51
  | ATTRIBUTE_KW => 52 | ITEM_KW => 53 | ENUM_KW => 54 | ALLOCATION_KW => 55 |
  ANALYSIS_KW => 56 | CASE_KW => 57 | CALC_KW => 58 | CONCERN_KW => 59 | DECIDE_KW => 60
  | DEF_KW => 61 | DOC_KW => 62 | ENTRY_KW => 63 | EXHIBIT_KW => 64 | EXIT_KW => 65 |
  EXPOSE_KW => 66 | FLOW_KW => 67 | FORK_KW => 68 | FILTER_KW => 69 | FIRST_KW => 70 |
  IF_KW => 71 | IN_KW => 72 | INOUT_KW => 73 | JOIN_KW => 74 | MERGE_KW => 75 |
  METADATA_KW => 76 | OCCURRENCE_KW => 77 | OUT_KW => 78 | PERFORM_KW => 79 | PRIVATE_KW
  => 80 | PROTECTED_KW => 81 | PUBLIC_KW => 82 | READONLY_KW => 83 | REDEFINES_KW => 84
  | REF_KW => 85 | RENDERING_KW => 86 | RETURN_KW => 87 | SATISFY_KW => 88 | VERIFY_KW
  => 89 | REFINE_KW => 90 | ALLOCATE_KW => 91 | DERIVE_KW => 92 | SEND_KW => 93 |
  SNAPSHOT_KW => 94 | SPECIALIZES_KW => 95 | STAKEHOLDER_KW => 96 | SUBJECT_KW => 97 |
  SUCCESSION_KW => 98 | THEN_KW => 99 | TIMESLICE_KW => 100 | TO_KW => 101 |
  TRANSITION_KW => 102 | USE_KW => 103 | VARIANT_KW => 104 | VERIFICATION_KW => 105 |
  VIEW_KW => 106 | VIEWPOINT_KW => 107 | ABSTRACT_KW => 108 | ALIAS_KW => 109 | ALL_KW
  => 110 | AND_KW => 111 | AS_KW => 112 | ASSIGN_KW => 113 | ASSOC_KW => 114 | BIND_KW
  => 115 | BY_KW => 116 | CHAINS_KW => 117 | COMMENT_KW => 118 | CONNECT_KW => 119 |
  DEPENDENCY_KW => 120 | DERIVED_KW => 121 | DIFFERENCES_KW => 122 | DISJOINING_KW =>
  123 | DISJOINT_KW => 124 | ELSE_KW => 125 | END_KW => 126 | FEATURE_KW => 127 |
  FEATURING_KW => 128 | FROM_KW => 129 | HASTYPE_KW => 130 | IMPLIES_KW => 131 |
  INDIVIDUAL_KW => 132 | INTERSECTING_KW => 133 | INTERSECTS_KW => 134 | ISTYPE_KW =>
  135 | LANGUAGE_KW => 136 | LIBRARY_KW => 137 | LOCALE_KW => 138 | LOOP_KW => 139 |
  MESSAGE_KW => 140 | MULTIPLICITY_KW => 141 | NAMESPACE_KW => 142 | NONUNIQUE_KW => 143
  | NOT_KW => 144 | NULL_KW => 145 | OF_KW => 146 | OR_KW => 147 | ORDERED_KW => 148 |
  PARALLEL_KW => 149 | PORTION_KW => 150 | PREDICATE_KW => 151 | RECEPTION_KW => 152 |
  RELATIONSHIP_KW => 153 | REP_KW => 154 | STRUCT_KW => 155 | SUBCLASSIFIER_KW => 156 |
  SUBSET_KW => 157 | SUBSETS_KW => 158 | SUPERSET_KW => 159 | SUPERSETS_KW => 160 |
  TYPED_KW => 161 | TYPING_KW => 162 | UNIONING_KW => 163 | UNIONS_KW => 164 | WHILE_KW
  => 165 | XOR_KW => 166 | SOURCE_FILE => 167 | PACKAGE => 168 | IMPORT_DECL => 169 |
  ALIAS_DECL => 170 | NAMESPACE_BODY => 171 | NAME => 172 | QUALIFIED_NAME => 173 |
  FEATURE_CHAIN => 174 | PART_DEF => 175 | PORT_DEF => 176 | CONNECTION_DEF => 177 |
  ACTION_DEF => 178 | STATE_DEF => 179 | ATTRIBUTE_DEF => 180 | ITEM_DEF => 181 |
  INTERFACE_DEF => 182 | ENUM_DEF => 183 | REQUIREMENT_DEF => 184 | CONSTRAINT_DEF =>
  185 | CALC_DEF => 186 | ALLOCATION_DEF => 187 | PART_USAGE => 188 | PORT_USAGE => 189
  | CONNECTION_USAGE => 190 | ACTION_USAGE => 191 | STATE_USAGE => 192 | ATTRIBUTE_USAGE
  => 193 | ITEM_USAGE => 194 | REF_USAGE => 195 | INTERFACE_USAGE => 196 | ENUM_USAGE =>
  197 | REQUIREMENT_USAGE => 198 | CONSTRAINT_USAGE => 199 | SATISFY_REQ => 200 |
  VERIFY_REQ => 201 | REFINE_REQ => 202 | ALLOCATE_REQ => 203 | DERIVE_REQ => 204 |
  SUBJECT_MEMBER => 205 | DOC_MEMBER => 206 | NAME_REF => 207 | FEATURE_DECL => 208 |
  KERML_CLASSIFIER => 209 | PERFORM_ACTION_USAGE => 210 | SPECIALIZATION => 211 | TYPING
  => 212 | CONJUGATION => 213 | MULTIPLICITY => 214 | CONNECT_ENDPOINT => 215 |
  DIRECTION => 216 | COMMENT_NODE => 217 | DOC_NODE => 218 | LITERAL_EXPR => 219 |
  OPERATOR_EXPR => 220 | FEATURE_REF_EXPR => 221 | UNIT_REF => 222 | TRANSITION_USAGE =>
  223 | TARGET_TRANSITION_USAGE => 224 | TRANSITION_SOURCE => 225 | TRANSITION_TARGET =>
  226 | TRIGGER => 227 | TRIGGER_VIA => 228 | GUARD => 229 | EFFECT => 230 |
  SUCCESSION_USAGE => 231 | STATE_ACTION => 232 | TARGET_SUCCESSION => 233 | FLOW_USAGE
  => 234 | FLOW_DEF => 235 | FLOW_PAYLOAD => 236 | FEATURE_VALUE => 237 | __LAST => 238
  end%N.

(** crates/spar-sysml2/src/syntax_kind.rs:5-9 [SyntaxKind: Debug] *)
Definition sysml_kind_name (k : SysmlKind) : string :=
  (match k with
  | TOMBSTONE => "TOMBSTONE" | EOF => "EOF" | ERROR => "ERROR" | WHITESPACE =>
  "WHITESPACE" | LINE_COMMENT => "LINE_COMMENT" | BLOCK_COMMENT => "BLOCK_COMMENT" |
  SEMICOLON => "SEMICOLON" | COLON => "COLON" | COMMA => "COMMA" | DOT => "DOT" |
  DOT_DOT => "DOT_DOT" | L_PAREN => "L_PAREN" | R_PAREN => "R_PAREN" | L_CURLY =>
  "L_CURLY" | R_CURLY => "R_CURLY" | L_BRACKET => "L_BRACKET" | R_BRACKET => "R_BRACKET"
  | EQ => "EQ" | FAT_ARROW => "FAT_ARROW" | COLON_GT => "COLON_GT" | COLON_GT_GT =>
  "COLON_GT_GT" | TILDE_GT => "TILDE_GT" | TILDE => "TILDE" | COLON_COLON =>
  "COLON_COLON" | STAR => "STAR" | PLUS => "PLUS" | MINUS => "MINUS" | SLASH => "SLASH"
  | GT => "GT" | LT => "LT" | GT_EQ => "GT_EQ" | LT_EQ => "LT_EQ" | EQ_EQ => "EQ_EQ" |
  BANG_EQ => "BANG_EQ" | HASH => "HASH" | AT => "AT" | INTEGER_LIT => "INTEGER_LIT" |
  REAL_LIT => "REAL_LIT" | STRING_LIT => "STRING_LIT" | TRUE_KW => "TRUE_KW" | FALSE_KW
  => "FALSE_KW" | IDENT => "IDENT" | PACKAGE_KW => "PACKAGE_KW" | IMPORT_KW =>
  "IMPORT_KW" | PART_KW => "PART_KW" | PORT_KW => "PORT_KW" | CONNECTION_KW =>
  "CONNECTION_KW" | ACTION_KW => "ACTION_KW" | STATE_KW => "STATE_KW" | REQUIREMENT_KW
  => "REQUIREMENT_KW" | CONSTRAINT_KW => "CONSTRAINT_KW" | INTERFACE_KW =>
  "INTERFACE_KW" | ATTRIBUTE_KW => "ATTRIBUTE_KW" | ITEM_KW => "ITEM_KW" | ENUM_KW =>
  "ENUM_KW" | ALLOCATION_KW => "ALLOCATION_KW" | ANALYSIS_KW => "ANALYSIS_KW" | CASE_KW
  => "CASE_KW" | CALC_KW => "CALC_KW" | CONCERN_KW => "CONCERN_KW" | DECIDE_KW =>
  "DECIDE_KW" | DEF_KW => "DEF_KW" | DOC_KW => "DOC_KW" | ENTRY_KW => "ENTRY_KW" |
  EXHIBIT_KW => "EXHIBIT_KW" | EXIT_KW => "EXIT_KW" | EXPOSE_KW => "EXPOSE_KW" | FLOW_KW
  => "FLOW_KW" | FORK_KW => "FORK_KW" | FILTER_KW => "FILTER_KW" | FIRST_KW =>
  "FIRST_KW" | IF_KW => "IF_KW" | IN_KW => "IN_KW" | INOUT_KW => "INOUT_KW" | JOIN_KW =>
  "JOIN_KW" | MERGE_KW => "MERGE_KW" | METADATA_KW => "METADATA_KW" | OCCURRENCE_KW =>
  "OCCURRENCE_KW" | OUT_KW => "OUT_KW" | PERFORM_KW => "PERFORM_KW" | PRIVATE_KW =>
  "PRIVATE_KW" | PROTECTED_KW => "PROTECTED_KW" | PUBLIC_KW => "PUBLIC_KW" | READONLY_KW
  => "READONLY_KW" | REDEFINES_KW => "REDEFINES_KW" | REF_KW => "REF_KW" | RENDERING_KW
  => "RENDERING_KW" | RETURN_KW => "RETURN_KW" | SATISFY_KW => "SATISFY_KW" | VERIFY_KW
  => "VERIFY_KW" | REFINE_KW => "REFINE_KW" | ALLOCATE_KW => "ALLOCATE_KW" | DERIVE_KW
  => "DERIVE_KW" | SEND_KW => "SEND_KW" | SNAPSHOT_KW => "SNAPSHOT_KW" | SPECIALIZES_KW
  => "SPECIALIZES_KW" | STAKEHOLDER_KW => "STAKEHOLDER_KW" | SUBJECT_KW => "SUBJECT_KW"
  | SUCCESSION_KW => "SUCCESSION_KW" | THEN_KW => "THEN_KW" | TIMESLICE_KW =>
  "TIMESLICE_KW" | TO_KW => "TO_KW" | TRANSITION_KW => "TRANSITION_KW" | USE_KW =>
  "USE_KW" | VARIANT_KW => "VARIANT_KW" | VERIFICATION_KW => "VERIFICATION_KW" | VIEW_KW
  => "VIEW_KW" | VIEWPOINT_KW => "VIEWPOINT_KW" | ABSTRACT_KW => "ABSTRACT_KW" |
  ALIAS_KW => "ALIAS_KW" | ALL_KW => "ALL_KW" | AND_KW => "AND_KW" | AS_KW => "AS_KW" |
  ASSIGN_KW => "ASSIGN_KW" | ASSOC_KW => "ASSOC_KW" | BIND_KW => "BIND_KW" | BY_KW =>
  "BY_KW" | CHAINS_KW => "CHAINS_KW" | COMMENT_KW => "COMMENT_KW" | CONNECT_KW =>
  "CONNECT_KW" | DEPENDENCY_KW => "DEPENDENCY_KW" | DERIVED_KW => "DERIVED_KW" |
  DIFFERENCES_KW => "DIFFERENCES_KW" | DISJOINING_KW => "DISJOINING_KW" | DISJOINT_KW =>
  "DISJOINT_KW" | ELSE_KW => "ELSE_KW" | END_KW => "END_KW" | FEATURE_KW => "FEATURE_KW"
  | FEATURING_KW => "FEATURING_KW" | FROM_KW => "FROM_KW" | HASTYPE_KW => "HASTYPE_KW" |
  IMPLIES_KW => "IMPLIES_KW" | INDIVIDUAL_KW => "INDIVIDUAL_KW" | INTERSECTING_KW =>
  "INTERSECTING_KW" | INTERSECTS_KW => "INTERSECTS_KW" | ISTYPE_KW => "ISTYPE_KW" |
  LANGUAGE_KW => "LANGUAGE_KW" | LIBRARY_KW => "LIBRARY_KW" | LOCALE_KW => "LOCALE_KW" |
  LOOP_KW => "LOOP_KW" | MESSAGE_KW => "MESSAGE_KW" | MULTIPLICITY_KW =>
  "MULTIPLICITY_KW" | NAMESPACE_KW => "NAMESPACE_KW" | NONUNIQUE_KW => "NONUNIQUE_KW" |
  NOT_KW => "NOT_KW" | NULL_KW => "NULL_KW" | OF_KW => "OF_KW" | OR_KW => "OR_KW" |
  ORDERED_KW => "ORDERED_KW" | PARALLEL_KW => "PARALLEL_KW" | PORTION_KW => "PORTION_KW"
  | PREDICATE_KW => "PREDICATE_KW" | RECEPTION_KW => "RECEPTION_KW" | RELATIONSHIP_KW =>
  "RELATIONSHIP_KW" | REP_KW => "REP_KW" | STRUCT_KW => "STRUCT_KW" | SUBCLASSIFIER_KW
  => "SUBCLASSIFIER_KW" | SUBSET_KW => "SUBSET_KW" | SUBSETS_KW => "SUBSETS_KW" |
  SUPERSET_KW => "SUPERSET_KW" | SUPERSETS_KW => "SUPERSETS_KW" | TYPED_KW => "TYPED_KW"
  | TYPING_KW => "TYPING_KW" | UNIONING_KW => "UNIONING_KW" | UNIONS_KW => "UNIONS_KW" |
  WHILE_KW => "WHILE_KW" | XOR_KW => "XOR_KW" | SOURCE_FILE => "SOURCE_FILE" | PACKAGE
  => "PACKAGE" | IMPORT_DECL => "IMPORT_DECL" | ALIAS_DECL => "ALIAS_DECL" |
  NAMESPACE_BODY => "NAMESPACE_BODY" | NAME => "NAME" | QUALIFIED_NAME =>
  "QUALIFIED_NAME" | FEATURE_CHAIN => "FEATURE_CHAIN" | PART_DEF => "PART_DEF" |
  PORT_DEF => "PORT_DEF" | CONNECTION_DEF => "CONNECTION_DEF" | ACTION_DEF =>
  "ACTION_DEF" | STATE_DEF => "STATE_DEF" | ATTRIBUTE_DEF => "ATTRIBUTE_DEF" | ITEM_DEF
  => "ITEM_DEF" | INTERFACE_DEF => "INTERFACE_DEF" | ENUM_DEF => "ENUM_DEF" |
  REQUIREMENT_DEF => "REQUIREMENT_DEF" | CONSTRAINT_DEF => "CONSTRAINT_DEF" | CALC_DEF
  => "CALC_DEF" | ALLOCATION_DEF => "ALLOCATION_DEF" | PART_USAGE => "PART_USAGE" |
  PORT_USAGE => "PORT_USAGE" | CONNECTION_USAGE => "CONNECTION_USAGE" | ACTION_USAGE =>
  "ACTION_USAGE" | STATE_USAGE => "STATE_USAGE" | ATTRIBUTE_USAGE => "ATTRIBUTE_USAGE" |
  ITEM_USAGE => "ITEM_USAGE" | REF_USAGE => "REF_USAGE" | INTERFACE_USAGE =>
  "INTERFACE_USAGE" | ENUM_USAGE => "ENUM_USAGE" | REQUIREMENT_USAGE =>
  "REQUIREMENT_USAGE" | CONSTRAINT_USAGE => "CONSTRAINT_USAGE" | SATISFY_REQ =>
  "SATISFY_REQ" | VERIFY_REQ => "VERIFY_REQ" | REFINE_REQ => "REFINE_REQ" | ALLOCATE_REQ
  => "ALLOCATE_REQ" | DERIVE_REQ => "DERIVE_REQ" | SUBJECT_MEMBER => "SUBJECT_MEMBER" |
  DOC_MEMBER => "DOC_MEMBER" | NAME_REF => "NAME_REF" | FEATURE_DECL => "FEATURE_DECL" |
  KERML_CLASSIFIER => "KERML_CLASSIFIER" | PERFORM_ACTION_USAGE =>
  "PERFORM_ACTION_USAGE" | SPECIALIZATION => "SPECIALIZATION" | TYPING => "TYPING" |
  CONJUGATION => "CONJUGATION" | MULTIPLICITY => "MULTIPLICITY" | CONNECT_ENDPOINT =>
  "CONNECT_ENDPOINT" | DIRECTION => "DIRECTION" | COMMENT_NODE => "COMMENT_NODE" |
  DOC_NODE => "DOC_NODE" | LITERAL_EXPR => "LITERAL_EXPR" | OPERATOR_EXPR =>
  "OPERATOR_EXPR" | FEATURE_REF_EXPR => "FEATURE_REF_EXPR" | UNIT_REF => "UNIT_REF" |
  TRANSITION_USAGE => "TRANSITION_USAGE" | TARGET_TRANSITION_USAGE =>
  "TARGET_TRANSITION_USAGE" | TRANSITION_SOURCE => "TRANSITION_SOURCE" |
  TRANSITION_TARGET => "TRANSITION_TARGET" | TRIGGER => "TRIGGER" | TRIGGER_VIA =>
  "TRIGGER_VIA" | GUARD => "GUARD" | EFFECT => "EFFECT" | SUCCESSION_USAGE =>
  "SUCCESSION_USAGE" | STATE_ACTION => "STATE_ACTION" | TARGET_SUCCESSION =>
  "TARGET_SUCCESSION" | FLOW_USAGE => "FLOW_USAGE" | FLOW_DEF => "FLOW_DEF" |
  FLOW_PAYLOAD => "FLOW_PAYLOAD" | FEATURE_VALUE => "FEATURE_VALUE" | __LAST => "__LAST"
  end)%string.

Lemma sysml_kinds_code k : nth_error sysml_kinds (N.to_nat (sysml_kind_code k)) = Some k.
Proof. by destruct k. Qed.

Lemma sysml_kind_code_inj k1 k2 : sysml_kind_code k1 = sysml_kind_code k2 → k1 = k2.
Proof.
  intros H. pose proof (sysml_kinds_code k1) as H1. pose proof (sysml_kinds_code k2) as H2.
  rewrite H in H1. congruence.
Qed.

#[export] Instance sysml_kind_discriminant : Discriminant SysmlKind :=
  {| kind_code := sysml_kind_code; kind_code_inj := sysml_kind_code_inj |}.

(** The rows of the keyword table. *)
Definition keyword_table : list (string * SysmlKind) :=
  [("package", PACKAGE_KW); ("import", IMPORT_KW); ("part", PART_KW); ("port", PORT_KW);
  ("connection", CONNECTION_KW); ("action", ACTION_KW); ("state", STATE_KW);
  ("requirement", REQUIREMENT_KW); ("constraint", CONSTRAINT_KW); ("interface",
  INTERFACE_KW); ("attribute", ATTRIBUTE_KW); ("item", ITEM_KW); ("enum", ENUM_KW);
  ("allocation", ALLOCATION_KW); ("analysis", ANALYSIS_KW); ("case", CASE_KW); ("calc",
  CALC_KW); ("concern", CONCERN_KW); ("decide", DECIDE_KW); ("def", DEF_KW); ("doc",
  DOC_KW); ("entry", ENTRY_KW); ("exhibit", EXHIBIT_KW); ("exit", EXIT_KW); ("expose",
  EXPOSE_KW); ("flow", FLOW_KW); ("fork", FORK_KW); ("filter", FILTER_KW); ("first",
  FIRST_KW); ("if", IF_KW); ("in", IN_KW); ("inout", INOUT_KW); ("join", JOIN_KW);
  ("merge", MERGE_KW); ("metadata", METADATA_KW); ("occurrence", OCCURRENCE_KW); ("out",
  OUT_KW); ("perform", PERFORM_KW); ("private", PRIVATE_KW); ("protected",
  PROTECTED_KW); ("public", PUBLIC_KW); ("readonly", READONLY_KW); ("redefines",
  REDEFINES_KW); ("ref", REF_KW); ("rendering", RENDERING_KW); ("return", RETURN_KW);
  ("satisfy", SATISFY_KW); ("verify", VERIFY_KW); ("refine", REFINE_KW); ("allocate",
  ALLOCATE_KW); ("derive", DERIVE_KW); ("send", SEND_KW); ("snapshot", SNAPSHOT_KW);
  ("specializes", SPECIALIZES_KW); ("stakeholder", STAKEHOLDER_KW); ("subject",
  SUBJECT_KW); ("succession", SUCCESSION_KW); ("then", THEN_KW); ("timeslice",
  TIMESLICE_KW); ("to", TO_KW); ("transition", TRANSITION_KW); ("use", USE_KW);
  ("variant", VARIANT_KW); ("verification", VERIFICATION_KW); ("view", VIEW_KW);
  ("viewpoint", VIEWPOINT_KW); ("abstract", ABSTRACT_KW); ("alias", ALIAS_KW); ("all",
  ALL_KW); ("and", AND_KW); ("as", AS_KW); ("assign", ASSIGN_KW); ("assoc", ASSOC_KW);
  ("bind", BIND_KW); ("by", BY_KW); ("chains", CHAINS_KW); ("comment", COMMENT_KW);
  ("connect", CONNECT_KW); ("dependency", DEPENDENCY_KW); ("derived", DERIVED_KW);
  ("differences", DIFFERENCES_KW); ("disjoining", DISJOINING_KW); ("disjoint",
  DISJOINT_KW); ("else", ELSE_KW); ("end", END_KW); ("feature", FEATURE_KW);
  ("featuring", FEATURING_KW); ("from", FROM_KW); ("hastype", HASTYPE_KW); ("implies",
  IMPLIES_KW); ("individual", INDIVIDUAL_KW); ("intersecting", INTERSECTING_KW);
  ("intersects", INTERSECTS_KW); ("istype", ISTYPE_KW); ("language", LANGUAGE_KW);
  ("library", LIBRARY_KW); ("locale", LOCALE_KW); ("loop", LOOP_KW); ("message",
  MESSAGE_KW); ("multiplicity", MULTIPLICITY_KW); ("namespace", NAMESPACE_KW);
  ("nonunique", NONUNIQUE_KW); ("not", NOT_KW); ("null", NULL_KW); ("of", OF_KW); ("or",
  OR_KW); ("ordered", ORDERED_KW); ("parallel", PARALLEL_KW); ("portion", PORTION_KW);
  ("predicate", PREDICATE_KW); ("reception", RECEPTION_KW); ("relationship",
  RELATIONSHIP_KW); ("rep", REP_KW); ("struct", STRUCT_KW); ("subclassifier",
  SUBCLASSIFIER_KW); ("subset", SUBSET_KW); ("subsets", SUBSETS_KW); ("superset",
  SUPERSET_KW); ("supersets", SUPERSETS_KW); ("typed", TYPED_KW); ("typing", TYPING_KW);
  ("unioning", UNIONING_KW); ("unions", UNIONS_KW); ("while", WHILE_KW); ("xor",
  XOR_KW); ("true", TRUE_KW); ("false", FALSE_KW)]%string.

(** crates/spar-sysml2/src/syntax_kind.rs:469-600 [SyntaxKind::from_keyword]: keywords are
    case-sensitive. *)
Definition from_keyword (s : bytes) : option SysmlKind :=
  let s := string_of_list_ascii s in
  snd <$> List.find (λ row, String.eqb (fst row) s) keyword_table.

(** crates/spar-sysml2/src/syntax_kind.rs:421-426 [SyntaxKind::is_trivia] *)
Definition sysml_is_trivia (k : SysmlKind) : bool :=
  kind_eqb k WHITESPACE || kind_eqb k LINE_COMMENT || kind_eqb k BLOCK_COMMENT.

(** crates/spar-sysml2/src/syntax_kind.rs:430-432 [SyntaxKind::is_keyword] *)
Definition is_keyword (k : SysmlKind) : bool :=
  (kind_code PACKAGE_KW <=? kind_code k)%N && (kind_code k <=? kind_code XOR_KW)%N.

(** crates/spar-sysml2/src/syntax_kind.rs:436-438 [SyntaxKind::is_punct] *)
Definition is_punct (k : SysmlKind) : bool :=
  (kind_code SEMICOLON <=? kind_code k)%N && (kind_code k <=? kind_code AT)%N.

(** crates/spar-sysml2/src/syntax_kind.rs:442-444 [SyntaxKind::is_literal] *)
Definition is_literal (k : SysmlKind) : bool :=
  existsb (kind_eqb k) [INTEGER_LIT; REAL_LIT; STRING_LIT].

(** crates/spar-sysml2/src/syntax_kind.rs:449-466 [SyntaxKind::is_definition_kw] *)
Definition is_definition_kw (k : SysmlKind) : bool :=
  existsb (kind_eqb k)
    [PART_KW; PORT_KW; CONNECTION_KW; ACTION_KW; STATE_KW; ATTRIBUTE_KW; ITEM_KW; INTERFACE_KW;
     ENUM_KW; REQUIREMENT_KW; CONSTRAINT_KW; CALC_KW; ALLOCATION_KW].

#[export] Instance sysml : Vocabulary SysmlKind := {|
  eof := EOF; tombstone := TOMBSTONE; error_kind := ERROR;
  is_trivia := sysml_is_trivia; kind_name := sysml_kind_name;
  error_not_tombstone := ltac:(discriminate);
|}.

(** ** The SysML v2 lexer

    [crates/spar-sysml2/src/lexer.rs]: the scanning functions of each token
    class over the cursor of [Cursor], [scan_token], and the entry points
    [lex] and [tokenize]. *)
(** ** Scanning *)

(** crates/spar-sysml2/src/lexer.rs:97-101 [scan_whitespace] *)
Definition scan_whitespace (c : Cursor) : Exec Cursor := scan_while is_whitespace c.

(** crates/spar-sysml2/src/lexer.rs:104-109 [scan_line_comment] *)
Definition scan_line_comment (c : Cursor) : Exec Cursor :=
  let c := bump_n 2 c in
  scan_while (λ b, negb (b =?c "010")) c.

(** crates/spar-sysml2/src/lexer.rs:112-122 [scan_block_comment]: the [u32]
    depth panics on overflow in a checked build. *)
Fixpoint block_loop (fuel : nat) (depth : u32) (c : Cursor) : Exec Cursor :=
  match fuel with
  | O => Stuck
  | S n =>
      if negb (is_eof c) && (0 <? depth)%N then
        if (current c =?c "*") && (peek 1 c =?c "/") then block_loop n (depth - 1)%N (bump_n 2 c)
        else if (current c =?c "/") && (peek 1 c =?c "*") then
          if (U32_MAX <? depth + 1)%N then Panic else block_loop n (depth + 1)%N (bump_n 2 c)
        else block_loop n depth (bump c)
      else Done c
  end.

(** crates/spar-sysml2/src/lexer.rs:112-126 [scan_block_comment] *)
Definition scan_block_comment (c : Cursor) : Exec Cursor :=
  let c := bump_n 2 c in
  block_loop (S (length (input c))) 1 c.

(** crates/spar-sysml2/src/lexer.rs:129-148 [scan_string] *)
Fixpoint string_loop (fuel : nat) (c : Cursor) : Exec Cursor :=
  match fuel with
  | O => Stuck
  | S n =>
      if negb (is_eof c) then
        if current c =?c "034" then Done (bump c)
        else if current c =?c "\" then
          let c := bump c in
          string_loop n (if negb (is_eof c) then bump c else c)
        else string_loop n (bump c)
      else Done c
  end.

(** crates/spar-sysml2/src/lexer.rs:129-148 [scan_string] *)
Definition scan_string (c : Cursor) : Exec Cursor :=
  let c := bump c in
  string_loop (S (length (input c))) c.

(** crates/spar-sysml2/src/lexer.rs:155-174 [scan_unrestricted_name] *)
Fixpoint name_loop (fuel : nat) (c : Cursor) : Exec (bool * Cursor) :=
  match fuel with
  | O => Stuck
  | S n =>
      if negb (is_eof c) then
        if current c =?c "'" then Done (true, bump c)
        else if (current c =?c "010") || (current c =?c "013") then Done (false, c)
        else if current c =?c "\" then
          let c := bump c in
          c ← (if negb (is_eof c) && negb (current c =?c "010") then bump_char c else Done c);
          name_loop n c
        else c ← bump_char c; name_loop n c
      else Done (false, c)
  end.

(** crates/spar-sysml2/src/lexer.rs:155-174 [scan_unrestricted_name] *)
Definition scan_unrestricted_name (c : Cursor) : Exec (bool * Cursor) :=
  let c := bump c in
  name_loop (S (length (input c))) c.

(** crates/spar-sysml2/src/lexer.rs:177-212 [scan_number] *)
Definition scan_number (c : Cursor) : Exec (SysmlKind * Cursor) :=
  c ← scan_while is_digit c;
  if negb (is_eof c) && (current c =?c ".") && negb (peek 1 c =?c ".") then
    let c := bump c in
    c ← scan_while is_digit c;
    if negb (is_eof c) && ((current c =?c "e") || (current c =?c "E")) then
      c ← scan_exponent c; Done (REAL_LIT, c)
    else Done (REAL_LIT, c)
  else if negb (is_eof c) && ((current c =?c "e") || (current c =?c "E")) then
    c ← scan_exponent c; Done (REAL_LIT, c)
  else Done (INTEGER_LIT, c).

(** crates/spar-sysml2/src/lexer.rs:215-222 [scan_ident_or_keyword] *)
Definition scan_ident_or_keyword (c : Cursor) (start : nat) : Exec (SysmlKind * Cursor) :=
  c ← scan_while is_ident_continue c;
  text ← slice (input c) start (pos c);
  Done (match from_keyword text with Some k => k | None => IDENT end, c).

(** ** One token *)

(** crates/spar-sysml2/src/lexer.rs:229-431 [scan_token] *)
Definition scan_token_kind (c : Cursor) : Exec (SysmlKind * Cursor) :=
  let start := pos c in
  let b := current c in
  let one k := Done (k, bump c) in
  let two k := Done (k, bump_n 2 c) in
  let three k := Done (k, bump_n 3 c) in
  if is_whitespace b then c ← scan_whitespace c; Done (WHITESPACE, c)
  else if (b =?c "/") && (peek 1 c =?c "/") then c ← scan_line_comment c; Done (LINE_COMMENT, c)
  else if (b =?c "/") && (peek 1 c =?c "*") then c ← scan_block_comment c; Done (BLOCK_COMMENT, c)
  else if b =?c "034" then c ← scan_string c; Done (STRING_LIT, c)
  else if b =?c "'" then
    '(closed, c) ← scan_unrestricted_name c;
    Done (if (closed : bool) then IDENT else ERROR, c)
  else if is_digit b then scan_number c
  else if is_ident_start b then
    let c := bump c in scan_ident_or_keyword c start
  else if (b =?c ":") && (peek 1 c =?c ">") && (peek 2 c =?c ">") then three COLON_GT_GT
  else if (b =?c ":") && (peek 1 c =?c ">") then two COLON_GT
  else if (b =?c ":") && (peek 1 c =?c ":") then two COLON_COLON
  else if (b =?c "=") && (peek 1 c =?c ">") then two FAT_ARROW
  else if (b =?c "=") && (peek 1 c =?c "=") then two EQ_EQ
  else if (b =?c "!") && (peek 1 c =?c "=") then two BANG_EQ
  else if (b =?c ">") && (peek 1 c =?c "=") then two GT_EQ
  else if (b =?c "<") && (peek 1 c =?c "=") then two LT_EQ
  else if (b =?c "~") && (peek 1 c =?c ">") then two TILDE_GT
  else if b =?c "~" then Done (TILDE, bump_n 1 c)
  else if (b =?c ".") && (peek 1 c =?c ".") then two DOT_DOT
  else if b =?c ";" then one SEMICOLON
  else if b =?c ":" then one COLON
  else if b =?c "," then one COMMA
  else if b =?c "." then one DOT
  else if b =?c "(" then one L_PAREN
  else if b =?c ")" then one R_PAREN
  else if b =?c "{" then one L_CURLY
  else if b =?c "}" then one R_CURLY
  else if b =?c "[" then one L_BRACKET
  else if b =?c "]" then one R_BRACKET
  else if b =?c "=" then one EQ
  else if b =?c "*" then one STAR
  else if b =?c "+" then one PLUS
  else if b =?c "-" then one MINUS
  else if b =?c "/" then one SLASH
  else if b =?c ">" then one GT
  else if b =?c "<" then one LT
  else if b =?c "#" then one HASH
  else if b =?c "@" then one AT
  else c ← bump_char c; Done (ERROR, c).

(** crates/spar-sysml2/src/lexer.rs:229-431 [scan_token] *)
Definition scan_token (c : Cursor) : Exec ((SysmlKind * bytes) * Cursor) :=
  scan_token_of scan_token_kind c.

(** ** Entry points *)

(** crates/spar-sysml2/src/lexer.rs:441-448 [lex] *)
Definition lex (input : bytes) : Exec (list (SysmlKind * bytes)) := lex_of scan_token_kind input.

(** crates/spar-sysml2/src/lexer.rs:454-463 [tokenize] *)
Definition tokenize (input : bytes) : Exec (list (SysmlKind * usize)) :=
  tokenize_of scan_token_kind input.
