(* ===== verification/SysmlLexerSpec.v ===== *)
(** * Correctness of the SysML v2 lexer

    For every valid UTF-8 source of less than 4 GB the lexer returns, and its
    tokens cover the source. *)
From S2P Require Import Prelude.
From S2P Require Export Cursor.
From S2P Require Import SysmlKind.
#[local] Open Scope nat_scope.

(** A loop that advances bytewise and stops at the end or just after an ASCII
    byte: what the comment and string loops give. *)
Definition Stops (m : Exec Cursor) (c : Cursor) : Prop :=
  ∃ c', m = Done c' ∧ input c' = input c ∧ pos c ≤ pos c' ≤ length (input c) ∧
    (is_eof c' = true ∨
     ∃ q, c' = bump q ∧ input q = input c ∧ pos c ≤ pos q ∧ is_eof q = false ∧
       (byte_code (current q) < 128)%N).

Lemma Stops_step m c c' :
  input c' = input c → pos c ≤ pos c' → Stops m c' → Stops m c.
Proof.
  intros Hi Hp (c2 & -> & Hi2 & Hp2 & Hs). exists c2. rewrite Hi in *.
  split_and!; [done|done|lia|lia|]. destruct Hs as [?|(q & -> & ? & ? & ? & ?)]; [by left|right].
  exists q. split_and!; try done. lia.
Qed.

Lemma Stops_Scans1 m c : Sound c → Stops m c → Scans1 m c.
Proof.
  intros Hs (c' & -> & Hi & Hp & H). exists c'. split; [done|].
  destruct H as [?|(q & -> & ? & ? & ? & ?)]; [by apply Adv_to_end|by apply Adv_before_ascii].
Qed.

Lemma peek_lt n c b : (peek n c =?c b) = true → b ≠ zero → pos c + n < length (input c).
Proof.
  intros Hp%eqc_true Hb. revert Hp. unfold peek. destruct (input c !! (pos c + n)) eqn:E; [|done].
  intros _. by eapply lookup_lt_Some.
Qed.

Lemma Stops_end c : pos c ≤ length (input c) → is_eof c = true → Stops (Done c) c.
Proof. intros. exists c. split_and!; try done. by left. Qed.

(** A comment never nests deeper than its length. *)
Lemma block_loop_stops fuel depth c :
  (N.of_nat (length (input c)) ≤ U32_MAX)%N → (0 < depth)%N → (N.to_nat depth ≤ pos c) →
  pos c ≤ length (input c) → length (input c) - pos c < fuel → Stops (block_loop fuel depth c) c.
Proof.
  revert depth c. induction fuel as [|n IH]; intros d c Hlen Hd Hdp Hp Hf; [lia|]. simpl.
  destruct (is_eof c) eqn:He; [by apply Stops_end|]. simpl.
  rewrite (proj2 (N.ltb_lt _ _)) by done. pose proof (proj1 (is_eof_false_lt c) He) as Hlt.
  destruct ((current c =?c "*") && (peek 1 c =?c "/")) eqn:Hc.
  { apply andb_prop in Hc as [Hc1 Hc2]. pose proof (peek_lt _ _ _ Hc2 ltac:(done)).
    destruct (decide (d = 1%N)) as [->|].
    - exists (bump_n 2 c). split_and!; simpl; try lia.
      + destruct n; [lia|]. simpl. by rewrite andb_false_r.
      + done.
      + right. exists (bump c). unfold bump, bump_n. simpl. split_and!; try done; try lia.
        * f_equal. lia.
        * apply is_eof_false_lt. simpl. lia.
        * apply eqc_true in Hc2. unfold peek in Hc2. unfold current. simpl. by rewrite Hc2.
    - eapply Stops_step; [| |apply IH]; simpl; try done; lia. }
  destruct ((current c =?c "/") && (peek 1 c =?c "*")) eqn:Ho.
  { apply andb_prop in Ho as [_ Ho]. pose proof (peek_lt _ _ _ Ho ltac:(done)).
    rewrite (proj2 (N.ltb_ge _ _)) by lia.
    eapply Stops_step; [| |apply IH]; simpl; try done; lia. }
  eapply Stops_step; [| |apply IH]; simpl; try done; lia.
Qed.

Lemma string_loop_stops fuel c :
  pos c ≤ length (input c) → length (input c) - pos c < fuel → Stops (string_loop fuel c) c.
Proof.
  revert c. induction fuel as [|n IH]; intros c Hp Hf; [lia|]. simpl.
  destruct (is_eof c) eqn:He; [by apply Stops_end|]. simpl.
  pose proof (proj1 (is_eof_false_lt c) He) as Hlt.
  destruct (current c =?c "034") eqn:Hq.
  { exists (bump c). split_and!; simpl; try done; try lia. right. exists c. split_and!; try done.
    by rewrite (eqc_true _ _ Hq). }
  destruct (current c =?c "\").
  - destruct (is_eof (bump c)) eqn:He2; simpl.
    + eapply (Stops_step _ _ (bump c)); [| |apply IH]; simpl; try done; lia.
    + apply is_eof_false_lt in He2. simpl in He2.
      eapply (Stops_step _ _ (bump (bump c))); [| |apply IH]; simpl; try done; lia.
  - eapply Stops_step; [| |apply IH]; simpl; try done; lia.
Qed.

(** A quoted name advances by characters. *)
Lemma name_loop_scans fuel c :
  Sound c → length (input c) - pos c < fuel → Scans (name_loop fuel c) c.
Proof.
  revert c. induction fuel as [|n IH]; intros c Hs Hf; [lia|]. simpl.
  destruct (is_eof c) eqn:He; [by apply Scans_done|]. simpl.
  assert (Hnext : ∀ c', Adv c c' → pos c < pos c' → Scans (name_loop n c') c).
  { intros c' H Hlt. eapply Scans_step; [exact H|]. destruct H as [Hi _ Hs'].
    apply is_eof_false_lt in He. apply IH; [done|]. rewrite Hi. lia. }
  destruct (current c =?c "'") eqn:Hq.
  { eapply (Scans_step _ _ (bump c)); [apply Adv_bump; [done|done|by rewrite (eqc_true _ _ Hq)]|].
    apply Scans_done. apply (Adv_bump c); [done|done|by rewrite (eqc_true _ _ Hq)]. }
  destruct ((current c =?c "010") || (current c =?c "013")); [by apply Scans_done|].
  destruct (current c =?c "\") eqn:Hb.
  - assert (H1 : Adv c (bump c)) by (apply Adv_bump; [done|done|by rewrite (eqc_true _ _ Hb)]).
    destruct (negb (is_eof (bump c)) && _) eqn:Hg; [|apply Hnext; [done|simpl; lia]].
    apply andb_prop in Hg as [Hg%negb_true_iff _].
    destruct (bump_char_spec (bump c)) as (c' & -> & H2 & Hlt); [apply H1|done|].
    apply Hnext; [by eapply Adv_trans|]. simpl in Hlt. lia.
  - destruct (bump_char_spec c) as (c' & -> & H2 & Hlt); [done|done|]. by apply Hnext.
Qed.

Lemma Sysml_Scans_number c :
  Sound c → is_eof c = false → is_digit (current c) = true → Scans (scan_number c) (bump c).
Proof.
  intros Hs He0 Hd0. unfold scan_number.
  apply Scans_bind; [apply Scans1_while_head; eauto with spar|].
  intros c1 H1. pose proof (adv_sound _ _ H1) as Hs1.
  case_match eqn:Hd.
  { apply andb_prop in Hd as [Hd _]. assert (ascii_pred (λ b, b =?c ".")) as Hp by ascii_pred_tac.
    apply (guard_ascii _ _ Hp) in Hd as [He Ha].
    pose proof (Adv_bump _ Hs1 He Ha) as Hb. eapply Scans_step; [exact Hb|].
    apply Scans_bind; [eauto with spar|]. intros c2 H2.
    case_match; [apply Scans_exponent|apply Scans_done]; eauto with spar. }
  case_match; [apply Scans_exponent|apply Scans_done]; eauto with spar.
Qed.

Lemma Sysml_Scans_ident start c :
  Sound c → start ≤ pos c → utf8 (drop start (input c)) → Scans (scan_ident_or_keyword c start) c.
Proof.
  intros Hs Hst Hu. unfold scan_ident_or_keyword. apply Scans_bind; [eauto with spar|].
  intros c1 [Hi Hp [Hp1 Hu1]]. unfold rest in Hu1. rewrite slice_utf8; [|lia|done|by rewrite Hi|done].
  by apply Scans_done.
Qed.

Definition short (s : bytes) : Prop := (N.of_nat (length s) ≤ U32_MAX)%N.

Lemma Tok_block_comment c :
  short (input c) → Sound c → (current c =?c "/") && (peek 1 c =?c "*") = true →
  Tok (c ← scan_block_comment c; Done (BLOCK_COMMENT, c)) c.
Proof.
  intros Hb Hs Hg. pose proof (Adv_bump_2 c "/" "*" Hs Hg ltac:(done) ltac:(done) ltac:(done) ltac:(done)) as H2.
  apply andb_prop in Hg as [_ Hg]. pose proof (peek_lt _ _ _ Hg ltac:(done)).
  unfold scan_block_comment.
  destruct (Stops_Scans1 (block_loop (S (length (input (bump_n 2 c)))) 1 (bump_n 2 c)) (bump_n 2 c))
    as (c' & -> & H3); [by apply H2|apply block_loop_stops; simpl; try done; lia|]. simpl.
  exists BLOCK_COMMENT, c'. split_and!; [done|by eapply Adv_trans|]. destruct H3; simpl in *. lia.
Qed.

Lemma sysml_scan_token_kind_spec c : short (input c) → Sound c → is_eof c = false → Tok (scan_token_kind c) c.
Proof.
  intros Hshort Hs He. unfold scan_token_kind.
  assert (Hquote : ∀ d, (current c =?c d) = true → (byte_code d < 128)%N → Adv c (bump c)).
  { intros d Hd ?. apply Adv_bump; [done|done|by rewrite (eqc_true _ _ Hd)]. }
  destruct (is_whitespace _) eqn:H0.
  { apply (Tok_ascii is_whitespace); eauto with spar. apply Scans_bind; [|intros; eauto with spar].
    apply Scans1_while_head; eauto with spar. }
  destruct ((current c =?c "/") && (peek 1 c =?c "/")) eqn:H1; [by apply (Tok_until _ "/" "/")|].
  destruct ((current c =?c "/") && (peek 1 c =?c "*")) eqn:H2; [by apply Tok_block_comment|].
  destruct (current c =?c "034") eqn:H3.
  { apply Hquote in H3; [|done]. apply Tok_Scans; [done|].
    apply Scans_bind; [|intros; eauto with spar]. unfold scan_string.
    apply Stops_Scans1; [by apply H3|]. apply string_loop_stops; [by apply H3|lia]. }
  destruct (current c =?c "'") eqn:H4.
  { apply Hquote in H4; [|done]. apply Tok_Scans; [done|]. unfold scan_unrestricted_name.
    destruct (name_loop_scans (S (length (input (bump c)))) (bump c)) as (b & c' & -> & H'); [by apply H4|lia|].
    by exists (if b then IDENT else ERROR), c'. }
  destruct (is_digit _) eqn:H5.
  { apply (Tok_ascii is_digit); eauto with spar. by apply Sysml_Scans_number. }
  destruct (is_ident_start _) eqn:H6.
  { apply (Tok_ascii is_ident_start); eauto using is_ident_start_ascii with spar.
    apply Sysml_Scans_ident; [|simpl; lia|apply Hs].
    apply Adv_bump; [done|done|by apply is_ident_start_ascii]. }
  scan_operators.
  destruct (bump_char_spec c) as (c' & -> & ? & ?); [done..|]. by exists ERROR, c'.
Qed.

Lemma sysml_from_keyword_kind s k : from_keyword s = Some k → k ≠ EOF.
Proof. exact (keyword_not_eof keyword_table _ k eq_refl). Qed.

Lemma sysml_scan_token_kind_not_eof c : Emits (λ k, k ≠ EOF) (scan_token_kind c).
Proof.
  unfold scan_token_kind, scan_ident_or_keyword. cbv zeta. emits.
  - destruct x as [[] c']; emits.
  - destruct (from_keyword _) eqn:E; [by eapply sysml_from_keyword_kind|done].
Qed.

Lemma Scanned_sysml s :
  short s → utf8 s → ∃ toks, Scanned scan_token_kind (S (length s)) (cursor_new s) toks.
Proof. apply Scanned_new; [apply sysml_scan_token_kind_spec|apply sysml_scan_token_kind_not_eof]. Qed.
