(* ===== verification/SysmlGrammar.v ===== *)
(** * The grammar of SysML v2

    [crates/spar-sysml2/src/grammar/]: [mod.rs], [packages.rs], [parts.rs],
    [states.rs], [requirements.rs] and [flows.rs].  [match p.current() { K =>
    ... }] is a chain of [IF at_ K].  A namespace body holds members, and
    members have bodies: each function is written over the body it recurses
    to, and [body_n] closes the recursion on fuel. *)
From S2P Require Import Prelude.
From S2P Require Export SysmlKind.
From S2P Require TokenSet.
From S2P Require Export Parser.

(** ** The SysML v2 parser

    The event parser over the SysML kinds
    ([crates/spar-sysml2/src/{event,marker,parser}.rs]): the operations of
    [Parser] with an error recovery over 256-bit token sets. *)

(** ** The token sets of SysML v2

    [crates/spar-sysml2/src/token_set.rs]: a set of kinds as four 64-bit
    masks, indexed by the discriminant of the kind.  The enum has fewer than
    256 kinds, so no kind is out of range. *)
#[local] Open Scope N_scope.

(** crates/spar-sysml2/src/token_set.rs:8-13 [TokenSet] *)
Record TokenSet256 := { lo : u64; mid_lo : u64; mid_hi : u64; hi : u64 }.

(** crates/spar-sysml2/src/token_set.rs:17-22 [TokenSet::EMPTY] *)
Definition EMPTY256 : TokenSet256 := {| lo := 0; mid_lo := 0; mid_hi := 0; hi := 0 |}.

(** crates/spar-sysml2/src/token_set.rs:25-50 [TokenSet::new] *)
Definition set_add (s : TokenSet256) (kind : SysmlKind) : TokenSet256 :=
  let bit := kind_code kind in
  if bit <? 64 then
    {| lo := N.lor (lo s) (N.shiftl 1 bit); mid_lo := mid_lo s; mid_hi := mid_hi s; hi := hi s |}
  else if bit <? 128 then
    {| lo := lo s; mid_lo := N.lor (mid_lo s) (N.shiftl 1 (bit - 64)); mid_hi := mid_hi s; hi := hi s |}
  else if bit <? 192 then
    {| lo := lo s; mid_lo := mid_lo s; mid_hi := N.lor (mid_hi s) (N.shiftl 1 (bit - 128)); hi := hi s |}
  else if bit <? 256 then
    {| lo := lo s; mid_lo := mid_lo s; mid_hi := mid_hi s; hi := N.lor (hi s) (N.shiftl 1 (bit - 192)) |}
  else s.

(** crates/spar-sysml2/src/token_set.rs:25-50 [TokenSet::new] *)
Definition set_new (kinds : list SysmlKind) : TokenSet256 := fold_left set_add kinds EMPTY256.

(** crates/spar-sysml2/src/token_set.rs:53-60 [TokenSet::union] *)
Definition set_union (a b : TokenSet256) : TokenSet256 :=
  {| lo := N.lor (lo a) (lo b); mid_lo := N.lor (mid_lo a) (mid_lo b);
     mid_hi := N.lor (mid_hi a) (mid_hi b); hi := N.lor (hi a) (hi b) |}.

(** crates/spar-sysml2/src/token_set.rs:63-76 [TokenSet::contains] *)
Definition set_contains (s : TokenSet256) (kind : SysmlKind) : bool :=
  let bit := kind_code kind in
  if bit <? 64 then negb (N.land (lo s) (N.shiftl 1 bit) =? 0)
  else if bit <? 128 then negb (N.land (mid_lo s) (N.shiftl 1 (bit - 64)) =? 0)
  else if bit <? 192 then negb (N.land (mid_hi s) (N.shiftl 1 (bit - 128)) =? 0)
  else if bit <? 256 then negb (N.land (hi s) (N.shiftl 1 (bit - 192)) =? 0)
  else false.

(** ** Membership *)

(** The word of a bit and its position there. *)
Definition word (s : TokenSet256) (bit : N) : u64 :=
  if bit <? 64 then lo s else if bit <? 128 then mid_lo s
  else if bit <? 192 then mid_hi s else if bit <? 256 then hi s else 0.
Definition offset64 (bit : N) : N :=
  if bit <? 64 then bit else if bit <? 128 then bit - 64
  else if bit <? 192 then bit - 128 else bit - 192.

Lemma set_contains_word s k :
  set_contains s k = N.testbit (word s (kind_code k)) (offset64 (kind_code k)).
Proof. unfold set_contains, word, offset64. rewrite !TokenSet.land_bit. by repeat case_match. Qed.

Lemma word_add s k b :
  b < 256 →
  N.testbit (word (set_add s k) b) (offset64 b) =
  N.testbit (word s b) (offset64 b) || (kind_code k =? b).
Proof.
  intros Hb. unfold word, offset64, set_add.
  destruct (N.eqb_spec (kind_code k) b) as [<-|Hn].
  - destruct (N.ltb_spec (kind_code k) 64), (N.ltb_spec (kind_code k) 128),
      (N.ltb_spec (kind_code k) 192), (N.ltb_spec (kind_code k) 256); try lia; cbn [lo mid_lo mid_hi hi];
      by rewrite N.lor_spec, N.shiftl_1_l, N.pow2_bits_true.
  - rewrite orb_false_r.
    destruct (N.ltb_spec (kind_code k) 64), (N.ltb_spec (kind_code k) 128),
      (N.ltb_spec (kind_code k) 192), (N.ltb_spec (kind_code k) 256); try lia; cbn [lo mid_lo mid_hi hi];
      destruct (N.ltb_spec b 64), (N.ltb_spec b 128), (N.ltb_spec b 192), (N.ltb_spec b 256); try lia; try done;
      rewrite N.lor_spec, N.shiftl_1_l, N.pow2_bits_false by lia; apply orb_false_r.
Qed.

Lemma word_new kinds s b :
  b < 256 →
  N.testbit (word (fold_left set_add kinds s) b) (offset64 b) =
  N.testbit (word s b) (offset64 b) || existsb (λ k, kind_code k =? b) kinds.
Proof.
  intros Hb. revert s. induction kinds as [|k ks IH]; intros s; simpl; [by rewrite orb_false_r|].
  by rewrite IH, word_add, orb_assoc.
Qed.

Lemma sysml_code_lt (k : SysmlKind) : kind_code k < 256.
Proof. by destruct k. Qed.

Lemma set_contains_empty k : set_contains EMPTY256 k = false.
Proof. rewrite set_contains_word. unfold word. simpl. repeat case_match; apply N.bits_0. Qed.

(** The four words hold exactly the kinds the set was built from. *)
Lemma set_contains_new kinds k : set_contains (set_new kinds) k = existsb (kind_eqb k) kinds.
Proof.
  rewrite set_contains_word. unfold set_new. rewrite word_new by apply sysml_code_lt.
  rewrite <- set_contains_word, set_contains_empty. simpl.
  induction kinds as [|k' ks IH]; simpl; [done|]. rewrite IH. f_equal. unfold kind_eqb. apply N.eqb_sym.
Qed.

Lemma set_contains_union a b k :
  set_contains (set_union a b) k = set_contains a k || set_contains b k.
Proof. rewrite !set_contains_word. unfold word, set_union. repeat case_match; cbn [lo mid_lo mid_hi hi]; by rewrite ?N.lor_spec. Qed.
#[local] Close Scope N_scope.



Abbreviation Parser := (Parser.Parser SysmlKind).
Abbreviation M := (Parser.M SysmlKind).

(** crates/spar-sysml2/src/parser.rs:176-194 [Parser::err_recover] *)
Definition err_recover (msg : string) (recovery : TokenSet256) : M unit :=
  err_recover_on msg (set_contains recovery).

(** crates/spar-sysml2/src/parser.rs:170-172 [Parser::err_and_bump] *)
Definition err_and_bump (msg : string) : M unit := err_recover msg EMPTY256.

#[local] Open Scope string_scope.

(** ** Names *)

(** crates/spar-sysml2/src/grammar/mod.rs:46-51 [is_visibility] *)
Definition is_visibility (kind : SysmlKind) : bool :=
  existsb (kind_eqb kind) [PUBLIC_KW; PRIVATE_KW; PROTECTED_KW].

(** crates/spar-sysml2/src/grammar/mod.rs:56-63 [visibility] *)
Definition visibility : M unit :=
  bump_any ;;
  (IF cur is_visibility THEN error "duplicate visibility"
   ELSE when (at_ R_CURLY || at_end) (error "expected member after visibility")).

(** crates/spar-sysml2/src/grammar/mod.rs:173-175 [at_ident_or_kw] *)
Definition at_ident_or_kw : Parser → bool := (at_ IDENT || cur is_keyword)%P.

(** crates/spar-sysml2/src/grammar/mod.rs:178-184 [bump_as_ident] *)
Definition bump_as_ident : M unit := IF at_ IDENT THEN bump IDENT ELSE bump_any.

(** crates/spar-sysml2/src/grammar/mod.rs:114-136 [qualified_name] *)
Definition qualified_name : M bool :=
  IF ! at_ IDENT && ! cur is_keyword THEN error "expected name" ;; mret false
  ELSE
    m ← start;
    bump_as_ident ;;
    iter (λ _,
      IF at_ COLON_COLON THEN
        bump COLON_COLON ;;
        (IF at_ IDENT || cur is_keyword THEN bump_as_ident ;; mret (inl tt)
         ELSE IF at_ STAR THEN bump STAR ;; eat STAR ;; mret (inl tt)
         ELSE error "expected identifier after `::`" ;; mret (inr tt))
      ELSE mret (inr tt)) tt ;;
    complete m QUALIFIED_NAME ;;
    mret true.

(** crates/spar-sysml2/src/grammar/mod.rs:139-148 [name] *)
Definition name : M bool :=
  IF ! at_ IDENT && ! cur is_keyword THEN error "expected name" ;; mret false
  ELSE
    m ← start;
    bump_as_ident ;;
    complete m NAME ;;
    mret true.

(** crates/spar-sysml2/src/grammar/mod.rs:158-166 [feature_chain]: the loop
    over a separator, which [name_ref] has twice. *)
Definition path_loop (sep : SysmlKind) (msg : string) : M unit :=
  iter (λ _,
    IF at_ sep THEN
      bump sep ;;
      (IF at_ IDENT || cur is_keyword THEN bump_as_ident ;; mret (inl tt)
       ELSE error msg ;; mret (inr tt))
    ELSE mret (inr tt)) tt.

(** crates/spar-sysml2/src/grammar/mod.rs:151-169 [feature_chain] *)
Definition feature_chain : M bool :=
  IF ! at_ IDENT && ! cur is_keyword THEN error "expected feature reference" ;; mret false
  ELSE
    m ← start;
    bump_as_ident ;;
    path_loop DOT "expected identifier after `.`" ;;
    complete m FEATURE_CHAIN ;;
    mret true.

(** A chain inside a node of its own. *)
Definition chain_node (kind : SysmlKind) (m : Marker) : M unit :=
  feature_chain ;; complete m kind ;; mret tt.

(** [if super::at_ident_or_kw(p) { super::name(p); }]. *)
Definition opt_name : M unit := when at_ident_or_kw (name ;; mret tt).

(** ** Relationships *)

(** crates/spar-sysml2/src/grammar/requirements.rs:111-139 [name_ref] *)
Definition name_ref : M bool :=
  IF ! at_ IDENT && ! cur is_keyword THEN error "expected name" ;; mret false
  ELSE
    m ← start;
    bump_as_ident ;;
    path_loop DOT "expected identifier after `.`" ;;
    path_loop COLON_COLON "expected identifier after `::`" ;;
    complete m NAME_REF ;;
    mret true.

(** crates/spar-sysml2/src/grammar/requirements.rs:16-32 [satisfy_req]: the five
    relationships differ in their words only. *)
Definition relationship (kw link : SysmlKind) (msg : string) (node : SysmlKind) : M unit :=
  m ← start;
  bump kw ;;
  name_ref ;;
  b ← eat link;
  (if (b : bool) then name_ref ;; mret tt else error msg) ;;
  expect SEMICOLON ;;
  complete m node ;; mret tt.

(** crates/spar-sysml2/src/grammar/requirements.rs:16-32 [satisfy_req] *)
Definition satisfy_req : M unit := relationship SATISFY_KW BY_KW "expected `by`" SATISFY_REQ.

(** crates/spar-sysml2/src/grammar/requirements.rs:35-51 [verify_req] *)
Definition verify_req : M unit := relationship VERIFY_KW BY_KW "expected `by`" VERIFY_REQ.

(** crates/spar-sysml2/src/grammar/requirements.rs:54-70 [refine_req] *)
Definition refine_req : M unit := relationship REFINE_KW BY_KW "expected `by`" REFINE_REQ.

(** crates/spar-sysml2/src/grammar/requirements.rs:73-89 [allocate_req] *)
Definition allocate_req : M unit := relationship ALLOCATE_KW TO_KW "expected `to`" ALLOCATE_REQ.

(** crates/spar-sysml2/src/grammar/requirements.rs:92-108 [derive_req] *)
Definition derive_req : M unit := relationship DERIVE_KW FROM_KW "expected `from`" DERIVE_REQ.

(** ** Parts of a feature *)

(** crates/spar-sysml2/src/grammar/parts.rs:479-483 [connect_endpoint] *)
Definition connect_endpoint : M unit := m ← start; chain_node CONNECT_ENDPOINT m.

Definition at_direction : Parser → bool := (at_ IN_KW || at_ OUT_KW || at_ INOUT_KW)%P.

(** crates/spar-sysml2/src/grammar/parts.rs:919-928 [opt_direction] *)
Definition opt_direction : M unit :=
  when at_direction (m ← start; bump_any ;; complete m DIRECTION ;; mret tt).

(** crates/spar-sysml2/src/grammar/parts.rs:1042-1066 [opt_multiplicity] *)
Definition opt_multiplicity : M bool :=
  IF at_ L_BRACKET THEN
    m ← start;
    bump L_BRACKET ;;
    when (at_ INTEGER_LIT || at_ STAR) bump_any ;;
    when (at_ DOT_DOT) (bump DOT_DOT ;; when (at_ INTEGER_LIT || at_ STAR) bump_any) ;;
    expect R_BRACKET ;;
    complete m MULTIPLICITY ;;
    mret true
  ELSE mret false.

(** crates/spar-sysml2/src/grammar/parts.rs:981-986 [feature_specialization]:
    an arm with a keyword and a name. *)
Definition specialize (kw : SysmlKind) : M unit :=
  m ← start;
  bump kw ;;
  qualified_name ;;
  complete m SPECIALIZATION ;; mret tt.

(** crates/spar-sysml2/src/grammar/parts.rs:970-1014 [feature_specialization] *)
Definition feature_specialization : M bool :=
  IF at_ COLON && ! nth_is 1 COLON THEN
    m ← start;
    bump COLON ;;
    eat TILDE ;;
    qualified_name ;;
    complete m TYPING ;; mret true
  ELSE IF at_ COLON_GT THEN specialize COLON_GT ;; mret true
  ELSE IF at_ COLON_GT_GT THEN specialize COLON_GT_GT ;; mret true
  ELSE IF at_ SPECIALIZES_KW THEN specialize SPECIALIZES_KW ;; mret true
  ELSE IF at_ SUBSETS_KW THEN specialize SUBSETS_KW ;; mret true
  ELSE IF at_ REDEFINES_KW THEN specialize REDEFINES_KW ;; mret true
  ELSE mret false.

(** crates/spar-sysml2/src/grammar/parts.rs:956-967 [opt_typing_or_specialization] *)
Definition opt_typing_or_specialization : M unit :=
  iter (λ multiplicity_seen : bool,
    b ← feature_specialization;
    if (b : bool) then mret (inl multiplicity_seen)
    else if multiplicity_seen then mret (inr tt)
    else
      b ← opt_multiplicity;
      if (b : bool) then mret (inl true) else mret (inr tt)) false.

(** crates/spar-sysml2/src/grammar/parts.rs:1022-1038 [opt_specialization] *)
Definition opt_specialization : M unit :=
  IF at_ COLON_GT THEN specialize COLON_GT
  ELSE when (at_ SPECIALIZES_KW) (specialize SPECIALIZES_KW).

(** crates/spar-sysml2/src/grammar/parts.rs:564-582 [unit_ref] *)
Definition unit_ref : M unit :=
  m ← start;
  bump L_BRACKET ;;
  tokens ← iter (λ tokens : nat,
    IF ! at_ R_BRACKET && ! at_ SEMICOLON && ! at_ L_CURLY && ! at_ R_CURLY && ! at_end THEN
      bump_any ;; mret (inl (S tokens))
    ELSE mret (inr tokens)) 0;
  (if Nat.eqb tokens 0 then error "expected a unit inside `[ ]`" else mret tt) ;;
  expect R_BRACKET ;;
  complete m UNIT_REF ;; mret tt.

(** crates/spar-sysml2/src/grammar/parts.rs:535-556 [opt_value] *)
Definition opt_value : M unit :=
  when (at_ EQ) (
    bump EQ ;;
    (IF at_ INTEGER_LIT || at_ REAL_LIT THEN
       bump_any ;;
       (IF at_ L_BRACKET THEN unit_ref ELSE when at_ident_or_kw bump_as_ident)
     ELSE IF at_ STRING_LIT || at_ TRUE_KW || at_ FALSE_KW THEN
       bump_any ;; when at_ident_or_kw bump_as_ident
     ELSE when at_ident_or_kw bump_as_ident)).

(** crates/spar-sysml2/src/grammar/parts.rs:816-818 [opt_feature_value]: the
    brackets that nest. *)
Definition value_depth (kind : SysmlKind) (depth : nat) : nat :=
  if kind_eqb kind L_PAREN || kind_eqb kind L_BRACKET then depth + 1
  else if kind_eqb kind R_PAREN || kind_eqb kind R_BRACKET then depth - 1
  else depth.

(** crates/spar-sysml2/src/grammar/parts.rs:804-823 [opt_feature_value] *)
Definition opt_feature_value : M unit :=
  when (at_ EQ) (
    m ← start;
    bump EQ ;;
    iter (λ depth : nat,
      IF at_end THEN mret (inr tt)
      ELSE
        kind ← reads current;
        if Nat.eqb depth 0 && (kind_eqb kind SEMICOLON || kind_eqb kind L_CURLY || kind_eqb kind R_CURLY)
        then mret (inr tt)
        else bump_any ;; mret (inl (value_depth kind depth))) 0 ;;
    complete m FEATURE_VALUE ;; mret tt).

(** crates/spar-sysml2/src/grammar/parts.rs:826-840 [comment_node] *)
Definition comment_node : M unit :=
  m ← start;
  bump COMMENT_KW ;;
  when (at_ STRING_LIT) (bump STRING_LIT) ;;
  eat SEMICOLON ;;
  complete m COMMENT_NODE ;; mret tt.

(** crates/spar-sysml2/src/grammar/parts.rs:843-851 [doc_node] *)
Definition doc_node : M unit :=
  m ← start;
  bump DOC_KW ;;
  when (at_ STRING_LIT) (bump STRING_LIT) ;;
  eat SEMICOLON ;;
  complete m DOC_NODE ;; mret tt.

(** crates/spar-sysml2/src/grammar/parts.rs:436-453 [connection_usage] *)
Definition connection_usage : M unit :=
  m ← start;
  bump CONNECT_KW ;;
  connect_endpoint ;;
  expect TO_KW ;;
  connect_endpoint ;;
  expect SEMICOLON ;;
  complete m CONNECTION_USAGE ;; mret tt.

(** crates/spar-sysml2/src/grammar/parts.rs:896-912 [subject_member] *)
Definition subject_member : M unit :=
  m ← start;
  bump SUBJECT_KW ;;
  opt_name ;;
  opt_typing_or_specialization ;;
  expect SEMICOLON ;;
  complete m SUBJECT_MEMBER ;; mret tt.

(** ** Token runs in state-based behaviour *)

(** crates/spar-sysml2/src/grammar/states.rs:45-47 [starts_operand] *)
Definition starts_operand (k : SysmlKind) : bool := kind_eqb k IDENT || is_keyword k.

(** A contextual keyword before an operand. *)
Definition at_contextual_operand (text : string) : M bool :=
  b ← at_contextual_kw text;
  if (b : bool) then reads (λ p, starts_operand (nth 1 p)) else mret false.

(** crates/spar-sysml2/src/grammar/states.rs:35-37 [at_accept] *)
Definition at_accept : M bool := at_contextual_operand "accept".

(** crates/spar-sysml2/src/grammar/states.rs:41-43 [at_do_action] *)
Definition at_do_action : M bool := at_contextual_operand "do".

(** crates/spar-sysml2/src/grammar/states.rs:76-80 [eat_parallel] *)
Definition eat_parallel : M unit :=
  b ← at_contextual_kw "parallel"; if (b : bool) then bump_any else mret tt.

(** crates/spar-sysml2/src/grammar/states.rs:228-236 [track_depth] *)
Definition track_depth (k : SysmlKind) (depth : nat) : nat :=
  if kind_eqb k L_PAREN || kind_eqb k L_BRACKET || kind_eqb k L_CURLY then depth + 1
  else if kind_eqb k R_PAREN || kind_eqb k R_BRACKET || kind_eqb k R_CURLY then depth - 1
  else depth.

(** crates/spar-sysml2/src/grammar/states.rs:219-219 [skip_until]: [any]. *)
Fixpoint any_contextual (texts : list string) : M bool :=
  match texts with
  | [] => mret false
  | text :: texts =>
      b ← at_contextual_kw text;
      if (b : bool) then mret true else any_contextual texts
  end.

(** At depth 0, a stop token or one of the contextual keywords. *)
Definition stops_at (depth : nat) (stops : list SysmlKind) (contextual : list string) : M bool :=
  if Nat.eqb depth 0 then
    IF cur (λ k, existsb (kind_eqb k) stops) THEN mret true ELSE any_contextual contextual
  else mret false.

(** crates/spar-sysml2/src/grammar/states.rs:211-226 [skip_until] *)
Definition skip_until (stops : list SysmlKind) (contextual : list string) : M unit :=
  iter (λ depth : nat,
    IF at_end THEN mret (inr tt)
    ELSE
      b ← stops_at depth (stops ++ [SEMICOLON; R_CURLY]) contextual;
      if (b : bool) then mret (inr tt)
      else
        k ← reads current;
        bump_any ;; mret (inl (track_depth k depth))) 0.

(** crates/spar-sysml2/src/grammar/states.rs:122-148 [trigger] *)
Definition trigger : M unit :=
  m ← start;
  bump_any ;;
  iter (λ depth : nat,
    IF at_end THEN mret (inr tt)
    ELSE
      b ← stops_at depth [THEN_KW; IF_KW; SEMICOLON; R_CURLY] ["do"];
      if (b : bool) then mret (inr tt)
      else
        b ← stops_at depth [] ["via"];
        if (b : bool) then
          v ← start;
          bump_any ;;
          chain_node TRIGGER_VIA v ;;
          mret (inl depth)
        else
          k ← reads current;
          bump_any ;; mret (inl (track_depth k depth))) 0 ;;
  complete m TRIGGER ;; mret tt.

(** crates/spar-sysml2/src/grammar/states.rs:178-199 [state_action] *)
Definition state_action : M unit :=
  m ← start;
  bump_any ;;
  iter (λ depth : nat,
    IF at_end THEN mret (inr tt)
    ELSE
      k ← reads current;
      if Nat.eqb depth 0 && kind_eqb k SEMICOLON then bump_any ;; mret (inr tt)
      else if Nat.eqb depth 0 && kind_eqb k R_CURLY then mret (inr tt)
      else
        bump_any ;;
        mret (if Nat.eqb depth 1 && kind_eqb k R_CURLY then inr tt else inl (track_depth k depth))) 0 ;;
  complete m STATE_ACTION ;; mret tt.

(** ** Dispatch *)

(** crates/spar-sysml2/src/grammar/mod.rs:67-111 [is_member_start] *)
Definition is_member_start : Parser → bool :=
  (cur is_definition_kw ||
   cur (λ k, existsb (kind_eqb k)
     [CONNECT_KW; IN_KW; OUT_KW; INOUT_KW; REF_KW; PERFORM_KW; ABSTRACT_KW; IDENT; ATTRIBUTE_KW;
      COMMENT_KW; DOC_KW; FEATURE_KW; END_KW; SUBJECT_KW; TRANSITION_KW; FIRST_KW; THEN_KW;
      ENTRY_KW; EXIT_KW; EXHIBIT_KW; FLOW_KW]) ||
   (at_ SUCCESSION_KW && nth_is 1 FLOW_KW))%P.

(** crates/spar-sysml2/src/grammar/parts.rs:16-47 [MEMBER_RECOVERY] *)
Definition MEMBER_RECOVERY : TokenSet256 :=
  set_new
    [PART_KW; PORT_KW; CONNECTION_KW; CONNECT_KW; ACTION_KW; STATE_KW; ATTRIBUTE_KW; ITEM_KW;
     INTERFACE_KW; ENUM_KW; REQUIREMENT_KW; CONSTRAINT_KW; IMPORT_KW; PACKAGE_KW; R_CURLY; IN_KW;
     OUT_KW; INOUT_KW; REF_KW; ABSTRACT_KW; COMMENT_KW; DOC_KW; FEATURE_KW; END_KW; SUBJECT_KW;
     TRANSITION_KW; ENTRY_KW; EXIT_KW; EXHIBIT_KW; FLOW_KW].

(** crates/spar-sysml2/src/grammar/parts.rs:307-307 [KERML_CLASSIFIER_KWS] *)
Definition KERML_CLASSIFIER_KWS : list string := ["class"; "classifier"; "datatype"; "behavior"].

(** crates/spar-sysml2/src/grammar/parts.rs:313-315 [at_kerml_classifier] *)
Definition at_kerml_classifier : M bool :=
  b ← any_contextual KERML_CLASSIFIER_KWS;
  if (b : bool) then reads (nth_is 1 IDENT) else mret false.

(** crates/spar-sysml2/src/grammar/flows.rs:59-71 [at_flow_name] *)
Definition at_flow_name : Parser → bool :=
  (at_ IDENT &&
   (λ p, existsb (kind_eqb (nth 1 p)) [FROM_KW; OF_KW; COLON; COLON_GT; COLON_GT_GT; SEMICOLON; L_CURLY]))%P.

(** crates/spar-sysml2/src/grammar/parts.rs:220-230 [member]: the node of an
    abstract definition. *)
Definition abstract_kind (k : SysmlKind) : SysmlKind :=
  if kind_eqb k PART_KW then PART_DEF
  else if kind_eqb k PORT_KW then PORT_DEF
  else if kind_eqb k CONNECTION_KW then CONNECTION_DEF
  else if kind_eqb k ACTION_KW then ACTION_DEF
  else if kind_eqb k STATE_KW then STATE_DEF
  else if kind_eqb k ATTRIBUTE_KW then ATTRIBUTE_DEF
  else if kind_eqb k ITEM_KW then ITEM_DEF
  else if kind_eqb k INTERFACE_KW then INTERFACE_DEF
  else PART_DEF.

(** ** Declarations with a body *)
Section bodies.
Context (namespace_body : M unit).

(** crates/spar-sysml2/src/grammar/states.rs:201-207 [end_of_member]: which the
    other files write out. *)
Definition end_of_member : M unit :=
  IF at_ L_CURLY THEN namespace_body ELSE expect SEMICOLON ;; mret tt.

(** crates/spar-sysml2/src/grammar/packages.rs:22-34 [package] *)
Definition package : M unit :=
  m ← start;
  bump PACKAGE_KW ;;
  qualified_name ;;
  end_of_member ;;
  complete m PACKAGE ;; mret tt.

(** crates/spar-sysml2/src/grammar/packages.rs:42-48 [import_decl] *)
Definition import_decl : M unit :=
  m ← start;
  bump IMPORT_KW ;;
  qualified_name ;;
  expect SEMICOLON ;;
  complete m IMPORT_DECL ;; mret tt.

(** crates/spar-sysml2/src/grammar/packages.rs:56-72 [alias_decl] *)
Definition alias_decl : M unit :=
  m ← start;
  bump ALIAS_KW ;;
  name ;;
  b ← at_contextual_kw "for";
  (if (b : bool) then bump_any else error "expected `for`") ;;
  qualified_name ;;
  end_of_member ;;
  complete m ALIAS_DECL ;; mret tt.

(** crates/spar-sysml2/src/grammar/flows.rs:23-52 [flow_usage] *)
Definition flow_usage : M unit :=
  m ← start;
  eat SUCCESSION_KW ;;
  expect FLOW_KW ;;
  when at_flow_name (name ;; mret tt) ;;
  opt_typing_or_specialization ;;
  when (at_ OF_KW) (
    o ← start;
    bump OF_KW ;;
    qualified_name ;;
    opt_typing_or_specialization ;;
    complete o FLOW_PAYLOAD ;; mret tt) ;;
  has_from ← eat FROM_KW;
  when ((λ _, has_from) || ! (at_ SEMICOLON || at_ L_CURLY)) (
    connect_endpoint ;;
    expect TO_KW ;;
    connect_endpoint) ;;
  end_of_member ;;
  complete m FLOW_USAGE ;; mret tt.

(** crates/spar-sysml2/src/grammar/states.rs:59-64 [state_usage]: the name. *)
Definition state_name : M unit :=
  when (at_ident_or_kw && ! at_ DEF_KW) (
    b ← at_contextual_kw "parallel";
    if (b : bool) then mret tt else name ;; mret tt).

(** crates/spar-sysml2/src/grammar/states.rs:50-74 [state_usage] *)
Definition state_usage : M unit :=
  m ← start;
  exhibit ← eat EXHIBIT_KW;
  has_state_kw ← eat STATE_KW;
  (if (exhibit : bool) && negb has_state_kw then r ← start; chain_node NAME_REF r
   else state_name) ;;
  eat_parallel ;;
  opt_typing_or_specialization ;;
  eat_parallel ;;
  end_of_member ;;
  complete m STATE_USAGE ;; mret tt.

(** crates/spar-sysml2/src/grammar/states.rs:99-118 [transition_usage]: the
    trigger, guard, effect and target. *)
Definition transition_tail : M unit :=
  b ← at_contextual_kw "accept";
  (if (b : bool) then trigger else mret tt) ;;
  when (at_ IF_KW) (
    g ← start;
    bump IF_KW ;;
    skip_until [THEN_KW] ["do"] ;;
    complete g GUARD ;; mret tt) ;;
  b ← at_contextual_kw "do";
  (if (b : bool) then
     e ← start;
     bump_any ;;
     skip_until [THEN_KW] [] ;;
     complete e EFFECT ;; mret tt
   else mret tt) ;;
  expect THEN_KW ;;
  t ← start;
  chain_node TRANSITION_TARGET t ;;
  end_of_member.

(** crates/spar-sysml2/src/grammar/states.rs:83-120 [transition_usage] *)
Definition transition_usage : M unit :=
  m ← start;
  named ← eat TRANSITION_KW;
  (if (named : bool) then
     when (nth_is 1 FIRST_KW) (name ;; mret tt) ;;
     eat FIRST_KW ;;
     s ← start;
     chain_node TRANSITION_SOURCE s
   else mret tt) ;;
  transition_tail ;;
  complete m (if (named : bool) then TRANSITION_USAGE else TARGET_TRANSITION_USAGE) ;; mret tt.

(** crates/spar-sysml2/src/grammar/states.rs:151-163 [succession_usage] *)
Definition succession_usage : M unit :=
  m ← start;
  bump FIRST_KW ;;
  s ← start;
  chain_node TRANSITION_SOURCE s ;;
  expect THEN_KW ;;
  t ← start;
  chain_node TRANSITION_TARGET t ;;
  end_of_member ;;
  complete m SUCCESSION_USAGE ;; mret tt.

(** crates/spar-sysml2/src/grammar/states.rs:166-174 [target_succession] *)
Definition target_succession : M unit :=
  m ← start;
  bump THEN_KW ;;
  t ← start;
  chain_node TRANSITION_TARGET t ;;
  end_of_member ;;
  complete m TARGET_SUCCESSION ;; mret tt.

(** crates/spar-sysml2/src/grammar/parts.rs:279-303 [definition] *)
Definition definition (node_kind : SysmlKind) : M unit :=
  m ← start;
  bump_any ;;
  bump DEF_KW ;;
  opt_name ;;
  opt_specialization ;;
  end_of_member ;;
  complete m node_kind ;; mret tt.

(** crates/spar-sysml2/src/grammar/parts.rs:340-360 [kerml_classifier] *)
Definition kerml_classifier : M unit :=
  m ← start;
  bump_any ;;
  name ;;
  opt_multiplicity ;;
  when (at_ COLON_GT || at_ SPECIALIZES_KW) (
    s ← start;
    bump_any ;;
    qualified_name ;;
    while_eat COMMA (qualified_name ;; mret tt) ;;
    complete s SPECIALIZATION ;; mret tt) ;;
  end_of_member ;;
  complete m KERML_CLASSIFIER ;; mret tt.

(** crates/spar-sysml2/src/grammar/parts.rs:370-393 [part_usage] *)
Definition part_usage : M unit :=
  m ← start;
  bump PART_KW ;;
  when (at_ident_or_kw && ! at_ DEF_KW) (name ;; mret tt) ;;
  opt_multiplicity ;;
  opt_typing_or_specialization ;;
  end_of_member ;;
  complete m PART_USAGE ;; mret tt.

(** crates/spar-sysml2/src/grammar/parts.rs:402-429 [port_usage] *)
Definition port_usage : M unit :=
  m ← start;
  opt_direction ;;
  bump PORT_KW ;;
  opt_name ;;
  opt_multiplicity ;;
  opt_typing_or_specialization ;;
  end_of_member ;;
  complete m PORT_USAGE ;; mret tt.

(** crates/spar-sysml2/src/grammar/parts.rs:456-476 [connection_usage_named] *)
Definition connection_usage_named : M unit :=
  m ← start;
  bump CONNECTION_KW ;;
  when (at_ident_or_kw && ! at_ DEF_KW) (name ;; mret tt) ;;
  opt_typing_or_specialization ;;
  end_of_member ;;
  complete m CONNECTION_USAGE ;; mret tt.

(** crates/spar-sysml2/src/grammar/parts.rs:491-527 [attribute_usage] *)
Definition attribute_usage : M unit :=
  m ← start;
  opt_direction ;;
  bump ATTRIBUTE_KW ;;
  when (at_ident_or_kw && ! at_ REDEFINES_KW && ! at_ SUBSETS_KW && ! at_ SPECIALIZES_KW)
    (name ;; mret tt) ;;
  opt_multiplicity ;;
  opt_typing_or_specialization ;;
  opt_value ;;
  end_of_member ;;
  complete m ATTRIBUTE_USAGE ;; mret tt.

(** crates/spar-sysml2/src/grammar/parts.rs:590-617 [item_usage] *)
Definition item_usage : M unit :=
  m ← start;
  opt_direction ;;
  bump ITEM_KW ;;
  opt_name ;;
  opt_multiplicity ;;
  opt_typing_or_specialization ;;
  end_of_member ;;
  complete m ITEM_USAGE ;; mret tt.

(** crates/spar-sysml2/src/grammar/parts.rs:620-656 [ref_usage] *)
Definition ref_usage : M unit :=
  m ← start;
  bump REF_KW ;;
  (IF at_ PART_KW THEN bump PART_KW ELSE when (at_ PORT_KW) (bump PORT_KW)) ;;
  opt_name ;;
  opt_typing_or_specialization ;;
  end_of_member ;;
  complete m REF_USAGE ;; mret tt.

(** crates/spar-sysml2/src/grammar/parts.rs:685-709 [perform_action_usage] *)
Definition perform_action_usage : M unit :=
  m ← start;
  bump PERFORM_KW ;;
  b ← eat ACTION_KW;
  (if (b : bool) then
     when (at_ident_or_kw && ! at_ REDEFINES_KW && ! at_ SUBSETS_KW) (name ;; mret tt)
   else r ← start; chain_node NAME_REF r) ;;
  opt_typing_or_specialization ;;
  end_of_member ;;
  complete m PERFORM_ACTION_USAGE ;; mret tt.

(** crates/spar-sysml2/src/grammar/parts.rs:712-735 [generic_usage] *)
Definition generic_usage (node_kind : SysmlKind) : M unit :=
  m ← start;
  bump_any ;;
  when (at_ident_or_kw && ! at_ DEF_KW) (name ;; mret tt) ;;
  opt_typing_or_specialization ;;
  opt_value ;;
  end_of_member ;;
  complete m node_kind ;; mret tt.

(** crates/spar-sysml2/src/grammar/parts.rs:738-756 [feature_decl] *)
Definition feature_decl : M unit :=
  m ← start;
  name ;;
  opt_typing_or_specialization ;;
  opt_multiplicity ;;
  end_of_member ;;
  complete m FEATURE_DECL ;; mret tt.

(** crates/spar-sysml2/src/grammar/parts.rs:764-797 [feature_decl_with_direction] *)
Definition feature_decl_with_direction : M unit :=
  m ← start;
  opt_direction ;;
  when (at_ FEATURE_KW || at_ ITEM_KW || at_ ATTRIBUTE_KW) bump_any ;;
  opt_name ;;
  opt_typing_or_specialization ;;
  opt_multiplicity ;;
  opt_feature_value ;;
  end_of_member ;;
  complete m FEATURE_DECL ;; mret tt.

(** crates/spar-sysml2/src/grammar/parts.rs:860-888 [end_member] *)
Definition end_member : M unit :=
  m ← start;
  bump END_KW ;;
  opt_multiplicity ;;
  when (at_ PART_KW || at_ PORT_KW) bump_any ;;
  opt_name ;;
  opt_typing_or_specialization ;;
  end_of_member ;;
  complete m FEATURE_DECL ;; mret tt.

(** crates/spar-sysml2/src/grammar/parts.rs:215-247 [member]: the arm of
    [abstract]. *)
Definition abstract_definition : M unit :=
  m ← start;
  bump ABSTRACT_KW ;;
  IF cur is_definition_kw && nth_is 1 DEF_KW THEN
    def_kind ← reads (λ p, abstract_kind (current p));
    bump_any ;;
    bump DEF_KW ;;
    opt_name ;;
    opt_specialization ;;
    end_of_member ;;
    complete m def_kind ;; mret tt
  ELSE
    err_and_bump "expected definition after `abstract`" ;;
    abandon m.

(** crates/spar-sysml2/src/grammar/parts.rs:89-95 [member]: the arm of a
    definition keyword, a definition before [def] and a usage otherwise. *)
Definition def_or (def_kind : SysmlKind) (usage : M unit) : M unit :=
  IF nth_is 1 DEF_KW THEN definition def_kind ELSE usage.

(** crates/spar-sysml2/src/grammar/parts.rs:138-139 [member]: the arms of an
    identifier, with lines 259-265. *)
Definition ident_member : M unit :=
  b ← at_accept;
  if (b : bool) then transition_usage
  else
    b ← at_do_action;
    if (b : bool) then state_action
    else
      b ← at_kerml_classifier;
      if (b : bool) then kerml_classifier else feature_decl.

(** crates/spar-sysml2/src/grammar/parts.rs:196-208 [member]: the arm of a
    direction. *)
Definition directed_member : M unit :=
  IF nth_is 1 PORT_KW THEN port_usage
  ELSE IF nth_is 1 ATTRIBUTE_KW THEN attribute_usage
  ELSE IF nth_is 1 ITEM_KW THEN item_usage
  ELSE feature_decl_with_direction.

(** crates/spar-sysml2/src/grammar/parts.rs:88-269 [member]: the match. *)
Definition keyword_member : M unit :=
  IF at_ PART_KW THEN def_or PART_DEF part_usage
  ELSE IF at_ PORT_KW THEN def_or PORT_DEF port_usage
  ELSE IF at_ CONNECTION_KW THEN def_or CONNECTION_DEF connection_usage_named
  ELSE IF at_ CONNECT_KW THEN connection_usage
  ELSE IF at_ ACTION_KW THEN def_or ACTION_DEF (generic_usage ACTION_USAGE)
  ELSE IF at_ STATE_KW THEN def_or STATE_DEF state_usage
  ELSE IF at_ EXHIBIT_KW THEN state_usage
  ELSE IF at_ FLOW_KW && nth_is 1 DEF_KW THEN definition FLOW_DEF
  ELSE IF at_ FLOW_KW || at_ SUCCESSION_KW THEN flow_usage
  ELSE IF at_ TRANSITION_KW THEN transition_usage
  ELSE IF at_ FIRST_KW THEN succession_usage
  ELSE IF at_ THEN_KW THEN target_succession
  ELSE IF at_ ENTRY_KW || at_ EXIT_KW THEN state_action
  ELSE IF at_ ATTRIBUTE_KW THEN def_or ATTRIBUTE_DEF attribute_usage
  ELSE IF at_ ITEM_KW THEN def_or ITEM_DEF item_usage
  ELSE IF at_ INTERFACE_KW THEN def_or INTERFACE_DEF (generic_usage INTERFACE_USAGE)
  ELSE IF at_ ENUM_KW THEN def_or ENUM_DEF (generic_usage ENUM_USAGE)
  ELSE IF at_ REQUIREMENT_KW THEN def_or REQUIREMENT_DEF (generic_usage REQUIREMENT_USAGE)
  ELSE IF at_ CONSTRAINT_KW THEN def_or CONSTRAINT_DEF (generic_usage CONSTRAINT_USAGE)
  ELSE IF at_ CALC_KW THEN def_or CALC_DEF (generic_usage PART_USAGE)
  ELSE IF at_ ALLOCATION_KW THEN def_or ALLOCATION_DEF (generic_usage PART_USAGE)
  ELSE IF at_direction THEN directed_member
  ELSE IF at_ REF_KW THEN ref_usage
  ELSE IF at_ PERFORM_KW THEN perform_action_usage
  ELSE IF at_ ABSTRACT_KW THEN abstract_definition
  ELSE IF at_ FEATURE_KW THEN feature_decl_with_direction
  ELSE IF at_ END_KW THEN end_member
  ELSE IF at_ SUBJECT_KW THEN subject_member
  ELSE IF at_ IDENT THEN ident_member
  ELSE err_recover "expected member declaration" MEMBER_RECOVERY.

(** crates/spar-sysml2/src/grammar/parts.rs:53-270 [member] *)
Definition member : M unit :=
  IF at_ COMMENT_KW THEN comment_node
  ELSE IF at_ DOC_KW THEN doc_node
  ELSE IF at_direction &&
    ! (λ p, is_definition_kw (nth 1 p) || kind_eqb (nth 1 p) IDENT || kind_eqb (nth 1 p) FEATURE_KW)
    THEN feature_decl_with_direction
  ELSE keyword_member.

(** crates/spar-sysml2/src/grammar/packages.rs:80-94 [namespace_body]: the
    arms it shares with [source_file]. *)
Definition namespace_member (msg : string) : M unit :=
  IF at_ PACKAGE_KW THEN package
  ELSE IF at_ IMPORT_KW THEN import_decl
  ELSE IF at_ ALIAS_KW THEN alias_decl
  ELSE IF cur is_visibility THEN visibility
  ELSE IF at_ SATISFY_KW THEN satisfy_req
  ELSE IF at_ VERIFY_KW THEN verify_req
  ELSE IF at_ REFINE_KW THEN refine_req
  ELSE IF at_ ALLOCATE_KW THEN allocate_req
  ELSE IF at_ DERIVE_KW THEN derive_req
  ELSE IF is_member_start THEN member
  ELSE err_and_bump msg.

(** crates/spar-sysml2/src/grammar/packages.rs:75-99 [namespace_body] *)
Definition namespace_body_with : M unit :=
  m ← start;
  bump L_CURLY ;;
  while (! at_ R_CURLY && ! at_end) (namespace_member "expected member declaration") ;;
  expect R_CURLY ;;
  complete m NAMESPACE_BODY ;; mret tt.
End bodies.

(** crates/spar-sysml2/src/grammar/packages.rs:75-99 [namespace_body]: every
    level consumes a brace. *)
Fixpoint body_n (n : nat) : M unit :=
  match n with O => stuck | S n => namespace_body_with (body_n n) end.

(** crates/spar-sysml2/src/grammar/packages.rs:75-99 [namespace_body] *)
Definition namespace_body : M unit := λ p, body_n (S (remaining p)) p.

(** crates/spar-sysml2/src/grammar/mod.rs:24-41 [source_file]: the loop; the
    arm of [EOF] is not reached, since a token is left. *)
Definition file_members : M unit :=
  iter (λ _,
    IF at_end THEN mret (inr tt)
    ELSE IF at_ EOF THEN mret (inr tt)
    ELSE namespace_member namespace_body "expected package, import, or definition" ;; mret (inl tt)) tt.

(** crates/spar-sysml2/src/grammar/mod.rs:22-43 [source_file] *)
Definition source_file : M unit :=
  m ← start;
  file_members ;;
  complete m SOURCE_FILE ;; mret tt.
