(* ===== verification/SysmlGrammarSpec.v ===== *)
(** * The grammar of SysML v2 is total: features and bodies

    The specification of every function of [SysmlGrammar], by the rules of
    [ParserSpec]: no assertion of the parser fails, every loop ends, every
    marker is closed and every token consumed is recorded. *)
From S2P Require Import Prelude.
From S2P Require Export GrammarTactics.
From S2P Require Export SysmlGrammar.
#[local] Open Scope nat_scope.

Section specs.
Context {TS : TokenStream SysmlKind}.

#[export] Instance err_recover_adds msg rec : Adds (err_recover msg rec) 3 1.
Proof. apply err_recover_on_adds. Qed.
#[export] Instance err_and_bump_adds msg : Adds (err_and_bump msg) 3 1.
Proof. apply err_recover_adds. Qed.
#[export] Instance err_and_bump_eats msg :
  Eats (err_and_bump msg) (λ r, match r with [] => false | _ => true end) 3 20.
Proof. apply err_recover_on_eats, set_contains_empty. Qed.

(** ** Names *)

Definition k_ident_or_kw (r : list SysmlKind) : bool :=
  kind_eqb (knth 0 r) IDENT || is_keyword (knth 0 r).
#[local] Hint Unfold k_ident_or_kw : tests.
#[export] Instance Sem_ident_or_kw : Sem at_ident_or_kw k_ident_or_kw.
Proof. unfold at_ident_or_kw. exact _. Qed.

#[export] Instance visibility_eats : Eats visibility (λ r, is_visibility (knth 0 r)) 2 20.
Proof. spec visibility. steps. Qed.

#[export] Instance bump_as_ident_adds : Adds bump_as_ident 1 0.
Proof. spec bump_as_ident. steps. Qed.
#[export] Instance bump_as_ident_eats : Eats bump_as_ident k_ident_or_kw 1 60.
Proof. spec bump_as_ident. steps. Qed.

#[export] Instance qualified_name_adds : Adds qualified_name 4 2.
Proof. spec qualified_name. steps. Qed.
#[export] Instance name_adds : Adds name 4 1.
Proof. spec name. steps. Qed.
#[export] Instance name_eats : Eats name k_ident_or_kw 2 50.
Proof. spec name. steps. Qed.
#[export] Instance opt_name_adds : Adds opt_name 4 0.
Proof. spec opt_name. steps. Qed.
Lemma path_loop_run sep msg : sep ≠ EOF → Adds (path_loop sep msg) 2 1.
Proof. intros Hs. spec path_loop. steps. Qed.
#[export] Instance dot_loop_adds msg : Adds (path_loop DOT msg) 2 1.
Proof. by apply path_loop_run. Qed.
#[export] Instance colon_loop_adds msg : Adds (path_loop COLON_COLON msg) 2 1.
Proof. by apply path_loop_run. Qed.
#[export] Instance feature_chain_adds : Adds feature_chain 4 2.
Proof. spec feature_chain. steps. Qed.
#[export] Instance feature_chain_eats : Eats feature_chain k_ident_or_kw 2 50.
Proof. spec feature_chain. steps. Qed.
#[export] Instance name_ref_adds : Adds name_ref 5 3.
Proof. spec name_ref. steps. Qed.

(** ** Relationships *)

Lemma relationship_eats kw link msg node :
  kw ≠ EOF → link ≠ EOF → node ≠ TOMBSTONE → Eats (relationship kw link msg node) (k_at kw) 4 20.
Proof. intros Hk Hl Hn. spec relationship. unfold k_at in *. facts. steps. Qed.
#[export] Instance satisfy_req_eats : Eats satisfy_req (k_at SATISFY_KW) 4 20.
Proof. by apply relationship_eats. Qed.
#[export] Instance verify_req_eats : Eats verify_req (k_at VERIFY_KW) 4 20.
Proof. by apply relationship_eats. Qed.
#[export] Instance refine_req_eats : Eats refine_req (k_at REFINE_KW) 4 20.
Proof. by apply relationship_eats. Qed.
#[export] Instance allocate_req_eats : Eats allocate_req (k_at ALLOCATE_KW) 4 20.
Proof. by apply relationship_eats. Qed.
#[export] Instance derive_req_eats : Eats derive_req (k_at DERIVE_KW) 4 20.
Proof. by apply relationship_eats. Qed.

(** ** Parts of a feature *)

Lemma chain_node_run kind m fs r c :
  extensible fs → kind ≠ TOMBSTONE → 6 ≤ c →
  run (FOpen m true :: fs) r c (chain_node kind (N.of_nat m)) (Keeps fs r (c - 3)).
Proof. intros Hx Hk Hc. unfold chain_node. steps. Qed.

#[export] Instance connect_endpoint_adds : Adds connect_endpoint 6 4.
Proof. spec connect_endpoint. unfold chain_node. steps. Qed.
#[export] Instance opt_direction_adds : Adds opt_direction 2 0.
Proof. spec opt_direction. unfold at_direction. steps. Qed.

(** An optional part that says whether it was there. *)
Definition Tries (f : M bool) (pk : nat) : Prop := ∀ fs r c, extensible fs → pk ≤ c →
  run fs r c f (λ b fs' r' c', fs' = fs ∧
    if b then length r' < length r ∧ c ≤ c' else r' = r ∧ c' = c).

Lemma Tries_adds f pk : Tries f pk → Adds f pk 0.
Proof.
  intros H fs r c Hx Hc. eapply run_conseq; [by apply H|].
  intros [] ? ? ? (-> & H'); [|destruct H' as [-> ->]]; fin.
Qed.
Ltac found := split; [reflexivity|split; [cbn [length] in *; lia|lia]].

Lemma opt_multiplicity_tries : Tries opt_multiplicity 2.
Proof. spec opt_multiplicity. branch; [steps; found|by apply run_ret]. Qed.
#[export] Instance opt_multiplicity_adds : Adds opt_multiplicity 2 0.
Proof. apply Tries_adds, opt_multiplicity_tries. Qed.

Lemma specialize_eats kw : kw ≠ EOF → Eats (specialize kw) (k_at kw) 2 20.
Proof. intros Hk. spec specialize. unfold k_at in *. facts. steps. Qed.
Lemma feature_specialization_tries : Tries feature_specialization 2.
Proof.
  spec feature_specialization. branch; [steps; found|].
  do 5 (branch; [apply run_bind; eapply run_eats; [by apply specialize_eats|ext|assumption|lia|];
    intros ? ? ?; cbv beta; apply run_ret; found|]).
  by apply run_ret.
Qed.

(** The loop alternates two optional parts. *)
#[export] Instance opt_typing_or_specialization_adds : Adds opt_typing_or_specialization 3 0.
Proof.
  spec opt_typing_or_specialization. apply run_loop; [|intros ? ? ?; fin]. intros seen r1 Hr1.
  apply run_bind. eapply run_conseq; [apply feature_specialization_tries; [ext|lia]|].
  intros [] fs' r' c' (-> & Hb); cbv beta iota.
  - apply run_ret. unfold Loops. split_and!; [done|lia|lia].
  - destruct Hb as [-> ->]. apply run_if; [apply run_ret; fin|].
    apply run_bind. eapply run_conseq; [apply opt_multiplicity_tries; [ext|lia]|].
    intros [] fs' r' c' (-> & Hb); cbv beta iota; apply run_ret.
    + unfold Loops. split_and!; [done|lia|lia].
    + destruct Hb as [-> ->]. fin.
Qed.

#[export] Instance specialize_adds_gt : Eats (specialize COLON_GT) (k_at COLON_GT) 2 20.
Proof. by apply specialize_eats. Qed.
#[export] Instance specialize_adds_kw : Eats (specialize SPECIALIZES_KW) (k_at SPECIALIZES_KW) 2 20.
Proof. by apply specialize_eats. Qed.
#[export] Instance opt_specialization_adds : Adds opt_specialization 3 0.
Proof. spec opt_specialization. steps. Qed.

#[export] Instance unit_ref_eats : Eats unit_ref (k_at L_BRACKET) 2 20.
Proof. spec unit_ref. unfold k_at in *. facts. steps. Qed.
#[export] Instance opt_value_adds : Adds opt_value 3 0.
Proof. spec opt_value. steps. Qed.
#[export] Instance opt_feature_value_adds : Adds opt_feature_value 3 0.
Proof. spec opt_feature_value. steps. Qed.
#[export] Instance comment_node_eats : Eats comment_node (k_at COMMENT_KW) 2 20.
Proof. spec comment_node. unfold k_at in *. facts. steps. Qed.
#[export] Instance doc_node_eats : Eats doc_node (k_at DOC_KW) 2 20.
Proof. spec doc_node. unfold k_at in *. facts. steps. Qed.
#[export] Instance connection_usage_eats : Eats connection_usage (k_at CONNECT_KW) 2 20.
Proof. spec connection_usage. unfold k_at in *. facts. steps. Qed.
#[export] Instance subject_member_eats : Eats subject_member (k_at SUBJECT_KW) 2 20.
Proof. spec subject_member. unfold k_at in *. facts. steps. Qed.

(** ** Token runs in state-based behaviour *)

Definition present (r : list SysmlKind) (b : bool) : Prop := b = true → r ≠ [].

#[export] Instance at_contextual_operand_peeks text : Peeks (at_contextual_operand text) (λ _ _, True).
Proof. intros fs r c Φ H. unfold at_contextual_operand. steps; by apply H. Qed.
#[export] Instance at_accept_peeks : Peeks at_accept (λ _ _, True).
Proof. apply at_contextual_operand_peeks. Qed.
#[export] Instance at_do_action_peeks : Peeks at_do_action (λ _ _, True).
Proof. apply at_contextual_operand_peeks. Qed.
#[export] Instance any_contextual_peeks texts : Peeks (any_contextual texts) (λ _ _, True).
Proof.
  induction texts as [|t ts IH]; intros fs r c Φ H; simpl; [by apply run_ret, H|].
  do 2 step. apply run_if; [by apply run_ret, H|by apply IH].
Qed.
#[export] Instance at_kerml_classifier_peeks : Peeks at_kerml_classifier (λ _ _, True).
Proof. intros fs r c Φ H. unfold at_kerml_classifier. steps; by apply H. Qed.
#[export] Instance stops_at_peeks depth stops contextual : Peeks (stops_at depth stops contextual) (λ _ _, True).
Proof.
  intros fs r c Φ H. unfold stops_at. apply run_if; [|by apply run_ret, H].
  branch; [by apply run_ret, H|by apply any_contextual_peeks].
Qed.

#[export] Instance eat_parallel_adds : Adds eat_parallel 1 0.
Proof. spec eat_parallel. steps. Qed.
#[export] Instance skip_until_adds stops contextual : Adds (skip_until stops contextual) 1 0.
Proof. spec skip_until. steps. Qed.
#[export] Instance trigger_eats : Eats trigger (λ r, match r with [] => false | _ => true end) 2 50.
Proof. spec trigger. unfold chain_node. steps. Qed.
#[export] Instance trigger_adds : Adds trigger 2 2.
Proof. spec trigger. unfold chain_node. steps. Qed.
#[export] Instance state_action_eats : Eats state_action (λ r, match r with [] => false | _ => true end) 2 20.
Proof.
  spec state_action. steps.
  match goal with |- Loops _ _ _ (if ?b then _ else _) _ _ _ => destruct b end; fin.
Qed.
End specs.
#[export] Hint Unfold k_ident_or_kw : tests.

(** ** The grammar of SysML v2 is total: declarations and the source file

    The specification of the declarations, over the namespace body they
    recurse to, and of [source_file]. *)
Section specs.
Context {TS : TokenStream SysmlKind}.

Section bodies.
Context (nb : M unit) (N : nat) `{!EatsL nb (k_at L_CURLY) N 2 20}.

#[export] Instance end_of_member_addsl : AddsL (end_of_member nb) N 2 1.
Proof. spec @end_of_member. steps. Qed.

#[export] Instance package_eatsl : EatsL (package nb) (k_at PACKAGE_KW) N 2 20.
Proof. spec @package. unfold k_at in *. facts. steps. Qed.
#[export] Instance import_decl_eats : Eats import_decl (k_at IMPORT_KW) 2 20.
Proof. spec import_decl. unfold k_at in *. facts. steps. Qed.
#[export] Instance alias_decl_eatsl : EatsL (alias_decl nb) (k_at ALIAS_KW) N 2 20.
Proof. spec @alias_decl. unfold k_at in *. facts. steps. Qed.

#[export] Instance state_name_adds : Adds state_name 4 2.
Proof. spec state_name. steps. Qed.
#[export] Instance succession_usage_eatsl : EatsL (succession_usage nb) (k_at FIRST_KW) N 2 20.
Proof. spec @succession_usage. unfold chain_node, k_at in *. facts. steps. Qed.
#[export] Instance target_succession_eatsl : EatsL (target_succession nb) (k_at THEN_KW) N 2 20.
Proof. spec @target_succession. unfold chain_node, k_at in *. facts. steps. Qed.

#[export] Instance definition_eatsl kind `{!NodeKind kind} :
  EatsL (definition nb kind) (λ r, match r with [] => false | _ => true end && kind_eqb (knth 1 r) DEF_KW) N 2 20.
Proof. spec @definition. steps. Qed.
#[export] Instance kerml_classifier_eatsl :
  EatsL (kerml_classifier nb) (λ r, match r with [] => false | _ => true end) N 2 20.
Proof. spec @kerml_classifier. steps. Qed.
#[export] Instance part_usage_eatsl : EatsL (part_usage nb) (k_at PART_KW) N 2 20.
Proof. spec @part_usage. unfold k_at in *. facts. steps. Qed.
#[export] Instance connection_usage_named_eatsl : EatsL (connection_usage_named nb) (k_at CONNECTION_KW) N 2 20.
Proof. spec @connection_usage_named. unfold k_at in *. facts. steps. Qed.
#[export] Instance ref_usage_eatsl : EatsL (ref_usage nb) (k_at REF_KW) N 2 20.
Proof. spec @ref_usage. unfold k_at in *. facts. steps. Qed.
#[export] Instance perform_action_usage_eatsl : EatsL (perform_action_usage nb) (k_at PERFORM_KW) N 2 20.
Proof. spec @perform_action_usage. unfold chain_node, k_at in *. facts. steps. Qed.
#[export] Instance generic_usage_eatsl kind `{!NodeKind kind} :
  EatsL (generic_usage nb kind) (λ r, match r with [] => false | _ => true end) N 2 20.
Proof. spec @generic_usage. steps. Qed.
#[export] Instance feature_decl_eatsl : EatsL (feature_decl nb) k_ident_or_kw N 3 20.
Proof. spec @feature_decl. steps. Qed.
#[export] Instance end_member_eatsl : EatsL (end_member nb) (k_at END_KW) N 2 20.
Proof. spec @end_member. unfold k_at in *. facts. steps. Qed.
End bodies.

(** ** Declarations behind an optional prefix *)

Definition k_direction (r : list SysmlKind) : bool :=
  kind_eqb (knth 0 r) IN_KW || kind_eqb (knth 0 r) OUT_KW || kind_eqb (knth 0 r) INOUT_KW.
#[local] Hint Unfold k_direction : tests.
#[export] Instance Sem_at_direction : Sem at_direction k_direction.
Proof. unfold at_direction. exact _. Qed.

(** A direction is one token. *)
Lemma run_opt_direction fs r c Φ :
  extensible fs → 2 ≤ c →
  (∀ k r' c', r = k :: r' → k_direction r = true → c + 60 ≤ c' → Φ tt fs r' c') →
  (k_direction r = false → Φ tt fs r c) → run fs r c opt_direction Φ.
Proof.
  intros Hx Hc H1 H2. unfold opt_direction, when. branch; [|by apply run_ret, H2].
  do 2 step. apply run_bind, run_bump_any; [ext|nonempty|]. intros k r' ->. do 2 step.
  apply run_ret. eapply H1; [done|done|lia].
Qed.

(** The keyword of a usage, after a direction or at once. *)
Definition k_directed (k : SysmlKind) (r : list SysmlKind) : bool :=
  if k_direction r then kind_eqb (knth 1 r) k else kind_eqb (knth 0 r) k.

Section directed.
Context (nb : M unit) (N : nat) `{!EatsL nb (k_at L_CURLY) N 2 20}.

(** Both ways lead to the keyword, which is consumed. *)
Ltac directed :=
  do 2 step; apply run_bind, run_opt_direction; [ext|lia| |];
  [intros ? ? ? -> ? ?|intros ?]; unfold k_directed in *;
  match goal with H : k_direction _ = _ |- _ => rewrite H in * end;
  rewrite ?knth_S in *; facts; steps.

#[export] Instance port_usage_eatsl : EatsL (port_usage nb) (k_directed PORT_KW) N 3 20.
Proof. spec @port_usage. directed. Qed.
#[export] Instance attribute_usage_eatsl : EatsL (attribute_usage nb) (k_directed ATTRIBUTE_KW) N 3 20.
Proof. spec @attribute_usage. directed. Qed.
#[export] Instance item_usage_eatsl : EatsL (item_usage nb) (k_directed ITEM_KW) N 3 20.
Proof. spec @item_usage. directed. Qed.
#[export] Instance feature_decl_with_direction_eatsl :
  EatsL (feature_decl_with_direction nb) (λ r, k_direction r || kind_eqb (knth 0 r) FEATURE_KW) N 3 20.
Proof.
  spec @feature_decl_with_direction. do 2 step. apply run_bind, run_opt_direction; [ext|lia| |].
  - intros k r' c' -> Hd Hc'. cbv beta. steps.
  - intros Hd. rewrite Hd in *. simpl in *. facts. cbv beta. unfold when at 1. apply run_bind.
    branch; [steps|]. use_bools. done.
Qed.

#[export] Instance flow_usage_eatsl : EatsL (flow_usage nb) (λ r, k_at FLOW_KW r || k_at SUCCESSION_KW r) N 3 20.
Proof.
  spec @flow_usage. unfold k_at in *. do 2 step.
  apply run_bind, run_eat; [ext|done|intros r' ->; steps|]. intros Hs. cbv beta.
  destruct (kind_eqb_spec (knth 0 r) FLOW_KW) as [Hf|]; [|by destruct (kind_eqb_spec (knth 0 r) SUCCESSION_KW)].
  destruct (knth_head _ _ Hf) as [r' ->]; [done|].
  apply run_bind, run_expect_here; [ext|done|]. steps.
Qed.

#[export] Instance state_usage_eatsl : EatsL (state_usage nb) (λ r, k_at EXHIBIT_KW r || k_at STATE_KW r) N 3 20.
Proof.
  spec @state_usage. unfold chain_node, k_at in *. do 2 step.
  apply run_bind, run_eat; [ext|done|intros r' ->; steps|]. intros He. cbv beta.
  apply run_bind, run_eat; [ext|done|intros r' ->; steps|]. intros Hs.
  destruct (kind_eqb_spec (knth 0 r) EXHIBIT_KW); [done|]. by destruct (kind_eqb_spec (knth 0 r) STATE_KW).
Qed.

(** ** Transitions *)

#[export] Instance transition_tail_addsl : AddsL (transition_tail nb) N 14 10.
Proof. spec @transition_tail. unfold chain_node. steps. Qed.

(** Whatever the words are, an identifier is consumed: at the latest by the
    target. *)
Lemma transition_tail_eatsl : EatsL (transition_tail nb) (k_at IDENT) N 4 30.
Proof.
  spec @transition_tail. unfold chain_node, k_at in *. facts.
  do 2 step. apply run_bind, run_if; [steps|]. apply run_ret. cbv beta. step.
  unfold when at 1. branch; [congruence|]. apply run_ret. cbv beta.
  do 2 step. apply run_bind, run_if; [steps|]. apply run_ret. cbv beta.
  apply run_bind, run_expect_not; [ext|congruence|lia|]. steps.
Qed.

#[export] Instance transition_usage_eatsl :
  EatsL (transition_usage nb) (λ r, k_at TRANSITION_KW r || k_at IDENT r) N 5 20.
Proof.
  spec @transition_usage. unfold chain_node, k_at in *. do 2 step.
  apply run_bind, run_eat; [ext|done|intros r' ->; steps|]. intros Ht. cbv beta iota.
  destruct (kind_eqb_spec (knth 0 r) TRANSITION_KW); [done|]. simpl in *. apply run_bind, run_ret. cbv beta.
  apply run_bind. eapply run_eatsl; [apply transition_tail_eatsl|ext|done|done|lia|].
  intros ? ? ?. cbv beta. steps.
Qed.

(** ** Members *)

#[export] Instance abstract_kind_node k : NodeKind (abstract_kind k).
Proof. unfold NodeKind, abstract_kind. by repeat case_match. Qed.

#[export] Instance abstract_definition_eatsl : EatsL (abstract_definition nb) (k_at ABSTRACT_KW) N 2 20.
Proof.
  spec @abstract_definition. unfold k_at in *. facts. do 4 step. branch; [|steps].
  apply run_bind, (run_reads_nth 0 abstract_kind). cbv beta.
  pose proof (abstract_kind_node (knth 0 r')). steps.
Qed.

(** Identifiers: a contextual keyword or a feature. *)
#[export] Instance ident_member_eatsl : EatsL (ident_member nb) (k_at IDENT) N 5 20.
Proof. spec @ident_member. unfold k_at in *. facts. steps. Qed.

#[export] Instance directed_member_eatsl : EatsL (directed_member nb) k_direction N 4 20.
Proof.
  spec @directed_member. assert (Hu : ∀ k, kind_eqb (knth 1 r) k = true → k_directed k r = true).
  { intros k Hk. unfold k_directed. by use_bools. }
  do 3 (branch; [eapply run_conseq; [apply eatsl; [ext|done|by apply Hu|lia]|]; intros ? ? ? ? (-> & ? & ?); fin|]).
  steps.
Qed.

#[export] Instance def_or_eatsl def_kind usage h pk `{!NodeKind def_kind} `{!EatsL usage h N pk 20} :
  EatsL (def_or nb def_kind usage) (λ r, match r with [] => false | _ => true end && h r) N (2 + pk) 20.
Proof. spec @def_or. steps. Qed.
End directed.

(** ** Dispatch *)

(** What may start a member, [comment] and [doc] aside. *)
Definition k_keyword (r : list SysmlKind) : bool :=
  existsb (kind_eqb (knth 0 r))
    [PART_KW; PORT_KW; CONNECTION_KW; CONNECT_KW; ACTION_KW; STATE_KW; EXHIBIT_KW; FLOW_KW; SUCCESSION_KW;
     TRANSITION_KW; FIRST_KW; THEN_KW; ENTRY_KW; EXIT_KW; ATTRIBUTE_KW; ITEM_KW; INTERFACE_KW; ENUM_KW;
     REQUIREMENT_KW; CONSTRAINT_KW; CALC_KW; ALLOCATION_KW; REF_KW; PERFORM_KW; ABSTRACT_KW; FEATURE_KW;
     END_KW; SUBJECT_KW; IDENT] || k_direction r.

Definition k_member (r : list SysmlKind) : bool :=
  (is_definition_kw (knth 0 r) ||
   existsb (kind_eqb (knth 0 r))
     [CONNECT_KW; IN_KW; OUT_KW; INOUT_KW; REF_KW; PERFORM_KW; ABSTRACT_KW; IDENT; ATTRIBUTE_KW;
      COMMENT_KW; DOC_KW; FEATURE_KW; END_KW; SUBJECT_KW; TRANSITION_KW; FIRST_KW; THEN_KW;
      ENTRY_KW; EXIT_KW; EXHIBIT_KW; FLOW_KW]) ||
  (kind_eqb (knth 0 r) SUCCESSION_KW && kind_eqb (knth 1 r) FLOW_KW).
#[export] Instance Sem_is_member_start : Sem is_member_start k_member.
Proof. unfold is_member_start. exact _. Qed.

(** Every member that [is_member_start] lets through has an arm. *)
Lemma member_keyword r :
  k_member r = true → kind_eqb (knth 0 r) COMMENT_KW = false → kind_eqb (knth 0 r) DOC_KW = false →
  k_keyword r = true.
Proof. unfold k_member, k_keyword, k_direction. destruct (knth 0 r); vm_compute; congruence. Qed.

Section members.
Context (nb : M unit) (N : nat) `{!EatsL nb (k_at L_CURLY) N 2 20}.

#[local] Hint Unfold k_directed k_direction : tests.
#[export] Instance keyword_member_eatsl : EatsL (keyword_member nb) k_keyword N 6 20.
Proof.
  spec @keyword_member. do 29 (branch; [solve [steps]|]).
  exfalso. unfold k_keyword in *. cbn [existsb] in *. use_bools. done.
Qed.
End members.
End specs.
#[export] Hint Unfold k_directed k_direction : tests.
