(* ===== verification/SysmlParsing.v ===== *)
(** * Parsing SysML v2

    [parse] of [crates/spar-sysml2/src/lib.rs]: the lexer, the grammar and
    the tree builder composed, and the theorem that nothing of the source is
    lost on the way. *)
From S2P Require Import Prelude.
From S2P Require SysmlKind.
From S2P Require SysmlLexerSpec.
From S2P Require Export TreeLossless.
From S2P Require Export SysmlGrammarSpec.
#[local] Open Scope nat_scope.

(** ** The dispatch of members *)
Section specs.
Context {TS : TokenStream SysmlKind}.

Section members.
Context (nb : M unit) (N : nat) `{!EatsL nb (k_at L_CURLY) N 2 20}.

#[export] Instance member_eatsl : EatsL (member nb) k_member N 6 20.
Proof.
  spec @member. do 2 (branch; [solve [steps]|]). branch; [solve [steps]|].
  eapply run_eatsl; [once (typeclasses eauto)|ext|done| |lia|intros ? ? ?; fin].
  by apply member_keyword.
Qed.

#[export] Instance namespace_member_eatsl msg : EatsL (namespace_member nb msg) (λ r, match r with [] => false | _ => true end) N 6 20.
Proof. spec @namespace_member. do 10 (branch; [solve [steps]|]). steps. Qed.

Lemma namespace_body_with_eatsl : EatsL (namespace_body_with nb) (k_at L_CURLY) (S N) 2 20.
Proof. spec @namespace_body_with. unfold k_at in H0. facts. steps. Qed.
End members.

Lemma body_n_eatsl n : EatsL (body_n n) (k_at L_CURLY) n 2 20.
Proof. induction n as [|n IH]; [intros fs r c; lia|]. by apply namespace_body_with_eatsl. Qed.
Lemma namespace_body_eats : Eats namespace_body (k_at L_CURLY) 2 20.
Proof. apply Eats_fuel, body_n_eatsl. Qed.
#[export] Instance namespace_body_eatsl N : EatsL namespace_body (k_at L_CURLY) N 2 20.
Proof. intros fs r c Hx _ Hh Hc. exact (namespace_body_eats fs r c Hx Hh Hc). Qed.

(** The loop of the source file leaves nothing. *)
Lemma file_members_run : Reads_all file_members.
Proof.
  intros m r. unfold file_members.
  apply (run_iter (λ _ fs' _, fs' = [FOpen m true])); [|done].
  intros [] fs1 r1 ->. branch; [apply run_ret; split_and!; [done|done|by destruct r1|lia]|].
  branch; [intros p Hp; destruct r1 as [|k r1]; [done|]; by destruct (St_head _ _ _ _ _ Hp)|].
  apply run_bind. eapply run_conseq.
  - eapply (namespace_member_eatsl namespace_body (S (length r1))); [done|lia| |lia]. by destruct r1.
  - intros [] fs' r' c' (-> & Hl & Hc). apply run_ret. split_and!; [lia|done|done].
Qed.

End specs.

Lemma sysml_source_file_runs : TotalGrammar source_file SOURCE_FILE.
Proof. apply (root_total file_members SOURCE_FILE); [done|]. intros TS. apply file_members_run. Qed.

(** ** The parse *)

(** crates/spar-sysml2/src/lib.rs:48-54 [parse] *)
Definition parse `{GreenNodeBuilder SysmlKind} (source : bytes) : Exec (Parse green_node) :=
  tokens ← SysmlKind.tokenize source;
  '(_, p) ← source_file (parser_new tokens source);
  build_tree source tokens (finish p).

(** C6: Parsing SysML v2 loses nothing.  For any UTF-8 source whose events
    fit the 32-bit marker positions, [parse] returns (no nesting of comments,
    bodies or brackets and no error makes it panic or run on) a tree under
    [SOURCE_FILE] whose leaves are the tokens of the lexer, with their kinds
    and texts, trivia included, each once and in order: its text is the
    source, byte for byte.  Every error is reported at an offset of the
    source. *)
Theorem sysml_parse_lossless `{G : GreenNodeBuilder SysmlKind, !GreenNodeBuilderLaws G} s :
  utf8 s → (64 * (N.of_nat (length s) + 1) ≤ U32_MAX)%N →
  ∃ pr ts texts, parse s = Done pr ∧ tree_of (green pr) = Node SOURCE_FILE ts ∧
    SysmlKind.lex s = Done texts ∧ leaves (Node SOURCE_FILE ts) = texts ∧
    tree_text (tree_of (green pr)) = s ∧ Forall (λ e, offset e ≤ length s) (errors pr).
Proof.
  intros Hs Hl. destruct (SysmlLexerSpec.Scanned_sysml s) as [texts H]; [unfold SysmlLexerSpec.short; lia|done|].
  destruct (total_parse_lossless _ _ _ sysml_source_file_runs ltac:(discriminate) s texts H Hl) as (pr & ts & Hpr).
  by exists pr, ts, texts.
Qed.

Import StackBuilder.

(** A model with nested bodies and comments, a quoted name, state-based
    behaviour and a stray token. *)
Definition sysml_example : bytes :=
  list_ascii_of_string "package P { /* a /* b */ c */ import Q::*;
part def 'A b' :> C { in port p : ~T[2]; attribute m = 10 [m/s]; }
state s { first start then t; accept x via p then u; do send m to p; } flow a.b to c; ) }".

Lemma sysml_parse_lossless_witness :
  utf8 sysml_example ∧ (64 * (N.of_nat (length sysml_example) + 1) ≤ U32_MAX)%N ∧
  ∃ (pr : Parse (@green_node SysmlKind stack_builder)) ts texts, parse sysml_example = Done pr ∧
    tree_of (green pr) = Node SOURCE_FILE ts ∧
    SysmlKind.lex sysml_example = Done texts ∧ leaves (Node SOURCE_FILE ts) = texts ∧
    tree_text (tree_of (green pr)) = sysml_example ∧
    Forall (λ e, offset e ≤ length sysml_example) (errors pr).
Proof.
  assert (Hs : utf8 sysml_example) by (apply utf8_ascii; repeat constructor).
  assert (Hl : (64 * (N.of_nat (length sysml_example) + 1) ≤ U32_MAX)%N) by (vm_compute; discriminate).
  split; [exact Hs|split; [exact Hl|]].
  exact (sysml_parse_lossless (G := stack_builder) sysml_example Hs Hl).
Defined.

(** One error, for the parenthesis; the recovery swallows the brace after it,
    so the body is reported as unclosed too. *)
Example sysml_example_errors :
  (pr ← parse (H := stack_builder) sysml_example; Done (length (errors pr))) = Done 2.
Proof. by vm_compute. Qed.
