(* ===== verification/SchedulingVerified.v ===== *)
(** * Response-time analysis

    [crates/spar-analysis/src/scheduling_verified.rs]: the fixed-point
    recurrences of fixed-priority response-time analysis on saturating [u64]
    arithmetic, and their drivers.  A driver is correct for any recurrence
    that, below the deadline, is a monotone function cut off at [u64::MAX];
    the class [Recurrence] states that, and the three recurrences are its
    instances. *)
From S2P Require Import Prelude.
#[local] Open Scope N_scope.

(** crates/spar-analysis/src/scheduling_verified.rs:31-34 [ceil_div] *)
Definition ceil_div (a b : u64) : Exec u64 := div_ceil a b.

(** crates/spar-analysis/src/scheduling_verified.rs:40-42 [interference] *)
Definition interference (period exec r : u64) : Exec u64 :=
  q ← ceil_div r period; Done (sat_mul q exec).

(** [for x in xs { total = total.saturating_add(f(x)) }]. *)
Definition sum_loop {A} (f : A → Exec u64) (xs : list A) (total : u64) : Exec u64 :=
  foldl (λ acc x, total ← acc; i ← f x; Done (sat_add total i)) (Done total) xs.

(** crates/spar-analysis/src/scheduling_verified.rs:48-54 [total_interference] *)
Definition total_interference (higher_priority : list (u64 * u64)) (r : u64) : Exec u64 :=
  sum_loop (λ '(period, exec), interference period exec r) higher_priority 0.

(** crates/spar-analysis/src/scheduling_verified.rs:60-62 [rta_step] *)
Definition rta_step (exec : u64) (higher_priority : list (u64 * u64)) (r : u64) : Exec u64 :=
  t ← total_interference higher_priority r; Done (sat_add exec t).

(** crates/spar-analysis/src/scheduling_verified.rs:68-73 [RtaResult] *)
Inductive RtaResult := Converged (response : u64) | Diverged.

(** crates/spar-analysis/src/scheduling_verified.rs:87-96 [compute_response_time]:
    the body of the loop, the same in the three drivers. *)
Definition rta_body (step : u64 → Exec u64) (deadline r : u64) : Exec (u64 + RtaResult) :=
  new_r ← step r;
  Done (if new_r =? r then inr (Converged r)
        else if deadline <? new_r then inr Diverged
        else inl new_r).

(** crates/spar-analysis/src/scheduling_verified.rs:87-98 [compute_response_time]:
    the loop [for _ in 0..=deadline]. *)
Definition rta_loop (step : u64 → Exec u64) (deadline r : u64) : Exec RtaResult :=
  o ← loop_upto (rta_body step deadline) (deadline + 1) r;
  Done (match o with inl _ => Diverged | inr res => res end).

(** crates/spar-analysis/src/scheduling_verified.rs:81-98 [compute_response_time] *)
Definition compute_response_time (exec deadline : u64) (higher_priority : list (u64 * u64))
    : Exec RtaResult :=
  let r := exec in
  rta_loop (rta_step exec higher_priority) deadline r.

(** crates/spar-analysis/src/scheduling_verified.rs:110-112 [interference_jittered] *)
Definition interference_jittered (period exec jitter r : u64) : Exec u64 :=
  q ← ceil_div (sat_add r jitter) period; Done (sat_mul q exec).

(** crates/spar-analysis/src/scheduling_verified.rs:117-123 [total_interference_jittered] *)
Definition total_interference_jittered (hps : list (u64 * u64 * u64)) (r : u64) : Exec u64 :=
  sum_loop (λ '(period, exec, jitter), interference_jittered period exec jitter r) hps 0.

(** crates/spar-analysis/src/scheduling_verified.rs:130-132 [total_isr_interference] *)
Definition total_isr_interference (isrs : list (u64 * u64)) (r : u64) : Exec u64 :=
  total_interference isrs r.

(** crates/spar-analysis/src/scheduling_verified.rs:150-160 [rta_step_jittered] *)
Definition rta_step_jittered (exec jitter : u64) (hps : list (u64 * u64 * u64))
    (isrs : list (u64 * u64)) (r : u64) : Exec u64 :=
  t ← total_interference_jittered hps r;
  i ← total_isr_interference isrs r;
  Done (sat_add (sat_add (sat_add exec jitter) t) i).

(** crates/spar-analysis/src/scheduling_verified.rs:170-194 [compute_response_time_jittered] *)
Definition compute_response_time_jittered (exec deadline jitter : u64)
    (hps : list (u64 * u64 * u64)) (isrs : list (u64 * u64)) : Exec RtaResult :=
  let r := sat_add exec jitter in
  if deadline <? r then Done Diverged
  else rta_loop (rta_step_jittered exec jitter hps isrs) deadline r.

(** crates/spar-analysis/src/scheduling_verified.rs:213-223 [rta_step_jittered_blocking] *)
Definition rta_step_jittered_blocking (exec jitter blocking : u64)
    (hps : list (u64 * u64 * u64)) (isrs : list (u64 * u64)) (r : u64) : Exec u64 :=
  s ← rta_step_jittered exec jitter hps isrs r; Done (sat_add s blocking).

(** crates/spar-analysis/src/scheduling_verified.rs:232-263 [compute_response_time_jittered_blocking] *)
Definition compute_response_time_jittered_blocking (exec deadline jitter blocking : u64)
    (hps : list (u64 * u64 * u64)) (isrs : list (u64 * u64)) : Exec RtaResult :=
  let r := sat_add (sat_add exec jitter) blocking in
  if deadline <? r then Done Diverged
  else rta_loop (rta_step_jittered_blocking exec jitter blocking hps isrs) deadline r.

(** ** What a driver needs of its recurrence *)

(** [recurrence] is the exact recurrence, on unbounded integers; up to
    [bound] the code computes it, cut off at [u64::MAX]. *)
Class Recurrence (step : u64 → Exec u64) (recurrence : N → N) (bound : N) := {
  step_exact r : r ≤ bound → step r = Done (N.min (recurrence r) U64_MAX);
  recurrence_mono r r' : r ≤ r' → recurrence r ≤ recurrence r';
}.

(** The demand released in a window of length [x] fits in the window. *)
Definition fits_in (f : N → N) (x : N) : Prop := f x ≤ x.

(** The result is the least window in which the demand fits, which is a
    fixed point of the recurrence, or there is none up to the deadline. *)
Definition least_or_none (f : N → N) (deadline : N) (res : RtaResult) : Prop :=
  match res with
  | Converged r => f r = r ∧ ∀ x, fits_in f x → r ≤ x
  | Diverged => ∀ x, fits_in f x → deadline < x
  end.

Lemma least_or_none_unique f deadline res1 res2 :
  least_or_none f deadline res1 → least_or_none f deadline res2 →
  (∀ x, res1 = Converged x → x ≤ deadline) → (∀ x, res2 = Converged x → x ≤ deadline) →
  res1 = res2.
Proof.
  unfold least_or_none, fits_in. destruct res1 as [r1|], res2 as [r2|]; intros H1 H2 B1 B2; [|exfalso..|done].
  - destruct H1 as [F1 L1], H2 as [F2 L2]. f_equal. apply N.le_antisymm; [apply L1|apply L2]; lia.
  - destruct H1 as [F1 _]. specialize (B1 _ eq_refl). specialize (H2 r1). lia.
  - destruct H2 as [F2 _]. specialize (B2 _ eq_refl). specialize (H1 r2). lia.
Qed.

Section driver.
Context {step : u64 → Exec u64} {f : N → N} {bound : N} `{!Recurrence step f bound}.
Context (deadline : u64) (Hd : deadline < U64_MAX) (Hb : deadline ≤ bound).

(** A lower bound of the windows that are long enough, below its own image. *)
Definition below (r : N) : Prop := r ≤ f r ∧ ∀ x, fits_in f x → r ≤ x.

Lemma below_step r : below r → below (f r).
Proof.
  intros [H1 H2]. split; [by apply (recurrence_mono (step := step) (bound := bound))|].
  intros x Hx. etrans; [|exact Hx]. apply (recurrence_mono (step := step) (bound := bound)). by apply H2.
Qed.

(** One iteration decides, or increases the iterate. *)
Lemma rta_body_spec r :
  r ≤ bound → r < U64_MAX → below r →
  (∃ res, rta_body step deadline r = Done (inr res) ∧ least_or_none f deadline res ∧
     ∀ x, res = Converged x → x = r) ∨
  (rta_body step deadline r = Done (inl (f r)) ∧ r < f r ≤ deadline).
Proof.
  intros Hr Hm Hl. unfold rta_body. rewrite step_exact by done. cbn [mbind Exec_bind].
  destruct Hl as [Hl1 Hl2] eqn:E; clear E. destruct (N.eqb_spec (N.min (f r) U64_MAX) r).
  { left. eexists. split; [done|]. split; [|congruence]. split; [lia|done]. }
  destruct (N.ltb_spec deadline (N.min (f r) U64_MAX)).
  { left. eexists. split; [done|]. split; [|done]. intros x Hx.
    destruct (below_step r (conj Hl1 Hl2)) as [_ H']. specialize (H' x Hx). lia. }
  right. split; [do 2 f_equal; lia|lia].
Qed.

Lemma rta_loop_nat n r :
  r ≤ deadline → below r → deadline < N.of_nat n + r →
  ∃ res, loop_upto_nat (rta_body step deadline) n r = Done (inr res) ∧
    least_or_none f deadline res ∧ ∀ x, res = Converged x → x ≤ deadline.
Proof.
  revert r. induction n as [|n IH]; intros r Hr Hl Hn; [lia|].
  cbn [loop_upto_nat].
  destruct (rta_body_spec r) as [(res & -> & Hres & Hc)|[-> Hlt]]; [lia|lia|done| |].
  - exists res. split_and!; [done|done|]. by intros x ->%Hc.
  - cbn [then_loop mbind Exec_bind]. apply IH; [lia|by apply below_step|lia].
Qed.

(** The driver returns, with the least fixed point or with the proof that
    none meets the deadline. *)
Lemma rta_loop_spec r :
  r ≤ bound → r < U64_MAX → below r →
  ∃ res, rta_loop step deadline r = Done res ∧ least_or_none f deadline res ∧
    ∀ x, res = Converged x → r ≤ deadline → x ≤ deadline.
Proof.
  intros Hrb Hm Hl. unfold rta_loop. rewrite loop_upto_eq, N.add_1_r, N2Nat.inj_succ.
  destruct (N.le_gt_cases r deadline) as [Hr|Hr].
  - destruct (rta_loop_nat (S (N.to_nat deadline)) r Hr Hl) as (res & -> & H1 & H2); [lia|].
    exists res. split_and!; [done|done|]. intros x Hx _. by apply H2.
  - cbn [loop_upto_nat]. destruct (rta_body_spec r) as [(res & -> & Hres & Hc)|[_ Hlt]]; [done..| |lia].
    exists res. split_and!; [done|done|lia].
Qed.
End driver.

(** ** The three recurrences *)

Lemma sum_loop_exact {A} (f : A → Exec u64) (g : A → N) xs total :
  Forall (λ x, f x = Done (N.min (g x) U64_MAX)) xs →
  sum_loop f xs (N.min total U64_MAX) =
  Done (N.min (total + foldr (λ x, N.add (g x)) 0 xs) U64_MAX).
Proof.
  intros H. revert total. unfold sum_loop. induction H as [|x xs Hx _ IH]; intros total; simpl.
  { do 2 f_equal. lia. }
  rewrite Hx. cbn [mbind Exec_bind].
  replace (sat_add (N.min total U64_MAX) (N.min (g x) U64_MAX))
    with (N.min (total + g x) U64_MAX) by (unfold sat_add; lia).
  rewrite IH. do 2 f_equal. lia.
Qed.

Lemma sum_mono {A} (g g' : A → N) xs :
  (∀ x, g x ≤ g' x) → foldr (λ x, N.add (g x)) 0 xs ≤ foldr (λ x, N.add (g' x)) 0 xs.
Proof. intros H. induction xs as [|x xs IH]; simpl; [lia|]. specialize (H x). lia. Qed.

(** The exact demand of higher-priority tasks and of interrupts. *)
Definition demand (hps : list (u64 * u64)) (r : N) : N :=
  foldr (λ '(period, exec), N.add (ceil_quot r period * exec)) 0 hps.
Definition demand_jittered (hps : list (u64 * u64 * u64)) (r : N) : N :=
  foldr (λ '(period, exec, jitter), N.add (ceil_quot (r + jitter) period * exec)) 0 hps.

Definition response (exec : N) (hps : list (u64 * u64)) (r : N) : N := exec + demand hps r.
Definition response_jittered (exec jitter blocking : N) (hps : list (u64 * u64 * u64))
    (isrs : list (u64 * u64)) (r : N) : N :=
  exec + jitter + blocking + demand_jittered hps r + demand isrs r.

(** No period is zero, and the jitters keep the windows up to the deadline in 64 bits. *)
Definition periods_ok (hps : list (u64 * u64)) : Prop := Forall (λ hp, 0 < fst hp) hps.
Definition jitters_ok (deadline : N) (hps : list (u64 * u64 * u64)) : Prop :=
  Forall (λ hp, 0 < fst (fst hp) ∧ deadline + snd hp ≤ U64_MAX) hps.

Lemma interference_exact period exec r :
  0 < period → interference period exec r = Done (N.min (ceil_quot r period * exec) U64_MAX).
Proof.
  intros Hp. unfold interference, ceil_div, div_ceil. destruct (N.eqb_spec period 0); [lia|]. done.
Qed.

Lemma demand_mono hps r r' : r ≤ r' → demand hps r ≤ demand hps r'.
Proof.
  intros Hr. induction hps as [|[p e] hps IH]; simpl; [lia|].
  assert (ceil_quot r p * e ≤ ceil_quot r' p * e)
    by (apply N.mul_le_mono_r; by apply ceil_quot_mono). lia.
Qed.
Lemma demand_jittered_mono hps r r' : r ≤ r' → demand_jittered hps r ≤ demand_jittered hps r'.
Proof.
  intros Hr. induction hps as [|[[p e] j] hps IH]; simpl; [lia|].
  assert (ceil_quot (r + j) p * e ≤ ceil_quot (r' + j) p * e)
    by (apply N.mul_le_mono_r; apply ceil_quot_mono; lia). lia.
Qed.

Lemma total_interference_exact hps r :
  periods_ok hps → total_interference hps r = Done (N.min (demand hps r) U64_MAX).
Proof.
  intros H. unfold total_interference. change 0 with (N.min 0 U64_MAX).
  rewrite (sum_loop_exact _ (λ hp, ceil_quot r (fst hp) * snd hp)).
  - unfold demand. do 2 f_equal. clear H. induction hps as [|[p e] hps IH]; simpl in *; [done|]. lia.
  - eapply Forall_impl; [exact H|]. intros [p e] Hp. by apply interference_exact.
Qed.

Lemma total_interference_jittered_exact deadline hps r :
  jitters_ok deadline hps → r ≤ deadline →
  total_interference_jittered hps r = Done (N.min (demand_jittered hps r) U64_MAX).
Proof.
  intros H Hr. unfold total_interference_jittered. change 0 with (N.min 0 U64_MAX).
  rewrite (sum_loop_exact _ (λ hp, ceil_quot (r + snd hp) (fst (fst hp)) * snd (fst hp))).
  - unfold demand_jittered. do 2 f_equal. clear H.
    induction hps as [|[[p e] j] hps IH]; simpl in *; [done|]. lia.
  - eapply Forall_impl; [exact H|]. intros [[p e] j] [Hp Hj]. simpl in *.
    unfold interference_jittered. rewrite sat_add_exact by lia. by apply interference_exact.
Qed.

#[export] Instance rta_step_recurrence exec hps bound (H : periods_ok hps) :
  Recurrence (rta_step exec hps) (response exec hps) bound.
Proof.
  split.
  - intros r _. unfold rta_step. rewrite total_interference_exact by done. cbn [mbind Exec_bind].
    unfold sat_add, response. f_equal. lia.
  - intros r r' Hr. unfold response. pose proof (demand_mono hps r r' Hr). lia.
Qed.

#[export] Instance rta_step_jittered_blocking_recurrence exec jitter blocking hps isrs deadline
    (H1 : jitters_ok deadline hps) (H2 : periods_ok isrs) :
  Recurrence (rta_step_jittered_blocking exec jitter blocking hps isrs)
    (response_jittered exec jitter blocking hps isrs) deadline.
Proof.
  split.
  - intros r Hr. unfold rta_step_jittered_blocking, rta_step_jittered, total_isr_interference.
    rewrite (total_interference_jittered_exact deadline) by done. cbn [mbind Exec_bind].
    rewrite total_interference_exact by done. cbn [mbind Exec_bind].
    unfold sat_add, response_jittered. f_equal. lia.
  - intros r r' Hr. unfold response_jittered.
    pose proof (demand_mono isrs r r' Hr). pose proof (demand_jittered_mono hps r r' Hr). lia.
Qed.

(** A zero blocking term changes no step, hence no iteration. *)
Lemma step_blocking_0 exec jitter hps isrs r :
  rta_step_jittered_blocking exec jitter 0 hps isrs r = rta_step_jittered exec jitter hps isrs r.
Proof.
  unfold rta_step_jittered_blocking, rta_step_jittered.
  destruct (total_interference_jittered hps r) as [t| |]; [|done..]. cbn [mbind Exec_bind].
  destruct (total_isr_interference isrs r) as [i| |]; [|done..]. cbn [mbind Exec_bind].
  f_equal. unfold sat_add. lia.
Qed.

Lemma rta_loop_ext step1 step2 deadline r :
  (∀ r, step1 r = step2 r) → rta_loop step1 deadline r = rta_loop step2 deadline r.
Proof.
  intros H. unfold rta_loop. rewrite !loop_upto_eq.
  assert (E : ∀ n r, loop_upto_nat (rta_body step1 deadline) n r =
                     loop_upto_nat (rta_body step2 deadline) n r); [|by rewrite E].
  intros n. induction n as [|n IH]; intros r'; [done|]. cbn [loop_upto_nat].
  replace (rta_body step1 deadline r') with (rta_body step2 deadline r')
    by (unfold rta_body; by rewrite H).
  by apply then_loop_ext.
Qed.

#[export] Instance rta_step_jittered_recurrence exec jitter hps isrs deadline
    (H1 : jitters_ok deadline hps) (H2 : periods_ok isrs) :
  Recurrence (rta_step_jittered exec jitter hps isrs)
    (response_jittered exec jitter 0 hps isrs) deadline.
Proof.
  split.
  - intros r Hr. rewrite <- step_blocking_0.
    by apply (rta_step_jittered_blocking_recurrence exec jitter 0 hps isrs deadline H1 H2).
  - apply (recurrence_mono (Recurrence :=
      rta_step_jittered_blocking_recurrence exec jitter 0 hps isrs deadline H1 H2)).
Qed.

(** ** Theorems *)

(** The start of the iteration is a lower bound when it is part of the demand. *)
Lemma below_start (f : N → N) r : (∀ x, r ≤ f x) → below (f := f) r.
Proof. intros H. split; [apply H|]. intros x Hx. etrans; [apply (H x)|exact Hx]. Qed.

Lemma compute_blocking_spec exec deadline jitter blocking hps isrs :
  deadline < U64_MAX → jitters_ok deadline hps → periods_ok isrs →
  ∃ res, compute_response_time_jittered_blocking exec deadline jitter blocking hps isrs = Done res ∧
    least_or_none (response_jittered exec jitter blocking hps isrs) deadline res ∧
    ∀ x, res = Converged x → x ≤ deadline.
Proof.
  intros Hd Hh Hi. unfold compute_response_time_jittered_blocking.
  pose proof (rta_step_jittered_blocking_recurrence exec jitter blocking hps isrs deadline Hh Hi) as R.
  destruct (N.ltb_spec deadline (sat_add (sat_add exec jitter) blocking)) as [Hlt|Hle].
  - exists Diverged. split_and!; [done| |done]. intros x Hx. unfold fits_in, response_jittered in Hx.
    unfold sat_add in Hlt. lia.
  - assert (E : sat_add (sat_add exec jitter) blocking = exec + jitter + blocking)
      by (unfold sat_add in *; lia). rewrite E in *.
    destruct (rta_loop_spec deadline Hd (N.le_refl deadline) (exec + jitter + blocking))
      as (res & Hr & Hres & Hc); [lia|lia| |].
    { apply below_start. intros x. unfold response_jittered. lia. }
    exists res. split_and!; [done|done|]. intros x Hx. by apply Hc.
Qed.

(** C10: The full analysis, with release jitter, interrupts and blocking, is
    exact.  For non-zero periods and windows that fit 64 bits it returns;
    [Converged r] is the least window in which the task's own demand and all
    the interference released in it fit, a fixed point of the recurrence on
    unbounded integers, within the deadline; [Diverged] means that no window
    up to the deadline is long enough. *)
Theorem compute_response_time_jittered_blocking_exact exec deadline jitter blocking hps isrs :
  deadline < U64_MAX → jitters_ok deadline hps → periods_ok isrs →
  ∃ res, compute_response_time_jittered_blocking exec deadline jitter blocking hps isrs = Done res ∧
    least_or_none (response_jittered exec jitter blocking hps isrs) deadline res ∧
    ∀ x, res = Converged x → x ≤ deadline.
Proof. apply compute_blocking_spec. Qed.

Lemma compute_spec exec deadline hps :
  exec < U64_MAX → deadline < U64_MAX → periods_ok hps →
  ∃ res, compute_response_time exec deadline hps = Done res ∧
    least_or_none (response exec hps) deadline res ∧
    ∀ x, res = Converged x → exec ≤ deadline → x ≤ deadline.
Proof.
  intros He Hd Hh. unfold compute_response_time.
  pose proof (rta_step_recurrence exec hps (N.max exec deadline) Hh) as R.
  apply (rta_loop_spec (bound := N.max exec deadline)); [done|lia|lia|done|].
  apply below_start. intros x. unfold response. lia.
Qed.

(** The classical analysis finds the least window in which the demand
    fits, or reports that none up to the deadline does.  The deadline bounds
    a converged response only when it bounds the execution time: the driver
    does not test its starting point. *)
Theorem compute_response_time_exact exec deadline hps :
  exec < U64_MAX → deadline < U64_MAX → periods_ok hps →
  ∃ res, compute_response_time exec deadline hps = Done res ∧
    least_or_none (response exec hps) deadline res ∧
    ∀ x, res = Converged x → exec ≤ deadline → x ≤ deadline.
Proof. apply compute_spec. Qed.

(** An execution time beyond the deadline "converges". *)
Lemma compute_response_time_late :
  compute_response_time 10 5 [] = Done (Converged 10) ∧
  compute_response_time_jittered 10 5 0 [] [] = Done Diverged.
Proof. by vm_compute. Qed.

Lemma jittered_blocking_0 exec deadline jitter hps isrs :
  compute_response_time_jittered_blocking exec deadline jitter 0 hps isrs =
  compute_response_time_jittered exec deadline jitter hps isrs.
Proof.
  unfold compute_response_time_jittered_blocking, compute_response_time_jittered.
  replace (sat_add (sat_add exec jitter) 0) with (sat_add exec jitter) by (unfold sat_add; lia).
  destruct (deadline <? sat_add exec jitter); [done|]. apply rta_loop_ext, step_blocking_0.
Qed.

Definition no_jitter (hps : list (u64 * u64)) : list (u64 * u64 * u64) := map (λ hp, (hp, 0)) hps.

(** The reductions that the comments claim.  Without blocking the full
    analysis is the jittered one on every input; without jitter and
    interrupts the jittered one is the classical one, if the execution time
    is at most the deadline. *)
Theorem compute_response_time_reductions exec deadline jitter hps isrs hps0 :
  exec ≤ deadline → deadline < U64_MAX → periods_ok hps0 →
  compute_response_time_jittered_blocking exec deadline jitter 0 hps isrs =
    compute_response_time_jittered exec deadline jitter hps isrs ∧
  compute_response_time_jittered exec deadline 0 (no_jitter hps0) [] =
    compute_response_time exec deadline hps0.
Proof.
  intros He Hd Hh. split; [apply jittered_blocking_0|]. rewrite <- jittered_blocking_0.
  destruct (compute_spec exec deadline hps0) as (res1 & -> & H1 & B1); [lia|done|done|].
  destruct (compute_blocking_spec exec deadline 0 0 (no_jitter hps0) []) as (res2 & -> & H2 & B2);
    [done| |constructor|].
  { apply Forall_map. eapply Forall_impl; [exact Hh|]. intros [p e] Hp. simpl in *. lia. }
  f_equal. apply (least_or_none_unique (response exec hps0) deadline); [|done|done|by eauto].
  assert (E : ∀ x, response_jittered exec 0 0 (no_jitter hps0) [] x = response exec hps0 x).
  { intros x. unfold response_jittered, response, demand_jittered, demand, no_jitter. simpl.
    assert (∀ l : list (u64 * u64), foldr (λ '(period, exec, jitter), N.add (ceil_quot (x + jitter) period * exec)) 0
      (map (λ hp, (hp, 0)) l) = foldr (λ '(period, exec), N.add (ceil_quot x period * exec)) 0 l) as ->;
      [|lia].
    intros l. induction l as [|[p e] l IH]; simpl; [done|]. by rewrite IH, N.add_0_r. }
  unfold least_or_none, fits_in in *. destruct res2; setoid_rewrite E in H2; done.
Qed.

Lemma Forall_sublist {A} (P : A → Prop) l k : l `sublist_of` k → Forall P k → Forall P l.
Proof.
  induction 1 as [|x l k _ IH|x l k _ IH]; [done|..]; rewrite ?Forall_cons; naive_solver.
Qed.

(** More work never shortens a response.  If the full analysis converges
    for a task, then it converges, to at most the same bound, for a shorter
    execution time, jitter or blocking and fewer interfering tasks and
    interrupts. *)
Theorem compute_response_time_monotone exec jitter blocking hps isrs
    exec' jitter' blocking' hps' isrs' deadline r' :
  deadline < U64_MAX → jitters_ok deadline hps' → periods_ok isrs' →
  exec ≤ exec' → jitter ≤ jitter' → blocking ≤ blocking' →
  hps `sublist_of` hps' → isrs `sublist_of` isrs' →
  compute_response_time_jittered_blocking exec' deadline jitter' blocking' hps' isrs' =
    Done (Converged r') →
  ∃ r, compute_response_time_jittered_blocking exec deadline jitter blocking hps isrs =
    Done (Converged r) ∧ r ≤ r'.
Proof.
  intros Hd Hh Hi He Hj Hb Hs1 Hs2 Hc'.
  destruct (compute_blocking_spec exec' deadline jitter' blocking' hps' isrs') as (res & E & Hl & Hb');
    [done..|]. rewrite Hc' in E. injection E as <-. destruct Hl as [Hfix _].
  specialize (Hb' _ eq_refl).
  destruct (compute_blocking_spec exec deadline jitter blocking hps isrs) as (res & E & Hl & _);
    [done|by eapply Forall_sublist|by eapply Forall_sublist|].
  assert (D1 : demand_jittered hps r' ≤ demand_jittered hps' r').
  { clear -Hs1. induction Hs1 as [|[[p e] j] l k _ IH|[[p e] j] l k _ IH]; simpl in *; lia. }
  assert (D2 : demand isrs r' ≤ demand isrs' r').
  { clear -Hs2. induction Hs2 as [|[p e] l k _ IH|[p e] l k _ IH]; simpl in *; lia. }
  assert (Hf : fits_in (response_jittered exec jitter blocking hps isrs) r').
  { unfold fits_in. rewrite <- Hfix at 2. unfold response_jittered. lia. }
  destruct res as [r|]; simpl in Hl.
  - exists r. split; [done|]. by apply Hl.
  - specialize (Hl r' Hf). lia.
Qed.

(** ** Witnesses: a 3 ms task under a 2 ms task of period 10 and an interrupt *)
Definition hps_ex : list (u64 * u64 * u64) := [(10, 2, 1)].
Definition isrs_ex : list (u64 * u64) := [(5, 1)].

Lemma jitters_ex : jitters_ok 20 hps_ex.
Proof. repeat constructor; vm_compute; discriminate. Defined.
Lemma periods_ex : periods_ok isrs_ex.
Proof. by repeat constructor. Defined.

Lemma compute_response_time_jittered_blocking_exact_witness :
  jitters_ok 20 hps_ex ∧ periods_ok isrs_ex ∧
  compute_response_time_jittered_blocking 3 20 1 1 hps_ex isrs_ex = Done (Converged 9) ∧
  ∃ res, compute_response_time_jittered_blocking 3 20 1 1 hps_ex isrs_ex = Done res ∧
    least_or_none (response_jittered 3 1 1 hps_ex isrs_ex) 20 res ∧
    ∀ x, res = Converged x → x ≤ 20.
Proof.
  split_and!; [apply jitters_ex|apply periods_ex|by vm_compute|].
  apply compute_response_time_jittered_blocking_exact; [done|apply jitters_ex|apply periods_ex].
Defined.

Lemma compute_response_time_exact_witness :
  periods_ok isrs_ex ∧
  ∃ res, compute_response_time 3 20 isrs_ex = Done res ∧
    least_or_none (response 3 isrs_ex) 20 res ∧
    ∀ x, res = Converged x → 3 ≤ 20 → x ≤ 20.
Proof. split; [apply periods_ex|]. apply compute_response_time_exact; [done|done|apply periods_ex]. Defined.

Lemma compute_response_time_reductions_witness :
  compute_response_time_jittered_blocking 3 20 1 0 hps_ex isrs_ex =
    compute_response_time_jittered 3 20 1 hps_ex isrs_ex ∧
  compute_response_time_jittered 3 20 0 (no_jitter isrs_ex) [] = compute_response_time 3 20 isrs_ex.
Proof. apply compute_response_time_reductions; [by vm_compute|done|apply periods_ex]. Defined.

Lemma compute_response_time_monotone_witness :
  ∃ r, compute_response_time_jittered_blocking 2 20 1 0 hps_ex [] = Done (Converged r) ∧ r ≤ 9.
Proof.
  apply (compute_response_time_monotone 2 1 0 hps_ex [] 3 1 1 hps_ex isrs_ex);
    [done|apply jitters_ex|apply periods_ex|by vm_compute|by vm_compute|by vm_compute|done|
     apply sublist_nil_l|by vm_compute].
Defined.
