(* ===== verification/Overlay.v ===== *)
(** * Migration properties and hypothetical bindings

    [crates/spar-hir-def/src/migration.rs] and
    [crates/spar-hir-def/src/overlay.rs]: which components may move, and a
    map of moves that is read in place of the declared processor bindings.
    The hash map of moves is a finite map; its iteration order is that of its
    bindings and no theorem depends on it. *)
From S2P Require Import Prelude.
From S2P Require Import Text.
From S2P Require Import Names.
From S2P Require Import PropertyExpr.
From S2P Require Import PropertyMap.
From S2P Require Import Quantities.
From S2P Require Import PropertyAccessors.
From S2P Require Import ItemTree.
From S2P Require Import Instance.
From S2P Require Import Diagnostics.
From stdpp Require Import gmap strings.

(** crates/spar-hir-def/src/overlay.rs:44-44 [SPAR_MIGRATION] *)
Definition SPAR_MIGRATION : string := "Spar_Migration".

(** crates/spar-hir-def/src/migration.rs:60-75 [read_bool_property] *)
Definition read_bool_property (props : PropertyMap) (name : string) : option bool :=
  match get_typed props SPAR_MIGRATION name with
  | Some (Boolean b) => Some b
  | _ =>
      raw ← get props SPAR_MIGRATION name;
      let s := to_ascii_lowercase (trim raw) in
      if bool_decide (s = "true"%string) then Some true
      else if bool_decide (s = "false"%string) then Some false
      else None
  end.

(** crates/spar-hir-def/src/migration.rs:33-35 [is_frozen] *)
Definition is_frozen (props : PropertyMap) : bool := default false (read_bool_property props "Frozen").

(** crates/spar-hir-def/src/migration.rs:48-53 [is_mobile] *)
Definition is_mobile (props : PropertyMap) : bool :=
  if is_frozen props then false else default false (read_bool_property props "Mobile").

(** ** References written in a property *)

(** crates/spar-hir-def/src/overlay.rs:336-351 [collect_reference_names] *)
Fixpoint collect_reference_names (expr : PropertyExpr) : list string :=
  match expr with
  | ReferenceValue s => option_list (non_empty (trim s))
  | List_ items => concat (collect_reference_names <$> items)
  | _ => []
  end.

(** crates/spar-hir-def/src/overlay.rs:357-373 [parse_reference_list]: the loop, on
    fuel. *)
Fixpoint parse_references (fuel : nat) (rest : bytes) : Exec (list string) :=
  match split_once (list_ascii_of_string "reference") rest with
  | None => Done []
  | Some (_, rest) =>
      match split_once (list_ascii_of_string "(") rest with
      | None => Done []
      | Some (_, rest) =>
          match split_once (list_ascii_of_string ")") rest with
          | None => Done []
          | Some (inner, rest) =>
              match fuel with
              | O => Stuck
              | S n =>
                  out ← parse_references n rest;
                  Done (option_list (non_empty (string_of_list_ascii (trim_bytes inner))) ++ out)
              end
          end
      end
  end.

(** crates/spar-hir-def/src/overlay.rs:357-373 [parse_reference_list] *)
Definition parse_reference_list (raw : string) : Exec (list string) :=
  let s := list_ascii_of_string raw in parse_references (length s) s.

(** crates/spar-hir-def/src/overlay.rs:381-393 [read_actual_processor_binding_name] *)
Definition read_actual_processor_binding_name (props : PropertyMap) : Exec (option string) :=
  let names := match get_typed props "Deployment_Properties" "Actual_Processor_Binding" with
               | Some expr => collect_reference_names expr
               | None => []
               end in
  match names with
  | first :: _ => Done (Some first)
  | [] =>
      match get_qualified props "Deployment_Properties" "Actual_Processor_Binding" with
      | None => Done None
      | Some raw => names ← parse_reference_list raw; Done (head names)
      end
  end.

(** [str::trim_matches] of double quotes, at the front. *)
Fixpoint trim_quotes (s : bytes) : bytes :=
  match s with b :: s' => if Ascii.eqb b (ascii_of_N 34) then trim_quotes s' else s | [] => [] end.

(** crates/spar-hir-def/src/overlay.rs:295-306 [pinned_reason] *)
Definition pinned_reason (props : PropertyMap) : option string :=
  match get_typed props SPAR_MIGRATION "Pinned_Reason" with
  | Some (StringLit s) => Some s
  | _ =>
      raw ← get props SPAR_MIGRATION "Pinned_Reason";
      let trimmed := rev (trim_quotes (rev (trim_quotes (trim_bytes (list_ascii_of_string raw))))) in
      non_empty (string_of_list_ascii trimmed)
  end.

(** crates/spar-hir-def/src/overlay.rs:319-333 [read_allowed_targets] *)
Definition read_allowed_targets (props : PropertyMap) : Exec (list string) :=
  let out := match get_typed props SPAR_MIGRATION "Allowed_Targets" with
             | Some expr => collect_reference_names expr
             | None => []
             end in
  match out with
  | _ :: _ => Done out
  | [] =>
      match get props SPAR_MIGRATION "Allowed_Targets" with
      | None => Done []
      | Some raw => parse_reference_list raw
      end
  end.

(** ** The overlay *)

(** crates/spar-hir-def/src/overlay.rs:68-74 [BindingOverlay] *)
Definition BindingOverlay : Type := gmap ComponentInstanceIdx ComponentInstanceIdx.

(** crates/spar-hir-def/src/overlay.rs:84-90 [FrozenViolation] *)
Record FrozenViolation := { fv_component : ComponentInstanceIdx; fv_reason : string }.

(** crates/spar-hir-def/src/overlay.rs:98-106 [AllowedTargetsViolation] *)
Record AllowedTargetsViolation := {
  av_component : ComponentInstanceIdx;
  av_target : ComponentInstanceIdx;
  av_allowed : list ComponentInstanceIdx;
}.

(** crates/spar-hir-def/src/overlay.rs:110-115 [OverlayDiagnostic] *)
Inductive OverlayDiagnostic := Frozen (v : FrozenViolation) | AllowedTargets (v : AllowedTargetsViolation).

(** crates/spar-hir-def/src/overlay.rs:125-127 [BindingOverlay::new] *)
Definition new_overlay : BindingOverlay := ∅.

(** crates/spar-hir-def/src/overlay.rs:137-139 [add_move] *)
Definition add_move (o : BindingOverlay) (comp target : ComponentInstanceIdx) : BindingOverlay :=
  <[comp := target]> o.

(** crates/spar-hir-def/src/overlay.rs:156-158 [target_for] *)
Definition target_for (o : BindingOverlay) (comp : ComponentInstanceIdx) : option ComponentInstanceIdx :=
  o !! comp.

(** crates/spar-hir-def/src/overlay.rs:187-201 [is_frozen_violation] *)
Definition is_frozen_violation (o : BindingOverlay) (inst : SystemInstance) : list FrozenViolation :=
  concat ((λ '(comp, _),
    let props := properties_for inst comp in
    if is_frozen props then
      [{| fv_component := comp;
          fv_reason := default "component is marked Spar_Migration::Frozen"%string (pinned_reason props) |}]
    else []) <$> map_to_list o).

(** crates/spar-hir-def/src/overlay.rs:210-244 [allowed_targets_violation]: one move. *)
Definition allowed_violation (inst : SystemInstance) (move : ComponentInstanceIdx * ComponentInstanceIdx)
  : Exec (list AllowedTargetsViolation) :=
  let '(comp, target) := move in
  allowed_names ← read_allowed_targets (properties_for inst comp);
  match allowed_names with
  | [] => Done []
  | _ =>
      t ← component inst target;
      if existsb (λ n, eq_ignore_ascii_case n (name t)) allowed_names then Done []
      else
        allowed ← concatM (λ n, i ← resolve_dotted_path inst n; Done (option_list i)) allowed_names;
        Done [{| av_component := comp; av_target := target; av_allowed := allowed |}]
  end.

(** crates/spar-hir-def/src/overlay.rs:210-244 [allowed_targets_violation] *)
Definition allowed_targets_violation (o : BindingOverlay) (inst : SystemInstance)
  : Exec (list AllowedTargetsViolation) :=
  concatM (allowed_violation inst) (map_to_list o).

(** crates/spar-hir-def/src/overlay.rs:170-179 [validate] *)
Definition validate (o : BindingOverlay) (inst : SystemInstance) : Exec (list OverlayDiagnostic) :=
  allowed ← allowed_targets_violation o inst;
  Done ((Frozen <$> is_frozen_violation o inst) ++ (AllowedTargets <$> allowed)).

(** crates/spar-hir-def/src/overlay.rs:272-290 [actual_processor_binding_with_overlay] *)
Definition actual_processor_binding_with_overlay (inst : SystemInstance) (comp : ComponentInstanceIdx)
    (overlay : option BindingOverlay) : Exec (option ComponentInstanceIdx) :=
  match overlay ≫= λ o, target_for o comp with
  | Some target => Done (Some target)
  | None =>
      let props := properties_for inst comp in
      nm ← read_actual_processor_binding_name props;
      match nm with
      | None => Done None
      | Some target_name =>
          let ctx := reference_context_of inst comp "Deployment_Properties" "Actual_Processor_Binding" in
          resolve_reference inst ctx target_name
      end
  end.

(** ** Validation of hypothetical bindings *)
(** ** The text of references is consumed *)

Lemma str_strip_prefix_length pat s r :
  str_strip_prefix pat s = Some r → length s = length pat + length r.
Proof.
  revert s. induction pat as [|a pat IH]; intros s; simpl; [by intros [= ->]|].
  destruct s as [|b s]; [done|]. destruct (Ascii.eqb a b); [|done]. intros H%IH. simpl. lia.
Qed.

Lemma split_once_length pat s before after :
  split_once pat s = Some (before, after) → length s = length before + length pat + length after.
Proof.
  revert before. induction s as [|b s IH]; intros before; simpl.
  - destruct (str_strip_prefix pat []) eqn:E; [|done].
    intros [= <- <-]. by apply str_strip_prefix_length in E.
  - destruct (str_strip_prefix pat (b :: s)) eqn:E.
    { intros [= <- <-]. by apply str_strip_prefix_length in E. }
    destruct (split_once pat s) as [[x y]|] eqn:Es; simpl; [|done].
    intros [= <- <-]. specialize (IH _ eq_refl). simpl. lia.
Qed.

Lemma parse_references_total n s :
  length s ≤ n → ∃ names, parse_references n s = Done names.
Proof.
  revert s. induction n as [|n IH]; intros s Hs; cbn [parse_references];
    (destruct (split_once _ s) as [[x1 r1]|] eqn:E1; [|by eexists]);
    (destruct (split_once _ r1) as [[x2 r2]|] eqn:E2; [|by eexists]);
    (destruct (split_once _ r2) as [[x3 r3]|] eqn:E3; [|by eexists]);
    apply split_once_length in E1, E2, E3; cbn in E1, E2, E3; [lia|].
  destruct (IH r3) as [names ->]; [lia|]. by eexists.
Qed.

Lemma parse_reference_list_total raw : ∃ names, parse_reference_list raw = Done names.
Proof. by apply parse_references_total. Qed.

Lemma read_allowed_targets_total props : ∃ names, read_allowed_targets props = Done names.
Proof.
  unfold read_allowed_targets.
  assert (H : ∃ names, match get props SPAR_MIGRATION "Allowed_Targets" with
    | Some raw => parse_reference_list raw | None => Done [] end = Done names).
  { destruct (get _ _ _); [apply parse_reference_list_total|by eexists]. }
  destruct (get_typed _ _ _) as [e|]; [|done]. destruct (collect_reference_names e); [done|by eexists].
Qed.

(** ** Paths are found in a well-formed instance *)
Section wf.
Context (inst : SystemInstance) (Hwf : wf_instance inst).

Lemma component_instance_path_total i :
  i < length (components inst) → ∃ s, component_instance_path inst i = Done s.
Proof.
  intros Hi. unfold component_instance_path. destruct (walk_up_total inst Hwf i Hi) as (p & -> & _).
  by eexists.
Qed.

Lemma match_component_total written best ic :
  ic.1 < length (components inst) → ∃ b, match_component inst written best ic = Done b.
Proof.
  intros Hi. unfold match_component.
  destruct (component_instance_path_total ic.1 Hi) as [s E].
  destruct (contains_char _ _); [by rewrite E; eexists|].
  destruct (eq_ignore_ascii_case _ _); [by rewrite E; eexists|by eexists].
Qed.

Lemma resolve_dotted_path_total written : ∃ r, resolve_dotted_path inst written = Done r.
Proof.
  unfold resolve_dotted_path.
  assert (H : ∀ ics best, (∀ ic, ic ∈ ics → ic.1 < length (components inst)) →
    ∃ b, foldM (match_component inst written) best ics = Done b).
  { intros ics. induction ics as [|ic ics IH]; intros best H; [by eexists|]. simpl.
    destruct (match_component_total written best ic) as [b ->]; [apply H; by left|].
    simpl. apply IH. intros ic' Hin. apply H. by right. }
  destruct (H (all_components inst) None) as [b ->].
  - intros [i c] Hin. unfold all_components in Hin.
    apply elem_of_lookup_imap in Hin as (j & c' & [= -> ->] & Hc). by apply lookup_lt_Some in Hc.
  - by destruct b as [[i d]|]; eexists.
Qed.

(** What the loop makes of one move. *)
Definition violates (move : ComponentInstanceIdx * ComponentInstanceIdx) (v : AllowedTargetsViolation) : Prop :=
  av_component v = move.1 ∧ av_target v = move.2 ∧
  ∃ names t, read_allowed_targets (properties_for inst move.1) = Done names ∧ names ≠ [] ∧
    components inst !! move.2 = Some t ∧
    Forall (λ n, eq_ignore_ascii_case n (name t) = false) names ∧
    concatM (λ n, i ← resolve_dotted_path inst n; Done (option_list i)) names = Done (av_allowed v).

Lemma allowed_violation_spec move :
  move.2 < length (components inst) →
  ∃ vs, allowed_violation inst move = Done vs ∧ ∀ v, v ∈ vs ↔ violates move v.
Proof.
  destruct move as [comp target]. cbn. intros Ht. unfold allowed_violation, violates. cbn.
  destruct (read_allowed_targets_total (properties_for inst comp)) as [names ->]. cbn.
  destruct (arena_get_lt (components inst) target Ht) as (t & Hget & Hc).
  unfold component. rewrite Hget.
  destruct names as [|n0 names].
  { exists []. split; [done|]. intros v. split; [by intros ?%elem_of_nil|].
    by intros (_ & _ & ? & ? & [= <-] & ? & _). }
  set (names' := n0 :: names). cbn [mbind Exec_bind].
  destruct (existsb _ names') eqn:Ex.
  - exists []. split; [done|]. intros v. split; [by intros ?%elem_of_nil|].
    intros (_ & _ & names2 & t' & [= <-] & _ & Hc' & Hall & _). simplify_eq.
    apply existsb_exists in Ex as (n & Hin%list_elem_of_In & Hn).
    rewrite Forall_forall in Hall. by rewrite Hall in Hn.
  - destruct (concatM_total (λ n, i ← resolve_dotted_path inst n; Done (option_list i)) names')
      as (allowed & E & _).
    { intros n _. destruct (resolve_dotted_path_total n) as [r ->]. by eexists. }
    rewrite E. cbn [mbind Exec_bind]. eexists. split; [done|]. intros v.
    rewrite list_elem_of_singleton. split.
    + intros ->. cbn. split_and!; [done..|]. exists names', t. split_and!; try done.
      apply Forall_forall. intros n Hn. apply not_true_is_false. intros Hn'.
      rewrite <- not_true_iff_false in Ex. apply Ex. apply existsb_exists. exists n.
      by rewrite <- list_elem_of_In.
    + intros (H1 & H2 & names2 & t' & [= <-] & _ & _ & _ & Hal). destruct v as [c' t'' a']. cbn in *.
      fold names' in Hal. rewrite E in Hal. by simplify_eq.
Qed.
End wf.

Lemma is_frozen_violation_spec o inst v :
  v ∈ is_frozen_violation o inst ↔
  is_Some (o !! fv_component v) ∧
  let props := properties_for inst (fv_component v) in
  is_frozen props = true ∧
  fv_reason v = default "component is marked Spar_Migration::Frozen"%string (pinned_reason props).
Proof.
  unfold is_frozen_violation. rewrite list_elem_of_In, in_concat. split.
  - intros (l & Hl & Hv). apply list_elem_of_In, list_elem_of_fmap in Hl as ([c t] & -> & Hin).
    apply elem_of_map_to_list in Hin. destruct (is_frozen (properties_for inst c)) eqn:E; [|done].
    destruct Hv as [<-|[]]. cbn. split_and!; [by eexists|done|done].
  - intros ([t Ht] & Hf & Hr). eexists. split.
    + apply list_elem_of_In, list_elem_of_fmap. exists (fv_component v, t).
      split; [done|]. by apply elem_of_map_to_list.
    + cbn. rewrite Hf. left. destruct v as [c r]. cbn in *. by rewrite Hr.
Qed.

(** C21: validating hypothetical bindings reports exactly the moves of frozen
    components, and the moves to a target that a non-empty list of allowed
    targets of the component does not name, case-insensitively; it returns on
    every well-formed instance that has the targets. *)
Theorem overlay_validate_exact o inst :
  wf_instance inst → (∀ c t, o !! c = Some t → t < length (components inst)) →
  ∃ ds, validate o inst = Done ds ∧
    (∀ v, Frozen v ∈ ds ↔
       is_Some (o !! fv_component v) ∧
       let props := properties_for inst (fv_component v) in
       is_frozen props = true ∧
       fv_reason v = default "component is marked Spar_Migration::Frozen"%string (pinned_reason props)) ∧
    (∀ v, AllowedTargets v ∈ ds ↔
       o !! av_component v = Some (av_target v) ∧
       violates inst (av_component v, av_target v) v).
Proof.
  intros Hwf Ho. unfold validate, allowed_targets_violation.
  destruct (concatM_spec (allowed_violation inst) (violates inst) (map_to_list o)) as (vs & -> & Hvs).
  { intros [c t] Hin%elem_of_map_to_list. apply allowed_violation_spec; [done|]. by eapply Ho. }
  cbn [mbind Exec_bind]. eexists. split; [done|]. split; intros v; rewrite elem_of_app, !list_elem_of_fmap.
  - transitivity (v ∈ is_frozen_violation o inst); [naive_solver|]. apply is_frozen_violation_spec.
  - transitivity (v ∈ vs); [naive_solver|]. rewrite Hvs. split.
    + intros ([c t] & Hin%elem_of_map_to_list & Hv). pose proof Hv as (E1 & E2 & _). cbn in *. by subst.
    + intros [Hin Hv]. eexists. split; [|exact Hv]. by apply elem_of_map_to_list.
Qed.

(** A frozen source, moved to a destination. *)
Definition frozen_ex : SystemInstance :=
  let frozen := {| pv_name := {| property_set := Some SPAR_MIGRATION; property_name := "Frozen"%string |};
                   pv_value := "true"%string; pv_typed_expr := None; pv_is_append := false |} in
  set_property_maps {[ 1%nat := add new frozen ]} inst_ex.

Lemma overlay_validate_exact_witness :
  ∃ ds, validate (add_move new_overlay 1 2) frozen_ex = Done ds ∧
    Frozen {| fv_component := 1; fv_reason := "component is marked Spar_Migration::Frozen" |} ∈ ds.
Proof.
  destruct (overlay_validate_exact (add_move new_overlay 1 2) frozen_ex) as (ds & E & Hf & _).
  - apply wf_check_sound. by vm_compute.
  - intros c t H. unfold add_move, new_overlay, BindingOverlay in H. apply lookup_insert_Some in H as [[_ <-]|[_ H]]; [apply Nat.ltb_lt; by vm_compute|].
    by rewrite lookup_empty in H.
  - exists ds. split; [exact E|]. apply Hf. split; [by exists 2|]. split; by vm_compute.
Defined.

(** ** Bindings to processors and buses

    The last part of [crates/spar-analysis/src/property_accessors.rs]: threads
    grouped by the processor their binding resolves to, and connections bound
    to a bus. *)
(** ** Groups of threads *)

(** crates/spar-analysis/src/property_accessors.rs:1599-1599 [UNBOUND] *)
Definition UNBOUND : string := "__unbound__".

(** crates/spar-analysis/src/property_accessors.rs:1612-1615 [ProcessorGroups] *)
Record ProcessorGroups := {
  pg_display : gmap string string;
  pg_resolved : gmap string ComponentInstanceIdx;
}.

(** [ProcessorGroups::default()]. *)
Definition no_groups : ProcessorGroups := {| pg_display := ∅; pg_resolved := ∅ |}.

(** [entry(k).or_insert_with(..)]. *)
Definition or_insert (m : gmap string string) (k v : string) : gmap string string :=
  match m !! k with Some _ => m | None => <[k := v]> m end.

(** crates/spar-analysis/src/property_accessors.rs:1621-1626 [ProcessorGroups::processor_key] *)
Definition processor_key (inst : SystemInstance) (idx : ComponentInstanceIdx) : Exec string :=
  path ← component_instance_path inst idx; Done (String (ascii_of_nat 0) path).

(** crates/spar-analysis/src/property_accessors.rs:1630-1656 [ProcessorGroups::key] *)
Definition group_key (g : ProcessorGroups) (inst : SystemInstance) (comp : ComponentInstanceIdx)
    (binding : option string) : Exec (string * ProcessorGroups) :=
  match binding with
  | None =>
      Done (UNBOUND, {| pg_display := or_insert (pg_display g) UNBOUND UNBOUND;
                        pg_resolved := pg_resolved g |})
  | Some binding =>
      resolved ← actual_processor_binding_with_overlay inst comp None;
      '(key, res) ←
        match resolved with
        | Some idx => key ← processor_key inst idx; Done (key, <[key := idx]> (pg_resolved g))
        | None => Done (binding, pg_resolved g)
        end;
      Done (key, {| pg_display := or_insert (pg_display g) key binding; pg_resolved := res |})
  end.

(** crates/spar-analysis/src/property_accessors.rs:1659-1661 [ProcessorGroups::display] *)
Definition group_display (g : ProcessorGroups) (key : string) : string := default key (pg_display g !! key).

(** crates/spar-analysis/src/property_accessors.rs:1664-1669 [ProcessorGroups::resolved] *)
Definition group_resolved (g : ProcessorGroups) (key : string) : option ComponentInstanceIdx :=
  pg_resolved g !! key.

(** ** References to components *)

(** crates/spar-analysis/src/property_accessors.rs:1682-1696 [binding_names] *)
Definition binding_names (inst : SystemInstance) (comp : ComponentInstanceIdx)
    (prop reference_name : string) (target : ComponentInstanceIdx) : Exec bool :=
  let ctx := reference_context_of inst comp "Deployment_Properties" prop in
  found ← resolve_reference inst ctx reference_name;
  match found with
  | Some idx => Done (Nat.eqb idx target)
  | None => t ← component inst target; Done (eq_ignore_ascii_case (trim reference_name) (name t))
  end.

(** crates/spar-analysis/src/property_accessors.rs:1698-1698 [ACB] *)
Definition ACB : string := "Actual_Connection_Binding".

(** [trim_matches(['(', ')'])]. *)
Fixpoint drop_parens (s : list ascii) : list ascii :=
  match s with
  | b :: s' => if Ascii.eqb b "("%char || Ascii.eqb b ")"%char then drop_parens s' else s
  | [] => []
  end.
Definition trim_parens (s : string) : string :=
  string_of_list_ascii (rev (drop_parens (rev (drop_parens (list_ascii_of_string s))))).

(** crates/spar-analysis/src/property_accessors.rs:1702-1704 [binding_target] *)
Definition binding_target (val : string) : string :=
  match extract_reference_target val with
  | Some target => target
  | None => trim (trim_parens (trim val))
  end.

(** crates/spar-analysis/src/property_accessors.rs:1710-1725 [connection_own_binding_is] *)
Definition connection_own_binding_is (inst : SystemInstance) (conn : ConnectionInstanceIdx)
    (bus : ComponentInstanceIdx) : Exec (option bool) :=
  match get_qualified (properties_for_connection inst conn) "Deployment_Properties" ACB with
  | None => Done None
  | Some val =>
      let nm := binding_target val in
      ctx ← connection_reference_context inst conn "Deployment_Properties" ACB;
      found ← resolve_reference inst ctx nm;
      match found with
      | Some idx => Done (Some (Nat.eqb idx bus))
      | None => b ← component inst bus; Done (Some (eq_ignore_ascii_case nm (name b)))
      end
  end.

(** crates/spar-analysis/src/property_accessors.rs:1732-1752 [connection_bound_to] *)
Definition connection_bound_to (inst : SystemInstance) (owner : ComponentInstanceIdx)
    (conn : ConnectionInstanceIdx) (bus : ComponentInstanceIdx) : Exec bool :=
  own ← connection_own_binding_is inst conn bus;
  match own with
  | Some own => Done own
  | None =>
      match get_qualified (properties_for inst owner) "Deployment_Properties" ACB with
      | Some val => binding_names inst owner ACB (binding_target val) bus
      | None => Done false
      end
  end.
