(* ===== verification/Sorting.v ===== *)
(** * Stable sorting

    [slice::sort_by]: a stable sort by a comparison.  Stability and order
    determine the result when the comparison is a total preorder on the
    elements, so an insertion sort stands for the library's merge sort. *)
From S2P Require Import Prelude.
From stdpp Require Import sorting.

(** A three-way comparison that is a total preorder on the values of [P]. *)
Class TotalCmp {A} (P : A → Prop) (cmp : A → A → comparison) : Prop := {
  cmp_antisym a b : P a → P b → cmp b a = CompOpp (cmp a b);
  cmp_le_trans a b c : P a → P b → P c → cmp a b ≠ Gt → cmp b c ≠ Gt → cmp a c ≠ Gt;
}.

(** [a.then_with(|| b)]. *)
Definition then_with (a b : comparison) : comparison := match a with Eq => b | _ => a end.

Section sort_by.
Context {A : Type} (cmp : A → A → comparison).

Definition cmp_le (a b : A) : Prop := cmp a b ≠ Gt.

Fixpoint insert_by (x : A) (l : list A) : list A :=
  match l with
  | [] => [x]
  | y :: l' => match cmp x y with Gt => y :: insert_by x l' | _ => x :: l end
  end.

Definition sort_by (l : list A) : list A := foldr insert_by [] l.

Lemma insert_by_perm x l : insert_by x l ≡ₚ x :: l.
Proof.
  induction l as [|y l IH]; simpl; [done|]. destruct (cmp x y); [done|done|].
  rewrite IH. apply Permutation_swap.
Qed.

Lemma sort_by_perm l : sort_by l ≡ₚ l.
Proof. induction l as [|x l IH]; simpl; [done|]. by rewrite insert_by_perm, IH. Qed.

Context {P : A → Prop} `{!TotalCmp P cmp}.

Lemma insert_by_sorted x l :
  P x → Forall P l → StronglySorted cmp_le l → StronglySorted cmp_le (insert_by x l).
Proof.
  intros Hx. induction l as [|y l IH]; intros Hl Hs; simpl; [by repeat constructor|].
  inversion Hl as [|? ? Hy Hl']; inversion Hs as [|? ? Hs' Hall]; subst.
  destruct (cmp x y) eqn:E.
  3: { constructor; [by apply IH|]. rewrite insert_by_perm. constructor; [|done].
       unfold cmp_le. by rewrite cmp_antisym, E. }
  all: constructor; [done|]; constructor; [by unfold cmp_le; rewrite ?E|].
  all: unfold cmp_le in *; rewrite Forall_forall in *; intros z Hz; apply (cmp_le_trans x y z); auto; by rewrite E.
Qed.

Lemma sort_by_sorted l : Forall P l → StronglySorted cmp_le (sort_by l).
Proof.
  induction 1 as [|x l Hx Hl IH]; simpl; [constructor|].
  apply insert_by_sorted; [done| |done]. by rewrite sort_by_perm.
Qed.

(** Sorting forgets the order of the input when equal elements are the same. *)
Lemma sort_by_unique l l' :
  Forall P l → (∀ a b, a ∈ l → b ∈ l → cmp a b = Eq → a = b) → l ≡ₚ l' → sort_by l = sort_by l'.
Proof.
  intros Hl He Hp. assert (Hl' : Forall P l') by by rewrite <- Hp.
  apply (StronglySorted_unique_strong cmp_le); [|by apply sort_by_sorted..|by rewrite !sort_by_perm].
  intros a b Ha Hb Hab Hba. rewrite sort_by_perm in Ha. rewrite sort_by_perm, <- Hp in Hb.
  rewrite Forall_forall in Hl. apply He; [done..|]. unfold cmp_le in *.
  rewrite cmp_antisym in Hba by auto. by destruct (cmp a b).
Qed.
End sort_by.
