(* ===== verification/Constraints.v ===== *)
(** * Constraints of the deployment solver

    [crates/spar-solver/src/constraints.rs]: the timing of the threads and the
    memory of the processors, read from the instance and sorted by name. *)
From S2P Require Import Prelude.
From S2P Require Import BTree.
From S2P Require Import CategoryRules.
From S2P Require Import Names.
From S2P Require Import PropertyMap.
From S2P Require Import PropertyAccessors.
From S2P Require Import Instance.
From S2P Require Import Overlay.
From S2P Require Import Sorting.
From stdpp Require Import strings.
#[local] Open Scope N_scope.

(** crates/spar-solver/src/constraints.rs:22-39 [ThreadConstraint] *)
Record ThreadConstraint := {
  tc_idx : ComponentInstanceIdx;
  tc_name : string;
  period_ps : u64;
  wcet_ps : u64;
  deadline_ps : u64;
  current_binding : option string;
  tc_priority : option u64;
}.

(** crates/spar-solver/src/constraints.rs:43-51 [ProcessorConstraint] *)
Record ProcessorConstraint := {
  pc_idx : ComponentInstanceIdx;
  pc_name : string;
  memory_bytes : option u64;
}.

(** crates/spar-solver/src/constraints.rs:55-62 [ModelConstraints] *)
Record ModelConstraints := {
  threads : list ThreadConstraint;
  processors : list ProcessorConstraint;
  mc_warnings : list string;
}.

(** crates/spar-solver/src/constraints.rs:160-170 [component_path] *)
Definition dotted_path (inst : SystemInstance) (idx : ComponentInstanceIdx) : Exec string :=
  path ← component_path inst idx; Done (str_join "."%string path).

(** crates/spar-solver/src/constraints.rs:83-130 [from_instance]: a thread, with its
    warnings. *)
Definition thread_constraint (inst : SystemInstance) (idx : ComponentInstanceIdx)
  : Exec (ThreadConstraint * list string) :=
  let props := properties_for inst idx in
  name ← dotted_path inst idx;
  period ← get_timing_property props "Period";
  let period_ps := default 0 period in
  wcet ← get_execution_time props;
  let wcet_ps := default 0 wcet in
  deadline ← get_timing_property props "Deadline";
  let deadline_ps := default period_ps deadline in
  current_binding ←
    match get_processor_binding props with
    | None => Done None
    | Some text =>
        p ← actual_processor_binding_with_overlay inst idx None;
        match p with
        | Some p => path ← dotted_path inst p; Done (Some path)
        | None => Done (Some text)
        end
    end;
  let warn_wcet :=
    if (0 <? period_ps) && (wcet_ps =? 0) then
      ["thread '" +:+ name +:+ "': missing Compute_Execution_Time — assuming zero (UNSAFE)"]%string
    else [] in
  let warn_period :=
    if period_ps =? 0 then
      ["thread '" +:+ name +:+ "': missing Period — cannot compute scheduling constraints"]%string
    else [] in
  Done ({| tc_idx := idx; tc_name := name; period_ps := period_ps; wcet_ps := wcet_ps;
           deadline_ps := deadline_ps; current_binding := current_binding;
           tc_priority := get_priority props |}, warn_wcet ++ warn_period).

(** crates/spar-solver/src/constraints.rs:131-141 [from_instance]: a processor. *)
Definition processor_constraint (inst : SystemInstance) (idx : ComponentInstanceIdx)
  : Exec ProcessorConstraint :=
  name ← dotted_path inst idx;
  memory_bits ← get_size_property (properties_for inst idx) "Memory_Size";
  Done {| pc_idx := idx; pc_name := name; memory_bytes := (λ b, b / 8) <$> memory_bits |}.

(** crates/spar-solver/src/constraints.rs:78-144 [from_instance]: the loop; the path
    of every component is built. *)
Fixpoint collect_constraints (inst : SystemInstance) (ics : list (ComponentInstanceIdx * ComponentInstance))
    (acc : ModelConstraints) : Exec ModelConstraints :=
  match ics with
  | [] => Done acc
  | (idx, comp) :: ics =>
      _ ← dotted_path inst idx;
      acc ←
        match category comp with
        | Thread =>
            '(t, ws) ← thread_constraint inst idx;
            Done {| threads := threads acc ++ [t]; processors := processors acc;
                    mc_warnings := mc_warnings acc ++ ws |}
        | Processor =>
            p ← processor_constraint inst idx;
            Done {| threads := threads acc; processors := processors acc ++ [p];
                    mc_warnings := mc_warnings acc |}
        | _ => Done acc
        end;
      collect_constraints inst ics acc
  end.

(** crates/spar-solver/src/constraints.rs:73-156 [from_instance] *)
Definition from_instance (inst : SystemInstance) : Exec ModelConstraints :=
  c ← collect_constraints inst (all_components inst)
        {| threads := []; processors := []; mc_warnings := [] |};
  Done {| threads := sort_by (λ a b, String.compare (tc_name a) (tc_name b)) (threads c);
          processors := sort_by (λ a b, String.compare (pc_name a) (pc_name b)) (processors c);
          mc_warnings := sort_by String.compare (mc_warnings c) |}.
