(* ===== verification/Allocate.v ===== *)
(** * Allocation of threads to processors

    [crates/spar-solver/src/allocate.rs]: first-fit and best-fit decreasing
    bin packing on [f64] utilizations.  A warning is kept as the data its
    message is formatted from. *)
From S2P Require Import Prelude.
From S2P Require Import F64.
From S2P Require Import PropertyAccessors.
From S2P Require Import Sorting.
From S2P Require Import Constraints.
From S2P Require Import BTree.
From S2P Require Import Names.
From Stdlib Require String.
From stdpp Require Import strings.
From stdpp Require Import strings sorting.
#[local] Open Scope N_scope.

(** crates/spar-solver/src/allocate.rs:14-21 [Binding] *)
Record Binding := { thread : string; processor : string; utilization : f64 }.

(** The warnings of [allocate]. *)
Inductive Warning :=
  | NoProcessors
  | PeriodZero (thread : string)
  | PreBoundExceeds (thread target : string) (new_util : f64)
  | PreBoundUnknown (thread target : string).

(** crates/spar-solver/src/allocate.rs:25-34 [AllocationResult] *)
Record AllocationResult := {
  bindings : list Binding;
  unallocated : list string;
  per_processor_utilization : list (string * f64);
  warnings : list Warning;
}.

(** crates/spar-solver/src/allocate.rs:59-61 [is_feasible] *)
Definition is_feasible (r : AllocationResult) : bool :=
  match unallocated r with [] => true | _ => false end.

(** crates/spar-solver/src/allocate.rs:137-141 [SortableThread] *)
Record SortableThread := { st_name : string; st_utilization : f64; st_current_binding : option string }.

(** crates/spar-solver/src/allocate.rs:311-314 [Strategy] *)
Inductive Strategy := FirstFit | BestFit.

(** crates/spar-solver/src/allocate.rs:190-206 [allocate]: a thread with a period. *)
Definition sortable (t : ThreadConstraint) : SortableThread :=
  {| st_name := tc_name t; st_utilization := f64_div (f64_of_u64 (wcet_ps t)) (f64_of_u64 (period_ps t));
     st_current_binding := current_binding t |}.

(** crates/spar-solver/src/allocate.rs:215-220 [allocate]: [sort_fn]. *)
Definition sort_fn (a b : SortableThread) : comparison :=
  then_with (default Eq (f64_partial_cmp (st_utilization b) (st_utilization a)))
    (String.compare (st_name a) (st_name b)).

(** What placing the threads changes. *)
Record Placement := {
  used : list (string * f64);
  placed : list Binding;
  left_over : list string;
  warned : list Warning;
}.

(** The first index that satisfies a test: [iter_mut().find(..)]. *)
Definition find_index {A} (p : A → bool) (xs : list A) : option (nat * A) :=
  list_find (λ x, p x = true) xs.

(** [thread] goes to the processor at [i], of name [name]. *)
Definition bind_at (pl : Placement) (t : SortableThread) (i : nat) (name : string) (new_util : f64)
  : Placement :=
  {| used := <[i := (name, new_util)]> (used pl);
     placed := placed pl ++ [{| thread := st_name t; processor := name; utilization := st_utilization t |}];
     left_over := left_over pl; warned := warned pl |}.

Definition leave (pl : Placement) (t : SortableThread) (ws : list Warning) : Placement :=
  {| used := used pl; placed := placed pl; left_over := left_over pl ++ [st_name t];
     warned := warned pl ++ ws |}.

(** crates/spar-solver/src/allocate.rs:227-253 [allocate]: the loop over the threads
    that are bound already; [unwrap] on the binding. *)
Definition place_bound (pl : Placement) (t : SortableThread) : Exec Placement :=
  match st_current_binding t with
  | None => Panic
  | Some target =>
      match find_index (λ p, String.eqb p.1 target) (used pl) with
      | Some (i, (name, u)) =>
          let new_util := f64_add u (st_utilization t) in
          Done (if f64_le new_util f64_one then bind_at pl t i target new_util
                else leave pl t [PreBoundExceeds (st_name t) target new_util])
      | None => Done (leave pl t [PreBoundUnknown (st_name t) target])
      end
  end.

(** [*used + thread.utilization <= 1.0] *)
Definition fits_on (u : f64) (p : string * f64) : bool := f64_le (f64_add p.2 u) f64_one.

(** crates/spar-solver/src/allocate.rs:278-282 [allocate]: [max_by], the last of
    the greatest. *)
Definition fuller (best : option (nat * (string * f64))) (x : nat * (string * f64))
  : option (nat * (string * f64)) :=
  match best with
  | None => Some x
  | Some b => match default Eq (f64_partial_cmp b.2.2 x.2.2) with Gt => best | _ => Some x end
  end.

(** crates/spar-solver/src/allocate.rs:275-282 [allocate]: the fullest of the
    processors that fit. *)
Definition best_fit (u : f64) (ps : list (string * f64)) : option (nat * (string * f64)) :=
  foldl fuller None (filter (λ x, fits_on u x.2 = true) (imap pair ps)).

(** crates/spar-solver/src/allocate.rs:256-296 [allocate]: the loop over the other
    threads. *)
Definition place_unbound (strategy : Strategy) (pl : Placement) (t : SortableThread) : Placement :=
  let u := st_utilization t in
  let choice := match strategy with
                | FirstFit => find_index (fits_on u) (used pl)
                | BestFit => best_fit u (used pl)
                end in
  match choice with
  | Some (i, (name, used)) => bind_at pl t i name (f64_add used u)
  | None => leave pl t []
  end.

Definition has_period (t : ThreadConstraint) : bool := negb (period_ps t =? 0).

(** crates/spar-solver/src/allocate.rs:165-308 [allocate] *)
Definition allocate (constraints : ModelConstraints) (strategy : Strategy) : Exec AllocationResult :=
  let procs := (λ p, (pc_name p, f64_zero)) <$> processors constraints in
  match procs, threads constraints with
  | [], _ :: _ =>
      Done {| bindings := []; unallocated := tc_name <$> threads constraints;
              per_processor_utilization := []; warnings := [NoProcessors] |}
  | _, _ =>
      let skipped := List.filter (λ t, negb (has_period t)) (threads constraints) in
      let sts := sortable <$> List.filter has_period (threads constraints) in
      let pre_bound := List.filter (λ t, is_some (st_current_binding t)) sts in
      let unbound := List.filter (λ t, negb (is_some (st_current_binding t))) sts in
      let start := {| used := procs; placed := []; left_over := [];
                      warned := (λ t, PeriodZero (tc_name t)) <$> skipped |} in
      bound ← foldM place_bound start (sort_by sort_fn pre_bound);
      let pl := foldl (place_unbound strategy) bound (sort_by sort_fn unbound) in
      Done {| bindings := placed pl; unallocated := left_over pl;
              per_processor_utilization := sort_by (λ a b, String.compare a.1 b.1) (used pl);
              warnings := warned pl |}
  end.

(** crates/spar-solver/src/allocate.rs:153-155 [ffd] *)
Definition ffd (constraints : ModelConstraints) : Exec AllocationResult := allocate constraints FirstFit.

(** crates/spar-solver/src/allocate.rs:161-163 [bfd] *)
Definition bfd (constraints : ModelConstraints) : Exec AllocationResult := allocate constraints BestFit.

(** ** What the allocator guarantees

    Every thread with a period is placed or reported, no processor is loaded
    beyond one, and the order in which the model lists its threads does not
    matter. *)
(** ** The order of the threads *)

Lemma string_compare_trans a b c :
  String.compare a b ≠ Gt → String.compare b c ≠ Gt → String.compare a c ≠ Gt.
Proof.
  intros H1 H2. destruct (String.compare a b) eqn:E1; [|clear H1|done].
  - apply String.compare_eq_iff in E1 as ->. done.
  - destruct (String.compare b c) eqn:E2; [|clear H2|done].
    + apply String.compare_eq_iff in E2 as <-. by rewrite E1.
    + pose proof (key_cmp_trans a b c E1 E2) as E. cbn in E. by rewrite E.
Qed.

(** Threads whose utilization is a number. *)
Definition numeric (t : SortableThread) : Prop := number (st_utilization t).

Lemma sort_fn_rank a b :
  numeric a → numeric b →
  sort_fn a b = then_with (rank_cmp (rank (st_utilization b)) (rank (st_utilization a)))
                  (String.compare (st_name a) (st_name b)).
Proof. intros Ha Hb. unfold sort_fn. by rewrite partial_cmp_rank. Qed.

#[export] Instance sort_fn_total : TotalCmp numeric sort_fn.
Proof.
  split.
  - intros a b Ha Hb. rewrite !sort_fn_rank, rank_cmp_antisym, String.compare_antisym by done.
    by destruct (rank_cmp _ _), (String.compare _ _).
  - intros a b c Ha Hb Hc. rewrite !sort_fn_rank by done.
    destruct (rank_cmp (rank (st_utilization b)) (rank (st_utilization a))) eqn:X;
      [apply rank_cmp_Eq in X as <-| |done]; cbn.
    + destruct (rank_cmp _ _); [apply string_compare_trans|done|done].
    + intros _. destruct (rank_cmp (rank (st_utilization c)) (rank (st_utilization b))) eqn:Y;
        [apply rank_cmp_Eq in Y as ->|..|done]; cbn.
      * by rewrite X.
      * by rewrite (rank_cmp_Lt_trans _ _ _ Y X).
Qed.

Lemma sortable_numeric t :
  has_period t = true → wcet_ps t ≤ U64_MAX → period_ps t ≤ U64_MAX → numeric (sortable t).
Proof.
  unfold has_period. rewrite negb_true_iff, N.eqb_neq. intros. apply f64_div_number; lia.
Qed.

(** ** The invariant of the placement *)
Section placement.
Context (names : list string) (Hnd : NoDup names).

Definition load (p : string) (bs : list Binding) : f64 :=
  foldl f64_add f64_zero (utilization <$> filter (λ b, processor b = p) bs).

(** A binding of one of the threads, where it had to be. *)
Definition binds (ts : list SortableThread) (b : Binding) : Prop :=
  processor b ∈ names ∧ ∃ t, t ∈ ts ∧ thread b = st_name t ∧ utilization b = st_utilization t ∧
    ∀ p, st_current_binding t = Some p → processor b = p.

Record placed_ok (ts : list SortableThread) (pl : Placement) : Prop := {
  p_names : (used pl).*1 = names;
  p_all : (thread <$> placed pl) ++ left_over pl ≡ₚ st_name <$> ts;
  p_load : Forall (λ p, p.2 = load p.1 (placed pl) ∧ f64_le p.2 f64_one = true) (used pl);
  p_binds : Forall (binds ts) (placed pl);
}.

Lemma binds_more ts t b : binds ts b → binds (ts ++ [t]) b.
Proof. intros (H1 & t' & H2 & H3). split; [done|]. exists t'. split; [|done]. apply elem_of_app. by left. Qed.

Lemma bind_at_ok ts pl t i name u :
  placed_ok ts pl → used pl !! i = Some (name, u) →
  f64_le (f64_add u (st_utilization t)) f64_one = true →
  (∀ p, st_current_binding t = Some p → name = p) →
  placed_ok (ts ++ [t]) (bind_at pl t i name (f64_add u (st_utilization t))).
Proof.
  intros [H1 H2 H3 H4] Hi Hf Hb.
  assert (Hn : names !! i = Some name) by by rewrite <- H1, list_lookup_fmap, Hi.
  split; unfold bind_at; cbn [used placed left_over warned].
  - rewrite list_fmap_insert, H1. by apply list_insert_id.
  - rewrite !fmap_app, <- H2. cbn. solve_Permutation.
  - apply Forall_lookup_2. intros j [p v] Hj.
    assert (E : load p (placed pl ++ [{| thread := st_name t; processor := name;
                                         utilization := st_utilization t |}]) =
                if decide (name = p) then f64_add (load p (placed pl)) (st_utilization t)
                else load p (placed pl)).
    { unfold load. rewrite filter_app, fmap_app, foldl_app.
      by destruct (decide (name = p)) as [Hp|Hp]; [rewrite filter_cons_True by done|
        rewrite filter_cons_False by done]. }
    cbn [fst snd]. rewrite E. apply list_lookup_insert_Some in Hj as [(-> & [= <- <-] & _)|[Hne Hj]].
    + rewrite decide_True by done. apply (Forall_lookup_1 _ _ _ _ H3) in Hi as [Hl _]. cbn in Hl.
      by rewrite <- Hl.
    + apply (Forall_lookup_1 _ _ _ _ H3) in Hj as Hl. rewrite decide_False; [done|]. intros ->.
      apply Hne, (NoDup_lookup names i j p); [done..|]. by rewrite <- H1, list_lookup_fmap, Hj.
  - apply Forall_app. split; [eapply Forall_impl; [exact H4|]; intros b; apply binds_more|].
    constructor; [|done]. split; [by eapply list_elem_of_lookup_2|]. exists t.
    split; [apply elem_of_app; right; by left|done].
Qed.

Lemma leave_ok ts pl t ws : placed_ok ts pl → placed_ok (ts ++ [t]) (leave pl t ws).
Proof.
  intros [H1 H2 H3 H4]. split; unfold leave; cbn [used placed left_over warned]; [done| |done|].
  - rewrite fmap_app, <- H2. cbn. solve_Permutation.
  - eapply Forall_impl; [exact H4|]. intros b. apply binds_more.
Qed.

Lemma place_bound_ok ts pl t :
  is_Some (st_current_binding t) → placed_ok ts pl →
  ∃ pl', place_bound pl t = Done pl' ∧ placed_ok (ts ++ [t]) pl'.
Proof.
  intros [target Ht] Hpl. unfold place_bound. rewrite Ht.
  destruct (find_index _ (used pl)) as [[i [name u]]|] eqn:E.
  - apply list_find_Some in E as (Hi & Hn & _). cbn in Hn. apply String.eqb_eq in Hn as ->.
    eexists. split; [done|]. destruct (f64_le _ _) eqn:Ef; [|by apply leave_ok].
    apply bind_at_ok; [done..|]. intros p Hp. congruence.
  - eexists. split; [done|]. by apply leave_ok.
Qed.

(** ** The choice of a processor *)

Lemma fits_on_number u p : fits_on u p = true → number p.2.
Proof. unfold fits_on, number, f64_le, f64_add, SpecFloat.SFleb. by destruct p as [n []]. Qed.

(** The fullest of the candidates seen so far, the last of several. *)
Definition fullest (xs : list (nat * (string * f64))) (best : option (nat * (string * f64))) : Prop :=
  match best with
  | None => xs = []
  | Some b => ∃ pre post, xs = pre ++ b :: post ∧
      Forall (λ x, rank_cmp (rank x.2.2) (rank b.2.2) ≠ Gt) pre ∧
      Forall (λ x, rank_cmp (rank x.2.2) (rank b.2.2) = Lt) post
  end.

Lemma fullest_foldl xs :
  Forall (λ x, number x.2.2) xs → fullest xs (foldl fuller None xs).
Proof.
  induction xs as [|x xs IH] using rev_ind; [done|]. intros [Hxs Hx]%Forall_app.
  inversion Hx as [|? ? Hn _]; subst. specialize (IH Hxs). rewrite foldl_app. cbn.
  destruct (foldl fuller None xs) as [b|] eqn:E; cbn in IH |- *; [|subst xs; by exists [], []].
  destruct IH as (pre & post & -> & Hpre & Hpost).
  assert (Hb : number b.2.2) by (by apply Forall_app in Hxs as [_ Hb]; inversion Hb).
  rewrite partial_cmp_rank by done. cbn [default].
  destruct (rank_cmp (rank b.2.2) (rank x.2.2)) eqn:C; cbn.
  3: { exists pre, (post ++ [x]). rewrite <- app_assoc. split_and!; [done|done|].
       apply Forall_app. split; [done|]. constructor; [|done]. by rewrite rank_cmp_antisym, C. }
  all: exists (pre ++ b :: post), []; split; [done|]; split; [|done].
  all: assert (Hbx : rank_cmp (rank b.2.2) (rank x.2.2) ≠ Gt) by (by rewrite C).
  all: apply Forall_app; split; [|constructor; [done|]].
  all: eapply Forall_impl; [done|]; cbn; intros y Hy;
    apply (rank_cmp_trans _ (rank b.2.2)); [|done]; first [exact Hy|by rewrite Hy].
Qed.

Definition candidates (u : f64) (ps : list (string * f64)) : list (nat * (string * f64)) :=
  filter (λ x, fits_on u x.2 = true) (imap pair ps).

Lemma candidates_spec u ps i p : (i, p) ∈ candidates u ps ↔ ps !! i = Some p ∧ fits_on u p = true.
Proof.
  unfold candidates. rewrite list_elem_of_filter, elem_of_lookup_imap. cbn. split.
  - intros [Hf (j & q & [= -> ->] & Hl)]. done.
  - intros [Hl Hf]. split; [done|]. by exists i, p.
Qed.

Lemma best_fit_fullest u ps : fullest (candidates u ps) (best_fit u ps).
Proof.
  apply fullest_foldl, Forall_forall. intros [i p] [_ Hf]%candidates_spec. by eapply fits_on_number.
Qed.

Lemma best_fit_Some u ps i p : best_fit u ps = Some (i, p) → ps !! i = Some p ∧ fits_on u p = true.
Proof.
  intros E. pose proof (best_fit_fullest u ps) as H. rewrite E in H.
  destruct H as (pre & post & Hx & _). apply candidates_spec. rewrite Hx. apply elem_of_app. right. by left.
Qed.

Lemma place_unbound_ok ts strategy pl t :
  st_current_binding t = None → placed_ok ts pl → placed_ok (ts ++ [t]) (place_unbound strategy pl t).
Proof.
  intros Ht Hpl. unfold place_unbound.
  destruct (match strategy with FirstFit => _ | BestFit => _ end) as [[i [name u]]|] eqn:E;
    [|by apply leave_ok].
  assert (H : used pl !! i = Some (name, u) ∧ fits_on (st_utilization t) (name, u) = true).
  { destruct strategy; [by apply list_find_Some in E as (? & ? & _)|by apply best_fit_Some]. }
  destruct H as [Hi Hf]. apply bind_at_ok; [done..|]. by rewrite Ht.
Qed.

Lemma place_all_bound ts pl l :
  Forall (λ t, is_Some (st_current_binding t)) l → placed_ok ts pl →
  ∃ pl', foldM place_bound pl l = Done pl' ∧ placed_ok (ts ++ l) pl'.
Proof.
  intros Hl. revert ts pl. induction Hl as [|t l Ht _ IH]; intros ts pl Hpl.
  { eexists. split; [done|]. by rewrite app_nil_r. }
  destruct (place_bound_ok ts pl t Ht Hpl) as (pl1 & E & H1). simpl. rewrite E. cbn.
  destruct (IH _ _ H1) as (pl2 & E2 & H2). exists pl2. split; [done|]. by rewrite <- app_assoc in H2.
Qed.

Lemma place_all_unbound strategy ts pl l :
  Forall (λ t, st_current_binding t = None) l → placed_ok ts pl →
  placed_ok (ts ++ l) (foldl (place_unbound strategy) pl l).
Proof.
  intros Hl. revert ts pl. induction Hl as [|t l Ht _ IH]; intros ts pl Hpl; [by rewrite app_nil_r|].
  simpl. rewrite (cons_middle t ts l), app_assoc. by apply IH, place_unbound_ok.
Qed.
End placement.

(** The candidates are in the order of the processors. *)
Lemma imap_pair_sorted {A} (f : nat → nat) (xs : list A) :
  (∀ i j, (i < j)%nat → (f i < f j)%nat) →
  StronglySorted (λ x y, (x.1 < y.1)%nat) (imap (λ i, pair (f i)) xs).
Proof.
  revert f. induction xs as [|x xs IH]; intros f Hf; [constructor|].
  rewrite imap_cons. constructor.
  - apply (IH (f ∘ S)). intros i j H. apply Hf. lia.
  - apply Forall_forall. intros [j y] (k & z & [= -> ->] & _)%elem_of_lookup_imap. cbn. apply Hf. lia.
Qed.

Lemma StronglySorted_filter_any {A} (R : A → A → Prop) (P : A → Prop) `{∀ x, Decision (P x)} l :
  StronglySorted R l → StronglySorted R (filter P l).
Proof.
  induction 1 as [|x l _ IH Hx]; [constructor|]. rewrite filter_cons. destruct (decide (P x)); [|done].
  constructor; [done|]. rewrite Forall_forall in *. intros y [_ Hy]%list_elem_of_filter. auto.
Qed.

Lemma candidates_order u ps pre b post x :
  candidates u ps = pre ++ b :: post → x ∈ pre → (x.1 < b.1)%nat.
Proof.
  intros E Hx.
  assert (S : StronglySorted (λ x y, (x.1 < y.1)%nat) (candidates u ps)).
  { apply StronglySorted_filter_any, (imap_pair_sorted (λ i, i)). done. }
  rewrite E in S. clear E. induction pre as [|y pre IH]; [by apply elem_of_nil in Hx|].
  inversion S as [|? ? S' Hall]; subst. apply elem_of_cons in Hx as [->|Hx]; [|by apply IH].
  rewrite Forall_forall in Hall. apply Hall, elem_of_app. right. by left.
Qed.

(** where a thread without a binding goes.  First fit takes the first
    processor that the thread loads to at most one, best fit the fullest of
    those, the last of several equally full ones; the thread is left over
    exactly when it fits nowhere. *)
Theorem place_unbound_choice strategy pl t :
  let u := st_utilization t in
  (∃ i name v, used pl !! i = Some (name, v) ∧ fits_on u (name, v) = true ∧
     place_unbound strategy pl t = bind_at pl t i name (f64_add v u) ∧
     ∀ j q, used pl !! j = Some q → fits_on u q = true →
       match strategy with
       | FirstFit => (i ≤ j)%nat
       | BestFit => f64_partial_cmp q.2 v ≠ Some Gt ∧ ((i < j)%nat → f64_partial_cmp q.2 v = Some Lt)
       end) ∨
  (place_unbound strategy pl t = leave pl t [] ∧
   ∀ j q, used pl !! j = Some q → fits_on u q = false).
Proof.
  intros u. unfold place_unbound. fold u. destruct strategy.
  - destruct (find_index (fits_on u) (used pl)) as [[i [name v]]|] eqn:E.
    + left. exists i, name, v. apply list_find_Some in E as (Hi & Hf & Hno). split_and!; [done..|].
      intros j q Hj Hq. apply Nat.nlt_ge. intros Hlt. by apply (Hno j q).
    + right. split; [done|]. intros j q Hj. apply not_true_is_false. intros Hq.
      apply list_find_None in E. apply (Forall_lookup_1 _ _ _ _ E Hj Hq).
  - pose proof (best_fit_fullest u (used pl)) as H.
    destruct (best_fit u (used pl)) as [[i [name v]]|] eqn:E; cbn in H.
    + left. exists i, name, v. pose proof (best_fit_Some _ _ _ _ E) as [Hi Hf].
      destruct H as (pre & post & Hc & Hpre & Hpost). split_and!; [done..|]. intros j q Hj Hq.
      assert (Hin : (j, q) ∈ candidates u (used pl)) by by apply candidates_spec.
      rewrite (partial_cmp_rank q.2 v (fits_on_number _ _ Hq) (fits_on_number _ _ Hf)). rewrite Hc in Hin.
      rewrite Forall_forall in Hpre, Hpost.
      apply elem_of_app in Hin as [Hin|[Hin|Hin]%elem_of_cons].
      * pose proof (candidates_order _ _ _ _ _ _ Hc Hin) as Hlt. cbn in Hlt.
        split; [|lia]. intros [= Hgt]. by apply (Hpre _ Hin).
      * injection Hin as -> ->. split; [|lia]. cbn.
        by rewrite (proj2 (rank_cmp_Eq _ _) eq_refl).
      * specialize (Hpost _ Hin). cbn in Hpost. by rewrite Hpost.
    + right. split; [done|]. intros j q Hj. apply not_true_is_false. intros Hq.
      assert (Hin : (j, q) ∈ candidates u (used pl)) by by apply candidates_spec.
      rewrite H in Hin. by apply elem_of_nil in Hin.
Qed.

(** ** The allocator *)

Lemma sts_pre_bound (sts : list SortableThread) :
  let f t := is_some (st_current_binding t) in
  List.filter f sts ++ List.filter (λ t, negb (f t)) sts ≡ₚ sts.
Proof.
  intros f. induction sts as [|t sts IH]; [done|]. cbn. destruct (f t); cbn; [by rewrite IH|].
  rewrite <- Permutation_middle. by rewrite IH.
Qed.

(** The state after both loops. *)
Lemma allocate_placed c strategy (start : Placement) (sts : list SortableThread) :
  let f t := is_some (st_current_binding t) in
  NoDup (pc_name <$> processors c) →
  placed_ok (pc_name <$> processors c) [] start →
  ∃ bound, foldM place_bound start (sort_by sort_fn (List.filter f sts)) = Done bound ∧
    ∃ ts, ts ≡ₚ sts ∧
      placed_ok (pc_name <$> processors c) ts
        (foldl (place_unbound strategy) bound (sort_by sort_fn (List.filter (λ t, negb (f t)) sts))).
Proof.
  intros f Hnd Hs.
  destruct (place_all_bound _ Hnd [] start (sort_by sort_fn (List.filter f sts))) as (bound & E & H1).
  - rewrite sort_by_perm. apply Forall_forall. intros t [_ Ht]%list_elem_of_In%filter_In.
    unfold f in Ht. by destruct (st_current_binding t).
  - done.
  - exists bound. split; [done|]. eexists. split; [|apply place_all_unbound; [done| |exact H1]].
    + cbn. rewrite !sort_by_perm. apply sts_pre_bound.
    + rewrite sort_by_perm. apply Forall_forall. intros t [_ Ht]%list_elem_of_In%filter_In.
      unfold f in Ht. by destruct (st_current_binding t).
Qed.

Definition idle (c : ModelConstraints) : list (string * f64) := (λ p, (pc_name p, f64_zero)) <$> processors c.

Definition start_of (c : ModelConstraints) : Placement :=
  {| used := idle c; placed := []; left_over := [];
     warned := (λ t, PeriodZero (tc_name t)) <$> List.filter (λ t, negb (has_period t)) (threads c) |}.

Lemma start_ok c : placed_ok (pc_name <$> processors c) [] (start_of c).
Proof.
  split; [|done| |done]; cbn; unfold idle.
  - by rewrite <- list_fmap_compose.
  - apply Forall_fmap, Forall_forall. intros p _. done.
Qed.

Definition result_of (pl : Placement) : AllocationResult :=
  {| bindings := placed pl; unallocated := left_over pl;
     per_processor_utilization := sort_by (λ a b, String.compare a.1 b.1) (used pl);
     warnings := warned pl |}.

Definition pre_bound_of (c : ModelConstraints) : list SortableThread :=
  List.filter (λ t, is_some (st_current_binding t))
    (sortable <$> List.filter has_period (threads c)).
Definition unbound_of (c : ModelConstraints) : list SortableThread :=
  List.filter (λ t, negb (is_some (st_current_binding t)))
    (sortable <$> List.filter has_period (threads c)).

Lemma allocate_run c strategy :
  processors c ≠ [] ∨ threads c = [] →
  allocate c strategy =
  (bound ← foldM place_bound (start_of c) (sort_by sort_fn (pre_bound_of c));
   Done (result_of (foldl (place_unbound strategy) bound (sort_by sort_fn (unbound_of c))))).
Proof.
  unfold allocate, start_of, idle, pre_bound_of, unbound_of.
  destruct (processors c), (threads c); by intros [].
Qed.

(** A binding of a thread of the model to a processor of the model. *)
Definition model_binding (c : ModelConstraints) (b : Binding) : Prop :=
  processor b ∈ pc_name <$> processors c ∧
  ∃ t, t ∈ threads c ∧ has_period t = true ∧ thread b = tc_name t ∧
    utilization b = f64_div (f64_of_u64 (wcet_ps t)) (f64_of_u64 (period_ps t)) ∧
    ∀ p, current_binding t = Some p → processor b = p.

(** C19: the allocator never fails.  When there are processors, with distinct
    names, each thread with a period is bound once or left over; a binding is
    to a processor of the model, the one a pre-bound thread names; and the
    utilization reported for a processor is the [f64] sum of what was bound to
    it, and at most one. *)
Theorem allocate_sound c strategy :
  NoDup (pc_name <$> processors c) →
  ∃ r, allocate c strategy = Done r ∧
    (processors c = [] → bindings r = [] ∧ unallocated r = tc_name <$> threads c) ∧
    (processors c ≠ [] →
       (thread <$> bindings r) ++ unallocated r ≡ₚ tc_name <$> List.filter has_period (threads c)) ∧
    Forall (model_binding c) (bindings r) ∧
    (per_processor_utilization r).*1 ≡ₚ pc_name <$> processors c ∧
    Forall (λ p, p.2 = load p.1 (bindings r) ∧ f64_le p.2 f64_one = true) (per_processor_utilization r).
Proof.
  intros Hnd.
  destruct (decide (processors c = [] ∧ threads c ≠ [])) as [[Hp Ht]|Hno].
  { unfold allocate. rewrite Hp. destruct (threads c); [done|]. eexists. split; [done|]. by repeat split. }
  assert (Hpt : processors c ≠ [] ∨ threads c = []).
  { destruct (processors c); [right|by left]. destruct (threads c); [done|]. exfalso. by apply Hno. }
  rewrite allocate_run by done.
  destruct (allocate_placed c strategy (start_of c) (sortable <$> List.filter has_period (threads c)))
    as (bound & E & ts & Hts & [H1 H2 H3 H4]); [done|apply start_ok|].
  unfold pre_bound_of, unbound_of. rewrite E. cbn [mbind Exec_bind].
  set (pl := foldl _ _ _) in *. eexists. split; [done|]. cbn.
  assert (Hnames : (thread <$> placed pl) ++ left_over pl ≡ₚ tc_name <$> List.filter has_period (threads c)).
  { rewrite H2, Hts, <- list_fmap_compose. done. }
  split_and!.
  - intros Hp. destruct Hpt as [|Ht]; [done|]. rewrite Ht in Hnames |- *. cbn in Hnames.
    apply Permutation_nil_r, app_eq_nil in Hnames as [Hn ->]. by apply fmap_nil_inv in Hn.
  - done.
  - eapply Forall_impl; [exact H4|]. intros b (Hb1 & t & Ht & Hb2 & Hb3 & Hb4). split; [done|].
    rewrite Hts in Ht. apply list_elem_of_fmap in Ht as (tc & -> & Htc).
    apply list_elem_of_In, filter_In in Htc as [Hin Hper]. apply list_elem_of_In in Hin.
    exists tc. by split_and!.
  - rewrite sort_by_perm. by rewrite H1.
  - by rewrite sort_by_perm.
Qed.

(** ** The order of the threads in the model *)

(** The placement without its warnings, on which nothing depends. *)
Definition forget (pl : Placement) : Placement :=
  {| used := used pl; placed := placed pl; left_over := left_over pl; warned := [] |}.

Lemma place_bound_forget pl t : forget <$> place_bound pl t = forget <$> place_bound (forget pl) t.
Proof.
  unfold place_bound. cbn [forget used]. destruct (st_current_binding t) as [target|]; [|done].
  destruct (find_index _ _) as [[i [name u]]|]; [|done]. cbn. by destruct (f64_le _ _).
Qed.

Lemma place_unbound_forget strategy pl t :
  forget (place_unbound strategy pl t) = forget (place_unbound strategy (forget pl) t).
Proof.
  unfold place_unbound. cbn [forget used].
  by destruct (match strategy with FirstFit => _ | BestFit => _ end) as [[i [name u]]|].
Qed.

Lemma place_all_bound_forget pl l : forget <$> foldM place_bound pl l = forget <$> foldM place_bound (forget pl) l.
Proof.
  revert pl. induction l as [|t l IH]; intros pl; [done|]. simpl.
  pose proof (place_bound_forget pl t) as H.
  destruct (place_bound pl t) as [a| |], (place_bound (forget pl) t) as [b| |]; try done; cbn in *.
  injection H as H. rewrite (IH a), (IH b). unfold forget. by rewrite H, H0, H1.
Qed.

Lemma place_all_unbound_forget strategy pl l :
  forget (foldl (place_unbound strategy) pl l) = forget (foldl (place_unbound strategy) (forget pl) l).
Proof.
  revert pl. induction l as [|t l IH]; intros pl; [done|]. simpl.
  rewrite IH, place_unbound_forget, <- IH. done.
Qed.

Lemma filter_perm {A} (f : A → bool) l l' : l ≡ₚ l' → List.filter f l ≡ₚ List.filter f l'.
Proof.
  induction 1 as [|x l l' _ IH|x y l|l1 l2 l3 _ IH1 _ IH2]; cbn; [done| | |by rewrite IH1].
  - destruct (f x); by rewrite IH.
  - destruct (f x), (f y); done || apply Permutation_swap.
Qed.

Definition in_64_bits (t : ThreadConstraint) : Prop := wcet_ps t ≤ U64_MAX ∧ period_ps t ≤ U64_MAX.

(** Sorting a part of the threads does not depend on their order. *)
Lemma sorted_part (f : SortableThread → bool) c c' :
  threads c ≡ₚ threads c' → NoDup (tc_name <$> threads c) → Forall in_64_bits (threads c) →
  sort_by sort_fn (List.filter f (sortable <$> List.filter has_period (threads c))) =
  sort_by sort_fn (List.filter f (sortable <$> List.filter has_period (threads c'))).
Proof.
  intros Hp Hnd Hw.
  assert (Hin : ∀ t, t ∈ List.filter f (sortable <$> List.filter has_period (threads c)) →
    ∃ tc, t = sortable tc ∧ tc ∈ threads c ∧ has_period tc = true).
  { intros t [Ht _]%list_elem_of_In%filter_In.
    apply list_elem_of_In, list_elem_of_fmap in Ht as (tc & -> & [H1 H2]%list_elem_of_In%filter_In).
    apply list_elem_of_In in H1. by exists tc. }
  apply (sort_by_unique sort_fn (P := numeric)).
  - apply Forall_forall. intros t (tc & -> & Htc & Hper)%Hin.
    rewrite Forall_forall in Hw. destruct (Hw tc Htc). by apply sortable_numeric.
  - intros a b (ta & -> & Ha & Hpa)%Hin (tb & -> & Hb & Hpb)%Hin E. f_equal.
    assert (En : tc_name ta = tc_name tb).
    { unfold sort_fn in E. destruct (default Eq _); [|done..]. by apply String.compare_eq_iff. }
    apply list_elem_of_lookup in Ha as [i Hi], Hb as [j Hj].
    assert (i = j) as ->; [|congruence].
    apply (NoDup_lookup (tc_name <$> threads c) i j (tc_name ta)); [done|..];
      rewrite list_lookup_fmap, ?Hi, ?Hj; cbn; by rewrite ?En.
  - apply filter_perm. by rewrite (filter_perm has_period _ _ Hp).
Qed.

(** C20: the allocation does not depend on the order in which the model lists
    its threads, if their names are distinct: the bindings, the utilizations
    and, when there are processors, the threads left over are the same. *)
Theorem allocate_order_independent c c' strategy r :
  processors c = processors c' → threads c ≡ₚ threads c' →
  NoDup (tc_name <$> threads c) → Forall in_64_bits (threads c) →
  allocate c strategy = Done r →
  ∃ r', allocate c' strategy = Done r' ∧ bindings r' = bindings r ∧
    per_processor_utilization r' = per_processor_utilization r ∧
    unallocated r' ≡ₚ unallocated r ∧ (processors c ≠ [] → unallocated r' = unallocated r).
Proof.
  intros Hproc Hth Hnd Hw Hr.
  destruct (decide (processors c = [] ∧ threads c ≠ [])) as [[Hp Ht]|Hno].
  { unfold allocate in *. rewrite <- Hproc. rewrite Hp in *.
    destruct (threads c) eqn:Et; [done|]. injection Hr as <-.
    destruct (threads c') eqn:Et'; [by apply Permutation_nil_r in Hth|].
    eexists. split; [done|]. split; [done|]. split; [done|]. split; [|done].
    cbn [unallocated]. by rewrite <- Hth. }
  assert (Hpt : processors c ≠ [] ∨ threads c = []).
  { destruct (processors c); [right|by left]. destruct (threads c); [done|]. exfalso. by apply Hno. }
  assert (Hpt' : processors c' ≠ [] ∨ threads c' = []).
  { rewrite <- Hproc. destruct Hpt as [|Ht]; [by left|right]. rewrite Ht in Hth.
    by apply Permutation_nil_l in Hth. }
  rewrite allocate_run in Hr by done. rewrite allocate_run by done.
  unfold pre_bound_of, unbound_of in *. rewrite <- !(sorted_part _ c c') by done.
  fold (pre_bound_of c) (unbound_of c) in Hr |- *.
  set (l1 := sort_by sort_fn (pre_bound_of c)) in *. set (l2 := sort_by sort_fn (unbound_of c)) in *.
  assert (E : forget (start_of c) = forget (start_of c')) by (unfold forget, start_of, idle; by rewrite Hproc).
  pose proof (place_all_bound_forget (start_of c) l1) as E1. rewrite E, <- place_all_bound_forget in E1.
  destruct (foldM place_bound (start_of c) l1) as [a| |] eqn:Ea; try done.
  destruct (foldM place_bound (start_of c') l1) as [b| |] eqn:Eb; try done.
  cbn [fmap Exec_fmap] in E1. cbn [mbind Exec_bind] in Hr |- *.
  injection Hr as <-. assert (E2 : forget a = forget b) by congruence.
  pose proof (place_all_unbound_forget strategy a l2) as E3. rewrite E2, <- place_all_unbound_forget in E3.
  pose proof (f_equal used E3) as E4. pose proof (f_equal placed E3) as E5.
  pose proof (f_equal left_over E3) as E6. cbn in E4, E5, E6.
  eexists. split; [done|]. unfold result_of. cbn. by rewrite E4, E5, E6.
Qed.

(** ** Witnesses: three threads, one of them bound, on two processors *)
Definition thread_ex (nm : string) (period wcet : u64) (b : option string) : ThreadConstraint :=
  {| tc_idx := 0%nat; tc_name := nm; period_ps := period; wcet_ps := wcet; deadline_ps := period;
     current_binding := b; tc_priority := None |}.
Definition processor_ex (nm : string) : ProcessorConstraint :=
  {| pc_idx := 0%nat; pc_name := nm; memory_bytes := None |}.
Definition constraints_ex : ModelConstraints :=
  {| threads := [thread_ex "t_new" 1000 350 None; thread_ex "t_pre" 1000 600 (Some "cpu2"%string);
                 thread_ex "t_big" 1000 900 None];
     processors := [processor_ex "cpu1"; processor_ex "cpu2"]; mc_warnings := [] |}.
Definition reversed_ex : ModelConstraints :=
  {| threads := rev (threads constraints_ex); processors := processors constraints_ex; mc_warnings := [] |}.

(** Best fit fills the second processor, and the largest thread finds the
    first one empty. *)
Lemma allocate_ex :
  (λ r, (λ b, (thread b, processor b)) <$> bindings r) <$> bfd constraints_ex =
  Done [("t_pre", "cpu2"); ("t_big", "cpu1"); ("t_new", "cpu2")]%string.
Proof. by vm_compute. Qed.

Lemma allocate_sound_witness :
  ∃ r, allocate constraints_ex BestFit = Done r ∧ Forall (model_binding constraints_ex) (bindings r).
Proof.
  destruct (allocate_sound constraints_ex BestFit) as (r & Hr & _ & _ & Hb & _).
  - apply (bool_decide_unpack _). by vm_compute.
  - exists r. exact (conj Hr Hb).
Defined.

Lemma allocate_order_independent_witness :
  ∃ r r', allocate constraints_ex FirstFit = Done r ∧ allocate reversed_ex FirstFit = Done r' ∧
    bindings r' = bindings r.
Proof.
  destruct (allocate constraints_ex FirstFit) as [r| |] eqn:E; [|by vm_compute in E..].
  destruct (allocate_order_independent constraints_ex reversed_ex FirstFit r) as (r' & Hr' & Hb & _).
  - done.
  - cbn. apply Permutation_rev.
  - apply (bool_decide_unpack _). by vm_compute.
  - repeat constructor; by vm_compute.
  - exact E.
  - exists r, r'. exact (conj eq_refl (conj Hr' Hb)).
Defined.
