(* ===== verification/Rta.v ===== *)
(** * The response-time analysis pass

    [crates/spar-analysis/src/rta.rs] and the activity tests of
    [crates/spar-analysis/src/modal.rs]: threads and interrupt service
    routines are read from the instance, grouped by the processor their
    binding resolves to, and analysed in dispatch order.  A diagnostic is
    kept as the data its message is formatted from. *)
From S2P Require Import Prelude.
From S2P Require Import BTree.
From S2P Require Import CategoryRules.
From S2P Require Import Names.
From S2P Require Import PropertyMap.
From S2P Require Import Quantities.
From S2P Require Import PropertyAccessors.
From S2P Require Import ItemTree.
From S2P Require Import Instance.
From S2P Require Import Overlay.
From S2P Require Import Diagnostics.
From S2P Require Import Sorting.
From S2P Require Import SchedulingVerified.
From stdpp Require Import gmap strings.
#[local] Open Scope N_scope.

(** ** Activity in a mode *)

(** crates/spar-analysis/src/modal.rs:42-75 [is_component_active_in_som] *)
Definition is_component_active_in_som (inst : SystemInstance) (comp_idx : ComponentInstanceIdx)
    (som : SystemOperationMode) : Exec bool :=
  comp ← component inst comp_idx;
  match comp_in_modes comp, parent comp with
  | [], _ => Done true
  | _, None => Done true
  | in_modes, Some parent_idx =>
      let fix scan sels :=
        match sels with
        | [] => Done true
        | (_, mode_inst_idx) :: sels =>
            m ← arena_get (mode_instances inst) mode_inst_idx;
            if Nat.eqb (mode_owner m) parent_idx
            then Done (existsb (λ n, eq_ignore_ascii_case n (mode_name m)) in_modes)
            else scan sels
        end in
      scan (mode_selections som)
  end.

(** ** Data *)

(** crates/spar-analysis/src/rta.rs:630-654 [RtaThreadInfo] *)
Record RtaThreadInfo := {
  ti_name : string;
  ti_period_ps : u64;
  ti_exec_ps : u64;
  ti_exec_bcet_ps : option u64;
  ti_deadline_ps : u64;
  ti_priority : option u64;
  ti_jitter_ps : u64;
  ti_comp_idx : ComponentInstanceIdx;
  ti_dispatch_protocol : option string;
  ti_locking_protocol : option LockingProtocol;
  ti_blocking_ps : u64;
}.

(** crates/spar-analysis/src/rta.rs:657-664 [IsrInfo] *)
Record IsrInfo := { isr_idx : ComponentInstanceIdx; isr_name : string; isr_period_ps : u64; isr_exec_ps : u64 }.

(** crates/spar-analysis/src/rta.rs:667-678 [IrqChainSource] *)
Record IrqChainSource := {
  ic_isr_name : string;
  ic_isr_wcet_ps : u64;
  ic_isr_bcet_ps : u64;
  ic_latency_ps : u64;
  ic_event_port : string;
}.

(** crates/spar-analysis/src/rta.rs:70-70 [DEFAULT_ISR_OVERLOAD_THRESHOLD_PCT] *)
Definition DEFAULT_ISR_OVERLOAD_THRESHOLD_PCT : u64 := 30.

(** The messages of the pass. *)
Inductive RtaMessage :=
  | IsrOverheadInflation (isr : string) (base inflated overhead : u64)
  | NoBottomHalf (isr : string)
  | OverheadInflation (thread : string) (base inflated switch : u64)
  | StopForLockUnbounded (thread : string)
  | IsrOverloadedCpu (cpu : string) (util_pct : u64)
  | BlockingInflated (thread : string) (blocking : u64) (protocol : LockingProtocol)
  | ConvergedMiss (thread processor : string) (response deadline : u64)
  | Meets (thread processor : string) (response deadline : u64)
  | ResponseBand (thread : string) (bcet_response wcet_response : u64)
  | ChainMisses (event : string) (predicted deadline : u64)
  | ChainMeets (event : string) (predicted deadline slack : u64)
  | Misses (thread processor : string) (deadline : u64).

Record RtaDiagnostic := { rd_severity : Severity; rd_message : RtaMessage; rd_path : list string }.

(** What the second pass builds. *)
Record Collected := {
  c_diags : list RtaDiagnostic;
  c_threads : gmap string (list RtaThreadInfo);
  c_isrs : gmap string (list IsrInfo);
  c_chains : gmap ComponentInstanceIdx IrqChainSource;
  c_groups : ProcessorGroups;
}.

(** [map.entry(k).or_default().push(x)]. *)
Definition push_at {A} (k : string) (x : A) (m : gmap string (list A)) : gmap string (list A) :=
  <[k := default [] (m !! k) ++ [x]]> m.

(** ** Collection *)
Section rta.
Context (inst : SystemInstance) (props_of : ComponentInstanceIdx → Exec PropertyMap)
  (active : ComponentInstanceIdx → Exec bool).

Definition diag (severity : Severity) (msg : RtaMessage) (idx : ComponentInstanceIdx) : Exec RtaDiagnostic :=
  path ← component_path inst idx;
  Done {| rd_severity := severity; rd_message := msg; rd_path := path |}.

Definition when_diag (b : bool) (severity : Severity) (msg : RtaMessage) (idx : ComponentInstanceIdx)
  : Exec (list RtaDiagnostic) :=
  if b then d ← diag severity msg idx; Done [d] else Done [].

(** crates/spar-analysis/src/rta.rs:142-157 [analyze_with]: the first pass, the
    names of the components and the latencies of the processors. *)
Definition index_component (acc : gmap string ComponentInstanceIdx * gmap string u64)
    (ic : ComponentInstanceIdx * ComponentInstance)
  : Exec (gmap string ComponentInstanceIdx * gmap string u64) :=
  let '(idx, comp) := ic in
  let names := <[name comp := idx]> acc.1 in
  match category comp with
  | Processor =>
      props ← props_of idx;
      lat ← get_interrupt_latency_bound props;
      match lat with
      | Some lat =>
          key ← processor_key inst idx;
          Done (names, <[key := lat]> (<[name comp := lat]> acc.2))
      | None => Done (names, acc.2)
      end
  | _ => Done (names, acc.2)
  end.

(** What an interrupt service routine contributes. *)
Record IsrReading := {
  ir_period : option u64;
  ir_wcet_base : u64;
  ir_wcet : u64;
  ir_bcet : u64;
  ir_overhead : u64;
  ir_has_exec : bool;
}.

(** crates/spar-analysis/src/rta.rs:188-208 [analyze_with]: the timing of a routine. *)
Definition read_isr (props : PropertyMap) : Exec IsrReading :=
  period ← get_timing_property props "Period";
  own ← get_isr_execution_time_range props;
  range ← match own with Some r => Done (Some r) | None => get_execution_time_range props end;
  overhead ← get_interrupt_overhead props;
  let '(bcet, wcet) := default (0, 0) range in
  let overhead := default 0 overhead in
  Done {| ir_period := period; ir_wcet_base := wcet; ir_wcet := sat_add wcet overhead;
          ir_bcet := sat_add bcet overhead; ir_overhead := overhead; ir_has_exec := is_some own |}.

(** crates/spar-analysis/src/rta.rs:175-282 [analyze_with]: an interrupt service
    routine. *)
Definition collect_isr (names : gmap string ComponentInstanceIdx) (latency : gmap string u64)
    (st : Collected) (idx : ComponentInstanceIdx) (comp : ComponentInstance) (props : PropertyMap)
  : Exec Collected :=
  '(binding, groups) ←
    match get_processor_binding props with
    | Some b => '(k, g) ← group_key (c_groups st) inst idx (Some b); Done (Some k, g)
    | None => Done (None, c_groups st)
    end;
  r ← read_isr props;
  d1 ← when_diag ((0 <? ir_overhead r) && (0 <? ir_wcet_base r)) Info
         (IsrOverheadInflation (name comp) (ir_wcet_base r) (ir_wcet r) (ir_overhead r)) idx;
  let isrs :=
    match binding, ir_period r with
    | Some cpu, Some period =>
        if 0 <? ir_wcet r then
          push_at cpu {| isr_idx := idx; isr_name := name comp; isr_period_ps := period;
                         isr_exec_ps := ir_wcet r |} (c_isrs st)
        else c_isrs st
    | _, _ => c_isrs st
    end in
  let bh_server := get_bottom_half_server props in
  d2 ← when_diag (ir_has_exec r && negb (is_some bh_server)) Warning (NoBottomHalf (name comp)) idx;
  let chains :=
    match bh_server ≫= λ s, names !! s with
    | Some handler_idx =>
        <[handler_idx :=
            {| ic_isr_name := name comp; ic_isr_wcet_ps := ir_wcet r; ic_isr_bcet_ps := ir_bcet r;
               ic_latency_ps := default 0 (binding ≫= λ cpu, latency !! cpu);
               ic_event_port := name comp |}]> (c_chains st)
    | None => c_chains st
    end in
  Done {| c_diags := c_diags st ++ d1 ++ d2; c_threads := c_threads st; c_isrs := isrs;
          c_chains := chains; c_groups := groups |}.

(** crates/spar-analysis/src/rta.rs:289-308 [analyze_with]: the timing of a thread,
    unless it has no period or no execution time, with its base execution time
    and its context switch time. *)
Definition read_thread (idx : ComponentInstanceIdx) (comp : ComponentInstance) (props : PropertyMap)
  : Exec (option (RtaThreadInfo * u64 * u64)) :=
  and_thenM (get_timing_property props "Period") (λ period,
  and_thenM (get_execution_time props) (λ exec_base,
    switch ← get_timing_property props "Context_Switch_Time";
    let switch := default 0 switch in
    deadline ← get_timing_property props "Deadline";
    jitter ← get_dispatch_jitter props;
    range ← get_execution_time_range props;
    blocking ←
      match get_locking_protocol props with
      | Some Pip | Some Pcp => get_critical_section_blocking props
      | _ => Done None
      end;
    Done (Some
      ({| ti_name := name comp; ti_period_ps := period;
          ti_exec_ps := sat_add exec_base (sat_mul switch 2);
          ti_exec_bcet_ps := fst <$> range; ti_deadline_ps := default period deadline;
          ti_priority := get_priority props; ti_jitter_ps := default 0 jitter; ti_comp_idx := idx;
          ti_dispatch_protocol := get_dispatch_protocol props;
          ti_locking_protocol := get_locking_protocol props;
          ti_blocking_ps := default 0 blocking |}, exec_base, switch)))).

(** crates/spar-analysis/src/rta.rs:289-387 [analyze_with]: a thread. *)
Definition collect_thread (st : Collected) (idx : ComponentInstanceIdx) (comp : ComponentInstance)
    (props : PropertyMap) : Exec Collected :=
  o ← read_thread idx comp props;
  match o with
  | None => Done st
  | Some (info, exec_base, switch) =>
      d1 ← when_diag (0 <? switch) Info
             (OverheadInflation (name comp) exec_base (ti_exec_ps info) switch) idx;
      '(binding, groups) ← group_key (c_groups st) inst idx (get_processor_binding props);
      csb ← match ti_locking_protocol info with
            | Some StopForLock => get_critical_section_blocking props
            | _ => Done None
            end;
      d2 ← when_diag (match ti_locking_protocol info with
                      | Some StopForLock => negb (is_some csb)
                      | _ => false
                      end) Warning (StopForLockUnbounded (name comp)) idx;
      Done {| c_diags := c_diags st ++ d1 ++ d2; c_threads := push_at binding info (c_threads st);
              c_isrs := c_isrs st; c_chains := c_chains st; c_groups := groups |}
  end.

(** crates/spar-analysis/src/rta.rs:169-176 [analyze_with]: one component of the
    second pass. *)
Definition collect (names : gmap string ComponentInstanceIdx) (latency : gmap string u64)
    (st : Collected) (ic : ComponentInstanceIdx * ComponentInstance) : Exec Collected :=
  let '(idx, comp) := ic in
  a ← active idx;
  if negb a then Done st
  else
    props ← props_of idx;
    st ← (if is_some (get_isr_priority props) then collect_isr names latency st idx comp props
          else Done st);
    if bool_decide (category comp = Thread) then collect_thread st idx comp props else Done st.

(** ** Tier 1: interrupt load *)

(** crates/spar-analysis/src/rta.rs:398-408 [analyze_with]: the utilization of the
    routines of a processor, in thousandths. *)
Definition isr_permille (isrs : list IsrInfo) : u64 :=
  foldl (λ acc i, if isr_period_ps i =? 0 then acc
                  else sat_add acc (sat_mul (isr_exec_ps i) 1000 / isr_period_ps i)) 0 isrs.

(** Keys in the order of what is displayed for them. *)
Definition sorted_keys {A} (g : ProcessorGroups) (m : gmap string A) : list string :=
  sort_by (λ a b, String.compare (group_display g a) (group_display g b)) ((map_to_list m).*1).

(** crates/spar-analysis/src/rta.rs:394-423 [analyze_with]: the processors that their
    interrupts overload. *)
Definition isr_overloads (st : Collected) : list RtaDiagnostic :=
  concat ((λ cpu,
    let util_pct := isr_permille (default [] (c_isrs st !! cpu)) / 10 in
    if DEFAULT_ISR_OVERLOAD_THRESHOLD_PCT <=? util_pct then
      [{| rd_severity := Error; rd_message := IsrOverloadedCpu (group_display (c_groups st) cpu) util_pct;
          rd_path := [group_display (c_groups st) cpu] |}]
    else []) <$> sorted_keys (c_groups st) (c_isrs st)).

(** ** Tier 2: response times *)

(** crates/spar-analysis/src/rta.rs:693-705 [dispatch_order] *)
Definition dispatch_order (a_priority : option u64) (a_period : u64)
    (b_priority : option u64) (b_period : u64) : comparison :=
  match a_priority, b_priority with
  | Some pa, Some pb => pb ?= pa
  | Some _, None => Lt
  | None, Some _ => Gt
  | None, None => a_period ?= b_period
  end.

Definition thread_order (a b : RtaThreadInfo) : comparison :=
  dispatch_order (ti_priority a) (ti_period_ps a) (ti_priority b) (ti_period_ps b).

(** The response of [thread] below [higher] with the execution time [exec]. *)
Definition response_with (exec : u64) (higher : list RtaThreadInfo) (isrs : list (u64 * u64))
    (thread : RtaThreadInfo) : Exec RtaResult :=
  compute_response_time_jittered_blocking exec (ti_deadline_ps thread) (ti_jitter_ps thread)
    (ti_blocking_ps thread) ((λ t, (ti_period_ps t, ti_exec_ps t, ti_jitter_ps t)) <$> higher) isrs.

(** crates/spar-analysis/src/rta.rs:533-559 [analyze_with]: the response band. *)
Definition response_band (higher : list RtaThreadInfo) (isrs : list (u64 * u64)) (thread : RtaThreadInfo)
    (response : u64) : Exec (list RtaMessage) :=
  match ti_exec_bcet_ps thread with
  | Some bcet =>
      if bcet =? ti_exec_ps thread then Done []
      else
        r ← response_with bcet higher isrs thread;
        Done (match r with Converged r_b => [ResponseBand (ti_name thread) r_b response] | Diverged => [] end)
  | None => Done []
  end.

(** crates/spar-analysis/src/rta.rs:564-605 [analyze_with]: the chain from an
    interrupt to the thread that handles it. *)
Definition irq_chain (chains : gmap ComponentInstanceIdx IrqChainSource) (thread : RtaThreadInfo)
    (response : u64) : list (Severity * RtaMessage) :=
  match chains !! ti_comp_idx thread with
  | Some chain =>
      if match ti_dispatch_protocol thread with
         | Some p => eq_ignore_ascii_case p "Sporadic" | None => false end then
        let predicted := sat_add (sat_add (ic_latency_ps chain) (ic_isr_wcet_ps chain)) response in
        if ti_deadline_ps thread <? predicted
        then [(Error, ChainMisses (ic_event_port chain) predicted (ti_deadline_ps thread))]
        else [(Info, ChainMeets (ic_event_port chain) predicted (ti_deadline_ps thread)
                       (ti_deadline_ps thread - predicted))]
      else []
  | None => []
  end.

(** crates/spar-analysis/src/rta.rs:468-487 [analyze_with]: the note on blocking. *)
Definition inflation (thread : RtaThreadInfo) : list (Severity * RtaMessage) :=
  match ti_locking_protocol thread with
  | Some p => if 0 <? ti_blocking_ps thread
              then [(Info, BlockingInflated (ti_name thread) (ti_blocking_ps thread) p)] else []
  | None => []
  end.

(** crates/spar-analysis/src/rta.rs:489-621 [analyze_with]: one thread. *)
Definition thread_messages (chains : gmap ComponentInstanceIdx IrqChainSource) (proc_name : string)
    (higher : list RtaThreadInfo) (isrs : list (u64 * u64)) (thread : RtaThreadInfo)
  : Exec (list (Severity * RtaMessage)) :=
  result ← response_with (ti_exec_ps thread) higher isrs thread;
  match result with
  | Converged response_time =>
      let verdict :=
        if ti_deadline_ps thread <? response_time
        then (Error, ConvergedMiss (ti_name thread) proc_name response_time (ti_deadline_ps thread))
        else (Info, Meets (ti_name thread) proc_name response_time (ti_deadline_ps thread)) in
      band ← response_band higher isrs thread response_time;
      Done (inflation thread ++ [verdict] ++ (pair Info <$> band) ++ irq_chain chains thread response_time)
  | Diverged => Done (inflation thread ++ [(Error, Misses (ti_name thread) proc_name (ti_deadline_ps thread))])
  end.

(** crates/spar-analysis/src/rta.rs:455-464 [analyze_with]: the loop over the threads
    of a processor, [higher] those before. *)
Fixpoint analyze_threads (chains : gmap ComponentInstanceIdx IrqChainSource) (proc_name : string)
    (isrs : list (u64 * u64)) (higher threads : list RtaThreadInfo) : Exec (list RtaDiagnostic) :=
  match threads with
  | [] => Done []
  | thread :: lower =>
      path ← component_path inst (ti_comp_idx thread);
      msgs ← thread_messages chains proc_name higher isrs thread;
      ds ← analyze_threads chains proc_name isrs (higher ++ [thread]) lower;
      Done (((λ '(s, m), {| rd_severity := s; rd_message := m; rd_path := path |}) <$> msgs) ++ ds)
  end.

(** crates/spar-analysis/src/rta.rs:431-452 [analyze_with]: one processor. *)
Definition analyze_processor (st : Collected) (proc_key : string) : Exec (list RtaDiagnostic) :=
  if bool_decide (proc_key = UNBOUND) then Done []
  else
    let threads := sort_by thread_order (default [] (c_threads st !! proc_key)) in
    let isrs := (λ i, (isr_period_ps i, isr_exec_ps i)) <$> default [] (c_isrs st !! proc_key) in
    analyze_threads (c_chains st) (group_display (c_groups st) proc_key) isrs [] threads.

(** crates/spar-analysis/src/rta.rs:120-626 [analyze_with] *)
Definition analyze_with : Exec (list RtaDiagnostic) :=
  '(names, latency) ← foldM index_component (∅, ∅) (all_components inst);
  st ← foldM (collect names latency)
         {| c_diags := []; c_threads := ∅; c_isrs := ∅; c_chains := ∅; c_groups := no_groups |}
         (all_components inst);
  ds ← concatM (analyze_processor st) (sorted_keys (c_groups st) (c_threads st));
  Done (c_diags st ++ isr_overloads st ++ ds).
End rta.

(** crates/spar-analysis/src/rta.rs:84-90 [analyze] *)
Definition analyze (inst : SystemInstance) : Exec (list RtaDiagnostic) :=
  analyze_with inst (λ idx, Done (properties_for inst idx)) (λ _, Done true).

(** crates/spar-analysis/src/rta.rs:101-114 [analyze_in_mode] *)
Definition analyze_in_mode (inst : SystemInstance) (som : SystemOperationMode) : Exec (list RtaDiagnostic) :=
  if negb (has_modal_property_values inst) then Done []
  else analyze_with inst (λ idx, properties_in_som inst idx som)
         (λ idx, is_component_active_in_som inst idx som).

(** ** What the response-time pass reports

    The two passes over the instance amount to a reading of each component;
    the verdict on a thread is exact against the least fixed point of the
    recurrence over the threads and interrupts of the same processor. *)
(** ** Readings *)
Section readings.
Context (inst : SystemInstance) (props_of : ComponentInstanceIdx → Exec PropertyMap)
  (active : ComponentInstanceIdx → Exec bool).

(** The group of a component, by the processor its binding resolves to. *)
Definition binding_key (comp : ComponentInstanceIdx) (binding : option string) : Exec string :=
  match binding with
  | None => Done UNBOUND
  | Some binding =>
      resolved ← actual_processor_binding_with_overlay inst comp None;
      match resolved with Some idx => processor_key inst idx | None => Done binding end
  end.

Lemma group_key_spec g comp binding k g' :
  group_key g inst comp binding = Done (k, g') → binding_key comp binding = Done k.
Proof.
  unfold group_key, binding_key. destruct binding as [b|]; [|by intros [= <- _]].
  destruct (actual_processor_binding_with_overlay inst comp None) as [[idx|]| |]; try done; cbn.
  - destruct (processor_key inst idx); try done. cbn. by intros [= <- _].
  - by intros [= <- _].
Qed.

(** The thread a component is, with its group. *)
Definition thread_reading (ic : ComponentInstanceIdx * ComponentInstance)
  : Exec (option (string * RtaThreadInfo)) :=
  a ← active ic.1;
  if negb a then Done None
  else
    props ← props_of ic.1;
    if bool_decide (category ic.2 = Thread) then
      o ← read_thread ic.1 ic.2 props;
      match o with
      | None => Done None
      | Some (info, _, _) => k ← binding_key ic.1 (get_processor_binding props); Done (Some (k, info))
      end
    else Done None.

(** The interrupt service routine a component is, with its group. *)
Definition isr_reading (ic : ComponentInstanceIdx * ComponentInstance)
  : Exec (option (string * IsrInfo)) :=
  a ← active ic.1;
  if negb a then Done None
  else
    props ← props_of ic.1;
    if is_some (get_isr_priority props) then
      r ← read_isr props;
      match get_processor_binding props, ir_period r with
      | Some b, Some period =>
          if 0 <? ir_wcet r then
            k ← binding_key ic.1 (Some b);
            Done (Some (k, {| isr_idx := ic.1; isr_name := name ic.2; isr_period_ps := period;
                              isr_exec_ps := ir_wcet r |}))
          else Done None
      | _, _ => Done None
      end
    else Done None.

(** The readings of one group, in the order of the components. *)
Definition of_key {A} (k : string) (xs : list (option (string * A))) : list A :=
  omap (λ o, match o with Some (k', a) => if decide (k' = k) then Some a else None | None => None end) xs.

Lemma push_at_spec {A} k (x : A) m k' :
  default [] (push_at k x m !! k') = default [] (m !! k') ++ of_key k' [Some (k, x)].
Proof.
  unfold push_at, of_key. cbn. destruct (decide (k = k')) as [->|Hne].
  - by rewrite lookup_insert_eq.
  - by rewrite lookup_insert_ne, app_nil_r by done.
Qed.

Lemma collect_isr_spec names latency st idx comp props st' :
  collect_isr inst names latency st idx comp props = Done st' →
  c_threads st' = c_threads st ∧
  ∃ o, (r ← read_isr props;
        match get_processor_binding props, ir_period r with
        | Some b, Some period =>
            if 0 <? ir_wcet r then
              k ← binding_key idx (Some b);
              Done (Some (k, {| isr_idx := idx; isr_name := name comp; isr_period_ps := period;
                                isr_exec_ps := ir_wcet r |}))
            else Done None
        | _, _ => Done None
        end) = Done o ∧
    ∀ k, default [] (c_isrs st' !! k) = default [] (c_isrs st !! k) ++ of_key k [o].
Proof.
  unfold collect_isr. intros ([binding g] & Hg & (r & Hr & (d1 & _ & (d2 & _ & [= <-])%Exec_bind_Done)%Exec_bind_Done)%Exec_bind_Done)%Exec_bind_Done.
  split; [done|]. rewrite Hr. cbn [mbind Exec_bind].
  destruct (get_processor_binding props) as [b|].
  2: { injection Hg as <- <-. exists None. split; [done|]. intros k. cbn. by rewrite app_nil_r. }
  apply Exec_bind_Done in Hg as ([k g'] & Hk & [= <- <-]). apply group_key_spec in Hk. cbn [c_isrs].
  destruct (ir_period r) as [period|]; [|exists None; split; [done|]; intros k'; cbn; by rewrite app_nil_r].
  destruct (0 <? ir_wcet r); [|exists None; split; [done|]; intros k'; cbn; by rewrite app_nil_r].
  rewrite Hk. eexists. split; [done|]. intros k'. apply push_at_spec.
Qed.

Lemma collect_thread_spec st idx comp props st' :
  collect_thread inst st idx comp props = Done st' →
  c_isrs st' = c_isrs st ∧
  ∃ o, (o ← read_thread idx comp props;
        match o with
        | None => Done None
        | Some (info, _, _) => k ← binding_key idx (get_processor_binding props); Done (Some (k, info))
        end) = Done o ∧
    ∀ k, default [] (c_threads st' !! k) = default [] (c_threads st !! k) ++ of_key k [o].
Proof.
  unfold collect_thread. intros (o & Ho & H)%Exec_bind_Done. rewrite Ho. cbn [mbind Exec_bind].
  destruct o as [[[info base] switch]|].
  2: { injection H as <-. split; [done|]. exists None. split; [done|]. intros k. cbn. by rewrite app_nil_r. }
  apply Exec_bind_Done in H as (d1 & _ & ([k g] & Hk & (csb & _ & (d2 & _ & [= <-])%Exec_bind_Done)%Exec_bind_Done)%Exec_bind_Done).
  split; [done|]. apply group_key_spec in Hk. rewrite Hk. eexists. split; [done|].
  intros k'. apply push_at_spec.
Qed.

Lemma of_key_nil {A} k (m : gmap string (list A)) :
  default [] (m !! k) = default [] (m !! k) ++ of_key k [None].
Proof. cbn. by rewrite app_nil_r. Qed.

Lemma collect_spec names latency st ic st' :
  collect inst props_of active names latency st ic = Done st' →
  ∃ t i, thread_reading ic = Done t ∧ isr_reading ic = Done i ∧
    ∀ k, default [] (c_threads st' !! k) = default [] (c_threads st !! k) ++ of_key k [t] ∧
         default [] (c_isrs st' !! k) = default [] (c_isrs st !! k) ++ of_key k [i].
Proof.
  destruct ic as [idx comp]. unfold collect, thread_reading, isr_reading. cbn [fst snd].
  intros (a & -> & H)%Exec_bind_Done. cbn [mbind Exec_bind]. destruct (negb a).
  { injection H as <-. exists None, None. split_and!; [done..|]. intros k. split; apply of_key_nil. }
  apply Exec_bind_Done in H as (props & -> & (st1 & H1 & H2)%Exec_bind_Done). cbn [mbind Exec_bind].
  assert (∃ i, (if is_some (get_isr_priority props) then
      r ← read_isr props;
      match get_processor_binding props, ir_period r with
      | Some b, Some period =>
          if 0 <? ir_wcet r then
            k ← binding_key idx (Some b);
            Done (Some (k, {| isr_idx := idx; isr_name := name comp; isr_period_ps := period;
                              isr_exec_ps := ir_wcet r |}))
          else Done None
      | _, _ => Done None
      end else Done None) = Done i ∧ c_threads st1 = c_threads st ∧
    ∀ k, default [] (c_isrs st1 !! k) = default [] (c_isrs st !! k) ++ of_key k [i]) as (i & Hi & Ht1 & Hi1).
  { destruct (is_some (get_isr_priority props)).
    - apply collect_isr_spec in H1 as (Ht & o & Ho & Hk). by exists o.
    - injection H1 as <-. exists None. split_and!; [done..|]. intros k. apply of_key_nil. }
  assert (∃ t, (if bool_decide (category comp = Thread) then
      o ← read_thread idx comp props;
      match o with
      | None => Done None
      | Some (info, _, _) => k ← binding_key idx (get_processor_binding props); Done (Some (k, info))
      end else Done None) = Done t ∧ c_isrs st' = c_isrs st1 ∧
    ∀ k, default [] (c_threads st' !! k) = default [] (c_threads st1 !! k) ++ of_key k [t]) as (t & Ht & Hi2 & Ht2).
  { case_bool_decide.
    - apply collect_thread_spec in H2 as (Hi2 & o & Ho & Hk). by exists o.
    - injection H2 as <-. exists None. split_and!; [done..|]. intros k. apply of_key_nil. }
  exists t, i. split_and!; [done..|]. intros k. rewrite Ht2, Ht1, Hi2. by rewrite Hi1.
Qed.

(** The second pass is the list of the readings. *)
Lemma collect_all_spec names latency st ics st' :
  foldM (collect inst props_of active names latency) st ics = Done st' →
  ∃ ts us, Forall2 (λ ic t, thread_reading ic = Done t) ics ts ∧
    Forall2 (λ ic i, isr_reading ic = Done i) ics us ∧
    ∀ k, default [] (c_threads st' !! k) = default [] (c_threads st !! k) ++ of_key k ts ∧
         default [] (c_isrs st' !! k) = default [] (c_isrs st !! k) ++ of_key k us.
Proof.
  revert st. induction ics as [|ic ics IH]; intros st; simpl.
  - intros [= <-]. exists [], []. split_and!; [constructor..|]. intros k. cbn. by rewrite !app_nil_r.
  - intros (st1 & H1 & H2)%Exec_bind_Done. apply collect_spec in H1 as (t & i & Ht & Hi & Hk).
    apply IH in H2 as (ts & us & Hts & His & Hks). exists (t :: ts), (i :: us).
    split_and!; [by constructor..|]. intros k. destruct (Hks k) as [-> ->], (Hk k) as [-> ->].
    rewrite <- !app_assoc. unfold of_key. by rewrite <- !omap_app.
Qed.
End readings.

(** ** Verdicts *)

Definition interferers (higher : list RtaThreadInfo) : list (u64 * u64 * u64) :=
  (λ t, (ti_period_ps t, ti_exec_ps t, ti_jitter_ps t)) <$> higher.

(** The demand on the processor in a window, for a thread below others. *)
Definition thread_demand (higher : list RtaThreadInfo) (isrs : list (u64 * u64)) (t : RtaThreadInfo) : N → N :=
  response_jittered (ti_exec_ps t) (ti_jitter_ps t) (ti_blocking_ps t) (interferers higher) isrs.

Definition is_verdict (m : RtaMessage) : bool :=
  match m with Meets _ _ _ _ | Misses _ _ _ | ConvergedMiss _ _ _ _ => true | _ => false end.

(** The least window in which the demand fits, if it meets the deadline. *)
Definition verdict (proc_name : string) (higher : list RtaThreadInfo) (isrs : list (u64 * u64))
    (t : RtaThreadInfo) (s : Severity) (m : RtaMessage) : Prop :=
  let f := thread_demand higher isrs t in
  (∃ r, s = Info ∧ m = Meets (ti_name t) proc_name r (ti_deadline_ps t) ∧
     least_or_none f (ti_deadline_ps t) (Converged r) ∧ r ≤ ti_deadline_ps t) ∨
  (s = Error ∧ m = Misses (ti_name t) proc_name (ti_deadline_ps t) ∧
     least_or_none f (ti_deadline_ps t) Diverged).

(** Deadlines and jitters that keep the windows in 64 bits. *)
Definition timing_ok (ts : list RtaThreadInfo) : Prop :=
  Forall (λ t, ti_deadline_ps t < U64_MAX ∧ 0 < ti_period_ps t ∧
    Forall (λ t', ti_deadline_ps t + ti_jitter_ps t' ≤ U64_MAX) ts) ts.

Definition window_ok (higher : list RtaThreadInfo) (t : RtaThreadInfo) : Prop :=
  ti_deadline_ps t < U64_MAX ∧ jitters_ok (ti_deadline_ps t) (interferers higher).

Lemma irq_chain_no_verdict chains t r s m : (s, m) ∈ irq_chain chains t r → is_verdict m = false.
Proof.
  unfold irq_chain. repeat case_match;
    first [by intros [= -> ->]%list_elem_of_singleton|by intros ?%elem_of_nil].
Qed.

Lemma inflation_no_verdict t s m : (s, m) ∈ inflation t → is_verdict m = false.
Proof.
  unfold inflation. repeat case_match;
    first [by intros [= -> ->]%list_elem_of_singleton|by intros ?%elem_of_nil].
Qed.

Lemma thread_messages_spec chains proc_name higher isrs t :
  window_ok higher t → periods_ok isrs →
  ∃ ms, thread_messages chains proc_name higher isrs t = Done ms ∧
    ∀ s m, is_verdict m = true → (s, m) ∈ ms ↔ verdict proc_name higher isrs t s m.
Proof.
  intros [Hd Hj] Hi. unfold thread_messages, response_with. fold (interferers higher).
  destruct (compute_blocking_spec (ti_exec_ps t) (ti_deadline_ps t) (ti_jitter_ps t) (ti_blocking_ps t)
    (interferers higher) isrs) as (res & -> & Hres & Hc); [done..|]. cbn [mbind Exec_bind].
  destruct res as [r|].
  - specialize (Hc r eq_refl). destruct (N.ltb_spec (ti_deadline_ps t) r); [lia|].
    assert (Hb : ∃ band, response_band higher isrs t r = Done band ∧ ∀ m, m ∈ band → is_verdict m = false).
    { unfold response_band, response_with. fold (interferers higher).
      destruct (ti_exec_bcet_ps t) as [b|]; [|eexists; split; [done|]; by intros m ?%elem_of_nil].
      destruct (_ =? _); [eexists; split; [done|]; by intros m ?%elem_of_nil|].
      destruct (compute_blocking_spec b (ti_deadline_ps t) (ti_jitter_ps t) (ti_blocking_ps t)
        (interferers higher) isrs) as (res2 & -> & _ & _); [done..|].
      eexists. split; [done|]. destruct res2; [by intros m ->%list_elem_of_singleton|by intros m ?%elem_of_nil]. }
    destruct Hb as (band & -> & Hband). cbn [mbind Exec_bind]. eexists. split; [done|].
    intros s m Hm. rewrite !elem_of_app, list_elem_of_singleton. unfold verdict. split.
    + intros [?%inflation_no_verdict|[[= -> ->]|[(m' & [= -> ->] & ?%Hband)%list_elem_of_fmap|?%irq_chain_no_verdict]]];
        [congruence| |congruence..]. left. exists r. by split_and!.
    + intros [(r' & -> & -> & Hr' & _)|(_ & _ & Hno)].
      * right. left. destruct Hres as [H1 H2], Hr' as [H3 H4].
        assert (r' = r) as ->; [|done]. apply N.le_antisymm; [apply H4|apply H2]; unfold fits_in, thread_demand in *; lia.
      * exfalso. destruct Hres as [H1 _]. specialize (Hno r). unfold fits_in, thread_demand in *. lia.
  - eexists. split; [done|]. intros s m Hm. rewrite elem_of_app, list_elem_of_singleton. unfold verdict. split.
    + intros [?%inflation_no_verdict|[= -> ->]]; [congruence|]. right. done.
    + intros [(r' & _ & _ & [H1 _] & Hle)|(-> & -> & _)]; [exfalso|by right].
      specialize (Hres r'). unfold fits_in, thread_demand in *. lia.
Qed.

(** ** The diagnostics of the pass *)
Section pass.
Context (inst : SystemInstance).

Lemma analyze_threads_spec chains proc_name isrs higher tasks ds :
  periods_ok isrs →
  (∀ hi t lo, tasks = hi ++ t :: lo → window_ok (higher ++ hi) t) →
  analyze_threads inst chains proc_name isrs higher tasks = Done ds →
  ∀ d, is_verdict (rd_message d) = true →
    d ∈ ds ↔ ∃ hi t lo, tasks = hi ++ t :: lo ∧ component_path inst (ti_comp_idx t) = Done (rd_path d) ∧
      verdict proc_name (higher ++ hi) isrs t (rd_severity d) (rd_message d).
Proof.
  intros Hi. revert higher ds. induction tasks as [|t tasks IH]; intros higher ds Hw; simpl.
  { intros [= <-] d _. split; [by intros ?%elem_of_nil|]. intros (hi & t & lo & E & _). by destruct hi. }
  intros (path & Hp & (ms & Hms & (ds' & Hds & [= <-])%Exec_bind_Done)%Exec_bind_Done)%Exec_bind_Done d Hd.
  assert (Hw0 : window_ok higher t) by (rewrite <- (app_nil_r higher); by apply (Hw [] t tasks)).
  destruct (thread_messages_spec chains proc_name higher isrs t Hw0 Hi) as (ms' & E & Hspec).
  rewrite Hms in E. injection E as <-.
  apply (IH _ ds') with (d := d) in Hds; [|intros hi u lo ->; rewrite <- app_assoc; by apply (Hw (t :: hi) u lo)|done].
  rewrite elem_of_app, Hds, list_elem_of_fmap. split.
  - intros [([s m] & -> & Hin)|(hi & u & lo & -> & Hpu & Hv)].
    + apply (Hspec s m Hd) in Hin. exists [], t, tasks. by rewrite app_nil_r.
    + exists (t :: hi), u, lo. by rewrite <- app_assoc in Hv.
  - intros ([|x hi] & u & lo & [= -> ->] & Hpu & Hv).
    + left. exists (rd_severity d, rd_message d). rewrite app_nil_r in Hv. split.
      * rewrite Hp in Hpu. injection Hpu as ->. by destruct d.
      * by apply Hspec.
    + right. exists hi, u, lo. by rewrite <- app_assoc.
Qed.

Lemma timing_window l hi t lo :
  timing_ok l → l ≡ₚ hi ++ t :: lo → window_ok hi t.
Proof.
  unfold timing_ok. intros H Hp. rewrite Forall_forall in H.
  assert (Ht : t ∈ l) by (rewrite Hp; apply elem_of_app; right; by left).
  destruct (H t Ht) as (Hd & _ & Hj). split; [done|]. rewrite Forall_forall in Hj.
  apply Forall_fmap, Forall_forall. intros u Hu.
  assert (Hul : u ∈ l) by (rewrite Hp; apply elem_of_app; by left).
  destruct (H u Hul) as (_ & Hpu & _). cbn. split; [done|]. by apply Hj.
Qed.

Definition quiet (ds : list RtaDiagnostic) : Prop := Forall (λ d, is_verdict (rd_message d) = false) ds.

Lemma when_diag_quiet b s m idx ds :
  is_verdict m = false → when_diag inst b s m idx = Done ds → quiet ds.
Proof.
  intros Hm. unfold when_diag, diag. destruct b; [|by intros [= <-]; constructor].
  intros (d & (p & _ & [= <-])%Exec_bind_Done & [= <-])%Exec_bind_Done. by constructor.
Qed.

Lemma quiet_app a b : quiet a → quiet b → quiet (a ++ b).
Proof. unfold quiet. intros. by apply Forall_app. Qed.

Lemma collect_quiet props_of active names latency st ic st' :
  quiet (c_diags st) → collect inst props_of active names latency st ic = Done st' → quiet (c_diags st').
Proof.
  destruct ic as [idx comp]. unfold collect. intros Hq (a & _ & H)%Exec_bind_Done.
  destruct (negb a); [by injection H as <-|].
  apply Exec_bind_Done in H as (props & _ & (st1 & H1 & H2)%Exec_bind_Done).
  assert (Hq1 : quiet (c_diags st1)).
  { destruct (is_some (get_isr_priority props)); [|by injection H1 as <-]. unfold collect_isr in H1.
    apply Exec_bind_Done in H1 as ([b g] & _ & (r & _ & (d1 & E1 & (d2 & E2 & [= <-])%Exec_bind_Done)%Exec_bind_Done)%Exec_bind_Done).
    apply when_diag_quiet in E1, E2; [|done..]. cbn. by repeat apply quiet_app. }
  destruct (bool_decide _); [|by injection H2 as <-]. unfold collect_thread in H2.
  apply Exec_bind_Done in H2 as (o & _ & H2). destruct o as [[[info base] switch]|]; [|by injection H2 as <-].
  apply Exec_bind_Done in H2 as (d1 & E1 & ([k g] & _ & (csb & _ & (d2 & E2 & [= <-])%Exec_bind_Done)%Exec_bind_Done)%Exec_bind_Done).
  apply when_diag_quiet in E1, E2; [|done..]. cbn. by repeat apply quiet_app.
Qed.

Lemma collect_all_quiet props_of active names latency st ics st' :
  quiet (c_diags st) → foldM (collect inst props_of active names latency) st ics = Done st' →
  quiet (c_diags st').
Proof.
  revert st. induction ics as [|ic ics IH]; intros st Hq; simpl; [by intros [= <-]|].
  intros (st1 & H1 & H2)%Exec_bind_Done. apply (IH st1); [|done]. by eapply collect_quiet.
Qed.

Lemma isr_overloads_quiet st : quiet (isr_overloads st).
Proof.
  apply Forall_concat, Forall_fmap, Forall_forall. intros cpu _. cbn.
  destruct (_ <=? _); by repeat constructor.
Qed.

Lemma sorted_keys_spec {A} g (m : gmap string A) k : k ∈ sorted_keys g m ↔ is_Some (m !! k).
Proof.
  unfold sorted_keys. rewrite sort_by_perm, list_elem_of_fmap. split.
  - intros ([k' a] & -> & Hin%elem_of_map_to_list). by exists a.
  - intros [a Ha]. exists (k, a). split; [done|]. by apply elem_of_map_to_list.
Qed.

Definition isr_terms (isrs : list IsrInfo) : list (u64 * u64) := (λ i, (isr_period_ps i, isr_exec_ps i)) <$> isrs.

(** ** The pass returns *)

Definition returns {A} (m : Exec A) : Prop := ∃ a, m = Done a.

(** What is read of a component can be read: no quantity overflows. *)
Definition readable props_of active (ic : ComponentInstanceIdx * ComponentInstance) : Prop :=
  returns (active ic.1 : Exec bool) ∧
  ∃ props, props_of ic.1 = Done props ∧ returns (get_interrupt_latency_bound props) ∧
    returns (read_isr props) ∧ returns (get_critical_section_blocking props) ∧
    returns (read_thread ic.1 ic.2 props) ∧ returns (binding_key inst ic.1 (get_processor_binding props)).

Context (Hwf : wf_instance inst).

Lemma component_path_total i : (i < length (components inst))%nat → returns (component_path inst i).
Proof.
  intros Hi. unfold component_path. destruct (walk_up_total inst Hwf i) as (p & -> & _); [done|]. by eexists.
Qed.

Lemma group_key_total g comp binding : returns (binding_key inst comp binding) → returns (group_key g inst comp binding).
Proof.
  intros [k Hk]. unfold binding_key, group_key in *. destruct binding as [b|]; [|by eexists].
  apply Exec_bind_Done in Hk as (r & -> & Hk). cbn [mbind Exec_bind].
  destruct r as [idx|]; [rewrite Hk|]; by eexists.
Qed.

Lemma when_diag_total b s m idx : (idx < length (components inst))%nat → returns (when_diag inst b s m idx).
Proof.
  intros Hi. unfold when_diag, diag. destruct b; [|by eexists].
  destruct (component_path_total idx Hi) as [p ->]. by eexists.
Qed.

Lemma foldM_total {A B} (f : A → B → Exec A) bs : (∀ a b, b ∈ bs → returns (f a b)) → ∀ a, returns (foldM f a bs).
Proof.
  induction bs as [|b bs IH]; intros H a; simpl; [by eexists|].
  destruct (H a b) as [a' ->]; [by left|]. apply IH. intros a0 b0 Hb. apply H. by right.
Qed.

Lemma collect_total props_of active names latency st ic :
  readable props_of active ic → (ic.1 < length (components inst))%nat →
  returns (collect inst props_of active names latency st ic).
Proof.
  destruct ic as [idx comp]. intros ([a Ha] & props & Hp & _ & [r Hr] & [csb Hc] & [o Ho] & Hk) Hi. cbn [fst snd] in *.
  unfold collect. rewrite Ha, Hp. cbn [mbind Exec_bind]. destruct (negb a); [by eexists|].
  assert (H1 : ∀ st, returns (collect_isr inst names latency st idx comp props)).
  { intros st0. unfold collect_isr. rewrite Hr. destruct (get_processor_binding props) as [b|].
    - destruct (group_key_total (c_groups st0) idx (Some b) Hk) as [[k g] ->]. cbn [mbind Exec_bind].
      edestruct when_diag_total as [d1 ->]; [done|]. edestruct when_diag_total as [d2 ->]; [done|]. by eexists.
    - cbn [mbind Exec_bind]. edestruct when_diag_total as [d1 ->]; [done|]. edestruct when_diag_total as [d2 ->]; [done|]. by eexists. }
  assert (H2 : ∀ st, returns (collect_thread inst st idx comp props)).
  { intros st0. unfold collect_thread. rewrite Ho. cbn [mbind Exec_bind].
    destruct o as [[[info base] switch]|]; [|by eexists]. edestruct when_diag_total as [d1 ->]; [done|].
    destruct (group_key_total (c_groups st0) idx _ Hk) as [[k g] ->]. rewrite Hc. cbn [mbind Exec_bind].
    destruct (ti_locking_protocol info) as [[]|]; cbn [mbind Exec_bind]; (edestruct when_diag_total as [d2 ->]; [done|]); by eexists. }
  destruct (is_some (get_isr_priority props)); cbn [mbind Exec_bind]; [destruct (H1 st) as [st1 ->]|];
    (destruct (bool_decide _); [apply H2|by eexists]).
Qed.

Lemma index_component_total props_of active acc ic :
  readable props_of active ic → (ic.1 < length (components inst))%nat →
  returns (index_component inst props_of acc ic).
Proof.
  destruct ic as [idx comp]. intros (_ & props & Hp & [l Hl] & _) Hi. cbn [fst snd] in *. unfold index_component.
  destruct (category comp); try (by eexists). rewrite Hp. cbn [mbind Exec_bind]. rewrite Hl. cbn [mbind Exec_bind].
  destruct l as [l|]; [|by eexists]. unfold processor_key.
  destruct (component_instance_path_total inst Hwf idx Hi) as [k ->]. by eexists.
Qed.

Lemma analyze_threads_total chains proc_name isrs higher tasks :
  periods_ok isrs →
  (∀ hi t lo, tasks = hi ++ t :: lo → window_ok (higher ++ hi) t) →
  (∀ t, t ∈ tasks → (ti_comp_idx t < length (components inst))%nat) →
  returns (analyze_threads inst chains proc_name isrs higher tasks).
Proof.
  intros Hi. revert higher. induction tasks as [|t tasks IH]; intros higher Hw Hidx; simpl; [by eexists|].
  destruct (component_path_total (ti_comp_idx t)) as [p ->]; [apply Hidx; by left|].
  assert (Hw0 : window_ok higher t) by (rewrite <- (app_nil_r higher); by apply (Hw [] t tasks)).
  destruct (thread_messages_spec chains proc_name higher isrs t Hw0 Hi) as (ms & -> & _).
  destruct (IH (higher ++ [t])) as [ds ->]; [| |by eexists].
  - intros hi u lo ->. rewrite <- app_assoc. by apply (Hw (t :: hi) u lo).
  - intros u Hu. apply Hidx. by right.
Qed.

(** The verdicts on the processors, for what the second pass read. *)
Lemma processors_exact st ts us :
  (∀ k, default [] (c_threads st !! k) = of_key k ts) →
  (∀ k, default [] (c_isrs st !! k) = of_key k us) →
  (∀ k t, t ∈ of_key k ts → (ti_comp_idx t < length (components inst))%nat) →
  (∀ k, timing_ok (of_key k ts)) → (∀ k, periods_ok (isr_terms (of_key k us))) →
  ∃ ds, concatM (analyze_processor inst st) (sorted_keys (c_groups st) (c_threads st)) = Done ds ∧
    ∀ d, is_verdict (rd_message d) = true →
      d ∈ ds ↔ ∃ k higher t lower,
        k ≠ UNBOUND ∧ sort_by thread_order (of_key k ts) = higher ++ t :: lower ∧
        component_path inst (ti_comp_idx t) = Done (rd_path d) ∧
        verdict (group_display (c_groups st) k) higher (isr_terms (of_key k us)) t (rd_severity d) (rd_message d).
Proof.
  intros Hth Hisr Hidx Ht Hi.
  assert (Hw : ∀ k hi t lo, sort_by thread_order (of_key k ts) = hi ++ t :: lo → window_ok hi t).
  { intros k hi t lo E. apply (timing_window (of_key k ts) hi t lo); [done|]. by rewrite <- E, sort_by_perm. }
  destruct (concatM_total (analyze_processor inst st) (sorted_keys (c_groups st) (c_threads st)))
    as (ds & Hds & Hin).
  { intros k _. unfold analyze_processor. case_bool_decide; [by eexists|]. rewrite Hth, Hisr.
    apply analyze_threads_total; [apply Hi|intros hi t lo E; by apply (Hw k hi t lo)|].
    intros t. rewrite sort_by_perm. apply Hidx. }
  exists ds. split; [done|]. intros d Hd. rewrite Hin.
  assert (Hz : ∀ k zs, k ≠ UNBOUND → analyze_processor inst st k = Done zs → d ∈ zs ↔
    ∃ higher t lower, sort_by thread_order (of_key k ts) = higher ++ t :: lower ∧
      component_path inst (ti_comp_idx t) = Done (rd_path d) ∧
      verdict (group_display (c_groups st) k) higher (isr_terms (of_key k us)) t (rd_severity d) (rd_message d)).
  { intros k zs Hu. unfold analyze_processor. rewrite bool_decide_eq_false_2, Hth, Hisr by done. intros E.
    eapply analyze_threads_spec in E; [by apply E|by apply Hi| |done]. intros hi t lo E'. by apply (Hw k hi t lo). }
  split.
  - intros (k & zs & _ & E & Hdz). destruct (decide (k = UNBOUND)) as [->|Hu].
    { unfold analyze_processor in E. rewrite bool_decide_eq_true_2 in E by done. injection E as <-. by apply elem_of_nil in Hdz. }
    apply (Hz k zs Hu E) in Hdz as (hi & t & lo & Hdz). by exists k, hi, t, lo.
  - intros (k & hi & t & lo & Hu & E & Hv).
    assert (Hkey : k ∈ sorted_keys (c_groups st) (c_threads st)).
    { apply sorted_keys_spec. destruct (c_threads st !! k) eqn:Ek; [by eexists|].
      specialize (Hth k). rewrite Ek in Hth. cbn in Hth. rewrite <- Hth in E. by destruct hi. }
    destruct (concatM_Done _ _ _ Hds) as [Hret _]. destruct (Hret k Hkey) as [zs Hzs].
    exists k, zs. split; [done|]. split; [done|]. apply (Hz k zs Hu Hzs). by exists hi, t, lo.
Qed.

Lemma thread_readings_idx props_of active ts :
  Forall2 (λ ic t, thread_reading inst props_of active ic = Done t) (all_components inst) ts →
  ∀ k t, t ∈ of_key k ts → (ti_comp_idx t < length (components inst))%nat.
Proof.
  intros H k t Ht. unfold of_key in Ht. apply list_elem_of_omap in Ht as (o & Ho & Hk).
  apply list_elem_of_lookup in Ho as [i Hi]. destruct (Forall2_lookup_r _ _ _ _ _ H Hi) as ([idx comp] & Hic & Hr).
  apply list_elem_of_lookup_2, all_components_elem in Hic. destruct o as [[k' t']|]; [|done].
  case_decide; [|done]. injection Hk as ->.
  unfold thread_reading in Hr. apply Exec_bind_Done in Hr as (a & _ & Hr). destruct (negb a); [done|].
  apply Exec_bind_Done in Hr as (props & _ & Hr). case_bool_decide; [|done].
  apply Exec_bind_Done in Hr as ([[[info b] sw]|] & Hinfo & Hr); [|done].
  apply Exec_bind_Done in Hr as (k2 & _ & [= _ <-]).
  assert (ti_comp_idx info = idx) as ->; [|by eapply lookup_lt_Some].
  unfold read_thread, and_thenM in Hinfo.
  repeat first [apply Exec_bind_Done in Hinfo as (? & _ & Hinfo)|case_match; try done]; by injection Hinfo as <- _ _.
Qed.

(** C18: the verdicts of the response-time pass are exact.  Of an instance
    whose quantities can be read, each component is read on its own as a
    thread or a routine of the group its binding resolves to.  For timings in
    64 bits and non-zero periods the pass returns, and its diagnostics that
    give a verdict are: for each thread of a bound group, in dispatch order,
    the least window in which its demand, that of the threads before it in
    the group and that of the routines of the group fit, when it meets the
    deadline, and a missed deadline when no window up to the deadline does. *)
Theorem rta_analysis_exact props_of active :
  (∀ ic, ic ∈ all_components inst → readable props_of active ic) →
  ∃ ts us,
    Forall2 (λ ic t, thread_reading inst props_of active ic = Done t) (all_components inst) ts ∧
    Forall2 (λ ic u, isr_reading inst props_of active ic = Done u) (all_components inst) us ∧
    ((∀ k, timing_ok (of_key k ts)) → (∀ k, periods_ok (isr_terms (of_key k us))) →
     ∃ ds show, analyze_with inst props_of active = Done ds ∧
       ∀ d, is_verdict (rd_message d) = true →
         d ∈ ds ↔ ∃ k higher t lower,
           k ≠ UNBOUND ∧ sort_by thread_order (of_key k ts) = higher ++ t :: lower ∧
           component_path inst (ti_comp_idx t) = Done (rd_path d) ∧
           verdict (show k) higher (isr_terms (of_key k us)) t (rd_severity d) (rd_message d)).
Proof.
  intros Hr.
  assert (Hlt : ∀ ic, ic ∈ all_components inst → (ic.1 < length (components inst))%nat).
  { intros [i c] Hic%all_components_elem. by eapply lookup_lt_Some. }
  unfold analyze_with.
  destruct (foldM_total (index_component inst props_of) (all_components inst)) with (a := (∅, ∅) : gmap string ComponentInstanceIdx * gmap string u64)
    as [[names latency] ->]; [intros; eapply index_component_total; eauto|].
  destruct (foldM_total (collect inst props_of active names latency) (all_components inst))
    with (a := {| c_diags := []; c_threads := ∅; c_isrs := ∅; c_chains := ∅; c_groups := no_groups |})
    as [st Hst]; [intros; apply collect_total; auto|].
  assert (Hq : quiet (c_diags st)) by (apply (collect_all_quiet _ _ _ _ _ _ _) in Hst; [done|by constructor]).
  pose proof Hst as (ts & us & Hts & Hus & Hk)%collect_all_spec. cbn [c_threads c_isrs] in Hk.
  exists ts, us. split; [done|]. split; [done|]. intros Ht Hi.
  destruct (processors_exact st ts us) as (ds & Hds & Hd); [| |by eapply thread_readings_idx|done..|].
  { intros k. destruct (Hk k) as [-> _]. by rewrite lookup_empty. }
  { intros k. destruct (Hk k) as [_ ->]. by rewrite lookup_empty. }
  cbn [mbind Exec_bind]. rewrite Hst. cbn [mbind Exec_bind]. rewrite Hds. eexists _, (group_display (c_groups st)).
  split; [done|]. intros d Hv. rewrite !elem_of_app, <- (Hd d Hv). split; [|by auto]. intros [Hin|[Hin|Hin]]; [| |done].
  - by rewrite (proj1 (Forall_forall _ _) Hq d Hin) in Hv.
  - by rewrite (proj1 (Forall_forall _ _) (isr_overloads_quiet st) d Hin) in Hv.
Qed.
End pass.

(** ** A processor with two threads *)
Definition thread_ex (nm : string) : ComponentInstance :=
  {| name := nm; category := Thread; comp_type_name := "T"; comp_impl_name := None; comp_package := "P";
     parent := Some 0%nat; children := []; features := []; connections := []; flows := [];
     modes := []; mode_transitions := []; array_index := None; comp_in_modes := [] |}.

(** A thread bound to [cpu]. *)
Definition timing_ex (period exec : string) : PropertyMap :=
  let value set nm v := {| pv_name := {| property_set := Some set; property_name := nm |};
                           pv_value := v; pv_typed_expr := None; pv_is_append := false |} in
  add (add (add new (value "Timing_Properties" "Period" period))
        (value "Timing_Properties" "Compute_Execution_Time" exec))
      (value "Deployment_Properties" "Actual_Processor_Binding" "reference (cpu)")%string.

Definition two_threads (p1 p2 : PropertyMap) : SystemInstance :=
  let comp nm cat p cs :=
    {| name := nm; category := cat; comp_type_name := "T"; comp_impl_name := None; comp_package := "P";
       parent := p; children := cs; features := []; connections := []; flows := [];
       modes := []; mode_transitions := []; array_index := None; comp_in_modes := [] |} in
  set_components [comp "top"%string System None [1; 2; 3]%nat; comp "cpu"%string Processor (Some 0%nat) [];
                  thread_ex "t1"; thread_ex "t2"]
    (set_property_maps (<[2%nat := p1]> {[ 3%nat := p2 ]}) empty_instance).

Definition rta_ex : SystemInstance := two_threads (timing_ex "10 ms" "4 ms") (timing_ex "20 ms" "6 ms").

Example rta_ex_messages :
  (ds ← analyze rta_ex; Done (map rd_message ds)) =
  Done [Meets "t1" "cpu" 4000000000 10000000000; Meets "t2" "cpu" 10000000000 20000000000].
Proof. vm_compute. reflexivity. Qed.

Lemma rta_analysis_exact_witness :
  ∃ ds, analyze rta_ex = Done ds ∧ length ds = 2%nat ∧
    ∀ d, d ∈ ds → is_verdict (rd_message d) = true →
      ∃ higher t show, component_path rta_ex (ti_comp_idx t) = Done (rd_path d) ∧
        verdict show higher [] t (rd_severity d) (rd_message d).
Proof.
  destruct (rta_analysis_exact rta_ex (wf_check_sound rta_ex eq_refl)
    (λ idx, Done (properties_for rta_ex idx)) (λ _, Done true)) as (ts & us & Hts & Hus & H).
  { intros ic Hic. apply list_elem_of_In in Hic. repeat destruct Hic as [<-|Hic]; [..|done].
    all: split; [by eexists|eexists; split; [done|]]; split_and!; vm_compute; by eexists. }
  apply mapM_Done in Hts, Hus. vm_compute in Hts, Hus. injection Hts as <-. injection Hus as <-.
  destruct H as (ds & show & Hds & H).
  - intros k. unfold of_key. cbn. destruct (decide _); [|constructor].
    by repeat first [constructor|split_and!|vm_compute].
  - intros k. constructor.
  - exists ds. split; [exact Hds|]. split.
    + assert (E : (ds ← analyze rta_ex; Done (length ds)) = Done 2%nat) by (vm_compute; reflexivity).
      unfold analyze in E. rewrite Hds in E. by injection E.
    + intros d Hd Hv. apply (H d Hv) in Hd as (k & hi & t & lo & _ & _ & Hp & Hver).
      exists hi, t, (show k). split; [exact Hp|exact Hver].
Defined.

(** A period of zero divides by zero in the response time of the threads below. *)
Example zero_period_panics : analyze (two_threads (timing_ex "0 ms" "4 ms") (timing_ex "20 ms" "6 ms")) = Panic.
Proof. vm_compute. reflexivity. Qed.
