(* ===== verification/ArincSupply.v ===== *)
(** * Response times inside an ARINC 653 partition

    [crates/spar-analysis/src/arinc_supply.rs]: threads of a partition run
    against the supply of a periodic resource [(period, budget)].  The busy
    window is analysed with the blackout of the resource as release jitter
    when it fits one budget, and otherwise demand is compared with a linear
    lower bound of the supply. *)
From S2P Require Import Prelude.
From S2P Require Import BTree.
From S2P Require Import F64.
From S2P Require Import CategoryRules.
From S2P Require Import Names.
From S2P Require Import PropertyMap.
From S2P Require Import PropertyAccessors.
From S2P Require Import Instance.
From S2P Require Import Diagnostics.
From S2P Require Import Sorting.
From S2P Require Import SchedulingVerified.
From S2P Require Import Rta.
From Stdlib Require Import String.
From stdpp Require Import strings.
#[local] Open Scope N_scope.

(** ** The supply model *)

(** crates/spar-analysis/src/arinc_supply.rs:89-91 [derived_jitter] *)
Definition derived_jitter (period budget : u64) : u64 := sat_mul 2 (sat_sub period budget).

(** crates/spar-analysis/src/arinc_supply.rs:96-104 [lsbf] *)
Definition lsbf (period budget t : u64) : Exec u64 :=
  if period =? 0 then Panic
  else
    let blackout := derived_jitter period budget in
    if t <=? blackout then Done 0
    else div_checked (sat_mul budget (t - blackout)) period.

(** crates/spar-analysis/src/arinc_supply.rs:113-119 [rbf] *)
Definition rbf (exec blocking : u64) (hp : list (u64 * u64 * u64)) (t : u64) : Exec u64 :=
  sum_loop (λ '(period, c, extra_j), interference_jittered period c extra_j t) hp (sat_add exec blocking).

(** crates/spar-analysis/src/arinc_supply.rs:123-138 [SupplyRtaOutcome] *)
Inductive SupplyRtaOutcome :=
  | JitterPath (response busy_window : u64)
  | FallbackPath (response : u64)
  | DeadlineMiss (response : u64)
  | Unschedulable
  | IllFormed
  | DeclinedExtraJitter.

(** crates/spar-analysis/src/arinc_supply.rs:143-151 [is_error] *)
Definition is_error (o : SupplyRtaOutcome) : bool :=
  match o with
  | DeadlineMiss _ | Unschedulable | IllFormed | DeclinedExtraJitter => true
  | _ => false
  end.

(** crates/spar-analysis/src/arinc_supply.rs:255-273 [fallback_demand_vs_supply]: the
    body of the loop. *)
Definition fallback_body (period budget exec deadline blocking : u64) (hp : list (u64 * u64 * u64))
    (t : u64) : Exec (u64 + SupplyRtaOutcome) :=
  let blackout := derived_jitter period budget in
  demand ← rbf exec blocking hp t;
  q ← ceil_div (sat_mul demand period) budget;
  let t_next := sat_add blackout q in
  if deadline <? t_next then Done (inr Unschedulable)
  else
    r ← rbf exec blocking hp t_next;
    s ← lsbf period budget t_next;
    Done (if r <=? s then inr (FallbackPath t_next)
          else if t_next =? t then inr Unschedulable
          else inl t_next).

(** crates/spar-analysis/src/arinc_supply.rs:236-275 [fallback_demand_vs_supply] *)
Definition fallback_demand_vs_supply (period budget exec deadline blocking : u64)
    (hp : list (u64 * u64 * u64)) : Exec SupplyRtaOutcome :=
  let blackout := derived_jitter period budget in
  if deadline <=? blackout then Done Unschedulable
  else
    o ← loop_upto (fallback_body period budget exec deadline blocking hp)
          (N.of_nat (length hp) + 2 + 1) blackout;
    Done (match o with inl _ => Unschedulable | inr res => res end).

(** crates/spar-analysis/src/arinc_supply.rs:167-225 [analyze_task] *)
Definition analyze_task (period budget exec deadline blocking own_extra_jitter : u64)
    (hp : list (u64 * u64 * u64)) (isr : list (u64 * u64)) : Exec SupplyRtaOutcome :=
  if (period =? 0) || (budget =? 0) || (period <? budget) then Done IllFormed
  else
    let blackout := derived_jitter period budget in
    let hp_jittered := (λ '(t, c, extra), (t, c, sat_add blackout extra)) <$> hp in
    res ← compute_response_time_jittered_blocking exec budget 0 blocking hp_jittered isr;
    match res with
    | Converged w =>
        let response := sat_add (sat_add blackout own_extra_jitter) w in
        Done (if response <=? deadline then JitterPath response w else DeadlineMiss response)
    | Diverged =>
        let any_extra := (0 <? own_extra_jitter) || existsb (λ '(_, _, e), 0 <? e) hp in
        if any_extra then Done DeclinedExtraJitter
        else fallback_demand_vs_supply period budget exec deadline blocking hp
    end.

(** ** The pass *)

(** crates/spar-analysis/src/arinc_supply.rs:291-304 [InnerTask] *)
Record InnerTask := {
  it_comp_idx : ComponentInstanceIdx;
  it_name : string;
  it_period : u64;
  it_exec : u64;
  it_deadline : u64;
  it_segment : u64;
  it_extra_jitter : u64;
  it_priority : option u64;
}.

(** crates/spar-analysis/src/arinc_supply.rs:422-428 [owning_partition]: the walk to
    the root, on fuel. *)
Fixpoint owning_partition_from (inst : SystemInstance) (fuel : nat) (current : option ComponentInstanceIdx)
  : Exec (option ComponentInstanceIdx) :=
  match current with
  | None => Done None
  | Some ci =>
      match fuel with
      | O => Stuck
      | S n =>
          c ← component inst ci;
          if bool_decide (category c = VirtualProcessor) then Done (Some ci)
          else owning_partition_from inst n (parent c)
      end
  end.

(** crates/spar-analysis/src/arinc_supply.rs:417-429 [owning_partition] *)
Definition owning_partition (inst : SystemInstance) (idx : ComponentInstanceIdx)
  : Exec (option ComponentInstanceIdx) :=
  c ← component inst idx; owning_partition_from inst (length (components inst)) (parent c).

(** crates/spar-analysis/src/arinc_supply.rs:320-358 [analyze]: what the loop collects
    for one component, the partition and the task. *)
Definition inner_task (inst : SystemInstance) (ic : ComponentInstanceIdx * ComponentInstance)
  : Exec (option (ComponentInstanceIdx * InnerTask)) :=
  let '(idx, comp) := ic in
  let props := properties_for inst idx in
  if negb (bool_decide (category comp = Thread)) then Done None
  else if is_some (get_processor_binding props) then Done None
  else
    vp ← owning_partition inst idx;
    match vp with
    | None => Done None
    | Some vp_idx =>
        Quantities.and_thenM (get_timing_property props "Period") (λ period,
        Quantities.and_thenM (get_execution_time props) (λ exec,
          deadline ← get_timing_property props "Deadline";
          segment ← get_timing_property props "Poll_Segment_Time";
          extra_jitter ← get_timing_property props "Dispatch_Jitter";
          Done (Some (vp_idx,
            {| it_comp_idx := idx; it_name := name comp; it_period := period; it_exec := exec;
               it_deadline := default period deadline; it_segment := default exec segment;
               it_extra_jitter := default 0 extra_jitter; it_priority := get_priority props |}))))
    end.

(** crates/spar-analysis/src/arinc_supply.rs:317-358 [analyze]: the tasks by
    partition. *)
Definition group_tasks (tasks : list (ComponentInstanceIdx * InnerTask))
  : list (ComponentInstanceIdx * list InnerTask) :=
  foldl (λ by_vp '(vp_idx, task), bt_alter (λ ts, default [] ts ++ [task]) vp_idx by_vp) [] tasks.

(** crates/spar-analysis/src/arinc_supply.rs:376-378 [analyze]: the comparator. *)
Definition task_order (a b : InnerTask) : comparison :=
  dispatch_order (it_priority a) (it_period a) (it_priority b) (it_period b).

(** [iter().max().unwrap_or(0)] *)
Definition max_or_0 (xs : list u64) : u64 := foldr N.max 0 xs.

(** crates/spar-analysis/src/arinc_supply.rs:381-399 [analyze]: the analysis of the
    task between those of higher and of lower priority. *)
Definition analyze_inner (period_pi budget_theta : u64) (higher : list InnerTask) (task : InnerTask)
    (lower : list InnerTask) : Exec SupplyRtaOutcome :=
  let hp := (λ t, (it_period t, it_exec t, it_extra_jitter t)) <$> higher in
  let blocking := max_or_0 (it_segment <$> lower) in
  analyze_task period_pi budget_theta (it_exec task) (it_deadline task) blocking
    (it_extra_jitter task) hp [].

(** [{}] of a [u64]. *)
Definition fmt_u64 (n : u64) : string := string_of_list_ascii (show_u64 n).

(** crates/spar-analysis/src/arinc_supply.rs:432-512 [diagnostic_for] *)
Definition diagnostic_for (analysis : string) (inst : SystemInstance) (task : InnerTask)
    (vp_name : string) (period_pi budget_theta : u64) (outcome : SupplyRtaOutcome)
  : Exec AnalysisDiagnostic :=
  let blackout := derived_jitter period_pi budget_theta in
  path ← component_path inst (it_comp_idx task);
  let inner := ("inner thread '" +:+ it_name task +:+ "' under partition '" +:+ vp_name +:+
    "' (Π=" +:+ fmt_u64 period_pi +:+ ", Θ=" +:+ fmt_u64 budget_theta +:+ ")")%string in
  let deadline := fmt_u64 (it_deadline task) in
  let '(severity, message) :=
    match outcome with
    | JitterPath response busy_window =>
        (Info, inner +:+ ": supply-derived response time " +:+ fmt_u64 response +:+ " = 2(Π−Θ)=" +:+
          fmt_u64 blackout +:+ " + w=" +:+ fmt_u64 busy_window +:+
          " (w≤Θ jitter path) <= deadline " +:+ deadline +:+ " (ARINC-SUPPLY-RTA)")
    | FallbackPath response =>
        (Info, inner +:+ ": supply-derived response time " +:+ fmt_u64 response +:+
          " via demand-vs-supply fallback (w>Θ; rbf≤lsbf) <= deadline " +:+ deadline +:+
          " (ARINC-SUPPLY-RTA)")
    | DeadlineMiss response =>
        (Error, inner +:+ " misses deadline: supply-derived response time " +:+ fmt_u64 response +:+
          " > deadline " +:+ deadline +:+ " (ARINC-SUPPLY-RTA)")
    | Unschedulable =>
        (Error, inner +:+ " is unschedulable: no t <= deadline " +:+ deadline +:+
          " satisfies rbf(t) <= lsbf(t) (ARINC-SUPPLY-RTA)")
    | IllFormed =>
        (Error, "partition '" +:+ vp_name +:+ "' enclosing inner thread '" +:+ it_name task +:+
          "' is ill-formed: require 0 < Θ (" +:+ fmt_u64 budget_theta +:+ ") <= Π (" +:+
          fmt_u64 period_pi +:+ ") (ARINC-SUPPLY-RTA)")
    | DeclinedExtraJitter =>
        (Error, inner +:+ ": declined — busy window exceeds Θ (fallback path) while explicit " +:+
          "Dispatch_Jitter is present; the v1 supply fallback is scoped to zero extra jitter " +:+
          "(ARINC-SUPPLY-RTA)")
    end%string in
  Done {| severity := severity; message := message; path := path; analysis := analysis |}.

Definition pass_name : string := "arinc653_supply_rta".

(** crates/spar-analysis/src/arinc_supply.rs:380-409 [analyze]: the loop over the
    sorted tasks of a partition, [higher] those before. *)
Fixpoint analyze_partition (inst : SystemInstance) (vp_name : string) (period_pi budget_theta : u64)
    (higher tasks : list InnerTask) : Exec (list AnalysisDiagnostic) :=
  match tasks with
  | [] => Done []
  | task :: lower =>
      outcome ← analyze_inner period_pi budget_theta higher task lower;
      d ← diagnostic_for pass_name inst task vp_name period_pi budget_theta outcome;
      ds ← analyze_partition inst vp_name period_pi budget_theta (higher ++ [task]) lower;
      Done (d :: ds)
  end.

(** crates/spar-analysis/src/arinc_supply.rs:360-410 [analyze]: one partition. *)
Definition analyze_group (inst : SystemInstance) (tasks : list InnerTask) : Exec (list AnalysisDiagnostic) :=
  match tasks with
  | [] => Panic
  | task0 :: _ =>
      vp ← owning_partition inst (it_comp_idx task0);
      match vp with
      | None => Panic
      | Some vp_idx =>
          let vp_props := properties_for inst vp_idx in
          vp_comp ← component inst vp_idx;
          let vp_name := name vp_comp in
          period ← get_timing_property vp_props "Period";
          match period with
          | None => Done []
          | Some period_pi =>
              budget ← get_execution_time_or_exec vp_props;
              match budget with
              | None => Done []
              | Some budget_theta =>
                  analyze_partition inst vp_name period_pi budget_theta [] (sort_by task_order tasks)
              end
          end
      end
  end.

(** crates/spar-analysis/src/arinc_supply.rs:311-413 [analyze] *)
Definition analyze (inst : SystemInstance) : Exec (list AnalysisDiagnostic) :=
  tasks ← concatM (λ ic, o ← inner_task inst ic; Done (option_list o)) (all_components inst);
  concatM (λ '(_, ts), analyze_group inst ts) (group_tasks tasks).

(** ** Examples: values of the test suite *)
Example analyze_task_golden :
  analyze_task 1000 300 20 5000 100 0 [] [] = Done (JitterPath 1520 120) ∧
  analyze_task 1000 300 50 10000 100 0 [(5000, 20, 0)] [] = Done (JitterPath 1570 170) ∧
  analyze_task 1000 300 350 5000 0 0 [] [] = Done (FallbackPath 2567) ∧
  analyze_task 1000 300 400 1000 0 0 [] [] = Done Unschedulable ∧
  analyze_task 1000 300 350 5000 0 200 [] [] = Done DeclinedExtraJitter ∧
  analyze_task 300 1000 20 5000 0 0 [] [] = Done IllFormed.
Proof. by vm_compute. Qed.

(** ** Soundness and exactness of the partition analysis

    Demand and supply on unbounded integers, what each outcome of
    [analyze_task] means, and when the demand-versus-supply loop finds the
    least window. *)
(** The longest time without supply, the linear lower bound of the supply in
    a window, and the demand in it. *)
Definition blackout (period budget : N) : N := 2 * (period - budget).
Definition supply (period budget t : N) : N := budget * (t - blackout period budget) / period.
Definition request (exec blocking : N) (hp : list (u64 * u64 * u64)) (t : N) : N :=
  exec + blocking + demand_jittered hp t.

Lemma request_mono exec blocking hp t t' : t ≤ t' → request exec blocking hp t ≤ request exec blocking hp t'.
Proof. intros H%(demand_jittered_mono hp). unfold request. lia. Qed.

Lemma rbf_exact exec blocking hp deadline t :
  jitters_ok deadline hp → t ≤ deadline →
  rbf exec blocking hp t = Done (N.min (request exec blocking hp t) U64_MAX).
Proof.
  intros H Ht. unfold rbf, sat_add.
  rewrite (sum_loop_exact _ (λ hp, ceil_quot (t + snd hp) (fst (fst hp)) * snd (fst hp))).
  - unfold request, demand_jittered. do 2 f_equal. clear H.
    f_equal. induction hp as [|[[p e] j] hps IH]; simpl in *; [done|]. lia.
  - eapply Forall_impl; [exact H|]. intros [[p e] j] [Hp Hj]. simpl in *.
    unfold interference_jittered. rewrite sat_add_exact by lia. by apply interference_exact.
Qed.

Lemma derived_jitter_exact period budget :
  2 * period ≤ U64_MAX → derived_jitter period budget = blackout period budget.
Proof. intros H. unfold derived_jitter, sat_mul, sat_sub, blackout. lia. Qed.

(** ** The demand-versus-supply loop *)
Section fallback.
Context (period budget exec deadline blocking : u64) (hp : list (u64 * u64 * u64)).
Context (Hb : 0 < budget ≤ period) (Hp : 2 * period ≤ U64_MAX) (Hd : deadline < U64_MAX).
Context (Hh : jitters_ok deadline hp).

Local Notation B := (blackout period budget).
Local Notation req := (request exec blocking hp).
Local Notation body := (fallback_body period budget exec deadline blocking hp).

Lemma supply_le t : supply period budget t ≤ t.
Proof. unfold supply. apply N.Div0.div_le_upper_bound. nia. Qed.

Lemma lsbf_le t :
  ∃ s, lsbf period budget t = Done s ∧ s ≤ supply period budget t ∧
    (budget * t ≤ U64_MAX → s = supply period budget t).
Proof.
  unfold lsbf. rewrite derived_jitter_exact by done. destruct (N.eqb_spec period 0); [lia|].
  destruct (N.leb_spec t B) as [Ht|Ht].
  - exists 0. split_and!; [done|lia|]. intros _. unfold supply.
    replace (t - B) with 0 by lia. by rewrite N.mul_0_r, N.Div0.div_0_l.
  - unfold div_checked. destruct (N.eqb_spec period 0); [lia|]. eexists. split; [done|].
    unfold sat_mul, supply. split; [apply div_mono; lia|].
    intros H. f_equal. assert (budget * (t - B) ≤ budget * t) by (apply N.mul_le_mono_l; lia). lia.
Qed.

(** The next window tried. *)
Definition next (t : N) : N := B + ceil_quot (req t * period) budget.

Lemma next_window_mono t t' : t ≤ t' → next t ≤ next t'.
Proof.
  intros H. unfold next. apply N.add_le_mono_l, ceil_quot_mono, N.mul_le_mono_r. by apply request_mono.
Qed.

(** From the blackout on, a window is long enough when the next is not
    longer. *)
Lemma fits_supply t : B ≤ t → fits_in next t ↔ req t ≤ supply period budget t.
Proof.
  intros Ht. unfold fits_in, next, supply. rewrite div_le_spec by lia.
  rewrite (N.mul_comm budget). rewrite <- (ceil_quot_spec _ budget) by lia. lia.
Qed.

(** What an iteration decides, whatever saturates. *)
Lemma fallback_body_sound t :
  t ≤ deadline →
  match body t with
  | Done (inl t') => t' ≤ deadline
  | Done (inr (FallbackPath r)) => r ≤ deadline ∧ req r ≤ supply period budget r
  | Done (inr o) => o = Unschedulable
  | _ => False
  end.
Proof.
  intros Ht. unfold fallback_body. rewrite (rbf_exact _ _ _ deadline) by done.
  cbn [mbind Exec_bind]. unfold ceil_div, div_ceil. destruct (N.eqb_spec budget 0); [lia|].
  cbn [mbind Exec_bind]. set (tn := sat_add _ _). destruct (N.ltb_spec deadline tn) as [|Htn]; [done|].
  rewrite (rbf_exact _ _ _ deadline) by done. cbn [mbind Exec_bind].
  destruct (lsbf_le tn) as (s & -> & Hs & _). cbn [mbind Exec_bind].
  destruct (N.leb_spec (N.min (req tn) U64_MAX) s) as [Hle|Hgt].
  - split; [done|]. pose proof (supply_le tn). lia.
  - by destruct (N.eqb_spec tn t).
Qed.

Lemma fallback_loop_sound n t :
  t ≤ deadline →
  match loop_upto_nat body n t with
  | Done (inl t') => t' ≤ deadline
  | Done (inr (FallbackPath r)) => r ≤ deadline ∧ req r ≤ supply period budget r
  | Done (inr o) => o = Unschedulable
  | _ => False
  end.
Proof.
  revert t. induction n as [|n IH]; intros t Ht; [done|]. cbn [loop_upto_nat].
  pose proof (fallback_body_sound t Ht) as H. destruct (body t) as [[t'|o]| |]; [|done..].
  by apply IH.
Qed.

Lemma fallback_sound :
  ∃ o, fallback_demand_vs_supply period budget exec deadline blocking hp = Done o ∧
    match o with
    | FallbackPath r => r ≤ deadline ∧ req r ≤ supply period budget r
    | _ => o = Unschedulable
    end.
Proof.
  unfold fallback_demand_vs_supply. rewrite derived_jitter_exact by done.
  destruct (N.leb_spec deadline B) as [|Hlt]; [by eexists|]. rewrite loop_upto_eq.
  pose proof (fallback_loop_sound (N.to_nat (N.of_nat (length hp) + 2 + 1)) B ltac:(lia)) as H.
  destruct (loop_upto_nat _ _ _) as [[t'|o]| |]; [| |done..]; (eexists; split; [done|]); [done|].
  by destruct o.
Qed.

(** ** The loop when no product saturates *)

(** The dispatches of higher-priority tasks in a window. *)
Definition releases (t : N) : N := foldr (λ '(p, _, j), N.add (ceil_quot (t + j) p)) 0 hp.

Lemma releases_mono t t' : t ≤ t' → releases t ≤ releases t'.
Proof.
  intros H. unfold releases. clear Hh. induction hp as [|[[p e] j] l IH]; simpl; [lia|].
  pose proof (ceil_quot_mono (t + j) (t' + j) p ltac:(lia)). lia.
Qed.

(** Demand grows only when something is released. *)
Lemma request_grows t t' : t ≤ t' → req t < req t' → releases t < releases t'.
Proof.
  intros Ht Hr. apply N.nle_gt. intros Hle. unfold request, demand_jittered, releases in *.
  clear Hh. enough (E : foldr (λ '(p, e, j), N.add (ceil_quot (t' + j) p * e)) 0 hp =
                        foldr (λ '(p, e, j), N.add (ceil_quot (t + j) p * e)) 0 hp) by lia.
  clear Hr. induction hp as [|[[p e] j] l IH]; simpl in *; [done|].
  pose proof (ceil_quot_mono (t + j) (t' + j) p ltac:(lia)).
  assert (foldr (λ '(p, _, j), N.add (ceil_quot (t + j) p)) 0 l ≤
          foldr (λ '(p, _, j), N.add (ceil_quot (t' + j) p)) 0 l).
  { clear -Ht. induction l as [|[[p e] j] l IH]; simpl; [lia|].
    pose proof (ceil_quot_mono (t + j) (t' + j) p ltac:(lia)). lia. }
  rewrite IH by lia. do 2 f_equal. lia.
Qed.

Context (Ho1 : req deadline * period ≤ U64_MAX) (Ho2 : budget * deadline ≤ U64_MAX).

(** An iteration from a lower bound decides, or climbs past a release. *)
Lemma fallback_body_exact t :
  B ≤ t ≤ deadline → t ≤ next t → (∀ x, B ≤ x → fits_in next x → t ≤ x) →
  (next t ≤ deadline ∧ fits_in next (next t) ∧ body t = Done (inr (FallbackPath (next t)))) ∨
  ((∀ x, B ≤ x → fits_in next x → deadline < x) ∧ body t = Done (inr Unschedulable)) ∨
  (next t ≤ deadline ∧ releases t < releases (next t) ∧ body t = Done (inl (next t))).
Proof.
  intros Ht Hn Hl. unfold fallback_body. rewrite (rbf_exact _ _ _ deadline) by (done || lia).
  assert (Hr : ∀ t, t ≤ deadline → req t * period ≤ U64_MAX).
  { intros x Hx. etrans; [|exact Ho1]. by apply N.mul_le_mono_r, request_mono. }
  assert (Hr' : ∀ t, t ≤ deadline → req t ≤ U64_MAX) by (intros x Hx; specialize (Hr x Hx); nia).
  rewrite (N.min_l _ _ (Hr' t ltac:(lia))).
  cbn [mbind Exec_bind]. unfold ceil_div, div_ceil. destruct (N.eqb_spec budget 0); [lia|].
  cbn [mbind Exec_bind]. rewrite derived_jitter_exact by done.
  replace (sat_mul (req t) period) with (req t * period)
    by (unfold sat_mul; specialize (Hr t); lia).
  fold (next t). replace (sat_add B _) with (N.min (next t) U64_MAX) by done.
  destruct (N.ltb_spec deadline (N.min (next t) U64_MAX)) as [Hlt|Hge].
  { right; left. split; [|done]. intros x Hx Hf. pose proof (next_window_mono t x (Hl x Hx Hf)).
    unfold fits_in in Hf. lia. }
  rewrite N.min_l in * by lia. rewrite (rbf_exact _ _ _ deadline) by done.
  rewrite (N.min_l _ _ (Hr' _ Hge)). cbn [mbind Exec_bind].
  destruct (lsbf_le (next t)) as (s & -> & _ & Hs). cbn [mbind Exec_bind].
  rewrite Hs by (etrans; [apply N.mul_le_mono_l, Hge|done]).
  assert (HB : B ≤ next t) by (unfold next; lia).
  destruct (N.leb_spec (req (next t)) (supply period budget (next t))) as [Hle|Hgt].
  { left. rewrite <- fits_supply in Hle by done. done. }
  assert (Hnf : ¬ fits_in next (next t)) by (rewrite fits_supply by done; lia).
  destruct (N.eqb_spec (next t) t) as [E|E].
  { exfalso. apply Hnf. unfold fits_in. rewrite !E. lia. }
  right; right. split_and!; [done| |done]. apply request_grows; [done|].
  apply N.nle_gt. intros Hle. apply Hnf. unfold fits_in, next at 1 3.
  by apply N.add_le_mono_l, ceil_quot_mono, N.mul_le_mono_r.
Qed.

Lemma fallback_loop_exact n t :
  B ≤ t ≤ deadline → t ≤ next t → (∀ x, B ≤ x → fits_in next x → t ≤ x) →
  ∃ o, loop_upto_nat body n t = Done o ∧
    match o with
    | inl t' => releases t + N.of_nat n ≤ releases deadline
    | inr (FallbackPath r) =>
        B ≤ r ≤ deadline ∧ fits_in next r ∧ ∀ x, B ≤ x → fits_in next x → r ≤ x
    | inr o => o = Unschedulable ∧ ∀ x, B ≤ x → fits_in next x → deadline < x
    end.
Proof.
  revert t. induction n as [|n IH]; intros t Ht Hn Hl; cbn [loop_upto_nat].
  { eexists. split; [done|]. rewrite N.add_0_r. apply releases_mono, Ht. }
  assert (HB : B ≤ next t) by (unfold next; lia).
  assert (Hl' : ∀ x, B ≤ x → fits_in next x → next t ≤ x).
  { intros x Hx Hf. pose proof (next_window_mono t x (Hl x Hx Hf)). unfold fits_in in Hf. lia. }
  destruct (fallback_body_exact t Ht Hn Hl) as [(Hd' & Hf & ->)|[[Hno ->]|(Hd' & Hrel & ->)]].
  - by eexists.
  - by eexists.
  - cbn [then_loop mbind Exec_bind].
    destruct (IH (next t)) as (o & -> & Ho); [done|by apply next_window_mono|done|].
    eexists. split; [done|]. destruct o; [lia|done].
Qed.

(** With at most [hp.len() + 2] releases between the blackout and the
    deadline the iterations are enough. *)
Lemma fallback_exact :
  releases deadline ≤ releases B + N.of_nat (length hp) + 2 →
  ∃ o, fallback_demand_vs_supply period budget exec deadline blocking hp = Done o ∧
    match o with
    | FallbackPath r =>
        B ≤ r ≤ deadline ∧ req r ≤ supply period budget r ∧
        ∀ x, B ≤ x → req x ≤ supply period budget x → r ≤ x
    | _ => o = Unschedulable ∧ ∀ x, B < x → req x ≤ supply period budget x → deadline < x
    end.
Proof.
  intros Hrel. unfold fallback_demand_vs_supply. rewrite derived_jitter_exact by done.
  destruct (N.leb_spec deadline B) as [|Hlt]; [eexists; split; [done|]; split; [done|]; lia|].
  rewrite loop_upto_eq.
  destruct (fallback_loop_exact (N.to_nat (N.of_nat (length hp) + 2 + 1)) B) as (o & -> & Ho);
    [lia|unfold next; lia|lia|]. eexists. split; [done|]. destruct o as [t'|o]; [lia|].
  destruct o as [|r| | | |]; try (split; [by destruct Ho|]; intros x Hx Hf; apply (proj2 Ho);
    [lia|]; apply fits_supply; [lia|done]).
  destruct Ho as (H1 & H2 & H3). split; [done|]. split; [apply fits_supply; [lia|done]|].
  intros x Hx Hf. apply H3; [done|]. by apply fits_supply.
Qed.
End fallback.

(** ** The outcomes *)

(** Tasks of higher priority with the blackout as additional jitter. *)
Definition blacked_out (period budget : N) (hp : list (u64 * u64 * u64)) : list (u64 * u64 * u64) :=
  (λ '(t, c, extra), (t, c, blackout period budget + extra)) <$> hp.

Definition extra_jitter (own : N) (hp : list (u64 * u64 * u64)) : Prop :=
  0 < own ∨ Exists (λ hp, 0 < snd hp) hp.

#[local] Instance extra_jitter_dec own hp : Decision (extra_jitter own hp).
Proof. unfold extra_jitter. apply _. Defined.

Lemma extra_jitter_test own hp :
  (0 <? own) || existsb (λ '(_, _, e), 0 <? e) hp = true ↔ extra_jitter own hp.
Proof.
  unfold extra_jitter. rewrite orb_true_iff, N.ltb_lt, existsb_exists, List.Exists_exists.
  f_equiv. f_equiv. intros [[t c] e]. by rewrite N.ltb_lt.
Qed.

(** A resource whose windows, with the jitters of the tasks, are in 64 bits. *)
Record widths_ok (period budget deadline own_extra_jitter : N) (hp : list (u64 * u64 * u64)) : Prop := {
  w_period : 2 * period ≤ U64_MAX;
  w_deadline : deadline < U64_MAX;
  w_own : 2 * period + own_extra_jitter < U64_MAX;
  w_hp : Forall (λ hp, 0 < fst (fst hp) ∧ 2 * period + snd hp ≤ U64_MAX ∧ deadline + snd hp ≤ U64_MAX) hp;
}.

(** The busy window decides between the two paths. *)
Lemma analyze_task_busy period budget exec deadline blocking own_extra_jitter hp isr :
  widths_ok period budget deadline own_extra_jitter hp → periods_ok isr → 0 < budget ≤ period →
  ∃ res,
    least_or_none (response_jittered exec 0 blocking (blacked_out period budget hp) isr) budget res ∧
    (∀ w, res = Converged w → w ≤ budget) ∧
    analyze_task period budget exec deadline blocking own_extra_jitter hp isr =
    match res with
    | Converged w =>
        let response := blackout period budget + own_extra_jitter + w in
        Done (if response <=? deadline then JitterPath response w else DeadlineMiss response)
    | Diverged =>
        if bool_decide (extra_jitter own_extra_jitter hp) then Done DeclinedExtraJitter
        else fallback_demand_vs_supply period budget exec deadline blocking hp
    end.
Proof.
  intros [W1 W2 W3 W4] Hi Hb. unfold analyze_task.
  destruct (N.eqb_spec period 0), (N.eqb_spec budget 0), (N.ltb_spec period budget); try lia.
  cbn [orb]. rewrite derived_jitter_exact by done.
  assert (E : ((λ '(t, c, extra), (t, c, sat_add (blackout period budget) extra)) <$> hp) =
              blacked_out period budget hp).
  { apply list_fmap_ext. intros i [[t c] e] Hin. apply (Forall_lookup_1 _ _ _ _ W4) in Hin. cbn in Hin.
    f_equal. apply sat_add_exact. unfold blackout. lia. }
  rewrite E.
  destruct (compute_blocking_spec exec budget 0 blocking (blacked_out period budget hp) isr)
    as (res & -> & Hres & Hc); [lia| |done|].
  { apply Forall_fmap. eapply Forall_impl; [exact W4|]. intros [[t c] e]. cbn. unfold blackout. lia. }
  exists res. split; [done|]. split; [done|]. cbn [mbind Exec_bind]. destruct res as [w|].
  - specialize (Hc _ eq_refl). rewrite (sat_add_exact (blackout period budget)) by (unfold blackout; lia).
    by rewrite sat_add_exact by (unfold blackout; lia).
  - destruct ((0 <? own_extra_jitter) || _) eqn:Ex.
    + rewrite bool_decide_eq_true_2; [done|]. by apply extra_jitter_test.
    + rewrite bool_decide_eq_false_2; [done|]. rewrite <- extra_jitter_test. by rewrite Ex.
Qed.

Lemma widths_jitters period budget deadline own hp :
  widths_ok period budget deadline own hp → jitters_ok deadline hp.
Proof. intros []. eapply Forall_impl; [done|]. cbn. tauto. Qed.

(** C16: what each outcome of the analysis means.  When no task of higher
    priority and no interrupt has a period of 0 (which the code divides by,
    and panics: [higher_priority_period_zero]), and twice the partition
    period, with the extra jitter of the task or of one of higher priority,
    and the deadline with the latter stay below 2^64 - 1, the analysis
    returns.  It says [IllFormed] exactly when the budget is 0 or longer than
    the period.  [JitterPath] and [DeadlineMiss] carry the least busy window
    with the blackout as jitter, which fits the budget; their response is the
    blackout, the own jitter and that window, tested against the deadline.
    Otherwise no busy window fits the budget, extra jitter is declined, and a
    [FallbackPath] response is within the deadline and long enough for the
    supply bound to cover the demand of the task and of the tasks of higher
    priority, even where products saturate; the interrupts are left out of
    that demand. *)
Theorem analyze_task_sound period budget exec deadline blocking own_extra_jitter hp isr :
  widths_ok period budget deadline own_extra_jitter hp → periods_ok isr →
  let busy := response_jittered exec 0 blocking (blacked_out period budget hp) isr in
  let response w := blackout period budget + own_extra_jitter + w in
  ∃ o, analyze_task period budget exec deadline blocking own_extra_jitter hp isr = Done o ∧
    (o = IllFormed ↔ ¬ (0 < budget ≤ period)) ∧
    match o with
    | IllFormed => True
    | JitterPath r w =>
        least_or_none busy budget (Converged w) ∧ w ≤ budget ∧ r = response w ∧ r ≤ deadline
    | DeadlineMiss r =>
        ∃ w, least_or_none busy budget (Converged w) ∧ w ≤ budget ∧ r = response w ∧ deadline < r
    | DeclinedExtraJitter =>
        least_or_none busy budget Diverged ∧ extra_jitter own_extra_jitter hp
    | FallbackPath r =>
        least_or_none busy budget Diverged ∧ ¬ extra_jitter own_extra_jitter hp ∧
        r ≤ deadline ∧ request exec blocking hp r ≤ supply period budget r
    | Unschedulable =>
        least_or_none busy budget Diverged ∧ ¬ extra_jitter own_extra_jitter hp
    end.
Proof.
  intros W Hi busy response.
  destruct (decide (0 < budget ≤ period)) as [Hb|Hb].
  2: { exists IllFormed. split; [|done]. unfold analyze_task. destruct (N.eqb_spec period 0),
         (N.eqb_spec budget 0), (N.ltb_spec period budget); try done. exfalso. apply Hb. lia. }
  destruct (analyze_task_busy period budget exec deadline blocking own_extra_jitter hp isr W Hi Hb)
    as (res & Hres & Hc & ->). pose proof (widths_jitters _ _ _ _ _ W) as Hj.
  destruct W as [W1 W2 _ _]. fold busy in Hres. destruct res as [w|].
  - specialize (Hc _ eq_refl). fold (response w). cbn zeta.
    destruct (N.leb_spec (response w) deadline); (eexists; split; [done|]); (split; [done|]); [done|].
    by exists w.
  - case_bool_decide as Hex; [by eexists|].
    destruct (fallback_sound period budget exec deadline blocking hp) as (o & -> & Ho); [done..|].
    eexists. split; [done|]. destruct o; try done; by repeat split; try lia.
Qed.

(** C17: the demand-versus-supply path is exact when no product of the
    comparison leaves 64 bits and at most [hp.len() + 2] dispatches of higher
    priority fall between the blackout and the deadline: its response is the
    least window from the blackout on whose supply covers the demand, and
    [Unschedulable] means that no window up to the deadline does.  Periods and
    widths are as for [analyze_task_sound]. *)
Theorem analyze_task_fallback_exact period budget exec deadline blocking hp isr :
  widths_ok period budget deadline 0 hp → periods_ok isr → 0 < budget ≤ period →
  ¬ extra_jitter 0 hp →
  request exec blocking hp deadline * period ≤ U64_MAX → budget * deadline ≤ U64_MAX →
  releases hp deadline ≤ releases hp (blackout period budget) + N.of_nat (length hp) + 2 →
  least_or_none (response_jittered exec 0 blocking (blacked_out period budget hp) isr) budget Diverged →
  let covers x := request exec blocking hp x ≤ supply period budget x in
  ∃ o, analyze_task period budget exec deadline blocking 0 hp isr = Done o ∧
    match o with
    | FallbackPath r =>
        blackout period budget ≤ r ≤ deadline ∧ covers r ∧
        ∀ x, blackout period budget ≤ x → covers x → r ≤ x
    | _ => o = Unschedulable ∧ ∀ x, blackout period budget < x → covers x → deadline < x
    end.
Proof.
  intros W Hi Hb Hex H1 H2 H3 Hdiv covers.
  destruct (analyze_task_busy period budget exec deadline blocking 0 hp isr W Hi Hb)
    as (res & Hres & Hc & ->).
  assert (res = Diverged) as ->.
  { eapply (least_or_none_unique _ budget); [exact Hres|exact Hdiv|exact Hc|done]. }
  rewrite bool_decide_eq_false_2 by done. pose proof (widths_jitters _ _ _ _ _ W) as Hj.
  destruct W as [W1 W2 _ _]. by apply fallback_exact.
Qed.

(** ** Witnesses: a partition of period 1000 and budget 300 *)
Definition hp_ex : list (u64 * u64 * u64) := [(5000, 20, 0)].

Lemma widths_ex : widths_ok 1000 300 5000 0 hp_ex.
Proof. split; [by vm_compute..|]. by repeat constructor. Defined.

(** A period of 0 among the tasks of higher priority divides by zero. *)
Example higher_priority_period_zero : analyze_task 1000 300 50 5000 100 0 [(0, 20, 0)] [] = Panic.
Proof. by vm_compute. Qed.

Lemma analyze_task_sound_witness :
  ∃ o, analyze_task 1000 300 50 5000 100 0 hp_ex [] = Done o ∧ (o = IllFormed ↔ ¬ (0 < 300 ≤ 1000)).
Proof.
  destruct (analyze_task_sound 1000 300 50 5000 100 0 hp_ex []) as (o & Ho & Hi & _);
    [apply widths_ex|constructor|]. exists o. exact (conj Ho Hi).
Defined.

Lemma analyze_task_fallback_exact_witness :
  analyze_task 1000 300 350 5000 0 0 hp_ex [] = Done (FallbackPath 2634) ∧
  ∃ o, analyze_task 1000 300 350 5000 0 0 hp_ex [] = Done o ∧ o ≠ IllFormed.
Proof.
  split; [by vm_compute|].
  destruct (analyze_task_fallback_exact 1000 300 350 5000 0 hp_ex []) as (o & Ho & Hm);
    [apply widths_ex|constructor|done| |by vm_compute|by vm_compute|by vm_compute| |].
  - rewrite <- extra_jitter_test. by vm_compute.
  - intros x Hx. unfold fits_in, response_jittered in Hx. lia.
  - exists o. split; [done|]. intros ->. by destruct Hm.
Defined.

(** ** What the hypotheses leave out *)

(** More plateaus than iterations: a window of 50 would do, and the analysis
    says that none up to 100 does. *)
Example fallback_gives_up :
  analyze_task 1 1 5 100 0 0 [(10, 9, 0)] [] = Done Unschedulable ∧
  request 5 0 [(10, 9, 0)] 50 ≤ supply 1 1 50.
Proof. split; [by vm_compute|]. by apply N.leb_le. Qed.

(** Saturation: 6 ms of work in a partition that gives 5 ms in every 10 ms, in
    the picoseconds the pass uses. *)
Example fallback_saturates :
  let ms := 1000000000 in
  analyze_task (10 * ms) (5 * ms) (6 * ms) (100 * ms) 0 0 [] [] = Done Unschedulable ∧
  request (6 * ms) 0 [] (22 * ms) ≤ supply (10 * ms) (5 * ms) (22 * ms).
Proof. split; [by vm_compute|]. by apply N.leb_le. Qed.

(** Interrupts are part of the busy window and not of the demand that the
    supply is compared with. *)
Example fallback_forgets_interrupts :
  analyze_task 10 5 1 100 0 0 [] [(10, 9)] = Done (FallbackPath 12).
Proof. by vm_compute. Qed.
