(* ===== verification/Emv2Propagation.v ===== *)
(** * Propagation of errors

    [crates/spar-analysis/src/emv2_propagation.rs]: the error propagations
    that the EMV2 annex declares for the components of an instance, followed
    along its semantic connections. *)
From S2P Require Import Prelude.
From S2P Require Import Diagnostics.
From S2P Require Import BTree.
From S2P Require Import Names.
From S2P Require Import ItemTree.
From S2P Require Import PropertyMap.
From S2P Require Import Instance.
From S2P Require Import Sorting.
From Stdlib Require Import Ascii String.
From stdpp Require Import gmap strings sets relations pretty.
#[local] Open Scope string_scope.

(** ** The overlay *)

(** crates/spar-analysis/src/emv2_propagation.rs:45-48 [PropagationDirection] *)
Inductive PropagationDirection := In | Out.

(** crates/spar-analysis/src/emv2_propagation.rs:55-64 [ErrorPropagation] *)
Record ErrorPropagation := {
  ep_component : ComponentInstanceIdx;
  port : string;
  ep_direction : PropagationDirection;
  ep_types : list string;
}.

(** crates/spar-analysis/src/emv2_propagation.rs:72-81 [ErrorFlow] *)
Record ErrorFlow := {
  fl_component : ComponentInstanceIdx;
  fl_name : string;
  fl_kind : string;
  fl_types : list string;
}.

(** crates/spar-analysis/src/emv2_propagation.rs:100-109 [ErrorPropagationChain] *)
Record ErrorPropagationChain := {
  origin : ComponentInstanceIdx;
  error_type : string;
  downstream : list ComponentInstanceIdx;
  via_connections : list ConnectionInstanceIdx;
}.

(** crates/spar-analysis/src/emv2_propagation.rs:113-121 [ErrorPropagationReport]: the
    diagnostics, all of severity [Info], as their messages. *)
Record ErrorPropagationReport := {
  chains : list ErrorPropagationChain;
  local_flows : list ErrorFlow;
  emv_messages : list string;
}.

(** crates/spar-analysis/src/emv2_propagation.rs:133-140 [Emv2Overlay] *)
Record Emv2Overlay := {
  out_propagations : gmap ComponentInstanceIdx (list ErrorPropagation);
  in_propagations : gmap ComponentInstanceIdx (list ErrorPropagation);
  overlay_flows : gmap ComponentInstanceIdx (list ErrorFlow);
}.

(** crates/spar-analysis/src/emv2_propagation.rs:144-146 [Emv2Overlay::new] *)
Definition new_overlay : Emv2Overlay := {| out_propagations := ∅; in_propagations := ∅; overlay_flows := ∅ |}.

(** [map.entry(k).or_default().push(v)]. *)
Definition push_at {V} (k : nat) (v : V) (m : gmap nat (list V)) : gmap nat (list V) :=
  <[k := (default [] (m !! k) ++ [v])%list]> m.

(** crates/spar-analysis/src/emv2_propagation.rs:149-164 [Emv2Overlay::add_out_propagation] *)
Definition add_out_propagation (c : ComponentInstanceIdx) (p : string) (types : list string) (o : Emv2Overlay) : Emv2Overlay :=
  {| out_propagations := push_at c {| ep_component := c; port := p; ep_direction := Out; ep_types := types |} (out_propagations o);
     in_propagations := in_propagations o; overlay_flows := overlay_flows o |}.

(** crates/spar-analysis/src/emv2_propagation.rs:167-182 [Emv2Overlay::add_in_propagation] *)
Definition add_in_propagation (c : ComponentInstanceIdx) (p : string) (types : list string) (o : Emv2Overlay) : Emv2Overlay :=
  {| out_propagations := out_propagations o;
     in_propagations := push_at c {| ep_component := c; port := p; ep_direction := In; ep_types := types |} (in_propagations o);
     overlay_flows := overlay_flows o |}.

(** crates/spar-analysis/src/emv2_propagation.rs:185-198 [Emv2Overlay::add_flow] *)
Definition add_flow (c : ComponentInstanceIdx) (nm kind : string) (types : list string) (o : Emv2Overlay) : Emv2Overlay :=
  {| out_propagations := out_propagations o; in_propagations := in_propagations o;
     overlay_flows := push_at c {| fl_component := c; fl_name := nm; fl_kind := kind; fl_types := types |} (overlay_flows o) |}.

(** crates/spar-analysis/src/emv2_propagation.rs:219-228 [Emv2Overlay::from_instance]: a
    propagation of a model; a negated one is skipped. *)
Definition add_model_propagation (c : ComponentInstanceIdx) (o : Emv2Overlay) (p : ItemTree.ErrorPropagation) : Emv2Overlay :=
  if ep_negated p then o
  else match ItemTree.ep_direction p with
       | PropagationOut => add_out_propagation c (ep_feature p) (ep_error_types p) o
       | PropagationIn => add_in_propagation c (ep_feature p) (ep_error_types p) o
       end.

(** crates/spar-analysis/src/emv2_propagation.rs:229-237 [Emv2Overlay::from_instance] *)
Definition add_model_flow (c : ComponentInstanceIdx) (o : Emv2Overlay) (f : ItemTree.ErrorFlow) : Emv2Overlay :=
  let kind := match ef_kind f with ErrorSource => "source" | ErrorSink => "sink" | ErrorPath => "path" end in
  add_flow c (ef_name f) kind (ef_error_types f) o.

(** crates/spar-analysis/src/emv2_propagation.rs:213-241 [Emv2Overlay::from_instance] *)
Definition from_instance (inst : SystemInstance) : Emv2Overlay :=
  foldl (λ o '(c, models),
    foldl (λ o model, foldl (add_model_flow c) (foldl (add_model_propagation c) o (em_propagations model)) (em_flows model))
      o models) new_overlay (map_to_list (emv2_models inst)).

(** crates/spar-analysis/src/emv2_propagation.rs:245-261 [Emv2Overlay::has_in_propagation_for] *)
Definition has_in_propagation_for (o : Emv2Overlay) (c : ComponentInstanceIdx) (et : string) : bool :=
  match in_propagations o !! c with
  | Some ps => existsb (λ p, existsb (λ t, String.eqb (Names.to_ascii_lowercase t) (Names.to_ascii_lowercase et)) (ep_types p)) ps
  | None => false
  end.

(** [Vec::dedup]. *)
Fixpoint dedup (xs : list string) : list string :=
  match xs with
  | x :: (y :: _) as ys => if String.eqb x y then dedup ys else x :: dedup ys
  | _ => xs
  end.

(** crates/spar-analysis/src/emv2_propagation.rs:264-275 [Emv2Overlay::out_error_types] *)
Definition out_error_types (o : Emv2Overlay) (c : ComponentInstanceIdx) : list string :=
  match out_propagations o !! c with
  | Some ps => dedup (sort_by String.compare (p ← ps; ep_types p))
  | None => []
  end.

(** ** The traversal *)

Abbreviation Outgoing := (gmap ComponentInstanceIdx (list (ComponentInstanceIdx * ConnectionInstanceIdx))) (only parsing).

(** crates/spar-analysis/src/emv2_propagation.rs:304-321 [compute_error_propagation]: the
    semantic connections by source, each with the last connection it crosses. *)
Definition add_outgoing (m : Outgoing) (sc : SemanticConnection) : Outgoing :=
  match last (connection_path sc) with
  | Some ci => push_at (fst (ultimate_source sc)) (fst (ultimate_destination sc), ci) m
  | None => m
  end.

Definition outgoing_of (inst : SystemInstance) : Outgoing := foldl add_outgoing ∅ (semantic_connections inst).

(** The mutable arguments of [traverse]. *)
Record Traversal := {
  t_visited : gset (ComponentInstanceIdx * string);
  t_downstream : list ComponentInstanceIdx;
  t_via : list ConnectionInstanceIdx;
}.

(** crates/spar-analysis/src/emv2_propagation.rs:381-419 [traverse]: on fuel. *)
Fixpoint traverse (fuel : nat) (out : Outgoing) (o : Emv2Overlay) (et : string) (current : ComponentInstanceIdx)
    (st : Traversal) : Exec Traversal :=
  match fuel with
  | O => Stuck
  | S fuel =>
      foldM (λ st '(neighbor, ci),
        let key := (neighbor, et) in
        if bool_decide (key ∈ t_visited st) then Done st
        else if has_in_propagation_for o neighbor et then
          traverse fuel out o et neighbor
            {| t_visited := {[key]} ∪ t_visited st; t_downstream := (t_downstream st ++ [neighbor])%list;
               t_via := (t_via st ++ [ci])%list |}
        else Done st) st (default [] (out !! current))
  end.

(** crates/spar-analysis/src/emv2_propagation.rs:330-366 [compute_error_propagation]: the
    chain of one error type of one component, with its message.  The fuel is
    enough since every call enters a component with in propagations. *)
Definition chain_of (inst : SystemInstance) (o : Emv2Overlay) (c : ComponentInstanceIdx) (et : string)
  : Exec (list (ErrorPropagationChain * string)) :=
  st ← traverse (2 + size (in_propagations o)) (outgoing_of inst) o et c
         {| t_visited := {[(c, et)]}; t_downstream := []; t_via := [] |};
  match t_downstream st with
  | [] => Done []
  | ds =>
      comp ← component inst c;
      Done [({| origin := c; error_type := et; downstream := ds; via_connections := t_via st |},
             "error propagation chain: " +:+ pretty (N.of_nat (length ds)) +:+ " components downstream of '" +:+ name comp +:+
             "' for error type '" +:+ et +:+ "'")]
  end.

(** crates/spar-analysis/src/emv2_propagation.rs:294-374 [compute_error_propagation] *)
Definition compute_error_propagation (inst : SystemInstance) (o : Emv2Overlay) : Exec ErrorPropagationReport :=
  rs ← concatM (λ c, concatM (chain_of inst o c) (out_error_types o c)) (map_to_list (out_propagations o)).*1;
  Done {| chains := rs.*1; local_flows := kv ← map_to_list (overlay_flows o); snd kv; emv_messages := rs.*2 |}.

(** crates/spar-analysis/src/emv2_propagation.rs:439-475 [Emv2PropagationAnalysis::analyze] *)
Definition analyze (inst : SystemInstance) : Exec (list AnalysisDiagnostic) :=
  report ← compute_error_propagation inst (from_instance inst);
  root_path ← component_path inst (root inst);
  let diag m := {| severity := Info; message := m; path := root_path; analysis := "emv2_propagation" |} in
  Done (map diag (emv_messages report ++
    ["EMV2 propagation: " +:+ pretty (N.of_nat (length (chains report))) +:+ " chain(s), " +:+
     pretty (N.of_nat (length (local_flows report))) +:+ " local flow(s) analysed"]))%list.
#[local] Close Scope string_scope.

(** ** What the chains are

    A component inherits an error from another when a semantic connection
    leads from the one to the other and it declares an in propagation of the
    error's type. *)
Section exact.
Context (inst : SystemInstance) (o : Emv2Overlay).

(** A semantic connection from [a] to [b], whose last connection is [ci]. *)
Definition step (a b : ComponentInstanceIdx) (ci : ConnectionInstanceIdx) : Prop :=
  ∃ sc, sc ∈ semantic_connections inst ∧ fst (ultimate_source sc) = a ∧ fst (ultimate_destination sc) = b ∧
    last (connection_path sc) = Some ci.

Definition inherits (et : string) (a b : ComponentInstanceIdx) : Prop :=
  (∃ ci, step a b ci) ∧ has_in_propagation_for o b et = true.

Definition declares_out (c : ComponentInstanceIdx) (et : string) : Prop :=
  ∃ ps p, out_propagations o !! c = Some ps ∧ p ∈ ps ∧ et ∈ ep_types p.

Lemma push_at_elem {V} k (v : V) m k' v' :
  v' ∈ default [] (push_at k v m !! k') ↔ v' ∈ default [] (m !! k') ∨ (k' = k ∧ v' = v).
Proof.
  unfold push_at. destruct (decide (k = k')) as [<-|Hne].
  - rewrite lookup_insert_eq. cbn. rewrite elem_of_app, list_elem_of_singleton. naive_solver.
  - rewrite lookup_insert_ne by done. naive_solver.
Qed.

Lemma outgoing_elem a b ci : (b, ci) ∈ default [] (outgoing_of inst !! a) ↔ step a b ci.
Proof.
  unfold outgoing_of, step. induction (semantic_connections inst) as [|sc scs IH] using rev_ind.
  - cbn. rewrite lookup_empty. cbn. split; [by intros ?%not_elem_of_nil|by intros (? & ?%not_elem_of_nil & _)].
  - rewrite foldl_snoc. set (m := foldl add_outgoing ∅ scs) in *.
    assert (E : (b, ci) ∈ default [] (add_outgoing m sc !! a) ↔ (b, ci) ∈ default [] (m !! a) ∨
      (fst (ultimate_source sc) = a ∧ fst (ultimate_destination sc) = b ∧ last (connection_path sc) = Some ci)).
    { unfold add_outgoing. destruct (last (connection_path sc)) as [ci'|]; [rewrite push_at_elem|]; naive_solver. }
    rewrite E, IH. split.
    + intros [(x & Hx & H)|H]; [exists x|exists sc]; (split; [apply elem_of_app|done]); [by left|right; by left].
    + intros (x & [Hx|Hx]%elem_of_app & H); [left; by exists x|]. apply list_elem_of_singleton in Hx as ->. by right.
Qed.

Section traversal.
Context (et : string).

Abbreviation seen st c := ((c, et) ∈ t_visited st).

(** From [cur], over its neighbours [l], the traversal has added [new]. *)
Record explored (cur : nat) (l : list (nat * nat)) (st st' : Traversal) (new via : list nat) : Prop := {
  ex_downstream : t_downstream st' = (t_downstream st ++ new)%list;
  ex_via : t_via st' = (t_via st ++ via)%list;
  ex_visited : t_visited st' = t_visited st ∪ list_to_set ((λ x, (x, et)) <$> new);
  ex_fresh : NoDup new ∧ ∀ x, x ∈ new → ¬ seen st x;
  ex_reached x : x ∈ new → tc (inherits et) cur x;
  ex_neighbors b ci : (b, ci) ∈ l → has_in_propagation_for o b et = true → seen st' b;
  ex_closed a b : a ∈ new → inherits et a b → seen st' b;
  ex_length : length via = length new;
  ex_links j x ci : new !! j = Some x → via !! j = Some ci → ∃ a, (a = cur ∨ a ∈ take j new) ∧ step a x ci;
}.

Lemma seen_new st st' new : t_visited st' = t_visited st ∪ list_to_set ((λ x, (x, et)) <$> new) →
  ∀ x, seen st' x ↔ seen st x ∨ x ∈ new.
Proof.
  intros -> x. rewrite elem_of_union, elem_of_list_to_set, list_elem_of_fmap. naive_solver.
Qed.

Lemma explored_nil cur st : explored cur [] st st [] [].
Proof.
  split; rewrite ?app_nil_r; try done; [set_solver|..].
  - split; [constructor|by intros ? ?%not_elem_of_nil].
  - by intros ? ?%not_elem_of_nil.
  - by intros ?? ?%not_elem_of_nil.
  - by intros ?? ?%not_elem_of_nil.
Qed.

Lemma explored_skip cur b ci l st st' new via :
  (has_in_propagation_for o b et = true → seen st b) → explored cur l st st' new via → explored cur ((b, ci) :: l) st st' new via.
Proof.
  intros Hb [H1 H2 H3 H4 H5 H6 H7 H8 H9]. split; try done.
  intros b' ci' [[= -> ->]|Hin]%elem_of_cons Hi; [|by eapply H6]. apply (seen_new _ _ _ H3). left. by apply Hb.
Qed.

Definition enter (b ci : nat) (st : Traversal) : Traversal :=
  {| t_visited := {[(b, et)]} ∪ t_visited st; t_downstream := (t_downstream st ++ [b])%list; t_via := (t_via st ++ [ci])%list |}.

Lemma explored_enter cur b ci l st st1 st2 new1 via1 new2 via2 :
  step cur b ci → has_in_propagation_for o b et = true → ¬ seen st b →
  explored b (default [] (outgoing_of inst !! b)) (enter b ci st) st1 new1 via1 →
  explored cur l st1 st2 new2 via2 →
  explored cur ((b, ci) :: l) st st2 (b :: new1 ++ new2) (ci :: via1 ++ via2).
Proof.
  intros Hstep Hin Hb [F1 F2 F3 [F4 F4'] F5 F6 F7 F8 F9] [G1 G2 G3 [G4 G4'] G5 G6 G7 G8 G9].
  assert (S1 : ∀ x, seen st1 x ↔ x = b ∨ seen st x ∨ x ∈ new1).
  { intros x. rewrite (seen_new _ _ _ F3). cbn. rewrite elem_of_union, elem_of_singleton. naive_solver. }
  pose proof (seen_new _ _ _ G3) as S2.
  assert (Hinh : inherits et cur b) by (split; [by exists ci|done]).
  split.
  - rewrite G1, F1. cbn. by rewrite <- !app_assoc.
  - rewrite G2, F2. cbn. by rewrite <- !app_assoc.
  - rewrite G3, F3. cbn [t_visited enter]. rewrite fmap_cons, fmap_app, list_to_set_cons, list_to_set_app_L. set_solver.
  - split.
    + constructor.
      * rewrite elem_of_app. intros [Hx|Hx].
        -- apply (F4' b Hx). cbn. set_solver.
        -- apply (G4' b Hx), S1. by left.
      * apply NoDup_app. split_and!; [done| |done]. intros x Hx Hx'. apply (G4' x Hx'), S1. by right; right.
    + intros x [->|[Hx|Hx]%elem_of_app]%elem_of_cons; [done| |].
      * intros Hs. apply (F4' x Hx). cbn. set_solver.
      * intros Hs. apply (G4' x Hx), S1. by right; left.
  - intros x [->|[Hx|Hx]%elem_of_app]%elem_of_cons; [by apply tc_once| |by apply G5]. eapply tc_l; [done|by apply F5].
  - intros b' ci' [[= -> ->]|Hl]%elem_of_cons Hi; [|by eapply G6]. apply S2. left. apply S1. by left.
  - intros a x [->|[Ha|Ha]%elem_of_app]%elem_of_cons Hax; [| |by eapply G7].
    + destruct Hax as [[ci' Hs] Hi]. apply S2. left. eapply F6; [|done]. by apply outgoing_elem.
    + apply S2. left. by eapply F7.
  - cbn. rewrite !length_app. lia.
  - intros [|j] x ci' Hx Hci; [injection Hx as <-; injection Hci as <-; exists cur; by split; [left|]|].
    change ((new1 ++ new2) !! j = Some x) in Hx. change ((via1 ++ via2) !! j = Some ci') in Hci.
    destruct (decide (j < length new1)) as [Hj|Hj].
    + rewrite lookup_app_l in Hx, Hci by lia. destruct (F9 j x ci' Hx Hci) as (a & [->|Ha] & Hs).
      * exists b. split; [|done]. right. by left.
      * exists a. split; [|done]. right. change (a ∈ b :: take j (new1 ++ new2)). right. rewrite take_app_le by lia. done.
    + rewrite lookup_app_r in Hx, Hci by lia. rewrite F8 in Hci. destruct (G9 _ x ci' Hx Hci) as (a & [->|Ha] & Hs).
      * exists cur. split; [by left|done].
      * exists a. split; [|done]. right. change (a ∈ b :: take j (new1 ++ new2)). right. rewrite take_app_ge by lia. apply elem_of_app. by right.
Qed.

(** The components that can still be entered. *)
Definition left_over (st : Traversal) : gset nat := filter (λ c, ¬ seen st c) (dom (in_propagations o)).

Lemma left_over_mono st st' : (∀ x, seen st x → seen st' x) → left_over st' ⊆ left_over st.
Proof. intros H x. unfold left_over. rewrite !elem_of_filter. intros [Hn Hx]. split; [|done]. intros Hs. by apply Hn, H. Qed.

Lemma has_in_dom b : has_in_propagation_for o b et = true → b ∈ dom (in_propagations o).
Proof. unfold has_in_propagation_for. destruct (_ !! b) eqn:E; [|done]. intros _. by apply elem_of_dom. Qed.

Lemma traverse_spec fuel : ∀ cur st, size (left_over st) < fuel →
  ∃ st' new via, traverse fuel (outgoing_of inst) o et cur st = Done st' ∧
    explored cur (default [] (outgoing_of inst !! cur)) st st' new via.
Proof.
  induction fuel as [|fuel IH]; intros cur st Hf; [lia|]. cbn [traverse].
  assert (Hsteps : ∀ b ci, (b, ci) ∈ default [] (outgoing_of inst !! cur) → step cur b ci) by (intros; by apply outgoing_elem).
  revert Hsteps st Hf. generalize (default [] (outgoing_of inst !! cur)) as l.
  induction l as [|[b ci] l IHl]; intros Hsteps st Hf; cbn [foldM]; [exists st, [], []; split; [done|apply explored_nil]|].
  assert (Hl : ∀ b ci, (b, ci) ∈ l → step cur b ci) by (intros; apply Hsteps; by right).
  case_bool_decide as Hs.
  { cbn [mbind Exec_bind]. destruct (IHl Hl st Hf) as (st' & new & via & -> & He). exists st', new, via. split; [done|].
    by apply explored_skip. }
  destruct (has_in_propagation_for o b et) eqn:Hi.
  2:{ cbn [mbind Exec_bind]. destruct (IHl Hl st Hf) as (st' & new & via & -> & He). exists st', new, via. split; [done|].
      apply explored_skip; [by rewrite Hi|done]. }
  assert (Hless : left_over (enter b ci st) ⊂ left_over st).
  { split; [apply left_over_mono; cbn; set_solver|]. intros Hsub.
    assert (Hb : b ∈ left_over st) by (apply elem_of_filter; split; [done|by apply has_in_dom]).
    apply Hsub, elem_of_filter in Hb as [Hb _]. apply Hb. cbn. set_solver. }
  match goal with |- context [traverse fuel _ _ _ b ?s] => change s with (enter b ci st) end.
  apply subset_size in Hless. destruct (IH b (enter b ci st)) as (st1 & new1 & via1 & -> & He1); [lia|].
  cbn [mbind Exec_bind]. destruct (IHl Hl st1) as (st2 & new2 & via2 & -> & He2).
  { enough (size (left_over st1) ≤ size (left_over st)) by lia. apply subseteq_size, left_over_mono.
    intros x Hx. apply (seen_new _ _ _ (ex_visited _ _ _ _ _ _ He1)). left. cbn. set_solver. }
  eexists _, _, _. split; [done|]. eapply explored_enter; [apply Hsteps; by left|done..].
Qed.

(** The whole traversal from a component. *)
Lemma traverse_all c : ∃ st' via,
  traverse (2 + size (in_propagations o)) (outgoing_of inst) o et c {| t_visited := {[(c, et)]}; t_downstream := []; t_via := [] |}
    = Done st' ∧ t_via st' = via ∧ NoDup (t_downstream st') ∧ length via = length (t_downstream st') ∧
  (∀ k, k ∈ t_downstream st' ↔ k ≠ c ∧ tc (inherits et) c k) ∧
  ∀ j k ci, t_downstream st' !! j = Some k → via !! j = Some ci →
    ∃ a, (a = c ∨ a ∈ take j (t_downstream st')) ∧ step a k ci.
Proof.
  destruct (traverse_spec (2 + size (in_propagations o)) c {| t_visited := {[(c, et)]}; t_downstream := []; t_via := [] |})
    as (st' & new & via & -> & [H1 H2 H3 [H4 H4'] H5 H6 H7 H8 H9]).
  { rewrite <- size_dom. match goal with |- size (left_over ?st) < _ =>
      assert (Hsub : left_over st ⊆ dom (in_propagations o)) by (intros x [_ Hx]%elem_of_filter; done) end.
    apply subseteq_size in Hsub. lia. }
  cbn in H1, H2. exists st', (t_via st'). rewrite H1, H2. split_and!; try done.
  pose proof (seen_new _ _ _ H3) as S. cbn in S. intros k. split.
  - intros Hk. split; [|by apply H5]. intros ->. apply (H4' _ Hk). cbn. set_solver.
  - intros [Hne Hk]. assert (Hseen : ∀ a b, tc (inherits et) a b → a = c ∨ a ∈ new → b = c ∨ b ∈ new).
    { assert (Hone : ∀ a b, inherits et a b → a = c ∨ a ∈ new → b = c ∨ b ∈ new).
      { intros a b Hab Ha. assert (seen st' b) as Hb%S.
        - destruct Ha as [->|Ha]; [|by eapply H7]. destruct Hab as [[ci Hs] Hi]. eapply H6; [by apply outgoing_elem|done].
        - set_solver. }
      induction 1 as [a b Hab|a b d Hab _ IH]; intros Ha; [by eapply Hone|]. apply IH. by eapply Hone. }
    destruct (Hseen c k Hk) as [?|?]; [by left|done..].
Qed.
End traversal.

(** ** The error types of a component *)

Lemma dedup_elem xs x : x ∈ dedup xs ↔ x ∈ xs.
Proof.
  induction xs as [|y [|z ys] IH]; [done..|]. change (x ∈ (if String.eqb y z then dedup (z :: ys) else y :: dedup (z :: ys)) ↔ x ∈ y :: z :: ys).
  destruct (String.eqb_spec y z) as [->|Hne]; [rewrite IH; set_solver|]. rewrite !elem_of_cons, IH. set_solver.
Qed.

Lemma dedup_NoDup xs : StronglySorted (cmp_le String.compare) xs → NoDup (dedup xs).
Proof.
  induction xs as [|y [|z ys] IH]; intros Hs; [constructor|repeat constructor; set_solver|].
  apply StronglySorted_inv in Hs as [Hs Hy]. change (NoDup (if String.eqb y z then dedup (z :: ys) else y :: dedup (z :: ys))).
  destruct (String.eqb_spec y z) as [->|Hne]; [by apply IH|]. constructor; [|by apply IH].
  rewrite dedup_elem. intros Hin. rewrite Forall_forall in Hy. apply StronglySorted_inv in Hs as [_ Hz]. rewrite Forall_forall in Hz.
  apply elem_of_cons in Hin as [->|Hin]; [done|].
  pose proof (Hy z ltac:(by left)) as H1. pose proof (Hz y Hin) as H2. unfold cmp_le in *. rewrite String.compare_antisym in H2.
  destruct (String.compare y z) eqn:E; [|done..]. by apply String.compare_eq_iff in E.
Qed.

#[local] Instance string_total : TotalCmp (λ _, True) String.compare.
Proof.
  split; [intros a b _ _; apply String.compare_antisym|]. intros a b c _ _ _ H1 H2.
  destruct (String.compare a b) eqn:E1; [apply String.compare_eq_iff in E1 as ->; done| |done].
  destruct (String.compare b c) eqn:E2; [apply String.compare_eq_iff in E2 as <-; by rewrite E1| |done].
  pose proof (key_cmp_trans a b c E1 E2) as E. cbn in E. by rewrite E.
Qed.

Lemma out_error_types_spec c : NoDup (out_error_types o c) ∧ ∀ et, et ∈ out_error_types o c ↔ declares_out c et.
Proof.
  unfold out_error_types, declares_out. destruct (out_propagations o !! c) as [ps|] eqn:E.
  - split; [apply dedup_NoDup, (@sort_by_sorted _ String.compare (λ _, True) _); by apply Forall_true|]. intros et.
    rewrite dedup_elem, sort_by_perm, list_elem_of_bind. naive_solver.
  - split; [constructor|]. intros et. split; [by intros ?%not_elem_of_nil|naive_solver].
Qed.

(** ** The report *)

Lemma concatM_keyed {A B K} (f : A → Exec (list B)) (key : B → K) (belongs : A → B → Prop) xs zs :
  concatM f xs = Done zs → NoDup xs →
  (∀ x ys, x ∈ xs → f x = Done ys → NoDup (key <$> ys) ∧ ∀ y, y ∈ ys → belongs x y) →
  (∀ x x' y y', belongs x y → belongs x' y' → key y = key y' → x = x') → NoDup (key <$> zs).
Proof.
  intros Hz Hn Hf Hk. revert zs Hz. induction Hn as [|x xs Hx Hn IH]; intros zs; cbn [concatM]; [intros [= <-]; constructor|].
  intros (ys & Hys & (zs' & Hzs & [= <-])%Exec_bind_Done)%Exec_bind_Done.
  destruct (Hf x ys ltac:(by left) Hys) as [Hny Hby]. rewrite fmap_app. apply NoDup_app. split_and!; [done| |].
  - intros k (y & -> & Hy)%list_elem_of_fmap (z & E & Hz)%list_elem_of_fmap.
    destruct (concatM_Done _ _ _ Hzs) as [_ Hall]. apply Hall in Hz as (x' & zs & Hx' & Hfx & Hz).
    destruct (Hf x' zs ltac:(by right) Hfx) as [_ Hb]. assert (x = x') as <- by (eapply Hk; [by apply Hby|by apply Hb|done]). done.
  - apply IH; [|done]. intros x' ys' Hx'. apply Hf. by right.
Qed.

Definition exact_chain (ch : ErrorPropagationChain) : Prop :=
  NoDup (downstream ch) ∧ length (via_connections ch) = length (downstream ch) ∧
  (∀ k, k ∈ downstream ch ↔ k ≠ origin ch ∧ tc (inherits (error_type ch)) (origin ch) k) ∧
  ∀ j k ci, downstream ch !! j = Some k → via_connections ch !! j = Some ci →
    ∃ a, (a = origin ch ∨ a ∈ take j (downstream ch)) ∧ step a k ci.

Lemma chain_of_spec c et : c < length (components inst) →
  ∃ rs, chain_of inst o c et = Done rs ∧
    ((rs = [] ∧ ¬ ∃ k, k ≠ c ∧ tc (inherits et) c k) ∨
     ∃ ch m, rs = [(ch, m)] ∧ origin ch = c ∧ error_type ch = et ∧ exact_chain ch ∧ ∃ k, k ≠ c ∧ tc (inherits et) c k).
Proof.
  intros Hc. unfold chain_of. destruct (traverse_all et c) as (st & via & -> & Hvia & Hnd & Hlen & Hreach & Hlinks).
  cbn [mbind Exec_bind]. destruct (t_downstream st) as [|d ds] eqn:E.
  - eexists. split; [done|]. left. split; [done|]. intros (k & Hk). apply Hreach in Hk. by apply not_elem_of_nil in Hk.
  - unfold component. destruct (arena_get_lt (components inst) c Hc) as (comp & -> & _). cbn [mbind Exec_bind].
    eexists. split; [done|]. right. eexists _, _. split; [done|]. cbn. split_and!; [done..| |].
    + unfold exact_chain. cbn. rewrite Hvia. done.
    + exists d. apply Hreach. by left.
Qed.
Hypothesis (Hrange : ∀ c, is_Some (out_propagations o !! c) → c < length (components inst)).

Abbreviation origins := (map_to_list (out_propagations o)).*1.

Lemma origins_elem c : c ∈ origins ↔ is_Some (out_propagations o !! c).
Proof.
  rewrite list_elem_of_fmap. split.
  - intros ([c' ps] & -> & H%elem_of_map_to_list). by exists ps.
  - intros [ps H]. exists (c, ps). split; [done|]. by apply elem_of_map_to_list.
Qed.

Lemma declares_origin c et : declares_out c et → is_Some (out_propagations o !! c).
Proof. intros (ps & _ & Hps & _). by exists ps. Qed.

Lemma chain_of_elem c et rs y : c < length (components inst) → chain_of inst o c et = Done rs → y ∈ rs →
  origin y.1 = c ∧ error_type y.1 = et ∧ exact_chain y.1 ∧ ∃ k, k ≠ c ∧ tc (inherits et) c k.
Proof.
  intros Hc Hrs Hy. destruct (chain_of_spec c et Hc) as (rs' & E & H). rewrite Hrs in E. injection E as <-.
  destruct H as [[-> _]|(ch & m & -> & H)]; [by apply not_elem_of_nil in Hy|].
  by apply list_elem_of_singleton in Hy as ->.
Qed.

Lemma chains_of_origin c : is_Some (out_propagations o !! c) →
  ∃ ys, concatM (chain_of inst o c) (out_error_types o c) = Done ys ∧
    (∀ y, y ∈ ys ↔ ∃ et zs, declares_out c et ∧ chain_of inst o c et = Done zs ∧ y ∈ zs) ∧
    NoDup ((λ y, (origin y.1, error_type y.1)) <$> ys).
Proof.
  intros Hc. destruct (concatM_total (chain_of inst o c) (out_error_types o c)) as (ys & Hys & Hel).
  { intros et _. destruct (chain_of_spec c et (Hrange c Hc)) as (rs & -> & _). by eexists. }
  exists ys. split_and!; [done|intros y; rewrite Hel; by setoid_rewrite (proj2 (out_error_types_spec c))|].
  eapply (concatM_keyed _ _ (λ et y, error_type (fst y) = et) _ _ Hys); [apply out_error_types_spec| |].
  - intros et zs _ Hz. split; [|intros y Hy; by eapply chain_of_elem; eauto].
    destruct (chain_of_spec c et (Hrange c Hc)) as (zs' & E & H). rewrite Hz in E. injection E as <-.
    destruct H as [[-> _]|(ch & m & -> & _)]; [constructor|apply NoDup_singleton].
  - intros et et' y y' <- <- [= _ E]. done.
Qed.

Lemma all_chains : ∃ rs, concatM (λ c, concatM (chain_of inst o c) (out_error_types o c)) origins = Done rs ∧
  (∀ y, y ∈ rs ↔ ∃ c et zs, declares_out c et ∧ chain_of inst o c et = Done zs ∧ y ∈ zs) ∧
  NoDup ((λ y, (origin y.1, error_type y.1)) <$> rs).
Proof.
  destruct (concatM_total (λ c, concatM (chain_of inst o c) (out_error_types o c)) origins) as (rs & Hrs & Hel).
  { intros c Hc%origins_elem. destruct (chains_of_origin c Hc) as (ys & -> & _). by eexists. }
  exists rs. split_and!; [done| |].
  - intros y. rewrite Hel. split.
    + intros (c & ys & Hc%origins_elem & Hys & Hy). destruct (chains_of_origin c Hc) as (ys' & E & H & _).
      rewrite Hys in E. injection E as <-. exists c. by apply H.
    + intros (c & et & zs & Hd & Hz & Hy). destruct (chains_of_origin c (declares_origin c et Hd)) as (ys & E & H & _).
      exists c, ys. split_and!; [by apply origins_elem, (declares_origin c et)|done|]. apply H. by exists et, zs.
  - eapply (concatM_keyed _ _ (λ c y, origin (fst y) = c) _ _ Hrs); [apply NoDup_fst_map_to_list| |].
    + intros c ys Hc%origins_elem Hys. destruct (chains_of_origin c Hc) as (ys' & E & H & Hn).
      rewrite Hys in E. injection E as <-. split; [done|]. intros y (et & zs & _ & Hz & Hy)%H.
      by eapply chain_of_elem; eauto.
    + intros c c' y y' <- <- [= E _]. done.
Qed.
End exact.

(** C31: what the propagation report says, exactly.  For an overlay whose out
    propagations are on components of the instance, the search returns, and
    it reports one chain for each component and each error type that the
    component declares as an out propagation and that some other component
    inherits.  A component inherits the type, here, if it declares an in
    propagation of it on any port and a semantic connection between any ports
    leads to it from the origin or from a component that inherits it.  The
    chain lists without repetition exactly the components that inherit the
    error, directly or through others that do, and beside each the connection
    that brought it there from the origin or from a component before it.
    This is wider than what the module's documentation and requirement
    REQ-EMV2-PROPAGATION-001 ask for: the ports of the propagations are not
    compared with those of the connections, and a component passes an error on
    although it declares no out propagation of it
    ([propagation_ignores_ports]). *)
Theorem compute_error_propagation_exact inst o :
  (∀ c, is_Some (out_propagations o !! c) → c < length (components inst)) →
  ∃ r, compute_error_propagation inst o = Done r ∧
    NoDup ((λ ch, (origin ch, error_type ch)) <$> chains r) ∧ Forall (exact_chain inst o) (chains r) ∧
    ∀ c et, (∃ ch, ch ∈ chains r ∧ origin ch = c ∧ error_type ch = et) ↔
      declares_out o c et ∧ ∃ k, k ≠ c ∧ tc (inherits inst o et) c k.
Proof.
  intros Hrange. unfold compute_error_propagation. destruct (all_chains inst o Hrange) as (rs & -> & Hel & Hn).
  cbn [mbind Exec_bind]. eexists. split; [done|]. cbn [chains].
  assert (Hone : ∀ y, y ∈ rs → ∃ c et, declares_out o c et ∧ origin y.1 = c ∧ error_type y.1 = et ∧ exact_chain inst o y.1 ∧
    ∃ k, k ≠ c ∧ tc (inherits inst o et) c k).
  { intros y (c & et & zs & Hd & Hz & Hy)%Hel. exists c, et. split; [done|].
    eapply chain_of_elem; [by eapply Hrange, declares_origin|done..]. }
  split_and!.
  - by rewrite <- list_fmap_compose.
  - apply Forall_fmap, Forall_forall. intros y Hy. by destruct (Hone y Hy) as (c & et & _ & _ & _ & H & _).
  - intros c et. split.
    + intros (ch & (y & -> & Hy)%list_elem_of_fmap & <- & <-). by destruct (Hone y Hy) as (c & et & Hd & <- & <- & _ & H).
    + intros [Hd Hk]. destruct (chain_of_spec inst o c et) as (zs & Hz & H); [by eapply Hrange, declares_origin|].
      destruct H as [[_ H]|(ch & m & -> & H1 & H2 & _)]; [done|]. exists ch. split; [|done].
      apply list_elem_of_fmap. exists (ch, m). split; [done|]. apply Hel. exists c, et, [(ch, m)]. split_and!; [done..|by left].
Qed.

(** ** The overlay of an instance

    A component declares in the overlay what the models projected onto it
    declare and do not negate. *)
Definition model_declares (inst : SystemInstance) (dir : ItemTree.PropagationDirection) (c : ComponentInstanceIdx) (et : string)
  : Prop :=
  ∃ models m p, emv2_models inst !! c = Some models ∧ m ∈ models ∧ p ∈ em_propagations m ∧ ep_negated p = false ∧
    ItemTree.ep_direction p = dir ∧ et ∈ ep_error_types p.

Definition declared (side : Emv2Overlay → gmap ComponentInstanceIdx (list ErrorPropagation)) (o : Emv2Overlay)
    (c : ComponentInstanceIdx) (et : string) : Prop :=
  ∃ p, p ∈ default [] (side o !! c) ∧ et ∈ ep_types p.

Section overlay.
Context (side : Emv2Overlay → gmap ComponentInstanceIdx (list ErrorPropagation)) (dir : ItemTree.PropagationDirection).
Hypothesis (Hpropagation : ∀ c o p c' et, declared side (add_model_propagation c o p) c' et ↔
  declared side o c' et ∨ (c' = c ∧ ep_negated p = false ∧ ItemTree.ep_direction p = dir ∧ et ∈ ep_error_types p)).
Hypothesis (Hflow : ∀ c o f, side (add_model_flow c o f) = side o).

Lemma foldl_declared {A} (add : Emv2Overlay → A → Emv2Overlay) (says : A → nat → string → Prop) xs o c et :
  (∀ o x, declared side (add o x) c et ↔ declared side o c et ∨ says x c et) →
  declared side (foldl add o xs) c et ↔ declared side o c et ∨ ∃ x, x ∈ xs ∧ says x c et.
Proof.
  intros H. revert o. induction xs as [|x xs IH]; intros o; cbn [foldl].
  - split; [by left|]. intros [?|(? & ?%not_elem_of_nil & _)]; done.
  - rewrite IH, H. setoid_rewrite elem_of_cons. naive_solver.
Qed.

Lemma overlay_declares inst c et : declared side new_overlay c et ↔ False →
  declared side (from_instance inst) c et ↔ model_declares inst dir c et.
Proof.
  intros Hnew. unfold from_instance.
  rewrite (foldl_declared _ (λ cm c et, c = cm.1 ∧ ∃ m p, m ∈ cm.2 ∧ p ∈ em_propagations m ∧ ep_negated p = false ∧
    ItemTree.ep_direction p = dir ∧ et ∈ ep_error_types p)).
  - rewrite Hnew. unfold model_declares. split.
    + intros [[]|([c' models] & Hin & -> & m & p & H)]. apply elem_of_map_to_list in Hin. by exists models, m, p.
    + intros (models & m & p & Hc & H). right. exists (c, models). split; [by apply elem_of_map_to_list|]. split; [done|by exists m, p].
  - intros o [c' models]. rewrite (foldl_declared _ (λ m c et, c = c' ∧ ∃ p, p ∈ em_propagations m ∧ ep_negated p = false ∧
      ItemTree.ep_direction p = dir ∧ et ∈ ep_error_types p)); [naive_solver|].
    intros o' m. rewrite (foldl_declared _ (λ _ _ _, False)).
    + rewrite (foldl_declared _ (λ p c et, c = c' ∧ ep_negated p = false ∧ ItemTree.ep_direction p = dir ∧ et ∈ ep_error_types p)).
      * naive_solver.
      * intros o2 p. apply Hpropagation.
    + intros o2 f. unfold declared. rewrite Hflow. naive_solver.
Qed.
End overlay.

Lemma declared_push (m : gmap nat (list ErrorPropagation)) c q c' et :
  (∃ p, p ∈ default [] (push_at c q m !! c') ∧ et ∈ ep_types p) ↔
  (∃ p, p ∈ default [] (m !! c') ∧ et ∈ ep_types p) ∨ (c' = c ∧ et ∈ ep_types q).
Proof. setoid_rewrite push_at_elem. naive_solver. Qed.

Lemma from_instance_out inst c et : declares_out (from_instance inst) c et ↔ model_declares inst PropagationOut c et.
Proof.
  rewrite <- (overlay_declares out_propagations PropagationOut).
  - unfold declares_out, declared. destruct (out_propagations _ !! c) as [ps|]; cbn; [naive_solver|].
    split; [naive_solver|by intros (p & ?%not_elem_of_nil & _)].
  - intros c1 o p c2 et'. unfold declared, add_model_propagation. destruct (ep_negated p), (ItemTree.ep_direction p); cbn;
      rewrite ?declared_push; cbn; naive_solver.
  - done.
  - unfold declared. cbn. rewrite lookup_empty. cbn. split; [by intros (p & ?%not_elem_of_nil & _)|done].
Qed.

Lemma has_in_declared o c et : has_in_propagation_for o c et = true ↔
  ∃ et', declared in_propagations o c et' ∧ Names.to_ascii_lowercase et' = Names.to_ascii_lowercase et.
Proof.
  unfold has_in_propagation_for, declared. destruct (in_propagations o !! c) as [ps|]; cbn.
  - rewrite existsb_exists. setoid_rewrite existsb_exists. setoid_rewrite String.eqb_eq. setoid_rewrite <- list_elem_of_In. naive_solver.
  - split; [done|by intros (et' & (p & ?%not_elem_of_nil & _) & _)].
Qed.

Lemma from_instance_in inst c et : has_in_propagation_for (from_instance inst) c et = true ↔
  ∃ et', model_declares inst PropagationIn c et' ∧ Names.to_ascii_lowercase et' = Names.to_ascii_lowercase et.
Proof.
  rewrite has_in_declared. setoid_rewrite (overlay_declares in_propagations PropagationIn); [done|..].
  - intros c1 o p c2 et2. unfold declared, add_model_propagation. destruct (ep_negated p), (ItemTree.ep_direction p); cbn;
      rewrite ?declared_push; cbn; naive_solver.
  - done.
  - unfold declared. cbn. rewrite lookup_empty. cbn. split; [by intros (p & ?%not_elem_of_nil & _)|done].
Qed.

(** ** Examples *)
#[local] Open Scope string_scope.

(** A chain of three components; the second declares no out propagation. *)
Definition propagation_ex : SystemInstance :=
  let sc a f b h ci := {| sem_name := "c"; sem_kind := PortConnection; ultimate_source := (a, f);
                          ultimate_destination := (b, h); connection_path := [ci] |} in
  set_semantic_connections [sc 1 "p" 2 "q" 0; sc 2 "r" 3 "s" 1; sc 3 "t" 1 "u" 2]%nat inst_ex.

Definition overlay_ex : Emv2Overlay :=
  add_out_propagation 1 "other" ["Late"; "BadValue"] (add_in_propagation 3 "s" ["BADVALUE"]
    (add_in_propagation 2 "another" ["BadValue"] new_overlay)).

(** The ports of the propagations are not compared with those of the
    connections, and an error goes on through a component that declares no out
    propagation of it. *)
Example propagation_ignores_ports :
  (r ← compute_error_propagation propagation_ex overlay_ex; Done (chains r)) =
    Done [{| origin := 1; error_type := "BadValue"; downstream := [2; 3]%nat; via_connections := [0; 1]%nat |}].
Proof. vm_compute. reflexivity. Qed.

Lemma compute_error_propagation_exact_witness :
  ∃ r, compute_error_propagation propagation_ex overlay_ex = Done r ∧ Forall (exact_chain propagation_ex overlay_ex) (chains r).
Proof.
  destruct (compute_error_propagation_exact propagation_ex overlay_ex) as (r & Hr & _ & He & _).
  - intros c [ps H]. destruct (decide (c = 1)) as [->|Hne]; [vm_compute; lia|]. exfalso.
    unfold overlay_ex, add_out_propagation, push_at in H. cbn [out_propagations] in H.
    rewrite lookup_insert_ne in H by done. vm_compute in H. by destruct c.
  - exists r. split; [exact Hr|exact He].
Defined.
#[local] Close Scope string_scope.
