(* ===== verification/Variants.v ===== *)
(** * Product-line variants

    [crates/spar-variants]: the resolved context of a variant, the scopes of
    its bindings, and which items a variant keeps; and
    [crates/spar-cli/src/variants_bridge.rs], which applies it to the
    components of an instance.  [serde_json], which reads the context, is a
    parameter. *)
From S2P Require Import Prelude.
From S2P Require Import Text.
From S2P Require Import Names.
From S2P Require Import PropertyMap.
From S2P Require Import ItemTree.
From S2P Require Import Instance.
From Stdlib Require Import Ascii String.
From stdpp Require Import gmap sets strings.
#[local] Open Scope string_scope.

(** ** Contexts *)

(** crates/spar-variants/src/context.rs:56-78 [Binding] *)
Inductive Binding :=
  | Artifact (artifact : string) (requires : list string)
  | Symbol (symbol : string) (requires : list string).

(** crates/spar-variants/src/context.rs:27-48 [VariantContext] *)
Record VariantContext := {
  rivet_spar_context_version : string;
  variant : string;
  vc_features : list string;
  vc_bindings : list Binding;
  feature_model_hash : string;
  resolved_at : string;
  generated_by : string;
}.

(** crates/spar-variants/src/context.rs:20-20 [SUPPORTED_VERSION] *)
Definition SUPPORTED_VERSION : string := "1".

(** crates/spar-variants/src/context.rs:82-89 [ContextError] *)
Inductive ContextError (JsonError : Type) :=
  | UnknownVersion (v : string)
  | JsonFailure (e : JsonError).
Arguments UnknownVersion {JsonError} v.
Arguments JsonFailure {JsonError} e.

(** crates/spar-variants/src/context.rs:123-129 [VariantContext::from_json]:
    [json] is [serde_json::from_str]. *)
Definition from_json {JsonError} (json : string → Result VariantContext JsonError) (s : string)
  : Result VariantContext (ContextError JsonError) :=
  match json s with
  | Err e => Err (JsonFailure e)
  | Ok ctx =>
      if String.eqb (rivet_spar_context_version ctx) SUPPORTED_VERSION then Ok ctx
      else Err (UnknownVersion (rivet_spar_context_version ctx))
  end.

(** ** Matching *)

(** crates/spar-variants/src/binding.rs:20-33 [HasBindingIdentity] *)
Class HasBindingIdentity (I : Type) := {
  artifact_path : I → option string;
  fully_qualified_symbol : I → option string;
}.

(** [str::strip_prefix]. *)
Fixpoint strip_prefix (p s : string) : option string :=
  match p, s with
  | "", _ => Some s
  | String a p, String b s => if Ascii.eqb a b then strip_prefix p s else None
  | String _ _, "" => None
  end.

(** crates/spar-variants/src/binding.rs:41-44 [normalize_path] *)
Definition normalize_path (p : string) : string :=
  replace_char "\"%char "/"%char (default p (strip_prefix "./" p)).

(** crates/spar-variants/src/binding.rs:90-98 [symbol_matches] *)
Definition symbol_matches (item_fqn binding_symbol : string) : bool :=
  if String.eqb item_fqn binding_symbol then true
  else match strip_prefix binding_symbol item_fqn with
       | None => false
       | Some rest => is_some (strip_prefix "." rest) || is_some (strip_prefix "::" rest)
       end.

(** crates/spar-variants/src/binding.rs:79-83 [Binding::requires] *)
Definition requires (b : Binding) : list string :=
  match b with Artifact _ r | Symbol _ r => r end.

Section items.
Context {I : Type} `{!HasBindingIdentity I}.

(** crates/spar-variants/src/binding.rs:65-76 [Binding::matches] *)
Definition matches (b : Binding) (item : I) : bool :=
  match b with
  | Artifact artifact _ =>
      match artifact_path item with
      | Some item_path => String.eqb (normalize_path item_path) (normalize_path artifact)
      | None => false
      end
  | Symbol symbol _ =>
      match fully_qualified_symbol item with
      | Some fqn => symbol_matches fqn symbol
      | None => false
      end
  end.

(** crates/spar-variants/src/filter.rs:31-42 [keep_in_variant]: the loop over
    the bindings, which ends at the first that is not satisfied. *)
Fixpoint keep_loop (features : gset string) (item : I) (bs : list Binding) : bool :=
  match bs with
  | [] => true
  | b :: bs =>
      if negb (matches b item) then keep_loop features item bs
      else if existsb (λ r, negb (bool_decide (r ∈ features))) (requires b) then false
      else keep_loop features item bs
  end.

(** crates/spar-variants/src/filter.rs:27-47 [keep_in_variant] *)
Definition keep_in_variant (item : I) (context : VariantContext) : bool :=
  keep_loop (list_to_set (vc_features context)) item (vc_bindings context).

(** ** What a scope covers, and what a variant keeps *)

Lemma strip_prefix_spec p s r : strip_prefix p s = Some r ↔ s = p +:+ r.
Proof.
  revert s. induction p as [|a p IH]; intros s; cbn; [change ("" +:+ r) with r; split; congruence|].
  destruct s as [|b s]; [by split|]. destruct (Ascii.eqb_spec a b) as [->|Hne].
  - rewrite IH. change (String b p +:+ r) with (String b (p +:+ r)). split; [by intros ->|by intros [= ->]].
  - split; [done|]. change (String a p +:+ r) with (String a (p +:+ r)). intros [= -> _]. done.
Qed.

Lemma strip_prefix_some p s : is_some (strip_prefix p s) = true ↔ ∃ r, s = p +:+ r.
Proof.
  destruct (strip_prefix p s) as [r|] eqn:E; cbn.
  - apply strip_prefix_spec in E. split; [by eexists|done].
  - split; [done|]. intros (r & Hr%strip_prefix_spec). congruence.
Qed.

(** A symbol covers itself and what is nested in it: the names that go on
    with a dot or a double colon. *)
Lemma symbol_matches_exact fqn s :
  symbol_matches fqn s = true ↔ fqn = s ∨ ∃ nested, fqn = s +:+ "." +:+ nested ∨ fqn = s +:+ "::" +:+ nested.
Proof.
  unfold symbol_matches. destruct (String.eqb_spec fqn s) as [->|Hne]; [split; [by left|done]|].
  destruct (strip_prefix s fqn) as [rest|] eqn:E.
  - apply strip_prefix_spec in E as ->. rewrite orb_true_iff, !strip_prefix_some. split.
    + intros [[r ->]|[r ->]]; right; exists r; [by left|by right].
    + intros [?|(r & [H|H])]; [done|left|right]; exists r; by apply (inj (String.append s)) in H.
  - split; [done|]. intros [?|(r & [H|H])]; [done|apply strip_prefix_spec in H; congruence..].
Qed.

Lemma matches_artifact a r item :
  matches (Artifact a r) item = true ↔ ∃ path, artifact_path item = Some path ∧ normalize_path path = normalize_path a.
Proof. unfold matches. destruct (artifact_path item) as [path|]; [rewrite String.eqb_eq|]; naive_solver. Qed.

(** An item is kept exactly when every binding whose scope covers it requires
    only active features. *)
Lemma keep_in_variant_exact item context :
  keep_in_variant item context = true ↔
  ∀ b, b ∈ vc_bindings context → matches b item = true → requires b ⊆ vc_features context.
Proof.
  unfold keep_in_variant. induction (vc_bindings context) as [|b bs IH]; cbn [keep_loop].
  - split; [by intros _ ? ?%not_elem_of_nil|done].
  - destruct (matches b item) eqn:Hm; cbn [negb].
    + destruct (existsb _ (requires b)) eqn:He.
      * split; [done|]. intros H. apply existsb_exists in He as (r & Hr & Hn). exfalso.
        rewrite negb_true_iff, bool_decide_eq_false, elem_of_list_to_set in Hn. apply Hn, (H b); [by left|done|].
        by apply list_elem_of_In.
      * rewrite IH. assert (Hb : requires b ⊆ vc_features context).
        { intros r Hr. destruct (decide (r ∈ vc_features context)) as [|Hn]; [done|]. exfalso.
          assert (existsb (λ r, negb (bool_decide (r ∈ (list_to_set (vc_features context) : gset string)))) (requires b) = true)
            as He'; [|exact (eq_true_false_abs _ He' He)].
          apply existsb_exists. exists r. split; [by apply list_elem_of_In|].
          rewrite negb_true_iff, bool_decide_eq_false, elem_of_list_to_set. done. }
        split; [|intros H b' Hb'; apply H; by right]. by intros H b' [->|Hb']%elem_of_cons; [|apply H].
    + rewrite IH. split; [|intros H b' Hb'; apply H; by right].
      intros H b' [->|Hb']%elem_of_cons Hm'; [congruence|by apply H].
Qed.

(** A binding can only drop an item, and a feature only bring one back. *)
Corollary keep_in_variant_monotone item c c' :
  (∀ b, b ∈ vc_bindings c' → b ∈ vc_bindings c) → vc_features c ⊆ vc_features c' →
  keep_in_variant item c = true → keep_in_variant item c' = true.
Proof. rewrite !keep_in_variant_exact. intros Hb Hf H b Hin Hm. etrans; [by apply H, Hm; apply Hb|done]. Qed.
End items.

(** ** The components of an instance *)

(** crates/spar-cli/src/variants_bridge.rs:163-165 [SourcePathMap] *)
Definition SourcePathMap : Type := gmap (string * string) string.

(** crates/spar-cli/src/variants_bridge.rs:181-201 [SourcePathMap::from_trees]: one
    item of a package; the later of two entries stands. *)
Definition add_item (path : string) (tree : ItemTree) (pkg : string) (m : SourcePathMap) (item : ItemRef) : Exec SourcePathMap :=
  match item with
  | RComponentType i =>
      t ← arena_get (component_types tree) i; Done (<[(pkg, to_ascii_lowercase (ct_name t)) := path]> m)
  | RComponentImpl i =>
      t ← arena_get (component_impls tree) i; Done (<[(pkg, to_ascii_lowercase (ci_type_name t)) := path]> m)
  | _ => Done m
  end.

(** crates/spar-cli/src/variants_bridge.rs:175-207 [SourcePathMap::from_trees] *)
Definition from_trees (pairs : list (string * ItemTree)) : Exec SourcePathMap :=
  foldM (λ m '(path, tree),
    foldM (λ m pkg, foldM (add_item path tree (to_ascii_lowercase (pkg_name pkg))) m (pkg_public_items pkg ++ pkg_private_items pkg)%list)
      m (packages tree)) ∅ pairs.

(** crates/spar-cli/src/variants_bridge.rs:210-213 [SourcePathMap::lookup] *)
Definition lookup_path (m : SourcePathMap) (package type_name : string) : option string :=
  m !! (to_ascii_lowercase package, to_ascii_lowercase type_name).

(** crates/spar-cli/src/variants_bridge.rs:127-143 [component_fqn]: the walk to the
    root, on fuel; the names from the root on, and the root. *)
Fixpoint fqn_walk (fuel : nat) (inst : SystemInstance) (cur : option ComponentInstanceIdx) (chain : list string)
    (root_idx : ComponentInstanceIdx) : Exec (list string * ComponentInstanceIdx) :=
  match cur with
  | None => Done (chain, root_idx)
  | Some i =>
      match fuel with
      | O => Stuck
      | S fuel =>
          comp ← component inst i;
          match parent comp with
          | Some _ => fqn_walk fuel inst (parent comp) (name comp :: chain) root_idx
          | None => fqn_walk fuel inst None chain i
          end
      end
  end.

(** crates/spar-cli/src/variants_bridge.rs:144-149 [component_fqn] *)
Definition classifier_symbol (c : ComponentInstance) : string :=
  comp_package c +:+ "::" +:+ comp_type_name c +:+ match comp_impl_name c with Some im => "." +:+ im | None => "" end.

(** crates/spar-cli/src/variants_bridge.rs:124-155 [component_fqn] *)
Definition component_fqn (inst : SystemInstance) (idx : ComponentInstanceIdx) : Exec string :=
  '(chain, root_idx) ← fqn_walk (length (components inst)) inst (Some idx) [] idx;
  r ← component inst root_idx;
  Done (foldl (λ s nm, s +:+ "." +:+ nm) (classifier_symbol r) chain).

(** crates/spar-cli/src/variants_bridge.rs:67-74 [ComponentInstanceIdentity]: the
    instance and the index as the component they lead to. *)
Record ComponentInstanceIdentity := {
  id_component : ComponentInstance;
  source_paths : SourcePathMap;
  id_fqn : string;
}.

(** crates/spar-cli/src/variants_bridge.rs:93-113 [ComponentInstanceIdentity] *)
#[export] Instance component_identity : HasBindingIdentity ComponentInstanceIdentity := {|
  artifact_path id := lookup_path (source_paths id) (comp_package (id_component id)) (comp_type_name (id_component id));
  fully_qualified_symbol id := Some (id_fqn id);
|}.

(** crates/spar-cli/src/variants_bridge.rs:78-90 [ComponentInstanceIdentity::new] *)
Definition identity_of (inst : SystemInstance) (paths : SourcePathMap) (idx : ComponentInstanceIdx) : Exec ComponentInstanceIdentity :=
  f ← component_fqn inst idx; c ← component inst idx;
  Done {| id_component := c; source_paths := paths; id_fqn := f |}.

(** crates/spar-cli/src/variants_bridge.rs:250-266 [VariantScope::new]: the flags
    of the components. *)
Definition variant_scope (inst : SystemInstance) (context : VariantContext) (paths : SourcePathMap) : Exec (list bool) :=
  mapM (λ '(idx, _), id ← identity_of inst paths idx; Done (keep_in_variant id context)) (all_components inst).

(** crates/spar-cli/src/variants_bridge.rs:269-271 [VariantScope::is_kept] *)
Definition is_kept (kept : list bool) (idx : ComponentInstanceIdx) : bool := default true (kept !! idx).

(** crates/spar-cli/src/variants_bridge.rs:274-285 [VariantScope::all_kept_components] *)
Definition all_kept_components (inst : SystemInstance) (kept : list bool) : list (ComponentInstanceIdx * ComponentInstance) :=
  List.filter (λ '(idx, _), is_kept kept idx) (all_components inst).

(** ** What a variant keeps of an instance

    The symbol of a component: that of its parent and its name; the topmost
    has its classifier's. *)
Inductive symbol_of (inst : SystemInstance) : ComponentInstanceIdx → string → Prop :=
  | symbol_root i c : components inst !! i = Some c → parent c = None → symbol_of inst i (classifier_symbol c)
  | symbol_child i c p s : components inst !! i = Some c → parent c = Some p → symbol_of inst p s →
      symbol_of inst i (s +:+ "." +:+ name c).

(** The component types and implementations that the files declare: package,
    name of the type, and file, in the order of the text. *)
Definition declarations (pairs : list (string * ItemTree)) : list (string * string * string) :=
  '(path, tree) ← pairs; pkg ← packages tree; item ← (pkg_public_items pkg ++ pkg_private_items pkg)%list;
  match item with
  | RComponentType i => match component_types tree !! i with Some t => [(pkg_name pkg, ct_name t, path)] | None => [] end
  | RComponentImpl i => match component_impls tree !! i with Some t => [(pkg_name pkg, ci_type_name t, path)] | None => [] end
  | _ => []
  end.

(** The file of the last declaration of that name, case ignored. *)
Definition same_name (package type_name : string) (d : string * string * string) : bool :=
  eq_ignore_ascii_case d.1.1 package && eq_ignore_ascii_case d.1.2 type_name.

Definition file_of (pairs : list (string * ItemTree)) (package type_name : string) : option string :=
  snd <$> last (List.filter (same_name package type_name) (declarations pairs)).

(** The types and implementations that a package lists are in their arenas. *)
Definition declared_in_range (tree : ItemTree) : Prop :=
  Forall (λ pkg, Forall (λ item, match item with
    | RComponentType i => is_Some (component_types tree !! i)
    | RComponentImpl i => is_Some (component_impls tree !! i)
    | _ => True
    end) (pkg_public_items pkg ++ pkg_private_items pkg)%list) (packages tree).

(** The scope of a binding, among the components. *)
Definition covers (inst : SystemInstance) (pairs : list (string * ItemTree)) (b : Binding) (i : ComponentInstanceIdx) : Prop :=
  match b with
  | Artifact artifact _ => ∃ c path, components inst !! i = Some c ∧
      file_of pairs (comp_package c) (comp_type_name c) = Some path ∧ normalize_path path = normalize_path artifact
  | Symbol symbol _ => ∃ s, symbol_of inst i s ∧
      (s = symbol ∨ ∃ nested, s = symbol +:+ "." +:+ nested ∨ s = symbol +:+ "::" +:+ nested)
  end.

#[local] Close Scope string_scope.

Lemma append_assoc a b c : (a +:+ b) +:+ c = a +:+ b +:+ c.
Proof. induction a as [|x a IH]; [done|]. change (String x ((a +:+ b) +:+ c) = String x (a +:+ b +:+ c)). by rewrite IH. Qed.

(** A loop that adds a list at each round adds the lists one after the other. *)
Lemma foldM_foldl {A B C} (f : A → B → Exec A) (add : A → C → A) (h : B → list C) xs :
  (∀ x m, x ∈ xs → f m x = Done (foldl add m (h x))) → ∀ m, foldM f m xs = Done (foldl add m (xs ≫= h)).
Proof.
  induction xs as [|x xs IH]; intros H m; [done|]. cbn [foldM]. rewrite H by by left. cbn [mbind Exec_bind].
  rewrite IH by (intros; apply H; by right). cbn [mbind list_bind]. by rewrite foldl_app.
Qed.

Definition record_declaration (m : SourcePathMap) (d : string * string * string) : SourcePathMap :=
  <[(to_ascii_lowercase d.1.1, to_ascii_lowercase d.1.2) := d.2]> m.

Lemma from_trees_declarations pairs : Forall (λ p, declared_in_range p.2) pairs →
  from_trees pairs = Done (foldl record_declaration ∅ (declarations pairs)).
Proof.
  intros H. unfold from_trees, declarations. rewrite Forall_forall in H. apply foldM_foldl.
  intros [path tree] m Hp%H. unfold declared_in_range in Hp. cbn [snd] in Hp. rewrite Forall_forall in Hp. apply foldM_foldl.
  intros pkg m' Hpkg%Hp. rewrite Forall_forall in Hpkg. apply foldM_foldl.
  intros item m'' Hi%Hpkg. destruct item as [i|i|i|i|]; cbn [add_item]; try done; destruct Hi as [t Ht];
    unfold arena_get; by rewrite Ht.
Qed.

Lemma lookup_declarations ds package type_name :
  lookup_path (foldl record_declaration ∅ ds) package type_name = snd <$> last (List.filter (same_name package type_name) ds).
Proof.
  unfold lookup_path. induction ds as [|d ds IH] using rev_ind; [apply lookup_empty|]. rewrite foldl_snoc, List.filter_app. cbn [List.filter].
  revert IH. generalize (foldl record_declaration ∅ ds) as m. intros m IH.
  unfold record_declaration, same_name at 2, eq_ignore_ascii_case. do 2 case_bool_decide; cbn [andb].
  2-4: rewrite app_nil_r, <- IH; apply (lookup_insert_ne (m : gmap (string * string) string)); congruence.
  rewrite last_snoc. cbn.
  replace (to_ascii_lowercase package, to_ascii_lowercase type_name)
    with (to_ascii_lowercase d.1.1, to_ascii_lowercase d.1.2) by congruence. apply lookup_insert_eq.
Qed.

Section scope.
Context (inst : SystemInstance) (Hwf : wf_instance inst).

Lemma fqn_walk_spec n i chain r : i < n → n ≤ length (components inst) →
  ∃ names top c s, fqn_walk n inst (Some i) chain r = Done (names ++ chain, top)%list ∧ components inst !! top = Some c ∧
    foldl (λ s nm, s +:+ "."%string +:+ nm) (classifier_symbol c) names = s ∧ symbol_of inst i s.
Proof.
  revert i chain r. induction n as [|n IH]; intros i chain r Hi Hn; [lia|]. cbn [fqn_walk].
  destruct (arena_get_lt (components inst) i) as (c & Hget & Hc); [lia|]. unfold component. rewrite Hget. cbn [mbind Exec_bind].
  destruct (parent c) as [p|] eqn:Hp.
  - pose proof (wf_parent _ Hwf _ _ _ Hc Hp). destruct (IH p (name c :: chain) r) as (names & top & c' & s & -> & Ht & Hs & Hsym); [lia..|].
    exists (names ++ [name c])%list, top, c', (s +:+ "."%string +:+ name c). split_and!; [by rewrite <- app_assoc|done| |].
    + by rewrite foldl_snoc, Hs.
    + by econstructor.
  - exists [], i, c, (classifier_symbol c). split_and!; [by destruct n|done..|by constructor].
Qed.

Lemma component_fqn_spec i : i < length (components inst) → ∃ s, component_fqn inst i = Done s ∧ symbol_of inst i s.
Proof.
  intros Hi. destruct (fqn_walk_spec (length (components inst)) i [] i Hi (le_n _)) as (names & top & c & s & E & Hc & Hs & Hsym).
  exists s. unfold component_fqn. rewrite E. cbn [mbind Exec_bind]. unfold component, arena_get. rewrite Hc. cbn.
  rewrite app_nil_r, Hs. by split.
Qed.

Lemma symbol_of_det i s s' : symbol_of inst i s → symbol_of inst i s' → s = s'.
Proof.
  intros H. revert s'. induction H as [i c Hc Hp|i c p s Hc Hp _ IH]; intros s' H'; inversion H'; simplify_eq; [done|].
  by erewrite IH.
Qed.

(** C30: which components a variant keeps.  On a well-formed instance, and files
    whose packages list types and implementations in range, the map of the
    files and the scope of a variant are built without a panic, with one flag
    per component, and a component is kept precisely when every binding that
    covers it requires active features only.  An artifact covers the
    components whose classifier is declared in that file: of several
    declarations of the type's name, case ignored, the last one counts, and an
    implementation declares the name of its type.  A symbol covers the
    components whose symbol is it, or goes on after it with a dot or a double
    colon, where the symbol of the root is its classifier and that of another
    component is its parent's with its own name; so what a symbol drops is
    dropped with all its subcomponents.  This is the code's meaning of a
    symbol, not that of the contract (docs/contracts/rivet-spar-variant-v1.md),
    by which a symbol covers the items declared in the body of the classifier
    it names: the classifier of a component other than the root plays no part
    in its symbol, so the contract's own example covers nothing
    ([classifier_is_not_covered]). *)
Theorem variant_scope_exact context pairs : Forall (λ p, declared_in_range p.2) pairs →
  ∃ paths kept, from_trees pairs = Done paths ∧ variant_scope inst context paths = Done kept ∧
    length kept = length (components inst) ∧
    (∀ i, i < length (components inst) → is_kept kept i = true ↔
       ∀ b, b ∈ vc_bindings context → covers inst pairs b i → requires b ⊆ vc_features context) ∧
    ∀ i c p symbol req, components inst !! i = Some c → parent c = Some p → Symbol symbol req ∈ vc_bindings context →
      ¬ req ⊆ vc_features context → covers inst pairs (Symbol symbol req) p → is_kept kept p = false ∧ is_kept kept i = false.
Proof.
  intros Hr. rewrite (from_trees_declarations pairs Hr). set (paths := foldl record_declaration ∅ (declarations pairs)). exists paths.
  assert (Hfile : ∀ package type_name, lookup_path paths package type_name = file_of pairs package type_name) by (intros; apply lookup_declarations).
  assert (∃ kept, variant_scope inst context paths = Done kept ∧ length kept = length (components inst) ∧
    ∀ i, i < length (components inst) → is_kept kept i = true ↔
       ∀ b, b ∈ vc_bindings context → covers inst pairs b i → requires b ⊆ vc_features context) as (kept & Hk & Hl & H).
  { assert (∃ kept, Forall2 (λ ic (b : bool), (id ← identity_of inst paths ic.1; Done (keep_in_variant id context)) = Done b ∧
      (b = true ↔ ∀ b', b' ∈ vc_bindings context → covers inst pairs b' ic.1 → requires b' ⊆ vc_features context))
      (all_components inst) kept) as [kept Hkept].
    { apply Forall_exists_Forall2_l, Forall_forall. intros [i c] Hic%all_components_elem. cbn.
      destruct (component_fqn_spec i) as (s & Hs & Hsym); [by eapply lookup_lt_Some|].
      unfold identity_of. rewrite Hs. cbn [mbind Exec_bind]. unfold component, arena_get. rewrite Hic. cbn.
      eexists; split; [done|]. rewrite keep_in_variant_exact.
      assert (Hcov : ∀ b, matches b {| id_component := c; source_paths := paths; id_fqn := s |} = true ↔ covers inst pairs b i).
      { intros [a r|sy r]; cbn [covers].
        - rewrite matches_artifact. change (artifact_path _) with (lookup_path paths (comp_package c) (comp_type_name c)).
          rewrite Hfile. naive_solver.
        - cbn. rewrite symbol_matches_exact. split; [intros Hm; by exists s|]. intros (s' & Hs' & Hm).
          by rewrite (symbol_of_det i s s'). }
      by setoid_rewrite Hcov. }
    exists kept. split_and!.
    - apply mapM_Done. eapply Forall2_impl; [exact Hkept|]. intros [i c] b [E _]. exact E.
    - rewrite <- (Forall2_length _ _ _ Hkept). unfold all_components. by rewrite length_imap.
    - intros i [c Hc]%lookup_lt_is_Some. assert (Hi : all_components inst !! i = Some (i, c)).
      { unfold all_components. by rewrite list_lookup_imap, Hc. }
      destruct (Forall2_lookup_l _ _ _ _ _ Hkept Hi) as (b & Hb & _ & E). unfold is_kept. by rewrite Hb. }
  exists kept. split_and!; [done..|]. intros i c p symbol req Hc Hp Hin Hreq Hcov.
  assert (Hlt : i < length (components inst)) by by eapply lookup_lt_Some. pose proof (wf_parent _ Hwf _ _ _ Hc Hp).
  assert (Hcov' : covers inst pairs (Symbol symbol req) i).
  { destruct Hcov as (s & Hs & Hm). exists (s +:+ "."%string +:+ name c). split; [by econstructor|]. right.
    destruct Hm as [->|(nested & [->| ->])]; [by exists (name c); left|exists (nested +:+ "."%string +:+ name c); left|
      exists (nested +:+ "."%string +:+ name c); right]; by rewrite ?append_assoc. }
  split; apply not_true_iff_false; intros Hkp; apply Hreq;
    [apply (proj1 (H p ltac:(lia)) Hkp _ Hin Hcov)|apply (proj1 (H i Hlt) Hkp _ Hin Hcov')].
Qed.
End scope.
#[local] Open Scope string_scope.

(** ** Examples *)

(** The prefix is stripped before backslashes are folded, so the two ways of
    writing a relative path are told apart. *)
Example dot_backslash_is_kept :
  normalize_path "./spec/a.aadl" = "spec/a.aadl" ∧ normalize_path ".\spec\a.aadl" = "./spec/a.aadl".
Proof. done. Qed.

Example sibling_does_not_match :
  symbol_matches "Engines::Engine.DieselV2" "Engines::Engine.Diesel" = false ∧
  symbol_matches "Engines::Engine.Diesel.cylinder1" "Engines::Engine.Diesel" = true.
Proof. done. Qed.

(** Only contexts of the supported version are read. *)
Lemma from_json_exact {E} (json : string → Result VariantContext E) s ctx :
  from_json json s = Ok ctx ↔ json s = Ok ctx ∧ rivet_spar_context_version ctx = SUPPORTED_VERSION.
Proof.
  unfold from_json. destruct (json s) as [c|e]; [|naive_solver].
  destruct (String.eqb_spec (rivet_spar_context_version c) SUPPORTED_VERSION); naive_solver.
Qed.

(** A system of one engine.  A component is named after the root's classifier,
    so a binding of the engine's own classifier does not cover it. *)
Definition engine_ex : SystemInstance :=
  let comp n p ty im cs :=
    {| name := n; category := CategoryRules.System; comp_type_name := ty; comp_impl_name := Some im; comp_package := "P";
       parent := p; children := cs; features := []; connections := []; flows := []; modes := [];
       mode_transitions := []; array_index := None; comp_in_modes := [] |} in
  set_components [comp "Sys.Impl" None "Sys" "Impl" [1]; comp "engine" (Some 0) "Engine" "Diesel" []] empty_instance.

Definition variant_ex (sym : string) : VariantContext :=
  {| rivet_spar_context_version := "1"; variant := "v"; vc_features := []; vc_bindings := [Symbol sym ["engine_diesel"]];
     feature_model_hash := ""; resolved_at := ""; generated_by := "" |}.

Example classifier_is_not_covered :
  variant_scope engine_ex (variant_ex "P::Engine.Diesel") ∅ = Done [true; true] ∧
  variant_scope engine_ex (variant_ex "P::Sys.Impl.engine") ∅ = Done [true; false].
Proof. split; vm_compute; reflexivity. Qed.

Lemma variant_scope_exact_witness :
  ∃ kept, variant_scope engine_ex (variant_ex "P::Sys.Impl") ∅ = Done kept ∧ is_kept kept 0 = false ∧ is_kept kept 1 = false.
Proof.
  destruct (variant_scope_exact engine_ex ltac:(apply wf_check_sound; vm_compute; reflexivity) (variant_ex "P::Sys.Impl") [] ltac:(constructor))
    as (paths & kept & Hp & Hk & _ & _ & H). exists kept. injection Hp as <-. split; [exact Hk|].
  eapply (H 1); [reflexivity|reflexivity|by left| |].
  - intros Hs. specialize (Hs "engine_diesel" ltac:(by left)). by apply not_elem_of_nil in Hs.
  - exists "P::Sys.Impl". split; [|by left].
    assert (∃ c, components engine_ex !! 0 = Some c ∧ parent c = None ∧ classifier_symbol c = "P::Sys.Impl") as (c & Hc & Hpc & <-)
      by (eexists; split_and!; reflexivity). by eapply symbol_root.
Defined.

(** Items given by their path and their symbol. *)
#[local] Instance pair_identity : HasBindingIdentity (option string * option string) :=
  {| artifact_path := fst; fully_qualified_symbol := snd |}.

(** Two bindings cover the engine; one requirement is not met. *)
Example keep_intersection_semantics :
  keep_in_variant (Some "./spec/engines/diesel.aadl", Some "Engines::Engine.Diesel.cylinder1")
    {| rivet_spar_context_version := "1"; variant := "v"; vc_features := ["engine_diesel"];
       vc_bindings := [Artifact "spec/engines/diesel.aadl" ["engine_diesel"]; Symbol "Engines::Engine.Diesel" ["emissions_eu5"]];
       feature_model_hash := ""; resolved_at := ""; generated_by := "" |} = false.
Proof. reflexivity. Qed.
#[local] Close Scope string_scope.
