(* ===== verification/Passes.v ===== *)
(** * The analysis passes over an instance

    [crates/spar-analysis/src/lib.rs]: what an analysis is and the runner that
    collects diagnostics; and the passes that check the structure of an
    instance, one section each: [hierarchy], [completeness],
    [subcomponent_rules], [connection_rules], [direction_rules],
    [connectivity], [mode_check], [mode_rules], [modal_rules], [flow_check],
    [binding_check] and [binding_rules]. *)
From S2P Require Import Prelude.
From S2P Require Import Diagnostics.
From S2P Require Import Names.
From S2P Require Import CategoryRules.
From S2P Require Import PropertyExpr.
From S2P Require Import ItemTree.
From S2P Require Import PropertyMap.
From S2P Require Import Instance.
From S2P Require Import Soms.
From S2P Require Import PropertyAccessors.
From S2P Require ModeReachability.
From S2P Require Emv2Propagation.
From S2P Require Rta.
From S2P Require Import BuilderSpec.
From S2P Require Import Instantiate.
From S2P Require Resolver.
From Stdlib Require Import Ascii String.
From stdpp Require Import gmap strings sets relations pretty.
Import CategoryRules ItemTree.
#[local] Open Scope string_scope.

(** ** Analyses and their runner *)

(** crates/spar-analysis/src/lib.rs:65-91 [Analysis]: a boxed analysis with,
    where it is a [ModalAnalysis], its run in a system operation mode. *)
Record Analysis := {
  an_name : string;
  analyze : SystemInstance → Exec (list AnalysisDiagnostic);
  as_modal : option (SystemInstance → SystemOperationMode → Exec (list AnalysisDiagnostic));
}.

(** crates/spar-analysis/src/lib.rs:114-116 [AnalysisRunner] *)
Definition AnalysisRunner : Type := list Analysis.

(** crates/spar-analysis/src/lib.rs:120-124 [AnalysisRunner::new] *)
Definition new_runner : AnalysisRunner := [].

(** crates/spar-analysis/src/lib.rs:127-129 [AnalysisRunner::register] *)
Definition register (r : AnalysisRunner) (a : Analysis) : AnalysisRunner := (r ++ [a])%list.

(** crates/spar-analysis/src/lib.rs:284-286 [AnalysisRunner::count] *)
Definition count (r : AnalysisRunner) : nat := length r.

(** crates/spar-analysis/src/lib.rs:289-296 [AnalysisRunner::run_all] *)
Definition run_all (r : AnalysisRunner) (inst : SystemInstance) : Exec (list AnalysisDiagnostic) :=
  concatM (λ a, analyze a inst) r.

Definition with_message (f : string → string) (d : AnalysisDiagnostic) : AnalysisDiagnostic :=
  {| severity := severity d; message := f (message d); path := path d; analysis := analysis d |}.

(** crates/spar-analysis/src/lib.rs:312-318 [AnalysisRunner::run_all_per_som]: one
    analysis in one mode. *)
Definition run_modal (inst : SystemInstance) (som : SystemOperationMode) (a : Analysis) : Exec (list AnalysisDiagnostic) :=
  match as_modal a with
  | Some modal => ds ← modal inst som; Done (map (with_message (λ m, "[mode: " +:+ som_name som +:+ "] " +:+ m)) ds)
  | None => Done []
  end.

(** crates/spar-analysis/src/lib.rs:309-320 [AnalysisRunner::run_all_per_som] *)
Definition run_in_som (r : AnalysisRunner) (inst : SystemInstance) (som : SystemOperationMode) : Exec (list AnalysisDiagnostic) :=
  concatM (run_modal inst som) r.

(** crates/spar-analysis/src/lib.rs:302-323 [AnalysisRunner::run_all_per_som] *)
Definition run_all_per_som (r : AnalysisRunner) (inst : SystemInstance) : Exec (list AnalysisDiagnostic) :=
  ds ← run_all r inst; ms ← concatM (run_in_som r inst) (system_operation_modes inst); Done (ds ++ ms)%list.

(** ** What the passes share *)

Definition diag (an : string) (sev : Severity) (p : list string) (msg : string) : AnalysisDiagnostic :=
  {| severity := sev; message := msg; path := p; analysis := an |}.

(** [if b { diags.push(x) }] *)
Definition when {A} (b : bool) (x : A) : list A := if b then [x] else [].

(** [for (i, comp) in instance.all_components()] *)
Definition each_component {A} (inst : SystemInstance) (f : ComponentInstanceIdx → ComponentInstance → Exec (list A)) : Exec (list A) :=
  concatM (λ '(i, c), f i c) (all_components inst).

Definition is_empty {A} (l : list A) : bool := match l with [] => true | _ => false end.

Definition feature_at (inst : SystemInstance) (i : FeatureInstanceIdx) : Exec FeatureInstance :=
  arena_get (feature_instances inst) i.

(** crates/spar-analysis/src/lib.rs:354-362 [component_depth] *)
Definition component_depth (inst : SystemInstance) (idx : ComponentInstanceIdx) : Exec nat :=
  c ← component inst idx; up ← walk_up inst (length (components inst)) (parent c); Done (length up).

(** crates/spar-hir-def/src/item_tree/mod.rs:273-281 [Direction::fmt] *)
Definition direction_fmt (d : Direction) : string :=
  match d with ItemTree.In => "in" | ItemTree.Out => "out" | ItemTree.InOut => "in out" end.

(** The first feature of that name, case ignored. *)
Fixpoint find_feature (inst : SystemInstance) (nm : Name) (fs : list FeatureInstanceIdx) : Exec (option FeatureInstance) :=
  match fs with
  | [] => Done None
  | i :: fs => f ← feature_at inst i; if eq_ci (feat_name f) nm then Done (Some f) else find_feature inst nm fs
  end.

(** The component of an end of a connection: the owner, or its first child of
    that name. *)
Definition end_component (inst : SystemInstance) (owner : ComponentInstanceIdx) (sub : option Name) : Exec (option ComponentInstanceIdx) :=
  match sub with
  | Some s => o ← component inst owner; find_child inst s (children o)
  | None => Done (Some owner)
  end.

(** crates/spar-analysis/src/connection_rules.rs:143-168 [find_feature_kind]: the
    feature itself; [direction_rules] has the same search twice. *)
Definition end_feature (inst : SystemInstance) (owner : ComponentInstanceIdx) (e : ConnectionEnd) : Exec (option FeatureInstance) :=
  c ← end_component inst owner (subcomponent e);
  match c with
  | Some i => comp ← component inst i; find_feature inst (feature e) (features comp)
  | None => Done None
  end.

(** ** [hierarchy] *)

(** crates/spar-analysis/src/hierarchy.rs:12-12 [MAX_RECOMMENDED_DEPTH] *)
Definition MAX_RECOMMENDED_DEPTH : nat := 8.

(** crates/spar-analysis/src/hierarchy.rs:118-161 [is_valid_containment] *)
Definition is_valid_containment (p child : ComponentCategory) : bool :=
  if bool_decide (p = Abstract) then true
  else if bool_decide (child = Abstract) then true
  else bool_decide (child ∈
    match p with
    | System => [System; Process; Device; Memory; Bus; Processor; VirtualProcessor; VirtualBus; Data]
    | Process => [Thread; ThreadGroup; Data; Subprogram; SubprogramGroup]
    | Thread => [Data; Subprogram]
    | ThreadGroup => [Thread; ThreadGroup; Data; Subprogram]
    | Processor => [Memory; Bus; VirtualProcessor; VirtualBus]
    | VirtualProcessor => [VirtualProcessor; VirtualBus]
    | Memory => [Memory; Bus]
    | Bus => [VirtualBus]
    | VirtualBus => [VirtualBus]
    | Device => [Bus; VirtualBus; Data]
    | Subprogram => [Data]
    | SubprogramGroup => [Subprogram; SubprogramGroup; Data]
    | Data => [Data; Subprogram]
    | Abstract => [child]
    end).

(** crates/spar-analysis/src/hierarchy.rs:60-69 [HierarchyAnalysis::analyze] *)
Definition trivially_empty (c : ComponentCategory) : bool :=
  match c with Data | Abstract | Subprogram | SubprogramGroup | Bus | VirtualBus | Device => true | _ => false end.

(** crates/spar-analysis/src/hierarchy.rs:38-52 [HierarchyAnalysis::analyze] *)
Definition check_containment (an : string) (valid : ComponentCategory → ComponentCategory → bool)
    (msg : ComponentInstance → ComponentInstance → string) (inst : SystemInstance) (comp : ComponentInstance) (child_idx : ComponentInstanceIdx)
  : Exec (list AnalysisDiagnostic) :=
  child ← component inst child_idx;
  if valid (category comp) (category child) then Done []
  else child_path ← component_path inst child_idx; Done [diag an Error child_path (msg comp child)].

(** crates/spar-analysis/src/hierarchy.rs:27-96 [HierarchyAnalysis::analyze] *)
Definition hierarchy_analyze (inst : SystemInstance) : Exec (list AnalysisDiagnostic) :=
  each_component inst (λ idx comp,
    p ← component_path inst idx;
    ds ← concatM (check_containment "hierarchy" is_valid_containment (λ comp child,
             category_fmt (category comp) +:+ " component '" +:+ name comp +:+ "' cannot contain " +:+ category_fmt (category child) +:+
             " component '" +:+ name child +:+ "'") inst comp) (children comp);
    depth ← component_depth inst idx;
    Done (ds
      ++ when (is_some (comp_impl_name comp) && is_empty (children comp) && negb (trivially_empty (category comp)))
           (diag "hierarchy" Info p ("implementation '" +:+ name comp +:+ "' has no subcomponents"))
      ++ when (MAX_RECOMMENDED_DEPTH <? depth)%nat
           (diag "hierarchy" Warning p ("component '" +:+ name comp +:+ "' is at nesting depth " +:+ pretty (N.of_nat depth) +:+
              " (recommended max: " +:+ pretty (N.of_nat MAX_RECOMMENDED_DEPTH) +:+ ")")))%list).

Definition hierarchy : Analysis := {| an_name := "hierarchy"; analyze := hierarchy_analyze; as_modal := None |}.

(** ** [completeness] *)

(** crates/spar-analysis/src/completeness.rs:36-47 [CompletenessAnalysis::analyze]:
    for each package and type whether a component has an implementation. *)
Definition type_has_impl (inst : SystemInstance) : gmap (string * string) bool :=
  foldl (λ m '(_, comp),
    let key := (comp_package comp, comp_type_name comp) in
    <[key := is_some (comp_impl_name comp) || default false (m !! key)]> m) ∅ (all_components inst).

(** crates/spar-analysis/src/completeness.rs:97-104 [CompletenessAnalysis::analyze] *)
Definition trivially_featureless (c : ComponentCategory) : bool :=
  match c with Data | Abstract | Memory | Bus | VirtualBus => true | _ => false end.

(** crates/spar-analysis/src/completeness.rs:49-121 [CompletenessAnalysis::analyze] *)
Definition check_complete (inst : SystemInstance) (has_impl : gmap (string * string) bool) (idx : ComponentInstanceIdx)
    (comp : ComponentInstance) : Exec (list AnalysisDiagnostic) :=
  p ← component_path inst idx;
  if String.eqb (comp_type_name comp) "" then
    Done [diag "completeness" Warning p ("component '" +:+ name comp +:+ "' has no classifier reference (unresolved type)")]
  else Done (
    when (negb (is_some (comp_impl_name comp)) && is_some (parent comp) &&
          negb (default false (has_impl !! (comp_package comp, comp_type_name comp))))
      (diag "completeness" Info p ("component '" +:+ name comp +:+ "' uses type '" +:+ comp_type_name comp +:+
         "' which has no implementation in scope"))
    ++ when (is_empty (features comp) && is_some (parent comp) && negb (trivially_featureless (category comp)))
         (diag "completeness" Info p ("component '" +:+ name comp +:+ "' of type '" +:+ comp_type_name comp +:+ "' has no features")))%list.

(** crates/spar-analysis/src/completeness.rs:27-139 [CompletenessAnalysis::analyze] *)
Definition completeness_analyze (inst : SystemInstance) : Exec (list AnalysisDiagnostic) :=
  ds ← each_component inst (check_complete inst (type_has_impl inst));
  Done (ds ++ map (λ d, diag "completeness" Error (inst_path d) (inst_message d)) (diagnostics inst))%list.

Definition completeness : Analysis := {| an_name := "completeness"; analyze := completeness_analyze; as_modal := None |}.

(** ** [subcomponent_rules] *)

(** The names that a name before them repeats, case ignored:
    [if seen.iter().any(..) { .. } else { seen.push(..) }]. *)
Fixpoint duplicates (seen : list string) (names : list string) : list string :=
  match names with
  | [] => []
  | n :: names =>
      if existsb (λ s, eq_ignore_ascii_case s n) seen then n :: duplicates seen names
      else duplicates (seen ++ [n])%list names
  end.

(** crates/spar-analysis/src/subcomponent_rules.rs:77-104 [check_unique_subcomponent_names] *)
Definition check_unique_subcomponent_names (inst : SystemInstance) (comp_idx : ComponentInstanceIdx) (p : list string)
  : Exec (list AnalysisDiagnostic) :=
  comp ← component inst comp_idx;
  cs ← mapM (component inst) (children comp);
  Done (map (λ n, diag "subcomponent_rules" Error p ("component '" +:+ name comp +:+ "': duplicate subcomponent name '" +:+ n +:+ "'"))
          (duplicates [] (map name cs))).

(** crates/spar-analysis/src/subcomponent_rules.rs:129-172 [is_valid_containment] *)
Definition subcomponent_containment (p child : ComponentCategory) : bool :=
  if bool_decide (p = Abstract) then true
  else if bool_decide (child = Abstract) then true
  else bool_decide (child ∈
    match p with
    | System => [System; Process; Device; Memory; Bus; Processor; VirtualProcessor; VirtualBus; Data]
    | Process => [Thread; ThreadGroup; Data; Subprogram; SubprogramGroup]
    | Thread => [Data; Subprogram]
    | ThreadGroup => [Thread; ThreadGroup; Data; Subprogram]
    | Processor => [Memory; Bus; VirtualProcessor; VirtualBus]
    | VirtualProcessor => [VirtualProcessor; VirtualBus]
    | Memory => [Memory; Bus]
    | Bus => [VirtualBus]
    | VirtualBus => [VirtualBus]
    | Device => [Bus; VirtualBus; Data]
    | Subprogram => [Data]
    | SubprogramGroup => [Subprogram; SubprogramGroup; Data]
    | Data => [Data; Subprogram]
    | Abstract => [child]
    end).

(** crates/spar-analysis/src/subcomponent_rules.rs:29-73 [SubcomponentRuleAnalysis::analyze] *)
Definition subcomponent_analyze (inst : SystemInstance) : Exec (list AnalysisDiagnostic) :=
  each_component inst (λ idx comp,
    p ← component_path inst idx;
    unique ← check_unique_subcomponent_names inst idx p;
    ds ← concatM (check_containment "subcomponent_rules" subcomponent_containment (λ comp child,
             category_fmt (category comp) +:+ " component '" +:+ name comp +:+ "' cannot contain " +:+ category_fmt (category child) +:+
             " subcomponent '" +:+ name child +:+ "' (AS5506 §4.5 containment rule)") inst comp) (children comp);
    Done (unique ++ ds)%list).

Definition subcomponent_rules : Analysis :=
  {| an_name := "subcomponent_rules"; analyze := subcomponent_analyze; as_modal := None |}.

(** ** [connection_rules] *)

(** crates/spar-analysis/src/connection_rules.rs:135-137 [are_feature_kinds_compatible] *)
Definition are_feature_kinds_compatible (s d : FeatureKind) : bool := bool_decide (s = d).

(** crates/spar-analysis/src/connection_rules.rs:143-168 [find_feature_kind] *)
Definition find_feature_kind (inst : SystemInstance) (owner : ComponentInstanceIdx) (e : ConnectionEnd) : Exec (option FeatureKind) :=
  f ← end_feature inst owner e; Done (option_map feat_kind f).

(** crates/spar-analysis/src/connection_rules.rs:58-96 [check_feature_kind_compatibility] *)
Definition check_feature_kind_compatibility (inst : SystemInstance) (conn : ConnectionInstance) (owner_idx : ComponentInstanceIdx)
  : Exec (list AnalysisDiagnostic) :=
  match src conn, dst conn with
  | Some s, Some d =>
      sk ← find_feature_kind inst owner_idx s;
      dk ← find_feature_kind inst owner_idx d;
      match sk, dk with
      | Some sk, Some dk =>
          if bool_decide (sk = AbstractFeature) || bool_decide (dk = AbstractFeature) then Done []
          else if are_feature_kinds_compatible sk dk then Done []
          else
            p ← component_path inst owner_idx;
            Done [diag "connection_rules" Error p ("connection '" +:+ conn_name conn +:+ "': source feature '" +:+ feature s +:+ "' is " +:+
              feature_fmt sk +:+ " but destination feature '" +:+ feature d +:+ "' is " +:+ feature_fmt dk +:+ " — feature kinds must match")]
      | _, _ => Done []
      end
  | _, _ => Done []
  end.

(** crates/spar-analysis/src/connection_rules.rs:113-119 [check_connection_self_loop] *)
Definition same_end (s d : ConnectionEnd) : bool :=
  match subcomponent s, subcomponent d with
  | Some a, Some b => eq_ci a b
  | None, None => true
  | _, _ => false
  end && eq_ci (feature s) (feature d).

(** crates/spar-analysis/src/connection_rules.rs:100-132 [check_connection_self_loop] *)
Definition check_connection_self_loop (conn : ConnectionInstance) (inst : SystemInstance) (owner_idx : ComponentInstanceIdx)
  : Exec (list AnalysisDiagnostic) :=
  match src conn, dst conn with
  | Some s, Some d =>
      if same_end s d then
        p ← component_path inst owner_idx;
        Done [diag "connection_rules" Error p ("connection '" +:+ conn_name conn +:+
          "': source and destination are the same (self-loop on feature '" +:+ feature s +:+ "')")]
      else Done []
  | _, _ => Done []
  end.

(** crates/spar-analysis/src/connection_rules.rs:29-43 [ConnectionRuleAnalysis::analyze] *)
Definition connection_analyze (inst : SystemInstance) : Exec (list AnalysisDiagnostic) :=
  each_component inst (λ idx comp, concatM (λ ci,
    conn ← connection inst ci;
    ds1 ← check_feature_kind_compatibility inst conn idx;
    ds2 ← check_connection_self_loop conn inst idx;
    Done (ds1 ++ ds2)%list) (connections comp)).

Definition connection_rules : Analysis := {| an_name := "connection_rules"; analyze := connection_analyze; as_modal := None |}.

(** ** [direction_rules] *)

(** crates/spar-analysis/src/direction_rules.rs:209-216 [ConnectionPattern] *)
Inductive ConnectionPattern := Across | Up | Down.

(** crates/spar-analysis/src/direction_rules.rs:219-230 [classify_connection] *)
Definition classify_connection (s d : option Name) : ConnectionPattern :=
  match s, d with
  | Some _, Some _ => Across
  | Some _, None => Up
  | None, Some _ => Down
  | None, None => Across
  end.

(** crates/spar-analysis/src/direction_rules.rs:236-262 [find_feature_direction] *)
Definition find_feature_direction (inst : SystemInstance) (owner : ComponentInstanceIdx) (e : ConnectionEnd) : Exec (option Direction) :=
  f ← end_feature inst owner e; Done (match f with Some f => direction f | None => None end).

(** crates/spar-analysis/src/direction_rules.rs:293-295 [is_output_compatible] *)
Definition is_output_compatible (d : Direction) : bool := match d with ItemTree.Out | ItemTree.InOut => true | _ => false end.

(** crates/spar-analysis/src/direction_rules.rs:298-300 [is_input_compatible] *)
Definition is_input_compatible (d : Direction) : bool := match d with ItemTree.In | ItemTree.InOut => true | _ => false end.

(** crates/spar-analysis/src/direction_rules.rs:84-93 [DirectionRuleAnalysis::analyze]:
    the diagnostic of an end with the wrong direction. *)
Definition wrong_direction (p : list string) (conn : ConnectionInstance) (port f : string) (d : Direction) (expected kind : string)
  : AnalysisDiagnostic :=
  diag "direction_rules" Error p ("connection '" +:+ conn_name conn +:+ "': " +:+ port +:+ " port '" +:+ f +:+ "' has direction '" +:+
    direction_fmt d +:+ "', expected " +:+ expected +:+ " for " +:+ kind +:+ " connection").

Definition out_ports : string := "'out' or 'in out'".
Definition in_ports : string := "'in' or 'in out'".

(** crates/spar-analysis/src/direction_rules.rs:80-162 [DirectionRuleAnalysis::analyze] *)
Definition check_pattern (p : list string) (conn : ConnectionInstance) (s d : ConnectionEnd) (src_dir dst_dir : Direction)
  : list AnalysisDiagnostic :=
  (match classify_connection (subcomponent s) (subcomponent d) with
  | Across =>
      when (negb (is_output_compatible src_dir)) (wrong_direction p conn "source" (feature s) src_dir out_ports "across") ++
      when (negb (is_input_compatible dst_dir)) (wrong_direction p conn "destination" (feature d) dst_dir in_ports "across")
  | Up =>
      when (negb (is_output_compatible src_dir)) (wrong_direction p conn "source" (feature s) src_dir out_ports "up") ++
      when (negb (is_output_compatible dst_dir)) (wrong_direction p conn "enclosing" (feature d) dst_dir out_ports "up")
  | Down =>
      when (negb (is_input_compatible src_dir)) (wrong_direction p conn "enclosing" (feature s) src_dir in_ports "down") ++
      when (negb (is_input_compatible dst_dir)) (wrong_direction p conn "destination" (feature d) dst_dir in_ports "down")
  end)%list.

(** crates/spar-analysis/src/direction_rules.rs:165-190 [DirectionRuleAnalysis::analyze] *)
Definition check_bidirectional (p : list string) (conn : ConnectionInstance) (s d : ConnectionEnd) (src_dir dst_dir : Direction)
  : list AnalysisDiagnostic :=
  let msg port f dir := diag "direction_rules" Error p ("connection '" +:+ conn_name conn +:+
        "': bidirectional connection requires 'in out' on " +:+ port +:+ " port '" +:+ f +:+ "', found '" +:+ direction_fmt dir +:+ "'") in
  if is_bidirectional conn then
    (when (negb (bool_decide (src_dir = ItemTree.InOut))) (msg "source" (feature s) src_dir) ++
     when (negb (bool_decide (dst_dir = ItemTree.InOut))) (msg "destination" (feature d) dst_dir))%list
  else [].

(** crates/spar-analysis/src/direction_rules.rs:40-200 [DirectionRuleAnalysis::analyze]:
    one connection.  The kind of the source is looked up and not used. *)
Definition check_direction (inst : SystemInstance) (comp_idx : ComponentInstanceIdx) (p : list string) (ci : ConnectionInstanceIdx)
  : Exec (list AnalysisDiagnostic) :=
  conn ← connection inst ci;
  match src conn, dst conn with
  | Some s, Some d =>
      src_dir ← find_feature_direction inst comp_idx s;
      dst_dir ← find_feature_direction inst comp_idx d;
      _ ← find_feature_kind inst comp_idx s;
      if bool_decide (conn_kind conn = AccessConnection) then Done []
      else match src_dir, dst_dir with
           | Some sd, Some dd => Done (check_pattern p conn s d sd dd ++ check_bidirectional p conn s d sd dd)%list
           | _, _ => Done []
           end
  | _, _ => Done []
  end.

(** crates/spar-analysis/src/direction_rules.rs:31-204 [DirectionRuleAnalysis::analyze] *)
Definition direction_analyze (inst : SystemInstance) : Exec (list AnalysisDiagnostic) :=
  each_component inst (λ idx comp, p ← component_path inst idx; concatM (check_direction inst idx p) (connections comp)).

Definition direction_rules : Analysis := {| an_name := "direction_rules"; analyze := direction_analyze; as_modal := None |}.

(** ** [modal] *)

(** crates/spar-analysis/src/modal.rs:82-105 [is_connection_active_in_som] *)
Definition is_connection_active_in_som (inst : SystemInstance) (owner : ComponentInstanceIdx) (in_modes : list Name)
    (som : SystemOperationMode) : Exec bool :=
  match in_modes with
  | [] => Done true
  | _ =>
      let fix scan sels :=
        match sels with
        | [] => Done true
        | (_, mode_inst_idx) :: sels =>
            m ← arena_get (mode_instances inst) mode_inst_idx;
            if Nat.eqb (mode_owner m) owner
            then Done (existsb (λ n, eq_ignore_ascii_case n (mode_name m)) in_modes)
            else scan sels
        end in
      scan (mode_selections som)
  end.

(** crates/spar-analysis/src/modal.rs:107-120 [is_active_in_mode] *)
Definition is_active_in_mode (in_modes : list Name) (current_mode : option string) : bool :=
  match in_modes, current_mode with
  | [], _ | _, None => true
  | _, Some mode => existsb (λ m, eq_ignore_ascii_case m mode) in_modes
  end.

(** ** [connectivity] *)

(** crates/spar-analysis/src/connectivity.rs:387-394 [resolve_subcomponent]: the
    first child of exactly that name. *)
Fixpoint find_child_exact (inst : SystemInstance) (nm : string) (cs : list ComponentInstanceIdx) : Exec (option ComponentInstanceIdx) :=
  match cs with
  | [] => Done None
  | i :: cs => c ← component inst i; if String.eqb (name c) nm then Done (Some i) else find_child_exact inst nm cs
  end.

(** crates/spar-analysis/src/connectivity.rs:380-398 [resolve_subcomponent] *)
Definition resolve_subcomponent (inst : SystemInstance) (owner : ComponentInstanceIdx) (sub : option Name) : Exec (option ComponentInstanceIdx) :=
  match sub with
  | Some s => o ← component inst owner; find_child_exact inst s (children o)
  | None => Done (Some owner)
  end.

(** crates/spar-analysis/src/connectivity.rs:349-358 [collect_connected_features_with_mode]:
    the ports at the ends of a connection. *)
Definition connection_ports (inst : SystemInstance) (conn : ConnectionInstance) : Exec (list (ComponentInstanceIdx * string)) :=
  let port e := match e with
                | Some e => c ← resolve_subcomponent inst (conn_owner conn) (subcomponent e);
                            Done (match c with Some i => [(i, feature e)] | None => [] end)
                | None => Done []
                end in
  s ← port (src conn); d ← port (dst conn); Done (s ++ d)%list.

(** crates/spar-analysis/src/connectivity.rs:362-371 [collect_connected_features_with_mode] *)
Definition semantic_ports (inst : SystemInstance) : list (ComponentInstanceIdx * string) :=
  sc ← semantic_connections inst; [ultimate_source sc; ultimate_destination sc].

(** crates/spar-analysis/src/connectivity.rs:335-374 [collect_connected_features_with_mode] *)
Definition collect_connected_features_with_mode (inst : SystemInstance) (mode_filter : option string)
  : Exec (gset (ComponentInstanceIdx * string)) :=
  ps ← concatM (λ conn, if is_active_in_mode (conn_in_modes conn) mode_filter then connection_ports inst conn else Done [])
         (connection_instances inst);
  Done (list_to_set (ps ++ semantic_ports inst)%list).

(** crates/spar-analysis/src/connectivity.rs:328-332 [collect_connected_features] *)
Definition collect_connected_features (inst : SystemInstance) : Exec (gset (ComponentInstanceIdx * string)) :=
  collect_connected_features_with_mode inst None.

(** crates/spar-analysis/src/connectivity.rs:228-266 [collect_connected_features_in_som] *)
Definition collect_connected_features_in_som (inst : SystemInstance) (som : SystemOperationMode)
  : Exec (gset (ComponentInstanceIdx * string)) :=
  ps ← concatM (λ conn,
         active ← is_connection_active_in_som inst (conn_owner conn) (conn_in_modes conn) som;
         if (active : bool) then connection_ports inst conn else Done []) (connection_instances inst);
  Done (list_to_set (ps ++ semantic_ports inst)%list).

(** crates/spar-analysis/src/connectivity.rs:269-276 [is_port_feature] *)
Definition is_port_feature (k : FeatureKind) : bool := match k with DataPort | EventPort | EventDataPort => true | _ => false end.

(** [str::strip_suffix] of one character. *)
Fixpoint strip_last (c : ascii) (s : string) : option string :=
  match s with
  | "" => None
  | String b "" => if Ascii.eqb b c then Some "" else None
  | String b s => String b <$> strip_last c s
  end.

(** crates/spar-analysis/src/connectivity.rs:286-314 [is_intentionally_unconnected] *)
Definition is_intentionally_unconnected (inst : SystemInstance) (comp_idx : ComponentInstanceIdx) (feature_name : string) : bool :=
  match PropertyMap.get (properties_for inst comp_idx) "SPAR_Properties" "Intentionally_Unconnected" with
  | None => false
  | Some value =>
      let lower := Names.to_ascii_lowercase (trim value) in
      if String.eqb lower "all" || String.eqb lower "true" then true
      else
        let inner := match lower with
                     | String "("%char s => default lower (strip_last ")"%char s)
                     | _ => lower
                     end in
        existsb (λ item, String.eqb (trim item) (Names.to_ascii_lowercase feature_name)) (split_on (Ascii.eqb ","%char) inner)
  end.

(** crates/spar-analysis/src/connectivity.rs:67-101 [ConnectivityAnalysis::analyze] *)
Definition unconnected (p : list string) (feat : FeatureInstance) : AnalysisDiagnostic :=
  match direction feat with
  | Some ItemTree.In | Some ItemTree.InOut =>
      diag "connectivity" Warning p ("input port '" +:+ feat_name feat +:+ "' has no incoming connection")
  | Some ItemTree.Out => diag "connectivity" Warning p ("output port '" +:+ feat_name feat +:+ "' has no outgoing connection")
  | None => diag "connectivity" Info p ("feature '" +:+ feat_name feat +:+ "' has no direction and no connections")
  end.

(** crates/spar-analysis/src/connectivity.rs:47-103 [ConnectivityAnalysis::analyze] *)
Definition check_ports (inst : SystemInstance) (connected : gset (ComponentInstanceIdx * string)) (comp_idx : ComponentInstanceIdx)
    (comp : ComponentInstance) : Exec (list AnalysisDiagnostic) :=
  concatM (λ fi,
    feat ← feature_at inst fi;
    if negb (is_port_feature (feat_kind feat)) then Done []
    else if bool_decide ((comp_idx, feat_name feat) ∈ connected) then Done []
    else if is_intentionally_unconnected inst comp_idx (feat_name feat) then Done []
    else p ← component_path inst comp_idx; Done [unconnected p feat]) (features comp).

(** crates/spar-analysis/src/connectivity.rs:109-142 [ConnectivityAnalysis::analyze] *)
Definition check_dangling (inst : SystemInstance) (comp_idx : ComponentInstanceIdx) (comp : ComponentInstance)
  : Exec (list AnalysisDiagnostic) :=
  if is_empty (connections comp) then Done []
  else
    ds ← concatM (λ ch,
           child ← component inst ch;
           if is_empty (features child) then
             p ← component_path inst ch;
             Done [diag "connectivity" Warning p ("component '" +:+ name child +:+ "' has no features but parent '" +:+ name comp +:+
               "' declares connections")]
           else Done []) (children comp);
    if is_empty (features comp) && is_empty (children comp) then
      p ← component_path inst comp_idx;
      Done (ds ++ [diag "connectivity" Warning p ("component '" +:+ name comp +:+
        "' declares connections but has no features or subcomponents")])%list
    else Done ds.

(** crates/spar-analysis/src/connectivity.rs:32-146 [ConnectivityAnalysis::analyze] *)
Definition connectivity_analyze (inst : SystemInstance) : Exec (list AnalysisDiagnostic) :=
  connected ← collect_connected_features inst;
  ds1 ← each_component inst (check_ports inst connected);
  ds2 ← each_component inst (check_dangling inst);
  Done (ds1 ++ ds2)%list.

(** crates/spar-analysis/src/connectivity.rs:150-224 [ConnectivityAnalysis::analyze_in_mode] *)
Definition connectivity_in_mode (inst : SystemInstance) (som : SystemOperationMode) : Exec (list AnalysisDiagnostic) :=
  connected ← collect_connected_features_in_som inst som;
  each_component inst (λ idx comp,
    active ← Rta.is_component_active_in_som inst idx som;
    if (active : bool) then check_ports inst connected idx comp else Done []).

Definition connectivity : Analysis :=
  {| an_name := "connectivity"; analyze := connectivity_analyze; as_modal := Some connectivity_in_mode |}.

(** ** [mode_check] *)

(** crates/spar-analysis/src/mode_check.rs:96-102 [ModeCheckAnalysis::analyze] *)
Definition mt_label (mt : ModeTransitionInstance) : string :=
  match mt_name mt with Some n => n | None => mt_source mt +:+ "-[]->" +:+ mt_destination mt end.

Definition initial_names (ms : list ModeInstance) : list string := map mode_name (List.filter is_initial ms).

(** crates/spar-analysis/src/mode_check.rs:105-109 [ModeCheckAnalysis::analyze] *)
Definition declares_mode (ms : list ModeInstance) (n : Name) : bool := existsb (λ m, eq_ignore_ascii_case (mode_name m) n) ms.

(** crates/spar-analysis/src/mode_check.rs:95-163 [ModeCheckAnalysis::analyze]: one
    transition. *)
Definition check_transition (inst : SystemInstance) (comp : ComponentInstance) (p : list string) (ms : list ModeInstance)
    (mt : ModeTransitionInstance) : Exec (list AnalysisDiagnostic) :=
  fs ← mapM (feature_at inst) (features comp);
  let here := "mode transition '" +:+ mt_label mt +:+ "' in '" +:+ name comp +:+ "': " in
  Done (when (negb (is_empty ms) && negb (declares_mode ms (mt_source mt)))
     (diag "mode_check" Error p (here +:+ "source mode '" +:+ mt_source mt +:+ "' is not declared on this component")) ++
   when (negb (is_empty ms) && negb (declares_mode ms (mt_destination mt)))
     (diag "mode_check" Error p (here +:+ "destination mode '" +:+ mt_destination mt +:+ "' is not declared on this component")) ++
   (trigger ← mt_triggers mt;
    when (negb (existsb (λ f, eq_ignore_ascii_case (feat_name f) trigger) fs))
      (diag "mode_check" Warning p (here +:+ "trigger '" +:+ trigger +:+ "' does not match any feature on this component"))))%list.

(** crates/spar-analysis/src/mode_check.rs:27-168 [ModeCheckAnalysis::analyze] *)
Definition mode_check_analyze (inst : SystemInstance) : Exec (list AnalysisDiagnostic) :=
  each_component inst (λ idx comp,
    ms ← modes_for inst idx;
    ts ← mode_transitions_for inst idx;
    p ← component_path inst idx;
    ds ← concatM (check_transition inst comp p ms) ts;
    let initial := initial_names ms in
    Done (
      when (negb (is_empty ts) && is_empty ms)
        (diag "mode_check" Warning p ("component '" +:+ name comp +:+ "' has " +:+ pretty (N.of_nat (List.length ts)) +:+
           " mode transition(s) but no modes declared"))
      ++ (if is_empty ms then []
          else match List.length initial with
               | 0 => [diag "mode_check" Error p ("component '" +:+ name comp +:+ "' has " +:+ pretty (N.of_nat (List.length ms)) +:+
                         " mode(s) but no initial mode (exactly one mode must be declared initial)")]
               | 1 => []
               | n => [diag "mode_check" Error p ("component '" +:+ name comp +:+ "' has " +:+ pretty (N.of_nat n) +:+
                         " initial modes (" +:+ str_join ", " initial +:+ ") but exactly one is required")]
               end)
      ++ ds)%list).

Definition mode_check : Analysis := {| an_name := "mode_check"; analyze := mode_check_analyze; as_modal := None |}.

(** ** [mode_rules] *)

(** crates/spar-analysis/src/mode_rules.rs:55-78 [check_unique_mode_names] *)
Definition check_unique_mode_names (ms : list ModeInstance) (comp : ComponentInstance) (p : list string) : list AnalysisDiagnostic :=
  map (λ n, diag "mode_rules" Error p ("component '" +:+ name comp +:+ "': duplicate mode name '" +:+ n +:+ "'"))
    (duplicates [] (map mode_name ms)).

(** crates/spar-analysis/src/mode_rules.rs:97-122 [check_transition_trigger_kinds]: one
    trigger. *)
Definition check_trigger_kind (inst : SystemInstance) (comp : ComponentInstance) (p : list string) (mt : ModeTransitionInstance)
    (trigger : Name) : Exec (list AnalysisDiagnostic) :=
  f ← find_feature inst trigger (features comp);
  Done match f with
       | Some f =>
           when (negb (bool_decide (feat_kind f ∈ [EventPort; EventDataPort])))
             (diag "mode_rules" Warning p ("mode transition '" +:+ mt_label mt +:+ "' in '" +:+ name comp +:+ "': trigger '" +:+ trigger +:+
                "' is a " +:+ feature_fmt (feat_kind f) +:+ " but should be an event port or event data port"))
       | None => []
       end.

(** crates/spar-analysis/src/mode_rules.rs:82-126 [check_transition_trigger_kinds] *)
Definition check_transition_trigger_kinds (inst : SystemInstance) (ts : list ModeTransitionInstance) (comp : ComponentInstance)
    (p : list string) : Exec (list AnalysisDiagnostic) :=
  concatM (λ mt, concatM (check_trigger_kind inst comp p mt) (mt_triggers mt)) ts.

(** crates/spar-analysis/src/mode_rules.rs:25-51 [ModeRuleAnalysis::analyze] *)
Definition mode_rules_analyze (inst : SystemInstance) : Exec (list AnalysisDiagnostic) :=
  each_component inst (λ idx comp,
    ms ← modes_for inst idx;
    ts ← mode_transitions_for inst idx;
    p ← component_path inst idx;
    ds ← check_transition_trigger_kinds inst ts comp p;
    Done (check_unique_mode_names ms comp p ++ ds)%list).

Definition mode_rules : Analysis := {| an_name := "mode_rules"; analyze := mode_rules_analyze; as_modal := None |}.

(** ** [modal_rules] *)

(** crates/spar-analysis/src/modal_rules.rs:193-201 [check_mode_reachability]: one
    transition seen from [current]; the top of the stack is the head of the
    list. *)
Definition follow (current : string) (st : list string * list string) (mt : ModeTransitionInstance) : list string * list string :=
  if String.eqb (Names.to_ascii_lowercase (mt_source mt)) current then
    let d := Names.to_ascii_lowercase (mt_destination mt) in
    if bool_decide (d ∈ st.1) then st else ((st.1 ++ [d])%list, d :: st.2)
  else st.

(** crates/spar-analysis/src/modal_rules.rs:192-202 [check_mode_reachability] *)
Fixpoint search_modes (fuel : nat) (ts : list ModeTransitionInstance) (reachable queue : list string) : Exec (list string) :=
  match queue with
  | [] => Done reachable
  | current :: queue =>
      match fuel with
      | O => Stuck
      | S fuel => let st := foldl (follow current) (reachable, queue) ts in search_modes fuel ts st.1 st.2
      end
  end.

(** crates/spar-analysis/src/modal_rules.rs:170-220 [check_mode_reachability]: a mode
    is put on the stack at most once. *)
Definition check_mode_reachability (ms : list ModeInstance) (ts : list ModeTransitionInstance) (comp : ComponentInstance)
    (p : list string) : Exec (list AnalysisDiagnostic) :=
  if (List.length ms <=? 1)%nat || is_empty ts then Done []
  else match List.find is_initial ms with
       | None => Done []
       | Some m =>
           let start := Names.to_ascii_lowercase (mode_name m) in
           reachable ← search_modes (S (List.length ts)) ts [start] [start];
           Done (mode ← ms;
             when (negb (bool_decide (Names.to_ascii_lowercase (mode_name mode) ∈ reachable)))
               (diag "modal_rules" Warning p ("mode '" +:+ mode_name mode +:+ "' in component '" +:+ name comp +:+
                  "' is not reachable from initial mode '" +:+ mode_name m +:+ "' via any transition path")))
       end.

(** crates/spar-analysis/src/modal_rules.rs:86-146 [ModalRuleAnalysis::analyze]: one
    transition. *)
Definition check_endpoints (comp : ComponentInstance) (p : list string) (ms : list ModeInstance) (mt : ModeTransitionInstance)
  : list AnalysisDiagnostic :=
  let here := "mode transition '" +:+ mt_label mt +:+ "' in '" +:+ name comp +:+ "': " in
  (when (negb (declares_mode ms (mt_source mt)))
     (diag "modal_rules" Error p (here +:+ "source mode '" +:+ mt_source mt +:+ "' is not declared in this component")) ++
   when (negb (declares_mode ms (mt_destination mt)))
     (diag "modal_rules" Error p (here +:+ "destination mode '" +:+ mt_destination mt +:+ "' is not declared in this component")) ++
   when (eq_ignore_ascii_case (mt_source mt) (mt_destination mt))
     (diag "modal_rules" Warning p (here +:+ "source and destination are the same mode '" +:+ mt_source mt +:+ "' (self-transition)")))%list.

(** crates/spar-analysis/src/modal_rules.rs:29-166 [ModalRuleAnalysis::analyze] *)
Definition modal_rules_analyze (inst : SystemInstance) : Exec (list AnalysisDiagnostic) :=
  each_component inst (λ idx comp,
    ms ← modes_for inst idx;
    ts ← mode_transitions_for inst idx;
    p ← component_path inst idx;
    if is_empty ms then Done []
    else
      let initial := initial_names ms in
      let ds := (match List.length initial with
                | 0 => [diag "modal_rules" Error p ("component '" +:+ name comp +:+ "' has " +:+ pretty (N.of_nat (List.length ms)) +:+
                          " mode(s) but none is marked as initial — exactly one initial mode is required")]
                | 1 => []
                | n => [diag "modal_rules" Error p ("component '" +:+ name comp +:+ "' has " +:+ pretty (N.of_nat n) +:+
                          " initial modes (" +:+ str_join ", " initial +:+ ") — exactly one initial mode is required")]
                end ++ (ts ≫= check_endpoints comp p ms))%list in
      if is_empty (connections comp) then Done ds
      else rs ← check_mode_reachability ms ts comp p; Done (ds ++ rs)%list).

Definition modal_rules : Analysis := {| an_name := "modal_rules"; analyze := modal_rules_analyze; as_modal := None |}.

(** ** [flow_check] *)

(** crates/spar-analysis/src/flow_check.rs:45-52 [FlowCheckAnalysis::analyze] *)
Definition has_direction (compatible : Direction → bool) (fs : list FeatureInstance) : bool :=
  existsb (λ f, match direction f with Some d => compatible d | None => false end) fs.

(** crates/spar-analysis/src/flow_check.rs:41-119 [FlowCheckAnalysis::analyze]: one
    flow.  A feature outside the arena panics here at once, in the code when a
    search reaches it. *)
Definition check_flow (inst : SystemInstance) (p : list string) (comp : ComponentInstance) (fi : FlowInstanceIdx)
  : Exec (list AnalysisDiagnostic) :=
  flow ← arena_get (flow_instances inst) fi;
  fs ← mapM (feature_at inst) (features comp);
  let has_out := has_direction is_output_compatible fs in
  let has_in := has_direction is_input_compatible fs in
  let report kind what := diag "flow_check" Warning p ("flow " +:+ kind +:+ " '" +:+ flow_name flow +:+ "' on component '" +:+ name comp +:+ "' which " +:+ what) in
  Done match flow_kind flow with
  | FlowSource => when (negb has_out && negb (is_empty (features comp))) (report "source" "has no output ports")
  | FlowSink => when (negb has_in && negb (is_empty (features comp))) (report "sink" "has no input ports")
  | FlowPath => when ((negb has_in || negb has_out) && negb (is_empty (features comp))) (report "path" "lacks both in and out ports")
  end.

(** crates/spar-analysis/src/flow_check.rs:184-205 [FlowCheckAnalysis::analyze]: the
    segment at position [i]. *)
Definition check_segment (p : list string) (owner : ComponentInstance) (conns : list ConnectionInstance) (e2e : EndToEndFlowInstance)
    (i : nat) (seg : Name) : list AnalysisDiagnostic :=
  when (Nat.odd i && negb (existsb (λ c, eq_ci (conn_name c) seg) conns) && negb (contains_char "."%char seg))
    (diag "flow_check" Warning p ("end-to-end flow '" +:+ e2e_name e2e +:+ "': segment '" +:+ seg +:+ "' at position " +:+
       pretty (N.of_nat i) +:+ " is not a known connection in '" +:+ name owner +:+ "'")).

(** crates/spar-analysis/src/flow_check.rs:161-178 [FlowCheckAnalysis::analyze] *)
Definition nested_diag (p : list string) (e2e : EndToEndFlowInstance) (i : nat) (seg : Name) : AnalysisDiagnostic :=
  let kind := if Nat.even i then "flow" else "connection" in
  let head := before_char "."%char seg in
  diag "flow_check" Error p ("end-to-end flow '" +:+ e2e_name e2e +:+ "': " +:+ kind +:+ " segment '" +:+ seg +:+ "' at position " +:+
    pretty (N.of_nat i) +:+ " reaches inside subcomponent '" +:+ head +:+
    "', which AADL does not allow — a flow element is `subcomponent.flow` and a connection element is a bare name; declare a flow specification on '"
    +:+ head +:+ "' and implement it there (latency descends into that implementation), or write the end-to-end flow in the implementation of '"
    +:+ head +:+ "'; this flow is not analysed").

(** crates/spar-analysis/src/flow_check.rs:123-206 [FlowCheckAnalysis::analyze]: one
    end-to-end flow.  A connection outside the arena panics here at once, in
    the code when a search reaches it. *)
Definition check_e2e (inst : SystemInstance) (e2e : EndToEndFlowInstance) : Exec (list AnalysisDiagnostic) :=
  owner ← component inst (e2e_owner e2e);
  p ← component_path inst (e2e_owner e2e);
  let segs := e2e_segments e2e in
  if is_empty segs then
    Done [diag "flow_check" Error p ("end-to-end flow '" +:+ e2e_name e2e +:+ "' in '" +:+ name owner +:+ "' has no segments")]
  else
    let even := when (Nat.even (List.length segs))
      (diag "flow_check" Warning p ("end-to-end flow '" +:+ e2e_name e2e +:+ "' in '" +:+ name owner +:+ "' has " +:+
         pretty (N.of_nat (List.length segs)) +:+ " segments (expected odd number: flow, conn, flow, ...)")) in
    match nested_segment e2e with
    | Some (i, seg) => Done (even ++ [nested_diag p e2e i seg])%list
    | None =>
        conns ← mapM (connection inst) (connections owner);
        Done (even ++ List.concat (imap (check_segment p owner conns e2e) segs))%list
    end.

(** crates/spar-analysis/src/flow_check.rs:28-209 [FlowCheckAnalysis::analyze] *)
Definition flow_check_analyze (inst : SystemInstance) : Exec (list AnalysisDiagnostic) :=
  ds ← each_component inst (λ idx comp,
         p ← component_path inst idx;
         concatM (check_flow inst p comp) (flows comp));
  es ← concatM (check_e2e inst) (e2e_flow_instances inst);
  Done (ds ++ es)%list.

Definition flow_check : Analysis := {| an_name := "flow_check"; analyze := flow_check_analyze; as_modal := None |}.

(** ** [binding_check] and [binding_rules] *)

(** crates/spar-analysis/src/binding_check.rs:60-65 [BindingCheckAnalysis::check_bindings] *)
Definition has_processors (inst : SystemInstance) : bool :=
  existsb (λ c, bool_decide (category c ∈ [Processor; VirtualProcessor])) (components inst).

(** crates/spar-analysis/src/binding_check.rs:66-68 [BindingCheckAnalysis::check_bindings] *)
Definition has_memory (inst : SystemInstance) : bool := existsb (λ c, bool_decide (category c = Memory)) (components inst).

(** crates/spar-analysis/src/binding_check.rs:122-124 [BindingCheckAnalysis::check_bindings]:
    the value of a binding property, qualified or not. *)
Definition binding_value (props : PropertyMap) (nm : string) : option string :=
  match PropertyMap.get props "Deployment_Properties" nm with
  | Some v => Some v
  | None => PropertyMap.get props "" nm
  end.

Definition PROCESSOR_CATEGORIES : list ComponentCategory := [Processor; VirtualProcessor].
Definition MEMORY_CATEGORIES : list ComponentCategory := [Memory; System; Processor].

(** crates/spar-analysis/src/binding_check.rs:172-218 [validate_binding_target] *)
Definition validate_binding_target (inst : SystemInstance) (comp_idx : ComponentInstanceIdx) (binding_name binding_val : string)
    (allowed_categories : list ComponentCategory) (p : list string) : Exec (list AnalysisDiagnostic) :=
  match extract_reference_target binding_val with
  | None => Done []
  | Some target_name =>
      found ← resolve_reference inst (reference_context_of inst comp_idx "Deployment_Properties" binding_name) target_name;
      match found with
      | None => Done []
      | Some idx =>
          comp ← component inst idx;
          Done (when (negb (bool_decide (category comp ∈ allowed_categories)))
            (diag "binding_check" Error p (binding_name +:+ " references '" +:+ target_name +:+ "' which is a " +:+ category_fmt (category comp)
               +:+ " component, expected one of: " +:+ str_join ", " (map category_fmt allowed_categories))))
      end
  end.

(** crates/spar-analysis/src/binding_check.rs:70-161 [BindingCheckAnalysis::check_bindings]:
    one component. *)
Definition check_component_bindings (inst : SystemInstance) (idx : ComponentInstanceIdx) (comp : ComponentInstance)
  : Exec (list AnalysisDiagnostic) :=
  p ← component_path inst idx;
  let props := properties_for inst idx in
  let validate nm allowed := match binding_value props nm with
                             | Some v => validate_binding_target inst idx nm v allowed p
                             | None => Done []
                             end in
  ds1 ← validate "Actual_Processor_Binding" PROCESSOR_CATEGORIES;
  ds2 ← validate "Actual_Memory_Binding" MEMORY_CATEGORIES;
  Done (when (bool_decide (category comp = Thread) && has_processors inst && negb (is_some (binding_value props "Actual_Processor_Binding")))
          (diag "binding_check" Info p ("thread '" +:+ name comp +:+
             "' has no Actual_Processor_Binding (required for schedulability analysis)")) ++
        when (bool_decide (category comp = Process) && has_memory inst && negb (is_some (binding_value props "Actual_Memory_Binding")))
          (diag "binding_check" Info p ("process '" +:+ name comp +:+ "' has no Actual_Memory_Binding (required for memory analysis)")) ++
        ds1 ++ ds2)%list.

(** crates/spar-analysis/src/binding_check.rs:49-165 [BindingCheckAnalysis::check_bindings] *)
Definition check_bindings (inst : SystemInstance) (som : option SystemOperationMode) : Exec (list AnalysisDiagnostic) :=
  each_component inst (λ idx comp,
    active ← match som with Some som => Rta.is_component_active_in_som inst idx som | None => Done true end;
    if (active : bool) then check_component_bindings inst idx comp else Done []).

Definition binding_check : Analysis :=
  {| an_name := "binding_check"; analyze inst := check_bindings inst None; as_modal := Some (λ inst som, check_bindings inst (Some som)) |}.

(** crates/spar-analysis/src/binding_rules.rs:193-251 [check_binding_target] *)
Definition check_binding_target (inst : SystemInstance) (ctx : ComponentInstanceIdx) (binding_val label : string)
    (allowed_categories : list ComponentCategory) (p : list string) : Exec (list AnalysisDiagnostic) :=
  match extract_reference_target binding_val with
  | None => Done []
  | Some target_name =>
      found ← resolve_reference inst ctx target_name;
      match found with
      | Some idx =>
          comp ← component inst idx;
          Done (when (negb (bool_decide (category comp ∈ allowed_categories)))
            (diag "binding_rules" Error p (label +:+ " target '" +:+ target_name +:+ "' is a " +:+ category_fmt (category comp) +:+
               " component, expected one of: " +:+ str_join ", " (map category_fmt allowed_categories))))
      | None =>
          Done [diag "binding_rules" Error p (label +:+ " references '" +:+ target_name +:+ "' which does not exist in the instance model")]
      end
  end.

(** crates/spar-analysis/src/binding_rules.rs:48-137 [BindingRuleAnalysis::analyze]:
    one component. *)
Definition check_component_rules (inst : SystemInstance) (idx : ComponentInstanceIdx) (comp : ComponentInstance)
  : Exec (list AnalysisDiagnostic) :=
  p ← component_path inst idx;
  let props := properties_for inst idx in
  let check nm allowed := match binding_value props nm with
                          | Some v => check_binding_target inst (reference_context_of inst idx "Deployment_Properties" nm) v nm allowed p
                          | None => Done []
                          end in
  ds1 ← check "Actual_Processor_Binding" PROCESSOR_CATEGORIES;
  ds2 ← check "Actual_Memory_Binding" MEMORY_CATEGORIES;
  Done (when (bool_decide (category comp = Thread) && has_processors inst && negb (is_some (binding_value props "Actual_Processor_Binding")))
          (diag "binding_rules" Error p ("thread '" +:+ name comp +:+
             "' is missing required Actual_Processor_Binding (AS5506 §10.6: threads must be bound to a processor)")) ++
        when (bool_decide (category comp = Process) && has_memory inst && negb (is_some (binding_value props "Actual_Memory_Binding")))
          (diag "binding_rules" Warning p ("process '" +:+ name comp +:+
             "' is missing Actual_Memory_Binding (recommended for memory analysis)")) ++
        ds1 ++ ds2)%list.

(** crates/spar-analysis/src/binding_rules.rs:169-169 [ACB] *)
Definition ACB : string := "Actual_Connection_Binding".

(** crates/spar-analysis/src/binding_rules.rs:175-184 [CONNECTION_BINDING_CATEGORIES] *)
Definition CONNECTION_BINDING_CATEGORIES : list ComponentCategory :=
  [Processor; VirtualProcessor; Bus; VirtualBus; Device; Memory; System; Abstract].

(** crates/spar-analysis/src/binding_rules.rs:147-162 [BindingRuleAnalysis::analyze]:
    one connection. *)
Definition check_connection_binding (inst : SystemInstance) (idx : ConnectionInstanceIdx) (conn : ConnectionInstance)
  : Exec (list AnalysisDiagnostic) :=
  match binding_value (properties_for_connection inst idx) ACB with
  | None => Done []
  | Some v =>
      ctx ← connection_reference_context inst idx "Deployment_Properties" ACB;
      p ← component_path inst (conn_owner conn);
      check_binding_target inst ctx v (ACB +:+ " of connection '" +:+ conn_name conn +:+ "'") CONNECTION_BINDING_CATEGORIES p
  end.

(** crates/spar-analysis/src/binding_rules.rs:29-166 [BindingRuleAnalysis::analyze] *)
Definition binding_rules_analyze (inst : SystemInstance) : Exec (list AnalysisDiagnostic) :=
  ds ← each_component inst (check_component_rules inst);
  cs ← concatM (λ '(i, conn), check_connection_binding inst i conn) (imap pair (connection_instances inst));
  Done (ds ++ cs)%list.

Definition binding_rules : Analysis := {| an_name := "binding_rules"; analyze := binding_rules_analyze; as_modal := None |}.
#[local] Close Scope string_scope.

(** ** What an analysis promises

    The indices that the passes follow are in range. *)
Record ranged (inst : SystemInstance) : Prop := {
  rg_wf : wf_instance inst;
  rg_features i c : components inst !! i = Some c → Forall (λ j, j < length (feature_instances inst)) (features c);
  rg_flows i c : components inst !! i = Some c → Forall (λ j, j < length (flow_instances inst)) (flows c);
  rg_e2e : Forall (λ e, e2e_owner e < length (components inst)) (e2e_flow_instances inst);
}.

(** A diagnostic of a pass: it carries the name of the pass, and its path is
    the path of a component or that of a diagnostic of the instance. *)
Definition issued (inst : SystemInstance) (an : string) (d : AnalysisDiagnostic) : Prop :=
  analysis d = an ∧
  ((∃ i, i < length (components inst) ∧ component_path inst i = Done (path d)) ∨
   ∃ x, x ∈ diagnostics inst ∧ path d = inst_path x).

(** [m] returns a value of which [P] holds. *)
Definition yields {A} (m : Exec A) (P : A → Prop) : Prop := ∃ a, m = Done a ∧ P a.

Abbreviation reports inst an m := (yields m (Forall (issued inst an))).

(** The law of an analysis on the instances of which [W] holds. *)
Class Lawful (W : SystemInstance → Prop) (a : Analysis) : Prop := {
  lawful_analyze inst : W inst → reports inst (an_name a) (analyze a inst);
  lawful_modal inst modal som : as_modal a = Some modal → W inst → som_in_range inst som → reports inst (an_name a) (modal inst som);
}.

Lemma yields_ret {A} (a : A) P : P a → yields (Done a) P.
Proof. intros. by exists a. Qed.

Lemma yields_bind {A B} (m : Exec A) (k : A → Exec B) P Q : yields m P → (∀ a, P a → yields (k a) Q) → yields (m ≫= k) Q.
Proof. intros (a & -> & Ha) H. by apply H. Qed.

(** The first step of a program returns; go on with its result. *)
Tactic Notation "read" tactic3(t) "as" ident(x) ident(H) :=
  eapply yields_bind; [t|intros x H; cbn beta in H].

Lemma yields_mono {A} (m : Exec A) (P Q : A → Prop) : yields m P → (∀ a, P a → Q a) → yields m Q.
Proof. intros (a & -> & Ha) H. exists a. auto. Qed.

Lemma yields_concatM {A B} (f : A → Exec (list B)) xs P : (∀ x, x ∈ xs → yields (f x) (Forall P)) → yields (concatM f xs) (Forall P).
Proof.
  intros H. induction xs as [|x xs IH]; [by apply yields_ret|]. cbn [concatM].
  eapply yields_bind; [apply H; by left|]. intros ys Hys. eapply yields_bind; [apply IH; intros; apply H; by right|].
  intros zs Hzs. by apply yields_ret, Forall_app.
Qed.

Lemma yields_mapM {A B} (f : A → Exec B) xs : (∀ x, x ∈ xs → ∃ y, f x = Done y) → yields (mapM f xs) (λ _, True).
Proof.
  intros H. assert (∃ ys, Forall2 (λ x y, f x = Done y) xs ys) as [ys Hys].
  { apply Forall_exists_Forall2_l, Forall_forall, H. }
  exists ys. split; [by apply mapM_Done|done].
Qed.

Lemma Forall_when {A} (P : A → Prop) b x : P x → Forall P (when b x).
Proof. unfold when. destruct b; auto. Qed.

Lemma Forall_map_2 {A B} (P : B → Prop) (f : A → B) xs : (∀ x, P (f x)) → Forall P (map f xs).
Proof. intros. apply Forall_map, Forall_forall. auto. Qed.

Lemma Forall_bind_2 {A B} (P : B → Prop) (f : A → list B) xs : (∀ x, Forall P (f x)) → Forall P (xs ≫= f).
Proof. intros. apply Forall_bind, Forall_forall. intros. cbn. auto. Qed.

Lemma Forall_concat_imap {A B} (P : B → Prop) (f : nat → A → list B) xs : (∀ i x, Forall P (f i x)) → Forall P (List.concat (imap f xs)).
Proof.
  revert f. induction xs as [|x xs IH]; intros f H; [constructor|]. rewrite imap_cons. cbn [List.concat].
  apply Forall_app_2; [apply H|]. apply IH. intros. apply H.
Qed.

Section reading.
Context (inst : SystemInstance) (Hr : ranged inst).

Lemma yields_component i : i < length (components inst) → yields (component inst i) (λ c, components inst !! i = Some c).
Proof. intros (c & E & Hc)%arena_get_lt. by exists c. Qed.

Lemma yields_path i an : i < length (components inst) →
  yields (component_path inst i) (λ p, ∀ sev msg, issued inst an (diag an sev p msg)).
Proof.
  intros Hi. destruct (walk_up_total inst (rg_wf _ Hr) i Hi) as (names & E & _). unfold component_path. rewrite E.
  exists (rev names). split; [done|]. intros sev msg. split; [done|]. left. exists i. split; [done|]. unfold component_path. by rewrite E.
Qed.

Lemma yields_connection i c ci : components inst !! i = Some c → ci ∈ connections c →
  yields (connection inst ci) (λ conn, connection_instances inst !! ci = Some conn).
Proof.
  intros Hc Hi. destruct (arena_get_lt (connection_instances inst) ci) as (conn & E & Hl).
  { by eapply (wf_connections _ (rg_wf _ Hr)). } by exists conn.
Qed.

Lemma yields_feature i c fi : components inst !! i = Some c → fi ∈ features c → yields (feature_at inst fi) (λ _, True).
Proof.
  intros Hc Hi. pose proof (rg_features _ Hr i c Hc) as H. rewrite Forall_forall in H.
  destruct (arena_get_lt _ _ (H fi Hi)) as (f & E & _). by exists f.
Qed.

Lemma yields_features i c : components inst !! i = Some c → yields (mapM (feature_at inst) (features c)) (λ _, True).
Proof. intros Hc. apply yields_mapM. intros j Hj. destruct (yields_feature i c j Hc Hj) as (f & -> & _). by exists f. Qed.

Lemma yields_children i c : components inst !! i = Some c → yields (mapM (component inst) (children c)) (λ _, True).
Proof.
  intros Hc. apply yields_mapM. intros j Hj.
  destruct (yields_component j) as (d & -> & _); [by eapply (wf_children _ (rg_wf _ Hr))|by exists d].
Qed.

Lemma yields_connections i c : components inst !! i = Some c → yields (mapM (connection inst) (connections c)) (λ _, True).
Proof. intros Hc. apply yields_mapM. intros j Hj. destruct (yields_connection i c j Hc Hj) as (d & -> & _). by exists d. Qed.

Lemma yields_flow i c j : components inst !! i = Some c → j ∈ flows c → yields (arena_get (flow_instances inst) j) (λ _, True).
Proof.
  intros Hc Hj. pose proof (rg_flows _ Hr i c Hc) as H. rewrite Forall_forall in H.
  destruct (arena_get_lt _ _ (H j Hj)) as (f & E & _). by exists f.
Qed.

Lemma yields_modes i : i < length (components inst) → yields (modes_for inst i) (λ _, True).
Proof.
  intros Hi. read (by apply yields_component) as c Hc. apply yields_mapM. intros j Hj.
  destruct (arena_get_lt (mode_instances inst) j) as (m & E & _); [by eapply (wf_modes _ (rg_wf _ Hr))|by exists m].
Qed.

Lemma yields_transitions i : i < length (components inst) → yields (mode_transitions_for inst i) (λ _, True).
Proof.
  intros Hi. read (by apply yields_component) as c Hc. apply yields_mapM. intros j Hj.
  destruct (arena_get_lt (mode_transition_instances inst) j) as (m & E & _); [by eapply (wf_transitions _ (rg_wf _ Hr))|by exists m].
Qed.

Lemma yields_depth i : i < length (components inst) → yields (component_depth inst i) (λ _, True).
Proof.
  intros Hi. read (by apply yields_component) as c Hc.
  destruct (parent c) as [p|] eqn:Hp.
  - pose proof (wf_parent _ (rg_wf _ Hr) _ _ _ Hc Hp). destruct (walk_up_total inst (rg_wf _ Hr) p) as (names & -> & _); [lia|].
    by apply yields_ret.
  - destruct (length (components inst)) eqn:E; by apply yields_ret.
Qed.

Lemma yields_find_feature i c nm : components inst !! i = Some c → yields (find_feature inst nm (features c)) (λ _, True).
Proof.
  intros Hc. assert (H : ∀ fi, fi ∈ features c → yields (feature_at inst fi) (λ _, True)) by (intros; by eapply yields_feature).
  induction (features c) as [|fi fs IH]; [by apply yields_ret|]. cbn [find_feature].
  eapply yields_bind; [apply H; by left|]. intros f _. destruct (eq_ci _ _); [by apply yields_ret|]. apply IH. intros. apply H. by right.
Qed.

Lemma yields_end_component i sub : i < length (components inst) →
  yields (end_component inst i sub) (from_option (λ j, j < length (components inst)) True).
Proof.
  intros Hi. destruct sub as [s|]; [|by apply yields_ret]. read (by apply yields_component) as c Hc.
  destruct (find_child_spec inst s (children c)) as [(j & pre & post & cj & -> & _ & Hj & _)|[-> _]].
  - intros j Hj. by eapply (wf_children _ (rg_wf _ Hr)).
  - apply yields_ret. by eapply lookup_lt_Some.
  - by apply yields_ret.
Qed.

Lemma yields_end_feature i e : i < length (components inst) → yields (end_feature inst i e) (λ _, True).
Proof.
  intros Hi. read (by apply yields_end_component) as o Ho. destruct o as [j|]; [|by apply yields_ret].
  read (by apply yields_component) as c Hc. by eapply yields_find_feature.
Qed.

Lemma yields_kind i e : i < length (components inst) → yields (find_feature_kind inst i e) (λ _, True).
Proof. intros Hi. eapply yields_bind; [by apply yields_end_feature|]. intros. by apply yields_ret. Qed.

Lemma yields_direction i e : i < length (components inst) → yields (find_feature_direction inst i e) (λ _, True).
Proof. intros Hi. eapply yields_bind; [by apply yields_end_feature|]. intros. by apply yields_ret. Qed.

Lemma each_component_reports an f :
  (∀ i c, components inst !! i = Some c → i < length (components inst) → reports inst an (f i c)) →
  reports inst an (each_component inst f).
Proof. intros H. apply yields_concatM. intros [i c] Hc%all_components_elem. apply H; [done|by eapply lookup_lt_Some]. Qed.
End reading.

(** ** The passes keep the law *)

Section laws.
Context (inst : SystemInstance) (Hr : ranged inst).

Lemma child_in_range i c j : components inst !! i = Some c → j ∈ children c → j < length (components inst).
Proof. apply (wf_children _ (rg_wf _ Hr)). Qed.

Lemma owner_in_range i conn : connection_instances inst !! i = Some conn → conn_owner conn < length (components inst).
Proof. apply (wf_owner _ (rg_wf _ Hr)). Qed.

Lemma e2e_in_range e : e ∈ e2e_flow_instances inst → e2e_owner e < length (components inst).
Proof. intros He. pose proof (rg_e2e _ Hr) as H. rewrite Forall_forall in H. by apply H. Qed.
End laws.

(** Goals that an index is in range. *)
Ltac in_range Hr :=
  solve [assumption | eassumption | eapply lookup_lt_Some; eassumption | eapply (child_in_range _ Hr); eassumption
        | eapply (owner_in_range _ Hr); eassumption | eapply (e2e_in_range _ Hr); eassumption].

(** Goals that diagnostics are issued by the pass. *)
Ltac all_issued :=
  repeat first [apply Forall_nil_2 | apply Forall_app_2 | apply Forall_when | apply Forall_cons_2
               | apply Forall_map_2; intros ? | apply Forall_concat_imap; intros ? ? | apply Forall_bind_2; intros ?
               | match goal with |- Forall _ (match ?x with _ => _ end) => destruct x end
               | match goal with H : ∀ sev msg, issued _ _ _ |- issued _ _ _ => apply H end | assumption].

(** One step of a pass. *)
Ltac pass_step Hr :=
  lazymatch goal with
  | |- yields (Done _) _ => apply yields_ret; try solve [all_issued]
  | |- yields (component _ _ ≫= _) _ =>
      let c := fresh "c" in let Hc := fresh "Hc" in read (apply yields_component; in_range Hr) as c Hc
  | |- yields (component_path _ _ ≫= _) (Forall (issued _ ?an)) =>
      let p := fresh "p" in let Hp := fresh "Hp" in read (apply (yields_path _ Hr _ an); in_range Hr) as p Hp
  | |- yields (component_depth _ _ ≫= _) _ =>
      let d := fresh "d" in let Hd := fresh "Hd" in read (apply (yields_depth _ Hr); in_range Hr) as d Hd
  | |- yields (connection _ _ ≫= _) _ =>
      let c := fresh "conn" in let Hc := fresh "Hconn" in read (eapply (yields_connection _ Hr); eassumption) as c Hc
  | |- yields (modes_for _ _ ≫= _) _ =>
      let c := fresh "ms" in let Hc := fresh "Hms" in read (apply (yields_modes _ Hr); in_range Hr) as c Hc
  | |- yields (mode_transitions_for _ _ ≫= _) _ =>
      let c := fresh "ts" in let Hc := fresh "Hts" in read (apply (yields_transitions _ Hr); in_range Hr) as c Hc
  | |- yields (feature_at _ _ ≫= _) _ =>
      let c := fresh "f" in let Hc := fresh "Hf" in read (eapply (yields_feature _ Hr); eassumption) as c Hc
  | |- yields (find_feature _ _ _ ≫= _) _ =>
      let c := fresh "f" in let Hc := fresh "Hf" in read (eapply (yields_find_feature _ Hr); eassumption) as c Hc
  | |- yields (find_feature_kind _ _ _ ≫= _) _ =>
      let c := fresh "k" in let Hc := fresh "Hk" in read (apply (yields_kind _ Hr); in_range Hr) as c Hc
  | |- yields (find_feature_direction _ _ _ ≫= _) _ =>
      let c := fresh "d" in let Hc := fresh "Hd" in read (apply (yields_direction _ Hr); in_range Hr) as c Hc
  | |- yields (mapM (feature_at _) _ ≫= _) _ =>
      let c := fresh "fs" in let Hc := fresh "Hfs" in read (eapply (yields_features _ Hr); eassumption) as c Hc
  | |- yields (mapM (component _) _ ≫= _) _ =>
      let c := fresh "cs" in let Hc := fresh "Hcs" in read (eapply (yields_children _ Hr); eassumption) as c Hc
  | |- yields (mapM (connection _) _ ≫= _) _ =>
      let c := fresh "cs" in let Hc := fresh "Hcs" in read (eapply (yields_connections _ Hr); eassumption) as c Hc
  | |- yields (arena_get (flow_instances _) _ ≫= _) _ =>
      let c := fresh "fl" in let Hc := fresh "Hfl" in read (eapply (yields_flow _ Hr); eassumption) as c Hc
  | |- yields (concatM _ _ ≫= _) (Forall ?P) =>
      let ds := fresh "ds" in let Hds := fresh "Hds" in read (apply (yields_concatM _ _ P); intros ? ?) as ds Hds
  | |- yields (concatM _ _) (Forall _) => apply yields_concatM; intros ? ?
  | |- yields (each_component _ _) (Forall _) => apply each_component_reports; intros ? ? ? ?
  | |- yields (each_component _ _ ≫= _) (Forall (issued ?inst ?an)) =>
      let ds := fresh "ds" in let Hds := fresh "Hds" in read (apply (each_component_reports inst an); intros ? ? ? ?) as ds Hds
  | |- yields (?m ≫= _) (Forall (issued ?inst ?an)) =>
      let ds := fresh "ds" in let Hds := fresh "Hds" in read (refine (_ : yields m (Forall (issued inst an)))) as ds Hds
  | |- yields (if ?b then _ else _) _ => destruct b eqn:?
  | |- yields (match ?x with _ => _ end) _ => destruct x eqn:?
  end.

Ltac pass Hr := repeat pass_step Hr.

#[export] Instance hierarchy_lawful : Lawful ranged hierarchy.
Proof. split; [|done]. intros inst Hr. cbn [analyze an_name hierarchy]. unfold hierarchy_analyze, check_containment. pass Hr. Qed.

#[export] Instance completeness_lawful : Lawful ranged completeness.
Proof.
  split; [|done]. intros inst Hr. cbn [analyze an_name completeness]. unfold completeness_analyze, check_complete. pass Hr.
  apply Forall_app_2; [done|]. apply Forall_map, Forall_forall. intros x Hx. split; [done|]. right. by exists x.
Qed.

#[export] Instance subcomponent_lawful : Lawful ranged subcomponent_rules.
Proof.
  split; [|done]. intros inst Hr. cbn [analyze an_name subcomponent_rules].
  unfold subcomponent_analyze, check_unique_subcomponent_names, check_containment. pass Hr.
Qed.

#[export] Instance connection_lawful : Lawful ranged connection_rules.
Proof.
  split; [|done]. intros inst Hr. cbn [analyze an_name connection_rules].
  unfold connection_analyze, check_feature_kind_compatibility, check_connection_self_loop. pass Hr.
Qed.

#[export] Instance direction_lawful : Lawful ranged direction_rules.
Proof.
  split; [|done]. intros inst Hr. cbn [analyze an_name direction_rules].
  unfold direction_analyze, check_direction. pass Hr. unfold check_pattern, check_bidirectional, wrong_direction. all_issued.
Qed.

#[export] Instance mode_check_lawful : Lawful ranged mode_check.
Proof.
  split; [|done]. intros inst Hr. cbn [analyze an_name mode_check].
  unfold mode_check_analyze, check_transition. pass Hr.
Qed.

#[export] Instance mode_rules_lawful : Lawful ranged mode_rules.
Proof.
  split; [|done]. intros inst Hr. cbn [analyze an_name mode_rules].
  unfold mode_rules_analyze, check_transition_trigger_kinds, check_trigger_kind, check_unique_mode_names. pass Hr.
Qed.

#[export] Instance flow_check_lawful : Lawful ranged flow_check.
Proof.
  split; [|done]. intros inst Hr. cbn [analyze an_name flow_check].
  unfold flow_check_analyze, check_flow, check_e2e, check_segment, nested_diag. pass Hr.
Qed.

Section modal.
Context (inst : SystemInstance) (Hr : ranged inst).

Lemma yields_resolve_subcomponent i sub : i < length (components inst) → yields (resolve_subcomponent inst i sub) (λ _, True).
Proof.
  intros Hi. destruct sub as [s|]; [|by apply yields_ret]. read (by apply yields_component) as c Hc.
  assert (H : ∀ j, j ∈ children c → j < length (components inst)) by (intros j; by eapply (wf_children _ (rg_wf _ Hr))).
  induction (children c) as [|j js IH]; [by apply yields_ret|]. cbn [find_child_exact].
  read (apply yields_component, H; by left) as d Hd. destruct (String.eqb _ _); [by apply yields_ret|].
  apply IH. intros k Hk. apply H. by right.
Qed.

Lemma yields_connection_ports conn : conn ∈ connection_instances inst → yields (connection_ports inst conn) (λ _, True).
Proof.
  intros [i Hi]%list_elem_of_lookup. pose proof (wf_owner _ (rg_wf _ Hr) _ _ Hi) as Ho. unfold connection_ports.
  read (refine (_ : yields _ (λ _, True)); destruct (src conn); [read (by apply yields_resolve_subcomponent) as r Hres|]; by apply yields_ret) as s Hs.
  read (refine (_ : yields _ (λ _, True)); destruct (dst conn); [read (by apply yields_resolve_subcomponent) as r Hres|]; by apply yields_ret) as d Hd.
  by apply yields_ret.
Qed.

(** A search among the selections of a system operation mode. *)
Lemma yields_active (owner : nat) (f : ModeInstance → bool) sels :
  Forall (λ cm : ComponentInstanceIdx * ModeInstanceIdx, cm.2 < length (mode_instances inst)) sels →
  yields ((fix scan (sels : list (ComponentInstanceIdx * ModeInstanceIdx)) : Exec bool :=
             match sels with
             | [] => Done true
             | (_, mode_inst_idx) :: sels =>
                 m ← arena_get (mode_instances inst) mode_inst_idx;
                 if Nat.eqb (mode_owner m) owner then Done (f m) else scan sels
             end) sels) (λ _, True).
Proof.
  induction 1 as [|[c m] sels Hm _ IH]; [by apply yields_ret|].
  destruct (arena_get_lt (mode_instances inst) m Hm) as (mi & E & _). cbn -[arena_get Nat.eqb]. rewrite E. cbn [mbind Exec_bind].
  destruct (Nat.eqb _ _); [by apply yields_ret|done].
Qed.

Lemma yields_connection_active owner in_modes som :
  som_in_range inst som → yields (is_connection_active_in_som inst owner in_modes som) (λ _, True).
Proof. intros H. destruct in_modes; [by apply yields_ret|]. by apply yields_active. Qed.

Lemma yields_component_active i som :
  i < length (components inst) → som_in_range inst som → yields (Rta.is_component_active_in_som inst i som) (λ _, True).
Proof.
  intros Hi H. read (by apply yields_component) as c Hc. destruct (comp_in_modes c); [by apply yields_ret|].
  destruct (parent c); [|by apply yields_ret]. by apply yields_active.
Qed.

Lemma yields_total_concatM {A B} (f : A → Exec (list B)) xs : (∀ x, x ∈ xs → yields (f x) (λ _, True)) → yields (concatM f xs) (λ _, True).
Proof.
  intros H. eapply yields_mono; [apply (yields_concatM f xs (λ _, True))|done]. intros x Hx.
  eapply yields_mono; [by apply H|]. intros ys _. by apply Forall_true.
Qed.

Lemma yields_connected : yields (collect_connected_features inst) (λ _, True).
Proof.
  unfold collect_connected_features, collect_connected_features_with_mode.
  read (apply yields_total_concatM; intros conn Hc; destruct (is_active_in_mode _ _); [by apply yields_connection_ports|by apply yields_ret])
    as ps Hps. by apply yields_ret.
Qed.

Lemma yields_connected_in_som som : som_in_range inst som → yields (collect_connected_features_in_som inst som) (λ _, True).
Proof.
  intros Hs. unfold collect_connected_features_in_som.
  read (apply yields_total_concatM; intros conn Hc; read (by apply yields_connection_active) as b Hb; destruct b;
        [by apply yields_connection_ports|by apply yields_ret]) as ps Hps. by apply yields_ret.
Qed.
End modal.

Lemma unconnected_issued inst p f :
  (∀ sev msg, issued inst "connectivity" (diag "connectivity" sev p msg)) → issued inst "connectivity" (unconnected p f).
Proof. intros H. unfold unconnected. destruct (direction f) as [[]|]; apply H. Qed.

#[export] Instance connectivity_lawful : Lawful ranged connectivity.
Proof.
  split.
  - intros inst Hr. cbn [analyze an_name connectivity]. unfold connectivity_analyze.
    read (by apply yields_connected) as connected Hcon.
    unfold check_ports, check_dangling. pass Hr. apply Forall_singleton. by apply unconnected_issued.
  - intros inst modal som [= <-] Hr Hs. cbn [an_name connectivity]. unfold connectivity_in_mode.
    read (by apply yields_connected_in_som) as connected Hcon. apply each_component_reports. intros i c Hc Hi.
    read (by apply yields_component_active) as active Hact. unfold check_ports. pass Hr. apply Forall_singleton. by apply unconnected_issued.
Qed.

(** *** [modal_rules]: the search of the modes *)
Section search.
Context (ts : list ModeTransitionInstance).

Definition lower : string → string := Names.to_ascii_lowercase.

(** A transition leads from the one mode to the other, case ignored. *)
Definition mode_edge (a b : string) : Prop := ∃ mt, mt ∈ ts ∧ lower (mt_source mt) = a ∧ lower (mt_destination mt) = b.

(** What the search holds on to: the modes of the stack are marked; every mode
    marked is reachable; one that is marked and not on the stack has its
    successors marked. *)
Record searching (start : string) (reachable queue : list string) : Prop := {
  se_nodup : NoDup reachable;
  se_queue q : q ∈ queue → q ∈ reachable;
  se_start : start ∈ reachable;
  se_sound x : x ∈ reachable → rtc mode_edge start x;
  se_dests x : x ∈ reachable → x ∈ start :: map (λ mt, lower (mt_destination mt)) ts;
  se_closed x y : x ∈ reachable → x ∉ queue → mode_edge x y → y ∈ reachable;
}.

Lemma follow_spec current us reachable queue :
  ∃ new, foldl (follow current) (reachable, queue) us = (reachable ++ new, rev new ++ queue)%list ∧
    (NoDup reachable → NoDup (reachable ++ new)%list) ∧
    (∀ x, x ∈ new → ∃ mt, mt ∈ us ∧ lower (mt_source mt) = current ∧ lower (mt_destination mt) = x) ∧
    ∀ mt, mt ∈ us → lower (mt_source mt) = current → lower (mt_destination mt) ∈ (reachable ++ new)%list.
Proof.
  revert reachable queue. induction us as [|mt us IH]; intros reachable queue; cbn [foldl].
  - exists []. rewrite app_nil_r. split_and!; [done|done|by intros ? ?%not_elem_of_nil|by intros ? ?%not_elem_of_nil].
  - unfold follow at 2. fold (lower (mt_source mt)) (lower (mt_destination mt)). cbn [fst snd].
    destruct (String.eqb_spec (lower (mt_source mt)) current) as [Hs|Hs].
    2:{ destruct (IH reachable queue) as (new & -> & Hnd & Hnew & Hdone). exists new. split_and!; [done|done| |].
        - intros x Hx. destruct (Hnew x Hx) as (m & ? & ?). exists m. split; [by right|done].
        - by intros m [->|Hm]%elem_of_cons Hm'; [|apply Hdone]. }
    case_bool_decide as Hd.
    + destruct (IH reachable queue) as (new & -> & Hnd & Hnew & Hdone). exists new. split_and!; [done|done| |].
      * intros x Hx. destruct (Hnew x Hx) as (m & ? & ?). exists m. split; [by right|done].
      * intros m [->|Hm]%elem_of_cons Hm'; [apply elem_of_app; by left|by apply Hdone].
    + destruct (IH (reachable ++ [lower (mt_destination mt)])%list (lower (mt_destination mt) :: queue)) as (new & -> & Hnd & Hnew & Hdone).
      exists (lower (mt_destination mt) :: new). rewrite <- app_assoc in *. cbn [app rev] in *. split_and!.
      * by rewrite <- app_assoc.
      * intros Hn. apply Hnd. rewrite NoDup_app. split_and!; [done| |by apply NoDup_singleton].
        intros x Hx ->%list_elem_of_singleton. done.
      * intros x [->|Hx]%elem_of_cons; [exists mt; split; [by left|done]|]. destruct (Hnew x Hx) as (m & ? & ?). exists m. split; [by right|done].
      * intros m [->|Hm]%elem_of_cons Hm'; [apply elem_of_app; right; by left|]. by apply Hdone.
Qed.

Lemma searching_follow start current reachable queue new :
  searching start reachable (current :: queue) →
  foldl (follow current) (reachable, queue) ts = (reachable ++ new, rev new ++ queue)%list →
  searching start (reachable ++ new)%list (rev new ++ queue)%list.
Proof.
  intros [H1 H2 H3 H4 H5 H6] E. destruct (follow_spec current ts reachable queue) as (new' & E' & Hnd & Hnew & Hdone).
  rewrite E in E'. injection E' as E1 _. apply app_inv_head in E1 as <-.
  assert (Hcur : current ∈ reachable) by (apply H2; by left). split.
  - by apply Hnd.
  - intros q [Hq|Hq]%elem_of_app; apply elem_of_app; [right; by rewrite list_elem_of_In, <- in_rev, <- list_elem_of_In in Hq|left].
    apply H2. by right.
  - apply elem_of_app. by left.
  - intros x [Hx|Hx]%elem_of_app; [by apply H4|]. destruct (Hnew x Hx) as (mt & Hmt & Hsrc & Hdst).
    eapply rtc_r; [by apply (H4 current)|]. by exists mt.
  - intros x [Hx|Hx]%elem_of_app; [by apply H5|]. destruct (Hnew x Hx) as (mt & Hmt & _ & <-). right.
    apply list_elem_of_In, (in_map (λ mt, lower (mt_destination mt))). by apply list_elem_of_In.
  - intros x y [Hx|Hx]%elem_of_app Hq He.
    + destruct (decide (x = current)) as [->|Hne].
      * destruct He as (mt & Hmt & Hsrc & <-). by apply Hdone.
      * apply elem_of_app. left. eapply H6; [exact Hx| |exact He]. intros [->|Hx']%elem_of_cons; [done|].
        apply Hq, elem_of_app. by right.
    + exfalso. apply Hq, elem_of_app. left. by rewrite list_elem_of_In, <- in_rev, <- list_elem_of_In.
Qed.

Lemma search_modes_spec fuel start reachable queue :
  searching start reachable queue → S (length ts) + length queue ≤ fuel + length reachable →
  ∃ r, search_modes fuel ts reachable queue = Done r ∧ ∀ x, x ∈ r ↔ rtc mode_edge start x.
Proof.
  revert reachable queue. induction fuel as [|fuel IH]; intros reachable queue H Hf.
  all: assert (Hle : length reachable ≤ S (length ts)) by
    (rewrite <- (length_map (λ mt, lower (mt_destination mt)) ts); change (S _) with (length (start :: map (λ mt, lower (mt_destination mt)) ts));
     apply submseteq_length, NoDup_submseteq; [apply H|intros x; apply (se_dests _ _ _ H)]).
  all: destruct queue as [|current queue]; cbn [search_modes length] in *; [exists reachable; split; [done|]|].
  1,3: intros x; split; [apply (se_sound _ _ _ H)|]; intros Hx;
    assert (Hcl : ∀ a b, rtc mode_edge a b → a ∈ reachable → b ∈ reachable) by
      (induction 1 as [|a b c Hab _ IH']; [done|]; intros Ha; apply IH'; eapply (se_closed _ _ _ H); [exact Ha|apply not_elem_of_nil|done]);
    eapply Hcl; [exact Hx|apply (se_start _ _ _ H)].
  - lia.
  - destruct (follow_spec current ts reachable queue) as (new & E & _). rewrite E. cbn [fst snd].
    apply IH; [by eapply searching_follow|]. rewrite !length_app, length_rev. lia.
Qed.

(** The search returns the modes that transitions lead to from the first. *)
Lemma search_modes_exact start : ∃ r, search_modes (S (length ts)) ts [start] [start] = Done r ∧ ∀ x, x ∈ r ↔ rtc mode_edge start x.
Proof.
  apply search_modes_spec; [|cbn [length]; lia]. split.
  - apply NoDup_singleton.
  - done.
  - by left.
  - by intros x ->%list_elem_of_singleton.
  - intros x ->%list_elem_of_singleton. by left.
  - intros x y Hx Hq. by destruct Hq.
Qed.
End search.

(** The message of a mode that no transitions lead to. *)
Definition unreachable_diag (comp : ComponentInstance) (p : list string) (m mode : ModeInstance) : AnalysisDiagnostic :=
  diag "modal_rules" Warning p ("mode '" +:+ mode_name mode +:+ "' in component '" +:+ name comp +:+
    "' is not reachable from initial mode '" +:+ mode_name m +:+ "' via any transition path").

(** [check_mode_reachability] returns, and where there are several modes and
    some transition it reports exactly those modes that no sequence of
    transitions leads to from the first initial one. *)
Lemma check_mode_reachability_exact ms ts comp p :
  ∃ ds, check_mode_reachability ms ts comp p = Done ds ∧
    ∀ d, d ∈ ds ↔ 1 < length ms ∧ ts ≠ [] ∧ ∃ m mode, List.find is_initial ms = Some m ∧ mode ∈ ms ∧
      ¬ rtc (mode_edge ts) (lower (mode_name m)) (lower (mode_name mode)) ∧ d = unreachable_diag comp p m mode.
Proof.
  unfold check_mode_reachability. destruct (Nat.leb_spec (length ms) 1) as [Hl|Hl].
  { exists []. split; [done|]. intros d. split; [by intros ?%not_elem_of_nil|lia]. }
  destruct ts as [|t ts']; [|set (ts := t :: ts') in *].
  { exists []. split; [done|]. intros d. split; [by intros ?%not_elem_of_nil|by intros (_ & ? & _)]. }
  change (is_empty ts) with false. cbn [orb]. destruct (List.find is_initial ms) as [m|] eqn:Hf.
  2:{ exists []. split; [done|]. intros d. split; [by intros ?%not_elem_of_nil|]. by intros (_ & _ & m & mode & ? & _). }
  destruct (search_modes_exact ts (lower (mode_name m))) as (r & Hs & Hr). unfold lower in Hs. rewrite Hs. cbn [mbind Exec_bind].
  eexists. split; [done|]. intros d. rewrite list_elem_of_bind. split.
  - intros (mode & Hd & Hin). split_and!; [done|done|]. exists m, mode. unfold when in Hd.
    destruct (negb _) eqn:En; [|by apply not_elem_of_nil in Hd]. apply list_elem_of_singleton in Hd as ->.
    rewrite negb_true_iff, bool_decide_eq_false in En. split_and!; [done|done| |done]. by rewrite <- Hr.
  - intros (_ & _ & m' & mode & [= <-] & Hin & Hn & ->). exists mode. split; [|done].
    rewrite <- Hr in Hn. unfold when. rewrite bool_decide_eq_false_2 by done. by left.
Qed.

#[export] Instance modal_rules_lawful : Lawful ranged modal_rules.
Proof.
  split; [|done]. intros inst Hr. cbn [analyze an_name modal_rules].
  unfold modal_rules_analyze, check_endpoints. pass Hr. rename Hp into Hp'.
  destruct (check_mode_reachability_exact ms ts c p) as (rs & -> & Hrs). apply yields_ret, Forall_forall. intros d (_ & _ & m & mode & _ & _ & _ & ->)%Hrs. apply Hp'.
Qed.

(** ** The binding passes *)

Section bindings.
Context (inst : SystemInstance) (Hr : ranged inst) (Hd : declared_inside inst).

Lemma walks_in_range from segs i : from < length (components inst) → walks inst from segs i → i < length (components inst).
Proof.
  intros Hf H. induction H as [|i seg j segs k (f & pre & post & c & _ & _ & Hc & _) _ IH]; [done|].
  apply IH. by eapply lookup_lt_Some.
Qed.

Lemma yields_resolve ctx p : ctx < length (components inst) →
  yields (resolve_reference inst ctx p) (from_option (λ i, i < length (components inst)) True).
Proof.
  intros Hc. unfold resolve_reference. destruct (segments is_dot_or_slash p) as [|seg segs]; [by apply yields_ret|].
  destruct (walk_children_spec inst (rg_wf _ Hr) ctx (seg :: segs) Hc) as [(i & -> & _ & Hi)|[-> _]]; [by apply yields_ret|].
  cbn [mbind Exec_bind]. destruct (resolve_from_root_spec inst (rg_wf _ Hr) p) as [(i & segs' & -> & _ & Hw)|[-> _]]; apply yields_ret; [|done].
  eapply walks_in_range, Hw. apply (wf_root _ (rg_wf _ Hr)).
Qed.

Lemma yields_binding_check i nm v cats p : i < length (components inst) →
  (∀ sev msg, issued inst "binding_check" (diag "binding_check" sev p msg)) →
  reports inst "binding_check" (validate_binding_target inst i nm v cats p).
Proof.
  intros Hi Hp. unfold validate_binding_target. destruct (extract_reference_target v) as [t|]; [|by apply yields_ret].
  read (by apply yields_resolve, Hd) as found Hfound. destruct found as [j|]; [|by apply yields_ret]. pass Hr.
Qed.

Lemma yields_binding_rules ctx v label cats p : ctx < length (components inst) →
  (∀ sev msg, issued inst "binding_rules" (diag "binding_rules" sev p msg)) →
  reports inst "binding_rules" (check_binding_target inst ctx v label cats p).
Proof.
  intros Hi Hp. unfold check_binding_target. destruct (extract_reference_target v) as [t|]; [|by apply yields_ret].
  read (by apply yields_resolve) as found Hfound. destruct found as [j|]; [|by apply yields_ret, Forall_singleton]. pass Hr.
Qed.

Lemma yields_component_bindings i c : i < length (components inst) →
  reports inst "binding_check" (check_component_bindings inst i c).
Proof.
  intros Hi. unfold check_component_bindings.
  read (by apply (yields_path _ Hr i "binding_check")) as p Hp.
  read (refine (_ : reports inst "binding_check" _); destruct (binding_value _ _); [by apply yields_binding_check|by apply yields_ret]) as ds1 H1.
  read (refine (_ : reports inst "binding_check" _); destruct (binding_value _ _); [by apply yields_binding_check|by apply yields_ret]) as ds2 H2.
  apply yields_ret. all_issued.
Qed.

Lemma yields_component_rules i c : i < length (components inst) →
  reports inst "binding_rules" (check_component_rules inst i c).
Proof.
  intros Hi. unfold check_component_rules.
  read (by apply (yields_path _ Hr i "binding_rules")) as p Hp.
  assert (H : ∀ nm v cats, reports inst "binding_rules"
    (check_binding_target inst (reference_context_of inst i "Deployment_Properties" nm) v nm cats p)).
  { intros nm v cats. apply yields_binding_rules; [by apply Hd|done]. }
  read (refine (_ : reports inst "binding_rules" _); destruct (binding_value _ _); [apply H|by apply yields_ret]) as ds1 H1.
  read (refine (_ : reports inst "binding_rules" _); destruct (binding_value _ _); [apply H|by apply yields_ret]) as ds2 H2.
  apply yields_ret. all_issued.
Qed.
End bindings.

Definition ranged_references (inst : SystemInstance) : Prop := ranged inst ∧ declared_inside inst.

#[export] Instance binding_check_lawful : Lawful ranged_references binding_check.
Proof.
  split.
  - intros inst [Hr Hd]. cbn. apply each_component_reports. intros i c Hc Hi. by apply yields_component_bindings.
  - intros inst modal som [= <-] [Hr Hd] Hs. apply each_component_reports. intros i c Hc Hi.
    read (by apply yields_component_active) as b Hb. destruct b; [by apply yields_component_bindings|by apply yields_ret].
Qed.

#[export] Instance binding_rules_lawful : Lawful ranged_references binding_rules.
Proof.
  split; [|done]. intros inst [Hr Hd]. cbn [analyze an_name binding_rules]. unfold binding_rules_analyze.
  read (apply (each_component_reports inst "binding_rules"); intros i c Hc Hi; by apply yields_component_rules) as ds Hds.
  read (apply (yields_concatM _ _ (issued inst "binding_rules"))) as cs Hcs; [|by apply yields_ret, Forall_app_2].
  intros [i conn] Hin. apply list_elem_of_lookup in Hin as [k Hk]. rewrite list_lookup_imap in Hk.
  apply fmap_Some in Hk as (conn' & Hconn & [= -> ->]). unfold check_connection_binding.
  destruct (binding_value _ _) as [v|]; [|by apply yields_ret].
  assert (∃ ctx, connection_reference_context inst k "Deployment_Properties" ACB = Done ctx) as [ctx Hctx].
  { unfold connection_reference_context, connection. rewrite (proj2 (arena_get_Some _ _ _) Hconn). by eexists. }
  rewrite Hctx. cbn [mbind Exec_bind]. read (apply (yields_path _ Hr _ "binding_rules"); in_range Hr) as p Hp.
  apply yields_binding_rules; [done| |done]. by eapply Hd.
Qed.

(** A pass keeps the law on fewer instances too. *)
#[export] Instance lawful_references a : Lawful ranged a → Lawful ranged_references a.
Proof. intros [H1 H2]. split; [intros inst [Hr _]; by apply H1|intros inst modal som Hm [Hr _]; by apply H2]. Qed.

(** ** The runner *)

Definition issued_by (r : AnalysisRunner) (inst : SystemInstance) (d : AnalysisDiagnostic) : Prop :=
  ∃ a, a ∈ r ∧ issued inst (an_name a) d.

(** The report of an analysis on its own. *)
Definition reported_alone (r : AnalysisRunner) (inst : SystemInstance) (d : AnalysisDiagnostic) : Prop :=
  ∃ a ds, a ∈ r ∧ analyze a inst = Done ds ∧ d ∈ ds.

(** That of a modal one in a mode, with the mode's name before the message. *)
Definition reported_in (r : AnalysisRunner) (inst : SystemInstance) (d : AnalysisDiagnostic) : Prop :=
  ∃ som a modal ds d', som ∈ system_operation_modes inst ∧ a ∈ r ∧ as_modal a = Some modal ∧ modal inst som = Done ds ∧ d' ∈ ds ∧
    d = with_message (λ m, "[mode: " +:+ som_name som +:+ "] " +:+ m) d'.

Section runner.
Context (W : SystemInstance → Prop) (r : AnalysisRunner) (inst : SystemInstance).
Hypothesis (Hlaw : Forall (Lawful W) r) (HW : W inst).

Lemma run_all_spec : ∃ ds, run_all r inst = Done ds ∧ Forall (issued_by r inst) ds ∧ ∀ d, d ∈ ds ↔ reported_alone r inst d.
Proof.
  rewrite Forall_forall in Hlaw. destruct (concatM_total (λ a, analyze a inst) r) as (ds & Hds & Hel).
  { intros a Ha. destruct (lawful_analyze (Lawful := Hlaw a Ha) inst HW) as (ds & H & _). by exists ds. }
  exists ds. split_and!; [done| |].
  - apply Forall_forall. intros d (a & ds' & Ha & H & Hd)%Hel. exists a. split; [done|].
    destruct (lawful_analyze (Lawful := Hlaw a Ha) inst HW) as (ds2 & H2 & Hall). rewrite H in H2. injection H2 as <-.
    rewrite Forall_forall in Hall. by apply Hall.
  - intros d. rewrite Hel. unfold reported_alone. naive_solver.
Qed.

Lemma run_in_som_spec som : som_in_range inst som →
  ∃ ds, run_in_som r inst som = Done ds ∧ Forall (issued_by r inst) ds ∧
    ∀ d, d ∈ ds ↔ ∃ a modal ds' d', a ∈ r ∧ as_modal a = Some modal ∧ modal inst som = Done ds' ∧ d' ∈ ds' ∧
      d = with_message (λ m, "[mode: " +:+ som_name som +:+ "] " +:+ m) d'.
Proof.
  intros Hs. rewrite Forall_forall in Hlaw.
  destruct (concatM_total (run_modal inst som) r) as (ds & Hds & Hel).
  { intros a Ha. unfold run_modal. destruct (as_modal a) as [modal|] eqn:E; [|by eexists].
    destruct (lawful_modal (Lawful := Hlaw a Ha) inst modal som E HW Hs) as (ds & -> & _). by eexists. }
  assert (Hex : ∀ d, d ∈ ds ↔ ∃ a modal ds' d', a ∈ r ∧ as_modal a = Some modal ∧ modal inst som = Done ds' ∧ d' ∈ ds' ∧
      d = with_message (λ m, "[mode: " +:+ som_name som +:+ "] " +:+ m) d').
  { intros d. rewrite Hel. unfold run_modal. split.
    - intros (a & zs & Ha & E & Hd). destruct (as_modal a) as [modal|] eqn:Em; [|injection E as <-; by apply not_elem_of_nil in Hd].
      apply Exec_bind_Done in E as (ds' & E & [= <-]). apply list_elem_of_fmap in Hd as (d' & -> & Hd'). by exists a, modal, ds', d'.
    - intros (a & modal & ds' & d' & Ha & Em & E & Hd' & ->). eexists a, _. rewrite Em, E. split_and!; [done|done|].
      apply list_elem_of_fmap. by exists d'. }
  exists ds. split_and!; [done| |done]. apply Forall_forall. intros d (a & modal & ds' & d' & Ha & Em & E & Hd' & ->)%Hex.
  exists a. split; [done|]. destruct (lawful_modal (Lawful := Hlaw a Ha) inst modal som Em HW Hs) as (ds2 & E2 & Hall).
  rewrite E in E2. injection E2 as <-. rewrite Forall_forall in Hall. exact (Hall d' Hd').
Qed.

Lemma run_all_per_som_spec : Forall (som_in_range inst) (system_operation_modes inst) →
  ∃ ds, run_all_per_som r inst = Done ds ∧ Forall (issued_by r inst) ds ∧
    ∀ d, d ∈ ds ↔ reported_alone r inst d ∨ reported_in r inst d.
Proof.
  intros Hsoms. rewrite Forall_forall in Hsoms. unfold run_all_per_som. destruct run_all_spec as (ds & -> & Hall & Hel).
  cbn [mbind Exec_bind]. destruct (concatM_total (run_in_som r inst) (system_operation_modes inst)) as (ms & -> & Hm).
  { intros som Hs. destruct (run_in_som_spec som (Hsoms som Hs)) as (zs & H & _). by exists zs. }
  exists (ds ++ ms). split_and!; [done| |].
  - apply Forall_app_2; [done|]. apply Forall_forall. intros d (som & zs & Hs & E & Hd)%Hm.
    destruct (run_in_som_spec som (Hsoms som Hs)) as (zs' & E' & Hz & _). rewrite E in E'. injection E' as <-.
    rewrite Forall_forall in Hz. by apply Hz.
  - intros d. rewrite elem_of_app, Hel, Hm. apply or_iff_compat_l. split.
    + intros (som & zs & Hs & E & Hd). destruct (run_in_som_spec som (Hsoms som Hs)) as (zs' & E' & _ & Hz). rewrite E in E'.
      injection E' as <-. apply Hz in Hd as (a & modal & ds' & d' & H). by exists som, a, modal, ds', d'.
    + intros (som & a & modal & ds' & d' & Hs & H). destruct (run_in_som_spec som (Hsoms som Hs)) as (zs' & E' & _ & Hz).
      exists som, zs'. split_and!; [done|done|]. apply Hz. by exists a, modal, ds', d'.
Qed.
End runner.

Lemma sane_ranged levels inst : wf_instance inst → sane_arenas levels inst → ranged inst.
Proof.
  intros Hwf Ha. split; [done|intros i c Hc; apply (sa_lists _ _ Ha i c Hc)..|apply (sa_e2e _ _ Ha)].
Qed.

(** ** The tables of the passes *)

(** The two containment tables of the passes are the one of the model layer,
    so [hierarchy], [subcomponent_rules] and [category_check] each report
    every containment that it forbids. *)
Lemma containment_tables_agree p c :
  is_valid_containment p c = is_subcomponent_allowed p c ∧ subcomponent_containment p c = is_subcomponent_allowed p c.
Proof. destruct p, c; by vm_compute. Qed.

(** ** What [direction_rules] accepts

    A feature at the end of a connection: the first of that name, case
    ignored, of the component the end is on. *)
Definition first_named (inst : SystemInstance) (c : ComponentInstance) (nm : Name) (f : FeatureInstance) : Prop :=
  ∃ pre fi post, features c = pre ++ fi :: post ∧ feature_instances inst !! fi = Some f ∧ eq_ci (feat_name f) nm = true ∧
    ∀ fj fj', fj ∈ pre → feature_instances inst !! fj = Some fj' → eq_ci (feat_name fj') nm = false.

Definition at_end (inst : SystemInstance) (owner : ComponentInstanceIdx) (e : ConnectionEnd) (f : FeatureInstance) : Prop :=
  ∃ k c, match subcomponent e with Some s => first_child inst owner s k | None => k = owner end ∧
    components inst !! k = Some c ∧ first_named inst c (feature e) f.

(** Data leaves an end that is [out] or [in out], and enters one that is [in]
    or [in out].  A connection takes data from where it leaves a subcomponent
    or enters the enclosing component, to where it enters a subcomponent or
    leaves the enclosing component; one with neither end on a subcomponent is
    taken for one between siblings. *)
Definition data_flows (conn : ConnectionInstance) (s d : ConnectionEnd) (sd dd : Direction) : Prop :=
  sd ≠ (match subcomponent s, subcomponent d with None, Some _ => ItemTree.Out | _, _ => ItemTree.In end) ∧
  dd ≠ (match subcomponent s, subcomponent d with Some _, None => ItemTree.In | _, _ => ItemTree.Out end) ∧
  (is_bidirectional conn = true → sd = ItemTree.InOut ∧ dd = ItemTree.InOut).

Definition well_directed (inst : SystemInstance) (owner : ComponentInstanceIdx) (conn : ConnectionInstance) : Prop :=
  conn_kind conn ≠ AccessConnection → ∀ s d sf df sd dd, src conn = Some s → dst conn = Some d →
    at_end inst owner s sf → at_end inst owner d df → direction sf = Some sd → direction df = Some dd → data_flows conn s d sd dd.

Lemma concatM_nil {A B} (f : A → Exec (list B)) xs :
  (∀ x, x ∈ xs → ∃ ys, f x = Done ys) → ∃ ds, concatM f xs = Done ds ∧ (ds = [] ↔ ∀ x, x ∈ xs → f x = Done []).
Proof.
  intros H. destruct (concatM_total f xs H) as (ds & E & Hel). exists ds. split; [done|]. split.
  - intros -> x Hx. destruct (H x Hx) as [ys Hys]. rewrite Hys. f_equal. destruct ys as [|y ys]; [done|].
    exfalso. apply (not_elem_of_nil y), Hel. exists x, (y :: ys). split_and!; [done..|by left].
  - intros Hn. destruct ds as [|d ds]; [done|]. exfalso. destruct (proj1 (Hel d)) as (x & zs & Hx & Hz & Hd); [by left|].
    rewrite (Hn x Hx) in Hz. injection Hz as <-. by apply not_elem_of_nil in Hd.
Qed.

Section directions.
Context (inst : SystemInstance) (Hr : ranged inst).

Lemma find_feature_spec i c nm : components inst !! i = Some c →
  ∃ o, find_feature inst nm (features c) = Done o ∧ ∀ f, o = Some f ↔ first_named inst c nm f.
Proof.
  intros Hc. unfold first_named. pose proof (rg_features _ Hr i c Hc) as H. induction H as [|fi fs Hfi _ IH].
  - exists None. split; [done|]. intros f. split; [done|]. by intros ([|] & ? & ? & ? & _).
  - destruct (arena_get_lt _ _ Hfi) as (f & E & Hf). cbn [find_feature]. unfold feature_at at 1. rewrite E. cbn [mbind Exec_bind].
    destruct (eq_ci (feat_name f) nm) eqn:En.
    + exists (Some f). split; [done|]. intros f'. split.
      * intros [= <-]. exists [], fi, fs. split_and!; [done..|]. by intros ?? ?%not_elem_of_nil.
      * intros ([|p pre] & fk & post & E' & Hk & Hn & Hpre); injection E' as ? ?; subst; [congruence|].
        specialize (Hpre _ _ ltac:(by left) Hf). congruence.
    + destruct IH as (o & Ho & Hex). exists o. split; [done|]. intros f'. rewrite Hex. split.
      * intros (pre & fk & post & -> & Hk & Hn & Hpre). exists (fi :: pre), fk, post. split_and!; [done..|].
        intros fj fj' [->|Hj]%elem_of_cons Hfj; [congruence|]. by eapply Hpre.
      * intros ([|p pre] & fk & post & E' & Hk & Hn & Hpre); injection E' as ? ?; subst; [congruence|].
        exists pre, fk, post. split_and!; [done..|]. intros fj fj' Hj. apply Hpre. by right.
Qed.

Lemma end_feature_spec i e : i < length (components inst) →
  ∃ o, end_feature inst i e = Done o ∧ ∀ f, o = Some f ↔ at_end inst i e f.
Proof.
  intros Hi. unfold end_feature, at_end, end_component. destruct (arena_get_lt (components inst) i Hi) as (c & E & Hc).
  unfold component. destruct (subcomponent e) as [s|].
  - rewrite E. cbn [mbind Exec_bind].
    destruct (find_child_spec inst s (children c)) as [(j & pre & post & cj & -> & Hcs & Hj & Hn & Hpre)|[-> Hno]].
    { intros j. by eapply (wf_children _ (rg_wf _ Hr)). }
    + cbn [mbind Exec_bind]. rewrite (proj2 (arena_get_Some _ _ _) Hj). cbn [mbind Exec_bind].
      destruct (find_feature_spec j cj (feature e) Hj) as (o & -> & Ho). exists o. split; [done|]. intros f. rewrite Ho.
      assert (Hfc : first_child inst i s j) by (by exists c, pre, post, cj). split.
      * intros Hf. by exists j, cj.
      * intros (k & ck & Hk & Hck & Hf). rewrite <- (first_child_det inst _ _ _ _ Hfc Hk) in Hck. by simplify_eq.
    + exists None. split; [done|]. intros f. split; [done|]. intros (k & ck & (c' & pre & post & ck' & Hc' & Hcs & Hk & Hn & _) & _).
      simplify_eq. rewrite (Hno k ck') in Hn; [done| |done]. rewrite Hcs. apply elem_of_app. right. by left.
  - cbn [mbind Exec_bind]. rewrite E. cbn [mbind Exec_bind].
    destruct (find_feature_spec i c (feature e) Hc) as (o & -> & Ho). exists o. split; [done|]. intros f. rewrite Ho. split.
    + intros Hf. by exists i, c.
    + intros (k & ck & -> & Hck & Hf). by simplify_eq.
Qed.

Lemma when_nil {A} b (x : A) : when b x = [] ↔ b = false.
Proof. by destruct b. Qed.

Lemma patterns_nil p conn s d sd dd :
  check_pattern p conn s d sd dd ++ check_bidirectional p conn s d sd dd = [] ↔ data_flows conn s d sd dd.
Proof.
  unfold check_pattern, check_bidirectional, data_flows, classify_connection.
  destruct (subcomponent s), (subcomponent d), sd, dd, (is_bidirectional conn); cbn; naive_solver.
Qed.

Lemma check_direction_spec i p c ci : components inst !! i = Some c → ci ∈ connections c →
  ∃ ds, check_direction inst i p ci = Done ds ∧ (ds = [] ↔ ∀ conn, connection_instances inst !! ci = Some conn → well_directed inst i conn).
Proof.
  intros Hc Hci. pose proof (lookup_lt_Some _ _ _ Hc) as Hi. unfold check_direction.
  destruct (yields_connection _ Hr _ _ _ Hc Hci) as (conn & -> & Hconn). cbn [mbind Exec_bind].
  assert ((∀ conn', connection_instances inst !! ci = Some conn' → well_directed inst i conn') ↔ well_directed inst i conn) as Hone.
  { split; [by intros H; apply H|]. intros HP conn' H'. by simplify_eq. }
  setoid_rewrite Hone. clear Hone. unfold well_directed.
  destruct (src conn) as [s|]; [|exists []; split; [done|]; split; [|done]; intros _ _ s' ? ? ? ? ? ?; done].
  destruct (dst conn) as [d|]; [|exists []; split; [done|]; split; [|done]; intros _ _ ? ? ? ? ? ? _ ?; done].
  unfold find_feature_direction, find_feature_kind.
  destruct (end_feature_spec i s Hi) as (so & -> & Hso), (end_feature_spec i d Hi) as (do_ & -> & Hdo). cbn [mbind Exec_bind].
  case_bool_decide as Ha; [exists []; by split|].
  assert (Hend : ∀ sd dd, match so with Some f => direction f | None => None end = Some sd →
      match do_ with Some f => direction f | None => None end = Some dd →
    (data_flows conn s d sd dd ↔
     (conn_kind conn ≠ AccessConnection → ∀ s' d' sf df sd' dd', Some s = Some s' → Some d = Some d' →
       at_end inst i s' sf → at_end inst i d' df → direction sf = Some sd' → direction df = Some dd' → data_flows conn s' d' sd' dd'))).
  { intros sd dd Hs Hd. destruct so as [sf|]; [|done]. destruct do_ as [df|]; [|done]. split.
    - intros H _ s' d' sf' df' sd' dd' [= <-] [= <-] H1%Hso H2%Hdo H3 H4. by simplify_eq.
    - intros H. apply (H Ha s d sf df); [done..|by apply Hso|by apply Hdo|done|done]. }
  destruct (match so with Some f => direction f | None => None end) as [sd|] eqn:Hsd.
  2:{ exists []. split; [done|]. split; [|done]. intros _ _ s' d' sf df sd' dd' [= <-] _ H1%Hso _ H3. by simplify_eq. }
  destruct (match do_ with Some f => direction f | None => None end) as [dd|] eqn:Hdd.
  2:{ exists []. split; [done|]. split; [|done]. intros _ _ s' d' sf df sd' dd' _ [= <-] _ H1%Hdo _ H3. by simplify_eq. }
  eexists. split; [done|]. rewrite patterns_nil. by apply Hend.
Qed.
End directions.

(** C29: [direction_rules] is silent exactly on the instances where data can
    flow over every connection.  On an instance whose indices are in range it
    returns, and it reports nothing precisely when, for every connection of a
    component that is no access connection and whose ends are both features
    with a direction, data leaves at the source and enters at the
    destination, as seen from the component that owns the connection, and a
    bidirectional one has [in out] at both ends. *)
Theorem direction_rules_silent inst :
  ranged inst →
  ∃ ds, analyze direction_rules inst = Done ds ∧
    (ds = [] ↔ ∀ i c ci conn, components inst !! i = Some c → ci ∈ connections c → connection_instances inst !! ci = Some conn →
       well_directed inst i conn).
Proof.
  intros Hr. cbn [analyze direction_rules]. unfold direction_analyze, each_component.
  assert (Hone : ∀ i c, components inst !! i = Some c →
    ∃ ds, (p ← component_path inst i; concatM (check_direction inst i p) (connections c)) = Done ds ∧
      (ds = [] ↔ ∀ ci conn, ci ∈ connections c → connection_instances inst !! ci = Some conn → well_directed inst i conn)).
  { intros i c Hc. destruct (yields_path _ Hr i "" (lookup_lt_Some _ _ _ Hc)) as (p & -> & _). cbn [mbind Exec_bind].
    destruct (concatM_nil (check_direction inst i p) (connections c)) as (ds & -> & Hds).
    { intros ci Hci. destruct (check_direction_spec inst Hr i p c ci Hc Hci) as (ds & H & _). by exists ds. }
    exists ds. split; [done|]. rewrite Hds. split.
    - intros H ci conn Hci. destruct (check_direction_spec inst Hr i p c ci Hc Hci) as (ds' & E & Hw). rewrite (H ci Hci) in E.
      injection E as <-. by apply Hw.
    - intros H ci Hci. destruct (check_direction_spec inst Hr i p c ci Hc Hci) as (ds' & E & Hw). rewrite E. f_equal. apply Hw.
      intros conn. by apply H. }
  edestruct (concatM_nil (λ '(i, c), p ← component_path inst i; concatM (check_direction inst i p) (connections c)) (all_components inst))
    as (ds & E & Hds).
  { intros [i c] Hc%all_components_elem. destruct (Hone i c Hc) as (ds & H & _). by exists ds. }
  exists ds. split; [exact E|]. rewrite Hds. split.
  - intros H i c ci conn Hc. destruct (Hone i c Hc) as (ds' & E' & Hw). specialize (H (i, c) (proj2 (all_components_elem _ _ _) Hc)).
    cbn in H. rewrite H in E'. injection E' as <-. by apply Hw.
  - intros H [i c] Hc%all_components_elem. destruct (Hone i c Hc) as (ds' & E' & Hw). rewrite E'. f_equal. apply Hw.
    intros ci conn. by apply H.
Qed.

(** ** Examples *)
#[local] Open Scope string_scope.

(** A connection from [A.P] to [b.q], written with another case than the
    declarations; its destination has direction [dir]. *)
Definition wired_ex (dir : Direction) : SystemInstance :=
  let comp n par cs fs conns :=
    {| name := n; category := CategoryRules.System; comp_type_name := "T"; comp_impl_name := None; comp_package := "P";
       parent := par; children := cs; features := fs; connections := conns; flows := []; modes := [];
       mode_transitions := []; array_index := None; comp_in_modes := [] |} in
  let port n d o :=
    {| feat_name := n; feat_kind := DataPort; direction := Some d; feat_owner := o; feat_classifier := None;
       access_kind := None; feat_array_index := None; data_size_bytes := None |} in
  let end_ s f := Some {| subcomponent := Some s; feature := f |} in
  set_connection_instances
    [{| conn_name := "c"; conn_kind := PortConnection; is_bidirectional := false; conn_owner := 0; src := end_ "A" "P";
        dst := end_ "b" "q"; conn_in_modes := [] |}]
    (set_feature_instances [port "p" ItemTree.Out 1; port "q" dir 2]
      (set_components [comp "Top.i" None [1; 2] [] [0]; comp "a" (Some 0) [] [0] []; comp "b" (Some 0) [] [1] []] empty_instance)).

(** [connectivity] compares names with their case, the other passes without. *)
Example connectivity_is_case_sensitive :
  (ds ← analyze connectivity (wired_ex ItemTree.In); Done (map message ds)) = Done ["output port 'p' has no outgoing connection"] ∧
  (ds ← analyze direction_rules (wired_ex ItemTree.Out); Done (map message ds)) =
    Done ["connection 'c': destination port 'q' has direction 'out', expected 'in' or 'in out' for across connection"].
Proof. split; vm_compute; reflexivity. Qed.

(** A missing initial mode is reported by two passes. *)
Example missing_initial_mode_reported_twice :
  let inst := set_components (map (λ c, {| name := name c; category := category c; comp_type_name := comp_type_name c;
                comp_impl_name := comp_impl_name c; comp_package := comp_package c; parent := parent c; children := children c;
                features := features c; connections := connections c; flows := flows c; modes := [0%nat];
                mode_transitions := []; array_index := None; comp_in_modes := [] |}) (take 1 (components (wired_ex ItemTree.In))))
              (set_mode_instances [{| mode_name := "m"; is_initial := false; mode_owner := 0 |}] (wired_ex ItemTree.In)) in
  (d1 ← analyze mode_check inst; d2 ← analyze modal_rules inst; Done (length d1, length d2)) = Done (1, 1)%nat.
Proof. vm_compute. reflexivity. Qed.

Lemma wired_ranged d : ranged (wired_ex d).
Proof.
  split; [apply wf_check_sound; by destruct d|intros i c Hc; repeat (destruct i as [|i]; [injection Hc as <-; repeat constructor|]); done..|constructor].
Qed.

Lemma direction_rules_silent_witness :
  ∃ ds, analyze direction_rules (wired_ex ItemTree.In) = Done ds ∧ ds = [].
Proof.
  destruct (direction_rules_silent (wired_ex ItemTree.In) (wired_ranged ItemTree.In)) as (ds & Hds & _).
  exists ds. split; [exact Hds|]. assert (E : analyze direction_rules (wired_ex ItemTree.In) = Done []) by (vm_compute; reflexivity).
  rewrite Hds in E. injection E as ->. reflexivity.
Defined.
#[local] Close Scope string_scope.
