(* ===== verification/Legality.v ===== *)
(** * Legality

    The rules of [crates/spar-analysis] over item trees ([naming_rules] and
    [extends_rules]), three passes over instances that the legality rules use
    the vocabulary of ([flow_rules], [classifier_match] and
    [feature_group_check]), and [legality.rs], which runs the rules and gives
    every diagnostic the rule of the standard it is of. *)
From S2P Require Import Prelude.
From S2P Require Import Diagnostics.
From S2P Require Import Names.
From S2P Require Import CategoryRules.
From S2P Require Import PropertyExpr.
From S2P Require Import ItemTree.
From S2P Require Import CategoryCheck.
From S2P Require Import PropertyMap.
From S2P Require Import Instance.
From S2P Require Import Resolver.
From S2P Require Import FeatureGroups.
From S2P Require Import BuilderSpec.
From S2P Require Import Instantiate.
From S2P Require Import Passes.
From Stdlib Require Import Ascii String.
From stdpp Require Import gmap strings sets pretty.
Import CategoryRules ItemTree.
#[local] Open Scope string_scope.

(** ** What the rules share *)

(** [for item_ref in pkg.public_items.iter().chain(pkg.private_items.iter())]
    of every package. *)
Definition each_item {A} (tree : ItemTree) (f : Package → ItemRef → Exec (list A)) : Exec (list A) :=
  concatM (λ pkg, concatM (f pkg) (pkg_public_items pkg ++ pkg_private_items pkg)%list) (packages tree).

(** [xs.iter().any(|x| ..)], which stops at the first that holds. *)
Fixpoint anyM {A} (f : A → Exec bool) (xs : list A) : Exec bool :=
  match xs with
  | [] => Done false
  | x :: xs => b ← f x; if (b : bool) then Done true else anyM f xs
  end.

(** [s.contains(pat)] *)
Fixpoint str_contains (s pat : string) : bool :=
  String.prefix pat s || match s with EmptyString => false | String _ s => str_contains s pat end.

Definition qualified_name (ci : ComponentImplItem) : string := ci_type_name ci +:+ "." +:+ ci_impl_name ci.

(** ** [naming_rules] *)

(** crates/spar-analysis/src/naming_rules.rs:268-279 [check_duplicate_names]: the
    names that are in the set already, lowercased. *)
Fixpoint repeated (seen : gset string) (names : list string) : list string :=
  match names with
  | [] => []
  | n :: names =>
      let lower := Names.to_ascii_lowercase n in
      if bool_decide (lower ∈ seen) then n :: repeated seen names else repeated ({[ lower ]} ∪ seen) names
  end.

(** crates/spar-analysis/src/naming_rules.rs:261-280 [check_duplicate_names] *)
Definition check_duplicate_names (names : list string) (kind : string) (p : list string) (sev : Severity) : list AnalysisDiagnostic :=
  map (λ n, diag "naming" sev p ("duplicate " +:+ kind +:+ " name '" +:+ n +:+ "'")) (repeated ∅ names).

(** crates/spar-analysis/src/naming_rules.rs:72-104 [check_with_clauses] *)
Definition check_with_clauses (pkg : Package) : list AnalysisDiagnostic :=
  (map (λ w, diag "naming" Warning [pkg_name pkg] ("duplicate with clause '" +:+ w +:+ "'")) (repeated ∅ (pkg_with_clauses pkg)) ++
   map (λ _, diag "naming" Warning [pkg_name pkg] ("package '" +:+ pkg_name pkg +:+ "' imports itself via with clause"))
     (List.filter (λ w, eq_ignore_ascii_case w (pkg_name pkg)) (pkg_with_clauses pkg)))%list.

(** The names of the items at [idxs]. *)
Definition names_at {A} (nm : A → Name) (arena : list A) (idxs : list ItemIdx) : Exec (list Name) :=
  mapM (λ i, x ← arena_get arena i; Done (nm x)) idxs.

(** crates/spar-analysis/src/naming_rules.rs:108-157 [check_component_type] *)
Definition check_component_type (tree : ItemTree) (ct : ComponentTypeItem) (pkg : string) : Exec (list AnalysisDiagnostic) :=
  let p := [pkg; ct_name ct] in
  fs ← names_at ft_name (tree_features tree) (ct_features ct);
  ss ← names_at fs_name (flow_specs tree) (ct_flow_specs ct);
  ms ← names_at md_name (tree_modes tree) (ct_modes ct);
  Done (when (String.eqb (ct_name ct) "") (diag "naming" Error [pkg] "component type has an empty name") ++
        check_duplicate_names fs "feature" p Error ++
        check_duplicate_names ss "flow specification" p Error ++
        check_duplicate_names ms "mode" p Error)%list.

(** crates/spar-analysis/src/naming_rules.rs:161-224 [check_component_impl] *)
Definition check_component_impl (tree : ItemTree) (ci : ComponentImplItem) (pkg : string) : Exec (list AnalysisDiagnostic) :=
  let qualified := qualified_name ci in
  let p := [pkg; qualified] in
  ss ← names_at sub_name (tree_subcomponents tree) (ci_subcomponents ci);
  cs ← names_at cn_name (tree_connections tree) (ci_connections ci);
  ms ← names_at md_name (tree_modes tree) (ci_modes ci);
  Done (when (String.eqb (ci_type_name ci) "")
          (diag "naming" Error [pkg] ("component implementation '" +:+ qualified +:+ "' has an empty type name")) ++
        when (String.eqb (ci_impl_name ci) "")
          (diag "naming" Error [pkg] ("component implementation for type '" +:+ ci_type_name ci +:+ "' has an empty impl name")) ++
        check_duplicate_names ss "subcomponent" p Error ++
        check_duplicate_names cs "connection" p Error ++
        check_duplicate_names ms "mode" p Error)%list.

(** crates/spar-analysis/src/naming_rules.rs:228-252 [check_property_set] *)
Definition check_property_set (ps : PropertySetItem) (pkg : string) : list AnalysisDiagnostic :=
  let p := [pkg; ps_name ps] in
  (check_duplicate_names (map pd_name (ps_property_defs ps)) "property definition" p Error ++
   check_duplicate_names (map ptd_name (ps_property_type_defs ps)) "property type definition" p Error)%list.

(** crates/spar-analysis/src/naming_rules.rs:38-52 [check_naming_rules] *)
Definition check_named_item (tree : ItemTree) (pkg : Package) (item : ItemRef) : Exec (list AnalysisDiagnostic) :=
  match item with
  | RComponentType i => ct ← arena_get (component_types tree) i; check_component_type tree ct (pkg_name pkg)
  | RComponentImpl i => ci ← arena_get (component_impls tree) i; check_component_impl tree ci (pkg_name pkg)
  | RPropertySet i => ps ← arena_get (property_sets tree) i; Done (check_property_set ps (pkg_name pkg))
  | _ => Done []
  end.

(** crates/spar-analysis/src/naming_rules.rs:29-68 [check_naming_rules] *)
Definition check_naming_rules (tree : ItemTree) : Exec (list AnalysisDiagnostic) :=
  concatM (λ pkg, ds ← concatM (check_named_item tree pkg) (pkg_public_items pkg ++ pkg_private_items pkg)%list;
                  Done (check_with_clauses pkg ++ ds)%list) (packages tree).

(** ** [extends_rules] *)

(** crates/spar-analysis/src/extends_rules.rs:245-256 [find_component_type] *)
Definition find_component_type (tree : ItemTree) (cref : ClassifierRef) : option ComponentTypeItem :=
  List.find (λ ct, eq_ignore_ascii_case (ct_name ct) (type_name cref)) (component_types tree).

(** crates/spar-analysis/src/extends_rules.rs:259-276 [find_component_impl] *)
Definition find_component_impl (tree : ItemTree) (cref : ClassifierRef) : option ComponentImplItem :=
  List.find (λ ci, eq_ignore_ascii_case (ci_type_name ci) (type_name cref) &&
    match impl_name cref with Some ti => eq_ignore_ascii_case (ci_impl_name ci) ti | None => true end) (component_impls tree).

(** crates/spar-analysis/src/extends_rules.rs:67-71 [check_type_extends] *)
Definition same_package (extends : ClassifierRef) (pkg : string) : bool :=
  match package extends with None => true | Some p => eq_ignore_ascii_case p pkg end.

(** crates/spar-analysis/src/extends_rules.rs:206-242 [check_feature_compatibility] *)
Definition check_feature_compatibility (tree : ItemTree) (extending base : ComponentTypeItem) (p : list string) : Exec (list AnalysisDiagnostic) :=
  concatM (λ ei,
    ext_feat ← arena_get (tree_features tree) ei;
    concatM (λ bi,
      base_feat ← arena_get (tree_features tree) bi;
      Done (when (eq_ignore_ascii_case (ft_name ext_feat) (ft_name base_feat) && negb (bool_decide (ft_kind ext_feat = ft_kind base_feat)))
        (diag "extends_rules" Error p ("feature '" +:+ ft_name ext_feat +:+ "' in extending type '" +:+ ct_name extending +:+ "' is " +:+
           feature_fmt (ft_kind ext_feat) +:+ " but base type '" +:+ ct_name base +:+ "' declares it as " +:+ feature_fmt (ft_kind base_feat) +:+
           " — refined features must preserve kind")))) (ct_features base)) (ct_features extending).

(** crates/spar-analysis/src/extends_rules.rs:49-107 [check_type_extends] *)
Definition check_type_extends (tree : ItemTree) (ct : ComponentTypeItem) (pkg : string) : Exec (list AnalysisDiagnostic) :=
  match ct_extends ct with
  | None => Done []
  | Some extends =>
      let p := [pkg; ct_name ct] in
      let self := when (eq_ignore_ascii_case (type_name extends) (ct_name ct) && same_package extends pkg)
        (diag "extends_rules" Error p ("component type '" +:+ ct_name ct +:+ "' extends itself (direct cycle)")) in
      match find_component_type tree extends with
      | None => Done self
      | Some base =>
          ds ← check_feature_compatibility tree ct base p;
          Done (self ++ when (negb (bool_decide (ct_category base = ct_category ct)))
                  (diag "extends_rules" Error p ("component type '" +:+ ct_name ct +:+ "' (" +:+ category_fmt (ct_category ct) +:+ ") extends '" +:+
                     classifier_fmt extends +:+ "' (" +:+ category_fmt (ct_category base) +:+ ") — categories must match")) ++ ds)%list
      end
  end.

(** crates/spar-analysis/src/extends_rules.rs:110-167 [check_impl_extends] *)
Definition check_impl_extends (tree : ItemTree) (ci : ComponentImplItem) (pkg : string) : list AnalysisDiagnostic :=
  match ci_extends ci with
  | None => []
  | Some extends =>
      let p := [pkg; qualified_name ci] in
      let same_impl := match impl_name extends with Some ei => eq_ignore_ascii_case ei (ci_impl_name ci) | None => false end in
      (when (eq_ignore_ascii_case (type_name extends) (ci_type_name ci) && same_impl && same_package extends pkg)
         (diag "extends_rules" Error p ("component implementation '" +:+ qualified_name ci +:+ "' extends itself (direct cycle)")) ++
       match find_component_impl tree extends with
       | Some base => when (negb (bool_decide (ci_category base = ci_category ci)))
           (diag "extends_rules" Error p ("component implementation '" +:+ qualified_name ci +:+ "' (" +:+ category_fmt (ci_category ci) +:+
              ") extends '" +:+ classifier_fmt extends +:+ "' (" +:+ category_fmt (ci_category base) +:+ ") — categories must match"))
       | None => []
       end)%list
  end.

(** crates/spar-analysis/src/extends_rules.rs:171-202 [check_impl_type_category_match] *)
Definition check_impl_type_category_match (tree : ItemTree) (ci : ComponentImplItem) (pkg : string) : list AnalysisDiagnostic :=
  match List.find (λ ct, eq_ignore_ascii_case (ct_name ct) (ci_type_name ci)) (component_types tree) with
  | Some base => when (negb (bool_decide (ct_category base = ci_category ci)))
      (diag "extends_rules" Error [pkg; qualified_name ci] ("component implementation '" +:+ qualified_name ci +:+ "' has category " +:+
         category_fmt (ci_category ci) +:+ " but its type '" +:+ ct_name base +:+ "' has category " +:+ category_fmt (ct_category base) +:+
         " — they must match"))
  | None => []
  end.

(** crates/spar-analysis/src/extends_rules.rs:20-46 [check_extends_rules] *)
Definition check_extends_rules (tree : ItemTree) : Exec (list AnalysisDiagnostic) :=
  each_item tree (λ pkg item,
    match item with
    | RComponentType i => ct ← arena_get (component_types tree) i; check_type_extends tree ct (pkg_name pkg)
    | RComponentImpl i =>
        ci ← arena_get (component_impls tree) i;
        Done (check_impl_extends tree ci (pkg_name pkg) ++ check_impl_type_category_match tree ci (pkg_name pkg))%list
    | _ => Done []
    end).

(** ** [flow_rules] *)

(** crates/spar-analysis/src/flow_rules.rs:50-57 [FlowRuleAnalysis::analyze] *)
Definition has_port (inst : SystemInstance) (compatible : Direction → bool) (fs : list FeatureInstanceIdx) : Exec bool :=
  anyM (λ i, f ← feature_at inst i; Done (match direction f with Some d => compatible d | None => false end)) fs.

(** crates/spar-analysis/src/flow_rules.rs:43-138 [FlowRuleAnalysis::analyze]: one flow. *)
Definition check_flow_directions (inst : SystemInstance) (p : list string) (comp : ComponentInstance) (fi : FlowInstanceIdx)
  : Exec (list AnalysisDiagnostic) :=
  flow ← arena_get (flow_instances inst) fi;
  let some := negb (is_empty (features comp)) in
  match flow_kind flow with
  | FlowSource =>
      has_out ← has_port inst is_output_compatible (features comp);
      Done (when (negb has_out && some) (diag "flow_rules" Error p ("flow source '" +:+ flow_name flow +:+
        "' requires an out or in-out port but component '" +:+ name comp +:+ "' has no output ports")))
  | FlowSink =>
      has_in ← has_port inst is_input_compatible (features comp);
      Done (when (negb has_in && some) (diag "flow_rules" Error p ("flow sink '" +:+ flow_name flow +:+
        "' requires an in or in-out port but component '" +:+ name comp +:+ "' has no input ports")))
  | FlowPath =>
      has_in ← has_port inst is_input_compatible (features comp);
      has_out ← has_port inst is_output_compatible (features comp);
      Done (when ((negb has_in || negb has_out) && some) (diag "flow_rules" Error p ("flow path '" +:+ flow_name flow +:+
        "' requires both in and out ports but component '" +:+ name comp +:+ "' is missing " +:+
        (if negb has_in && negb has_out then "both" else if negb has_in then "input port" else "output port"))))
  end.

(** crates/spar-analysis/src/flow_rules.rs:288-290 [extract_subcomponent] *)
Definition extract_subcomponent (segment : string) : option string :=
  let s := before_char "."%char segment in if String.eqb s "" then None else Some s.

(** crates/spar-analysis/src/flow_rules.rs:180-196 [FlowRuleAnalysis::analyze] *)
Definition joins (conn : ConnectionInstance) (s d : string) : bool :=
  let src_is x := match src conn ≫= subcomponent with Some n => eq_ignore_ascii_case n x | None => false end in
  let dst_is x := match dst conn ≫= subcomponent with Some n => eq_ignore_ascii_case n x | None => false end in
  src_is s && dst_is d || is_bidirectional conn && src_is d && dst_is s.

(** crates/spar-analysis/src/flow_rules.rs:165-222 [FlowRuleAnalysis::analyze]: a
    flow, the connection after it and the flow after that. *)
Definition check_link (inst : SystemInstance) (p : list string) (owner : ComponentInstance) (e2e : EndToEndFlowInstance)
    (seg_flow seg_conn seg_next : Name) : Exec (list AnalysisDiagnostic) :=
  match extract_subcomponent seg_flow, extract_subcomponent seg_next with
  | Some s, Some d =>
      conn_valid ← anyM (λ ci, conn ← connection inst ci;
        Done (eq_ignore_ascii_case (conn_name conn) seg_conn && joins conn s d)) (connections owner);
      if (conn_valid : bool) then Done []
      else
        conn_exists ← anyM (λ ci, conn ← connection inst ci; Done (eq_ignore_ascii_case (conn_name conn) seg_conn)) (connections owner);
        Done (when conn_exists (diag "flow_rules" Warning p ("end-to-end flow '" +:+ e2e_name e2e +:+ "': connection '" +:+ seg_conn +:+
          "' may not connect subcomponents '" +:+ s +:+ "' and '" +:+ d +:+ "' as required for flow continuity")))
  | _, _ => Done []
  end.

(** crates/spar-analysis/src/flow_rules.rs:163-224 [FlowRuleAnalysis::analyze]:
    [for i in (0..segments.len() - 2).step_by(2)]. *)
Fixpoint check_links (inst : SystemInstance) (p : list string) (owner : ComponentInstance) (e2e : EndToEndFlowInstance)
    (segs : list Name) : Exec (list AnalysisDiagnostic) :=
  match segs with
  | a :: c :: ((b :: _) as rest) =>
      ds ← check_link inst p owner e2e a c b; es ← check_links inst p owner e2e rest; Done (ds ++ es)%list
  | _ => Done []
  end.

(** crates/spar-analysis/src/flow_rules.rs:232-253 [FlowRuleAnalysis::analyze]: the
    first segment or the last. *)
Definition check_end_segment (inst : SystemInstance) (p : list string) (owner : ComponentInstance) (e2e : EndToEndFlowInstance)
    (which : string) (seg : Name) : Exec (list AnalysisDiagnostic) :=
  match extract_subcomponent seg with
  | Some sub =>
      sub_exists ← anyM (λ c, child ← component inst c; Done (eq_ignore_ascii_case (name child) sub)) (children owner);
      Done (when (negb sub_exists) (diag "flow_rules" Warning p ("end-to-end flow '" +:+ e2e_name e2e +:+ "': " +:+ which +:+
        " segment references subcomponent '" +:+ sub +:+ "' which is not found in '" +:+ name owner +:+ "'")))
  | None => Done []
  end.

(** crates/spar-analysis/src/flow_rules.rs:149-276 [FlowRuleAnalysis::analyze]: one
    end-to-end flow. *)
Definition check_e2e_flow (inst : SystemInstance) (e2e : EndToEndFlowInstance) : Exec (list AnalysisDiagnostic) :=
  owner ← component inst (e2e_owner e2e);
  p ← component_path inst (e2e_owner e2e);
  match e2e_segments e2e with
  | a :: _ :: _ :: _ =>
      ds ← check_links inst p owner e2e (e2e_segments e2e);
      fs ← check_end_segment inst p owner e2e "first" a;
      ls ← check_end_segment inst p owner e2e "last" (List.last (e2e_segments e2e) a);
      Done (ds ++ fs ++ ls)%list
  | _ => Done []
  end.

(** crates/spar-analysis/src/flow_rules.rs:366-373 [FlowInstance::kind_str] *)
Definition kind_str (k : FlowKind) : string :=
  match k with FlowSource => "source" | FlowSink => "sink" | FlowPath => "path" end.

(** crates/spar-analysis/src/flow_rules.rs:325-354 [check_flow_coverage]: one flow of
    a child. *)
Definition check_covered (inst : SystemInstance) (referenced : list string) (comp_idx : ComponentInstanceIdx) (comp child : ComponentInstance)
    (fi : FlowInstanceIdx) : Exec (list AnalysisDiagnostic) :=
  flow ← arena_get (flow_instances inst) fi;
  match flow_kind flow with
  | FlowPath => Done []
  | kind =>
      let flow_ref := Names.to_ascii_lowercase (name child +:+ "." +:+ flow_name flow) in
      if negb (bool_decide (flow_ref ∈ referenced)) && negb (is_empty (e2e_flow_instances inst)) then
        p ← component_path inst comp_idx;
        Done [diag "flow_rules" Info p ("flow " +:+ kind_str kind +:+ " '" +:+ flow_name flow +:+ "' on subcomponent '" +:+ name child +:+
          "' is not referenced by any end-to-end flow in '" +:+ name comp +:+ "'")]
      else Done []
  end.

(** crates/spar-analysis/src/flow_rules.rs:294-358 [check_flow_coverage] *)
Definition check_flow_coverage (inst : SystemInstance) : Exec (list AnalysisDiagnostic) :=
  each_component inst (λ comp_idx comp,
    child_has_flows ← anyM (λ c, child ← component inst c; Done (negb (is_empty (flows child)))) (children comp);
    if (child_has_flows : bool) then
      let referenced := map Names.to_ascii_lowercase
        (List.filter (λ e, Nat.eqb (e2e_owner e) comp_idx) (e2e_flow_instances inst) ≫= e2e_segments) in
      concatM (λ c, child ← component inst c; concatM (check_covered inst referenced comp_idx comp child) (flows child)) (children comp)
    else Done []).

(** crates/spar-analysis/src/flow_rules.rs:30-284 [FlowRuleAnalysis::analyze] *)
Definition flow_rules_analyze (inst : SystemInstance) : Exec (list AnalysisDiagnostic) :=
  ds ← each_component inst (λ idx comp, p ← component_path inst idx; concatM (check_flow_directions inst p comp) (flows comp));
  es ← concatM (check_e2e_flow inst) (e2e_flow_instances inst);
  cs ← check_flow_coverage inst;
  Done (ds ++ es ++ cs)%list.

Definition flow_rules : Analysis := {| an_name := "flow_rules"; analyze := flow_rules_analyze; as_modal := None |}.

(** ** [classifier_match] *)

(** crates/spar-analysis/src/classifier_match.rs:108-113 [check_port_classifier_match] *)
Definition carries_data (k : FeatureKind) : bool :=
  match k with DataPort | EventDataPort | Parameter_ => true | _ => false end.

(** crates/spar-analysis/src/classifier_match.rs:187-195 [check_access_match] *)
Definition is_access (k : FeatureKind) : bool :=
  match k with DataAccess | BusAccess | SubprogramAccess | SubprogramGroupAccess => true | _ => false end.

(** crates/spar-analysis/src/classifier_match.rs:288-304 [classifiers_match] *)
Definition classifiers_match (a b : ClassifierRef) : bool :=
  if negb (eq_ci (type_name a) (type_name b)) then false
  else match package a, package b with
       | Some pa, Some pb => eq_ci pa pb
       | _, _ => true
       end.

(** crates/spar-analysis/src/classifier_match.rs:119-162 [check_port_classifier_match]:
    the classifiers of both ends; [check_access_match] has the same in lines
    202-242. *)
Definition compare_classifiers (conn : Name) (sf df : FeatureInstance) (sn dn : Name) (what : string) (p : list string)
  : list AnalysisDiagnostic :=
  let gap role n c role' n' := diag "classifier_match" Info p ("connection '" +:+ conn +:+ "': " +:+ role +:+ " feature '" +:+ n +:+
    "' has classifier '" +:+ classifier_fmt c +:+ "' but " +:+ role' +:+ " feature '" +:+ n' +:+
    "' has no classifier — potential type safety gap") in
  match feat_classifier sf, feat_classifier df with
  | Some sc, Some dc => when (negb (classifiers_match sc dc))
      (diag "classifier_match" Error p ("connection '" +:+ conn +:+ "': source feature '" +:+ sn +:+ "' has classifier '" +:+ classifier_fmt sc +:+
        "' but destination feature '" +:+ dn +:+ "' has classifier '" +:+ classifier_fmt dc +:+ "' — " +:+ what +:+ " types must match"))
  | Some c, None => [gap "source" sn c "destination" dn]
  | None, Some c => [gap "destination" dn c "source" sn]
  | None, None => []
  end.

(** crates/spar-analysis/src/classifier_match.rs:98-163 [check_port_classifier_match] *)
Definition check_port_classifier_match (conn : Name) (sf df : FeatureInstance) (sn dn : Name) (p : list string) : list AnalysisDiagnostic :=
  if negb (carries_data (feat_kind sf)) && negb (carries_data (feat_kind df)) then []
  else compare_classifiers conn sf df sn dn "data" p.

(** crates/spar-hir-def/src/item_tree/mod.rs:322-329 [AccessKind::fmt] *)
Definition access_fmt (k : AccessKind) : string := match k with Provides => "provides" | Requires => "requires" end.

(** crates/spar-analysis/src/classifier_match.rs:177-282 [check_access_match] *)
Definition check_access_match (conn : Name) (sf df : FeatureInstance) (sn dn : Name) (is_delegation : bool) (p : list string)
  : list AnalysisDiagnostic :=
  if negb (is_access (feat_kind sf)) && negb (is_access (feat_kind df)) then []
  else (compare_classifiers conn sf df sn dn "access" p ++
    match access_kind sf, access_kind df with
    | Some sk, Some dk =>
        if is_delegation then when (negb (bool_decide (sk = dk)))
          (diag "classifier_match" Error p ("connection '" +:+ conn +:+ "': delegation between enclosing feature '" +:+ sn +:+ "' (" +:+
             access_fmt sk +:+ ") and subcomponent feature '" +:+ dn +:+ "' (" +:+ access_fmt dk +:+
             ") — delegation access connections require matching directions"))
        else when (bool_decide (sk = dk))
          (diag "classifier_match" Error p ("connection '" +:+ conn +:+ "': both source '" +:+ sn +:+ "' and destination '" +:+ dn +:+
             "' are '" +:+ access_fmt sk +:+ "' — access connections require provides ↔ requires pairing"))
    | _, _ => []
    end)%list.

(** crates/spar-analysis/src/classifier_match.rs:32-87 [ClassifierMatchAnalysis::analyze]:
    one connection. *)
Definition check_classifiers (inst : SystemInstance) (idx : ComponentInstanceIdx) (ci : ConnectionInstanceIdx) : Exec (list AnalysisDiagnostic) :=
  conn ← connection inst ci;
  match src conn, dst conn with
  | Some s, Some d =>
      sf ← end_feature inst idx s;
      df ← end_feature inst idx d;
      match sf, df with
      | Some sf, Some df =>
          p ← component_path inst idx;
          let is_delegation := xorb (negb (is_some (subcomponent s))) (negb (is_some (subcomponent d))) in
          Done ((if bool_decide (conn_kind conn = PortConnection) || bool_decide (conn_kind conn = FeatureConnection)
                 then check_port_classifier_match (conn_name conn) sf df (feature s) (feature d) p else []) ++
                (if bool_decide (conn_kind conn = AccessConnection)
                 then check_access_match (conn_name conn) sf df (feature s) (feature d) is_delegation p else []))%list
      | _, _ => Done []
      end
  | _, _ => Done []
  end.

(** crates/spar-analysis/src/classifier_match.rs:25-90 [ClassifierMatchAnalysis::analyze] *)
Definition classifier_match_analyze (inst : SystemInstance) : Exec (list AnalysisDiagnostic) :=
  each_component inst (λ idx comp, concatM (check_classifiers inst idx) (connections comp)).

Definition classifier_match : Analysis :=
  {| an_name := "classifier_match"; analyze := classifier_match_analyze; as_modal := None |}.

(** ** [feature_group_check] *)

(** crates/spar-analysis/src/feature_group_check.rs:65-68 [FeatureGroupCheckAnalysis::analyze]:
    a feature of that name is a feature group. *)
Definition is_group (inst : SystemInstance) (comp : ComponentInstance) (nm : Name) : Exec bool :=
  anyM (λ i, f ← feature_at inst i; Done (eq_ci (feat_name f) nm && bool_decide (feat_kind f = FeatureGroup))) (features comp).

(** crates/spar-analysis/src/feature_group_check.rs:63-80 [FeatureGroupCheckAnalysis::analyze]:
    an end, here the source, and the destination in lines 82-99. *)
Definition check_group_end (inst : SystemInstance) (conn : ConnectionInstance) (role : string) (e : ConnectionEnd) (c : option ComponentInstanceIdx)
  : Exec (list AnalysisDiagnostic) :=
  match c with
  | None => Done []
  | Some idx =>
      comp ← component inst idx;
      is_fg ← is_group inst comp (feature e);
      if negb is_fg && negb (is_empty (features comp)) then
        p ← component_path inst (conn_owner conn);
        Done [diag "feature_group_check" Warning p ("feature group connection '" +:+ conn_name conn +:+ "': " +:+ role +:+ " feature '" +:+
          feature e +:+ "' is not a feature group")]
      else Done []
  end.

(** crates/spar-analysis/src/feature_group_check.rs:34-103 [FeatureGroupCheckAnalysis::analyze] *)
Definition feature_group_analyze (inst : SystemInstance) : Exec (list AnalysisDiagnostic) :=
  concatM (λ conn,
    if negb (bool_decide (conn_kind conn = FeatureGroupConnection)) then Done []
    else match src conn, dst conn with
         | Some s, Some d =>
             sc ← end_component inst (conn_owner conn) (subcomponent s);
             dc ← end_component inst (conn_owner conn) (subcomponent d);
             ds ← check_group_end inst conn "source" s sc;
             es ← check_group_end inst conn "destination" d dc;
             Done (ds ++ es)%list
         | _, _ =>
             p ← component_path inst (conn_owner conn);
             Done [diag "feature_group_check" Error p ("feature group connection '" +:+ conn_name conn +:+ "' is missing an endpoint")]
         end) (connection_instances inst).

Definition feature_group_check : Analysis :=
  {| an_name := "feature_group_check"; analyze := feature_group_analyze; as_modal := None |}.

(** crates/spar-analysis/src/feature_group_check.rs:119-123 [DirectionMismatch] *)
Record DirectionMismatch := {
  feature_name : Name;
  source_direction : option Direction;
  destination_direction : option Direction;
}.

(** crates/spar-analysis/src/feature_group_check.rs:110-115 [ComplementCheckResult] *)
Record ComplementCheckResult := {
  unmatched_source : list ExpandedFeature;
  direction_mismatches : list DirectionMismatch;
}.

(** crates/spar-analysis/src/feature_group_check.rs:140-162 [validate_complement]: one
    feature of the source. *)
Definition complement_step (destination : list ExpandedFeature) (r : ComplementCheckResult) (sf : ExpandedFeature) : ComplementCheckResult :=
  match List.find (λ d, eq_ci (ef_feature_name d) (ef_feature_name sf)) destination with
  | None => {| unmatched_source := unmatched_source r ++ [sf]; direction_mismatches := direction_mismatches r |}%list
  | Some d =>
      match ef_direction sf, ef_direction d with
      | Some sd, Some dd =>
          if bool_decide (flip_direction sd = dd) then r
          else {| unmatched_source := unmatched_source r;
                  direction_mismatches := direction_mismatches r ++
                    [{| feature_name := ef_feature_name sf; source_direction := Some sd; destination_direction := Some dd |}] |}%list
      | _, _ => r
      end
  end.

(** crates/spar-analysis/src/feature_group_check.rs:133-168 [validate_complement] *)
Definition validate_complement (source destination : list ExpandedFeature) : ComplementCheckResult :=
  foldl (complement_step destination) {| unmatched_source := []; direction_mismatches := [] |} source.

(** crates/spar-analysis/src/feature_group_check.rs:177-198 [check_inverse_of_rules] *)
Definition check_inverse_of_rules (tree : ItemTree) : list AnalysisDiagnostic :=
  feature_group_types tree ≫= λ fgt,
    when (is_some (fgt_inverse_of fgt) && negb (is_empty (fgt_features fgt)))
      (diag "feature_group_check" Error [fgt_name fgt] ("feature group type '" +:+ fgt_name fgt +:+ "' declares 'inverse of' but also has " +:+
        pretty (N.of_nat (List.length (fgt_features fgt))) +:+
        " explicit feature(s); inverse-of types inherit features with flipped directions and must not declare their own")).

(** crates/spar-analysis/src/feature_group_check.rs:345-357 [expand_component_feature_group] *)
Fixpoint expand_declared (g : GlobalScope) (comp : ComponentInstance) (tree_idx : nat) (nm : Name) (fs : list ItemIdx)
  : Exec (option (list ExpandedFeature)) :=
  match fs with
  | [] => Done None
  | i :: fs =>
      o ← get_feature g tree_idx i;
      match o with
      | None => Done None
      | Some feat =>
          if eq_ci (ft_name feat) nm && bool_decide (ft_kind feat = FeatureGroup) then
            match ft_classifier feat with
            | Some cls => es ← expand_feature_group g (default (comp_package comp) (package cls)) (type_name cls) false; Done (Some es)
            | None => Done None
            end
          else expand_declared g comp tree_idx nm fs
      end
  end.

(** crates/spar-analysis/src/feature_group_check.rs:313-358 [expand_component_feature_group] *)
Definition expand_component_feature_group (inst : SystemInstance) (g : GlobalScope) (idx : ComponentInstanceIdx) (nm : Name)
  : Exec (option (list ExpandedFeature)) :=
  comp ← component inst idx;
  is_fg ← is_group inst comp nm;
  if negb is_fg then Done None
  else
    resolved ← resolve_classifier g (comp_package comp)
      {| package := Some (comp_package comp); type_name := comp_type_name comp; impl_name := None |};
    match resolved with
    | ResolvedType _ loc =>
        o ← get_component_type g loc;
        match o with
        | Some ct => expand_declared g comp (loc_tree loc) nm (ct_features ct)
        | None => Done None
        end
    | _ => Done None
    end.

(** crates/spar-analysis/src/feature_group_check.rs:361-369 [build_connection_path] *)
Definition build_connection_path (inst : SystemInstance) (owner : ComponentInstanceIdx) (conn : Name) : Exec (list string) :=
  p ← component_path inst owner; Done (p ++ [conn])%list.

(** crates/spar-analysis/src/feature_group_check.rs:251-285 [check_feature_group_complements] *)
Definition complement_diags (conn : ConnectionInstance) (p : list string) (r : ComplementCheckResult) : list AnalysisDiagnostic :=
  let show d := match d with Some d => direction_fmt d | None => "none" end in
  (map (λ u, diag "feature_group_check" Error p ("feature group connection '" +:+ conn_name conn +:+ "': source feature '" +:+
      ef_feature_name u +:+ "' has no matching feature in destination feature group")) (unmatched_source r) ++
   map (λ m, diag "feature_group_check" Error p ("feature group connection '" +:+ conn_name conn +:+ "': feature '" +:+ feature_name m +:+
      "' has incompatible directions (source: " +:+ show (source_direction m) +:+ ", destination: " +:+ show (destination_direction m) +:+
      ", expected destination: " +:+ show (flip_direction <$> source_direction m) +:+ ")")) (direction_mismatches r))%list.

(** crates/spar-analysis/src/feature_group_check.rs:207-289 [check_feature_group_complements] *)
Definition check_feature_group_complements (inst : SystemInstance) (g : GlobalScope) : Exec (list AnalysisDiagnostic) :=
  concatM (λ conn,
    if negb (bool_decide (conn_kind conn = FeatureGroupConnection)) then Done []
    else match src conn, dst conn with
         | Some s, Some d =>
             sc ← end_component inst (conn_owner conn) (subcomponent s);
             dc ← end_component inst (conn_owner conn) (subcomponent d);
             match sc, dc with
             | Some sc, Some dc =>
                 sx ← expand_component_feature_group inst g sc (feature s);
                 dx ← expand_component_feature_group inst g dc (feature d);
                 match sx, dx with
                 | Some sx, Some dx =>
                     p ← build_connection_path inst (conn_owner conn) (conn_name conn);
                     Done (complement_diags conn p (validate_complement sx dx))
                 | _, _ => Done []
                 end
             | _, _ => Done []
             end
         | _, _ => Done []
         end) (connection_instances inst).

(** ** [legality] *)

(** crates/spar-analysis/src/legality.rs:45-52 [LegalityRule] *)
Record LegalityRule := { rule_id : string; description : string; rule_section : string }.

(** crates/spar-analysis/src/legality.rs:58-63 [LegalityDiagnostic] *)
Record LegalityDiagnostic := { rule : LegalityRule; inner : AnalysisDiagnostic }.

Definition lrule (id descr sec : string) : LegalityRule := {| rule_id := id; description := descr; rule_section := sec |}.

(** crates/spar-analysis/src/legality.rs:155-194 [classify_naming_rule] *)
Definition classify_naming_rule (d : AnalysisDiagnostic) : LegalityRule :=
  let has := str_contains (message d) in
  if has "empty name" || has "empty type name" || has "empty impl name" then
    lrule "N-1" "Identifiers must be non-empty" "AS5506 §4"
  else if has "duplicate" && has "with clause" then lrule "N-3" "No duplicate with-clause entries" "AS5506 §4.2"
  else if has "imports itself" then lrule "N-3" "No self-referencing with clauses" "AS5506 §4.2"
  else if has "duplicate property definition" || has "duplicate property type" then
    lrule "N-4" "No duplicate property set member names" "AS5506 §11"
  else lrule "N-2" "No duplicate names within a scope" "AS5506 §4.3".

(** crates/spar-analysis/src/legality.rs:197-211 [classify_category_rule] *)
Definition classify_category_rule (d : AnalysisDiagnostic) : LegalityRule :=
  if str_contains (message d) "feature" then lrule "C-1" "Features must be allowed for the component category" "AS5506 §5-6"
  else lrule "C-2" "Subcomponent categories must be allowed for the parent" "AS5506 §5-6".

(** crates/spar-analysis/src/legality.rs:216-249 [classify_instance_rule] *)
Definition classify_direction (d : AnalysisDiagnostic) : LegalityRule :=
  let has := str_contains (message d) in
  if has "bidirectional" then lrule "D-4" "Bidirectional connections require in out on both ends" "AS5506 §9.4"
  else if has "across" then lrule "D-1" "Across connections: out -> in" "AS5506 §9.3"
  else if has "up" then lrule "D-2" "Up connections: subcomponent out -> enclosing out" "AS5506 §9.3"
  else if has "down" then lrule "D-3" "Down connections: enclosing in -> subcomponent in" "AS5506 §9.3"
  else lrule "D-1" "Port direction compatibility" "AS5506 §9.3".

(** crates/spar-analysis/src/legality.rs:214-349 [classify_instance_rule] *)
Definition classify_instance_rule (an : string) (d : AnalysisDiagnostic) : LegalityRule :=
  let has := str_contains (message d) in
  let this n := String.eqb an n in
  if this "direction_rules" then classify_direction d
  else if this "binding_check" then
    if has "references" && match severity d with Error => true | _ => false end
    then lrule "B-2" "Binding target must be an appropriate category" "AS5506 §10.6"
    else lrule "B-1" "Required deployment bindings should be present" "AS5506 §10.6"
  else if this "flow_check" then
    if has "end-to-end" || has "segment" then lrule "F-2" "End-to-end flow structural validity" "AS5506 §10.5"
    else lrule "F-1" "Flow spec port consistency" "AS5506 §10.3"
  else if this "connectivity" then lrule "CONN-1" "Port connection completeness" "AS5506 §9.2"
  else if this "hierarchy" then lrule "H-1" "Component containment rules" "AS5506 §4.5"
  else if this "completeness" then lrule "COMP-1" "Model completeness (types, features, classifiers)" "AS5506 §4"
  else if this "connection_rules" then
    if has "self-loop" then lrule "CONN-SELF" "Connection must not loop back to same endpoint" "AS5506 §9"
    else lrule "CONN-TYPE" "Connected feature kinds must be compatible" "AS5506 §9"
  else if this "mode_rules" then
    if has "duplicate mode name" then lrule "MODE-UNIQUE" "Mode names must be unique within a component" "AS5506 §12"
    else lrule "MODE-TRIGGER" "Mode transition triggers should be event ports" "AS5506 §12"
  else if this "subcomponent_rules" then
    if has "duplicate subcomponent name" then lrule "SUB-UNIQUE" "Subcomponent names must be unique within a component" "AS5506 §4.4"
    else lrule "SUB-CAT" "Subcomponent category must be valid for containing component" "AS5506 §4.5"
  else lrule "UNKNOWN" "Unknown analysis rule" "".

(** crates/spar-analysis/src/legality.rs:358-370 [check_impl_type_match] *)
Definition declared_types (tree : ItemTree) (pkg : Package) : Exec (list string) :=
  concatM (λ item, match item with
    | RComponentType i => ct ← arena_get (component_types tree) i; Done [Names.to_ascii_lowercase (ct_name ct)]
    | _ => Done []
    end) (pkg_public_items pkg ++ pkg_private_items pkg)%list.

(** crates/spar-analysis/src/legality.rs:372-396 [check_impl_type_match] *)
Definition check_declared (tree : ItemTree) (declared : gset string) (pkg : Package) (item : ItemRef) : Exec (list LegalityDiagnostic) :=
  match item with
  | RComponentImpl i =>
      ci ← arena_get (component_impls tree) i;
      let tn_lower := Names.to_ascii_lowercase (ci_type_name ci) in
      Done (when (negb (String.eqb tn_lower "") && negb (bool_decide (tn_lower ∈ declared)))
        {| rule := lrule "L-impl-type" "Implementation type must match a declared type in the same package" "AS5506 §4.4";
           inner := diag "legality" Warning [pkg_name pkg; qualified_name ci] ("implementation '" +:+ qualified_name ci +:+ "' references type '" +:+
             ci_type_name ci +:+ "' which is not declared in package '" +:+ pkg_name pkg +:+ "'") |})
  | _ => Done []
  end.

(** crates/spar-analysis/src/legality.rs:355-400 [check_impl_type_match] *)
Definition check_impl_type_match (tree : ItemTree) : Exec (list LegalityDiagnostic) :=
  concatM (λ pkg,
    declared ← declared_types tree pkg;
    concatM (check_declared tree (list_to_set declared) pkg) (pkg_public_items pkg ++ pkg_private_items pkg)%list) (packages tree).

(** crates/spar-analysis/src/legality.rs:404-429 [check_feature_group_nonempty] *)
Definition check_feature_group_nonempty (tree : ItemTree) : list LegalityDiagnostic :=
  feature_group_types tree ≫= λ fgt,
    when (is_empty (fgt_features fgt) && negb (is_some (fgt_inverse_of fgt)))
      {| rule := lrule "L-fg-features" "Feature group type should have at least one feature" "AS5506 §8.2";
         inner := diag "legality" Warning [fgt_name fgt]
           ("feature group type '" +:+ fgt_name fgt +:+ "' has no features and no inverse_of") |}.

Definition tag (classify : AnalysisDiagnostic → LegalityRule) (d : AnalysisDiagnostic) : LegalityDiagnostic :=
  {| rule := classify d; inner := d |}.

(** crates/spar-analysis/src/legality.rs:69-94 [LegalityEngine::new] *)
Definition new_engine : AnalysisRunner :=
  [direction_rules; binding_check; flow_check; connectivity; hierarchy; completeness; connection_rules; mode_rules; subcomponent_rules].

(** crates/spar-analysis/src/legality.rs:97-123 [LegalityEngine::check_item_tree] *)
Definition check_item_tree (tree : ItemTree) : Exec (list LegalityDiagnostic) :=
  naming ← check_naming_rules tree;
  cat ← check_category_rules tree;
  impls ← check_impl_type_match tree;
  Done (map (tag classify_naming_rule) naming ++ map (tag classify_category_rule) cat ++ impls ++ check_feature_group_nonempty tree)%list.

(** crates/spar-analysis/src/legality.rs:127-142 [LegalityEngine::check_instance] *)
Definition check_instance (engine : AnalysisRunner) (inst : SystemInstance) : Exec (list LegalityDiagnostic) :=
  concatM (λ a, ds ← analyze a inst; Done (map (tag (classify_instance_rule (an_name a))) ds)) engine.

(** crates/spar-analysis/src/legality.rs:145-149 [LegalityEngine::check_all] *)
Definition check_all (engine : AnalysisRunner) (tree : ItemTree) (inst : SystemInstance) : Exec (list LegalityDiagnostic) :=
  out ← check_item_tree tree; more ← check_instance engine inst; Done (out ++ more)%list.

(** ** The passes keep the law of [Passes] *)

Lemma yields_anyM {A} (f : A → Exec bool) xs : (∀ x, x ∈ xs → yields (f x) (λ _, True)) → yields (anyM f xs) (λ _, True).
Proof.
  intros H. induction xs as [|x xs IH]; [by apply yields_ret|]. cbn [anyM].
  read (apply H; by left) as b Hb. destruct b; [by apply yields_ret|]. apply IH. intros. apply H. by right.
Qed.

Section laws.
Context (inst : SystemInstance) (Hr : ranged inst).

Lemma yields_any_feature i c (f : FeatureInstance → bool) : components inst !! i = Some c →
  yields (anyM (λ j, x ← feature_at inst j; Done (f x)) (features c)) (λ _, True).
Proof. intros Hc. apply yields_anyM. intros j Hj. read (by eapply (yields_feature _ Hr)) as x Hx. by apply yields_ret. Qed.

Lemma yields_any_connection i c (f : ConnectionInstance → bool) : components inst !! i = Some c →
  yields (anyM (λ j, x ← connection inst j; Done (f x)) (connections c)) (λ _, True).
Proof. intros Hc. apply yields_anyM. intros j Hj. read (by eapply (yields_connection _ Hr)) as x Hx. by apply yields_ret. Qed.

Lemma yields_any_child i c (f : ComponentInstance → bool) : components inst !! i = Some c →
  yields (anyM (λ j, x ← component inst j; Done (f x)) (children c)) (λ _, True).
Proof.
  intros Hc. apply yields_anyM. intros j Hj. read (apply yields_component; by eapply (child_in_range _ Hr)) as x Hx.
  by apply yields_ret.
Qed.
End laws.

(** Steps of a pass that search. *)
Ltac search_step Hr :=
  lazymatch goal with
  | |- yields (has_port _ _ _ ≫= _) _ =>
      let b := fresh "b" in let Hb := fresh "Hb" in read (eapply (yields_any_feature _ Hr); eassumption) as b Hb
  | |- yields (is_group _ _ _ ≫= _) _ =>
      let b := fresh "b" in let Hb := fresh "Hb" in read (eapply (yields_any_feature _ Hr); eassumption) as b Hb
  | |- yields (anyM _ (connections _) ≫= _) _ =>
      let b := fresh "b" in let Hb := fresh "Hb" in read (eapply (yields_any_connection _ Hr); eassumption) as b Hb
  | |- yields (anyM _ (children _) ≫= _) _ =>
      let b := fresh "b" in let Hb := fresh "Hb" in read (eapply (yields_any_child _ Hr); eassumption) as b Hb
  | |- yields (end_feature _ _ _ ≫= _) _ =>
      let f := fresh "f" in let Hf := fresh "Hf" in read (apply (yields_end_feature _ Hr); in_range Hr) as f Hf
  | |- _ => pass_step Hr
  end.

Ltac search Hr := repeat search_step Hr.

#[export] Instance classifier_match_lawful : Lawful ranged classifier_match.
Proof.
  split; [|done]. intros inst Hr. cbn [analyze an_name classifier_match]. unfold classifier_match_analyze, check_classifiers.
  search Hr. unfold check_port_classifier_match, check_access_match, compare_classifiers. all_issued.
Qed.

Lemma links_reported inst (Hr : ranged inst) p c e segs i : components inst !! i = Some c →
  (∀ sev msg, issued inst "flow_rules" (diag "flow_rules" sev p msg)) →
  reports inst "flow_rules" (check_links inst p c e segs).
Proof.
  intros Hc H. induction segs as [segs IH] using (well_founded_induction (well_founded_ltof _ List.length)).
  destruct segs as [|a [|b [|d segs]]]; cbn [check_links]; try by apply yields_ret.
  read (refine (_ : reports inst "flow_rules" _)) as ds Hds; [unfold check_link; search Hr|].
  read (apply (IH (d :: segs)); unfold ltof; cbn; lia) as es Hes. by apply yields_ret, Forall_app_2.
Qed.

#[export] Instance flow_rules_lawful : Lawful ranged flow_rules.
Proof.
  split; [|done]. intros inst Hr. cbn [analyze an_name flow_rules]. unfold flow_rules_analyze.
  read (apply (each_component_reports inst "flow_rules"); intros ? ? ? ?) as ds Hds; [unfold check_flow_directions; search Hr|].
  read (apply (yields_concatM _ _ (issued inst "flow_rules")); intros e He) as es Hes.
  - unfold check_e2e_flow. search_step Hr. search_step Hr. destruct (e2e_segments e) as [|a [|b [|d segs]]]; try by apply yields_ret.
    read (by eapply (links_reported inst Hr)) as ls Hls. unfold check_end_segment. search Hr.
  - read (refine (_ : reports inst "flow_rules" _)) as cs Hcs; [|by repeat (apply yields_ret || apply Forall_app_2)].
    unfold check_flow_coverage, check_covered. search Hr.
Qed.

#[export] Instance feature_group_lawful : Lawful ranged feature_group_check.
Proof.
  split; [|done]. intros inst Hr. cbn [analyze an_name feature_group_check]. unfold feature_group_analyze.
  apply yields_concatM. intros conn Hc. apply list_elem_of_lookup in Hc as [k Hc]. search Hr.
  assert (Hend : ∀ role e (o : option nat), match o with Some j => j < List.length (components inst) | None => True end →
    reports inst "feature_group_check" (check_group_end inst conn role e o)).
  { intros role e [j|] Hj; unfold check_group_end; search Hr. }
  read (apply (yields_end_component _ Hr); in_range Hr) as sc Hsc. read (apply (yields_end_component _ Hr); in_range Hr) as dc Hdc.
  read (by apply Hend) as ds Hds. read (by apply Hend) as es Hes. by apply yields_ret, Forall_app_2.
Qed.

(** ** What the rules over item trees accept *)

(** [m] returns, and nothing exactly when [P] holds. *)
Abbreviation silent m P := (yields m (λ ds, ds = [] ↔ P)).

Lemma silent_concatM {A B} (f : A → Exec (list B)) xs (P : A → Prop) :
  (∀ x, x ∈ xs → silent (f x) (P x)) → silent (concatM f xs) (∀ x, x ∈ xs → P x).
Proof.
  intros H. destruct (concatM_nil f xs) as (ds & Hds & Hnil).
  { intros x Hx. destruct (H x Hx) as (ys & Hys & _). by exists ys. }
  exists ds. split; [done|]. rewrite Hnil. split; intros Hx x Hin; destruct (H x Hin) as (ys & Hys & Hiff).
  - apply Hiff. rewrite (Hx x Hin) in Hys. by injection Hys.
  - rewrite Hys. f_equal. by apply Hiff, Hx.
Qed.

Lemma silent_iff {A} (m : Exec (list A)) P Q : silent m P → (P ↔ Q) → silent m Q.
Proof. intros (ds & E & H) HPQ. exists ds. split; [done|]. by rewrite H. Qed.

Lemma map_nil {A B} (f : A → B) xs : map f xs = [] ↔ xs = [].
Proof. by destruct xs. Qed.

Lemma app_nil_iff {A} (xs ys : list A) : (xs ++ ys)%list = [] ↔ xs = [] ∧ ys = [].
Proof. split; [apply app_eq_nil|by intros [-> ->]]. Qed.

(** Names that differ by more than the case of letters. *)
Definition distinct (names : list Name) : Prop := NoDup (map lower names).

Lemma repeated_nil names seen : repeated seen names = [] ↔ distinct names ∧ Forall (λ n, lower n ∉ seen) names.
Proof.
  unfold distinct. revert seen. induction names as [|n names IH]; intros seen; cbn [repeated map].
  { split; [intros _; split; constructor|done]. }
  change (Names.to_ascii_lowercase n) with (lower n). rewrite NoDup_cons, Forall_cons. case_bool_decide as Hin; [split; [done|tauto]|].
  rewrite IH, !Forall_forall. setoid_rewrite elem_of_union. setoid_rewrite elem_of_singleton. rewrite list_elem_of_fmap.
  split.
  - intros [Hd Hs]. split_and!; [|done|done|intros x Hx; specialize (Hs x Hx); tauto].
    intros (x & Hx & Hxin). apply (Hs x Hxin). by left.
  - intros ([Hn Hd] & Hl & Hs). split; [done|]. intros x Hx [Hx'|Hx']; [|by apply (Hs x Hx)]. apply Hn. by exists x.
Qed.

Lemma duplicate_names_nil names kind p sev : check_duplicate_names names kind p sev = [] ↔ distinct names.
Proof.
  unfold check_duplicate_names. rewrite map_nil, repeated_nil. split; [by intros []|]. intros. split; [done|].
  apply Forall_forall. intros. apply not_elem_of_empty.
Qed.

(** The names of the items at indices that are in the arena. *)
Definition names_of {A} (nm : A → Name) (arena : list A) (idxs : list ItemIdx) : list Name := omap (λ i, nm <$> arena !! i) idxs.

Lemma names_at_ok {A} (nm : A → Name) arena idxs : in_arena arena idxs → names_at nm arena idxs = Done (names_of nm arena idxs).
Proof.
  intros H. apply mapM_Done. unfold names_of. induction H as [|i idxs [x Hx] _ IH]; [constructor|]. cbn [omap list_omap].
  rewrite Hx. constructor; [|exact IH]. unfold arena_get. by rewrite Hx.
Qed.

(** What the naming rules ask of an item and of a package. *)
Definition well_named_item (tree : ItemTree) (item : ItemRef) : Prop :=
  match item with
  | RComponentType i => ∀ ct, component_types tree !! i = Some ct →
      ct_name ct ≠ "" ∧ distinct (names_of ft_name (tree_features tree) (ct_features ct)) ∧
      distinct (names_of fs_name (flow_specs tree) (ct_flow_specs ct)) ∧ distinct (names_of md_name (tree_modes tree) (ct_modes ct))
  | RComponentImpl i => ∀ ci, component_impls tree !! i = Some ci →
      ci_type_name ci ≠ "" ∧ ci_impl_name ci ≠ "" ∧ distinct (names_of sub_name (tree_subcomponents tree) (ci_subcomponents ci)) ∧
      distinct (names_of cn_name (tree_connections tree) (ci_connections ci)) ∧ distinct (names_of md_name (tree_modes tree) (ci_modes ci))
  | RPropertySet i => ∀ ps, property_sets tree !! i = Some ps →
      distinct (map pd_name (ps_property_defs ps)) ∧ distinct (map ptd_name (ps_property_type_defs ps))
  | _ => True
  end.

Definition items (pkg : Package) : list ItemRef := (pkg_public_items pkg ++ pkg_private_items pkg)%list.

Definition well_named (tree : ItemTree) (pkg : Package) : Prop :=
  distinct (pkg_with_clauses pkg) ∧ lower (pkg_name pkg) ∉ map lower (pkg_with_clauses pkg) ∧
  ∀ item, item ∈ items pkg → well_named_item tree item.

(** The features and subcomponents that the category of their owner allows. *)
Definition well_categorised (tree : ItemTree) : Prop :=
  (∀ ct i feat, ct ∈ component_types tree → i ∈ ct_features ct → tree_features tree !! i = Some feat →
     ft_kind feat ∈ allowed_features (ct_category ct)) ∧
  ∀ ci i sub, ci ∈ component_impls tree → i ∈ ci_subcomponents ci → tree_subcomponents tree !! i = Some sub →
     sub_category sub ∈ allowed_subcomponents (ci_category ci).

(** An implementation is of a type of its package. *)
Definition impls_typed (tree : ItemTree) (pkg : Package) : Prop :=
  ∀ i ci, RComponentImpl i ∈ items pkg → component_impls tree !! i = Some ci → ci_type_name ci ≠ "" →
    ∃ j ct, RComponentType j ∈ items pkg ∧ component_types tree !! j = Some ct ∧ lower (ct_name ct) = lower (ci_type_name ci).

Lemma lower_empty s : lower s = "" ↔ s = "".
Proof. by destruct s. Qed.

(** The indices that the rules follow are in their arenas: the items of the
    packages, the features, flow specifications and modes of types, and the
    subcomponents, connections and modes of implementations. *)
Record members_indexed (t : ItemTree) : Prop := {
  mi_packages : tree_ok t;
  mi_types : Forall (λ ct, in_arena (tree_features t) (ct_features ct) ∧ in_arena (flow_specs t) (ct_flow_specs ct) ∧
    in_arena (tree_modes t) (ct_modes ct)) (component_types t);
  mi_impls : Forall (λ c, in_arena (tree_subcomponents t) (ci_subcomponents c) ∧ in_arena (tree_connections t) (ci_connections c) ∧
    in_arena (tree_modes t) (ci_modes c)) (component_impls t);
}.

Lemma well_indexed_members t : well_indexed t → members_indexed t.
Proof.
  intros H. split; [apply H| |].
  - eapply Forall_impl; [apply (wi_types _ H)|]. by intros ct (? & ? & ? & _).
  - destruct (wi_data _ H) as [Hd _]. pose proof (wi_impls _ H) as Hi. rewrite Forall_forall in Hd, Hi. apply Forall_forall.
    intros c Hc. destruct (Hi c Hc) as (? & _ & _ & ? & _). split_and!; [by apply Hd|done..].
Qed.

Section silent.
Context (tree : ItemTree) (Hok : members_indexed tree).

Lemma items_ok pkg item : pkg ∈ packages tree → item ∈ items pkg → item_ok tree item.
Proof.
  intros Hp Hi. pose proof (mi_packages _ Hok) as H. unfold tree_ok in H. rewrite Forall_forall in H. destruct (H _ Hp) as (H1 & H2 & _).
  rewrite Forall_forall in H1, H2. apply elem_of_app in Hi as [Hi|Hi]; auto.
Qed.

Lemma subcomponents_ok ci : ci ∈ component_impls tree → in_arena (tree_subcomponents tree) (ci_subcomponents ci).
Proof. intros Hc. pose proof (mi_impls _ Hok) as H. rewrite Forall_forall in H. by apply H. Qed.

Lemma named_type_silent pkg ct : ct ∈ component_types tree → silent (check_component_type tree ct pkg)
  (ct_name ct ≠ "" ∧ distinct (names_of ft_name (tree_features tree) (ct_features ct)) ∧
   distinct (names_of fs_name (flow_specs tree) (ct_flow_specs ct)) ∧ distinct (names_of md_name (tree_modes tree) (ct_modes ct))).
Proof.
  intros Hct. pose proof (mi_types _ Hok) as H. rewrite Forall_forall in H. destruct (H _ Hct) as (Hf & Hs & Hm).
  unfold check_component_type. rewrite !names_at_ok by done. eexists. split; [done|].
  by rewrite !app_nil_iff, !duplicate_names_nil, when_nil, String.eqb_neq.
Qed.

Lemma named_impl_silent pkg ci : ci ∈ component_impls tree → silent (check_component_impl tree ci pkg)
  (ci_type_name ci ≠ "" ∧ ci_impl_name ci ≠ "" ∧ distinct (names_of sub_name (tree_subcomponents tree) (ci_subcomponents ci)) ∧
   distinct (names_of cn_name (tree_connections tree) (ci_connections ci)) ∧ distinct (names_of md_name (tree_modes tree) (ci_modes ci))).
Proof.
  intros Hci. pose proof (mi_impls _ Hok) as H. rewrite Forall_forall in H. destruct (H _ Hci) as (Hs & Hc & Hm).
  unfold check_component_impl. rewrite !names_at_ok by done. eexists. split; [done|].
  by rewrite !app_nil_iff, !duplicate_names_nil, !when_nil, !String.eqb_neq.
Qed.

Lemma named_item_silent pkg item : pkg ∈ packages tree → item ∈ items pkg →
  silent (check_named_item tree pkg item) (well_named_item tree item).
Proof.
  intros Hp Hi. pose proof (items_ok _ _ Hp Hi) as Hr. destruct item as [i|i|i|i|]; cbn [item_ok check_named_item well_named_item] in *;
    try (by eexists); destruct Hr as [x Hx]; unfold arena_get; rewrite Hx; cbn [mbind Exec_bind].
  - eapply silent_iff; [eapply named_type_silent, list_elem_of_lookup_2, Hx|]. split; [by intros H y [= <-]|intros H; by apply H].
  - eapply silent_iff; [eapply named_impl_silent, list_elem_of_lookup_2, Hx|]. split; [by intros H y [= <-]|intros H; by apply H].
  - eexists. split; [done|]. unfold check_property_set. rewrite app_nil_iff, !duplicate_names_nil. split; [by intros H y [= <-]|intros H; by apply H].
Qed.

Lemma filter_nil {A} (f : A → bool) xs : List.filter f xs = [] ↔ ∀ x, x ∈ xs → f x = false.
Proof.
  induction xs as [|x xs IH]; cbn [List.filter]; [split; [intros _ ? ?%not_elem_of_nil; done|done]|].
  setoid_rewrite elem_of_cons. destruct (f x) eqn:E; [|rewrite IH; naive_solver]. split; [done|]. intros H.
  rewrite (H x) in E; [done|by left].
Qed.

Lemma with_clauses_nil pkg : check_with_clauses pkg = [] ↔
  distinct (pkg_with_clauses pkg) ∧ lower (pkg_name pkg) ∉ map lower (pkg_with_clauses pkg).
Proof.
  unfold check_with_clauses. rewrite app_nil_iff, !map_nil, repeated_nil, filter_nil. unfold eq_ignore_ascii_case.
  rewrite list_elem_of_fmap. split.
  - intros [[Hd _] Hs]. split; [done|]. intros (w & Hw & Hin). specialize (Hs w Hin). by apply bool_decide_eq_false in Hs.
  - intros [Hd Hs]. split_and!; [done|apply Forall_forall; intros; apply not_elem_of_empty|]. intros w Hw. apply bool_decide_eq_false_2.
    intros E. apply Hs. by exists w.
Qed.

Lemma naming_silent : silent (check_naming_rules tree) (∀ pkg, pkg ∈ packages tree → well_named tree pkg).
Proof.
  apply silent_concatM. intros pkg Hp. eapply yields_bind.
  { apply (silent_concatM (check_named_item tree pkg) (items pkg) (well_named_item tree)). intros. by apply named_item_silent. }
  intros ds Hds. eexists. split; [done|]. rewrite app_nil_iff, Hds, with_clauses_nil. unfold well_named. tauto.
Qed.

Lemma category_silent : silent (check_category_rules tree) (well_categorised tree).
Proof.
  unfold check_category_rules, well_categorised. eapply yields_bind.
  { apply (silent_concatM (check_type tree) _ (λ ct, ∀ i, i ∈ ct_features ct → ∀ feat, tree_features tree !! i = Some feat →
      ft_kind feat ∈ allowed_features (ct_category ct))).
    intros ct Hct. apply silent_concatM. intros i Hi. pose proof (mi_types _ Hok) as H. rewrite Forall_forall in H.
    destruct (H _ Hct) as (Hf & _). unfold in_arena in Hf. rewrite Forall_forall in Hf. destruct (Hf i Hi) as [feat Hfeat]. rewrite Hfeat.
    unfold is_feature_allowed. case_bool_decide as Ha; eexists; (split; [done|]).
    - split; [by intros _ ? [= <-]|done].
    - split; [done|]. intros H'. destruct (Ha (H' feat eq_refl)). }
  intros ds1 H1. eapply yields_bind.
  { apply (silent_concatM (check_impl tree) _ (λ ci, ∀ i, i ∈ ci_subcomponents ci → ∀ sub, tree_subcomponents tree !! i = Some sub →
      sub_category sub ∈ allowed_subcomponents (ci_category ci))).
    intros ci Hci. apply silent_concatM. intros i Hi. pose proof (subcomponents_ok _ Hci) as Hf. unfold in_arena in Hf.
    rewrite Forall_forall in Hf. destruct (Hf i Hi) as [sub Hsub]. rewrite Hsub.
    unfold is_subcomponent_allowed. case_bool_decide as Ha; eexists; (split; [done|]).
    - split; [by intros _ ? [= <-]|done].
    - split; [done|]. intros H'. destruct (Ha (H' sub eq_refl)). }
  intros ds2 H2. eexists. split; [done|]. rewrite app_nil_iff, H1, H2. naive_solver.
Qed.

Lemma declared_types_spec pkg : pkg ∈ packages tree → yields (declared_types tree pkg) (λ names, ∀ x, x ∈ names ↔
  ∃ j ct, RComponentType j ∈ items pkg ∧ component_types tree !! j = Some ct ∧ lower (ct_name ct) = x).
Proof.
  intros Hp. unfold declared_types. fold (items pkg).
  destruct (concatM_spec (λ item, match item with
    | RComponentType i => ct ← arena_get (component_types tree) i; Done [Names.to_ascii_lowercase (ct_name ct)]
    | _ => Done []
    end) (λ item x, ∃ j ct, item = RComponentType j ∧ component_types tree !! j = Some ct ∧ lower (ct_name ct) = x) (items pkg)) as (ys & E & H).
  { intros item Hi. pose proof (items_ok _ _ Hp Hi) as Hr. destruct item as [i|i|i|i|];
      try (eexists; split; [done|]; intros y; rewrite elem_of_nil; naive_solver).
    destruct Hr as [ct Hct]. unfold arena_get. rewrite Hct. eexists. split; [done|]. intros y. rewrite list_elem_of_singleton.
    unfold lower. naive_solver. }
  exists ys. split; [exact E|]. intros x. rewrite H. naive_solver.
Qed.

Lemma impl_types_silent : silent (check_impl_type_match tree) (∀ pkg, pkg ∈ packages tree → impls_typed tree pkg).
Proof.
  apply silent_concatM. intros pkg Hp. eapply yields_bind; [by apply declared_types_spec|]. intros names Hnames. cbn beta in Hnames. fold (items pkg).
  eapply silent_iff.
  { apply (silent_concatM _ (items pkg) (λ item, ∀ i ci, item = RComponentImpl i → component_impls tree !! i = Some ci →
      ci_type_name ci ≠ "" → lower (ci_type_name ci) ∈ names)).
    intros item Hi. pose proof (items_ok _ _ Hp Hi) as Hr. destruct item as [i|i|i|i|]; try (by eexists).
    destruct Hr as [ci Hci]. cbn [check_declared]. unfold arena_get. rewrite Hci. eexists. split; [done|]. rewrite when_nil.
    fold lower. rewrite andb_false_iff, !negb_false_iff, String.eqb_eq, lower_empty, bool_decide_eq_true, elem_of_list_to_set.
    split; [naive_solver|]. intros H. destruct (decide (ci_type_name ci = "")); [by left|]. right. by eapply H. }
  unfold impls_typed. setoid_rewrite Hnames. naive_solver.
Qed.

Lemma groups_silent : check_feature_group_nonempty tree = [] ↔
  ∀ fgt, fgt ∈ feature_group_types tree → fgt_features fgt ≠ [] ∨ is_Some (fgt_inverse_of fgt).
Proof.
  unfold check_feature_group_nonempty. induction (feature_group_types tree) as [|fgt fgts IH]; cbn [mbind list_bind].
  { split; [intros _ ? ?%not_elem_of_nil; done|done]. }
  rewrite app_nil_iff, IH, when_nil, andb_false_iff, negb_false_iff. setoid_rewrite elem_of_cons. split.
  - intros [Hb H] x [->|Hx]; [|by apply H]. destruct Hb as [Hb|Hb]; [left; by destruct (fgt_features fgt)|right].
    destruct (fgt_inverse_of fgt); [by eexists|done].
  - intros H. split; [|intros x Hx; apply H; by right]. destruct (H fgt) as [Hf|[r Hr]]; [by left|left|right].
    + by destruct (fgt_features fgt).
    + by rewrite Hr.
Qed.
End silent.

(** C28: the legality rules over item trees accept exactly the legal trees.  On
    an item tree in which the items of the packages, the features, flow
    specifications and modes of types, and the subcomponents, connections and
    modes of implementations have indices in range, the check returns, and it
    reports nothing precisely if in every package the imported names differ by
    more than case and none is the package's own; its types and
    implementations are named; the members of each kind of such an item (its
    features, say, or its connections) have names that differ by more than
    case, though two members of different kinds may share one, and so do the
    definitions and the types of a property set; its implementations are of
    types of the package; if every feature and subcomponent is one that the
    category of its owner allows; and if every feature group type has a
    feature or is an inverse. *)
Theorem check_item_tree_silent tree : members_indexed tree →
  ∃ ds, check_item_tree tree = Done ds ∧
    (ds = [] ↔ (∀ pkg, pkg ∈ packages tree → well_named tree pkg ∧ impls_typed tree pkg) ∧ well_categorised tree ∧
       ∀ fgt, fgt ∈ feature_group_types tree → fgt_features fgt ≠ [] ∨ is_Some (fgt_inverse_of fgt)).
Proof.
  intros Hok. unfold check_item_tree.
  destruct (naming_silent tree Hok) as (ds1 & -> & H1), (category_silent tree Hok) as (ds2 & -> & H2),
    (impl_types_silent tree Hok) as (ds3 & -> & H3).
  eexists. split; [done|]. rewrite !app_nil_iff, !map_nil, H1, H2, H3, groups_silent. naive_solver.
Qed.

(** The plant of [Instantiate] is legal. *)
Lemma check_item_tree_silent_witness : members_indexed plant_ex ∧ well_categorised plant_ex ∧
  ∀ pkg, pkg ∈ packages plant_ex → well_named plant_ex pkg ∧ impls_typed plant_ex pkg.
Proof.
  assert (Hok : members_indexed plant_ex) by (apply well_indexed_members; pose proof plant_ex_indexed as H; by inversion H).
  destruct (check_item_tree_silent plant_ex Hok) as (ds & Hds & Hnil).
  assert (ds = []) as Hempty by (vm_compute in Hds; by injection Hds as <-).
  destruct (proj1 Hnil Hempty) as (Hp & Hc & _). split; [exact Hok|]. split; [exact Hc|exact Hp].
Defined.

(** ** The runner and the engine *)

(** The passes that check the structure of an instance, in the order in which
    [register_all] has them. *)
Definition structural_passes : AnalysisRunner :=
  foldl register new_runner
    [connectivity; hierarchy; completeness; direction_rules; classifier_match; binding_check; binding_rules; flow_check; flow_rules;
     mode_check; mode_rules; modal_rules; connection_rules; subcomponent_rules; feature_group_check].

Lemma structural_lawful : Forall (Lawful ranged_references) structural_passes.
Proof. repeat (apply Forall_cons; split; [apply _|]). constructor. Qed.

(** C27: the structural passes run on every instance that instantiation builds.
    On item trees whose indices are in range, whose Data_Size and
    Source_Data_Size properties do not overflow when they are read, and whose
    connection ends and called subprograms have no closing bracket before the
    opening one (outside these the instantiation can panic), whatever the root
    and the bound on the depth, the runner with these passes returns, by default and in
    every system operation mode: no pass panics and none searches for ever.
    What it reports is exactly what the passes report alone and the modal
    ones in the modes; every diagnostic carries the name of the pass it comes
    from, and its path is that of a component of the instance or of a
    diagnostic of the instantiation. *)
Theorem structural_passes_run ts g levels pkg ty im :
  Forall well_indexed ts → from_trees ts = Done g →
  ∃ inst ds, instantiate_to g levels pkg ty im = Done inst ∧ run_all_per_som structural_passes inst = Done ds ∧
    Forall (issued_by structural_passes inst) ds ∧
    ∀ d, d ∈ ds ↔ reported_alone structural_passes inst d ∨ reported_in structural_passes inst d.
Proof.
  intros Hok Hg. destruct (instantiate_to_sane ts g Hok Hg levels pkg ty im) as (inst & Hi & Hwf & Ha & _ & _ & Hsoms & Hdecl).
  destruct (run_all_per_som_spec ranged_references structural_passes inst structural_lawful
    (conj (sane_ranged levels inst Hwf Ha) Hdecl) Hsoms) as (ds & H).
  by exists inst, ds.
Qed.

Lemma structural_passes_run_witness :
  ∃ g inst ds, from_trees [plant_ex] = Done g ∧ instantiate_to g 100 "P" "Plant" "i" = Done inst ∧
    run_all_per_som structural_passes inst = Done ds.
Proof.
  assert (Hok : Forall tree_ok [plant_ex]) by (eapply Forall_impl; [exact plant_ex_indexed|apply wi_packages]).
  destruct (from_trees_spec [plant_ex] Hok) as (g & Hg & _).
  destruct (structural_passes_run [plant_ex] g 100 "P" "Plant" "i" plant_ex_indexed Hg) as (inst & ds & Hi & Hr & _).
  exists g, inst, ds. split; [exact Hg|]. split; [exact Hi|exact Hr].
Defined.

(** Taking the rules away from what the engine says of an instance gives what
    its analyses say. *)
Lemma check_instance_inner engine inst ds :
  run_all engine inst = Done ds → ∃ out, check_instance engine inst = Done out ∧ map inner out = ds.
Proof.
  unfold check_instance, run_all. revert ds. induction engine as [|a engine IH]; intros ds; cbn [concatM]; [intros [= <-]; by exists []|].
  intros (xs & Hxs & (ys & Hys & [= <-])%Exec_bind_Done)%Exec_bind_Done. destruct (IH ys Hys) as (out & -> & <-).
  rewrite Hxs. cbn [mbind Exec_bind]. eexists. split; [done|]. rewrite map_app, map_map. cbn. by rewrite map_id.
Qed.

Lemma engine_lawful : Forall (Lawful ranged_references) new_engine.
Proof. repeat (apply Forall_cons; split; [apply _|]). constructor. Qed.

(** The engine returns on every item tree with its members in range and every
    instance made of well-indexed trees, and loses no diagnostic of its analyses. *)
Lemma check_all_returns ts g levels pkg ty im tree :
  Forall well_indexed ts → from_trees ts = Done g → members_indexed tree →
  ∃ inst ds of_tree of_instance, instantiate_to g levels pkg ty im = Done inst ∧ run_all new_engine inst = Done ds ∧
    check_all new_engine tree inst = Done (of_tree ++ of_instance)%list ∧ map inner of_instance = ds.
Proof.
  intros Hok Hg Ht. destruct (instantiate_to_sane ts g Hok Hg levels pkg ty im) as (inst & Hi & Hwf & Ha & _ & _ & _ & Hdecl).
  destruct (run_all_spec ranged_references new_engine inst engine_lawful (conj (sane_ranged levels inst Hwf Ha) Hdecl)) as (ds & Hds & _).
  destruct (check_instance_inner _ _ _ Hds) as (out & Hout & Hin).
  assert (∃ of_tree, check_item_tree tree = Done of_tree) as [of_tree Htree].
  { unfold check_item_tree. destruct (naming_silent tree Ht) as (ds1 & -> & _), (category_silent tree Ht) as (ds2 & -> & _),
      (impl_types_silent tree Ht) as (ds3 & -> & _). by eexists. }
  exists inst, ds, of_tree, out. split_and!; [done|done| |done]. unfold check_all. by rewrite Htree, Hout.
Qed.

(** ** The complement of a feature group *)

(** The first feature of that name, case ignored. *)
Definition first_of_name (fs : list ExpandedFeature) (nm : Name) (f : ExpandedFeature) : Prop :=
  List.find (λ d, eq_ci (ef_feature_name d) nm) fs = Some f.

(** A feature of the source has a partner, and their directions are opposite
    where both are given. *)
Definition has_complement (destination : list ExpandedFeature) (sf : ExpandedFeature) : Prop :=
  ∃ d, first_of_name destination (ef_feature_name sf) d ∧
    ∀ sd dd, ef_direction sf = Some sd → ef_direction d = Some dd → dd = flip_direction sd.

Definition clean (r : ComplementCheckResult) : Prop := unmatched_source r = [] ∧ direction_mismatches r = [].

Lemma complement_step_clean destination r sf :
  clean (complement_step destination r sf) ↔ clean r ∧ has_complement destination sf.
Proof.
  unfold clean, has_complement, first_of_name, complement_step. destruct (List.find _ destination) as [d|].
  2: { cbn. rewrite app_nil_iff. split; [by intros [[_ ?] _]|by intros [_ (? & ? & _)]]. }
  assert (Hd : (∃ d', Some d = Some d' ∧ ∀ sd dd, ef_direction sf = Some sd → ef_direction d' = Some dd → dd = flip_direction sd) ↔
    ∀ sd dd, ef_direction sf = Some sd → ef_direction d = Some dd → dd = flip_direction sd).
  { split; [by intros (? & [= <-] & H)|intros H; by exists d]. }
  rewrite Hd. clear Hd. destruct (ef_direction sf) as [sd|]; [|by intuition]. destruct (ef_direction d) as [dd|]; [|by intuition].
  case_bool_decide as E; cbn.
  - split; [intros H; split; [done|by intros ? ? [= <-] [= <-]]|by intros [? _]].
  - rewrite app_nil_iff. split; [by intros [_ [_ ?]]|]. intros [_ H]. by destruct E; rewrite (H sd dd).
Qed.

Lemma validate_complement_accepts source destination :
  clean (validate_complement source destination) ↔ Forall (has_complement destination) source.
Proof.
  unfold validate_complement. trans (clean {| unmatched_source := []; direction_mismatches := [] |} ∧ Forall (has_complement destination) source);
    [|by unfold clean; cbn; tauto].
  generalize {| unmatched_source := []; direction_mismatches := [] |}. induction source as [|sf source IH]; intros r; cbn [foldl].
  - rewrite Forall_nil. tauto.
  - rewrite IH, complement_step_clean, Forall_cons. tauto.
Qed.

(** ** What the rules miss *)

(** Two classifiers named alike in two packages: the base is found without its
    package, so an extension of the second is held against the first. *)
Definition sensor_ex (cat : ComponentCategory) (extends : option ClassifierRef) (nm : Name) : ComponentTypeItem :=
  {| ct_name := nm; ct_category := cat; ct_is_public := true; ct_extends := extends; ct_features := []; ct_flow_specs := [];
     ct_modes := []; ct_mode_transitions := []; ct_prototypes := []; ct_property_associations := []; ct_requires_modes := false; ct_emv2 := [] |}.

Definition package_ex (nm : Name) (is_ : list ItemRef) : Package :=
  {| pkg_name := nm; pkg_with_clauses := []; pkg_public_items := is_; pkg_private_items := []; pkg_renames := [] |}.

Definition two_packages_ex : ItemTree :=
  {| packages := [package_ex "Hardware" [RComponentType 0]; package_ex "Software" [RComponentType 1; RComponentType 2]];
     component_types := [sensor_ex Device None "Sensor"; sensor_ex Process None "Sensor";
       sensor_ex Process (Some {| package := Some "Software"; type_name := "Sensor"; impl_name := None |}) "FastSensor"];
     component_impls := []; feature_group_types := []; property_sets := []; tree_features := []; tree_subcomponents := [];
     tree_connections := []; flow_specs := []; end_to_end_flows := []; property_associations := []; tree_modes := [];
     tree_mode_transitions := []; prototypes := []; prototype_bindings := []; flow_impls := []; call_sequences := [];
     subprogram_calls := []; renames := []; emv2_subclauses := []; impl_local_features := []; tree_diagnostics := [] |}.

Example extends_ignores_the_package :
  ∃ d, check_extends_rules two_packages_ex = Done [d] ∧ severity d = Error ∧
    message d = "component type 'FastSensor' (process) extends 'Software::Sensor' (device) — categories must match".
Proof. eexists. vm_compute. done. Qed.

(** The rule of a diagnostic is read off its text, in which the names of the
    model occur. *)
Example direction_rule_by_name : ∀ conn : ConnectionInstance, conn_name conn = "c" →
  rule_id (classify_direction (wrong_direction [] conn "enclosing" "cleanup" ItemTree.Out in_ports "down")) = "D-2".
Proof. intros conn H. unfold wrong_direction. rewrite H. reflexivity. Qed.

Example category_rule_by_name :
  rule_id (classify_category_rule (impl_diag
    {| ci_type_name := "T"; ci_impl_name := "i"; ci_category := System; ci_is_public := true; ci_extends := None; ci_subcomponents := [];
       ci_connections := []; ci_end_to_end_flows := []; ci_flow_impls := []; ci_modes := []; ci_mode_transitions := []; ci_prototypes := [];
       ci_call_sequences := []; ci_property_associations := []; ci_requires_modes := false; ci_emv2 := [] |}
    {| sub_name := "feature_store"; sub_category := Thread; sub_classifier := None; sub_is_refined := false; sub_array_dimensions := [];
       sub_in_modes := []; sub_property_associations := [] |})) = "C-1".
Proof. reflexivity. Qed.

(** Features of nested groups are compared without the group they are in: a
    group is not the complement of its own inverse. *)
Definition nested_ex (inv : bool) : list ExpandedFeature :=
  [{| ef_feature_name := "x"; ef_feature_kind := DataPort; ef_direction := maybe_flip (Some ItemTree.Out) inv; ef_group_prefix := Some "left" |};
   {| ef_feature_name := "x"; ef_feature_kind := DataPort; ef_direction := maybe_flip (Some ItemTree.In) inv; ef_group_prefix := Some "right" |}].

Example complement_ignores_the_group :
  map feature_name (direction_mismatches (validate_complement (nested_ex false) (nested_ex true))) = ["x"].
Proof. reflexivity. Qed.
