(* ===== verification/FaultTree.v ===== *)
(** * Fault trees

    [crates/spar-analysis/src/emv2_analysis.rs]: fault trees, their minimal cut
    sets, and the pass that makes the tree of an instance and reports single
    points of failure. *)
From S2P Require Import Prelude.
From S2P Require Import Diagnostics.
From S2P Require Import Names.
From S2P Require Import CategoryRules.
From S2P Require Import PropertyExpr.
From S2P Require Import ItemTree.
From S2P Require Import PropertyMap.
From S2P Require Import Instance.
From S2P Require Import Sorting.
From S2P Require Import BuilderSpec.
From S2P Require Import Instantiate.
From S2P Require Import Passes.
From S2P Require Import Legality.
From Stdlib Require Import Ascii String.
From stdpp Require Import gmap strings sets pretty sorting.
Import CategoryRules ItemTree.
#[local] Open Scope string_scope.

(** ** Fault trees and cut sets *)

(** crates/spar-analysis/src/emv2_analysis.rs:23-43 [FaultTreeNode] *)
Inductive FaultTreeNode :=
  | BasicEvent (component error_type description : string)
  | And (description : string) (children : list FaultTreeNode)
  | Or (description : string) (children : list FaultTreeNode).

(** crates/spar-analysis/src/emv2_analysis.rs:46-50 [FaultTree] *)
Record FaultTree := { top_event : string; tree_root : FaultTreeNode }.

(** crates/spar-analysis/src/emv2_analysis.rs:91-96 [FaultTree::cut_sets_recursive]: the
    events of [cs] that are missing are put behind. *)
Definition combine_sets (existing cs : list string) : list string :=
  foldl (λ combined e, if bool_decide (e ∈ combined) then combined else (combined ++ [e])%list) existing cs.

(** crates/spar-analysis/src/emv2_analysis.rs:70-105 [FaultTree::cut_sets_recursive] *)
Fixpoint cut_sets_recursive (node : FaultTreeNode) : list (list string) :=
  match node with
  | BasicEvent component error_type _ => [[component +:+ "." +:+ error_type]]
  | Or _ children => children ≫= cut_sets_recursive
  | And _ children =>
      foldl (λ result child, existing ← result; cs ← cut_sets_recursive child; [combine_sets existing cs]) [[]] children
  end.

(** crates/spar-analysis/src/emv2_analysis.rs:61-66 [FaultTree::minimal_cut_sets] *)
Definition keep_minimal (minimal : list (list string)) (set : list string) : list (list string) :=
  if existsb (λ m, forallb (λ e, bool_decide (e ∈ set)) m) minimal then minimal else (minimal ++ [set])%list.

(** crates/spar-analysis/src/emv2_analysis.rs:55-68 [FaultTree::minimal_cut_sets] *)
Definition minimal_cut_sets (t : FaultTree) : list (list string) :=
  foldl keep_minimal [] (sort_by (λ a b, Nat.compare (List.length a) (List.length b)) (cut_sets_recursive (tree_root t))).

(** ** The pass *)

(** crates/spar-analysis/src/emv2_analysis.rs:171-173 [dotted_path] *)
Definition dotted_path (inst : SystemInstance) (idx : ComponentInstanceIdx) : Exec string :=
  p ← component_path inst idx; Done (str_join "." p).

(** crates/spar-analysis/src/emv2_analysis.rs:232-240 [category_label] *)
Definition category_label (c : ComponentCategory) : string :=
  match c with
  | Process => "process" | Thread => "thread" | Device => "device" | Processor => "processor" | _ => "component"
  end.

(** crates/spar-analysis/src/emv2_analysis.rs:260-285 [build_subtree]: on fuel. *)
Fixpoint build_subtree (fuel : nat) (inst : SystemInstance) (idx : ComponentInstanceIdx) : Exec FaultTreeNode :=
  match fuel with
  | O => Stuck
  | S fuel =>
      comp ← component inst idx;
      p ← dotted_path inst idx;
      if is_empty (children comp) then
        Done (BasicEvent p "ServiceFailure" (category_label (category comp) +:+ " " +:+ name comp +:+ " fails"))
      else
        cs ← mapM (build_subtree fuel inst) (children comp);
        Done (Or ("failure of " +:+ name comp) cs)
  end.

(** crates/spar-analysis/src/emv2_analysis.rs:246-258 [build_hierarchy_fault_tree] *)
Definition build_hierarchy_fault_tree (inst : SystemInstance) (idx : ComponentInstanceIdx) : Exec (option FaultTree) :=
  p ← dotted_path inst idx;
  node ← build_subtree (S (List.length (components inst))) inst idx;
  Done (Some {| top_event := "failure of " +:+ p; tree_root := node |}).

(** crates/spar-analysis/src/emv2_analysis.rs:196-214 [check_error_handling]: of the
    names in lower case only the letters of [error] and [emv2] matter, which
    no character outside ASCII becomes. *)
Definition has_error_props (props : PropertyMap) : bool :=
  let mentions s pat := str_contains (Names.to_ascii_lowercase s) pat in
  existsb (λ '(_, values), existsb (λ pv,
    let prop_name := property_name (pv_name pv) in
    let prop_set := default "" (property_set (pv_name pv)) in
    mentions prop_name "error" || mentions prop_name "emv2" || mentions prop_set "error" || mentions prop_set "emv2") values)
    (map_to_list (PropertyMap.props props)).

(** crates/spar-analysis/src/emv2_analysis.rs:181-187 [check_error_handling] *)
Definition needs_error_handling (c : ComponentCategory) : bool :=
  match c with Process | Thread | Device | Processor => true | _ => false end.

(** crates/spar-analysis/src/emv2_analysis.rs:176-230 [check_error_handling]: on fuel. *)
Fixpoint check_error_handling (fuel : nat) (inst : SystemInstance) (idx : ComponentInstanceIdx) : Exec (list AnalysisDiagnostic) :=
  match fuel with
  | O => Stuck
  | S fuel =>
      comp ← component inst idx;
      p ← component_path inst idx;
      ds ← concatM (check_error_handling fuel inst) (children comp);
      Done (when (needs_error_handling (category comp) && is_empty (children comp) && negb (has_error_props (properties_for inst idx)))
              (diag "emv2_fault_tree" Info p (category_label (category comp) +:+ " component '" +:+ name comp +:+
                 "' has no error model annotations")) ++ ds)%list
  end.

(** crates/spar-analysis/src/emv2_analysis.rs:128-164 [Emv2Analysis::analyze] *)
Definition report_cut_sets (inst : SystemInstance) (t : FaultTree) : Exec (list AnalysisDiagnostic) :=
  let cut_sets := minimal_cut_sets t in
  if is_empty cut_sets then Done []
  else
    root_path ← component_path inst (root inst);
    let single := List.filter (λ cs, Nat.eqb (List.length cs) 1) cut_sets in
    Done (map (λ cs, diag "emv2_fault_tree" Warning root_path ("single point of failure: " +:+ default "" (head cs) +:+
            " can cause top-level failure of " +:+ top_event t)) single ++
          [diag "emv2_fault_tree" Info root_path ("fault tree for '" +:+ top_event t +:+ "': " +:+ pretty (N.of_nat (List.length cut_sets)) +:+
            " minimal cut sets, " +:+ pretty (N.of_nat (List.length single)) +:+ " single-point failures")])%list.

(** crates/spar-analysis/src/emv2_analysis.rs:117-167 [Emv2Analysis::analyze] *)
Definition emv2_analyze (inst : SystemInstance) : Exec (list AnalysisDiagnostic) :=
  ds ← check_error_handling (S (List.length (components inst))) inst (root inst);
  tree ← build_hierarchy_fault_tree inst (root inst);
  match tree with
  | Some t => rs ← report_cut_sets inst t; Done (ds ++ rs)%list
  | None => Done ds
  end.

Definition emv2_fault_tree : Analysis := {| an_name := "emv2_fault_tree"; analyze := emv2_analyze; as_modal := None |}.
#[local] Close Scope string_scope.

(** ** Cut sets *)

(** The failure of a node when the events of [S] happen: a gate of all its
    children, or of one. *)
Fixpoint occurs (S : string → Prop) (node : FaultTreeNode) : Prop :=
  match node with
  | BasicEvent c e _ => S (c +:+ "." +:+ e)%string
  | And _ children => foldr (λ child P, occurs S child ∧ P) True children
  | Or _ children => foldr (λ child P, occurs S child ∨ P) False children
  end.

(** Induction with the children of a gate. *)
Lemma node_ind (P : FaultTreeNode → Prop) :
  (∀ c e d, P (BasicEvent c e d)) → (∀ d cs, Forall P cs → P (And d cs)) → (∀ d cs, Forall P cs → P (Or d cs)) → ∀ n, P n.
Proof.
  intros Hb Ha Ho. fix IH 1. intros [c e d|d cs|d cs]; [apply Hb|apply Ha|apply Ho].
  all: induction cs as [|n cs IHcs]; constructor; [apply IH|exact IHcs].
Qed.

(** Some set of [css] lies in [S]. *)
Definition covered (S : string → Prop) (css : list (list string)) : Prop := ∃ cs, cs ∈ css ∧ Forall S cs.

Lemma combine_sets_elem e cs existing : e ∈ combine_sets existing cs ↔ e ∈ existing ∨ e ∈ cs.
Proof.
  unfold combine_sets. revert existing. induction cs as [|x cs IH]; intros existing; cbn [foldl].
  - rewrite elem_of_nil. tauto.
  - rewrite IH. case_bool_decide; rewrite ?elem_of_app, ?list_elem_of_singleton, elem_of_cons; naive_solver.
Qed.

Lemma combine_sets_NoDup cs existing : NoDup existing → NoDup (combine_sets existing cs).
Proof.
  unfold combine_sets. revert existing. induction cs as [|x cs IH]; intros existing H; cbn [foldl]; [done|]. apply IH.
  case_bool_decide; [done|]. apply NoDup_app. split_and!; [done| |apply NoDup_singleton]. intros y Hy ->%list_elem_of_singleton. done.
Qed.

(** The step over the children of a gate of all. *)
Abbreviation cross result css := (existing ← result; cs ← css; [combine_sets existing cs]).

Lemma cross_elem (result css : list (list string)) x :
  x ∈ cross result css ↔ ∃ r c, r ∈ result ∧ c ∈ css ∧ x = combine_sets r c.
Proof.
  rewrite list_elem_of_bind. setoid_rewrite list_elem_of_bind. setoid_rewrite list_elem_of_singleton. naive_solver.
Qed.

Lemma covered_cross S result css : covered S (cross result css) ↔ covered S result ∧ covered S css.
Proof.
  unfold covered. setoid_rewrite cross_elem. setoid_rewrite Forall_forall. split.
  - intros (x & (r & c & Hr & Hc & ->) & H). split; [exists r|exists c]; (split; [done|]); intros y Hy; apply H, combine_sets_elem; auto.
  - intros [(r & Hr & H1) (c & Hc & H2)]. exists (combine_sets r c). split; [by exists r, c|]. intros y [Hy|Hy]%combine_sets_elem; auto.
Qed.

Lemma covered_cut_sets S node : covered S (cut_sets_recursive node) ↔ occurs S node.
Proof.
  induction node as [c e d|d cs H|d cs H] using node_ind; cbn [cut_sets_recursive occurs].
  - split.
    + intros (cs & Hcs & HS). apply list_elem_of_singleton in Hcs as ->. by inversion HS.
    + intros HS. eexists. split; [by left|]. by apply Forall_singleton.
  - trans (covered S [[]] ∧ foldr (λ child P, occurs S child ∧ P) True cs).
    2: { split; [by intros []|]. split; [|done]. exists []. split; [by left|constructor]. }
    generalize ([[]] : list (list string)). induction H as [|n cs Hn _ IH]; intros result; cbn [foldl foldr]; [tauto|].
    rewrite IH, covered_cross, Hn. tauto.
  - induction H as [|n cs Hn _ IH]; cbn [foldr mbind list_bind].
    + split; [|done]. by intros (? & ?%not_elem_of_nil & _).
    + rewrite <- IH, <- Hn. unfold covered. setoid_rewrite elem_of_app. naive_solver.
Qed.

Lemma cut_sets_NoDup node cs : cs ∈ cut_sets_recursive node → NoDup cs.
Proof.
  revert cs. induction node as [c e d|d ns H|d ns H] using node_ind; cbn [cut_sets_recursive]; intros cs.
  - intros ->%list_elem_of_singleton. apply NoDup_singleton.
  - assert (Hnil : ∀ r : list string, r ∈ [[]] → NoDup r) by (intros r ->%list_elem_of_singleton; constructor).
    revert Hnil. generalize ([[]] : list (list string)).
    induction H as [|n ns Hn _ IH]; intros result Hr Hcs; cbn [foldl] in Hcs; [by apply Hr|]. eapply IH; [|exact Hcs].
    intros r (r' & c & Hr' & _ & ->)%cross_elem. by apply combine_sets_NoDup, Hr.
  - rewrite Forall_forall in H. intros (n & Hcs & Hn)%list_elem_of_bind. by eapply H.
Qed.

(** ** Minimal ones *)

Definition subset (a b : list string) : Prop := ∀ e, e ∈ a → e ∈ b.

Lemma dominated_spec minimal set :
  existsb (λ m, forallb (λ e, bool_decide (e ∈ set)) m) minimal = true ↔ ∃ m, m ∈ minimal ∧ subset m set.
Proof.
  rewrite existsb_exists. unfold subset. split.
  - intros (m & Hm%list_elem_of_In & H). exists m. split; [done|]. rewrite forallb_forall in H. intros e He%list_elem_of_In.
    by apply bool_decide_eq_true_1 with (1 := H e He).
  - intros (m & Hm%list_elem_of_In & H). exists m. split; [done|]. apply forallb_forall. intros e He%list_elem_of_In.
    by apply bool_decide_eq_true_2, H.
Qed.

(** Of sets no longer than those behind them, the ones kept are those that
    contain no other. *)
Record minimal_of (all kept : list (list string)) : Prop := {
  mo_from m : m ∈ kept → m ∈ all;
  mo_covers s : s ∈ all → ∃ m, m ∈ kept ∧ subset m s;
  mo_apart i j m m' : kept !! i = Some m → kept !! j = Some m' → subset m m' → i = j;
}.

Lemma subset_trans a b c : subset a b → subset b c → subset a c.
Proof. unfold subset. auto. Qed.

Lemma keep_minimal_step all kept set : minimal_of all kept → NoDup set → (∀ m, m ∈ all → NoDup m ∧ List.length m ≤ List.length set) →
  minimal_of (all ++ [set]) (keep_minimal kept set).
Proof.
  intros [Hf Hc Ha] Hset Hall. unfold keep_minimal. destruct (existsb _ kept) eqn:E.
  - apply dominated_spec in E. split; [|intros s [Hs|Hs%list_elem_of_singleton]%elem_of_app; [by apply Hc|by subst]|done].
    intros m Hm. apply elem_of_app. left. by apply Hf.
  - assert (Hn : ∀ m, m ∈ kept → ¬ subset m set).
    { intros m Hm Hs. assert (true = false) as [=]. rewrite <- E. symmetry. apply dominated_spec. by exists m. }
    assert (Hn' : ∀ m, m ∈ kept → ¬ subset set m).
    { intros m Hm Hs. destruct (Hall m (Hf m Hm)) as [Hnd Hle]. apply (Hn m Hm).
      intros e He. assert (set ≡ₚ m) as ->; [|done]. apply submseteq_length_Permutation; [|done].
      apply NoDup_submseteq; [done|]. exact Hs. }
    split.
    + intros m. rewrite !elem_of_app. intros [Hm|Hm]; [left; by apply Hf|by right].
    + intros s [Hs|Hs%list_elem_of_singleton]%elem_of_app; [|subst s].
      * destruct (Hc s Hs) as (m & Hm & Hsub). exists m. split; [apply elem_of_app; by left|done].
      * exists set. split; [apply elem_of_app; right; by left|by intros e].
    + intros i j m m' Hi Hj Hs. apply lookup_app_Some in Hi as [Hi|[Hi1 Hi2]], Hj as [Hj|[Hj1 Hj2]].
      * by eapply Ha.
      * apply list_lookup_singleton_Some in Hj2 as [Hj0 <-]. exfalso. eapply Hn; [by eapply list_elem_of_lookup_2|done].
      * apply list_lookup_singleton_Some in Hi2 as [Hi0 <-]. exfalso. eapply Hn'; [by eapply list_elem_of_lookup_2|done].
      * apply list_lookup_singleton_Some in Hi2 as [Hi0 <-], Hj2 as [Hj0 <-]. lia.
Qed.

Abbreviation by_length := (λ a b : list string, Nat.compare (List.length a) (List.length b)).

#[export] Instance by_length_total : TotalCmp (λ _, True) by_length.
Proof.
  split.
  - intros a b _ _. apply Nat.compare_antisym.
  - intros a b c _ _ _. rewrite !Nat.compare_gt_iff. lia.
Qed.

Lemma kept_minimal sets : Forall NoDup sets → StronglySorted (cmp_le by_length) sets → minimal_of sets (foldl keep_minimal [] sets).
Proof.
  intros Hnd Hs. induction sets as [|s sets IH] using rev_ind.
  { split; [by intros ? ?%not_elem_of_nil|by intros ? ?%not_elem_of_nil|done]. }
  apply Forall_app in Hnd as [Hnd Hlast]. rewrite Forall_singleton in Hlast. rewrite foldl_app. cbn [foldl].
  assert (Hs' : StronglySorted (cmp_le by_length) sets ∧ Forall (λ m, cmp_le by_length m s) sets).
  { clear -Hs. induction sets as [|x sets IH]; [by split; constructor|]. cbn in Hs. apply StronglySorted_inv in Hs as [Hs Hx].
    apply Forall_app in Hx as [Hx1 Hx2]. inversion Hx2; subst. destruct (IH Hs). split; constructor; done. }
  destruct Hs' as [Hs1 Hs2]. apply keep_minimal_step; [by apply IH|done|]. intros m Hm. rewrite Forall_forall in Hnd, Hs2.
  split; [by apply Hnd|]. specialize (Hs2 m Hm). unfold cmp_le in Hs2. rewrite Nat.compare_gt_iff in Hs2. lia.
Qed.

(** The minimal cut sets are exact.  Whatever events happen, the top event
    does if and only if all events of some listed set happen; no event of a
    listed set can be spared; and a list holds no event twice, nor is the same
    set listed twice. *)
Theorem minimal_cut_sets_exact t :
  (∀ S, occurs S (tree_root t) ↔ ∃ cs, cs ∈ minimal_cut_sets t ∧ Forall S cs) ∧
  (∀ cs l, cs ∈ minimal_cut_sets t → subset l cs → occurs (.∈ l) (tree_root t) → subset cs l) ∧
  (∀ cs, cs ∈ minimal_cut_sets t → NoDup cs) ∧
  (∀ i j cs cs', minimal_cut_sets t !! i = Some cs → minimal_cut_sets t !! j = Some cs' → cs ≡ₚ cs' → i = j).
Proof.
  set (sorted := sort_by by_length (cut_sets_recursive (tree_root t))).
  assert (Hperm : sorted ≡ₚ cut_sets_recursive (tree_root t)) by apply sort_by_perm.
  assert (Hnd : Forall NoDup sorted).
  { apply Forall_forall. intros cs Hcs. rewrite Hperm in Hcs. by eapply cut_sets_NoDup. }
  assert (Hsorted : StronglySorted (cmp_le by_length) sorted) by (by apply (sort_by_sorted by_length (P := λ _, True)), Forall_true).
  destruct (kept_minimal sorted Hnd Hsorted) as [Hf Hc Ha]. fold (minimal_cut_sets t) in *.
  change (foldl keep_minimal [] sorted) with (minimal_cut_sets t) in *.
  assert (Hexact : ∀ S, occurs S (tree_root t) ↔ ∃ cs, cs ∈ minimal_cut_sets t ∧ Forall S cs).
  { intros S. rewrite <- covered_cut_sets. unfold covered. setoid_rewrite <- Hperm. split.
    - intros (s & Hs & HS). destruct (Hc s Hs) as (m & Hm & Hsub). exists m. split; [done|]. rewrite Forall_forall in *. auto.
    - intros (m & Hm & HS). exists m. split; [by apply Hf|done]. }
  split_and!; [done| | |].
  - intros cs l Hcs Hl (m & Hm & HS)%Hexact. rewrite Forall_forall in HS.
    apply list_elem_of_lookup in Hcs as [i Hi]. apply list_elem_of_lookup in Hm as [j Hj].
    assert (j = i) as -> by (eapply Ha; [done|done|]; intros e He; by apply Hl, HS). rewrite Hi in Hj. injection Hj as <-. exact HS.
  - intros cs Hcs. rewrite Forall_forall in Hnd. by apply Hnd, Hf.
  - intros i j cs cs' Hi Hj Hp. eapply Ha; [done|done|]. intros e He. by rewrite <- Hp.
Qed.

(** ** The pass keeps the law

    Children come after their parent, which bounds the recursion. *)
Section law.
Context (inst : SystemInstance) (Hr : ranged inst).
Hypothesis (Hdown : ∀ i c j, components inst !! i = Some c → j ∈ children c → i < j).

Lemma yields_dotted_path i : i < length (components inst) → yields (dotted_path inst i) (λ _, True).
Proof. intros Hi. unfold dotted_path. read (by apply (yields_path _ Hr _ "")) as p Hp. by apply yields_ret. Qed.

Lemma error_handling_reported fuel i : i < length (components inst) → length (components inst) - i < fuel →
  reports inst "emv2_fault_tree" (check_error_handling fuel inst i).
Proof.
  revert i. induction fuel as [|fuel IH]; intros i Hi Hf; [lia|]. cbn [check_error_handling].
  read (by apply yields_component) as c Hc. read (by apply (yields_path _ Hr _ "emv2_fault_tree")) as p Hp.
  read (apply (yields_concatM _ _ (issued inst "emv2_fault_tree"))) as ds Hds; [|apply yields_ret; all_issued].
  intros j Hj. pose proof (Hdown _ _ _ Hc Hj). pose proof (child_in_range _ Hr _ _ _ Hc Hj). apply IH; lia.
Qed.

Lemma yields_subtree fuel i : i < length (components inst) → length (components inst) - i < fuel →
  yields (build_subtree fuel inst i) (λ _, True).
Proof.
  revert i. induction fuel as [|fuel IH]; intros i Hi Hf; [lia|]. cbn [build_subtree].
  read (by apply yields_component) as c Hc. read (by apply yields_dotted_path) as p Hp. destruct (is_empty _); [by apply yields_ret|].
  read (apply yields_mapM) as cs Hcs; [|by apply yields_ret].
  intros j Hj. pose proof (Hdown _ _ _ Hc Hj). pose proof (child_in_range _ Hr _ _ _ Hc Hj).
  destruct (IH j) as (n & Hn & _); [lia..|]. by exists n.
Qed.

Lemma emv2_reported : reports inst "emv2_fault_tree" (emv2_analyze inst).
Proof.
  pose proof (wf_root _ (rg_wf _ Hr)) as Hroot. unfold emv2_analyze, build_hierarchy_fault_tree, report_cut_sets.
  read (apply error_handling_reported; lia) as ds Hds.
  eapply yields_bind with (P := λ _, True).
  { read (by apply yields_dotted_path) as p Hp. read (apply yields_subtree; lia) as node Hnode. by apply yields_ret. }
  intros [t|] _; [|by apply yields_ret]. cbn zeta.
  read (refine (_ : reports inst "emv2_fault_tree" _)) as rs Hrs; [|by apply yields_ret, Forall_app_2].
  destruct (is_empty _); [by apply yields_ret|]. read (by apply (yields_path _ Hr _ "emv2_fault_tree")) as p Hp.
  apply yields_ret. all_issued.
Qed.
End law.

(** The pass returns on every instance that is instantiated from well-indexed
    trees, with diagnostics of its own: what an instantiated component lists as
    children comes after it. *)
Theorem emv2_runs ts g levels pkg ty im : Forall well_indexed ts → Resolver.from_trees ts = Done g →
  ∃ inst, instantiate_to g levels pkg ty im = Done inst ∧ reports inst "emv2_fault_tree" (analyze emv2_fault_tree inst).
Proof.
  intros Hok Hg. destruct (instantiate_to_sane ts g Hok Hg levels pkg ty im) as (inst & Hi & Hwf & Ha & Hs & _).
  exists inst. split; [exact Hi|]. apply emv2_reported; [by eapply sane_ranged|].
  intros i c j Hc Hj. rewrite (st_children _ _ Hs i c Hc) in Hj by apply not_elem_of_nil.
  apply positions_elem in Hj. unfold parents in Hj. rewrite list_lookup_fmap in Hj.
  apply fmap_Some in Hj as (c' & Hc' & Hp). by eapply wf_parent.
Qed.

(** ** An example

    Two sensors and a monitor of both, of which one is needed: the monitor is a
    single point of failure. *)
#[local] Open Scope string_scope.
Definition sensors_ex : FaultTree :=
  {| top_event := "no reading";
     tree_root := Or "no reading"
       [And "both sensors" [BasicEvent "s.a" "Failure" "a fails"; BasicEvent "s.b" "Failure" "b fails"];
        BasicEvent "s.m" "Failure" "the monitor fails";
        And "monitor and a sensor" [BasicEvent "s.m" "Failure" "the monitor fails"; BasicEvent "s.a" "Failure" "a fails"]] |}.

Example sensors_cut_sets : minimal_cut_sets sensors_ex = [["s.m.Failure"]; ["s.a.Failure"; "s.b.Failure"]].
Proof. vm_compute. reflexivity. Qed.
#[local] Close Scope string_scope.
